(* ===== verification/_CoqProject ===== *)
-Q . S2P
Prelude.v
Replica.v
Playlist.v
Starred.v
PosKey.v
ReadingPos.v
History.v
GoText.v
GoPath.v
Drive.v
DriveViews.v
Policy.v
PolicyDefaults.v
Candidate.v
AcqState.v
Satisfaction.v
Upgrade.v
Schedule.v
JobTable.v
Jobs.v
JobSteps.v
JobQueue.v
GoScan.v
Pieces.v
PieceSets.v
Chunking.v
ChunkStream.v
Manifests.v
ManifestSpec.v
Resume.v
ResumeSpec.v
BlobCatalog.v
StoreSteps.v
Collect.v
CollectSpec.v
CollectQuiet.v
Fsck.v
FsckSpec.v
Repair.v
RepairSpec.v
Transfers.v
TransfersSpec.v
Converge.v
ConvergeSpec.v
ReconcilePeer.v
BlobTransfer.v
BlobTransferSpec.v
ReconcileSpec.v
PeerRounds.v
Swarm.v
SwarmSteps.v
SwarmSpec.v
PiecePull.v
PiecePullSpec.v
Pull.v
PullSpec.v
Replicate.v
ReplicateSpec.v
GoEncoding.v
GoTime.v
Paging.v
Playback.v
RendererProgress.v
PlaybackSpec.v
PlaybackLists.v
Capability.v
CapabilitySpec.v
Planner.v
PlannerSpec.v
Routing.v
RoutingSpec.v
StartPlayback.v
StartPlaybackSpec.v
StreamPlan.v
StreamPlanSpec.v
Album.v
AlbumSpec.v
