(* ===== verification/Prelude.v ===== *)
(** * Heyarr: a verification development

    Heyarr keeps a household's media.  The core modelled here has five parts.

    ** Personal state (src/internal/personalstate/crdt)

    What a person does on a device (playlists, stars, reading positions, plays, the
    files of a vault) is shipped between devices as changes, through servers that
    cannot read them.  Each kind of state is a CRDT: every device folds in the
    changes it receives, in any order and more than once, and must end with the
    same state.
    - Replica.v states that promise as a class ([Replica], [ReplicaLaws]) with its
      theorems, and the lattice of maps and tombstones the kinds are made of.
    - Playlist.v (playlist.go, snapshot.go), Starred.v (starred.go,
      starred_snapshot.go), ReadingPos.v (readingpos.go, readingpos_snapshot.go),
      History.v (history.go, history_snapshot.go) model one kind each: the records
      of the Go structs, [Apply] as a fold of the file's [applyOne] (named after its
      kind: [applyChange], [applyStar], [applyPosition], [applyPlay], [applyDrive]),
      [Merge], the local operations, the reads, and the snapshot structures.
      PosKey.v is the (counter, writer) key three of the kinds share.
    - Drive.v (drive.go, drive_meta.go, kind.go) models the path-keyed map of vault
      files: validation, local writes, heads and versions; DriveViews.v
      (drive_conflict.go, drive_retention.go, drive_snapshot.go) the conflict-free
      tree, the retention report and the snapshot.
    - Album.v (album.go, album_snapshot.go) is the photo album: a set of writes, its
      registers and the view derived from them; AlbumSpec.v its theorems.
    The theorems: each kind converges and merging replays the changes
    ([*_converges], [*_merge_replays]); what the state then says is a function of the
    set of changes (add-wins, last write, most recent first, counts); lists do not
    depend on the order in which Go visits a map; local operations do what the caller
    asked; snapshots read back.  An album shows what its history says ([album_contents]) and converges
    even when two writes share a key ([album_converges]).  Three of them show where the
    promise fails: [playlist_items_tie], [drive_collision_diverges] and [album_cover_hidden].

    ** Acquisition (src/internal/domain/policy, src/internal/domain/acquisition)

    A want is searched for, the releases found are judged against a quality profile,
    one is fetched, verified and ingested, and what is held is reconciled against the
    want for as long as it is wanted.
    - Policy.v (attribute.go, value.go, profile.go, language.go, resolution.go) and
      PolicyDefaults.v (defaults.go): profiles, their validation, the seeded ones.
    - Candidate.v (candidate.go, match.go): the evaluation of a release with its
      reasons, the ranking, the gates before it.
    - AcqState.v (state.go, transitions.go): the phase table and the operations on a
      want's state, over [AcqState.State].
    - Satisfaction.v (satisfaction.go, store.go, and the writes of
      src/internal/persistence/catalog/reconcile.go and acquisition.go): the two
      verdicts, and how they are written onto that state.
    - Upgrade.v (upgrade.go) and Schedule.v (schedule.go, route.go, store.go): when a
      better copy is fetched, and when a search runs again.
    The theorems: the states reachable by any sequence of operations are exactly the
    coherent ones, and bytes are never managed unverified; every operation on every
    branch, errors included; the verdict, score and reasons of an evaluation from its
    rules; a ranking that does not depend on the order of the candidates; an upgrade
    is strictly better, so repeating the scan ends; delays stay within their bounds
    although the shift inside them overflows 64 bits.

    ** The job queue (src/internal/jobs)

    Every long piece of work is a row of one SQL table that workers claim under a lease.
    - JobTable.v: the row, the constraints of the migration
      (src/internal/persistence/sqlite/migrations/00003_jobs.sql) and the statements.
    - Jobs.v (jobs.go): every operation, a transaction at a time, with its events.
    - JobSteps.v: the operations as the steps of one system under any interleaving, the
      exact effect of each, and the invariant of the table.
    - JobQueue.v: the theorems: the invariant over every run, the refinement of the
      machine of one job, exclusive leases, what claim, fail, enqueue, retry and the
      bulk loops do, the agreement of the event log; and [crash_loop_never_dead], where
      the code does not do what its comment says.

    ** The storage fabric (src/internal/storagefabric, src/internal/peer/transfer)

    A blob is the bytes its digest names.  Peers exchange blobs; a destination verifies
    everything it is given.
    - Chunking.v (chunking/fastcdc.go, gear.go) is the content-defined chunker, with its
      bounded buffer over any reader; ChunkStream.v its theorems.
    - Manifests.v (manifests/manifest.go, generate.go, plan.go, state.go) is the chunk
      sequence of a blob, its digest, its generation from a stream, and the plan of what a
      transfer can reuse; ManifestSpec.v the theorems.
    - Resume.v (peer/transfer/resume.go over cas/partial.go) is the resumable pull:
      verified prefix, local reuse, the report of a donor whose bytes did not match, ranged
      reads, publication; ResumeSpec.v the theorems.
    - Pieces.v (pieces/geometry.go, availability.go) is the exchange geometry and its
      bitsets; PieceSets.v the theorems.
    - Swarm.v (peer/transfer/piecesession.go, with the requests of pieces.go and webseed.go
      and the sparse writes of cas/partial.go) is the session of a pull from many sources
      at once: workers that share a state under one lock, as steps that interleave;
      SwarmSteps.v its steps and invariant, SwarmSpec.v its theorems.  PiecePull.v
      (peer/transfer/pieces.go) is the pull around it: resume, survey, publication;
      PiecePullSpec.v its theorems.
    - BlobCatalog.v is what the node keeps of its blobs: the tables (migrations 00002,
      00007, 00028, 00050, 00062, 00065, 00070), the transactions on them
      (src/internal/persistence/catalog/integrity.go, releases.go, durability.go,
      thumbnails.go, convergence.go) and the files of the store (cas/fs.go, staging.go).
    - StoreSteps.v is the monad of the programs over both: between any two steps other
      processes may do anything, a step may fail or succeed unheard, and a history is
      kept; with a logic for any interference, one for reads, one for quiet runs.
    - Collect.v (integrity/collect.go, gate.go, durability.go) is garbage collection,
      CollectSpec.v and CollectQuiet.v its theorems; Fsck.v (integrity/check.go) the
      check, FsckSpec.v; Repair.v (integrity/repair.go) the chunk-scoped repair,
      RepairSpec.v.
    - Transfers.v (src/internal/domain/transfer/session.go, src/internal/domain/replication)
      is the order sources are tried in and the diff of what peers should hold against what
      they do, TransfersSpec.v its theorems; Converge.v (catalog/convergence.go) the plan of
      a convergence cycle over the catalog, ConvergeSpec.v; ReconcilePeer.v
      (src/internal/worker/reconcilepeer.go) the cycle that queues it, over an interface of
      the catalog, ReconcileSpec.v; BlobTransfer.v (catalog/transfer.go) the record of a
      transfer, BlobTransferSpec.v; PeerRounds.v puts plan, cycle, queue and record together.
    - Pull.v (peer/transfer/manifest.go, transfer.go, webseed.go, the wire form of
      src/internal/api/peerapi/manifests.go, the verified receive of cas/fs.go) is one pull
      from one source, with the quarantine of a donor found damaged, PullSpec.v its theorems;
      Replicate.v
      (src/internal/worker/replicateblob.go) the job that tries the sources, or assembles
      the blob from partial holders, and records what came of it, ReplicateSpec.v.
    The theorems: the streaming chunker refines the chunks of the whole input, which
    rebuild it and recover after an edit; a manifest is bound by its digest; a generated
    one is valid and covers its blob; a pull publishes the blob asked for or nothing, under
    any peer, index or staging file, takes nothing from the store but donors found damaged,
    never loses a verified chunk, and succeeds with an
    honest peer; pieces tile a blob, an availability is a finite set, and what a peer sends
    decodes to nothing else.  Under any interleaving and any sources a session fetches no
    piece twice at once nor asks a source for it again ([swarm_invariant],
    [swarm_asks_once]), always ends with no worker left asleep ([swarm_ends]), and with a
    source that holds the blob ends with every piece ([swarm_completes]); what it records
    has landed ([progress_truthful]), only verified bytes are published
    ([pull_pieces_safe]) and an honest source is enough while the others give no wrong bytes,
    the disk takes what is written and nothing cancels ([pull_pieces_completes]).  Garbage collection unlinks nothing it may not under any
    interference ([gc_safe]), removes exactly what it should when alone ([gc_effect]) and
    writes nothing in a dry run; a check reports exactly what is wrong and loses no byte;
    a repair writes in one order and publishes verified bytes only ([repair_order]), and
    restores the blob with an honest peer ([repair_completes]).  A cycle plans exactly what
    is wanted somewhere and not held there ([converge_plan]); a replica is recorded as
    present only where its bytes are, and no record of a transfer takes it away
    ([transfer_record]); a cycle only enqueues, whatever fails ([cycle_only_enqueues]), the
    first gaps no live job is closing ([cycle_queues]), and rounds whose transfers land
    close every gap of this node ([peer_converges]).  The job that moves one blob adds only
    bytes of its digest, takes away only files that are damaged, into quarantine, and
    records a replica only beside the bytes, whatever interferes
    ([replicate_guarantee]), tries the sources in rank order ([replicate_sources]) and
    succeeds when one of them serves the blob ([replicate_completes]).  [gc_sole_peer_race],
    [gc_dry_run_overstates], [fsck_missing_undesired], [foreign_gaps_starve] and
    [pull_interrupted_drops] show where the code does not do what its comments say, as does
    [unstarted_is_corrupt].  Where the conclusion could also be a collision of the hash,
    the theorem says so and nothing is assumed of the hash.

    ** Playback (src/internal/domain/playback, src/internal/domain/routing,
       src/internal/api/resources, src/internal/api/render)

    To play a work is to choose a peer that holds its bytes, decide whether the device plays
    them as they are, and open a session.  A renderer of the household knows nothing of
    accounts: it is handed a URL that is its own permission, and what it does is read back
    by polling.
    - Planner.v (domain/playback/planner.go, leg.go, protocolinfo.go) is the decision for a
      device or a client, and the profile read from a renderer; PlannerSpec.v its theorems.
      Routing.v (domain/routing/routing.go, api/resources/routing.go) is the choice of the
      peer; RoutingSpec.v.
    - StartPlayback.v (media/probe, api/resources/plan.go, playback.go) puts them together:
      the reads of a plan, its rendering, and the beginning of a playback with its session;
      StartPlaybackSpec.v.  StreamPlan.v (api/resources/streamtoken.go, playbackstream.go) is
      the plan of a client that declares itself, the signed address of a stream and the route
      that serves it; StreamPlanSpec.v.
    - Playback.v (domain/playback/session.go, api/resources/consumption.go, migration 00010)
      is the consumption session: the grammar of a position, the transition table, the rows
      and events, every handler, the paged list and the continue rail.  RendererProgress.v
      (api/resources/renderer_progress.go, src/internal/renderer/control.go) is the beat
      that polls renderers, and the system of its steps with those of clients.
      PlaybackSpec.v holds the theorems on both, PlaybackLists.v those on the lists.
    - Paging.v (api/resources/paging.go) is the cursor and the page; GoTime.v
      (persistence/sqlite/timestamp.go) the texts instants are stored as.
    - Capability.v (api/render/capability.go, handler.go, secret.go, and the minting of
      api/resources/playback.go and renderers.go) is the signed URL; CapabilitySpec.v its
      theorems.
    The theorems: a plan's reasons are exactly the facts that hold, and decide it
    ([choose_explains]); exactly where it and the leg of a client part ways ([leg_and_plan]); the
    profile of a renderer is what its entries say in any order of the map
    ([profile_declares], [renderer_plan_stable]); a read goes to the best peer that holds the
    bytes, every other is named with what held against it ([select_spec], [select_stable],
    [route_serves]); a playback that begins can be played ([begin_serves]), one that is
    refused opens nothing and says why ([begin_refuses]); a client is told to fetch what is
    there ([client_plan_serves]).  A row and its events agree under any interleaving ([sessions_sound]); what
    every transition answers ([transition_answers]); a poll never moves a session that has
    ended, ends one whose renderer plays something else or has stopped, and takes no
    position from a renderer that plays something else ([poll_guard]); it follows one that
    plays what it was given ([poll_follows]); a client that follows cursors misses no session
    that stayed as it was ([sessions_paged]); a token grants what was signed and nothing else
    ([capability_roundtrip], [capability_binds]), under a type of this program
    ([served_safe]), at the URL that was minted, until it expires ([cast_url_serves]).
    [nano_misorders], [listed_out_of_order], [fresh_session_ended], [mp3_reads_as_video],
    [playable_is_reencoded], [hdr_is_handed_over] and [distance_is_blamed] show where the code
    does not do what it means to.

    ** How Go is modelled

    Prelude.v holds the machine integers (a [uint64] is an [N], an [int] or [int64] a
    [Z], with the wrap-around written where the code can reach it), string order, the
    stable order of a comparison ([sort_by], of which [sort.Slice] is any sorted
    permutation), maps as stdpp's [gmap] and what a loop over one may depend on.
    GoText.v, GoPath.v and GoEncoding.v (strings, ParseInt, base64) are the functions of the
    Go standard library the code calls.
    Code outside the repository is a parameter: UUIDs are arguments, Unicode NFC and
    the parsing of a blob id are the class [DriveEnv] of Drive.v, with the one law
    used ([DriveEnvLaws]), the parsing of an id again [AlbumEnv] in Album.v, the generator of jitter is a function within its bound
    ([JobQueue.draws]), the digest is [Chunking.HashEnv] and its text
    [Manifests.HashText] (laws: [HashLaws]), a reader is [Chunking.Reader] with the
    contract of [io.Reader] ([ReaderLaws]), and the peer, the disk's other blobs and the
    chunk index are the record [Resume.Env].  Other processes, faults, cancellation and
    the clock are the record [StoreSteps.Env], the peers asked whether they hold a blob
    [StoreSteps.Durability], the digest text of a file [BlobCatalog.DigestOf], the manifest
    store and the peers of a repair [Repair.Sources], what the node is asked of its own
    store and siblings [Converge.Node], the answers and the schedule of a piece
    session the inputs of its moves ([Swarm.Input], [PiecePull.Env]), what the sources of a
    transfer answer [Pull.Attempt] and [Replicate.Outside], the parsing of a digest
    [Pull.HashParse] (law: [ParseLaws]), the faults of a cycle
    [ReconcilePeer.Ctl] and the
    catalog it reads [ReconcilePeer.ReconcilePeerStore], the signature of a token
    [Capability.HMAC], the JSON of a cursor [Paging.CursorJSON] (law: [CursorJSONLaws]), the
    base language of a tag [StartPlayback.LanguageTags], what probing and repackaging bring
    [StreamPlan.Streaming].  The
    seconds of a duration, a float in the code, are the exact quotient.  GoScan.v is the part of [fmt] that scans.

    ** Fuel

    Most loops of the code range over a finite list or map and are a fold or a
    structural recursion.  The chunker fills its buffer with fuel equal to the room left
    in it, which every read shrinks; a stream is drained by more calls than it has bytes,
    which always suffices ([chunking_streams], [generate_spec]); the piece length doubles
    at most six times ([scaleLength_spec]).  The search for a free conflicted-copy path
    ([DriveViews.findFree]) has no bound in the code; its fuel is one more than the
    number of taken paths, and [conflict_path_free] shows the loop returns within it.

    A session of workers has no fuel: a schedule is a list of steps, and [swarm_ends] shows
    that every one is finite and that a worker can go on until all are done.

    ** Not modelled

    JSON and the debugging [Encode] texts; the prose of errors (an error is its
    sentinel); the SQL text (a statement is what it selects and writes), HTTP, the modes
    and errors of the file system, cryptography.  A walk of the store is taken at one
    instant, an SQL timestamp is the instant it prints, and the file a repair stages is
    the value it passes along.  [ToLower] and [TrimSpace]
    act on ASCII.  A chunker is taken to have sizes its
    buffer can be allocated for.  Not modelled of the core:
    access leases, and the capacity of routes to renderers, which is floating point. *)

#[global] Set Warnings "-clear-no-such-hyp".

From Stdlib Require Export ZArith Lia.
From stdpp Require Export sorting.
From stdpp Require Export base option gmap strings fin_maps list.

Declare Scope heyarr_scope.
Delimit Scope heyarr_scope with heyarr.

Create Rewrite HintDb crdt.

(** ** Machine integers *)

(** A Go [uint64] or [uint32] is the natural number it denotes ([N]), a signed
    integer the [Z] it denotes.  The bounds and the wrap-around are stated where
    the code can reach them. *)

Definition MaxUint64 : N := 2 ^ 64 - 1.

Definition is_u64 (n : N) : Prop := (n ≤ MaxUint64)%N.

(** The result of an exact operation, brought back into the machine word. *)
Definition wrap_u64 (n : N) : N := (n mod 2 ^ 64)%N.
Definition wrap_i64 (z : Z) : Z := ((z + 2 ^ 63) mod 2 ^ 64 - 2 ^ 63)%Z.

Lemma wrap_i64_small z : (- 2 ^ 63 ≤ z < 2 ^ 63)%Z → wrap_i64 z = z.
Proof. intros H. unfold wrap_i64. rewrite Z.mod_small; lia. Qed.

Lemma wrap_i64_range z : (- 2 ^ 63 ≤ wrap_i64 z < 2 ^ 63)%Z.
Proof. unfold wrap_i64. pose proof (Z.mod_pos_bound (z + 2 ^ 63) (2 ^ 64)). lia. Qed.

Lemma wrap_i64_add a b : wrap_i64 (wrap_i64 a + b) = wrap_i64 (a + b).
Proof.
  unfold wrap_i64. f_equal.
  replace ((a + 2 ^ 63) mod 2 ^ 64 - 2 ^ 63 + b + 2 ^ 63)%Z
    with ((a + 2 ^ 63) mod 2 ^ 64 + b)%Z by lia.
  rewrite Zplus_mod_idemp_l. f_equal. lia.
Qed.

Lemma wrap_u64_small n : is_u64 n → wrap_u64 n = n.
Proof. unfold is_u64, MaxUint64, wrap_u64. intros H. apply N.mod_small. lia. Qed.

Lemma wrap_u64_range n : is_u64 (wrap_u64 n).
Proof.
  unfold is_u64, wrap_u64, MaxUint64.
  pose proof (N.mod_lt n (2 ^ 64)) as H. lia.
Qed.

(** [if s.counter < math.MaxUint64 { s.counter++ }] *)
Definition sat_succ (n : N) : N := if (n <? MaxUint64)%N then (n + 1)%N else n.

(** [if seen > cur { cur = seen }] *)
Definition raise_to (cur seen : N) : N := if (cur <? seen)%N then seen else cur.

Lemma raise_to_max cur seen : raise_to cur seen = N.max cur seen.
Proof. unfold raise_to. destruct (N.ltb_spec cur seen); lia. Qed.

Lemma sat_succ_spec n : is_u64 n →
  is_u64 (sat_succ n) ∧ (n ≤ sat_succ n)%N ∧ (n ≠ MaxUint64 → n < sat_succ n)%N.
Proof.
  unfold is_u64, sat_succ. intros H. destruct (N.ltb_spec n MaxUint64); lia.
Qed.

(** ** Orders: the [less] functions a Go [sort.Slice] call is given

    A [less] is a boolean strict weak order; it is total when two elements it
    does not separate are equal. *)

Class StrictWeak {A} (less : A → A → bool) : Prop := {
  less_irrefl x : less x x = false;
  less_trans x y z : less x y = true → less y z = true → less x z = true;
  less_ntrans x y z : less x y = false → less y z = false → less x z = false;
}.

Class StrictTotal {A} (less : A → A → bool) : Prop := {
  total_weak :: StrictWeak less;
  less_antisym x y : less x y = false → less y x = false → x = y;
}.

#[export] Hint Mode StrictWeak ! ! : typeclass_instances.
#[export] Hint Mode StrictTotal ! ! : typeclass_instances.

(** The comparison of Go strings: bytewise and lexicographic. *)
Definition str_lt (s t : string) : bool := negb (String.leb t s).

(** The shape of every multi-key [less] of the program:
    [if x.f != y.f { return x.f < y.f }; return rest(x, y)]. *)
Definition lex_less {A K} `{EqDecision K} (f : A → K) (lt : K → K → bool)
    (rest : A → A → bool) (x y : A) : bool :=
  if decide (f x = f y) then rest x y else lt (f x) (f y).

Definition key_less {A K} (f : A → K) (lt : K → K → bool) (x y : A) : bool :=
  lt (f x) (f y).

Definition flip_less {A} (less : A → A → bool) (x y : A) : bool := less y x.

#[global] Typeclasses Opaque lex_less key_less flip_less.

Section less_facts.
Context {A} (less : A → A → bool).

Lemma less_asym `{!StrictWeak less} x y : less x y = true → less y x = false.
Proof.
  intros H. destruct (less y x) eqn:E; [|done].
  pose proof (less_trans _ _ _ H E) as H'. by rewrite less_irrefl in H'.
Qed.

(** A strict order that separates distinct elements needs only transitivity:
    negative transitivity follows. *)
Lemma strict_total_intro :
  (∀ x, less x x = false) →
  (∀ x y z, less x y = true → less y z = true → less x z = true) →
  (∀ x y, less x y = false → less y x = false → x = y) →
  StrictTotal less.
Proof.
  intros Hirr Htr Hanti.
  split; [split|]; auto.
  intros x y z Hxy Hyz. destruct (less x z) eqn:Hxz; [|done].
  destruct (less y x) eqn:Hyx.
  - by rewrite (Htr _ _ _ Hyx Hxz) in Hyz.
  - rewrite (Hanti x y Hxy Hyx) in Hxz. congruence.
Qed.

#[export] Instance flip_weak `{!StrictWeak less} : StrictWeak (flip_less less).
Proof.
  split; unfold flip_less; intros.
  - apply less_irrefl.
  - by eapply less_trans.
  - by eapply less_ntrans.
Qed.

#[export] Instance flip_total `{!StrictTotal less} : StrictTotal (flip_less less).
Proof. split; [apply _|]. unfold flip_less. intros. by apply (less_antisym (less := less)). Qed.

#[export] Instance key_weak {B} (f : B → A) `{!StrictWeak less} :
  StrictWeak (key_less f less).
Proof.
  split; unfold key_less; intros.
  - apply less_irrefl.
  - by eapply less_trans.
  - by eapply less_ntrans.
Qed.

Lemma key_incomparable {B} (f : B → A) `{!StrictTotal less} x y :
  key_less f less x y = false → key_less f less y x = false → f x = f y.
Proof. unfold key_less. apply (less_antisym (less := less)). Qed.

#[export] Instance lex_weak {B} `{EqDecision A} (f : B → A) rest
  `{!StrictTotal less, !StrictWeak rest} : StrictWeak (lex_less f less rest).
Proof.
  split; unfold lex_less.
  - intros x. rewrite decide_True by done. apply less_irrefl.
  - intros x y z. destruct (decide (f x = f y)) as [Hxy|Hxy];
      destruct (decide (f y = f z)) as [Hyz|Hyz];
      destruct (decide (f x = f z)) as [Hxz|Hxz]; intros H1 H2; try congruence.
    + by eapply less_trans.
    + rewrite Hxz in H1. pose proof (less_asym _ _ H1). congruence.
    + by eapply less_trans.
  - intros x y z. destruct (decide (f x = f y)) as [Hxy|Hxy];
      destruct (decide (f y = f z)) as [Hyz|Hyz];
      destruct (decide (f x = f z)) as [Hxz|Hxz]; intros H1 H2; try congruence.
    + by eapply less_ntrans.
    + rewrite <-Hxz in H2. by pose proof (less_antisym _ _ H1 H2).
    + by eapply less_ntrans.
Qed.

Lemma lex_incomparable {B} `{EqDecision A} (f : B → A) rest `{!StrictTotal less} x y :
  lex_less f less rest x y = false → lex_less f less rest y x = false →
  f x = f y ∧ rest x y = false ∧ rest y x = false.
Proof.
  unfold lex_less. destruct (decide (f x = f y)) as [Hf|Hf];
    destruct (decide (f y = f x)); intros H1 H2; try congruence; [done|].
  exfalso. apply Hf. by apply (less_antisym (less := less)).
Qed.
End less_facts.

#[export] Instance Zltb_total : StrictTotal Z.ltb.
Proof.
  apply strict_total_intro; intros *; rewrite ?Z.ltb_lt, ?Z.ltb_ge; lia.
Qed.

#[export] Instance natltb_total : StrictTotal Nat.ltb.
Proof.
  apply strict_total_intro; intros *; rewrite ?Nat.ltb_lt, ?Nat.ltb_ge; lia.
Qed.

#[export] Instance Nltb_total : StrictTotal N.ltb.
Proof.
  apply strict_total_intro; intros *; rewrite ?N.ltb_lt, ?N.ltb_ge; lia.
Qed.

#[export] Instance str_lt_total : StrictTotal str_lt.
Proof.
  assert (∀ s t, str_lt s t = true ↔ ¬ String.le t s) as Hlt.
  { intros s t. unfold str_lt, String.le. destruct (String.leb t s); simpl; intuition congruence. }
  assert (∀ s t, str_lt s t = false ↔ String.le t s) as Hge.
  { intros s t. unfold str_lt, String.le. destruct (String.leb t s); simpl; intuition congruence. }
  apply strict_total_intro.
  - intros s. by apply Hge.
  - intros s t u. rewrite !Hlt. intros H1 H2 H3.
    destruct (total String.le s t) as [H|H]; [|done].
    apply H2. by trans s.
  - intros s t. rewrite !Hge. intros H1 H2. by apply (anti_symm String.le).
Qed.

(** ** The minimum under a [less] *)

Definition min_by {A} (less : A → A → bool) (a b : A) : A := if less b a then b else a.

Section min_by.
Context {A} (less : A → A → bool).

Lemma min_by_idem a : min_by less a a = a.
Proof. unfold min_by. by destruct (less a a). Qed.

Lemma min_by_comm `{!StrictTotal less} a b : min_by less a b = min_by less b a.
Proof.
  unfold min_by. destruct (less b a) eqn:H1, (less a b) eqn:H2; try done.
  - pose proof (less_asym _ _ _ H1). congruence.
  - by apply (less_antisym (less := less)).
Qed.

Lemma min_by_assoc `{!StrictWeak less} a b c :
  min_by less a (min_by less b c) = min_by less (min_by less a b) c.
Proof.
  unfold min_by.
  destruct (less c b) eqn:Hcb, (less b a) eqn:Hba; rewrite ?Hcb, ?Hba; try done.
  - by rewrite (less_trans _ _ _ Hcb Hba).
  - destruct (less c a) eqn:Hca; [|done].
    exfalso. pose proof (less_ntrans c b a Hcb Hba). congruence.
Qed.
End min_by.

(** ** Sorting

    [sort.SliceStable] with a [less] is the stable sort below.  [sort.Slice] is
    unspecified on ties, and is the same function where [less] separates
    distinct elements: [sort_by_unique] says that then every sorted permutation,
    whatever algorithm computed it, is the one [sort_by] returns. *)

Definition not_after {A} (less : A → A → bool) (x y : A) : Prop := less y x = false.

#[export] Instance not_after_dec {A} (less : A → A → bool) x y :
  Decision (not_after less x y).
Proof. unfold not_after. apply _. Defined.

Definition sort_by {A} (less : A → A → bool) (l : list A) : list A :=
  merge_sort (not_after less) l.

Section sort_by.
Context {A} (less : A → A → bool) `{!StrictWeak less}.

#[local] Instance not_after_total : Total (not_after less).
Proof.
  intros x y. unfold not_after. destruct (less y x) eqn:E; [|by left].
  right. by eapply less_asym.
Qed.

#[local] Instance not_after_trans : Transitive (not_after less).
Proof. intros x y z H1 H2. unfold not_after in *. by eapply less_ntrans. Qed.

Lemma sort_by_perm l : sort_by less l ≡ₚ l.
Proof. apply merge_sort_Permutation. Qed.

Lemma elem_of_sort_by x l : x ∈ sort_by less l ↔ x ∈ l.
Proof. by rewrite sort_by_perm. Qed.

Lemma length_sort_by l : length (sort_by less l) = length l.
Proof. by rewrite sort_by_perm. Qed.

Lemma NoDup_sort_by l : NoDup (sort_by less l) ↔ NoDup l.
Proof. by rewrite sort_by_perm. Qed.

Lemma sort_by_sorted l : StronglySorted (not_after less) (sort_by less l).
Proof. apply (StronglySorted_merge_sort _). Qed.

Lemma sort_by_unique l l' :
  (∀ x y, x ∈ l → y ∈ l → less x y = false → less y x = false → x = y) →
  l' ≡ₚ l → StronglySorted (not_after less) l' → l' = sort_by less l.
Proof.
  intros Hanti Hperm Hsorted.
  apply (StronglySorted_unique_strong (not_after less)).
  - intros x y Hx Hy H1 H2. apply Hanti; try done.
    + by rewrite <-Hperm.
    + by rewrite <-(sort_by_perm l).
  - done.
  - apply sort_by_sorted.
  - by rewrite sort_by_perm.
Qed.

(** Without duplicates, a total [less] sorts strictly. *)
Lemma sort_by_strict l :
  StrictTotal less → NoDup l → StronglySorted (λ x y, less x y = true) (sort_by less l).
Proof.
  intros Ht Hnd%NoDup_sort_by. pose proof (sort_by_sorted l) as Hs.
  induction Hs as [|x k Hk IH Hx]; constructor; inversion Hnd; subst; [auto|].
  rewrite Forall_forall in Hx |- *. intros y Hy. specialize (Hx y Hy). unfold not_after in Hx.
  destruct (less x y) eqn:E; [done|]. exfalso.
  by rewrite (less_antisym (less := less) x y E Hx) in *.
Qed.

Lemma sort_by_perm_eq l l' :
  (∀ x y, x ∈ l → y ∈ l → less x y = false → less y x = false → x = y) →
  l ≡ₚ l' → sort_by less l' = sort_by less l.
Proof.
  intros Hanti Hperm. apply sort_by_unique; [done| |apply sort_by_sorted].
  by rewrite sort_by_perm.
Qed.
End sort_by.

(** ** Maps that merge key by key

    The loops of the program that fold one Go map into another, joining the two
    values where both hold the key. *)

(** [if existing, ok := m[k]; ok { v = join(existing, v) }; m[k] = v] *)
Definition put_join `{Countable K} {V} (join : V → V → V) (k : K) (v : V)
    (m : gmap K V) : gmap K V :=
  <[k := match m !! k with Some existing => join existing v | None => v end]> m.

(** [for k, v := range src { put_join(dst, k, v) }] *)
Definition merge_into `{Countable K} {V} (join : V → V → V) (src dst : gmap K V) : gmap K V :=
  map_fold (put_join join) dst src.

(** What both compute: the pointwise join. *)
Definition join_maps `{Countable K} {V} (join : V → V → V) (m1 m2 : gmap K V) : gmap K V :=
  union_with (λ a b, Some (join a b)) m1 m2.

Section join_maps.
Context `{Countable K} {V} (join : V → V → V).
Implicit Types (m : gmap K V).

Lemma lookup_join_maps m1 m2 k :
  join_maps join m1 m2 !! k =
    match m1 !! k, m2 !! k with
    | Some a, Some b => Some (join a b)
    | Some a, None => Some a
    | None, o => o
    end.
Proof. unfold join_maps. rewrite lookup_union_with. by destruct (m1 !! k), (m2 !! k). Qed.

Lemma put_join_eq k v m : put_join join k v m = join_maps join m {[k := v]}.
Proof.
  apply map_eq. intros i. rewrite lookup_join_maps. unfold put_join.
  destruct (decide (i = k)) as [->|Hne].
  - rewrite lookup_insert_eq, lookup_singleton_eq. by destruct (m !! k).
  - rewrite lookup_insert_ne, lookup_singleton_ne by done. by destruct (m !! i).
Qed.

Lemma join_maps_empty_l m : join_maps join ∅ m = m.
Proof. apply map_eq. intros i. by rewrite lookup_join_maps, lookup_empty. Qed.

Lemma join_maps_empty_r m : join_maps join m ∅ = m.
Proof. apply map_eq. intros i. rewrite lookup_join_maps, lookup_empty. by destruct (m !! i). Qed.

Lemma join_maps_idem m : (∀ a, join a a = a) → join_maps join m m = m.
Proof.
  intros Hid. apply map_eq. intros i. rewrite lookup_join_maps.
  destruct (m !! i); [by rewrite Hid|done].
Qed.

Lemma join_maps_comm m1 m2 :
  (∀ a b, join a b = join b a) → join_maps join m1 m2 = join_maps join m2 m1.
Proof.
  intros Hc. apply map_eq. intros i. rewrite !lookup_join_maps.
  destruct (m1 !! i), (m2 !! i); congruence.
Qed.

Lemma join_maps_assoc m1 m2 m3 :
  (∀ a b c, join a (join b c) = join (join a b) c) →
  join_maps join m1 (join_maps join m2 m3) = join_maps join (join_maps join m1 m2) m3.
Proof.
  intros Ha. apply map_eq. intros i. rewrite !lookup_join_maps.
  destruct (m1 !! i), (m2 !! i), (m3 !! i); congruence.
Qed.

(** The loop is the pointwise join, whatever order Go's [range] visits the
    keys in: the join is applied once per key. *)
Lemma merge_into_eq (src dst : gmap K V) : merge_into join src dst = join_maps join dst src.
Proof.
  unfold merge_into. induction src as [|k v src Hk Hfirst IH] using map_first_key_ind.
  - by rewrite map_fold_empty, join_maps_empty_r.
  - rewrite map_fold_insert_first_key, IH by done. apply map_eq. intros i.
    unfold put_join. rewrite !lookup_join_maps, Hk.
    destruct (decide (i = k)) as [->|Hne].
    + rewrite !lookup_insert_eq. by destruct (dst !! k).
    + rewrite !lookup_insert_ne, lookup_join_maps by done. done.
Qed.
End join_maps.

(** A fold over a map is determined by the values of its step. *)
Lemma map_fold_pointwise `{Countable K} {V B} (f g : K → V → B → B) b (m : gmap K V) :
  (∀ k v x, f k v x = g k v x) → map_fold f b m = map_fold g b m.
Proof.
  intros Hfg. rewrite !map_fold_foldr. induction (map_to_list m) as [|[k v] l IH]; [done|].
  simpl. by rewrite IH, Hfg.
Qed.

(** ** Sets that only grow *)

(** [for _, tag := range tags { t[tag] = struct{}{} }] *)
Definition add_tags (tags : list string) (t : gset string) : gset string :=
  foldl (λ t tag, {[tag]} ∪ t) t tags.

(** [for tag := range src { dst[tag] = struct{}{} }] *)
Definition add_all `{Countable K} (src dst : gset K) : gset K :=
  set_fold (λ tag t, {[tag]} ∪ t) dst src.

Lemma add_tags_eq tags t : add_tags tags t = list_to_set tags ∪ t.
Proof.
  unfold add_tags. revert t. induction tags as [|x tags IH]; intros t; simpl; [set_solver|].
  rewrite IH. set_solver.
Qed.

Lemma add_all_eq `{Countable K} (src dst : gset K) : add_all src dst = src ∪ dst.
Proof.
  unfold add_all.
  apply (set_fold_ind_L (λ (r X : gset K), r = X ∪ dst)); [set_solver|].
  intros x X r _ ->. set_solver.
Qed.

#[export] Hint Rewrite @put_join_eq @merge_into_eq add_tags_eq @add_all_eq raise_to_max
  : crdt.

(** ** Lists *)

Lemma foldl_snoc' {A B} (f : B → A → B) b l x : foldl f b (l ++ [x]) = f (foldl f b l) x.
Proof. by rewrite foldl_app. Qed.

Lemma exists_snoc {A} (P : A → Prop) (l : list A) x :
  (∃ y, y ∈ l ++ [x] ∧ P y) ↔ (∃ y, y ∈ l ∧ P y) ∨ P x.
Proof.
  split.
  - intros (y & [Hy|Hy%list_elem_of_singleton]%elem_of_app & HP); [eauto|]. subst. by right.
  - intros [(y & Hy & HP)|HP]; [exists y|exists x]; (split; [set_solver|done]).
Qed.

Lemma fmap_NoDup_inj {A B} (f : A → B) (l : list A) x y :
  NoDup (f <$> l) → x ∈ l → y ∈ l → f x = f y → x = y.
Proof.
  induction l as [|z l IH]; [set_solver|]. rewrite fmap_cons, NoDup_cons.
  intros [Hz Hnd] Hx Hy Hf. apply elem_of_cons in Hx, Hy.
  destruct Hx as [->|Hx], Hy as [->|Hy]; try done.
  - exfalso. apply Hz. rewrite Hf. by apply list_elem_of_fmap_2.
  - exfalso. apply Hz. rewrite <-Hf. by apply list_elem_of_fmap_2.
  - by apply IH.
Qed.

Lemma NoDup_fmap_filter {A B} (f : A → B) (P : A → Prop) `{∀ x, Decision (P x)} l :
  NoDup (f <$> l) → NoDup (f <$> filter P l).
Proof.
  induction l as [|x l IH]; [done|]. rewrite fmap_cons, NoDup_cons, filter_cons.
  intros [Hx Hl]. case_decide; [|auto]. rewrite fmap_cons, NoDup_cons. split; [|auto].
  intros (y & Hy & [_ Hin]%list_elem_of_filter)%list_elem_of_fmap. apply Hx.
  rewrite Hy. by apply list_elem_of_fmap_2.
Qed.

Lemma NoDup_fmap_omap {A B C} (f : A → option B) (g : B → C) (h : A → C) l :
  (∀ x y, f x = Some y → g y = h x) → NoDup (h <$> l) → NoDup (g <$> omap f l).
Proof.
  intros Hf. induction l as [|x l IH]; [constructor|]. rewrite fmap_cons, NoDup_cons.
  intros [Hx Hl]. change (omap f (x :: l)) with
    (match f x with Some y => y :: omap f l | None => omap f l end).
  destruct (f x) as [y|] eqn:E; [|auto]. rewrite fmap_cons, NoDup_cons. split; [|auto].
  intros (z & Hz & (w & Hw & Hfw)%list_elem_of_omap)%list_elem_of_fmap. apply Hx.
  rewrite <-(Hf _ _ E), Hz, (Hf _ _ Hfw). by apply list_elem_of_fmap_2.
Qed.

Lemma StronglySorted_filter {A} (R : relation A) (P : A → Prop) `{∀ x, Decision (P x)} l :
  StronglySorted R l → StronglySorted R (filter P l).
Proof.
  induction 1 as [|x l Hl IH Hx]; [constructor|]. rewrite filter_cons. case_decide; [|done].
  constructor; [done|]. rewrite Forall_forall in Hx |- *.
  intros y Hy%list_elem_of_filter. apply Hx. tauto.
Qed.

Lemma StronglySorted_weaken {A} (R R' : relation A) l :
  (∀ x y, R x y → R' x y) → StronglySorted R l → StronglySorted R' l.
Proof.
  intros HR. induction 1 as [|x l Hl IH Hx]; constructor; [done|].
  eapply Forall_impl; [exact Hx|auto].
Qed.

Lemma StronglySorted_snoc {A} (R : relation A) l x :
  StronglySorted R l → Forall (λ y, R y x) l → StronglySorted R (l ++ [x]).
Proof.
  intros Hl Hx. apply StronglySorted_app. split_and!; [|done|repeat constructor].
  rewrite Forall_forall in Hx. intros y z Hy ->%list_elem_of_singleton. auto.
Qed.

Lemma NoDup_same_elements {A} (l k : list A) :
  NoDup l → NoDup k → (∀ x, x ∈ l ↔ x ∈ k) → l ≡ₚ k.
Proof. apply NoDup_Permutation. Qed.

(** [for _, x := range l { m[f(x)] = g(x) }] *)
Definition insert_each `{Countable K} {A V} (f : A → K) (g : A → V) (l : list A)
    (m : gmap K V) : gmap K V :=
  foldl (λ m x, <[f x := g x]> m) m l.

Lemma insert_each_lookup `{Countable K} {A V} (f : A → K) (g : A → V) l x m :
  NoDup (f <$> l) → x ∈ l → insert_each f g l m !! f x = Some (g x).
Proof.
  unfold insert_each. revert m. induction l as [|y l IH] using rev_ind; intros m; [set_solver|].
  rewrite fmap_app, foldl_snoc'. intros Hnd Hx. apply NoDup_app in Hnd as (Hl & Hy & _).
  apply elem_of_app in Hx as [Hx|Hx%list_elem_of_singleton].
  - rewrite lookup_insert_ne; [by apply IH|].
    intros Heq. apply (Hy (f x)); [by apply list_elem_of_fmap_2|]. rewrite <-Heq. set_solver.
  - subst. by rewrite lookup_insert_eq.
Qed.

Lemma insert_each_notin `{Countable K} {A V} (f : A → K) (g : A → V) l k m :
  k ∉ f <$> l → insert_each f g l m !! k = m !! k.
Proof.
  unfold insert_each. revert m. induction l as [|y l IH]; intros m Hk; simpl; [done|].
  rewrite fmap_cons, not_elem_of_cons in Hk. destruct Hk as [Hk1 Hk2].
  rewrite IH by done. by rewrite lookup_insert_ne.
Qed.

(** Writing out every pair of a map, in any order, and reading the pairs back. *)
Lemma insert_each_map_in `{Countable K} {A V} (f : A → K) (g : A → V) (h : K * V → A)
    (l : list A) (m : gmap K V) :
  (∀ k v, m !! k = Some v → f (h (k, v)) = k ∧ g (h (k, v)) = v) →
  l ≡ₚ h <$> map_to_list m → insert_each f g l ∅ = m.
Proof.
  intros Hfg Hperm.
  assert (f <$> l ≡ₚ (map_to_list m).*1) as Hkeys.
  { rewrite Hperm, <-list_fmap_compose. apply reflexive_eq, list_fmap_ext.
    intros i [k v] Hi%list_elem_of_lookup_2%elem_of_map_to_list. by apply Hfg. }
  apply map_eq. intros k. destruct (m !! k) as [v|] eqn:Hk.
  - destruct (Hfg k v Hk) as [Hf Hg]. rewrite <-Hf at 1.
    rewrite insert_each_lookup; [by rewrite Hg|..].
    + rewrite Hkeys. apply NoDup_fst_map_to_list.
    + rewrite Hperm. apply list_elem_of_fmap_2. by apply elem_of_map_to_list.
  - rewrite insert_each_notin, lookup_empty; [done|].
    rewrite Hkeys. intros ([k' v] & -> & Hin%elem_of_map_to_list)%list_elem_of_fmap.
    simpl in *. congruence.
Qed.

Lemma insert_each_map `{Countable K} {A V} (f : A → K) (g : A → V) (h : K * V → A)
    (l : list A) (m : gmap K V) :
  (∀ p, f (h p) = p.1) → (∀ p, g (h p) = p.2) →
  l ≡ₚ h <$> map_to_list m → insert_each f g l ∅ = m.
Proof. intros Hf Hg. apply insert_each_map_in. intros k v _. by rewrite Hf, Hg. Qed.

Lemma seq_S_head i n : seq i (S n) = i :: seq (S i) n.
Proof. done. Qed.

Lemma forallb_false {A} (f : A → bool) (l : list A) :
  forallb f l = false ↔ ∃ x, x ∈ l ∧ f x = false.
Proof.
  induction l as [|y l IH]; simpl.
  - split; [done|]. by intros (x & Hx%elem_of_nil & _).
  - rewrite andb_false_iff, IH. split.
    + intros [H|(x & Hx & H)]; [exists y|exists x]; (split; [|done]); [by left|by right].
    + intros (x & [->|Hx]%elem_of_cons & H); [by left|right; eauto].
Qed.

(** Membership in a literal list, by cases. *)
Ltac cases_in H :=
  repeat (first
    [ apply elem_of_nil in H; destruct H
    | apply elem_of_cons in H; destruct H as [H|H]; [subst|] ]).

(** A decidable closed proposition, by computation. *)
Ltac decide_vm := apply (bool_decide_unpack _); vm_compute; exact I.
