(* ===== verification/Replica.v ===== *)
(** * Replica: what a convergent replicated type promises

    The interface of [internal/personalstate/crdt]: a state, the changes that are
    shipped between devices, the fold of one change ([applyOne]) and the fold of
    whole states ([Merge]).  A client of the package relies on one property
    (doc.go, "The one property that defines correctness"): applying a set of
    changes in any order, with any duplicates, gives one state, and merging
    states is the same as replaying their changes.  Those theorems are proved
    here once, from the laws; each kind of personal state discharges the laws. *)

From S2P Require Import Prelude.

(** The operations.  [delta c] is the state that holds the change [c] alone. *)
Class Replica (S C : Type) := {
  fresh : S;
  applyOne : S → C → S;
  merge : S → S → S;
  delta : C → S;
}.

(** The laws.  [ok] and [okc] say which states and which changes they are
    promised for. *)
Class ReplicaLaws (S C : Type) `{!Replica S C} (ok : S → Prop) (okc : C → Prop) : Prop := {
  ok_fresh : ok fresh;
  ok_delta c : okc c → ok (delta c);
  ok_merge s t : ok s → ok t → ok (merge s t);
  merge_assoc s t u : ok s → ok t → ok u → merge s (merge t u) = merge (merge s t) u;
  merge_comm s t : ok s → ok t → merge s t = merge t s;
  merge_idem s : ok s → merge s s = s;
  merge_fresh s : ok s → merge fresh s = s;
  apply_delta s c : ok s → okc c → applyOne s c = merge s (delta c);
}.

(** [Apply(changes...)]: the fold of the changes, in arrival order. *)
Definition applyAll {S C} `{!Replica S C} (s : S) (cs : list C) : S :=
  foldl applyOne s cs.

(** [Merge(states...)]: the fold of the states into a new one. *)
Definition mergeAll {S C} `{!Replica S C} (ss : list S) : S :=
  foldl merge fresh ss.

Create HintDb replica.

Section convergence.
Context {S C : Type} `{!Replica S C} (ok : S → Prop) (okc : C → Prop)
  `{!ReplicaLaws S C ok okc}.

(** The laws, at the section's predicates. *)
Lemma j_fresh : ok fresh.
Proof. apply (ok_fresh (okc := okc)). Qed.
Lemma j_delta c : okc c → ok (delta c).
Proof. apply ok_delta. Qed.
Lemma j_merge s t : ok s → ok t → ok (merge s t).
Proof. apply (ok_merge (okc := okc)). Qed.
Lemma j_assoc s t u : ok s → ok t → ok u → merge s (merge t u) = merge (merge s t) u.
Proof. apply (merge_assoc (okc := okc)). Qed.
Lemma j_comm s t : ok s → ok t → merge s t = merge t s.
Proof. apply (merge_comm (okc := okc)). Qed.
Lemma j_idem s : ok s → merge s s = s.
Proof. apply (merge_idem (okc := okc)). Qed.
Lemma j_fresh_l s : ok s → merge fresh s = s.
Proof. apply (merge_fresh (okc := okc)). Qed.
#[local] Hint Resolve j_fresh j_delta j_merge : replica.
Lemma j_fresh_r s : ok s → merge s fresh = s.
Proof. intros. rewrite j_comm by auto with replica. by apply j_fresh_l. Qed.

(** The join of a list of changes. *)
Definition joined (cs : list C) : S := foldr (λ c s, merge (delta c) s) fresh cs.

Lemma joined_ok cs : Forall okc cs → ok (joined cs).
Proof. induction 1; simpl; auto with replica. Qed.
#[local] Hint Resolve joined_ok : replica.

Lemma joined_absorb c cs :
  Forall okc cs → c ∈ cs → merge (delta c) (joined cs) = joined cs.
Proof.
  intros Hok Hin. induction Hok as [|d cs Hd Hok IH]; [by apply elem_of_nil in Hin|].
  simpl. apply elem_of_cons in Hin as [->|Hin].
  - by rewrite j_assoc, j_idem by auto with replica.
  - assert (okc c) as Hc by (rewrite Forall_forall in Hok; auto).
    rewrite j_assoc, (j_comm (delta c)), <-j_assoc by auto with replica.
    by rewrite IH.
Qed.

Lemma joined_subset cs ds :
  Forall okc cs → Forall okc ds → (∀ c, c ∈ cs → c ∈ ds) →
  merge (joined cs) (joined ds) = joined ds.
Proof.
  intros Hcs Hds Hsub.
  induction Hcs as [|c cs Hc Hcs IH]; simpl; [auto using j_fresh_l with replica|].
  rewrite <-j_assoc, IH by (auto with replica; set_solver).
  apply joined_absorb; [done|set_solver].
Qed.

Lemma joined_set cs ds :
  Forall okc cs → Forall okc ds → (∀ c, c ∈ cs ↔ c ∈ ds) → joined cs = joined ds.
Proof.
  intros Hcs Hds Heq. transitivity (merge (joined ds) (joined cs)).
  - symmetry. by apply joined_subset; [..|intros c; apply Heq].
  - rewrite j_comm by auto with replica.
    by apply joined_subset; [..|intros c; apply Heq].
Qed.

Lemma joined_app cs ds :
  Forall okc cs → Forall okc ds → joined (cs ++ ds) = merge (joined cs) (joined ds).
Proof.
  intros Hcs Hds. induction Hcs as [|c cs Hc Hcs IH]; simpl.
  - by rewrite j_fresh_l by auto with replica.
  - by rewrite IH, j_assoc by auto with replica.
Qed.

Lemma applyAll_joined s cs :
  ok s → Forall okc cs → applyAll s cs = merge s (joined cs).
Proof.
  intros Hs Hcs. revert s Hs. induction Hcs as [|c cs Hc Hcs IH]; intros s Hs.
  - by rewrite j_fresh_r.
  - change (applyAll s (c :: cs)) with (applyAll (applyOne s c) cs).
    rewrite (apply_delta (ok := ok) (okc := okc)), IH by auto with replica.
    simpl. by rewrite j_assoc by auto with replica.
Qed.

Lemma applyAll_ok s cs : ok s → Forall okc cs → ok (applyAll s cs).
Proof. intros. rewrite applyAll_joined by done. auto with replica. Qed.
#[local] Hint Resolve applyAll_ok : replica.

(** Convergence: the result of a replay depends on the SET of changes alone. *)
Lemma applyAll_set s cs ds :
  ok s → Forall okc cs → Forall okc ds → (∀ c, c ∈ cs ↔ c ∈ ds) →
  applyAll s cs = applyAll s ds.
Proof. intros. rewrite !applyAll_joined by done. f_equal. by apply joined_set. Qed.

Lemma foldl_merge_joined s (css : list (list C)) :
  ok s → Forall (Forall okc) css →
  foldl merge s (applyAll fresh <$> css) = merge s (joined (concat css)).
Proof.
  intros Hs Hok. revert s Hs. induction Hok as [|cs css Hcs Hok IH]; intros s Hs; simpl.
  - by rewrite j_fresh_r.
  - assert (Forall okc (concat css)) as Hc by (by apply Forall_concat).
    rewrite IH, joined_app, applyAll_joined, j_fresh_l by auto with replica.
    by rewrite j_assoc by auto with replica.
Qed.

(** Merging replicas is replaying the changes each of them has seen. *)
Lemma mergeAll_replay (css : list (list C)) :
  Forall (Forall okc) css →
  mergeAll (applyAll fresh <$> css) = applyAll fresh (concat css).
Proof.
  intros Hok. unfold mergeAll. rewrite foldl_merge_joined by auto with replica.
  by rewrite applyAll_joined by (auto with replica; by apply Forall_concat).
Qed.
End convergence.

(** ** Value lattices

    The join of two values that meet under one key.  Every one of the package
    picks the least of the two under some total order. *)

Class Lattice {V} (join : V → V → V) : Prop := {
  lat_comm a b : join a b = join b a;
  lat_idem a : join a a = a;
  lat_assoc a b c : join a (join b c) = join (join a b) c;
}.

Lemma lattice_min {V} (less : V → V → bool) `{!StrictTotal less} (join : V → V → V) :
  (∀ a b, join a b = min_by less b a) → Lattice join.
Proof.
  intros Hj. split; intros *; rewrite !Hj.
  - apply (min_by_comm less).
  - apply (min_by_idem less).
  - symmetry. apply (min_by_assoc less).
Qed.

#[export] Instance join_maps_lattice `{Countable K} {V} (join : V → V → V) `{!Lattice join} :
  Lattice (join_maps (K := K) join).
Proof.
  split; intros *.
  - apply join_maps_comm, lat_comm.
  - apply join_maps_idem, lat_idem.
  - apply join_maps_assoc, lat_assoc.
Qed.

Lemma true_all {A} (l : list A) : Forall (λ _, True) l.
Proof. by apply Forall_true. Qed.
#[export] Hint Resolve true_all : replica.

(** [Merge] over arguments that may be nil. *)
Definition mergeOpt {S C} `{!Replica S C} (states : list (option S)) : S :=
  foldl (λ out s, match s with Some s => merge out s | None => out end) fresh states.

Lemma mergeOpt_all {S C} `{!Replica S C} (states : list (option S)) :
  mergeOpt states = mergeAll (omap id states).
Proof.
  unfold mergeOpt, mergeAll. generalize (fresh : S).
  induction states as [|[s|] states IH]; intros out; simpl; auto.
Qed.

(** A replica whose laws need no side condition: the two theorems a client uses. *)
Section unconditional.
Context {S C : Type} `{!Replica S C} `{!ReplicaLaws S C (λ _, True) (λ _, True)}.

Lemma replica_converges (s : S) (cs ds : list C) :
  (∀ c, c ∈ cs ↔ c ∈ ds) → applyAll s cs = applyAll s ds.
Proof.
  exact (λ H, applyAll_set (λ _, True) (λ _, True) s cs ds I (true_all _) (true_all _) H).
Qed.

Lemma replica_merge_replays (css : list (option (list C))) :
  mergeOpt (fmap (M := option) (applyAll (fresh : S)) <$> css) =
  applyAll (fresh : S) (concat (omap id css)).
Proof.
  rewrite mergeOpt_all. transitivity (mergeAll (applyAll (fresh : S) <$> omap id css)).
  - f_equal. induction css as [|[cs|] css IH]; simpl; [done| |done]. f_equal. apply IH.
  - refine (mergeAll_replay (S := S) (C := C) (λ _, True) (λ _, True) _ _).
    apply Forall_true. intros l. apply true_all.
Qed.
End unconditional.
