(* ===== verification/Playlist.v ===== *)
(** * Playlist: the add-wins OR-Set with a Lamport total order

    Models internal/personalstate/crdt/playlist.go and snapshot.go.  A tag is the
    string of a UUID and a counter the integer of a [uint64]; a Go map from tags
    is a [gmap string], and where the code ranges over one, the theorems quantify
    over the order of the visit.  Minting a tag ([uuid.NewV7]) is an argument. *)

From S2P Require Import Prelude Replica.
#[local] Open Scope Z_scope.

(** ** Data *)

Definition OpAdd : Z := 0.
Definition OpRemove : Z := 1.

Record OrderKey := mkOrderKey { Counter : N; KeyTag : string }.

Definition OrderKey_Less (k other : OrderKey) : bool :=
  lex_less Counter N.ltb (key_less KeyTag str_lt) k other.

Record Change := mkChange {
  Op : Z;
  ItemID : string;
  Tag : string;
  Order : OrderKey;
  Observed : list string;
}.

Record Item := mkItem { ID : string; ItemOrder : OrderKey }.

Record addRecord := mkAdd { itemID : string; order : OrderKey }.

Definition lesserRecord (a b : addRecord) : addRecord :=
  if decide (itemID a ≠ itemID b) then
    if str_lt (itemID a) (itemID b) then a else b
  else if OrderKey_Less (order a) (order b) then a else b.

Record State := mkState {
  adds : gmap string addRecord;
  tombstones : gset string;
  counter : N;
}.

Definition New : State := mkState ∅ ∅ 0%N.

(** ** Operations *)

(** The switch does nothing on an [Op] that is neither of the two. *)
Definition applyChange (s : State) (c : Change) : State :=
  if decide (Op c = OpAdd) then
    mkState (put_join lesserRecord (Tag c) (mkAdd (ItemID c) (Order c)) (adds s))
            (tombstones s)
            (raise_to (counter s) (Counter (Order c)))
  else if decide (Op c = OpRemove) then
    mkState (adds s) (add_tags (Observed c) (tombstones s)) (counter s)
  else s.

Definition Apply (s : State) (changes : list Change) : State := foldl applyChange s changes.

(** One turn of the loop of [Merge] over its arguments. *)
Definition mergeState (out s : State) : State :=
  mkState (merge_into lesserRecord (adds s) (adds out))
          (add_all (tombstones s) (tombstones out))
          (raise_to (counter out) (counter s)).

(** A nil argument is skipped. *)
Definition Merge (states : list (option State)) : State :=
  foldl (λ out s, match s with Some s => mergeState out s | None => out end) New states.

(** The tags [range] visits, in the order it visits them, filtered and sorted. *)
Definition liveTagsOf (entries : list (string * addRecord)) (dead : gset string)
    (id : string) : list string :=
  sort_by str_lt
    (fst <$> filter (λ e, itemID e.2 = id ∧ e.1 ∉ dead) entries).

Definition liveTags (s : State) (id : string) : list string :=
  liveTagsOf (map_to_list (adds s)) (tombstones s) id.

(** [Add] and [Remove] return the new state and the change to ship. *)
Definition Add (newTag : string) (s : State) (id : string) : State * Change :=
  let n := sat_succ (counter s) in
  let c := mkChange OpAdd id newTag (mkOrderKey n newTag) [] in
  (applyChange (mkState (adds s) (tombstones s) n) c, c).

Definition Remove (s : State) (id : string) : State * Change :=
  let c := mkChange OpRemove id "" (mkOrderKey 0%N "") (liveTags s id) in
  (applyChange s c, c).

(** [best] after the loop of [Items] over the visited entries. *)
Definition keepBest (dead : gset string) (best : gmap string OrderKey)
    (e : string * addRecord) : gmap string OrderKey :=
  let (tag, rec) := e in
  if decide (tag ∈ dead) then best
  else match best !! itemID rec with
       | Some cur => if OrderKey_Less (order rec) cur
                     then <[itemID rec := order rec]> best else best
       | None => <[itemID rec := order rec]> best
       end.

Definition bestOf (dead : gset string) (entries : list (string * addRecord)) :
    gmap string OrderKey := foldl (keepBest dead) ∅ entries.

Definition Item_less (a b : Item) : bool := OrderKey_Less (ItemOrder a) (ItemOrder b).

Definition itemsOf (best : gmap string OrderKey) : list Item :=
  (λ p, mkItem p.1 p.2) <$> map_to_list best.

Definition Items (s : State) : list Item :=
  sort_by Item_less (itemsOf (bestOf (tombstones s) (map_to_list (adds s)))).

Definition IDs (s : State) : list string := ID <$> Items s.

(** What [Items] may return: the two [range] loops visit in any order, and
    [sort.Slice] returns some sorted permutation. *)
Definition Items_result (s : State) (out : list Item) : Prop :=
  ∃ entries, entries ≡ₚ map_to_list (adds s) ∧
    out ≡ₚ itemsOf (bestOf (tombstones s) entries) ∧
    StronglySorted (not_after Item_less) out.

(** ** Snapshots: the wire structure between the state and its JSON text *)

Record snapshotAdd := mkSnapAdd {
  sa_Tag : string; sa_ItemID : string; sa_Counter : N; sa_OrderTag : string }.

Record stateSnapshot := mkSnap {
  ss_Adds : list snapshotAdd; ss_Tombstones : list string; ss_Counter : N }.

Definition Snapshot (s : State) : stateSnapshot :=
  mkSnap
    (sort_by (key_less sa_Tag str_lt)
       ((λ p, mkSnapAdd p.1 (itemID p.2) (Counter (order p.2)) (KeyTag (order p.2)))
          <$> map_to_list (adds s)))
    (sort_by str_lt (elements (tombstones s)))
    (counter s).

Definition FromSnapshot (snap : stateSnapshot) : State :=
  mkState
    (insert_each sa_Tag
       (λ a, mkAdd (sa_ItemID a) (mkOrderKey (sa_Counter a) (sa_OrderTag a)))
       (ss_Adds snap) ∅)
    (add_tags (ss_Tombstones snap) ∅)
    (ss_Counter snap).

(** ** The order keys and the record join *)

#[export] Instance OrderKey_Less_total : StrictTotal OrderKey_Less.
Proof.
  split; [exact (lex_weak N.ltb Counter (key_less KeyTag str_lt))|].
  intros [c1 t1] [c2 t2] H1 H2.
  destruct (lex_incomparable _ _ _ _ _ H1 H2) as (Hc & H3 & H4).
  pose proof (key_incomparable _ _ _ _ H3 H4). simpl in *. by subst.
Qed.

(** The key [lesserRecord] compares: (itemID, counter, tag). *)
Definition record_less : addRecord → addRecord → bool :=
  lex_less itemID str_lt (key_less order OrderKey_Less).

#[export] Instance record_less_total : StrictTotal record_less.
Proof.
  split; [exact (lex_weak str_lt itemID (key_less order OrderKey_Less))|].
  intros [i1 o1] [i2 o2] H1 H2.
  destruct (lex_incomparable _ _ _ _ _ H1 H2) as (Hi & H3 & H4).
  pose proof (key_incomparable _ _ _ _ H3 H4). simpl in *. by subst.
Qed.

Lemma lesserRecord_min a b : lesserRecord a b = min_by record_less b a.
Proof.
  unfold lesserRecord, min_by, record_less, lex_less, key_less.
  destruct (decide (itemID a = itemID b)), (decide (itemID a ≠ itemID b)); done.
Qed.

Lemma lesserRecord_comm a b : lesserRecord a b = lesserRecord b a.
Proof. rewrite !lesserRecord_min. apply (min_by_comm record_less). Qed.

Lemma lesserRecord_idem a : lesserRecord a a = a.
Proof. rewrite lesserRecord_min. apply (min_by_idem record_less). Qed.

Lemma lesserRecord_assoc a b c :
  lesserRecord a (lesserRecord b c) = lesserRecord (lesserRecord a b) c.
Proof. rewrite !lesserRecord_min. symmetry. apply (min_by_assoc record_less). Qed.

#[export] Hint Resolve lesserRecord_comm lesserRecord_idem lesserRecord_assoc : replica.

(** ** The playlist is a replica *)

Definition stateOf (c : Change) : State := applyChange New c.

#[export] Instance playlist_replica : Replica State Change := {
  fresh := New;
  applyOne := applyChange;
  merge := mergeState;
  delta := stateOf;
}.

Lemma mergeState_eq a b :
  mergeState a b = mkState (join_maps lesserRecord (adds a) (adds b))
    (tombstones b ∪ tombstones a) (N.max (counter a) (counter b)).
Proof. unfold mergeState. by autorewrite with crdt. Qed.

Lemma applyChange_merge s c : applyChange s c = mergeState s (stateOf c).
Proof.
  rewrite mergeState_eq. destruct s as [a t n], c as [op i tag o obs].
  unfold stateOf, applyChange; simpl.
  destruct (decide (op = OpAdd)); [|destruct (decide (op = OpRemove))]; simpl;
    autorewrite with crdt; f_equal;
    rewrite ?join_maps_empty_l, ?join_maps_empty_r; try done; try set_solver; lia.
Qed.

#[export] Instance playlist_laws :
  ReplicaLaws State Change (λ _, True) (λ _, True).
Proof.
  split; try done; unfold merge, fresh; simpl.
  - intros s t u _ _ _. rewrite !mergeState_eq; simpl. f_equal; [|set_solver|lia].
    apply join_maps_assoc. auto with replica.
  - intros s t _ _. rewrite !mergeState_eq. f_equal; [|set_solver|lia].
    apply join_maps_comm. auto with replica.
  - intros s _. rewrite mergeState_eq. destruct s as [a t n]. simpl. f_equal; [|set_solver|lia].
    apply join_maps_idem. auto with replica.
  - intros s _. rewrite mergeState_eq. destruct s as [a t n]. simpl. f_equal; [|set_solver|lia].
    apply join_maps_empty_l.
  - intros s c _ _. apply applyChange_merge.
Qed.

Lemma all_ok {A} (l : list A) : Forall (λ _, True) l.
Proof. by apply Forall_true. Qed.
#[export] Hint Resolve all_ok : replica.

Lemma Merge_mergeAll states : Merge states = mergeAll (omap id states).
Proof.
  unfold Merge, mergeAll. change (fresh : State) with New. generalize New.
  induction states as [|[s|] states IH]; intros out; simpl; auto.
Qed.

(** *** Convergence *)

(** Convergence under reordering and duplication (doc.go, "The one property
    that defines correctness"): two devices that have seen the same set of
    playlist changes, in any orders and with any duplicates, hold the same state
    (every add-tag, every tombstone and the Lamport counter), even when a hostile
    device reuses a tag for two different adds. *)
Theorem playlist_converges (s : State) (cs ds : list Change) :
  (∀ c, c ∈ cs ↔ c ∈ ds) → Apply s cs = Apply s ds.
Proof. exact (λ H, applyAll_set (λ _, True) (λ _, True) s cs ds I (all_ok _) (all_ok _) H). Qed.

(** Merging replicas is replaying their changes: the merge of any number of
    playlists, each built by applying a changeset to an empty one, is the
    playlist that applies all the changesets, and nil arguments change nothing. *)
Theorem playlist_merge_replays (css : list (option (list Change))) :
  Merge (fmap (M := option) (Apply New) <$> css) = Apply New (concat (omap id css)).
Proof.
  rewrite Merge_mergeAll. transitivity (mergeAll (Apply New <$> omap id css)).
  - f_equal. induction css as [|[cs|] css IH]; simpl; [done| |done]. f_equal. apply IH.
  - refine (mergeAll_replay (S := State) (C := Change) (λ _, True) (λ _, True) _ _).
    apply Forall_true. auto with replica.
Qed.

(** *** What [Items] reads *)

Section best.
Context (dead : gset string).
Implicit Types (es : list (string * addRecord)).

Definition live_for (id : string) (e : string * addRecord) : Prop :=
  (e.1 ∉ dead) ∧ itemID e.2 = id.

(** [k] is the least order key among the live entries of [id]. *)
Definition is_best (id : string) es (k : OrderKey) : Prop :=
  (∃ e, e ∈ es ∧ live_for id e ∧ order e.2 = k) ∧
  (∀ e, e ∈ es → live_for id e → OrderKey_Less (order e.2) k = false).

Lemma is_best_unique id es es' k k' :
  (∀ e, e ∈ es ↔ e ∈ es') → is_best id es k → is_best id es' k' → k = k'.
Proof.
  intros Heq [(e & He & Hl & <-) Hmin] [(e' & He' & Hl' & <-) Hmin'].
  apply (less_antisym (less := OrderKey_Less)).
  - apply Hmin'; [by apply Heq|done].
  - apply Hmin; [by apply Heq|done].
Qed.

Lemma keepBest_other id best e :
  ¬ live_for id e → keepBest dead best e !! id = best !! id.
Proof.
  destruct e as [tag rec]. unfold live_for, keepBest; simpl. intros Hn.
  destruct (decide (tag ∈ dead)); [done|].
  assert (itemID rec ≠ id) by tauto.
  repeat case_match; rewrite ?lookup_insert_ne by done; done.
Qed.

Lemma keepBest_live id best e :
  live_for id e → keepBest dead best e !! id =
    Some (match best !! id with
          | Some cur => if OrderKey_Less (order e.2) cur then order e.2 else cur
          | None => order e.2 end).
Proof.
  destruct e as [tag rec]. unfold live_for, keepBest; simpl. intros [Hd <-].
  rewrite decide_False by done.
  destruct (best !! itemID rec) as [cur|] eqn:E; [|by rewrite lookup_insert_eq].
  destruct (OrderKey_Less (order rec) cur); [by rewrite lookup_insert_eq|done].
Qed.

Lemma bestOf_spec es id :
  match bestOf dead es !! id with
  | Some k => is_best id es k
  | None => ∀ e, e ∈ es → ¬ live_for id e
  end.
Proof.
  unfold bestOf. induction es as [|e es IH] using rev_ind.
  { simpl. rewrite lookup_empty. set_solver. }
  rewrite foldl_snoc'. set (b := foldl (keepBest dead) ∅ es) in *.
  destruct (decide (live_for id e)) as [Hl|Hn].
  - rewrite keepBest_live by done. unfold is_best in *. destruct (b !! id) as [cur|].
    + destruct IH as [(e0 & He0 & Hl0 & Hk0) Hmin].
      destruct (OrderKey_Less (order e.2) cur) eqn:Hlt.
      * split; [exists e; set_solver|]. intros e' [He'| ->%list_elem_of_singleton]%elem_of_app Hl'.
        -- apply (less_ntrans (less := OrderKey_Less) _ cur); [auto|].
           by apply (less_asym OrderKey_Less).
        -- apply less_irrefl.
      * split; [exists e0; set_solver|].
        intros e' [He'| ->%list_elem_of_singleton]%elem_of_app Hl'; auto.
    + split; [exists e; set_solver|].
      intros e' [He'| ->%list_elem_of_singleton]%elem_of_app Hl'.
      * by destruct (IH e' He').
      * apply less_irrefl.
  - rewrite keepBest_other by done. destruct (b !! id) as [cur|].
    + destruct IH as [(e0 & He0 & Hl0 & Hk0) Hmin]. split; [exists e0; set_solver|].
      intros e' [He'| ->%list_elem_of_singleton]%elem_of_app Hl'; [auto|done].
    + intros e' [He'| ->%list_elem_of_singleton]%elem_of_app; auto.
Qed.

Lemma bestOf_lookup es id k : bestOf dead es !! id = Some k ↔ is_best id es k.
Proof.
  pose proof (bestOf_spec es id) as Hs. split.
  - intros E. by rewrite E in Hs.
  - intros Hb. destruct (bestOf dead es !! id) as [k'|].
    + f_equal. by eapply is_best_unique.
    + destruct Hb as [(e & He & Hl & _) _]. by destruct (Hs e He).
Qed.

(** The visit order of [range] does not reach [best]. *)
Lemma bestOf_perm es es' : es ≡ₚ es' → bestOf dead es = bestOf dead es'.
Proof.
  intros Hp. apply map_eq. intros id. apply option_eq. intros k.
  rewrite !bestOf_lookup. unfold is_best. by setoid_rewrite Hp.
Qed.
End best.

Lemma elem_of_itemsOf best it :
  it ∈ itemsOf best ↔ best !! ID it = Some (ItemOrder it).
Proof.
  unfold itemsOf. rewrite list_elem_of_fmap. split.
  - intros ([id k] & -> & H). by apply elem_of_map_to_list in H.
  - intros H. exists (ID it, ItemOrder it). split; [by destruct it|].
    by apply elem_of_map_to_list.
Qed.

Lemma NoDup_itemsOf best : NoDup (ID <$> itemsOf best).
Proof.
  unfold itemsOf. rewrite <-list_fmap_compose. apply NoDup_fst_map_to_list.
Qed.

Lemma elem_of_Items s it :
  it ∈ Items s ↔ is_best (tombstones s) (ID it) (map_to_list (adds s)) (ItemOrder it).
Proof. unfold Items. by rewrite elem_of_sort_by, elem_of_itemsOf, bestOf_lookup. Qed.

Lemma NoDup_IDs s : NoDup (IDs s).
Proof.
  unfold IDs, Items. rewrite (sort_by_perm Item_less (itemsOf _)). apply NoDup_itemsOf.
Qed.

(** An id is present iff one of its add-tags is live. *)
Lemma elem_of_IDs s id :
  id ∈ IDs s ↔ ∃ tag rec, adds s !! tag = Some rec ∧ itemID rec = id ∧ tag ∉ tombstones s.
Proof.
  unfold IDs. rewrite list_elem_of_fmap. split.
  - intros (it & -> & Hit). apply elem_of_Items in Hit as [([t r] & He & [Hd Hi] & _) _].
    exists t, r. by apply elem_of_map_to_list in He.
  - intros (tag & rec & Ha & Hi & Hd).
    pose proof (bestOf_spec (tombstones s) (map_to_list (adds s)) id) as Hs.
    destruct (bestOf (tombstones s) (map_to_list (adds s)) !! id) as [k|].
    + exists (mkItem id k). split; [done|]. by apply elem_of_Items.
    + exfalso. apply (Hs (tag, rec)); [by apply elem_of_map_to_list|done].
Qed.

(** ** What a history of changes leaves behind *)

(** Each tag belongs to one add: the guarantee of a UUIDv7. *)
Definition unique_tags (cs : list Change) : Prop :=
  ∀ c d, c ∈ cs → d ∈ cs → Op c = OpAdd → Op d = OpAdd → Tag c = Tag d →
    ItemID c = ItemID d ∧ Order c = Order d.

Lemma unique_tags_prefix cs c : unique_tags (cs ++ [c]) → unique_tags cs.
Proof. intros H d e Hd He. apply H; set_solver. Qed.

Lemma Apply_snoc s cs c : Apply s (cs ++ [c]) = applyChange (Apply s cs) c.
Proof. apply foldl_snoc'. Qed.

Lemma tombstones_Apply cs tag :
  tag ∈ tombstones (Apply New cs) ↔ ∃ c, c ∈ cs ∧ Op c = OpRemove ∧ tag ∈ Observed c.
Proof.
  induction cs as [|c cs IH] using rev_ind; [set_solver|].
  rewrite Apply_snoc. unfold applyChange. destruct (decide (Op c = OpAdd)) as [Hop|Hop].
  - simpl. rewrite exists_snoc, IH, Hop. naive_solver.
  - rewrite exists_snoc, <-IH. destruct (decide (Op c = OpRemove)); simpl;
      rewrite ?add_tags_eq; set_solver.
Qed.

Lemma adds_Apply cs tag rec :
  unique_tags cs →
  adds (Apply New cs) !! tag = Some rec ↔
    ∃ c, c ∈ cs ∧ Op c = OpAdd ∧ Tag c = tag ∧ rec = mkAdd (ItemID c) (Order c).
Proof.
  revert rec. induction cs as [|c cs IH] using rev_ind; intros rec Hu.
  { simpl. rewrite lookup_empty. set_solver. }
  specialize (λ r, IH r (unique_tags_prefix _ _ Hu)). rewrite Apply_snoc.
  unfold applyChange. destruct (decide (Op c = OpAdd)) as [Hop|Hop].
  - simpl. unfold put_join. destruct (decide (Tag c = tag)) as [<-|Hne].
    + rewrite lookup_insert_eq. set (r := mkAdd (ItemID c) (Order c)).
      transitivity (Some r = Some rec).
      * destruct (adds (Apply New cs) !! Tag c) as [ex|] eqn:E; [|done].
        destruct (proj1 (IH ex) eq_refl) as (d & Hd & Hdo & Ht & ->). destruct (Hu d c) as [H1 H2]; [set_solver..|].
        by rewrite H1, H2, lesserRecord_idem.
      * split; [intros [= <-]; exists c; set_solver|].
        intros (d & Hd & Hdo & Ht & ->). destruct (Hu d c) as [H1 H2]; [set_solver..|].
        by rewrite H1, H2.
    + rewrite lookup_insert_ne, exists_snoc, IH by done. naive_solver.
  - transitivity (adds (Apply New cs) !! tag = Some rec).
    + by destruct (decide (Op c = OpRemove)).
    + rewrite exists_snoc, IH. naive_solver.
Qed.

(** Add-wins membership (doc.go, "The model"): after any changes, in any
    order, an item is in the playlist iff some add of it carries a tag that no
    remove of the history observed.  A remove therefore cancels only the adds it
    saw, and a concurrent add survives it. *)
Theorem playlist_add_wins (cs : list Change) (id : string) :
  unique_tags cs →
  id ∈ IDs (Apply New cs) ↔
    ∃ c, c ∈ cs ∧ Op c = OpAdd ∧ ItemID c = id ∧
      ∀ r, r ∈ cs → Op r = OpRemove → Tag c ∉ Observed r.
Proof.
  intros Hu. rewrite elem_of_IDs. setoid_rewrite adds_Apply; [|done].
  setoid_rewrite tombstones_Apply. split.
  - intros (tag & rec & (c & Hc & Ho & <- & ->) & Hi & Hd). exists c. simpl in Hi.
    naive_solver.
  - intros (c & Hc & Ho & Hi & Hr). exists (Tag c), (mkAdd (ItemID c) (Order c)). naive_solver.
Qed.

(** ** The order of [Items] *)

(** An add made by this package: its order key's tie-break is its own tag. *)
Definition self_tagged (c : Change) : Prop := Op c = OpAdd → KeyTag (Order c) = Tag c.

(** What the adds of such changes leave in a state. *)
Record clocked (s : State) : Prop := {
  clocked_tag tag rec : adds s !! tag = Some rec → KeyTag (order rec) = tag;
  clocked_counter tag rec :
    adds s !! tag = Some rec → (Counter (order rec) ≤ counter s)%N;
}.

Lemma lesserRecord_cases a b : lesserRecord a b = a ∨ lesserRecord a b = b.
Proof. unfold lesserRecord. repeat case_match; auto. Qed.

Lemma clocked_step s c : self_tagged c → clocked s → clocked (applyChange s c).
Proof.
  intros Hc [H1 H2]. unfold applyChange, self_tagged in *.
  destruct (decide (Op c = OpAdd)) as [Hop|Hop]; [|by destruct (decide (Op c = OpRemove))].
  assert (∀ tag rec, put_join lesserRecord (Tag c) (mkAdd (ItemID c) (Order c)) (adds s) !! tag
            = Some rec → KeyTag (order rec) = tag ∧
            (Counter (order rec) ≤ counter s ∨ Counter (order rec) ≤ Counter (Order c))%N) as H.
  { intros tag rec. unfold put_join. destruct (decide (Tag c = tag)) as [<-|Hne].
    - rewrite lookup_insert_eq. intros [= <-].
      destruct (adds s !! Tag c) as [ex|] eqn:E; [|simpl; split; [auto|lia]].
      destruct (lesserRecord_cases ex (mkAdd (ItemID c) (Order c))) as [-> | ->]; simpl.
      + split; [auto|]. left. eauto.
      + split; [auto|lia].
    - rewrite lookup_insert_ne by done. eauto. }
  split; simpl; intros tag rec Hl; apply H in Hl as [Ht Hle]; [done|].
  rewrite raise_to_max. lia.
Qed.

Lemma clocked_Apply cs : Forall self_tagged cs → clocked (Apply New cs).
Proof.
  induction cs as [|c cs IH] using rev_ind; intros Hcs.
  - split; simpl; intros tag rec; by rewrite lookup_empty.
  - apply Forall_app in Hcs as [Hcs Hc]. rewrite Apply_snoc.
    apply clocked_step; [by inversion Hc|auto].
Qed.

#[export] Instance Item_less_weak : StrictWeak Item_less.
Proof. exact (key_weak OrderKey_Less ItemOrder). Qed.

Lemma items_distinct s es x y :
  clocked s → es ≡ₚ map_to_list (adds s) →
  x ∈ itemsOf (bestOf (tombstones s) es) → y ∈ itemsOf (bestOf (tombstones s) es) →
  Item_less x y = false → Item_less y x = false → x = y.
Proof.
  intros [Ht _] Hp. rewrite (bestOf_perm _ _ _ Hp), !elem_of_itemsOf, !bestOf_lookup.
  intros [([t1 r1] & H1 & [_ Hi1] & Ho1) _] [([t2 r2] & H2 & [_ Hi2] & Ho2) _] Hxy Hyx.
  apply elem_of_map_to_list in H1, H2. simpl in *.
  assert (ItemOrder x = ItemOrder y) as Ho.
  { apply (less_antisym (less := OrderKey_Less)); done. }
  assert (t1 = t2) as ->.
  { rewrite <-(Ht _ _ H1), <-(Ht _ _ H2). congruence. }
  rewrite H1 in H2. simplify_eq. destruct x, y; simpl in *; congruence.
Qed.

(** One order on every replica: when each add's tie-break is its own tag,
    whatever order the two map loops visit their entries in and whatever sorting
    algorithm [sort.Slice] runs, [Items] returns the same list, which is sorted
    by (counter, tag) and names no item twice. *)
Theorem playlist_items_deterministic (cs : list Change) (out : list Item) :
  Forall self_tagged cs →
  (Items_result (Apply New cs) out ↔ out = Items (Apply New cs)) ∧
  StronglySorted (not_after Item_less) (Items (Apply New cs)) ∧
  NoDup (IDs (Apply New cs)).
Proof.
  intros Hcs. pose proof (clocked_Apply _ Hcs) as Hck. set (s := Apply New cs) in *.
  split_and!; [|apply (sort_by_sorted Item_less)|apply NoDup_IDs]. split.
  - intros (es & Hes & Hp & Hs). unfold Items. rewrite <-(bestOf_perm _ _ _ Hes).
    apply (sort_by_unique Item_less); [|done..]. intros x y. by apply items_distinct.
  - intros ->. exists (map_to_list (adds s)). split_and!; [done| |apply (sort_by_sorted Item_less)].
    apply (sort_by_perm Item_less).
Qed.

(** The tie the package does not break: a change is unsigned, and two adds
    whose order keys carry one foreign tie-break tag give two items with equal
    keys.  The state converges, and [Items] may still return either order. *)
Theorem playlist_items_tie :
  ∃ cs out out', Items_result (Apply New cs) out ∧ Items_result (Apply New cs) out' ∧
    IDs (Apply New cs) ≡ₚ ["a"; "b"] ∧ out ≠ out'.
Proof.
  set (k := mkOrderKey 1 "x").
  exists [mkChange OpAdd "a" "t1" k []; mkChange OpAdd "b" "t2" k []],
    [mkItem "a" k; mkItem "b" k], [mkItem "b" k; mkItem "a" k].
  split_and!; [| |vm_compute; apply Permutation_swap || reflexivity |discriminate].
  all: eexists; split; [reflexivity|]; split; [vm_compute; first [reflexivity|apply Permutation_swap]|].
  all: repeat constructor.
Qed.

(** ** Local edits *)

Lemma itemsOf_insert best id k :
  best !! id = None → itemsOf (<[id := k]> best) ≡ₚ mkItem id k :: itemsOf best.
Proof. intros H. unfold itemsOf. by rewrite map_to_list_insert. Qed.

Lemma absent_best s id :
  id ∉ IDs s → bestOf (tombstones s) (map_to_list (adds s)) !! id = None.
Proof.
  intros Hid. destruct (bestOf _ _ !! id) as [cur|] eqn:E; [|done]. exfalso. apply Hid.
  apply list_elem_of_fmap. exists (mkItem id cur). split; [done|].
  apply elem_of_Items. by apply bestOf_lookup.
Qed.

Lemma bestOf_fresh s tag id k :
  adds s !! tag = None → tag ∉ tombstones s → id ∉ IDs s →
  bestOf (tombstones s) (map_to_list (<[tag := mkAdd id k]> (adds s)))
    = <[id := k]> (bestOf (tombstones s) (map_to_list (adds s))).
Proof.
  intros Htag Htomb Hid.
  rewrite (bestOf_perm _ _ (map_to_list (adds s) ++ [(tag, mkAdd id k)])).
  - unfold bestOf. rewrite foldl_snoc'. fold (bestOf (tombstones s) (map_to_list (adds s))).
    simpl. by rewrite decide_False, absent_best.
  - rewrite map_to_list_insert by done. apply Permutation_cons_append.
Qed.

Lemma Items_insert s tag id k n :
  clocked s → KeyTag k = tag → (counter s < Counter k)%N → (counter s < n)%N →
  (Counter k ≤ n)%N →
  adds s !! tag = None → tag ∉ tombstones s → id ∉ IDs s →
  Items (mkState (<[tag := mkAdd id k]> (adds s)) (tombstones s) n)
    = Items s ++ [mkItem id k].
Proof.
  intros Hck Hk Hlt Hn Hkn Htag Htomb Hid. symmetry. unfold Items at 2; simpl.
  apply (sort_by_unique Item_less).
  - intros x y. apply (items_distinct
      (mkState (<[tag := mkAdd id k]> (adds s)) (tombstones s) n) _ x y); [|done].
    destruct Hck as [H1 H2].
    split; simpl; intros t r [[<- <-]|[_ H]]%lookup_insert_Some; eauto.
    apply H2 in H. lia.
  - rewrite bestOf_fresh, itemsOf_insert by (done || by apply absent_best).
    unfold Items. rewrite (sort_by_perm Item_less). symmetry. apply Permutation_cons_append.
  - apply StronglySorted_snoc; [apply (sort_by_sorted Item_less)|].
    apply Forall_forall. intros it Hit. apply elem_of_Items in Hit as [([t r] & He & _ & Ho) _].
    apply elem_of_map_to_list, (clocked_counter _ Hck) in He. simpl in *.
    unfold not_after, Item_less, OrderKey_Less, lex_less. simpl. rewrite Ho in *.
    rewrite decide_False by lia. apply N.ltb_ge. lia.
Qed.

(** A local insert goes last: on any reached playlist whose clock is not at
    its ceiling, [Add] of an absent item under a fresh tag appends the item to
    the list and changes nothing else of it; and the change it returns, applied
    by any other replica of the same history, has that same effect. *)
Theorem playlist_add_appends (cs : list Change) (tag id : string) :
  Forall self_tagged cs →
  (counter (Apply New cs) < MaxUint64)%N →
  adds (Apply New cs) !! tag = None → tag ∉ tombstones (Apply New cs) →
  id ∉ IDs (Apply New cs) →
  let '(s', c) := Add tag (Apply New cs) id in
  self_tagged c ∧ s' = Apply New (cs ++ [c]) ∧ IDs s' = IDs (Apply New cs) ++ [id].
Proof.
  intros Hcs. pose proof (clocked_Apply _ Hcs) as Hck. set (s := Apply New cs) in *.
  intros Hcount Htag Htomb Hid. unfold Add, sat_succ.
  destruct (N.ltb_spec (counter s) MaxUint64) as [_|]; [|lia].
  rewrite Apply_snoc. fold s. unfold applyChange; simpl. unfold put_join. rewrite Htag.
  rewrite !raise_to_max, N.max_id, N.max_r by lia. split; [done|]. split; [done|].
  unfold IDs. rewrite Items_insert, fmap_app by (done || simpl; lia). done.
Qed.

Lemma elem_of_liveTags s id tag :
  tag ∈ liveTags s id ↔ ∃ rec, adds s !! tag = Some rec ∧ itemID rec = id ∧ tag ∉ tombstones s.
Proof.
  unfold liveTags, liveTagsOf. rewrite elem_of_sort_by, list_elem_of_fmap. split.
  - intros ([t r] & -> & [[Hi Hd] He]%list_elem_of_filter). apply elem_of_map_to_list in He. eauto.
  - intros (rec & Ha & Hi & Hd). exists (tag, rec). split; [done|].
    apply list_elem_of_filter. split; [done|]. by apply elem_of_map_to_list.
Qed.

Definition removed (s : State) (id : string) : State :=
  mkState (adds s) (list_to_set (liveTags s id) ∪ tombstones s) (counter s).

Lemma Remove_removed s id : fst (Remove s id) = removed s id.
Proof.
  unfold Remove, applyChange, removed. simpl. by rewrite add_tags_eq.
Qed.

Lemma removed_live s id id' tag rec :
  adds s !! tag = Some rec →
  live_for (tombstones (removed s id)) id' (tag, rec) ↔
    live_for (tombstones s) id' (tag, rec) ∧ id' ≠ id.
Proof.
  intros Ha. unfold live_for, removed; simpl. rewrite not_elem_of_union, elem_of_list_to_set,
    elem_of_liveTags, Ha. split.
  - intros [[Hn Hd] Hi]. split; [done|]. intros ->. apply Hn. eauto.
  - intros [[Hd Hi] Hne]. split; [|done]. split; [|done]. intros (r & [= <-] & Hi' & _). congruence.
Qed.

Lemma bestOf_removed s id :
  bestOf (tombstones (removed s id)) (map_to_list (adds s))
    = delete id (bestOf (tombstones s) (map_to_list (adds s))).
Proof.
  apply map_eq. intros id'. apply option_eq. intros k.
  rewrite lookup_delete_Some, !bestOf_lookup.
  assert (∀ e, e ∈ map_to_list (adds s) →
    (live_for (tombstones (removed s id)) id' e ↔ live_for (tombstones s) id' e ∧ id' ≠ id)) as Hl.
  { intros [t r] He. apply removed_live. by apply elem_of_map_to_list. }
  unfold is_best. split.
  - intros [(e & He & Hle & Ho) Hmin]. destruct (proj1 (Hl e He) Hle) as [Hle' Hne].
    split; [done|]. split; [by exists e|].
    intros e' He' Hl'. apply Hmin; [done|]. by apply (Hl e' He').
  - intros [Hne [(e & He & Hle & Ho) Hmin]].
    split; [exists e; split_and!; [done|by apply (Hl e He)|done]|].
    intros e' He' Hl'. apply Hmin; [done|]. by apply (Hl e' He').
Qed.

(** A local remove hides exactly its item: on any reached playlist, [Remove]
    takes its item out and leaves every other one in its place, and the change it
    returns, applied by any other replica of the same history, has that effect. *)
Theorem playlist_remove_filters (cs : list Change) (id : string) :
  Forall self_tagged cs →
  let '(s', c) := Remove (Apply New cs) id in
  s' = Apply New (cs ++ [c]) ∧
  Items s' = filter (λ it, ID it ≠ id) (Items (Apply New cs)).
Proof.
  intros Hcs. pose proof (clocked_Apply _ Hcs) as Hck.
  destruct (Remove (Apply New cs) id) as [s' c] eqn:E. rewrite Apply_snoc.
  assert (s' = removed (Apply New cs) id) as Hs' by (by rewrite <-Remove_removed, E).
  split; [by injection E as <- <-|]. set (s := Apply New cs) in *. clear E. subst s'.
  assert (clocked (removed s id)) as Hck' by (destruct Hck; split; eauto).
  symmetry. unfold Items at 2. apply (sort_by_unique Item_less).
  - intros x y. by apply (items_distinct (removed s id)).
  - change (adds (removed s id)) with (adds s). rewrite bestOf_removed.
    apply NoDup_Permutation.
    + apply NoDup_filter, (NoDup_fmap_1 ID), NoDup_IDs.
    + apply (NoDup_fmap_1 ID), NoDup_itemsOf.
    + intros it. rewrite list_elem_of_filter, elem_of_itemsOf, lookup_delete_Some,
        bestOf_lookup, elem_of_Items. naive_solver.
  - apply StronglySorted_filter, (sort_by_sorted Item_less).
Qed.

(** ** Snapshots *)

(** A snapshot loses nothing: reading back what [Snapshot] wrote gives the
    state it was taken of, so a replica that restores it and applies the changes
    made since holds what a full replay holds. *)
Theorem playlist_snapshot_roundtrip (cs ds : list Change) :
  Apply (FromSnapshot (Snapshot (Apply New cs))) ds = Apply New (cs ++ ds).
Proof.
  unfold Apply at 3. rewrite foldl_app. fold (Apply New cs). fold (Apply (Apply New cs) ds).
  f_equal. generalize (Apply New cs). intros [a t n]. unfold FromSnapshot, Snapshot; simpl.
  f_equal.
  - apply (insert_each_map _ _
      (λ p, mkSnapAdd p.1 (itemID p.2) (Counter (order p.2)) (KeyTag (order p.2)))); [done| |].
    + by intros [tag [i [c k]]].
    + apply (sort_by_perm _).
  - rewrite add_tags_eq, (sort_by_perm str_lt). set_solver.
Qed.

(** ** Witnesses: a small history *)

Definition ex_add_a : Change := mkChange OpAdd "a" "t1" (mkOrderKey 1 "t1") [].
Definition ex_add_b : Change := mkChange OpAdd "b" "t2" (mkOrderKey 2 "t2") [].
Definition ex_rm_a : Change := mkChange OpRemove "a" "" (mkOrderKey 0 "") ["t1"].
Definition ex_again : Change := mkChange OpAdd "a" "t3" (mkOrderKey 2 "t3") [].
Definition ex_history : list Change := [ex_add_a; ex_add_b; ex_rm_a; ex_again].

Example ex_history_ids : IDs (Apply New ex_history) = ["b"; "a"].
Proof. vm_compute. reflexivity. Qed.

Lemma ex_history_self_tagged : Forall self_tagged ex_history.
Proof. repeat constructor. Qed.

Lemma playlist_converges_witness :
  Apply New ex_history = Apply New [ex_again; ex_rm_a; ex_add_b; ex_add_a; ex_rm_a].
Proof.
  apply playlist_converges. intros c. unfold ex_history. rewrite !elem_of_cons. tauto.
Defined.

Lemma playlist_add_wins_witness :
  "a" ∈ IDs (Apply New ex_history) ↔
    ∃ c, c ∈ ex_history ∧ Op c = OpAdd ∧ ItemID c = "a" ∧
      ∀ r, r ∈ ex_history → Op r = OpRemove → Tag c ∉ Observed r.
Proof.
  apply playlist_add_wins. intros c d Hc Hd. unfold ex_history in Hc, Hd.
  cases_in Hc; cases_in Hd; simpl; intros; split; congruence.
Defined.

Lemma playlist_items_deterministic_witness :
  Items_result (Apply New ex_history)
    [mkItem "b" (mkOrderKey 2 "t2"); mkItem "a" (mkOrderKey 2 "t3")].
Proof.
  apply (playlist_items_deterministic ex_history); [exact ex_history_self_tagged|].
  vm_compute. reflexivity.
Defined.

Lemma playlist_add_appends_witness :
  IDs (Add "t4" (Apply New ex_history) "c").1 = ["b"; "a"; "c"].
Proof.
  destruct (playlist_add_appends ex_history "t4" "c") as (_ & _ & H);
    [exact ex_history_self_tagged|reflexivity|reflexivity|decide_vm|decide_vm|].
  etrans; [exact H|]. vm_compute. reflexivity.
Defined.

Lemma playlist_remove_filters_witness :
  Items (Remove (Apply New ex_history) "b").1
    = filter (λ it, ID it ≠ "b") (Items (Apply New ex_history)).
Proof. apply (playlist_remove_filters ex_history "b"), ex_history_self_tagged. Defined.
