(* ===== verification/Starred.v ===== *)
(** * Starred: the add-wins set of starred items

    Models internal/personalstate/crdt/starred.go and starred_snapshot.go: an
    OR-Set as the playlist's, whose order is recency.  Tags are the strings of
    UUIDs, passed in where the code mints them; counters are [uint64]. *)

From S2P Require Import Prelude Replica.

(** ** Data *)

Definition OpStar : Z := 0.
Definition OpUnstar : Z := 1.

Record StarChange := mkStarChange {
  Op : Z; ItemID : string; Tag : string; At : N; Observed : list string }.

Record starRecord := mkStar { itemID : string; at_ : N }.

Definition lesserStar (a b : starRecord) : starRecord :=
  if decide (itemID a ≠ itemID b) then if str_lt (itemID a) (itemID b) then a else b
  else if decide (at_ a ≠ at_ b) then if (at_ a <? at_ b)%N then a else b
  else a.

Record StarSet := mkStarSet {
  adds : gmap string starRecord; tombstones : gset string; counter : N }.

Record StarEntry := mkEntry { ID : string; EntryAt : N }.

Definition NewStarSet : StarSet := mkStarSet ∅ ∅ 0%N.

(** ** Operations *)

Definition applyStar (s : StarSet) (c : StarChange) : StarSet :=
  if decide (Op c = OpStar) then
    mkStarSet (put_join lesserStar (Tag c) (mkStar (ItemID c) (At c)) (adds s))
      (tombstones s) (raise_to (counter s) (At c))
  else if decide (Op c = OpUnstar) then
    mkStarSet (adds s) (add_tags (Observed c) (tombstones s)) (counter s)
  else s.

Definition Apply (s : StarSet) (changes : list StarChange) : StarSet := foldl applyStar s changes.

Definition mergeStar (out s : StarSet) : StarSet :=
  mkStarSet (merge_into lesserStar (adds s) (adds out))
    (add_all (tombstones s) (tombstones out)) (raise_to (counter out) (counter s)).

(** A nil argument is skipped. *)
Definition MergeStars (sets : list (option StarSet)) : StarSet :=
  foldl (λ out s, match s with Some s => mergeStar out s | None => out end) NewStarSet sets.

Definition liveStarTags (s : StarSet) (id : string) : list string :=
  sort_by str_lt
    (fst <$> filter (λ e, itemID e.2 = id ∧ e.1 ∉ tombstones s) (map_to_list (adds s))).

Definition Star (newTag : string) (s : StarSet) (id : string) : StarSet * StarChange :=
  let n := sat_succ (counter s) in
  let c := mkStarChange OpStar id newTag n [] in
  (applyStar (mkStarSet (adds s) (tombstones s) n) c, c).

Definition Unstar (s : StarSet) (id : string) : StarSet * StarChange :=
  let c := mkStarChange OpUnstar id "" 0%N (liveStarTags s id) in
  (applyStar s c, c).

Definition IsStarred (s : StarSet) (id : string) : bool :=
  existsb (λ e, bool_decide (itemID e.2 = id) && negb (bool_decide (e.1 ∈ tombstones s)))
    (map_to_list (adds s)).

(** [best] after the loop of [Starred] over the visited entries. *)
Definition keepLatest (dead : gset string) (best : gmap string N)
    (e : string * starRecord) : gmap string N :=
  let (tag, rec) := e in
  if decide (tag ∈ dead) then best
  else match best !! itemID rec with
       | Some cur => if (cur <? at_ rec)%N then <[itemID rec := at_ rec]> best else best
       | None => <[itemID rec := at_ rec]> best
       end.

Definition latestOf (dead : gset string) (entries : list (string * starRecord)) :
    gmap string N := foldl (keepLatest dead) ∅ entries.

Definition Entry_less (a b : StarEntry) : bool :=
  if decide (EntryAt a ≠ EntryAt b) then (EntryAt b <? EntryAt a)%N
  else str_lt (ID a) (ID b).

Definition Starred (s : StarSet) : list StarEntry :=
  sort_by Entry_less
    ((λ p, mkEntry p.1 p.2) <$> map_to_list (latestOf (tombstones s) (map_to_list (adds s)))).

Definition StarredIDs (s : StarSet) : list string := ID <$> Starred s.

(** What [Starred] may return: [range] visits in any order, and [sort.Slice]
    returns some sorted permutation. *)
Definition Starred_result (s : StarSet) (out : list StarEntry) : Prop :=
  ∃ entries, entries ≡ₚ map_to_list (adds s) ∧
    out ≡ₚ (λ p, mkEntry p.1 p.2) <$> map_to_list (latestOf (tombstones s) entries) ∧
    StronglySorted (not_after Entry_less) out.

(** ** Snapshots *)

Record starSnapshotAdd := mkSnapStar { sa_Tag : string; sa_ItemID : string; sa_At : N }.
Record starSetSnapshot := mkSnapSet {
  ss_Stars : list starSnapshotAdd; ss_Tombstones : list string; ss_Counter : N }.

Definition Snapshot (s : StarSet) : starSetSnapshot :=
  mkSnapSet
    (sort_by (key_less sa_Tag str_lt)
       ((λ p, mkSnapStar p.1 (itemID p.2) (at_ p.2)) <$> map_to_list (adds s)))
    (sort_by str_lt (elements (tombstones s))) (counter s).

Definition StarSetFromSnapshot (snap : starSetSnapshot) : StarSet :=
  mkStarSet
    (insert_each sa_Tag (λ a, mkStar (sa_ItemID a) (sa_At a)) (ss_Stars snap) ∅)
    (add_tags (ss_Tombstones snap) ∅) (ss_Counter snap).

(** ** The starred set is a replica *)

Definition star_less : starRecord → starRecord → bool :=
  lex_less itemID str_lt (key_less at_ N.ltb).

#[export] Instance star_less_total : StrictTotal star_less.
Proof.
  split; [exact (lex_weak str_lt itemID (key_less at_ N.ltb))|].
  intros [i1 a1] [i2 a2] H1 H2.
  destruct (lex_incomparable _ _ _ _ _ H1 H2) as (Hi & H3 & H4).
  pose proof (key_incomparable _ _ _ _ H3 H4). simpl in *. by subst.
Qed.

Lemma lesserStar_min a b : lesserStar a b = min_by star_less b a.
Proof.
  unfold lesserStar, min_by, star_less, lex_less, key_less. destruct a as [ia na], b as [ib nb].
  simpl. destruct (decide (ia = ib)) as [->|Hne]; [|by rewrite decide_True].
  rewrite (decide_False (P := ib ≠ ib)) by tauto. case_decide as Hn; [done|].
  assert (na = nb) as -> by (by destruct (decide (na = nb))). by rewrite N.ltb_irrefl.
Qed.

#[export] Instance lesserStar_lattice : Lattice lesserStar.
Proof. apply (lattice_min star_less), lesserStar_min. Qed.

#[export] Instance starred_replica : Replica StarSet StarChange := {
  fresh := NewStarSet;
  applyOne := applyStar;
  merge := mergeStar;
  delta := applyStar NewStarSet;
}.

Lemma mergeStar_eq a b :
  mergeStar a b = mkStarSet (join_maps lesserStar (adds a) (adds b))
    (tombstones b ∪ tombstones a) (N.max (counter a) (counter b)).
Proof. unfold mergeStar. by autorewrite with crdt. Qed.

Lemma applyStar_merge s c : applyStar s c = mergeStar s (applyStar NewStarSet c).
Proof.
  rewrite mergeStar_eq. destruct s as [a t n], c as [op i tag o obs].
  unfold applyStar; simpl.
  destruct (decide (op = OpStar)); [|destruct (decide (op = OpUnstar))]; simpl;
    autorewrite with crdt; f_equal;
    rewrite ?join_maps_empty_l, ?join_maps_empty_r; try done; try set_solver; lia.
Qed.

#[export] Instance starred_laws : ReplicaLaws StarSet StarChange (λ _, True) (λ _, True).
Proof.
  split; try done; unfold merge, fresh; simpl.
  - intros s t u _ _ _. rewrite !mergeStar_eq; simpl. f_equal; [|set_solver|lia]. apply lat_assoc.
  - intros s t _ _. rewrite !mergeStar_eq. f_equal; [|set_solver|lia]. apply lat_comm.
  - intros s _. rewrite mergeStar_eq. destruct s as [a t n]. simpl. f_equal; [|set_solver|lia].
    apply lat_idem.
  - intros s _. rewrite mergeStar_eq. destruct s as [a t n]. simpl. f_equal; [|set_solver|lia].
    apply join_maps_empty_l.
  - intros s c _ _. apply applyStar_merge.
Qed.

(** Starred sets converge: the state after a set of changes depends on the set alone
    (order, duplicates and hostile tag reuse included), and merging sets, nil ones
    skipped, is replaying all their changes. *)
Theorem starred_converges (s : StarSet) (cs ds : list StarChange)
    (css : list (option (list StarChange))) :
  (∀ c, c ∈ cs ↔ c ∈ ds) →
  Apply s cs = Apply s ds ∧
  MergeStars (fmap (M := option) (Apply NewStarSet) <$> css) =
    Apply NewStarSet (concat (omap id css)).
Proof.
  intros H. split; [exact (replica_converges (S := StarSet) (C := StarChange) s cs ds H)|].
  exact (replica_merge_replays (S := StarSet) (C := StarChange) css).
Qed.

(** ** What the reads say *)

(** A live star of [id]: an add-tag no unstar has tombstoned. *)
Definition live_star (s : StarSet) (id tag : string) (n : N) : Prop :=
  adds s !! tag = Some (mkStar id n) ∧ tag ∉ tombstones s.

Section latest.
Context (dead : gset string).
Implicit Types (es : list (string * starRecord)).

Definition live_entry (id : string) (e : string * starRecord) : Prop :=
  (e.1 ∉ dead) ∧ itemID e.2 = id.

(** [n] is the greatest recency among the live entries of [id]. *)
Definition is_latest (id : string) es (n : N) : Prop :=
  (∃ e, e ∈ es ∧ live_entry id e ∧ at_ e.2 = n) ∧
  (∀ e, e ∈ es → live_entry id e → (at_ e.2 ≤ n)%N).

Lemma keepLatest_other id best e :
  ¬ live_entry id e → keepLatest dead best e !! id = best !! id.
Proof.
  destruct e as [tag rec]. unfold live_entry, keepLatest; simpl. intros Hn.
  destruct (decide (tag ∈ dead)); [done|].
  assert (itemID rec ≠ id) by tauto.
  repeat case_match; rewrite ?lookup_insert_ne by done; done.
Qed.

Lemma keepLatest_live id best e :
  live_entry id e → keepLatest dead best e !! id =
    Some (match best !! id with Some cur => N.max cur (at_ e.2) | None => at_ e.2 end).
Proof.
  destruct e as [tag rec]. unfold live_entry, keepLatest; simpl. intros [Hd <-].
  rewrite decide_False by done.
  destruct (best !! itemID rec) as [cur|] eqn:E; [|by rewrite lookup_insert_eq].
  destruct (N.ltb_spec cur (at_ rec)); [rewrite lookup_insert_eq|rewrite E]; f_equal; lia.
Qed.

Lemma latestOf_spec es id :
  match latestOf dead es !! id with
  | Some n => is_latest id es n
  | None => ∀ e, e ∈ es → ¬ live_entry id e
  end.
Proof.
  unfold latestOf. induction es as [|e es IH] using rev_ind.
  { cbn [foldl]. rewrite lookup_empty. intros e He. by apply elem_of_nil in He. }
  rewrite foldl_snoc'. set (b := foldl (keepLatest dead) ∅ es) in *.
  destruct (decide ((e.1 ∉ dead) ∧ itemID e.2 = id)) as [Hl|Hn].
  - rewrite keepLatest_live by done. unfold is_latest in *. destruct (b !! id) as [cur|].
    + destruct IH as [(e0 & He0 & Hl0 & Hk0) Hmax]. split.
      * destruct (N.max_spec cur (at_ e.2)) as [[_ ->]|[_ ->]];
          [exists e|exists e0]; rewrite elem_of_app; [|by split_and!; [left|..]].
        split_and!; [right; by left|done..].
      * intros e' [He'| ->%list_elem_of_singleton]%elem_of_app Hl'; [|lia].
        specialize (Hmax e' He' Hl'). lia.
    + split; [exists e; rewrite elem_of_app; split_and!; [right; by left|done..]|].
      intros e' [He'| ->%list_elem_of_singleton]%elem_of_app Hl'; [by destruct (IH e' He')|lia].
  - rewrite keepLatest_other by done. destruct (b !! id) as [cur|].
    + destruct IH as [(e0 & He0 & Hl0 & Hk0) Hmax].
      split; [exists e0; rewrite elem_of_app; split_and!; [by left|done..]|].
      intros e' [He'| ->%list_elem_of_singleton]%elem_of_app Hl'; [auto|done].
    + intros e' [He'| ->%list_elem_of_singleton]%elem_of_app; auto.
Qed.

Lemma is_latest_unique id es es' n n' :
  (∀ e, e ∈ es ↔ e ∈ es') → is_latest id es n → is_latest id es' n' → n = n'.
Proof.
  intros Heq [(e & He & Hl & <-) Hmax] [(e' & He' & Hl' & <-) Hmax'].
  apply N.le_antisymm; [apply Hmax'|apply Hmax]; try done; by apply Heq.
Qed.

Lemma latestOf_lookup es id n : latestOf dead es !! id = Some n ↔ is_latest id es n.
Proof.
  pose proof (latestOf_spec es id) as Hs. split.
  - intros E. by rewrite E in Hs.
  - intros Hb. destruct (latestOf dead es !! id) as [k'|].
    + f_equal. by eapply is_latest_unique.
    + destruct Hb as [(e & He & Hl & _) _]. by destruct (Hs e He).
Qed.

(** The visit order of [range] does not reach [best]. *)
Lemma latestOf_perm es es' : es ≡ₚ es' → latestOf dead es = latestOf dead es'.
Proof.
  intros Hp. apply map_eq. intros id. apply option_eq. intros k.
  rewrite !latestOf_lookup. unfold is_latest. by setoid_rewrite Hp.
Qed.
End latest.

Lemma is_latest_live s id n :
  is_latest (tombstones s) id (map_to_list (adds s)) n ↔
  (∃ tag, live_star s id tag n) ∧ ∀ tag m, live_star s id tag m → (m ≤ n)%N.
Proof.
  unfold is_latest, live_star, live_entry. split.
  - intros [([tag [i a]] & He%elem_of_map_to_list & [Hd <-] & <-) Hmax]. split; [by exists tag|].
    intros tag' m [Ha Hd']. apply (Hmax (tag', mkStar i m)); [by apply elem_of_map_to_list|done].
  - intros [(tag & Ha & Hd) Hmax]. split.
    + exists (tag, mkStar id n). by rewrite elem_of_map_to_list.
    + intros [t [i a]] He%elem_of_map_to_list [Hd' <-]. by apply (Hmax t).
Qed.

(** The order of the list, as a combinator: it separates entries with two ids. *)
Definition entry_order : StarEntry → StarEntry → bool :=
  lex_less EntryAt (flip_less N.ltb) (key_less ID str_lt).

#[export] Instance entry_order_total : StrictTotal entry_order.
Proof.
  split; [exact (lex_weak (flip_less N.ltb) EntryAt (key_less ID str_lt))|].
  intros [i1 a1] [i2 a2] H1 H2.
  destruct (lex_incomparable _ _ _ _ _ H1 H2) as (Hi & H3 & H4).
  pose proof (key_incomparable _ _ _ _ H3 H4). simpl in *. by subst.
Qed.

Lemma Entry_less_eq a b : Entry_less a b = entry_order a b.
Proof.
  unfold Entry_less, entry_order, lex_less, flip_less, key_less.
  destruct (decide (EntryAt a = EntryAt b)) as [->|]; [|by rewrite decide_True].
  by rewrite decide_False by tauto.
Qed.

#[export] Instance Entry_less_total : StrictTotal Entry_less.
Proof.
  destruct entry_order_total as [[H1 H2 H3] H4].
  split; [split|]; intros *; rewrite !Entry_less_eq; [apply H1|apply H2|apply H3|apply H4].
Qed.

Lemma elem_of_Starred s e :
  e ∈ Starred s ↔ (∃ tag, live_star s (ID e) tag (EntryAt e)) ∧
    ∀ tag m, live_star s (ID e) tag m → (m ≤ EntryAt e)%N.
Proof.
  unfold Starred. rewrite elem_of_sort_by, <-is_latest_live, <-latestOf_lookup, list_elem_of_fmap.
  split.
  - intros ([id k] & -> & H). by apply elem_of_map_to_list in H.
  - intros H. exists (ID e, EntryAt e). split; [by destruct e|]. by apply elem_of_map_to_list.
Qed.

Lemma NoDup_StarredIDs s : NoDup (StarredIDs s).
Proof.
  unfold StarredIDs, Starred. rewrite (sort_by_perm Entry_less), <-list_fmap_compose.
  apply NoDup_fst_map_to_list.
Qed.

Lemma IsStarred_iff s id : IsStarred s id = true ↔ ∃ tag n, live_star s id tag n.
Proof.
  unfold IsStarred, live_star. rewrite existsb_exists. split.
  - intros ([tag [i a]] & He & H). apply list_elem_of_In, elem_of_map_to_list in He.
    apply andb_true_iff in H as [Hi%bool_decide_eq_true Hd]. simpl in *. subst i.
    exists tag, a. split; [done|]. by destruct (bool_decide_reflect (tag ∈ tombstones s)).
  - intros (tag & n & Ha & Hd). exists (tag, mkStar id n).
    rewrite <-list_elem_of_In, elem_of_map_to_list. split; [done|]. simpl.
    by rewrite bool_decide_true, bool_decide_false.
Qed.

Lemma IsStarred_IDs s id : IsStarred s id = true ↔ id ∈ StarredIDs s.
Proof.
  rewrite IsStarred_iff. unfold StarredIDs. rewrite list_elem_of_fmap. split.
  - intros (tag & n & Hl). pose proof (latestOf_spec (tombstones s) (map_to_list (adds s)) id) as H.
    destruct (latestOf _ _ !! id) as [k|].
    + exists (mkEntry id k). split; [done|]. by apply elem_of_Starred, is_latest_live.
    + destruct Hl as [Ha Hd]. destruct (H (tag, mkStar id n)); [by apply elem_of_map_to_list|done].
  - intros (e & -> & He). apply elem_of_Starred in He as [[tag Hl] _]. eauto.
Qed.

(** The starred list is a function of the set: whatever order the maps are visited in
    and whatever sort is used, the list is the one [Starred] computes; it holds each
    item with a live star once, at the recency of its latest live star, in strictly
    decreasing (recency, id) order; and [IsStarred] is membership in it. *)
Theorem starred_list_spec (s : StarSet) :
  (∀ out, Starred_result s out → out = Starred s) ∧
  StronglySorted (λ a b, Entry_less a b = true) (Starred s) ∧
  NoDup (StarredIDs s) ∧
  (∀ e, e ∈ Starred s ↔ (∃ tag, live_star s (ID e) tag (EntryAt e)) ∧
     ∀ tag m, live_star s (ID e) tag m → (m ≤ EntryAt e)%N) ∧
  (∀ id, IsStarred s id = true ↔ id ∈ StarredIDs s).
Proof.
  split_and!; [|..|apply elem_of_Starred|apply IsStarred_IDs]; try apply NoDup_StarredIDs.
  - intros out (es & Hes & Hout & Hsorted). unfold Starred. apply (sort_by_unique Entry_less); [..|done].
    + intros x y _ _. apply (less_antisym (less := Entry_less)).
    + by rewrite Hout, (latestOf_perm _ _ _ Hes).
  - apply (sort_by_strict Entry_less); [apply _|]. apply (NoDup_fmap_1 ID).
    rewrite <-list_fmap_compose. apply NoDup_fst_map_to_list.
Qed.

(** ** What a history leaves behind *)

(** Each tag belongs to one star: the guarantee of a UUIDv7. *)
Definition unique_stars (cs : list StarChange) : Prop :=
  ∀ c d, c ∈ cs → d ∈ cs → Op c = OpStar → Op d = OpStar → Tag c = Tag d →
    ItemID c = ItemID d ∧ At c = At d.

Lemma Apply_star_snoc s cs c : Apply s (cs ++ [c]) = applyStar (Apply s cs) c.
Proof. apply foldl_snoc'. Qed.

Lemma star_tombstones cs tag :
  tag ∈ tombstones (Apply NewStarSet cs) ↔
  ∃ c, c ∈ cs ∧ Op c = OpUnstar ∧ tag ∈ Observed c.
Proof.
  induction cs as [|c cs IH] using rev_ind; [set_solver|].
  rewrite Apply_star_snoc. unfold applyStar. destruct (decide (Op c = OpStar)) as [Hop|Hop].
  - simpl. rewrite exists_snoc, IH, Hop. naive_solver.
  - rewrite exists_snoc, <-IH. destruct (decide (Op c = OpUnstar)); simpl;
      rewrite ?add_tags_eq; set_solver.
Qed.

Lemma star_adds cs tag rec :
  unique_stars cs →
  adds (Apply NewStarSet cs) !! tag = Some rec ↔
    ∃ c, c ∈ cs ∧ Op c = OpStar ∧ Tag c = tag ∧ rec = mkStar (ItemID c) (At c).
Proof.
  revert rec. induction cs as [|c cs IH] using rev_ind; intros rec Hu.
  { cbn [Apply foldl adds NewStarSet]. rewrite lookup_empty. set_solver. }
  assert (unique_stars cs) as Hu' by (intros d e Hd He; apply Hu; set_solver).
  specialize (λ r, IH r Hu'). rewrite Apply_star_snoc.
  unfold applyStar. destruct (decide (Op c = OpStar)) as [Hop|Hop].
  - simpl. unfold put_join. destruct (decide (Tag c = tag)) as [<-|Hne].
    + rewrite lookup_insert_eq. set (r := mkStar (ItemID c) (At c)).
      transitivity (Some r = Some rec).
      * destruct (adds (Apply NewStarSet cs) !! Tag c) as [ex|] eqn:E; [|done].
        destruct (proj1 (IH ex) eq_refl) as (d & Hd & Hdo & Ht & ->).
        destruct (Hu d c) as [H1 H2]; [set_solver..|]. rewrite H1, H2. fold r. by rewrite lat_idem.
      * split; [intros [= <-]; exists c; set_solver|].
        intros (d & Hd & Hdo & Ht & ->). destruct (Hu d c) as [H1 H2]; [set_solver..|].
        by rewrite H1, H2.
    + rewrite lookup_insert_ne, exists_snoc, IH by done. naive_solver.
  - transitivity (adds (Apply NewStarSet cs) !! tag = Some rec).
    + by destruct (decide (Op c = OpUnstar)).
    + rewrite exists_snoc, IH. naive_solver.
Qed.

(** Add wins: after any history whose stars have tags of their own, an item is starred
    exactly when some star of it was seen by no unstar in the history; so a star
    concurrent with an unstar survives it, and its recency is that of the latest such
    star. *)
Theorem starred_add_wins (cs : list StarChange) (id : string) :
  unique_stars cs →
  let s := Apply NewStarSet cs in
  let survives c := c ∈ cs ∧ Op c = OpStar ∧ ItemID c = id ∧
    ¬ (∃ d, d ∈ cs ∧ Op d = OpUnstar ∧ Tag c ∈ Observed d) in
  (IsStarred s id = true ↔ ∃ c, survives c) ∧
  (∀ n, mkEntry id n ∈ Starred s ↔
     (∃ c, survives c ∧ At c = n) ∧ ∀ c, survives c → (At c ≤ n)%N).
Proof.
  intros Hu. cbv zeta.
  assert (∀ tag n, live_star (Apply NewStarSet cs) id tag n ↔
    ∃ c, (c ∈ cs ∧ Op c = OpStar ∧ ItemID c = id ∧
      ¬ (∃ d, d ∈ cs ∧ Op d = OpUnstar ∧ Tag c ∈ Observed d)) ∧ Tag c = tag ∧ At c = n) as Hl.
  { intros tag n. unfold live_star. rewrite star_adds, star_tombstones by done. split.
    - intros ((c & Hc & Ho & <- & [= -> ->]) & Hn). by exists c.
    - intros (c & (Hc & Ho & <- & Hn) & <- & <-). split; [by exists c|done]. }
  split.
  - rewrite IsStarred_iff. setoid_rewrite Hl. naive_solver.
  - intros n. rewrite elem_of_Starred. cbn [ID EntryAt]. setoid_rewrite Hl. naive_solver.
Qed.

(** *** Local operations *)

(** The clock has seen every recency in the set. *)
Definition clocked (s : StarSet) : Prop :=
  is_u64 (counter s) ∧ ∀ tag rec, adds s !! tag = Some rec → (at_ rec ≤ counter s)%N.

Lemma clocked_star s c : clocked s → is_u64 (At c) → clocked (applyStar s c).
Proof.
  intros [Hc Ha] Hat. unfold applyStar, clocked.
  case_decide; simpl; [|case_decide; done].
  rewrite raise_to_max. split; [unfold is_u64 in *; lia|]. intros tag rec.
  unfold put_join. destruct (decide (Tag c = tag)) as [<-|Hne].
  - rewrite lookup_insert_eq. intros [= <-]. destruct (adds s !! Tag c) as [ex|] eqn:E; simpl; [|lia].
    specialize (Ha _ _ E). unfold lesserStar. repeat case_match; simpl; lia.
  - rewrite lookup_insert_ne by done. intros Hr%Ha. lia.
Qed.

Lemma elem_of_liveStarTags s id tag :
  tag ∈ liveStarTags s id ↔ ∃ n, live_star s id tag n.
Proof.
  unfold liveStarTags, live_star. rewrite elem_of_sort_by, list_elem_of_fmap. split.
  - intros ([t [i a]] & -> & Hf).
    apply list_elem_of_filter in Hf as [[Hi Hd] He%elem_of_map_to_list].
    simpl in *. subst. eauto.
  - intros (n & Ha & Hd). exists (tag, mkStar id n). split; [done|].
    by rewrite list_elem_of_filter, elem_of_map_to_list.
Qed.

Lemma live_star_Star tag s id j t n :
  adds s !! tag = None → tag ∉ tombstones s →
  live_star (Star tag s id).1 j t n ↔
  (t = tag ∧ j = id ∧ n = sat_succ (counter s)) ∨ live_star s j t n.
Proof.
  intros Ha Hd. unfold Star, applyStar, live_star. simpl. unfold put_join. rewrite Ha.
  destruct (decide (t = tag)) as [->|Hne].
  - rewrite lookup_insert_eq, Ha. naive_solver.
  - rewrite lookup_insert_ne by done. naive_solver.
Qed.

Lemma live_star_Unstar s id j t n :
  live_star (Unstar s id).1 j t n ↔ j ≠ id ∧ live_star s j t n.
Proof.
  unfold Unstar, applyStar, live_star at 1. simpl. rewrite add_tags_eq, elem_of_union,
    elem_of_list_to_set, elem_of_liveStarTags. unfold live_star. split.
  - intros [Ha Hn]. split; [|split; [done|tauto]]. intros ->. apply Hn. left. exists n. tauto.
  - intros (Hne & Ha & Hd). split; [done|]. intros [(m & Ha' & _)|]; [|done]. congruence.
Qed.

(** A fresh star is the most recent one. *)
Lemma Star_head tag s id :
  clocked s → adds s !! tag = None → tag ∉ tombstones s → counter s ≠ MaxUint64 →
  head (StarredIDs (Star tag s id).1) = Some id.
Proof.
  intros [Hu Hb] Ha Hd Hmax.
  pose proof (sat_succ_spec (counter s) Hu) as (_ & Hle & Hlt). destruct (StarredIDs (Star tag s id).1) as [|j l] eqn:E.
  { assert (id ∈ StarredIDs (Star tag s id).1) as Hin; [|rewrite E in Hin; by apply elem_of_nil in Hin].
    apply IsStarred_IDs, IsStarred_iff. exists tag, (sat_succ (counter s)).
    apply live_star_Star; auto. }
  simpl. f_equal. destruct (decide (j = id)) as [|Hj]; [done|exfalso].
  unfold StarredIDs in E. destruct (Starred _) as [|e es] eqn:Es; [done|].
  injection E as Hje _. pose proof (sort_by_sorted Entry_less) as Hs.
  specialize (Hs _ : StronglySorted (not_after Entry_less) (Starred (Star tag s id).1)).
  rewrite Es in Hs. apply StronglySorted_inv in Hs as [_ Hall]. rewrite Forall_forall in Hall.
  assert (mkEntry id (sat_succ (counter s)) ∈ Starred (Star tag s id).1) as Hin.
  { apply elem_of_Starred. cbn [ID EntryAt]. split; [exists tag; apply live_star_Star; auto|].
    intros t m [(_ & _ & ->)|[Hm _]]%live_star_Star; [lia| |done..].
    pose proof (Hb _ _ Hm). simpl in *. lia. }
  assert (e ∈ Starred (Star tag s id).1) as He by (rewrite Es; left).
  apply elem_of_Starred in He as [[t Ht] _].
  apply live_star_Star in Ht as [(_ & Hi & _)|[Ht _]]; [congruence| |done..].
  pose proof (Hb _ _ Ht) as Hen. simpl in Hen. specialize (Hlt Hmax).
  rewrite Es in Hin. apply elem_of_cons in Hin as [Heq|Hin]; [subst e; simpl in *; congruence|].
  specialize (Hall _ Hin). unfold not_after, Entry_less in Hall. simpl in Hall.
  rewrite decide_True in Hall by lia. apply N.ltb_ge in Hall. lia.
Qed.

(** Local stars and unstars do what they say: a star under a fresh tag stars its item,
    and puts it at the head of the list unless the clock is saturated; an unstar removes
    exactly its item; neither touches another item. *)
Theorem star_unstar_spec (tag : string) (s : StarSet) (id : string) :
  clocked s → adds s !! tag = None → tag ∉ tombstones s →
  IsStarred (Star tag s id).1 id = true ∧ clocked (Star tag s id).1 ∧
  (counter s ≠ MaxUint64 → head (StarredIDs (Star tag s id).1) = Some id) ∧
  IsStarred (Unstar s id).1 id = false ∧
  (∀ j, j ≠ id → IsStarred (Star tag s id).1 j = IsStarred s j ∧
                 IsStarred (Unstar s id).1 j = IsStarred s j).
Proof.
  intros Hc Ha Hd. pose proof (sat_succ_spec (counter s) (proj1 Hc)) as (Hu & Hle & Hlt).
  assert (∀ b c : bool, (b = true ↔ c = true) → b = c) as Hbool.
  { intros [] [] ?; naive_solver. }
  split_and!.
  - apply IsStarred_iff. exists tag, (sat_succ (counter s)). apply live_star_Star; auto.
  - apply clocked_star; [|done]. destruct Hc as [_ Hb]. split; [done|].
    intros t r Hr. specialize (Hb t r Hr). simpl. lia.
  - intros Hmax. by apply Star_head.
  - apply not_true_iff_false. rewrite IsStarred_iff. intros (t & n & [Hn _]%live_star_Unstar). done.
  - intros j Hj. split; apply Hbool; rewrite !IsStarred_iff.
    + setoid_rewrite (live_star_Star tag s id); [|done..]. naive_solver.
    + setoid_rewrite live_star_Unstar. naive_solver.
Qed.

(** ** Witnesses *)

Definition ex_star_a : StarChange := mkStarChange OpStar "a" "t1" 1 [].
Definition ex_star_b : StarChange := mkStarChange OpStar "b" "t2" 2 [].
Definition ex_unstar_a : StarChange := mkStarChange OpUnstar "a" "" 0 ["t1"].
Definition ex_star_again : StarChange := mkStarChange OpStar "a" "t3" 2 [].

Lemma starred_converges_witness :
  Apply NewStarSet [ex_star_a; ex_unstar_a; ex_star_b] =
  Apply NewStarSet [ex_unstar_a; ex_star_b; ex_star_a; ex_star_b].
Proof.
  apply (starred_converges NewStarSet [ex_star_a; ex_unstar_a; ex_star_b]
    [ex_unstar_a; ex_star_b; ex_star_a; ex_star_b] []).
  intros c. set_solver.
Defined.

Lemma starred_add_wins_witness :
  IsStarred (Apply NewStarSet [ex_star_a; ex_unstar_a; ex_star_again]) "a" = true.
Proof.
  destruct (starred_add_wins [ex_star_a; ex_unstar_a; ex_star_again] "a") as [[_ H] _].
  - intros c d Hc Hd. cases_in Hc; cases_in Hd; done.
  - apply H. exists ex_star_again. split_and!; [set_solver|done|done|].
    intros (d & Hd & Ho & Ht). cases_in Hd; try done. simpl in Ht. cases_in Ht; done.
Defined.

Lemma star_unstar_spec_witness :
  head (StarredIDs (Star "t9" (Apply NewStarSet [ex_star_a; ex_star_b]) "c").1) = Some "c".
Proof.
  apply (star_unstar_spec "t9" (Apply NewStarSet [ex_star_a; ex_star_b]) "c"); try done.
  split; [done|]. change (map_Forall (λ _ rec, (at_ rec ≤ 2)%N)
    (adds (Apply NewStarSet [ex_star_a; ex_star_b]))). decide_vm.
Defined.
