(* ===== verification/PosKey.v ===== *)
(** * PosKey: the total order of writes

    The key of internal/personalstate/crdt/readingpos.go that the reading positions
    and the vault drive share: a Lamport counter, and the tag of the write as the
    tie-break. *)

From S2P Require Import Prelude.

(** ** The total order of writes *)

Record posKey := mkKey { KeyAt : N; KeyWriter : string }.

#[export] Instance posKey_eq_dec : EqDecision posKey.
Proof. solve_decision. Defined.

#[export] Instance posKey_countable : Countable posKey.
Proof.
  refine (inj_countable' (λ k, (KeyAt k, KeyWriter k)) (λ p, mkKey p.1 p.2) _). by intros [].
Defined.

Definition zeroKey : posKey := mkKey 0 "".

Definition greater (k other : posKey) : bool :=
  if decide (KeyAt k ≠ KeyAt other) then (KeyAt other <? KeyAt k)%N
  else str_lt (KeyWriter other) (KeyWriter k).

Definition key_order : posKey → posKey → bool :=
  lex_less KeyAt N.ltb (key_less KeyWriter str_lt).

#[export] Instance key_order_total : StrictTotal key_order.
Proof.
  split; [exact (lex_weak N.ltb KeyAt (key_less KeyWriter str_lt))|].
  intros [a1 w1] [a2 w2] H1 H2.
  destruct (lex_incomparable _ _ _ _ _ H1 H2) as (Ha & H3 & H4).
  pose proof (key_incomparable _ _ _ _ H3 H4). simpl in *. by subst.
Qed.

Lemma greater_eq k other : greater k other = key_order other k.
Proof.
  unfold greater, key_order, lex_less, key_less.
  destruct (decide (KeyAt other = KeyAt k)) as [->|]; [|by rewrite decide_True].
  by rewrite decide_False by tauto.
Qed.

#[export] Instance greater_total : StrictTotal greater.
Proof.
  destruct key_order_total as [[H1 H2 H3] H4].
  split; [split|]; intros *; rewrite !greater_eq; eauto.
Qed.
