(* ===== verification/ReadingPos.v ===== *)
(** * ReadingPos: the last position of each publication

    Models internal/personalstate/crdt/readingpos.go and readingpos_snapshot.go:
    a register per publication, the write with the greatest (counter, writer) key
    winning (PosKey.v).  Writer tags are passed in where the code mints them. *)

From S2P Require Import Prelude Replica PosKey.

(** ** Data *)

Record PositionChange := mkPosChange {
  PubID : string; NewPosition : string; At : N; Writer : string }.

Record posRecord := mkPos { position : string; key : posKey }.

Definition laterRecord (a b : posRecord) : posRecord :=
  if greater (key a) (key b) then a
  else if greater (key b) (key a) then b
  else if negb (str_lt (position a) (position b)) then a else b.

Record ReadingPositions := mkPositions { positions : gmap string posRecord; counter : N }.

Record PositionEntry := mkPosEntry { EntryPub : string; EntryPosition : string; EntryAt : N }.

Definition NewReadingPositions : ReadingPositions := mkPositions ∅ 0.

(** ** Operations *)

Definition recordOf (c : PositionChange) : posRecord := mkPos (NewPosition c) (mkKey (At c) (Writer c)).

Definition applyPosition (r : ReadingPositions) (c : PositionChange) : ReadingPositions :=
  mkPositions (put_join laterRecord (PubID c) (recordOf c) (positions r)) (raise_to (counter r) (At c)).

Definition Apply (r : ReadingPositions) (changes : list PositionChange) : ReadingPositions :=
  foldl applyPosition r changes.

Definition mergePositions (out r : ReadingPositions) : ReadingPositions :=
  mkPositions (merge_into laterRecord (positions r) (positions out))
    (raise_to (counter out) (counter r)).

(** A nil argument is skipped. *)
Definition MergeReadingPositions (maps : list (option ReadingPositions)) : ReadingPositions :=
  foldl (λ out r, match r with Some r => mergePositions out r | None => out end)
    NewReadingPositions maps.

Definition Set_ (newTag : string) (r : ReadingPositions) (pubID pos : string) :
    ReadingPositions * PositionChange :=
  let n := sat_succ (counter r) in
  let c := mkPosChange pubID pos n newTag in
  (applyPosition (mkPositions (positions r) n) c, c).

Definition Position (r : ReadingPositions) (pubID : string) : option string :=
  position <$> positions r !! pubID.

Definition All (r : ReadingPositions) : list PositionEntry :=
  sort_by (key_less EntryPub str_lt)
    ((λ p, mkPosEntry p.1 (position p.2) (KeyAt (key p.2))) <$> map_to_list (positions r)).

(** ** Snapshots *)

Record posSnapshotEntry := mkPosSnap { ps_Pub : string; ps_Position : string; ps_At : N; ps_Writer : string }.
Record readingSnapshot := mkReadingSnap { rs_Positions : list posSnapshotEntry; rs_Counter : N }.

Definition Snapshot (r : ReadingPositions) : readingSnapshot :=
  mkReadingSnap
    (sort_by (key_less ps_Pub str_lt)
       ((λ p, mkPosSnap p.1 (position p.2) (KeyAt (key p.2)) (KeyWriter (key p.2)))
          <$> map_to_list (positions r)))
    (counter r).

Definition ReadingPositionsFromSnapshot (snap : readingSnapshot) : ReadingPositions :=
  mkPositions
    (insert_each ps_Pub (λ p, mkPos (ps_Position p) (mkKey (ps_At p) (ps_Writer p)))
       (rs_Positions snap) ∅)
    (rs_Counter snap).

(** ** The register is a replica *)

(** [a] is a later write than [b]; the position itself breaks a tie of keys. *)
Definition later : posRecord → posRecord → bool :=
  lex_less key greater (key_less position (flip_less str_lt)).

#[export] Instance later_total : StrictTotal later.
Proof.
  split; [exact (lex_weak greater key (key_less position (flip_less str_lt)))|].
  intros [p1 k1] [p2 k2] H1 H2.
  destruct (lex_incomparable _ _ _ _ _ H1 H2) as (Hk & H3 & H4).
  pose proof (key_incomparable _ _ _ _ H3 H4). simpl in *. by subst.
Qed.

Lemma laterRecord_min a b : laterRecord a b = min_by later b a.
Proof.
  unfold laterRecord, min_by, later, lex_less, key_less, flip_less.
  destruct a as [pa ka], b as [pb kb]. simpl.
  destruct (decide (ka = kb)) as [->|Hne].
  - rewrite less_irrefl. destruct (str_lt pa pb) eqn:Hab; simpl.
    + by rewrite (less_asym _ _ _ Hab).
    + destruct (str_lt pb pa) eqn:Hba; [done|].
      by rewrite (less_antisym (less := str_lt) pa pb).
  - destruct (greater ka kb) eqn:Hab; [done|]. destruct (greater kb ka) eqn:Hba; [done|].
    destruct Hne. by apply (less_antisym (less := greater)).
Qed.

#[export] Instance laterRecord_lattice : Lattice laterRecord.
Proof. apply (lattice_min later), laterRecord_min. Qed.

#[export] Instance reading_replica : Replica ReadingPositions PositionChange := {
  fresh := NewReadingPositions;
  applyOne := applyPosition;
  merge := mergePositions;
  delta := applyPosition NewReadingPositions;
}.

Lemma mergePositions_eq a b :
  mergePositions a b = mkPositions (join_maps laterRecord (positions a) (positions b))
    (N.max (counter a) (counter b)).
Proof. unfold mergePositions. by autorewrite with crdt. Qed.

#[export] Instance reading_laws :
  ReplicaLaws ReadingPositions PositionChange (λ _, True) (λ _, True).
Proof.
  split; try done; unfold merge, fresh; simpl.
  - intros s t u _ _ _. rewrite !mergePositions_eq; simpl. f_equal; [apply lat_assoc|lia].
  - intros s t _ _. rewrite !mergePositions_eq. f_equal; [apply lat_comm|lia].
  - intros s _. rewrite mergePositions_eq. destruct s as [m n]. simpl.
    f_equal; [apply lat_idem|lia].
  - intros s _. rewrite mergePositions_eq. destruct s as [m n]. simpl.
    f_equal; [apply join_maps_empty_l|lia].
  - intros s c _ _. rewrite mergePositions_eq. unfold applyPosition. simpl.
    autorewrite with crdt. f_equal; [by rewrite join_maps_empty_l|lia].
Qed.

(** ** What a history leaves behind *)

Lemma Apply_pos_snoc r cs c : Apply r (cs ++ [c]) = applyPosition (Apply r cs) c.
Proof. apply foldl_snoc'. Qed.

(** The record a history leaves is the latest of its writes to the publication. *)
Lemma positions_Apply cs pub :
  match positions (Apply NewReadingPositions cs) !! pub with
  | Some rec => (∃ c, c ∈ cs ∧ PubID c = pub ∧ recordOf c = rec) ∧
      ∀ c, c ∈ cs → PubID c = pub → later (recordOf c) rec = false
  | None => ∀ c, c ∈ cs → PubID c ≠ pub
  end.
Proof.
  induction cs as [|c cs IH] using rev_ind.
  { cbn [Apply foldl positions NewReadingPositions]. rewrite lookup_empty.
    intros c Hc. by apply elem_of_nil in Hc. }
  rewrite Apply_pos_snoc. unfold applyPosition. simpl. unfold put_join.
  set (m := positions (Apply NewReadingPositions cs)) in *.
  destruct (decide (PubID c = pub)) as [<-|Hne].
  - rewrite lookup_insert_eq. destruct (m !! PubID c) as [rec|].
    + destruct IH as [(d & Hd & Hp & Hr) Hmax]. rewrite laterRecord_min. unfold min_by.
      destruct (later rec (recordOf c)) eqn:Hl.
      * split; [exists d; set_solver|]. intros e [He| ->%list_elem_of_singleton]%elem_of_app Hpe; [auto|].
        by apply (less_asym later).
      * split; [exists c; set_solver|]. intros e [He| ->%list_elem_of_singleton]%elem_of_app Hpe.
        -- apply (less_ntrans (less := later) _ rec); auto.
        -- apply less_irrefl.
    + split; [exists c; set_solver|]. intros e [He| ->%list_elem_of_singleton]%elem_of_app Hpe.
      * by destruct (IH e He).
      * apply less_irrefl.
  - rewrite lookup_insert_ne by done. destruct (m !! pub) as [rec|].
    + destruct IH as [(d & Hd & Hp & Hr) Hmax]. split; [exists d; set_solver|].
      intros e [He| ->%list_elem_of_singleton]%elem_of_app Hpe; [auto|done].
    + intros e [He| ->%list_elem_of_singleton]%elem_of_app; auto.
Qed.

(** Reading positions converge on the last write: the state after a set of writes
    depends on the set alone, merging replicas is replaying their writes, and the
    position of a publication is that of its write with the greatest (counter, writer,
    position), none when it was never written. *)
Theorem positions_last_write (cs ds : list PositionChange)
    (css : list (option (list PositionChange))) (pub : string) :
  (∀ c, c ∈ cs ↔ c ∈ ds) →
  Apply NewReadingPositions cs = Apply NewReadingPositions ds ∧
  MergeReadingPositions (fmap (M := option) (Apply NewReadingPositions) <$> css) =
    Apply NewReadingPositions (concat (omap id css)) ∧
  match Position (Apply NewReadingPositions cs) pub with
  | Some p => ∃ c, c ∈ ds ∧ PubID c = pub ∧ NewPosition c = p ∧
      ∀ d, d ∈ ds → PubID d = pub → later (recordOf d) (recordOf c) = false
  | None => ∀ c, c ∈ ds → PubID c ≠ pub
  end.
Proof.
  intros H. split_and!.
  - exact (replica_converges (S := ReadingPositions) NewReadingPositions cs ds H).
  - exact (replica_merge_replays (S := ReadingPositions) (C := PositionChange) css).
  - pose proof (positions_Apply cs pub) as Hp. unfold Position.
    destruct (positions _ !! pub) as [rec|]; simpl; setoid_rewrite <-H; [|done].
    destruct Hp as [(c & Hc & Hpub & <-) Hmax]. by exists c.
Qed.

(** The clock has seen every write. *)
Definition clocked (r : ReadingPositions) : Prop :=
  is_u64 (counter r) ∧ ∀ pub rec, positions r !! pub = Some rec → (KeyAt (key rec) ≤ counter r)%N.

(** A local write is the current position at once, whatever the replica holds, and
    no other publication moves, unless the clock is saturated (then the writer tag
    decides, and the position is one of the two). *)
Theorem position_set_spec (tag : string) (r : ReadingPositions) (pub pos : string) :
  clocked r →
  let r' := (Set_ tag r pub pos).1 in
  clocked r' ∧
  (counter r ≠ MaxUint64 → Position r' pub = Some pos) ∧
  (Position r' pub = Some pos ∨ Position r' pub = Position r pub) ∧
  (∀ other, other ≠ pub → Position r' other = Position r other).
Proof.
  intros [Hu Hb]. cbv zeta. pose proof (sat_succ_spec (counter r) Hu) as (Hu' & Hle & Hlt).
  assert (∀ rec, laterRecord rec (recordOf (mkPosChange pub pos (sat_succ (counter r)) tag))
    ∈ [rec; recordOf (mkPosChange pub pos (sat_succ (counter r)) tag)]) as Hone.
  { intros rec. unfold laterRecord. repeat case_match; set_solver. }
  unfold Position, Set_, applyPosition. simpl. unfold put_join.
  split_and!.
  - split; simpl; [by rewrite raise_to_max, N.max_id|]. intros p rec. rewrite raise_to_max, N.max_id.
    destruct (decide (p = pub)) as [->|Hne]; [|rewrite lookup_insert_ne by done; intros Hr%Hb; lia].
    rewrite lookup_insert_eq. intros [= <-]. destruct (positions r !! pub) as [ex|] eqn:E; [|simpl; lia].
    specialize (Hone ex). specialize (Hb _ _ E). apply elem_of_cons in Hone as [->|Hone]; [lia|].
    apply list_elem_of_singleton in Hone as ->. simpl. lia.
  - intros Hmax. rewrite lookup_insert_eq. simpl. f_equal.
    destruct (positions r !! pub) as [ex|] eqn:E; [|done]. specialize (Hb _ _ E). specialize (Hlt Hmax).
    unfold laterRecord, greater. simpl. rewrite !decide_True by lia.
    destruct (N.ltb_spec (sat_succ (counter r)) (KeyAt (key ex))); [lia|].
    destruct (N.ltb_spec (KeyAt (key ex)) (sat_succ (counter r))); [done|lia].
  - rewrite lookup_insert_eq. destruct (positions r !! pub) as [ex|]; [|by left]. simpl.
    specialize (Hone ex). apply elem_of_cons in Hone as [->|Hone]; [by right|left].
    by apply list_elem_of_singleton in Hone as ->.
  - intros other Hne. by rewrite lookup_insert_ne.
Qed.

(** Reading a snapshot back is the identity. *)
Lemma positions_snapshot_roundtrip r : ReadingPositionsFromSnapshot (Snapshot r) = r.
Proof.
  destruct r as [m n]. unfold ReadingPositionsFromSnapshot, Snapshot. simpl. f_equal.
  apply (insert_each_map _ _ (λ p, mkPosSnap p.1 (position p.2) (KeyAt (key p.2)) (KeyWriter (key p.2)))).
  - done.
  - by intros [k [p [a w]]].
  - apply (sort_by_perm _).
Qed.

(** ** Witnesses *)

Lemma positions_last_write_witness :
  Position (Apply NewReadingPositions [mkPosChange "b" "p2" 2 "w1"; mkPosChange "b" "p1" 1 "w9"]) "b"
    = Some "p2" ∧
  Apply NewReadingPositions [mkPosChange "b" "p2" 2 "w1"; mkPosChange "b" "p1" 1 "w9"] =
  Apply NewReadingPositions [mkPosChange "b" "p1" 1 "w9"; mkPosChange "b" "p2" 2 "w1"].
Proof.
  split; [vm_compute; reflexivity|].
  apply (positions_last_write [mkPosChange "b" "p2" 2 "w1"; mkPosChange "b" "p1" 1 "w9"]
    [mkPosChange "b" "p1" 1 "w9"; mkPosChange "b" "p2" 2 "w1"] [] "b"). set_solver.
Defined.

Lemma position_set_spec_witness :
  Position (Set_ "w2" (Apply NewReadingPositions [mkPosChange "b" "p1" 7 "w9"]) "b" "p2").1 "b" = Some "p2".
Proof.
  apply (position_set_spec "w2" (Apply NewReadingPositions [mkPosChange "b" "p1" 7 "w9"]) "b" "p2");
    [|done].
  split; [done|]. change (map_Forall (λ _ rec, (KeyAt (key rec) ≤ 7)%N)
    (positions (Apply NewReadingPositions [mkPosChange "b" "p1" 7 "w9"]))). decide_vm.
Defined.
