(* ===== verification/History.v ===== *)
(** * History: the grow-only log of plays

    Models internal/personalstate/crdt/history.go and history_snapshot.go: a set of
    play events keyed by tag, and the listening views derived from it.  The loops
    over the map are folds over its entries, in any order. *)

From S2P Require Import Prelude Replica.

(** ** Data *)

Record PlayChange := mkPlayChange { ItemID : string; Tag : string; At : N }.

Record playRecord := mkPlay { itemID : string; at_ : N }.

Definition lesserPlay (a b : playRecord) : playRecord :=
  if decide (itemID a ≠ itemID b) then if str_lt (itemID a) (itemID b) then a else b
  else if decide (at_ a ≠ at_ b) then if (at_ a <? at_ b)%N then a else b
  else a.

Record PlayLog := mkLog { events : gmap string playRecord; counter : N }.

Record PlayEntry := mkEntry { ID : string; EntryCount : nat; LastAt : N }.

Definition NewPlayLog : PlayLog := mkLog ∅ 0.

(** ** Operations *)

Definition playOf (c : PlayChange) : playRecord := mkPlay (ItemID c) (At c).

Definition applyPlay (l : PlayLog) (c : PlayChange) : PlayLog :=
  mkLog (put_join lesserPlay (Tag c) (playOf c) (events l)) (raise_to (counter l) (At c)).

Definition Apply (l : PlayLog) (changes : list PlayChange) : PlayLog := foldl applyPlay l changes.

Definition mergeLog (out l : PlayLog) : PlayLog :=
  mkLog (merge_into lesserPlay (events l) (events out)) (raise_to (counter out) (counter l)).

(** A nil argument is skipped. *)
Definition MergePlayLogs (logs : list (option PlayLog)) : PlayLog :=
  foldl (λ out l, match l with Some l => mergeLog out l | None => out end) NewPlayLog logs.

Definition PlayLog_Record (newTag : string) (l : PlayLog) (id : string) : PlayLog * PlayChange :=
  let n := sat_succ (counter l) in
  let c := mkPlayChange id newTag n in
  (applyPlay (mkLog (events l) n) c, c).

(** ** Views *)

Abbreviation Entries := (list (string * playRecord)) (only parsing).

Definition countIn (id : string) (es : Entries) : nat :=
  foldl (λ n e, if decide (itemID e.2 = id) then S n else n) 0%nat es.

Definition Count (l : PlayLog) (id : string) : nat := countIn id (map_to_list (events l)).

(** One turn of the loop of [perItem]. *)
Definition foldItem (byItem : gmap string PlayEntry) (e : string * playRecord) :
    gmap string PlayEntry :=
  let rec := e.2 in
  match byItem !! itemID rec with
  | None => <[itemID rec := mkEntry (itemID rec) 1 (at_ rec)]> byItem
  | Some p => <[itemID rec := mkEntry (ID p) (S (EntryCount p))
                 (if (LastAt p <? at_ rec)%N then at_ rec else LastAt p)]> byItem
  end.

Definition perItem (es : Entries) : gmap string PlayEntry := foldl foldItem ∅ es.

Definition entriesOf (byItem : gmap string PlayEntry) : list PlayEntry :=
  snd <$> map_to_list byItem.

Definition Recent_less (a b : PlayEntry) : bool :=
  if decide (LastAt a ≠ LastAt b) then (LastAt b <? LastAt a)%N else str_lt (ID a) (ID b).

Definition Frequent_less (a b : PlayEntry) : bool :=
  if decide (EntryCount a ≠ EntryCount b) then (EntryCount b <? EntryCount a)%nat
  else if decide (LastAt a ≠ LastAt b) then (LastAt b <? LastAt a)%N
  else str_lt (ID a) (ID b).

Definition Recent (l : PlayLog) : list PlayEntry :=
  sort_by Recent_less (entriesOf (perItem (map_to_list (events l)))).
Definition Frequent (l : PlayLog) : list PlayEntry :=
  sort_by Frequent_less (entriesOf (perItem (map_to_list (events l)))).

(** The best event so far of the loop of [NowPlaying]. *)
Definition keepGreatest (best : option (string * playRecord)) (e : string * playRecord) :
    option (string * playRecord) :=
  match best with
  | None => Some e
  | Some b =>
      if (at_ b.2 <? at_ e.2)%N || (bool_decide (at_ e.2 = at_ b.2) && str_lt b.1 e.1)
      then Some e else best
  end.

Definition NowPlayingOf (es : Entries) : option string :=
  (λ b, itemID b.2) <$> foldl keepGreatest None es.

Definition NowPlaying (l : PlayLog) : option string := NowPlayingOf (map_to_list (events l)).

(** ** Snapshots *)

Record playSnapshotEvent := mkPlaySnap { pe_Tag : string; pe_ItemID : string; pe_At : N }.
Record playLogSnapshot := mkLogSnap { pl_Events : list playSnapshotEvent; pl_Counter : N }.

Definition Snapshot (l : PlayLog) : playLogSnapshot :=
  mkLogSnap
    (sort_by (key_less pe_Tag str_lt)
       ((λ p, mkPlaySnap p.1 (itemID p.2) (at_ p.2)) <$> map_to_list (events l)))
    (counter l).

Definition PlayLogFromSnapshot (snap : playLogSnapshot) : PlayLog :=
  mkLog (insert_each pe_Tag (λ e, mkPlay (pe_ItemID e) (pe_At e)) (pl_Events snap) ∅)
    (pl_Counter snap).

(** ** The log is a replica *)

Definition play_less : playRecord → playRecord → bool :=
  lex_less itemID str_lt (key_less at_ N.ltb).

#[export] Instance play_less_total : StrictTotal play_less.
Proof.
  split; [exact (lex_weak str_lt itemID (key_less at_ N.ltb))|].
  intros [i1 a1] [i2 a2] H1 H2.
  destruct (lex_incomparable _ _ _ _ _ H1 H2) as (Hi & H3 & H4).
  pose proof (key_incomparable _ _ _ _ H3 H4). simpl in *. by subst.
Qed.

Lemma lesserPlay_min a b : lesserPlay a b = min_by play_less b a.
Proof.
  unfold lesserPlay, min_by, play_less, lex_less, key_less. destruct a as [ia na], b as [ib nb].
  simpl. destruct (decide (ia = ib)) as [->|Hne]; [|by rewrite decide_True].
  rewrite (decide_False (P := ib ≠ ib)) by tauto. case_decide as Hn; [done|].
  assert (na = nb) as -> by (by destruct (decide (na = nb))). by rewrite N.ltb_irrefl.
Qed.

#[export] Instance lesserPlay_lattice : Lattice lesserPlay.
Proof. apply (lattice_min play_less), lesserPlay_min. Qed.

#[export] Instance history_replica : Replica PlayLog PlayChange := {
  fresh := NewPlayLog;
  applyOne := applyPlay;
  merge := mergeLog;
  delta := applyPlay NewPlayLog;
}.

Lemma mergeLog_eq a b :
  mergeLog a b = mkLog (join_maps lesserPlay (events a) (events b)) (N.max (counter a) (counter b)).
Proof. unfold mergeLog. by autorewrite with crdt. Qed.

#[export] Instance history_laws : ReplicaLaws PlayLog PlayChange (λ _, True) (λ _, True).
Proof.
  split; try done; unfold merge, fresh; simpl.
  - intros s t u _ _ _. rewrite !mergeLog_eq; simpl. f_equal; [apply lat_assoc|lia].
  - intros s t _ _. rewrite !mergeLog_eq. f_equal; [apply lat_comm|lia].
  - intros s _. rewrite mergeLog_eq. destruct s as [m n]. simpl. f_equal; [apply lat_idem|lia].
  - intros s _. rewrite mergeLog_eq. destruct s as [m n]. simpl.
    f_equal; [apply join_maps_empty_l|lia].
  - intros s c _ _. rewrite mergeLog_eq. unfold applyPlay. simpl.
    autorewrite with crdt. f_equal; [by rewrite join_maps_empty_l|lia].
Qed.

(** Each tag belongs to one play: the guarantee of a UUIDv7. *)
Definition unique_plays (cs : list PlayChange) : Prop :=
  ∀ c d, c ∈ cs → d ∈ cs → Tag c = Tag d → playOf c = playOf d.

Lemma events_Apply cs tag rec :
  unique_plays cs →
  events (Apply NewPlayLog cs) !! tag = Some rec ↔ ∃ c, c ∈ cs ∧ Tag c = tag ∧ rec = playOf c.
Proof.
  revert rec. induction cs as [|c cs IH] using rev_ind; intros rec Hu.
  { cbn [Apply foldl events NewPlayLog]. rewrite lookup_empty. set_solver. }
  assert (unique_plays cs) as Hu' by (intros d e Hd He; apply Hu; set_solver).
  specialize (λ r, IH r Hu'). unfold Apply in *. rewrite foldl_snoc'. simpl. unfold put_join.
  destruct (decide (Tag c = tag)) as [<-|Hne].
  - rewrite lookup_insert_eq. transitivity (Some (playOf c) = Some rec).
    + destruct (events (foldl applyPlay NewPlayLog cs) !! Tag c) as [ex|] eqn:E; [|done].
      destruct (proj1 (IH ex) eq_refl) as (d & Hd & Ht & ->).
      rewrite (Hu d c) by set_solver. by rewrite lat_idem.
    + split; [intros [= <-]; exists c; set_solver|].
      intros (d & Hd & Ht & ->). by rewrite (Hu d c) by set_solver.
  - rewrite lookup_insert_ne, exists_snoc, IH by done. naive_solver.
Qed.

Lemma countIn_filter id es : countIn id es = length (filter (λ e, itemID e.2 = id) es).
Proof.
  unfold countIn. induction es as [|e es IH] using rev_ind; [done|].
  rewrite foldl_snoc', IH, filter_app, length_app, filter_cons, filter_nil.
  case_decide; simpl; lia.
Qed.

(** Play histories converge and count each play once: the log depends only on the set of
    changes seen, merging logs is replaying their changes, and after a history whose
    plays have tags of their own the count of an item is the number of distinct plays
    of it, however often each was delivered. *)
Theorem playlog_converges (cs ds : list PlayChange) (css : list (option (list PlayChange)))
    (id : string) :
  (∀ c, c ∈ cs ↔ c ∈ ds) → unique_plays cs →
  Apply NewPlayLog cs = Apply NewPlayLog ds ∧
  MergePlayLogs (fmap (M := option) (Apply NewPlayLog) <$> css) =
    Apply NewPlayLog (concat (omap Datatypes.id css)) ∧
  Count (Apply NewPlayLog cs) id =
    length (remove_dups (Tag <$> filter (λ c, ItemID c = id) cs)).
Proof.
  intros H Hu. split_and!.
  - exact (replica_converges (S := PlayLog) NewPlayLog cs ds H).
  - exact (replica_merge_replays (S := PlayLog) (C := PlayChange) css).
  - unfold Count. rewrite countIn_filter, <-(length_fmap fst).
    apply (Permutation_length (A := string)).
    apply NoDup_Permutation; [|apply NoDup_remove_dups|].
    + apply NoDup_fmap_filter, NoDup_fst_map_to_list.
    + intros tag. rewrite elem_of_remove_dups, !list_elem_of_fmap. split.
      * intros ([t r] & -> & [Hi He]%list_elem_of_filter). simpl in *.
        apply elem_of_map_to_list, events_Apply in He as (c & Hc & <- & ->); [|done].
        exists c. split; [done|]. by apply list_elem_of_filter.
      * intros (c & -> & [Hi Hc]%list_elem_of_filter). exists (Tag c, playOf c). split; [done|].
        apply list_elem_of_filter. split; [done|]. apply elem_of_map_to_list, events_Apply; eauto.
Qed.

(** ** What the views say *)

Section views.
Implicit Types (es : Entries).

(** The entry of an item: its number of events and its latest. *)
Definition is_entry es (p : PlayEntry) : Prop :=
  EntryCount p = countIn (ID p) es ∧
  (∃ e, e ∈ es ∧ itemID e.2 = ID p ∧ at_ e.2 = LastAt p) ∧
  (∀ e, e ∈ es → itemID e.2 = ID p → (at_ e.2 ≤ LastAt p)%N).

Lemma countIn_snoc id es e :
  countIn id (es ++ [e]) = if decide (itemID e.2 = id) then S (countIn id es) else countIn id es.
Proof. apply (foldl_snoc' (λ n e, if decide (itemID e.2 = id) then S n else n)). Qed.

Lemma perItem_spec es id :
  match perItem es !! id with
  | Some p => ID p = id ∧ is_entry es p
  | None => ∀ e, e ∈ es → itemID e.2 ≠ id
  end.
Proof.
  unfold perItem. induction es as [|e es IH] using rev_ind.
  { cbn [foldl]. rewrite lookup_empty. intros e He. by apply elem_of_nil in He. }
  rewrite foldl_snoc'. set (b := foldl foldItem ∅ es) in *.
  destruct (decide (itemID e.2 = id)) as [Hi|Hne].
  - unfold foldItem. rewrite Hi. destruct (b !! id) as [p|].
    + rewrite lookup_insert_eq. destruct IH as [Hid (Hc & (e0 & He0 & Hi0 & Ha0) & Hmax)].
      split; [done|]. unfold is_entry. cbn [ID EntryCount LastAt].
      rewrite countIn_snoc, decide_True by congruence. split; [by rewrite Hc|].
      destruct (N.ltb_spec (LastAt p) (at_ e.2)) as [Hlt|Hge].
      * split; [exists e; rewrite elem_of_app; split_and!; [right; by left|congruence|done]|].
        intros e' [He'| ->%list_elem_of_singleton]%elem_of_app Hi'; [|lia].
        specialize (Hmax e' He' Hi'). lia.
      * split; [exists e0; rewrite elem_of_app; split_and!; [by left|done..]|].
        intros e' [He'| ->%list_elem_of_singleton]%elem_of_app Hi'; [auto|done].
    + rewrite lookup_insert_eq. split; [done|]. unfold is_entry. cbn [ID EntryCount LastAt].
      rewrite countIn_snoc, decide_True by done.
      assert (countIn id es = 0%nat) as ->.
      { rewrite countIn_filter. apply length_zero_iff_nil.
        destruct (filter _ es) as [|x l] eqn:E; [done|].
        assert (x ∈ x :: l) as Hx by left. rewrite <-E in Hx.
        apply list_elem_of_filter in Hx as [Hxi Hx]. by destruct (IH x Hx). }
      split_and!; [done|exists e; rewrite elem_of_app; split_and!; [right; by left|done..]|].
      intros e' [He'| ->%list_elem_of_singleton]%elem_of_app Hi'; [by destruct (IH e' He')|done].
  - assert (foldItem b e !! id = b !! id) as ->
      by (unfold foldItem; destruct (b !! itemID e.2); by rewrite lookup_insert_ne).
    destruct (b !! id) as [p|].
    + destruct IH as [Hid (Hc & (e0 & He0 & Hi0 & Ha0) & Hmax)]. split; [done|].
      unfold is_entry. rewrite countIn_snoc, decide_False by congruence. split_and!; [done|..].
      * exists e0. rewrite elem_of_app. split_and!; [by left|done..].
      * intros e' [He'| ->%list_elem_of_singleton]%elem_of_app Hi'; [auto|congruence].
    + intros e' [He'| ->%list_elem_of_singleton]%elem_of_app; auto.
Qed.

Lemma is_entry_ext es es' p : es ≡ₚ es' → is_entry es p → is_entry es' p.
Proof.
  intros Hp (Hc & (e & He & H1) & Hmax). split_and!.
  - by rewrite Hc, !countIn_filter, Hp.
  - exists e. by rewrite <-Hp.
  - intros e'. rewrite <-Hp. apply Hmax.
Qed.

Lemma is_entry_unique es p q : ID p = ID q → is_entry es p → is_entry es q → p = q.
Proof.
  destruct p as [i n a], q as [j m b]. unfold is_entry. simpl.
  intros -> (-> & (e & He & Hi & <-) & Hmax) (-> & (e' & He' & Hi' & <-) & Hmax'). f_equal.
  apply N.le_antisymm; auto.
Qed.

Lemma perItem_lookup es id p : perItem es !! id = Some p ↔ ID p = id ∧ is_entry es p.
Proof.
  pose proof (perItem_spec es id) as Hs. split; [intros E; by rewrite E in Hs|].
  intros [Hid Hp]. destruct (perItem es !! id) as [q|].
  - f_equal. destruct Hs as [Hq Hs]. apply (is_entry_unique es); [congruence|done..].
  - destruct Hp as (_ & (e & He & Hi & _) & _). destruct (Hs e He). congruence.
Qed.

(** The visit order of [range] does not reach the map. *)
Lemma perItem_perm es es' : es ≡ₚ es' → perItem es = perItem es'.
Proof.
  intros Hp. apply map_eq. intros id. apply option_eq. intros p. rewrite !perItem_lookup.
  split; intros [? H]; (split; [done|]); revert H; by apply is_entry_ext.
Qed.

Lemma elem_of_entriesOf es p : p ∈ entriesOf (perItem es) ↔ is_entry es p.
Proof.
  unfold entriesOf. rewrite list_elem_of_fmap. split.
  - intros ([id q] & -> & H). apply elem_of_map_to_list, perItem_lookup in H. tauto.
  - intros H. exists (ID p, p). split; [done|]. by apply elem_of_map_to_list, perItem_lookup.
Qed.

Lemma NoDup_entry_ids es : NoDup (ID <$> entriesOf (perItem es)).
Proof.
  unfold entriesOf. rewrite <-list_fmap_compose.
  replace ((ID ∘ snd) <$> map_to_list (perItem es)) with (fst <$> map_to_list (perItem es));
    [apply NoDup_fst_map_to_list|].
  apply list_fmap_ext. intros i [id p] Hin. simpl. symmetry.
  apply list_elem_of_lookup_2, elem_of_map_to_list, perItem_lookup in Hin. tauto.
Qed.

(** An event is greater than another: the order of [NowPlaying]. *)
Definition event_greater (a b : string * playRecord) : bool :=
  lex_less (λ e, at_ e.2) (flip_less N.ltb) (key_less fst (flip_less str_lt)) a b.

#[export] Instance event_greater_weak : StrictWeak event_greater.
Proof. exact (lex_weak (flip_less N.ltb) (λ e, at_ e.2) (key_less fst (flip_less str_lt))). Qed.

Lemma keepGreatest_eq b e :
  keepGreatest (Some b) e = Some (if event_greater e b then e else b).
Proof.
  unfold keepGreatest, event_greater, lex_less, flip_less, key_less.
  destruct (decide (at_ e.2 = at_ b.2)) as [->|Hne].
  - rewrite N.ltb_irrefl, bool_decide_true by done. simpl. by destruct (str_lt _ _).
  - rewrite (bool_decide_false _ Hne), orb_false_r. by destruct (_ <? _)%N.
Qed.

Lemma keepGreatest_spec es :
  match foldl keepGreatest None es with
  | Some b => b ∈ es ∧ ∀ e, e ∈ es → event_greater e b = false
  | None => es = []
  end.
Proof.
  induction es as [|e es IH] using rev_ind; [done|]. rewrite foldl_snoc'.
  destruct (foldl keepGreatest None es) as [b|].
  - rewrite keepGreatest_eq. destruct IH as [Hb Hmax]. destruct (event_greater e b) eqn:Hg.
    + split; [rewrite elem_of_app; right; by left|].
      intros e' [He'| ->%list_elem_of_singleton]%elem_of_app; [|apply less_irrefl].
      apply (less_ntrans (less := event_greater) _ b); [auto|]. by apply (less_asym event_greater).
    + split; [rewrite elem_of_app; by left|].
      intros e' [He'| ->%list_elem_of_singleton]%elem_of_app; auto.
  - subst es. split; [by left|]. intros e' ->%list_elem_of_singleton. apply less_irrefl.
Qed.
End views.

Definition recent_order : PlayEntry → PlayEntry → bool :=
  lex_less LastAt (flip_less N.ltb) (key_less ID str_lt).

Lemma Recent_less_eq a b : Recent_less a b = recent_order a b.
Proof.
  unfold Recent_less, recent_order, lex_less, flip_less, key_less.
  destruct (decide (LastAt a = LastAt b)) as [->|]; [|by rewrite decide_True].
  by rewrite decide_False by tauto.
Qed.

Lemma Frequent_less_eq a b :
  Frequent_less a b = lex_less EntryCount (flip_less Nat.ltb) Recent_less a b.
Proof.
  unfold Frequent_less, lex_less, flip_less, Recent_less.
  destruct (decide (EntryCount a = EntryCount b)) as [->|]; [|by rewrite decide_True].
  by rewrite (decide_False (P := EntryCount b ≠ EntryCount b)) by tauto.
Qed.

#[export] Instance Recent_less_weak : StrictWeak Recent_less.
Proof.
  destruct (lex_weak (flip_less N.ltb) LastAt (key_less ID str_lt)) as [H1 H2 H3].
  split; intros *; rewrite !Recent_less_eq; [apply H1|apply H2|apply H3].
Qed.

#[export] Instance Frequent_less_weak : StrictWeak Frequent_less.
Proof.
  destruct (lex_weak (flip_less Nat.ltb) EntryCount Recent_less) as [H1 H2 H3].
  split; intros *; rewrite !Frequent_less_eq; [apply H1|apply H2|apply H3].
Qed.

(** Entries neither order separates have one id. *)
Lemma Recent_less_id a b : Recent_less a b = false → Recent_less b a = false → ID a = ID b.
Proof.
  rewrite !Recent_less_eq. intros H1 H2. unfold recent_order in *.
  destruct (lex_incomparable _ _ _ _ _ H1 H2) as (_ & H3 & H4).
  exact (key_incomparable _ _ _ _ H3 H4).
Qed.

Lemma Frequent_less_id a b : Frequent_less a b = false → Frequent_less b a = false → ID a = ID b.
Proof.
  rewrite !Frequent_less_eq. intros H1 H2.
  destruct (lex_incomparable _ _ _ _ _ H1 H2) as (_ & H3 & H4). by apply Recent_less_id.
Qed.

(** A view that sorts the entries by an order that separates ids is a function of
    the log, and holds each played item once, with its count and latest play. *)
Lemma view_spec (less : PlayEntry → PlayEntry → bool) `{!StrictWeak less} l :
  (∀ a b, less a b = false → less b a = false → ID a = ID b) →
  let out := sort_by less (entriesOf (perItem (map_to_list (events l)))) in
  (∀ es out', es ≡ₚ map_to_list (events l) → out' ≡ₚ entriesOf (perItem es) →
     StronglySorted (not_after less) out' → out' = out) ∧
  StronglySorted (not_after less) out ∧ NoDup (ID <$> out) ∧
  (∀ p, p ∈ out ↔ is_entry (map_to_list (events l)) p).
Proof.
  intros Hid out. split_and!.
  - intros es out' Hes Hout Hs. apply (sort_by_unique less); [|by rewrite Hout, (perItem_perm _ _ Hes)|done].
    intros x y Hx Hy H1 H2. apply (fmap_NoDup_inj ID (entriesOf (perItem (map_to_list (events l)))));
      auto using NoDup_entry_ids.
  - apply (sort_by_sorted less).
  - subst out. rewrite (sort_by_perm less). apply NoDup_entry_ids.
  - intros p. subst out. by rewrite elem_of_sort_by, elem_of_entriesOf.
Qed.

(** The listening views are functions of the set of plays: whatever order the map is
    visited in and whatever sort is used, [Recent] and [Frequent] are the lists the
    model computes; both list each played item once, with its play count and the
    latest of its plays, the one by recency and the other by count; and [NowPlaying] is
    the item of the play no other outranks by (recency, tag), none exactly when the log
    is empty. *)
Theorem playlog_views (l : PlayLog) :
  let entry p := EntryCount p = Count l (ID p) ∧
    (∃ tag, events l !! tag = Some (mkPlay (ID p) (LastAt p))) ∧
    (∀ tag n, events l !! tag = Some (mkPlay (ID p) n) → (n ≤ LastAt p)%N) in
  (∀ es out, es ≡ₚ map_to_list (events l) → out ≡ₚ entriesOf (perItem es) →
     (StronglySorted (not_after Recent_less) out → out = Recent l) ∧
     (StronglySorted (not_after Frequent_less) out → out = Frequent l)) ∧
  (∀ p, p ∈ Recent l ↔ entry p) ∧ Recent l ≡ₚ Frequent l ∧ NoDup (ID <$> Recent l) ∧
  StronglySorted (λ a b, (LastAt b ≤ LastAt a)%N) (Recent l) ∧
  StronglySorted (λ a b, (EntryCount b ≤ EntryCount a)%nat) (Frequent l) ∧
  (∀ es, es ≡ₚ map_to_list (events l) →
     match NowPlayingOf es with
     | None => events l = ∅
     | Some id => ∃ tag rec, events l !! tag = Some rec ∧ itemID rec = id ∧
         ∀ tag' rec', events l !! tag' = Some rec' → event_greater (tag', rec') (tag, rec) = false
     end).
Proof.
  cbv zeta.
  destruct (view_spec Recent_less l Recent_less_id) as (R1 & R2 & R3 & R4).
  destruct (view_spec Frequent_less l Frequent_less_id) as (F1 & F2 & _ & _).
  split_and!.
  - intros es out Hes Hout. split; [by apply R1 with es|by apply F1 with es].
  - intros p. unfold Recent. rewrite R4. unfold is_entry. fold (Count l (ID p)).
    apply and_iff_compat_l. split; intros [H1 H2]; split.
    + destruct H1 as ([t [i n]] & He%elem_of_map_to_list & <- & <-). eauto.
    + intros t n Ht. by apply (H2 (t, mkPlay (ID p) n)); [apply elem_of_map_to_list|].
    + destruct H1 as [t Ht]. exists (t, mkPlay (ID p) (LastAt p)). by rewrite elem_of_map_to_list.
    + intros [t [i n]] He%elem_of_map_to_list Hi. simpl in *. subst i. by apply (H2 t).
  - unfold Recent, Frequent. by rewrite !sort_by_perm by apply _.
  - exact R3.
  - eapply StronglySorted_weaken; [|exact R2]. intros a b Hab. unfold not_after, Recent_less in Hab.
    case_decide; [by apply N.ltb_ge in Hab|]. destruct (decide (LastAt b = LastAt a)); [lia|tauto].
  - eapply StronglySorted_weaken; [|exact F2]. intros a b Hab. unfold not_after, Frequent_less in Hab.
    destruct (decide (EntryCount b = EntryCount a)); [lia|].
    rewrite decide_True in Hab by done. by apply Nat.ltb_ge in Hab.
  - intros es Hes. unfold NowPlayingOf. pose proof (keepGreatest_spec es) as Hk.
    destruct (foldl keepGreatest None es) as [[tag rec]|]; simpl.
    + destruct Hk as [Hin Hmax]. rewrite Hes, elem_of_map_to_list in Hin. exists tag, rec.
      split_and!; [done..|]. intros t r Ht. apply Hmax. by rewrite Hes, elem_of_map_to_list.
    + subst es. apply Permutation_nil in Hes. by apply map_to_list_empty_iff.
Qed.

(** Reading a snapshot back is the identity. *)
Lemma playlog_snapshot_roundtrip l : PlayLogFromSnapshot (Snapshot l) = l.
Proof.
  destruct l as [m n]. unfold PlayLogFromSnapshot, Snapshot. simpl. f_equal.
  apply (insert_each_map _ _ (λ p, mkPlaySnap p.1 (itemID p.2) (at_ p.2))).
  - done.
  - by intros [k [p a]].
  - apply (sort_by_perm _).
Qed.

Lemma playlog_converges_witness :
  Count (Apply NewPlayLog [mkPlayChange "a" "t1" 1; mkPlayChange "a" "t2" 2; mkPlayChange "a" "t1" 1]) "a"
    = 2%nat.
Proof.
  destruct (playlog_converges
    [mkPlayChange "a" "t1" 1; mkPlayChange "a" "t2" 2; mkPlayChange "a" "t1" 1]
    [mkPlayChange "a" "t2" 2; mkPlayChange "a" "t1" 1] [] "a") as (_ & _ & H).
  - set_solver.
  - intros c d Hc Hd. cases_in Hc; cases_in Hd; done.
  - rewrite H. reflexivity.
Defined.
