(* ===== verification/GoText.v ===== *)
(** * GoText: the functions of Go's [strings] and [strconv] the program uses

    A Go string is its bytes, a [string] of Rocq.  [ToLower] and [TrimSpace] are
    given on ASCII bytes; on the bytes of a multi-byte rune they are the identity
    here, where Go folds some letters and trims some spaces outside ASCII.  Every
    name the program compares against is ASCII.  Numbers print in decimal. *)

From Stdlib Require Export Ascii.
From stdpp Require Export pretty.
From S2P Require Import Prelude.

(** ** Case and space *)

Definition lower_ascii (c : ascii) : ascii :=
  let n := nat_of_ascii c in
  if (decide (65 ≤ n ∧ n ≤ 90))%nat then ascii_of_nat (n + 32) else c.

Fixpoint ToLower (s : string) : string :=
  match s with
  | EmptyString => EmptyString
  | String c s => String (lower_ascii c) (ToLower s)
  end.

Definition is_space (c : ascii) : bool :=
  let n := nat_of_ascii c in bool_decide ((9 ≤ n ∧ n ≤ 13) ∨ n = 32)%nat.

Fixpoint TrimLeft (s : string) : string :=
  match s with
  | EmptyString => EmptyString
  | String c s' => if is_space c then TrimLeft s' else s
  end.

(** Drops the trailing spaces: a suffix of spaces only is dropped whole. *)
Fixpoint TrimRight (s : string) : string :=
  match s with
  | EmptyString => EmptyString
  | String c s' =>
      match TrimRight s' with
      | EmptyString => if is_space c then EmptyString else String c EmptyString
      | t => String c t
      end
  end.

Definition TrimSpace (s : string) : string := TrimRight (TrimLeft s).

(** [strings.Join] *)
Fixpoint Join (parts : list string) (sep : string) : string :=
  match parts with
  | [] => ""
  | [p] => p
  | p :: ps => (p +:+ sep +:+ Join ps sep)%string
  end.

(** [strconv.FormatInt(n, 10)] and [strconv.FormatBool] *)
Definition FormatInt (n : Z) : string := pretty n.
Definition FormatBool (b : bool) : string := if b then "true" else "false".

(** [%02d] *)
Definition Format02 (n : Z) : string :=
  if decide (0 ≤ n < 10)%Z then ("0" +:+ pretty n)%string else pretty n.

(** ** Laws *)

Lemma lower_ascii_idem c : lower_ascii (lower_ascii c) = lower_ascii c.
Proof.
  assert (∀ n, (n < 256)%nat → lower_ascii (lower_ascii (ascii_of_nat n)) =
    lower_ascii (ascii_of_nat n)) as H.
  { intros n Hn. do 256 (destruct n as [|n]; [reflexivity|]). lia. }
  rewrite <-(ascii_nat_embedding c). apply H. apply nat_ascii_bounded.
Qed.

Lemma lower_ascii_space c : is_space (lower_ascii c) = is_space c.
Proof.
  assert (∀ n, (n < 256)%nat → is_space (lower_ascii (ascii_of_nat n)) =
    is_space (ascii_of_nat n)) as H.
  { intros n Hn. do 256 (destruct n as [|n]; [reflexivity|]). lia. }
  rewrite <-(ascii_nat_embedding c). apply H. apply nat_ascii_bounded.
Qed.

Lemma ToLower_idem s : ToLower (ToLower s) = ToLower s.
Proof. induction s as [|c s IH]; simpl; [done|]. by rewrite lower_ascii_idem, IH. Qed.

Lemma TrimRight_idem s : TrimRight (TrimRight s) = TrimRight s.
Proof.
  induction s as [|c s IH]; simpl; [done|].
  destruct (TrimRight s) as [|d t] eqn:E.
  - destruct (is_space c) eqn:Ec; simpl; by rewrite ?Ec.
  - simpl in *. by rewrite IH.
Qed.

Lemma TrimLeft_head c s : is_space c = false → TrimLeft (String c s) = String c s.
Proof. intros H. simpl. by rewrite H. Qed.

Lemma TrimLeft_spec s :
  TrimLeft s = EmptyString ∨ ∃ c t, TrimLeft s = String c t ∧ is_space c = false.
Proof.
  induction s as [|c s IH]; simpl; [by left|]. destruct (is_space c) eqn:E; [done|eauto].
Qed.

Lemma TrimRight_head c s : is_space c = false → ∃ t, TrimRight (String c s) = String c t.
Proof. intros H. simpl. destruct (TrimRight s); rewrite ?H; eauto. Qed.

Lemma TrimSpace_idem s : TrimSpace (TrimSpace s) = TrimSpace s.
Proof.
  unfold TrimSpace. destruct (TrimLeft_spec s) as [->|(c & t & -> & Hc)]; [done|].
  destruct (TrimRight_head c t Hc) as [u Hu]. rewrite Hu, TrimLeft_head by done.
  by rewrite <-Hu, TrimRight_idem.
Qed.

Lemma ToLower_TrimLeft s : ToLower (TrimLeft s) = TrimLeft (ToLower s).
Proof.
  induction s as [|c s IH]; simpl; [done|].
  rewrite lower_ascii_space. by destruct (is_space c).
Qed.

Lemma ToLower_TrimRight s : ToLower (TrimRight s) = TrimRight (ToLower s).
Proof.
  induction s as [|c s IH]; simpl; [done|]. rewrite <-IH.
  destruct (TrimRight s) as [|d t]; simpl; [|done].
  rewrite lower_ascii_space. by destruct (is_space c).
Qed.

Lemma lower_trim_idem s :
  ToLower (TrimSpace (ToLower (TrimSpace s))) = ToLower (TrimSpace s).
Proof.
  unfold TrimSpace at 1. rewrite <-ToLower_TrimLeft, <-ToLower_TrimRight, ToLower_idem.
  fold (TrimSpace (TrimSpace s)). by rewrite TrimSpace_idem.
Qed.
