(* ===== verification/GoPath.v ===== *)
(** * GoPath: the slash-separated paths of Go's [path] and [strings]

    [path.Clean] of a rooted path, [path.Split], [strings.ReplaceAll] of one byte
    and [strings.LastIndexByte], on the bytes of a string. *)

From S2P Require Import Prelude GoText.

Definition slash : ascii := "/"%char.
Definition backslash : ascii := "\"%char.

(** [strings.ReplaceAll(s, "\\", "/")] *)
Fixpoint slashed (s : string) : string :=
  match s with
  | EmptyString => EmptyString
  | String c s => String (if decide (c = backslash) then slash else c) (slashed s)
  end.

(** [strings.Split(s, "/")]: never empty. *)
Fixpoint split (s : string) : list string :=
  match s with
  | EmptyString => [EmptyString]
  | String c s =>
      if decide (c = slash) then EmptyString :: split s
      else match split s with
           | [] => [String c EmptyString]
           | x :: xs => String c x :: xs
           end
  end.

(** One element against the reversed elements kept so far. *)
Definition pushElem (kept : list string) (e : string) : list string :=
  if decide (e = "" ∨ e = ".") then kept
  else if decide (e = "..") then tail kept
  else e :: kept.

(** The elements of [path.Clean("/" + s)]. *)
Definition cleanElems (s : string) : list string := rev (foldl pushElem [] (split s)).

(** [strings.TrimPrefix(path.Clean("/" + s), "/")] *)
Definition cleanRooted (s : string) : string := Join (cleanElems s) "/".

(** [path.Split]: everything up to and including the last slash, and the rest. *)
Fixpoint splitLast (s : string) : string * string :=
  match s with
  | EmptyString => ("", "")
  | String c s' =>
      let (dir, file) := splitLast s' in
      if decide (dir = "") then
        if decide (c = slash) then (String c "", file) else ("", String c file)
      else (String c dir, file)
  end.

(** [file[:idx], file[idx:]] at the last dot, if any. *)
Fixpoint cutLastDot (s : string) : option (string * string) :=
  match s with
  | EmptyString => None
  | String c s' =>
      match cutLastDot s' with
      | Some (a, b) => Some (String c a, b)
      | None => if decide (c = "."%char) then Some ("", s) else None
      end
  end.

(** ** Laws *)

Fixpoint has_byte (c : ascii) (s : string) : bool :=
  match s with
  | EmptyString => false
  | String d s => bool_decide (d = c) || has_byte c s
  end.

Lemma has_byte_app c s t : has_byte c (s +:+ t) = has_byte c s || has_byte c t.
Proof. induction s as [|d s IH]; [done|]. simpl. by rewrite IH, orb_assoc. Qed.

(** A separator that is in neither last part splits a text one way. *)
Lemma sep_inj c a b a' b' :
  has_byte c b = false → has_byte c b' = false → a +:+ String c b = a' +:+ String c b' → a = a' ∧ b = b'.
Proof.
  assert (∀ a b', b = a +:+ String c b' → has_byte c b = true) as Hin.
  { intros x y ->. rewrite has_byte_app. cbn. by rewrite bool_decide_true, orb_true_r by done. }
  assert (∀ a b, b' = a +:+ String c b → has_byte c b' = true) as Hin'.
  { intros x y ->. rewrite has_byte_app. cbn. by rewrite bool_decide_true, orb_true_r by done. }
  intros Hb Hb'. revert a'. induction a as [|d a IH]; intros [|d' a'] H; cbn in H.
  - by injection H as ->.
  - injection H as <- H. by rewrite (Hin _ _ H) in Hb.
  - injection H as -> H. by rewrite (Hin' _ _ (eq_sym H)) in Hb'.
  - injection H as -> H. by destruct (IH a' H) as [-> ->].
Qed.

Lemma has_byte_slashed s : has_byte backslash (slashed s) = false.
Proof.
  induction s as [|c s IH]; [done|]. simpl. rewrite IH, orb_false_r.
  apply bool_decide_eq_false. by case_decide.
Qed.

Lemma slashed_id s : has_byte backslash s = false → slashed s = s.
Proof.
  induction s as [|c s IH]; [done|]. simpl. intros [Hc%bool_decide_eq_false Hs]%orb_false_iff.
  rewrite decide_False by done. by rewrite IH.
Qed.

Lemma split_nonempty s : split s ≠ [].
Proof. destruct s as [|c s]; simpl; [done|]. case_decide; [done|]. by destruct (split s). Qed.

Lemma split_slash s e : e ∈ split s → has_byte slash e = false.
Proof.
  revert e. induction s as [|c s IH]; intros e; simpl; [by intros ->%list_elem_of_singleton|].
  case_decide as Hc; [intros [->|He]%elem_of_cons; [done|auto]|].
  destruct (split s) as [|x xs] eqn:E; [by destruct (split_nonempty s)|].
  intros [->|He]%elem_of_cons; [|apply IH; by right].
  simpl. rewrite bool_decide_false by done. apply IH. left.
Qed.

Lemma split_bytes b s e : b ≠ slash → has_byte b s = false → e ∈ split s → has_byte b e = false.
Proof.
  intros Hb. revert e. induction s as [|c s IH]; intros e; simpl; [by intros _ ->%list_elem_of_singleton|].
  intros [Hc Hs]%orb_false_iff.
  destruct (decide (c = slash)); [intros [->|He]%elem_of_cons; [done|auto]|].
  destruct (split s) as [|x xs]; [by intros ->%list_elem_of_singleton; simpl; rewrite Hc|].
  intros [->|He]%elem_of_cons; [|apply IH; [done|by right]].
  simpl. rewrite Hc. apply IH; [done|left].
Qed.

Lemma split_app_slash e s :
  has_byte slash e = false → split (e +:+ "/" +:+ s) = e :: split s.
Proof.
  induction e as [|c e IH]; simpl; [done|]. intros [Hc%bool_decide_eq_false He]%orb_false_iff.
  rewrite decide_False by done. by rewrite IH.
Qed.

Lemma split_one e : has_byte slash e = false → split e = [e].
Proof.
  induction e as [|c e IH]; simpl; [done|]. intros [Hc%bool_decide_eq_false He]%orb_false_iff.
  rewrite decide_False by done. by rewrite IH.
Qed.

Lemma split_Join es :
  es ≠ [] → Forall (λ e, has_byte slash e = false) es → split (Join es "/") = es.
Proof.
  intros Hne. induction 1 as [|e es He Hes IH]; [done|].
  destruct es as [|e' es]; [by apply split_one|].
  change (Join (e :: e' :: es) "/") with (e +:+ "/" +:+ Join (e' :: es) "/").
  rewrite split_app_slash by done. by rewrite IH.
Qed.

(** The elements [Clean] keeps. *)
Definition plain_elem (e : string) : Prop := e ≠ "" ∧ e ≠ "." ∧ e ≠ "..".

Lemma pushElem_all (P : string → Prop) kept es :
  Forall P kept → Forall P es → Forall (λ e, P e ∧ plain_elem e) kept →
  Forall (λ e, P e ∧ plain_elem e) (foldl pushElem kept es).
Proof.
  intros _ Hes Hk. revert kept Hk. induction Hes as [|e es He Hes IH]; intros kept Hk; [done|].
  simpl. apply IH. unfold pushElem. case_decide as H1; [done|]. case_decide as H2.
  - destruct Hk; [by constructor|done].
  - constructor; [|done]. split; [done|]. unfold plain_elem. tauto.
Qed.

Lemma cleanElems_spec (P : string → Prop) s :
  Forall P (split s) → Forall (λ e, P e ∧ plain_elem e) (cleanElems s).
Proof. intros H. unfold cleanElems. apply Forall_rev. by apply pushElem_all. Qed.

Lemma pushElem_plain kept es :
  Forall plain_elem es → foldl pushElem kept es = rev es ++ kept.
Proof.
  intros H. revert kept. induction H as [|e es (H1 & H2 & H3) Hes IH]; intros kept; [done|].
  simpl. rewrite IH. unfold pushElem. rewrite !decide_False by tauto.
  by rewrite <-app_assoc.
Qed.

(** Cleaning a clean path changes nothing. *)
Lemma cleanRooted_idem s : cleanRooted (cleanRooted s) = cleanRooted s.
Proof.
  unfold cleanRooted at 1 3. f_equal.
  assert (Forall (λ e, has_byte slash e = false ∧ plain_elem e) (cleanElems s)) as Hs
    by (apply cleanElems_spec, Forall_forall, split_slash).
  unfold cleanElems at 1. unfold cleanRooted. set (es := cleanElems s) in *.
  destruct es as [|e es'] eqn:E; [done|]. rewrite <-E in *.
  rewrite split_Join.
  - rewrite pushElem_plain, app_nil_r, rev_involutive; [done|].
    eapply Forall_impl; [exact Hs|]. by intros ? [_ ?].
  - by rewrite E.
  - eapply Forall_impl; [exact Hs|]. by intros ? [? _].
Qed.

Lemma has_byte_Join b es :
  b ≠ slash → Forall (λ e, has_byte b e = false) es → has_byte b (Join es "/") = false.
Proof.
  intros Hb. induction 1 as [|e es He Hes IH]; [done|].
  destruct es as [|e' es]; [done|].
  change (Join (e :: e' :: es) "/") with (e +:+ "/" +:+ Join (e' :: es) "/").
  rewrite !has_byte_app, He, IH. simpl. by rewrite bool_decide_false.
Qed.

Lemma cleanRooted_bytes b s :
  b ≠ slash → has_byte b s = false → has_byte b (cleanRooted s) = false.
Proof.
  intros Hb Hs. apply has_byte_Join; [done|].
  eapply Forall_impl; [apply (cleanElems_spec (λ e, has_byte b e = false))|by intros ? [? _]].
  apply Forall_forall. intros e. by apply split_bytes.
Qed.

Lemma clean_slashed_idem s :
  cleanRooted (slashed (cleanRooted (slashed s))) = cleanRooted (slashed s).
Proof.
  rewrite (slashed_id (cleanRooted _)); [apply cleanRooted_idem|].
  by apply cleanRooted_bytes; [|apply has_byte_slashed].
Qed.

Lemma splitLast_app s : (splitLast s).1 +:+ (splitLast s).2 = s.
Proof.
  induction s as [|c s IH]; [done|]. simpl. destruct (splitLast s) as [dir file].
  cbn [fst snd] in IH. subst s. case_decide as Hd; [subst dir; by case_decide|done].
Qed.

Lemma cutLastDot_app s a b : cutLastDot s = Some (a, b) → s = a +:+ b.
Proof.
  revert a b. induction s as [|c s IH]; intros a b; [done|]. simpl.
  destruct (cutLastDot s) as [[a' b']|].
  - intros [= <- <-]. by rewrite (IH a' b' eq_refl).
  - case_decide; [|done]. by intros [= <- <-].
Qed.
