(* ===== verification/Drive.v ===== *)
(** * Drive: the path-keyed map of a vault drive

    Models internal/personalstate/crdt/drive.go, drive_meta.go
    and the kind tag of kind.go: each path accumulates every write to it, keyed by
    the write's own total-order key, and a tombstone; heads and history are read
    off that set.  Two functions the code calls live outside the repository and
    are the fields of [DriveEnv]: Unicode NFC (golang.org/x/text) and whether a
    blob id parses (void-which-binds-go/hashing). *)

From S2P Require Import Prelude Replica PosKey GoText GoPath.

Class DriveEnv := {
  NFC : string → string;
  ParseBlob : string → bool;
}.

(** ** Data *)

Definition KindDrive : string := "drive".
Definition OpPut : Z := 0.
Definition OpDelete : Z := 1.

Record DriveMeta := mkMeta {
  Mime : string; PlaintextHash : string; TakenAt : Z; Width : N; Height : N;
  DurationMS : Z; Thumbnail : string; Sidecar : string }.

#[export] Instance DriveMeta_eq_dec : EqDecision DriveMeta.
Proof. solve_decision. Defined.

Definition zeroMeta : DriveMeta := mkMeta "" "" 0 0 0 0 "" "".
Definition IsZero (m : DriveMeta) : bool := bool_decide (m = zeroMeta).

Definition blobRefs (m : DriveMeta) : list string :=
  filter (λ b, b ≠ "") [Thumbnail m; Sidecar m].

Record driveValue := mkValue {
  Blob : string; Size : Z; MTime : Z; Meta : DriveMeta; key : posKey; base : posKey }.

#[export] Instance driveValue_eq_dec : EqDecision driveValue.
Proof. solve_decision. Defined.

Definition refs (v : driveValue) : list string :=
  if decide (Blob v = "") then [] else Blob v :: blobRefs (Meta v).

Record DriveChange := mkChange {
  Kind : string; Op : Z; Path : string; CBlob : string; CSize : Z; CMTime : Z;
  CMeta : DriveMeta; At : N; Writer : string; Base : posKey }.

Record driveRecord := mkRecord { values : gmap posKey driveValue; delKey : posKey }.

Definition emptyRecord : driveRecord := mkRecord ∅ zeroKey.

Record Drive := mkDrive { entries : gmap string driveRecord; counter : N }.

Record DriveEntry := mkEntry {
  EntryPath : string; EntryBlob : string; EntrySize : Z; EntryMTime : Z;
  EntryMeta : DriveMeta; Conflicted : bool }.

Definition NewDrive : Drive := mkDrive ∅ 0.

(** The record of a path; a Go map read of an absent path is the zero record. *)
Definition recordAt (d : Drive) (np : string) : driveRecord := default emptyRecord (entries d !! np).

(** ** Operations *)

Section operations.
Context `{DriveEnv}.

Definition validateMeta (m : DriveMeta) : bool :=
  forallb (λ id, bool_decide (id = "") || ParseBlob id) [PlaintextHash m; Thumbnail m; Sidecar m]
  && negb ((TakenAt m <? 0)%Z || (DurationMS m <? 0)%Z).

Definition normalisePath (p : string) : string := cleanRooted (slashed (NFC p)).

Definition Validate (c : DriveChange) : bool :=
  if decide (Writer c = "") then false
  else if decide (normalisePath (Path c) = "") then false
  else if decide (Op c = OpPut) then
    if decide (CBlob c = "") then false
    else if negb (ParseBlob (CBlob c)) then false
    else validateMeta (CMeta c)
  else if decide (Op c = OpDelete) then
    bool_decide (CBlob c = "") && IsZero (CMeta c)
  else false.

Definition Foreign (c : DriveChange) : bool :=
  if decide (Kind c ≠ "") then bool_decide (Kind c ≠ KindDrive) else bool_decide (Path c = "").

Definition nextAt (d : Drive) : N := sat_succ (counter d).

Definition keyOf (c : DriveChange) : posKey := mkKey (At c) (Writer c).

Definition valueOf (c : DriveChange) : driveValue :=
  mkValue (CBlob c) (CSize c) (CMTime c) (CMeta c) (keyOf c) (Base c).

Definition applyRecord (rec : driveRecord) (c : DriveChange) : driveRecord :=
  if decide (Op c = OpDelete) then
    mkRecord (values rec) (if greater (keyOf c) (delKey rec) then keyOf c else delKey rec)
  else if decide (Op c = OpPut) then
    mkRecord (<[keyOf c := valueOf c]> (values rec)) (delKey rec)
  else rec.

Definition applyDrive (d : Drive) (c : DriveChange) : Drive :=
  let np := normalisePath (Path c) in
  mkDrive (<[np := applyRecord (recordAt d np) c]> (entries d)) (raise_to (counter d) (At c)).

(** One turn of the loop of [ApplyReport]. *)
Definition acceptOne (acc : Drive * list DriveChange) (c : DriveChange) : Drive * list DriveChange :=
  let (d, rejected) := acc in
  if Foreign c then (d, rejected)
  else if Validate c then (applyDrive d c, rejected)
  else (d, rejected ++ [c]).

Definition ApplyReport (d : Drive) (changes : list DriveChange) : Drive * list DriveChange :=
  foldl acceptOne (d, []) changes.

Definition Apply (d : Drive) (changes : list DriveChange) : Drive := (ApplyReport d changes).1.

(** [rec] written over [cur], key by key, and the greater tombstone. *)
Definition mergeRecord (cur rec : driveRecord) : driveRecord :=
  mkRecord (values rec ∪ values cur)
    (if greater (delKey rec) (delKey cur) then delKey rec else delKey cur).

Definition mergeDrive (out d : Drive) : Drive :=
  mkDrive
    (map_fold (λ p rec m, <[p := mergeRecord (default emptyRecord (m !! p)) rec]> m)
       (entries out) (entries d))
    (raise_to (counter out) (counter d)).

(** A nil argument is skipped. *)
Definition MergeDrives (drives : list (option Drive)) : Drive :=
  foldl (λ out d, match d with Some d => mergeDrive out d | None => out end) NewDrive drives.

(** The keys some write of the set was built on. *)
Definition built (rec : driveRecord) : gset posKey :=
  list_to_set (filter (λ k, k ≠ zeroKey) (base ∘ snd <$> map_to_list (values rec))).

(** A tombstone hides the writes it is greater than. *)
Definition covered (rec : driveRecord) (k : posKey) : bool :=
  bool_decide (delKey rec ≠ zeroKey) && greater (delKey rec) k.

Definition isLive (rec : driveRecord) (k : posKey) : bool :=
  negb (bool_decide (k ∈ built rec)) && negb (covered rec k).

(** Sorted ascending by key. *)
Definition key_before (a b : driveValue) : bool := greater (key b) (key a).

Definition liveHeads (rec : driveRecord) : list driveValue :=
  sort_by key_before (snd <$> filter (λ e, isLive rec e.1 = true) (map_to_list (values rec))).

(** The chosen head, and whether it is one of several. *)
Definition currentHead (rec : driveRecord) : option (driveValue * bool) :=
  match last (liveHeads rec) with
  | Some best => Some (best, (1 <? length (liveHeads rec))%nat)
  | None => None
  end.

Definition PutMeta (newTag : string) (d : Drive) (p blob : string) (size mtime : Z)
    (meta : DriveMeta) : option (Drive * DriveChange) :=
  let np := normalisePath p in
  let base := match currentHead (recordAt d np) with Some (h, _) => key h | None => zeroKey end in
  let c := mkChange KindDrive OpPut np blob size mtime meta 0 newTag base in
  if negb (Validate c) then None
  else
    let n := nextAt d in
    let c := mkChange KindDrive OpPut np blob size mtime meta n newTag base in
    Some (applyDrive (mkDrive (entries d) n) c, c).

Definition Put (newTag : string) (d : Drive) (p blob : string) (size mtime : Z) :
    option (Drive * DriveChange) := PutMeta newTag d p blob size mtime zeroMeta.

Definition Delete (newTag : string) (d : Drive) (p : string) : option (Drive * DriveChange) :=
  let np := normalisePath p in
  let c := mkChange KindDrive OpDelete np "" 0 0 zeroMeta 0 newTag zeroKey in
  if negb (Validate c) then None
  else
    let n := nextAt d in
    let c := mkChange KindDrive OpDelete np "" 0 0 zeroMeta n newTag zeroKey in
    Some (applyDrive (mkDrive (entries d) n) c, c).

Definition entryOf (p : string) (v : driveValue) (conflicted : bool) : DriveEntry :=
  mkEntry p (Blob v) (Size v) (MTime v) (Meta v) conflicted.

Definition readEntry (p : string) (rec : driveRecord) : option DriveEntry :=
  match currentHead rec with
  | Some (h, conflicted) => if decide (Blob h = "") then None else Some (entryOf p h conflicted)
  | None => None
  end.

Definition Get (d : Drive) (p : string) : option DriveEntry :=
  match entries d !! normalisePath p with
  | None => None
  | Some rec => readEntry (normalisePath p) rec
  end.

Definition List_ (d : Drive) : list DriveEntry :=
  sort_by (key_less EntryPath str_lt)
    (omap (λ e, readEntry e.1 e.2) (map_to_list (entries d))).

(** One write per blob: the newest, and none of a live head's. *)
Definition keepFirstBlob (acc : list driveValue * gset string) (v : driveValue) :
    list driveValue * gset string :=
  let (out, seen) := acc in
  if decide (Blob v ∈ seen) then (out, seen) else (out ++ [v], {[Blob v]} ∪ seen).

Definition priorVersions (rec : driveRecord) : list driveValue :=
  let live := liveHeads rec in
  let liveKeys : gset posKey := list_to_set (key <$> live) in
  let liveBlobs : gset string := list_to_set (Blob <$> live) in
  let prior := snd <$> filter (λ e, (e.1 ∉ liveKeys) ∧ Blob e.2 ≠ "" ∧ (Blob e.2 ∉ liveBlobs))
                 (map_to_list (values rec)) in
  (foldl keepFirstBlob ([], ∅) (sort_by (flip_less key_before) prior)).1.

Definition Versions (d : Drive) (p : string) : list string :=
  match entries d !! normalisePath p with
  | None => []
  | Some rec => Blob <$> priorVersions rec
  end.
End operations.

(** ** The drive is a replica

    The join of two records is associative and idempotent, and commutative where
    the two agree on what a key wrote. *)

Definition maxKey (a b : posKey) : posKey := if greater a b then a else b.

#[export] Instance maxKey_lattice : Lattice maxKey.
Proof. apply (lattice_min greater). intros a b. unfold min_by, maxKey. done. Qed.

Lemma maxKey_zero k : maxKey k zeroKey = k.
Proof.
  unfold maxKey. destruct (greater k zeroKey) eqn:E; [done|].
  apply (less_antisym (less := greater)); [|done].
  unfold greater, zeroKey. simpl. case_decide; [apply N.ltb_ge; lia|].
  unfold str_lt. by destruct (KeyWriter k).
Qed.

Lemma mergeRecord_eq a b :
  mergeRecord a b = mkRecord (values b ∪ values a) (maxKey (delKey b) (delKey a)).
Proof. done. Qed.

Lemma mergeRecord_empty r : mergeRecord emptyRecord r = r.
Proof.
  rewrite mergeRecord_eq. simpl. rewrite maxKey_zero. destruct r as [vs k]. simpl.
  by rewrite (right_id_L ∅ (∪)).
Qed.

Lemma mergeRecord_idem r : mergeRecord r r = r.
Proof.
  rewrite mergeRecord_eq, (lat_idem (join := maxKey)). destruct r as [vs k]. simpl.
  by rewrite (idemp_L (∪)).
Qed.

Lemma mergeRecord_assoc a b c :
  mergeRecord a (mergeRecord b c) = mergeRecord (mergeRecord a b) c.
Proof.
  rewrite !mergeRecord_eq. simpl. by rewrite (assoc_L (∪)), (lat_assoc (join := maxKey)).
Qed.

(** What each key of each path wrote. *)
Abbreviation Writes := (string → posKey → driveValue) (only parsing).

Definition record_of (w : Writes) (p : string) (rec : driveRecord) : Prop :=
  ∀ k v, values rec !! k = Some v → v = w p k.

Definition drive_of (w : Writes) (d : Drive) : Prop :=
  ∀ p rec, entries d !! p = Some rec → record_of w p rec.

Lemma drive_of_New w : drive_of w NewDrive.
Proof.
  intros p rec Hp. change (entries NewDrive) with (∅ : gmap string driveRecord) in Hp.
  by rewrite lookup_empty in Hp.
Qed.

Lemma mergeRecord_comm w p a b :
  record_of w p a → record_of w p b → mergeRecord a b = mergeRecord b a.
Proof.
  intros Ha Hb. rewrite !mergeRecord_eq. f_equal; [|apply (lat_comm (join := maxKey))].
  apply map_eq. intros k. rewrite !lookup_union.
  destruct (values a !! k) as [v|] eqn:E1, (values b !! k) as [v'|] eqn:E2; simpl; try done.
  by rewrite (Ha _ _ E1), (Hb _ _ E2).
Qed.

Lemma record_of_merge w p a b :
  record_of w p a → record_of w p b → record_of w p (mergeRecord a b).
Proof.
  intros Ha Hb k v. rewrite mergeRecord_eq. simpl.
  intros [H|[_ H]]%lookup_union_Some_raw; [by apply Hb|by apply Ha].
Qed.

Lemma mergeDrive_eq a b :
  mergeDrive a b = mkDrive (join_maps mergeRecord (entries a) (entries b))
    (N.max (counter a) (counter b)).
Proof.
  unfold mergeDrive. rewrite raise_to_max. f_equal.
  rewrite <-merge_into_eq. apply map_fold_pointwise. intros p rec m. unfold put_join.
  destruct (m !! p); simpl; [done|by rewrite mergeRecord_empty].
Qed.

Section convergence.
Context `{DriveEnv}.

(** A change that enters the set: neither foreign nor malformed. *)
Definition accepted (c : DriveChange) : bool := negb (Foreign c) && Validate c.

Definition applyAccepted (d : Drive) (c : DriveChange) : Drive :=
  if accepted c then applyDrive d c else d.

Lemma acceptOne_eq d rej c :
  acceptOne (d, rej) c =
    (applyAccepted d c, if negb (Foreign c) && negb (Validate c) then rej ++ [c] else rej).
Proof. unfold acceptOne, applyAccepted, accepted. by destruct (Foreign c), (Validate c). Qed.

Lemma ApplyReport_eq d rej cs :
  foldl acceptOne (d, rej) cs =
    (foldl applyAccepted d cs,
     rej ++ filter (λ c, negb (Foreign c) && negb (Validate c) = true) cs).
Proof.
  revert d rej. induction cs as [|c cs IH]; intros d rej; [by rewrite app_nil_r|].
  cbn [foldl]. rewrite acceptOne_eq, IH, filter_cons. f_equal.
  destruct (negb (Foreign c) && negb (Validate c)); simpl; [by rewrite <-app_assoc|done].
Qed.

Lemma Apply_foldl d cs : Apply d cs = foldl applyAccepted d cs.
Proof. unfold Apply, ApplyReport. by rewrite ApplyReport_eq. Qed.

#[export] Instance drive_replica : Replica Drive DriveChange := {
  fresh := NewDrive;
  applyOne := applyAccepted;
  merge := mergeDrive;
  delta := applyAccepted NewDrive;
}.

Lemma applyRecord_merge rec c :
  applyRecord rec c = mergeRecord rec (applyRecord emptyRecord c).
Proof.
  rewrite mergeRecord_eq. unfold applyRecord, emptyRecord. destruct rec as [vs k].
  case_decide; [|case_decide]; simpl.
  - rewrite (left_id_L ∅ (∪)). f_equal. fold (maxKey (keyOf c) zeroKey). by rewrite maxKey_zero.
  - f_equal; [by rewrite insert_union_singleton_l|].
    unfold maxKey. destruct (greater zeroKey k) eqn:E; [|done].
    pose proof (maxKey_zero k) as Hk. unfold maxKey in Hk.
    by rewrite (less_asym _ _ _ E) in Hk.
  - rewrite (left_id_L ∅ (∪)). f_equal.
    pose proof (maxKey_zero k) as Hk. rewrite (lat_comm (join := maxKey)) in Hk. done.
Qed.

Lemma applyAccepted_merge d c : applyAccepted d c = mergeDrive d (applyAccepted NewDrive c).
Proof.
  rewrite mergeDrive_eq. unfold applyAccepted. destruct (accepted c).
  - unfold applyDrive, recordAt. destruct d as [es n]. simpl. rewrite !raise_to_max. f_equal; [|lia].
    rewrite lookup_empty. simpl. apply map_eq. intros p. rewrite lookup_join_maps, insert_empty.
    destruct (decide (p = normalisePath (Path c))) as [->|Hne].
    + rewrite lookup_insert_eq, lookup_singleton_eq, applyRecord_merge.
      destruct (es !! _); simpl; [done|]. by rewrite mergeRecord_empty.
    + rewrite lookup_insert_ne, lookup_singleton_ne by done. by destruct (es !! p).
  - destruct d as [es n]. simpl. rewrite join_maps_empty_r. f_equal. lia.
Qed.

(** A change writes what the table says its key wrote. *)
Definition writes (w : string → posKey → driveValue) (c : DriveChange) : Prop :=
  accepted c = true → Op c = OpPut → valueOf c = w (normalisePath (Path c)) (keyOf c).

Lemma drive_of_delta w c : writes w c → drive_of w (applyAccepted NewDrive c).
Proof.
  intros Hw p rec. unfold applyAccepted. destruct (accepted c) eqn:Ha; [|done].
  unfold applyDrive, recordAt. simpl. rewrite lookup_empty, insert_empty. simpl.
  intros [<- <-]%lookup_singleton_Some k v. unfold applyRecord.
  case_decide; [done|]. case_decide as Hop; [|done]. simpl. rewrite insert_empty.
  intros [<- <-]%lookup_singleton_Some. by apply Hw.
Qed.

#[export] Instance drive_laws (w : string → posKey → driveValue) :
  ReplicaLaws Drive DriveChange (drive_of w) (writes w).
Proof.
  split; unfold merge, fresh, delta; simpl.
  - apply drive_of_New.
  - apply drive_of_delta.
  - intros s t Hs Ht p rec. rewrite mergeDrive_eq. simpl. rewrite lookup_join_maps.
    specialize (Hs p). specialize (Ht p).
    destruct (entries s !! p), (entries t !! p); intros [= <-]; auto using record_of_merge.
  - intros s t u _ _ _. rewrite !mergeDrive_eq. simpl. f_equal; [|lia].
    apply join_maps_assoc. intros *. apply mergeRecord_assoc.
  - intros s t Hs Ht. rewrite !mergeDrive_eq. f_equal; [|lia]. apply map_eq. intros p.
    rewrite !lookup_join_maps. specialize (Hs p). specialize (Ht p).
    destruct (entries s !! p), (entries t !! p); try done. f_equal.
    apply (mergeRecord_comm w p); auto.
  - intros s _. rewrite mergeDrive_eq. destruct s as [es n]. simpl. f_equal; [|lia].
    apply join_maps_idem. intros *. apply mergeRecord_idem.
  - intros s _. rewrite mergeDrive_eq. destruct s as [es n]. simpl. f_equal; [|lia].
    apply join_maps_empty_l.
  - intros s c _ _. apply applyAccepted_merge.
Qed.
End convergence.

Section converges.
Context `{DriveEnv}.

(** No two different puts of the history carry one (At, Writer) at one path: the
    guarantee of a writer tag minted per write. *)
Definition well_keyed (cs : list DriveChange) : Prop :=
  ∀ c d, c ∈ cs → d ∈ cs → accepted c = true → accepted d = true →
    Op c = OpPut → Op d = OpPut → normalisePath (Path c) = normalisePath (Path d) →
    keyOf c = keyOf d → valueOf c = valueOf d.

(** The table of a history: what the first put under a key wrote. *)
Definition table_of (cs : list DriveChange) (p : string) (k : posKey) : driveValue :=
  default (mkValue "" 0 0 zeroMeta zeroKey zeroKey)
    (valueOf <$> head (filter (λ c, accepted c = true ∧ Op c = OpPut ∧
       normalisePath (Path c) = p ∧ keyOf c = k) cs)).

Lemma well_keyed_writes cs : well_keyed cs → Forall (writes (table_of cs)) cs.
Proof.
  intros Hw. apply Forall_forall. intros c Hc Ha Hop. unfold table_of.
  destruct (filter _ cs) as [|d l] eqn:E.
  - assert (c ∈ (nil : list DriveChange)) as Hin by (rewrite <-E; by apply list_elem_of_filter).
    by apply elem_of_nil in Hin.
  - assert (d ∈ d :: l) as Hin by left. rewrite <-E in Hin.
    apply list_elem_of_filter in Hin as [(Hda & Hdo & Hp & Hk) Hd]. simpl. by apply Hw.
Qed.

Lemma well_keyed_subset cs ds : (∀ c, c ∈ ds → c ∈ cs) → well_keyed cs → well_keyed ds.
Proof. intros Hsub Hw c d Hc Hd. apply Hw; auto. Qed.

(** Drives converge: from the same set of changes, in any orders, with any duplicates
    and with any foreign or malformed changes among them, two devices hold the same
    drive, and merging drives is replaying their changes, provided no two different
    puts share a path and an (At, Writer) key. *)
Theorem drive_converges (cs ds : list DriveChange) (css : list (list DriveChange)) :
  well_keyed cs → (∀ c, c ∈ cs ↔ c ∈ ds) → (∀ c, c ∈ concat css → c ∈ cs) →
  Apply NewDrive cs = Apply NewDrive ds ∧
  MergeDrives (Some ∘ Apply NewDrive <$> css) = Apply NewDrive (concat css).
Proof.
  intros Hw Hset Hsub. rewrite !Apply_foldl. pose proof (well_keyed_writes cs Hw) as Hcs.
  split.
  - refine (applyAll_set (drive_of (table_of cs)) (writes (table_of cs)) (NewDrive : Drive)
      cs ds _ Hcs _ Hset).
    + apply drive_of_New.
    + rewrite Forall_forall in Hcs |- *. intros c Hc. by apply Hcs, Hset.
  - transitivity (mergeOpt (C := DriveChange) (Some ∘ Apply NewDrive <$> css)); [done|]. rewrite mergeOpt_all.
    transitivity (mergeAll (applyAll (C := DriveChange) NewDrive <$> css)).
    + f_equal. induction css as [|l css IH]; [done|]. cbn. rewrite Apply_foldl. f_equal.
      apply IH. intros c Hc. apply Hsub. simpl. set_solver.
    + refine (mergeAll_replay (drive_of (table_of cs)) (writes (table_of cs)) css _).
      rewrite Forall_forall in Hcs. apply Forall_forall. intros l Hl. apply Forall_forall.
      intros c Hc. apply Hcs, Hsub. apply list_elem_of_In, in_concat. exists l.
      by rewrite <-!list_elem_of_In.
Qed.

(** Without that guarantee they do not: two accepted puts of one path under one (At,
    Writer) key that differ leave two devices that saw both, in opposite orders, with
    different drives (each keeps what arrived last), and merging the two devices'
    drives depends on the order of the merge. *)
Theorem drive_collision_diverges (c d : DriveChange) :
  accepted c = true → accepted d = true → Op c = OpPut → Op d = OpPut →
  normalisePath (Path c) = normalisePath (Path d) → keyOf c = keyOf d → valueOf c ≠ valueOf d →
  Apply NewDrive [c; d] ≠ Apply NewDrive [d; c] ∧
  (∀ s t, s = Apply NewDrive [c; d] → t = Apply NewDrive [d; c] →
     MergeDrives [Some s; Some t] ≠ MergeDrives [Some t; Some s]).
Proof.
  intros Hac Had Hoc Hod Hp Hk Hne.
  assert (∀ x y, accepted x = true → accepted y = true → Op x = OpPut → Op y = OpPut →
    normalisePath (Path x) = normalisePath (Path y) → keyOf x = keyOf y →
    values (recordAt (Apply NewDrive [x; y]) (normalisePath (Path y))) = {[keyOf y := valueOf y]})
    as Hlast.
  { intros x y Hx Hy Hox Hoy Hxy Hkxy. rewrite Apply_foldl. cbn [foldl].
    unfold applyAccepted. rewrite Hx, Hy. unfold applyDrive, recordAt. cbn [entries].
    rewrite lookup_insert_eq, Hxy, lookup_insert_eq. simpl.
    unfold applyRecord. rewrite Hox, Hoy. simpl. rewrite Hkxy. apply insert_insert_eq. }
  pose proof (Hlast c d Hac Had Hoc Hod Hp Hk) as H1.
  pose proof (Hlast d c Had Hac Hod Hoc (eq_sym Hp) (eq_sym Hk)) as H2. rewrite Hp, Hk in H2.
  assert (∀ m : gmap posKey driveValue, {[keyOf d := valueOf d]} = m → m = {[keyOf d := valueOf c]} →
    False) as Hdiff.
  { intros m <- Hm. apply (f_equal (.!! keyOf d)) in Hm. rewrite !lookup_singleton_eq in Hm.
    apply (inj Some) in Hm. by apply Hne. }
  split.
  - intros Heq. rewrite Heq in H1. apply (Hdiff _ (eq_sym H1) H2).
  - intros s t -> ->. set (s := Apply NewDrive [c; d]) in *. set (t := Apply NewDrive [d; c]) in *.
    intros Heq. apply (f_equal (λ m, values (recordAt m (normalisePath (Path d))))) in Heq.
    unfold MergeDrives in Heq. cbn [foldl] in Heq. rewrite !mergeDrive_eq in Heq. cbn [entries] in Heq.
    unfold recordAt in *. cbn [entries] in Heq.
    change (entries NewDrive) with (∅ : gmap string driveRecord) in Heq.
    rewrite !join_maps_empty_l, !lookup_join_maps in Heq.
    destruct (entries s !! _) as [rs|]; [|simpl in H1; by apply (Hdiff ∅ (eq_sym H1))].
    destruct (entries t !! _) as [rt|]; [|simpl in H2; by rewrite <-H2 in *].
    simpl in *. rewrite H1, H2 in Heq. apply (Hdiff ({[keyOf d := valueOf d]} ∪ {[keyOf d := valueOf c]})).
    + apply map_eq. intros k. rewrite lookup_union. destruct (decide (k = keyOf d)) as [->|].
      * by rewrite !lookup_singleton_eq.
      * by rewrite !lookup_singleton_ne.
    + rewrite <-Heq. apply map_eq. intros k. rewrite lookup_union.
      destruct (decide (k = keyOf d)) as [->|]; [by rewrite !lookup_singleton_eq|].
      by rewrite !lookup_singleton_ne.
Qed.
End converges.

(** ** Heads *)

(** Every write is stored under its own key, which carries a writer. *)
Definition wf_record (rec : driveRecord) : Prop :=
  ∀ k v, values rec !! k = Some v → key v = k ∧ k ≠ zeroKey.

#[export] Instance key_before_weak : StrictWeak key_before.
Proof. exact (flip_weak (key_less key greater)). Qed.

Lemma elem_of_liveHeads rec v :
  v ∈ liveHeads rec ↔ ∃ k, values rec !! k = Some v ∧ isLive rec k = true.
Proof.
  unfold liveHeads. rewrite elem_of_sort_by, list_elem_of_fmap. split.
  - intros ([k v'] & -> & [Hl Hin%elem_of_map_to_list]%list_elem_of_filter). by exists k.
  - intros (k & Hv & Hl). exists (k, v). split; [done|].
    by rewrite list_elem_of_filter, elem_of_map_to_list.
Qed.

Lemma NoDup_liveHeads rec : wf_record rec → NoDup (key <$> liveHeads rec).
Proof.
  intros Hwf. unfold liveHeads. rewrite (sort_by_perm key_before), <-list_fmap_compose.
  set (l := filter _ _).
  assert ((key ∘ snd) <$> l = fst <$> l) as ->.
  { apply list_fmap_ext. intros i [k v] Hi%list_elem_of_lookup_2. subst l.
    apply list_elem_of_filter in Hi as [_ Hi%elem_of_map_to_list]. simpl. by apply Hwf. }
  subst l. apply NoDup_fmap_filter, NoDup_fst_map_to_list.
Qed.

(** Distinct heads are separated by the order. *)
Lemma heads_separated rec v v' :
  wf_record rec → v ∈ liveHeads rec → v' ∈ liveHeads rec →
  key_before v v' = false → key_before v' v = false → v = v'.
Proof.
  intros Hwf Hv Hv' H1 H2. apply (fmap_NoDup_inj key (liveHeads rec)); [by apply NoDup_liveHeads|done..|].
  by apply (less_antisym (less := greater)).
Qed.

Lemma elem_of_built rec k :
  k ∈ built rec ↔ k ≠ zeroKey ∧ ∃ k' v, values rec !! k' = Some v ∧ base v = k.
Proof.
  unfold built. rewrite elem_of_list_to_set, list_elem_of_filter, list_elem_of_fmap.
  apply and_iff_compat_l. split.
  - intros ([k' v] & -> & Hin%elem_of_map_to_list). by exists k', v.
  - intros (k' & v & Hv & <-). exists (k', v). by rewrite elem_of_map_to_list.
Qed.

(** The heads are the one sorted list of the live writes. *)
Lemma liveHeads_unique rec l :
  wf_record rec → NoDup l → StronglySorted (not_after key_before) l →
  (∀ v, v ∈ l ↔ ∃ k, values rec !! k = Some v ∧ isLive rec k = true) → liveHeads rec = l.
Proof.
  intros Hwf Hnd Hs Hl. apply (StronglySorted_unique_strong (not_after key_before)).
  - intros v v' Hv Hv' H1 H2. apply (heads_separated rec); try done.
    by apply elem_of_liveHeads, Hl.
  - apply (sort_by_sorted key_before).
  - done.
  - apply NoDup_Permutation; [by apply (NoDup_fmap_1 key), NoDup_liveHeads|done|].
    intros v. by rewrite elem_of_liveHeads, Hl.
Qed.

(** Writing a value under a key above every key of the record, out of reach of its
    tombstone and built on by none, on top of the current head. *)
Section put_record.
Context (rec : driveRecord) (v : driveValue).
Context (Hwf : wf_record rec) (Hz : key v ≠ zeroKey).
Context (Hnew : ∀ k w, values rec !! k = Some w → greater (key v) k = true ∧ base w ≠ key v).
Context (Hdel : greater (delKey rec) (key v) = false).
Context (Hbase : base v = match last (liveHeads rec) with Some h => key h | None => zeroKey end).

Definition put_record : driveRecord := mkRecord (<[key v := v]> (values rec)) (delKey rec).

Lemma put_fresh : values rec !! key v = None.
Proof.
  destruct (values rec !! key v) as [w|] eqn:E; [|done].
  destruct (Hnew _ _ E) as [Hg _]. by rewrite less_irrefl in Hg.
Qed.

Lemma put_wf : wf_record put_record.
Proof.
  intros k w. simpl. destruct (decide (k = key v)) as [->|Hne].
  - rewrite lookup_insert_eq. by intros [= <-].
  - rewrite lookup_insert_ne by done. apply Hwf.
Qed.

Lemma put_base_self : base v ≠ key v.
Proof.
  rewrite Hbase. destruct (last (liveHeads rec)) as [h|] eqn:E; [|done].
  apply last_Some_elem_of, elem_of_liveHeads in E as (k & Hk & _). intros Heq.
  destruct (Hwf _ _ Hk) as [Hkh _]. pose proof put_fresh. congruence.
Qed.

Lemma put_built k : k ∈ built put_record ↔ k ∈ built rec ∨ (k = base v ∧ k ≠ zeroKey).
Proof.
  pose proof put_fresh. rewrite !elem_of_built. simpl. split.
  - intros (Hk & k' & w & Hw & Hb). destruct (decide (k' = key v)) as [->|Hne].
    + rewrite lookup_insert_eq in Hw. apply (inj Some) in Hw as ->. by right.
    + rewrite lookup_insert_ne in Hw by done. left. split; [done|]. by exists k', w.
  - intros [(Hk & k' & w & Hw & Hb)|[-> Hk]]; (split; [done|]).
    + exists k', w. rewrite lookup_insert_ne by congruence. done.
    + exists (key v), v. by rewrite lookup_insert_eq.
Qed.

Lemma put_live w :
  (∃ k, values put_record !! k = Some w ∧ isLive put_record k = true) ↔
  w = v ∨ (w ∈ liveHeads rec ∧ key w ≠ base v).
Proof.
  pose proof put_fresh as Hf. rewrite elem_of_liveHeads. unfold isLive, covered.
  cbn [delKey values put_record].
  setoid_rewrite andb_true_iff. setoid_rewrite negb_true_iff. setoid_rewrite bool_decide_eq_false.
  setoid_rewrite put_built. split.
  - intros (k & Hk & Hb & Hc). destruct (decide (k = key v)) as [->|Hne].
    + rewrite lookup_insert_eq in Hk. left. by apply (inj Some) in Hk.
    + rewrite lookup_insert_ne in Hk by done. right. destruct (Hwf _ _ Hk) as [Hkw Hkz].
      split; [exists k; split_and!; [done|tauto|done]|]. rewrite Hkw. tauto.
  - intros [->|[(k & Hk & Hb & Hc) Hne]].
    + exists (key v). rewrite lookup_insert_eq, Hdel, andb_false_r. split_and!; [done| |done].
      intros [(_ & k' & w' & Hw & Hkb)%elem_of_built|[Heq _]]; [|by destruct put_base_self].
      by destruct (Hnew _ _ Hw).
    + destruct (Hwf _ _ Hk) as [Hkw _]. exists k. rewrite lookup_insert_ne by congruence.
      split_and!; [done| |done]. intros [?|[-> _]]; [done|]. congruence.
Qed.

(** The new write takes the head's place; every other head stays. *)
Lemma liveHeads_put : liveHeads put_record = removelast (liveHeads rec) ++ [v].
Proof.
  assert (StronglySorted (not_after key_before) (liveHeads rec)) as Hs
    by apply (sort_by_sorted key_before).
  pose proof (NoDup_liveHeads rec Hwf) as Hnd.
  assert (∀ w, w ∈ liveHeads rec → not_after key_before w v ∧ w ≠ v) as Hbelow.
  { intros w (k & Hk & _)%elem_of_liveHeads. destruct (Hnew _ _ Hk) as [Hg _].
    destruct (Hwf _ _ Hk) as [Hkw _]. rewrite <-Hkw in Hg. split.
    - by apply (less_asym greater).
    - intros ->. by rewrite less_irrefl in Hg. }
  apply liveHeads_unique; [apply put_wf|..].
  - apply NoDup_app. split_and!; [|intros w Hw ->%list_elem_of_singleton|apply NoDup_singleton].
    + destruct (liveHeads rec) as [|h l _] using rev_ind; [constructor|].
      rewrite removelast_last. rewrite fmap_app in Hnd. apply NoDup_app in Hnd as [Hnd _].
      by apply (NoDup_fmap_1 key).
    + destruct (liveHeads rec) as [|h l _] using rev_ind; [by apply elem_of_nil in Hw|].
      rewrite removelast_last in Hw. destruct (Hbelow v) as [_ Hne]; [set_solver|done].
  - apply StronglySorted_snoc.
    + destruct (liveHeads rec) as [|h l _] using rev_ind; [constructor|].
      rewrite removelast_last. by apply StronglySorted_app in Hs as (_ & ? & _).
    + apply Forall_forall. intros w Hw. apply Hbelow.
      destruct (liveHeads rec) as [|h l _] using rev_ind; [done|].
      rewrite removelast_last in Hw. set_solver.
  - intros w. rewrite put_live, elem_of_app, list_elem_of_singleton.
    cut (w ∈ removelast (liveHeads rec) ↔ w ∈ liveHeads rec ∧ key w ≠ base v); [tauto|].
    revert Hnd Hbase. clear.
    destruct (liveHeads rec) as [|h l _] using rev_ind.
    + intros _ _. simpl. rewrite elem_of_nil. tauto.
    + rewrite removelast_last, last_snoc, fmap_app. intros (_ & Hd & _)%NoDup_app ->.
      rewrite elem_of_app, list_elem_of_singleton. split.
      * intros Hw. split; [by left|]. intros Heq. apply (Hd (key w)); [by apply list_elem_of_fmap_2|].
        rewrite Heq. by left.
      * intros [[Hw| ->] Hne]; [done|by destruct Hne].
Qed.
End put_record.

(** ** Local operations *)

(** What the code relies on from NFC: a path of normal text cleaned up is normal. *)
Class DriveEnvLaws `{DriveEnv} : Prop :=
  NFC_clean p : NFC (normalisePath p) = normalisePath p.

Lemma normalisePath_idem `{DriveEnvLaws} p : normalisePath (normalisePath p) = normalisePath p.
Proof. unfold normalisePath at 1. rewrite NFC_clean. apply clean_slashed_idem. Qed.

(** The clock has seen every key, each write is stored under its own key. *)
Definition clocked_record (n : N) (rec : driveRecord) : Prop :=
  wf_record rec ∧ (KeyAt (delKey rec) ≤ n)%N ∧
  ∀ k v, values rec !! k = Some v → (KeyAt k ≤ n)%N.

Definition clocked (d : Drive) : Prop :=
  is_u64 (counter d) ∧ ∀ p rec, entries d !! p = Some rec → clocked_record (counter d) rec.

(** No write of the record was built on a write tagged [tag]. *)
Definition fresh_tag (tag : string) (rec : driveRecord) : Prop :=
  ∀ k v, values rec !! k = Some v → KeyWriter (base v) ≠ tag.

Lemma clocked_empty n : clocked_record n emptyRecord.
Proof.
  split_and!; simpl; [|lia|]; intros k v Hk; change (values emptyRecord) with (∅ : gmap posKey driveValue) in Hk;
    by rewrite lookup_empty in Hk.
Qed.

Lemma clocked_recordAt d p : clocked d → clocked_record (counter d) (recordAt d p).
Proof.
  intros [_ Hd]. unfold recordAt. destruct (entries d !! p) as [rec|] eqn:E; simpl.
  - by apply (Hd p).
  - apply clocked_empty.
Qed.

Lemma clocked_mono n m rec : (n ≤ m)%N → clocked_record n rec → clocked_record m rec.
Proof.
  intros Hle (Hw & Hd & Hv). split_and!; [done|lia|]. intros k v Hk. specialize (Hv k v Hk). lia.
Qed.

Lemma applyRecord_wf rec c : wf_record rec → Writer c ≠ "" → wf_record (applyRecord rec c).
Proof.
  intros Hw Hwr. unfold applyRecord. case_decide; [done|case_decide; [|done]].
  intros k v. simpl. destruct (decide (k = keyOf c)) as [->|Hne].
  - rewrite lookup_insert_eq. intros [= <-]. split; [done|]. unfold keyOf, zeroKey. congruence.
  - rewrite lookup_insert_ne by done. apply Hw.
Qed.

Lemma applyRecord_clocked n rec c :
  clocked_record n rec → (At c ≤ n)%N → Writer c ≠ "" → clocked_record n (applyRecord rec c).
Proof.
  intros (Hw & Hd & Hv) Hat Hwr. split; [by apply applyRecord_wf|].
  unfold applyRecord. case_decide; [|case_decide].
  - split; [simpl; by case_match|done].
  - split; [done|]. intros k v. simpl. destruct (decide (k = keyOf c)) as [->|Hne].
    + by rewrite lookup_insert_eq.
    + rewrite lookup_insert_ne by done. apply Hv.
  - done.
Qed.

(** Folding in a change keeps the clock ahead of every key. *)
Lemma applyDrive_clocked `{DriveEnv} d c :
  clocked d → is_u64 (At c) → Writer c ≠ "" → clocked (applyDrive d c).
Proof.
  intros Hd Hat Hw. pose proof (clocked_recordAt d (normalisePath (Path c)) Hd) as Hrec.
  destruct Hd as [Hu Hd]. unfold applyDrive, clocked. cbn [counter entries]. rewrite raise_to_max.
  split; [unfold is_u64 in *; lia|]. intros p rec.
  destruct (decide (p = normalisePath (Path c))) as [->|Hne].
  - rewrite lookup_insert_eq. intros [= <-]. apply applyRecord_clocked; [|lia|done].
    by apply (clocked_mono (counter d)); [lia|].
  - rewrite lookup_insert_ne by done. intros Hp.
    apply (clocked_mono (counter d)); [lia|]. by apply (Hd p).
Qed.

Lemma clocked_New : clocked NewDrive.
Proof.
  split; [done|]. intros p rec Hp. change (entries NewDrive) with (∅ : gmap string driveRecord) in Hp.
  by rewrite lookup_empty in Hp.
Qed.

Lemma Apply_clocked `{DriveEnv} d cs :
  clocked d → Forall (λ c, is_u64 (At c)) cs → clocked (Apply d cs).
Proof.
  intros Hd Hcs. rewrite Apply_foldl. revert d Hd.
  induction Hcs as [|c cs Hc Hcs IH]; intros d Hd; [done|]. cbn [foldl]. apply IH.
  unfold applyAccepted, accepted. destruct (Foreign c); [done|].
  destruct (Validate c) eqn:Hv; [|done]. apply applyDrive_clocked; [done..|].
  intros Hw. revert Hv. unfold Validate. by rewrite decide_True.
Qed.

(** Whatever is applied, every write sits under its own key. *)
Definition wf_drive (d : Drive) : Prop := ∀ p rec, entries d !! p = Some rec → wf_record rec.

Lemma wf_New : wf_drive NewDrive.
Proof. intros p rec Hp. by apply clocked_New in Hp as [Hw _]. Qed.

Lemma Apply_wf `{DriveEnv} d cs : wf_drive d → wf_drive (Apply d cs).
Proof.
  rewrite Apply_foldl. revert d. induction cs as [|c cs IH]; intros d Hd; [done|].
  cbn [foldl]. apply IH. unfold applyAccepted, accepted. destruct (Foreign c); [done|].
  destruct (Validate c) eqn:Hv; [|done]. simpl. intros p rec. unfold applyDrive. cbn [entries].
  destruct (decide (p = normalisePath (Path c))) as [->|Hne].
  - rewrite lookup_insert_eq. intros [= <-]. apply applyRecord_wf.
    + unfold recordAt. destruct (entries d !! _) as [r|] eqn:E; simpl; [by apply (Hd _ _ E)|].
      apply (clocked_empty 0).
    + intros Hw. revert Hv. unfold Validate. by rewrite decide_True.
  - rewrite lookup_insert_ne by done. apply Hd.
Qed.

Section local.
Context `{DriveEnvLaws}.

Lemma Get_readEntry d p : Get d p = readEntry (normalisePath p) (recordAt d (normalisePath p)).
Proof. unfold Get, recordAt. by destruct (entries d !! normalisePath p). Qed.

Lemma Get_applyDrive_other d n c q :
  normalisePath q ≠ normalisePath (Path c) → Get (applyDrive (mkDrive (entries d) n) c) q = Get d q.
Proof.
  intros Hne. rewrite !Get_readEntry. unfold recordAt, applyDrive. cbn [entries].
  by rewrite lookup_insert_ne.
Qed.

(** The record a put leaves: the new write in place of the head. *)
Lemma put_heads tag d np c :
  clocked d → counter d ≠ MaxUint64 → fresh_tag tag (recordAt d np) → tag ≠ "" →
  Op c = OpPut → At c = sat_succ (counter d) → Writer c = tag →
  Base c = match currentHead (recordAt d np) with Some (h, _) => key h | None => zeroKey end →
  liveHeads (applyRecord (recordAt d np) c) = removelast (liveHeads (recordAt d np)) ++ [valueOf c].
Proof.
  intros Hd Hmax Hfresh Htag Hop Hat Hwr Hb.
  destruct (clocked_recordAt d np Hd) as (Hwf & Hdel & Hv). set (rec := recordAt d np) in *.
  pose proof (sat_succ_spec (counter d) (proj1 Hd)) as (_ & _ & Hlt). specialize (Hlt Hmax).
  unfold applyRecord. rewrite Hop. simpl.
  change (keyOf c) with (key (valueOf c)). apply (liveHeads_put rec (valueOf c) Hwf); simpl.
  - unfold keyOf, zeroKey. rewrite Hwr. congruence.
  - intros k w Hk. specialize (Hv k w Hk). split.
    + unfold greater. simpl. rewrite Hat, decide_True by lia. apply N.ltb_lt. lia.
    + intros Heq. apply (Hfresh k w Hk). rewrite Heq. by unfold keyOf.
  - unfold greater. simpl. rewrite Hat, decide_True by lia. apply N.ltb_ge. lia.
  - rewrite Hb. unfold currentHead. by destruct (last (liveHeads rec)).
Qed.

(** A tombstone above every key hides them all. *)
Lemma delete_heads d np c :
  clocked d → counter d ≠ MaxUint64 → Op c = OpDelete → At c = sat_succ (counter d) →
  liveHeads (applyRecord (recordAt d np) c) = [].
Proof.
  intros Hd Hmax Hop Hat. destruct (clocked_recordAt d np Hd) as (Hwf & Hdel & Hv).
  set (rec := recordAt d np) in *.
  pose proof (sat_succ_spec (counter d) (proj1 Hd)) as (_ & _ & Hlt). specialize (Hlt Hmax).
  assert (∀ k, (KeyAt k ≤ counter d)%N → greater (keyOf c) k = true) as Hg.
  { intros k Hk. unfold greater. simpl. rewrite Hat, decide_True by lia. apply N.ltb_lt. lia. }
  destruct (liveHeads _) as [|h l] eqn:E; [done|exfalso].
  assert (h ∈ h :: l) as Hin by left. rewrite <-E in Hin.
  apply elem_of_liveHeads in Hin as (k & Hk & Hlive). revert Hk Hlive.
  unfold applyRecord. rewrite decide_True by done. unfold isLive, covered. cbn [values delKey].
  rewrite (Hg (delKey rec)) by done. intros Hk [_ Hc]%andb_true_iff.
  rewrite (Hg k) in Hc by eauto. rewrite bool_decide_true in Hc; [done|].
  unfold keyOf, zeroKey. intros [= Hz _]. lia.
Qed.

Lemma Validate_at c n :
  Validate (mkChange (Kind c) (Op c) (Path c) (CBlob c) (CSize c) (CMTime c) (CMeta c) n (Writer c) (Base c))
  = Validate c.
Proof. done. Qed.

(** The local write and the receipt of the shipped change are one operation. *)
Lemma ship_local d c :
  accepted c = true → At c = sat_succ (counter d) → is_u64 (counter d) →
  applyDrive (mkDrive (entries d) (At c)) c = Apply d [c].
Proof.
  intros Ha Hat Hu. pose proof (sat_succ_spec (counter d) Hu) as (_ & Hle & _).
  rewrite Apply_foldl. cbn [foldl]. unfold applyAccepted. rewrite Ha.
  unfold applyDrive, recordAt. cbn [entries counter]. f_equal. rewrite !raise_to_max. lia.
Qed.

(** A local put takes effect: what is put at a path is what [Get] reads there, still
    conflicted only if it was before (the write replaces the chosen head and no other),
    no other path moves, the clock stays ahead, and the change it ships, applied to a
    drive in the same state, gives the same drive. *)
Theorem drive_put_spec (tag : string) (d d' : Drive) (p blob : string) (size mtime : Z)
    (meta : DriveMeta) (c : DriveChange) :
  clocked d → counter d ≠ MaxUint64 → fresh_tag tag (recordAt d (normalisePath p)) →
  PutMeta tag d p blob size mtime meta = Some (d', c) →
  Get d' p = Some (mkEntry (normalisePath p) blob size mtime meta
    (1 <? length (liveHeads (recordAt d (normalisePath p))))%nat) ∧
  (∀ q, normalisePath q ≠ normalisePath p → Get d' q = Get d q) ∧
  clocked d' ∧ Apply d [c] = d'.
Proof.
  intros Hd Hmax Hfresh. unfold PutMeta. set (np := normalisePath p) in *.
  match goal with |- context [Validate ?x] => set (c0 := x) end.
  destruct (Validate c0) eqn:Hval; [|done]. cbn [negb]. unfold nextAt.
  match goal with |- context [applyDrive _ ?x] => set (c1 := x) end. intros [= <- <-].
  assert (Validate c1 = true) as Hval1 by exact Hval.
  assert (tag ≠ "" ∧ blob ≠ "") as [Htag Hblob].
  { revert Hval1. unfold Validate. cbn [c1 Writer Path Op CBlob]. repeat case_decide; done. }
  assert (normalisePath (Path c1) = np) as Hnp by apply normalisePath_idem.
  assert (accepted c1 = true) as Hacc by (unfold accepted; by rewrite Hval1).
  pose proof (put_heads tag d np c1 Hd Hmax Hfresh Htag eq_refl eq_refl eq_refl eq_refl) as Hheads.
  pose proof (sat_succ_spec (counter d) (proj1 Hd)) as (Hu & Hle & _).
  split_and!.
  - rewrite Get_readEntry. fold np. unfold applyDrive, recordAt at 1. cbn [entries]. rewrite Hnp.
    rewrite lookup_insert_eq. simpl. unfold readEntry, currentHead. fold (recordAt d np).
    change (recordAt (mkDrive (entries d) (sat_succ (counter d))) np) with (recordAt d np).
    rewrite Hheads, last_snoc, decide_False by done. unfold entryOf. simpl. do 2 f_equal.
    destruct (liveHeads (recordAt d np)) as [|h l _] using rev_ind; [done|].
    by rewrite removelast_last, !length_app.
  - intros q Hq. apply Get_applyDrive_other. by rewrite Hnp.
  - apply applyDrive_clocked; [|done|done]. destruct Hd as [_ Hd]. split; [done|].
    intros q rec Hq. apply (clocked_mono (counter d)); [done|]. by apply (Hd q).
  - symmetry. by apply ship_local; [..|apply Hd].
Qed.

(** A local delete takes effect: the path reads as absent, no other path moves, and the
    change it ships, applied to a drive in the same state, gives the same drive. *)
Theorem drive_delete_spec (tag : string) (d d' : Drive) (p : string) (c : DriveChange) :
  clocked d → counter d ≠ MaxUint64 → Delete tag d p = Some (d', c) →
  Get d' p = None ∧ liveHeads (recordAt d' (normalisePath p)) = [] ∧
  (∀ q, normalisePath q ≠ normalisePath p → Get d' q = Get d q) ∧
  clocked d' ∧ Apply d [c] = d'.
Proof.
  intros Hd Hmax. unfold Delete. set (np := normalisePath p) in *.
  match goal with |- context [Validate ?x] => set (c0 := x) end.
  destruct (Validate c0) eqn:Hval; [|done]. cbn [negb]. unfold nextAt.
  match goal with |- context [applyDrive _ ?x] => set (c1 := x) end. intros [= <- <-].
  assert (Validate c1 = true) as Hval1 by exact Hval.
  assert (tag ≠ "") as Htag.
  { revert Hval1. unfold Validate. cbn [c1 Writer Path Op CBlob]. repeat case_decide; done. }
  assert (normalisePath (Path c1) = np) as Hnp by apply normalisePath_idem.
  assert (accepted c1 = true) as Hacc by (unfold accepted; by rewrite Hval1).
  pose proof (delete_heads d np c1 Hd Hmax eq_refl eq_refl) as Hheads.
  pose proof (sat_succ_spec (counter d) (proj1 Hd)) as (Hu & Hle & _).
  assert (recordAt (applyDrive (mkDrive (entries d) (sat_succ (counter d))) c1) np =
    applyRecord (recordAt d np) c1) as Hrec.
  { unfold applyDrive, recordAt at 1. cbn [entries]. by rewrite Hnp, lookup_insert_eq. }
  split_and!.
  - rewrite Get_readEntry. fold np. rewrite Hrec. unfold readEntry, currentHead. by rewrite Hheads.
  - by rewrite Hrec.
  - intros q Hq. apply Get_applyDrive_other. by rewrite Hnp.
  - apply applyDrive_clocked; [|done|done]. destruct Hd as [_ Hd]. split; [done|].
    intros q rec Hq. apply (clocked_mono (counter d)); [done|]. by apply (Hd q).
  - symmetry. by apply ship_local; [..|apply Hd].
Qed.
End local.

(** ** Witnesses

    An environment for ASCII paths: NFC is the identity there, and an id is checked
    by its prefix and length. *)

Definition ex_env : DriveEnv :=
  {| NFC s := s; ParseBlob b := String.prefix "blake3:" b && (String.length b =? 71)%nat |}.

Lemma ex_env_laws : @DriveEnvLaws ex_env.
Proof. intros p. reflexivity. Qed.

Definition ex_blob (h : string) : string :=
  ("blake3:000000000000000000000000000000000000000000000000000000000000000" +:+ h)%string.
Definition ex_put (h : string) (at_ : N) (w : string) (base : posKey) : DriveChange :=
  mkChange KindDrive OpPut "docs/a.txt" (ex_blob h) 3 0 zeroMeta at_ w base.

Definition ex_first : DriveChange := ex_put "1" 1 "w1" zeroKey.
Definition ex_second : DriveChange := ex_put "2" 2 "w2" (mkKey 1 "w1").
Definition ex_fork : DriveChange := ex_put "3" 2 "w3" (mkKey 1 "w1").

Lemma ex_well_keyed : @well_keyed ex_env [ex_first; ex_second; ex_fork].
Proof. intros c d Hc Hd _ _ _ _ _. cases_in Hc; cases_in Hd; done. Qed.

Lemma drive_converges_witness :
  @Apply ex_env NewDrive [ex_first; ex_second; ex_fork] =
  @Apply ex_env NewDrive [ex_fork; ex_first; ex_second; ex_first].
Proof.
  apply (@drive_converges ex_env [ex_first; ex_second; ex_fork]
    [ex_fork; ex_first; ex_second; ex_first] []).
  - exact ex_well_keyed.
  - intros c. set_solver.
  - intros c Hc. by apply elem_of_nil in Hc.
Defined.

(** The same key, two blobs: the second and third change as a hostile device would
    send them. *)
Lemma drive_collision_diverges_witness :
  @Apply ex_env NewDrive [ex_put "2" 2 "w2" zeroKey; ex_put "3" 2 "w2" zeroKey] ≠
  @Apply ex_env NewDrive [ex_put "3" 2 "w2" zeroKey; ex_put "2" 2 "w2" zeroKey].
Proof.
  apply (@drive_collision_diverges ex_env (ex_put "2" 2 "w2" zeroKey) (ex_put "3" 2 "w2" zeroKey));
    done.
Defined.

Definition ex_drive : Drive := @Apply ex_env NewDrive [ex_first; ex_second; ex_fork].

Lemma ex_drive_clocked : clocked ex_drive.
Proof.
  apply (@Apply_clocked ex_env); [apply clocked_New|].
  apply Forall_forall. intros c Hc. cases_in Hc; by vm_compute.
Qed.

Lemma drive_put_spec_witness :
  match @PutMeta ex_env "w9" ex_drive "/docs//./a.txt" (ex_blob "7") 5 0 zeroMeta with
  | Some (d', _) => @Get ex_env d' "docs/a.txt" = Some (mkEntry "docs/a.txt" (ex_blob "7") 5 0 zeroMeta true)
  | None => False
  end.
Proof.
  destruct (@PutMeta ex_env "w9" ex_drive "/docs//./a.txt" (ex_blob "7") 5 0 zeroMeta)
    as [[d' c]|] eqn:E; [|vm_compute in E; discriminate E].
  destruct (@drive_put_spec ex_env ex_env_laws "w9" ex_drive d' "/docs//./a.txt" (ex_blob "7") 5 0
    zeroMeta c ex_drive_clocked) as [Hg _]; [done| |exact E|].
  - change (map_Forall (λ _ v, KeyWriter (base v) ≠ "w9")
      (values (recordAt ex_drive "docs/a.txt"))). decide_vm.
  - exact Hg.
Defined.

Lemma drive_delete_spec_witness :
  match @Delete ex_env "w9" ex_drive "docs/a.txt" with
  | Some (d', _) => @Get ex_env d' "docs/a.txt" = None
  | None => False
  end.
Proof.
  destruct (@Delete ex_env "w9" ex_drive "docs/a.txt") as [[d' c]|] eqn:E;
    [|vm_compute in E; discriminate E].
  apply (@drive_delete_spec ex_env ex_env_laws "w9" ex_drive d' "docs/a.txt" c ex_drive_clocked);
    [done|exact E].
Defined.
