(* ===== verification/DriveViews.v ===== *)
(** * DriveViews: the resolved tree, retention and snapshots of a drive

    Models internal/personalstate/crdt/drive_conflict.go, drive_retention.go and
    drive_snapshot.go: three reads of a drive that change nothing.  The search for
    a free conflicted-copy path has no bound in the code; its fuel here is the
    number of paths taken, which is proved enough. *)

From S2P Require Import Prelude PosKey GoText GoPath Drive.

(** ** Conflicted copies *)

Definition splitExt (file : string) : string * string :=
  match cutLastDot file with
  | Some (stem, ext) => if decide (stem = "") then (file, "") else (stem, ext)
  | None => (file, "")
  end.

Definition conflictSuffix (n : N) : string :=
  if (1 <? n)%N then (" (" +:+ pretty n +:+ ")")%string else "".

Definition conflictPath (orig : string) (k : posKey) (n : N) : string :=
  let (dir, file) := splitLast orig in
  let (stem, ext) := splitExt file in
  (dir +:+ (stem +:+ " (conflicted copy — " +:+ KeyWriter k +:+ " — " +:+ pretty (KeyAt k)
    +:+ ")" +:+ conflictSuffix n +:+ ext))%string.

(** The loop [for n := 1; ; n++], on a bounded number of turns. *)
Fixpoint findFree (fuel : nat) (n : N) (orig : string) (k : posKey) (taken : gset string) :
    option string :=
  match fuel with
  | O => None
  | S fuel =>
      let cand := conflictPath orig k n in
      if decide (cand ∈ taken) then findFree fuel (n + 1) orig k taken else Some cand
  end.

Definition uniqueConflictPath (orig : string) (k : posKey) (occupied placed : gset string) : string :=
  default "" (findFree (S (size (occupied ∪ placed))) 1 orig k (occupied ∪ placed)).

Record contentSeen := mkSeen { blobs : gset string; hashes : gset string }.

Definition seenAdd (s : contentSeen) (v : driveValue) : contentSeen :=
  mkSeen ({[Blob v]} ∪ blobs s)
    (if decide (PlaintextHash (Meta v) ≠ "") then {[PlaintextHash (Meta v)]} ∪ hashes s else hashes s).

Definition newContentSeen (v : driveValue) : contentSeen := seenAdd (mkSeen ∅ ∅) v.

Definition seenHas (s : contentSeen) (v : driveValue) : bool :=
  bool_decide (Blob v ∈ blobs s)
  || (bool_decide (PlaintextHash (Meta v) ≠ "") && bool_decide (PlaintextHash (Meta v) ∈ hashes s)).

(** One turn of the loop over the losers of a path, newest first. *)
Definition keepLoser (acc : contentSeen * list driveValue) (l : driveValue) :
    contentSeen * list driveValue :=
  let (seen, out) := acc in
  if seenHas seen l then (seen, out) else (seenAdd seen l, out ++ [l]).

Definition relocatedOf (winner : driveValue) (live : list driveValue) : list driveValue :=
  (foldl keepLoser (newContentSeen winner, []) (rev (removelast live))).2.

Definition occupiedOf (d : Drive) : gset string :=
  list_to_set (fst <$> filter (λ e, liveHeads e.2 ≠ []) (map_to_list (entries d))).

Definition winnersOf (d : Drive) : list DriveEntry :=
  omap (λ e, (λ w, entryOf e.1 w false) <$> last (liveHeads e.2)) (map_to_list (entries d)).

Definition losersOf (d : Drive) : list (string * driveValue) :=
  map_to_list (entries d) ≫= λ e,
    match last (liveHeads e.2) with
    | Some w => pair e.1 <$> relocatedOf w (liveHeads e.2)
    | None => []
    end.

Definition loser_less (a b : string * driveValue) : bool :=
  if decide (a.1 ≠ b.1) then str_lt a.1 b.1 else greater (key b.2) (key a.2).

(** One turn of the placement loop: the paths placed and the entries out. *)
Definition placeLoser (occupied : gset string) (acc : gset string * list DriveEntry)
    (l : string * driveValue) : gset string * list DriveEntry :=
  let (placed, out) := acc in
  let dp := uniqueConflictPath l.1 (key l.2) occupied placed in
  ({[dp]} ∪ placed, out ++ [entryOf dp l.2 false]).

Definition Resolved (d : Drive) : list DriveEntry :=
  let occupied := occupiedOf d in
  sort_by (key_less EntryPath str_lt)
    (foldl (placeLoser occupied) (∅, winnersOf d) (sort_by loser_less (losersOf d))).2.

(** ** Retention *)

Record RetentionPolicy := mkPolicy { MaxVersionsPerPath : Z; TrashTTL : Z }.

(** Seconds times a nanosecond second, on signed 64-bit words. *)
Definition trashAge (now newest : Z) : Z := wrap_i64 (wrap_i64 (now - newest) * 1000000000).

Definition newestMTime (rec : driveRecord) : Z :=
  foldl (λ newest v, if (newest <? MTime v)%Z then MTime v else newest) 0%Z
    (snd <$> map_to_list (values rec)).

(** The writes of one path a policy keeps. *)
Definition keptWrites (policy : RetentionPolicy) (now : Z) (rec : driveRecord) : list driveValue :=
  let live := liveHeads rec in
  let every := snd <$> map_to_list (values rec) in
  live ++
  (if decide (live ≠ []) then
     if (0 <=? MaxVersionsPerPath policy)%Z
     then take (Z.to_nat (MaxVersionsPerPath policy)) (priorVersions rec)
     else priorVersions rec
   else if (TrashTTL policy <? 0)%Z then every
   else if (trashAge now (newestMTime rec) <=? TrashTTL policy)%Z then every else []).

Definition refsOf (vs : list driveValue) : gset string := list_to_set (vs ≫= refs).

Definition Retain (d : Drive) (policy : RetentionPolicy) (now : Z) : list string :=
  let recs := snd <$> map_to_list (entries d) in
  let all := refsOf (recs ≫= λ rec, snd <$> map_to_list (values rec)) in
  let kept := refsOf (recs ≫= keptWrites policy now) in
  sort_by str_lt (elements (all ∖ kept)).

(** ** Snapshots *)

Record driveValueSnapshot := mkValueSnap {
  vs_Blob : string; vs_Size : Z; vs_MTime : Z; vs_Meta : DriveMeta;
  vs_At : N; vs_Writer : string; vs_BaseAt : N; vs_BaseWrit : string }.
Record driveEntrySnapshot := mkEntrySnap {
  es_Path : string; es_Writes : list driveValueSnapshot; es_DelAt : N; es_DelBy : string }.
Record driveSnapshot := mkDriveSnap { ds_Entries : list driveEntrySnapshot; ds_Counter : N }.

Definition snapValue (v : driveValue) : driveValueSnapshot :=
  mkValueSnap (Blob v) (Size v) (MTime v) (Meta v) (KeyAt (key v)) (KeyWriter (key v))
    (KeyAt (base v)) (KeyWriter (base v)).

Definition snap_less : driveValueSnapshot → driveValueSnapshot → bool :=
  lex_less vs_At N.ltb (key_less vs_Writer str_lt).

Definition snapRecord (p : string) (rec : driveRecord) : driveEntrySnapshot :=
  mkEntrySnap p (sort_by snap_less (snapValue ∘ snd <$> map_to_list (values rec)))
    (KeyAt (delKey rec)) (KeyWriter (delKey rec)).

Definition Snapshot (d : Drive) : driveSnapshot :=
  mkDriveSnap
    (sort_by (key_less es_Path str_lt) ((λ e, snapRecord e.1 e.2) <$> map_to_list (entries d)))
    (counter d).

Definition readKey (w : driveValueSnapshot) : posKey := mkKey (vs_At w) (vs_Writer w).
Definition readValue (w : driveValueSnapshot) : driveValue :=
  mkValue (vs_Blob w) (vs_Size w) (vs_MTime w) (vs_Meta w) (readKey w)
    (mkKey (vs_BaseAt w) (vs_BaseWrit w)).
Definition readRecord (e : driveEntrySnapshot) : driveRecord :=
  mkRecord (insert_each readKey readValue (es_Writes e) ∅) (mkKey (es_DelAt e) (es_DelBy e)).

Definition DriveFromSnapshot (snap : driveSnapshot) : Drive :=
  mkDrive (insert_each es_Path readRecord (ds_Entries snap) ∅) (ds_Counter snap).

(** ** A free path is found *)

Lemma string_length_app s t : String.length (s +:+ t) = (String.length s + String.length t)%nat.
Proof. induction s as [|c s IH]; [done|]. simpl. by rewrite IH. Qed.

Lemma string_app_inj_r a b t : a +:+ t = b +:+ t → a = b.
Proof.
  revert b. induction a as [|c a IH]; intros [|d b] Heq; [done|..].
  - apply (f_equal String.length) in Heq. rewrite !string_length_app in Heq. simpl in Heq. lia.
  - apply (f_equal String.length) in Heq. rewrite !string_length_app in Heq. simpl in Heq. lia.
  - simpl in Heq. injection Heq as -> Heq. by rewrite (IH b).
Qed.

Lemma conflictSuffix_inj n m :
  (1 ≤ n)%N → (1 ≤ m)%N → conflictSuffix n = conflictSuffix m → n = m.
Proof.
  intros Hn Hm. unfold conflictSuffix. destruct (N.ltb_spec 1 n), (N.ltb_spec 1 m); try done; [|lia].
  intros Heq. apply (inj (String.app " (")) in Heq. apply string_app_inj_r in Heq.
  by apply (inj pretty) in Heq.
Qed.

Lemma conflictPath_inj orig k n m :
  (1 ≤ n)%N → (1 ≤ m)%N → conflictPath orig k n = conflictPath orig k m → n = m.
Proof.
  intros Hn Hm. unfold conflictPath. destruct (splitLast orig) as [dir file].
  destruct (splitExt file) as [stem ext]. intros Heq.
  do 2 (apply (inj (String.app _)) in Heq). do 5 (apply (inj (String.app _)) in Heq).
  apply string_app_inj_r in Heq. by apply conflictSuffix_inj.
Qed.

Lemma findFree_spec fuel n orig k taken :
  match findFree fuel n orig k taken with
  | Some p => (p ∉ taken) ∧ ∃ m, (n ≤ m)%N ∧ p = conflictPath orig k m
  | None => ∀ i, (i < fuel)%nat → conflictPath orig k (n + N.of_nat i) ∈ taken
  end.
Proof.
  revert n. induction fuel as [|fuel IH]; intros n; simpl; [lia|].
  case_decide as Hc; [|split; [done|]; exists n; split; [lia|done]].
  specialize (IH (n + 1)%N). destruct (findFree fuel (n + 1) orig k taken) as [p|].
  - destruct IH as (Hp & m & Hm & ->). split; [done|]. exists m. split; [lia|done].
  - intros [|i] Hi; [by rewrite N.add_0_r|].
    replace (n + N.of_nat (S i))%N with (n + 1 + N.of_nat i)%N by lia. apply IH. lia.
Qed.

(** The bound on the loop is enough: its candidates are distinct. *)
Lemma findFree_total orig k taken :
  is_Some (findFree (S (size taken)) 1 orig k taken).
Proof.
  pose proof (findFree_spec (S (size taken)) 1 orig k taken) as H.
  destruct (findFree _ _ _ _ _) as [p|]; [eauto|exfalso].
  set (l := (λ i, conflictPath orig k (1 + N.of_nat i)) <$> seq 0 (S (size taken))).
  assert (NoDup l) as Hnd.
  { apply NoDup_fmap_2_strong; [|apply NoDup_seq]. intros i j _ _ Heq.
    apply conflictPath_inj in Heq; lia. }
  assert ((list_to_set l : gset string) ⊆ taken) as Hsub.
  { intros p Hp. apply elem_of_list_to_set in Hp.
    apply list_elem_of_fmap in Hp as (i & -> & Hi%elem_of_seq). apply H. lia. }
  apply subseteq_size in Hsub. rewrite size_list_to_set in Hsub by done.
  subst l. rewrite length_fmap, length_seq in Hsub. lia.
Qed.

Lemma uniqueConflictPath_free (orig : string) (k : posKey) (occupied placed : gset string) :
  let p := uniqueConflictPath orig k occupied placed in
  findFree (S (size (occupied ∪ placed))) 1 orig k (occupied ∪ placed) = Some p ∧
  (p ∉ occupied) ∧ (p ∉ placed) ∧ ∃ n, p = conflictPath orig k n.
Proof.
  cbv zeta. unfold uniqueConflictPath.
  destruct (findFree_total orig k (occupied ∪ placed)) as [p Hp].
  pose proof (findFree_spec (S (size (occupied ∪ placed))) 1 orig k (occupied ∪ placed)) as H.
  rewrite Hp in *. simpl. destruct H as (Hn & m & _ & ->).
  split_and!; [done|set_solver|set_solver|eauto].
Qed.

(** The search for a free conflicted-copy path ends: among the first [n + 1] candidates
    for [n] taken paths one is free, the loop returns the first such, it is a
    conflicted-copy path of the file it was made for, and no path already live or
    already placed is overwritten. *)
Theorem conflict_path_free (orig : string) (k : posKey) (occupied placed : gset string) :
  let p := uniqueConflictPath orig k occupied placed in
  findFree (S (size (occupied ∪ placed))) 1 orig k (occupied ∪ placed) = Some p ∧
  (p ∉ occupied) ∧ (p ∉ placed) ∧ ∃ n, p = conflictPath orig k n.
Proof. apply uniqueConflictPath_free. Qed.

(** ** The resolved tree *)

(** Two writes whose bytes a reader cannot tell apart: one blob, or one recorded
    plaintext hash. *)
Definition same_content (v w : driveValue) : Prop :=
  Blob v = Blob w ∨
  (PlaintextHash (Meta v) ≠ "" ∧ PlaintextHash (Meta v) = PlaintextHash (Meta w)).

Definition seen_of (s : contentSeen) (vs : list driveValue) : Prop :=
  ∀ v, seenHas s v = true ↔ ∃ w, w ∈ vs ∧ same_content v w.

Lemma seen_of_add s vs w : seen_of s vs → seen_of (seenAdd s w) (vs ++ [w]).
Proof.
  intros Hs v. specialize (Hs v). rewrite exists_snoc, <-Hs. clear Hs. revert s. intros [bs hs].
  unfold seenHas, seenAdd, same_content. cbn [blobs hashes].
  rewrite !orb_true_iff, !andb_true_iff, !bool_decide_eq_true.
  case_decide as Hw; rewrite ?elem_of_union, ?elem_of_singleton; intuition congruence.
Qed.

Lemma seen_of_new w : seen_of (newContentSeen w) [w].
Proof.
  unfold newContentSeen. apply (seen_of_add (mkSeen ∅ ∅) [] w). intros v.
  unfold seenHas. simpl. rewrite !bool_decide_false, andb_false_r by set_solver. simpl.
  split; [done|]. intros (x & Hx & _). by apply elem_of_nil in Hx.
Qed.

(** Every loser met is kept or its content is shown already. *)
Lemma keepLoser_spec ls seen out shown :
  seen_of seen (shown ++ out) →
  let acc := foldl keepLoser (seen, out) ls in
  seen_of acc.1 (shown ++ acc.2) ∧
  (∀ v, v ∈ acc.2 → v ∈ out ∨ v ∈ ls) ∧ (∀ v, v ∈ out → v ∈ acc.2) ∧
  (∀ v, v ∈ ls → ∃ w, w ∈ shown ++ acc.2 ∧ same_content v w).
Proof.
  revert seen out. induction ls as [|l ls IH]; intros seen out Hseen; cbv zeta.
  { split_and!; [done|by left|done|]. intros v Hv. by apply elem_of_nil in Hv. }
  cbn [foldl keepLoser]. destruct (seenHas seen l) eqn:Hl.
  - destruct (IH seen out Hseen) as (H1 & H2 & H3 & H4). split_and!; [done| |done|].
    + intros v Hv. destruct (H2 v Hv); [by left|right; by right].
    + intros v [->|Hv]%elem_of_cons; [|auto].
      apply Hseen in Hl as (w & Hw & Hc). exists w. split; [|done].
      apply elem_of_app in Hw as [Hw|Hw]; apply elem_of_app; auto.
  - assert (seen_of (seenAdd seen l) (shown ++ (out ++ [l]))) as Hseen'
      by (rewrite app_assoc; by apply seen_of_add).
    destruct (IH _ _ Hseen') as (H1 & H2 & H3 & H4). split_and!; [done|..].
    + intros v Hv. destruct (H2 v Hv) as [Hin|]; [|right; by right].
      apply elem_of_app in Hin as [|Hin%list_elem_of_singleton]; [by left|right; subst; left].
    + intros v Hv. apply H3, elem_of_app. by left.
    + intros v [->|Hv]%elem_of_cons; [|auto]. exists l. split; [|by left].
      apply elem_of_app. right. apply H3, elem_of_app. right. by left.
Qed.

(** Every head of a path is the winner, relocated, or shown by one that is. *)
Lemma relocatedOf_spec winner front :
  let out := relocatedOf winner (front ++ [winner]) in
  (∀ v, v ∈ out → v ∈ front) ∧
  (∀ v, v ∈ front ++ [winner] → ∃ w, w ∈ winner :: out ∧ same_content v w).
Proof.
  cbv zeta. unfold relocatedOf. rewrite removelast_last.
  destruct (keepLoser_spec (rev front) (newContentSeen winner) [] [winner])
    as (_ & H2 & _ & H4); [apply seen_of_new|]. split.
  - intros v Hv. destruct (H2 v Hv) as [Hn|Hr]; [by apply elem_of_nil in Hn|].
    by apply list_elem_of_In, in_rev, list_elem_of_In in Hr.
  - intros v [Hv| ->%list_elem_of_singleton]%elem_of_app.
    + apply H4. by apply list_elem_of_In, in_rev, list_elem_of_In; rewrite rev_involutive.
    + exists winner. split; [left|by left].
Qed.

(** The placement loop: every loser gets a path of its own. *)
Lemma placeLoser_spec occupied ls placed out :
  NoDup (EntryPath <$> out) →
  (∀ p, p ∈ EntryPath <$> out ↔ p ∈ occupied ∪ placed) →
  let acc := foldl (placeLoser occupied) (placed, out) ls in
  NoDup (EntryPath <$> acc.2) ∧ (∀ e, e ∈ out → e ∈ acc.2) ∧
  (∀ l, l ∈ ls → ∃ n, entryOf (conflictPath l.1 (key l.2) n) l.2 false ∈ acc.2) ∧
  (∀ e, e ∈ acc.2 → e ∈ out ∨ ∃ l n, l ∈ ls ∧ e = entryOf (conflictPath l.1 (key l.2) n) l.2 false).
Proof.
  revert placed out. induction ls as [|l ls IH]; intros placed out Hnd Hin; cbv zeta.
  { split_and!; [done|done| |by left]. intros l Hl. by apply elem_of_nil in Hl. }
  cbn [foldl placeLoser].
  destruct (uniqueConflictPath_free l.1 (key l.2) occupied placed) as (_ & Ho & Hp & n & Hn).
  set (dp := uniqueConflictPath l.1 (key l.2) occupied placed) in *.
  destruct (IH ({[dp]} ∪ placed) (out ++ [entryOf dp l.2 false])) as (H1 & H2 & H3 & H4).
  - rewrite fmap_app. apply NoDup_app. split_and!; [done| |apply NoDup_singleton].
    intros p Hpo Heq%list_elem_of_singleton. apply Hin in Hpo. simpl in Heq. set_solver.
  - intros p. rewrite fmap_app, elem_of_app, Hin. simpl. rewrite list_elem_of_singleton. set_solver.
  - split_and!; [done|..].
    + intros e He. apply H2, elem_of_app. by left.
    + intros l' [->|Hl']%elem_of_cons; [|auto]. exists n. rewrite <-Hn. apply H2, elem_of_app.
      right. by left.
    + intros e He. destruct (H4 e He) as [Hout|(l' & m & Hl' & ->)].
      * apply elem_of_app in Hout as [|Hout%list_elem_of_singleton]; [by left|right].
        exists l, n. rewrite Hout, <-Hn. split; [left|done].
      * right. exists l', m. split; [by right|done].
Qed.

(** The entry shows head [w] of path [p]: at [p] itself for the winner, at a
    conflicted-copy path of [p] for a loser. *)
Definition shows (p : string) (rec : driveRecord) (w : driveValue) (e : DriveEntry) : Prop :=
  w ∈ liveHeads rec ∧
  ((last (liveHeads rec) = Some w ∧ e = entryOf p w false) ∨
   ∃ n, e = entryOf (conflictPath p (key w) n) w false).

Lemma elem_of_occupied d p :
  p ∈ occupiedOf d ↔ ∃ rec, entries d !! p = Some rec ∧ liveHeads rec ≠ [].
Proof.
  unfold occupiedOf. rewrite elem_of_list_to_set, list_elem_of_fmap. split.
  - intros ([q rec] & -> & [Hl Hin%elem_of_map_to_list]%list_elem_of_filter). by exists rec.
  - intros (rec & Hp & Hl). exists (p, rec). by rewrite list_elem_of_filter, elem_of_map_to_list.
Qed.

Lemma elem_of_winners d e :
  e ∈ winnersOf d ↔ ∃ p rec w, entries d !! p = Some rec ∧
    last (liveHeads rec) = Some w ∧ e = entryOf p w false.
Proof.
  unfold winnersOf. rewrite list_elem_of_omap. split.
  - intros ([p rec] & Hin%elem_of_map_to_list & (w & Hw & ->)%fmap_Some_1). by exists p, rec, w.
  - intros (p & rec & w & Hp & Hw & ->). exists (p, rec). split; [by apply elem_of_map_to_list|].
    simpl. by rewrite Hw.
Qed.

Lemma winners_paths d :
  NoDup (EntryPath <$> winnersOf d) ∧ ∀ p, p ∈ EntryPath <$> winnersOf d ↔ p ∈ occupiedOf d.
Proof.
  split.
  - apply (NoDup_fmap_omap _ _ fst); [|apply NoDup_fst_map_to_list].
    by intros [p rec] e (w & _ & ->)%fmap_Some_1.
  - intros p. rewrite list_elem_of_fmap, elem_of_occupied. setoid_rewrite elem_of_winners. split.
    + intros (e & -> & q & rec & w & Hq & Hw & ->). exists rec. split; [done|].
      intros Hn. by rewrite Hn in Hw.
    + intros (rec & Hp & Hl). destruct (last (liveHeads rec)) as [w|] eqn:E.
      * exists (entryOf p w false). split; [done|]. by exists p, rec, w.
      * by apply last_None in E.
Qed.

Lemma elem_of_losers d p v :
  (p, v) ∈ losersOf d ↔ ∃ rec w, entries d !! p = Some rec ∧ last (liveHeads rec) = Some w ∧
    v ∈ relocatedOf w (liveHeads rec).
Proof.
  unfold losersOf. rewrite list_elem_of_bind. split.
  - intros ([q rec] & Hin & Hq%elem_of_map_to_list). simpl in Hin.
    destruct (last (liveHeads rec)) as [w|] eqn:E; [|by apply elem_of_nil in Hin].
    apply list_elem_of_fmap in Hin as (x & [= -> ->] & Hx). by exists rec, w.
  - intros (rec & w & Hp & Hw & Hv). exists (p, rec). split; [|by apply elem_of_map_to_list].
    simpl. rewrite Hw. by apply list_elem_of_fmap_2.
Qed.

#[export] Instance path_order_weak : StrictWeak (key_less EntryPath str_lt).
Proof. exact (key_weak str_lt EntryPath). Qed.

(** C37. Conflict resolution loses nothing, invents nothing and overwrites nothing: in the
    resolved tree the paths are distinct and sorted, the winner of every live path
    stays at its path, the bytes of every losing head are still shown by an entry for
    its path (at the path itself, or at a conflicted-copy path of it), and every entry
    is a live head of some path, shown at one of those places. *)
Theorem drive_resolved_spec (d : Drive) :
  let out := Resolved d in
  NoDup (EntryPath <$> out) ∧ StronglySorted (not_after (key_less EntryPath str_lt)) out ∧
  (∀ p rec w, entries d !! p = Some rec → last (liveHeads rec) = Some w → entryOf p w false ∈ out) ∧
  (∀ p rec v, entries d !! p = Some rec → v ∈ liveHeads rec →
     ∃ w e, e ∈ out ∧ shows p rec w e ∧ same_content v w) ∧
  (∀ e, e ∈ out → ∃ p rec w, entries d !! p = Some rec ∧ shows p rec w e).
Proof.
  cbv zeta. unfold Resolved. destruct (winners_paths d) as [Hwn Hwp].
  assert (∀ l, l ∈ sort_by loser_less (losersOf d) ↔ l ∈ losersOf d) as Hls.
  { intros l. unfold sort_by. by rewrite merge_sort_Permutation. }
  destruct (placeLoser_spec (occupiedOf d) (sort_by loser_less (losersOf d)) ∅ (winnersOf d) Hwn)
    as (H1 & H2 & H3 & H4); [intros p; rewrite Hwp; set_solver|].
  set (out := (foldl _ _ _).2) in *.
  assert (∀ p rec w, entries d !! p = Some rec → last (liveHeads rec) = Some w →
    ∃ front, liveHeads rec = front ++ [w]) as Hlast.
  { intros p rec w _ Hw. by apply last_Some in Hw. }
  split_and!.
  - by rewrite (sort_by_perm (key_less EntryPath str_lt)).
  - apply (sort_by_sorted (key_less EntryPath str_lt)).
  - intros p rec w Hp Hw. apply elem_of_sort_by. apply H2, elem_of_winners. by exists p, rec, w.
  - intros p rec v Hp Hv. destruct (last (liveHeads rec)) as [win|] eqn:Hw;
      [|apply last_None in Hw; rewrite Hw in Hv; by apply elem_of_nil in Hv].
    destruct (Hlast p rec win Hp Hw) as [front Hf].
    destruct (relocatedOf_spec win front) as [Hr1 Hr2]. rewrite <-Hf in *.
    destruct (Hr2 v Hv) as (w & Hin & Hc). apply elem_of_cons in Hin as [->|Hin].
    + exists win, (entryOf p win false). split; [|split; [split; [|by left]|done]].
      * apply elem_of_sort_by. apply H2, elem_of_winners. by exists p, rec, win.
      * rewrite Hf. apply elem_of_app. right. by left.
    + destruct (H3 (p, w)) as [n Hn]; [apply Hls, elem_of_losers; by exists rec, win|].
      exists w, (entryOf (conflictPath p (key w) n) w false).
      split; [by apply elem_of_sort_by|split; [split; [|right; by exists n]|done]].
      rewrite Hf. apply elem_of_app. left. by apply Hr1.
  - intros e He. apply elem_of_sort_by in He. destruct (H4 e He) as [Hwin|(l & n & Hl & ->)].
    + apply elem_of_winners in Hwin as (p & rec & w & Hp & Hw & ->). exists p, rec, w.
      split; [done|]. split; [|by left]. by apply last_Some_elem_of.
    + destruct l as [p w]. apply Hls, elem_of_losers in Hl as (rec & win & Hp & Hw & Hin).
      exists p, rec, w. split; [done|]. split; [|right; by exists n].
      destruct (Hlast p rec win Hp Hw) as [front Hf].
      destruct (relocatedOf_spec win front) as [Hr1 _]. rewrite <-Hf in Hr1.
      rewrite Hf. apply elem_of_app. left. by apply Hr1.
Qed.

(** ** What retention reports *)

Lemma elem_of_refsOf b vs : b ∈ refsOf vs ↔ ∃ v, v ∈ vs ∧ b ∈ refs v.
Proof. unfold refsOf. rewrite elem_of_list_to_set, list_elem_of_bind. naive_solver. Qed.

Lemma elem_of_records d (f : driveRecord → list driveValue) v :
  v ∈ ((snd <$> map_to_list (entries d)) ≫= f) ↔ ∃ p rec, entries d !! p = Some rec ∧ v ∈ f rec.
Proof.
  rewrite list_elem_of_bind. setoid_rewrite list_elem_of_fmap. split.
  - intros (rec & Hv & [p r] & -> & Hin%elem_of_map_to_list). by exists p, r.
  - intros (p & rec & Hp & Hv). exists rec. split; [done|]. exists (p, rec).
    by rewrite elem_of_map_to_list.
Qed.

Lemma elem_of_every rec v : v ∈ snd <$> map_to_list (values rec) ↔ ∃ k, values rec !! k = Some v.
Proof.
  rewrite list_elem_of_fmap. split.
  - intros ([k w] & -> & Hin%elem_of_map_to_list). by exists k.
  - intros [k Hk]. exists (k, v). by rewrite elem_of_map_to_list.
Qed.

Lemma elem_of_Retain d policy now b :
  b ∈ Retain d policy now ↔
  (∃ p rec k v, entries d !! p = Some rec ∧ values rec !! k = Some v ∧ b ∈ refs v) ∧
  (∀ p rec v, entries d !! p = Some rec → v ∈ keptWrites policy now rec → b ∉ refs v).
Proof.
  unfold Retain. rewrite elem_of_sort_by, elem_of_elements, elem_of_difference, !elem_of_refsOf.
  setoid_rewrite elem_of_records. setoid_rewrite elem_of_every.
  split; intros [Ha Hk]; split.
  - destruct Ha as (v & (p & rec & Hp & k & Hv) & Hb). by exists p, rec, k, v.
  - intros p rec v Hp Hv Hb. apply Hk. exists v. split; [by exists p, rec|done].
  - destruct Ha as (p & rec & k & v & Hp & Hv & Hb). exists v.
    split; [|done]. exists p, rec. split; [done|by exists k].
  - intros (v & (p & rec & Hp & Hv) & Hb). by apply (Hk p rec v).
Qed.

(** Retention never gives up bytes that are in use: a reported blob is referenced by some
    write and by none a policy keeps; so it is referenced (as content, thumbnail or
    sidecar) by no live head whatever the policy, by none of the newest versions within
    the limit, and by no write of a deleted path whose trash is kept. *)
Theorem drive_retain_safe (d : Drive) (policy : RetentionPolicy) (now : Z) (b : string) :
  b ∈ Retain d policy now →
  (∃ p rec k v, entries d !! p = Some rec ∧ values rec !! k = Some v ∧ b ∈ refs v) ∧
  ∀ p rec, entries d !! p = Some rec →
    (∀ v, v ∈ liveHeads rec → b ∉ refs v) ∧
    (liveHeads rec ≠ [] → ∀ i v, priorVersions rec !! i = Some v →
       (MaxVersionsPerPath policy < 0 ∨ Z.of_nat i < MaxVersionsPerPath policy)%Z → b ∉ refs v) ∧
    (liveHeads rec = [] →
       (TrashTTL policy < 0 ∨ trashAge now (newestMTime rec) ≤ TrashTTL policy)%Z →
       ∀ k v, values rec !! k = Some v → b ∉ refs v).
Proof.
  intros [Ha Hk]%elem_of_Retain. split; [done|]. intros p rec Hp.
  specialize (λ v, Hk p rec v Hp). unfold keptWrites in Hk. split_and!.
  - intros v Hv. apply Hk, elem_of_app. by left.
  - intros Hl i v Hi Hmax. apply Hk, elem_of_app. right. rewrite decide_True by done.
    destruct (Z.leb_spec 0 (MaxVersionsPerPath policy)) as [H0|H0].
    + apply list_elem_of_lookup. exists i. rewrite lookup_take_lt; [done|lia].
    + by apply list_elem_of_lookup_2 in Hi.
  - intros Hl Ht k v Hv. apply Hk, elem_of_app. right. rewrite decide_False by tauto.
    assert (v ∈ snd <$> map_to_list (values rec)) as Hin by (apply elem_of_every; eauto).
    destruct (Z.ltb_spec (TrashTTL policy) 0) as [H0|H0]; [done|].
    destruct (Z.leb_spec (trashAge now (newestMTime rec)) (TrashTTL policy)); [done|lia].
Qed.

(** ** Snapshots *)

Lemma readRecord_snap p rec : wf_record rec → readRecord (snapRecord p rec) = rec.
Proof.
  intros Hwf. destruct rec as [vs dk]. unfold readRecord, snapRecord. simpl. f_equal; [|by destruct dk].
  apply (insert_each_map_in _ _ (snapValue ∘ snd)).
  - intros k v Hv. destruct (Hwf k v Hv) as [Hk _]. simpl. destruct v as [b s m mt [ka kw] [ba bw]].
    unfold readKey, readValue, readKey, snapValue. simpl in *. by subst k.
  - apply (sort_by_perm snap_less).
Qed.

(** A drive read back from its snapshot is the drive, whatever changes made it, so a
    device that starts from a snapshot and applies the changes after it holds what a
    full replay gives. *)
Theorem drive_snapshot_roundtrip `{DriveEnv} (cs ds : list DriveChange) :
  let d := Apply NewDrive cs in
  DriveFromSnapshot (Snapshot d) = d ∧
  Apply (DriveFromSnapshot (Snapshot d)) ds = Apply NewDrive (cs ++ ds).
Proof.
  cbv zeta. pose proof (Apply_wf _ cs wf_New) as Hwf.
  assert (DriveFromSnapshot (Snapshot (Apply NewDrive cs)) = Apply NewDrive cs) as Heq.
  { destruct (Apply NewDrive cs) as [es n]. unfold DriveFromSnapshot, Snapshot. simpl. f_equal.
    apply (insert_each_map_in _ _ (λ e, snapRecord e.1 e.2)).
    - intros p rec Hp. split; [done|]. simpl. apply readRecord_snap. by apply (Hwf p).
    - apply (sort_by_perm (key_less es_Path str_lt)). }
  split; [done|]. rewrite Heq, !Apply_foldl. by rewrite foldl_app.
Qed.

(** ** A drive with a superseded version *)

(** [w1]'s edit of its own first write leaves version 1 as history: with no versions kept
    its blob is reclaimable. *)
Definition ex_versions : Drive := @Apply ex_env NewDrive [ex_first; ex_second].

Lemma drive_retain_safe_witness :
  ex_blob "1" ∈ Retain ex_versions (mkPolicy 0 (-1)) 100 ∧
  ∀ p rec v, entries ex_versions !! p = Some rec → v ∈ liveHeads rec → ex_blob "1" ∉ refs v.
Proof.
  assert (ex_blob "1" ∈ Retain ex_versions (mkPolicy 0 (-1)) 100) as Hin by decide_vm.
  split; [exact Hin|]. intros p rec v Hp Hv.
  destruct (drive_retain_safe ex_versions (mkPolicy 0 (-1)) 100 (ex_blob "1") Hin) as [_ H].
  exact (proj1 (H p rec Hp) v Hv).
Defined.

(** The age of trash wraps: a newest write dated ten thousand million seconds after [now]
    makes it older than a month. *)
Example retain_age_overflow :
  (trashAge 1700000000 (1700000000 + 10000000000) > 30 * 24 * 3600 * 1000000000)%Z.
Proof. reflexivity. Qed.
