(* ===== verification/Policy.v ===== *)
(** * Policy: quality profiles and their validation

    Models internal/domain/policy: attribute.go, value.go, profile.go, language.go,
    resolution.go and defaults.go.  Attributes, kinds and operators are Go strings
    there and strings here.  [Validate] writes through its pointer receiver, so it
    returns the profile it leaves behind next to the error it reports. *)

From S2P Require Import Prelude GoText.
#[local] Open Scope Z_scope.

(** ** The vocabulary (attribute.go) *)

Definition KindInt : string := "int".
Definition KindText : string := "text".
Definition KindFlag : string := "flag".

Definition AttrResolution : string := "resolution".
Definition AttrSource : string := "source".
Definition AttrVideoCodec : string := "video_codec".
Definition AttrAudioCodec : string := "audio_codec".
Definition AttrAudioChannels : string := "audio_channels".
Definition AttrHDR : string := "hdr".
Definition AttrSizeBytes : string := "size_bytes".
Definition AttrLanguage : string := "language".
Definition AttrStore : string := "store".
Definition AttrDRMFree : string := "drm_free".
Definition AttrPlatform : string := "platform".
Definition AttrRegion : string := "region".
Definition AttrIndexerPrivacy : string := "indexer_privacy".

Definition attributeKinds : gmap string string := list_to_map [
  (AttrResolution, KindInt); (AttrSource, KindText); (AttrVideoCodec, KindText);
  (AttrAudioCodec, KindText); (AttrAudioChannels, KindInt); (AttrHDR, KindFlag);
  (AttrSizeBytes, KindInt); (AttrLanguage, KindText); (AttrStore, KindText);
  (AttrDRMFree, KindFlag); (AttrPlatform, KindText); (AttrRegion, KindText);
  (AttrIndexerPrivacy, KindText)].

Definition KindOf (a : string) : option string := attributeKinds !! a.

(** Every attribute, sorted by name. *)
Definition Attributes : list string := sort_by str_lt (map_to_list attributeKinds).*1.

Definition OpEq : string := "eq".
Definition OpNeq : string := "neq".
Definition OpGTE : string := "gte".
Definition OpLTE : string := "lte".
Definition OpIn : string := "in".
Definition OpNotIn : string := "nin".

(** A kind that is not in the Go map has no operators. *)
Definition opsByKind (k : string) : list string :=
  if decide (k = KindInt) then [OpEq; OpNeq; OpGTE; OpLTE]
  else if decide (k = KindText) then [OpEq; OpNeq; OpIn; OpNotIn]
  else if decide (k = KindFlag) then [OpEq; OpNeq]
  else [].

Definition opAllowed (k op : string) : bool := bool_decide (op ∈ opsByKind k).

Definition normaliseText (s : string) : string := ToLower (TrimSpace s).

(** ** Operands (value.go) *)

(** [Texts] tells a nil slice ([None]) from an empty one. *)
Record Value := mkValue {
  Kind : string;
  Num : Z;
  Text : string;
  Texts : option (list string);
  Flag : bool;
  Derived : bool;
  is_set : bool;
}.

Definition zeroValue : Value := mkValue "" 0 "" None false false false.

Definition AsDerived (v : Value) : Value :=
  mkValue (Kind v) (Num v) (Text v) (Texts v) (Flag v) true (is_set v).

Definition NumValue (n : Z) : Value := mkValue KindInt n "" None false false true.
Definition TextValue (s : string) : Value :=
  mkValue KindText 0 (normaliseText s) None false false true.
Definition TextsValue (ss : list string) : Value :=
  mkValue KindText 0 "" (Some (normaliseText <$> ss)) false false true.
Definition FlagValue (b : bool) : Value := mkValue KindFlag 0 "" None b false true.

Definition isSetValue (v : Value) : bool := bool_decide (Texts v ≠ None).

Definition Value_String (v : Value) : string :=
  if negb (is_set v) then "(none)"
  else if decide (Kind v = KindInt) then FormatInt (Num v)
  else if decide (Kind v = KindFlag) then FormatBool (Flag v)
  else if decide (Kind v = KindText) then
    match Texts v with
    | Some ts => ("[" +:+ Join ts ", " +:+ "]")%string
    | None => Text v
    end
  else "(unknown)".

(** ** Profiles (profile.go) *)

Inductive Section' := SectionAccept | SectionPrefer | SectionTerminal.

#[export] Instance Section'_eq_dec : EqDecision Section'.
Proof. solve_decision. Defined.

Definition Section_String (s : Section') : string :=
  match s with
  | SectionAccept => "accept" | SectionPrefer => "prefer" | SectionTerminal => "terminal"
  end.

Definition Sections : list Section' := [SectionAccept; SectionPrefer; SectionTerminal].

Record Rule := mkRule { Attribute : string; Op : string; Operand : Value; Weight : Z }.

Record Profile := mkProfile {
  ProfileID : string;
  Name : string;
  Description : string;
  ContentTypes : list string;
  Accept : list Rule;
  Prefer : list Rule;
  Terminal : list Rule;
}.

Definition HasTerminal (p : Profile) : bool := (0 <? length (Terminal p))%nat.

Definition Rules (p : Profile) : list (Section' * Rule) :=
  (pair SectionAccept <$> Accept p) ++ (pair SectionPrefer <$> Prefer p)
    ++ (pair SectionTerminal <$> Terminal p).

Definition maxRules : nat := 64.

(** Why a rule is refused, one constructor per return of [validateRule]. *)
Inductive RuleError :=
  | NoSuchAttribute
  | NeedsComparison
  | OpNotAllowed
  | NeedsValue
  | WrongKind
  | NeedsSetOperand
  | NeedsSingleOperand
  | EmptySet
  | ZeroPreference
  | WeightOnGate
  | RegionGate.

#[export] Instance RuleError_eq_dec : EqDecision RuleError.
Proof. solve_decision. Defined.

Definition normaliseRule (r : Rule) : Rule :=
  mkRule (normaliseText (Attribute r)) (normaliseText (Op r)) (Operand r) (Weight r).

Definition isSetOp (op : string) : bool := bool_decide (op = OpIn ∨ op = OpNotIn).

(** The checks after the attribute and the operator were normalised in place. *)
Definition checkRule (section : Section') (r : Rule) : option RuleError :=
  match KindOf (Attribute r) with
  | None => Some NoSuchAttribute
  | Some kind =>
      if decide (Op r = "") then Some NeedsComparison
      else if negb (opAllowed kind (Op r)) then Some OpNotAllowed
      else if negb (is_set (Operand r)) then Some NeedsValue
      else if decide (Kind (Operand r) ≠ kind) then Some WrongKind
      else if isSetOp (Op r) && negb (isSetValue (Operand r)) then Some NeedsSetOperand
      else if negb (isSetOp (Op r)) && isSetValue (Operand r) then Some NeedsSingleOperand
      else if isSetOp (Op r) && bool_decide (default [] (Texts (Operand r)) = []) then Some EmptySet
      else match section with
           | SectionPrefer => if decide (Weight r = 0) then Some ZeroPreference else None
           | _ => if decide (Weight r ≠ 0) then Some WeightOnGate
                  else if decide (Attribute r = AttrRegion) then Some RegionGate
                  else None
           end
  end.

Definition validateRule (section : Section') (r : Rule) : Rule * option RuleError :=
  let r' := normaliseRule r in (r', checkRule section r').

Inductive ProfileError :=
  | NoName
  | TooManyRules (s : Section')
  | BadRule (s : Section') (i : nat) (e : RuleError)
  | DuplicateRule (s : Section') (attribute op : string).

Definition ruleKey (r : Rule) : string := (Attribute r +:+ "/" +:+ Op r)%string.

(** The loop over one section's rules: the rules before an error are normalised
    in place, the failing one too, and the rest are left as they came. *)
Fixpoint validateRules (section : Section') (i : nat) (seen : gset string)
    (rules : list Rule) : list Rule * option ProfileError :=
  match rules with
  | [] => ([], None)
  | r :: rest =>
      match validateRule section r with
      | (r', Some e) => (r' :: rest, Some (BadRule section (S i) e))
      | (r', None) =>
          if decide (ruleKey r' ∈ seen)
          then (r' :: rest, Some (DuplicateRule section (Attribute r') (Op r')))
          else let (rest', e) := validateRules section (S i) ({[ruleKey r']} ∪ seen) rest in
               (r' :: rest', e)
      end
  end.

Definition section_of (p : Profile) (s : Section') : list Rule :=
  match s with
  | SectionAccept => Accept p | SectionPrefer => Prefer p | SectionTerminal => Terminal p
  end.

Definition set_section (p : Profile) (s : Section') (rs : list Rule) : Profile :=
  match s with
  | SectionAccept => mkProfile (ProfileID p) (Name p) (Description p) (ContentTypes p) rs (Prefer p) (Terminal p)
  | SectionPrefer => mkProfile (ProfileID p) (Name p) (Description p) (ContentTypes p) (Accept p) rs (Terminal p)
  | SectionTerminal => mkProfile (ProfileID p) (Name p) (Description p) (ContentTypes p) (Accept p) (Prefer p) rs
  end.

(** One turn of the loop over [Sections()]. *)
Definition validateSection (acc : Profile * option ProfileError) (s : Section') :
    Profile * option ProfileError :=
  match acc with
  | (p, Some e) => (p, Some e)
  | (p, None) =>
      if (maxRules <? length (section_of p s))%nat then (p, Some (TooManyRules s))
      else let (rs, e) := validateRules s 0 ∅ (section_of p s) in (set_section p s rs, e)
  end.

Definition Validate (p : Profile) : Profile * option ProfileError :=
  if decide (TrimSpace (Name p) = "") then (p, Some NoName)
  else foldl validateSection
    (mkProfile (ProfileID p) (TrimSpace (Name p)) (TrimSpace (Description p))
       (ContentTypes p) (Accept p) (Prefer p) (Terminal p), None) Sections.

(** ** Language defaults (language.go) *)

Record LanguageDefault := mkLang {
  LangPrefer : string; LangWeight : Z; Foreign : list string; Penalty : Z }.

Definition Enabled (d : LanguageDefault) : bool := bool_decide (LangPrefer d ≠ "").

Definition PreferRules (d : LanguageDefault) : list Rule :=
  if negb (Enabled d) then []
  else (if 0 <? LangWeight d
        then [mkRule AttrLanguage OpEq (TextValue (LangPrefer d)) (LangWeight d)] else [])
    ++ (if bool_decide (Foreign d ≠ []) && (0 <? Penalty d)
        then [mkRule AttrLanguage OpIn (TextsValue (Foreign d)) (- Penalty d)] else []).

Definition mentionsLanguage (p : Profile) : bool :=
  existsb (λ sr, bool_decide (Attribute sr.2 = AttrLanguage)) (Rules p).

Definition WithLanguageDefault (p : Profile) (d : LanguageDefault) : Profile :=
  if negb (Enabled d) || mentionsLanguage p then p
  else match PreferRules d with
       | [] => p
       | add => set_section p SectionPrefer (Prefer p ++ add)
       end.

Definition isVideoProfile (p : Profile) : bool :=
  existsb (λ sr, bool_decide (Attribute sr.2 ∈
    [AttrResolution; AttrVideoCodec; AttrHDR; AttrAudioCodec; AttrAudioChannels])) (Rules p).

Definition WithLanguageDefaults (profiles : list Profile) (d : LanguageDefault) : list Profile :=
  if negb (Enabled d) then profiles
  else (λ p, if isVideoProfile p then WithLanguageDefault p d else p) <$> profiles.

(** ** Resolution classes (resolution.go) *)

Definition ResolutionClass (width height : Z) : option Z :=
  if (width <=? 0) && (height <=? 0) then None
  else if (3840 <=? width) || (2160 <=? height) then Some 2160
  else if (2560 <=? width) || (1440 <=? height) then Some 1440
  else if (1920 <=? width) || (1080 <=? height) then Some 1080
  else if (1280 <=? width) || (720 <=? height) then Some 720
  else if height <=? 0 then None else Some height.

(** ** What a valid profile is *)

(** A rule that says something: a known attribute, a comparison its kind has, an
    operand of that kind and of the operator's shape, and a weight exactly where
    the section scores. *)
Record rule_ok (section : Section') (r : Rule) : Prop := {
  ok_attribute : normaliseText (Attribute r) = Attribute r;
  ok_op : normaliseText (Op r) = Op r;
  ok_kind : KindOf (Attribute r) = Some (Kind (Operand r));
  ok_allowed : Op r ∈ opsByKind (Kind (Operand r));
  ok_operand : is_set (Operand r) = true;
  ok_shape : match Texts (Operand r) with
             | Some ts => (Op r = OpIn ∨ Op r = OpNotIn) ∧ ts ≠ []
             | None => Op r ≠ OpIn ∧ Op r ≠ OpNotIn
             end;
  ok_weight : if decide (section = SectionPrefer) then Weight r ≠ 0
              else Weight r = 0 ∧ Attribute r ≠ AttrRegion;
}.

Definition rules_ok (section : Section') (rs : list Rule) : Prop :=
  (length rs ≤ maxRules)%nat ∧ Forall (rule_ok section) rs ∧
  NoDup ((λ r, (Attribute r, Op r)) <$> rs).

Record profile_ok (p : Profile) : Prop := {
  ok_name : Name p ≠ "";
  ok_trimmed : TrimSpace (Name p) = Name p ∧ TrimSpace (Description p) = Description p;
  ok_sections s : rules_ok s (section_of p s);
}.

(** What validation leaves behind when it accepts. *)
Definition normaliseProfile (p : Profile) : Profile :=
  mkProfile (ProfileID p) (TrimSpace (Name p)) (TrimSpace (Description p)) (ContentTypes p)
    (normaliseRule <$> Accept p) (normaliseRule <$> Prefer p) (normaliseRule <$> Terminal p).

Lemma normaliseText_idem s : normaliseText (normaliseText s) = normaliseText s.
Proof. apply lower_trim_idem. Qed.

Lemma opsByKind_nonempty k : "" ∉ opsByKind k.
Proof. unfold opsByKind. repeat case_decide; decide_vm. Qed.

Lemma isSetOp_spec op : isSetOp op = true ↔ op = OpIn ∨ op = OpNotIn.
Proof. unfold isSetOp. by rewrite bool_decide_eq_true. Qed.

Lemma isSetValue_spec v : isSetValue v = true ↔ is_Some (Texts v).
Proof. unfold isSetValue. by rewrite bool_decide_eq_true, not_eq_None_Some. Qed.

Lemma checkRule_ok section r :
  normaliseText (Attribute r) = Attribute r → normaliseText (Op r) = Op r →
  checkRule section r = None ↔ rule_ok section r.
Proof.
  intros Ha Ho. unfold checkRule. split.
  - destruct (KindOf (Attribute r)) as [kind|] eqn:Hk; [|done].
    destruct (decide (Op r = "")) as [|Hop]; [done|].
    destruct (opAllowed kind (Op r)) eqn:Hal; [simpl|done].
    destruct (is_set (Operand r)) eqn:Hset; [simpl|done].
    destruct (decide (Kind (Operand r) ≠ kind)) as [|Hkind%dec_stable]; [done|].
    unfold opAllowed in Hal. apply bool_decide_eq_true in Hal. subst kind.
    unfold isSetValue. destruct (isSetOp (Op r)) eqn:Hso, (Texts (Operand r)) as [ts|] eqn:Ht;
      simpl; try done.
    + apply isSetOp_spec in Hso. destruct ts as [|t ts]; [done|]. simpl.
      destruct section; repeat case_decide; try done; intros _;
        (split; [done|done|done|done|done|by rewrite Ht|]);
        rewrite ?decide_False, ?decide_True by done; try tauto; split; try done; by apply dec_stable.
    + assert (¬ (Op r = OpIn ∨ Op r = OpNotIn)) as Hns.
      { rewrite <-isSetOp_spec. congruence. }
      destruct section; repeat case_decide; try done; intros _;
        (split; [done|done|done|done|done|rewrite Ht; tauto|]);
        rewrite ?decide_False, ?decide_True by done; try tauto; split; try done; by apply dec_stable.
  - intros [_ _ Hk Hal Hset Hshape Hw]. rewrite Hk.
    rewrite decide_False by (intros He; rewrite He in Hal; by apply opsByKind_nonempty in Hal).
    unfold opAllowed. rewrite bool_decide_eq_true_2 by done. rewrite Hset. simpl.
    rewrite decide_False by naive_solver.
    unfold isSetValue. destruct (Texts (Operand r)) as [ts|]; simpl.
    + destruct Hshape as [Hop Hts]. rewrite (proj2 (isSetOp_spec _) Hop). simpl.
      rewrite bool_decide_eq_false_2 by done.
      destruct section; repeat case_decide; naive_solver.
    + assert (isSetOp (Op r) = false) as ->.
      { apply not_true_iff_false. rewrite isSetOp_spec. tauto. }
      simpl. destruct section; repeat case_decide; naive_solver.
Qed.

Lemma ruleKey_inj s1 s2 r1 r2 :
  rule_ok s1 r1 → rule_ok s2 r2 → ruleKey r1 = ruleKey r2 →
  (Attribute r1, Op r1) = (Attribute r2, Op r2).
Proof.
  assert (∀ s r, rule_ok s r →
    Attribute r ∈ Attributes ∧ Op r ∈ [OpEq; OpNeq; OpGTE; OpLTE; OpIn; OpNotIn]) as Hin.
  { intros s r Hr. pose proof (ok_kind _ _ Hr) as Hk. pose proof (ok_allowed _ _ Hr) as Ho. split.
    - unfold Attributes. rewrite elem_of_sort_by. unfold KindOf in Hk.
      apply list_elem_of_fmap. exists (Attribute r, Kind (Operand r)). split; [done|].
      by apply elem_of_map_to_list.
    - unfold opsByKind in Ho. repeat case_decide; set_solver. }
  intros H1 H2. destruct (Hin _ _ H1) as [Ha1 Ho1], (Hin _ _ H2) as [Ha2 Ho2].
  assert (Forall (λ a1, Forall (λ o1, Forall (λ a2, Forall (λ o2,
      (a1 +:+ "/" +:+ o1 = a2 +:+ "/" +:+ o2)%string → (a1, o1) = (a2, o2))
      [OpEq; OpNeq; OpGTE; OpLTE; OpIn; OpNotIn]) Attributes)
      [OpEq; OpNeq; OpGTE; OpLTE; OpIn; OpNotIn]) Attributes) as Hall by decide_vm.
  rewrite !Forall_forall in Hall. specialize (Hall _ Ha1).
  rewrite !Forall_forall in Hall. specialize (Hall _ Ho1).
  rewrite !Forall_forall in Hall. specialize (Hall _ Ha2).
  rewrite !Forall_forall in Hall. apply (Hall _ Ho2).
Qed.

Lemma normaliseRule_fixed r :
  normaliseText (Attribute (normaliseRule r)) = Attribute (normaliseRule r) ∧
  normaliseText (Op (normaliseRule r)) = Op (normaliseRule r).
Proof. simpl. by rewrite !normaliseText_idem. Qed.

Lemma normaliseRule_ok section r : rule_ok section r → normaliseRule r = r.
Proof. intros [Ha Ho _ _ _ _ _]. destruct r. unfold normaliseRule. simpl in *. by rewrite Ha, Ho. Qed.

Lemma validateRules_spec section i seen rs rs' :
  validateRules section i seen rs = (rs', None) ↔
    rs' = normaliseRule <$> rs ∧ Forall (rule_ok section) rs' ∧
    NoDup (ruleKey <$> rs') ∧ ∀ r, r ∈ rs' → ruleKey r ∉ seen.
Proof.
  revert i seen rs'. induction rs as [|r rs IH]; intros i seen rs'; simpl.
  { split; [|by intros [-> _]]. intros [= <-]. split_and!; [done|constructor|constructor|set_solver]. }
  destruct (normaliseRule_fixed r) as [Hna Hno].
  destruct (checkRule section (normaliseRule r)) as [e|] eqn:Hc.
  { split; [done|]. intros (-> & Hf & _). apply Forall_cons in Hf as [Hr _].
    apply checkRule_ok in Hr; [congruence|done|done]. }
  apply checkRule_ok in Hc; [|done..].
  destruct (decide (ruleKey (normaliseRule r) ∈ seen)) as [Hs|Hs].
  { split; [done|]. intros (-> & _ & _ & Hn). exfalso. apply (Hn (normaliseRule r)); [left|done]. }
  specialize (IH (S i) ({[ruleKey (normaliseRule r)]} ∪ seen)).
  destruct (validateRules section (S i) ({[ruleKey (normaliseRule r)]} ∪ seen) rs) as [rest e].
  split.
  - intros Heq. injection Heq as <- ->. destruct (proj1 (IH rest) eq_refl) as (-> & Hf & Hnd & Hn).
    split_and!; [done|by constructor| |].
    + rewrite fmap_cons. constructor; [|done]. intros (r' & Hk & Hr')%list_elem_of_fmap.
      apply (Hn r' Hr'). set_solver.
    + intros r' [->|Hr']%elem_of_cons; [done|]. apply Hn in Hr'. set_solver.
  - intros (-> & Hf & Hnd & Hn). rewrite !fmap_cons in Hnd.
    apply Forall_cons in Hf as [_ Hf]. apply NoDup_cons in Hnd as [Hk Hnd].
    assert ((rest, e) = (normaliseRule <$> rs, None)) as Heq; [|by injection Heq as -> ->].
    apply IH. split_and!; [done..|]. intros r' Hr' [Hkr|Hin]%elem_of_union.
    + apply Hk. apply elem_of_singleton in Hkr. rewrite <-Hkr. by apply list_elem_of_fmap_2.
    + apply (Hn r'); [by right|done].
Qed.

Lemma NoDup_ruleKey section rs :
  Forall (rule_ok section) rs →
  NoDup (ruleKey <$> rs) ↔ NoDup ((λ r, (Attribute r, Op r)) <$> rs).
Proof.
  induction 1 as [|r rs Hr Hrs IH]; simpl; [split; constructor|].
  rewrite !NoDup_cons, IH. rewrite Forall_forall in Hrs.
  split; intros [Hn Hnd]; (split; [|done]); intros (r' & Hk & Hr')%list_elem_of_fmap; apply Hn.
  - apply list_elem_of_fmap. exists r'. split; [|done].
    unfold ruleKey. by injection Hk as -> ->.
  - apply list_elem_of_fmap. exists r'. split; [|done]. by eapply ruleKey_inj; eauto.
Qed.

Lemma section_of_set_eq p s rs : section_of (set_section p s rs) s = rs.
Proof. by destruct s. Qed.

Lemma section_of_set_ne p s s' rs : s ≠ s' → section_of (set_section p s rs) s' = section_of p s'.
Proof. by destruct s, s'. Qed.

Lemma validateSection_spec p s p' :
  validateSection (p, None) s = (p', None) ↔
    p' = set_section p s (normaliseRule <$> section_of p s) ∧ rules_ok s (section_of p' s).
Proof.
  unfold validateSection, rules_ok. destruct (Nat.ltb_spec maxRules (length (section_of p s))).
  { split; [done|]. intros [-> [Hl _]]. rewrite section_of_set_eq, length_fmap in Hl. lia. }
  destruct (validateRules s 0 ∅ (section_of p s)) as [rs e] eqn:E. split.
  - intros Heq. injection Heq as <- ->.
    apply validateRules_spec in E as (-> & Hf & Hnd & _).
    rewrite section_of_set_eq. split_and!; [done|by rewrite length_fmap|done|].
    by apply (NoDup_ruleKey s).
  - intros [-> (_ & Hf & Hnd)]. rewrite section_of_set_eq in *.
    assert ((rs, e) = (normaliseRule <$> section_of p s, None)) as Heq; [|by injection Heq as -> ->].
    rewrite <-E. apply validateRules_spec. split_and!; [done|done| |set_solver].
    by apply (NoDup_ruleKey s).
Qed.

Lemma validateSection_error acc e s : validateSection (acc, Some e) s = (acc, Some e).
Proof. done. Qed.

Lemma Validate_iff (p p' : Profile) :
  Validate p = (p', None) ↔ p' = normaliseProfile p ∧ profile_ok p'.
Proof.
  unfold Validate. destruct (decide (TrimSpace (Name p) = "")) as [Hn|Hn].
  { split; [done|]. by intros [-> [Hname _ _]]. }
  unfold Sections. cbn [foldl].
  set (p0 := mkProfile _ _ _ _ _ _ _).
  destruct (validateSection (p0, None) SectionAccept) as [p1 [e1|]] eqn:E1.
  { rewrite ?validateSection_error. split; [done|]. intros [-> Hok]. exfalso.
    assert (validateSection (p0, None) SectionAccept =
      (set_section p0 SectionAccept (normaliseRule <$> Accept p), None)); [|congruence].
    apply validateSection_spec. split; [done|]. apply (ok_sections _ Hok SectionAccept). }
  apply validateSection_spec in E1 as [-> Hs1].
  destruct (validateSection (set_section p0 _ _, None) SectionPrefer) as [p2 [e2|]] eqn:E2.
  { rewrite ?validateSection_error. split; [done|]. intros [-> Hok]. exfalso.
    assert (validateSection (set_section p0 SectionAccept (normaliseRule <$> Accept p), None)
      SectionPrefer = (set_section (set_section p0 SectionAccept (normaliseRule <$> Accept p))
        SectionPrefer (normaliseRule <$> Prefer p), None)); [|simpl in *; congruence].
    apply validateSection_spec. split; [done|]. apply (ok_sections _ Hok SectionPrefer). }
  apply validateSection_spec in E2 as [-> Hs2]. rewrite validateSection_spec.
  split.
  - intros [-> Hs3]. split; [done|]. split; [done|by simpl; rewrite !TrimSpace_idem|].
    intros []; [exact Hs1|exact Hs2|exact Hs3].
  - intros [-> Hok]. split; [done|]. apply (ok_sections _ Hok SectionTerminal).
Qed.

(** What validation accepts, and what it leaves: [Validate] accepts a profile
    exactly when, with its texts trimmed and its attributes and operators
    normalised, it is well formed (a name, at most 64 rules a section, no
    (attribute, operator) named twice in one, every rule a known attribute with
    an operator and an operand of its kind, a weight exactly on preferences, no
    region gate), and what it leaves behind is that profile. *)
Theorem policy_validate_spec (p p' : Profile) :
  Validate p = (p', None) ↔ p' = normaliseProfile p ∧ profile_ok p'.
Proof. apply Validate_iff. Qed.
