(* ===== verification/PolicyDefaults.v ===== *)
(** * PolicyDefaults: the seeded profiles and the household's language

    Models internal/domain/policy/defaults.go, the values a fresh instance starts
    with, and proves that each of them is one validation accepts, and that the
    language default of language.go keeps it so. *)

From S2P Require Import Prelude GoText Policy.
#[local] Open Scope Z_scope.

(** A rule outside [prefer] carries the zero weight. *)
Definition gate (a op : string) (v : Value) : Rule := mkRule a op v 0.

Definition living_room : Profile := mkProfile "" "living-room"
  "A television. Accepts 1080p and up, prefers modern codecs and HDR, and is finished at a 2160p remux."
  []
  [gate AttrResolution OpGTE (NumValue 1080);
   gate AttrSource OpNotIn (TextsValue ["cam"; "telesync"])]
  [mkRule AttrVideoCodec OpEq (TextValue "hevc") 20;
   mkRule AttrHDR OpEq (FlagValue true) 10;
   mkRule AttrAudioChannels OpGTE (NumValue 6) 5;
   mkRule AttrSizeBytes OpGTE (NumValue (Z.shiftl 64 30)) (-15)]
  [gate AttrResolution OpGTE (NumValue 2160);
   gate AttrSource OpEq (TextValue "remux")].

Definition everyday : Profile := mkProfile "" "everyday"
  "A laptop or a tablet. Accepts 720p and up and is finished at 1080p — smaller files, reached sooner."
  []
  [gate AttrResolution OpGTE (NumValue 720);
   gate AttrSource OpNotIn (TextsValue ["cam"; "telesync"])]
  [mkRule AttrVideoCodec OpEq (TextValue "hevc") 15;
   mkRule AttrSizeBytes OpLTE (NumValue (Z.shiftl 8 30)) 10]
  [gate AttrResolution OpGTE (NumValue 1080)].

Definition everyday_indexed : Profile := mkProfile "" "everyday-indexed"
  "Starting profile for searched video. Accepts 720p and up, penalises identified cam sources, and stops at 1080p. Unknown source does not block an otherwise acceptable release."
  ["movie"; "series"; "video"]
  [gate AttrResolution OpGTE (NumValue 720)]
  [mkRule AttrSource OpIn (TextsValue ["cam"; "telesync"; "workprint"; "screener"]) (-200)]
  [gate AttrResolution OpGTE (NumValue 1080)].

Definition music_indexed : Profile := mkProfile "" "music-indexed"
  "Starting profile for searched music. Accepts a nonempty release and stops once held; bitrate and format are not judged yet."
  ["music"]
  [gate AttrSizeBytes OpGTE (NumValue 1)] [] [gate AttrSizeBytes OpGTE (NumValue 1)].

Definition book_indexed : Profile := mkProfile "" "book-indexed"
  "Starting profile for searched books. Accepts a nonempty release and stops once held; format and edition are not judged yet."
  ["book"]
  [gate AttrSizeBytes OpGTE (NumValue 1)] [] [gate AttrSizeBytes OpGTE (NumValue 1)].

Definition rom_indexed : Profile := mkProfile "" "rom-indexed"
  "Starting profile for searched ROMs. Accepts a nonempty release for the wanted platform, prefers USA, then World, then Europe, and stops once held."
  ["rom"]
  [gate AttrSizeBytes OpGTE (NumValue 1)]
  [mkRule AttrRegion OpEq (TextValue "usa") 20;
   mkRule AttrRegion OpIn (TextsValue ["usa"; "world"]) 10;
   mkRule AttrRegion OpNeq (TextValue "usa") 10;
   mkRule AttrRegion OpNotIn (TextsValue ["usa"; "world"; "europe"]) (-10)]
  [gate AttrSizeBytes OpGTE (NumValue 1)].

Definition archival : Profile := mkProfile "" "archival"
  "Keep the best there is. Never terminal: there is no condition under which this profile stops looking for something better."
  []
  [gate AttrSource OpNotIn (TextsValue ["cam"; "telesync"; "workprint"])]
  [mkRule AttrSource OpEq (TextValue "remux") 40;
   mkRule AttrResolution OpGTE (NumValue 2160) 30;
   mkRule AttrHDR OpEq (FlagValue true) 10]
  [].

Definition published : Profile := mkProfile "" "published"
  "Content taken directly from the source that publishes it — a web article, a podcast episode. The published copy is definitive: accept it and stop looking."
  []
  [gate AttrSource OpNotIn (TextsValue ["cam"; "telesync"; "workprint"])] []
  [gate AttrSizeBytes OpGTE (NumValue 1)].

Definition owned : Profile := mkProfile "" "owned"
  "A game copied from a store you own it on. Accepts a copy whose store is known, prefers a DRM-free one, and stops once a DRM-free copy is held; a DRM-bound copy (a Steam depot) is kept but stays open to one."
  ["game"]
  [gate AttrStore OpIn (TextsValue ["gog"; "steam"; "epic"; "itch"; "humble"])]
  [mkRule AttrDRMFree OpEq (FlagValue true) 50]
  [gate AttrDRMFree OpEq (FlagValue true)].

Definition subtitle : Profile := mkProfile "" "subtitle"
  "A fetched subtitle. Accepts any subtitle bytes and stops looking: the provider chose the file, so the held caption is definitive."
  []
  [gate AttrSizeBytes OpGTE (NumValue 1)] [] [gate AttrSizeBytes OpGTE (NumValue 1)].

Definition Defaults : list Profile :=
  [living_room; everyday; everyday_indexed; music_indexed; book_indexed; rom_indexed;
   archival; published; owned; subtitle].

(** The seed is valid: validation accepts every seeded profile and changes
    none of them, their names are distinct (seeding converges on the name), and
    [archival] alone can never be finished. *)
Theorem defaults_validate :
  Forall (λ p, Validate p = (p, None)) Defaults ∧ NoDup (Name <$> Defaults) ∧
  filter (λ p, HasTerminal p = false) Defaults = [archival].
Proof.
  split_and!; [repeat constructor; vm_compute; reflexivity|decide_vm|vm_compute; reflexivity].
Qed.

(** ** The language default *)

Lemma wanted_ok s w : w ≠ 0 → rule_ok SectionPrefer (mkRule AttrLanguage OpEq (TextValue s) w).
Proof. intros Hw. split; try done. simpl. left. Qed.

Lemma foreign_ok ss w :
  ss ≠ [] → w ≠ 0 → rule_ok SectionPrefer (mkRule AttrLanguage OpIn (TextsValue ss) w).
Proof.
  intros Hs Hw. split; try done.
  - simpl. right. right. left.
  - simpl. split; [by left|]. by destruct ss.
Qed.

Lemma PreferRules_ok d :
  Forall (rule_ok SectionPrefer) (PreferRules d) ∧ (length (PreferRules d) ≤ 2)%nat ∧
  NoDup ((λ r, (Attribute r, Op r)) <$> PreferRules d) ∧
  Forall (λ r, Attribute r = AttrLanguage) (PreferRules d).
Proof.
  unfold PreferRules. destruct (Enabled d); [simpl|by repeat constructor].
  assert (NoDup [(AttrLanguage, OpEq); (AttrLanguage, OpIn)]) as Hnd by decide_vm.
  destruct (Z.ltb_spec 0 (LangWeight d)) as [Hw|Hw];
    destruct (bool_decide_reflect (Foreign d ≠ [])) as [Hf|Hf];
    destruct (Z.ltb_spec 0 (Penalty d)) as [Hp|Hp]; simpl;
    (split_and!; [|lia|first [exact Hnd|apply NoDup_singleton|constructor]|]);
    repeat first [apply Forall_cons_2|apply Forall_nil_2]; try done;
    first [apply wanted_ok; lia|apply foreign_ok; [done|lia]].
Qed.

Lemma mentionsLanguage_false p :
  mentionsLanguage p = false → Forall (λ r, Attribute r ≠ AttrLanguage) (Prefer p).
Proof.
  unfold mentionsLanguage, Rules. rewrite !existsb_app, !orb_false_iff. intros (_ & H & _).
  apply Forall_forall. intros r Hr Ha. apply not_true_iff_false in H. apply H.
  apply existsb_exists. exists (SectionPrefer, r). split; [|by apply bool_decide_eq_true].
  apply list_elem_of_In. by apply list_elem_of_fmap_2.
Qed.

Lemma language_default_ok (p : Profile) (d : LanguageDefault) :
  Validate p = (p, None) → (length (Prefer p) + 2 ≤ maxRules)%nat →
  let q := WithLanguageDefault p d in
  Validate q = (q, None) ∧ Accept q = Accept p ∧ Terminal q = Terminal p ∧
  (∃ add, Prefer q = Prefer p ++ add) ∧
  (mentionsLanguage p = true → q = p).
Proof.
  intros Hv Hlen. simpl. unfold WithLanguageDefault.
  destruct (Enabled d) eqn:He, (mentionsLanguage p) eqn:Hm; simpl;
    try (split_and!; [done|done|done|exists []; by rewrite app_nil_r|done]).
  destruct (PreferRules_ok d) as (Hr & Hl & Hnd & Hlang).
  destruct (PreferRules d) as [|r add];
    [split_and!; [done|done|done|exists []; by rewrite app_nil_r|done]|].
  split_and!; [|done|done|by eexists|done].
  apply mentionsLanguage_false in Hm. apply Validate_iff in Hv as [Hp Hok].
  apply Validate_iff. split.
  - destruct p as [pid nm ds ct acc pre ter]. unfold normaliseProfile, set_section in *. simpl in *.
    injection Hp as Hn Hd Ha Hpr Ht. rewrite <-Hn, <-Hd, <-Ha, <-Ht. f_equal.
    rewrite fmap_app, <-Hpr. f_equal. clear -Hr. induction Hr as [|x l Hx Hl IH]; [done|].
    rewrite fmap_cons, <-IH. by erewrite normaliseRule_ok.
  - destruct Hok as [Hn Ht Hs]. split; [done|done|]. intros s.
    destruct s; [apply (Hs SectionAccept)| |apply (Hs SectionTerminal)].
    destruct (Hs SectionPrefer) as (_ & Hf & Hnd'). simpl section_of in *.
    split_and!; [rewrite length_app; simpl in *; lia|by apply Forall_app|].
    rewrite fmap_app. apply NoDup_app. split_and!; [done| |done].
    intros x (r1 & -> & H1)%list_elem_of_fmap (r2 & Heq & H2)%list_elem_of_fmap.
    rewrite Forall_forall in Hm, Hlang. apply (Hm _ H1). injection Heq as -> _. by apply Hlang.
Qed.

Lemma seed_ok :
  Forall (λ p, Validate p = (p, None) ∧ (length (Prefer p) + 2 ≤ maxRules)%nat) Defaults.
Proof. repeat constructor; solve [vm_compute; reflexivity | vm_compute; lia]. Qed.

Lemma seed_steered_ok d :
  Forall (λ r, Validate r = (r, None)) (WithLanguageDefaults Defaults d).
Proof.
  unfold WithLanguageDefaults. destruct (Enabled d); simpl negb; cbv iota.
  - apply Forall_fmap. eapply Forall_impl; [exact seed_ok|]. intros p [Hv Hl]. simpl.
    destruct (isVideoProfile p); [|done]. by apply language_default_ok.
  - eapply Forall_impl; [exact seed_ok|]. by intros p [Hv _].
Qed.

(** A household's language steers and never gates: applied to a profile that
    validates and leaves room for two more preferences, the default gives a
    profile that validates, with the same gates, the same stop conditions and the
    profile's own preferences first; and it defers to a profile that already
    mentions language.  In particular the whole seed, steered by any default, still
    validates. *)
Theorem language_default_preserves (p : Profile) (d : LanguageDefault) :
  Validate p = (p, None) → (length (Prefer p) + 2 ≤ maxRules)%nat →
  let q := WithLanguageDefault p d in
  Validate q = (q, None) ∧ Accept q = Accept p ∧ Terminal q = Terminal p ∧
  (∃ add, Prefer q = Prefer p ++ add) ∧
  (mentionsLanguage p = true → q = p) ∧
  Forall (λ r, Validate r = (r, None)) (WithLanguageDefaults Defaults d).
Proof.
  intros Hv Hlen. destruct (language_default_ok p d Hv Hlen) as (? & ? & ? & ? & ?).
  split_and!; try done. apply seed_steered_ok.
Qed.

Lemma language_default_preserves_witness :
  let d := mkLang "en" 20 ["de"; "fr"] 100 in
  let q := WithLanguageDefault everyday d in
  Validate q = (q, None) ∧ length (Prefer q) = 4%nat.
Proof.
  split; [|vm_compute; reflexivity].
  apply (language_default_preserves everyday (mkLang "en" 20 ["de"; "fr"] 100));
    [vm_compute; reflexivity|vm_compute; lia].
Defined.
