(* ===== verification/Candidate.v ===== *)
(** * Candidate: scoring releases against a profile

    Models internal/domain/acquisition/candidate.go and match.go: the evaluation of
    one release with a reason per rule, the total order of a set of them, the
    choice of the best, and the season and platform gates that reject a release
    before it is scored.  A Go [int] is 64 bits wide: a sum of weights wraps. *)

From S2P Require Import Prelude GoText Policy.
#[local] Open Scope Z_scope.

(** ** Data *)

(** A missing key is "could not be determined". *)
Abbreviation Attributes := (gmap string Value) (only parsing).

Record ReleaseCandidate := mkCandidate {
  CandID : string;
  Title : string;
  Provider : string;
  CandAttributes : Attributes;
  Source : string;
}.

Inductive Result :=
  | ResultPass | ResultFail | ResultBonus | ResultPenalty | ResultMiss | ResultUndetermined.

#[export] Instance Result_eq_dec : EqDecision Result.
Proof. solve_decision. Defined.

Record Reason := mkReason {
  ReasonRule : string;
  ReasonSection : string;
  ReasonResult : Result;
  ReasonScore : Z;
  Detail : string;
}.

Record Evaluation := mkEvaluation {
  CandidateID : string;
  Accepted : bool;
  Score : Z;
  EvalTerminal : bool;
  Reasons : list Reason;
}.

Definition SectionMatch : string := "match".

(** The first reason of a rule, and the gates that rejected. *)
Definition Evaluation_Reason (e : Evaluation) (rule : string) : option Reason :=
  head (filter (λ r, ReasonRule r = rule) (Reasons e)).

Definition RejectedBy (e : Evaluation) : list Reason :=
  filter (λ r, ReasonResult r = ResultFail ∧
    (ReasonSection r = Section_String SectionAccept ∨ ReasonSection r = SectionMatch)) (Reasons e).

(** ** One rule against one value *)

Definition ruleID (r : Rule) : string := (Attribute r +:+ "." +:+ Op r)%string.

Definition inSet (set : list string) (v : string) : bool := bool_decide (v ∈ set).

Definition overlaps (a b : list string) : bool := existsb (inSet b) a.

Definition equalValues (a b : Value) : bool :=
  if decide (Kind a = KindInt) then Num a =? Num b
  else if decide (Kind a = KindFlag) then Bool.eqb (Flag a) (Flag b)
  else if decide (Kind a = KindText) then bool_decide (Text a = Text b)
  else false.

Definition texts (v : Value) : list string := default [] (Texts v).

Definition holds (actual : Value) (rule : Rule) : bool :=
  let want := Operand rule in
  let op := Op rule in
  if decide (Kind actual ≠ Kind want) then false
  else match Texts actual with
  | Some ts =>
      if decide (op = OpEq) then inSet ts (Text want)
      else if decide (op = OpNeq) then negb (inSet ts (Text want))
      else if decide (op = OpIn) then overlaps ts (texts want)
      else if decide (op = OpNotIn) then negb (overlaps ts (texts want))
      else false
  | None =>
      if decide (op = OpEq) then equalValues actual want
      else if decide (op = OpNeq) then negb (equalValues actual want)
      else if decide (op = OpGTE) then Num want <=? Num actual
      else if decide (op = OpLTE) then Num actual <=? Num want
      else if decide (op = OpIn) then inSet (texts want) (Text actual)
      else if decide (op = OpNotIn) then negb (inSet (texts want) (Text actual))
      else false
  end.

Definition opProse (op : string) : string :=
  if decide (op = OpEq) then "equal to"
  else if decide (op = OpNeq) then "different from"
  else if decide (op = OpGTE) then "at least"
  else if decide (op = OpLTE) then "at most"
  else if decide (op = OpIn) then "one of"
  else if decide (op = OpNotIn) then "outside"
  else op.

Definition describe (rule : Rule) (actual : Value) (held : bool) : string :=
  (Attribute rule +:+ " " +:+ Value_String actual
   +:+ (if Derived actual then " (read from the release name)" else "")
   +:+ ", which " +:+ (if held then "is" else "is not") +:+ " " +:+ opProse (Op rule)
   +:+ " " +:+ Value_String (Operand rule))%string.

(** ** Evaluate *)

Definition undeterminedDetail (section : Section') (a : string) : string :=
  ("the provider could not determine " +:+ a +:+
    match section with
    | SectionAccept => ", so this gate cannot be shown to hold"
    | SectionTerminal => ", so this cannot be treated as fully satisfying"
    | SectionPrefer => ""
    end)%string.

Definition addReason (e : Evaluation) (accepted : bool) (score : Z) (r : Reason) : Evaluation :=
  mkEvaluation (CandidateID e) accepted score (EvalTerminal e) (Reasons e ++ [r]).

(** One turn of the loop over [p.Rules()]. *)
Definition considerRule (attrs : Attributes) (e : Evaluation) (sr : Section' * Rule) : Evaluation :=
  let (section, rule) := sr in
  let id := ruleID rule in
  let sec := Section_String section in
  match attrs !! Attribute rule with
  | None =>
      addReason e
        (match section with SectionAccept => false | _ => Accepted e end) (Score e)
        (mkReason id sec ResultUndetermined 0 (undeterminedDetail section (Attribute rule)))
  | Some actual =>
      let held := holds actual rule in
      match section with
      | SectionAccept =>
          if held
          then addReason e (Accepted e) (Score e)
                 (mkReason id sec ResultPass 0 (describe rule actual true))
          else addReason e false (Score e)
                 (mkReason id sec ResultFail 0 (describe rule actual false))
      | SectionPrefer =>
          if held
          then addReason e (Accepted e) (wrap_i64 (Score e + Weight rule))
                 (mkReason id sec (if Weight rule <? 0 then ResultPenalty else ResultBonus)
                    (Weight rule) (describe rule actual true))
          else addReason e (Accepted e) (Score e)
                 (mkReason id sec ResultMiss 0 (describe rule actual false))
      | SectionTerminal =>
          addReason e (Accepted e) (Score e)
            (mkReason id sec (if held then ResultPass else ResultMiss) 0
               (describe rule actual held))
      end
  end.

(** [seen] is whether a terminal reason was met; the loop stops at the first one
    that did not pass. *)
Definition allTerminalRulesHeld (e : Evaluation) : bool :=
  let ts := filter (λ r, ReasonSection r = Section_String SectionTerminal) (Reasons e) in
  bool_decide (Forall (λ r, ReasonResult r = ResultPass) ts) && negb (bool_decide (ts = [])).

Definition Evaluate (c : ReleaseCandidate) (p : Profile) : Evaluation :=
  let e := foldl (considerRule (CandAttributes c))
             (mkEvaluation (CandID c) true 0 false []) (Rules p) in
  let terminal := HasTerminal p && allTerminalRulesHeld e in
  mkEvaluation (CandidateID e) (Accepted e) (Score e)
    (if Accepted e then terminal else false) (Reasons e).

#[global] Arguments Evaluate : simpl never.

(** ** Ranking *)

Record Ranked := mkRanked { Candidate : ReleaseCandidate; Eval : Evaluation }.

Definition Ranked_less (a b : Ranked) : bool :=
  if decide (Accepted (Eval a) ≠ Accepted (Eval b)) then Accepted (Eval a)
  else if decide (Score (Eval a) ≠ Score (Eval b))
       then Score (Eval b) <? Score (Eval a)
  else str_lt (CandID (Candidate a)) (CandID (Candidate b)).

Definition SortRanked (ranked : list Ranked) : list Ranked := sort_by Ranked_less ranked.

Definition EvaluateAll (cs : list ReleaseCandidate) (p : Profile) : list Ranked :=
  SortRanked ((λ c, mkRanked c (Evaluate c p)) <$> cs).

Definition Best (ranked : list Ranked) : option Ranked :=
  head (filter (λ r, Accepted (Eval r) = true) ranked).

(** ** The match gates (match.go) *)

Definition RuleSeasonContains : string := "season.contains".
Definition RuleEpisodeContains : string := "episode.contains".
Definition RuleSeasonUndetermined : string := "season.undetermined".
Definition RulePlatformMatches : string := "platform.matches".
Definition RulePlatformUndetermined : string := "platform.undetermined".

Definition joinEpisodes (episodes : list Z) : string := Join (FormatInt <$> episodes) ", ".

Definition GateEpisode (wantSeason wantEpisode : Z) (determined : bool) (relSeason : Z)
    (relEpisodes : list Z) : Reason * bool :=
  let want := ("S" +:+ Format02 wantSeason +:+ "E" +:+ Format02 wantEpisode)%string in
  if negb determined then
    (mkReason RuleSeasonUndetermined SectionMatch ResultUndetermined 0
       ("the release name does not spell out a season or episode, so it cannot be shown to contain "
        +:+ want)%string, false)
  else if decide (relSeason ≠ wantSeason) then
    (mkReason RuleSeasonContains SectionMatch ResultFail 0
       ("the release is season " +:+ FormatInt relSeason
        +:+ " (read from the release name), which cannot contain " +:+ want)%string, false)
  else if decide (relEpisodes = []) then
    (mkReason RuleSeasonContains SectionMatch ResultPass 0
       ("the release is a season " +:+ FormatInt relSeason
        +:+ " pack (read from the release name), which contains " +:+ want)%string, true)
  else if decide (wantEpisode ∈ relEpisodes) then
    (mkReason RuleEpisodeContains SectionMatch ResultPass 0
       ("the release is " +:+ want +:+ " (read from the release name), the wanted episode")%string, true)
  else
    (mkReason RuleEpisodeContains SectionMatch ResultFail 0
       ("the release is season " +:+ FormatInt relSeason +:+ " episode " +:+ joinEpisodes relEpisodes
        +:+ " (read from the release name), which is not " +:+ want)%string, false).

Definition RejectedByMatch (c : ReleaseCandidate) (reason : Reason) : Ranked :=
  mkRanked c (mkEvaluation (CandID c) false 0 false [reason]).

Definition GatePlatform (want : string) (determined : bool) (relPlatform : string)
    (spelled : list string) : Reason * bool :=
  if negb determined then
    (mkReason RulePlatformUndetermined SectionMatch ResultUndetermined 0
       (if (1 <? length spelled)%nat
        then ("the release name spells out " +:+ Join spelled ", "
              +:+ " (read from the release name), so it cannot be shown to be for "
              +:+ want +:+ " alone")%string
        else ("the release name does not spell out a platform, so it cannot be shown to be for "
              +:+ want)%string), false)
  else if decide (relPlatform ≠ want) then
    (mkReason RulePlatformMatches SectionMatch ResultFail 0
       ("the release is for " +:+ relPlatform +:+ " (read from the release name), not " +:+ want)%string,
     false)
  else
    (mkReason RulePlatformMatches SectionMatch ResultPass 0
       ("the release is for " +:+ relPlatform +:+ " (read from the release name), the wanted platform")%string,
     true).

(** ** What an evaluation says *)

(** A rule is met when its attribute is known and the value holds it. *)
Definition met (attrs : Attributes) (r : Rule) : bool :=
  match attrs !! Attribute r with Some v => holds v r | None => false end.

Definition known (attrs : Attributes) (r : Rule) : bool :=
  bool_decide (is_Some (attrs !! Attribute r)).

(** The reason one rule contributes, whatever was considered before it. *)
Definition reasonFor (attrs : Attributes) (sr : Section' * Rule) : Reason :=
  default (mkReason "" "" ResultMiss 0 "")
    (last (Reasons (considerRule attrs (mkEvaluation "" true 0 false []) sr))).

Definition gate_met (attrs : Attributes) (sr : Section' * Rule) : bool :=
  match sr.1 with SectionAccept => met attrs sr.2 | _ => true end.

Definition contribution (attrs : Attributes) (sr : Section' * Rule) : Z :=
  match sr.1 with
  | SectionPrefer => if met attrs sr.2 then Weight sr.2 else 0
  | _ => 0
  end.

Fixpoint sumZ (l : list Z) : Z :=
  match l with [] => 0 | x :: l => x + sumZ l end.

Lemma sumZ_app a b : sumZ (a ++ b) = sumZ a + sumZ b.
Proof. induction a as [|x a IH]; simpl; [done|]. rewrite IH. lia. Qed.

Lemma considerRule_spec attrs e sr :
  - 2 ^ 63 ≤ Score e < 2 ^ 63 →
  considerRule attrs e sr =
    mkEvaluation (CandidateID e) (Accepted e && gate_met attrs sr)
      (wrap_i64 (Score e + contribution attrs sr)) (EvalTerminal e)
      (Reasons e ++ [reasonFor attrs sr]).
Proof.
  intros Hs. destruct sr as [sec r]. unfold gate_met, contribution, met, reasonFor, considerRule,
    addReason; simpl. destruct (attrs !! Attribute r) as [v|]; [destruct (holds v r)|];
    destruct sec; simpl; rewrite ?Z.add_0_r, ?andb_true_r, ?andb_false_r, ?wrap_i64_small by done;
    done.
Qed.

Lemma foldl_consider attrs srs e :
  - 2 ^ 63 ≤ Score e < 2 ^ 63 →
  foldl (considerRule attrs) e srs =
    mkEvaluation (CandidateID e) (Accepted e && forallb (gate_met attrs) srs)
      (wrap_i64 (Score e + sumZ (contribution attrs <$> srs))) (EvalTerminal e)
      (Reasons e ++ (reasonFor attrs <$> srs)).
Proof.
  revert e. induction srs as [|sr srs IH]; intros e Hs; simpl.
  - destruct e. simpl in *. by rewrite andb_true_r, app_nil_r, Z.add_0_r, wrap_i64_small.
  - rewrite considerRule_spec, IH by (done || apply wrap_i64_range). simpl.
    by rewrite andb_assoc, wrap_i64_add, Z.add_assoc, <-app_assoc.
Qed.

Lemma reasonFor_fields attrs sec r :
  ReasonRule (reasonFor attrs (sec, r)) = ruleID r ∧
  ReasonSection (reasonFor attrs (sec, r)) = Section_String sec.
Proof.
  unfold reasonFor, considerRule, addReason; simpl.
  destruct (attrs !! Attribute r) as [v|]; [destruct (holds v r)|]; by destruct sec.
Qed.

Lemma reasonFor_fail attrs sec r :
  ReasonResult (reasonFor attrs (sec, r)) = ResultFail ↔
    sec = SectionAccept ∧ known attrs r = true ∧ met attrs r = false.
Proof.
  unfold known, met. rewrite bool_decide_eq_true. unfold reasonFor, considerRule, addReason; simpl.
  destruct (attrs !! Attribute r) as [v|]; [destruct (holds v r) eqn:Hh|];
    destruct sec; simpl; try destruct (Weight r <? 0); split; intros; naive_solver.
Qed.

Lemma reasonFor_pass attrs r :
  ReasonResult (reasonFor attrs (SectionTerminal, r)) = ResultPass ↔ met attrs r = true.
Proof.
  unfold met, reasonFor, considerRule, addReason; simpl.
  destruct (attrs !! Attribute r) as [v|]; [destruct (holds v r)|]; simpl; naive_solver.
Qed.

Lemma Section_String_inj s s' : Section_String s = Section_String s' → s = s'.
Proof. by destruct s, s'. Qed.

(** Splitting the rules of a profile by section. *)
Lemma filter_section {B} (f : Section' * Rule → B) (P : B → Prop) `{∀ b, Decision (P b)}
    (Q : Section' → Prop) `{∀ s, Decision (Q s)} (srs : list (Section' * Rule)) :
  (∀ sr, P (f sr) ↔ Q sr.1) →
  filter P (f <$> srs) = f <$> filter (λ sr, Q sr.1) srs.
Proof.
  intros HPQ. induction srs as [|sr srs IH]; [done|].
  rewrite fmap_cons, !filter_cons, IH. pose proof (HPQ sr).
  destruct (decide (P (f sr))), (decide (Q sr.1)); tauto.
Qed.

Lemma filter_Rules p s :
  filter (λ sr, sr.1 = s) (Rules p) = pair s <$> section_of p s.
Proof.
  assert (∀ s' (rs : list Rule), filter (λ sr, sr.1 = s) (pair s' <$> rs) =
            if decide (s' = s) then pair s' <$> rs else []) as H.
  { intros s' rs. induction rs as [|r rs IH]; [by case_decide|].
    rewrite fmap_cons, filter_cons, IH. simpl. by case_decide. }
  unfold Rules. rewrite !filter_app, !H. destruct s; simpl; by rewrite ?app_nil_r.
Qed.

Lemma Evaluate_eq c p :
  Evaluate c p =
    let attrs := CandAttributes c in
    let acc := forallb (met attrs) (Accept p) in
    mkEvaluation (CandID c) acc
      (wrap_i64 (sumZ (Weight <$> filter (λ r, met attrs r = true) (Prefer p))))
      (acc && HasTerminal p && forallb (met attrs) (Terminal p))
      (reasonFor attrs <$> Rules p).
Proof.
  unfold Evaluate. rewrite foldl_consider by (simpl; lia). simpl.
  assert (forallb (gate_met (CandAttributes c)) (Rules p)
          = forallb (met (CandAttributes c)) (Accept p)) as ->.
  { unfold Rules. rewrite !forallb_app.
    assert (∀ s rs, s ≠ SectionAccept →
      forallb (gate_met (CandAttributes c)) (pair s <$> rs) = true) as Ht.
    { intros s rs Hs. induction rs as [|r rs IH]; [done|]. rewrite fmap_cons. cbn [forallb].
      rewrite IH. by destruct s. }
    rewrite (Ht SectionPrefer), (Ht SectionTerminal), !andb_true_r by done.
    generalize (Accept p) as rs.
    induction rs as [|r rs IH]; [done|]. rewrite fmap_cons. cbn [forallb]. by rewrite IH. }
  f_equal.
  - f_equal. unfold Rules. rewrite !fmap_app.
    assert (∀ s rs, s ≠ SectionPrefer →
      sumZ (contribution (CandAttributes c) <$> (pair s <$> rs)) = 0) as Ht.
    { intros s rs Hs. induction rs as [|r rs IH]; [done|].
      rewrite !fmap_cons. cbn [sumZ]. rewrite IH. by destruct s. }
    rewrite !sumZ_app, (Ht SectionAccept), (Ht SectionTerminal), Z.add_0_r by done.
    rewrite ?Z.add_0_l. generalize (Prefer p) as rs.
    induction rs as [|r rs IH]; [done|]. rewrite !fmap_cons, filter_cons. cbn [sumZ].
    rewrite IH. unfold contribution; simpl. by destruct (met _ r).
  - destruct (forallb _ (Accept p)); [|done]. simpl.
    unfold allTerminalRulesHeld. simpl.
    rewrite (filter_section _ _ (λ s, s = SectionTerminal)), filter_Rules.
    2: { intros [s r]. rewrite (proj2 (reasonFor_fields _ s r)). simpl.
         split; [apply (Section_String_inj _ SectionTerminal)|by intros ->]. }
    assert (∀ rs, bool_decide (Forall (λ r, ReasonResult r = ResultPass)
        (reasonFor (CandAttributes c) <$> (pair SectionTerminal <$> rs)))
      = forallb (met (CandAttributes c)) rs) as Hf.
    { intros rs. induction rs as [|r rs IH]; [done|]. rewrite !fmap_cons. simpl.
      rewrite <-IH. apply eq_true_iff_eq.
      by rewrite andb_true_iff, !bool_decide_eq_true, Forall_cons, reasonFor_pass. }
    simpl section_of. rewrite Hf. unfold HasTerminal.
    destruct (Terminal p) as [|r rs]; simpl; [done|]. by rewrite andb_true_r.
Qed.

Lemma met_known attrs r : met attrs r = true ↔ ∃ v, attrs !! Attribute r = Some v ∧ holds v r = true.
Proof. unfold met. destruct (attrs !! Attribute r); naive_solver. Qed.

(** What an evaluation says of a candidate (§62): it is accepted exactly when
    every gate has a known attribute whose value holds it; its score is the sum,
    in 64-bit arithmetic, of the weights of the preferences that hold, unknown
    ones contributing nothing; it is terminal exactly when it is accepted, the
    profile has a stop condition, and every one of them holds; and it carries one
    reason for every rule considered, in the profile's order. *)
Theorem evaluate_spec (c : ReleaseCandidate) (p : Profile) :
  let e := Evaluate c p in
  let holding r := ∃ v, CandAttributes c !! Attribute r = Some v ∧ holds v r = true in
  (Accepted e = true ↔ ∀ r, r ∈ Accept p → holding r) ∧
  Score e = wrap_i64 (sumZ (Weight <$> filter (λ r, met (CandAttributes c) r = true) (Prefer p))) ∧
  (EvalTerminal e = true ↔
    Accepted e = true ∧ Terminal p ≠ [] ∧ ∀ r, r ∈ Terminal p → holding r) ∧
  (λ r, (ReasonSection r, ReasonRule r)) <$> Reasons e
    = (λ sr, (Section_String sr.1, ruleID sr.2)) <$> Rules p.
Proof.
  intros e holding. subst e holding. rewrite Evaluate_eq. simpl.
  assert (∀ rs, forallb (met (CandAttributes c)) rs = true ↔
    ∀ r, r ∈ rs → ∃ v, CandAttributes c !! Attribute r = Some v ∧ holds v r = true) as Hall.
  { intros rs. rewrite forallb_forall. setoid_rewrite met_known.
    by setoid_rewrite list_elem_of_In. }
  split_and!; [apply Hall|done| |].
  - assert (HasTerminal p = true ↔ Terminal p ≠ []) as Hterm.
    { unfold HasTerminal. by destruct (Terminal p). }
    rewrite !andb_true_iff, !Hall, Hterm. tauto.
  - rewrite <-list_fmap_compose. apply list_fmap_ext. intros _ [s r] _. simpl.
    by destruct (reasonFor_fields (CandAttributes c) s r) as [-> ->].
Qed.

Lemma rejected_reasons attrs p :
  filter (λ r, ReasonResult r = ResultFail ∧
      (ReasonSection r = Section_String SectionAccept ∨ ReasonSection r = SectionMatch))
    (reasonFor attrs <$> Rules p)
  = (λ r, reasonFor attrs (SectionAccept, r)) <$>
      filter (λ r, known attrs r = true ∧ met attrs r = false) (Accept p).
Proof.
  assert (∀ s rs, filter (λ r, ReasonResult r = ResultFail ∧
        (ReasonSection r = Section_String SectionAccept ∨ ReasonSection r = SectionMatch))
      (reasonFor attrs <$> (pair s <$> rs)) =
    if decide (s = SectionAccept) then (λ r, reasonFor attrs (SectionAccept, r)) <$>
      filter (λ r, known attrs r = true ∧ met attrs r = false) rs else []) as H.
  { intros s rs. induction rs as [|r rs IH]; [by case_decide|].
    rewrite !fmap_cons, !filter_cons, IH.
    destruct (reasonFor_fields attrs s r) as [_ Hsec].
    pose proof (reasonFor_fail attrs s r) as Hf. rewrite Hsec.
    destruct (decide (s = SectionAccept)) as [->|Hs];
      destruct (decide (ReasonResult _ = ResultFail ∧ _)) as [[Hr _]|Hr].
    - rewrite decide_True; [done|tauto].
    - rewrite decide_False; [done|]. intros Hk. apply Hr. split; [tauto|by left].
    - tauto.
    - done. }
  unfold Rules. rewrite !fmap_app, !filter_app, !H. simpl. by rewrite !app_nil_r.
Qed.

(** Every rejection is explained: the reasons [RejectedBy] lists are, in
    order, those of the gates whose attribute is known and whose value does not
    hold them; and a candidate is rejected exactly when that list is not empty or
    some gate's attribute could not be determined. *)
Theorem evaluate_rejections (c : ReleaseCandidate) (p : Profile) :
  let attrs := CandAttributes c in
  ReasonRule <$> RejectedBy (Evaluate c p)
    = ruleID <$> filter (λ r, known attrs r = true ∧ met attrs r = false) (Accept p) ∧
  (Accepted (Evaluate c p) = false ↔
    RejectedBy (Evaluate c p) ≠ [] ∨ ∃ r, r ∈ Accept p ∧ known attrs r = false).
Proof.
  intros attrs0. subst attrs0. rewrite Evaluate_eq. unfold RejectedBy. simpl. set (attrs := CandAttributes c).
  rewrite rejected_reasons. split.
  - rewrite <-list_fmap_compose. apply list_fmap_ext. intros _ r _.
    apply (reasonFor_fields attrs SectionAccept r).
  - set (l := filter _ (Accept p)).
    assert ((λ r, reasonFor attrs (SectionAccept, r)) <$> l ≠ [] ↔ ∃ r, r ∈ l) as ->.
    { destruct l as [|r l]; simpl; [|split; [intros _; exists r; by left|done]].
      split; [done|]. by intros (r & Hr%elem_of_nil). }
    rewrite forallb_false. subst l. setoid_rewrite list_elem_of_filter. unfold known, met. split.
    + intros (r & Hr & Hm). destruct (attrs !! Attribute r) eqn:E.
      * left. exists r. rewrite E. by split_and!.
      * right. exists r. by rewrite E.
    + intros [(r & (Hk & Hm) & Hr)|(r & Hr & Hk)]; exists r; [done|].
      split; [done|]. apply bool_decide_eq_false in Hk.
      destruct (attrs !! Attribute r); [|done]. destruct Hk. eauto.
Qed.

(** ** The total order of a ranking *)

(** The same order, in the shape of the library's combinators. *)
Definition rank_less : Ranked → Ranked → bool :=
  lex_less (λ r, Accepted (Eval r)) (flip_less (λ a b, negb a && b))
    (lex_less (λ r, Score (Eval r)) (flip_less Z.ltb)
       (key_less (λ r, CandID (Candidate r)) str_lt)).

Lemma Ranked_less_eq a b : Ranked_less a b = rank_less a b.
Proof.
  unfold Ranked_less, rank_less, lex_less, flip_less, key_less.
  destruct (Accepted (Eval a)), (Accepted (Eval b)); simpl; try done;
    repeat case_decide; done.
Qed.

#[export] Instance bool_less_total : StrictTotal (λ a b, negb a && b).
Proof. apply strict_total_intro; intros; repeat match goal with b : bool |- _ => destruct b end; done. Qed.

Lemma rank_less_weak : StrictWeak rank_less.
Proof.
  unfold rank_less. apply lex_weak; [apply _|]. apply lex_weak; [apply _|]. apply key_weak; apply _.
Qed.

#[export] Instance Ranked_less_weak : StrictWeak Ranked_less.
Proof.
  destruct rank_less_weak as [H1 H2 H3].
  split; intros *; rewrite !Ranked_less_eq; [apply H1|apply H2|apply H3].
Qed.

(** Two entries the order does not separate have one candidate id. *)
Lemma Ranked_less_id a b :
  Ranked_less a b = false → Ranked_less b a = false →
  CandID (Candidate a) = CandID (Candidate b).
Proof.
  rewrite !Ranked_less_eq. intros H1 H2.
  destruct (lex_incomparable _ _ _ _ _ H1 H2) as (_ & H3 & H4).
  destruct (lex_incomparable _ _ _ _ _ H3 H4) as (_ & H5 & H6).
  exact (key_incomparable _ _ _ _ H5 H6).
Qed.

Definition rank (p : Profile) (c : ReleaseCandidate) : Ranked := mkRanked c (Evaluate c p).

Lemma EvaluateAll_elem r cs p :
  r ∈ EvaluateAll cs p ↔ Candidate r ∈ cs ∧ Eval r = Evaluate (Candidate r) p.
Proof.
  unfold EvaluateAll, SortRanked. rewrite elem_of_sort_by, list_elem_of_fmap. split.
  - by intros (c & -> & Hc).
  - intros [Hc He]. exists (Candidate r). destruct r. simpl in *. by subst.
Qed.

Lemma Best_spec ranked r :
  StronglySorted (not_after Ranked_less) ranked → Best ranked = Some r →
  r ∈ ranked ∧ Accepted (Eval r) = true ∧
  ∀ r', r' ∈ ranked → Accepted (Eval r') = true → Ranked_less r' r = false.
Proof.
  unfold Best. induction 1 as [|x l Hl IH Hx]; [done|]. rewrite filter_cons.
  case_decide as Ha; simpl.
  - intros [= ->]. split_and!; [by left|done|]. intros r' [->|Hr']%elem_of_cons Ha'.
    + apply less_irrefl.
    + rewrite Forall_forall in Hx. by apply Hx.
  - intros Hb. destruct (IH Hb) as (Hr & Hra & Hmin). split_and!; [by right|done|].
    intros r' [->|Hr']%elem_of_cons Ha'; [done|auto].
Qed.

Lemma Best_None ranked : Best ranked = None ↔ ∀ r, r ∈ ranked → Accepted (Eval r) = false.
Proof.
  unfold Best. induction ranked as [|x l IH]; [set_solver|]. rewrite filter_cons.
  case_decide as Ha; simpl.
  - split; [done|]. intros H. specialize (H x). rewrite H in Ha by (by left). done.
  - rewrite IH. apply not_true_is_false in Ha. setoid_rewrite elem_of_cons. naive_solver.
Qed.

(** The score of a better entry is at least that of any other acceptable one. *)
Lemma Ranked_less_score r r' :
  Accepted (Eval r) = true → Accepted (Eval r') = true → Ranked_less r' r = false →
  Score (Eval r') ≤ Score (Eval r).
Proof.
  intros Ha Ha'. unfold Ranked_less. rewrite decide_False by congruence.
  case_decide as Hs; [rewrite Z.ltb_ge; lia|]. intros _.
  destruct (decide (Score (Eval r') = Score (Eval r))); [lia|tauto].
Qed.

Lemma EvaluateAll_sorted cs p : StronglySorted (not_after Ranked_less) (EvaluateAll cs p).
Proof. apply (sort_by_sorted Ranked_less). Qed.

Lemma EvaluateAll_perm cs cs' p :
  NoDup (CandID <$> cs) → cs ≡ₚ cs' → EvaluateAll cs' p = EvaluateAll cs p.
Proof.
  intros Hnd Hp. apply (sort_by_perm_eq Ranked_less); [|by rewrite Hp].
  intros x y (c & -> & Hc)%list_elem_of_fmap (d & -> & Hd)%list_elem_of_fmap H1 H2.
  pose proof (Ranked_less_id _ _ H1 H2) as Hid. simpl in Hid.
  by rewrite (fmap_NoDup_inj CandID cs c d).
Qed.

(** A set of releases has one ranking and one winner (ADR-0017): whatever
    order distinct candidates are offered in, [EvaluateAll] returns the same list;
    [Best] of it is none exactly when no candidate is accepted; and otherwise it is
    an accepted candidate, with its own evaluation, that no accepted candidate
    outscores, and that has the least id among those that equal its score. *)
Theorem ranking_deterministic (cs cs' : list ReleaseCandidate) (p : Profile) :
  NoDup (CandID <$> cs) → cs ≡ₚ cs' →
  EvaluateAll cs' p = EvaluateAll cs p ∧
  match Best (EvaluateAll cs p) with
  | None => ∀ c, c ∈ cs → Accepted (Evaluate c p) = false
  | Some r =>
      Candidate r ∈ cs ∧ Eval r = Evaluate (Candidate r) p ∧ Accepted (Eval r) = true ∧
      ∀ c, c ∈ cs → Accepted (Evaluate c p) = true → c ≠ Candidate r →
        Score (Evaluate c p) < Score (Eval r) ∨
        (Score (Evaluate c p) = Score (Eval r) ∧ str_lt (CandID (Candidate r)) (CandID c) = true)
  end.
Proof.
  intros Hnd Hp. split; [by apply EvaluateAll_perm|].
  destruct (Best (EvaluateAll cs p)) as [r|] eqn:Hb.
  - destruct (Best_spec _ _ (EvaluateAll_sorted cs p) Hb) as (Hr & Ha & Hmin).
    apply EvaluateAll_elem in Hr as [Hc He]. split_and!; [done..|].
    intros c Hcin Hca Hne. specialize (Hmin (rank p c)).
    assert (Ranked_less (rank p c) r = false) as Hless.
    { apply Hmin; [|done]. by apply EvaluateAll_elem. }
    assert (Score (Evaluate c p) ≤ Score (Eval r)) as Hle
      by exact (Ranked_less_score r (rank p c) Ha Hca Hless).
    destruct (decide (Score (Evaluate c p) = Score (Eval r))) as [Heq|]; [right|left; lia].
    split; [done|]. destruct (str_lt (CandID (Candidate r)) (CandID c)) eqn:Hlt; [done|].
    exfalso. apply Hne. apply (fmap_NoDup_inj CandID cs); [done..|].
    apply (Ranked_less_id (rank p c) r Hless). unfold Ranked_less, rank. cbn [Eval Candidate].
    rewrite Hca, Ha, Heq. by rewrite !decide_False by congruence.
  - rewrite Best_None in Hb. intros c Hc. apply (Hb (rank p c)). by apply EvaluateAll_elem.
Qed.

(** ** Witnesses *)

Definition ex_1080 : ReleaseCandidate := mkCandidate "b" "Film 1080p" "prov"
  {[AttrResolution := NumValue 1080; AttrSource := TextValue "bluray"]} "magnet:1".
Definition ex_2160 : ReleaseCandidate := mkCandidate "a" "Film 2160p REMUX" "prov"
  {[AttrResolution := NumValue 2160; AttrSource := TextValue "remux";
    AttrVideoCodec := TextValue "hevc"]} "magnet:2".
Definition ex_cam : ReleaseCandidate := mkCandidate "c" "Film CAM" "prov"
  {[AttrResolution := NumValue 1080; AttrSource := TextValue "cam"]} "magnet:3".

Lemma ranking_deterministic_witness :
  EvaluateAll [ex_cam; ex_2160; ex_1080] (mkProfile "" "p" "" []
      [mkRule AttrSource OpNotIn (TextsValue ["cam"]) 0]
      [mkRule AttrVideoCodec OpEq (TextValue "hevc") 20] [])
  = EvaluateAll [ex_1080; ex_cam; ex_2160] (mkProfile "" "p" "" []
      [mkRule AttrSource OpNotIn (TextsValue ["cam"]) 0]
      [mkRule AttrVideoCodec OpEq (TextValue "hevc") 20] []).
Proof.
  apply ranking_deterministic; [decide_vm|].
  exact (Permutation_cons_append [ex_cam; ex_2160] ex_1080).
Defined.
