(* ===== verification/AcqState.v ===== *)
(** * AcqState: the acquisition state machine

    Models internal/domain/acquisition/state.go and transitions.go: the pipeline
    table, the three facts a state carries beside its phase, and the operations
    that change them.  A [Phase], a [Transition] and a [Satisfaction] are Go
    strings, so a value from storage may be none of the declared constants; an
    error is the sentinel it wraps (its text is not modelled). *)

From S2P Require Import Prelude.

(** ** Data *)

Abbreviation Phase := string (only parsing).

Definition PhaseIdle : Phase := "idle".
Definition PhaseSearching : Phase := "searching".
Definition PhaseCandidatesFound : Phase := "candidates_found".
Definition PhaseSelected : Phase := "selected".
Definition PhaseQueued : Phase := "queued".
Definition PhaseDownloading : Phase := "downloading".
Definition PhaseVerifying : Phase := "verifying".
Definition PhaseIngesting : Phase := "ingesting".

Definition Phases : list Phase :=
  [PhaseIdle; PhaseSearching; PhaseCandidatesFound; PhaseSelected;
   PhaseQueued; PhaseDownloading; PhaseVerifying; PhaseIngesting].

Definition ParsePhase (s : string) : option Phase := head (filter (λ p, p = s) Phases).

Definition InFlight (p : Phase) : bool := bool_decide (p ≠ PhaseIdle).

Abbreviation Satisfaction := string (only parsing).

Definition SatisfactionUnknown : Satisfaction := "unknown".
Definition SatisfactionNot : Satisfaction := "not_satisfied".
Definition SatisfactionConverging : Satisfaction := "converging".
Definition SatisfactionSatisfied : Satisfaction := "satisfied".
Definition SatisfactionNotApplicable : Satisfaction := "not_applicable".

Definition contentValues : list Satisfaction :=
  [SatisfactionUnknown; SatisfactionNot; SatisfactionSatisfied].
Definition placementValues : list Satisfaction :=
  [SatisfactionUnknown; SatisfactionNot; SatisfactionConverging;
   SatisfactionSatisfied; SatisfactionNotApplicable].

Definition valid (set : list Satisfaction) (v : Satisfaction) : bool :=
  existsb (λ s, bool_decide (s = v)) set.
#[global] Arguments valid : simpl never.

Record State := mkState {
  StatePhase : Phase;
  Managed : bool;
  Content : Satisfaction;
  Placement : Satisfaction;
}.

#[export] Instance State_eq_dec : EqDecision State.
Proof. solve_decision. Defined.

Definition Initial : State := mkState PhaseIdle false SatisfactionUnknown SatisfactionUnknown.

Inductive error := ErrIllegalTransition | ErrImpossibleState.

#[export] Instance error_eq_dec : EqDecision error.
Proof. solve_decision. Defined.

Definition Validate (s : State) : option error :=
  match ParsePhase (StatePhase s) with
  | None => Some ErrImpossibleState
  | Some _ =>
    if negb (valid contentValues (Content s)) then Some ErrImpossibleState
    else if negb (valid placementValues (Placement s)) then Some ErrImpossibleState
    else if bool_decide (Content s = SatisfactionSatisfied) && negb (Managed s)
         then Some ErrImpossibleState
    else if bool_decide (Placement s = SatisfactionSatisfied)
            || bool_decide (Placement s = SatisfactionConverging)
         then if decide (Content s ≠ SatisfactionSatisfied) then Some ErrImpossibleState else None
    else None
  end.

(** The ASCII upper case of a byte string. *)
Definition upperByte (c : Ascii.ascii) : Ascii.ascii :=
  let n := Ascii.nat_of_ascii c in
  if (97 <=? n)%nat && (n <=? 122)%nat then Ascii.ascii_of_nat (n - 32) else c.

Fixpoint upper (s : string) : string :=
  match s with
  | EmptyString => EmptyString
  | String c s => String (upperByte c) (upper s)
  end.

Definition Name (s : State) : string :=
  if decide (StatePhase s ≠ PhaseIdle) then upper (StatePhase s)
  else if negb (Managed s) then "MISSING"
  else if decide (Content s ≠ SatisfactionSatisfied) then "AVAILABLE"
  else if decide (Placement s = SatisfactionSatisfied) then "FULLY_SATISFIED"
  else if decide (Placement s = SatisfactionConverging) then "PLACEMENT_CONVERGING"
  else "CONTENT_SATISFIED".

(** ** The pipeline *)

Abbreviation Transition := string (only parsing).

Definition TransitionSearch : Transition := "search".
Definition TransitionCandidatesFound : Transition := "candidates_found".
Definition TransitionNoCandidates : Transition := "no_candidates".
Definition TransitionSelect : Transition := "select".
Definition TransitionRejectAll : Transition := "reject_all".
Definition TransitionQueue : Transition := "queue".
Definition TransitionStartDownload : Transition := "start_download".
Definition TransitionDownloaded : Transition := "downloaded".
Definition TransitionVerified : Transition := "verified".
Definition TransitionIngested : Transition := "ingested".
Definition TransitionFail : Transition := "fail".
Definition TransitionCancel : Transition := "cancel".
Definition TransitionAdopt : Transition := "adopt".
Definition TransitionLost : Transition := "lost".

Definition Transitions : list Transition :=
  [TransitionSearch; TransitionCandidatesFound; TransitionNoCandidates;
   TransitionSelect; TransitionRejectAll; TransitionQueue;
   TransitionStartDownload; TransitionDownloaded; TransitionVerified;
   TransitionIngested; TransitionAdopt; TransitionFail; TransitionCancel;
   TransitionLost].

Definition table : gmap Phase (gmap Transition Phase) := {[
  PhaseIdle := {[
    TransitionSearch := PhaseSearching;
    TransitionAdopt := PhaseVerifying;
    TransitionLost := PhaseIdle ]};
  PhaseSearching := {[
    TransitionCandidatesFound := PhaseCandidatesFound;
    TransitionNoCandidates := PhaseIdle;
    TransitionFail := PhaseIdle;
    TransitionCancel := PhaseIdle ]};
  PhaseCandidatesFound := {[
    TransitionSelect := PhaseSelected;
    TransitionRejectAll := PhaseIdle;
    TransitionFail := PhaseIdle;
    TransitionCancel := PhaseIdle ]};
  PhaseSelected := {[
    TransitionQueue := PhaseQueued;
    TransitionFail := PhaseIdle;
    TransitionCancel := PhaseIdle ]};
  PhaseQueued := {[
    TransitionStartDownload := PhaseDownloading;
    TransitionFail := PhaseIdle;
    TransitionCancel := PhaseIdle ]};
  PhaseDownloading := {[
    TransitionDownloaded := PhaseVerifying;
    TransitionFail := PhaseIdle;
    TransitionCancel := PhaseIdle ]};
  PhaseVerifying := {[
    TransitionVerified := PhaseIngesting;
    TransitionFail := PhaseIdle;
    TransitionCancel := PhaseIdle ]};
  PhaseIngesting := {[
    TransitionIngested := PhaseIdle;
    TransitionFail := PhaseIdle;
    TransitionCancel := PhaseIdle ]}
]}.

Definition Advance (from : Phase) (t : Transition) : error + Phase :=
  match table !! from with
  | None => inl ErrIllegalTransition
  | Some allowed =>
      match allowed !! t with
      | None => inl ErrIllegalTransition
      | Some to => inr to
      end
  end.

(** What [Apply] changes beside the phase: only two transitions are about bytes. *)
Definition carry (t : Transition) (next : Phase) (s : State) : State :=
  if decide (t = TransitionLost) then mkState next false SatisfactionNot SatisfactionNot
  else if decide (t = TransitionIngested)
       then mkState next true SatisfactionUnknown SatisfactionUnknown
  else mkState next (Managed s) (Content s) (Placement s).

(** The state operations return the state they were called on beside an error. *)
Definition checked (s out : State) : State * option error :=
  match Validate out with Some e => (s, Some e) | None => (out, None) end.

Definition Apply (s : State) (t : Transition) : State * option error :=
  match Advance (StatePhase s) t with
  | inl e => (s, Some e)
  | inr next => checked s (carry t next s)
  end.

Definition WithContent (s : State) (v : Satisfaction) : State * option error :=
  let out := mkState (StatePhase s) (Managed s) v (Placement s) in
  let out :=
    if decide (v ≠ SatisfactionSatisfied)
    then if decide (Placement out ≠ SatisfactionUnknown)
         then mkState (StatePhase out) (Managed out) (Content out) SatisfactionUnknown
         else out
    else out in
  checked s out.

Definition WithPlacement (s : State) (v : Satisfaction) : State * option error :=
  checked s (mkState (StatePhase s) (Managed s) (Content s) v).

(** ** What validity says *)

Definition coherent (s : State) : Prop :=
  StatePhase s ∈ Phases ∧ Content s ∈ contentValues ∧ Placement s ∈ placementValues ∧
  (Content s = SatisfactionSatisfied → Managed s = true) ∧
  (Placement s = SatisfactionSatisfied ∨ Placement s = SatisfactionConverging →
   Content s = SatisfactionSatisfied).

Lemma valid_iff set v : valid set v = true ↔ v ∈ set.
Proof.
  unfold valid. rewrite existsb_exists. setoid_rewrite bool_decide_eq_true.
  split; [by intros (x & Hx%list_elem_of_In & ->)|]. intros Hv. exists v. by rewrite <-list_elem_of_In.
Qed.

Lemma ParsePhase_iff s : is_Some (ParsePhase s) ↔ s ∈ Phases.
Proof.
  unfold ParsePhase. split.
  - intros [p Hp]. assert (p ∈ filter (λ p, p = s) Phases) as H.
    { destruct (filter _ _); [done|]. injection Hp as ->. by left. }
    by apply list_elem_of_filter in H as [-> H].
  - intros H. assert (s ∈ filter (λ p, p = s) Phases) as Hin by (by apply list_elem_of_filter).
    destruct (filter _ _); [by apply elem_of_nil in Hin|eauto].
Qed.

Lemma Validate_cases s : Validate s = None ∨ Validate s = Some ErrImpossibleState.
Proof.
  unfold Validate. destruct (ParsePhase _); [|by right].
  repeat case_match; auto.
Qed.

Lemma State_Validate_iff s : Validate s = None ↔ coherent s.
Proof.
  unfold Validate, coherent. rewrite <-ParsePhase_iff, <-!valid_iff.
  destruct (ParsePhase _) as [p|]; [|split; [done|]; intros [[? [=]] _]].
  destruct (valid contentValues _); simpl; [|naive_solver].
  destruct (valid placementValues _); simpl; [|naive_solver].
  destruct (bool_decide_reflect (Content s = SatisfactionSatisfied)) as [Hc|Hc];
    destruct (Managed s); simpl.
  all: destruct (bool_decide_reflect (Placement s = SatisfactionSatisfied));
    destruct (bool_decide_reflect (Placement s = SatisfactionConverging)); simpl;
    try destruct (decide (Content s ≠ SatisfactionSatisfied)); naive_solver.
Qed.

Lemma checked_ok s out : coherent out → checked s out = (out, None).
Proof. intros H%State_Validate_iff. unfold checked. by rewrite H. Qed.

Lemma checked_cases s out :
  (coherent out ∧ checked s out = (out, None)) ∨
  (¬ coherent out ∧ checked s out = (s, Some ErrImpossibleState)).
Proof.
  unfold checked. rewrite <-State_Validate_iff.
  destruct (Validate_cases out) as [->| ->]; [by left|by right].
Qed.

(** ** The edges of the table *)

Definition edges : list (Phase * Transition * Phase) :=
  map_to_list table ≫= λ '(from, m), (λ '(t, to), (from, t, to)) <$> map_to_list m.

Lemma Advance_edge from t to : Advance from t = inr to ↔ (from, t, to) ∈ edges.
Proof.
  unfold Advance, edges. rewrite list_elem_of_bind. split.
  - destruct (table !! from) as [m|] eqn:E; [|done]. destruct (m !! t) as [to'|] eqn:E'; [|done].
    intros [= ->]. exists (from, m). split; [|by apply elem_of_map_to_list].
    apply list_elem_of_fmap. exists (t, to). split; [done|]. by apply elem_of_map_to_list.
  - intros ([f m] & Hin & Hm%elem_of_map_to_list).
    apply list_elem_of_fmap in Hin as ([t' to'] & [= -> -> ->] & Hin%elem_of_map_to_list).
    by rewrite Hm, Hin.
Qed.

Lemma Advance_error from t e : Advance from t = inl e → e = ErrIllegalTransition.
Proof. unfold Advance. repeat case_match; by intros [= <-]. Qed.

(** A decidable fact of every edge, by computation over the table. *)
Lemma Advance_forall (P : Phase * Transition * Phase → Prop) `{∀ e, Decision (P e)} :
  bool_decide (Forall P edges) = true →
  ∀ from t to, Advance from t = inr to → P (from, t, to).
Proof.
  intros HP from t to He%Advance_edge. apply bool_decide_eq_true in HP.
  rewrite Forall_forall in HP. by apply HP.
Qed.

Ltac edge_fact := vm_cast_no_check (eq_refl true).

Lemma Advance_phase from t to : Advance from t = inr to → to ∈ Phases.
Proof. apply (Advance_forall (λ e, e.2 ∈ Phases)). by vm_compute. Qed.

(** A transition the table allows never makes an impossible state. *)
Lemma carry_coherent s t next :
  coherent s → Advance (StatePhase s) t = inr next → coherent (carry t next s).
Proof.
  intros (_ & Hc & Hp & Hm & Hpc) He%Advance_phase. unfold carry.
  repeat case_decide; split_and!; simpl; try done; try decide_vm; by intros [?|?].
Qed.

Lemma Apply_spec s t :
  coherent s →
  Apply s t = match Advance (StatePhase s) t with
              | inl _ => (s, Some ErrIllegalTransition)
              | inr next => (carry t next s, None)
              end.
Proof.
  intros Hs. unfold Apply. destruct (Advance _ t) as [e|next] eqn:E.
  - by rewrite (Advance_error _ _ _ E).
  - apply checked_ok. by apply carry_coherent.
Qed.

(** ** Runs

    Everything that happens to an acquisition: a pipeline transition, or an answer
    on one of the two axes.  A refused event leaves the state as it was. *)

Inductive Event :=
  | EvTransition (t : Transition)
  | EvContent (v : Satisfaction)
  | EvPlacement (v : Satisfaction).

Definition step (s : State) (e : Event) : State * option error :=
  match e with
  | EvTransition t => Apply s t
  | EvContent v => WithContent s v
  | EvPlacement v => WithPlacement s v
  end.

Definition run (s : State) (es : list Event) : State := foldl (λ s e, (step s e).1) s es.

(** The transitions a run took: those that were not refused. *)
Definition taken1 (s : State) (e : Event) : list Transition :=
  match e with
  | EvTransition t => match (Apply s t).2 with None => [t] | Some _ => [] end
  | _ => []
  end.

Fixpoint taken (s : State) (es : list Event) : list Transition :=
  match es with
  | [] => []
  | e :: es => taken1 s e ++ taken (step s e).1 es
  end.

Lemma run_snoc s es e : run s (es ++ [e]) = (step (run s es) e).1.
Proof. unfold run. by rewrite foldl_snoc'. Qed.

Lemma taken_snoc s es e : taken s (es ++ [e]) = taken s es ++ taken1 (run s es) e.
Proof.
  revert s. induction es as [|e' es IH]; intros s; simpl; [by rewrite app_nil_r|].
  by rewrite IH, app_assoc.
Qed.

Lemma step_coherent s e : coherent s → coherent (step s e).1.
Proof.
  intros Hs. destruct e as [t|v|v]; simpl.
  - rewrite Apply_spec by done. destruct (Advance _ t) eqn:E; [done|by apply carry_coherent].
  - unfold WithContent. case_decide; [case_decide|];
      match goal with |- context [checked s ?o] => by destruct (checked_cases s o) as [[? ->]|[? ->]] end.
  - unfold WithPlacement.
    match goal with |- context [checked s ?o] => by destruct (checked_cases s o) as [[? ->]|[? ->]] end.
Qed.

Lemma Initial_coherent : coherent Initial.
Proof. by apply State_Validate_iff. Qed.

Lemma run_coherent es : coherent (run Initial es).
Proof.
  induction es as [|e es IH] using rev_ind; [apply Initial_coherent|].
  rewrite run_snoc. by apply step_coherent.
Qed.

(** The forward edges of the table, in order, and the way to hold bytes. *)
Definition forward : list Transition :=
  [TransitionSearch; TransitionCandidatesFound; TransitionSelect; TransitionQueue;
   TransitionStartDownload; TransitionDownloaded; TransitionVerified].
Definition acquire (m : bool) : list Transition :=
  if m then [TransitionAdopt; TransitionVerified; TransitionIngested] else [].

Definition reach (p : nat) (m : bool) (c pl : Satisfaction) : list Event :=
  (EvTransition <$> acquire m ++ take p forward) ++ [EvContent c; EvPlacement pl].

Lemma reach_spec :
  Forall (λ m, Forall (λ p, Forall (λ c, Forall (λ pl,
    Validate (mkState (default "" (Phases !! p)) m c pl) = None →
    run Initial (reach p m c pl) = mkState (default "" (Phases !! p)) m c pl)
    placementValues) contentValues) (seq 0 8)) [true; false].
Proof. decide_vm. Qed.

(** C2. The states the acquisition machine can be driven into are exactly the ones
    [Validate] accepts: whatever sequence of transitions and satisfaction answers is
    thrown at it (the refused ones included) the state stays coherent, and every
    coherent state, in every phase, is the result of some sequence. *)
Theorem acquisition_reachable_iff (s : State) :
  (∃ es, run Initial es = s) ↔ Validate s = None.
Proof.
  split; [intros [es <-]; apply State_Validate_iff, run_coherent|].
  destruct s as [ph m c pl]. intros Hv.
  pose proof (proj1 (State_Validate_iff _) Hv) as (Hph & Hc & Hpl & _ & _). simpl in *.
  apply list_elem_of_lookup in Hph as [p Hp].
  pose proof reach_spec as H. rewrite Forall_forall in H.
  specialize (H m ltac:(destruct m; set_solver)). rewrite Forall_forall in H.
  specialize (H p). rewrite elem_of_seq in H.
  specialize (H ltac:(apply lookup_lt_Some in Hp; simpl in Hp; lia)).
  rewrite Forall_forall in H. specialize (H c Hc). rewrite Forall_forall in H.
  specialize (H pl Hpl). rewrite Hp in H. simpl in H. eauto.
Qed.

(** A coherent acquisition refuses exactly the transitions outside the table,
    with [ErrIllegalTransition] and its state unchanged.  A legal one never makes an
    impossible state; it moves to the table's phase, and the held bytes and both
    satisfaction answers are carried through unchanged, so a failed or empty search
    of a held want rests as it rested before: only losing the bytes and ingesting
    new ones touch them. *)
Theorem acquisition_apply_spec (s : State) (t : Transition) :
  Validate s = None →
  match Advance (StatePhase s) t with
  | inl e => e = ErrIllegalTransition ∧ Apply s t = (s, Some ErrIllegalTransition)
  | inr next =>
      ∃ s', Apply s t = (s', None) ∧ Validate s' = None ∧ StatePhase s' = next ∧
        (t = TransitionLost → s' = mkState PhaseIdle false SatisfactionNot SatisfactionNot) ∧
        (t = TransitionIngested →
           s' = mkState PhaseIdle true SatisfactionUnknown SatisfactionUnknown) ∧
        (t ≠ TransitionLost → t ≠ TransitionIngested →
           Managed s' = Managed s ∧ Content s' = Content s ∧ Placement s' = Placement s ∧
           (next = PhaseIdle →
              Name s' = Name (mkState PhaseIdle (Managed s) (Content s) (Placement s))))
  end.
Proof.
  intros Hs%State_Validate_iff. rewrite Apply_spec by done.
  destruct (Advance _ t) as [e|next] eqn:E; [split; [by eapply Advance_error|done]|].
  exists (carry t next s). split_and!; [done|by apply State_Validate_iff, carry_coherent|..].
  - unfold carry. repeat case_decide; done.
  - intros ->. unfold carry. rewrite decide_True by done. f_equal.
    by apply (Advance_forall (λ e, e.1.2 = TransitionLost → e.2 = PhaseIdle)
      ltac:(edge_fact) _ _ _ E).
  - intros ->. unfold carry. rewrite decide_False, decide_True by done. f_equal.
    by apply (Advance_forall (λ e, e.1.2 = TransitionIngested → e.2 = PhaseIdle)
      ltac:(edge_fact) _ _ _ E).
  - intros Hl Hi. unfold carry. rewrite !decide_False by done. split_and!; try done.
    intros ->. done.
Qed.

(** A held, satisfying copy whose upgrade search is in flight. *)
Definition ex_upgrading : State :=
  mkState PhaseSearching true SatisfactionSatisfied SatisfactionConverging.

Lemma acquisition_apply_spec_witness :
  ∃ s', Apply ex_upgrading TransitionNoCandidates = (s', None) ∧ Name s' = "PLACEMENT_CONVERGING".
Proof.
  destruct (acquisition_apply_spec ex_upgrading TransitionNoCandidates eq_refl)
    as (s' & Ha & _ & _ & _ & _ & Hf).
  exists s'. split; [exact Ha|].
  destruct Hf as (_ & _ & _ & Hn); [done|done|]. by rewrite Hn.
Defined.

(** *** Where held bytes come from *)

(** The last ingestion of [ts] comes straight after a verification, and no loss
    after it. *)
Definition acquired (ts : list Transition) : Prop :=
  ∃ pre post, ts = pre ++ ([TransitionVerified; TransitionIngested] ++ post) ∧
    (TransitionLost ∉ post) ∧ (TransitionIngested ∉ post).

Definition last_taken (t : Transition) (ts : list Transition) : Prop := ∃ pre, ts = pre ++ [t].

Lemma acquired_other t ts :
  t ≠ TransitionLost → t ≠ TransitionIngested → acquired (ts ++ [t]) ↔ acquired ts.
Proof.
  intros Hl Hi. split.
  - intros (pre & post & Heq & Hp). destruct post as [|x post _] using rev_ind.
    + exfalso. apply Hi. apply (f_equal last) in Heq.
      rewrite app_nil_r, !last_app in Heq. by injection Heq as ->.
    + rewrite !app_assoc in Heq. apply app_inj_tail in Heq as [-> _].
      exists pre, post. rewrite <-app_assoc. set_solver.
  - intros (pre & post & -> & Hp). exists pre, (post ++ [t]).
    rewrite <-!app_assoc. set_solver.
Qed.

Lemma acquired_lost ts : ¬ acquired (ts ++ [TransitionLost]).
Proof.
  intros (pre & post & Heq & Hl & _). destruct post as [|x post _] using rev_ind.
  - apply (f_equal last) in Heq. rewrite app_nil_r, !last_app in Heq. done.
  - rewrite !app_assoc in Heq. apply app_inj_tail in Heq as [_ <-]. set_solver.
Qed.

Lemma acquired_ingested ts :
  last_taken TransitionVerified ts → acquired (ts ++ [TransitionIngested]).
Proof.
  intros [pre ->]. exists pre, []. rewrite <-app_assoc. set_solver.
Qed.

Definition provenance (s : State) (ts : list Transition) : Prop :=
  (Managed s = true ↔ acquired ts) ∧
  (StatePhase s = PhaseIngesting → last_taken TransitionVerified ts).

Lemma provenance_carry s ts t next :
  provenance s ts → Advance (StatePhase s) t = inr next →
  provenance (carry t next s) (ts ++ [t]).
Proof.
  intros [Hm Hi] E.
  pose proof (Advance_forall (λ e, e.1.2 = TransitionIngested → e.1.1 = PhaseIngesting)
    ltac:(edge_fact) _ _ _ E) as H1.
  pose proof (Advance_forall (λ e, e.2 = PhaseIngesting → e.1.2 = TransitionVerified)
    ltac:(edge_fact) _ _ _ E) as H2. simpl in H1, H2.
  split; [|intros Hp; exists ts; do 2 f_equal; apply H2; revert Hp; unfold carry;
            by repeat case_decide].
  unfold carry. case_decide as Hl; [|case_decide as Hg]; simpl.
  - subst. split; [done|]. by intros ?%acquired_lost.
  - subst. split; [intros _; apply acquired_ingested, Hi; auto|done].
  - by rewrite acquired_other.
Qed.

Lemma provenance_step s ts e :
  coherent s → provenance s ts → provenance (step s e).1 (ts ++ taken1 s e).
Proof.
  intros Hs Hp. destruct e as [t|v|v]; simpl; rewrite ?app_nil_r.
  - rewrite Apply_spec by done. destruct (Advance _ t) eqn:E; simpl; [by rewrite app_nil_r|].
    by apply provenance_carry.
  - unfold WithContent. case_decide; [case_decide|];
      match goal with |- context [checked s ?o] => by destruct (checked_cases s o) as [[? ->]|[? ->]] end.
  - unfold WithPlacement.
    match goal with |- context [checked s ?o] => by destruct (checked_cases s o) as [[? ->]|[? ->]] end.
Qed.

(** Bytes are held only because Heyarr verified them (invariant 1): in any run from
    the initial state, refused events included, the want holds bytes exactly when some
    ingestion came straight after a verification among the transitions taken, with no
    loss and no other ingestion since; and a transition out of [ingesting] always
    follows a verification. *)
Theorem acquisition_managed_verified (es : list Event) :
  let s := run Initial es in
  let ts := taken Initial es in
  (Managed s = true ↔ acquired ts) ∧
  (StatePhase s = PhaseIngesting → last_taken TransitionVerified ts).
Proof.
  cbv zeta. change (provenance (run Initial es) (taken Initial es)).
  induction es as [|e es IH] using rev_ind.
  - split; [|done]. split; [done|]. intros (pre & post & Heq & _). by destruct pre.
  - rewrite run_snoc, taken_snoc. apply provenance_step; [apply run_coherent|done].
Qed.

(** Nothing is terminal and nothing is unreachable: from every phase [fail] and
    [cancel] lead back to rest when something is in flight, and are refused at rest;
    every phase is reached from rest by a sequence of forward edges; and the values
    that are not phases allow no transition at all. *)
Theorem acquisition_phases_return (p : Phase) :
  (p ∈ Phases ∧ InFlight p = true →
     Advance p TransitionFail = inr PhaseIdle ∧ Advance p TransitionCancel = inr PhaseIdle) ∧
  (p ∈ Phases → InFlight p = false → ∀ t to, Advance p t = inr to →
     t ∈ [TransitionSearch; TransitionAdopt; TransitionLost]) ∧
  (p ∈ Phases → ∃ ts, ts `prefix_of` forward ∧
     StatePhase (run Initial (EvTransition <$> ts)) = p) ∧
  (p ∉ Phases → ∀ t, Advance p t = inl ErrIllegalTransition).
Proof.
  split_and!.
  - intros [Hp Hf]. unfold Phases in Hp. cases_in Hp; [by vm_compute in Hf|..]; by vm_compute.
  - intros Hp Hf t to. unfold InFlight in Hf. apply bool_decide_eq_false, dec_stable in Hf.
    intros E. revert Hf. by apply (Advance_forall (λ e, e.1.1 = PhaseIdle →
      e.1.2 ∈ [TransitionSearch; TransitionAdopt; TransitionLost]) ltac:(edge_fact) _ _ _ E).
  - intros [i Hi]%list_elem_of_lookup. exists (take i forward). split; [apply prefix_take|].
    assert (i < 8)%nat as Hlt by (by apply lookup_lt_Some in Hi).
    do 8 (destruct i as [|i]; [by injection Hi as <-|]). lia.
  - intros Hp t. destruct (Advance p t) as [e|to] eqn:E; [f_equal; by eapply Advance_error|].
    exfalso. apply Hp. exact (Advance_forall (λ e, e.1.1 ∈ Phases) ltac:(edge_fact) _ _ _ E).
Qed.
