(* ===== verification/Satisfaction.v ===== *)
(** * Satisfaction: what reconciliation concludes, and what it writes

    Models internal/domain/acquisition/satisfaction.go, the package placement of
    store.go, and the part of internal/persistence/catalog that writes the two
    answers onto a want's state (reconcile.go's [setManaged] and the tail of
    [ReconcileDesired], acquisition.go's [SetSatisfaction]).  The rows the queries
    return (assets, packages, peers, replicas) are arguments. *)

From S2P Require Import Prelude GoText Policy Candidate AcqState.
#[local] Open Scope Z_scope.

(** ** Content *)

Record AssetView := mkAsset {
  AssetViewID : string;
  SourceClass : string;
  BlobHash : string;
  AssetAttributes : Attributes;
}.

Definition Linked (a : AssetView) : bool :=
  bool_decide (SourceClass a = "linked") || bool_decide (BlobHash a = "").

Record AssetEvaluation := mkAssetEvaluation { AssetID : string; AssetEval : Evaluation }.

Record ContentVerdict := mkContent {
  ContentSatisfaction : Satisfaction;
  SatisfiedBy : string;
  Evaluations : list AssetEvaluation;
}.

(** An asset as the release the scorer knows. *)
Definition assetCandidate (a : AssetView) : ReleaseCandidate :=
  mkCandidate (AssetViewID a) "" "" (AssetAttributes a) "".

Definition EvaluateContent (assets : list AssetView) (p : Profile) : ContentVerdict :=
  if decide (assets = []) then mkContent SatisfactionNot "" []
  else
    let ranked := EvaluateAll (assetCandidate <$> assets) p in
    let evals := (λ r, mkAssetEvaluation (CandID (Candidate r)) (Eval r)) <$> ranked in
    match Best ranked with
    | Some best => mkContent SatisfactionSatisfied (CandID (Candidate best)) evals
    | None => mkContent SatisfactionNot "" evals
    end.

(** ** Placement *)

Record PeerReplica := mkReplica { PeerID : string; Present : bool }.

Record PlacementVerdict := mkPlacement {
  PlacementSatisfaction : Satisfaction;
  PlacementMissing : list string;
  PlacementDetail : string;
}.

Definition FormatLen {A} (l : list A) : string := FormatInt (Z.of_nat (length l)).

(** [present] after the loop over the replicas. *)
Definition presentPeers (replicas : list PeerReplica) : gmap string bool :=
  foldl (λ m r, if Present r then <[PeerID r := true]> m else m) ∅ replicas.

Definition EvaluatePlacement (blobHash : string) (required : list string)
    (replicas : list PeerReplica) : PlacementVerdict :=
  if decide (blobHash = "") then
    mkPlacement SatisfactionNotApplicable []
      "the satisfying asset is linked and has no blob (ADR-0020), so there is nothing to replicate"
  else if decide (required = []) then
    mkPlacement SatisfactionNot [] "no Full Peer is required to hold this, which cannot be right"
  else
    let present := presentPeers replicas in
    let missing := sort_by str_lt
      (filter (λ peer, default false (present !! peer) = false) required) in
    if decide (length missing = 0%nat) then
      mkPlacement SatisfactionSatisfied []
        ("every required peer holds verified bytes (" +:+ FormatLen required +:+ " of "
         +:+ FormatLen required +:+ ")")%string
    else if decide (length missing = length required) then
      mkPlacement SatisfactionNot missing "no required peer holds verified bytes"
    else
      mkPlacement SatisfactionConverging missing
        (FormatInt (Z.of_nat (length required) - Z.of_nat (length missing)) +:+ " of "
         +:+ FormatLen required +:+ " required peers hold verified bytes")%string.

(** A Go map read: an absent key is the zero value. *)
Definition rankOf (v : Satisfaction) : Z :=
  if decide (v = SatisfactionNot) then 0
  else if decide (v = SatisfactionUnknown) then 1
  else if decide (v = SatisfactionConverging) then 2
  else if decide (v = SatisfactionNotApplicable) then 3
  else if decide (v = SatisfactionSatisfied) then 3
  else 0.

(** One turn of the loop: the worst verdict so far, how many are placed, and
    whether this is the first turn. *)
Definition worseOf (acc : PlacementVerdict * Z * bool) (v : PlacementVerdict) :
    PlacementVerdict * Z * bool :=
  let '(worst, placed, first) := acc in
  (if first || (rankOf (PlacementSatisfaction v) <? rankOf (PlacementSatisfaction worst))
   then v else worst,
   if decide (PlacementSatisfaction v = SatisfactionSatisfied) then placed + 1 else placed,
   false).

Definition EvaluatePackagePlacement (blobs required : list string)
    (replicasOf : string → list PeerReplica) : PlacementVerdict :=
  if decide (blobs = []) then
    mkPlacement SatisfactionUnknown [] "the package lists no files"
  else
    let '(worst, placed, _) :=
      foldl worseOf (mkPlacement SatisfactionSatisfied [] "", 0, true)
        ((λ b, EvaluatePlacement b required (replicasOf b)) <$> blobs) in
    if decide (PlacementSatisfaction worst = SatisfactionSatisfied) then
      mkPlacement (PlacementSatisfaction worst) (PlacementMissing worst)
        ("every required peer holds every file of the package (" +:+ FormatLen blobs
         +:+ " files)")%string
    else
      mkPlacement (PlacementSatisfaction worst) (PlacementMissing worst)
        (FormatInt placed +:+ " of " +:+ FormatLen blobs +:+ " package files fully placed; worst: "
         +:+ PlacementDetail worst)%string.

(** ** Completeness *)

Record ItemVerdict := mkItemVerdict { ItemID : string; ItemSatisfaction : Satisfaction }.

Record CompletenessVerdict := mkCompleteness {
  CompletenessSatisfaction : Satisfaction;
  CompletenessMissing : list string;
  CompletenessDetail : string;
}.

Definition EvaluateCompleteness (items : list ItemVerdict) : CompletenessVerdict :=
  if decide (items = []) then
    mkCompleteness SatisfactionUnknown [] "no items have been enumerated for this source yet"
  else
    let missing := sort_by str_lt
      (ItemID <$> filter (λ it, ItemSatisfaction it ≠ SatisfactionSatisfied) items) in
    if decide (length missing = 0%nat) then
      mkCompleteness SatisfactionSatisfied []
        ("every enumerated item is held (" +:+ FormatLen items +:+ " of " +:+ FormatLen items
         +:+ ")")%string
    else
      mkCompleteness SatisfactionNot missing
        (FormatInt (Z.of_nat (length items) - Z.of_nat (length missing)) +:+ " of "
         +:+ FormatLen items +:+ " enumerated items are held")%string.

(** ** Writing the answers *)

(** The UPDATE of [setManaged]: every CASE reads the row as it was. *)
Definition setManaged (s : State) (managed : bool) : State :=
  let clears := negb managed && bool_decide (Content s = SatisfactionSatisfied) in
  mkState (StatePhase s) managed
    (if clears then SatisfactionNot else Content s)
    (if clears then SatisfactionUnknown else Placement s).

(** An error rolls the transaction back. *)
Definition SetSatisfaction (s : State) (content placement : Satisfaction) : State * option error :=
  match WithContent s content with
  | (_, Some e) => (s, Some e)
  | (after, None) =>
      match WithPlacement after placement with
      | (_, Some e) => (s, Some e)
      | (after, None) => (after, None)
      end
  end.

Definition satisfyingAsset (assets : list AssetView) (id : string) : AssetView :=
  default (mkAsset "" "" "" ∅) (head (filter (λ a, AssetViewID a = id) assets)).

(** Placement is a question about the bytes that satisfy. *)
Definition reconcilePlacement (content : ContentVerdict) (assets : list AssetView)
    (packages : gmap string (list string)) (required : list string)
    (replicasOf : string → list PeerReplica) : PlacementVerdict :=
  if decide (ContentSatisfaction content = SatisfactionSatisfied) then
    let satisfying := satisfyingAsset assets (SatisfiedBy content) in
    match packages !! AssetViewID satisfying with
    | Some blobs => EvaluatePackagePlacement blobs required replicasOf
    | None => EvaluatePlacement (BlobHash satisfying) required (replicasOf (BlobHash satisfying))
    end
  else mkPlacement SatisfactionUnknown [] "".

(** The result: the two verdicts, the state written and the error. *)
Definition ReconcileDesired (s : State) (assets : list AssetView)
    (packages : gmap string (list string)) (required : list string)
    (replicasOf : string → list PeerReplica) (p : Profile) :
    ContentVerdict * PlacementVerdict * (State * option error) :=
  let content := EvaluateContent assets p in
  let placement := reconcilePlacement content assets packages required replicasOf in
  (content, placement,
   SetSatisfaction (setManaged s (negb (bool_decide (assets = []))))
     (ContentSatisfaction content) (PlacementSatisfaction placement)).

(** ** Laws of the verdicts *)

(** A peer holds a blob when some replica row of it says so. *)
Definition held (replicas : list PeerReplica) (peer : string) : Prop :=
  ∃ r, r ∈ replicas ∧ PeerID r = peer ∧ Present r = true.

Lemma presentPeers_spec replicas peer :
  default false (presentPeers replicas !! peer) = true ↔ held replicas peer.
Proof.
  unfold presentPeers, held. induction replicas as [|r l IH] using rev_ind.
  - cbn [foldl]. rewrite lookup_empty. simpl. split; [done|]. intros (r & Hr & _). by apply elem_of_nil in Hr.
  - rewrite foldl_snoc', exists_snoc, <-IH. destruct (Present r) eqn:Hr; [|naive_solver].
    destruct (decide (PeerID r = peer)) as [->|Hne].
    + rewrite lookup_insert_eq. simpl. naive_solver.
    + rewrite lookup_insert_ne by done. naive_solver.
Qed.

#[export] Instance held_dec replicas peer : Decision (held replicas peer).
Proof.
  refine (cast_if (decide (default false (presentPeers replicas !! peer) = true)));
    by rewrite <-presentPeers_spec.
Defined.

(** The peers a placement verdict is about. *)
Definition lacking (required : list string) (replicas : list PeerReplica) : list string :=
  filter (λ peer, default false (presentPeers replicas !! peer) = false) required.

Lemma elem_of_lacking required replicas peer :
  peer ∈ lacking required replicas ↔ peer ∈ required ∧ ¬ held replicas peer.
Proof.
  unfold lacking. rewrite list_elem_of_filter, <-presentPeers_spec, not_true_iff_false. tauto.
Qed.

Lemma lacking_none required replicas :
  length (lacking required replicas) = 0%nat ↔ ∀ peer, peer ∈ required → held replicas peer.
Proof.
  rewrite length_zero_iff_nil. split.
  - intros Hl peer Hp. destruct (decide (held replicas peer)) as [|Hn]; [done|].
    assert (peer ∈ lacking required replicas) as H by (by apply elem_of_lacking).
    rewrite Hl in H. by apply elem_of_nil in H.
  - intros H. destruct (lacking _ _) as [|x l] eqn:E; [done|].
    assert (x ∈ lacking required replicas) as [Hx Hn]%elem_of_lacking by (rewrite E; left).
    destruct Hn. auto.
Qed.

Lemma filter_length_all {A} (P : A → Prop) `{∀ x, Decision (P x)} l :
  length (filter P l) = length l ↔ ∀ x, x ∈ l → P x.
Proof.
  induction l as [|x l IH]; [set_solver|]. rewrite filter_cons. case_decide as Hx; simpl.
  - setoid_rewrite elem_of_cons. rewrite Nat.succ_inj_wd, IH. naive_solver.
  - pose proof (length_filter P l). split; [lia|]. intros Hall. destruct Hx. apply Hall. left.
Qed.

Lemma lacking_all required replicas :
  length (lacking required replicas) = length required ↔
  ∀ peer, peer ∈ required → ¬ held replicas peer.
Proof.
  unfold lacking. rewrite filter_length_all.
  setoid_rewrite <-presentPeers_spec. setoid_rewrite not_true_iff_false. done.
Qed.

(** [EvaluatePlacement] on a blob, in terms of who lacks it. *)
Lemma placement_cases hash required replicas :
  let v := EvaluatePlacement hash required replicas in
  (hash = "" ∧ PlacementSatisfaction v = SatisfactionNotApplicable ∧ PlacementMissing v = []) ∨
  (hash ≠ "" ∧ required = [] ∧ PlacementSatisfaction v = SatisfactionNot ∧ PlacementMissing v = []) ∨
  (hash ≠ "" ∧ required ≠ [] ∧ PlacementMissing v = sort_by str_lt (lacking required replicas) ∧
    ((PlacementSatisfaction v = SatisfactionSatisfied ∧
        ∀ peer, peer ∈ required → held replicas peer) ∨
     (PlacementSatisfaction v = SatisfactionNot ∧
        ∀ peer, peer ∈ required → ¬ held replicas peer) ∨
     (PlacementSatisfaction v = SatisfactionConverging ∧
        (∃ peer, peer ∈ required ∧ held replicas peer) ∧
        (∃ peer, peer ∈ required ∧ ¬ held replicas peer)))).
Proof.
  cbv zeta. unfold EvaluatePlacement. fold (lacking required replicas).
  case_decide as Hh; [by left|right]. case_decide as Hr; [by left|right].
  rewrite length_sort_by. split; [done|split; [done|]].
  case_decide as H0; simpl; [|case_decide as H1; simpl].
  - split; [|left; by rewrite <-lacking_none].
    apply length_zero_iff_nil in H0. by rewrite H0.
  - split; [done|]. right. left. by rewrite <-lacking_all.
  - split; [done|]. right. right. split; [done|]. split.
    + destruct (decide (Exists (held replicas) required)) as [He|He].
      * by rewrite Exists_exists in He.
      * destruct H1. apply lacking_all. intros p Hp Hh'. apply He, Exists_exists. eauto.
    + destruct (lacking required replicas) as [|x l] eqn:E; [done|]. exists x.
      apply elem_of_lacking. rewrite E. left.
Qed.

(** Placement is satisfied exactly when there is a blob, some Full Peer is required
    to hold it and each of them holds verified bytes; converging exactly when some
    required peer holds them and some does not; not applicable exactly for the linked
    asset without a blob; and the missing list is, sorted, exactly the required peers
    that hold nothing. *)
Theorem placement_spec (hash : string) (required : list string) (replicas : list PeerReplica) :
  let v := EvaluatePlacement hash required replicas in
  (PlacementSatisfaction v = SatisfactionSatisfied ↔
     hash ≠ "" ∧ required ≠ [] ∧ ∀ peer, peer ∈ required → held replicas peer) ∧
  (PlacementSatisfaction v = SatisfactionConverging ↔
     hash ≠ "" ∧ (∃ peer, peer ∈ required ∧ held replicas peer) ∧
     (∃ peer, peer ∈ required ∧ ¬ held replicas peer)) ∧
  (PlacementSatisfaction v = SatisfactionNotApplicable ↔ hash = "") ∧
  PlacementSatisfaction v ≠ SatisfactionUnknown ∧
  StronglySorted (not_after str_lt) (PlacementMissing v) ∧
  (∀ peer, peer ∈ PlacementMissing v ↔ hash ≠ "" ∧ peer ∈ required ∧ ¬ held replicas peer).
Proof.
  cbv zeta.
  destruct (placement_cases hash required replicas)
    as [(Hh & Hs & Hm)|[(Hh & Hr & Hs & Hm)|(Hh & Hr & Hm & Hc)]]; rewrite Hm.
  - rewrite Hs. split_and!; [..|constructor|intros peer; rewrite elem_of_nil];
      try done; (split; [done|]); tauto.
  - rewrite Hs, Hr. split_and!; [..|constructor|intros peer; rewrite !elem_of_nil];
      try done; (split; [done|]); try naive_solver.
    intros (_ & (x & Hx & _) & _). by apply elem_of_nil in Hx.
  - assert (∃ x, x ∈ required) as [x Hx] by (destruct required as [|x l]; [done|exists x; left]).
    split_and!; [..|apply (sort_by_sorted str_lt)|]; cycle 4.
    { intros peer. rewrite elem_of_sort_by, elem_of_lacking. naive_solver. }
    all: destruct Hc as [(-> & H)|[(-> & H)|(-> & (p & Hp & H) & q & Hq & Hn)]];
      try done; (split; [try done; intros _|]); try naive_solver.
    intros (_ & (p & Hp & Hh') & _). by destruct (H p Hp).
Qed.

(** *** The package fold *)

Definition placed (v : PlacementVerdict) : Prop := PlacementSatisfaction v = SatisfactionSatisfied.

Lemma rankOf_top v : 3 ≤ rankOf v ↔ v = SatisfactionSatisfied ∨ v = SatisfactionNotApplicable.
Proof.
  unfold rankOf. repeat case_decide; subst; (split; [intros; auto; try lia|intros [?|?]; done || lia]).
Qed.

Lemma rankOf_le v : rankOf v ≤ 3.
Proof. unfold rankOf. repeat case_decide; lia. Qed.

(** The worst verdict kept is one of those seen, none ranks below it, and on a
    tie the earliest stays. *)
Lemma worst_spec v0 vs n :
  let w := (foldl worseOf (v0, n, false) vs).1.1 in
  (w = v0 ∧ (∀ v, v ∈ vs →
     rankOf (PlacementSatisfaction v0) ≤ rankOf (PlacementSatisfaction v))) ∨
  (rankOf (PlacementSatisfaction w) < rankOf (PlacementSatisfaction v0) ∧ w ∈ vs).
Proof.
  cbv zeta. revert v0 n. induction vs as [|v vs IH]; intros v0 n; [left; split; [done|]; set_solver|].
  cbn [foldl worseOf orb]. set (n' := if decide _ then _ else _).
  destruct (Z.ltb_spec (rankOf (PlacementSatisfaction v)) (rankOf (PlacementSatisfaction v0))) as [Hlt|Hge].
  - right. destruct (IH v n') as [[-> _]|[Hw Hin]]; split; try lia; [left|by right].
  - destruct (IH v0 n') as [[-> Hall]|[Hw Hin]]; [left|right]; split; try done; [|by right].
    intros u [->|Hu]%elem_of_cons; [lia|auto].
Qed.

Section package.
Context (required : list string) (replicasOf : string → list PeerReplica).

Definition verdictOf (b : string) : PlacementVerdict :=
  EvaluatePlacement b required (replicasOf b).

Lemma package_worst b0 rest : ∃ n,
  PlacementSatisfaction (EvaluatePackagePlacement (b0 :: rest) required replicasOf) =
  PlacementSatisfaction (foldl worseOf (verdictOf b0, n, false) (verdictOf <$> rest)).1.1.
Proof.
  unfold EvaluatePackagePlacement. rewrite decide_False by done. rewrite fmap_cons.
  exists (if decide (PlacementSatisfaction (verdictOf b0) = SatisfactionSatisfied) then 0 + 1 else 0).
  cbn [foldl worseOf orb]. fold verdictOf. fold (verdictOf b0).
  set (n := if decide (PlacementSatisfaction (verdictOf b0) = _) then _ else _).
  destruct (foldl worseOf (verdictOf b0, n, false) _) as [[w k] fl].
  by destruct (decide (PlacementSatisfaction w = SatisfactionSatisfied)).
Qed.

Lemma verdictOf_placed b : b ≠ "" →
  placed (verdictOf b) ↔
  required ≠ [] ∧ ∀ peer, peer ∈ required → held (replicasOf b) peer.
Proof.
  intros Hne. unfold placed. destruct (placement_cases b required (replicasOf b)) as
    [(?&_)|[(_ & Hr & Hs & _)|(_ & Hr & _ & Hc)]]; [done|..]; fold (verdictOf b) in *.
  - rewrite Hs. split; [done|tauto].
  - destruct Hc as [(-> & H)|[(-> & H)|(-> & _ & q & Hq & Hn)]]; [tauto|..];
      (split; [done|]; intros [_ Hh]); [|by destruct Hn; auto].
    destruct required as [|x l]; [done|]. destruct (H x); [left|apply Hh; left].
Qed.

Lemma verdictOf_top b :
  3 ≤ rankOf (PlacementSatisfaction (verdictOf b)) ↔ b = "" ∨ placed (verdictOf b).
Proof.
  rewrite rankOf_top. unfold placed. destruct (decide (b = "")) as [->|Hb]; [by split; auto|].
  destruct (placement_cases b required (replicasOf b)) as
    [(?&_)|[(_ & Hr & Hs & _)|(_ & Hr & _ & Hc)]]; [done|..]; fold (verdictOf b) in *.
  - rewrite Hs. split; intros [|]; done.
  - destruct Hc as [(-> & H)|[(-> & H)|(-> & _ & q & Hq & Hn)]]; split; intros [|]; auto; done.
Qed.

Lemma package_placed b0 rest :
  PlacementSatisfaction (EvaluatePackagePlacement (b0 :: rest) required replicasOf)
    = SatisfactionSatisfied ↔
  placed (verdictOf b0) ∧ ∀ b, b ∈ rest → b = "" ∨ placed (verdictOf b).
Proof.
  destruct (package_worst b0 rest) as [n ->].
  destruct (worst_spec (verdictOf b0) (verdictOf <$> rest) n) as [[-> Hall]|[Hlt Hin]].
  - unfold placed at 1. split; [|tauto]. intros Hp. split; [done|]. intros b Hb.
    apply verdictOf_top. specialize (Hall (verdictOf b)).
    rewrite Hp in Hall. by apply Hall, list_elem_of_fmap_2.
  - split.
    + intros Hp. rewrite Hp in Hlt. pose proof (rankOf_le (PlacementSatisfaction (verdictOf b0))).
      change (rankOf SatisfactionSatisfied) with 3 in Hlt. lia.
    + intros [Hp Hr]. apply list_elem_of_fmap in Hin as (b & Hw & Hb). rewrite Hw in Hlt.
      specialize (Hr b Hb). apply verdictOf_top in Hr.
      pose proof (rankOf_le (PlacementSatisfaction (verdictOf b0))). lia.
Qed.
End package.

(** A store package counts as placed exactly when its first file is a blob that
    every required peer holds, and each other file is either such a blob or has no
    blob at all: for a package whose every file is a blob that is "only when every
    file of it is"; a file with no blob after the first does not count against it. *)
Theorem package_placement_spec (blobs required : list string)
    (replicasOf : string → list PeerReplica) :
  PlacementSatisfaction (EvaluatePackagePlacement blobs required replicasOf)
    = SatisfactionSatisfied ↔
  required ≠ [] ∧ (∃ b rest, blobs = b :: rest ∧ b ≠ "") ∧
  ∀ b peer, b ∈ blobs → b ≠ "" → peer ∈ required → held (replicasOf b) peer.
Proof.
  destruct blobs as [|b0 rest].
  { split; [done|]. by intros (_ & (b & rest & ? & _) & _). }
  rewrite package_placed. split.
  - intros [H0 Hr]. destruct (decide (b0 = "")) as [->|Hb0]; [done|].
    pose proof (proj1 (verdictOf_placed _ _ _ Hb0) H0) as [Hreq Hh0].
    split_and!; [done|eauto|]. intros b peer [->|Hb]%elem_of_cons Hne Hp; [by apply Hh0|].
    destruct (Hr b Hb) as [|Hpl]; [done|]. by apply (proj1 (verdictOf_placed _ _ _ Hne) Hpl).
  - intros (Hreq & (b' & rest' & Heq & Hb0) & H). injection Heq as <- <-. split.
    + apply verdictOf_placed; [done|]. split; [done|]. intros peer. by apply H; [left|].
    + intros b Hb. destruct (decide (b = "")) as [|Hne]; [by left|right].
      apply verdictOf_placed; [done|]. split; [done|]. intros peer. by apply H; [right|].
Qed.

(** A followed source is complete exactly when items have been enumerated and each of
    them is satisfied; it is unknown exactly when none was enumerated; and otherwise
    the missing list is, sorted, the items whose verdict is not satisfied, the
    unexamined ones included. *)
Theorem completeness_spec (items : list ItemVerdict) :
  let v := EvaluateCompleteness items in
  (CompletenessSatisfaction v = SatisfactionSatisfied ↔
     items ≠ [] ∧ ∀ it, it ∈ items → ItemSatisfaction it = SatisfactionSatisfied) ∧
  (CompletenessSatisfaction v = SatisfactionUnknown ↔ items = []) ∧
  valid contentValues (CompletenessSatisfaction v) = true ∧
  CompletenessMissing v ≡ₚ
    ItemID <$> filter (λ it, ItemSatisfaction it ≠ SatisfactionSatisfied) items ∧
  StronglySorted (not_after str_lt) (CompletenessMissing v).
Proof.
  cbv zeta. unfold EvaluateCompleteness.
  case_decide as Hi; [subst; simpl; split_and!; try done; [|constructor]; split; [done|tauto]|].
  rewrite length_sort_by, length_fmap. set (l := filter _ items).
  assert (length l = 0%nat ↔ ∀ it, it ∈ items → ItemSatisfaction it = SatisfactionSatisfied) as Hl.
  { subst l. rewrite length_zero_iff_nil. split.
    - intros Hn it Hit. apply dec_stable. intros Hne.
      assert (it ∈ filter (λ it, ItemSatisfaction it ≠ SatisfactionSatisfied) items) as Hin
        by (by apply list_elem_of_filter). rewrite Hn in Hin. by apply elem_of_nil in Hin.
    - intros Hall. destruct (filter _ _) as [|it k] eqn:E; [done|].
      assert (it ∈ it :: k) as Hit by left. rewrite <-E in Hit.
      apply list_elem_of_filter in Hit as [Hn Hit]. by destruct (Hn (Hall it Hit)). }
  case_decide as H0; simpl.
  - apply length_zero_iff_nil in H0 as Hnil. rewrite Hnil.
    split_and!; try done; [|constructor]. split; [|done]. intros _. split; [done|by apply Hl].
  - split_and!; try done.
    + split; [done|]. intros [_ H]. destruct H0. by apply Hl.
    + apply sort_by_perm.
    + apply (sort_by_sorted str_lt).
Qed.

(** *** Content *)

Lemma content_cases assets p :
  let v := EvaluateContent assets p in
  (ContentSatisfaction v = SatisfactionNot ∧
     ∀ a, a ∈ assets → Accepted (Evaluate (assetCandidate a) p) = false) ∨
  (ContentSatisfaction v = SatisfactionSatisfied ∧ assets ≠ [] ∧
     ∃ a, a ∈ assets ∧ SatisfiedBy v = AssetViewID a ∧
       Accepted (Evaluate (assetCandidate a) p) = true ∧
       ∀ a', a' ∈ assets → Accepted (Evaluate (assetCandidate a') p) = true →
         Score (Evaluate (assetCandidate a') p) ≤ Score (Evaluate (assetCandidate a) p)).
Proof.
  cbv zeta. unfold EvaluateContent. case_decide as Ha.
  { left. subst. split; [done|]. intros a Hin. by apply elem_of_nil in Hin. }
  set (ranked := EvaluateAll _ p).
  assert (∀ a, a ∈ assets → rank p (assetCandidate a) ∈ ranked) as Hin.
  { intros a Hin. apply EvaluateAll_elem. split; [|done].
    exact (list_elem_of_fmap_2 assetCandidate _ _ Hin). }
  destruct (Best ranked) as [r|] eqn:Hb; [right|left].
  - destruct (Best_spec _ _ (EvaluateAll_sorted _ _) Hb) as (Hr & Hacc & Hmin).
    apply EvaluateAll_elem in Hr as [(a & Hca & Hina)%list_elem_of_fmap He].
    split; [done|]. split; [done|]. exists a. rewrite Hca in He. rewrite He in Hacc.
    split_and!; [done|by rewrite Hca|done|]. intros a' Ha' Hacc'.
    rewrite <-He. apply (Ranked_less_score r (rank p (assetCandidate a'))); [by rewrite He|done|].
    apply Hmin; [by apply Hin|done].
  - split; [done|]. intros a Hina. rewrite Best_None in Hb.
    apply (Hb (rank p (assetCandidate a))). by apply Hin.
Qed.

(** A want's content is satisfied exactly when some asset is accepted by the same
    evaluation that scores a release, never merely because bytes exist, and is
    otherwise not satisfied (never unknown: something looked); the satisfying asset is
    an accepted one that no accepted asset outscores; and every asset is reported with
    its own evaluation. *)
Theorem content_spec (assets : list AssetView) (p : Profile) :
  let v := EvaluateContent assets p in
  (ContentSatisfaction v = SatisfactionSatisfied ↔
     ∃ a, a ∈ assets ∧ Accepted (Evaluate (assetCandidate a) p) = true) ∧
  (ContentSatisfaction v = SatisfactionNot ↔
     ∀ a, a ∈ assets → Accepted (Evaluate (assetCandidate a) p) = false) ∧
  (ContentSatisfaction v = SatisfactionSatisfied →
     ∃ a, a ∈ assets ∧ SatisfiedBy v = AssetViewID a ∧
       Accepted (Evaluate (assetCandidate a) p) = true ∧
       ∀ a', a' ∈ assets → Accepted (Evaluate (assetCandidate a') p) = true →
         Score (Evaluate (assetCandidate a') p) ≤ Score (Evaluate (assetCandidate a) p)) ∧
  Evaluations v ≡ₚ
    (λ a, mkAssetEvaluation (AssetViewID a) (Evaluate (assetCandidate a) p)) <$> assets.
Proof.
  cbv zeta. split_and!; [..|unfold EvaluateContent; case_decide as Ha; [by subst|]].
  1-3: destruct (content_cases assets p) as [(-> & H)|(-> & _ & a & Ha & Hs & Hacc & Hmax)].
  - split; [done|]. intros (a & Ha & Hacc). rewrite H in Hacc by done. done.
  - split; eauto.
  - by split.
  - split; [done|]. intros H. rewrite H in Hacc by done. done.
  - done.
  - intros _. exists a. auto.
  - transitivity ((λ r, mkAssetEvaluation (CandID (Candidate r)) (Eval r)) <$>
      EvaluateAll (assetCandidate <$> assets) p); [by destruct (Best _)|].
    unfold EvaluateAll, SortRanked. rewrite (sort_by_perm Ranked_less).
    by rewrite <-!list_fmap_compose.
Qed.

(** *** Reconciliation *)

Lemma setManaged_coherent s m :
  coherent s → coherent (setManaged s m) ∧
    (Content (setManaged s m) = SatisfactionSatisfied → m = true).
Proof.
  intros (Hph & Hc & Hp & Hm & Hpc). unfold setManaged, coherent.
  destruct m; simpl.
  - split_and!; try done; auto.
  - destruct (bool_decide_reflect (Content s = SatisfactionSatisfied)) as [Hs|Hs]; simpl;
      split_and!; try done; try decide_vm; try (intros; tauto).
Qed.

Lemma SetSatisfaction_ok s c pl :
  coherent s → c ∈ contentValues → pl ∈ placementValues →
  (c = SatisfactionSatisfied → Managed s = true) →
  (c ≠ SatisfactionSatisfied → pl = SatisfactionUnknown) →
  SetSatisfaction s c pl = (mkState (StatePhase s) (Managed s) c pl, None) ∧
  coherent (mkState (StatePhase s) (Managed s) c pl).
Proof.
  intros (Hph & Hc & Hp & Hm & Hpc) Hcv Hplv Hcm Hcp. unfold SetSatisfaction, WithContent.
  assert (coherent (mkState (StatePhase s) (Managed s) c pl)) as Hout.
  { split_and!; try done; simpl.
    destruct (decide (c = SatisfactionSatisfied)) as [|Hn]; [done|].
    rewrite (Hcp Hn). by intros [?|?]. }
  destruct (decide (c ≠ SatisfactionSatisfied)) as [Hn|Hn]; simpl.
  - assert (coherent (mkState (StatePhase s) (Managed s) c SatisfactionUnknown)) as Hmid
      by (by rewrite (Hcp Hn) in Hout).
    replace (if decide (Placement s ≠ SatisfactionUnknown)
      then mkState (StatePhase s) (Managed s) c SatisfactionUnknown
      else mkState (StatePhase s) (Managed s) c (Placement s))
      with (mkState (StatePhase s) (Managed s) c SatisfactionUnknown)
      by (case_decide as Hd; [done|by rewrite Hd]).
    rewrite checked_ok by done. unfold WithPlacement. simpl. by rewrite checked_ok.
  - apply dec_stable in Hn. rewrite checked_ok.
    + unfold WithPlacement. simpl. by rewrite checked_ok.
    + split_and!; try done; auto.
Qed.

Lemma EvaluatePlacement_valid hash required replicas :
  PlacementSatisfaction (EvaluatePlacement hash required replicas) ∈ placementValues.
Proof. unfold EvaluatePlacement. repeat case_decide; simpl; decide_vm. Qed.

Lemma EvaluatePackagePlacement_valid blobs required replicasOf :
  PlacementSatisfaction (EvaluatePackagePlacement blobs required replicasOf) ∈ placementValues.
Proof.
  destruct blobs as [|b0 rest]; [decide_vm|].
  destruct (package_worst required replicasOf b0 rest) as [n ->].
  destruct (worst_spec (verdictOf required replicasOf b0)
    (verdictOf required replicasOf <$> rest) n) as [[-> _]|[_ Hin]];
    [|apply list_elem_of_fmap in Hin as (b & -> & _)]; apply EvaluatePlacement_valid.
Qed.

Lemma reconcilePlacement_valid content assets packages required replicasOf :
  PlacementSatisfaction (reconcilePlacement content assets packages required replicasOf)
    ∈ placementValues ∧
  (ContentSatisfaction content ≠ SatisfactionSatisfied →
   PlacementSatisfaction (reconcilePlacement content assets packages required replicasOf)
     = SatisfactionUnknown).
Proof.
  unfold reconcilePlacement. case_decide; [|split; [decide_vm|done]].
  split; [|done]. case_match; auto using EvaluatePlacement_valid, EvaluatePackagePlacement_valid.
Qed.

Lemma reconcile_ok s assets packages required replicasOf p :
  coherent s →
  let content := EvaluateContent assets p in
  let placement := reconcilePlacement content assets packages required replicasOf in
  let s' := mkState (StatePhase s) (negb (bool_decide (assets = [])))
              (ContentSatisfaction content) (PlacementSatisfaction placement) in
  ReconcileDesired s assets packages required replicasOf p = (content, placement, (s', None)) ∧
  coherent s'.
Proof.
  intros Hs. cbv zeta. unfold ReconcileDesired.
  destruct (setManaged_coherent s (negb (bool_decide (assets = []))) Hs) as [Hm _].
  destruct (reconcilePlacement_valid (EvaluateContent assets p) assets packages required replicasOf)
    as [Hpv Hpu].
  destruct (SetSatisfaction_ok _ (ContentSatisfaction (EvaluateContent assets p))
    _ Hm ltac:(destruct (content_cases assets p) as [(-> & _)|(-> & _)]; decide_vm) Hpv) as [-> Hc].
  - destruct (content_cases assets p) as [(-> & _)|(_ & Hne & _)]; [done|].
    intros _. simpl. by rewrite bool_decide_false.
  - done.
  - done.
Qed.

(** Reconciliation records its answer, whatever it concludes: on every coherent state
    the write of the held-bytes fact and of the two verdicts succeeds, the pipeline
    phase is untouched, the new state is coherent and says what the verdicts say; and
    a second pass over the same library and fabric changes nothing. *)
Theorem reconcile_spec (s : State) (assets : list AssetView)
    (packages : gmap string (list string)) (required : list string)
    (replicasOf : string → list PeerReplica) (p : Profile) :
  Validate s = None →
  ∃ content placement s',
    ReconcileDesired s assets packages required replicasOf p = (content, placement, (s', None)) ∧
    content = EvaluateContent assets p ∧
    StatePhase s' = StatePhase s ∧ Managed s' = negb (bool_decide (assets = [])) ∧
    Content s' = ContentSatisfaction content ∧ Placement s' = PlacementSatisfaction placement ∧
    Validate s' = None ∧
    ReconcileDesired s' assets packages required replicasOf p = (content, placement, (s', None)).
Proof.
  intros Hs%State_Validate_iff.
  destruct (reconcile_ok s assets packages required replicasOf p Hs) as [H1 Hs'].
  destruct (reconcile_ok _ assets packages required replicasOf p Hs') as [H2 _].
  eexists _, _, _. split; [exact H1|]. split_and!; try done. by apply State_Validate_iff.
Qed.

(** A want whose bytes went away between two passes. *)
Lemma reconcile_spec_witness :
  ∃ c pl s',
    ReconcileDesired (mkState PhaseSearching true SatisfactionSatisfied SatisfactionConverging)
      [] ∅ ["peer"] (λ _, []) (mkProfile "" "p" "" [] [] [] []) = (c, pl, (s', None)) ∧
    Managed s' = false.
Proof.
  destruct (reconcile_spec (mkState PhaseSearching true SatisfactionSatisfied SatisfactionConverging)
    [] ∅ ["peer"] (λ _, []) (mkProfile "" "p" "" [] [] [] []) eq_refl)
    as (c & pl & s' & H & _ & _ & Hm & _).
  exists c, pl, s'. split; [exact H|exact Hm].
Defined.
