(* ===== verification/Upgrade.v ===== *)
(** * Upgrade: replacing a copy that is held by a better one

    Models internal/domain/acquisition/upgrade.go: the verdict of an upgrade scan,
    the eligibility listing, and the choice a search makes given what is held. *)

From S2P Require Import Prelude GoText Policy Candidate.
#[local] Open Scope Z_scope.

(** ** Data *)

Abbreviation UpgradeStatus := string (only parsing).

Definition UpgradeAvailable : UpgradeStatus := "available".
Definition UpgradeNotMonitored : UpgradeStatus := "not_monitored".
Definition UpgradeTerminal : UpgradeStatus := "terminal".
Definition UpgradeNotSatisfied : UpgradeStatus := "not_satisfied".
Definition UpgradeNoBetterCandidate : UpgradeStatus := "no_better_candidate".

Record Incumbent := mkIncumbent { IncumbentAsset : string; IncumbentEval : Evaluation }.

(** The zero values of Go's structs. *)
Definition zeroCandidate : ReleaseCandidate := mkCandidate "" "" "" ∅ "".
Definition zeroEvaluation : Evaluation := mkEvaluation "" false 0 false [].
Definition zeroRanked : Ranked := mkRanked zeroCandidate zeroEvaluation.

Record UpgradeVerdict := mkVerdict {
  Status : UpgradeStatus;
  VerdictDetail : string;
  VerdictCandidate : ReleaseCandidate;
  VerdictEval : Evaluation;
  Improvement : Z;
}.

Record UpgradeRequest := mkRequest {
  Monitor : bool;
  ReqIncumbent : Incumbent;
  Satisfied : bool;
  Candidates : list ReleaseCandidate;
  ReqProfile : Profile;
}.

(** ** Operations *)

Definition noUpgrade (status : UpgradeStatus) (detail : string) : UpgradeVerdict :=
  mkVerdict status detail zeroCandidate zeroEvaluation 0.

Definition ConsiderUpgrade (req : UpgradeRequest) : UpgradeVerdict :=
  if negb (Monitor req) then
    noUpgrade UpgradeNotMonitored
      "this want is not monitored, so it is finished once it is satisfied"
  else if negb (Satisfied req) || bool_decide (IncumbentAsset (ReqIncumbent req) = "") then
    noUpgrade UpgradeNotSatisfied
      "nothing acceptable is held, so this is an acquisition rather than an upgrade"
  else if EvalTerminal (IncumbentEval (ReqIncumbent req)) then
    noUpgrade UpgradeTerminal
      "what is held already meets every terminal condition, so there is nothing left to want"
  else
    let incumbentScore := Score (IncumbentEval (ReqIncumbent req)) in
    match Best (EvaluateAll (Candidates req) (ReqProfile req)) with
    | None =>
        noUpgrade UpgradeNoBetterCandidate
          ("no candidate is acceptable; what is held scores " +:+ FormatInt incumbentScore)%string
    | Some best =>
        let score := Score (Eval best) in
        if score <=? incumbentScore then
          noUpgrade UpgradeNoBetterCandidate
            ("the best candidate scores " +:+ FormatInt score +:+ ", which "
             +:+ (if (score <? incumbentScore)%Z then "is worse than" else "matches")
             +:+ " what is held (" +:+ FormatInt incumbentScore +:+ ")")%string
        else
          mkVerdict UpgradeAvailable
            ("a candidate scores " +:+ FormatInt score +:+ " against the "
             +:+ FormatInt incumbentScore +:+ " that is held")%string
            (Candidate best) (Eval best) (wrap_i64 (score - incumbentScore))
    end.

Definition incumbentAssetID (satisfied : bool) (e : Evaluation) : string :=
  if negb satisfied then ""
  else if decide (CandidateID e ≠ "") then CandidateID e
  else "unknown".

Definition emptyProfile : Profile := mkProfile "" "" "" [] [] [] [].

Definition UpgradableVerdict (monitor satisfied : bool) (incumbent : Evaluation) : UpgradeVerdict :=
  ConsiderUpgrade (mkRequest monitor
    (mkIncumbent (incumbentAssetID satisfied incumbent) incumbent) satisfied [] emptyProfile).

Definition Eligible (monitor satisfied : bool) (incumbent : Evaluation) : bool :=
  let v := UpgradableVerdict monitor satisfied incumbent in
  bool_decide (Status v = UpgradeNoBetterCandidate) || bool_decide (Status v = UpgradeAvailable).

Definition BestOver (ranked : list Ranked) (incumbent : Incumbent) : option Ranked :=
  match Best ranked with
  | None => None
  | Some best =>
      if decide (IncumbentAsset incumbent = "") then Some best
      else if EvalTerminal (IncumbentEval incumbent) then None
      else if Score (Eval best) <=? Score (IncumbentEval incumbent) then None
      else Some best
  end.

(** ** What they promise *)

Lemma Best_all_spec cs p r :
  Best (EvaluateAll cs p) = Some r →
  Candidate r ∈ cs ∧ Eval r = Evaluate (Candidate r) p ∧ Accepted (Eval r) = true ∧
  ∀ c, c ∈ cs → Accepted (Evaluate c p) = true → Score (Evaluate c p) ≤ Score (Eval r).
Proof.
  intros (Hr & Ha & Hmin)%(Best_spec _ _ (EvaluateAll_sorted cs p)).
  apply EvaluateAll_elem in Hr as [Hc He]. split_and!; [done..|]. intros c Hcin Hca.
  apply (Ranked_less_score r (rank p c)); [done..|]. apply Hmin; [by apply EvaluateAll_elem|done].
Qed.

Lemma Best_all_None cs p :
  Best (EvaluateAll cs p) = None → ∀ c, c ∈ cs → Accepted (Evaluate c p) = false.
Proof.
  intros Hb c Hc. rewrite Best_None in Hb. apply (Hb (rank p c)). by apply EvaluateAll_elem.
Qed.

(** A want whose state allows an upgrade. *)
Definition open_for_upgrade (req : UpgradeRequest) : Prop :=
  Monitor req = true ∧ Satisfied req = true ∧ IncumbentAsset (ReqIncumbent req) ≠ "" ∧
  EvalTerminal (IncumbentEval (ReqIncumbent req)) = false.

Lemma open_upgrade req :
  open_for_upgrade req →
  match Best (EvaluateAll (Candidates req) (ReqProfile req)) with
  | Some r =>
      if Score (Eval r) <=? Score (IncumbentEval (ReqIncumbent req))
      then Status (ConsiderUpgrade req) = UpgradeNoBetterCandidate
      else Status (ConsiderUpgrade req) = UpgradeAvailable ∧
           VerdictCandidate (ConsiderUpgrade req) = Candidate r ∧
           VerdictEval (ConsiderUpgrade req) = Eval r
  | None => Status (ConsiderUpgrade req) = UpgradeNoBetterCandidate
  end.
Proof.
  intros (Hm & Hs & Ha & Ht). unfold ConsiderUpgrade.
  rewrite Hm, Hs, bool_decide_false, Ht by done. simpl.
  destruct (Best _) as [r|]; [|done]. by destruct (_ <=? _).
Qed.

Lemma closed_upgrade req :
  ¬ open_for_upgrade req →
  Status (ConsiderUpgrade req) ∈ [UpgradeNotMonitored; UpgradeNotSatisfied; UpgradeTerminal].
Proof.
  unfold open_for_upgrade, ConsiderUpgrade. intros Hn.
  destruct (Monitor req); simpl; [|set_solver].
  destruct (Satisfied req); simpl; [|set_solver].
  destruct (bool_decide_reflect (IncumbentAsset (ReqIncumbent req) = "")); [set_solver|].
  destruct (EvalTerminal _); [set_solver|]. by destruct Hn.
Qed.

(** An upgrade is offered exactly when the want is monitored, satisfied by a copy that
    is not terminal, and some candidate its profile accepts scores strictly more than
    that copy; the one offered is such a candidate, with its own evaluation, and none
    that is accepted outscores it.  A tie leaves what is held alone. *)
Theorem upgrade_strictly_better (req : UpgradeRequest) :
  let v := ConsiderUpgrade req in
  let held := Score (IncumbentEval (ReqIncumbent req)) in
  (Status v = UpgradeAvailable ↔
     open_for_upgrade req ∧
     ∃ c, c ∈ Candidates req ∧ Accepted (Evaluate c (ReqProfile req)) = true ∧
       held < Score (Evaluate c (ReqProfile req))) ∧
  (Status v = UpgradeAvailable →
     VerdictCandidate v ∈ Candidates req ∧
     VerdictEval v = Evaluate (VerdictCandidate v) (ReqProfile req) ∧
     Accepted (VerdictEval v) = true ∧ held < Score (VerdictEval v) ∧
     ∀ c, c ∈ Candidates req → Accepted (Evaluate c (ReqProfile req)) = true →
       Score (Evaluate c (ReqProfile req)) ≤ Score (VerdictEval v)).
Proof.
  cbv zeta. assert (open_for_upgrade req ∨ ¬ open_for_upgrade req) as [Ho|Ho].
  { unfold open_for_upgrade. destruct (Monitor req), (Satisfied req), (EvalTerminal _),
      (decide (IncumbentAsset (ReqIncumbent req) = "")); naive_solver. }
  - pose proof (open_upgrade req Ho) as H.
    destruct (Best _) as [r|] eqn:Hb.
    + destruct (Best_all_spec _ _ _ Hb) as (Hc & He & Hacc & Hmax).
      destruct (Z.leb_spec (Score (Eval r)) (Score (IncumbentEval (ReqIncumbent req)))) as [Hle|Hlt].
      * rewrite H. split; [|done]. split; [done|]. intros (_ & c & Hcin & Hca & Hlt).
        specialize (Hmax c Hcin Hca). lia.
      * destruct H as (-> & -> & ->). rewrite <-He. split; [|done]. split; [|done].
        intros _. split; [done|]. exists (Candidate r). by rewrite <-He.
    + rewrite H. split; [|done]. split; [done|]. intros (_ & c & Hcin & Hca & _).
      by rewrite (Best_all_None _ _ Hb c Hcin) in Hca.
  - pose proof (closed_upgrade req Ho) as H. split; [split; [|tauto]|];
      intros Hs; rewrite Hs in H; exfalso; by cases_in H.
Qed.

(** The want after it acquired the release an upgrade verdict names. *)
Definition after_upgrade (req : UpgradeRequest) (assetID : string) : UpgradeRequest :=
  mkRequest (Monitor req) (mkIncumbent assetID (VerdictEval (ConsiderUpgrade req)))
    (Satisfied req) (Candidates req) (ReqProfile req).

(** A library does not churn: once the offered release is what is held, the same
    candidates, in whatever order they are offered again, hold no further upgrade. *)
Theorem upgrade_no_churn (req : UpgradeRequest) (assetID : string) (offered : list ReleaseCandidate) :
  Status (ConsiderUpgrade req) = UpgradeAvailable →
  offered ≡ₚ Candidates req →
  Status (ConsiderUpgrade (mkRequest (Monitor req) (ReqIncumbent (after_upgrade req assetID))
    (Satisfied req) offered (ReqProfile req))) ≠ UpgradeAvailable.
Proof.
  intros Hav Hperm Hav'.
  assert (open_for_upgrade req) as Ho.
  { unfold open_for_upgrade. revert Hav. unfold ConsiderUpgrade.
    destruct (Monitor req); simpl; [|done]. destruct (Satisfied req); simpl; [|done].
    case_bool_decide; [done|]. by destruct (EvalTerminal _). }
  pose proof (open_upgrade req Ho) as H.
  destruct (Best (EvaluateAll (Candidates req) _)) as [r|] eqn:Hb; [|by rewrite H in Hav].
  destruct (_ <=? _) eqn:Hle; [by rewrite H in Hav|]. destruct H as (_ & _ & He).
  destruct (Best_all_spec _ _ _ Hb) as (_ & _ & _ & Hmax).
  revert Hav'. unfold ConsiderUpgrade at 1. cbn -[ConsiderUpgrade Best EvaluateAll].
  rewrite He. destruct Ho as (-> & -> & _ & _). simpl.
  case_bool_decide; [done|]. destruct (EvalTerminal (Eval r)); [done|].
  destruct (Best (EvaluateAll offered _)) as [r'|] eqn:Hb'; [|done].
  destruct (Best_all_spec _ _ _ Hb') as (Hc' & He' & Hacc' & _).
  assert ((Score (Eval r') <=? Score (Eval r)) = true) as ->; [|done].
  apply Z.leb_le. rewrite He'. apply Hmax; [by rewrite <-Hperm|by rewrite <-He'].
Qed.

(** The search selects what the upgrade scan offers: for a monitored, satisfied want
    [BestOver] of the ranking picks a release exactly when [ConsiderUpgrade] says an
    upgrade is available, and it is that release; for a want that holds nothing it is
    [Best]; and [Eligible] is monitored, satisfied and not terminal. *)
Theorem bestover_agrees (req : UpgradeRequest) :
  let ranked := EvaluateAll (Candidates req) (ReqProfile req) in
  let v := ConsiderUpgrade req in
  (Monitor req = true → Satisfied req = true → IncumbentAsset (ReqIncumbent req) ≠ "" →
     BestOver ranked (ReqIncumbent req) =
       if decide (Status v = UpgradeAvailable)
       then Some (mkRanked (VerdictCandidate v) (VerdictEval v)) else None) ∧
  (IncumbentAsset (ReqIncumbent req) = "" → BestOver ranked (ReqIncumbent req) = Best ranked) ∧
  (∀ monitor satisfied e,
     Eligible monitor satisfied e = monitor && satisfied && negb (EvalTerminal e)).
Proof.
  cbv zeta. split_and!.
  - intros Hm Hs Ha. unfold BestOver.
    destruct (EvalTerminal (IncumbentEval (ReqIncumbent req))) eqn:Ht.
    + rewrite (decide_False (P := Status _ = _)); [destruct (Best _); by repeat case_decide|].
      intros H.
      assert (¬ open_for_upgrade req) as Hn by (unfold open_for_upgrade; rewrite Ht; naive_solver).
      pose proof (closed_upgrade req Hn) as Hc. rewrite H in Hc. by cases_in Hc.
    + pose proof (open_upgrade req ltac:(by split_and!)) as H.
      destruct (Best _) as [r|]; [|by rewrite H].
      rewrite (decide_False (P := IncumbentAsset _ = "")) by done.
      destruct (_ <=? _); [by rewrite H|]. destruct H as (-> & -> & ->).
      rewrite decide_True by done. by destruct r.
  - intros Ha. unfold BestOver. destruct (Best _); [|done]. by rewrite decide_True.
  - intros monitor satisfied e. unfold Eligible, UpgradableVerdict, ConsiderUpgrade.
    cbn -[Best EvaluateAll incumbentAssetID]. destruct monitor; [|done].
    destruct satisfied; [|done]. cbn -[Best EvaluateAll incumbentAssetID].
    rewrite (bool_decide_false (incumbentAssetID true e = ""))
      by (unfold incumbentAssetID; simpl; by case_decide).
    by destruct (EvalTerminal e).
Qed.

(** ** Witness: an hevc remux is held, a higher scoring one is offered *)

Definition ex_profile : Profile := mkProfile "" "p" "" []
  [mkRule AttrSource OpNotIn (TextsValue ["cam"]) 0]
  [mkRule AttrVideoCodec OpEq (TextValue "hevc") 20] [].
Definition ex_held : ReleaseCandidate := mkCandidate "held" "Film 1080p" "prov"
  {[AttrSource := TextValue "bluray"]} "magnet:0".
Definition ex_offer : ReleaseCandidate := mkCandidate "offer" "Film 1080p x265" "prov"
  {[AttrSource := TextValue "bluray"; AttrVideoCodec := TextValue "hevc"]} "magnet:1".
Definition ex_request : UpgradeRequest := mkRequest true
  (mkIncumbent "asset" (Evaluate ex_held ex_profile)) true [ex_held; ex_offer] ex_profile.

Lemma upgrade_no_churn_witness :
  Status (ConsiderUpgrade ex_request) = UpgradeAvailable ∧
  Status (ConsiderUpgrade (mkRequest true (ReqIncumbent (after_upgrade ex_request "asset2"))
    true [ex_held; ex_offer] ex_profile)) ≠ UpgradeAvailable.
Proof.
  assert (Status (ConsiderUpgrade ex_request) = UpgradeAvailable) as H by (vm_compute; reflexivity).
  split; [exact H|]. exact (upgrade_no_churn ex_request "asset2" _ H (reflexivity _)).
Defined.
