(* ===== verification/Schedule.v ===== *)
(** * Schedule: when a want is searched again

    Models internal/domain/acquisition/schedule.go and route.go, and the store
    fetch cadence of store.go.  A [time.Duration] is a signed 64-bit count of
    nanoseconds, and the shift and the products wrap; an instant is the integer
    of its nanoseconds.  FNV-1a is Go's hash/fnv. *)

From S2P Require Import Prelude AcqState.
#[local] Open Scope Z_scope.

(** ** Durations and the hash *)

Definition Nanosecond : Z := 1.
Definition Second : Z := 1000000000 * Nanosecond.
Definition Minute : Z := 60 * Second.
Definition Hour : Z := 60 * Minute.

(** [d << n] on a signed 64-bit word. *)
Definition shl_i64 (d n : Z) : Z := wrap_i64 (Z.shiftl d n).

Definition fnv_offset64 : N := 14695981039346656037.
Definition fnv_prime64 : N := 1099511628211.

Definition fnv64a_byte (h : N) (c : Ascii.ascii) : N :=
  wrap_u64 (N.lxor h (Ascii.N_of_ascii c) * fnv_prime64).

Fixpoint fnv64a_write (h : N) (s : string) : N :=
  match s with
  | EmptyString => h
  | String c s => fnv64a_write (fnv64a_byte h c) s
  end.

Definition fnv64a (s : string) : N := fnv64a_write fnv_offset64 s.

(** ** Routes *)

Abbreviation Route := string (only parsing).
Definition RouteSearch : Route := "search".
Definition RouteDirect : Route := "direct".
Definition RouteStore : Route := "store".

Definition Searchable (r : Route) : bool :=
  bool_decide (r ≠ RouteDirect) && bool_decide (r ≠ RouteStore).

(** ** Schedules *)

Record Schedule := mkSchedule { ScheduleName : string; Base : Z; Max : Z }.

#[export] Instance Schedule_eq_dec : EqDecision Schedule.
Proof. solve_decision. Defined.

Definition MissingSearches : Schedule := mkSchedule "missing" Hour (24 * Hour).
Definition UpgradeSearches : Schedule := mkSchedule "upgrade" (24 * Hour) (14 * 24 * Hour).
Definition Schedules : list Schedule := [MissingSearches; UpgradeSearches].
Definition StoreFetches : Schedule := mkSchedule "store-fetch" (6 * Hour) (7 * 24 * Hour).

Definition ScheduleFor (s : State) (monitored : bool) (route : Route) : option Schedule :=
  if negb (Searchable route) then None
  else if InFlight (StatePhase s) then None
  else if decide (Content s ≠ SatisfactionSatisfied) then Some MissingSearches
  else if negb monitored then None
  else Some UpgradeSearches.

Definition maxDoublings : Z := 20.

Definition Delay (s : Schedule) (fruitless : Z) : Z :=
  let fruitless := if fruitless <? 0 then 0 else fruitless in
  let d := shl_i64 (Base s) (Z.min fruitless maxDoublings) in
  if (d <=? 0) || (Max s <? d) then Max s else d.

Definition buckets : Z := 1024.

(** [d / 4] of a duration truncates; a duration here is not negative. *)
Definition spread (key : string) (d : Z) : Z :=
  if bool_decide (key = "") || (d <=? 0) then 0
  else
    let quarter := Z.quot d 4 in
    let bucket := Z.of_N (fnv64a key mod Z.to_N buckets) in
    Z.quot (wrap_i64 (quarter * bucket)) buckets.

Definition NextAt (s : Schedule) (now fruitless : Z) (spreadKey : string) : Z :=
  let d := Delay s fruitless in
  now + wrap_i64 (d + spread spreadKey d).

(** ** The backoff *)

(** The schedules of the program. *)
Definition known_schedule (s : Schedule) : Prop :=
  s ∈ [MissingSearches; UpgradeSearches; StoreFetches].

#[export] Instance known_schedule_dec s : Decision (known_schedule s).
Proof. unfold known_schedule. apply _. Defined.

(** The first twenty doublings, overflowing ones included, by computation. *)
Lemma Delay_table :
  Forall (λ s, Forall (λ k, Delay s (Z.of_nat k) = Z.min (Base s * 2 ^ Z.of_nat k) (Max s))
    (seq 0 21)) [MissingSearches; UpgradeSearches; StoreFetches].
Proof. decide_vm. Qed.

Lemma Delay_low s k :
  known_schedule s → 0 ≤ k ≤ 20 → Delay s k = Z.min (Base s * 2 ^ k) (Max s).
Proof.
  intros Hs Hk. pose proof Delay_table as H. rewrite Forall_forall in H.
  specialize (H s Hs). rewrite Forall_forall in H. specialize (H (Z.to_nat k)).
  rewrite Z2Nat.id in H by lia. apply H, elem_of_seq. lia.
Qed.

Lemma Delay_high s k : 20 ≤ k → Delay s k = Delay s 20.
Proof.
  intros Hk. unfold Delay, maxDoublings.
  destruct (Z.ltb_spec k 0); [lia|]. by rewrite (Z.min_r k 20) by lia.
Qed.

Lemma Delay_neg s k : k ≤ 0 → Delay s k = Delay s 0.
Proof. intros Hk. unfold Delay. destruct (Z.ltb_spec k 0); [done|]. by replace k with 0 by lia. Qed.

Lemma known_bounds s : known_schedule s →
  0 < Base s ≤ Max s ∧ Max s ≤ Base s * 2 ^ 20 ∧ Max s ≤ 14 * 24 * Hour.
Proof. unfold known_schedule. intros Hs. cases_in Hs; vm_compute; split_and!; done. Qed.

Lemma Delay_eq s k :
  known_schedule s → Delay s k = Z.min (Base s * 2 ^ Z.max 0 k) (Max s).
Proof.
  intros Hs. destruct (known_bounds s Hs) as ((Hb & Hbm) & Hm & _).
  destruct (decide (k ≤ 0)) as [Hk|Hk].
  - rewrite Delay_neg, Z.max_l by done. apply Delay_low; [done|lia].
  - rewrite Z.max_r by lia. destruct (decide (k ≤ 20)); [apply Delay_low; [done|lia]|].
    rewrite Delay_high, Delay_low by (done || lia).
    assert (2 ^ 20 ≤ 2 ^ k) by (apply Z.pow_le_mono_r; lia). nia.
Qed.

(** The backoff never overflows into a wrong delay: on each schedule of the program,
    for every count of fruitless searches (a negative one counts as none), [Delay] is
    the exact doubling [Base * 2^n] capped at [Max]; so it starts at [Base], never
    shrinks as searches stay fruitless, and never exceeds [Max], although the 64-bit
    shift of the two longer schedules does overflow before its last doubling. *)
Theorem delay_spec (s : Schedule) (fruitless more : Z) :
  known_schedule s → fruitless ≤ more →
  Delay s fruitless = Z.min (Base s * 2 ^ Z.max 0 fruitless) (Max s) ∧
  Base s ≤ Delay s fruitless ≤ Max s ∧
  Delay s fruitless ≤ Delay s more ∧
  (s ≠ MissingSearches → ∃ k, 0 ≤ k ≤ maxDoublings ∧ shl_i64 (Base s) k ≠ Base s * 2 ^ k).
Proof.
  intros Hs Hle. rewrite !Delay_eq by done. destruct (known_bounds s Hs) as ((Hb & Hbm) & _).
  assert (∀ k, 1 ≤ 2 ^ Z.max 0 k) as H1.
  { intros k. pose proof (Z.pow_pos_nonneg 2 (Z.max 0 k)). lia. }
  split_and!; [done|specialize (H1 fruitless); nia|lia|..].
  - assert (2 ^ Z.max 0 fruitless ≤ 2 ^ Z.max 0 more) by (apply Z.pow_le_mono_r; lia). nia.
  - intros Hne. exists 20. split; [done|]. unfold known_schedule in Hs.
    cases_in Hs; [done|..]; by vm_compute.
Qed.

Lemma delay_spec_witness :
  Delay UpgradeSearches 19 = 14 * 24 * Hour ∧ Delay UpgradeSearches 2 = 96 * Hour.
Proof.
  split.
  - destruct (delay_spec UpgradeSearches 19 19 ltac:(decide_vm) ltac:(lia)) as [H _].
    rewrite H. reflexivity.
  - destruct (delay_spec UpgradeSearches 2 2 ltac:(decide_vm) ltac:(lia)) as [H _].
    rewrite H. reflexivity.
Defined.

(** ** The spread *)

Lemma spread_bounds key d :
  0 ≤ d ≤ 14 * 24 * Hour → 0 ≤ spread key d ∧ 4 * spread key d ≤ d ∧ (4 ≤ d → 4 * spread key d < d).
Proof.
  intros Hd. unfold spread. destruct (bool_decide_reflect (key = "")); simpl; [lia|].
  destruct (Z.leb_spec d 0); [lia|].
  set (b := Z.of_N (fnv64a key mod 1024)).
  assert (0 ≤ b < 1024) as Hb.
  { subst b. pose proof (N.mod_lt (fnv64a key) 1024 ltac:(done)) as Hm.
    split; [apply N2Z.is_nonneg|]. by apply (proj1 (N2Z.inj_lt _ 1024)). }
  rewrite (Z.quot_div_nonneg d 4) by lia.
  pose proof (Z.div_mod d 4 ltac:(lia)) as Hq. pose proof (Z.mod_pos_bound d 4 ltac:(lia)) as Hr.
  set (q := d / 4) in *.
  assert (0 ≤ q ≤ 14 * 24 * Hour) as Hq0 by lia.
  assert (0 ≤ q * b ≤ q * 1023) as Hqb by nia.
  unfold Hour, Minute, Second, Nanosecond in *.
  rewrite wrap_i64_small by lia. unfold buckets.
  rewrite Z.quot_div_nonneg by lia.
  pose proof (Z.div_mod (q * b) 1024 ltac:(lia)).
  pose proof (Z.mod_pos_bound (q * b) 1024 ltac:(lia)). lia.
Qed.

(** A want is next due no sooner than its delay and less than a quarter later, so it
    is never asked for more often than every [Base], is asked for again within a
    quarter more than [Max], and no 64-bit sum or product on the way wraps. *)
Theorem nextat_bounds (s : Schedule) (now fruitless : Z) (key : string) :
  known_schedule s →
  let d := Delay s fruitless in
  now + d ≤ NextAt s now fruitless key ∧ 4 * (NextAt s now fruitless key - now - d) < d ∧
  now + Base s ≤ NextAt s now fruitless key ∧
  4 * (NextAt s now fruitless key - now) < 5 * Max s ∧
  (key = "" → NextAt s now fruitless key = now + d).
Proof.
  intros Hs. cbv zeta. destruct (known_bounds s Hs) as ((Hb & Hbm) & _ & Hmax).
  assert (4 ≤ Base s) as Hb4 by (unfold known_schedule in Hs; cases_in Hs; by vm_compute).
  assert (Base s ≤ Delay s fruitless ≤ Max s) as Hd.
  { rewrite Delay_eq by done. pose proof (Z.pow_pos_nonneg 2 (Z.max 0 fruitless)). nia. }
  unfold NextAt. set (d := Delay s fruitless) in *.
  pose proof (spread_bounds key d ltac:(lia)) as (H1 & H2 & H3).
  rewrite wrap_i64_small by (unfold Hour, Minute, Second, Nanosecond in *; lia).
  split_and!; try lia. intros ->. unfold spread. simpl. lia.
Qed.

Lemma nextat_bounds_witness :
  0 + Base MissingSearches ≤ NextAt MissingSearches 0 3 "want-1" ∧
  NextAt MissingSearches 0 3 "want-1" = 32097656250000.
Proof.
  split; [|vm_compute; reflexivity].
  apply (nextat_bounds MissingSearches 0 3 "want-1"). decide_vm.
Defined.

(** ** Who is scheduled *)

(** The schedule and the pipeline agree: on a coherent state a want is put on a
    schedule only if its route is searchable and the pipeline accepts a search now, an
    unsatisfied one always then (monitored or not) and on the shorter cadence, a
    satisfied one exactly when it is monitored. *)
Theorem schedule_for_legal (s : State) (monitored : bool) (route : string) :
  Validate s = None →
  match ScheduleFor s monitored route with
  | Some sch =>
      Searchable route = true ∧ (∃ s', Apply s TransitionSearch = (s', None)) ∧
      (Content s = SatisfactionSatisfied → monitored = true ∧ sch = UpgradeSearches) ∧
      (Content s ≠ SatisfactionSatisfied → sch = MissingSearches)
  | None =>
      Searchable route = false ∨ Apply s TransitionSearch = (s, Some ErrIllegalTransition) ∨
      (Content s = SatisfactionSatisfied ∧ monitored = false)
  end.
Proof.
  intros Hs%State_Validate_iff. rewrite Apply_spec by done. unfold ScheduleFor.
  destruct (Searchable route); simpl; [|by left].
  assert (if InFlight (StatePhase s) then ∃ e, Advance (StatePhase s) TransitionSearch = inl e
          else Advance (StatePhase s) TransitionSearch = inr PhaseSearching) as Ha.
  { destruct Hs as [Hp _]. unfold Phases in Hp. destruct s as [p m c pl]. simpl in *.
    cases_in Hp; vm_compute; eauto. }
  destruct (InFlight (StatePhase s)).
  - right. left. by destruct Ha as [e ->].
  - rewrite Ha. case_decide as Hc; [split_and!; eauto; done|].
    destruct monitored; simpl; [|by right; right]. split_and!; eauto.
    intros Hn. done.
Qed.

Lemma schedule_for_legal_witness :
  ScheduleFor Initial false RouteSearch = Some MissingSearches ∧
  ∃ s', Apply Initial TransitionSearch = (s', None).
Proof.
  split; [reflexivity|].
  destruct (schedule_for_legal Initial false RouteSearch eq_refl) as (_ & H & _). exact H.
Defined.
