(* ===== verification/JobTable.v ===== *)
(** * JobTable: the table of jobs, its constraints and its statements

    Models the [jobs] table of internal/persistence/sqlite/migrations/00003_jobs.sql
    as internal/jobs/jobs.go uses it: a row per id, the CHECK constraints, the
    partial unique index on the dedupe keys of live jobs, and an UPDATE of one row
    with its count.  A nullable column is an [option].  A time is the integer of its
    nanoseconds since Go's zero time; the columns hold it in a fixed-width text whose
    byte order is the order of the instants, and the zero time, stored as the empty
    text, sorts before every other. *)

From S2P Require Import Prelude.

(** ** States *)

Abbreviation State := string (only parsing).

Definition Pending : State := "pending".
Definition Leased : State := "leased".
Definition Succeeded : State := "succeeded".
Definition Failed : State := "failed".
Definition Dead : State := "dead".

(** ** Rows *)

Record Row := mkRow {
  job_type : string;
  payload : string;
  state : State;
  priority : Z;
  dedupe_key : option string;
  required_capability : string;
  run_after : Z;
  attempts : Z;
  max_attempts : Z;
  lease_owner : option string;
  lease_expires_at : option Z;
  last_error : option string;
  created_at : Z;
  updated_at : Z;
  finished_at : option Z }.

#[export] Instance Row_eq_dec : EqDecision Row.
Proof. solve_decision. Defined.

Abbreviation Table := (gmap string Row) (only parsing).

(** [state IN ('pending','leased')] *)
Definition live (r : Row) : bool :=
  bool_decide (state r = Pending) || bool_decide (state r = Leased).

(** The CHECK constraints of the table, but for [json_valid(payload)]. *)
Definition check_row (r : Row) : bool :=
  bool_decide (state r ∈ [Pending; Leased; Succeeded; Failed; Dead])
  && (0 <=? attempts r)%Z && (0 <? max_attempts r)%Z
  && (if decide (state r = Leased)
      then bool_decide (lease_owner r ≠ None) && bool_decide (lease_expires_at r ≠ None)
      else bool_decide (lease_owner r = None) && bool_decide (lease_expires_at r = None)).

(** [jobs_dedupe]: another live row holds the key of this live row. *)
Definition key_taken (t : Table) (id : string) (r : Row) : bool :=
  match dedupe_key r with
  | None => false
  | Some k =>
      live r && existsb (λ e, bool_decide (e.1 ≠ id) && live e.2
                              && bool_decide (dedupe_key e.2 = Some k)) (map_to_list t)
  end.

(** ** Statements *)

Inductive dbError := CheckViolation | UniqueViolation.

(** A result or an error, in a monad. *)
#[export] Instance result_ret {E} : MRet (sum E) := λ A a, inr a.
#[export] Instance result_bind {E} : MBind (sum E) := λ A B f m,
  match m with inl e => inl e | inr a => f a end.

Definition store (t : Table) (id : string) (r : Row) : dbError + Table :=
  if negb (check_row r) then inl CheckViolation
  else if key_taken t id r then inl UniqueViolation
  else inr (<[id := r]> t).

(** [INSERT INTO jobs]: the id is the primary key. *)
Definition insertRow (t : Table) (id : string) (r : Row) : dbError + Table :=
  match t !! id with Some _ => inl UniqueViolation | None => store t id r end.

(** [UPDATE jobs SET .. WHERE id = ? AND ..], with the number of rows it changed. *)
Definition updateRow (t : Table) (id : string) (where_ : Row → bool) (set_ : Row → Row) :
    dbError + (Table * nat) :=
  match t !! id with
  | Some r => if where_ r then t' ← store t id (set_ r); inr (t', 1%nat) else inr (t, 0%nat)
  | None => inr (t, 0%nat)
  end.

(** ** What the constraints keep *)

(** No two live rows share a key. *)
Definition keys_unique (t : Table) : Prop :=
  ∀ i j r s k, t !! i = Some r → t !! j = Some s → live r = true → live s = true →
    dedupe_key r = Some k → dedupe_key s = Some k → i = j.

Lemma live_spec r : live r = true ↔ state r = Pending ∨ state r = Leased.
Proof. unfold live. by rewrite orb_true_iff, !bool_decide_eq_true. Qed.

Lemma key_taken_spec t id r :
  key_taken t id r = true ↔
  ∃ k i s, dedupe_key r = Some k ∧ live r = true ∧ i ≠ id ∧ t !! i = Some s ∧ live s = true ∧
    dedupe_key s = Some k.
Proof.
  unfold key_taken. destruct (dedupe_key r) as [k|]; [|split; [done|naive_solver]].
  rewrite andb_true_iff, existsb_exists. split.
  - intros (Hl & [i s] & Hin & H). rewrite !andb_true_iff, !bool_decide_eq_true in H.
    apply list_elem_of_In, elem_of_map_to_list in Hin. simpl in H. naive_solver.
  - intros (k' & i & s & [= <-] & Hl & Hne & Hi & Hs & Hk). split; [done|]. exists (i, s).
    rewrite <-list_elem_of_In, elem_of_map_to_list, !andb_true_iff, !bool_decide_eq_true. done.
Qed.

Lemma store_keys t id r t' : keys_unique t → store t id r = inr t' → keys_unique t'.
Proof.
  unfold store. intros Hu. destruct (check_row r); [|done]. simpl.
  destruct (key_taken t id r) eqn:Hk; [done|]. intros [= <-].
  assert (∀ i s k, i ≠ id → t !! i = Some s → live r = true → live s = true →
    dedupe_key r = Some k → dedupe_key s = Some k → False) as Hfree.
  { intros i s k ? ? ? ? ? ?. apply not_true_iff_false in Hk. apply Hk, key_taken_spec.
    by exists k, i, s. }
  intros i j x y k. destruct (decide (i = id)) as [->|Hi], (decide (j = id)) as [->|Hj].
  - done.
  - rewrite lookup_insert_eq, lookup_insert_ne by done. intros [= <-] **. by edestruct Hfree.
  - rewrite lookup_insert_eq, lookup_insert_ne by done. intros ? [= <-] **. by edestruct Hfree.
  - rewrite !lookup_insert_ne by done. apply Hu.
Qed.

Lemma store_check t id r t' : store t id r = inr t' → check_row r = true ∧ t' = <[id := r]> t.
Proof.
  unfold store. destruct (check_row r); [|done]. simpl. by destruct (key_taken t id r); [|intros [= <-]].
Qed.

(** A row that was live under its key may be written back live under it. *)
Lemma store_keep t id r r' :
  keys_unique t → t !! id = Some r → dedupe_key r' = dedupe_key r →
  (live r' = true → live r = true) → check_row r' = true → store t id r' = inr (<[id := r']> t).
Proof.
  intros Hu Hr Hk Hl Hc. unfold store. rewrite Hc. simpl.
  destruct (key_taken t id r') eqn:E; [|done].
  apply key_taken_spec in E as (k & i & s & Hk' & Hl' & Hne & Hi & Hs & Hks).
  destruct Hne. apply (Hu i id s r k); auto. by rewrite <-Hk.
Qed.

Lemma updateRow_inv t id where_ set_ t' n :
  updateRow t id where_ set_ = inr (t', n) →
  (n = 0%nat ∧ t' = t ∧ ∀ r, t !! id = Some r → where_ r = false) ∨
  (∃ r, n = 1%nat ∧ t !! id = Some r ∧ where_ r = true ∧ store t id (set_ r) = inr t').
Proof.
  unfold updateRow. destruct (t !! id) as [r|]; [|intros [= <- <-]; left; naive_solver].
  destruct (where_ r) eqn:Hw; [|intros [= <- <-]; left; naive_solver].
  destruct (store t id (set_ r)) as [e|t''] eqn:Hs; simpl; [done|]. intros [= <- <-]. right. by exists r.
Qed.
