(* ===== verification/Jobs.v ===== *)
(** * Jobs: the durable, leased, retryable job queue

    Models internal/jobs/jobs.go on the table of JobTable.v: every statement is an
    operation on that table, a transaction an operation that leaves queue and event
    log alone when it fails.  The clock, the id of a new job, the number the jitter
    draws and the order in which a query visits the rows are arguments; a handler's
    error is its text and the two sentinels it may wrap.  Failures of the database
    other than a violated constraint are not modelled. *)

From S2P Require Import Prelude JobTable.

(** ** Data *)

Record Job := mkJob {
  ID : string; Type_ : string; Payload : string; JobState : State; Priority : Z;
  DedupeKey : string; RequiredCapability : string; RunAfter : Z; Attempts : Z; MaxAttempts : Z;
  LeaseOwner : string; LeaseExpiresAt : Z; LastError : string; CreatedAt : Z; UpdatedAt : Z;
  FinishedAt : Z }.

Inductive error :=
  | ErrNotFound
  | ErrNoWork
  | ErrLeaseLost
  | ErrTypeRequired
  | ErrOwnerRequired
  | DedupeConflictError (LiveJobID : string)
  | ErrDB (e : dbError).

Inductive PayloadValue := VStr (s : string) | VInt (n : Z) | VBool (b : bool) | VTime (t : Z).

Definition TypeJobEnqueued : string := "job.enqueued".
Definition TypeJobSucceeded : string := "job.succeeded".
Definition TypeJobFailed : string := "job.failed".

Record Event := mkEvent {
  EvType : string; SubjectID : string; EvPayload : gmap string PayloadValue }.

Record Queue := mkQueue { jobs : gmap string Row; log : list Event }.

Definition NewQueue : Queue := mkQueue ∅ [].

(** What a handler returned: its text, and [errors.Is] against the two sentinels. *)
Record Cause := mkCause { CauseText : string; WrapsPermanent : bool; WrapsTransient : bool }.

(** ** Durations *)

Definition Second : Z := 1000000000.
Definition Minute : Z := 60 * Second.
Definition Hour : Z := 60 * Minute.

Definition DefaultMaxAttempts : Z := 5.
Definition DefaultPriority : Z := 100.
Definition DefaultLeaseTTL : Z := 60 * Second.
Definition defaultBaseBackoff : Z := 2 * Second.
Definition defaultMaxBackoff : Z := 15 * Minute.
Definition transientBaseBackoff : Z := 1 * Minute.
Definition transientMaxBackoff : Z := 6 * Hour.

(** ** Helpers *)

Definition nullable (s : string) : option string := if decide (s = "") then None else Some s.

Definition scanJob (id : string) (r : Row) : Job :=
  mkJob id (job_type r) (payload r) (state r) (priority r) (default "" (dedupe_key r))
    (required_capability r) (run_after r) (attempts r) (max_attempts r)
    (default "" (lease_owner r)) (default 0%Z (lease_expires_at r)) (default "" (last_error r))
    (created_at r) (updated_at r) (default 0%Z (finished_at r)).

Definition readJob (t : gmap string Row) (id : string) : error + Job :=
  match t !! id with Some r => inr (scanJob id r) | None => inl ErrNotFound end.

Definition db {A} (m : dbError + A) : error + A :=
  match m with inl e => inl (ErrDB e) | inr a => inr a end.

(** The row count of a statement that had to find its row. *)
Definition expectOneRow (n : nat) : error + unit :=
  if decide (n = 0%nat) then inl ErrLeaseLost else inr tt.

Definition transitionPayload (job : Job) (extra : gmap string PayloadValue) :
    gmap string PayloadValue :=
  let out : gmap string PayloadValue :=
    {[ "type" := VStr (Type_ job); "state" := VStr (JobState job);
       "attempts" := VInt (Attempts job); "max_attempts" := VInt (MaxAttempts job) ]} in
  let out := if decide (DedupeKey job ≠ "") then <["dedupe_key" := VStr (DedupeKey job)]> out else out in
  let out := if decide (LastError job ≠ "") then <["error" := VStr (LastError job)]> out else out in
  extra ∪ out.

(** A transaction: the table and the events it leaves, or an error and nothing. *)
Definition inTx {A} (q : Queue) (fn : gmap string Row → error + (gmap string Row * list Event * A)) :
    Queue * (error + A) :=
  match fn (jobs q) with
  | inl e => (q, inl e)
  | inr (t, recorded, a) => (mkQueue t (log q ++ recorded), inr a)
  end.

(** ** Enqueueing *)

Record EnqueueOptions := mkEnqueue {
  OptType : string; OptPayload : option string; OptDedupeKey : string; OptPriority : option Z;
  OptCapability : string; OptRunAfter : Z; OptMaxAttempts : Z }.

Definition newJob (id : string) (opts : EnqueueOptions) (now : Z) : Job :=
  mkJob id (OptType opts) (default "{}" (OptPayload opts)) Pending
    (default DefaultPriority (OptPriority opts)) (OptDedupeKey opts) (OptCapability opts)
    (if decide (OptRunAfter opts = 0%Z) then now else OptRunAfter opts) 0
    (if (OptMaxAttempts opts <=? 0)%Z then DefaultMaxAttempts else OptMaxAttempts opts)
    "" 0 "" now now 0.

(** The row the INSERT writes. *)
Definition newRow (job : Job) : Row :=
  mkRow (Type_ job) (Payload job) Pending (Priority job) (nullable (DedupeKey job))
    (RequiredCapability job) (RunAfter job) 0 (MaxAttempts job) None None None
    (CreatedAt job) (UpdatedAt job) None.

Definition findLiveByDedupeKey (rows : list (string * Row)) (key : string) : error + Job :=
  match filter (λ e, dedupe_key e.2 = Some key ∧ live e.2 = true) rows with
  | (id, r) :: _ => inr (scanJob id r)
  | [] => inl ErrNotFound
  end.

Definition Enqueue (newID : string) (now : Z) (q : Queue) (opts : EnqueueOptions) :
    Queue * (error + Job) :=
  if decide (OptType opts = "") then (q, inl ErrTypeRequired)
  else
    let job := newJob newID opts now in
    match inTx q (λ t,
      t' ← db (insertRow t newID (newRow job));
      inr (t', [mkEvent TypeJobEnqueued newID (transitionPayload job ∅)], tt)) with
    | (q', inr _) => (q', inr job)
    | (q', inl e) =>
        if decide (OptDedupeKey opts ≠ "") then
          match findLiveByDedupeKey (map_to_list (jobs q')) (OptDedupeKey opts) with
          | inr existing => (q', inr existing)
          | inl _ => (q', inl e)
          end
        else (q', inl e)
    end.

Definition LiveDedupeKeys (q : Queue) (jobType : string) : gset string :=
  list_to_set (omap (λ e, if bool_decide (job_type e.2 = jobType) && live e.2
                          then dedupe_key e.2 else None) (map_to_list (jobs q))).

(** ** Claiming *)

Record ClaimOptions := mkClaim {
  Owner : string; Capabilities : list string; LeaseTTL : Z; Types : list string }.

(** The WHERE of the inner SELECT. *)
Definition claimable (opts : ClaimOptions) (now : Z) (r : Row) : bool :=
  bool_decide (state r = Pending) && (run_after r <=? now)%Z
  && bool_decide (required_capability r ∈ "" :: Capabilities opts)
  && (if decide (Types opts = []) then true else bool_decide (job_type r ∈ Types opts)).

(** [ORDER BY priority ASC, run_after ASC] *)
Definition claim_less : string * Row → string * Row → bool :=
  lex_less (λ e, priority e.2) Z.ltb (key_less (λ e, run_after e.2) Z.ltb).

(** The id the inner SELECT returns; rows that tie come in the order of the visit. *)
Definition claimTarget (opts : ClaimOptions) (now : Z) (rows : list (string * Row)) : option string :=
  fst <$> head (sort_by claim_less (filter (λ e, claimable opts now e.2 = true) rows)).

Definition ttlOr (ttl : Z) : Z := if (ttl <=? 0)%Z then DefaultLeaseTTL else ttl.

Definition lease (owner : string) (expires now : Z) (r : Row) : Row :=
  mkRow (job_type r) (payload r) Leased (priority r) (dedupe_key r) (required_capability r)
    (run_after r) (attempts r + 1) (max_attempts r) (Some owner) (Some expires) (last_error r)
    (created_at r) now (finished_at r).

Definition ClaimIn (rows : list (string * Row)) (now : Z) (q : Queue) (opts : ClaimOptions) :
    Queue * (error + Job) :=
  if decide (Owner opts = "") then (q, inl ErrOwnerRequired)
  else
    let expires := (now + ttlOr (LeaseTTL opts))%Z in
    match claimTarget opts now rows with
    | None => (q, inl ErrNoWork)
    | Some id =>
        match updateRow (jobs q) id (λ _, true) (lease (Owner opts) expires now) with
        | inl e => (q, inl (ErrDB e))
        | inr (t, _) =>
            (mkQueue t (log q), match readJob t id with inl _ => inl ErrNoWork | job => job end)
        end
    end.

Definition Claim (now : Z) (q : Queue) (opts : ClaimOptions) : Queue * (error + Job) :=
  ClaimIn (map_to_list (jobs q)) now q opts.

(** ** Holding *)

(** [lease_owner = ? AND state = 'leased'] *)
Definition heldBy (owner : string) (r : Row) : bool :=
  bool_decide (lease_owner r = Some owner) && bool_decide (state r = Leased).

Definition extend (expires now : Z) (r : Row) : Row :=
  mkRow (job_type r) (payload r) (state r) (priority r) (dedupe_key r) (required_capability r)
    (run_after r) (attempts r) (max_attempts r) (lease_owner r) (Some expires) (last_error r)
    (created_at r) now (finished_at r).

Definition Heartbeat (now : Z) (q : Queue) (id owner : string) (ttl : Z) : Queue * (error + unit) :=
  match updateRow (jobs q) id (heldBy owner) (extend (now + ttlOr ttl) now) with
  | inl e => (q, inl (ErrDB e))
  | inr (t, n) => (mkQueue t (log q), expectOneRow n)
  end.

(** The columns a job that is let go has: [lease_owner = NULL, lease_expires_at = NULL]. *)
Definition release (st : State) (run tries : Z) (err : option string) (finished : option Z)
    (now : Z) (r : Row) : Row :=
  mkRow (job_type r) (payload r) st (priority r) (dedupe_key r) (required_capability r)
    run tries (max_attempts r) None None err (created_at r) now finished.

Definition succeed (now : Z) (r : Row) : Row :=
  release Succeeded (run_after r) (attempts r) None (Some now) now r.
Definition kill (message : string) (now : Z) (r : Row) : Row :=
  release Dead (run_after r) (attempts r) (Some message) (Some now) now r.
Definition reschedule (message : string) (retryAt now : Z) (r : Row) : Row :=
  release Pending retryAt (attempts r) (Some message) (finished_at r) now r.
Definition reclaim (reason : string) (now : Z) (r : Row) : Row :=
  release Pending (run_after r) (attempts r) (Some reason) (finished_at r) now r.
Definition revive (now : Z) (r : Row) : Row :=
  release Pending now 0 (last_error r) None now r.

Definition Complete (now : Z) (q : Queue) (id owner : string) : Queue * (error + unit) :=
  inTx q (λ t,
    '(t', n) ← db (updateRow t id (heldBy owner) (succeed now));
    _ ← expectOneRow n;
    job ← readJob t' id;
    inr (t', [mkEvent TypeJobSucceeded id (transitionPayload job ∅)], tt)).

(** ** Failing *)

Section fail.
(** [rand.Int64N] of the queue's source. *)
Context (Int64N : Z → Z).

Definition backoffWithin (attempt base ceiling : Z) : Z :=
  let attempt := if (attempt <? 1)%Z then 1%Z else attempt in
  let d := wrap_i64 (Z.shiftl base (Z.min (attempt - 1) 20)) in
  let d := if (ceiling <? d)%Z || (d <=? 0)%Z then ceiling else d in
  wrap_i64 (Int64N d + base).

Definition backoff (attempt : Z) : Z := backoffWithin attempt defaultBaseBackoff defaultMaxBackoff.

Definition retryBackoff (transient : bool) (attempt : Z) : Z :=
  if transient then backoffWithin attempt transientBaseBackoff transientMaxBackoff
  else backoff attempt.

Definition withState (job : Job) (st : State) (err : string) : Job :=
  mkJob (ID job) (Type_ job) (Payload job) st (Priority job) (DedupeKey job)
    (RequiredCapability job) (RunAfter job) (Attempts job) (MaxAttempts job) (LeaseOwner job)
    (LeaseExpiresAt job) err (CreatedAt job) (UpdatedAt job) (FinishedAt job).

Definition messageOf (cause : option Cause) : string :=
  match cause with Some c => CauseText c | None => "" end.
Definition isPermanent (cause : option Cause) : bool :=
  match cause with Some c => WrapsPermanent c | None => false end.
Definition isTransient (cause : option Cause) : bool :=
  negb (isPermanent cause) && match cause with Some c => WrapsTransient c | None => false end.

(** [Fail] once it has read [job]: the read is outside the transaction. *)
Definition failRead (job : Job) (now : Z) (q : Queue) (id owner : string) (cause : option Cause) :
    Queue * (error + unit) :=
  let message := messageOf cause in
  let permanent := isPermanent cause in
  let transient := isTransient cause in
  if permanent || (negb transient && (MaxAttempts job <=? Attempts job)%Z) then
    inTx q (λ t,
      '(t', n) ← db (updateRow t id (heldBy owner) (kill message now));
      _ ← expectOneRow n;
      inr (t', [mkEvent TypeJobFailed id (transitionPayload (withState job Dead message)
                  {[ "terminal" := VBool true; "permanent" := VBool permanent ]})], tt))
  else
    let retryAt := (now + retryBackoff transient (Attempts job))%Z in
    inTx q (λ t,
      '(t', n) ← db (updateRow t id (heldBy owner) (reschedule message retryAt now));
      _ ← expectOneRow n;
      inr (t', [mkEvent TypeJobFailed id (transitionPayload (withState job Pending message)
                  {[ "terminal" := VBool false; "transient" := VBool transient;
                     "run_after" := VTime retryAt ]})], tt)).

Definition Get (q : Queue) (id : string) : error + Job := readJob (jobs q) id.

Definition Fail_ (now : Z) (q : Queue) (id owner : string) (cause : option Cause) :
    Queue * (error + unit) :=
  match Get q id with
  | inl e => (q, inl e)
  | inr job => failRead job now q id owner cause
  end.

End fail.

(** ** Reclaiming leases *)

Definition reapReason : string :=
  "lease expired; the worker holding this job stopped reporting".
Definition reclaimReason : string :=
  "control plane restored; leases from the previous node are void".

(** One turn of the loop over the ids. *)
Definition reapOne (reason flag : string) (now : Z) (acc : error + (gmap string Row * list Event))
    (id : string) : error + (gmap string Row * list Event) :=
  '(t, out) ← acc;
  '(t', _) ← db (updateRow t id (λ r, bool_decide (state r = Leased)) (reclaim reason now));
  job ← readJob t' id;
  inr (t', out ++ [mkEvent TypeJobFailed id
             (transitionPayload job {[ "terminal" := VBool false; flag := VBool true ]})]).

Definition reapAll (reason flag : string) (now : Z) (q : Queue) (ids : list string) :
    Queue * (error + nat) :=
  inTx q (λ t,
    '(t', out) ← foldl (reapOne reason flag now) (inr (t, [])) ids;
    inr (t', out, length ids)).

(** [state = 'leased' AND lease_expires_at <= ?] *)
Definition expired (now : Z) (r : Row) : bool :=
  bool_decide (state r = Leased)
  && match lease_expires_at r with Some e => (e <=? now)%Z | None => false end.

Definition idsWhere (p : Row → bool) (rows : list (string * Row)) : list string :=
  fst <$> filter (λ e, p e.2 = true) rows.

Definition expiredLeaseIDs (rows : list (string * Row)) (now : Z) : list string :=
  idsWhere (expired now) rows.
Definition allLeasedIDs (rows : list (string * Row)) : list string :=
  idsWhere (λ r, bool_decide (state r = Leased)) rows.

Definition ReapIn (rows : list (string * Row)) (now : Z) (q : Queue) : Queue * (error + nat) :=
  reapAll reapReason "reaped" now q (expiredLeaseIDs rows now).
Definition ReapExpiredLeases (now : Z) (q : Queue) : Queue * (error + nat) :=
  ReapIn (map_to_list (jobs q)) now q.

Definition ReclaimIn (rows : list (string * Row)) (now : Z) (q : Queue) : Queue * (error + nat) :=
  reapAll reclaimReason "reclaimed" now q (allLeasedIDs rows).
Definition ReclaimAllLeases (now : Z) (q : Queue) : Queue * (error + nat) :=
  ReclaimIn (map_to_list (jobs q)) now q.

(** ** The operator *)

Definition cancel (reason : string) (now : Z) (r : Row) : Row :=
  mkRow (job_type r) (payload r) Dead (priority r) (dedupe_key r) (required_capability r)
    (run_after r) (attempts r) (max_attempts r) (lease_owner r) (lease_expires_at r) (Some reason)
    (created_at r) now (Some now).

Definition ended (r : Row) : bool := bool_decide (state r ∈ [Dead; Failed; Succeeded]).

(** The error of a retry whose UPDATE failed. *)
Definition retryConflict (t : gmap string Row) (id : string) (e : dbError) : error :=
  match e with
  | CheckViolation => ErrDB e
  | UniqueViolation =>
      let key := match t !! id with Some r => default "" (dedupe_key r) | None => "" end in
      if decide (key ≠ "") then
        match findLiveByDedupeKey (map_to_list t) key with
        | inr liveJob => DedupeConflictError (ID liveJob)
        | inl _ => ErrDB e
        end
      else ErrDB e
  end.

Definition Retry (now : Z) (q : Queue) (id : string) : Queue * (error + unit) :=
  inTx q (λ t,
    match updateRow t id ended (revive now) with
    | inl e => inl (retryConflict t id e)
    | inr (t', n) =>
        _ ← expectOneRow n;
        job ← readJob t' id;
        inr (t', [mkEvent TypeJobEnqueued id (transitionPayload job {[ "retried" := VBool true ]})], tt)
    end).

(** [ORDER BY id] *)
Definition pendingMatching (t : gmap string Row) (jobType : string) (match_ : Job → bool) : list Job :=
  filter (λ j, match_ j = true)
    ((λ e, scanJob e.1 e.2) <$>
       sort_by (key_less fst str_lt)
         (filter (λ e, job_type e.2 = jobType ∧ state e.2 = Pending) (map_to_list t))).

Definition cancelOne (reason : string) (now : Z)
    (acc : error + (gmap string Row * list Event * nat)) (job : Job) :
    error + (gmap string Row * list Event * nat) :=
  '(t, out, cancelled) ← acc;
  '(t', n) ← db (updateRow t (ID job) (λ r, bool_decide (state r = Pending)) (cancel reason now));
  if decide (n = 0%nat) then inr (t', out, cancelled)
  else inr (t', out ++ [mkEvent TypeJobFailed (ID job) (transitionPayload (withState job Dead reason)
                  {[ "terminal" := VBool true; "permanent" := VBool true; "cancelled" := VBool true ]})],
            S cancelled).

Definition CancelPending (now : Z) (q : Queue) (jobType : string) (match_ : Job → bool)
    (reason : string) : Queue * (error + nat) :=
  inTx q (λ t, foldl (cancelOne reason now) (inr (t, [], 0%nat)) (pendingMatching t jobType match_)).

Definition Stats (q : Queue) : gmap string nat :=
  map_fold (λ _ r out, <[state r := S (default 0%nat (out !! state r))]> out) ∅ (jobs q).
