(* ===== verification/JobSteps.v ===== *)
(** * JobSteps: the queue under any interleaving of its operations

    The operations of Jobs.v as the steps of one system, in any order and by any
    number of workers: what every reachable table keeps, what a step may do to a row,
    and what a lease is worth.  A query may visit the rows in any order; [Fail] reads
    the job before its transaction, so its step takes any job it may have read. *)

From S2P Require Import Prelude JobTable Jobs.

Create HintDb jobs.

(** ** The steps *)

Inductive Label :=
  | LEnqueue (id : string)
  | LClaim (owner : string)
  | LHeartbeat (id owner : string)
  | LComplete (id owner : string)
  | LFail (id owner : string)
  | LReap (now : Z)
  | LReclaim
  | LRetry (id : string)
  | LCancel.

Inductive step (Int64N : Z → Z) (q : Queue) : Label → Queue → Prop :=
  | step_enqueue id now opts : step Int64N q (LEnqueue id) (Enqueue id now q opts).1
  | step_claim rows now opts : rows ≡ₚ map_to_list (jobs q) →
      step Int64N q (LClaim (Owner opts)) (ClaimIn rows now q opts).1
  | step_heartbeat now id owner ttl :
      step Int64N q (LHeartbeat id owner) (Heartbeat now q id owner ttl).1
  | step_complete now id owner : step Int64N q (LComplete id owner) (Complete now q id owner).1
  | step_fail job now id owner cause :
      step Int64N q (LFail id owner) (failRead Int64N job now q id owner cause).1
  | step_reap rows now : rows ≡ₚ map_to_list (jobs q) →
      step Int64N q (LReap now) (ReapIn rows now q).1
  | step_reclaim rows now : rows ≡ₚ map_to_list (jobs q) →
      step Int64N q LReclaim (ReclaimIn rows now q).1
  | step_retry now id : step Int64N q (LRetry id) (Retry now q id).1
  | step_cancel now jobType match_ reason :
      step Int64N q LCancel (CancelPending now q jobType match_ reason).1.

(** A run and the labels of its steps. *)
Inductive run (Int64N : Z → Z) : Queue → list Label → Queue → Prop :=
  | run_nil q : run Int64N q [] q
  | run_cons q l q' ls q'' :
      step Int64N q l q' → run Int64N q' ls q'' → run Int64N q (l :: ls) q''.

(** ** What every table keeps *)

Definition row_ok (r : Row) : Prop :=
  check_row r = true ∧ state r ≠ Failed ∧ dedupe_key r ≠ Some "" ∧ lease_owner r ≠ Some "" ∧
  (finished_at r ≠ None ↔ state r = Succeeded ∨ state r = Dead) ∧
  (state r = Succeeded → last_error r = None).

Definition table_ok (t : gmap string Row) : Prop :=
  (∀ id r, t !! id = Some r → row_ok r) ∧ keys_unique t.

(** What a step may do to the row of [id]. *)
Definition row_step (l : Label) (id : string) (r r' : Row) : Prop :=
  match l with
  | LEnqueue _ => False
  | LClaim o => o ≠ "" ∧ state r = Pending ∧ ∃ expires now, r' = lease o expires now r
  | LHeartbeat i o => i = id ∧ heldBy o r = true ∧ ∃ expires now, r' = extend expires now r
  | LComplete i o => i = id ∧ heldBy o r = true ∧ ∃ now, r' = succeed now r
  | LFail i o => i = id ∧ heldBy o r = true ∧
      ∃ m now, r' = kill m now r ∨ ∃ at_, r' = reschedule m at_ now r
  | LReap now => expired now r = true ∧ r' = reclaim reapReason now r
  | LReclaim => state r = Leased ∧ ∃ now, r' = reclaim reclaimReason now r
  | LRetry i => i = id ∧ ended r = true ∧ ∃ now, r' = revive now r
  | LCancel => state r = Pending ∧ ∃ reason now, r' = cancel reason now r
  end.

(** ** Rows *)

Lemma check_row_spec r :
  check_row r = true ↔
  state r ∈ [Pending; Leased; Succeeded; Failed; Dead] ∧ (0 ≤ attempts r)%Z ∧
  (0 < max_attempts r)%Z ∧
  (state r = Leased → lease_owner r ≠ None ∧ lease_expires_at r ≠ None) ∧
  (state r ≠ Leased → lease_owner r = None ∧ lease_expires_at r = None).
Proof.
  unfold check_row. rewrite !andb_true_iff, Z.leb_le, Z.ltb_lt, bool_decide_eq_true.
  case_decide; rewrite andb_true_iff, !bool_decide_eq_true; naive_solver.
Qed.

Lemma heldBy_spec o r : heldBy o r = true ↔ lease_owner r = Some o ∧ state r = Leased.
Proof. unfold heldBy. by rewrite andb_true_iff, !bool_decide_eq_true. Qed.

Lemma expired_spec now r :
  expired now r = true ↔ state r = Leased ∧ ∃ e, lease_expires_at r = Some e ∧ (e ≤ now)%Z.
Proof.
  unfold expired. rewrite andb_true_iff, bool_decide_eq_true.
  destruct (lease_expires_at r) as [e|]; [rewrite Z.leb_le|]; naive_solver.
Qed.

Lemma ended_spec r : ended r = true ↔ state r = Dead ∨ state r = Failed ∨ state r = Succeeded.
Proof. unfold ended. rewrite bool_decide_eq_true. set_solver. Qed.

(** A change that keeps the row well-formed, its key, and a dead key dead. *)
Definition keeps (r r' : Row) : Prop :=
  row_ok r' ∧ dedupe_key r' = dedupe_key r ∧ (live r' = true → live r = true).

Lemma Pending_Leased : Pending ≠ Leased.
Proof. done. Qed.

(** A row let go into one of the three other states. *)
Lemma release_ok st run_ tries err fin now r :
  row_ok r → (0 ≤ tries)%Z → st ∈ [Pending; Succeeded; Dead] →
  (fin ≠ None ↔ st = Succeeded ∨ st = Dead) → (st = Succeeded → err = None) →
  row_ok (release st run_ tries err fin now r).
Proof.
  intros (Hc & _ & Hk & _) Ht Hst Hf He. apply check_row_spec in Hc as (_ & _ & Hm & _).
  unfold row_ok. rewrite check_row_spec. cbn [release state attempts max_attempts lease_owner
    lease_expires_at dedupe_key finished_at last_error].
  assert (st ≠ Leased ∧ st ≠ Failed) as [? ?] by (split; intros ->; cases_in Hst; discriminate).
  split_and!; try done. cases_in Hst; set_solver.
Qed.

Lemma ok_attempts r : row_ok r → (0 ≤ attempts r)%Z.
Proof. intros [Hc _]. by apply check_row_spec in Hc as (_ & ? & _). Qed.

(** A row that has not ended has no time it finished at. *)
Lemma ok_finished r : row_ok r → live r = true → finished_at r = None.
Proof.
  intros (_ & _ & _ & _ & Hf & _) Hl%live_spec. destruct (finished_at r); [|done].
  destruct (proj1 Hf) as [Hs|Hs]; [done|..]; destruct Hl as [Hl|Hl]; rewrite Hl in Hs; discriminate.
Qed.

Lemma held_ok (e now n : Z) (o : string) r :
  row_ok r → live r = true → o ≠ "" → (0 ≤ n)%Z →
  row_ok (mkRow (job_type r) (payload r) Leased (priority r) (dedupe_key r)
    (required_capability r) (run_after r) n (max_attempts r) (Some o) (Some e) (last_error r)
    (created_at r) now (finished_at r)).
Proof.
  intros Hr Hl Ho Hn. pose proof (ok_finished r Hr Hl) as Hfin. destruct Hr as (Hc & _ & Hk & _).
  apply check_row_spec in Hc as (_ & _ & Hm & _).
  unfold row_ok. rewrite check_row_spec. cbn [state attempts max_attempts lease_owner
    lease_expires_at dedupe_key finished_at last_error]. rewrite Hfin.
  split_and!; try done; [set_solver|congruence|]. split; [done|]. intros [|]; discriminate.
Qed.

(** ** Which changes keep the table well-formed *)

Lemma live_leased r : state r = Leased → live r = true.
Proof. intros H. apply live_spec. by right. Qed.
Lemma live_pending r : state r = Pending → live r = true.
Proof. intros H. apply live_spec. by left. Qed.

Lemma keeps_release st run_ tries err fin now r :
  row_ok r → (0 ≤ tries)%Z → st ∈ [Pending; Succeeded; Dead] →
  (fin ≠ None ↔ st = Succeeded ∨ st = Dead) → (st = Succeeded → err = None) →
  live r = true → keeps r (release st run_ tries err fin now r).
Proof. intros. split; [by apply release_ok|done]. Qed.

Lemma keeps_lease o e now r : o ≠ "" → row_ok r → state r = Pending → keeps r (lease o e now r).
Proof.
  intros Ho Hr Hs. pose proof (live_pending r Hs) as Hl. split; [|done].
  apply held_ok; [done..|]. pose proof (ok_attempts r Hr). lia.
Qed.

Lemma keeps_extend o e now r : row_ok r → heldBy o r = true → keeps r (extend e now r).
Proof.
  intros Hr [Ho Hs]%heldBy_spec. pose proof (live_leased r Hs) as Hl. split; [|done].
  unfold extend. rewrite Ho, Hs. apply held_ok; [done..| |by apply ok_attempts].
  destruct Hr as (_ & _ & _ & Hne & _). congruence.
Qed.

Lemma keeps_succeed o now r : row_ok r → heldBy o r = true → keeps r (succeed now r).
Proof.
  intros Hr [Ho Hs]%heldBy_spec.
  apply keeps_release; [done|by apply ok_attempts|set_solver|split; [by left|done]|done|].
  by apply live_leased.
Qed.

Lemma keeps_kill o m now r : row_ok r → heldBy o r = true → keeps r (kill m now r).
Proof.
  intros Hr [Ho Hs]%heldBy_spec.
  apply keeps_release; [done|by apply ok_attempts|set_solver|..|by apply live_leased].
  - split; [by right|done].
  - discriminate.
Qed.

Lemma keeps_requeue run_ err now r :
  row_ok r → state r = Leased →
  keeps r (release Pending run_ (attempts r) err (finished_at r) now r).
Proof.
  intros Hr Hs. pose proof (live_leased r Hs) as Hl. rewrite (ok_finished r) by done.
  apply keeps_release; [done|by apply ok_attempts|set_solver|..|done].
  - split; [done|]. intros [|]; discriminate.
  - discriminate.
Qed.

Lemma keeps_reschedule o m at_ now r :
  row_ok r → heldBy o r = true → keeps r (reschedule m at_ now r).
Proof. intros Hr [_ Hs]%heldBy_spec. by apply keeps_requeue. Qed.

Lemma keeps_reclaim reason now r : row_ok r → state r = Leased → keeps r (reclaim reason now r).
Proof. apply keeps_requeue. Qed.

(** A pending row holds no lease, so cancelling lets nothing go. *)
Lemma cancel_kill reason now r :
  row_ok r → state r = Pending → cancel reason now r = kill reason now r.
Proof.
  intros [Hc _] Hs. apply check_row_spec in Hc as (_ & _ & _ & _ & Hn).
  destruct Hn as [Ho He]; [by rewrite Hs|]. unfold cancel, kill, release. by rewrite Ho, He.
Qed.

Lemma keeps_cancel reason now r : row_ok r → state r = Pending → keeps r (cancel reason now r).
Proof.
  intros Hr Hs. rewrite cancel_kill by done. pose proof (live_pending r Hs).
  apply keeps_release; [done|by apply ok_attempts|set_solver|..|done].
  - split; [by right|done].
  - discriminate.
Qed.

Lemma revive_ok now r : row_ok r → row_ok (revive now r).
Proof.
  intros Hr. apply release_ok; [done|done|set_solver|..|discriminate].
  split; [done|]. intros [|]; discriminate.
Qed.

(** ** Guarded updates *)

Definition guard_row (w : Row → bool) (f : Row → Row) (r : Row) : Row := if w r then f r else r.

Definition keeping (w : Row → bool) (f : Row → Row) : Prop :=
  ∀ r, row_ok r → w r = true → keeps r (f r).

Section guarded.
Context (w : Row → bool) (f : Row → Row) (Hkeep : keeping w f).

Lemma guard_row_keeps r : row_ok r → keeps r (guard_row w f r).
Proof. intros Hr. unfold guard_row. destruct (w r) eqn:E; [by apply Hkeep|]. by split_and!. Qed.

(** Changing rows in ways that keep them keeps the table. *)
Lemma table_ok_pointwise t (t' : gmap string Row) :
  table_ok t → (∀ i, t' !! i = t !! i ∨ t' !! i = guard_row w f <$> t !! i) → table_ok t'.
Proof.
  intros [Hr Hu] Ht.
  assert (∀ i r', t' !! i = Some r' → ∃ r, t !! i = Some r ∧ keeps r r') as Hk.
  { intros i r' Hi. destruct (Ht i) as [E|E]; rewrite E in Hi.
    - exists r'. split; [done|]. split; [by apply (Hr i)|done].
    - apply fmap_Some in Hi as (r & Hi & ->). exists r. split; [done|].
      by apply guard_row_keeps, (Hr i). }
  split.
  - intros i r' (r & _ & Hok & _)%Hk. done.
  - intros i j r' s' k (r & Hi & _ & Hkr & Hlr)%Hk (s & Hj & _ & Hks & Hls)%Hk Hl Hl' Hd Hd'.
    apply (Hu i j r s k); auto; congruence.
Qed.

Lemma table_ok_alter t id : table_ok t → table_ok (alter (guard_row w f) id t).
Proof.
  intros Ht. apply (table_ok_pointwise t); [done|]. intros i.
  destruct (decide (i = id)) as [->|Hne]; [right; apply lookup_alter_eq|left].
  by rewrite lookup_alter_ne.
Qed.

(** On a well-formed table the statement runs, and changes the row where it holds. *)
Lemma updateRow_keeping t id :
  table_ok t →
  updateRow t id w f =
    inr (alter (guard_row w f) id t, if default false (w <$> t !! id) then 1%nat else 0%nat).
Proof.
  intros [Hr Hu]. unfold updateRow. destruct (t !! id) as [r|] eqn:E; simpl.
  - destruct (w r) eqn:Hw.
    + destruct (Hkeep r (Hr id r E) Hw) as ([Hc _] & Hk & Hl).
      rewrite (store_keep t id r) by done. simpl. f_equal. f_equal. symmetry.
      apply map_eq. intros i. destruct (decide (i = id)) as [->|Hne].
      * rewrite lookup_alter_eq, lookup_insert_eq, E. simpl. unfold guard_row. by rewrite Hw.
      * by rewrite lookup_alter_ne, lookup_insert_ne.
    + f_equal. f_equal. symmetry. apply alter_id. intros x. rewrite E. intros [= <-].
      unfold guard_row. by rewrite Hw.
  - f_equal. f_equal. symmetry. apply alter_id. intros x. by rewrite E.
Qed.

End guarded.

(** ** The effect of each operation *)

(** The event tells of the row of [id]: its subject and the state in its payload. *)
Definition tells (t : gmap string Row) (id : string) (ev : Event) : Prop :=
  SubjectID ev = id ∧
  ∃ r, t !! id = Some r ∧ EvPayload ev !! "state" = Some (VStr (state r)).

Lemma payload_state job extra :
  extra !! "state" = None →
  transitionPayload job extra !! "state" = Some (VStr (JobState job)).
Proof.
  intros He. unfold transitionPayload. rewrite lookup_union_r by done.
  repeat case_decide; simplify_map_eq; done.
Qed.

Lemma tells_read t id r typ extra :
  t !! id = Some r → extra !! "state" = None →
  tells t id (mkEvent typ id (transitionPayload (scanJob id r) extra)).
Proof. intros Hr He. split; [done|]. exists r. split; [done|]. cbn [EvPayload]. by rewrite payload_state. Qed.

(** A row of the table under [id] that satisfies [w]. *)
Definition holds_at (t : gmap string Row) (id : string) (w : Row → bool) : bool :=
  default false (w <$> t !! id).

Lemma holds_at_spec t id w : holds_at t id w = true ↔ ∃ r, t !! id = Some r ∧ w r = true.
Proof. unfold holds_at. destruct (t !! id); naive_solver. Qed.

Lemma keeping_extend o e now : keeping (heldBy o) (extend e now).
Proof. intros r. apply keeps_extend. Qed.
Lemma keeping_succeed o now : keeping (heldBy o) (succeed now).
Proof. intros r. apply keeps_succeed. Qed.
Lemma keeping_kill o m now : keeping (heldBy o) (kill m now).
Proof. intros r. apply keeps_kill. Qed.
Lemma keeping_reschedule o m at_ now : keeping (heldBy o) (reschedule m at_ now).
Proof. intros r. apply keeps_reschedule. Qed.
Lemma keeping_reclaim (p : Row → bool) reason now :
  (∀ r, p r = true → state r = Leased) → keeping p (reclaim reason now).
Proof. intros Hp r Hr Hw. apply keeps_reclaim; auto. Qed.
Lemma keeping_cancel (p : Row → bool) reason now :
  (∀ r, p r = true → state r = Pending) → keeping p (cancel reason now).
Proof. intros Hp r Hr Hw. apply keeps_cancel; auto. Qed.
#[export] Hint Resolve keeping_extend keeping_succeed keeping_kill keeping_reschedule : jobs.

Lemma leased_bool r : bool_decide (state r = Leased) = true → state r = Leased.
Proof. by rewrite bool_decide_eq_true. Qed.
Lemma pending_bool r : bool_decide (state r = Pending) = true → state r = Pending.
Proof. by rewrite bool_decide_eq_true. Qed.

Lemma alter_hold (t : gmap string Row) (id : string) w f r :
  t !! id = Some r → w r = true → alter (guard_row w f) id t = <[id := f r]> t.
Proof.
  intros Hr Hw. apply map_eq. intros i. destruct (decide (i = id)) as [->|Hne].
  - rewrite lookup_alter_eq, lookup_insert_eq, Hr. simpl. unfold guard_row. by rewrite Hw.
  - by rewrite lookup_alter_ne, lookup_insert_ne.
Qed.

(** An update by the holder, and the transaction around it. *)
Lemma held_update (q : Queue) (id owner : string) (f : Row → Row) :
  table_ok (jobs q) → keeping (heldBy owner) f →
  (∃ r, jobs q !! id = Some r ∧ heldBy owner r = true ∧
     updateRow (jobs q) id (heldBy owner) f = inr (<[id := f r]> (jobs q), 1%nat)) ∨
  ((∀ r, jobs q !! id = Some r → heldBy owner r = false) ∧
     updateRow (jobs q) id (heldBy owner) f = inr (jobs q, 0%nat)).
Proof.
  intros Hok Hk. pose proof (updateRow_keeping _ f Hk (jobs q) id Hok) as Hu.
  destruct (jobs q !! id) as [r|] eqn:Hr; simpl in Hu.
  - destruct (heldBy owner r) eqn:Hw.
    + left. exists r. split_and!; [done..|]. rewrite Hu. by rewrite (alter_hold _ _ _ _ r).
    + right. split; [naive_solver|]. unfold updateRow. by rewrite Hr, Hw.
  - right. split; [done|]. unfold updateRow. by rewrite Hr.
Qed.

Lemma Heartbeat_eq now q id owner ttl :
  table_ok (jobs q) →
  (∃ r, jobs q !! id = Some r ∧ heldBy owner r = true ∧
     Heartbeat now q id owner ttl =
       (mkQueue (<[id := extend (now + ttlOr ttl) now r]> (jobs q)) (log q), inr tt)) ∨
  ((∀ r, jobs q !! id = Some r → heldBy owner r = false) ∧
     Heartbeat now q id owner ttl = (q, inl ErrLeaseLost)).
Proof.
  intros Hok. unfold Heartbeat.
  destruct (held_update q id owner (extend (now + ttlOr ttl) now)) as [(r & Hr & Hw & ->)|[Hn ->]];
    [done|auto with jobs|left; eauto|right; by destruct q].
Qed.

Lemma Complete_eq now q id owner :
  table_ok (jobs q) →
  (∃ r ev, jobs q !! id = Some r ∧ heldBy owner r = true ∧ EvType ev = TypeJobSucceeded ∧
     tells (<[id := succeed now r]> (jobs q)) id ev ∧
     Complete now q id owner =
       (mkQueue (<[id := succeed now r]> (jobs q)) (log q ++ [ev]), inr tt)) ∨
  ((∀ r, jobs q !! id = Some r → heldBy owner r = false) ∧
     Complete now q id owner = (q, inl ErrLeaseLost)).
Proof.
  intros Hok. unfold Complete, inTx.
  destruct (held_update q id owner (succeed now)) as [(r & Hr & Hw & ->)|[Hn ->]];
    [done|auto with jobs| |by right].
  left. simpl. unfold readJob. rewrite lookup_insert_eq. simpl. eexists r, _.
  split_and!; [exact Hr|exact Hw|..|reflexivity]; [done|]. apply tells_read; [apply lookup_insert_eq|done].
Qed.

Lemma failRead_eq Int64N job now q id owner cause :
  table_ok (jobs q) →
  (∃ r r' ev, jobs q !! id = Some r ∧ heldBy owner r = true ∧ EvType ev = TypeJobFailed ∧
     r' = (if isPermanent cause || (negb (isTransient cause) && (MaxAttempts job <=? Attempts job)%Z)
           then kill (messageOf cause) now r
           else reschedule (messageOf cause)
                  (now + retryBackoff Int64N (isTransient cause) (Attempts job)) now r) ∧
     tells (<[id := r']> (jobs q)) id ev ∧
     failRead Int64N job now q id owner cause =
       (mkQueue (<[id := r']> (jobs q)) (log q ++ [ev]), inr tt)) ∨
  ((∀ r, jobs q !! id = Some r → heldBy owner r = false) ∧
     failRead Int64N job now q id owner cause = (q, inl ErrLeaseLost)).
Proof.
  intros Hok. unfold failRead.
  destruct (isPermanent cause || _).
  - destruct (held_update q id owner (kill (messageOf cause) now)) as [(r & Hr & Hw & Hu)|[Hn Hu]];
      [done|auto with jobs| |right; split; [done|]; unfold inTx; by rewrite Hu].
    left. unfold inTx. rewrite Hu. simpl. eexists r, _, _.
    split_and!; [exact Hr|exact Hw| |reflexivity| |reflexivity]; [done|]. split; [done|]. eexists.
    split; [apply lookup_insert_eq|]. cbn [EvPayload]. by rewrite payload_state.
  - set (at_ := (now + _)%Z).
    destruct (held_update q id owner (reschedule (messageOf cause) at_ now))
      as [(r & Hr & Hw & Hu)|[Hn Hu]];
      [done|auto with jobs| |right; split; [done|]; unfold inTx; by rewrite Hu].
    left. unfold inTx. rewrite Hu. simpl. eexists r, _, _.
    split_and!; [exact Hr|exact Hw| |reflexivity| |reflexivity]; [done|]. split; [done|]. eexists.
    split; [apply lookup_insert_eq|]. cbn [EvPayload]. by rewrite payload_state.
Qed.

(** ** The loops over several rows *)

Lemma tells_insert_ne (t : gmap string Row) i id r ev :
  i ≠ id → tells t id ev → tells (<[i := r]> t) id ev.
Proof. intros Hne (Hs & r' & Hr & Hp). split; [done|]. exists r'. by rewrite lookup_insert_ne. Qed.

Lemma fold_error {A E B} (f : E + A → B → E + A) e l :
  (∀ b, f (inl e) b = inl e) → foldl f (inl e) l = inl e.
Proof. intros H. induction l as [|b l IH]; [done|]. simpl. by rewrite H. Qed.

(** The loop of [reapAll]: each id in turn, each reported. *)
Lemma reap_fold reason flag now ids t out :
  flag ≠ "state" → table_ok t → NoDup ids →
  (∀ i, i ∈ ids → ∃ r, t !! i = Some r ∧ state r = Leased) →
  ∃ t' evs, foldl (reapOne reason flag now) (inr (t, out)) ids = inr (t', out ++ evs) ∧
    (∀ i, t' !! i = if decide (i ∈ ids) then reclaim reason now <$> t !! i else t !! i) ∧
    Forall2 (tells t') ids evs ∧ Forall (λ ev, EvType ev = TypeJobFailed) evs.
Proof.
  intros Hflag. revert t out. induction ids as [|id ids IH]; intros t out Hok Hnd Hin.
  { exists t, []. rewrite app_nil_r. split_and!; [done| |done|done].
    intros i. by rewrite decide_False by set_solver. }
  apply NoDup_cons in Hnd as [Hnin Hnd].
  destruct (Hin id) as (r & Hr & Hs); [set_solver|]. cbn [foldl].
  assert (keeping (λ r, bool_decide (state r = Leased)) (reclaim reason now)) as Hk
    by (apply keeping_reclaim, leased_bool).
  set (r' := reclaim reason now r).
  assert (alter (guard_row (λ r, bool_decide (state r = Leased)) (reclaim reason now)) id t
    = <[id := r']> t) as Halt.
  { apply alter_hold; [done|]. by apply bool_decide_eq_true. }
  set (ev := mkEvent TypeJobFailed id (transitionPayload (scanJob id r')
    {[ "terminal" := VBool false; flag := VBool true ]})).
  assert (reapOne reason flag now (inr (t, out)) id = inr (<[id := r']> t, out ++ [ev])) as ->.
  { unfold reapOne. simpl. rewrite (updateRow_keeping _ _ Hk t id Hok), Halt. simpl.
    unfold readJob. by rewrite lookup_insert_eq. }
  destruct (IH (<[id := r']> t) (out ++ [ev])) as (t' & evs & Heq & Hl & Hall & Hty).
  - rewrite <-Halt. by apply table_ok_alter.
  - done.
  - intros i Hi. rewrite lookup_insert_ne by set_solver. apply Hin. set_solver.
  - exists t', (ev :: evs). rewrite Heq, <-app_assoc. split_and!; [done| | |by constructor].
    + intros i. rewrite Hl. destruct (decide (i = id)) as [->|Hne].
      * rewrite decide_False, decide_True, lookup_insert_eq, Hr by set_solver. done.
      * rewrite lookup_insert_ne by done.
        destruct (decide (i ∈ ids)); [by rewrite decide_True by set_solver|].
        by rewrite decide_False by set_solver.
    + constructor; [|done]. apply tells_read.
      * rewrite Hl, decide_False by done. by rewrite lookup_insert_eq.
      * rewrite lookup_insert_ne by done. rewrite lookup_singleton_ne by done. done.
Qed.

Lemma elem_of_idsWhere p rows (t : gmap string Row) i :
  rows ≡ₚ map_to_list t → i ∈ idsWhere p rows ↔ ∃ r, t !! i = Some r ∧ p r = true.
Proof.
  intros Hp. unfold idsWhere. rewrite list_elem_of_fmap. split.
  - intros ([j r] & -> & [Hpr Hin]%list_elem_of_filter).
    rewrite Hp in Hin. apply elem_of_map_to_list in Hin. eauto.
  - intros (r & Hr & Hpr). exists (i, r). split; [done|]. apply list_elem_of_filter.
    rewrite Hp, elem_of_map_to_list. done.
Qed.

Lemma NoDup_idsWhere p rows (t : gmap string Row) :
  rows ≡ₚ map_to_list t → NoDup (idsWhere p rows).
Proof.
  intros Hp. unfold idsWhere. apply NoDup_fmap_filter. rewrite Hp. apply NoDup_fst_map_to_list.
Qed.

(** The loop over the ids a query found is the bulk update of the rows it selects. *)
Lemma reapAll_eq reason flag now q (p : Row → bool) rows :
  flag ≠ "state" → table_ok (jobs q) → rows ≡ₚ map_to_list (jobs q) →
  (∀ r, p r = true → state r = Leased) →
  ∃ evs, reapAll reason flag now q (idsWhere p rows) =
    (mkQueue (guard_row p (reclaim reason now) <$> jobs q) (log q ++ evs),
     inr (length (idsWhere p rows))) ∧
    Forall2 (tells (guard_row p (reclaim reason now) <$> jobs q)) (idsWhere p rows) evs ∧
    Forall (λ ev, EvType ev = TypeJobFailed) evs.
Proof.
  intros Hflag Hok Hrows Hp.
  destruct (reap_fold reason flag now (idsWhere p rows) (jobs q) [])
    as (t' & evs & Heq & Hl & Hall & Hty); [done..| | |].
  - by apply (NoDup_idsWhere _ _ (jobs q)).
  - intros i Hi. apply (elem_of_idsWhere _ _ (jobs q)) in Hi as (r & Hr & Hpr); [|done]. eauto.
  - assert (t' = guard_row p (reclaim reason now) <$> jobs q) as <-.
    { apply map_eq. intros i. rewrite Hl, lookup_fmap.
      destruct (jobs q !! i) as [r|] eqn:Hr; [|by case_decide].
      simpl. unfold guard_row. case_decide as Hi.
      - apply (elem_of_idsWhere _ _ (jobs q)) in Hi as (r' & Hr' & Hpr); [|done].
        rewrite Hr in Hr'. injection Hr' as <-. by rewrite Hpr.
      - destruct (p r) eqn:Hpr; [|done]. destruct Hi.
        apply (elem_of_idsWhere _ _ (jobs q)); eauto. }
    exists evs. split_and!; [|done..]. unfold reapAll, inTx. by rewrite Heq.
Qed.

(** The loop of [CancelPending]. *)
Lemma cancel_fold reason now js t out n :
  table_ok t → NoDup (ID <$> js) →
  (∀ j, j ∈ js → ∃ r, t !! ID j = Some r ∧ state r = Pending) →
  ∃ t' evs, foldl (cancelOne reason now) (inr (t, out, n)) js =
      inr (t', out ++ evs, (n + length js)%nat) ∧
    (∀ i, t' !! i = if decide (i ∈ ID <$> js) then cancel reason now <$> t !! i else t !! i) ∧
    Forall2 (tells t') (ID <$> js) evs ∧ Forall (λ ev, EvType ev = TypeJobFailed) evs.
Proof.
  revert t out n. induction js as [|j js IH]; intros t out n Hok Hnd Hin.
  { exists t, []. rewrite app_nil_r, Nat.add_0_r. split_and!; [done| |done|done].
    intros i. by rewrite decide_False by set_solver. }
  simpl in Hnd. apply NoDup_cons in Hnd as [Hnin Hnd].
  destruct (Hin j) as (r & Hr & Hs); [set_solver|]. cbn [foldl].
  assert (keeping (λ r, bool_decide (state r = Pending)) (cancel reason now)) as Hk
    by (apply keeping_cancel, pending_bool).
  set (r' := cancel reason now r).
  assert (bool_decide (state r = Pending) = true) as Hw by by apply bool_decide_eq_true.
  assert (alter (guard_row (λ r, bool_decide (state r = Pending)) (cancel reason now)) (ID j) t
    = <[ID j := r']> t) as Halt by by apply alter_hold.
  set (ev := mkEvent TypeJobFailed (ID j) (transitionPayload (withState j Dead reason)
    {[ "terminal" := VBool true; "permanent" := VBool true; "cancelled" := VBool true ]})).
  assert (cancelOne reason now (inr (t, out, n)) j = inr (<[ID j := r']> t, out ++ [ev], S n)) as ->.
  { unfold cancelOne. simpl. rewrite (updateRow_keeping _ _ Hk t (ID j) Hok), Halt, Hr. simpl.
    by rewrite Hw. }
  destruct (IH (<[ID j := r']> t) (out ++ [ev]) (S n)) as (t' & evs & Heq & Hl & Hall & Hty).
  - rewrite <-Halt. by apply table_ok_alter.
  - done.
  - intros i Hi. rewrite lookup_insert_ne; [apply Hin; set_solver|].
    intros Heq. apply Hnin. rewrite Heq. by apply list_elem_of_fmap_2.
  - exists t', (ev :: evs). rewrite Heq, <-app_assoc. split_and!; [| | |by constructor].
    + simpl. do 2 f_equal. lia.
    + intros i. rewrite Hl. simpl. destruct (decide (i = ID j)) as [->|Hne].
      * rewrite decide_False, decide_True, lookup_insert_eq, Hr by set_solver. done.
      * rewrite lookup_insert_ne by done.
        destruct (decide (i ∈ ID <$> js)); [by rewrite decide_True by set_solver|].
        by rewrite decide_False by set_solver.
    + simpl. constructor; [|done]. split; [done|]. exists r'. split.
      * rewrite Hl, decide_False by done. by rewrite lookup_insert_eq.
      * unfold ev. cbn [EvPayload]. by rewrite payload_state.
Qed.

(** The rows [CancelPending] selects. *)
Definition selected (jobType : string) (match_ : Job → bool) (id : string) (r : Row) : bool :=
  bool_decide (job_type r = jobType) && bool_decide (state r = Pending) && match_ (scanJob id r).

Lemma selected_spec jobType match_ id r :
  selected jobType match_ id r = true ↔
  job_type r = jobType ∧ state r = Pending ∧ match_ (scanJob id r) = true.
Proof. unfold selected. rewrite !andb_true_iff, !bool_decide_eq_true. tauto. Qed.

Lemma elem_of_pendingMatching t jobType match_ j :
  j ∈ pendingMatching t jobType match_ ↔
  ∃ r, t !! ID j = Some r ∧ selected jobType match_ (ID j) r = true ∧ j = scanJob (ID j) r.
Proof.
  unfold pendingMatching. rewrite list_elem_of_filter, list_elem_of_fmap.
  setoid_rewrite elem_of_sort_by. setoid_rewrite list_elem_of_filter. split.
  - intros (Hm & [i r] & -> & [Ht Hs] & Hin%elem_of_map_to_list). simpl in *.
    exists r. split; [done|]. by rewrite selected_spec.
  - intros (r & Hr & (Ht & Hs & Hm)%selected_spec & Hj). rewrite Hj. split; [done|].
    exists (ID j, r). by rewrite elem_of_map_to_list.
Qed.

Lemma NoDup_pendingMatching t jobType match_ : NoDup (ID <$> pendingMatching t jobType match_).
Proof.
  unfold pendingMatching. apply NoDup_fmap_filter. rewrite <-list_fmap_compose.
  rewrite (sort_by_perm (key_less fst str_lt)).
  apply (NoDup_fmap_filter fst), NoDup_fst_map_to_list.
Qed.

Lemma CancelPending_eq now q jobType match_ reason :
  table_ok (jobs q) →
  let js := pendingMatching (jobs q) jobType match_ in
  ∃ t' evs, CancelPending now q jobType match_ reason =
      (mkQueue t' (log q ++ evs), inr (length js)) ∧
    (∀ i, t' !! i = (λ r, if selected jobType match_ i r then cancel reason now r else r)
                      <$> jobs q !! i) ∧
    Forall2 (tells t') (ID <$> js) evs ∧ Forall (λ ev, EvType ev = TypeJobFailed) evs.
Proof.
  intros Hok. cbv zeta.
  destruct (cancel_fold reason now (pendingMatching (jobs q) jobType match_) (jobs q) [] 0)
    as (t' & evs & Heq & Hl & Hall & Hty); [done|apply NoDup_pendingMatching|..].
  { intros j (r & Hr & Hs & _)%elem_of_pendingMatching. apply selected_spec in Hs. naive_solver. }
  exists t', evs. unfold CancelPending, inTx. rewrite Heq. split_and!; [done| |done..].
  intros i. rewrite Hl. destruct (jobs q !! i) as [r|] eqn:Hr; [|by case_decide]. simpl.
  destruct (selected jobType match_ i r) eqn:Hs.
  - rewrite decide_True; [done|]. apply list_elem_of_fmap. exists (scanJob i r). split; [done|].
    apply elem_of_pendingMatching. eauto.
  - rewrite decide_False; [done|].
    intros (j & -> & (r' & Hr' & Hs' & _)%elem_of_pendingMatching)%list_elem_of_fmap. congruence.
Qed.

(** ** Claiming *)

#[export] Instance claim_less_weak : StrictWeak claim_less.
Proof. apply _. Qed.

Lemma claimTarget_spec opts now rows (t : gmap string Row) :
  rows ≡ₚ map_to_list t →
  match claimTarget opts now rows with
  | Some id => ∃ r, t !! id = Some r ∧ claimable opts now r = true ∧
      ∀ i s, t !! i = Some s → claimable opts now s = true → claim_less (i, s) (id, r) = false
  | None => ∀ i s, t !! i = Some s → claimable opts now s = false
  end.
Proof.
  intros Hrows. unfold claimTarget. set (l := sort_by claim_less _).
  assert (∀ e, e ∈ l ↔ claimable opts now e.2 = true ∧ t !! e.1 = Some e.2) as Hin.
  { intros [i s]. unfold l. rewrite elem_of_sort_by, list_elem_of_filter, Hrows.
    by rewrite elem_of_map_to_list. }
  pose proof (sort_by_sorted claim_less (filter (λ e, claimable opts now e.2 = true) rows)) as Hsort.
  fold l in Hsort. destruct l as [|[id r] l']; simpl.
  - intros i s Hi. apply not_true_iff_false. intros Hc.
    assert ((i, s) ∈ []) as Hn by (by apply Hin). by apply elem_of_nil in Hn.
  - destruct (proj1 (Hin (id, r))) as [Hc Hr]; [by left|]. exists r. split_and!; [done..|].
    intros i s Hi Hs. assert ((i, s) ∈ (id, r) :: l') as Hel by (by apply Hin).
    apply elem_of_cons in Hel as [[= -> ->]|Hel]; [apply (less_irrefl (less := claim_less))|].
    apply StronglySorted_inv in Hsort as [_ Hall]. rewrite Forall_forall in Hall.
    by apply (Hall (i, s)).
Qed.

Lemma claimable_spec opts now r :
  claimable opts now r = true ↔
  state r = Pending ∧ (run_after r ≤ now)%Z ∧ required_capability r ∈ "" :: Capabilities opts ∧
  (Types opts = [] ∨ job_type r ∈ Types opts).
Proof.
  unfold claimable. rewrite !andb_true_iff, Z.leb_le, !bool_decide_eq_true.
  case_decide as Ht; [|rewrite bool_decide_eq_true]; naive_solver.
Qed.

Lemma ClaimIn_eq rows now q opts :
  table_ok (jobs q) → rows ≡ₚ map_to_list (jobs q) → Owner opts ≠ "" →
  (∃ id r, jobs q !! id = Some r ∧ claimable opts now r = true ∧
     (∀ i s, jobs q !! i = Some s → claimable opts now s = true →
        claim_less (i, s) (id, r) = false) ∧
     let r' := lease (Owner opts) (now + ttlOr (LeaseTTL opts)) now r in
     ClaimIn rows now q opts = (mkQueue (<[id := r']> (jobs q)) (log q), inr (scanJob id r'))) ∨
  ((∀ i s, jobs q !! i = Some s → claimable opts now s = false) ∧
     ClaimIn rows now q opts = (q, inl ErrNoWork)).
Proof.
  intros [Hr Hu] Hrows Ho. unfold ClaimIn. rewrite decide_False by done.
  pose proof (claimTarget_spec opts now rows (jobs q) Hrows) as Ht.
  destruct (claimTarget opts now rows) as [id|]; [|by right]. left.
  destruct Ht as (r & Hid & Hc & Hmin). exists id, r. split_and!; [done..|].
  pose proof (proj1 (claimable_spec opts now r) Hc) as (Hs & _).
  set (r' := lease _ _ _ r).
  assert (keeps r r') as ([Hck _] & Hk & Hl) by (apply keeps_lease; [done|by apply (Hr id)|done]).
  unfold updateRow. rewrite Hid. cbn [negb]. rewrite (store_keep _ id r) by done. simpl.
  unfold readJob. by rewrite lookup_insert_eq.
Qed.

(** ** Enqueueing and retrying *)

(** The live row that holds a key. *)
Definition holder (t : gmap string Row) (key : string) (i : string) (r : Row) : Prop :=
  t !! i = Some r ∧ live r = true ∧ dedupe_key r = Some key.

Lemma findLive_spec (t : gmap string Row) key :
  keys_unique t →
  (∃ i r, holder t key i r ∧ findLiveByDedupeKey (map_to_list t) key = inr (scanJob i r)) ∨
  ((∀ i r, ¬ holder t key i r) ∧ findLiveByDedupeKey (map_to_list t) key = inl ErrNotFound).
Proof.
  intros Hu. unfold findLiveByDedupeKey.
  assert (∀ i r, (i, r) ∈ filter (λ e, dedupe_key e.2 = Some key ∧ live e.2 = true) (map_to_list t)
    ↔ holder t key i r) as Hin.
  { intros i r. rewrite list_elem_of_filter, elem_of_map_to_list. unfold holder. simpl. tauto. }
  destruct (filter _ (map_to_list t)) as [|[i r] l].
  - right. split; [|done]. intros i r Hh%Hin. by apply elem_of_nil in Hh.
  - left. exists i, r. split; [|done]. apply Hin. by left.
Qed.

Lemma key_taken_holder t id r key :
  dedupe_key r = Some key → live r = true →
  (t !! id = None ∨ ∃ r0, t !! id = Some r0 ∧ live r0 = false) →
  key_taken t id r = true ↔ ∃ i s, holder t key i s.
Proof.
  intros Hk Hl Hid. rewrite key_taken_spec. unfold holder. split; [naive_solver|].
  intros (i & s & Hi & Hs & Hks). exists key, i, s. split_and!; [done..| |done|done|done].
  intros ->. destruct Hid as [?|(r0 & ? & ?)]; congruence.
Qed.

Lemma newRow_ok id opts now : row_ok (newRow (newJob id opts now)).
Proof.
  unfold row_ok. rewrite check_row_spec. unfold newRow, newJob. cbn [state attempts max_attempts
    lease_owner lease_expires_at dedupe_key finished_at last_error MaxAttempts DedupeKey].
  split_and!; try done.
  - set_solver.
  - destruct (Z.leb_spec (OptMaxAttempts opts) 0); [done|lia].
  - unfold nullable. case_decide; congruence.
  - split; [done|]. intros [|]; discriminate.
Qed.

(** Enqueueing under a fresh id: the live job that holds the key, or a new row. *)
Lemma Enqueue_eq id now q opts :
  table_ok (jobs q) → jobs q !! id = None → OptType opts ≠ "" →
  (∃ i r, OptDedupeKey opts ≠ "" ∧ holder (jobs q) (OptDedupeKey opts) i r ∧
     Enqueue id now q opts = (q, inr (scanJob i r))) ∨
  ((OptDedupeKey opts = "" ∨ ∀ i r, ¬ holder (jobs q) (OptDedupeKey opts) i r) ∧
   ∃ ev, EvType ev = TypeJobEnqueued ∧
     tells (<[id := newRow (newJob id opts now)]> (jobs q)) id ev ∧
     Enqueue id now q opts =
       (mkQueue (<[id := newRow (newJob id opts now)]> (jobs q)) (log q ++ [ev]),
        inr (newJob id opts now))).
Proof.
  intros [Hr Hu] Hid Ht. unfold Enqueue, inTx, insertRow. rewrite decide_False, Hid by done.
  set (job := newJob id opts now). destruct (newRow_ok id opts now) as [Hc _]. unfold store.
  fold job in Hc. rewrite Hc. cbn [negb].
  assert (∀ P : Prop, P → (∃ ev, EvType ev = TypeJobEnqueued ∧
    tells (<[id := newRow job]> (jobs q)) id ev ∧
    (mkQueue (<[id := newRow job]> (jobs q)) (log q ++ [mkEvent TypeJobEnqueued id
       (transitionPayload job ∅)]), inr job) =
    (mkQueue (<[id := newRow job]> (jobs q)) (log q ++ [ev]), inr (A := error) job))) as Hnew.
  { intros _ _. eexists. split_and!; [..|reflexivity]; [done|]. split; [done|].
    eexists. split; [apply lookup_insert_eq|]. cbn [EvPayload]. by rewrite payload_state. }
  destruct (decide (OptDedupeKey opts = "")) as [He|Hne].
  - right. split; [by left|].
    assert (key_taken (jobs q) id (newRow job) = false) as ->; [|by apply (Hnew True)].
    unfold key_taken. cbn [newRow dedupe_key newJob job DedupeKey]. unfold nullable.
    by rewrite decide_True.
  - assert (dedupe_key (newRow job) = Some (OptDedupeKey opts)) as Hk.
    { cbn [newRow dedupe_key newJob job DedupeKey]. unfold nullable. by rewrite decide_False. }
    pose proof (key_taken_holder (jobs q) id (newRow job) _ Hk) as Htk.
    destruct (findLive_spec (jobs q) (OptDedupeKey opts) Hu) as [(i & r & Hh & Hf)|[Hn Hf]].
    + left. exists i, r. split_and!; [done..|]. rewrite (proj2 (Htk eq_refl (or_introl Hid))) by eauto.
      cbn [db mbind result_bind]. by rewrite decide_True, Hf.
    + right. split; [by right|].
      assert (key_taken (jobs q) id (newRow job) = false) as ->; [|by apply (Hnew True)].
      apply not_true_iff_false. intros (i & s & Hs)%(Htk eq_refl (or_introl Hid)). by apply (Hn i s).
Qed.

Lemma Retry_eq now q id :
  table_ok (jobs q) →
  (∃ r ev, jobs q !! id = Some r ∧ ended r = true ∧
     (∀ k i s, dedupe_key r = Some k → ¬ holder (jobs q) k i s) ∧ EvType ev = TypeJobEnqueued ∧
     tells (<[id := revive now r]> (jobs q)) id ev ∧
     Retry now q id = (mkQueue (<[id := revive now r]> (jobs q)) (log q ++ [ev]), inr tt)) ∨
  (∃ r k i s, jobs q !! id = Some r ∧ ended r = true ∧ dedupe_key r = Some k ∧
     holder (jobs q) k i s ∧ Retry now q id = (q, inl (DedupeConflictError i))) ∨
  ((∀ r, jobs q !! id = Some r → ended r = false) ∧ Retry now q id = (q, inl ErrLeaseLost)).
Proof.
  intros [Hr Hu]. unfold Retry, inTx, updateRow.
  destruct (jobs q !! id) as [r|] eqn:Hid; [|right; right; split; [done|reflexivity]].
  destruct (ended r) eqn:He; [|right; right; split; [naive_solver|reflexivity]].
  assert (live r = false) as Hl.
  { apply not_true_iff_false. intros Hl%live_spec. apply ended_spec in He.
    destruct Hl as [E|E]; rewrite E in He; naive_solver. }
  pose proof (Hr id r Hid) as Hrok. destruct (revive_ok now r Hrok) as [Hc _].
  unfold store. rewrite Hc. cbn [negb].
  destruct (key_taken (jobs q) id (revive now r)) eqn:Htk.
  - right. left. apply key_taken_spec in Htk as (k & i & s & Hk & _ & _ & Hi & Hs & Hks).
    change (dedupe_key r = Some k) in Hk.
    destruct (findLive_spec (jobs q) k Hu) as [(j & x & Hh & Hf)|[Hn _]]; [|by edestruct (Hn i s)].
    exists r, k, j, x. split_and!; [done..|]. cbn [mbind result_bind retryConflict].
    assert (k ≠ "") as Hne by (intros ->; by destruct Hrok as (_ & _ & Hne & _)).
    rewrite Hid. cbn [mbind]. rewrite Hk. simpl. rewrite decide_True by done. by rewrite Hf.
  - left. cbn [mbind result_bind]. eexists r, _. unfold readJob. cbn [mbind result_bind].
    rewrite lookup_insert_eq. cbn [mbind result_bind].
    split_and!; [done|done|..|reflexivity]; [|done|].
    + intros k i s Hk (Hi & Hs & Hks). apply not_true_iff_false in Htk.
      apply Htk, key_taken_spec. exists k, i, s. split_and!; [done..| |done|done|done].
      intros ->. congruence.
    + apply tells_read; [apply lookup_insert_eq|done].
Qed.

(** ** What one step does *)

(** Each row is as it was or has taken a step of the label; rows appear by enqueueing and
    never go away. *)
Definition advances (l : Label) (t t' : gmap string Row) : Prop :=
  ∀ id, match t !! id, t' !! id with
        | Some r, Some r' => r' = r ∨ row_step l id r r'
        | None, Some r' => l = LEnqueue id ∧ ∃ opts now, r' = newRow (newJob id opts now)
        | None, None => True
        | Some _, None => False
        end.

(** The log only grows, by events that tell of a row as the step left it; and every row
    that changed is told of, but for the two statements outside a transaction. *)
Definition logged (l : Label) (q q' : Queue) : Prop :=
  ∃ evs, log q' = log q ++ evs ∧ Forall (λ ev, ∃ id, tells (jobs q') id ev) evs ∧
    ∀ id, jobs q' !! id ≠ jobs q !! id →
      (∃ ev, ev ∈ evs ∧ tells (jobs q') id ev) ∨
      ((∃ o, l = LClaim o ∨ l = LHeartbeat id o) ∧ evs = []).

Definition sound (l : Label) (q q' : Queue) : Prop :=
  table_ok (jobs q') ∧ advances l (jobs q) (jobs q') ∧ logged l q q'.

Lemma sound_refl l q : table_ok (jobs q) → sound l q q.
Proof.
  intros Hok. split_and!; [done| |].
  - intros id. destruct (jobs q !! id); [by left|done].
  - exists []. rewrite app_nil_r. done.
Qed.

Lemma table_ok_insert t id r r' :
  table_ok t → t !! id = Some r → keeps r r' → table_ok (<[id := r']> t).
Proof.
  intros Hok Hr Hk.
  rewrite <-(alter_hold t id (λ x, bool_decide (x = r)) (λ _, r') r) by (done || by apply bool_decide_eq_true).
  apply table_ok_alter; [|done]. intros x _ Hx%bool_decide_eq_true. by subst.
Qed.

(** A row that becomes live under a key nobody holds. *)
Lemma table_ok_free t id r' :
  table_ok t → row_ok r' → (∀ k i s, dedupe_key r' = Some k → ¬ holder t k i s) →
  table_ok (<[id := r']> t).
Proof.
  intros [Hr Hu] Hok Hfree. split.
  - intros i s. destruct (decide (i = id)) as [->|Hne].
    + rewrite lookup_insert_eq. by intros [= <-].
    + rewrite lookup_insert_ne by done. apply Hr.
  - apply (store_keys t id r'); [done|]. unfold store. destruct Hok as [-> _]. cbn [negb].
    destruct (key_taken t id r') eqn:E; [|done]. exfalso.
    apply key_taken_spec in E as (k & i & s & Hk & _ & _ & Hi). by apply (Hfree k i s Hk).
Qed.

(** A step that writes one row. *)
Lemma sound_one l q id r r' evs :
  table_ok (<[id := r']> (jobs q)) → jobs q !! id = Some r → row_step l id r r' →
  Forall (tells (<[id := r']> (jobs q)) id) evs →
  (evs = [] → ∃ o, l = LClaim o ∨ l = LHeartbeat id o) →
  sound l q (mkQueue (<[id := r']> (jobs q)) (log q ++ evs)).
Proof.
  intros Hok Hr Hstep Hev Hl. split_and!; [done| |].
  - intros i. simpl. destruct (decide (i = id)) as [->|Hne].
    + rewrite Hr, lookup_insert_eq. by right.
    + rewrite lookup_insert_ne by done. destruct (jobs q !! i); [by left|done].
  - exists evs. split_and!; [done| |].
    + eapply Forall_impl; [exact Hev|]. intros ev He. by exists id.
    + simpl. intros i Hi. assert (i = id) as ->.
      { destruct (decide (i = id)); [done|]. destruct Hi. by rewrite lookup_insert_ne. }
      destruct evs as [|ev evs]; [right; auto|left]. exists ev. split; [by left|].
      by apply Forall_inv in Hev.
Qed.

(** A step that runs over several rows. *)
Lemma sound_bulk l q t' ids evs (p : string → Row → bool) (f : Row → Row) :
  table_ok (jobs q) → (∀ i r, p i r = true → row_ok r → keeps r (f r)) →
  (∀ i r, p i r = true → row_step l i r (f r)) →
  (∀ i, t' !! i = (λ r, if p i r then f r else r) <$> jobs q !! i) →
  (∀ i r, jobs q !! i = Some r → p i r = true → i ∈ ids) →
  Forall2 (tells t') ids evs → sound l q (mkQueue t' (log q ++ evs)).
Proof.
  intros [Hr Hu] Hk Hs Ht Hids Hev. split_and!; simpl.
  - assert (∀ i r', t' !! i = Some r' → ∃ r, jobs q !! i = Some r ∧ keeps r r') as Hkr.
    { intros i r'. rewrite Ht. intros (r & Hi & ->)%fmap_Some. exists r. split; [done|].
      pose proof (Hr i r Hi). destruct (p i r) eqn:E; [by apply (Hk i)|by split_and!]. }
    split.
    + by intros i r' (r & _ & Hok & _)%Hkr.
    + intros i j x y k (r & Hi & _ & Hkx & Hlx)%Hkr (s & Hj & _ & Hky & Hly)%Hkr ? ? ? ?.
      apply (Hu i j r s k); auto; congruence.
  - intros i. simpl. rewrite Ht. destruct (jobs q !! i) as [r|]; simpl; [|done].
    destruct (p i r) eqn:E; [right; by apply Hs|by left].
  - exists evs. split_and!; [done| |].
    + apply Forall_forall. intros ev Hin. apply list_elem_of_lookup in Hin as [n Hn].
      destruct (Forall2_lookup_r _ _ _ _ _ Hev Hn) as (id & _ & Ht'). by exists id.
    + intros i Hi. left. rewrite Ht in Hi. destruct (jobs q !! i) as [r|] eqn:Hir; [|done].
      simpl in Hi. destruct (p i r) eqn:E; [|done].
      pose proof (Hids i r Hir E) as Hin. apply list_elem_of_lookup in Hin as [n Hn].
      destruct (Forall2_lookup_l _ _ _ _ _ Hev Hn) as (ev & Hn' & Ht').
      exists ev. split; [by apply (list_elem_of_lookup_2 _ n)|done].
Qed.

Lemma sound_reap l reason flag now q (p : Row → bool) rows :
  flag ≠ "state" → table_ok (jobs q) → rows ≡ₚ map_to_list (jobs q) →
  (∀ r, p r = true → state r = Leased) →
  (∀ i r, p r = true → row_step l i r (reclaim reason now r)) →
  sound l q (reapAll reason flag now q (idsWhere p rows)).1.
Proof.
  intros Hf Hok Hrows Hp Hs.
  destruct (reapAll_eq reason flag now q p rows) as (evs & -> & Hev & _); [done..|]. cbn [fst].
  apply (sound_bulk l q _ (idsWhere p rows) evs (λ _, p) (reclaim reason now)); [done|..|done].
  - intros i r Hpr Hr. apply keeps_reclaim; auto.
  - done.
  - intros i. by rewrite lookup_fmap.
  - intros i r Hi Hpr. apply (elem_of_idsWhere p rows (jobs q)); eauto.
Qed.

Lemma Enqueue_taken id now q opts :
  is_Some (jobs q !! id) ∨ OptType opts = "" → (Enqueue id now q opts).1 = q.
Proof.
  intros H. unfold Enqueue, inTx. case_decide; [done|]. destruct H as [[r Hr]|]; [|done].
  unfold insertRow. rewrite Hr. cbn [db mbind result_bind].
  case_decide; [|done]. by destruct (findLiveByDedupeKey _ _).
Qed.

(** The only constraint an enqueue can fail on is that its id is taken. *)
Lemma Enqueue_fails id now q opts e :
  table_ok (jobs q) → (Enqueue id now q opts).2 = inl (ErrDB e) →
  e = UniqueViolation ∧ is_Some (jobs q !! id) ∧ (Enqueue id now q opts).1 = q.
Proof.
  intros Hok He. destruct (decide (OptType opts = "")) as [Ht|Ht].
  { revert He. unfold Enqueue. by rewrite decide_True. }
  destruct (jobs q !! id) as [r|] eqn:Hr.
  - split_and!; [|by eexists|apply Enqueue_taken; left; by eexists].
    revert He. unfold Enqueue, inTx, insertRow. rewrite decide_False, Hr by done. cbn [db mbind result_bind].
    case_decide; [|by intros [= <-]]. by destruct (findLiveByDedupeKey _ _); intros [= <-].
  - destruct (Enqueue_eq id now q opts Hok Hr Ht) as [(i & r & _ & _ & E)|(_ & ev & _ & _ & E)]; by rewrite E in He.
Qed.

Lemma sound_enqueue id now q opts :
  table_ok (jobs q) → sound (LEnqueue id) q (Enqueue id now q opts).1.
Proof.
  intros Hok. destruct (decide (is_Some (jobs q !! id) ∨ OptType opts = "")) as [Ht|Hn].
  { rewrite Enqueue_taken by done. by apply sound_refl. }
  assert (jobs q !! id = None ∧ OptType opts ≠ "") as [Hid Ht].
  { destruct (jobs q !! id); naive_solver. }
  destruct (Enqueue_eq id now q opts Hok Hid Ht) as [(i & r & _ & _ & ->)|(Hfree & ev & _ & Htell & ->)].
  { by apply sound_refl. }
  split_and!; simpl.
  - apply table_ok_free; [done|apply newRow_ok|]. intros k i s Hk.
    destruct Hfree as [He|Hfree].
    + revert Hk. unfold newRow, newJob, nullable. simpl. by rewrite decide_True.
    + assert (k = OptDedupeKey opts) as ->; [|apply Hfree].
      revert Hk. unfold newRow, newJob, nullable. simpl. case_decide; congruence.
  - intros i. simpl. destruct (decide (i = id)) as [->|Hne].
    + rewrite Hid, lookup_insert_eq. eauto.
    + rewrite lookup_insert_ne by done. destruct (jobs q !! i); [by left|done].
  - exists [ev]. split_and!; [done|constructor; eauto|]. simpl. intros i Hi. left. exists ev.
    split; [by left|]. destruct (decide (i = id)) as [->|Hne]; [done|].
    destruct Hi. by rewrite lookup_insert_ne.
Qed.

Lemma step_sound Int64N q l q' : table_ok (jobs q) → step Int64N q l q' → sound l q q'.
Proof.
  intros Hok Hstep. destruct Hstep as [id now opts|rows now opts Hrows|now id owner ttl|now id owner
    |job now id owner cause|rows now Hrows|rows now Hrows|now id|now jobType match_ reason].
  - by apply sound_enqueue.
  - destruct (decide (Owner opts = "")) as [He|Hne].
    { unfold ClaimIn. rewrite decide_True by done. by apply sound_refl. }
    destruct (ClaimIn_eq rows now q opts Hok Hrows Hne) as [(id & r & Hr & Hc & _ & ->)|[_ ->]];
      [|by apply sound_refl].
    cbn [fst]. rewrite <-(app_nil_r (log q)). apply claimable_spec in Hc as [Hs _].
    apply (sound_one _ _ _ r); [|done| |done|eauto].
    + apply (table_ok_insert _ _ r); [done..|]. apply keeps_lease; [done|by apply (proj1 Hok id)|done].
    + simpl. eauto.
  - destruct (Heartbeat_eq now q id owner ttl Hok) as [(r & Hr & Hw & ->)|[_ ->]];
      [|by apply sound_refl].
    cbn [fst]. rewrite <-(app_nil_r (log q)). apply (sound_one _ _ _ r); [|done| |done|eauto].
    + apply (table_ok_insert _ _ r); [done..|].
      apply (keeps_extend owner); [by apply (proj1 Hok id)|done].
    + simpl. eauto.
  - destruct (Complete_eq now q id owner Hok) as [(r & ev & Hr & Hw & _ & Ht & ->)|[_ ->]];
      [|by apply sound_refl].
    cbn [fst]. apply (sound_one _ _ _ r); [|done| |by constructor|done].
    + apply (table_ok_insert _ _ r); [done..|].
      apply (keeps_succeed owner); [by apply (proj1 Hok id)|done].
    + simpl. eauto.
  - destruct (failRead_eq Int64N job now q id owner cause Hok)
      as [(r & r' & ev & Hr & Hw & _ & -> & Ht & ->)|[_ ->]]; [|by apply sound_refl].
    cbn [fst]. pose proof (proj1 Hok id r Hr) as Hrok.
    apply (sound_one _ _ _ r); [|done| |by constructor|done].
    + apply (table_ok_insert _ _ r); [done..|]. destruct (isPermanent cause || _).
      * by apply (keeps_kill owner).
      * by apply (keeps_reschedule owner).
    + simpl. split_and!; [done..|]. exists (messageOf cause), now.
      destruct (isPermanent cause || _); [by left|right; eauto].
  - apply sound_reap; [done..| |].
    + by intros r [? _]%expired_spec.
    + done.
  - apply sound_reap; [done..| |].
    + apply leased_bool.
    + intros i r Hs%leased_bool. simpl. eauto.
  - destruct (Retry_eq now q id Hok) as
      [(r & ev & Hr & He & Hfree & _ & Ht & ->)|[(r & k & i & s & _ & _ & _ & _ & ->)|[_ ->]]];
      [|by apply sound_refl..].
    cbn [fst]. apply (sound_one _ _ _ r); [|done| |by constructor|done].
    + apply table_ok_free; [done| |done]. apply revive_ok. by apply (proj1 Hok id).
    + simpl. eauto.
  - destruct (CancelPending_eq now q jobType match_ reason Hok) as (t' & evs & -> & Ht & Hev & _).
    cbn [fst]. apply (sound_bulk _ _ _ (ID <$> pendingMatching (jobs q) jobType match_) _ (selected jobType match_) (cancel reason now) Hok);
      [| |done| |exact Hev].
    + intros i r (_ & Hs & _)%selected_spec Hr. by apply keeps_cancel.
    + intros i r (_ & Hs & _)%selected_spec. simpl. eauto.
    + intros i r Hi Hs. apply list_elem_of_fmap. exists (scanJob i r). split; [done|].
      apply elem_of_pendingMatching. eauto.
Qed.
