(* ===== verification/JobQueue.v ===== *)
(** * JobQueue: what the job queue promises

    The contract of internal/jobs/jobs.go, proved of the steps of JobSteps.v: the
    state machine one job goes through whatever its neighbours do, what a lease is
    worth while it lasts, and what each operation returns. *)

From S2P Require Import Prelude JobTable Jobs JobSteps.

(** ** The abstract machine of one job *)

Inductive Phase := Absent | Waiting | Held (owner : string) | Done | Buried.

Definition phase_of (row : option Row) : Phase :=
  match row with
  | None => Absent
  | Some r =>
      if decide (state r = Leased) then Held (default "" (lease_owner r))
      else if decide (state r = Pending) then Waiting
      else if decide (state r = Succeeded) then Done
      else Buried
  end.

Inductive moves (id : string) : Label → Phase → Phase → Prop :=
  | moves_enqueue : moves id (LEnqueue id) Absent Waiting
  | moves_claim o : moves id (LClaim o) Waiting (Held o)
  | moves_complete o : moves id (LComplete id o) (Held o) Done
  | moves_again o : moves id (LFail id o) (Held o) Waiting
  | moves_bury o : moves id (LFail id o) (Held o) Buried
  | moves_reap now o : moves id (LReap now) (Held o) Waiting
  | moves_reclaim o : moves id LReclaim (Held o) Waiting
  | moves_retry_done : moves id (LRetry id) Done Waiting
  | moves_retry_buried : moves id (LRetry id) Buried Waiting
  | moves_cancel : moves id LCancel Waiting Buried.

(** A step of another worker, of an operator or of the reaper that may not take the job
    [id] from [owner], who holds it until [until]. *)
Definition respects (id owner : string) (until : Z) (l : Label) : Prop :=
  match l with
  | LHeartbeat i o | LComplete i o | LFail i o => ¬ (i = id ∧ o = owner)
  | LReap now => (now < until)%Z
  | LReclaim => False
  | _ => True
  end.

(** ** The machine *)

Lemma phase_held o r : lease_owner r = Some o → state r = Leased → phase_of (Some r) = Held o.
Proof. intros Ho Hs. unfold phase_of. by rewrite decide_True, Ho. Qed.

Lemma phase_waiting r : state r = Pending → phase_of (Some r) = Waiting.
Proof. intros Hs. unfold phase_of. rewrite Hs. done. Qed.

Lemma phase_ended r :
  row_ok r → ended r = true → phase_of (Some r) = Done ∨ phase_of (Some r) = Buried.
Proof.
  intros (_ & Hf & _) He%ended_spec. unfold phase_of.
  destruct He as [E|[E|E]]; [right|done|left]; by rewrite E.
Qed.

Lemma leased_owner r : row_ok r → state r = Leased → ∃ o, lease_owner r = Some o.
Proof.
  intros [Hc _] Hs. apply check_row_spec in Hc as (_ & _ & _ & Hl & _).
  destruct (Hl Hs) as [Ho _]. destruct (lease_owner r); [eauto|done].
Qed.

Lemma row_step_moves l id r r' :
  row_ok r → row_step l id r r' →
  phase_of (Some r') = phase_of (Some r) ∨ moves id l (phase_of (Some r)) (phase_of (Some r')).
Proof.
  intros Hok. destruct l as [i|o|i o|i o|i o|now| |i| ]; cbn [row_step].
  - done.
  - intros (_ & Hs & e & now & ->). right. rewrite (phase_waiting r) by done.
    rewrite (phase_held o) by done. constructor.
  - intros (-> & [Ho Hs]%heldBy_spec & e & now & ->). left. rewrite !(phase_held o); done.
  - intros (-> & [Ho Hs]%heldBy_spec & now & ->). right. rewrite (phase_held o r) by done. constructor.
  - intros (-> & [Ho Hs]%heldBy_spec & m & now & [->|[at_ ->]]); right;
      rewrite (phase_held o r) by done; constructor.
  - intros [[Hs _]%expired_spec ->]. right. destruct (leased_owner r Hok Hs) as [o Ho].
    rewrite (phase_held o r) by done. constructor.
  - intros [Hs [now ->]]. right. destruct (leased_owner r Hok Hs) as [o Ho].
    rewrite (phase_held o r) by done. constructor.
  - intros (-> & He & now & ->). right. destruct (phase_ended r Hok He) as [->| ->]; constructor.
  - intros (Hs & reason & now & ->). right. rewrite (phase_waiting r) by done. constructor.
Qed.

Lemma step_moves Int64N q l q' id :
  table_ok (jobs q) → step Int64N q l q' →
  phase_of (jobs q' !! id) = phase_of (jobs q !! id) ∨
  moves id l (phase_of (jobs q !! id)) (phase_of (jobs q' !! id)).
Proof.
  intros Hok Hstep. destruct (step_sound Int64N q l q' Hok Hstep) as (_ & Hadv & _).
  specialize (Hadv id). destruct (jobs q !! id) as [r|] eqn:Hr, (jobs q' !! id) as [r'|]; try done.
  - destruct Hadv as [->|Hs]; [by left|]. apply row_step_moves; [by apply (proj1 Hok id)|done].
  - destruct Hadv as (-> & opts & now & ->). right. constructor.
  - by left.
Qed.

Lemma run_ok Int64N q ls q' : run Int64N q ls q' → table_ok (jobs q) → table_ok (jobs q').
Proof.
  induction 1 as [|q l q1 ls q2 Hs _ IH]; [done|]. intros Hok. apply IH.
  by destruct (step_sound Int64N q l q1 Hok Hs).
Qed.

Lemma NewQueue_ok : table_ok (jobs NewQueue).
Proof. split; [intros id r|intros i j r s k]; simpl; by rewrite lookup_empty. Qed.

(** C17. Whatever workers, reapers and operators do, in any order, no stored row ever breaks a
    constraint: every row is well-formed (a lease exactly while leased, an end exactly
    once ended, never the unused state "failed"), no two live jobs share a dedupe key,
    and on a reachable queue no operation fails on a constraint of the table; an enqueue,
    under an id no job has and with any options that name a type, succeeds, and under an id
    that is taken it fails on nothing else, and then changes nothing. *)
Theorem queue_invariant (Int64N : Z → Z) (ls : list Label) (q : Queue) :
  run Int64N NewQueue ls q →
  table_ok (jobs q) ∧
  ∀ now id owner ttl cause jobType match_ reason opts eopts e,
    (jobs q !! id = None → OptType eopts ≠ "" → ∃ job, (Enqueue id now q eopts).2 = inr job) ∧
    ((Enqueue id now q eopts).2 = inl (ErrDB e) →
       e = UniqueViolation ∧ is_Some (jobs q !! id) ∧ (Enqueue id now q eopts).1 = q) ∧
    (Claim now q opts).2 ≠ inl (ErrDB e) ∧
    (Heartbeat now q id owner ttl).2 ≠ inl (ErrDB e) ∧ (Complete now q id owner).2 ≠ inl (ErrDB e) ∧
    (Fail_ Int64N now q id owner cause).2 ≠ inl (ErrDB e) ∧
    (ReapExpiredLeases now q).2 ≠ inl (ErrDB e) ∧ (ReclaimAllLeases now q).2 ≠ inl (ErrDB e) ∧
    (Retry now q id).2 ≠ inl (ErrDB e) ∧
    (CancelPending now q jobType match_ reason).2 ≠ inl (ErrDB e).
Proof.
  intros Hrun. pose proof (run_ok _ _ _ _ Hrun NewQueue_ok) as Hok. split; [done|]. intros. split_and!.
  - intros Hid Ht. destruct (Enqueue_eq id now q eopts Hok Hid Ht) as [(i & r & _ & _ & ->)|(_ & ev & _ & _ & ->)]; by eexists.
  - by apply Enqueue_fails.
  - unfold Claim. destruct (decide (Owner opts = "")) as [Ho|Ho]; [unfold ClaimIn; by rewrite decide_True|].
    destruct (ClaimIn_eq (map_to_list (jobs q)) now q opts Hok) as [(i & r & _ & _ & _ & ->)|[_ ->]]; done.
  - destruct (Heartbeat_eq now q id owner ttl Hok) as [(r & _ & _ & ->)|[_ ->]]; done.
  - destruct (Complete_eq now q id owner Hok) as [(r & ev & _ & _ & _ & _ & ->)|[_ ->]]; done.
  - unfold Fail_. destruct (Get q id) as [x|job] eqn:E.
    + unfold Get, readJob in E. destruct (jobs q !! id); [done|]. by injection E as <-.
    + destruct (failRead_eq Int64N job now q id owner cause Hok)
        as [(r & r' & ev & _ & _ & _ & _ & _ & ->)|[_ ->]]; done.
  - unfold ReapExpiredLeases, ReapIn, expiredLeaseIDs.
    destruct (reapAll_eq reapReason "reaped" now q (expired now) (map_to_list (jobs q)))
      as (evs & -> & _); [done..| |done]. by intros r [? _]%expired_spec.
  - unfold ReclaimAllLeases, ReclaimIn, allLeasedIDs.
    destruct (reapAll_eq reclaimReason "reclaimed" now q (λ r, bool_decide (state r = Leased))
      (map_to_list (jobs q))) as (evs & -> & _); [done..|apply leased_bool|done].
  - destruct (Retry_eq now q id Hok) as
      [(r & ev & _ & _ & _ & _ & _ & ->)|[(r & k & i & s & _ & _ & _ & _ & ->)|[_ ->]]]; done.
  - destruct (CancelPending_eq now q jobType match_ reason Hok) as (t' & evs & -> & _). done.
Qed.

(** C36. The queue refines the machine of a job: along any run from an empty queue, each
    operation leaves a job's phase alone or moves it along one edge of that machine; in
    particular a job is taken by a claim only while it waits, leaves its holder only by
    the holder's own report, by the reaper or by a restore, and is buried only by a
    failure of its holder or by a cancellation before it ran. *)
Theorem queue_refines_machine (Int64N : Z → Z) (ls : list Label) (q : Queue) (l : Label)
    (q' : Queue) (id : string) :
  run Int64N NewQueue ls q → step Int64N q l q' →
  phase_of (jobs q' !! id) = phase_of (jobs q !! id) ∨
  moves id l (phase_of (jobs q !! id)) (phase_of (jobs q' !! id)).
Proof. intros Hrun. apply step_moves. exact (run_ok _ _ _ _ Hrun NewQueue_ok). Qed.

(** ** Leases *)

Lemma respects_row_step id owner until l r r' :
  heldBy owner r = true → lease_expires_at r = Some until → respects id owner until l →
  ¬ row_step l id r r'.
Proof.
  intros [Ho Hs]%heldBy_spec He. destruct l as [i|o|i o|i o|i o|now| |i| ]; simpl.
  - by intros _ [].
  - intros _ (_ & Hp & _). rewrite Hs in Hp. discriminate.
  - intros Hn (-> & [Ho' _]%heldBy_spec & _). destruct Hn. split; [done|]. congruence.
  - intros Hn (-> & [Ho' _]%heldBy_spec & _). destruct Hn. split; [done|]. congruence.
  - intros Hn (-> & [Ho' _]%heldBy_spec & _). destruct Hn. split; [done|]. congruence.
  - intros Hlt [(_ & e & He' & Hle)%expired_spec _]. rewrite He in He'. injection He' as <-. lia.
  - by intros [].
  - intros _ (_ & Hd%ended_spec & _). rewrite Hs in Hd. naive_solver.
  - intros _ (Hp & _). rewrite Hs in Hp. discriminate.
Qed.

Lemma run_held Int64N q ls q' id owner until r :
  run Int64N q ls q' → table_ok (jobs q) → jobs q !! id = Some r → heldBy owner r = true →
  lease_expires_at r = Some until → Forall (respects id owner until) ls → jobs q' !! id = Some r.
Proof.
  induction 1 as [|q l q1 ls q2 Hs _ IH]; [done|]. intros Hok Hr Hw He Hls.
  apply Forall_cons in Hls as [Hl Hls].
  destruct (step_sound Int64N q l q1 Hok Hs) as (Hok1 & Hadv & _). apply IH; try done.
  specialize (Hadv id). rewrite Hr in Hadv. destruct (jobs q1 !! id) as [r1|]; [|done].
  destruct Hadv as [->|Hstep]; [done|]. by destruct (respects_row_step id owner until l r r1).
Qed.

(** C18. A lease is exclusive while it lasts: whatever the others do, as long as no reaper
    runs at or after its expiry and no restore voids it, the leased row does not change;
    nobody else's report or heartbeat on the job is accepted, and the holder's is: its
    heartbeat extends the lease, its success ends the job, and its failure buries the job
    when it is permanent or was the last attempt of one that is not transient, and puts it
    back to wait otherwise. *)
Theorem lease_exclusive (Int64N : Z → Z) (q q' : Queue) (ls : list Label) (id owner : string)
    (until : Z) (r : Row) :
  table_ok (jobs q) → jobs q !! id = Some r → heldBy owner r = true →
  lease_expires_at r = Some until → run Int64N q ls q' → Forall (respects id owner until) ls →
  jobs q' !! id = Some r ∧
  (∀ now ttl cause,
     ((Complete now q' id owner).2 = inr tt ∧
      jobs (Complete now q' id owner).1 !! id = Some (succeed now r)) ∧
     ((Heartbeat now q' id owner ttl).2 = inr tt ∧
      jobs (Heartbeat now q' id owner ttl).1 !! id = Some (extend (now + ttlOr ttl) now r)) ∧
     ((Fail_ Int64N now q' id owner cause).2 = inr tt ∧
      jobs (Fail_ Int64N now q' id owner cause).1 !! id =
        Some (if isPermanent cause || (negb (isTransient cause) && (max_attempts r <=? attempts r)%Z)
              then kill (messageOf cause) now r
              else reschedule (messageOf cause)
                     (now + retryBackoff Int64N (isTransient cause) (attempts r)) now r))) ∧
  (∀ now other ttl cause, other ≠ owner →
     Complete now q' id other = (q', inl ErrLeaseLost) ∧
     Heartbeat now q' id other ttl = (q', inl ErrLeaseLost) ∧
     Fail_ Int64N now q' id other cause = (q', inl ErrLeaseLost)).
Proof.
  intros Hok Hr Hw He Hrun Hls.
  pose proof (run_held _ _ _ _ _ _ _ _ Hrun Hok Hr Hw He Hls) as Hr'.
  pose proof (run_ok _ _ _ _ Hrun Hok) as Hok'. split; [done|].
  assert (∀ other, other ≠ owner → heldBy other r = false) as Hother.
  { intros other Hne. apply not_true_iff_false. rewrite heldBy_spec. apply heldBy_spec in Hw. naive_solver. }
  split.
  - intros now ttl cause. split_and!; try (by apply lookup_insert_eq).
    all: try (destruct (Complete_eq now q' id owner Hok') as [(x & ev & Hx & _ & _ & _ & ->)|[Hn _]];
      [rewrite Hr' in Hx; injection Hx as <-; by try apply lookup_insert_eq|by rewrite (Hn r Hr') in Hw]).
    all: try (destruct (Heartbeat_eq now q' id owner ttl Hok') as [(x & Hx & _ & ->)|[Hn _]];
      [rewrite Hr' in Hx; injection Hx as <-; by try apply lookup_insert_eq|by rewrite (Hn r Hr') in Hw]).
    all: unfold Fail_, Get, readJob; rewrite Hr';
      destruct (failRead_eq Int64N (scanJob id r) now q' id owner cause Hok')
        as [(x & x' & ev & Hx & _ & _ & -> & _ & ->)|[Hn _]];
      [rewrite Hr' in Hx; injection Hx as <-; by try apply lookup_insert_eq|by rewrite (Hn r Hr') in Hw].
  - intros now other ttl cause Hne. specialize (Hother other Hne). split_and!.
    + destruct (Complete_eq now q' id other Hok') as [(x & ev & Hx & Hwx & _)|[_ ->]]; [congruence|done].
    + destruct (Heartbeat_eq now q' id other ttl Hok') as [(x & Hx & Hwx & _)|[_ ->]]; [congruence|done].
    + unfold Fail_, Get, readJob. rewrite Hr'.
      destruct (failRead_eq Int64N (scanJob id r) now q' id other cause Hok')
        as [(x & x' & ev & Hx & Hwx & _)|[_ ->]]; [congruence|done].
Qed.

(** ** Claiming and enqueueing *)

Lemma claim_less_false i s j r :
  claim_less (i, s) (j, r) = false →
  (priority r < priority s)%Z ∨ (priority r = priority s ∧ (run_after r ≤ run_after s)%Z).
Proof.
  unfold claim_less, lex_less, key_less. simpl. case_decide as Hp; [|intros H%Z.ltb_ge; lia].
  intros H%Z.ltb_ge. lia.
Qed.

(** A claim takes a due job the worker can run, of the least priority number and then the
    earliest due time, whatever the order in which the database visits the rows; it is
    leased to the worker with one more attempt counted, and nothing is logged.  It
    finds no work exactly when no job is claimable. *)
Theorem claim_spec (rows : list (string * Row)) (now : Z) (q : Queue) (opts : ClaimOptions) :
  table_ok (jobs q) → rows ≡ₚ map_to_list (jobs q) → Owner opts ≠ "" →
  match ClaimIn rows now q opts with
  | (q', inr job) => ∃ r,
      jobs q !! ID job = Some r ∧ claimable opts now r = true ∧
      (∀ i s, jobs q !! i = Some s → claimable opts now s = true →
         (priority r < priority s)%Z ∨ (priority r = priority s ∧ (run_after r ≤ run_after s)%Z)) ∧
      JobState job = Leased ∧ LeaseOwner job = Owner opts ∧ Attempts job = (attempts r + 1)%Z ∧
      LeaseExpiresAt job =
        (now + if (LeaseTTL opts <=? 0)%Z then DefaultLeaseTTL else LeaseTTL opts)%Z ∧
      (∃ r', q' = mkQueue (<[ID job := r']> (jobs q)) (log q) ∧ job = scanJob (ID job) r')
  | (q', inl e) => e = ErrNoWork ∧ q' = q ∧
      ∀ i s, jobs q !! i = Some s → claimable opts now s = false
  end.
Proof.
  intros Hok Hrows Ho.
  destruct (ClaimIn_eq rows now q opts Hok Hrows Ho) as [(id & r & Hr & Hc & Hmin & ->)|[Hn ->]];
    [|done].
  exists r. split_and!; [done|done| |done..|].
  - intros i s Hi Hs. by apply (claim_less_false i s id r), Hmin.
  - eexists. by split.
Qed.

Lemma holder_unique t k i r j s : keys_unique t → holder t k i r → holder t k j s → i = j.
Proof. intros Hu (? & ? & ?) (? & ? & ?). by apply (Hu i j r s k). Qed.

(** Enqueueing is idempotent while the work is live: it always hands back a live job under
    the requested key, creating one only when none is live; and asking again for that
    key, with any fresh id and any other options, changes nothing and hands back the
    same job. *)
Theorem enqueue_idempotent (id : string) (now : Z) (q : Queue) (opts : EnqueueOptions) :
  table_ok (jobs q) → jobs q !! id = None → OptType opts ≠ "" →
  match Enqueue id now q opts with
  | (q', inr job) =>
      (∃ r, jobs q' !! ID job = Some r ∧ live r = true ∧
         dedupe_key r = nullable (OptDedupeKey opts)) ∧
      ((∃ i r, holder (jobs q) (OptDedupeKey opts) i r ∧ OptDedupeKey opts ≠ "" ∧ q' = q ∧ ID job = i) ∨
       (ID job = id ∧ Attempts job = 0%Z ∧ JobState job = Pending ∧
        jobs q' = <[id := newRow job]> (jobs q))) ∧
      (OptDedupeKey opts ≠ "" → ∀ id2 now2 opts2,
         jobs q' !! id2 = None → OptType opts2 ≠ "" → OptDedupeKey opts2 = OptDedupeKey opts →
         ∃ job2, Enqueue id2 now2 q' opts2 = (q', inr job2) ∧ ID job2 = ID job)
  | (_, inl _) => False
  end.
Proof.
  intros Hok Hid Ht.
  assert (∀ q' i r, table_ok (jobs q') → holder (jobs q') (OptDedupeKey opts) i r →
    OptDedupeKey opts ≠ "" → ∀ id2 now2 opts2,
    jobs q' !! id2 = None → OptType opts2 ≠ "" → OptDedupeKey opts2 = OptDedupeKey opts →
    ∃ job2, Enqueue id2 now2 q' opts2 = (q', inr job2) ∧ ID job2 = i) as Hagain.
  { intros q' i r Hok' Hh Hne id2 now2 opts2 Hid2 Ht2 Hk.
    destruct (Enqueue_eq id2 now2 q' opts2 Hok' Hid2 Ht2) as [(j & s & _ & Hj & ->)|([He|Hn] & _)].
    - exists (scanJob j s). split; [done|]. rewrite Hk in Hj. by apply (holder_unique _ _ _ _ _ _ (proj2 Hok') Hj Hh).
    - congruence.
    - rewrite Hk in Hn. by destruct (Hn i r). }
  pose proof (sound_enqueue id now q opts Hok) as (Hok' & _).
  destruct (Enqueue_eq id now q opts Hok Hid Ht) as [(i & r & Hne & Hh & E)|(Hfree & ev & _ & _ & E)];
    rewrite E in *; cbn [fst] in Hok'.
  - split_and!; [|left; by exists i, r|].
    + destruct Hh as (Hi & Hl & Hk). exists r. split_and!; [done..|].
      rewrite Hk. unfold nullable. by rewrite decide_False.
    + intros _ id2 now2 opts2. by apply (Hagain q i r).
  - cbn [jobs] in *. split_and!; [|by right|].
    + eexists. split; [apply lookup_insert_eq|]. done.
    + intros Hne. apply (Hagain (mkQueue _ _) id (newRow (newJob id opts now))); [exact Hok'| |done].
      cbn [jobs]. split; [exact (lookup_insert_eq (jobs q) id _)|]. split; [done|].
      unfold newRow, newJob, nullable. simpl. by rewrite decide_False.
Qed.

(** Retrying by hand moves an ended job back to waiting, with no attempts and due at
    once, unless a live job holds its key: then nothing changes and the error names that
    job.  Any other job, or none, is refused. *)
Theorem retry_spec (now : Z) (q : Queue) (id : string) :
  table_ok (jobs q) →
  match Retry now q id with
  | (q', inr _) => ∃ r r', jobs q !! id = Some r ∧ ended r = true ∧
      (∀ k i s, dedupe_key r = Some k → ¬ holder (jobs q) k i s) ∧
      jobs q' = <[id := r']> (jobs q) ∧ phase_of (Some r') = Waiting ∧ attempts r' = 0%Z ∧
      run_after r' = now ∧ finished_at r' = None
  | (q', inl (DedupeConflictError i)) => q' = q ∧ ∃ r k s,
      jobs q !! id = Some r ∧ ended r = true ∧ dedupe_key r = Some k ∧ holder (jobs q) k i s
  | (q', inl e) => q' = q ∧ e = ErrLeaseLost ∧ ∀ r, jobs q !! id = Some r → ended r = false
  end.
Proof.
  intros Hok. destruct (Retry_eq now q id Hok) as
    [(r & ev & Hr & He & Hf & _ & _ & ->)|[(r & k & i & s & Hr & He & Hk & Hh & ->)|[Hn ->]]].
  - exists r, (revive now r). done.
  - split; [done|]. by exists r, k, s.
  - done.
Qed.

(** ** Failing *)

(** What [Int64N] promises: a number below a positive bound. *)
Definition draws (Int64N : Z → Z) : Prop := ∀ d, (0 < d)%Z → (0 ≤ Int64N d < d)%Z.

(** The delay before jitter: doubling from [base], capped, for an attempt counted from one. *)
Definition spread_of (attempt base ceiling : Z) : Z :=
  Z.min ceiling (base * 2 ^ Z.min (Z.max 1 attempt - 1) 20).

Lemma backoffWithin_bounds Int64N attempt base ceiling :
  draws Int64N → (0 < base ≤ ceiling)%Z → (base * 2 ^ 20 + ceiling < 2 ^ 63)%Z →
  let b := backoffWithin Int64N attempt base ceiling in
  (base ≤ b < base + spread_of attempt base ceiling)%Z.
Proof.
  intros Hdraw Hb Hfit. cbv zeta. unfold backoffWithin, spread_of.
  replace (if (attempt <? 1)%Z then 1%Z else attempt) with (Z.max 1 attempt)
    by (destruct (Z.ltb_spec attempt 1); lia).
  set (n := Z.min (Z.max 1 attempt - 1) 20). assert (0 ≤ n ≤ 20)%Z as Hn by (subst n; lia).
  rewrite Z.shiftl_mul_pow2 by lia.
  assert (1 ≤ 2 ^ n ≤ 2 ^ 20)%Z as Hpow.
  { split; [|by apply Z.pow_le_mono_r; lia]. assert (0 < 2 ^ n)%Z by (apply Z.pow_pos_nonneg; lia). lia. }
  set (d := (base * 2 ^ n)%Z).
  assert (base ≤ d ≤ base * 2 ^ 20)%Z as Hd by (unfold d; generalize dependent (2 ^ n)%Z; intros; nia).
  rewrite (wrap_i64_small d) by lia.
  replace (if (ceiling <? d)%Z || (d <=? 0)%Z then ceiling else d) with (Z.min ceiling d)
    by (destruct (Z.ltb_spec ceiling d), (Z.leb_spec d 0); simpl; lia).
  pose proof (Hdraw (Z.min ceiling d)) as Hr. rewrite wrap_i64_small; lia.
Qed.

Definition baseOf (transient : bool) : Z :=
  if transient then transientBaseBackoff else defaultBaseBackoff.
Definition ceilingOf (transient : bool) : Z :=
  if transient then transientMaxBackoff else defaultMaxBackoff.

(** The delay of a retry lies between the schedule's base and the base plus the doubling
    delay, which never overflows and is capped at the ceiling: so it may pass the ceiling,
    but by less than the base. *)
Theorem backoff_bounds (Int64N : Z → Z) (transient : bool) (attempt : Z) :
  draws Int64N →
  let d := retryBackoff Int64N transient attempt in
  (baseOf transient ≤ d < baseOf transient + spread_of attempt (baseOf transient) (ceilingOf transient))%Z ∧
  (d < baseOf transient + ceilingOf transient)%Z.
Proof.
  intros Hdraw. cbv zeta.
  assert (baseOf transient ≤ retryBackoff Int64N transient attempt
    < baseOf transient + spread_of attempt (baseOf transient) (ceilingOf transient))%Z as H.
  { destruct transient; apply backoffWithin_bounds; (done || by vm_compute). }
  split; [done|]. unfold spread_of in H. lia.
Qed.

(** A failure reported by the holder buries the job when the handler called it permanent,
    or when it is not transient and the attempts are spent; otherwise the job waits
    again with its delay, the attempts it has made kept.  A permanent claim wins over a
    transient one.  Anyone else is refused and changes nothing. *)
Theorem fail_spec (Int64N : Z → Z) (now : Z) (q : Queue) (id owner : string) (cause : option Cause) :
  table_ok (jobs q) →
  match Fail_ Int64N now q id owner cause with
  | (q', inr _) => ∃ r r', jobs q !! id = Some r ∧ heldBy owner r = true ∧
      jobs q' = <[id := r']> (jobs q) ∧ last_error r' = Some (messageOf cause) ∧
      attempts r' = attempts r ∧
      (phase_of (Some r') = Buried ↔
         isPermanent cause = true ∨ (isTransient cause = false ∧ (max_attempts r ≤ attempts r)%Z)) ∧
      (phase_of (Some r') ≠ Buried → phase_of (Some r') = Waiting ∧
         run_after r' = (now + retryBackoff Int64N (isTransient cause) (attempts r))%Z)
  | (q', inl e) => q' = q ∧
      match jobs q !! id with
      | None => e = ErrNotFound
      | Some r => e = ErrLeaseLost ∧ heldBy owner r = false
      end
  end.
Proof.
  intros Hok. unfold Fail_, Get, readJob. destruct (jobs q !! id) as [r|] eqn:Hr; [|done].
  destruct (failRead_eq Int64N (scanJob id r) now q id owner cause Hok)
    as [(x & r' & ev & Hx & Hw & _ & Hr' & _ & ->)|[Hn ->]]; [|by auto].
  rewrite Hr in Hx. injection Hx as <-. exists r, r'. cbn [jobs MaxAttempts Attempts scanJob] in *.
  assert (isPermanent cause || negb (isTransient cause) && (max_attempts r <=? attempts r)%Z = true
    ↔ isPermanent cause = true ∨ (isTransient cause = false ∧ (max_attempts r ≤ attempts r)%Z)) as Hiff.
  { by rewrite orb_true_iff, andb_true_iff, negb_true_iff, Z.leb_le. }
  rewrite <-Hiff. clear Hiff. subst r'.
  destruct (isPermanent cause || _); split_and!; try done.
Qed.

(** ** Reaping, restoring and cancelling *)

Lemma length_idsWhere p rows (t : gmap string Row) :
  rows ≡ₚ map_to_list t →
  length (idsWhere p rows) = size (filter (λ e, p e.2 = true) t).
Proof.
  intros Hp. unfold idsWhere. rewrite length_fmap, Hp, <-length_map_to_list, map_filter_alt.
  rewrite map_to_list_to_map; [done|]. apply (NoDup_fmap_filter fst), NoDup_fst_map_to_list.
Qed.

Lemma ReapIn_eq rows now q :
  table_ok (jobs q) → rows ≡ₚ map_to_list (jobs q) →
  ∃ evs, ReapIn rows now q =
    (mkQueue (guard_row (expired now) (reclaim reapReason now) <$> jobs q) (log q ++ evs),
     inr (size (filter (λ e, expired now e.2 = true) (jobs q)))) ∧
    length evs = size (filter (λ e, expired now e.2 = true) (jobs q)).
Proof.
  intros Hok Hrows. unfold ReapIn, expiredLeaseIDs. rewrite <-(length_idsWhere _ rows) by done.
  destruct (reapAll_eq reapReason "reaped" now q (expired now) rows) as (evs & -> & Hev & _); [done..| |].
  - by intros r [? _]%expired_spec.
  - exists evs. split; [done|]. symmetry. by eapply Forall2_length.
Qed.

(** The loops over several jobs are bulk updates of exactly the rows they mean, with one
    event and one in the count for each: the reaper lets go of the jobs whose lease has
    run out and no others, keeping the attempts they made; a restore lets go of every
    lease; a cancellation ends the pending jobs of the type that match. *)
Theorem bulk_spec (rows : list (string * Row)) (now : Z) (q : Queue) (jobType : string)
    (match_ : Job → bool) (reason : string) :
  table_ok (jobs q) → rows ≡ₚ map_to_list (jobs q) →
  (match ReapIn rows now q with
   | (q', inr n) =>
       jobs q' = (λ r, if expired now r then reclaim reapReason now r else r) <$> jobs q ∧
       n = size (filter (λ e, expired now e.2 = true) (jobs q)) ∧
       length (log q') = (length (log q) + n)%nat ∧
       (∀ id r, jobs q' !! id = Some r → expired now r = false)
   | (_, inl _) => False
   end) ∧
  (match ReclaimIn rows now q with
   | (q', inr n) =>
       (∀ id, jobs q' !! id =
          (λ r, if decide (state r = Leased) then reclaim reclaimReason now r else r) <$> jobs q !! id) ∧
       length (log q') = (length (log q) + n)%nat ∧
       (∀ id r, jobs q' !! id = Some r → state r ≠ Leased)
   | (_, inl _) => False
   end) ∧
  (match CancelPending now q jobType match_ reason with
   | (q', inr n) =>
       (∀ id, jobs q' !! id =
          (λ r, if selected jobType match_ id r then cancel reason now r else r) <$> jobs q !! id) ∧
       length (log q') = (length (log q) + n)%nat
   | (_, inl _) => False
   end).
Proof.
  intros Hok Hrows. split_and!.
  - destruct (ReapIn_eq rows now q Hok Hrows) as (evs & -> & Hlen). cbn [jobs log].
    split_and!; [done..|by rewrite length_app, Hlen|]. intros id r.
    rewrite lookup_fmap. intros (x & _ & ->)%fmap_Some. unfold guard_row.
    by destruct (expired now x) eqn:E.
  - unfold ReclaimIn, allLeasedIDs.
    destruct (reapAll_eq reclaimReason "reclaimed" now q (λ r, bool_decide (state r = Leased)) rows)
      as (evs & -> & Hev & _); [done..|apply leased_bool|]. cbn [jobs log].
    assert (∀ id, (guard_row (λ r, bool_decide (state r = Leased)) (reclaim reclaimReason now)
        <$> jobs q) !! id =
      (λ r, if decide (state r = Leased) then reclaim reclaimReason now r else r) <$> jobs q !! id) as Hp.
    { intros id. rewrite lookup_fmap. destruct (jobs q !! id) as [r|]; [|done]. simpl.
      unfold guard_row. case_bool_decide; case_decide; done. }
    split_and!; [done| |].
    + rewrite length_app. f_equal. symmetry. by eapply Forall2_length.
    + intros id r. rewrite Hp. intros (x & _ & ->)%fmap_Some. case_decide as Hx; [discriminate|done].
  - destruct (CancelPending_eq now q jobType match_ reason Hok) as (t' & evs & -> & Ht & Hev & _).
    split; [done|]. cbn [log]. rewrite length_app. f_equal. apply Forall2_length in Hev.
    by rewrite length_fmap in Hev.
Qed.

(** A worker that claims the job and dies each time, and the reaper after each lease. *)
Definition worker (owner : string) : ClaimOptions := mkClaim owner [] 0 [].

Fixpoint crash_loop (owner : string) (n : nat) (now : Z) (q : Queue) : Queue :=
  match n with
  | O => q
  | S n =>
      let later := (now + DefaultLeaseTTL)%Z in
      crash_loop owner n later (ReapExpiredLeases later (Claim now q (worker owner)).1).1
  end.

Lemma crash_round owner now q id r :
  owner ≠ "" → jobs q = {[id := r]} → row_ok r → state r = Pending → required_capability r = "" →
  (run_after r ≤ now)%Z →
  jobs (ReapExpiredLeases (now + DefaultLeaseTTL) (Claim now q (worker owner)).1).1 =
    {[id := reclaim reapReason (now + DefaultLeaseTTL)
              (lease owner (now + DefaultLeaseTTL) now r)]}.
Proof.
  intros Ho Hq Hr Hs Hc Hle.
  assert (table_ok (jobs q)) as Hok.
  { rewrite Hq. split; [intros i x [<- <-]%lookup_singleton_Some; done|].
    intros i j x y k [<- _]%lookup_singleton_Some [<- _]%lookup_singleton_Some. done. }
  assert (claimable (worker owner) now r = true) as Hcl.
  { apply claimable_spec. split_and!; [done..|rewrite Hc; by left|by left]. }
  unfold Claim. destruct (ClaimIn_eq (map_to_list (jobs q)) now q (worker owner) Hok) as
    [(i & x & Hx & _ & _ & E)|[Hn _]]; [done..| |].
  2:{ specialize (Hn id r). rewrite Hq, lookup_singleton_eq in Hn. rewrite Hn in Hcl; done. }
  rewrite E. cbn [fst]. clear E. rewrite Hq in Hx. apply lookup_singleton_Some in Hx as [<- <-].
  cbn [worker Owner LeaseTTL]. change (ttlOr 0) with DefaultLeaseTTL. set (r1 := lease _ _ _ r).
  assert (jobs (mkQueue (<[id := r1]> (jobs q)) (log q)) = {[id := r1]}) as Hq1.
  { cbn [jobs]. rewrite Hq. apply insert_singleton_eq. }
  set (q1 := mkQueue _ _) in *.
  assert (table_ok (jobs q1)) as Hok1.
  { apply (table_ok_insert _ _ r); [done|by rewrite Hq, lookup_singleton_eq|]. by apply keeps_lease. }
  unfold ReapExpiredLeases.
  destruct (ReapIn_eq (map_to_list (jobs q1)) (now + DefaultLeaseTTL) q1 Hok1) as (evs & -> & _);
    [done|]. cbn [fst jobs]. rewrite Hq1, map_fmap_singleton. f_equal. unfold guard_row.
  assert (expired (now + DefaultLeaseTTL) r1 = true) as ->; [|done].
  apply expired_spec. split; [done|]. eexists. split; [done|lia].
Qed.

(** The reaper never buries a job: one whose worker dies every time it claims it goes back
    to waiting after each lease, for as many rounds as one likes, its attempts passing
    any maximum.  (The comments on the reaper say it walks toward dead instead.) *)
Theorem crash_loop_never_dead (owner : string) (n : nat) (now : Z) (q : Queue) (id : string) (r : Row) :
  owner ≠ "" → jobs q = {[id := r]} → row_ok r → state r = Pending → required_capability r = "" →
  (run_after r ≤ now)%Z →
  ∃ r', jobs (crash_loop owner n now q) = {[id := r']} ∧ phase_of (Some r') = Waiting ∧
    attempts r' = (attempts r + Z.of_nat n)%Z ∧ max_attempts r' = max_attempts r.
Proof.
  intros Ho. revert now q r. induction n as [|n IH]; intros now q r Hq Hr Hs Hc Hle.
  { exists r. split_and!; [done|by apply phase_waiting|lia|done]. }
  cbn [crash_loop]. cbv zeta. pose proof (crash_round owner now q id r Ho Hq Hr Hs Hc Hle) as Hq'.
  destruct (keeps_lease owner (now + DefaultLeaseTTL) now r Ho Hr Hs) as [Hl _].
  destruct (keeps_reclaim reapReason (now + DefaultLeaseTTL) _ Hl eq_refl) as [Hr' _].
  destruct (IH (now + DefaultLeaseTTL)%Z _ _ Hq' Hr' eq_refl Hc) as (r' & H1 & H2 & H3 & H4).
  { cbn [reclaim release run_after lease]. unfold DefaultLeaseTTL, Second. lia. }
  exists r'. split_and!; [done..| |done]. rewrite H3. cbn [reclaim release attempts lease]. lia.
Qed.

(** The event log agrees with the table: along any run, a step appends only events that
    tell the state of the row as the step left it, never rewrites the log, and tells of
    every row it changed; only a claim and a heartbeat change rows without an event. *)
Theorem events_told (Int64N : Z → Z) (ls : list Label) (q : Queue) (l : Label) (q' : Queue) :
  run Int64N NewQueue ls q → step Int64N q l q' →
  ∃ evs, log q' = log q ++ evs ∧ Forall (λ ev, ∃ id, tells (jobs q') id ev) evs ∧
    ∀ id, jobs q' !! id ≠ jobs q !! id →
      (∃ ev, ev ∈ evs ∧ tells (jobs q') id ev) ∨
      ((∃ o, l = LClaim o ∨ l = LHeartbeat id o) ∧ evs = []).
Proof.
  intros Hrun Hstep. pose proof (run_ok _ _ _ _ Hrun NewQueue_ok) as Hok.
  by destruct (step_sound Int64N q l q' Hok Hstep) as (_ & _ & Hlog).
Qed.

(** ** A queue with one job *)

Definition ex_draw (d : Z) : Z := d / 2.

Lemma ex_draws : draws ex_draw.
Proof. intros d Hd. unfold ex_draw. split; [apply Z.div_pos; lia|apply Z.div_lt; lia]. Qed.

Definition ex_opts : EnqueueOptions := mkEnqueue "scan" None "k" None "" 0 0.
Definition ex_waiting : Queue := (Enqueue "j1" 1000 NewQueue ex_opts).1.
Definition ex_held : Queue := (Claim 2000 ex_waiting (worker "w1")).1.
Definition ex_ended : Queue := (Fail_ ex_draw 3000 ex_held "j1" "w1" (Some (mkCause "bad" true false))).1.
Definition ex_row : Row := newRow (newJob "j1" ex_opts 1000).
Definition ex_leased : Row := lease "w1" (2000 + DefaultLeaseTTL) 2000 ex_row.

Lemma ex_run_waiting : run ex_draw NewQueue [LEnqueue "j1"] ex_waiting.
Proof. eapply run_cons; [apply (step_enqueue ex_draw NewQueue "j1" 1000 ex_opts)|apply run_nil]. Qed.

Lemma ex_step_claim : step ex_draw ex_waiting (LClaim "w1") ex_held.
Proof. by apply (step_claim ex_draw ex_waiting (map_to_list (jobs ex_waiting)) 2000 (worker "w1")). Qed.

Lemma ex_run_held : run ex_draw NewQueue [LEnqueue "j1"; LClaim "w1"] ex_held.
Proof.
  eapply run_cons; [apply (step_enqueue ex_draw NewQueue "j1" 1000 ex_opts)|].
  eapply run_cons; [apply ex_step_claim|apply run_nil].
Qed.

Lemma ex_ok_waiting : table_ok (jobs ex_waiting).
Proof. exact (run_ok _ _ _ _ ex_run_waiting NewQueue_ok). Qed.

Lemma ex_ok_held : table_ok (jobs ex_held).
Proof. exact (run_ok _ _ _ _ ex_run_held NewQueue_ok). Qed.

Lemma ex_step_fail : step ex_draw ex_held (LFail "j1" "w1") ex_ended.
Proof.
  replace ex_ended with (failRead ex_draw (scanJob "j1" ex_leased) 3000 ex_held "j1" "w1"
    (Some (mkCause "bad" true false))).1 by (vm_compute; reflexivity).
  apply step_fail.
Qed.

Lemma ex_ok_ended : table_ok (jobs ex_ended).
Proof. exact (proj1 (step_sound _ _ _ _ ex_ok_held ex_step_fail)). Qed.

Lemma queue_invariant_witness :
  table_ok (jobs ex_held) ∧ (Complete 5 ex_held "j1" "w2").2 ≠ inl (ErrDB UniqueViolation) ∧
  ∃ job, (Enqueue "j2" 5 ex_held ex_opts).2 = inr job.
Proof.
  destruct (queue_invariant ex_draw [LEnqueue "j1"; LClaim "w1"] ex_held ex_run_held) as [Hok H].
  split; [exact Hok|]. split.
  - apply (H 5%Z "j1" "w2" 0%Z None "scan" (λ _, true) "r" (worker "w2") ex_opts UniqueViolation).
  - apply (H 5%Z "j2" "w2" 0%Z None "scan" (λ _, true) "r" (worker "w2") ex_opts UniqueViolation);
      [reflexivity|discriminate].
Defined.

Lemma queue_refines_machine_witness :
  phase_of (jobs ex_waiting !! "j1") = Waiting ∧ phase_of (jobs ex_held !! "j1") = Held "w1" ∧
  moves "j1" (LClaim "w1") Waiting (Held "w1").
Proof.
  split; [reflexivity|split; [reflexivity|]].
  destruct (queue_refines_machine ex_draw [LEnqueue "j1"] ex_waiting (LClaim "w1") ex_held "j1"
    ex_run_waiting ex_step_claim) as [H|H]; [discriminate H|exact H].
Defined.

Lemma lease_exclusive_witness :
  (ReapExpiredLeases 3000 ex_held).1 = ex_held ∧
  (Complete 4000 ex_held "j1" "w1").2 = inr tt ∧ (Heartbeat 4000 ex_held "j1" "w1" 9).2 = inr tt ∧
  (Fail_ ex_draw 4000 ex_held "j1" "w1" None).2 = inr tt ∧ Complete 4000 ex_held "j1" "w2" = (ex_held, inl ErrLeaseLost).
Proof.
  split; [reflexivity|].
  destruct (lease_exclusive ex_draw ex_held ex_held [LReap 3000] "j1" "w1" (2000 + DefaultLeaseTTL)
    ex_leased) as (_ & H1 & H2).
  - exact ex_ok_held.
  - reflexivity.
  - reflexivity.
  - reflexivity.
  - eapply run_cons; [|apply run_nil].
    exact (step_reap ex_draw ex_held (map_to_list (jobs ex_held)) 3000 (reflexivity _)).
  - repeat constructor.
  - destruct (H1 4000%Z 9%Z None) as ([Hc _] & [Hh _] & [Hf _]).
    split; [exact Hc|]. split; [exact Hh|]. split; [exact Hf|]. apply (H2 4000%Z "w2" 0%Z None). discriminate.
Defined.

Lemma claim_spec_witness :
  match ClaimIn (map_to_list (jobs ex_waiting)) 2000 ex_waiting (worker "w1") with
  | (_, inr job) => ID job = "j1" ∧ JobState job = Leased
  | (_, inl _) => False
  end.
Proof.
  pose proof (claim_spec (map_to_list (jobs ex_waiting)) 2000 ex_waiting (worker "w1") ex_ok_waiting
    (reflexivity _) (λ e, ltac:(discriminate e))) as H.
  destruct (ClaimIn (map_to_list (jobs ex_waiting)) 2000 ex_waiting (worker "w1")) as [q' [e|job]] eqn:E.
  - vm_compute in E. discriminate E.
  - destruct H as (r & Hr & _ & _ & Hs & _). split; [|exact Hs]. vm_compute in E.
    injection E as _ <-. reflexivity.
Defined.

Lemma enqueue_idempotent_witness :
  match Enqueue "j2" 1500 ex_waiting ex_opts with
  | (q', inr job) => q' = ex_waiting ∧ ID job = "j1"
  | (_, inl _) => False
  end.
Proof.
  pose proof (enqueue_idempotent "j1" 1000 NewQueue ex_opts NewQueue_ok eq_refl
    (λ e, ltac:(discriminate e))) as H.
  change (Enqueue "j1" 1000 NewQueue ex_opts) with
    (ex_waiting, @inr error Job (newJob "j1" ex_opts 1000)) in H.
  destruct H as (_ & _ & H).
  destruct (H (λ e, ltac:(discriminate e)) "j2" 1500%Z ex_opts eq_refl (λ e, ltac:(discriminate e)) eq_refl)
    as (job2 & E & Hid).
  rewrite E. split; [reflexivity|exact Hid].
Defined.

Lemma retry_spec_witness :
  match Retry 4000 ex_ended "j1" with
  | (q', inr _) => ∃ r', jobs q' = <["j1" := r']> (jobs ex_ended) ∧ attempts r' = 0%Z
  | (_, inl _) => False
  end.
Proof.
  pose proof (retry_spec 4000 ex_ended "j1" ex_ok_ended) as H.
  destruct (Retry 4000 ex_ended "j1") as [q' [e|[]]] eqn:E; [vm_compute in E; discriminate E|].
  destruct H as (r & r' & _ & _ & _ & Hq & _ & Ha & _). exists r'. split; [exact Hq|exact Ha].
Defined.

Lemma backoff_bounds_witness :
  draws ex_draw ∧ (retryBackoff ex_draw true 60 < 6 * Hour + Minute)%Z.
Proof. split; [exact ex_draws|]. exact (proj2 (backoff_bounds ex_draw true 60 ex_draws)). Defined.

Lemma fail_spec_witness :
  match Fail_ ex_draw 3000 ex_held "j1" "w1" (Some (mkCause "bad" true true)) with
  | (q', inr _) => ∃ r', jobs q' = <["j1" := r']> (jobs ex_held) ∧ phase_of (Some r') = Buried
  | (_, inl _) => False
  end.
Proof.
  pose proof (fail_spec ex_draw 3000 ex_held "j1" "w1" (Some (mkCause "bad" true true)) ex_ok_held) as H.
  destruct (Fail_ ex_draw 3000 ex_held "j1" "w1" (Some (mkCause "bad" true true))) as [q' [e|[]]] eqn:E;
    [vm_compute in E; discriminate E|].
  destruct H as (r & r' & _ & _ & Hq & _ & _ & Hb & _). exists r'. split; [exact Hq|].
  apply Hb. by left.
Defined.

Lemma bulk_spec_witness :
  match ReapIn (map_to_list (jobs ex_held)) (2000 + DefaultLeaseTTL) ex_held with
  | (q', inr n) => n = 1%nat ∧ ∀ id r, jobs q' !! id = Some r → expired (2000 + DefaultLeaseTTL) r = false
  | (_, inl _) => False
  end.
Proof.
  destruct (bulk_spec (map_to_list (jobs ex_held)) (2000 + DefaultLeaseTTL) ex_held "scan" (λ _, true) "r"
    ex_ok_held (reflexivity _)) as (H & _).
  destruct (ReapIn _ _ ex_held) as [q' [e|n]]; [exact H|]. destruct H as (_ & Hn & _ & He).
  split; [rewrite Hn; reflexivity|exact He].
Defined.

Lemma crash_loop_never_dead_witness :
  ∃ r', jobs (crash_loop "w1" 9 2000 ex_waiting) = {["j1" := r']} ∧ phase_of (Some r') = Waiting ∧
    attempts r' = 9%Z ∧ max_attempts r' = 5%Z.
Proof.
  apply (crash_loop_never_dead "w1" 9 2000 ex_waiting "j1" ex_row).
  - discriminate.
  - reflexivity.
  - apply newRow_ok.
  - reflexivity.
  - reflexivity.
  - discriminate.
Defined.

Lemma events_told_witness :
  ∃ evs, log ex_held = log ex_waiting ++ evs ∧ Forall (λ ev, ∃ id, tells (jobs ex_held) id ev) evs.
Proof.
  destruct (events_told ex_draw [LEnqueue "j1"] ex_waiting (LClaim "w1") ex_held ex_run_waiting
    ex_step_claim) as (evs & H1 & H2 & _). exists evs. split; [exact H1|exact H2].
Defined.
