(* ===== verification/GoScan.v ===== *)
(** * GoScan: reading numbers back from text

    [strings.Cut] and the verbs [%d], [%x] and [%02x] of Go's fmt, as printing and as
    scanning.  A scan skips leading spaces and stops at the first byte that is not a
    digit, whatever follows; a newline before the number is an error.  Space is ASCII
    space, as in GoText. *)

From S2P Require Import Prelude GoText GoPath.

(** [strings.Cut(s, sep)] for a one-byte separator. *)
Fixpoint Cut (sep : ascii) (s : string) : option (string * string) :=
  match s with
  | EmptyString => None
  | String c s =>
      if decide (c = sep) then Some ("", s)
      else (λ p, (String c p.1, p.2)) <$> Cut sep s
  end.

(** ** Digits *)

Definition digitVal (base : N) (c : ascii) : option N :=
  let n := N_of_ascii c in
  let v := if (48 <=? n)%N && (n <=? 57)%N then Some (n - 48)%N
           else if (97 <=? n)%N && (n <=? 102)%N then Some (n - 87)%N
           else if (65 <=? n)%N && (n <=? 70)%N then Some (n - 55)%N
           else None in
  match v with Some d => if (d <? base)%N then Some d else None | None => None end.

(** The number the digits at the front of the text go on to. *)
Fixpoint readDigits (base acc : N) (s : string) : N :=
  match s with
  | String c s' => match digitVal base c with
                   | Some d => readDigits base (acc * base + d) s'
                   | None => acc
                   end
  | EmptyString => acc
  end.

(** At least one digit, then as many as there are. *)
Definition scanNumber (base : N) (s : string) : option N :=
  match s with
  | String c _ => match digitVal base c with Some _ => Some (readDigits base 0 s) | None => None end
  | EmptyString => None
  end.

Fixpoint SkipSpace (s : string) : option string :=
  match s with
  | String c s' =>
      if decide (c = "010"%char) then None else if is_space c then SkipSpace s' else Some s
  | EmptyString => Some EmptyString
  end.

(** [fmt.Sscanf(s, "%d", &x)] for an [int64]. *)
Definition ScanInt (s : string) : option Z :=
  s ← SkipSpace s;
  match s with
  | String "-" s' => n ← scanNumber 10 s'; if (n <=? 2 ^ 63)%N then Some (- Z.of_N n)%Z else None
  | String "+" s' => n ← scanNumber 10 s'; if (n <? 2 ^ 63)%N then Some (Z.of_N n) else None
  | _ => n ← scanNumber 10 s; if (n <? 2 ^ 63)%N then Some (Z.of_N n) else None
  end.

(** [fmt.Sscanf(s, "%02x", &b)] for a [byte], of a text of two bytes. *)
Definition ScanHex (s : string) : option N := SkipSpace s ≫= scanNumber 16.

Definition hexDigit (d : N) : ascii :=
  ascii_of_N (if (d <? 10)%N then d + 48 else d + 87).

(** [%02x] of a byte. *)
Definition FormatHex (b : N) : string :=
  String (hexDigit (b / 16 mod 16)) (String (hexDigit (b mod 16)) "").

(** ** Laws *)

Lemma FormatHex_app b t :
  FormatHex b +:+ t = String (hexDigit (b / 16 mod 16)) (String (hexDigit (b mod 16)) t).
Proof. done. Qed.

Lemma Cut_app sep s t : has_byte sep s = false → Cut sep (s +:+ String sep t) = Some (s, t).
Proof.
  induction s as [|c s IH]; simpl; intros Hs; [by rewrite decide_True|].
  apply orb_false_iff in Hs as [Hc Hs]. rewrite decide_False; [|by apply bool_decide_eq_false in Hc].
  by rewrite IH.
Qed.

Lemma pretty_char_digit x : (x < 10)%N → digitVal 10 (pretty_N_char x) = Some x.
Proof.
  intros Hx. destruct x as [|p]; [done|].
  do 4 (destruct p as [p|p|]; try done; try lia).
Qed.

Lemma hexDigit_digit x : (x < 16)%N → digitVal 16 (hexDigit x) = Some x.
Proof.
  intros Hx. assert (x ∈ N.of_nat <$> seq 0 16) as Hin.
  { apply list_elem_of_fmap. exists (N.to_nat x). split; [lia|]. apply elem_of_seq. lia. }
  clear Hx. revert x Hin. apply Forall_forall. cbn [fmap list_fmap seq].
  repeat constructor.
Qed.

(** Printing in decimal and reading the digits on. *)
Lemma readDigits_pretty x s : readDigits 10 0 (pretty_N_go x s) = readDigits 10 x s.
Proof.
  revert s. induction (N.lt_wf_0 x) as [x _ IH]; intros s.
  destruct (decide (x = 0%N)) as [->|Hx]; [by rewrite pretty_N_go_0|].
  rewrite pretty_N_go_step by lia. rewrite IH by (apply N.div_lt; lia). cbn [readDigits].
  rewrite pretty_char_digit by (apply N.mod_lt; lia). f_equal.
  rewrite (N.div_mod x 10) at 3 by lia. lia.
Qed.

(** What is printed starts with a digit, and is digits. *)
Lemma pretty_go_head x s : (0 < x)%N →
  ∃ c t, pretty_N_go x s = String c t ∧ digitVal 10 c ≠ None ∧ is_space c = false.
Proof.
  revert s. induction (N.lt_wf_0 x) as [x _ IH]; intros s Hx.
  rewrite pretty_N_go_step by done. destruct (decide (x / 10 = 0)%N) as [H0|H0].
  - rewrite H0, pretty_N_go_0. eexists _, _. split; [done|].
    assert (x mod 10 < 10)%N as Hm by (apply N.mod_lt; lia).
    split; [by rewrite pretty_char_digit|]. clear -Hm.
    destruct (x mod 10)%N as [|p]; [done|].
    do 4 (destruct p as [p|p|]; try done; try lia).
  - apply IH; [apply N.div_lt; lia|by apply N.neq_0_lt_0].
Qed.

Lemma has_byte_pretty_go b x s :
  digitVal 10 b = None → has_byte b s = false → has_byte b (pretty_N_go x s) = false.
Proof.
  intros Hb. revert s. induction (N.lt_wf_0 x) as [x _ IH]; intros s Hs.
  destruct (decide (x = 0%N)) as [->|Hx]; [by rewrite pretty_N_go_0|].
  rewrite pretty_N_go_step by lia. apply IH; [apply N.div_lt; lia|]. simpl. rewrite Hs, orb_false_r.
  apply bool_decide_eq_false. intros E.
  assert (x mod 10 < 10)%N as Hm by (apply N.mod_lt; lia). apply pretty_char_digit in Hm.
  congruence.
Qed.

(** A non-negative [int64] reads back. *)
Lemma ScanInt_FormatInt n : (0 ≤ n < 2 ^ 63)%Z → ScanInt (FormatInt n) = Some n.
Proof.
  intros Hn. unfold FormatInt. destruct n as [|p|p]; [done| |lia].
  change (pretty (Z.pos p)) with (pretty (N.pos p)). unfold pretty, pretty_N.
  rewrite decide_False by done. pose proof (readDigits_pretty (N.pos p) "") as Hr.
  destruct (pretty_go_head (N.pos p) "") as (c & t & Heq & Hd & Hs); [lia|]. rewrite Heq in *.
  unfold ScanInt. cbn [SkipSpace]. rewrite decide_False; [|intros ->; done]. rewrite Hs. cbn [mbind option_bind].
  assert (scanNumber 10 (String c t) = Some (N.pos p)) as Hsc.
  { unfold scanNumber. destruct (digitVal 10 c); [|done]. by rewrite Hr. }
  assert (c ≠ "-"%char ∧ c ≠ "+"%char) as [Hm Hp] by (split; intros ->; done).
  assert ((N.pos p <? 2 ^ 63)%N = true) as Hb by (apply N.ltb_lt; lia).
  destruct c as [[] [] [] [] [] [] [] []]; try done; cbn [mbind option_bind];
    rewrite Hsc; cbn [mbind option_bind]; rewrite Hb; done.
Qed.

Lemma has_byte_FormatInt b n : digitVal 10 b = None → b ≠ "-"%char → has_byte b (FormatInt n) = false.
Proof.
  intros Hb Hd.
  assert (∀ p, has_byte b (pretty (N.pos p)) = false) as Hp.
  { intros p. unfold pretty, pretty_N. rewrite decide_False by done. by apply has_byte_pretty_go. }
  unfold FormatInt. destruct n as [|p|p].
  - change (has_byte b "0" = false). cbn [has_byte]. rewrite bool_decide_false; [done|].
    intros <-. done.
  - apply Hp.
  - change (bool_decide ("-"%char = b) || has_byte b (pretty (N.pos p)) = false).
    rewrite Hp, bool_decide_false; [done|congruence].
Qed.

Lemma ScanHex_FormatHex b : (b < 256)%N → ScanHex (FormatHex b) = Some b.
Proof.
  intros Hb.
  assert (forallb (λ k, bool_decide (ScanHex (FormatHex (N.of_nat k)) = Some (N.of_nat k))) (seq 0 256) = true)
    as Hall by (vm_compute; reflexivity).
  rewrite forallb_forall in Hall. specialize (Hall (N.to_nat b)).
  rewrite N2Nat.id in Hall. eapply bool_decide_eq_true_1, Hall, in_seq. lia.
Qed.
