(* ===== verification/Pieces.v ===== *)
(** * Pieces: a blob divided for exchange between peers

    Models internal/storagefabric/pieces: the geometry every peer derives from the size
    of a blob (geometry.go), and the bitset of the pieces one holds, with the text it is
    sent as (availability.go).  Sizes, lengths and indices are [Z] with the wrap-around
    of 64 bits where a sum can leave the word; a byte of the bitset is an [N]. *)

From S2P Require Import Prelude GoText GoPath GoScan.

(** ** Geometry *)

Record Geometry := mkGeometry { Size : Z; PieceLength : Z }.

Inductive error :=
  | ErrEmptyBlob | ErrOutOfRange
  | ErrNoSize | ErrSizeNotNumber | ErrOtherGeometry | ErrNotHex.

Definition MinPieceLength : Z := 256 * 2 ^ 10.
Definition MaxPieceLength : Z := 16 * 2 ^ 20.
Definition targetPieceCount : Z := 1024.

(** The loop of [For]; six doublings lead from the least length to the greatest. *)
Fixpoint scaleLength (fuel : nat) (size length : Z) : Z :=
  match fuel with
  | O => length
  | S fuel =>
      if (length <? MaxPieceLength)%Z && (targetPieceCount <? Z.quot size length)%Z
      then scaleLength fuel size (wrap_i64 (Z.shiftl length 1))
      else length
  end.

Definition For (size : Z) : error + Geometry :=
  if (size <=? 0)%Z then inl ErrEmptyBlob
  else inr (mkGeometry size (scaleLength 6 size MinPieceLength)).

Definition Geometry_Count (g : Geometry) : Z :=
  if (PieceLength g <=? 0)%Z || (Size g <=? 0)%Z then 0
  else Z.quot (wrap_i64 (wrap_i64 (Size g + PieceLength g) - 1)) (PieceLength g).

Definition Range (g : Geometry) (index : Z) : error + (Z * Z) :=
  if (index <? 0)%Z || (Geometry_Count g <=? index)%Z then inl ErrOutOfRange
  else
    let offset := wrap_i64 (index * PieceLength g) in
    let remaining := wrap_i64 (Size g - offset) in
    inr (offset, if (remaining <? PieceLength g)%Z then remaining else PieceLength g).

Definition IndexAt (g : Geometry) (offset : Z) : error + Z :=
  if (offset <? 0)%Z || (Size g <=? offset)%Z || (PieceLength g <=? 0)%Z then inl ErrOutOfRange
  else inr (Z.quot offset (PieceLength g)).

(** ** Availability *)

Record Availability := mkAvailability { bits : list N; count : Z; total : Z }.

Definition zeroAvailability : Availability := mkAvailability [] 0 0.

Definition NewAvailability (n : Z) : Availability :=
  if (n <=? 0)%Z then zeroAvailability
  else mkAvailability (replicate (Z.to_nat (Z.quot (n + 7) 8)) 0%N) 0 n.

(** [a.bits[i/8]] and [1 << (i%8)] *)
Definition byteAt (b : list N) (i : Z) : N := nth (Z.to_nat (Z.quot i 8)) b 0%N.
Definition bitOf (i : Z) : N := N.shiftl 1 (Z.to_N (Z.rem i 8)).
Definition setByte (b : list N) (i : Z) (v : N) : list N := <[Z.to_nat (Z.quot i 8) := v]> b.
Definition bitSet (b : list N) (i : Z) : bool := negb (N.land (byteAt b i) (bitOf i) =? 0)%N.

Definition Has (a : Availability) (index : Z) : bool :=
  if (index <? 0)%Z || (total a <=? index)%Z then false else bitSet (bits a) index.

Definition Add (a : Availability) (index : Z) : Availability :=
  if (index <? 0)%Z || (total a <=? index)%Z || Has a index then a
  else mkAvailability (setByte (bits a) index (N.lor (byteAt (bits a) index) (bitOf index)))
         (count a + 1) (total a).

Definition Remove (a : Availability) (i : Z) : Availability :=
  if (i <? 0)%Z || (total a <=? i)%Z || negb (Has a i) then a
  else mkAvailability (setByte (bits a) i (N.ldiff (byteAt (bits a) i) (bitOf i)))
         (count a - 1) (total a).

Definition Missing (a : Availability) : list Z :=
  filter (λ i, Has a i = false) (seqZ 0 (total a)).

Definition Intersect (a want : Availability) : list Z :=
  filter (λ i, Has a i && negb (Has want i) = true) (seqZ 0 (total a)).

Definition Complete (g : Geometry) (have : Availability) : bool :=
  (count have =? Geometry_Count g)%Z && (0 <? Geometry_Count g)%Z.

(** ** The text of an availability *)

Fixpoint hexOf (bs : list N) : string :=
  match bs with [] => "" | b :: bs => (FormatHex b +:+ hexOf bs)%string end.

Definition Encode (g : Geometry) (a : Availability) : string :=
  if (Size g <=? 0)%Z || (total a =? 0)%Z then ""
  else (FormatInt (Size g) +:+ String ":" (hexOf (bits a)))%string.

(** [hex[i*2:i*2+2]] for each of so many bytes. *)
Fixpoint readHex (k : nat) (hex : string) : option (list N) :=
  match k, hex with
  | O, _ => Some []
  | S k, String a (String b hex) =>
      v ← ScanHex (String a (String b "")); vs ← readHex k hex; Some (v :: vs)
  | S _, _ => None
  end.

Definition countSet (b : list N) (n : Z) : Z := Z.of_nat (length (filter (λ i, bitSet b i = true) (seqZ 0 n))).

Definition Decode (s : string) : error + (Geometry * Availability) :=
  match Cut ":" s with
  | None => inl ErrNoSize
  | Some (sizeText, hex) =>
      match ScanInt sizeText with
      | None => inl ErrSizeNotNumber
      | Some size =>
          match For size with
          | inl e => inl e
          | inr g =>
              let a := NewAvailability (Geometry_Count g) in
              if negb (String.length hex =? length (bits a) * 2)%nat then inl ErrOtherGeometry
              else match readHex (length (bits a)) hex with
                   | None => inl ErrNotHex
                   | Some bs =>
                       inr (g, mkAvailability bs (countSet bs (Geometry_Count g)) (total a))
                   end
          end
      end
  end.
