(* ===== verification/PieceSets.v ===== *)
(** * PieceSets: the theorems of the exchange pieces

    The pieces of a geometry tile its blob; an availability is a set of piece indices
    ([held]) with its cardinal, whatever operations led to it, and its text reads back. *)

From S2P Require Import Prelude GoText GoPath GoScan Pieces.

(** ** The abstract set *)

(** The pieces an availability holds. *)
Definition held (a : Availability) : gset Z :=
  list_to_set (filter (λ i, Has a i = true) (seqZ 0 (total a))).

(** What every operation keeps. *)
Record wf (a : Availability) : Prop := {
  wf_total : (0 ≤ total a)%Z;
  wf_width : length (bits a) = Z.to_nat (Z.quot (total a + 7) 8);
  wf_bytes : Forall (λ b, b < 256)%N (bits a);
  wf_count : count a = Z.of_nat (size (held a)) }.

(** The indices a geometry has. *)
Definition indices (n : Z) : gset Z := list_to_set (seqZ 0 n).

(** ** Bits *)

Lemma bitSet_testbit b i : bitSet b i = N.testbit (byteAt b i) (Z.to_N (Z.rem i 8)).
Proof.
  unfold bitSet, bitOf. rewrite N.shiftl_1_l. set (k := Z.to_N _). set (v := byteAt b i).
  destruct (N.testbit v k) eqn:Hk.
  - apply negb_true_iff, N.eqb_neq. intros H0. apply (f_equal (λ z, N.testbit z k)) in H0.
    rewrite N.land_spec, Hk, N.pow2_bits_eqb, N.eqb_refl, N.bits_0 in H0. done.
  - apply negb_false_iff, N.eqb_eq, N.bits_inj. intros j.
    rewrite N.land_spec, N.pow2_bits_eqb, N.bits_0. destruct (N.eqb_spec k j) as [<-|]; [by rewrite Hk|].
    apply andb_false_r.
Qed.

(** Two indices are in one byte and at one bit of it only when they are equal. *)
Lemma same_bit i j :
  (0 ≤ i)%Z → (0 ≤ j)%Z → Z.to_nat (Z.quot i 8) = Z.to_nat (Z.quot j 8) →
  (Z.to_N (Z.rem i 8) =? Z.to_N (Z.rem j 8))%N = (i =? j)%Z.
Proof.
  intros Hi Hj Hq. pose proof (Z.quot_rem' i 8). pose proof (Z.quot_rem' j 8).
  pose proof (Z.rem_bound_pos i 8). pose proof (Z.rem_bound_pos j 8).
  pose proof (Z.quot_pos i 8). pose proof (Z.quot_pos j 8).
  destruct (N.eqb_spec (Z.to_N (Z.rem i 8)) (Z.to_N (Z.rem j 8))); destruct (Z.eqb_spec i j);
    subst; try done; lia.
Qed.

(** One bit of a bitset, after a byte is written. *)
Lemma bitSet_setByte b i j v :
  (0 ≤ i)%Z → (0 ≤ j)%Z → (Z.to_nat (Z.quot i 8) < length b)%nat →
  bitSet (setByte b i v) j =
  if decide (Z.to_nat (Z.quot i 8) = Z.to_nat (Z.quot j 8))
  then N.testbit v (Z.to_N (Z.rem j 8)) else bitSet b j.
Proof.
  intros Hi Hj Hlen. rewrite !bitSet_testbit. unfold byteAt, setByte.
  rewrite !nth_lookup. destruct (decide _) as [Heq|Hne].
  - by rewrite <-Heq, list_lookup_insert_eq.
  - by rewrite list_lookup_insert_ne.
Qed.

Lemma bitSet_lor b i j :
  (0 ≤ i)%Z → (0 ≤ j)%Z → (Z.to_nat (Z.quot i 8) < length b)%nat →
  bitSet (setByte b i (N.lor (byteAt b i) (bitOf i))) j = bitSet b j || (i =? j)%Z.
Proof.
  intros Hi Hj Hlen. rewrite bitSet_setByte by done. destruct (decide _) as [Heq|Hne].
  - rewrite N.lor_spec, bitSet_testbit. unfold bitOf, byteAt.
    by rewrite N.shiftl_1_l, N.pow2_bits_eqb, same_bit, Heq.
  - destruct (Z.eqb_spec i j) as [->|]; [done|]. by rewrite orb_false_r.
Qed.

Lemma bitSet_ldiff b i j :
  (0 ≤ i)%Z → (0 ≤ j)%Z → (Z.to_nat (Z.quot i 8) < length b)%nat →
  bitSet (setByte b i (N.ldiff (byteAt b i) (bitOf i))) j = bitSet b j && negb (i =? j)%Z.
Proof.
  intros Hi Hj Hlen. rewrite bitSet_setByte by done. destruct (decide _) as [Heq|Hne].
  - rewrite N.ldiff_spec, bitSet_testbit. unfold bitOf, byteAt.
    by rewrite N.shiftl_1_l, N.pow2_bits_eqb, same_bit, Heq.
  - destruct (Z.eqb_spec i j) as [->|]; [done|]. by rewrite andb_true_r.
Qed.

(** An index in range is in the bitset. *)
Lemma index_width i n : (0 ≤ i < n)%Z → (Z.to_nat (Z.quot i 8) < Z.to_nat (Z.quot (n + 7) 8))%nat.
Proof.
  intros Hi. rewrite !Z.quot_div_nonneg by lia.
  assert (i / 8 < (n + 7) / 8)%Z; [|pose proof (Z.div_pos i 8); lia].
  apply Z.div_lt_upper_bound; [lia|]. pose proof (Z.div_mod (n + 7) 8).
  pose proof (Z.mod_pos_bound (n + 7) 8). lia.
Qed.

Lemma byte_lt_256 v : (∀ k, (8 ≤ k)%N → N.testbit v k = false) → (v < 256)%N.
Proof.
  intros Hv. destruct (decide (v < 256)%N) as [|Hge]; [done|].
  assert (8 ≤ N.log2 v)%N as Hl by (change 8%N with (N.log2 256); apply N.log2_le_mono; lia).
  specialize (Hv _ Hl). rewrite N.bit_log2 in Hv by lia. done.
Qed.

Lemma byte_bits v k : (v < 256)%N → (8 ≤ k)%N → N.testbit v k = false.
Proof.
  intros Hv Hk. destruct (decide (v = 0%N)) as [->|]; [apply N.bits_0|].
  apply N.bits_above_log2. apply N.log2_lt_pow2; [lia|].
  apply N.lt_le_trans with (2 ^ 8)%N; [done|]. by apply N.pow_le_mono_r.
Qed.

Lemma bitOf_high i k : (0 ≤ i)%Z → (8 ≤ k)%N → N.testbit (bitOf i) k = false.
Proof.
  intros Hi Hk. unfold bitOf. rewrite N.shiftl_1_l, N.pow2_bits_eqb. apply N.eqb_neq.
  pose proof (Z.rem_bound_pos i 8). lia.
Qed.

Lemma byteAt_lt b i : Forall (λ b, b < 256)%N b → (byteAt b i < 256)%N.
Proof.
  intros Hb. unfold byteAt. rewrite nth_lookup.
  destruct (b !! _) eqn:E; [|done]. by eapply Forall_lookup_1 in Hb.
Qed.

(** ** The set *)

Lemma Has_range a i : Has a i = true → (0 ≤ i < total a)%Z.
Proof.
  unfold Has. destruct (Z.ltb_spec i 0); [done|]. destruct (Z.leb_spec (total a) i); [done|]. lia.
Qed.

Lemma Has_bitSet a i : (0 ≤ i < total a)%Z → Has a i = bitSet (bits a) i.
Proof. intros. unfold Has. rewrite (proj2 (Z.ltb_ge i 0)), (proj2 (Z.leb_gt _ _)) by lia. done. Qed.

Lemma elem_of_held a i : i ∈ held a ↔ Has a i = true.
Proof.
  unfold held. rewrite elem_of_list_to_set, list_elem_of_filter, elem_of_seqZ.
  split; [tauto|]. intros Hh. split; [done|]. apply Has_range in Hh. lia.
Qed.

Lemma Has_held a i : Has a i = bool_decide (i ∈ held a).
Proof. apply eq_true_iff_eq. by rewrite bool_decide_eq_true, elem_of_held. Qed.

Lemma held_bits b c c' n : held (mkAvailability b c n) = held (mkAvailability b c' n).
Proof. done. Qed.

Lemma size_held a : size (held a) = length (filter (λ i, Has a i = true) (seqZ 0 (total a))).
Proof. unfold held. apply size_list_to_set, NoDup_filter, NoDup_seqZ. Qed.

Lemma countSet_held b c n : (0 ≤ n)%Z → countSet b n = Z.of_nat (size (held (mkAvailability b c n))).
Proof.
  intros Hn. unfold countSet. f_equal.
  rewrite <-(size_list_to_set (C := gset Z)) by apply NoDup_filter, NoDup_seqZ. f_equal.
  apply leibniz_equiv. intros i. rewrite elem_of_held, elem_of_list_to_set, list_elem_of_filter, elem_of_seqZ.
  split.
  - intros [Hb Hi]. rewrite Has_bitSet; [done|]. cbn [total]. lia.
  - intros Hh. pose proof (Has_range _ _ Hh) as Hr. rewrite Has_bitSet in Hh by done.
    cbn [total] in Hr. split; [done|lia].
Qed.

Lemma elem_of_indices i n : i ∈ indices n ↔ (0 ≤ i < n)%Z.
Proof. unfold indices. rewrite elem_of_list_to_set, elem_of_seqZ. lia. Qed.

Lemma size_indices n : (0 ≤ n)%Z → Z.of_nat (size (indices n)) = n.
Proof. intros. unfold indices. rewrite size_list_to_set, length_seqZ by apply NoDup_seqZ. lia. Qed.

Lemma held_indices a : held a ⊆ indices (total a).
Proof. intros i Hi%elem_of_held%Has_range. by apply elem_of_indices. Qed.

(** A bitset rewritten at one index, in terms of its set. *)
Lemma wf_write a i v d :
  wf a → (0 ≤ i < total a)%Z → (v < 256)%N →
  let a' := mkAvailability (setByte (bits a) i v) (count a + d) (total a) in
  Z.of_nat (size (held a')) = (Z.of_nat (size (held a)) + d)%Z → wf a'.
Proof.
  intros [Ht Hw Hb Hc] Hi Hv. cbv zeta. intros Hd. constructor; cbn [bits count total].
  - done.
  - unfold setByte. by rewrite length_insert.
  - unfold setByte. apply Forall_insert; [done|done].
  - rewrite Hd. lia.
Qed.

Lemma held_write a i v b j :
  wf a → (0 ≤ i < total a)%Z → (∀ j, (0 ≤ j < total a)%Z → bitSet (setByte (bits a) i v) j = b j) →
  j ∈ held (mkAvailability (setByte (bits a) i v) 0 (total a)) ↔ (0 ≤ j < total a)%Z ∧ b j = true.
Proof.
  intros Hwf Hi Hb. rewrite elem_of_held. split.
  - intros Hh. pose proof (Has_range _ _ Hh) as Hr. cbn [total] in Hr. split; [done|].
    rewrite <-Hb by done. by rewrite Has_bitSet in Hh.
  - intros [Hr Hj]. rewrite Has_bitSet by done. cbn [bits]. by rewrite Hb.
Qed.

Lemma wf_index a i : wf a → (0 ≤ i < total a)%Z → (Z.to_nat (Z.quot i 8) < length (bits a))%nat.
Proof. intros Hwf Hi. rewrite (wf_width _ Hwf). by apply index_width. Qed.

Lemma out_of_range i n : ((i <? 0)%Z || (n <=? i)%Z) = bool_decide (¬ (0 ≤ i < n))%Z.
Proof.
  apply eq_true_iff_eq. rewrite bool_decide_eq_true, orb_true_iff, Z.ltb_lt, Z.leb_le. lia.
Qed.

Lemma Add_spec a i :
  wf a → wf (Add a i) ∧ held (Add a i) = held a ∪ ({[i]} ∩ indices (total a)) ∧ total (Add a i) = total a.
Proof.
  intros Hwf. unfold Add. rewrite out_of_range. case_bool_decide as Hr; simpl.
  { split_and!; [done| |done]. apply leibniz_equiv. intros j.
    rewrite elem_of_union, elem_of_intersection, elem_of_singleton, elem_of_indices. naive_solver. }
  destruct (Has a i) eqn:Hi.
  { split_and!; [done| |done]. apply elem_of_held in Hi. set_solver. }
  pose proof (wf_index a i Hwf Hr) as Hlen.
  assert (held (mkAvailability (setByte (bits a) i (N.lor (byteAt (bits a) i) (bitOf i)))
    (count a + 1) (total a)) = held a ∪ ({[i]} ∩ indices (total a))) as Hheld.
  { apply leibniz_equiv. intros j. rewrite (held_bits _ _ 0%Z).
    rewrite (held_write a i _ (λ j, bitSet (bits a) j || (i =? j)%Z) j Hwf Hr)
      by (intros; apply bitSet_lor; lia).
    rewrite orb_true_iff, Z.eqb_eq, elem_of_union, elem_of_held, elem_of_intersection,
      elem_of_singleton, elem_of_indices.
    split; [|intros [Hh|[-> ?]]; [|by auto]].
    - intros [Hj [Hb|<-]]; [left; by rewrite Has_bitSet|by right].
    - pose proof (Has_range _ _ Hh). rewrite Has_bitSet in Hh by done. auto. }
  split_and!; [|exact Hheld|done]. apply wf_write; [done|done| |].
  - apply byte_lt_256. intros k Hk. rewrite N.lor_spec, bitOf_high by (done || lia).
    rewrite byte_bits; [done|apply byteAt_lt, (wf_bytes _ Hwf)|done].
  - rewrite Hheld. replace ({[i]} ∩ indices (total a)) with ({[i]} : gset Z).
    + rewrite size_union, size_singleton; [lia|].
      intros j Hj ->%elem_of_singleton. apply elem_of_held in Hj. congruence.
    + apply leibniz_equiv. intros j. rewrite elem_of_intersection, elem_of_singleton, elem_of_indices.
      naive_solver.
Qed.

Lemma Remove_spec a i :
  wf a → wf (Remove a i) ∧ held (Remove a i) = held a ∖ {[i]} ∧ total (Remove a i) = total a.
Proof.
  intros Hwf. unfold Remove. rewrite out_of_range.
  assert (Has a i = false → held a = held a ∖ {[i]}) as Hout.
  { intros Hi. apply leibniz_equiv. intros j. rewrite elem_of_difference, elem_of_singleton, elem_of_held.
    split; [|tauto]. intros Hj. split; [done|]. congruence. }
  case_bool_decide as Hr; simpl.
  { split_and!; [done| |done]. apply Hout. destruct (Has a i) eqn:Hi; [|done].
    by destruct Hr; apply Has_range. }
  destruct (Has a i) eqn:Hi; simpl; [|by auto].
  pose proof (wf_index a i Hwf Hr) as Hlen.
  assert (held (mkAvailability (setByte (bits a) i (N.ldiff (byteAt (bits a) i) (bitOf i)))
    (count a - 1) (total a)) = held a ∖ {[i]}) as Hheld.
  { apply leibniz_equiv. intros j. rewrite (held_bits _ _ 0%Z).
    rewrite (held_write a i _ (λ j, bitSet (bits a) j && negb (i =? j)%Z) j Hwf Hr)
      by (intros; apply bitSet_ldiff; lia).
    rewrite andb_true_iff, negb_true_iff, Z.eqb_neq, elem_of_difference, elem_of_singleton, elem_of_held.
    split.
    - intros (Hj & Hb & Hne). rewrite Has_bitSet by done. auto.
    - intros [Hh Hne]. pose proof (Has_range _ _ Hh). rewrite Has_bitSet in Hh by done. auto. }
  split_and!; [|exact Hheld|done]. apply wf_write; [done|done| |].
  - apply byte_lt_256. intros k Hk. rewrite N.ldiff_spec.
    rewrite byte_bits; [done|apply byteAt_lt, (wf_bytes _ Hwf)|done].
  - rewrite (held_bits _ _ (count a - 1)%Z), Hheld. apply elem_of_held in Hi.
    rewrite size_difference by (by apply singleton_subseteq_l). rewrite size_singleton.
    assert (size (held a) ≠ 0)%nat; [|lia]. apply size_non_empty_iff. set_solver.
Qed.

Lemma nth_replicate_0 n i : nth i (replicate n 0%N) 0%N = 0%N.
Proof.
  rewrite nth_lookup. destruct (_ !! i) eqn:E; [|done]. apply lookup_replicate in E as [-> _]. done.
Qed.

Lemma NewAvailability_spec n :
  wf (NewAvailability n) ∧ held (NewAvailability n) = ∅ ∧ total (NewAvailability n) = Z.max 0 n.
Proof.
  assert (∀ k n, held (mkAvailability (replicate k 0%N) 0 n) = ∅) as Hempty.
  { intros k m. apply leibniz_equiv. intros j. rewrite elem_of_held. split; [|set_solver].
    intros Hh. pose proof (Has_range _ _ Hh). rewrite Has_bitSet in Hh by done.
    cbn [bits] in Hh. rewrite bitSet_testbit in Hh. unfold byteAt in Hh.
    by rewrite nth_replicate_0, N.bits_0 in Hh. }
  unfold NewAvailability. destruct (Z.leb_spec n 0).
  - pose proof (Hempty 0%nat 0%Z) as He. simpl in He. change zeroAvailability with (mkAvailability [] 0 0).
    split_and!; [|done|simpl; lia]. by constructor; rewrite ?He.
  - split_and!; [|apply Hempty|cbn [total]; lia]. constructor; cbn [bits count total].
    + lia.
    + by rewrite length_replicate.
    + by apply Forall_replicate.
    + by rewrite Hempty.
Qed.

Lemma sorted_seqZ n : StronglySorted Z.lt (seqZ 0 n).
Proof.
  assert (∀ k m, StronglySorted Z.lt (seqZ m (Z.of_nat k))) as Hs.
  { induction k as [|k IH]; intros m; [constructor|].
    rewrite seqZ_cons by lia. replace (Z.pred (Z.of_nat (S k))) with (Z.of_nat k) by lia.
    constructor; [apply IH|]. apply Forall_forall. intros x Hx%elem_of_seqZ. lia. }
  destruct (decide (0 ≤ n)%Z); [|by rewrite seqZ_nil by lia; constructor].
  rewrite <-(Z2Nat.id n) by done. apply Hs.
Qed.

(** An availability is a set of pieces with its cardinal, through every operation: the
    bitset with its wrapped bytes and its running count implement adding and removing
    one index, out of range or repeated; the listings are the ascending lists of what is
    missing and of what a source can give; and a blob is complete exactly when every
    piece of its geometry is held. *)
Theorem availability_is_set :
  (∀ n, wf (NewAvailability n) ∧ held (NewAvailability n) = ∅ ∧ total (NewAvailability n) = Z.max 0 n) ∧
  (∀ a i, wf a →
     wf (Add a i) ∧ held (Add a i) = held a ∪ ({[i]} ∩ indices (total a)) ∧ total (Add a i) = total a) ∧
  (∀ a i, wf a → wf (Remove a i) ∧ held (Remove a i) = held a ∖ {[i]} ∧ total (Remove a i) = total a) ∧
  (∀ a i, Has a i = bool_decide (i ∈ held a)) ∧
  (∀ a, list_to_set (Missing a) = indices (total a) ∖ held a ∧ StronglySorted Z.lt (Missing a)) ∧
  (∀ a want, list_to_set (Intersect a want) = held a ∖ held want ∧
     StronglySorted Z.lt (Intersect a want)) ∧
  (∀ g a, wf a → total a = Geometry_Count g →
     Complete g a = true ↔ (0 < total a)%Z ∧ held a = indices (total a)).
Proof.
  split_and!;
    [exact NewAvailability_spec|exact Add_spec|exact Remove_spec|exact Has_held|..].
  - intros a. unfold Missing. split; [|apply StronglySorted_filter, sorted_seqZ].
    apply leibniz_equiv. intros j. rewrite elem_of_list_to_set, list_elem_of_filter, elem_of_difference,
      elem_of_held, elem_of_indices, elem_of_seqZ, not_true_iff_false. intuition lia.
  - intros a w. unfold Intersect. split; [|apply StronglySorted_filter, sorted_seqZ].
    apply leibniz_equiv. intros j. rewrite elem_of_list_to_set, list_elem_of_filter, elem_of_difference,
      !elem_of_held, elem_of_seqZ, andb_true_iff, negb_true_iff, not_true_iff_false.
    split; [tauto|]. intros [Hh ?]. pose proof (Has_range _ _ Hh). intuition lia.
  - intros g a Hwf Hg. unfold Complete. rewrite <-Hg, andb_true_iff, Z.eqb_eq, Z.ltb_lt, (wf_count _ Hwf).
    pose proof (held_indices a) as Hsub. split.
    + intros [Hsz Ht]. split; [done|]. apply leibniz_equiv, set_subseteq_size_equiv; [done|].
      pose proof (size_indices (total a)). lia.
    + intros [Ht ->]. split; [|done]. apply size_indices. lia.
Qed.

(** ** The geometry *)

Lemma scaleLength_spec size f k :
  (0 ≤ k)%Z → (k + Z.of_nat f = 6)%Z →
  ∃ j, (k ≤ j ≤ 6)%Z ∧ scaleLength f size (2 ^ (18 + k)) = (2 ^ (18 + j))%Z ∧
    ((j < 6)%Z → (Z.quot size (2 ^ (18 + j)) ≤ targetPieceCount)%Z) ∧
    ((k < j)%Z → (targetPieceCount < Z.quot size (2 ^ (18 + (j - 1))))%Z).
Proof.
  revert k. induction f as [|f IH]; intros k Hk Hf.
  - exists k. assert (k = 6)%Z as -> by lia. split_and!; [lia|lia|done|lia|lia].
  - cbn [scaleLength]. assert (2 ^ (18 + k) < MaxPieceLength)%Z as Hlt.
    { change MaxPieceLength with (2 ^ 24)%Z. apply Z.pow_lt_mono_r; lia. }
    rewrite (proj2 (Z.ltb_lt _ _) Hlt), andb_true_l.
    destruct (Z.ltb_spec targetPieceCount (Z.quot size (2 ^ (18 + k)))) as [Hc|Hc].
    + assert (wrap_i64 (Z.shiftl (2 ^ (18 + k)) 1) = 2 ^ (18 + (k + 1)))%Z as ->.
      { replace (18 + (k + 1))%Z with (Z.succ (18 + k)) by lia. rewrite Z.pow_succ_r by lia.
        rewrite Z.shiftl_mul_pow2 by lia. rewrite wrap_i64_small; [lia|].
        change MaxPieceLength with (2 ^ 24)%Z in Hlt. lia. }
      destruct (IH (k + 1)%Z) as (j & Hj & -> & Hhi & Hlo); [lia|lia|].
      exists j. split_and!; [lia|lia|done|done|]. intros _.
      destruct (decide (j = k + 1)%Z) as [->|]; [|apply Hlo; lia].
      by replace (k + 1 - 1)%Z with k by lia.
    + exists k. split_and!; [lia|lia|done|done|lia].
Qed.

(** The geometry of a size: the least power of two, from [MinPieceLength] to
    [MaxPieceLength], that keeps the count near its target. *)
Lemma For_spec size :
  (size ≤ 0 ∧ For size = inl ErrEmptyBlob)%Z ∨
  (0 < size)%Z ∧ ∃ j, (0 ≤ j ≤ 6)%Z ∧ For size = inr (mkGeometry size (2 ^ (18 + j))) ∧
    ((j < 6)%Z → (Z.quot size (2 ^ (18 + j)) ≤ targetPieceCount)%Z) ∧
    ((0 < j)%Z → (targetPieceCount < Z.quot size (2 ^ (18 + (j - 1))))%Z).
Proof.
  unfold For. destruct (Z.leb_spec size 0) as [|Hs]; [by left|right]. split; [done|].
  destruct (scaleLength_spec size 6 0) as (j & Hj & Heq & Hrest); [done|done|].
  exists j. split; [done|]. split; [|done]. by rewrite <-Heq.
Qed.

Lemma For_length size g :
  For size = inr g → (0 < size)%Z ∧ Size g = size ∧ (0 < PieceLength g ≤ MaxPieceLength)%Z.
Proof.
  destruct (For_spec size) as [[_ ->]|(Hs & j & Hj & -> & _)]; [done|]. intros [= <-].
  cbn [Size PieceLength]. split_and!; [done|done|lia|].
  change MaxPieceLength with (2 ^ 24)%Z. apply Z.pow_le_mono_r; lia.
Qed.

(** The count is the exact one while the rounding up stays in the word. *)
Lemma Count_exact g :
  (0 < Size g)%Z → (0 < PieceLength g ≤ MaxPieceLength)%Z → (Size g + PieceLength g ≤ 2 ^ 63)%Z →
  Geometry_Count g = ((Size g + PieceLength g - 1) / PieceLength g)%Z.
Proof.
  intros Hs Hp Hfit. unfold Geometry_Count. rewrite (proj2 (Z.leb_gt _ _)), (proj2 (Z.leb_gt _ 0)) by lia.
  cbn [orb].
  rewrite <-(Z.add_opp_r (wrap_i64 _)), wrap_i64_add, wrap_i64_small by lia. rewrite Z.quot_div_nonneg by lia. f_equal.
Qed.

Lemma Count_overflow g :
  (Size g < 2 ^ 63)%Z → (0 < PieceLength g ≤ MaxPieceLength)%Z → (2 ^ 63 < Size g + PieceLength g)%Z →
  (Geometry_Count g ≤ 0)%Z.
Proof.
  intros Hs Hp Hover. unfold Geometry_Count. destruct (_ || _); [done|].
  rewrite <-(Z.add_opp_r (wrap_i64 _)), wrap_i64_add. set (x := (Size g + PieceLength g + - (1))%Z).
  assert (wrap_i64 x = x - 2 ^ 64)%Z as Hw.
  { unfold wrap_i64. replace (x + 2 ^ 63)%Z with (x - 2 ^ 63 + 1 * 2 ^ 64)%Z by lia.
    rewrite Z.mod_add, Z.mod_small by (unfold MaxPieceLength in *; subst x; lia). lia. }
  rewrite Hw.
  assert (x - 2 ^ 64 < 0)%Z as Hneg by (unfold MaxPieceLength in *; subst x; lia).
  replace (x - 2 ^ 64)%Z with (- (2 ^ 64 - x))%Z by lia.
  rewrite Z.quot_opp_l by lia. pose proof (Z.quot_pos (2 ^ 64 - x) (PieceLength g)). lia.
Qed.

(** A size whose pieces can be counted: rounding up stays in the word. *)
Definition sized (size : Z) (g : Geometry) : Prop := For size = inr g ∧ (size + PieceLength g ≤ 2 ^ 63)%Z.

Lemma sized_facts size g :
  sized size g →
  (0 < size)%Z ∧ Size g = size ∧ (0 < PieceLength g ≤ MaxPieceLength)%Z ∧ (0 < Geometry_Count g)%Z ∧
  ((Geometry_Count g - 1) * PieceLength g < size ≤ Geometry_Count g * PieceLength g)%Z.
Proof.
  intros [Hfor Hfit]. destruct (For_length _ _ Hfor) as (Hpos & Hs & Hp).
  pose proof (Count_exact g) as Hn. rewrite Hs in Hn. specialize (Hn Hpos Hp Hfit).
  set (L := PieceLength g) in *. pose proof (Z.div_mod (size + L - 1) L) as Hdm.
  pose proof (Z.mod_pos_bound (size + L - 1) L). rewrite <-Hn in Hdm. specialize (Hdm ltac:(lia)).
  split_and!; try done; nia.
Qed.

Lemma Range_sized size g i :
  sized size g → (0 ≤ i < Geometry_Count g)%Z →
  ∃ len, Range g i = inr (i * PieceLength g, len)%Z ∧
    len = (if (size - i * PieceLength g <? PieceLength g) then size - i * PieceLength g else PieceLength g)%Z ∧
    (0 < size - i * PieceLength g)%Z.
Proof.
  intros Hsz Hi. destruct (sized_facts _ _ Hsz) as (Hpos & Hs & Hp & Hn & Hb). destruct Hsz as [_ Hfit].
  assert (i * PieceLength g < size)%Z by nia. eexists. split_and!; [|done|lia].
  unfold Range. rewrite out_of_range, bool_decide_false by tauto.
  rewrite Hs, (wrap_i64_small (i * PieceLength g)) by nia. by rewrite wrap_i64_small by nia.
Qed.

(** C35. The pieces of a blob tile it: piece [i] starts at [i] times the piece length, only
    the last is shorter and it ends where the blob ends, every byte is in the piece
    [IndexAt] names, and every other index or offset is refused.  This needs the size
    plus a piece to stay within 2^63; above that the count wraps and the blob has no
    pieces at all. *)
Theorem geometry_tiles (size : Z) (g : Geometry) :
  (size < 2 ^ 63)%Z → For size = inr g →
  let n := Geometry_Count g in
  if decide (size + PieceLength g ≤ 2 ^ 63)%Z then
    (0 < n)%Z ∧
    (∀ i, (0 ≤ i < n)%Z → ∃ len, Range g i = inr (i * PieceLength g, len)%Z ∧
       (0 < len ≤ PieceLength g)%Z ∧ ((i < n - 1)%Z → len = PieceLength g) ∧
       (i = n - 1 → i * PieceLength g + len = size)%Z) ∧
    (∀ i, ¬ (0 ≤ i < n)%Z → Range g i = inl ErrOutOfRange) ∧
    (∀ o, (0 ≤ o < size)%Z → ∃ i off len,
       IndexAt g o = inr i ∧ Range g i = inr (off, len) ∧ (off ≤ o < off + len)%Z) ∧
    (∀ o, ¬ (0 ≤ o < size)%Z → IndexAt g o = inl ErrOutOfRange)
  else (n ≤ 0)%Z ∧ ∀ i, Range g i = inl ErrOutOfRange.
Proof.
  intros Hsz Hfor. destruct (For_length _ _ Hfor) as (Hpos & Hs & Hp). cbv zeta.
  assert (∀ i, ¬ (0 ≤ i < Geometry_Count g)%Z → Range g i = inl ErrOutOfRange) as Hout.
  { intros i Hi. unfold Range. rewrite out_of_range, bool_decide_true by done. done. }
  destruct (decide _) as [Hfit|Hfit].
  2:{ pose proof (Count_overflow g) as Hn. rewrite Hs in Hn. specialize (Hn Hsz Hp ltac:(lia)).
      split; [done|]. intros i. apply Hout. lia. }
  assert (sized size g) as Hsized by done. destruct (sized_facts _ _ Hsized) as (_ & _ & _ & Hn & Hb).
  pose proof (λ i, Range_sized size g i Hsized) as Hin. set (L := PieceLength g) in *. set (n := Geometry_Count g) in *.
  split_and!; [done| |exact Hout| |].
  - intros i Hi. destruct (Hin i Hi) as (len & Hr & -> & Hlt). eexists. split; [exact Hr|].
    destruct (Z.ltb_spec (size - i * L) L); split_and!; nia.
  - intros o Ho. exists (o / L)%Z. pose proof (Z.div_mod o L). pose proof (Z.mod_pos_bound o L).
    pose proof (Z.div_pos o L).
    destruct (Hin (o / L)%Z) as (len & Hr & -> & Hlt); [nia|]. eexists _, _. split_and!; [|exact Hr|lia|].
    + unfold IndexAt. rewrite Hs. fold L. rewrite out_of_range, bool_decide_false by tauto.
      rewrite (proj2 (Z.leb_gt L 0)) by lia. cbn [orb]. by rewrite Z.quot_div_nonneg by lia.
    + destruct (Z.ltb_spec (size - o / L * L) L); nia.
  - intros o Ho. unfold IndexAt. by rewrite Hs, out_of_range, bool_decide_true.
Qed.

(** ** The text *)

Lemma length_hexOf bs : String.length (hexOf bs) = (length bs * 2)%nat.
Proof. induction bs as [|b bs IH]; [done|]. cbn [hexOf length]. rewrite FormatHex_app.
  cbn [String.length]. lia. Qed.

Lemma readHex_hexOf bs :
  Forall (λ b, b < 256)%N bs → readHex (length bs) (hexOf bs) = Some bs.
Proof.
  induction 1 as [|b bs Hb _ IH]; [done|]. cbn [length hexOf]. rewrite FormatHex_app.
  cbn [readHex]. change (String _ (String _ "")) with (FormatHex b).
  rewrite ScanHex_FormatHex by done. cbn [mbind option_bind]. by rewrite IH.
Qed.

Lemma ScanHex_byte c d v : ScanHex (String c (String d "")) = Some v → (v < 256)%N.
Proof.
  assert (∀ base c d, digitVal base c = Some d → (d < base)%N) as Hd.
  { intros base a x. unfold digitVal. repeat case_match; intros [= <-]; by apply N.ltb_lt. }
  unfold ScanHex. intros (s & Hs & Hn)%bind_Some. unfold scanNumber in Hn.
  assert (String.length s ≤ 2)%nat as Hlen.
  { simpl in Hs. repeat case_match; simplify_eq/=; lia. }
  destruct s as [|a [|b [|]]]; simpl in *; try lia; [done|..].
  - destruct (digitVal 16 a) as [x|] eqn:Ha; [|done]. injection Hn as <-. apply Hd in Ha. lia.
  - destruct (digitVal 16 a) as [x|] eqn:Ha; [|done]. apply Hd in Ha. injection Hn as <-.
    destruct (digitVal 16 b) as [y|] eqn:Hb; [apply Hd in Hb|]; lia.
Qed.

Lemma readHex_spec k hex bs :
  readHex k hex = Some bs → length bs = k ∧ Forall (λ b, b < 256)%N bs.
Proof.
  revert hex bs. induction k as [|k IH]; intros [|a [|b hex]] bs; cbn [readHex]; try (intros [= <-]; by auto); try done.
  intros (v & Hv & (vs & Hvs & [= <-])%bind_Some)%bind_Some.
  apply IH in Hvs as [<- Hall]. split; [done|]. constructor; [|done]. by eapply ScanHex_byte.
Qed.

(** The text of an availability reads back as itself, with the geometry it is of. *)
Theorem availability_roundtrip (size : Z) (g : Geometry) (a : Availability) :
  For size = inr g → (size < 2 ^ 63)%Z → wf a → total a = Geometry_Count g → (0 < total a)%Z →
  Decode (Encode g a) = inr (g, a).
Proof.
  intros Hfor Hsz Hwf Htot Hpos. destruct (For_length _ _ Hfor) as (Hs & Hsize & _).
  unfold Encode. rewrite Hsize, (proj2 (Z.leb_gt _ _)), (proj2 (Z.eqb_neq _ _)) by lia. cbn [orb].
  unfold Decode. rewrite Cut_app by (by apply has_byte_FormatInt).
  rewrite ScanInt_FormatInt by lia. rewrite Hfor. cbv zeta.
  rewrite <-Htot. unfold NewAvailability. rewrite (proj2 (Z.leb_gt _ _)) by lia. cbn [bits total].
  rewrite length_replicate, <-(wf_width _ Hwf), length_hexOf, Nat.eqb_refl. cbn [negb].
  rewrite readHex_hexOf by apply (wf_bytes _ Hwf). do 2 f_equal.
  rewrite (countSet_held _ (count a)) by lia. destruct a as [b c t]. cbn [bits count total] in *.
  f_equal. symmetry. apply (wf_count _ Hwf).
Qed.

Lemma Decode_ok (s : string) (g : Geometry) (a : Availability) :
  Decode s = inr (g, a) →
  For (Size g) = inr g ∧ wf a ∧ total a = Z.max 0 (Geometry_Count g) ∧
  (count a ≤ total a)%Z ∧ (total a ≤ 4 * Z.of_nat (String.length s))%Z ∧
  (Complete g a = true → held a = indices (Geometry_Count g)).
Proof.
  unfold Decode. destruct (Cut ":" s) as [[st hex]|] eqn:Hcut; [|done].
  destruct (ScanInt st) as [size|]; [|done]. destruct (For size) as [|g'] eqn:Hfor; [done|]. cbv zeta.
  destruct (NewAvailability_spec (Geometry_Count g')) as ([Ht Hw _ _] & _ & Htot).
  set (a' := NewAvailability _) in *. destruct (Nat.eqb_spec (String.length hex) (length (bits a') * 2)) as [Hlen|]; [|done].
  cbn [negb]. destruct (readHex _ hex) as [bs|] eqn:Hr; [|done]. intros [= <- <-].
  apply readHex_spec in Hr as [Hbs Hall]. destruct (For_length _ _ Hfor) as (Hs & -> & _).
  assert (wf (mkAvailability bs (countSet bs (Geometry_Count g')) (total a'))) as Hwf.
  { constructor; cbn [bits count total]; [done|congruence|done|].
    destruct (decide (0 ≤ Geometry_Count g'))%Z as [Hc|Hc].
    - rewrite Htot, Z.max_r by done. by apply countSet_held.
    - unfold countSet. rewrite seqZ_nil by lia. rewrite size_held. cbn [total].
      by rewrite Htot, Z.max_l, seqZ_nil by lia. }
  assert (String.length hex ≤ String.length s)%nat as Hle.
  { clear -Hcut. revert st Hcut. induction s as [|c s IH]; [done|]. cbn [Cut]. intros st.
    destruct (decide _); [intros [= _ <-]; simpl; lia|].
    intros ([x y] & Hc & [= _ ->])%fmap_Some. apply IH in Hc. simpl. lia. }
  pose proof (held_indices (mkAvailability bs (countSet bs (Geometry_Count g')) (total a'))) as Hsub.
  pose proof (size_indices (total a') ltac:(lia)) as Hsz. pose proof (subseteq_size _ _ Hsub) as Hss.
  pose proof (wf_count _ Hwf) as Hcount. cbn [total count] in *.
  split_and!; [done|done|done|lia| |].
  - rewrite Hw in Hlen. rewrite Z.quot_div_nonneg in Hlen by lia.
    pose proof (Z.div_mod (total a' + 7) 8). pose proof (Z.mod_pos_bound (total a' + 7) 8). lia.
  - unfold Complete. rewrite andb_true_iff, Z.eqb_eq, Z.ltb_lt. cbn [count]. intros [Hc Hp].
    assert (total a' = Geometry_Count g') as Heq by lia.
    transitivity (indices (total a')); [|by rewrite Heq].
    apply leibniz_equiv, set_subseteq_size_equiv; [done|]. lia.
Qed.

(** C40. Whatever a peer sends, what [Decode] accepts is an availability of the geometry its
    size determines, with one bit for every piece and a count of the pieces it holds: set
    bits past the last piece, which the text may carry, are not counted, and the number of
    pieces a message can claim is bounded by its length. *)
Theorem decode_sound (s : string) (g : Geometry) (a : Availability) :
  Decode s = inr (g, a) →
  For (Size g) = inr g ∧ wf a ∧ total a = Z.max 0 (Geometry_Count g) ∧
  (count a ≤ total a)%Z ∧ (total a ≤ 4 * Z.of_nat (String.length s))%Z ∧
  (Complete g a = true → held a = indices (Geometry_Count g)).
Proof. apply Decode_ok. Qed.

(** ** Witnesses *)

(** Twelve pieces and a half. *)
Definition ex_size : Z := 12 * MinPieceLength + 5.
Definition ex_geometry : Geometry := mkGeometry ex_size MinPieceLength.
Definition ex_have : Availability := Add (Add (NewAvailability 13) 11) 3.

Lemma ex_have_wf : wf ex_have.
Proof. unfold ex_have. apply Add_spec, Add_spec, NewAvailability_spec. Qed.

Lemma geometry_tiles_witness : ∃ len, Range ex_geometry 12 = inr (12 * MinPieceLength, len)%Z.
Proof.
  destruct (geometry_tiles ex_size ex_geometry) as (_ & Hin & _); [done|reflexivity|].
  destruct (Hin 12%Z) as (len & Hr & _); [done|]. exists len. exact Hr.
Defined.

Lemma availability_roundtrip_witness :
  Encode ex_geometry ex_have = "3145733:0808" ∧ Decode (Encode ex_geometry ex_have) = inr (ex_geometry, ex_have).
Proof.
  split; [vm_compute; reflexivity|].
  apply (availability_roundtrip ex_size); [reflexivity|done|exact ex_have_wf|reflexivity|done].
Defined.

(** A peer that sets the spare bits of the last byte claims no more than the pieces there are. *)
Lemma decode_sound_witness :
  ∃ a, Decode "3145733:ffff" = inr (ex_geometry, a) ∧ (count a ≤ 13)%Z.
Proof.
  eexists. split; [vm_compute; reflexivity|].
  pose proof (decode_sound "3145733:ffff" ex_geometry) as H. specialize (H _ eq_refl).
  destruct H as (_ & _ & Ht & Hc & _). rewrite Ht in Hc. exact Hc.
Defined.
