(* ===== verification/Chunking.v ===== *)
(** * Chunking: content-defined chunks of a byte stream

    Models internal/storagefabric/chunking: the gear table (gear.go) and the FastCDC
    chunker (fastcdc.go), its buffer, its reads and its fingerprint in 64-bit words.
    The digest (void-which-binds-go/hashing) is the field of [HashEnv]; a reader is an
    instance of [Reader], whose law is the contract of [io.Reader]. *)

From S2P Require Import Prelude.
From Stdlib Require Import Strings.Byte.

(** ** What lies outside the package *)

(** The 32 bytes of the digest of some bytes. *)
Class HashEnv := hash : list byte → list byte.

Inductive ReadErr := NoErr | EOF | ReadFailed (e : string).

(** [Read] into a buffer of so many bytes: what it put there, the error beside it. *)
Class Reader (R : Type) := read : R → nat → list byte * ReadErr * R.

(** The contract of a reader that does not fail: at most as many bytes as there is room
    for, in the order of the stream, and at least one before the end. *)
Class ReaderLaws (R : Type) `{Reader R} (contents : R → list byte) : Prop :=
  read_law r room bs err r' : (0 < room)%nat → read r room = (bs, err, r') →
    (length bs ≤ room)%nat ∧ contents r = bs ++ contents r' ∧
    match err with NoErr => bs ≠ [] | EOF => contents r' = [] | ReadFailed _ => False end.

(** ** Bytes *)

#[export] Instance byte_eq_dec : EqDecision byte := Byte.byte_eq_dec.

Definition slice {A} (l : list A) (i j : nat) : list A := take (j - i) (drop i l).

(** The integer of bytes in little-endian order. *)
Fixpoint leUint (bs : list byte) : N :=
  match bs with [] => 0 | b :: bs => Byte.to_N b + 256 * leUint bs end.

Definition byteOf (n : N) : byte := default Byte.x00 (Byte.of_N (n mod 256)).

Definition putUint32 (n : N) : list byte :=
  [byteOf n; byteOf (n / 2 ^ 8); byteOf (n / 2 ^ 16); byteOf (n / 2 ^ 24)].

(** ** The gear table *)

Definition gearSeed : list byte := String.list_byte_of_string "heyarr/fastcdc/gear/v1".

(** The table holds four words of each of 64 digests. *)
Definition buildGear `{HashEnv} : list N :=
  seq 0 64 ≫= λ k,
    let digest := hash (gearSeed ++ putUint32 (N.of_nat (4 * k))) in
    (λ j, leUint (slice digest (j * 8) (j * 8 + 8))) <$> seq 0 4.

Definition gear `{HashEnv} (b : byte) : N := nth (N.to_nat (Byte.to_N b)) buildGear 0%N.

(** ** Configuration *)

Definition DefaultMin : Z := 256 * 2 ^ 10.
Definition DefaultAvg : Z := 2 ^ 20.
Definition DefaultMax : Z := 4 * 2 ^ 20.
Definition normalization : Z := 2.
Definition readSize : Z := 256 * 2 ^ 10.

Record Config := mkConfig { Min : Z; Avg : Z; Max : Z }.

Definition DefaultConfig : Config := mkConfig DefaultMin DefaultAvg DefaultMax.

(** [bits.TrailingZeros] of a 64-bit word: 64 of zero. *)
Fixpoint trailingPos (p : positive) : Z :=
  match p with xO p => 1 + trailingPos p | _ => 0 end.
Definition TrailingZeros (n : N) : Z :=
  match n with N0 => 64 | Npos p => trailingPos p end.

Definition avgBits (c : Config) : Z := TrailingZeros (Z.to_N (Avg c)).

(** Whether the error is nil. *)
Definition Validate (c : Config) : bool :=
  if (Min c <=? 0)%Z then false
  else if (Avg c <=? Min c)%Z then false
  else if (Max c <=? Avg c)%Z then false
  else if negb (Z.land (Avg c) (Avg c - 1) =? 0)%Z then false
  else if (avgBits c <=? normalization)%Z || (63 <? avgBits c + normalization)%Z then false
  else true.

(** [^uint64(0) << (64 - n)] *)
Definition maskOf (n : Z) : N := wrap_u64 (N.shiftl MaxUint64 (Z.to_N (64 - n))).

(** ** Cutting *)

(** [fp = (fp << 1) + gear[b]] *)
Definition roll `{HashEnv} (fp : N) (b : byte) : N := wrap_u64 (wrap_u64 (N.shiftl fp 1) + gear b).

(** A loop of [cut] over [src[i:]]: the length of the chunk, or the fingerprint so far. *)
Fixpoint scan `{HashEnv} (mask fp : N) (i : nat) (src : list byte) : nat + N :=
  match src with
  | [] => inr fp
  | b :: src =>
      let fp := roll fp b in
      if (N.land fp mask =? 0)%N then inl (S i) else scan mask fp (S i) src
  end.

Definition cut `{HashEnv} (cfg : Config) (maskS maskL : N) (src : list byte) : nat :=
  let n := length src in
  let min := Z.to_nat (Min cfg) in
  if (n <=? min)%nat then n
  else
    let n := if (Z.to_nat (Max cfg) <? n)%nat then Z.to_nat (Max cfg) else n in
    let normal := if (n <? Z.to_nat (Avg cfg))%nat then n else Z.to_nat (Avg cfg) in
    match scan maskS 0 min (slice src min normal) with
    | inl k => k
    | inr fp => match scan maskL fp normal (slice src normal n) with inl k => k | inr _ => n end
    end.

(** ** The chunker *)

Record Chunk := mkChunk { Offset : Z; Length : Z; Digest : list byte }.

Definition End (c : Chunk) : Z := wrap_i64 (Offset c + Length c).

Inductive Err := ErrEOF | ErrReading (e : string) | ErrNoProgress.

(** [buf] is the backing store, the unconsumed bytes are [buf[off:off+n]]. *)
Record Chunker (R : Type) := mkChunker {
  r : R; cfg : Config; maskS : N; maskL : N;
  buf : list byte; off : nat; n : nat; offset : Z; eof : bool; err : option Err }.
Arguments mkChunker {R}.
Arguments r {R}.
Arguments cfg {R}.
Arguments maskS {R}.
Arguments maskL {R}.
Arguments buf {R}.
Arguments off {R}.
Arguments n {R}.
Arguments offset {R}.
Arguments eof {R}.
Arguments err {R}.

Definition New {R} (rd : R) (c : Config) : option (Chunker R) :=
  if Validate c then
    Some (mkChunker rd c (maskOf (avgBits c + normalization)) (maskOf (avgBits c - normalization))
            (replicate (Z.to_nat (Max c + readSize)) Byte.x00) 0 0 0 false None)
  else None.

Definition window {R} (c : Chunker R) : list byte := slice (buf c) (off c) (off c + n c).

(** [copy(buf[at:], bs)] *)
Definition copyAt (b : list byte) (at_ : nat) (bs : list byte) : list byte :=
  take at_ b ++ bs ++ drop (at_ + length bs) b.

Section reading.
Context {R : Type} `{Reader R}.

(** The loop of [fill]; every turn takes a byte or ends it, so [fuel] is the room left. *)
Fixpoint fillLoop (fuel : nat) (c : Chunker R) : Chunker R * option Err :=
  match fuel with
  | O => (c, None)
  | S fuel =>
      if (n c <? length (buf c))%nat then
        let '(bs, e, rd) := read (r c) (length (buf c) - n c) in
        let c := mkChunker rd (cfg c) (maskS c) (maskL c) (copyAt (buf c) (n c) bs) (off c)
                   (n c + length bs) (offset c) (eof c) (err c) in
        match e with
        | EOF => (mkChunker (r c) (cfg c) (maskS c) (maskL c) (buf c) (off c) (n c) (offset c) true
                    (err c), None)
        | ReadFailed e => (c, Some (ErrReading e))
        | NoErr => if (length bs =? 0)%nat then (c, Some ErrNoProgress) else fillLoop fuel c
        end
      else (c, None)
  end.

Definition compact (c : Chunker R) : Chunker R :=
  if (0 <? off c)%nat
  then mkChunker (r c) (cfg c) (maskS c) (maskL c) (copyAt (buf c) 0 (window c)) 0 (n c) (offset c)
         (eof c) (err c)
  else c.

Definition fill (c : Chunker R) : Chunker R * option Err :=
  if eof c || (n c =? length (buf c))%nat then (c, None)
  else let c := compact c in fillLoop (length (buf c) - n c) c.

Definition stick (c : Chunker R) (e : Err) : Chunker R :=
  mkChunker (r c) (cfg c) (maskS c) (maskL c) (buf c) (off c) (n c) (offset c) (eof c) (Some e).

Definition Next `{HashEnv} (c : Chunker R) : Chunker R * (Err + Chunk) :=
  match err c with
  | Some e => (c, inl e)
  | None =>
      match fill c with
      | (c, Some e) => (stick c e, inl e)
      | (c, None) =>
          if (n c =? 0)%nat then (stick c ErrEOF, inl ErrEOF)
          else
            let len := cut (cfg c) (maskS c) (maskL c) (window c) in
            let chunk := mkChunk (offset c) (Z.of_nat len)
                           (hash (slice (buf c) (off c) (off c + len))) in
            (mkChunker (r c) (cfg c) (maskS c) (maskL c) (buf c) (off c + len) (n c - len)
               (offset c + Z.of_nat len) (eof c) (err c), inr chunk)
      end
  end.

(** A caller that asks for chunks until an error. *)
Fixpoint drain `{HashEnv} (fuel : nat) (c : Chunker R) : option (list Chunk * Err) :=
  match fuel with
  | O => None
  | S fuel =>
      match Next c with
      | (_, inl e) => Some ([], e)
      | (c, inr chunk) => (λ p, (chunk :: p.1, p.2)) <$> drain fuel c
      end
  end.
End reading.

(** ** The specification: chunks of the whole input *)

Fixpoint chunksOf `{HashEnv} (fuel : nat) (c : Config) (mS mL : N) (at_ : Z) (input : list byte) :
    list Chunk :=
  match fuel, input with
  | _, [] | O, _ => []
  | S fuel, _ =>
      let len := cut c mS mL input in
      mkChunk at_ (Z.of_nat len) (hash (take len input))
        :: chunksOf fuel c mS mL (at_ + Z.of_nat len) (drop len input)
  end.

(** The chunks of an input, under a configuration. *)
Definition Chunks `{HashEnv} (c : Config) (at_ : Z) (input : list byte) : list Chunk :=
  chunksOf (length input) c (maskOf (avgBits c + normalization)) (maskOf (avgBits c - normalization))
    at_ input.

(** ** Slices *)

Lemma length_slice {A} (l : list A) i j : (j ≤ length l)%nat → length (slice l i j) = (j - i)%nat.
Proof. intros. unfold slice. rewrite length_take, length_drop. lia. Qed.

Lemma slice_take {A} (l : list A) i j k : (j ≤ k)%nat → slice (take k l) i j = slice l i j.
Proof. intros. unfold slice. rewrite skipn_firstn_comm, take_take. f_equal. lia. Qed.

Lemma slice_0 {A} (l : list A) j : slice l 0 j = take j l.
Proof. unfold slice. by rewrite drop_0, Nat.sub_0_r. Qed.

Lemma take_slice {A} (l : list A) i j k :
  (k ≤ j)%nat → take k (slice l i (i + j)) = slice l i (i + k).
Proof. intros. unfold slice. rewrite take_take. f_equal. lia. Qed.

Lemma drop_slice {A} (l : list A) i j k :
  (k ≤ j)%nat → drop k (slice l i (i + j)) = slice l (i + k) (i + j).
Proof. intros. unfold slice. rewrite skipn_firstn_comm, drop_drop. f_equal. lia. Qed.

(** ** The configuration *)

Lemma land_pred_pow2 (p : positive) :
  Z.land (Z.pos p) (Z.pos p - 1) = 0%Z → Z.pos p = (2 ^ trailingPos p)%Z ∧ (0 ≤ trailingPos p)%Z.
Proof.
  induction p as [p _|p IH|]; intros Hl.
  - exfalso. replace (Z.pos p~1 - 1)%Z with (Z.pos p~0) in Hl by lia.
    apply (f_equal (λ z, Z.testbit z (Z.log2 (Z.pos p~0)))) in Hl.
    rewrite Z.land_spec, Z.bits_0, Z.bit_log2 in Hl by lia.
    replace (Z.log2 (Z.pos p~0)) with (Z.log2 (Z.pos p~1)) in Hl.
    + rewrite Z.bit_log2 in Hl by lia. done.
    + rewrite (Pos2Z.inj_xI p), (Pos2Z.inj_xO p), Z.log2_succ_double, Z.log2_double; lia.
  - cbn [trailingPos]. destruct IH as [IH Hn].
    + apply Z.bits_inj'. intros i Hi. apply (f_equal (λ z, Z.testbit z (Z.succ i))) in Hl.
      rewrite Z.bits_0, Z.land_spec in *. rewrite Pos2Z.inj_xO in Hl.
      rewrite Z.testbit_even_succ in Hl by done.
      replace (2 * Z.pos p - 1)%Z with (2 * (Z.pos p - 1) + 1)%Z in Hl by lia.
      by rewrite Z.testbit_odd_succ in Hl by done.
    + split; [|lia]. rewrite Pos2Z.inj_xO, IH at 1. rewrite Z.pow_add_r by lia. lia.
  - done.
Qed.

Lemma trailingPos_pow2 (p : positive) (k : Z) :
  (0 ≤ k)%Z → Z.pos p = (2 ^ k)%Z → trailingPos p = k ∧ Z.land (Z.pos p) (Z.pos p - 1) = 0%Z.
Proof.
  intros Hk. revert p. pattern k. apply natlike_ind; [| |done].
  - intros p Hp. assert (p = 1%positive) as -> by lia. done.
  - intros m Hm IH p Hp. rewrite Z.pow_succ_r in Hp by done.
    destruct p as [p|p|]; [lia| |lia]. destruct (IH p) as [Ht Hl]; [lia|]. split.
    + cbn [trailingPos]. lia.
    + apply Z.bits_inj'. intros i Hi. rewrite Z.bits_0, Z.land_spec, Pos2Z.inj_xO.
      destruct (decide (i = 0%Z)) as [->|Hne]; [by rewrite Z.testbit_even_0|].
      replace i with (Z.succ (Z.pred i)) by lia.
      replace (2 * Z.pos p - 1)%Z with (2 * (Z.pos p - 1) + 1)%Z by lia.
      rewrite Z.testbit_even_succ, Z.testbit_odd_succ by lia.
      by rewrite <-Z.land_spec, Hl, Z.bits_0.
Qed.

Lemma Config_Validate_iff (c : Config) :
  Validate c = true ↔
  (0 < Min c < Avg c)%Z ∧ (Avg c < Max c)%Z ∧ Avg c = (2 ^ avgBits c)%Z ∧ (2 < avgBits c ≤ 61)%Z.
Proof.
  unfold Validate.
  destruct (Z.leb_spec (Min c) 0); [naive_solver lia|].
  destruct (Z.leb_spec (Avg c) (Min c)); [naive_solver lia|].
  destruct (Z.leb_spec (Max c) (Avg c)); [naive_solver lia|].
  assert (∃ p, Avg c = Z.pos p) as [p Hp] by (destruct (Avg c); [lia|eauto|lia]).
  assert (avgBits c = trailingPos p) as Hb by (unfold avgBits; by rewrite Hp).
  rewrite Hb, Hp. destruct (Z.eqb_spec (Z.land (Z.pos p) (Z.pos p - 1)) 0) as [Hl|Hl]; simpl negb; cbn match.
  - destruct (land_pred_pow2 p Hl) as [Hpow Hn]. unfold normalization.
    destruct (Z.leb_spec (trailingPos p) 2), (Z.ltb_spec 63 (trailingPos p + 2)); simpl; naive_solver lia.
  - split; [done|]. intros (_ & _ & Hpow & Hk). destruct Hl.
    apply (trailingPos_pow2 p (trailingPos p)); [lia|done].
Qed.

(** The configurations accepted are exactly those with [0 < Min < Avg < Max] and [Avg] a
    power of two from 8 to 2^61, whose logarithm the chunker's masks are made from; the
    default is one. *)
Theorem config_spec (c : Config) :
  (Validate c = true ↔
   (0 < Min c < Avg c)%Z ∧ (Avg c < Max c)%Z ∧ ∃ k, (2 < k ≤ 61)%Z ∧ Avg c = (2 ^ k)%Z) ∧
  (∀ k, Validate c = true → (0 ≤ k)%Z → Avg c = (2 ^ k)%Z → avgBits c = k) ∧
  Validate DefaultConfig = true.
Proof.
  assert (∀ k, (0 ≤ k)%Z → Avg c = (2 ^ k)%Z → avgBits c = k) as Hbits.
  { intros k Hk Ha. unfold avgBits. assert (0 < 2 ^ k)%Z by lia.
    destruct (Avg c) as [|p|p]; [lia| |lia]. by destruct (trailingPos_pow2 p k Hk Ha). }
  split_and!; [|auto|reflexivity]. rewrite Config_Validate_iff. split.
  - intros (H1 & H2 & H3 & H4). split_and!; [lia..|]. by exists (avgBits c).
  - intros (H1 & H2 & k & Hk & Ha). rewrite (Hbits k) by lia. split_and!; lia.
Qed.

(** ** Where a chunk ends *)

Section cutting.
Context `{HashEnv}.

Lemma scan_bounds mask fp i src k :
  scan mask fp i src = inl k → (i < k ≤ i + length src)%nat.
Proof.
  revert fp i. induction src as [|b src IH]; intros fp i; simpl; [done|].
  destruct (_ =? 0)%N; [intros [= <-]; lia|]. intros Hs%IH. lia.
Qed.

(** The bounds of a length [cut] returns. *)
Lemma cut_bounds c mS mL src :
  Validate c = true → src ≠ [] →
  let k := cut c mS mL src in
  (0 < k ≤ length src)%nat ∧ (Z.of_nat k ≤ Max c)%Z ∧
  ((k < length src)%nat → (Min c < Z.of_nat k)%Z).
Proof.
  intros (Hmin & Hmax & _)%Config_Validate_iff Hsrc. cbv zeta. unfold cut.
  assert (0 < length src)%nat by (destruct src; [done|simpl; lia]).
  destruct (Nat.leb_spec (length src) (Z.to_nat (Min c))); [lia|].
  set (n := if (Z.to_nat (Max c) <? length src)%nat then Z.to_nat (Max c) else length src).
  assert (n ≤ length src ∧ n ≤ Z.to_nat (Max c) ∧ Z.to_nat (Min c) < n)%nat as (Hn1 & Hn2 & Hn3)
    by (unfold n; destruct (Nat.ltb_spec (Z.to_nat (Max c)) (length src)); lia).
  set (normal := if (n <? Z.to_nat (Avg c))%nat then n else Z.to_nat (Avg c)).
  assert (normal ≤ n ∧ Z.to_nat (Min c) < normal)%nat as [Hm1 Hm2]
    by (unfold normal; destruct (Nat.ltb_spec n (Z.to_nat (Avg c))); lia).
  destruct (scan mS 0 _ _) as [k|fp] eqn:Hs.
  - apply scan_bounds in Hs. rewrite length_slice in Hs by lia. lia.
  - destruct (scan mL fp _ _) as [k|fp'] eqn:Hs'; [|lia].
    apply scan_bounds in Hs'. rewrite length_slice in Hs' by lia. lia.
Qed.

(** [cut] looks no further than [Max] bytes. *)
Lemma cut_take c mS mL src k :
  Validate c = true → (Max c ≤ Z.of_nat k)%Z → cut c mS mL (take k src) = cut c mS mL src.
Proof.
  intros (Hmin & Hmax & _)%Config_Validate_iff Hk.
  destruct (decide (length src ≤ k)%nat); [by rewrite take_ge|].
  unfold cut. rewrite length_take, Nat.min_l by lia.
  destruct (Nat.leb_spec k (Z.to_nat (Min c))), (Nat.leb_spec (length src) (Z.to_nat (Min c))); [lia..|].
  rewrite (proj2 (Nat.ltb_lt _ (length src))) by lia.
  replace (if (Z.to_nat (Max c) <? k)%nat then Z.to_nat (Max c) else k) with (Z.to_nat (Max c))
    by (destruct (Nat.ltb_spec (Z.to_nat (Max c)) k); lia).
  rewrite (proj2 (Nat.ltb_ge _ (Z.to_nat (Avg c)))) by lia.
  rewrite !slice_take by lia. done.
Qed.

End cutting.
