(* ===== verification/ChunkStream.v ===== *)
(** * ChunkStream: the streaming chunker gives the chunks of the whole input

    The chunker of Chunking.v reads a stream piece by piece into a buffer of bounded
    size; the specification cuts the whole input.  Here the two are shown to agree for
    every reader that keeps its contract, and the chunks of an input are shown to tile
    it, within their bounds, each from the bytes around it alone. *)

From S2P Require Import Prelude Chunking.
From Stdlib Require Import Strings.Byte.

(** Chunks that follow one another from [at_]. *)
Fixpoint contiguous (at_ : Z) (cs : list Chunk) : Prop :=
  match cs with [] => True | ch :: cs => Offset ch = at_ ∧ contiguous (at_ + Length ch) cs end.

(** A chunk moved along the stream. *)
Definition shift (d : Z) (ch : Chunk) : Chunk := mkChunk (Offset ch + d) (Length ch) (Digest ch).

(** ** The buffer *)

(** The bytes a chunker has yet to cut: those it holds and those it has yet to read. *)
Definition pending {R} (contents : R → list byte) (c : Chunker R) : list byte :=
  window c ++ (if eof c then [] else contents (r c)).

(** A chunker for a valid configuration, with a buffer of its size. *)
Record running {R} (c : Chunker R) : Prop := {
  run_valid : Validate (cfg c) = true;
  run_size : Z.of_nat (length (buf c)) = (Max (cfg c) + readSize)%Z;
  run_fits : (off c + n c ≤ length (buf c))%nat }.

(** Everything but the buffer and the reader. *)
Definition same {R} (c c' : Chunker R) : Prop :=
  cfg c' = cfg c ∧ maskS c' = maskS c ∧ maskL c' = maskL c ∧ offset c' = offset c ∧
  err c' = err c ∧ length (buf c') = length (buf c).

Lemma length_window {R} (c : Chunker R) :
  (off c + n c ≤ length (buf c))%nat → length (window c) = n c.
Proof. intros. unfold window. rewrite length_slice by lia. lia. Qed.

Lemma length_copyAt {A} (b bs : list A) at_ :
  (at_ + length bs ≤ length b)%nat → length (take at_ b ++ bs ++ drop (at_ + length bs) b) = length b.
Proof. intros. rewrite !length_app, length_take, length_drop. lia. Qed.

(** Bytes read in behind those the buffer starts with. *)
Lemma take_copyAt (b bs : list byte) at_ :
  (at_ + length bs ≤ length b)%nat → take (at_ + length bs) (copyAt b at_ bs) = take at_ b ++ bs.
Proof.
  intros. unfold copyAt. rewrite app_assoc. apply take_app_length'.
  rewrite length_app, length_take. lia.
Qed.

Section stream.
Context {R : Type} `{Hrd : Reader R} (contents : R → list byte) `{!ReaderLaws R contents}.

Lemma fillLoop_spec fuel (c : Chunker R) :
  off c = 0%nat → (n c ≤ length (buf c))%nat → (length (buf c) - n c ≤ fuel)%nat → eof c = false →
  let (c', e) := fillLoop fuel c in
  e = None ∧ same c c' ∧ off c' = 0%nat ∧ (n c' ≤ length (buf c'))%nat ∧
  pending contents c' = pending contents c ∧ (eof c' = true ∨ n c' = length (buf c')).
Proof.
  revert c. induction fuel as [|fuel IH]; intros c Hoff Hn Hf He; simpl.
  { split_and!; [done|done|done|done|done|right; lia]. }
  destruct (Nat.ltb_spec (n c) (length (buf c))) as [Hlt|Hge].
  2:{ split_and!; [done|done|done|done|done|right; lia]. }
  destruct (read (r c) (length (buf c) - n c)) as [[bs e] rd] eqn:Hread.
  assert (0 < length (buf c) - n c)%nat as Hroom by lia.
  destruct (read_law (r c) _ bs e rd Hroom Hread) as (Hlen & Hcont & Herr).
  assert (take (n c + length bs) (copyAt (buf c) (n c) bs) = take (n c) (buf c) ++ bs) as Htake
    by (apply take_copyAt; lia).
  assert (length (copyAt (buf c) (n c) bs) = length (buf c)) as Hbuf by (apply length_copyAt; lia).
  assert (∀ b o e', pending contents (mkChunker rd (cfg c) (maskS c) (maskL c)
      (copyAt (buf c) (n c) bs) (off c) (n c + length bs) o b e') =
    take (n c) (buf c) ++ bs ++ (if b then [] else contents rd)) as Hpend.
  { intros b o e'. unfold pending, window. cbn [buf off n eof r].
    by rewrite Hoff, slice_0, Nat.add_0_l, Htake, <-app_assoc. }
  assert (pending contents c = take (n c) (buf c) ++ bs ++ contents rd) as Hpc.
  { unfold pending, window. by rewrite Hoff, slice_0, He, Hcont, Nat.add_0_l. }
  destruct e as [| |x]; [|..|done].
  - destruct (Nat.eqb_spec (length bs) 0) as [H0|H0]; [by apply nil_length_inv in H0|].
    set (c1 := mkChunker rd _ _ _ _ _ _ _ _ _).
    specialize (IH c1). destruct (fillLoop fuel c1) as [c' e'].
    destruct IH as (-> & (? & ? & ? & ? & ? & Hb) & Ho & Hn' & Hp & Hor);
      [done|cbn [c1 n buf]; lia|cbn [c1 n buf]; lia|done|].
    split_and!; try done.
    + unfold same. split_and!; try done. by rewrite Hb.
    + rewrite Hp, Hpc. unfold c1. by rewrite Hpend, He.
  - cbn [cfg maskS maskL off n offset err r buf eof]. split_and!; try done; [lia| |by left].
    rewrite Hpend, Hpc. by rewrite Herr.
Qed.

Lemma compact_spec (c : Chunker R) :
  (off c + n c ≤ length (buf c))%nat →
  same c (compact c) ∧ off (compact c) = 0%nat ∧ n (compact c) = n c ∧ eof (compact c) = eof c ∧
  pending contents (compact c) = pending contents c.
Proof.
  intros Hfit. unfold compact. destruct (Nat.ltb_spec 0 (off c)) as [Hlt|Hge].
  - assert (length (window c) = n c) as Hw by by apply length_window.
    split_and!; try done.
    { unfold same. split_and!; try done. apply length_copyAt. rewrite Hw. lia. }
    unfold pending. cbn [r eof]. f_equal. unfold window at 1. cbn [buf off n].
    rewrite slice_0, Nat.add_0_l. rewrite <-Hw at 1. rewrite <-(Nat.add_0_l (length (window c))).
    rewrite take_copyAt by (rewrite Hw; lia). done.
  - split_and!; try done. lia.
Qed.

(** After [fill] the buffer is full or holds all that is left. *)
Lemma fill_spec (c : Chunker R) :
  (off c + n c ≤ length (buf c))%nat →
  let (c', e) := fill c in
  e = None ∧ same c c' ∧ (off c' + n c' ≤ length (buf c'))%nat ∧
  pending contents c' = pending contents c ∧ (eof c' = true ∨ n c' = length (buf c')).
Proof.
  intros Hfit. unfold fill. destruct (eof c) eqn:He; simpl.
  { split_and!; [done|done|done|done|by left]. }
  destruct (Nat.eqb_spec (n c) (length (buf c))) as [Hn|Hn].
  { split_and!; [done|done|done|done|by right]. }
  destruct (compact_spec c Hfit) as ((? & ? & ? & ? & ? & Hb) & Ho & Hn' & He' & Hp).
  pose proof (fillLoop_spec (length (buf (compact c)) - n (compact c)) (compact c)) as Hl.
  destruct (fillLoop _ (compact c)) as [c' e].
  destruct Hl as (-> & (? & ? & ? & ? & ? & ?) & Ho' & Hfit' & Hp' & Hor);
    [done|rewrite Hb, Hn'; lia|lia|congruence|].
  split_and!; [done|unfold same; split_and!; congruence|lia|congruence|done].
Qed.

Context `{HashEnv}.

(** One call of [Next]: the end, or the next chunk of what is pending. *)
Lemma Next_spec (c : Chunker R) :
  running c → err c = None →
  match pending contents c with
  | [] => (Next c).2 = inl ErrEOF
  | input =>
      let len := cut (cfg c) (maskS c) (maskL c) input in
      let (c', res) := Next c in
      res = inr (mkChunk (offset c) (Z.of_nat len) (hash (take len input))) ∧
      running c' ∧ err c' = None ∧ cfg c' = cfg c ∧ maskS c' = maskS c ∧ maskL c' = maskL c ∧
      offset c' = (offset c + Z.of_nat len)%Z ∧ pending contents c' = drop len input
  end.
Proof.
  intros [Hval Hsize Hfit] Herr. unfold Next. rewrite Herr.
  pose proof (fill_spec c Hfit) as Hf. destruct (fill c) as [c1 e].
  destruct Hf as (-> & (Hc & HS & HL & Hoff & He & Hb) & Hfit1 & Hp & Hor). rewrite <-Hp.
  pose proof (length_window c1 Hfit1) as Hw. pose proof (proj1 (Config_Validate_iff _) Hval) as (Hm & Hm' & _).
  destruct (Nat.eqb_spec (n c1) 0) as [H0|H0].
  { rewrite H0 in Hw. apply nil_length_inv in Hw. unfold pending. rewrite Hw.
    destruct Hor as [->|Hfull]; [done|]. unfold readSize in Hsize. lia. }
  assert (window c1 ≠ []) as Hne by (intros E; rewrite E in Hw; simpl in Hw; lia).
  assert (cut (cfg c1) (maskS c1) (maskL c1) (pending contents c1) =
    cut (cfg c1) (maskS c1) (maskL c1) (window c1)) as Hcut.
  { unfold pending. destruct Hor as [->|Hfull]; [by rewrite app_nil_r|].
    rewrite <-(cut_take (cfg c1) (maskS c1) (maskL c1) (window c1 ++ _) (length (window c1))).
    - by rewrite take_app_length.
    - by rewrite Hc.
    - rewrite Hw, Hfull, Hb, Hc. unfold readSize in Hsize. lia. }
  pose proof (cut_bounds (cfg c1) (maskS c1) (maskL c1) (window c1)) as Hbd.
  rewrite Hc in Hbd at 1. specialize (Hbd Hval Hne). cbv zeta in Hbd.
  destruct (pending contents c1) as [|b bs] eqn:Hpe.
  { unfold pending in Hpe. by apply app_eq_nil in Hpe as [? _]. }
  cbv zeta. rewrite <-Hc, <-HS, <-HL, Hcut, <-Hoff, <-Hpe.
  set (len := cut _ _ _ (window c1)) in *. destruct Hbd as ([Hlo Hhi] & _). rewrite Hw in Hhi.
  assert (take len (pending contents c1) = slice (buf c1) (off c1) (off c1 + len)) as Htake.
  { unfold pending. rewrite take_app_le by lia. apply take_slice. lia. }
  split_and!; try done.
  - by rewrite Htake.
  - constructor; cbn [cfg buf off n]; [by rewrite Hc|by rewrite Hc, Hb|lia].
  - cbn [err]. by rewrite He.
  - unfold pending. cbn [eof r]. rewrite drop_app_le by lia. f_equal.
    unfold window. cbn [buf off n]. rewrite drop_slice by lia. f_equal. lia.
Qed.

(** What every read keeps, the chunker keeps. *)
Lemma Next_reader (I : R → Prop) (c : Chunker R) :
  (∀ rd room bs e rd', (0 < room)%nat → I rd → read rd room = (bs, e, rd') → I rd') →
  I (r c) → I (r (Next c).1).
Proof.
  intros HI Hc.
  assert (∀ fuel k, I (r k) → I (r (fillLoop fuel k).1)) as Hl.
  { induction fuel as [|fuel IH]; intros k Hk; simpl; [done|].
    destruct (Nat.ltb_spec (n k) (length (buf k))) as [Hlt|]; [|done].
    destruct (read (r k) _) as [[bs e] rd] eqn:Hr.
    assert (I rd) by (eapply HI; [|exact Hk|exact Hr]; lia). destruct e; simpl; [|done..].
    destruct (_ =? 0)%nat; [done|]. by apply IH. }
  assert (I (r (fill c).1)) as Hf.
  { unfold fill. destruct (_ || _); [done|]. apply Hl. unfold compact. by destruct (_ <? _)%nat. }
  unfold Next. destruct (err c); [exact Hc|]. destruct (fill c) as [c1 [e|]]; [exact Hf|].
  destruct (_ =? 0)%nat; exact Hf.
Qed.

(** A chunker that has seen the end of its reader has read all of it. *)
Definition ended (c : Chunker R) : Prop := eof c = true → contents (r c) = [].

Lemma fill_ended c : ended c → ended (fill c).1.
Proof.
  intros Hc. unfold fill. destruct (eof c || (n c =? length (buf c))%nat) eqn:Hb; [done|].
  apply orb_false_iff in Hb as [He _].
  assert (∀ fuel k, eof k = false → ended (fillLoop fuel k).1) as Hl.
  { induction fuel as [|fuel IH]; intros k Hk; simpl; [unfold ended; congruence|].
    destruct (Nat.ltb_spec (n k) (length (buf k))) as [Hlt|]; [|unfold ended; simpl; congruence].
    destruct (read (r k) _) as [[bs e] rd] eqn:Hr.
    assert (0 < length (buf k) - n k)%nat as Hroom by lia.
    destruct (read_law (r k) _ bs e rd Hroom Hr) as (_ & _ & Hend).
    destruct e; simpl; [|by intros _|done].
    destruct (_ =? 0)%nat; [unfold ended; simpl; congruence|]. by apply IH. }
  apply Hl. unfold compact. by destruct (_ <? _)%nat.
Qed.

Lemma Next_ended c :
  running c → err c = None → ended c →
  match Next c with
  | (c', inl _) => contents (r c') = []
  | (c', inr _) => ended c'
  end.
Proof.
  intros [Hval Hsize Hfit] Herr Hc. unfold Next. rewrite Herr.
  pose proof (fill_spec c Hfit) as Hf. pose proof (fill_ended c Hc) as He.
  destruct (fill c) as [c1 e]. cbn [fst] in He. destruct Hf as (-> & (_ & _ & _ & _ & _ & Hb) & _ & _ & Hor).
  destruct (Nat.eqb_spec (n c1) 0) as [H0|H0]; [|exact He].
  destruct Hor as [Heof|Hfull]; [by apply He|].
  pose proof (proj1 (Config_Validate_iff _) Hval) as (Hm & Hm' & _). unfold readSize in Hsize. lia.
Qed.

Lemma chunksOf_fuel f1 f2 c mS mL at_ input :
  Validate c = true → (length input ≤ f1)%nat → (length input ≤ f2)%nat →
  chunksOf f1 c mS mL at_ input = chunksOf f2 c mS mL at_ input.
Proof.
  intros Hv. revert f2 at_ input. induction f1 as [|f1 IH]; intros f2 at_ input H1 H2.
  - destruct input; [|simpl in H1; lia]. by destruct f2.
  - destruct input as [|b input]; [by destruct f2|]. destruct f2 as [|f2]; [simpl in H2; lia|].
    cbn [chunksOf]. cbv zeta. f_equal.
    destruct (cut_bounds c mS mL (b :: input) Hv) as ([Hlo Hhi] & _); [done|].
    apply IH; rewrite length_drop; simpl in *; lia.
Qed.

Lemma drain_spec fuel (c : Chunker R) :
  running c → err c = None → (length (pending contents c) < fuel)%nat →
  drain fuel c = Some (chunksOf (length (pending contents c)) (cfg c) (maskS c) (maskL c) (offset c)
    (pending contents c), ErrEOF).
Proof.
  revert c. induction fuel as [|fuel IH]; intros c Hrun Herr Hf; [lia|]. cbn [drain].
  pose proof (Next_spec c Hrun Herr) as HN. destruct (pending contents c) as [|b bs] eqn:Hp.
  - destruct (Next c) as [c' res]. simpl in HN. by rewrite HN.
  - cbv zeta in HN. destruct (Next c) as [c' res].
    destruct HN as (-> & Hrun' & Herr' & Hc & HS & HL & Ho & Hp').
    pose proof (run_valid _ Hrun) as Hv.
    destruct (cut_bounds (cfg c) (maskS c) (maskL c) (b :: bs) Hv) as ([Hlo Hhi] & _); [done|].
    set (len := cut _ _ _ _) in *.
    assert (length (pending contents c') < S (length bs))%nat as Hlen
      by (rewrite Hp', length_drop; cbn [length] in *; lia).
    cbn [length] in Hf. rewrite IH; [|done|done|clear -Hf Hlen; lia]. simpl. rewrite Hc, HS, HL, Ho, Hp'.
    fold len. rewrite (chunksOf_fuel _ (length bs)); [done|done|done|]. rewrite <-Hp'. clear -Hlen; lia.
Qed.

(** C32. The streaming chunker returns exactly the chunks of the whole input and then the end,
    however the reader splits its bytes over its calls: the bounded buffer, its
    compaction and its refills are invisible.  It takes one call a chunk, so a number of
    calls above the number of bytes is always enough. *)
Theorem chunking_streams (c : Config) (rd : R) (k : Chunker R) (fuel : nat) :
  New rd c = Some k → (length (contents rd) < fuel)%nat →
  drain fuel k = Some (Chunks c 0 (contents rd), ErrEOF).
Proof.
  unfold New. destruct (Validate c) eqn:Hv; [|done]. intros [= <-] Hf.
  pose proof (proj1 (Config_Validate_iff c) Hv) as (Hm & Hm' & _).
  rewrite drain_spec.
  - unfold pending, window. cbn [buf off n]. by rewrite slice_0.
  - constructor; cbn [cfg buf off n]; [done| |lia]. rewrite length_replicate.
    unfold readSize. lia.
  - done.
  - unfold pending, window. cbn [buf off n eof r]. by rewrite slice_0.
Qed.

End stream.

(** ** The chunks of an input *)

Section chunks.
Context `{HashEnv}.

Lemma Chunks_nil c at_ : Chunks c at_ [] = [].
Proof. done. Qed.

(** The first chunk, and the chunks of what is left. *)
Lemma Chunks_cons c at_ input :
  Validate c = true → input ≠ [] →
  let len := cut c (maskOf (avgBits c + normalization)) (maskOf (avgBits c - normalization)) input in
  Chunks c at_ input =
    mkChunk at_ (Z.of_nat len) (hash (take len input))
      :: Chunks c (at_ + Z.of_nat len) (drop len input).
Proof.
  intros Hv Hne. unfold Chunks. cbv zeta. destruct input as [|b input]; [done|].
  cbn [length chunksOf]. cbv zeta. f_equal.
  set (mS := maskOf _). set (mL := maskOf (_ - _)).
  destruct (cut_bounds c mS mL (b :: input) Hv) as ([Hlo Hhi] & _); [done|]. cbn [length] in Hhi.
  apply chunksOf_fuel; [done| |done]. rewrite length_drop. cbn [length]. lia.
Qed.

(** Induction on the chunks of an input. *)
Lemma Chunks_ind (c : Config) (P : Z → list byte → list Chunk → Prop) :
  Validate c = true →
  (∀ at_, P at_ [] []) →
  (∀ at_ input len, input ≠ [] → (0 < len ≤ length input)%nat → (Z.of_nat len ≤ Max c)%Z →
     ((len < length input)%nat → (Min c < Z.of_nat len)%Z) →
     P (at_ + Z.of_nat len)%Z (drop len input) (Chunks c (at_ + Z.of_nat len) (drop len input)) →
     P at_ input (mkChunk at_ (Z.of_nat len) (hash (take len input))
                    :: Chunks c (at_ + Z.of_nat len) (drop len input))) →
  ∀ at_ input, P at_ input (Chunks c at_ input).
Proof.
  intros Hv Hnil Hcons at_ input. remember (length input) as m eqn:Hm. revert at_ input Hm.
  induction m as [m IH] using lt_wf_ind. intros at_ input Hm.
  destruct (decide (input = [])) as [->|Hne]; [apply Hnil|].
  rewrite (Chunks_cons c at_ input Hv Hne). cbv zeta. set (len := cut _ _ _ _).
  destruct (cut_bounds c (maskOf (avgBits c + normalization)) (maskOf (avgBits c - normalization))
    input Hv Hne) as (Hb & Hmx & Hmn). fold len in Hb, Hmx, Hmn.
  apply Hcons; [done..|]. apply (IH (length (drop len input))); [|done]. rewrite length_drop. lia.
Qed.

Lemma Chunks_parts (c : Config) (at_ : Z) (input : list byte) :
  Validate c = true →
  let cs := Chunks c at_ input in
  contiguous at_ cs ∧
  (∃ parts, concat parts = input ∧
     Forall2 (λ p ch, Length ch = Z.of_nat (length p) ∧ Digest ch = hash p) parts cs) ∧
  ∀ i ch, cs !! i = Some ch →
    (0 < Length ch ≤ Max c)%Z ∧ ((S i < length cs)%nat → (Min c < Length ch)%Z).
Proof.
  intros Hv. cbv zeta. pattern at_, input, (Chunks c at_ input). revert at_ input.
  apply (Chunks_ind c _ Hv).
  - intros at_. split_and!; [done|by exists []|done].
  - intros at_ input len Hne Hlen Hmax Hmin (Hcont & (parts & Hcat & Hall) & Hbnd). split_and!.
    + by split.
    + exists (take len input :: parts). split; [simpl; by rewrite Hcat, take_drop|].
      constructor; [|done]. simpl. rewrite length_take, Nat.min_l by lia. done.
    + intros [|i] ch Hi; simpl in Hi.
      * injection Hi as <-. cbn [Length]. split; [lia|]. intros Hlast. apply Hmin.
        destruct (drop len input) as [|b rest] eqn:Hd; [simpl in Hlast; lia|].
        apply (f_equal length) in Hd. rewrite length_drop in Hd. simpl in Hd. lia.
      * specialize (Hbnd i ch Hi). split; [tauto|]. intros Hlt. apply Hbnd. simpl in Hlt. lia.
Qed.

(** The chunks of an input rebuild it exactly: they follow one another with no gap and no
    overlap, each has the length and the digest of its own bytes, none is empty or longer
    than [Max], and only the last may be of [Min] bytes or fewer. *)
Theorem chunks_reassemble (c : Config) (at_ : Z) (input : list byte) :
  Validate c = true →
  let cs := Chunks c at_ input in
  contiguous at_ cs ∧
  (∃ parts, concat parts = input ∧
     Forall2 (λ p ch, Length ch = Z.of_nat (length p) ∧ Digest ch = hash p) parts cs) ∧
  ∀ i ch, cs !! i = Some ch →
    (0 < Length ch ≤ Max c)%Z ∧ ((S i < length cs)%nat → (Min c < Length ch)%Z).
Proof. exact (Chunks_parts c at_ input). Qed.

Lemma Chunks_shift c at_ d input : Chunks c (at_ + d) input = shift d <$> Chunks c at_ input.
Proof.
  unfold Chunks. generalize (length input) as fuel. intros fuel. revert at_ input.
  induction fuel as [|fuel IH]; intros at_ [|b input]; [done..|].
  cbn [chunksOf]. cbv zeta. rewrite fmap_cons, <-IH. f_equal. f_equal. lia.
Qed.

(** The bytes some chunks cover. *)
Definition covered (cs : list Chunk) : Z := foldr (λ ch m, Length ch + m)%Z 0%Z cs.

(** What follows a boundary is chunked from there on its own. *)
Lemma Chunks_boundary c at_ a s cs rest :
  Validate c = true → Chunks c at_ (a ++ s) = cs ++ rest → covered cs = Z.of_nat (length a) →
  rest = Chunks c (at_ + Z.of_nat (length a)) s.
Proof.
  intros Hv. revert at_ a. induction cs as [|ch cs IH]; intros at_ a Heq Hcov; simpl in Hcov.
  - assert (a = []) as -> by (apply nil_length_inv; lia). simpl in *. by rewrite Z.add_0_r.
  - destruct (decide (a ++ s = [])) as [Hn|Hne]; [rewrite Hn in Heq; discriminate|].
    rewrite (Chunks_cons c at_ (a ++ s) Hv Hne) in Heq. cbv zeta in Heq.
    destruct (cut_bounds c (maskOf (avgBits c + normalization)) (maskOf (avgBits c - normalization))
      (a ++ s) Hv Hne) as ([Hlo _] & _).
    set (len := cut _ _ _ _) in *. injection Heq as <- Heq. cbn [Length] in Hcov.
    assert (0 ≤ covered cs)%Z as Hpos.
    { assert (∀ at' input, Forall (λ ch, 0 ≤ Length ch)%Z (Chunks c at' input)) as Hnn.
      { intros at' input. pattern at', input, (Chunks c at' input).
        apply (Chunks_ind c _ Hv); [by constructor|]. intros. constructor; [simpl; lia|done]. }
      specialize (Hnn (at_ + Z.of_nat len)%Z (drop len (a ++ s))). rewrite Heq in Hnn.
      apply Forall_app in Hnn as [Hnn _]. clear -Hnn. induction Hnn; simpl; lia. }
    rewrite drop_app_le in Heq by lia.
    rewrite (IH (at_ + Z.of_nat len)%Z (drop len a) Heq) by (rewrite length_drop; lia).
    rewrite length_drop. f_equal. lia.
Qed.

(** Chunking recovers from an edit: when two inputs end in the same bytes and each has a
    boundary where they begin, every later chunk of the one is the same chunk of the
    other, moved by the difference of the lengths, with the same length and digest. *)
Theorem chunks_resync (c : Config) (a b s : list byte) (cs1 rest1 cs2 rest2 : list Chunk) :
  Validate c = true →
  Chunks c 0 (a ++ s) = cs1 ++ rest1 → covered cs1 = Z.of_nat (length a) →
  Chunks c 0 (b ++ s) = cs2 ++ rest2 → covered cs2 = Z.of_nat (length b) →
  rest2 = shift (Z.of_nat (length b) - Z.of_nat (length a)) <$> rest1.
Proof.
  intros Hv H1 Hc1 H2 Hc2.
  rewrite (Chunks_boundary c 0 a s cs1 rest1), (Chunks_boundary c 0 b s cs2 rest2) by done.
  rewrite <-Chunks_shift. f_equal. lia.
Qed.

(** ** The fingerprint *)

Lemma wrap_u64_add a b : wrap_u64 (wrap_u64 a + b) = wrap_u64 (a + b).
Proof. unfold wrap_u64. by rewrite N.Div0.add_mod_idemp_l. Qed.

Lemma wrap_u64_idemp a : wrap_u64 (wrap_u64 a) = wrap_u64 a.
Proof. unfold wrap_u64. by rewrite N.Div0.mod_mod. Qed.

Lemma wrap_u64_mul_add a k s : wrap_u64 (wrap_u64 a * k + s) = wrap_u64 (a * k + s).
Proof.
  rewrite <-(wrap_u64_add (wrap_u64 a * k)), <-(wrap_u64_add (a * k)). f_equal. f_equal.
  unfold wrap_u64. apply N.Div0.mul_mod_idemp_l.
Qed.

Lemma roll_eq fp b : roll fp b = wrap_u64 (fp * 2 + gear b).
Proof. unfold roll. by rewrite wrap_u64_add, N.shiftl_mul_pow2. Qed.

(** Each byte doubles what came before it. *)
Lemma fold_roll ys :
  ∃ s, ∀ fp, wrap_u64 (foldl roll fp ys) = wrap_u64 (fp * 2 ^ N.of_nat (length ys) + s).
Proof.
  induction ys as [|b ys [s IH]].
  - exists 0%N. intros fp. simpl. f_equal. lia.
  - exists (gear b * 2 ^ N.of_nat (length ys) + s)%N. intros fp. cbn [foldl length].
    rewrite IH, roll_eq, wrap_u64_mul_add. f_equal. rewrite Nat2N.inj_succ, N.pow_succ_r'. lia.
Qed.

Lemma roll_window fp fp' ys : (64 ≤ length ys)%nat → foldl roll fp ys = foldl roll fp' ys.
Proof.
  intros Hlen. destruct (fold_roll ys) as [s Hs].
  assert (∀ x, foldl roll x ys = wrap_u64 s) as Hx; [|by rewrite !Hx].
  intros x. destruct ys as [|b ys] using rev_ind; [simpl in Hlen; lia|].
  transitivity (wrap_u64 (foldl roll x (ys ++ [b]))).
  - rewrite foldl_snoc, roll_eq. by rewrite wrap_u64_idemp.
  - rewrite Hs. replace (N.of_nat (length (ys ++ [b]))) with (N.of_nat (length (ys ++ [b]) - 64) + 64)%N by lia.
    rewrite N.pow_add_r, N.mul_assoc, N.add_comm. unfold wrap_u64. by rewrite N.Div0.mod_add.
Qed.

Lemma scan_app mask fp i w src :
  scan mask fp i (w ++ src) =
  match scan mask fp i w with
  | inl k => inl k
  | inr _ => scan mask (foldl roll fp w) (i + length w) src
  end.
Proof.
  revert fp i. induction w as [|b w IH]; intros fp i; simpl; [by rewrite Nat.add_0_r|].
  destruct (_ =? 0)%N; [done|]. rewrite IH. by rewrite Nat.add_succ_r.
Qed.

Lemma maskOf_testbit k i : (0 ≤ k ≤ 64)%Z →
  N.testbit (maskOf k) i = (Z.to_N (64 - k) <=? i)%N && (i <? 64)%N.
Proof.
  intros Hk. unfold maskOf, wrap_u64. set (m := Z.to_N (64 - k)).
  change MaxUint64 with (N.ones 64).
  destruct (N.ltb_spec i 64) as [Hi|Hi].
  - rewrite N.mod_pow2_bits_low by done. destruct (N.leb_spec m i) as [Hm|Hm].
    + rewrite N.shiftl_spec_high' by done. apply N.ones_spec_low. lia.
    + by rewrite N.shiftl_spec_low.
  - rewrite N.mod_pow2_bits_high by done. by rewrite andb_false_r.
Qed.

Lemma land_maskOf k fp :
  (0 ≤ k ≤ 64)%Z → is_u64 fp → N.land fp (maskOf k) = 0%N ↔ (fp < 2 ^ Z.to_N (64 - k))%N.
Proof.
  intros Hk Hfp. set (m := Z.to_N (64 - k)). split; intros H0.
  - assert (fp = fp mod 2 ^ m)%N as ->; [|apply N.mod_lt; lia].
    apply N.bits_inj. intros i. destruct (N.ltb_spec i m) as [Hi|Hi].
    + by rewrite N.mod_pow2_bits_low.
    + rewrite N.mod_pow2_bits_high by done. destruct (N.ltb_spec i 64) as [Hi'|Hi'].
      * apply (f_equal (λ z, N.testbit z i)) in H0. rewrite N.land_spec, N.bits_0 in H0.
        rewrite maskOf_testbit in H0 by done. fold m in H0.
        rewrite (proj2 (N.leb_le m i)), (proj2 (N.ltb_lt i 64)) in H0 by done.
        by rewrite andb_true_r in H0.
      * rewrite <-(N.mod_small fp (2 ^ 64)) by (unfold is_u64, MaxUint64 in Hfp; lia).
        by rewrite N.mod_pow2_bits_high.
  - apply N.bits_inj. intros i. rewrite N.land_spec, N.bits_0, maskOf_testbit by done. fold m.
    destruct (N.leb_spec m i) as [Hi|Hi]; [|by rewrite andb_false_r].
    rewrite <-(N.mod_small fp (2 ^ m)) by done. by rewrite N.mod_pow2_bits_high.
Qed.

(** Boundaries are local: the fingerprint after 64 bytes is a function of those bytes
    alone, since each byte shifts the ones before it out of the word, so two scans that
    pass the same 64 bytes without cutting cut the rest at the same place, whatever came
    before; and a mask of [k] bits cuts when the fingerprint is below [2^(64-k)]. *)
Theorem gear_window :
  (∀ fp fp' ys, (64 ≤ length ys)%nat → foldl roll fp ys = foldl roll fp' ys) ∧
  (∀ mask fp fp' i w src x x', (64 ≤ length w)%nat →
     scan mask fp i w = inr x → scan mask fp' i w = inr x' →
     scan mask fp i (w ++ src) = scan mask fp' i (w ++ src)) ∧
  (∀ k fp, (0 ≤ k ≤ 64)%Z → is_u64 fp →
     N.land fp (maskOf k) = 0%N ↔ (fp < 2 ^ Z.to_N (64 - k))%N).
Proof.
  split_and!; [exact roll_window| |exact land_maskOf].
  intros mask fp fp' i w src x x' Hw H1 H2. rewrite !scan_app, H1, H2.
  by rewrite (roll_window fp fp' w Hw).
Qed.

End chunks.

(** ** Witnesses *)

(** A digest: the last bytes, padded. *)
Definition ex_hash : HashEnv := λ bs, take 32 (rev bs ++ replicate 32 Byte.x2a).

(** A reader of a list that hands out at most three bytes a call. *)
Definition readUpTo (room : nat) : nat := 3 `min` room.

Definition ex_read : Reader (list byte) := λ l room,
  match l with [] => ([], EOF, []) | _ => (take (readUpTo room) l, NoErr, drop (readUpTo room) l) end.

Lemma ex_read_laws : @ReaderLaws (list byte) ex_read id.
Proof.
  intros l room bs err r' Hroom. unfold read, ex_read.
  destruct l as [|b l].
  - intros [= <- <- <-]. repeat split; simpl; lia.
  - intros [= <- <- <-].
    split; [rewrite length_take; unfold readUpTo; lia|]. split; [unfold id; by rewrite take_drop|].
    unfold readUpTo. destruct (3 `min` room)%nat eqn:E; [lia|done].
Qed.

Definition ex_cfg : Config := mkConfig 4 8 16.
Definition ex_bytes : list byte := String.list_byte_of_string "the quick brown fox jumps over the lazy dog".

Lemma chunking_streams_witness :
  ∃ k, New ex_bytes ex_cfg = Some k ∧
    @drain (list byte) ex_read ex_hash 50 k = Some (@Chunks ex_hash ex_cfg 0 ex_bytes, ErrEOF).
Proof.
  eexists. split; [reflexivity|].
  apply (@chunking_streams (list byte) ex_read id ex_read_laws ex_hash ex_cfg ex_bytes);
    [reflexivity|unfold id; simpl; lia].
Defined.

Lemma chunks_reassemble_witness :
  Forall (λ ch, Digest ch ≠ []) (@Chunks ex_hash ex_cfg 0 ex_bytes) ∧
  contiguous 0 (@Chunks ex_hash ex_cfg 0 ex_bytes).
Proof.
  split; [vm_compute; repeat constructor; discriminate|].
  exact (proj1 (@chunks_reassemble ex_hash ex_cfg 0 ex_bytes eq_refl)).
Defined.

(** Two streams that differ in their first bytes meet at the boundary before the last two
    chunks, which are then the same. *)
Lemma chunks_resync_witness :
  let whole := @Chunks ex_hash ex_cfg 0 ex_bytes in
  let edited := @Chunks ex_hash ex_cfg 0 (drop 4 ex_bytes) in
  length (drop 3 whole) = 2%nat ∧ drop 3 edited = shift (28 - 32)%Z <$> drop 3 whole.
Proof.
  split; [vm_compute; reflexivity|].
  apply (@chunks_resync ex_hash ex_cfg (take 32 ex_bytes) (take 28 (drop 4 ex_bytes)) (drop 32 ex_bytes)
    (take 3 (@Chunks ex_hash ex_cfg 0 ex_bytes)) (drop 3 (@Chunks ex_hash ex_cfg 0 ex_bytes))
    (take 3 (@Chunks ex_hash ex_cfg 0 (drop 4 ex_bytes)))); vm_compute; reflexivity.
Defined.
