(* ===== verification/Manifests.v ===== *)
(** * Manifests: the chunk sequence of a blob, and what a transfer reuses

    Models internal/storagefabric/manifests: building, digesting and validating a
    manifest (manifest.go), generating one from a stream (generate.go), the state of a
    blob's manifest (state.go), and the destination's plan of where each chunk comes
    from (plan.go).  A [hashing.Hash] is its digest bytes, the zero one has none; its
    text is the field of [HashText].  The error of an invalid configuration or chunk is
    its sentinel. *)

From S2P Require Import Prelude GoText Chunking.
From Stdlib Require Import Strings.Byte.

Abbreviation Hash := (list byte).

Definition zeroHash : Hash := [].
Definition IsZero (h : Hash) : bool := bool_decide (h = zeroHash).

(** [Hash.String] *)
Class HashText := Hash_String : Hash → string.

(** What the code relies on: texts tell hashes apart, and a computed hash is not zero. *)
Class HashLaws `{HashEnv, HashText} : Prop := {
  Hash_String_inj :: Inj (=) (=) Hash_String;
  hash_nonzero bs : hash bs ≠ zeroHash }.

(** ** The manifest *)

Definition AlgorithmFastCDC : string := "fastcdc".
Definition ThresholdBytes : Z := DefaultMax.

Inductive error :=
  | ErrMalformed | ErrInvalidConfig | ErrDigestMismatch
  | WholeObjectMismatch (expected actual : Hash) (size : Z)
  | ErrChunking (e : Err) | ErrContext.

Record Manifest := mkManifest {
  BlobHash : Hash; Algorithm : string; Params : Config; CoveredSize : Z;
  Digest : Hash; GeneratedAt : Z; Chunks : list Chunk }.

Definition ChunkCount (m : Manifest) : Z := Z.of_nat (length (Chunks m)).

(** The loop of [validateShape]: the offset the next chunk must have. *)
Fixpoint checkChunks (want : Z) (cs : list Chunk) : option Z :=
  match cs with
  | [] => Some want
  | c :: cs =>
      if negb (Offset c =? want)%Z then None
      else if (Length c <=? 0)%Z then None
      else if IsZero (Chunking.Digest c) then None
      else checkChunks (End c) cs
  end.

(** The error, or none. *)
Definition validateShape (m : Manifest) : option error :=
  if IsZero (BlobHash m) then Some ErrMalformed
  else if bool_decide (Algorithm m = "") then Some ErrMalformed
  else if negb (Validate (Params m)) then Some ErrMalformed
  else match checkChunks 0 (Chunks m) with
       | None => Some ErrMalformed
       | Some want => if negb (CoveredSize m =? want)%Z then Some ErrMalformed else None
       end.

(** ** The digest *)

(** A part is written with its length before it. *)
Definition write (p : string) : string :=
  (FormatInt (Z.of_nat (String.length p)) +:+ String ":" p)%string.
Definition num (n : Z) : string := write (FormatInt n).

Definition chunkText `{HashText} (c : Chunk) : string :=
  (num (Offset c) +:+ num (Length c) +:+ write (Hash_String (Chunking.Digest c)))%string.

Fixpoint chunksText `{HashText} (cs : list Chunk) : string :=
  match cs with [] => "" | c :: cs => (chunkText c +:+ chunksText cs)%string end.

(** What the hasher of [ComputeDigest] is fed. *)
Definition canonicalText `{HashText} (m : Manifest) : string :=
  (write "heyarr.chunk-manifest.v1" +:+ write (Hash_String (BlobHash m)) +:+ write (Algorithm m) +:+
   num (Min (Params m)) +:+ num (Avg (Params m)) +:+ num (Max (Params m)) +:+
   num (CoveredSize m) +:+ num (ChunkCount m) +:+ chunksText (Chunks m))%string.

Definition ComputeDigest `{HashEnv, HashText} (m : Manifest) : Hash :=
  hash (String.list_byte_of_string (canonicalText m)).

(** The error, or none. *)
Definition Manifest_Validate `{HashEnv, HashText} (m : Manifest) : option error :=
  match validateShape m with
  | Some e => Some e
  | None => if bool_decide (ComputeDigest m = Digest m) then None else Some ErrDigestMismatch
  end.

Definition Build `{HashEnv, HashText} (blobHash : Hash) (params : Config) (chunks : list Chunk) (at_ : Z) :
    error + Manifest :=
  let covered := match last chunks with Some c => End c | None => 0%Z end in
  let m := mkManifest blobHash AlgorithmFastCDC params covered zeroHash at_ chunks in
  match validateShape m with
  | Some e => inl e
  | None => inr (mkManifest blobHash AlgorithmFastCDC params covered (ComputeDigest m) at_ chunks)
  end.

Definition Covers (m : Manifest) (blobSize : Z) : bool := (CoveredSize m =? blobSize)%Z.

Definition sameParams (a b : Config) : bool :=
  (Min a =? Min b)%Z && (Avg a =? Avg b)%Z && (Max a =? Max b)%Z.

Definition ComparableWith (m other : Manifest) : bool :=
  bool_decide (Algorithm m = Algorithm other) && sameParams (Params m) (Params other).

(** ** The state of a blob's manifest *)

Abbreviation State := string.

Definition StatePresent : State := "present".
Definition StateNotRequired : State := "not_required".
Definition StateUndecided : State := "undecided".

Definition State_Valid (s : State) : bool :=
  bool_decide (s = StatePresent) || bool_decide (s = StateNotRequired) ||
  bool_decide (s = StateUndecided).

Definition HasManifest (s : State) : bool := bool_decide (s = StatePresent).

Definition ParseState (s : string) : option State := if State_Valid s then Some s else None.

(** ** Generation *)

(** [io.TeeReader(r, whole)]: a reader beside what it has passed on. *)
Record Tee (R : Type) := mkTee { inner : R; seen : list byte }.
Arguments mkTee {R}.
Arguments inner {R}.
Arguments seen {R}.

#[export] Instance teeRead {R} `{Reader R} : Reader (Tee R) := λ t room,
  let '(bs, e, rd) := read (inner t) room in (bs, e, mkTee rd (seen t ++ bs)).

Section generating.
Context {R : Type} `{Reader R, HashEnv, HashText}.

(** The loop of [Generate]; [ctx i] is whether the context is done at turn [i].  It ends
    with the chunks, the bytes they cover and the chunker, or with an error, or it is
    still running when the fuel is spent. *)
Fixpoint generateLoop (fuel : nat) (ctx : nat → bool) (i : nat) (k : Chunker (Tee R))
    (chunks : list Chunk) (rd : Z) : option (error + (list Chunk * Z * Chunker (Tee R))) :=
  match fuel with
  | O => None
  | S fuel =>
      if ctx i then Some (inl ErrContext)
      else match Next k with
           | (k, inl ErrEOF) => Some (inr (chunks, rd, k))
           | (k, inl e) => Some (inl (ErrChunking e))
           | (k, inr chunk) => generateLoop fuel ctx (S i) k (chunks ++ [chunk]) (rd + Length chunk)
           end
  end.

Definition Generate (fuel : nat) (ctx : nat → bool) (rd : R) (blob : Hash) (params : Config) (at_ : Z) :
    option (error + Manifest) :=
  if IsZero blob then Some (inl ErrMalformed)
  else match New (mkTee rd []) params with
       | None => Some (inl ErrInvalidConfig)
       | Some k =>
           match generateLoop fuel ctx 0 k [] 0 with
           | None => None
           | Some (inl e) => Some (inl e)
           | Some (inr (chunks, n, k)) =>
               let actual := hash (seen (r k)) in
               if bool_decide (actual = blob) then Some (Build blob params chunks at_)
               else Some (inl (WholeObjectMismatch blob actual n))
           end
       end.
End generating.

(** ** The local chunk index *)

Record LocalChunk := mkLocal { lDigest : Hash; lBlobHash : Hash; lOffset : Z; lLength : Z }.

Definition zeroLocal : LocalChunk := mkLocal zeroHash zeroHash 0 0.

Definition LocalChunks (m : Manifest) : list LocalChunk :=
  (λ c, mkLocal (Chunking.Digest c) (BlobHash m) (Offset c) (Length c)) <$> Chunks m.

(** ** The plan of a transfer *)

Abbreviation Availability := string.

Definition AvailabilityKept : Availability := "kept".
Definition AvailabilityLocal : Availability := "local".
Definition AvailabilityFetch : Availability := "fetch".

Definition Availability_Valid (a : Availability) : bool :=
  bool_decide (a = AvailabilityKept) || bool_decide (a = AvailabilityLocal) ||
  bool_decide (a = AvailabilityFetch).

Record PlanEntry := mkEntry {
  Index : Z; EntryChunk : Chunk; EntryAvailability : Availability; Donor : LocalChunk }.

Record Plan := mkPlan { PlanBlob : Hash; Entries : list PlanEntry }.

Record PlanStats := mkStats {
  ChunksKept : Z; ChunksLocal : Z; ChunksFetch : Z;
  BytesKept : Z; BytesLocal : Z; BytesFetch : Z }.

Definition addStats (s : PlanStats) (e : PlanEntry) : PlanStats :=
  let n := Length (EntryChunk e) in
  if bool_decide (EntryAvailability e = AvailabilityKept) then
    mkStats (ChunksKept s + 1) (ChunksLocal s) (ChunksFetch s)
      (wrap_i64 (BytesKept s + n)) (BytesLocal s) (BytesFetch s)
  else if bool_decide (EntryAvailability e = AvailabilityLocal) then
    mkStats (ChunksKept s) (ChunksLocal s + 1) (ChunksFetch s)
      (BytesKept s) (wrap_i64 (BytesLocal s + n)) (BytesFetch s)
  else if bool_decide (EntryAvailability e = AvailabilityFetch) then
    mkStats (ChunksKept s) (ChunksLocal s) (ChunksFetch s + 1)
      (BytesKept s) (BytesLocal s) (wrap_i64 (BytesFetch s + n))
  else s.

Definition Stats (p : Plan) : PlanStats := foldl addStats (mkStats 0 0 0 0 0 0) (Entries p).

Definition usable (c : Chunk) (cand : LocalChunk) : bool :=
  if negb (lLength cand =? Length c)%Z || (lOffset cand <? 0)%Z || IsZero (lBlobHash cand) then false
  else bool_decide (lDigest cand = Chunking.Digest c).

Fixpoint pickDonor (c : Chunk) (candidates : list LocalChunk) : option LocalChunk :=
  match candidates with
  | [] => None
  | cand :: candidates => if usable c cand then Some cand else pickDonor c candidates
  end.

Definition planEntry (kept : Z) (held : Hash → list LocalChunk) (i : nat) (c : Chunk) : PlanEntry :=
  if (Z.of_nat i <? kept)%Z then mkEntry (Z.of_nat i) c AvailabilityKept zeroLocal
  else match pickDonor c (held (Chunking.Digest c)) with
       | Some donor => mkEntry (Z.of_nat i) c AvailabilityLocal donor
       | None => mkEntry (Z.of_nat i) c AvailabilityFetch zeroLocal
       end.

(** [held] is the index, gathered: the candidates of a digest, none where it has no entry. *)
Definition PlanFor (m : Manifest) (keptChunks : Z) (held : Hash → list LocalChunk) : Plan :=
  let kept := if (keptChunks <? 0)%Z then 0%Z else keptChunks in
  let kept := if (ChunkCount m <? kept)%Z then ChunkCount m else kept in
  mkPlan (BlobHash m) (imap (planEntry kept held) (Chunks m)).

#[export] Instance Chunk_eq_dec : EqDecision Chunk.
Proof. solve_decision. Defined.

(** The checks of one entry of a plan against its chunk. *)
Definition entryMatches (i : nat) (e : PlanEntry) (c : Chunk) : bool :=
  (Index e =? Z.of_nat i)%Z && Availability_Valid (EntryAvailability e) && bool_decide (EntryChunk e = c).

Fixpoint entriesMatch (i : nat) (es : list PlanEntry) (cs : list Chunk) : bool :=
  match es, cs with
  | e :: es, c :: cs => entryMatches i e c && entriesMatch (S i) es cs
  | _, _ => true
  end.

(** Whether the error is nil. *)
Definition Plan_Validate (p : Plan) (m : Manifest) : bool :=
  if negb (bool_decide (PlanBlob p = BlobHash m)) then false
  else if negb (length (Entries p) =? length (Chunks m))%nat then false
  else entriesMatch 0 (Entries p) (Chunks m).
