(* ===== verification/ManifestSpec.v ===== *)
(** * ManifestSpec: the theorems of the chunk manifests

    The digest of a manifest binds everything it says; a valid manifest tiles its blob;
    generation from a stream yields the chunks of the whole; a plan follows its manifest. *)

From S2P Require Import Prelude GoText GoPath GoScan Chunking ChunkStream Manifests.
From Stdlib Require Import Strings.Byte.

(** ** The canonical text *)

Lemma append_inj (s1 s2 t1 t2 : string) :
  String.length s1 = String.length s2 → s1 +:+ t1 = s2 +:+ t2 → s1 = s2 ∧ t1 = t2.
Proof.
  revert s2. induction s1 as [|c s1 IH]; intros [|d s2] Hl Heq; try discriminate Hl.
  - by split.
  - injection Hl as Hl. change (String c (s1 +:+ t1) = String d (s2 +:+ t2)) in Heq.
    injection Heq as -> Ht. by destruct (IH s2 Hl Ht) as [-> ->].
Qed.

Lemma append_assoc' (s t u : string) : (s +:+ t) +:+ u = s +:+ t +:+ u.
Proof.
  induction s as [|c s IH]; [done|].
  change (String c ((s +:+ t) +:+ u) = String c (s +:+ t +:+ u)). by rewrite IH.
Qed.

Lemma FormatInt_inj m n : FormatInt m = FormatInt n → m = n.
Proof. apply pretty_Z_inj. Qed.

(** A part carries its own end. *)
Lemma write_inj p q s t : write p +:+ s = write q +:+ t → p = q ∧ s = t.
Proof.
  unfold write. rewrite !append_assoc'. intros Heq.
  assert (∀ x u, Cut ":" (FormatInt x +:+ String ":" u) = Some (FormatInt x, u)) as Hcut
    by (intros; apply Cut_app; by apply has_byte_FormatInt).
  apply (f_equal (Cut ":")) in Heq.
  change (String ":" p +:+ s) with (String ":" (p +:+ s)) in Heq.
  change (String ":" q +:+ t) with (String ":" (q +:+ t)) in Heq.
  rewrite !Hcut in Heq. injection Heq as Hl Heq. apply FormatInt_inj in Hl.
  apply append_inj in Heq; [done|lia].
Qed.

Lemma num_inj m n s t : num m +:+ s = num n +:+ t → m = n ∧ s = t.
Proof. intros [Hn ->]%write_inj. split; [by apply FormatInt_inj|done]. Qed.

Section digest.
Context `{HashEnv, HashText, !HashLaws}.

Lemma chunkText_inj c d s t : chunkText c +:+ s = chunkText d +:+ t → c = d ∧ s = t.
Proof.
  unfold chunkText. rewrite !append_assoc'. intros [Ho Heq]%num_inj.
  apply num_inj in Heq as [Hl [Hd ->]%write_inj].
  apply (inj Hash_String) in Hd. split; [|done]. destruct c, d; simpl in *; by subst.
Qed.

Lemma chunksText_inj cs ds : length cs = length ds → chunksText cs = chunksText ds → cs = ds.
Proof.
  revert ds. induction cs as [|c cs IH]; intros [|d ds]; try done. intros [= Hl].
  cbn [chunksText]. intros [-> Heq]%chunkText_inj. f_equal. by apply IH.
Qed.

(** What the digest is of determines every field but the time and the digest. *)
Lemma canonicalText_inj m m' :
  canonicalText m = canonicalText m' →
  BlobHash m = BlobHash m' ∧ Algorithm m = Algorithm m' ∧ Params m = Params m' ∧
  CoveredSize m = CoveredSize m' ∧ Chunks m = Chunks m'.
Proof.
  unfold canonicalText. intros [_ Heq]%write_inj.
  apply write_inj in Heq as [Hb Heq]. apply write_inj in Heq as [Ha Heq].
  apply num_inj in Heq as [Hmin Heq]. apply num_inj in Heq as [Havg Heq].
  apply num_inj in Heq as [Hmax Heq]. apply num_inj in Heq as [Hc Heq].
  apply num_inj in Heq as [Hn Heq]. split_and!; [by apply (inj Hash_String)|done| |done|].
  - destruct (Params m), (Params m'); simpl in *; by subst.
  - apply chunksText_inj; [|done]. unfold ChunkCount in Hn. lia.
Qed.

Lemma list_byte_of_string_inj s t : String.list_byte_of_string s = String.list_byte_of_string t → s = t.
Proof.
  intros Heq. rewrite <-(String.string_of_list_byte_of_string s), Heq.
  apply String.string_of_list_byte_of_string.
Qed.

(** What a manifest says but for when it was made and the digest it carries. *)
Definition describesSame (m m' : Manifest) : Prop :=
  BlobHash m = BlobHash m' ∧ Algorithm m = Algorithm m' ∧ Params m = Params m' ∧
  CoveredSize m = CoveredSize m' ∧ Chunks m = Chunks m'.

Lemma canonicalText_same m m' : canonicalText m = canonicalText m' ↔ describesSame m m'.
Proof.
  split; [apply canonicalText_inj|]. intros (Hb & Ha & Hp & Hs & Hc). unfold canonicalText, ChunkCount.
  by rewrite Hb, Ha, Hp, Hs, Hc.
Qed.

(** C34. A manifest cannot be tampered with under its digest: two manifests that validate carry
    the same digest exactly when they describe the same blob with the same chunker,
    parameters, size and sequence of chunks, or when the two texts their digests are taken
    of differ and collide under the hash.  In particular a swapped, dropped or reordered
    chunk changes the digest, unless those two texts collide. *)
Theorem manifest_digest_binds (m m' : Manifest) :
  Manifest_Validate m = None → Manifest_Validate m' = None →
  Digest m = Digest m' ↔
  describesSame m m' ∨
  (canonicalText m ≠ canonicalText m' ∧
   hash (String.list_byte_of_string (canonicalText m)) = hash (String.list_byte_of_string (canonicalText m'))).
Proof.
  unfold Manifest_Validate. destruct (validateShape m); [done|]. destruct (validateShape m'); [done|].
  case_bool_decide as Hd; [|done]. case_bool_decide as Hd'; [|done]. intros _ _.
  rewrite <-canonicalText_same. unfold ComputeDigest in *.
  split.
  - intros He. destruct (decide (canonicalText m = canonicalText m')); [by left|right]. split; [done|congruence].
  - intros [He|[_ He]]; congruence.
Qed.

End digest.

(** ** The shape *)

(** A chunk of something: it has bytes, and their digest. *)
Definition sound_chunk (c : Chunk) : Prop := (0 < Length c)%Z ∧ Chunking.Digest c ≠ zeroHash.

Lemma covered_nonneg cs : Forall sound_chunk cs → (0 ≤ covered cs)%Z.
Proof. induction 1 as [|c cs [Hl _] _ IH]; simpl; lia. Qed.

(** The loop accepts exactly the sequences that tile, while the offsets stay in the word. *)
Lemma checkChunks_spec want cs w :
  (0 ≤ want)%Z → (want + covered cs < 2 ^ 63)%Z →
  checkChunks want cs = Some w ↔ contiguous want cs ∧ Forall sound_chunk cs ∧ w = (want + covered cs)%Z.
Proof.
  revert want. induction cs as [|c cs IH]; intros want Hw Hs; cbn [checkChunks contiguous covered foldr] in *.
  { rewrite Z.add_0_r. split; [intros [= ->]; by repeat constructor|]. by intros (_ & _ & ->). }
  fold (covered cs) in *.
  destruct (Z.eqb_spec (Offset c) want) as [Ho|Ho]; cbn [negb]; [|naive_solver].
  destruct (Z.leb_spec (Length c) 0) as [Hl|Hl].
  { split; [done|]. intros (_ & Hf & _). apply Forall_cons in Hf as [[Hc _] _]. lia. }
  unfold IsZero. case_bool_decide as Hz.
  { split; [done|]. intros (_ & Hf & _). apply Forall_cons in Hf as [[_ Hc] _]. done. }
  assert (∀ w', checkChunks (End c) cs = Some w' → (0 ≤ covered cs)%Z) as Hnn.
  { intros w'. generalize (End c). clear. induction cs as [|d cs IH]; intros e; simpl; [lia|].
    repeat case_match; try done. intros Hc. apply IH in Hc. rewrite Z.leb_gt in *. fold (covered cs). lia. }
  split.
  - intros Hc. specialize (Hnn _ Hc). unfold End in Hc. rewrite Ho, wrap_i64_small in Hc by lia.
    apply IH in Hc as (Hct & Hall & ->); [|lia..]. split_and!; [done|done|by constructor|lia].
  - intros ([_ Hct] & Hall & ->). apply Forall_cons in Hall as [_ Hall].
    pose proof (covered_nonneg _ Hall). unfold End. rewrite Ho, wrap_i64_small by lia.
    apply IH; [lia..|]. split_and!; [done|done|lia].
Qed.

Lemma manifest_shape_ok (m : Manifest) :
  (covered (Chunks m) < 2 ^ 63)%Z →
  validateShape m = None ↔
  BlobHash m ≠ zeroHash ∧ Algorithm m ≠ "" ∧ Validate (Params m) = true ∧
  contiguous 0 (Chunks m) ∧ Forall sound_chunk (Chunks m) ∧ CoveredSize m = covered (Chunks m).
Proof.
  intros Hs. unfold validateShape, IsZero. repeat case_bool_decide; [naive_solver..|].
  destruct (Validate (Params m)); cbn [negb]; [|naive_solver].
  pose proof (checkChunks_spec 0 (Chunks m)) as Hc.
  destruct (checkChunks 0 (Chunks m)) as [w|] eqn:Hw.
  - destruct (proj1 (Hc w ltac:(lia) ltac:(lia)) eq_refl) as (Hct & Hall & ->). rewrite Z.add_0_l.
    destruct (Z.eqb_spec (CoveredSize m) (covered (Chunks m))); cbn [negb]; naive_solver.
  - split; [done|]. intros (_ & _ & _ & Hct & Hall & _).
    destruct (Hc (0 + covered (Chunks m))%Z ltac:(lia) ltac:(lia)) as [_ Hback].
    by specialize (Hback (conj Hct (conj Hall eq_refl))).
Qed.

(** A manifest of the right shape describes a byte sequence: its chunks start at 0, follow
    one another with no gap and no overlap, none is empty, and they end at the covered size;
    and every manifest that does so, names a blob and a chunker and has workable parameters
    is of the right shape.  This is for lengths whose sum stays below 2^63. *)
Theorem manifest_shape_spec (m : Manifest) :
  (covered (Chunks m) < 2 ^ 63)%Z →
  validateShape m = None ↔
  BlobHash m ≠ zeroHash ∧ Algorithm m ≠ "" ∧ Validate (Params m) = true ∧
  contiguous 0 (Chunks m) ∧ Forall sound_chunk (Chunks m) ∧ CoveredSize m = covered (Chunks m).
Proof. exact (manifest_shape_ok m). Qed.

(** The condition is needed: the end of a chunk is computed in 64 bits, so lengths that
    add up to more than 2^63 can pass the checks with chunks that overlap, one of them at a
    negative offset, and the manifest covers a blob of three bytes. *)
Theorem manifest_overflow_accepted :
  ∃ m, validateShape m = None ∧ Covers m 3 = true ∧ ¬ contiguous 0 (Chunks m) ∧
    ∃ c, c ∈ Chunks m ∧ (Offset c < 0)%Z.
Proof.
  exists (mkManifest [x01] AlgorithmFastCDC DefaultConfig 3 [] 0
    [mkChunk 0 (2 ^ 63 - 1) [x01]; mkChunk (2 ^ 63 - 1) (2 ^ 63 - 1) [x01]; mkChunk (-2) 5 [x01]]).
  split_and!; [vm_compute; reflexivity|vm_compute; reflexivity|cbn; lia|].
  exists (mkChunk (-2) 5 [x01]). split; [set_solver|done].
Qed.

(** ** Building *)

Section building.
Context `{HashEnv, HashText, !HashLaws}.

Lemma contiguous_end at_ cs c :
  contiguous at_ cs → last cs = Some c → (Offset c + Length c = at_ + covered cs)%Z.
Proof.
  revert at_. induction cs as [|d cs IH]; intros at_; [done|]. intros [Ho Hc] Hl.
  destruct cs as [|e cs]; [injection Hl as <-; simpl; lia|].
  specialize (IH _ Hc Hl). cbn [covered foldr] in *. lia.
Qed.

(** A manifest of chunks that tile a blob. *)
Lemma Build_spec blob params cs at_ :
  blob ≠ zeroHash → Validate params = true → contiguous 0 cs → Forall sound_chunk cs →
  (covered cs < 2 ^ 63)%Z →
  ∃ m, Build blob params cs at_ = inr m ∧ Manifest_Validate m = None ∧ BlobHash m = blob ∧
    Params m = params ∧ Chunks m = cs ∧ CoveredSize m = covered cs ∧ GeneratedAt m = at_.
Proof.
  intros Hb Hv Hct Hall Hs.
  assert (match last cs with Some c => End c | None => 0%Z end = covered cs) as Hcov.
  { destruct (last cs) as [c|] eqn:Hl.
    - pose proof (contiguous_end 0 cs c Hct Hl) as He. pose proof (covered_nonneg _ Hall).
      unfold End. rewrite wrap_i64_small; lia.
    - apply last_None in Hl as ->. done. }
  assert (∀ d, validateShape (mkManifest blob AlgorithmFastCDC params (covered cs) d at_ cs) = None) as Hshape.
  { intros d. apply manifest_shape_ok; simpl; [done|]. by split_and!. }
  unfold Build. rewrite Hcov, Hshape. eexists. split; [done|].
  unfold Manifest_Validate. rewrite Hshape. split_and!; try done.
  rewrite bool_decide_true; done.
Qed.

End building.

(** ** Generation *)

Section generation.
Context {R : Type} `{Hrd : Reader R} (contents : R → list byte) `{!ReaderLaws R contents}.
Context `{HashEnv, HashText, !HashLaws}.

Definition tee_contents (t : Tee R) : list byte := contents (inner t).

#[export] Instance tee_laws : ReaderLaws (Tee R) tee_contents.
Proof.
  intros t room bs e t' Hroom. unfold read, teeRead.
  destruct (read (inner t) room) as [[bs' e'] rd] eqn:Hr. intros [= <- <- <-].
  exact (read_law (inner t) room bs' e' rd Hroom Hr).
Qed.

(** The bytes passed on, and those to come, are the whole. *)
Definition whole (all : list byte) (t : Tee R) : Prop := seen t ++ tee_contents t = all.

Lemma whole_read all t room bs e t' :
  (0 < room)%nat → whole all t → read t room = (bs, e, t') → whole all t'.
Proof.
  intros Hroom Hw Hr. destruct (read_law (contents := tee_contents) t room bs e t' Hroom Hr) as (_ & Hc & _).
  unfold whole in *. rewrite <-Hw, Hc. unfold read, teeRead in Hr.
  destruct (read (inner t) room) as [[bs' e'] rd]. injection Hr as <- <- <-. cbn [seen].
  by rewrite app_assoc.
Qed.

(** The loop: the chunks of what is pending, unless the context is done at a turn. *)
Lemma generateLoop_spec all fuel ctx i (k : Chunker (Tee R)) chunks rd :
  running k → err k = None → ended tee_contents k → whole all (r k) →
  (length (pending tee_contents k) < fuel)%nat →
  let cs := chunksOf (length (pending tee_contents k)) (cfg k) (maskS k) (maskL k) (offset k)
              (pending tee_contents k) in
  if existsb ctx (seq i (S (length cs)))
  then generateLoop fuel ctx i k chunks rd = Some (inl ErrContext)
  else ∃ k', generateLoop fuel ctx i k chunks rd = Some (inr (chunks ++ cs, (rd + covered cs)%Z, k')) ∧
         seen (r k') = all.
Proof.
  revert i k chunks rd. induction fuel as [|fuel IH]; intros i k chunks rd Hrun Herr Hend Hw Hf; [lia|].
  cbv zeta. cbn [generateLoop]. rewrite seq_S_head. cbn [existsb]. destruct (ctx i); [done|]. cbn [orb].
  pose proof (Next_spec tee_contents k Hrun Herr) as HN.
  pose proof (Next_ended tee_contents k Hrun Herr Hend) as He.
  pose proof (Next_reader (whole all) k (whole_read all) Hw) as Hr.
  destruct (pending tee_contents k) as [|b bs] eqn:Hp.
  - destruct (Next k) as [k' res]. cbn [fst snd] in *. subst res. cbn [chunksOf length].
    exists k'. cbn [covered foldr]. rewrite app_nil_r, Z.add_0_r. split; [done|].
    unfold whole in Hr. by rewrite He, app_nil_r in Hr.
  - cbv zeta in HN. destruct (Next k) as [k' res]. cbn [fst] in Hr.
    destruct HN as (-> & Hrun' & Herr' & Hc & HS & HL & Ho & Hp').
    destruct (cut_bounds (cfg k) (maskS k) (maskL k) (b :: bs) (run_valid _ Hrun)) as ([Hlo Hhi] & _); [done|].
    set (len := cut _ _ _ _) in *. set (ch := mkChunk _ _ _).
    assert (length (pending tee_contents k') < S (length bs))%nat as Hlen
      by (rewrite Hp', length_drop; cbn [length] in *; lia).
    cbn [length] in Hf.
    specialize (IH (S i) k' (chunks ++ [ch]) (rd + Length ch)%Z Hrun' Herr' He Hr ltac:(lia)).
    cbv zeta in IH. rewrite Hc, HS, HL, Ho in IH.
    rewrite (chunksOf_fuel _ (length bs)) in IH by (apply (run_valid _ Hrun) || lia).
    assert (chunksOf (length (b :: bs)) (cfg k) (maskS k) (maskL k) (offset k) (b :: bs) =
      ch :: chunksOf (length bs) (cfg k) (maskS k) (maskL k) (offset k + Z.of_nat len)
              (pending tee_contents k')) as -> by (rewrite Hp'; done).
    cbn [length]. destruct (existsb _ _); [done|]. destruct IH as (k'' & Hg & Hs). exists k''.
    split; [|done]. rewrite Hg, <-app_assoc. cbn [covered foldr app]. do 4 f_equal. fold covered.
    unfold covered. lia.
Qed.

(** C33. Generating a manifest reads a stream once and gives, when its bytes hash to the blob
    asked for, a valid manifest of exactly the chunks of the whole, which covers it; when
    they do not, nothing but the mismatch; and a context that is done at one of its turns
    stops it there.  More turns than bytes are always enough. *)
Theorem generate_spec (fuel : nat) (ctx : nat → bool) (rd : R) (blob : list byte) (params : Config) (at_ : Z) :
  (Z.of_nat (length (contents rd)) < 2 ^ 63)%Z → (length (contents rd) < fuel)%nat →
  let cs := Chunking.Chunks params 0 (contents rd) in
  let res := Generate fuel ctx rd blob params at_ in
  if IsZero blob then res = Some (inl ErrMalformed)
  else if negb (Validate params) then res = Some (inl ErrInvalidConfig)
  else if existsb ctx (seq 0 (S (length cs))) then res = Some (inl ErrContext)
  else if decide (hash (contents rd) = blob) then
    ∃ m, res = Some (inr m) ∧ Manifest_Validate m = None ∧ BlobHash m = blob ∧ Params m = params ∧
      Manifests.Chunks m = cs ∧ Covers m (Z.of_nat (length (contents rd))) = true
  else res = Some (inl (WholeObjectMismatch blob (hash (contents rd)) (Z.of_nat (length (contents rd))))).
Proof.
  intros Hs Hf. cbv zeta. unfold Generate. destruct (IsZero blob) eqn:Hz; [done|].
  unfold New. destruct (Validate params) eqn:Hv; [|done]. cbn [negb].
  set (k := mkChunker _ _ _ _ _ _ _ _ _ _).
  pose proof (proj1 (Config_Validate_iff params) Hv) as (Hm & Hm' & _).
  assert (running k) as Hrun.
  { constructor; cbn [k cfg buf off n]; [done| |lia]. rewrite length_replicate. unfold readSize. lia. }
  assert (pending tee_contents k = contents rd) as Hp.
  { unfold pending, window, k. cbn [buf off n eof r]. by rewrite slice_0. }
  pose proof (generateLoop_spec (contents rd) fuel ctx 0 k [] 0 Hrun eq_refl) as Hg.
  rewrite Hp in Hg. specialize (Hg (λ H, match Bool.diff_false_true H with end) eq_refl Hf). cbv zeta in Hg.
  change (chunksOf _ (cfg k) _ _ _ _) with (Chunking.Chunks params 0 (contents rd)) in Hg.
  destruct (existsb ctx _); [by rewrite Hg|]. destruct Hg as (k' & -> & ->). cbn [app].
  pose proof (Chunks_parts params 0 (contents rd) Hv) as Hparts. cbv zeta in Hparts.
  set (cs := Chunking.Chunks params 0 (contents rd)) in *.
  destruct Hparts as (Hct & (parts & Hcat & Hall) & Hbnd).
  assert (covered cs = Z.of_nat (length (contents rd))) as Hcov.
  { rewrite <-Hcat. clear -Hall. induction Hall as [|p ch ps cs [Hl _] _ IH]; [done|].
    cbn [covered foldr concat]. fold (covered cs). rewrite IH, Hl, length_app. lia. }
  destruct (decide (hash (contents rd) = blob)) as [He|He].
  2:{ rewrite bool_decide_false by done. by rewrite Hcov. }
  rewrite bool_decide_true by done.
  destruct (Build_spec blob params cs at_) as (m & -> & Hval & Hb & Hpar & Hcs & Hc & _).
  - by apply bool_decide_eq_false in Hz.
  - done.
  - done.
  - apply Forall_lookup. intros i ch Hi. split; [by apply (Hbnd i ch Hi)|].
    destruct (Forall2_lookup_r _ _ _ _ _ Hall Hi) as (p & _ & _ & ->). apply hash_nonzero.
  - lia.
  - exists m. split_and!; try done. unfold Covers. rewrite Hc. by apply Z.eqb_eq.
Qed.

End generation.

(** ** Plans *)

Lemma pickDonor_spec c cands :
  match pickDonor c cands with
  | Some d => d ∈ cands ∧ usable c d = true
  | None => Forall (λ d, usable c d = false) cands
  end.
Proof.
  induction cands as [|d cands IH]; cbn [pickDonor]; [constructor|].
  destruct (usable c d) eqn:Hu; [split; [left|done]|].
  destruct (pickDonor c cands) as [d'|]; [|by constructor]. destruct IH. split; [by right|done].
Qed.

Lemma usable_spec c d :
  usable c d = true ↔
  lDigest d = Chunking.Digest c ∧ lLength d = Length c ∧ (0 ≤ lOffset d)%Z ∧ lBlobHash d ≠ zeroHash.
Proof.
  unfold usable, IsZero. destruct (Z.eqb_spec (lLength d) (Length c)); cbn [negb orb]; [|naive_solver].
  destruct (Z.ltb_spec (lOffset d) 0); cbn [orb]; [naive_solver lia|].
  repeat case_bool_decide; naive_solver.
Qed.

(** Where an entry of a plan says its chunk comes from. *)
Definition entry_ok (kept : Z) (held : Hash → list LocalChunk) (i : nat) (e : PlanEntry) : Prop :=
  let c := EntryChunk e in
  Index e = Z.of_nat i ∧
  if (Z.of_nat i <? kept)%Z then EntryAvailability e = AvailabilityKept
  else
    (EntryAvailability e = AvailabilityLocal ∧ Donor e ∈ held (Chunking.Digest c) ∧
     lDigest (Donor e) = Chunking.Digest c ∧ lLength (Donor e) = Length c ∧
     (0 ≤ lOffset (Donor e))%Z ∧ lBlobHash (Donor e) ≠ zeroHash) ∨
    (EntryAvailability e = AvailabilityFetch ∧
     Forall (λ d, usable c d = false) (held (Chunking.Digest c))).

Lemma planEntry_spec kept held i c :
  EntryChunk (planEntry kept held i c) = c ∧ entry_ok kept held i (planEntry kept held i c).
Proof.
  unfold planEntry, entry_ok. destruct (Z.of_nat i <? kept)%Z; [done|].
  pose proof (pickDonor_spec c (held (Chunking.Digest c))) as Hp.
  destruct (pickDonor c _) as [d|]; cbn [EntryChunk EntryAvailability Donor Index].
  - destruct Hp as [Hin (Hd & Hl & Ho & Hz)%usable_spec]. split_and!; [done|done|by left].
  - split_and!; [done|done|by right].
Qed.

Lemma entriesMatch_spec i es cs :
  length es = length cs →
  entriesMatch i es cs = true ↔
  EntryChunk <$> es = cs ∧
  ∀ j e, es !! j = Some e → Index e = Z.of_nat (i + j) ∧ Availability_Valid (EntryAvailability e) = true.
Proof.
  revert i cs. induction es as [|e es IH]; intros i [|c cs]; [naive_solver|done|done|]. intros [= Hl].
  cbn [entriesMatch fmap list_fmap]. unfold entryMatches.
  rewrite !andb_true_iff, Z.eqb_eq, bool_decide_eq_true, IH by done. split.
  - intros [[[Hi Hv] ->] [-> Hr]]. split; [done|]. intros [|j] e'; simpl.
    + intros [= <-]. by rewrite Nat.add_0_r.
    + rewrite Nat.add_succ_r. apply Hr.
  - intros [[= -> ->] Hr]. destruct (Hr 0%nat e eq_refl) as [Hi Hv]. rewrite Nat.add_0_r in Hi.
    split_and!; try done. intros j e' Hj. rewrite Nat.add_succ_comm. by apply (Hr (S j)).
Qed.

Lemma Stats_total es s :
  Forall (λ e, Availability_Valid (EntryAvailability e) = true) es →
  Forall sound_chunk (EntryChunk <$> es) →
  (0 ≤ BytesKept s)%Z → (0 ≤ BytesLocal s)%Z → (0 ≤ BytesFetch s)%Z →
  (BytesKept s + BytesLocal s + BytesFetch s + covered (EntryChunk <$> es) < 2 ^ 63)%Z →
  let s' := foldl addStats s es in
  (ChunksKept s' + ChunksLocal s' + ChunksFetch s' =
     ChunksKept s + ChunksLocal s + ChunksFetch s + Z.of_nat (length es))%Z ∧
  (BytesKept s' + BytesLocal s' + BytesFetch s' =
     BytesKept s + BytesLocal s + BytesFetch s + covered (EntryChunk <$> es))%Z.
Proof.
  revert s. induction es as [|e es IH]; intros s Hv Hall Hk Hl Hf Hs.
  { cbn [foldl fmap list_fmap covered foldr length]. lia. }
  apply Forall_cons in Hv as [Hve Hv]. cbn [fmap list_fmap] in Hall, Hs.
  apply Forall_cons in Hall as [[Hpos _] Hall]. pose proof (covered_nonneg _ Hall) as Hnn.
  cbn [covered foldr] in Hs. fold (covered (EntryChunk <$> es)) in Hs.
  cbn [foldl fmap list_fmap covered foldr length]. fold (covered (EntryChunk <$> es)).
  unfold fmap in *. cbv zeta in *.
  assert (∃ s', addStats s e = s' ∧ (0 ≤ BytesKept s')%Z ∧ (0 ≤ BytesLocal s')%Z ∧ (0 ≤ BytesFetch s')%Z ∧
    (ChunksKept s' + ChunksLocal s' + ChunksFetch s' = ChunksKept s + ChunksLocal s + ChunksFetch s + 1)%Z ∧
    (BytesKept s' + BytesLocal s' + BytesFetch s' =
       BytesKept s + BytesLocal s + BytesFetch s + Length (EntryChunk e))%Z) as (s' & -> & Hs').
  { eexists. split; [reflexivity|]. unfold addStats, Availability_Valid in *.
    repeat case_bool_decide; try done;
      cbn [ChunksKept ChunksLocal ChunksFetch BytesKept BytesLocal BytesFetch];
      rewrite wrap_i64_small by lia; lia. }
  destruct (IH s') as [Hc Hb]; [done|done|lia..|]. rewrite Hc, Hb. lia.
Qed.

Lemma Plan_Validate_iff p m :
  Plan_Validate p m = true ↔
  PlanBlob p = BlobHash m ∧ EntryChunk <$> Entries p = Chunks m ∧
  ∀ i e, Entries p !! i = Some e → Index e = Z.of_nat i ∧ Availability_Valid (EntryAvailability e) = true.
Proof.
  unfold Plan_Validate. case_bool_decide as Hb; cbn [negb]; [|naive_solver].
  destruct (Nat.eqb_spec (length (Entries p)) (length (Chunks m))) as [Hl|Hl]; cbn [negb].
  - rewrite entriesMatch_spec by done. naive_solver.
  - split; [done|]. intros (_ & Hc & _). destruct Hl. by rewrite <-Hc, length_fmap.
Qed.

Lemma entry_ok_valid kept held i e :
  entry_ok kept held i e → Availability_Valid (EntryAvailability e) = true.
Proof. intros [_ Ha]. case_match; [by rewrite Ha|]. by destruct Ha as [(-> & _)|(-> & _)]. Qed.

Lemma PlanFor_spec m kept held :
  let p := PlanFor m kept held in
  PlanBlob p = BlobHash m ∧ EntryChunk <$> Entries p = Chunks m ∧ Plan_Validate p m = true ∧
  (∀ i e, Entries p !! i = Some e → entry_ok kept held i e).
Proof.
  cbv zeta.
  set (k0 := if (kept <? 0)%Z then 0%Z else kept).
  set (k := if (ChunkCount m <? k0)%Z then ChunkCount m else k0).
  assert (Entries (PlanFor m kept held) = imap (planEntry k held) (Chunks m)) as He by done.
  assert (EntryChunk <$> Entries (PlanFor m kept held) = Chunks m) as Hcs.
  { rewrite He. apply list_eq. intros i. rewrite list_lookup_fmap, list_lookup_imap.
    destruct (Chunks m !! i); simpl; [|done]. by rewrite (proj1 (planEntry_spec _ _ _ _)). }
  assert (∀ i e, Entries (PlanFor m kept held) !! i = Some e → entry_ok kept held i e) as Hok.
  { intros i e. rewrite He, list_lookup_imap. intros (c & Hc & ->)%fmap_Some.
    destruct (planEntry_spec k held i c) as [_ Hp]. apply lookup_lt_Some in Hc.
    assert ((Z.of_nat i <? k) = (Z.of_nat i <? kept))%Z as Hk.
    { unfold k, k0, ChunkCount. destruct (Z.ltb_spec kept 0), (Z.ltb_spec (Z.of_nat (length (Chunks m))) kept);
        repeat case_match; lia. }
    unfold entry_ok in *. by rewrite <-Hk. }
  split_and!; [done|done| |done]. apply Plan_Validate_iff. split_and!; [done|done|].
  intros i e Hi. specialize (Hok i e Hi). split; [apply Hok|by eapply entry_ok_valid].
Qed.

(** The plan of a transfer follows its manifest chunk by chunk, in order: a chunk is kept
    when it is in the verified prefix, taken from a local donor only when the index holds
    one with its digest and length at a possible place, and fetched otherwise; such a plan
    passes its own check, and the check accepts nothing but the chunks of the manifest at
    their positions.  The totals count every chunk and every byte of the blob once. *)
Theorem plan_spec :
  (∀ m kept held, let p := PlanFor m kept held in
     PlanBlob p = BlobHash m ∧ EntryChunk <$> Entries p = Chunks m ∧ Plan_Validate p m = true ∧
     (∀ i e, Entries p !! i = Some e → entry_ok kept held i e) ∧
     (Forall sound_chunk (Chunks m) → (covered (Chunks m) < 2 ^ 63)%Z →
      let s := Stats p in
      (ChunksKept s + ChunksLocal s + ChunksFetch s = ChunkCount m)%Z ∧
      (BytesKept s + BytesLocal s + BytesFetch s = covered (Chunks m))%Z)) ∧
  (∀ p m, Plan_Validate p m = true ↔
     PlanBlob p = BlobHash m ∧ EntryChunk <$> Entries p = Chunks m ∧
     ∀ i e, Entries p !! i = Some e → Index e = Z.of_nat i ∧ Availability_Valid (EntryAvailability e) = true).
Proof.
  split; [|exact Plan_Validate_iff]. intros m kept held.
  destruct (PlanFor_spec m kept held) as (Hb & Hcs & Hv & Hok). split_and!; [done..|].
  intros Hall Hs. rewrite <-Hcs in Hall, Hs. unfold ChunkCount. rewrite <-Hcs at 1. rewrite <-Hcs.
  unfold Stats. rewrite length_fmap.
  pose proof (Stats_total (Entries (PlanFor m kept held)) (mkStats 0 0 0 0 0 0)) as Ht.
  cbn [ChunksKept ChunksLocal ChunksFetch BytesKept BytesLocal BytesFetch] in Ht.
  destruct Ht as [Hc Hbt]; [|done|lia..|split; lia].
  apply Forall_lookup. intros i e Hi. by eapply entry_ok_valid, Hok.
Qed.

(** ** Witnesses *)

(** The text of a hash is its bytes. *)
Definition ex_text : HashText := String.string_of_list_byte.

Lemma ex_laws : @HashLaws ex_hash ex_text.
Proof.
  constructor.
  - intros a b Heq. unfold Hash_String, ex_text in Heq.
    by rewrite <-(String.list_byte_of_string_of_list_byte a), Heq, String.list_byte_of_string_of_list_byte.
  - intros bs. unfold hash, ex_hash, zeroHash. destruct (rev bs) as [|b l]; simpl; done.
Qed.

Definition ex_blob : Hash := @hash ex_hash ex_bytes.

Definition ex_manifest : Manifest :=
  match @Build ex_hash ex_text ex_blob ex_cfg (@Chunking.Chunks ex_hash ex_cfg 0 ex_bytes) 7 with
  | inr m => m
  | inl _ => mkManifest [] "" ex_cfg 0 [] 0 []
  end.

(** A hash that has no collision, and a manifest under it of two chunks, by their digests. *)
Definition ex_free : HashEnv := λ bs, x01 :: bs.
Definition ex_pair (a b : Hash) : Manifest :=
  match @Build ex_free ex_text [x05] ex_cfg [mkChunk 0 9 a; mkChunk 9 9 b] 7 with
  | inr m => m
  | inl _ => mkManifest [] "" ex_cfg 0 [] 0 []
  end.

Lemma ex_free_laws : @HashLaws ex_free ex_text.
Proof. constructor; [exact (@Hash_String_inj _ _ ex_laws)|done]. Qed.

(** Two chunks that change places change the digest. *)
Lemma manifest_digest_binds_witness :
  @Manifest_Validate ex_free ex_text (ex_pair [x02] [x03]) = None ∧
  @Manifest_Validate ex_free ex_text (ex_pair [x03] [x02]) = None ∧
  Digest (ex_pair [x02] [x03]) ≠ Digest (ex_pair [x03] [x02]).
Proof.
  assert (@Manifest_Validate ex_free ex_text (ex_pair [x02] [x03]) = None) as H1 by (vm_compute; reflexivity).
  assert (@Manifest_Validate ex_free ex_text (ex_pair [x03] [x02]) = None) as H2 by (vm_compute; reflexivity).
  split; [exact H1|]. split; [exact H2|]. intros Hd.
  destruct (proj1 (@manifest_digest_binds ex_free ex_text ex_free_laws _ _ H1 H2) Hd) as [(_ & _ & _ & _ & Hc)|[Hne Heq]].
  - vm_compute in Hc. discriminate Hc.
  - apply Hne, list_byte_of_string_inj. exact (f_equal (@tail byte) Heq).
Defined.

Lemma manifest_shape_spec_witness : validateShape ex_manifest = None ∧ contiguous 0 (Chunks ex_manifest).
Proof.
  assert (validateShape ex_manifest = None) as Hs by (vm_compute; reflexivity).
  assert (covered (Chunks ex_manifest) < 2 ^ 63)%Z as Hc by (vm_compute; reflexivity).
  destruct (proj1 (manifest_shape_spec ex_manifest Hc) Hs) as (_ & _ & _ & Ht & _).
  split; [exact Hs|exact Ht].
Defined.

Lemma generate_spec_witness :
  ∃ m, @Generate (list byte) ex_read ex_hash ex_text 50 (λ _, false) ex_bytes ex_blob ex_cfg 7 = Some (inr m) ∧
    Covers m 43 = true.
Proof.
  pose proof (@generate_spec (list byte) ex_read id ex_read_laws ex_hash ex_text ex_laws 50 (λ _, false)
    ex_bytes ex_blob ex_cfg 7) as Hg. cbv zeta in Hg.
  specialize (Hg ltac:(vm_compute; reflexivity) ltac:(vm_compute; lia)).
  change (IsZero ex_blob) with false in Hg. change (Validate ex_cfg) with true in Hg. cbn [negb] in Hg.
  assert (∀ l : list nat, existsb (λ _, false) l = false) as Hex by (induction l; done).
  rewrite Hex in Hg. destruct (decide _) as [_|Hne]; [|destruct Hne; reflexivity].
  destruct Hg as (m & Hm & _ & _ & _ & _ & Hc). exists m. split; [exact Hm|exact Hc].
Defined.
