(* ===== verification/Resume.v ===== *)
(** * Resume: pulling a blob from a peer chunk by chunk

    Models the chunked pull of internal/peer/transfer/resume.go over the staging file of
    internal/storagefabric/cas/partial.go.  The peer, the local blobs and the chunk index
    are an environment that may answer anything at each turn ([Env]); the file system does
    what it is asked (an interruption at any instant is some other content of the staging
    file at the next pull).  A donor whose bytes did not match is reported to the store
    ([reportDonor]), which may move it to quarantine: a pull gives the reports it made, in
    order, beside what it leaves.  An error is its sentinel. *)

From S2P Require Import Prelude GoText Chunking Manifests.
From Stdlib Require Import Strings.Byte.

Inductive error :=
  | ErrManifestMismatch | ErrSource | ErrNoDigest | ErrPartialBusy | ErrClosed | ErrTruncate
  | ErrContext | ErrShort | ErrIO | ErrLocate | ErrPlan | ErrAvailability
  | ErrRedirected | ErrTransport | ErrSourceLacksBlob | ErrRangeRefused | ErrChunkCorrupt
  | ErrWrongBlob | Corruption (actual : Hash) (size : Z).

(** ** The staging file *)

(** Its recorded size is the length of its content. *)
Record Partial := mkPartial { pBlob : Hash; pData : list byte; pClosed : bool }.

Definition Size (p : Partial) : Z := Z.of_nat (length (pData p)).

(** Copies what a reader gives to the end; [fails] is an error after it. *)
Definition Append (p : Partial) (bs : list byte) (fails : bool) : Partial * Z * option error :=
  if pClosed p then (p, 0%Z, Some ErrClosed)
  else (mkPartial (pBlob p) (pData p ++ bs) false, Z.of_nat (length bs), if fails then Some ErrIO else None).

Definition Truncate (p : Partial) (n : Z) : error + Partial :=
  if pClosed p then inl ErrClosed
  else if (n <? 0)%Z || (Size p <? n)%Z then inl ErrTruncate
  else inr (mkPartial (pBlob p) (take (Z.to_nat n) (pData p)) false).

(** What this node holds of one blob: the staging file of its transfer (empty when there is
    none) and the published bytes. *)
Record Node := mkNode { staging : list byte; stored : option (list byte) }.

Definition OpenPartial (busy : bool) (expected : Hash) (node : Node) : error + Partial :=
  if IsZero expected then inl ErrNoDigest
  else if busy then inl ErrPartialBusy
  else inr (mkPartial expected (staging node) false).

(** [os.Link] keeps the bytes that are there already. *)
Definition publishFile (node : Node) (data : list byte) : Node * bool :=
  match stored node with
  | Some bs => (mkNode [] (Some bs), true)
  | None => (mkNode [] (Some data), false)
  end.

(** The size published and whether the store held the blob; [cancelled] is a context done
    while hashing.  A mismatch moves the file to quarantine. *)
Definition Publish `{HashEnv} (p : Partial) (expected : Hash) (cancelled : bool) (node : Node) :
    Node * (error + Z * bool) :=
  let keep := mkNode (pData p) (stored node) in
  if pClosed p then (keep, inl ErrClosed)
  else if negb (bool_decide (expected = pBlob p)) then (keep, inl ErrWrongBlob)
  else if cancelled then (keep, inl ErrContext)
  else
    let got := hash (pData p) in
    if bool_decide (got = expected) then
      let '(node, deduped) := publishFile node (pData p) in (node, inr (Size p, deduped))
    else (mkNode [] (stored node), inl (Corruption got (Size p))).

(** ** The outside *)

(** What a ranged read is answered: a status and a body, which may break off. *)
Inductive Response :=
  | Unreachable (redirected : bool)
  | Answered (status : Z) (body : list byte) (broken : bool).

(** What opening a local blob gives: its bytes, readable up to a position. *)
Inductive Opened := NotFound | OpenFailed | Open (bs : list byte) (readable : nat).

(** [checks]: at a turn, the store can re-read the blob it is asked about, and can move it
    aside where it must. *)
Record Env := mkEnv {
  usable : bool;
  busy : bool;
  scanDone : nat → bool;
  pullDone : nat → bool;
  publishDone : bool;
  index : option (Hash → option (list LocalChunk));
  openBlob : nat → Hash → Opened;
  checks : nat → Hash → bool;
  ask : nat → Chunk → Response }.

(** ** The verified prefix *)

Definition hashRange `{HashEnv} (data : list byte) (off len : Z) : error + Hash :=
  if (off <? 0)%Z then inl ErrIO
  else
    let bs := take (Z.to_nat len) (drop (Z.to_nat off) data) in
    if negb (Z.of_nat (length bs) =? len)%Z then inl ErrShort else inr (hash bs).

(** The loop of [verifiedPrefix]: how many chunks are kept, and where they end. *)
Fixpoint scanPrefix `{HashEnv} (cancelled : nat → bool) (data : list byte) (kept : nat) (boundary : Z)
    (cs : list Chunk) : error + (nat * Z) :=
  match cs with
  | [] => inr (kept, boundary)
  | c :: cs =>
      if cancelled kept then inl ErrContext
      else if (Z.of_nat (length data) <? End c)%Z then inr (kept, boundary)
      else match hashRange data (Offset c) (Length c) with
           | inl e => inl e
           | inr got =>
               if negb (bool_decide (got = Chunking.Digest c)) then inr (kept, boundary)
               else scanPrefix cancelled data (S kept) (End c) cs
           end
  end.

Definition verifiedPrefix `{HashEnv} (cancelled : nat → bool) (p : Partial) (m : Manifest) :
    error + (nat * Partial) :=
  if (Size p =? 0)%Z then inr (0%nat, p)
  else match scanPrefix cancelled (pData p) 0 0 (Chunks m) with
       | inl e => inl e
       | inr (kept, boundary) =>
           if negb (boundary =? Size p)%Z then
             match Truncate p boundary with inl e => inl e | inr p => inr (kept, p) end
           else inr (kept, p)
       end.

(** ** The local index *)

Definition locate (idx : option (Hash → option (list LocalChunk))) (m : Manifest) (kept : nat) :
    error + (Hash → list LocalChunk) :=
  match idx with
  | None => inr (λ _, [])
  | Some f =>
      let wanted := Chunking.Digest <$> drop kept (Chunks m) in
      if existsb (λ d, match f d with None => true | Some _ => false end) wanted then inl ErrLocate
      else inr (λ d, if existsb (λ w, bool_decide (w = d)) wanted then default [] (f d) else [])
  end.

(** ** Carrying out an entry *)

(** Also gives the donor that is reported: the one whose bytes did not match, once they are
    truncated away. *)
Definition appendLocal `{HashEnv} (o : Opened) (p : Partial) (e : PlanEntry) :
    Partial * list Hash * (error + bool) :=
  match o with
  | NotFound => (p, [], inr false)
  | OpenFailed => (p, [], inl ErrIO)
  | Open bs readable =>
      let len := Length (EntryChunk e) in
      let off := lOffset (Donor e) in
      if (Z.of_nat (length bs) <? wrap_i64 (off + len))%Z then (p, [], inr false)
      else if (off <? 0)%Z then (p, [], inl ErrIO)
      else
        let section := take (Z.to_nat len) (drop (Z.to_nat off) bs) in
        let got := take (readable - Z.to_nat off) section in
        match Append p got (length got <? length section)%nat with
        | (p', _, Some err) => (p', [], inl err)
        | (p', n, None) =>
            if negb (n =? len)%Z || negb (bool_decide (hash got = Chunking.Digest (EntryChunk e))) then
              match Truncate p' (Size p) with
              | inl err => (p', [], inl err)
              | inr p'' => (p'', [lBlobHash (Donor e)], inr false)
              end
            else (p', [], inr true)
        end
  end.

(** One ranged read, of a body limited to the chunk, into a consumer. *)
Definition readChunk `{HashEnv} {X} (resp : Response) (c : Chunk) (x : X)
    (consume : X → list byte → bool → X * Z * option error) : X * option error :=
  match resp with
  | Unreachable true => (x, Some ErrRedirected)
  | Unreachable false => (x, Some ErrTransport)
  | Answered status body broken =>
      if (status =? 206)%Z then
        let bs := take (Z.to_nat (Length c)) body in
        let fails := broken && (Z.of_nat (length body) <? Length c)%Z in
        match consume x bs fails with
        | (x, _, Some e) => (x, Some e)
        | (x, n, None) =>
            if negb (n =? Length c)%Z then (x, Some ErrChunkCorrupt)
            else if negb (bool_decide (hash bs = Chunking.Digest c)) then (x, Some ErrChunkCorrupt)
            else if (Length c <? Z.of_nat (length body))%Z then (x, Some ErrChunkCorrupt)
            else (x, None)
        end
      else if (status =? 404)%Z then (x, Some ErrSourceLacksBlob)
      else (x, Some ErrRangeRefused)
  end.

(** Every failure rewinds the staging file. *)
Definition fetchChunk `{HashEnv} (resp : Response) (p : Partial) (c : Chunk) : Partial * option error :=
  match readChunk resp c p Append with
  | (p', None) => (p', None)
  | (p', Some e) =>
      match Truncate p' (Size p) with
      | inl err => (p', Some err)
      | inr p'' => (p'', Some e)
      end
  end.

(** The bytes of one chunk, for a caller that wants them in hand. *)
Definition FetchChunk `{HashEnv} (ok : bool) (resp : Response) (c : Chunk) : error + list byte :=
  if negb ok then inl ErrSource
  else match readChunk resp c [] (λ buf bs fails,
          (buf ++ bs, Z.of_nat (length bs), if fails then Some ErrIO else None)) with
       | (buf, None) => inr buf
       | (_, Some e) => inl e
       end.

(** ** The pull *)

Record Outcome := mkOutcome {
  Bytes : Z; Deduplicated : bool;
  oChunksKept : Z; oBytesKept : Z; oChunksReused : Z; oBytesReused : Z;
  oChunksFetched : Z; oBytesFetched : Z; oChunksIndexStale : Z }.

Definition noOutcome : Outcome := mkOutcome 0 false 0 0 0 0 0 0 0.

Definition countKept (o : Outcome) (n : Z) : Outcome :=
  mkOutcome (Bytes o) (Deduplicated o) (oChunksKept o + 1) (wrap_i64 (oBytesKept o + n)) (oChunksReused o)
    (oBytesReused o) (oChunksFetched o) (oBytesFetched o) (oChunksIndexStale o).
Definition countReused (o : Outcome) (n : Z) : Outcome :=
  mkOutcome (Bytes o) (Deduplicated o) (oChunksKept o) (oBytesKept o) (oChunksReused o + 1)
    (wrap_i64 (oBytesReused o + n)) (oChunksFetched o) (oBytesFetched o) (oChunksIndexStale o).
Definition countFetched (o : Outcome) (n : Z) : Outcome :=
  mkOutcome (Bytes o) (Deduplicated o) (oChunksKept o) (oBytesKept o) (oChunksReused o) (oBytesReused o)
    (oChunksFetched o + 1) (wrap_i64 (oBytesFetched o + n)) (oChunksIndexStale o).
Definition countStale (o : Outcome) : Outcome :=
  mkOutcome (Bytes o) (Deduplicated o) (oChunksKept o) (oBytesKept o) (oChunksReused o) (oBytesReused o)
    (oChunksFetched o) (oBytesFetched o) (oChunksIndexStale o + 1).

Section pulling.
Context `{HashEnv, HashText} (env : Env).

(** [reportDonor], on what the node stores of one blob: the store re-reads the donor, and
    moves it to quarantine when its bytes are not of its name; every other answer is only
    logged. *)
Definition reportDonor (blob : Hash) (node : Node) (report : nat * Hash) : Node :=
  let '(i, donor) := report in
  match stored node with
  | Some bs =>
      if checks env i donor && bool_decide (Hash_String donor = Hash_String blob)
         && negb (bool_decide (Hash_String (hash bs) = Hash_String donor))
      then mkNode (staging node) None else node
  | None => node
  end.

Definition doFetch (i : nat) (p : Partial) (c : Chunk) (out : Outcome) : Partial * (error + Outcome) :=
  match fetchChunk (ask env i c) p c with
  | (p, Some e) => (p, inl e)
  | (p, None) => (p, inr (countFetched out (Length c)))
  end.

(** The body of the loop over the plan. *)
Definition doEntry (i : nat) (p : Partial) (e : PlanEntry) (out : Outcome) :
    Partial * list Hash * (error + Outcome) :=
  let c := EntryChunk e in
  if pullDone env i then (p, [], inl ErrContext)
  else if bool_decide (EntryAvailability e = AvailabilityKept) then (p, [], inr (countKept out (Length c)))
  else if bool_decide (EntryAvailability e = AvailabilityLocal) then
    match appendLocal (openBlob env i (lBlobHash (Donor e))) p e with
    | (p, ds, inl err) => (p, ds, inl err)
    | (p, ds, inr true) => (p, ds, inr (countReused out (Length c)))
    | (p, ds, inr false) => let '(p, r) := doFetch i p c (countStale out) in (p, ds, r)
    end
  else if bool_decide (EntryAvailability e = AvailabilityFetch) then
    let '(p, r) := doFetch i p c out in (p, [], r)
  else (p, [], inl ErrAvailability).

(** The donors reported, each at its turn. *)
Fixpoint doEntries (i : nat) (es : list PlanEntry) (p : Partial) (out : Outcome) :
    Partial * list (nat * Hash) * (error + Outcome) :=
  match es with
  | [] => (p, [], inr out)
  | e :: es =>
      match doEntry i p e out with
      | (p, ds, inl err) => (p, pair i <$> ds, inl err)
      | (p, ds, inr out) => let '(p, more, r) := doEntries (S i) es p out in (p, (pair i <$> ds) ++ more, r)
      end
  end.

(** What a pull leaves on this node, the donors it reported, and its error or outcome. *)
Definition PullChunked (expected : Hash) (m : Manifest) (node : Node) :
    Node * list (nat * Hash) * (error + Outcome) :=
  if negb (bool_decide (BlobHash m = expected)) then (node, [], inl ErrManifestMismatch)
  else match Manifest_Validate m with
  | Some _ => (node, [], inl ErrManifestMismatch)
  | None =>
      if (length (Chunks m) =? 0)%nat then (node, [], inl ErrManifestMismatch)
      else if negb (usable env) then (node, [], inl ErrSource)
      else match OpenPartial (busy env) expected node with
      | inl e => (node, [], inl e)
      | inr p0 =>
          let closed p node := mkNode (pData p) (stored node) in
          match verifiedPrefix (scanDone env) p0 m with
          | inl e => (closed p0 node, [], inl e)
          | inr (kept, p) =>
              match locate (index env) m kept with
              | inl e => (closed p node, [], inl e)
              | inr held =>
                  let plan := PlanFor m (Z.of_nat kept) held in
                  if negb (Plan_Validate plan m) then (closed p node, [], inl ErrPlan)
                  else
                    let '(p, ds, r) := doEntries 0 (Entries plan) p noOutcome in
                    let node := foldl (reportDonor expected) node ds in
                    match r with
                    | inl e => (closed p node, ds, inl e)
                    | inr out =>
                        match Publish p expected (publishDone env) node with
                        | (node, inl e) => (node, ds, inl e)
                        | (node, inr (size, deduped)) =>
                            (node, ds, inr (mkOutcome size deduped (oChunksKept out) (oBytesKept out)
                               (oChunksReused out) (oBytesReused out) (oChunksFetched out)
                               (oBytesFetched out) (oChunksIndexStale out)))
                        end
                    end
              end
          end
      end
  end.
End pulling.
