(* ===== verification/ResumeSpec.v ===== *)
(** * ResumeSpec: the theorems of the chunked pull

    What a pull publishes is the blob that was asked for, whatever the peer, the local
    index and the staging file held; an honest peer and any staging file lead to a
    publication; a failure never loses a verified chunk. *)

From S2P Require Import Prelude GoText GoPath GoScan Chunking ChunkStream Manifests ManifestSpec Resume.
From Stdlib Require Import Strings.Byte.

(** ** What bytes a list of chunks describes *)

Section described.
Context `{HashEnv}.

(** The bytes of one chunk. *)
Definition part (bs : list byte) (c : Chunk) : Prop :=
  Z.of_nat (length bs) = Length c ∧ hash bs = Chunking.Digest c.

Definition describes (cs : list Chunk) (bs : list byte) : Prop :=
  ∃ parts, concat parts = bs ∧ Forall2 part parts cs.

Lemma describes_nil : describes [] [].
Proof. by exists []. Qed.

Lemma describes_app cs ds bs es : describes cs bs → describes ds es → describes (cs ++ ds) (bs ++ es).
Proof.
  intros (ps & <- & Hp) (qs & <- & Hq). exists (ps ++ qs). split; [by rewrite concat_app|].
  by apply Forall2_app.
Qed.

Lemma describes_one c bs : part bs c → describes [c] bs.
Proof. intros Hp. exists [bs]. split; [by rewrite concat_cons, app_nil_r|]. by constructor. Qed.

Lemma describes_cons c cs bs es : part bs c → describes cs es → describes (c :: cs) (bs ++ es).
Proof. intros Hp. by apply (describes_app [c]), describes_one. Qed.

Lemma describes_length cs bs : describes cs bs → Z.of_nat (length bs) = covered cs.
Proof.
  intros (ps & <- & Hp). induction Hp as [|p c ps cs [Hl _] _ IH]; [done|].
  rewrite concat_cons, length_app. cbn [covered foldr]. fold (covered cs). lia.
Qed.

(** Two byte strings that one list describes are equal, or collide somewhere. *)
Lemma describes_inj cs bs es :
  describes cs bs → describes cs es → bs = es ∨ ∃ x y, x ≠ y ∧ hash x = hash y.
Proof.
  intros (ps & <- & Hp). revert es. induction Hp as [|p c ps cs [Hl Hh] _ IH]; intros es (qs & <- & Hq).
  - apply Forall2_nil_inv_r in Hq as ->. by left.
  - apply Forall2_cons_inv_r in Hq as (q & qs' & [Hl' Hh'] & Hq & ->).
    destruct (decide (p = q)) as [->|Hne]; [|right; exists p, q; split; [done|congruence]].
    destruct (IH (concat qs')) as [Heq|?]; [by exists qs'|left; by rewrite !concat_cons, Heq|by right].
Qed.

(** The leading chunks some bytes verify, from a position on. *)
Fixpoint verifiedCount (data : list byte) (at_ : Z) (cs : list Chunk) : nat :=
  match cs with
  | [] => 0
  | c :: cs =>
      if bool_decide (at_ + Length c ≤ Z.of_nat (length data))%Z &&
         bool_decide (hash (take (Z.to_nat (Length c)) (drop (Z.to_nat at_) data)) = Chunking.Digest c)
      then S (verifiedCount data (at_ + Length c) cs) else 0
  end.

Lemma verifiedCount_le data at_ cs : (verifiedCount data at_ cs ≤ length cs)%nat.
Proof. revert at_. induction cs as [|c cs IH]; intros at_; simpl; [done|]. case_match; [|lia]. specialize (IH (at_ + Length c)%Z). lia. Qed.

(** Those bytes are described by those chunks. *)
Lemma verifiedCount_describes data at_ cs :
  (0 ≤ at_ ≤ Z.of_nat (length data))%Z → Forall sound_chunk cs →
  let k := verifiedCount data at_ cs in
  (at_ + covered (take k cs) ≤ Z.of_nat (length data))%Z ∧
  describes (take k cs) (take (Z.to_nat (covered (take k cs))) (drop (Z.to_nat at_) data)).
Proof.
  revert at_. induction cs as [|c cs IH]; intros at_ Hat Hall; cbn [verifiedCount].
  { cbn. rewrite take_0. split; [lia|apply describes_nil]. }
  apply Forall_cons in Hall as [[Hpos _] Hall].
  destruct (bool_decide (at_ + Length c ≤ _)%Z) eqn:Hfit; cbn [andb].
  2:{ cbn. rewrite take_0. split; [lia|apply describes_nil]. }
  apply bool_decide_eq_true in Hfit. case_bool_decide as Hh.
  2:{ cbn. rewrite take_0. split; [lia|apply describes_nil]. }
  destruct (IH (at_ + Length c)%Z ltac:(lia) Hall) as [Hle Hd]. cbn zeta. cbn [take covered foldr].
  set (k := verifiedCount data (at_ + Length c) cs) in *. fold (covered (take k cs)).
  assert (0 ≤ covered (take k cs))%Z as Hnn by (apply covered_nonneg, Forall_take, Hall).
  split; [lia|].
  replace (Z.to_nat (Length c + covered (take k cs))) with
    (Z.to_nat (Length c) + Z.to_nat (covered (take k cs)))%nat by lia.
  rewrite <-(take_drop (Z.to_nat (Length c)) (take _ (drop (Z.to_nat at_) data))).
  apply describes_cons.
  - rewrite take_take, Nat.min_l by lia. split; [|done]. rewrite length_take, length_drop. lia.
  - rewrite skipn_firstn_comm, drop_drop.
    replace (Z.to_nat at_ + Z.to_nat (Length c))%nat with (Z.to_nat (at_ + Length c)) by lia.
    replace (Z.to_nat (Length c) + Z.to_nat (covered (take k cs)) - Z.to_nat (Length c))%nat
      with (Z.to_nat (covered (take k cs))) by lia. done.
Qed.

(** Bytes that chunks describe, and anything after them, verify as many. *)
Lemma verifiedCount_prefix pre bs junk cs ds :
  describes cs bs → (length cs ≤ verifiedCount (pre ++ bs ++ junk) (Z.of_nat (length pre)) (cs ++ ds))%nat.
Proof.
  intros (ps & <- & Hp). revert pre. induction Hp as [|p c ps cs [Hl Hh] _ IH]; intros pre; simpl; [lia|].
  rewrite <-app_assoc. rewrite drop_app_length' by lia.
  rewrite take_app_length' by lia. rewrite bool_decide_true by (rewrite !length_app; lia).
  rewrite bool_decide_true by done. cbn [andb].
  specialize (IH (pre ++ p)). rewrite length_app, <-app_assoc in IH.
  replace (Z.of_nat (length pre + length p)) with (Z.of_nat (length pre) + Length c)%Z in IH by lia. lia.
Qed.

(** ** The scan *)

Lemma hashRange_spec data off len :
  (0 ≤ off)%Z → (0 ≤ len)%Z → (off + len ≤ Z.of_nat (length data))%Z →
  hashRange data off len = inr (hash (take (Z.to_nat len) (drop (Z.to_nat off) data))).
Proof.
  intros Ho Hl Hfit. unfold hashRange. rewrite (proj2 (Z.ltb_ge off 0)) by done. cbv zeta.
  rewrite length_take, length_drop, (proj2 (Z.eqb_eq _ len)) by lia. done.
Qed.

Lemma scanPrefix_spec cancelled data kept at_ cs :
  (0 ≤ at_)%Z → contiguous at_ cs → Forall sound_chunk cs → (at_ + covered cs < 2 ^ 63)%Z →
  scanPrefix cancelled data kept at_ cs =
    inr ((kept + verifiedCount data at_ cs)%nat,
         (at_ + covered (take (verifiedCount data at_ cs) cs))%Z) ∨
  (∃ j, cancelled j = true) ∧ scanPrefix cancelled data kept at_ cs = inl ErrContext.
Proof.
  revert kept at_. induction cs as [|c cs IH]; intros kept at_ Hat Hct Hall Hs; cbn [scanPrefix verifiedCount].
  { left. cbn. by rewrite Nat.add_0_r, Z.add_0_r. }
  destruct (cancelled kept) eqn:Hcan; [right; eauto|]. destruct Hct as [Ho Hct].
  apply Forall_cons in Hall as [[Hpos _] Hall]. cbn [covered foldr] in Hs. fold (covered cs) in Hs.
  pose proof (covered_nonneg _ Hall) as Hnn.
  unfold End. rewrite Ho, wrap_i64_small by lia.
  destruct (Z.ltb_spec (Z.of_nat (length data)) (at_ + Length c)).
  { rewrite (bool_decide_false (at_ + Length c ≤ _)%Z) by lia. left. cbn. by rewrite Nat.add_0_r, Z.add_0_r. }
  rewrite (bool_decide_true (at_ + Length c ≤ _)%Z) by lia. cbn [andb].
  rewrite hashRange_spec by lia. case_bool_decide as Hh; cbn [negb].
  2:{ left. cbn. by rewrite Nat.add_0_r, Z.add_0_r. }
  destruct (IH (S kept) (at_ + Length c)%Z) as [->|[Hj ->]]; [lia|done|done|lia| |by right].
  left. cbn [take covered foldr]. fold (covered (take (verifiedCount data (at_ + Length c) cs) cs)).
  f_equal. f_equal; lia.
Qed.

(** ** Carrying out an entry *)

Lemma Truncate_back p bs :
  Truncate (mkPartial (pBlob p) (pData p ++ bs) false) (Size p) = inr (mkPartial (pBlob p) (pData p) false).
Proof.
  unfold Truncate, Size. cbn [pClosed pData]. rewrite length_app.
  rewrite (proj2 (Z.ltb_ge _ 0)), (proj2 (Z.ltb_ge _ _)) by lia. cbn [orb].
  by rewrite Nat2Z.id, take_app_length.
Qed.

(** The staging file after an entry: what it was, with the bytes of the chunk when it succeeds;
    an error may leave others behind. *)
Definition grown (p p' : Partial) (bs : list byte) : Prop :=
  p' = mkPartial (pBlob p) (pData p ++ bs) false.

Lemma grown_refl p : pClosed p = false → grown p p [].
Proof. intros Hc. unfold grown. rewrite app_nil_r. by destruct p; simpl in *; subst. Qed.

Lemma grown_nil p : grown p (mkPartial (pBlob p) (pData p) false) [].
Proof. unfold grown. by rewrite app_nil_r. Qed.

Lemma grown_trans p q r bs es : grown p q bs → grown q r es → grown p r (bs ++ es).
Proof. unfold grown. intros -> ->. cbn [pBlob pData]. by rewrite app_assoc. Qed.

Lemma fetchChunk_spec resp p c :
  pClosed p = false → (0 ≤ Length c)%Z →
  match fetchChunk resp p c with
  | (p', None) => ∃ bs, grown p p' bs ∧ part bs c
  | (p', Some e) => grown p p' []
  end.
Proof.
  intros Hc Hl. unfold fetchChunk, readChunk. pose proof (grown_refl p Hc) as Hr.
  assert (Truncate p (Size p) = inr p) as Htr.
  { unfold Truncate. rewrite Hc. unfold Size. rewrite (proj2 (Z.ltb_ge _ 0)), Z.ltb_irrefl by lia. cbn [orb].
    rewrite Nat2Z.id, firstn_all. destruct p; simpl in *; by subst. }
  destruct resp as [[]|status body broken]; [by rewrite Htr..|].
  destruct (status =? 206)%Z; [|destruct (status =? 404)%Z; by rewrite Htr].
  unfold Append. rewrite Hc. cbv zeta. set (bs := take _ body).
  pose proof (Truncate_back p bs) as Hback. pose proof (grown_nil p) as Hn.
  destruct (broken && _); [by rewrite Hback|].
  destruct (Z.eqb_spec (Z.of_nat (length bs)) (Length c)); cbn [negb]; [|by rewrite Hback].
  case_bool_decide; cbn [negb]; [|by rewrite Hback].
  destruct (_ <? _)%Z; [by rewrite Hback|]. by exists bs.
Qed.

Lemma appendLocal_spec o p e :
  pClosed p = false →
  match appendLocal o p e with
  | (p', _, inl _) => ∃ junk, grown p p' junk
  | (p', _, inr false) => grown p p' []
  | (p', _, inr true) => ∃ bs, grown p p' bs ∧ part bs (EntryChunk e)
  end.
Proof.
  intros Hc. pose proof (grown_refl p Hc) as Hr. pose proof (grown_nil p) as Hn.
  unfold appendLocal. destruct o as [| |bs readable]; [done|by exists []|]. cbv zeta.
  destruct (_ <? wrap_i64 _)%Z; [done|]. destruct (_ <? 0)%Z; [by exists []|].
  unfold Append. rewrite Hc. set (got := take (readable - _) _).
  destruct (_ <? _)%nat; [by exists got|]. pose proof (Truncate_back p got) as Hback.
  destruct (Z.eqb_spec (Z.of_nat (length got)) (Length (EntryChunk e))); cbn [negb orb]; [|by rewrite Hback].
  case_bool_decide; cbn [negb]; [|by rewrite Hback]. by exists got.
Qed.

(** The blob at hand has a place for the chunk, and other bytes there. *)
Definition misread (o : Opened) (e : PlanEntry) : bool :=
  match o with
  | Open bs _ =>
      let section := take (Z.to_nat (Length (EntryChunk e))) (drop (Z.to_nat (lOffset (Donor e))) bs) in
      negb (Z.of_nat (length bs) <? wrap_i64 (lOffset (Donor e) + Length (EntryChunk e)))%Z &&
      (negb (Z.of_nat (length section) =? Length (EntryChunk e))%Z ||
       negb (bool_decide (hash section = Chunking.Digest (EntryChunk e))))
  | _ => false
  end.

(** Such a donor is reported, and no other; nothing is when the entry stops the pull. *)
Lemma appendLocal_reports o p e :
  pClosed p = false →
  match appendLocal o p e with
  | (_, ds, inl _) => ds = []
  | (_, ds, inr _) => ds = if misread o e then [lBlobHash (Donor e)] else []
  end.
Proof.
  intros Hc. unfold appendLocal, misread. destruct o as [| |bs readable]; [done..|]. cbv zeta.
  destruct (_ <? wrap_i64 _)%Z; [done|]. cbn [negb andb]. destruct (_ <? 0)%Z; [done|].
  unfold Append. rewrite Hc. set (section := take (Z.to_nat (Length _)) _). set (got := take (readable - _) section).
  destruct (Nat.ltb_spec (length got) (length section)) as [|Hge]; [done|].
  assert (got = section) as ->.
  { unfold got in *. rewrite length_take in Hge. apply firstn_all2. lia. }
  pose proof (Truncate_back p section) as Hback. destruct (_ || _); [by rewrite Hback|done].
Qed.

(** The errors of an entry are not those of the whole. *)
Lemma Truncate_error p n a k : Truncate p n ≠ inl (Corruption a k).
Proof. unfold Truncate. by repeat case_match. Qed.

Lemma fetchChunk_error resp p c e :
  (fetchChunk resp p c).2 = Some e → ∀ a n, e ≠ Corruption a n.
Proof.
  unfold fetchChunk, readChunk, Append. intros He a n ->. pose proof (Truncate_error) as Ht.
  repeat (case_match; simplify_eq/=; try (by eapply Ht)).
Qed.

Lemma appendLocal_error o p e err :
  (appendLocal o p e).2 = inl err → ∀ a n, err ≠ Corruption a n.
Proof.
  unfold appendLocal, Append. intros He a n ->. pose proof (Truncate_error) as Ht.
  repeat (case_match; simplify_eq/=; try (by eapply Ht)).
Qed.

(** ** Accounts *)

Definition tally (o : Outcome) : Z := oChunksKept o + oChunksReused o + oChunksFetched o.
Definition byteTally (o : Outcome) : Z := oBytesKept o + oBytesReused o + oBytesFetched o.
Definition sane (o : Outcome) : Prop := (0 ≤ oBytesKept o ∧ 0 ≤ oBytesReused o ∧ 0 ≤ oBytesFetched o)%Z.

(** One more chunk counted. *)
Definition counted (o o' : Outcome) (c : Chunk) (k : Z) : Prop :=
  (sane o → byteTally o + Length c < 2 ^ 63 →
   sane o' ∧ byteTally o' = byteTally o + Length c)%Z ∧
  (tally o' = tally o + 1)%Z ∧ (oChunksKept o' = oChunksKept o + k)%Z.

Context `{HashText} (env : Env).

Lemma doFetch_spec i p c out o0 :
  pClosed p = false → (0 ≤ Length c)%Z → (o0 = out ∨ o0 = countStale out) →
  match doFetch env i p c o0 with
  | (p', inl e) => grown p p' [] ∧ (∀ a n, e ≠ Corruption a n)
  | (p', inr out') => (∃ bs, grown p p' bs ∧ part bs c) ∧ counted out out' c 0
  end.
Proof.
  intros Hc Hl Ho. unfold doFetch. pose proof (fetchChunk_spec (ask env i c) p c Hc Hl) as Hf.
  pose proof (fetchChunk_error (ask env i c) p c) as He.
  destruct (fetchChunk _ p c) as [p' [e|]]; [by split; [|apply He]|]. split; [done|].
  unfold counted, tally, byteTally, sane. destruct Ho as [->| ->];
    cbn [countFetched countStale oChunksKept oChunksReused oChunksFetched oBytesKept oBytesReused oBytesFetched];
    (split_and!; [|lia|lia]); intros ? ?; rewrite wrap_i64_small by lia; lia.
Qed.

(** The body of the loop: a kept chunk changes nothing, another adds its bytes. *)
Lemma doEntry_spec i p e out :
  pClosed p = false → (0 < Length (EntryChunk e))%Z →
  match doEntry env i p e out with
  | (p', _, inl err) => (∃ junk, grown p p' junk) ∧ (∀ a n, err ≠ Corruption a n)
  | (p', _, inr out') =>
      if bool_decide (EntryAvailability e = AvailabilityKept)
      then grown p p' [] ∧ counted out out' (EntryChunk e) 1
      else (∃ bs, grown p p' bs ∧ part bs (EntryChunk e)) ∧ counted out out' (EntryChunk e) 0
  end.
Proof.
  intros Hc Hl. unfold doEntry. pose proof (grown_refl p Hc) as Hr.
  destruct (pullDone env i); [split; [by exists []|done]|].
  destruct (bool_decide (EntryAvailability e = AvailabilityKept)).
  { split; [done|]. unfold counted, tally, byteTally, sane, countKept.
    cbn [oChunksKept oChunksReused oChunksFetched oBytesKept oBytesReused oBytesFetched].
    (split_and!; [|lia|lia]); intros ? ?; rewrite wrap_i64_small by lia; lia. }
  case_bool_decide as Hloc; [|case_bool_decide; [|split; [by exists []|done]]].
  - pose proof (appendLocal_spec (openBlob env i (lBlobHash (Donor e))) p e Hc) as Ha.
    pose proof (appendLocal_error (openBlob env i (lBlobHash (Donor e))) p e) as He.
    destruct (appendLocal _ p e) as [[p' ds] [err|[]]].
    + by split; [|apply He].
    + split; [done|]. unfold counted, tally, byteTally, sane, countReused.
      cbn [oChunksKept oChunksReused oChunksFetched oBytesKept oBytesReused oBytesFetched].
      (split_and!; [|lia|lia]); intros ? ?; rewrite wrap_i64_small by lia; lia.
    + assert (pClosed p' = false) as Hc' by by rewrite Ha.
      pose proof (doFetch_spec i p' (EntryChunk e) out (countStale out) Hc' ltac:(lia) ltac:(by right)) as Hf.
      assert (p' = p) as -> by (rewrite Ha; destruct p; simpl in *; subst; by rewrite app_nil_r).
      destruct (doFetch _ _ _ _ _) as [p'' [err|out']]; [|done]. destruct Hf. split; [by exists []|done].
  - pose proof (doFetch_spec i p (EntryChunk e) out out Hc ltac:(lia) ltac:(by left)) as Hf.
    destruct (doFetch _ _ _ _ _) as [p'' [err|out']]; [|done]. destruct Hf. split; [by exists []|done].
Qed.

(** The loop over the entries from one on, of which the first [k] are kept. *)
Lemma doEntries_spec es i k p out :
  pClosed p = false → Forall sound_chunk (EntryChunk <$> es) →
  (∀ j e, es !! j = Some e → EntryAvailability e = AvailabilityKept ↔ (j < k)%nat) →
  match doEntries env i es p out with
  | (p', _, inl err) => (∃ junk, grown p p' junk) ∧ (∀ a n, err ≠ Corruption a n)
  | (p', _, inr out') =>
      (∃ bs, grown p p' bs ∧ describes (drop k (EntryChunk <$> es)) bs) ∧
      (sane out → byteTally out + covered (EntryChunk <$> es) < 2 ^ 63 →
       sane out' ∧ byteTally out' = byteTally out + covered (EntryChunk <$> es))%Z ∧
      (tally out' = tally out + Z.of_nat (length es))%Z ∧
      oChunksKept out' = (oChunksKept out + Z.of_nat (k `min` length es))%Z
  end.
Proof.
  revert i k p out. induction es as [|e es IH]; intros i k p out Hc Hall Hk; cbn [doEntries].
  { split_and!.
    - exists []. split; [by apply grown_refl|]. rewrite fmap_nil, drop_nil. apply describes_nil.
    - cbn. intros. by rewrite Z.add_0_r.
    - cbn. lia.
    - cbn. lia. }
  rewrite fmap_cons in Hall |- *. apply Forall_cons in Hall as [[Hpos Hd] Hall].
  pose proof (doEntry_spec i p e out Hc Hpos) as He. pose proof (covered_nonneg _ Hall) as Hnn.
  destruct (doEntry env i p e out) as [[p' ds] [err|out']]; [done|].
  assert (∃ bs, grown p p' bs ∧ describes (take (1 - k) [EntryChunk e]) bs ∧
    counted out out' (EntryChunk e) (Z.of_nat (k `min` 1))) as (bs & Hg & Hdesc & Hcnt).
  { specialize (Hk 0%nat e eq_refl). case_bool_decide as Hkept.
    - destruct He as [Hg Hcnt]. assert (1 ≤ k)%nat by (apply Hk in Hkept; lia).
      exists []. replace (1 - k)%nat with 0%nat by lia. replace (k `min` 1)%nat with 1%nat by lia.
      split_and!; [done|apply describes_nil|done].
    - destruct He as [(bs & Hg & Hp) Hcnt]. assert (k = 0)%nat as -> by (destruct k; [done|]; destruct Hkept; apply Hk; lia).
      exists bs. split_and!; [done|by apply describes_one|done]. }
  assert (pClosed p' = false) as Hc' by by rewrite Hg.
  specialize (IH (S i) (k - 1)%nat p' out' Hc' Hall).
  assert (∀ j e', es !! j = Some e' → EntryAvailability e' = AvailabilityKept ↔ (j < k - 1)%nat) as Hk'.
  { intros j e' Hj. rewrite (Hk (S j) e' Hj). lia. }
  specialize (IH Hk'). destruct Hcnt as (Hb & Ht & Hkc).
  destruct (doEntries env (S i) es p' out') as [[p'' more] [err|out'']].
  { destruct IH as [(junk & Hj) Hne]. split; [|done]. eexists. by eapply grown_trans. }
  destruct IH as ((bs' & Hg' & Hd') & Hb' & Ht' & Hkc'). cbn [covered foldr length] in *.
  fold (covered (EntryChunk <$> es)) in *.
  split_and!.
  - exists (bs ++ bs'). split; [by eapply grown_trans|].
    replace (drop k (EntryChunk e :: (EntryChunk <$> es))) with
      (take (1 - k) [EntryChunk e] ++ drop (k - 1) (EntryChunk <$> es)).
    + by apply describes_app.
    + destruct k as [|k]; [done|]. simpl. by rewrite Nat.sub_0_r.
  - intros Hs Hlt. destruct (Hb Hs ltac:(lia)) as [Hs' Heq]. destruct (Hb' Hs' ltac:(lia)) as [Hs'' Heq'].
    split; [done|lia].
  - lia.
  - lia.
Qed.

(** ** The donors reported *)

(** Those a plan has reported once it is carried out, each at its turn. *)
Fixpoint reportsOf (i : nat) (es : list PlanEntry) : list (nat * Hash) :=
  match es with
  | [] => []
  | e :: es =>
      (if bool_decide (EntryAvailability e = AvailabilityLocal) && misread (openBlob env i (lBlobHash (Donor e))) e
       then [(i, lBlobHash (Donor e))] else []) ++ reportsOf (S i) es
  end.

Lemma doEntry_reports i p e out :
  pClosed p = false →
  match doEntry env i p e out with
  | (_, ds, inl _) => (pair i <$> ds) `prefix_of` reportsOf i [e]
  | (_, ds, inr _) => pair i <$> ds = reportsOf i [e]
  end.
Proof.
  intros Hc. unfold doEntry. cbn [reportsOf]. rewrite app_nil_r.
  destruct (pullDone env i); [apply prefix_nil|].
  case_bool_decide as Hk; [by rewrite Hk|]. case_bool_decide as Hl; cbn [andb].
  - pose proof (appendLocal_reports (openBlob env i (lBlobHash (Donor e))) p e Hc) as Ha.
    destruct (appendLocal _ p e) as [[p' ds] [err|[]]]; subst ds; [apply prefix_nil|by destruct (misread _ _)|].
    destruct (doFetch _ _ _ _ _) as [p'' [err|out']]; by destruct (misread _ _).
  - case_bool_decide; [|done]. by destruct (doFetch _ _ _ _ _) as [p'' [err|out']].
Qed.

Lemma doEntries_reports es i p out :
  pClosed p = false → Forall sound_chunk (EntryChunk <$> es) →
  match doEntries env i es p out with
  | (_, ds, inl _) => ds `prefix_of` reportsOf i es
  | (_, ds, inr _) => ds = reportsOf i es
  end.
Proof.
  revert i p out. induction es as [|e es IH]; intros i p out Hc Hall; cbn [doEntries]; [done|].
  rewrite fmap_cons in Hall. apply Forall_cons in Hall as [[Hpos Hd] Hall].
  pose proof (doEntry_reports i p e out Hc) as Hr. pose proof (doEntry_spec i p e out Hc Hpos) as He.
  assert (reportsOf i (e :: es) = reportsOf i [e] ++ reportsOf (S i) es) as -> by (cbn [reportsOf]; by rewrite app_nil_r).
  destruct (doEntry env i p e out) as [[p' ds] [err|out']]; [by apply prefix_app_r|].
  assert (pClosed p' = false) as Hc'.
  { case_bool_decide; [by destruct He as [-> _]|by destruct He as [(bs & -> & _) _]]. }
  specialize (IH (S i) p' out' Hc' Hall). rewrite Hr.
  destruct (doEntries env (S i) es p' out') as [[p'' more] [err|out'']]; [by apply prefix_app|by rewrite IH].
Qed.

(** What the reports leave of the bytes stored of a blob: they go when one names it, is
    answered, and finds them damaged. *)
Definition retained (blob : Hash) (ds : list (nat * Hash)) (held : option (list byte)) : option (list byte) :=
  match held with
  | Some bs =>
      if negb (bool_decide (Hash_String (hash bs) = Hash_String blob)) &&
         existsb (λ r, checks env r.1 r.2 && bool_decide (Hash_String r.2 = Hash_String blob)) ds
      then None else Some bs
  | None => None
  end.

Lemma reported_retained blob ds node :
  stored (foldl (reportDonor env blob) node ds) = retained blob ds (stored node) ∧
  staging (foldl (reportDonor env blob) node ds) = staging node.
Proof.
  revert node. induction ds as [|[i d] ds IH]; intros node.
  { split; [|done]. unfold retained. cbn. destruct (stored node); [|done]. by rewrite andb_false_r. }
  cbn [foldl]. destruct (IH (reportDonor env blob node (i, d))) as [-> ->].
  unfold reportDonor, retained. cbn [existsb fst snd].
  destruct (stored node) as [bs|] eqn:Hst; [|by rewrite Hst].
  destruct (checks env i d); cbn [andb orb]; [|by rewrite Hst].
  case_bool_decide as Hd; cbn [andb orb]; [|by rewrite Hst]. rewrite Hd.
  case_bool_decide as Hb; cbn [andb negb].
  - rewrite Hst. by rewrite bool_decide_true by done.
  - done.
Qed.

Lemma retained_kept blob ds held bs : retained blob ds held = Some bs → held = Some bs.
Proof. unfold retained. destruct held as [b|]; [|done]. by case_match. Qed.

Lemma retained_intact blob ds bs : hash bs = blob → retained blob ds (Some bs) = Some bs.
Proof. intros <-. unfold retained. by rewrite bool_decide_true. Qed.

(** ** The pull *)

(** The prefix a staging file verifies, as the scan leaves it. *)
Lemma verifiedPrefix_spec cancelled p m :
  pClosed p = false → contiguous 0 (Chunks m) → Forall sound_chunk (Chunks m) →
  (covered (Chunks m) < 2 ^ 63)%Z →
  let k := verifiedCount (pData p) 0 (Chunks m) in
  let kept := take (Z.to_nat (covered (take k (Chunks m)))) (pData p) in
  verifiedPrefix cancelled p m = inr (k, mkPartial (pBlob p) kept false) ∨
  (∃ j, cancelled j = true) ∧ verifiedPrefix cancelled p m = inl ErrContext.
Proof.
  intros Hc Hct Hall Hs. cbv zeta. unfold verifiedPrefix, Size.
  destruct (verifiedCount_describes (pData p) 0 (Chunks m) ltac:(lia) Hall) as [Hle _]. rewrite Z.add_0_l in Hle.
  set (k := verifiedCount (pData p) 0 (Chunks m)) in *.
  assert (0 ≤ covered (take k (Chunks m)))%Z as Hnn by (apply covered_nonneg, Forall_take, Hall).
  destruct (Z.eqb_spec (Z.of_nat (length (pData p))) 0) as [Hz|Hz].
  { left. assert (k = 0%nat) as Hk.
    { unfold k. destruct (Chunks m) as [|c cs]; [done|]. cbn [verifiedCount].
      apply Forall_cons in Hall as [[Hpos _] _]. rewrite bool_decide_false by lia. done. }
    rewrite Hk. cbn [take covered foldr]. destruct p as [b d cl]; simpl in *. subst.
    destruct d; [done|simpl in Hz; lia]. }
  destruct (scanPrefix_spec cancelled (pData p) 0 0 (Chunks m)) as [->|[Hj ->]]; try done; [|by right].
  left. fold k. rewrite Nat.add_0_l, Z.add_0_l.
  destruct (Z.eqb_spec (covered (take k (Chunks m))) (Z.of_nat (length (pData p)))) as [Heq|Hne]; cbn [negb].
  - rewrite Heq, Nat2Z.id, firstn_all. destruct p; simpl in *; by subst.
  - unfold Truncate, Size. rewrite Hc, (proj2 (Z.ltb_ge _ 0)), (proj2 (Z.ltb_ge _ _)) by lia. done.
Qed.

Lemma Manifest_Validate_shape m :
  Manifest_Validate m = None → (covered (Chunks m) < 2 ^ 63)%Z →
  contiguous 0 (Chunks m) ∧ Forall sound_chunk (Chunks m) ∧ CoveredSize m = covered (Chunks m).
Proof.
  intros Hv Hs. assert (validateShape m = None) as Hshape
    by (unfold Manifest_Validate in Hv; by destruct (validateShape m)).
  by apply manifest_shape_ok in Hshape as (_ & _ & _ & ? & ? & ?).
Qed.

(** The entries of a plan are kept exactly in the prefix. *)
Lemma plan_kept m k held :
  (k ≤ length (Chunks m))%nat →
  let es := Entries (PlanFor m (Z.of_nat k) held) in
  EntryChunk <$> es = Chunks m ∧ Plan_Validate (PlanFor m (Z.of_nat k) held) m = true ∧
  ∀ j e, es !! j = Some e →
    (EntryAvailability e = AvailabilityKept ↔ (j < k)%nat) ∧
    Availability_Valid (EntryAvailability e) = true ∧
    (EntryAvailability e = AvailabilityLocal → (0 ≤ lOffset (Donor e))%Z).
Proof.
  intros Hk. cbv zeta. destruct (PlanFor_spec m (Z.of_nat k) held) as (_ & Hcs & Hv & Hok).
  split_and!; [done|done|]. intros j e Hj. destruct (Hok j e Hj) as [_ He].
  destruct (Z.ltb_spec (Z.of_nat j) (Z.of_nat k)) as [Hlt|Hge].
  - rewrite He. split_and!; [split; [lia|done]|done|done].
  - destruct He as [(-> & _ & _ & _ & Ho & _)|(-> & _)]; split_and!; try done; (split; [done|lia]).
Qed.

(** What the scan leaves of a staging file, and the plan made from it. *)
Definition keptOf (m : Manifest) (node : Node) : list byte :=
  take (Z.to_nat (covered (take (verifiedCount (staging node) 0 (Chunks m)) (Chunks m)))) (staging node).
Definition planOf (m : Manifest) (node : Node) (held : Hash → list LocalChunk) : list PlanEntry :=
  Entries (PlanFor m (Z.of_nat (verifiedCount (staging node) 0 (Chunks m))) held).

Lemma keptOf_prefix m node : keptOf m node `prefix_of` staging node.
Proof. eexists. unfold keptOf. by rewrite take_drop. Qed.

(** Carrying out that plan: the staging file ends as bytes the whole manifest describes. *)
Lemma doPlan_spec expected m node held :
  Forall sound_chunk (Chunks m) → (covered (Chunks m) < 2 ^ 63)%Z →
  match doEntries env 0 (planOf m node held) (mkPartial expected (keptOf m node) false) noOutcome with
  | (p', _, inl e) =>
      (∀ a n, e ≠ Corruption a n) ∧ pBlob p' = expected ∧ keptOf m node `prefix_of` pData p'
  | (p', ds, inr out) =>
      ds = reportsOf 0 (planOf m node held) ∧
      ∃ bs, p' = mkPartial expected bs false ∧ describes (Chunks m) bs ∧ keptOf m node `prefix_of` bs ∧
        oChunksKept out = Z.of_nat (verifiedCount (staging node) 0 (Chunks m)) ∧
        tally out = ChunkCount m ∧ byteTally out = covered (Chunks m)
  end.
Proof.
  intros Hall Hs. set (k := verifiedCount (staging node) 0 (Chunks m)).
  assert (k ≤ length (Chunks m))%nat as Hkle by apply verifiedCount_le.
  destruct (plan_kept m k held Hkle) as (Hcs & _ & Hkept). change (Entries _) with (planOf m node held) in *.
  set (p := mkPartial expected (keptOf m node) false).
  pose proof (doEntries_spec (planOf m node held) 0 k p noOutcome eq_refl) as Hd. rewrite Hcs in Hd.
  specialize (Hd Hall (λ j e Hj, proj1 (Hkept j e Hj))).
  assert (length (planOf m node held) = length (Chunks m)) as Hlen by (by rewrite <-Hcs, length_fmap).
  pose proof (doEntries_reports (planOf m node held) 0 p noOutcome eq_refl) as Hr. rewrite Hcs in Hr. specialize (Hr Hall).
  destruct (doEntries env 0 _ p noOutcome) as [[p' ds] [e|out]].
  { destruct Hd as [(junk & ->) Hne]. split_and!; [done|done|by exists junk]. }
  split; [done|].
  destruct Hd as ((bs & -> & Hdesc) & Hbytes & Htally & Hkc).
  destruct (verifiedCount_describes (staging node) 0 (Chunks m) ltac:(lia) Hall) as [_ Hkd].
  change (describes (take k (Chunks m)) (keptOf m node)) in Hkd.
  pose proof (describes_app _ _ _ _ Hkd Hdesc) as Hwhole. rewrite take_drop in Hwhole.
  assert (byteTally noOutcome + covered (Chunks m) < 2 ^ 63)%Z as Hlt by (change (byteTally noOutcome) with 0%Z; lia).
  destruct (Hbytes ltac:(by unfold sane; cbn) Hlt) as [_ Hbt].
  change (byteTally noOutcome) with 0%Z in Hbt. change (tally noOutcome) with 0%Z in Htally.
  change (oChunksKept noOutcome) with 0%Z in Hkc. rewrite Hlen in Hkc, Htally. rewrite Nat.min_l in Hkc by done.
  exists (keptOf m node ++ bs). split_and!; [done|done|by exists bs|lia|unfold ChunkCount; lia|lia].
Qed.

(** Everything a pull may do. *)
Lemma PullChunked_spec expected m node :
  (covered (Chunks m) < 2 ^ 63)%Z →
  match PullChunked env expected m node with
  | (node', ds, inr out) =>
      BlobHash m = expected ∧ Manifest_Validate m = None ∧
      oChunksKept out = Z.of_nat (verifiedCount (staging node) 0 (Chunks m)) ∧
      tally out = ChunkCount m ∧ byteTally out = covered (Chunks m) ∧
      Bytes out = covered (Chunks m) ∧ Deduplicated out = bool_decide (retained expected ds (stored node) ≠ None) ∧
      (∃ bs, describes (Chunks m) bs ∧ hash bs = expected ∧
        node' = mkNode [] (Some (default bs (retained expected ds (stored node))))) ∧
      ∃ held, locate (index env) m (verifiedCount (staging node) 0 (Chunks m)) = inr held ∧
        ds = reportsOf 0 (planOf m node held)
  | (node', ds, inl e) =>
      stored node' = retained expected ds (stored node) ∧
      ((∃ a n, e = Corruption a n ∧ a ≠ expected ∧ staging node' = []) ∨
       (∀ a n, e ≠ Corruption a n) ∧ keptOf m node `prefix_of` staging node')
  end.
Proof.
  intros Hs. unfold PullChunked. pose proof (keptOf_prefix m node) as Hpre.
  assert (stored node = retained expected [] (stored node)) as Hno.
  { unfold retained. destruct (stored node); [|done]. by rewrite andb_false_r. }
  case_bool_decide as Hb; cbn [negb]; [|split; [done|by right]].
  destruct (Manifest_Validate m) eqn:Hv; [split; [done|by right]|].
  destruct (_ =? 0)%nat; [split; [done|by right]|]. destruct (usable env); [|split; [done|by right]].
  cbn [negb]. unfold OpenPartial. destruct (IsZero expected); [split; [done|by right]|].
  destruct (busy env); [split; [done|by right]|].
  destruct (Manifest_Validate_shape m Hv Hs) as (Hct & Hall & _).
  destruct (verifiedPrefix_spec (scanDone env) (mkPartial expected (staging node) false) m) as [Hvp|[_ Hvp]];
    try done; cbn [pData pBlob] in Hvp; rewrite Hvp; [|split; [done|by right]].
  destruct (locate (index env) m _) as [e|held] eqn:Hloc.
  { split; [done|right]. split; [|done]. intros a n ->. unfold locate in Hloc. by repeat case_match. }
  destruct (PlanFor_spec m (Z.of_nat (verifiedCount (staging node) 0 (Chunks m))) held) as (_ & _ & Hpv & _).
  rewrite Hpv. cbn [negb]. pose proof (doPlan_spec expected m node held Hall Hs) as Hd.
  fold (planOf m node held). fold (keptOf m node).
  destruct (doEntries env 0 _ _ noOutcome) as [[p' ds] r]. cbv zeta.
  destruct (reported_retained expected ds node) as [Hret _]. set (node1 := foldl _ node ds) in *.
  destruct r as [e|out].
  { destruct Hd as (Hne & _ & Hp). split; [done|by right]. }
  destruct Hd as (Hds & bs & -> & Hwhole & Hp & Hk & Ht & Hbt).
  unfold Publish. cbn [pClosed pData pBlob]. rewrite (bool_decide_true (expected = expected)) by done. cbn [negb].
  destruct (publishDone env); [split; [done|by right]|].
  case_bool_decide as Hh; [|split; [done|left; by eexists _, _]].
  pose proof (describes_length _ _ Hwhole) as Hsize.
  unfold publishFile. rewrite Hret.
  destruct (retained expected ds (stored node)) as [old|] eqn:Hold; cbn [Bytes Deduplicated]; rewrite Hold;
    (repeat (split; [done|]); split; [by exists bs|by exists held]).
Qed.

(** What is stored after a pull: what was, or bytes of the digest where there were none. *)
Definition stored_as (expected : Hash) (node node' : Node) : Prop :=
  stored node' = stored node ∧ stored node ≠ None ∨
  stored node = None ∧ ∃ bs, stored node' = Some bs ∧ hash bs = expected.

Lemma Publish_stored p expected cancelled node :
  match Publish p expected cancelled node with
  | (node', inl _) => stored node' = stored node
  | (node', inr _) => stored_as expected node node'
  end.
Proof.
  unfold Publish, publishFile. destruct (pClosed p); [done|]. destruct (negb _); [done|]. destruct cancelled; [done|].
  case_bool_decide as Hh; [|done]. unfold stored_as.
  destruct (stored node) as [bs|] eqn:Hst; cbn; [left|right]; (split; [done|]); eauto.
Qed.

Lemma PullChunked_stored expected m node :
  match PullChunked env expected m node with
  | (node', ds, inl _) => stored node' = retained expected ds (stored node)
  | (node', ds, inr _) => stored_as expected (mkNode [] (retained expected ds (stored node))) node'
  end.
Proof.
  assert (stored node = retained expected [] (stored node)) as Hno.
  { unfold retained. destruct (stored node); [|done]. by rewrite andb_false_r. }
  unfold PullChunked. destruct (negb _); [done|]. destruct (Manifest_Validate m); [done|].
  destruct (_ =? _)%nat; [done|]. destruct (negb _); [done|]. destruct (OpenPartial _ _ _) as [e|p]; [done|].
  destruct (verifiedPrefix _ _ _) as [e|[kept p1]]; [done|]. destruct (locate _ _ _) as [e|held]; [done|]. cbv zeta.
  destruct (negb _); [done|]. destruct (doEntries _ _ _ _ _) as [[p2 ds] r].
  destruct (reported_retained expected ds node) as [Hret _]. set (node1 := foldl _ node ds) in *.
  destruct r as [e|out]; [done|].
  pose proof (Publish_stored p2 expected (publishDone env) node1) as Hp.
  destruct (Publish _ _ _ _) as [n [e|[size d]]]; [by rewrite Hp|].
  unfold stored_as in *. cbn [stored]. by rewrite <-Hret.
Qed.

(** C30. A pull publishes the blob it was asked for or nothing, whatever the peer answers, the
    index claims and the staging file holds: what it publishes hashes to the digest asked
    for and is made, in order, of bytes that hash to each chunk of the manifest; bytes the
    store already had are kept, unless they were themselves reported as a donor and found
    damaged; a donor is reported to the store exactly where the index sent the pull to a
    blob that has other bytes at that place; the chunks kept are those the staging file
    verifies, and the counts account for every chunk and every byte once. *)
Theorem pull_publishes (expected : Hash) (m : Manifest) (node node' : Node) (ds : list (nat * Hash)) (out : Outcome) :
  (covered (Chunks m) < 2 ^ 63)%Z →
  PullChunked env expected m node = (node', ds, inr out) →
  Manifest_Validate m = None ∧ BlobHash m = expected ∧
  (∃ bs, describes (Chunks m) bs ∧ hash bs = expected ∧
     node' = mkNode [] (Some (default bs (retained expected ds (stored node))))) ∧
  (∀ old, stored node = Some old → hash old = expected → stored node' = Some old) ∧
  (∃ held, locate (index env) m (verifiedCount (staging node) 0 (Chunks m)) = inr held ∧
     ds = reportsOf 0 (planOf m node held)) ∧
  Bytes out = CoveredSize m ∧ Deduplicated out = bool_decide (retained expected ds (stored node) ≠ None) ∧
  oChunksKept out = Z.of_nat (verifiedCount (staging node) 0 (Chunks m)) ∧
  tally out = ChunkCount m ∧ byteTally out = CoveredSize m.
Proof.
  intros Hs Hpull. pose proof (PullChunked_spec expected m node Hs) as Hp. rewrite Hpull in Hp.
  destruct Hp as (Hb & Hv & Hk & Ht & Hbt & Hby & Hd & (bs & Hdesc & Hh & ->) & Hheld).
  destruct (Manifest_Validate_shape m Hv Hs) as (_ & _ & ->).
  split_and!; try done; [by exists bs|]. intros old -> Ho. by rewrite retained_intact.
Qed.

(** A pull that fails loses nothing it had verified, wherever and however it stops: the
    published bytes are untouched unless reported and damaged, and the staging file still verifies every leading chunk
    it verified before, unless all the chunks arrived and their whole is not the blob, when
    the file is set aside.  A later pull keeps at least as many chunks. *)
Theorem pull_failure_keeps (expected : Hash) (m : Manifest) (node node' : Node) (ds : list (nat * Hash))
    (e : Resume.error) :
  (covered (Chunks m) < 2 ^ 63)%Z → Forall sound_chunk (Chunks m) →
  PullChunked env expected m node = (node', ds, inl e) →
  stored node' = retained expected ds (stored node) ∧
  ((∃ a n, e = Corruption a n ∧ a ≠ expected ∧ staging node' = []) ∨
   (verifiedCount (staging node) 0 (Chunks m) ≤ verifiedCount (staging node') 0 (Chunks m))%nat).
Proof.
  intros Hs Hall Hpull. pose proof (PullChunked_spec expected m node Hs) as Hp. rewrite Hpull in Hp.
  destruct Hp as [Hst [Hcor|[_ [junk Hpre]]]]; [by auto|]. split; [done|right].
  destruct (verifiedCount_describes (staging node) 0 (Chunks m) ltac:(lia) Hall) as [_ Hkd].
  pose proof (verifiedCount_prefix [] _ junk _ (drop (verifiedCount (staging node) 0 (Chunks m)) (Chunks m)) Hkd) as Hle.
  rewrite take_drop, length_take, Nat.min_l in Hle by apply verifiedCount_le.
  by rewrite Hpre.
Qed.

(** ** An honest peer *)

(** The bytes of a chunk within those its list describes. *)
Lemma describes_slice cs at_ bs c :
  contiguous at_ cs → describes cs bs → c ∈ cs → Forall sound_chunk cs →
  (at_ ≤ Offset c)%Z ∧ part (take (Z.to_nat (Length c)) (drop (Z.to_nat (Offset c - at_)) bs)) c.
Proof.
  intros Hct (ps & <- & Hp) Hc Hall. revert at_ Hct. induction Hp as [|p d ps cs [Hl Hh] _ IH]; [set_solver|].
  intros at_ [Ho Hct]. apply Forall_cons in Hall as [[Hpos _] Hall].
  rewrite concat_cons. apply elem_of_cons in Hc as [->|Hc].
  - split; [lia|]. rewrite Ho, Z.sub_diag. change (Z.to_nat 0) with 0%nat; rewrite drop_0; rewrite take_app_length' by lia. by split.
  - destruct (IH Hc Hall _ Hct) as [Hle Hpart]. split; [lia|].
    rewrite drop_app_ge by lia.
    replace (Z.to_nat (Offset c - at_) - length p)%nat with (Z.to_nat (Offset c - (at_ + Length d))) by lia.
    done.
Qed.

(** An environment where nothing fails: the peer answers each read with the bytes of the
    blob, reads of local blobs end where the blobs do, and nobody cancels.  The index and
    the local blobs may still say anything. *)
Record honest (content : list byte) (cs : list Chunk) : Prop := {
  h_usable : usable env = true;
  h_busy : busy env = false;
  h_scan i : scanDone env i = false;
  h_pull i : pullDone env i = false;
  h_publish : publishDone env = false;
  h_index : match index env with Some f => ∀ d, f d ≠ None | None => True end;
  h_open i h : match openBlob env i h with
               | NotFound => True | OpenFailed => False
               | Open bs readable => (length bs ≤ readable)%nat
               end;
  h_ask i c : c ∈ cs →
    ask env i c = Answered 206 (take (Z.to_nat (Length c)) (drop (Z.to_nat (Offset c)) content)) false }.

Lemma fetchChunk_honest p c bs :
  pClosed p = false → part bs c → ∃ p', fetchChunk (Answered 206 bs false) p c = (p', None).
Proof.
  intros Hc [Hl Hh]. unfold fetchChunk, readChunk, Append. rewrite Hc. cbn [Z.eqb Pos.eqb andb]. cbv zeta.
  rewrite firstn_all2 by lia. rewrite (proj2 (Z.eqb_eq _ _) Hl), (bool_decide_true (hash bs = _)) by done.
  cbn [negb]. rewrite (proj2 (Z.ltb_ge _ _)) by lia. eauto.
Qed.

Lemma appendLocal_honest o p e :
  pClosed p = false → (0 ≤ lOffset (Donor e))%Z → (0 ≤ Length (EntryChunk e))%Z →
  match o with NotFound => True | OpenFailed => False | Open bs readable => (length bs ≤ readable)%nat end →
  ∃ p' ds b, appendLocal o p e = (p', ds, inr b).
Proof.
  intros Hc Ho Hl Hopen. unfold appendLocal. destruct o as [| |bs readable]; [eauto|done|]. cbv zeta.
  destruct (_ <? wrap_i64 _)%Z; [eauto|]. rewrite (proj2 (Z.ltb_ge _ 0)) by done.
  unfold Append. rewrite Hc. set (section := take (Z.to_nat (Length _)) _).
  assert (take (readable - Z.to_nat (lOffset (Donor e))) section = section) as ->.
  { apply firstn_all2. unfold section. rewrite length_take, length_drop. lia. }
  rewrite Nat.ltb_irrefl. pose proof (Truncate_back p section) as Hback.
  destruct (_ || _); [rewrite Hback|]; eauto.
Qed.

Lemma locate_honest content m k :
  honest content (Chunks m) → ∃ held, locate (index env) m k = inr held.
Proof.
  intros Hhon. unfold locate. pose proof (h_index _ _ Hhon) as Hi. destruct (index env) as [f|]; [|eauto].
  destruct (existsb _ _) eqn:Hex; [|eauto]. apply existsb_exists in Hex as (d & _ & Hd).
  specialize (Hi d). by destruct (f d).
Qed.

Lemma doEntries_honest content cs es i p out :
  honest content cs → (∀ c, c ∈ cs → part (take (Z.to_nat (Length c)) (drop (Z.to_nat (Offset c)) content)) c) →
  pClosed p = false → Forall sound_chunk (EntryChunk <$> es) → EntryChunk <$> es ⊆ cs →
  Forall (λ e, Availability_Valid (EntryAvailability e) = true ∧
    (EntryAvailability e = AvailabilityLocal → (0 ≤ lOffset (Donor e))%Z)) es →
  ∃ p' ds out', doEntries env i es p out = (p', ds, inr out').
Proof.
  intros Hh Hpart. revert i p out. induction es as [|e es IH]; intros i p out Hc Hall Hsub Hval; cbn [doEntries]; [eauto|].
  rewrite fmap_cons in *. apply Forall_cons in Hall as [[Hpos Hd] Hall].
  apply Forall_cons in Hval as [[Hv Hloc] Hval].
  assert (EntryChunk e ∈ cs) as Hin by (apply Hsub; left).
  assert (∀ q o, pClosed q = false → ∃ q' o', doFetch env i q (EntryChunk e) o = (q', inr o')) as Hfetch.
  { intros q o Hq. unfold doFetch. rewrite (h_ask _ _ Hh i _ Hin).
    destruct (fetchChunk_honest q (EntryChunk e) _ Hq (Hpart _ Hin)) as [q' ->]. eauto. }
  assert (∃ p1 ds out1, doEntry env i p e out = (p1, ds, inr out1)) as (p1 & ds & out1 & He).
  { unfold doEntry. rewrite (h_pull _ _ Hh). unfold Availability_Valid in Hv.
    case_bool_decide as Hk; [by eexists _, _, _|]. case_bool_decide as Hl.
    - pose proof (appendLocal_honest (openBlob env i (lBlobHash (Donor e))) p e Hc (Hloc Hl) ltac:(lia)
        (h_open _ _ Hh i _)) as (p' & ds & b & Ha).
      pose proof (appendLocal_spec (openBlob env i (lBlobHash (Donor e))) p e Hc) as Hs. rewrite Ha in Hs |- *.
      destruct b; [by eexists _, _, _|].
      destruct (Hfetch p' (countStale out)) as (q & o & ->); [by rewrite Hs|by eexists _, _, _].
    - rewrite bool_decide_true by (by case_bool_decide). destruct (Hfetch p out Hc) as (q & o & ->). by eexists _, _, _. }
  rewrite He. pose proof (doEntry_spec i p e out Hc Hpos) as Hspec. rewrite He in Hspec.
  assert (∃ p' ds' out', doEntries env (S i) es p1 out1 = (p', ds', inr out')) as (? & ? & ? & ->); [|by eexists _, _, _].
  apply IH; [|done| |done].
  - destruct (bool_decide (EntryAvailability e = AvailabilityKept)).
    + by destruct Hspec as [-> _].
    + by destruct Hspec as [(bs & -> & _) _].
  - intros c Hin'. apply Hsub. by right.
Qed.

(** The pull from such a peer: it publishes the content, unless the chunks of the manifest
    have another. *)
Lemma PullChunked_completes (expected : Hash) (m : Manifest) (node : Node) (content : list byte) :
  (covered (Chunks m) < 2 ^ 63)%Z →
  Manifest_Validate m = None → BlobHash m = expected → Chunks m ≠ [] →
  describes (Chunks m) content → hash content = expected → honest content (Chunks m) →
  (∃ ds out, PullChunked env expected m node =
     (mkNode [] (Some (default content (retained expected ds (stored node)))), ds, inr out)) ∨
  ∃ other, other ≠ content ∧ describes (Chunks m) other.
Proof.
  intros Hs Hv Hb Hne Hdesc Hh Hhon. destruct (Manifest_Validate_shape m Hv Hs) as (Hct & Hall & _).
  assert (∀ c, c ∈ Chunks m → part (take (Z.to_nat (Length c)) (drop (Z.to_nat (Offset c)) content)) c) as Hpart.
  { intros c Hc. destruct (describes_slice _ _ _ _ Hct Hdesc Hc Hall) as [_ Hp]. by rewrite Z.sub_0_r in Hp. }
  assert (IsZero expected = false) as Hz.
  { unfold Manifest_Validate, validateShape in Hv. rewrite Hb in Hv. by destruct (IsZero expected). }
  unfold PullChunked, OpenPartial. rewrite Hb, bool_decide_true, Hv by done. cbn [negb].
  destruct (Nat.eqb_spec (length (Chunks m)) 0) as [H0'|_]; [by apply nil_length_inv in H0'|].
  rewrite (h_usable _ _ Hhon), (h_busy _ _ Hhon), Hz. cbn [negb].
  destruct (verifiedPrefix_spec (scanDone env) (mkPartial expected (staging node) false) m) as [Hvp|[[j Hj] _]];
    try done; [|by rewrite (h_scan _ _ Hhon) in Hj].
  cbn [pData pBlob] in Hvp. rewrite Hvp.
  destruct (locate_honest content m (verifiedCount (staging node) 0 (Chunks m)) Hhon) as [held ->].
  destruct (plan_kept m _ held (verifiedCount_le (staging node) 0 (Chunks m))) as (Hcs & Hpv & Hkept).
  rewrite Hpv. cbn [negb]. fold (planOf m node held) in Hcs, Hkept |- *. fold (keptOf m node).
  pose proof (doPlan_spec expected m node held Hall Hs) as Hd.
  destruct (doEntries_honest content (Chunks m) (planOf m node held) 0 (mkPartial expected (keptOf m node) false)
    noOutcome) as (p' & ds & out & Hdo); [done|done|done|by rewrite Hcs|by rewrite Hcs| |].
  { apply Forall_lookup. intros j e' Hj. destruct (Hkept j e' Hj) as (_ & ? & ?). by split. }
  rewrite Hdo in Hd |- *. destruct Hd as (_ & bs & -> & Hwhole & _). cbv zeta.
  destruct (decide (bs = content)) as [->|Hother]; [left|right; by exists bs].
  destruct (reported_retained expected ds node) as [Hret _]. set (node1 := foldl _ node ds) in *.
  unfold Publish. cbn [pClosed pData pBlob].
  rewrite (bool_decide_true (expected = expected)), (h_publish _ _ Hhon), (bool_decide_true (hash content = _)) by done.
  cbn [negb]. unfold publishFile. exists ds. rewrite <-Hret. destruct (stored node1); eauto.
Qed.

(** C31. With a peer that serves the blob and a manifest that describes it, a pull publishes
    exactly the blob, from any staging file a killed transfer may have left and whatever
    the local index claims, unless other bytes too have every chunk of the manifest (the
    hash then has a collision).  Bytes already stored stay where they are of the digest;
    where they are not, they stay or give way to the blob. *)
Theorem pull_completes (expected : Hash) (m : Manifest) (node : Node) (content : list byte) :
  (covered (Chunks m) < 2 ^ 63)%Z →
  Manifest_Validate m = None → BlobHash m = expected → Chunks m ≠ [] →
  describes (Chunks m) content → hash content = expected → honest content (Chunks m) →
  (∃ bs ds out, PullChunked env expected m node = (mkNode [] (Some bs), ds, inr out) ∧
     (bs = content ∨ stored node = Some bs) ∧
     (∀ old, stored node = Some old → hash old = expected → bs = old)) ∨
  ∃ other, other ≠ content ∧ describes (Chunks m) other ∧ ∃ x y, x ≠ y ∧ hash x = hash y.
Proof.
  intros Hs Hv Hb Hne Hdesc Hh Hhon.
  destruct (PullChunked_completes expected m node content) as [(ds & out & Heq)|(other & Hne' & Hd')]; try done.
  - left. eexists _, ds, out. split; [done|]. split.
    + destruct (retained expected ds (stored node)) as [old|] eqn:Hr; [right|by left]. by apply retained_kept in Hr.
    + intros old -> Ho. by rewrite retained_intact.
  - right. exists other. destruct (describes_inj _ _ _ Hd' Hdesc) as [?|?]; done.
Qed.
End described.

(** ** Witnesses *)

(** A peer that serves the example blob; an index that claims every chunk is at the start of
    that very blob, of which this node has ten bytes, until it is found damaged. *)
Definition ex_env : Env :=
  mkEnv true false (λ _, false) (λ _, false) false
    (Some (λ d, Some [mkLocal d ex_blob 0 9]))
    (λ i _, if (i <=? 1)%nat then Open (take 10 ex_bytes) 10 else NotFound)
    (λ _ _, true)
    (λ _ c, Answered 206 (take (Z.to_nat (Length c)) (drop (Z.to_nat (Offset c)) ex_bytes)) false).

(** What a killed transfer left: one good chunk and some junk; the blob is stored damaged. *)
Definition ex_node : Node := mkNode (take 9 ex_bytes ++ [x00; x01]) (Some (take 10 ex_bytes)).

(** A peer that breaks off every answer. *)
Definition ex_broken : Env :=
  mkEnv true false (λ _, false) (λ _, false) false None (λ _ _, NotFound) (λ _ _, false) (λ _ c, Answered 206 [x00] true).

Lemma pull_publishes_witness :
  ∃ out, @PullChunked ex_hash ex_text ex_env ex_blob ex_manifest ex_node
      = (mkNode [] (Some ex_bytes), [(1%nat, ex_blob)], inr out) ∧
    oChunksKept out = 1%Z ∧ Bytes out = CoveredSize ex_manifest.
Proof.
  eexists. split; [vm_compute; reflexivity|].
  split; [vm_compute; reflexivity|].
  eapply (@pull_publishes ex_hash ex_text ex_env ex_blob ex_manifest ex_node);
    [vm_compute; reflexivity|vm_compute; reflexivity].
Defined.

Lemma pull_failure_keeps_witness :
  ∃ node' e, @PullChunked ex_hash ex_text ex_broken ex_blob ex_manifest ex_node = (node', [], inl e) ∧
    e = ErrIO ∧ stored node' = stored ex_node.
Proof.
  eexists _, _. split; [vm_compute; reflexivity|]. split; [reflexivity|].
  refine (proj1 (@pull_failure_keeps ex_hash ex_text ex_broken ex_blob ex_manifest ex_node _ [] ErrIO _ _ _)).
  - vm_compute; reflexivity.
  - assert (forallb (λ c, (0 <? Length c)%Z && negb (IsZero (Chunking.Digest c))) (Chunks ex_manifest) = true) as Hall
      by (vm_compute; reflexivity).
    apply Forall_forall. intros c Hc. rewrite forallb_forall in Hall.
    specialize (Hall c (proj1 (list_elem_of_In _ _) Hc)). apply andb_true_iff in Hall as [Hl Hd].
    split; [by apply Z.ltb_lt|]. by apply negb_true_iff, bool_decide_eq_false in Hd.
  - vm_compute; reflexivity.
Defined.

Lemma ex_describes : @describes ex_hash (Chunks ex_manifest) ex_bytes.
Proof.
  exists [take 9 ex_bytes; take 9 (drop 9 ex_bytes); take 14 (drop 18 ex_bytes); take 9 (drop 32 ex_bytes);
          drop 41 ex_bytes].
  split; [vm_compute; reflexivity|]. vm_compute. repeat (constructor; [split; reflexivity|]). constructor.
Qed.

Lemma ex_honest : honest ex_env ex_bytes (Chunks ex_manifest).
Proof. constructor; try done. intros i h. cbn. destruct (i <=? 1)%nat; [cbn; lia|done]. Qed.

Lemma pull_completes_witness :
  (∃ bs ds out, @PullChunked ex_hash ex_text ex_env ex_blob ex_manifest ex_node = (mkNode [] (Some bs), ds, inr out) ∧
     (bs = ex_bytes ∨ stored ex_node = Some bs) ∧
     (∀ old, stored ex_node = Some old → @hash ex_hash old = ex_blob → bs = old)) ∨
  ∃ other, other ≠ ex_bytes ∧ @describes ex_hash (Chunks ex_manifest) other ∧ ∃ x y, x ≠ y ∧ @hash ex_hash x = @hash ex_hash y.
Proof.
  refine (@pull_completes ex_hash ex_text ex_env ex_blob ex_manifest ex_node ex_bytes _ _ _ _ ex_describes _ ex_honest).
  - vm_compute; reflexivity.
  - vm_compute; reflexivity.
  - vm_compute; reflexivity.
  - vm_compute; discriminate.
  - reflexivity.
Defined.
