(* ===== verification/BlobCatalog.v ===== *)
(** * BlobCatalog: what the node's catalog and content store know of its blobs

    Models the tables behind integrity.Catalog with the operations of
    internal/persistence/catalog/integrity.go, releases.go, durability.go and
    thumbnails.go, and the part of internal/storagefabric/cas/fs.go the collector and the
    checker use.  An operation is one transaction: a function of the world that leaves it
    as it was when it fails.  A digest is its canonical text; a column that may be NULL,
    and Go's zero time, are [None]; a time is its nanoseconds. *)

From S2P Require Import Prelude GoText GoPath.
From Stdlib Require Import Strings.Byte.

Inductive error :=
  | ErrWantedAgain | ErrUnknownBlob | ErrNotFound | ErrCorrupt
  | ErrRestrict | ErrForeignKey | ErrNoEvidence | ErrBasis | ErrNoGeneration
  | ErrTempName | ErrIO | ErrContext | ErrNegativeGrace | ErrNegativeTempGrace
  | ErrNegativeFreshness | ErrManifest | ErrFetch | ErrShortChunk | ErrNotVerified
  | ErrBytesGone | ErrBlobSizeUnknown | ErrTransferState.

(** ** The tables *)

Record BlobRow := mkRow { rSize : Z; rSince : option Z }.

Record Asset := mkAsset { aId : string; aBlob : option string; aMissing : option Z }.

Record Thumb := mkThumb { tReady : bool; tHash : option string }.

Record ReplicaRow := mkReplicaRow {
  rrState : string; rrBytes : Z; rrVerifiedAt : option Z; rrReportedAt : option Z }.

Record PeerRow := mkPeerRow {
  prName : string; prEndpoint : string; prHealth : string; prMode : string; prKey : list byte;
  prSelf : bool }.

Record Release := mkRelease { relCause : string; relSource : string; relAt : Z }.

Record Evidence := mkEvidence {
  evHash : string; evSize : Z; evBasis : string; evPeer : string; evPeerName : string;
  evEndpoint : string; evReportedAt : option Z; evVerifiedAt : option Z; evRecordedAt : Z;
  evReleasedAt : option Z; evSince : option Z }.

Definition BasisVerifiedRemote := "verified_remote".
Definition BasisSolePeer := "sole_peer".
Definition BasisReleased := "released".

(** An entry of the quarantine ledger. *)
Record Quarantined := mkQuarantined {
  qHash : string; qPeer : string; qPath : string; qActual : string; qSize : Z; qAt : Z }.

Inductive Event :=
  | ReplicaPresent (h peer previous : string)
  | ReplicaCorrupt (h peer : string)
  | ReplicaMissing (h peer previous : string)
  | AssetMissing (asset h : string)
  | BlobReleased (h cause source : string)
  | BlobReleaseCleared (h why : string)
  | ThumbnailDeleted (source : string) (bucket recipe : Z) (t : Thumb)
  | BlobReclaimed (h : string) (size : Z) (tracked : bool) (at_ : Z)
  | BlobCreated (h : string) (size : Z)
  | BlobSizeCorrected (h : string) (size : Z)
  | TransferChanged (transition h source destination : string) (bytes : Z) (reason : string)
      (contributions : list (string * Z))
  | SyncReconciled (subject scope : string) (counts : list Z).

(** Evidence is kept newest first; a pin is a (blob, peer), a placement a (source, blob). *)
Record Catalog := mkCatalog {
  blobs : gmap string BlobRow;
  assets : list Asset;
  pins : gset (string * string);
  placements : gset (string * string);
  thumbs : gmap (string * Z * Z) Thumb;
  scanned : list string;
  releases : gmap string Release;
  evidence : list Evidence;
  replicas : gmap (string * string) ReplicaRow;
  peers : gmap string PeerRow;
  ledger : list Quarantined;
  outbox : list Event }.

(** A file of the store: its bytes and its modification time. *)
Record File := mkFile { fData : list byte; fMtime : Z }.

(** The store: the blobs by the digest that names them, the files of tmp/ with their size
    and modification time, and what was moved to quarantine, by digest and instant. *)
Record Disk := mkDisk {
  files : gmap string File;
  temps : gmap string (Z * Z);
  quarantine : gmap (string * Z) (list byte) }.

Record World := mkWorld { cat : Catalog; disk : Disk }.

Definition fileSize (f : File) : Z := Z.of_nat (length (fData f)).

(** ** Writing one table *)

Definition set_blobs (f : gmap string BlobRow → gmap string BlobRow) (c : Catalog) : Catalog :=
  mkCatalog (f (blobs c)) (assets c) (pins c) (placements c) (thumbs c) (scanned c) (releases c)
    (evidence c) (replicas c) (peers c) (ledger c) (outbox c).
Definition set_assets (f : list Asset → list Asset) (c : Catalog) : Catalog :=
  mkCatalog (blobs c) (f (assets c)) (pins c) (placements c) (thumbs c) (scanned c) (releases c)
    (evidence c) (replicas c) (peers c) (ledger c) (outbox c).
Definition set_thumbs (f : gmap (string * Z * Z) Thumb → gmap (string * Z * Z) Thumb) (c : Catalog) : Catalog :=
  mkCatalog (blobs c) (assets c) (pins c) (placements c) (f (thumbs c)) (scanned c) (releases c)
    (evidence c) (replicas c) (peers c) (ledger c) (outbox c).
Definition set_releases (f : gmap string Release → gmap string Release) (c : Catalog) : Catalog :=
  mkCatalog (blobs c) (assets c) (pins c) (placements c) (thumbs c) (scanned c) (f (releases c))
    (evidence c) (replicas c) (peers c) (ledger c) (outbox c).
Definition set_evidence (f : list Evidence → list Evidence) (c : Catalog) : Catalog :=
  mkCatalog (blobs c) (assets c) (pins c) (placements c) (thumbs c) (scanned c) (releases c)
    (f (evidence c)) (replicas c) (peers c) (ledger c) (outbox c).
Definition set_replicas (f : gmap (string * string) ReplicaRow → gmap (string * string) ReplicaRow)
    (c : Catalog) : Catalog :=
  mkCatalog (blobs c) (assets c) (pins c) (placements c) (thumbs c) (scanned c) (releases c)
    (evidence c) (f (replicas c)) (peers c) (ledger c) (outbox c).
Definition set_ledger (f : list Quarantined → list Quarantined) (c : Catalog) : Catalog :=
  mkCatalog (blobs c) (assets c) (pins c) (placements c) (thumbs c) (scanned c) (releases c)
    (evidence c) (replicas c) (peers c) (f (ledger c)) (outbox c).
Definition emit (evs : list Event) (c : Catalog) : Catalog :=
  mkCatalog (blobs c) (assets c) (pins c) (placements c) (thumbs c) (scanned c) (releases c)
    (evidence c) (replicas c) (peers c) (ledger c) (outbox c ++ evs).

(** ** Who wants a blob *)

Definition hasAsset (c : Catalog) (h : string) : bool :=
  existsb (λ a, bool_decide (aBlob a = Some h)) (assets c).
Definition hasPin (c : Catalog) (h : string) : bool := existsb (λ p, bool_decide (p.1 = h)) (elements (pins c)).
Definition hasPlacement (c : Catalog) (h : string) : bool :=
  existsb (λ p, bool_decide (p.2 = h)) (elements (placements c)).
Definition hasScanned (c : Catalog) (h : string) : bool := bool_decide (h ∈ scanned c).

Definition readyFor (h : string) (t : Thumb) : bool := bool_decide (tHash t = Some h) && tReady t.
Definition hasThumb (c : Catalog) (h : string) : bool :=
  existsb (λ kt, readyFor h kt.2) (map_to_list (thumbs c)).

(** Anything but an asset, which the foreign key refuses. *)
Definition wanted (c : Catalog) (h : string) : bool :=
  hasPin c h || hasPlacement c h || hasScanned c h || hasThumb c h.

(** The count the listing computes. *)
Definition References (c : Catalog) (h : string) : nat :=
  length (filter (λ a, aBlob a = Some h) (assets c))
  + length (filter (λ p, p.1 = h) (elements (pins c)))
  + length (filter (λ p, p.2 = h) (elements (placements c)))
  + length (filter (λ kt, readyFor h kt.2) (map_to_list (thumbs c))).

(** ** Reads *)

Record Blob := mkBlob {
  bHash : string; bSize : Z; bReferences : nat;
  bSince : option Z; bReleasedAt : option Z; bCause : string }.

(** The join with the releases leaves out a blob a scanned file reaches. *)
Definition scanBlob (c : Catalog) (h : string) (r : BlobRow) : Blob :=
  let rel := if hasScanned c h then None else releases c !! h in
  mkBlob h (rSize r) (References c h) (rSince r) (relAt <$> rel) (default "" (relCause <$> rel)).

(** [ORDER BY b.hash] *)
Definition Blobs (c : Catalog) : list Blob :=
  sort_by (key_less bHash str_lt) ((λ hr, scanBlob c hr.1 hr.2) <$> map_to_list (blobs c)).

Definition BlobOf (c : Catalog) (h : string) : error + Blob :=
  match blobs c !! h with Some r => inr (scanBlob c h r) | None => inl ErrUnknownBlob end.

Definition Known (c : Catalog) (h : string) : bool := bool_decide (is_Some (blobs c !! h)).

Definition isSelf (c : Catalog) (p : string) : bool :=
  match peers c !! p with Some r => prSelf r | None => false end.

Definition SelfPinnedHashes (c : Catalog) : gset string :=
  list_to_set (fst <$> filter (λ p, isSelf c p.2 = true) (elements (pins c)))
  ∪ list_to_set (snd <$> elements (placements c)).

Record Peer := mkPeer {
  PeerID : string; pName : string; pEndpoint : string; pHealth : string; pKey : list byte }.

Definition scanPeer (id : string) (r : PeerRow) : Peer := mkPeer id (prName r) (prEndpoint r) (prHealth r) (prKey r).

(** [WHERE is_self = 0 ORDER BY id] *)
Definition Peers (c : Catalog) : list Peer :=
  sort_by (key_less PeerID str_lt)
    ((λ ir, scanPeer ir.1 ir.2) <$> filter (λ ir, prSelf ir.2 = false) (map_to_list (peers c))).

Record Replica := mkReplica {
  rPeer : Peer; rState : string; rBytes : Z; rVerifiedAt : option Z; rReportedAt : option Z }.

(** An inner join: a row whose peer is gone, or is this node, is not there. *)
Definition scanReplica (c : Catalog) (h : string) (row : string * string * ReplicaRow) : option Replica :=
  let '(b, p, r) := row in
  if bool_decide (b = h) then
    match peers c !! p with
    | Some pr =>
        if prSelf pr then None
        else Some (mkReplica (scanPeer p pr) (rrState r) (rrBytes r) (rrVerifiedAt r) (rrReportedAt r))
    | None => None
    end
  else None.

Definition Replicas (c : Catalog) (h : string) : list Replica :=
  sort_by (key_less (λ r, PeerID (rPeer r)) str_lt) (omap (scanReplica c h) (map_to_list (replicas c))).

(** ** The grace window and the releases *)

Definition restartWindow (h : string) : Catalog → Catalog := set_blobs (alter (λ r, mkRow (rSize r) None) h).

(** Forgets a release; an event when there was one. *)
Definition clearRelease (h why : string) (c : Catalog) : Catalog :=
  match releases c !! h with
  | Some _ => emit [BlobReleaseCleared h why] (set_releases (delete h) c)
  | None => c
  end.

Definition markWanted (h why : string) (c : Catalog) : Catalog := clearRelease h why (restartWindow h c).

Definition recordReleaseIfUnwanted (h cause source : string) (now : Z) (c : Catalog) : Catalog :=
  if hasPin c h || hasPlacement c h || hasAsset c h || hasScanned c h then c
  else emit [BlobReleased h cause source]
         (restartWindow h (set_releases (insert h (mkRelease cause source now)) c)).

(** [WHERE hash = ? AND unreferenced_since IS NULL], one blob after the other. *)
Definition markOne (at_ : Z) (c : Catalog) (h : string) : Catalog :=
  set_blobs (alter (λ r, match rSince r with None => mkRow (rSize r) (Some at_) | Some _ => r end) h) c.
Definition MarkUnreferenced (hs : list string) (at_ : Z) (c : Catalog) : Catalog := foldl (markOne at_) c hs.

Definition clearOne (c : Catalog) (h : string) : Catalog := clearRelease h "referenced" (restartWindow h c).
Definition ClearUnreferenced (hs : list string) (c : Catalog) : Catalog := foldl clearOne c hs.

(** ** Evidence *)

Definition RecordDurability (e : Evidence) (c : Catalog) : error + Catalog :=
  if negb (bool_decide (evBasis e ∈ [BasisVerifiedRemote; BasisSolePeer; BasisReleased])) then inl ErrBasis
  else if bool_decide (evBasis e = BasisReleased)
          && (bool_decide (evReleasedAt e = None) || bool_decide (evSince e = None)) then inl ErrNoGeneration
  else inr (set_evidence (cons e) c).

(** The evidence of one attempt on a blob. *)
Definition attempt (h : string) (at_ : Z) (e : Evidence) : bool :=
  bool_decide (evHash e = h) && (evRecordedAt e =? at_)%Z.

Definition hasDurabilityEvidence (c : Catalog) (h : string) : bool :=
  existsb (λ e, bool_decide (evHash e = h)) (evidence c).

(** NULL is the same as nothing. *)
Definition same (a b : option Z) : bool :=
  match a, b with Some x, Some y => (x =? y)%Z | _, _ => false end.

Definition reliedOnRelease (h : string) (at_ : Z) (e : Evidence) : bool :=
  attempt h at_ e && bool_decide (evBasis e = BasisReleased).

Definition wantedAtReclaim (c : Catalog) (h : string) (at_ : Z) : bool :=
  wanted c h ||
  match List.find (reliedOnRelease h at_) (evidence c) with
  | None => false
  | Some e => negb (same (evReleasedAt e) (relAt <$> releases c !! h))
              || negb (same (evSince e) (blobs c !! h ≫= rSince))
  end.

(** ** Reclaiming *)

Definition DeleteThumbnailsForSource (source : string) (c : Catalog) : Catalog :=
  let found := filter (λ kt, kt.1.1.1 = source) (map_to_list (thumbs c)) in
  emit ((λ kt, ThumbnailDeleted source kt.1.1.2 kt.1.2 kt.2) <$> found)
    (set_thumbs (filter (λ kt, kt.1.1.1 ≠ source)) c).

(** The row and what the foreign keys take with it (a scanned file would lose its digest,
    but nothing scanned reaches the blob here). *)
Definition deleteBlob (h : string) (c : Catalog) : Catalog :=
  set_replicas (filter (λ kr, kr.1.1 ≠ h)) (set_blobs (delete h) c).

(** The catalog it leaves and its error: a blob wanted again keeps its row and loses the
    evidence of this attempt. *)
Definition Reclaim (h : string) (size : Z) (tracked : bool) (at_ : Z) (c : Catalog) : Catalog * option error :=
  let reclaimed := emit [BlobReclaimed h size tracked at_] in
  if negb tracked then (reclaimed c, None)
  else if wantedAtReclaim c h at_ then
    (set_evidence (filter (λ e, attempt h at_ e = false)) c, Some ErrWantedAgain)
  else if negb (hasDurabilityEvidence c h) then (c, Some ErrNoEvidence)
  else
    let c1 := DeleteThumbnailsForSource h c in
    match blobs c !! h with
    | None => (c1, None)
    | Some _ =>
        if hasAsset c h then (c, Some ErrRestrict)
        else (reclaimed (set_releases (delete h) (deleteBlob h c1)), None)
    end.

Definition MarkReplicaMissing (h peer : string) (c : Catalog) : Catalog :=
  match replicas c !! (h, peer) with
  | None => c
  | Some r =>
      if bool_decide (rrState r = "missing") then c
      else emit [ReplicaMissing h peer (rrState r)]
             (set_replicas (insert (h, peer) (mkReplicaRow "missing" 0 (rrVerifiedAt r) (rrReportedAt r))) c)
  end.

(** ** The store *)

Definition Delete (h : string) (d : Disk) : error + Disk :=
  match files d !! h with
  | Some _ => inr (mkDisk (delete h (files d)) (temps d) (quarantine d))
  | None => inl ErrNotFound
  end.

Record Descriptor := mkDescriptor { dHash : string; dSize : Z; dMtime : Z }.

Definition describe (h : string) (f : File) : Descriptor := mkDescriptor h (fileSize f) (fMtime f).

(** In the lexical order of the paths. *)
Definition Walk (d : Disk) : list Descriptor :=
  sort_by (key_less dHash str_lt) ((λ hf, describe hf.1 hf.2) <$> map_to_list (files d)).

Definition Stat (h : string) (d : Disk) : error + Descriptor :=
  match files d !! h with Some f => inr (describe h f) | None => inl ErrNotFound end.

Record TempFile := mkTempFile { tmName : string; tmSize : Z; tmMtime : Z }.

Fixpoint HasSuffix (suffix s : string) : bool :=
  bool_decide (s = suffix) ||
  match s with EmptyString => false | String _ s => HasSuffix suffix s end.

(** The entries of tmp/ that end in .part, in the order of a directory listing. *)
Definition TempFiles (d : Disk) : list TempFile :=
  sort_by (key_less tmName str_lt)
    ((λ nf, mkTempFile nf.1 nf.2.1 nf.2.2)
     <$> filter (λ nf, HasSuffix ".part" nf.1 = true) (map_to_list (temps d))).

(** A name that is its own base: no separator in it, and not empty. *)
Definition RemoveTemp (name : string) (d : Disk) : error + Disk :=
  if bool_decide (name = "") || has_byte slash name || negb (HasSuffix ".part" name) then inl ErrTempName
  else
    let base := String.substring 0 (String.length name - 5) name in
    inr (match temps d !! name with
         | None => d
         | Some _ => mkDisk (files d)
                       (delete (base +:+ ".playhead") (delete (base +:+ ".pieces") (delete name (temps d))))
                       (quarantine d)
         end).

(** ** Verifying *)

(** The canonical text of the digest of some bytes: hashing is outside the repository. *)
Class DigestOf := digestOf : list byte → string.

Definition Hex (h : string) : string := String.substring 7 (String.length h) h.
Definition quarantineName (h : string) (at_ : Z) : string := Hex h +:+ "." +:+ FormatInt at_.

(** Moves a blob aside; a rename replaces what has that name. *)
Definition Quarantine (h : string) (at_ : Z) (d : Disk) : error + Disk * string :=
  match files d !! h with
  | None => inl ErrNotFound
  | Some f => inr (mkDisk (delete h (files d)) (temps d) (<[(h, at_) := fData f]> (quarantine d)), quarantineName h at_)
  end.

Inductive Verdict := Clean | Corrupt (actual : string) (size : Z) (path : string).

(** [moveFails]: the blob could not be moved aside, and the corruption names no path. *)
Definition Verify `{DigestOf} (h : string) (at_ : Z) (moveFails : bool) (d : Disk) : Disk * (error + Verdict) :=
  match files d !! h with
  | None => (d, inl ErrNotFound)
  | Some f =>
      let got := digestOf (fData f) in
      if bool_decide (got = h) then (d, inr Clean)
      else if moveFails then (d, inr (Corrupt got (fileSize f) ""))
      else match Quarantine h at_ d with
           | inl _ => (d, inr (Corrupt got (fileSize f) ""))
           | inr (d', path) => (d', inr (Corrupt got (fileSize f) path))
           end
  end.

(** ** What this node's replica is *)

(** The state of this peer's row, and the bytes it says are present. *)
Definition replicaState (c : Catalog) (h self : string) : string * Z :=
  match replicas c !! (h, self) with Some r => (rrState r, rrBytes r) | None => ("", 0%Z) end.

(** The upsert, whose foreign keys need the blob and the peer; the columns of an existing
    row it does not name stay. *)
Definition upsertReplica (h self state : string) (bytes : Z) (verified : option Z) (c : Catalog) : error + Catalog :=
  if bool_decide (blobs c !! h = None) || bool_decide (peers c !! self = None) then inl ErrForeignKey
  else
    let old := replicas c !! (h, self) in
    let verifiedAt := match verified with Some t => Some t | None => old ≫= rrVerifiedAt end in
    inr (set_replicas (insert (h, self) (mkReplicaRow state bytes verifiedAt (old ≫= rrReportedAt))) c).

Definition MarkVerified (self h : string) (at_ : Z) (c : Catalog) : error + Catalog :=
  let '(previous, size) := replicaState c h self in
  let size := if (size =? 0)%Z then default 0%Z (rSize <$> blobs c !! h) else size in
  match upsertReplica h self "present" size (Some at_) c with
  | inl e => inl e
  | inr c => inr (if bool_decide (previous = "present") then c else emit [ReplicaPresent h self previous] c)
  end.

Definition MarkCorrupt (self h actual : string) (size : Z) (path : string) (at_ : Z) (c : Catalog) : error + Catalog :=
  match upsertReplica h self "corrupt" 0 None c with
  | inl e => inl e
  | inr c => inr (emit [ReplicaCorrupt h self] (set_ledger (cons (mkQuarantined h self path actual size at_)) c))
  end.

Definition newlyMissing (h : string) (a : Asset) : bool :=
  bool_decide (aBlob a = Some h) && bool_decide (aMissing a = None).

Definition MarkMissing (self h : string) (at_ : Z) (c : Catalog) : error + Catalog :=
  let previous := (replicaState c h self).1 in
  match upsertReplica h self "missing" 0 None c with
  | inl e => inl e
  | inr c =>
      let lost := filter (λ a, newlyMissing h a = true) (assets c) in
      let flag a := if newlyMissing h a then mkAsset (aId a) (aBlob a) (Some at_) else a in
      inr (emit ((if bool_decide (previous = "missing") then [] else [ReplicaMissing h self previous])
                 ++ ((λ a, AssetMissing (aId a) h) <$> lost))
             (set_assets (fmap flag) c))
  end.

(** ** What this node still accounts for (convergence.go) *)

(** The blob an asset names, unless its bytes are marked missing. *)
Definition liveBlob (a : Asset) : option string :=
  match aMissing a with None => aBlob a | Some _ => None end.

(** [SELECT DISTINCT ... ORDER BY blob_hash] *)
Definition canonicalBlobs (c : Catalog) : list string :=
  sort_by str_lt (elements (list_to_set (omap liveBlob (assets c)) : gset string)).

Definition IsBlobDesired (c : Catalog) (h : string) : bool :=
  existsb (λ a, bool_decide (liveBlob a = Some h)) (assets c).

(** ** The guarded unlink *)

(** The check and the unlink are one transaction: nobody writes the catalog in between. *)
Definition GuardUnlink (h : string) (unlink : Disk → error + Disk) (w : World) : World * option error :=
  if Known (cat w) h || wanted (cat w) h then (w, Some ErrWantedAgain)
  else match unlink (disk w) with
       | inl e => (w, Some e)
       | inr d => (mkWorld (cat w) d, None)
       end.

(** ** What the reads say *)

Lemma elem_of_Blobs c b :
  b ∈ Blobs c ↔ ∃ h r, blobs c !! h = Some r ∧ b = scanBlob c h r.
Proof.
  unfold Blobs. rewrite elem_of_sort_by, list_elem_of_fmap. split.
  - intros ([h r] & -> & Hin%elem_of_map_to_list). eauto.
  - intros (h & r & Hr & ->). exists (h, r). split; [done|]. by apply elem_of_map_to_list.
Qed.

Lemma elem_of_known c h : h ∈ (list_to_set (bHash <$> Blobs c) : gset string) ↔ is_Some (blobs c !! h).
Proof.
  rewrite elem_of_list_to_set, list_elem_of_fmap. split.
  - intros (b & -> & (h' & r & Hr & ->)%elem_of_Blobs). by exists r.
  - intros [r Hr]. exists (scanBlob c h r). split; [done|]. apply elem_of_Blobs. eauto.
Qed.

Lemma elem_of_Replicas c h r :
  r ∈ Replicas c h → ∃ row, replicas c !! (h, PeerID (rPeer r)) = Some row ∧
    rrState row = rState r ∧ rrReportedAt row = rReportedAt r ∧
    ∃ pr, peers c !! PeerID (rPeer r) = Some pr ∧ prSelf pr = false ∧ rPeer r = scanPeer (PeerID (rPeer r)) pr.
Proof.
  unfold Replicas. rewrite elem_of_sort_by, list_elem_of_omap.
  intros ([[b p] row] & Hin%elem_of_map_to_list & Hsc). cbn in Hsc.
  case_bool_decide as Hb; [subst b|done]. destruct (peers c !! p) as [pr|] eqn:Hp; [|done].
  destruct (prSelf pr) eqn:Hs; [done|]. injection Hsc as <-. cbn. eauto 10.
Qed.

Lemma elem_of_Walk d x : x ∈ Walk d ↔ ∃ h f, files d !! h = Some f ∧ x = describe h f.
Proof.
  unfold Walk. rewrite elem_of_sort_by, list_elem_of_fmap. split.
  - intros ([h f] & -> & Hin%elem_of_map_to_list). eauto.
  - intros (h & f & Hf & ->). exists (h, f). split; [done|]. by apply elem_of_map_to_list.
Qed.

Lemma length_Walk d : length (Walk d) = size (files d).
Proof. unfold Walk. by rewrite length_sort_by, length_fmap, length_map_to_list. Qed.

Lemma length_Blobs c : length (Blobs c) = size (blobs c).
Proof. unfold Blobs. by rewrite length_sort_by, length_fmap, length_map_to_list. Qed.

Lemma NoDup_Blobs c : NoDup (bHash <$> Blobs c).
Proof. unfold Blobs. rewrite sort_by_perm, <-list_fmap_compose. apply NoDup_fst_map_to_list. Qed.

Lemma NoDup_Walk d : NoDup (Walk d).
Proof.
  apply (NoDup_fmap_1 dHash). unfold Walk. rewrite sort_by_perm, <-list_fmap_compose. apply NoDup_fst_map_to_list.
Qed.

Lemma TempFiles_temps d d' : temps d' = temps d → TempFiles d' = TempFiles d.
Proof. unfold TempFiles. by intros ->. Qed.

Lemma IsBlobDesired_canonical c h : IsBlobDesired c h = true ↔ h ∈ canonicalBlobs c.
Proof.
  unfold IsBlobDesired, canonicalBlobs.
  rewrite elem_of_sort_by, elem_of_elements, elem_of_list_to_set, list_elem_of_omap, existsb_exists.
  split.
  - intros (a & Hin & Ha%bool_decide_eq_true). exists a. by rewrite list_elem_of_In.
  - intros (a & Hin & Ha). exists a. rewrite <-list_elem_of_In. split; [done|]. by apply bool_decide_eq_true.
Qed.

(** Marking a blob's assets missing takes it off that list, and puts none on it. *)
Lemma MarkMissing_desired self h at_ c c' :
  MarkMissing self h at_ c = inr c' →
  IsBlobDesired c' h = false ∧ ∀ k, IsBlobDesired c k = false → IsBlobDesired c' k = false.
Proof.
  unfold MarkMissing. destruct (upsertReplica _ _ _ _ _ _) as [e|c1] eqn:Hu; [done|]. intros [= <-].
  assert (assets c1 = assets c) as Hc.
  { unfold upsertReplica in Hu. destruct (_ || _); [done|]. by injection Hu as <-. }
  unfold IsBlobDesired. cbn [emit assets set_assets]. rewrite Hc.
  set (flag := λ a, if newlyMissing h a then mkAsset (aId a) (aBlob a) (Some at_) else a).
  assert (∀ a k, liveBlob (flag a) = Some k → k ≠ h ∧ liveBlob a = Some k) as Hflag.
  { intros a k. unfold flag, newlyMissing, liveBlob. destruct (decide (aBlob a = Some h)) as [Ha|Ha].
    - rewrite bool_decide_true by done. destruct (aMissing a) eqn:Hm; cbn; [by rewrite Hm|done].
    - rewrite bool_decide_false by done. cbn. destruct (aMissing a); [done|]. intros Hk. split; congruence. }
  assert (∀ k, (k = h ∨ existsb (λ a, bool_decide (liveBlob a = Some k)) (assets c) = false) →
    existsb (λ a, bool_decide (liveBlob a = Some k)) (flag <$> assets c) = false) as Hall.
  { intros k Hk. apply not_true_is_false. rewrite existsb_exists. intros (a & Hin & Ha%bool_decide_eq_true).
    apply list_elem_of_In, list_elem_of_fmap in Hin as (a' & -> & Hin). apply Hflag in Ha as [Hne Ha].
    destruct Hk as [?|Hk]; [done|]. apply not_true_iff_false in Hk. destruct Hk. apply existsb_exists.
    exists a'. rewrite <-list_elem_of_In. split; [done|]. by apply bool_decide_eq_true. }
  split; [apply Hall; by left|]. intros k Hk. apply Hall. by right.
Qed.

(** A blob that verifies again stays off it. *)
Lemma MarkVerified_desired self h at_ c c' : MarkVerified self h at_ c = inr c' → assets c' = assets c.
Proof.
  unfold MarkVerified, upsertReplica. destruct (replicaState _ _ _). destruct (_ || _); [done|].
  intros [= <-]. by destruct (bool_decide _).
Qed.
