(* ===== verification/StoreSteps.v ===== *)
(** * StoreSteps: programs over the catalog and the store

    What the collector, the checker and the repairer of internal/storagefabric/integrity and
    the transfer job of internal/worker are: programs in a small monad that pass the world
    along and may fail.  Between any two of their transactions other processes may do
    anything to the catalog and the store ([others]); a transaction may fail, or take effect
    and be reported as failed ([Fault]).  The trace is the history of what a program read
    and wrote, each with the world at that instant.  Small logics follow: of traces under
    any interference ([hoare]), of programs that only read ([dry]), of runs nothing disturbs
    ([does], [runs]), and of what a program may do between the others' steps ([within]). *)

From S2P Require Import Prelude GoText GoPath BlobCatalog.
From Stdlib Require Import Strings.Byte.

(** ** The options the programs share (durability.go, integrity.go) *)

Definition DefaultFreshness : Z := 3600 * 10 ^ 9.

(** What a peer answers when asked for a blob. *)
Inductive Answer := Held | Lacks | Silent | Unanswerable.

(** What the catalog's rows and the peers say: [Durability] is absent or answers, and may
    answer differently every time it is asked. *)
Record Durability := mkDurability { Controller : nat → bool; Holds : nat → Peer → string → Answer }.

Record Options := mkOptions {
  oDurability : option Durability; HonourReleases : bool; Freshness : Z; oReaper : bool }.

Definition resolve (o : Options) : error + Options :=
  if (Freshness o =? 0)%Z then inr (mkOptions (oDurability o) (HonourReleases o) DefaultFreshness (oReaper o))
  else if (Freshness o <? 0)%Z then inl ErrNegativeFreshness
  else inr o.

(** ** Programs *)

Inductive Fault := Fine | Failed | Unanswered.

Record Env := mkEnv {
  others : nat → World → World;
  fault : nat → Fault;
  cancelled : nat → bool;
  clock : nat → Z }.

(** What a transfer from a source comes to. *)
Inductive Pulled := Delivered | Corrupted | Undelivered.

Inductive Act :=
  | ABlobs | APeers | AReplicas (h : string) | AKnown (h : string) | ASelfPinned | AWalk | ATempFiles
  | AController (ok : bool) | AHolds (p : Peer) (h : string) (a : Answer)
  | AClear (hs : list string) | AMark (hs : list string) (at_ : Z)
  | ARecord (e : Evidence) | AMissing (h peer : string)
  | AReclaim (h : string) (size : Z) (tracked : bool) (at_ : Z)
  | AUnlink (h : string) | AGuarded (h : string) | ATempGone (name : string)
  | ABlob (h : string) | AStat (h : string) | AVerify (h : string)
  | AVerified (h : string) | ACorrupt (h : string) | ALost (h : string)
  | AOpen (h : string) | AQuarantineList | AOpenQuarantined (h : string) (at_ : Z)
  | AQuarantine (h : string) | APublish (h : string) (data : list byte)
  | ATarget (h peer : string) | ASelf | ASources (h : string) | ASize (h : string)
  | APull (source h : string) (p : Pulled) | APullPieces (h : string) (p : Pulled)
  | ABegin (h source : string) | ATransferred (h source : string) (bytes : Z)
  | AFailed (h source state : string).

Abbreviation Trace := (list (World * Act)).

Record St := mkSt { world : World; tick : nat; trace : Trace }.

Definition M (A : Type) : Type := St → St * (error + A).

#[export] Instance M_ret : MRet M := λ A a s, (s, inr a).
#[export] Instance M_bind : MBind M := λ A B f m s,
  match m s with (s, inl e) => (s, inl e) | (s, inr a) => f a s end.

Definition throw {A} (e : error) : M A := λ s, (s, inl e).

(** Gives the error back instead of stopping at it. *)
Definition catch {A} (m : M A) : M (error + A) := λ s, let '(s, r) := m s in (s, inr r).

Definition liftE {A} (r : error + A) : M A := match r with inl e => throw e | inr a => mret a end.

(** A transaction on the catalog: the catalog it leaves, and its error if any. *)
Definition onCatalog (f : Catalog → Catalog * option error) (w : World) : World * (error + unit) :=
  let '(c, e) := f (cat w) in (mkWorld c (disk w), match e with Some e => inl e | None => inr tt end).
Definition onDisk (f : Disk → error + Disk) (w : World) : World * (error + unit) :=
  match f (disk w) with inl e => (w, inl e) | inr d => (mkWorld (cat w) d, inr tt) end.
Definition reading {A} (f : World → A) (w : World) : World * (error + A) := (w, inr (f w)).

Section calling.
Context (env : Env).

(** One transaction, query or file operation. *)
Definition call {A} (act : Act) (f : World → World * (error + A)) : M A := λ s,
  let w := others env (tick s) (world s) in
  match fault env (tick s) with
  | Failed => (mkSt w (S (tick s)) (trace s), inl ErrIO)
  | Fine => let '(w', r) := f w in (mkSt w' (S (tick s)) (trace s ++ [(w, act)]), r)
  | Unanswered => let '(w', r) := f w in (mkSt w' (S (tick s)) (trace s ++ [(w, act)]), inl ErrIO)
  end.

(** A step whose own failures are values: what it did is told with what it gave. *)
Definition perform {A} (f : World → World * A) (act : A → Act) : M A := λ s,
  let w := others env (tick s) (world s) in
  let '(w', a) := f w in (mkSt w' (S (tick s)) (trace s ++ [(w, act a)]), inr a).

Definition Now : M Z := λ s, (s, inr (clock env (tick s))).

Definition ctxErr : M unit := λ s, if cancelled env (tick s) then (s, inl ErrContext) else (s, inr tt).

End calling.

(** ** Programs and their traces *)

Section logic.
Context (env : Env).

(** From a trace with [P], the program ends with [Q], or fails with [E]. *)
Definition hoare {A} (P : Trace → Prop) (m : M A) (Q : A → Trace → Prop) (E : Trace → Prop) : Prop :=
  ∀ s, P (trace s) → match m s with
                     | (s', inr a) => Q a (trace s')
                     | (s', inl _) => E (trace s')
                     end.

Lemma hoare_ret {A} (a : A) (P : Trace → Prop) (Q : A → Trace → Prop) E :
  (∀ t, P t → Q a t) → hoare P (mret a) Q E.
Proof. intros H s Hs. by apply H. Qed.

Lemma hoare_throw {A} e P (Q : A → Trace → Prop) (E : Trace → Prop) :
  (∀ t, P t → E t) → hoare P (throw e) Q E.
Proof. intros H s Hs. by apply H. Qed.

Lemma hoare_bind {A B} P (m : M A) (k : A → M B) (R : A → Trace → Prop) Q E :
  hoare P m R E → (∀ a, hoare (R a) (k a) Q E) → hoare P (m ≫= k) Q E.
Proof.
  intros Hm Hk s Hs. unfold mbind, M_bind. specialize (Hm s Hs).
  destruct (m s) as [s' [e|a]]; [done|]. by apply Hk.
Qed.

Lemma hoare_conseq {A} (P P' : Trace → Prop) (m : M A) (Q Q' : A → Trace → Prop) E :
  hoare P' m Q' E → (∀ t, P t → P' t) → (∀ a t, Q' a t → Q a t) → hoare P m Q E.
Proof.
  intros Hm HP HQ s Hs. specialize (Hm s (HP _ Hs)). destruct (m s) as [s' [e|a]]; auto.
Qed.

Lemma hoare_catch {A} P (m : M A) Q (E E' : Trace → Prop) :
  hoare P m Q E → hoare P (catch m) (λ r t, match r with inr a => Q a t | inl _ => E t end) E'.
Proof. intros Hm s Hs. specialize (Hm s Hs). unfold catch. by destruct (m s) as [s' [e|a]]. Qed.

Lemma hoare_call {A} act (f : World → World * (error + A)) P (Q : A → Trace → Prop) (E : Trace → Prop) :
  (∀ t, P t → E t) →
  (∀ t w, P t → E (t ++ [(w, act)])) →
  (∀ t w a, P t → (f w).2 = inr a → Q a (t ++ [(w, act)])) →
  hoare P (call env act f) Q E.
Proof.
  intros HE HE' HQ s Hs. unfold call. destruct (fault env (tick s)); cbn.
  - specialize (HQ (trace s) (others env (tick s) (world s))).
    destruct (f _) as [w' [e|a]]; cbn in *; [by apply HE'|by apply HQ].
  - by apply HE.
  - destruct (f _) as [w' r]. by apply HE'.
Qed.

Lemma hoare_read {A} act (f : World → A) P (Q : A → Trace → Prop) (E : Trace → Prop) :
  (∀ t, P t → E t) → (∀ t w, P t → E (t ++ [(w, act)])) →
  (∀ t w, P t → Q (f w) (t ++ [(w, act)])) → hoare P (call env act (reading f)) Q E.
Proof. intros HE HE' HQ. apply hoare_call; [done..|]. intros t w a Ht [= <-]. by apply HQ. Qed.

Lemma hoare_now P (Q : Z → Trace → Prop) E : (∀ z t, P t → Q z t) → hoare P (Now env) Q E.
Proof. intros H s Hs. by apply H. Qed.

Lemma hoare_run {A} P (m : M A) (R : Trace → Prop) s :
  hoare P m (λ _, R) R → P (trace s) → R (trace (m s).1).
Proof. intros H Hs. specialize (H s Hs). by destruct (m s) as [s' [e|a]]. Qed.

Lemma hoare_ctx P (Q : unit → Trace → Prop) (E : Trace → Prop) :
  (∀ t, P t → E t) → (∀ t, P t → Q tt t) → hoare P (ctxErr env) Q E.
Proof. intros HE HQ s Hs. unfold ctxErr. destruct (cancelled env (tick s)); auto. Qed.
End logic.

(** ** Dry runs *)

Definition reads (a : Act) : bool :=
  match a with
  | ABlobs | APeers | AReplicas _ | AKnown _ | ASelfPinned | AWalk | ATempFiles
  | AController _ | AHolds _ _ _ | ABlob _ | AStat _
  | AOpen _ | AQuarantineList | AOpenQuarantined _ _
  | ATarget _ _ | ASelf | ASources _ | ASize _ => true
  | _ => false
  end.

Definition undisturbed (env : Env) : Prop := ∀ n w, others env n w = w.

(** A program that only reads. *)
Definition dry (env : Env) {A} (m : M A) : Prop :=
  ∀ s, (∃ l, trace (m s).1 = trace s ++ l ∧ Forall (λ wa, reads wa.2 = true) l) ∧
       (undisturbed env → world (m s).1 = world s).

Section dryness.
Context (env : Env).

Lemma dry_ret {A} (a : A) : dry env (mret a).
Proof. intros s. split; [exists []; by rewrite app_nil_r|done]. Qed.
Lemma dry_throw {A} e : dry env (throw e : M A).
Proof. intros s. split; [exists []; by rewrite app_nil_r|done]. Qed.
Lemma dry_now : dry env (Now env).
Proof. intros s. split; [exists []; by rewrite app_nil_r|done]. Qed.
Lemma dry_ctx : dry env (ctxErr env).
Proof. intros s. unfold ctxErr. destruct (cancelled _ _); (split; [exists []; by rewrite app_nil_r|done]). Qed.

Lemma dry_bind {A B} (m : M A) (k : A → M B) : dry env m → (∀ a, dry env (k a)) → dry env (m ≫= k).
Proof.
  intros Hm Hk s. unfold mbind, M_bind. destruct (Hm s) as [(l & Hl & Hr) Hw].
  destruct (m s) as [s' [e|a]]; cbn in *; [by eauto|]. destruct (Hk a s') as [(l' & Hl' & Hr') Hw'].
  split; [|intros Hu; by rewrite Hw', Hw]. exists (l ++ l'). rewrite Hl', Hl, app_assoc. split; [done|].
  by apply Forall_app.
Qed.

Lemma dry_read {A} act (f : World → A) : reads act = true → dry env (call env act (reading f)).
Proof.
  intros Ha s. unfold call, reading. destruct (fault _ _); cbn; (split; [|intros Hu; apply Hu]).
  - exists [(others env (tick s) (world s), act)]. by split; [|repeat constructor].
  - exists []. by rewrite app_nil_r.
  - exists [(others env (tick s) (world s), act)]. by split; [|repeat constructor].
Qed.
End dryness.

(** ** Programs that nothing disturbs *)

Record quiet (env : Env) : Prop := mkQuiet {
  quiet_others : ∀ n w, others env n w = w;
  quiet_fault : ∀ n, fault env n = Fine;
  quiet_ctx : ∀ n, cancelled env n = false }.

Definition does {A} (m : M A) (w w' : World) (r : error + A) : Prop :=
  ∀ s, world s = w → ∃ s', m s = (s', r) ∧ world s' = w'.

Section quietly.
Context (env : Env) (Hq : quiet env).

Lemma does_ret {A} (a : A) w : does (mret a) w w (inr a).
Proof. intros s Hs. by exists s. Qed.

Lemma does_bind {A B} (m : M A) (k : A → M B) w w1 w2 a r :
  does m w w1 (inr a) → does (k a) w1 w2 r → does (m ≫= k) w w2 r.
Proof.
  intros Hm Hk s Hs. destruct (Hm s Hs) as (s1 & E1 & Hs1). destruct (Hk s1 Hs1) as (s2 & E2 & Hs2).
  exists s2. unfold mbind, M_bind. by rewrite E1.
Qed.

Lemma does_bind_fail {A B} (m : M A) (k : A → M B) w w1 e :
  does m w w1 (inl e) → does (m ≫= k) w w1 (inl e).
Proof. intros Hm s Hs. destruct (Hm s Hs) as (s1 & E1 & Hs1). exists s1. unfold mbind, M_bind. by rewrite E1. Qed.

Lemma does_catch {A} (m : M A) w w1 r : does m w w1 r → does (catch m) w w1 (inr r).
Proof. intros Hm s Hs. destruct (Hm s Hs) as (s1 & E1 & Hs1). exists s1. unfold catch. by rewrite E1. Qed.

Lemma does_call {A} act (f : World → World * (error + A)) w w' r :
  f w = (w', r) → does (call env act f) w w' r.
Proof.
  intros Hf s Hs. unfold call. rewrite (quiet_others _ Hq), (quiet_fault _ Hq), Hs, Hf. eexists. by split.
Qed.

Lemma does_read {A} act (f : World → A) w : does (call env act (reading f)) w w (inr (f w)).
Proof. by apply does_call. Qed.

Lemma does_ctx w : does (ctxErr env) w w (inr tt).
Proof. intros s Hs. unfold ctxErr. rewrite (quiet_ctx _ Hq). by exists s. Qed.
End quietly.

(** ... with a value and a world that depend on the instants it ran at. *)

(** With nothing disturbing it the program ends, with a value and in a world as told. *)
Definition runs {A} (m : M A) (w : World) (R : A → World → Prop) : Prop :=
  ∀ s, world s = w → ∃ s' a, m s = (s', inr a) ∧ R a (world s').

Lemma runs_ret {A} (a : A) w (R : A → World → Prop) : R a w → runs (mret a) w R.
Proof. intros HR s <-. by eexists _, _. Qed.

Lemma runs_bind {A B} (m : M A) (k : A → M B) w Q R :
  runs m w Q → (∀ a w', Q a w' → runs (k a) w' R) → runs (m ≫= k) w R.
Proof.
  intros Hm Hk s Hs. destruct (Hm s Hs) as (s1 & a & E1 & HQ). destruct (Hk a _ HQ s1 eq_refl) as (s2 & b & E2 & HR).
  exists s2, b. unfold mbind, M_bind. by rewrite E1.
Qed.

Lemma runs_weaken {A} (m : M A) w (Q R : A → World → Prop) :
  runs m w Q → (∀ a w', Q a w' → R a w') → runs m w R.
Proof. intros Hm H s Hs. destruct (Hm s Hs) as (s1 & a & E1 & HQ). eauto. Qed.

Section running.
Context (env : Env) (Hq : quiet env).

Lemma runs_call {A} act (f : World → World * (error + A)) w w' a (R : A → World → Prop) :
  f w = (w', inr a) → R a w' → runs (call env act f) w R.
Proof.
  intros Hf HR s Hs. destruct (does_call env Hq act f w w' (inr a) Hf s Hs) as (s' & E & <-). eauto.
Qed.

Lemma runs_catch {A} act (f : World → World * (error + A)) w w' r (R : error + A → World → Prop) :
  f w = (w', r) → R r w' → runs (catch (call env act f)) w R.
Proof.
  intros Hf HR s Hs. destruct (does_catch _ _ _ _ (does_call env Hq act f w w' r Hf) s Hs) as (s' & E & <-). eauto.
Qed.

Lemma runs_read {A} act (f : World → A) w (R : A → World → Prop) : R (f w) w → runs (call env act (reading f)) w R.
Proof. by apply runs_call. Qed.

Lemma runs_perform {A} (act : A → Act) (f : World → World * A) w w' a (R : A → World → Prop) :
  f w = (w', a) → R a w' → runs (perform env f act) w R.
Proof.
  intros Hf HR s <-. unfold perform. rewrite (quiet_others _ Hq), Hf. by eexists _, _.
Qed.

Lemma runs_now w (R : Z → World → Prop) : (∀ z, R z w) → runs (Now env) w R.
Proof. intros HR s <-. eexists _, _. split; [done|apply HR]. Qed.

Lemma runs_ctx w (R : unit → World → Prop) : R tt w → runs (ctxErr env) w R.
Proof. intros HR s Hs. destruct (does_ctx env Hq w s Hs) as (s' & E & <-). eauto. Qed.
End running.

(** ** What a program may do between the others' steps *)

(** A turn: the others' step, then perhaps one of the program's own, in [G]. *)
Definition turn (env : Env) (G : World → World → Prop) (w w' : World) : Prop :=
  ∃ n, w' = others env n w ∨ G (others env n w) w'.

(** However it is disturbed and whatever fails, each step of the program itself is in [G]. *)
Definition within (env : Env) (G : World → World → Prop) {A} (m : M A) : Prop :=
  ∀ s, rtc (turn env G) (world s) (world (m s).1).

Section interleaving.
Context (env : Env) (G : World → World → Prop).

Lemma within_ret {A} (a : A) : within env G (mret a).
Proof. intros s. apply rtc_refl. Qed.
Lemma within_throw {A} e : within env G (throw e : M A).
Proof. intros s. apply rtc_refl. Qed.
Lemma within_now : within env G (Now env).
Proof. intros s. apply rtc_refl. Qed.
Lemma within_ctx : within env G (ctxErr env).
Proof. intros s. unfold ctxErr. destruct (cancelled _ _); apply rtc_refl. Qed.

Lemma within_bind {A B} (m : M A) (k : A → M B) :
  within env G m → (∀ a, within env G (k a)) → within env G (m ≫= k).
Proof.
  intros Hm Hk s. unfold mbind, M_bind. specialize (Hm s). destruct (m s) as [s' [e|a]]; [done|].
  etrans; [exact Hm|apply Hk].
Qed.

Lemma within_catch {A} (m : M A) : within env G m → within env G (catch m).
Proof. intros Hm s. specialize (Hm s). unfold catch. by destruct (m s) as [s' r]. Qed.

Lemma within_call {A} act (f : World → World * (error + A)) :
  (∀ w, G w (f w).1) → within env G (call env act f).
Proof.
  intros Hf s. unfold call. pose proof (Hf (others env (tick s) (world s))) as Hw.
  destruct (fault _ _); [destruct (f _) as [w' r]| |destruct (f _) as [w' r]]; apply rtc_once;
    exists (tick s); cbn; [by right|by left|by right].
Qed.

Lemma within_read {A} act (f : World → A) : (∀ w, G w w) → within env G (call env act (reading f)).
Proof. intros HG. apply within_call. intros w. apply HG. Qed.

Lemma within_perform {A} (f : World → World * A) act :
  (∀ w, G w (f w).1) → within env G (perform env f act).
Proof.
  intros Hf s. unfold perform. specialize (Hf (others env (tick s) (world s))).
  destruct (f _) as [w' a]. apply rtc_once. exists (tick s). by right.
Qed.

(** What the others' steps and [G] both keep holds at the end. *)
Lemma within_keeps {A} (m : M A) (I : World → Prop) s :
  within env G m → (∀ n w, I w → I (others env n w)) → (∀ w w', I w → G w w' → I w') →
  I (world s) → I (world (m s).1).
Proof.
  intros Hm Ho HG. specialize (Hm s). induction Hm as [w|w w1 w2 (n & [->|Hs]) _ IH]; [done| |]; intros Hw; apply IH; eauto.
Qed.
End interleaving.
