(* ===== verification/Collect.v ===== *)
(** * Collect: the garbage collector

    Models internal/storagefabric/integrity/collect.go, gate.go and the types of
    durability.go over BlobCatalog.v, as a program of StoreSteps.v. *)

From S2P Require Import Prelude GoText GoPath BlobCatalog StoreSteps.

(** ** Data *)

Definition DefaultGrace : Z := 7 * 24 * 3600 * 10 ^ 9.
Definition DefaultTempGrace : Z := 24 * 3600 * 10 ^ 9.
Definition VacuityFloor : nat := 8.

Inductive Reason :=
  | ReasonNoOtherPeer | ReasonReplicaNotPresent | ReasonStaleInventory | ReasonPeerUnreachable
  | ReasonUnverifiable | ReasonRemoteLacksBlob | ReasonDurabilityUnwired
  | ReasonControllerUnreachable | ReasonWantedAgain | ReasonCatalogVacuous.

#[export] Instance Reason_eq_dec : EqDecision Reason.
Proof. solve_decision. Defined.

Record Candidate := mkCandidate {
  cHash : string; cSize : Z; cSince : option Z; cEligibleAt : option Z }.

(** The peer is the one the refusal is about, if one is. *)
Record Sparing := mkSparing { sHash : string; sSize : Z; sReason : Reason; sPeer : string; sPeerName : string }.

Record Collection := mkCollection {
  DryRun : bool; Grace : Z;
  Considered : nat; Referenced : nat;
  Marked : list Candidate; Waiting : list Candidate; Reclaimed : list Candidate;
  Spared : list Sparing; Refusals : list Reason;
  Untracked : list Candidate; UntrackedSpared : list Sparing; UntrackedWaiting : nat;
  PinnedUntracked : list Candidate; TempRemoved : list (string * Z);
  BytesReclaimed : Z; StartedAt : Z; FinishedAt : Z }.

Record CollectOptions := mkCollectOptions { Apply : bool; oGrace : Z; oTempGrace : Z }.

Section collecting.
Context (env : Env) (opts : Options).
#[local] Abbreviation call := (StoreSteps.call env).
#[local] Abbreviation Now := (StoreSteps.Now env).
#[local] Abbreviation ctxErr := (StoreSteps.ctxErr env).

(** Asking a peer or the controller is outside the world. *)
Definition askController (d : Durability) : M bool := λ s,
  let ok := Controller d (tick s) in
  (mkSt (world s) (S (tick s)) (trace s ++ [(world s, AController ok)]), inr ok).
Definition askHolds (d : Durability) (p : Peer) (h : string) : M Answer := λ s,
  let a := Holds d (tick s) p h in
  (mkSt (world s) (S (tick s)) (trace s ++ [(world s, AHolds p h a)]), inr a).

Definition markUnreferenced (hs : list string) (at_ : Z) : M unit :=
  if bool_decide (hs = []) then mret tt
  else call (AMark hs at_) (onCatalog (λ c, (MarkUnreferenced hs at_ c, None))).
Definition clearUnreferenced (hs : list string) : M unit :=
  if bool_decide (hs = []) then mret tt
  else call (AClear hs) (onCatalog (λ c, (ClearUnreferenced hs c, None))).
Definition recordDurability (e : Evidence) : M unit :=
  call (ARecord e) (onCatalog (λ c, match RecordDurability e c with inl err => (c, Some err) | inr c => (c, None) end)).
Definition catalogReclaim (h : string) (size : Z) (tracked : bool) (at_ : Z) : M unit :=
  call (AReclaim h size tracked at_) (onCatalog (Reclaim h size tracked at_)).

(** [Delete], for which bytes already gone are no error. *)
Definition DeleteGone (h : string) (d : Disk) : error + Disk :=
  match Delete h d with inl ErrNotFound => inr d | r => r end.

Definition deleteBytes (h : string) : M unit := call (AUnlink h) (onDisk (DeleteGone h)).
Definition guardedDelete (h : string) : M unit :=
  call (AGuarded h) (λ w, let '(w, e) := GuardUnlink h (DeleteGone h) w in
                          (w, match e with Some e => inl e | None => inr tt end)).

(** ** The gate *)

Record Gate := mkGate { sole : bool; refusals : list Reason }.

Definition gate : M Gate :=
  peers ← call APeers (reading (λ w, Peers (cat w)));
  let alone := bool_decide (peers = []) in
  match oDurability opts with
  | None => mret (mkGate alone (if alone then [] else [ReasonDurabilityUnwired]))
  | Some d =>
      ok ← askController d;
      mret (mkGate alone (if ok : bool then [] else [ReasonControllerUnreachable]))
  end.

(** ** Durability of one blob *)

Definition Reachable (p : Peer) : bool := bool_decide (pHealth p = "reachable").
Definition Present (r : Replica) : bool := bool_decide (rState r = "present").

(** [Time.Sub] saturates. *)
Definition timeSub (a b : Z) : Z := Z.max (- 2 ^ 63) (Z.min (2 ^ 63 - 1) (a - b)).

Definition Fresh (r : Replica) (now within : Z) : bool :=
  match rReportedAt r with None => false | Some t => (timeSub now t <=? within)%Z end.

Definition spare (b : Blob) (reason : Reason) (p : Peer) : Sparing :=
  mkSparing (bHash b) (bSize b) reason (PeerID p) (pName p).
Definition spareBare (b : Blob) (reason : Reason) : Sparing := mkSparing (bHash b) (bSize b) reason "" "".

Definition rank (r : Reason) : Z :=
  match r with
  | ReasonRemoteLacksBlob => 5
  | ReasonUnverifiable => 4
  | ReasonPeerUnreachable => 3
  | ReasonStaleInventory => 2
  | ReasonReplicaNotPresent => 1
  | _ => 0
  end.

(** No sparing: the peer holds the bytes. *)
Definition check (d : Durability) (b : Blob) (r : Replica) (now : Z) (apply : bool) : M (option Sparing) :=
  let p := rPeer r in
  if negb (Present r) then mret (Some (spare b ReasonReplicaNotPresent p))
  else if negb (Fresh r now (Freshness opts)) then mret (Some (spare b ReasonStaleInventory p))
  else if negb (Reachable p) then mret (Some (spare b ReasonPeerUnreachable p))
  else
    a ← askHolds d p (bHash b);
    match a with
    | Held => mret None
    | Lacks =>
        _ ← (if apply
             then call (AMissing (bHash b) (PeerID p)) (onCatalog (λ c, (MarkReplicaMissing (bHash b) (PeerID p) c, None)))
             else mret tt);
        mret (Some (spare b ReasonRemoteLacksBlob p))
    | Silent => mret (Some (spare b ReasonPeerUnreachable p))
    | Unanswerable => mret (Some (spare b ReasonUnverifiable p))
    end.

Definition worse (worst : option Sparing) (sp : Sparing) : Sparing :=
  match worst with
  | None => sp
  | Some w => if (rank (sReason w) <? rank (sReason sp))%Z then sp else w
  end.

Definition remoteEvidence (b : Blob) (r : Replica) (now : Z) : Evidence :=
  mkEvidence (bHash b) (bSize b) BasisVerifiedRemote (PeerID (rPeer r)) (pName (rPeer r))
    (pEndpoint (rPeer r)) (rReportedAt r) (rVerifiedAt r) now None None.

Definition zeroEvidence : Evidence := mkEvidence "" 0 "" "" "" "" None None 0 None None.

(** The loop over the claimed replicas. *)
Fixpoint checkAll (d : Durability) (b : Blob) (now : Z) (apply : bool) (worst : option Sparing)
    (rs : list Replica) : M (Evidence * option Sparing) :=
  match rs with
  | [] => mret (zeroEvidence, worst)
  | r :: rs =>
      _ ← ctxErr;
      sp ← check d b r now apply;
      match sp with
      | None => mret (remoteEvidence b r now, None)
      | Some sp => checkAll d b now apply (Some (worse worst sp)) rs
      end
  end.

Definition releasedEvidence (b : Blob) (now : Z) : Evidence :=
  mkEvidence (bHash b) (bSize b) BasisReleased "" "" "" None None now (bReleasedAt b) (bSince b).
Definition soleEvidence (b : Blob) (now : Z) : Evidence :=
  mkEvidence (bHash b) (bSize b) BasisSolePeer "" "" "" None None now None None.

(** A nil [Durability] beside another peer is a refusal of the gate. *)
Definition establish (g : Gate) (b : Blob) (now : Z) (apply : bool) : M (Evidence * option Sparing) :=
  match refusals g with
  | r :: _ => mret (zeroEvidence, Some (spareBare b r))
  | [] =>
      if HonourReleases opts && bool_decide (bReleasedAt b ≠ None) then mret (releasedEvidence b now, None)
      else if sole g then mret (soleEvidence b now, None)
      else
        rs ← call (AReplicas (bHash b)) (reading (λ w, Replicas (cat w) (bHash b)));
        if bool_decide (rs = []) then mret (zeroEvidence, Some (spareBare b ReasonNoOtherPeer))
        else match oDurability opts with
             | None => throw ErrIO
             | Some d => checkAll d b now apply None (sort_by (key_less (λ r, PeerID (rPeer r)) str_lt) rs)
             end
  end.

(** ** Tracked blobs *)

Definition reclaim (h : string) (size : Z) (tracked : bool) (at_ : Z) : M unit :=
  _ ← (if tracked then catalogReclaim h size true at_ else mret tt);
  _ ← deleteBytes h;
  if tracked then mret tt else catalogReclaim h size false at_.

Definition reclaimTracked (h : string) (size : Z) (released : bool) (at_ : Z) : M unit :=
  if negb released then reclaim h size true at_
  else
    _ ← catalogReclaim h size true at_;
    guardedDelete h.

Definition candidate (b : Blob) (since : option Z) (grace : Z) : Candidate :=
  mkCandidate (bHash b) (bSize b) since ((λ t, t + grace)%Z <$> since).

Definition start (apply : bool) (considered : nat) (grace now : Z) : Collection :=
  mkCollection (negb apply) grace considered 0 [] [] [] [] [] [] [] 0 [] [] 0 now 0.

Definition addSpared (sp : Sparing) (o : Collection) : Collection :=
  mkCollection (DryRun o) (Grace o) (Considered o) (Referenced o) (Marked o) (Waiting o) (Reclaimed o)
    (Spared o ++ [sp]) (Refusals o) (Untracked o) (UntrackedSpared o) (UntrackedWaiting o)
    (PinnedUntracked o) (TempRemoved o) (BytesReclaimed o) (StartedAt o) (FinishedAt o).
Definition addReclaimed (c : Candidate) (o : Collection) : Collection :=
  mkCollection (DryRun o) (Grace o) (Considered o) (Referenced o) (Marked o) (Waiting o) (Reclaimed o ++ [c])
    (Spared o) (Refusals o) (Untracked o) (UntrackedSpared o) (UntrackedWaiting o)
    (PinnedUntracked o) (TempRemoved o) (wrap_i64 (BytesReclaimed o + cSize c)) (StartedAt o) (FinishedAt o).
Definition addRefusals (rs : list Reason) (o : Collection) : Collection :=
  mkCollection (DryRun o) (Grace o) (Considered o) (Referenced o) (Marked o) (Waiting o) (Reclaimed o)
    (Spared o) (Refusals o ++ rs) (Untracked o) (UntrackedSpared o) (UntrackedWaiting o)
    (PinnedUntracked o) (TempRemoved o) (BytesReclaimed o) (StartedAt o) (FinishedAt o).

(** The first pass: what is counted, marked and waiting, and the marks to write. *)
Record Sorted := mkSorted { sOut : Collection; sMark : list string; sClear : list string; sEligible : list Blob }.

Definition classify (now grace cutoff : Z) (acc : Sorted) (b : Blob) : Sorted :=
  let o := sOut acc in
  if bool_decide (0 < bReferences b) then
    mkSorted
      (mkCollection (DryRun o) (Grace o) (Considered o) (S (Referenced o)) (Marked o) (Waiting o) (Reclaimed o)
         (Spared o) (Refusals o) (Untracked o) (UntrackedSpared o) (UntrackedWaiting o)
         (PinnedUntracked o) (TempRemoved o) (BytesReclaimed o) (StartedAt o) (FinishedAt o))
      (sMark acc)
      (if bool_decide (bSince b ≠ None) || bool_decide (bReleasedAt b ≠ None)
       then sClear acc ++ [bHash b] else sClear acc)
      (sEligible acc)
  else match bSince b with
  | None =>
      mkSorted
        (mkCollection (DryRun o) (Grace o) (Considered o) (Referenced o)
           (Marked o ++ [candidate b (Some now) grace]) (Waiting o) (Reclaimed o)
           (Spared o) (Refusals o) (Untracked o) (UntrackedSpared o) (UntrackedWaiting o)
           (PinnedUntracked o) (TempRemoved o) (BytesReclaimed o) (StartedAt o) (FinishedAt o))
        (sMark acc ++ [bHash b]) (sClear acc) (sEligible acc)
  | Some t =>
      if (cutoff <? t)%Z then
        mkSorted
          (mkCollection (DryRun o) (Grace o) (Considered o) (Referenced o) (Marked o)
             (Waiting o ++ [candidate b (Some t) grace]) (Reclaimed o)
             (Spared o) (Refusals o) (Untracked o) (UntrackedSpared o) (UntrackedWaiting o)
             (PinnedUntracked o) (TempRemoved o) (BytesReclaimed o) (StartedAt o) (FinishedAt o))
          (sMark acc) (sClear acc) (sEligible acc)
      else mkSorted o (sMark acc) (sClear acc) (sEligible acc ++ [b])
  end.

(** The loop over the eligible blobs. *)
Fixpoint sweep (g : Gate) (apply : bool) (grace now : Z) (bs : list Blob) (out : Collection) : M Collection :=
  match bs with
  | [] => mret out
  | b :: bs =>
      _ ← ctxErr;
      '(ev, spared) ← establish g b now apply;
      match spared with
      | Some sp => sweep g apply grace now bs (addSpared sp out)
      | None =>
          if apply then
            _ ← recordDurability ev;
            r ← catch (reclaimTracked (bHash b) (bSize b) (bool_decide (evBasis ev = BasisReleased)) now);
            match r with
            | inl ErrWantedAgain => sweep g apply grace now bs (addSpared (spareBare b ReasonWantedAgain) out)
            | inl e => throw e
            | inr _ => sweep g apply grace now bs (addReclaimed (candidate b (bSince b) grace) out)
            end
          else sweep g apply grace now bs (addReclaimed (candidate b (bSince b) grace) out)
      end
  end.

(** ** Untracked files *)

Definition addPinned (d : Descriptor) (o : Collection) : Collection :=
  mkCollection (DryRun o) (Grace o) (Considered o) (Referenced o) (Marked o) (Waiting o) (Reclaimed o)
    (Spared o) (Refusals o) (Untracked o) (UntrackedSpared o) (UntrackedWaiting o)
    (PinnedUntracked o ++ [mkCandidate (dHash d) (dSize d) None None]) (TempRemoved o) (BytesReclaimed o)
    (StartedAt o) (FinishedAt o).
Definition addUntrackedWaiting (o : Collection) : Collection :=
  mkCollection (DryRun o) (Grace o) (Considered o) (Referenced o) (Marked o) (Waiting o) (Reclaimed o)
    (Spared o) (Refusals o) (Untracked o) (UntrackedSpared o) (S (UntrackedWaiting o))
    (PinnedUntracked o) (TempRemoved o) (BytesReclaimed o) (StartedAt o) (FinishedAt o).
Definition addUntracked (d : Descriptor) (o : Collection) : Collection :=
  mkCollection (DryRun o) (Grace o) (Considered o) (Referenced o) (Marked o) (Waiting o) (Reclaimed o)
    (Spared o) (Refusals o) (Untracked o ++ [mkCandidate (dHash d) (dSize d) None None]) (UntrackedSpared o)
    (UntrackedWaiting o) (PinnedUntracked o) (TempRemoved o) (wrap_i64 (BytesReclaimed o + dSize d))
    (StartedAt o) (FinishedAt o).
Definition addTempRemoved (f : TempFile) (o : Collection) : Collection :=
  mkCollection (DryRun o) (Grace o) (Considered o) (Referenced o) (Marked o) (Waiting o) (Reclaimed o)
    (Spared o) (Refusals o) (Untracked o) (UntrackedSpared o) (UntrackedWaiting o)
    (PinnedUntracked o) (TempRemoved o ++ [(tmName f, tmSize f)]) (wrap_i64 (BytesReclaimed o + tmSize f))
    (StartedAt o) (FinishedAt o).
Definition finish (at_ : Z) (o : Collection) : Collection :=
  mkCollection (DryRun o) (Grace o) (Considered o) (Referenced o) (Marked o) (Waiting o) (Reclaimed o)
    (Spared o) (Refusals o) (Untracked o) (UntrackedSpared o) (UntrackedWaiting o)
    (PinnedUntracked o) (TempRemoved o) (BytesReclaimed o) (StartedAt o) at_.

Definition spareAll (ds : list Descriptor) (r : Reason) (o : Collection) : Collection :=
  mkCollection (DryRun o) (Grace o) (Considered o) (Referenced o) (Marked o) (Waiting o) (Reclaimed o)
    (Spared o) (Refusals o) (Untracked o)
    (UntrackedSpared o ++ ((λ d, mkSparing (dHash d) (dSize d) r "" "") <$> ds))
    (UntrackedWaiting o) (PinnedUntracked o) (TempRemoved o) (BytesReclaimed o) (StartedAt o) (FinishedAt o).

Definition vacuity (considered untracked walked : nat) : bool :=
  if (untracked <? VacuityFloor)%nat then false
  else (considered =? 0)%nat || (walked <? untracked * 2)%nat.

(** What the walk does with one file. *)
Definition visit (known selfPinned : gset string) (cutoff : Z) (acc : Collection * list Descriptor) (d : Descriptor) :
    Collection * list Descriptor :=
  let '(out, candidates) := acc in
  if bool_decide (dHash d ∈ known) then (out, candidates)
  else if bool_decide (dHash d ∈ selfPinned) then (addPinned d out, candidates)
  else if negb (dMtime d <? cutoff)%Z then (addUntrackedWaiting out, candidates)
  else (out, candidates ++ [d]).

(** One query per hash. *)
Fixpoint knownAll (ds : list Descriptor) : M (list bool) :=
  match ds with
  | [] => mret []
  | d :: ds =>
      k ← call (AKnown (dHash d)) (reading (λ w, Known (cat w) (dHash d)));
      ks ← knownAll ds;
      mret (k :: ks)
  end.

Fixpoint sweepUntracked (apply : bool) (now : Z) (ds : list (Descriptor * bool)) (out : Collection) : M Collection :=
  match ds with
  | [] => mret out
  | (d, appeared) :: ds =>
      if appeared : bool then sweepUntracked apply now ds (addUntrackedWaiting out)
      else
        _ ← (if apply then reclaim (dHash d) (dSize d) false now else mret tt);
        sweepUntracked apply now ds (addUntracked d out)
  end.

Definition collectUntracked (g : Gate) (apply : bool) (known : gset string) (cutoff now : Z) (out : Collection) :
    M Collection :=
  selfPinned ← call ASelfPinned (reading (λ w, SelfPinnedHashes (cat w)));
  walked ← call AWalk (reading (λ w, Walk (disk w)));
  let '(out, candidates) := foldl (visit known selfPinned cutoff) (out, []) walked in
  if bool_decide (candidates = []) then mret out
  else if vacuity (Considered out) (length candidates) (length walked) then
    mret (spareAll candidates ReasonCatalogVacuous (addRefusals [ReasonCatalogVacuous] out))
  else match refusals g with
  | r :: _ => mret (spareAll candidates r out)
  | [] =>
      appeared ← knownAll candidates;
      sweepUntracked apply now (zip candidates appeared) out
  end.

(** ** Partial writes *)

Fixpoint sweepTemp (apply : bool) (cutoff : Z) (fs : list TempFile) (out : Collection) : M Collection :=
  match fs with
  | [] => mret out
  | f :: fs =>
      if negb (tmMtime f <? cutoff)%Z then sweepTemp apply cutoff fs out
      else
        _ ← (if apply then call (ATempGone (tmName f)) (onDisk (RemoveTemp (tmName f))) else mret tt);
        sweepTemp apply cutoff fs (addTempRemoved f out)
  end.

Definition collectTemp (apply : bool) (cutoff : Z) (out : Collection) : M Collection :=
  if negb (oReaper opts) then mret out
  else
    fs ← call ATempFiles (reading (λ w, TempFiles (disk w)));
    sweepTemp apply cutoff (sort_by (key_less tmName str_lt) fs) out.

(** ** The sweep *)

(** What follows the listing of the blobs. *)
Definition collectListed (apply : bool) (grace tempGrace now : Z) (blobs : list Blob) : M Collection :=
  let cutoff := (now - grace)%Z in
  let st := foldl (classify now grace cutoff) (mkSorted (start apply (length blobs) grace now) [] [] []) blobs in
  let known : gset string := list_to_set (bHash <$> blobs) in
  _ ← (if apply then clearUnreferenced (sClear st) else mret tt);
  _ ← (if apply then markUnreferenced (sMark st) now else mret tt);
  g ← gate;
  out ← sweep g apply grace now (sEligible st) (addRefusals (refusals g) (sOut st));
  out ← collectUntracked g apply known cutoff now out;
  out ← collectTemp apply (now - tempGrace) out;
  at_ ← Now;
  mret (finish at_ out).

Definition graceOf (o : CollectOptions) : Z := if (oGrace o =? 0)%Z then DefaultGrace else oGrace o.
Definition tempGraceOf (o : CollectOptions) : Z := if (oTempGrace o =? 0)%Z then DefaultTempGrace else oTempGrace o.

Definition Collect (o : CollectOptions) : M Collection :=
  if (graceOf o <? 0)%Z then throw ErrNegativeGrace
  else if (tempGraceOf o <? 0)%Z then throw ErrNegativeTempGrace
  else
    now ← Now;
    blobs ← call ABlobs (reading (λ w, Blobs (cat w)));
    collectListed (Apply o) (graceOf o) (tempGraceOf o) now blobs.
End collecting.
