(* ===== verification/CollectQuiet.v ===== *)
(** * CollectQuiet: what an undisturbed sweep removes

    With nothing else running, nothing failing and no other peer, a sweep ends, and the
    catalog and the store it leaves are a function of those it found.  Then two behaviours
    its comments do not tell: what a dry run promises and a real one does not do, and the
    window in which a blob stored again is lost. *)

From S2P Require Import Prelude GoText GoPath BlobCatalog StoreSteps Collect CollectSpec.
From Stdlib Require Import Strings.Byte.

(** ** Nobody wants a blob with no reference *)

Lemma existsb_filter_nil {A} (f : A → bool) (P : A → Prop) `{∀ x, Decision (P x)} l :
  (∀ x, f x = true ↔ P x) → existsb f l = false ↔ length (filter P l) = 0.
Proof.
  intros Hf. rewrite length_zero_iff_nil. induction l as [|x l IH]; [done|]. cbn [existsb].
  rewrite orb_false_iff, IH, filter_cons. destruct (decide (P x)) as [Hp|Hp].
  - apply Hf in Hp. rewrite Hp. naive_solver.
  - rewrite <-Hf in Hp. apply not_true_is_false in Hp. naive_solver.
Qed.

Lemma References_zero c h :
  References c h = 0 ↔ hasAsset c h = false ∧ hasPin c h = false ∧ hasPlacement c h = false ∧ hasThumb c h = false.
Proof.
  unfold References, hasAsset, hasPin, hasPlacement, hasThumb.
  rewrite (existsb_filter_nil (λ a, bool_decide (aBlob a = Some h)) (λ a, aBlob a = Some h)) by (intros; apply bool_decide_eq_true).
  rewrite (existsb_filter_nil (λ p, bool_decide (p.1 = h)) (λ p, p.1 = h)) by (intros; apply bool_decide_eq_true).
  rewrite (existsb_filter_nil (λ p, bool_decide (p.2 = h)) (λ p, p.2 = h)) by (intros; apply bool_decide_eq_true).
  rewrite (existsb_filter_nil (λ kt, readyFor h kt.2) (λ kt, readyFor h kt.2)); [lia|].
  intros x. by rewrite Is_true_true.
Qed.

Section quietly.
Context (env : Env) (opts : Options) (Hq : quiet env).

(** ** The gate with no other peer *)

Definition answering : Prop :=
  match oDurability opts with None => True | Some d => ∀ n, Controller d n = true end.

Lemma does_gate w : answering → Peers (cat w) = [] → does (gate env opts) w w (inr (mkGate true [])).
Proof.
  intros Ha Hp. unfold gate. eapply does_bind; [by apply does_read|]. rewrite Hp. unfold answering in Ha.
  destruct (oDurability opts) as [d|]; [|apply does_ret].
  intros s Hs. unfold mbind, M_bind. cbn. rewrite Ha. eexists. by split.
Qed.

(** The evidence such a sweep relies on. *)
Definition soleProof (b : Blob) (now : Z) : Evidence :=
  if HonourReleases opts && bool_decide (bReleasedAt b ≠ None) then releasedEvidence b now else soleEvidence b now.

Lemma does_establish w b now apply_ :
  does (establish env opts (mkGate true []) b now apply_) w w (inr (soleProof b now, None)).
Proof. unfold establish, soleProof. cbn. destruct (_ && _); apply does_ret. Qed.

(** ** One blob *)

(** What the sweep may rely on when it comes to a blob it listed. *)
Record ripe (c : Catalog) (b : Blob) (now : Z) : Prop := mkRipe {
  ripe_row : ∃ r t, blobs c !! bHash b = Some r ∧ rSince r = Some t ∧ bSince b = Some t;
  ripe_free : References c (bHash b) = 0;
  ripe_release : bReleasedAt b = if hasScanned c (bHash b) then None else relAt <$> releases c !! bHash b;
  ripe_fresh : Forall (λ e, attempt (bHash b) now e = false) (evidence c) }.

(** The catalog once the row is gone. *)
Definition erased (b : Blob) (now : Z) (c : Catalog) : Catalog :=
  emit [BlobReclaimed (bHash b) (bSize b) true now]
    (set_releases (delete (bHash b)) (deleteBlob (bHash b)
      (DeleteThumbnailsForSource (bHash b) (set_evidence (cons (soleProof b now)) c)))).

Definition swept (b : Blob) (now : Z) (w : World) : World :=
  if hasScanned (cat w) (bHash b) then w
  else mkWorld (erased b now (cat w)) (mkDisk (delete (bHash b) (files (disk w))) (temps (disk w)) (quarantine (disk w))).

Definition recorded (b : Blob) (now : Z) (w : World) : World :=
  mkWorld (set_evidence (cons (soleProof b now)) (cat w)) (disk w).

Lemma soleProof_attempt b now : attempt (bHash b) now (soleProof b now) = true.
Proof. unfold soleProof. destruct (_ && _); unfold attempt; cbn; by rewrite bool_decide_true, Z.eqb_refl. Qed.

Lemma does_record b now w : ripe (cat w) b now → does (recordDurability env (soleProof b now)) w (recorded b now w) (inr tt).
Proof.
  intros Hr. apply (does_call env Hq). unfold onCatalog, RecordDurability.
  assert (evBasis (soleProof b now) ∈ [BasisVerifiedRemote; BasisSolePeer; BasisReleased]) as Hin.
  { unfold soleProof. destruct (_ && _); set_solver. }
  rewrite bool_decide_true by done. cbn [negb].
  destruct (ripe_row _ _ _ Hr) as (r & t & _ & _ & Ht).
  assert (bool_decide (evBasis (soleProof b now) = BasisReleased) &&
    (bool_decide (evReleasedAt (soleProof b now) = None) || bool_decide (evSince (soleProof b now) = None)) = false) as ->;
    [|done].
  unfold soleProof. destruct (HonourReleases opts && bool_decide (bReleasedAt b ≠ None)) eqn:E; [|done].
  apply andb_true_iff in E as [_ Hn%bool_decide_eq_true]. cbn [releasedEvidence evBasis evReleasedAt evSince].
  by rewrite Ht, (bool_decide_false (bReleasedAt b = None)), (bool_decide_false (Some t = None)), andb_false_r by done.
Qed.

Lemma hasThumb_source c h source :
  hasThumb c h = false → hasThumb (DeleteThumbnailsForSource source c) h = false.
Proof.
  unfold hasThumb, DeleteThumbnailsForSource. cbn. intros H. apply not_true_is_false. intros Ht.
  apply not_true_iff_false in H. destruct H. rewrite existsb_exists in Ht |- *.
  destruct Ht as ([k v] & Hin & Hv). exists (k, v). split; [|done].
  apply list_elem_of_In, elem_of_map_to_list in Hin. apply map_lookup_filter_Some in Hin as [Hin _].
  by apply list_elem_of_In, elem_of_map_to_list.
Qed.

Lemma same_refl x : x ≠ None → same x x = true.
Proof. destruct x; [|done]. intros _. apply Z.eqb_refl. Qed.

(** The transaction finds the blob as it was listed, unless a scanned file reaches it. *)
Lemma wantedAtReclaim_recorded b now c :
  ripe c b now →
  wantedAtReclaim (set_evidence (cons (soleProof b now)) c) (bHash b) now = hasScanned c (bHash b).
Proof.
  intros [(r & t & Hrow & Ht & Hbt) (_ & Hp & Hpl & Hth)%References_zero Hrel Hfresh].
  unfold wantedAtReclaim, wanted. change (hasPin (set_evidence _ c)) with (hasPin c).
  change (hasPlacement (set_evidence _ c)) with (hasPlacement c).
  change (hasScanned (set_evidence _ c)) with (hasScanned c). change (hasThumb (set_evidence _ c)) with (hasThumb c).
  rewrite Hp, Hpl, Hth, orb_false_r. cbn [orb].
  destruct (hasScanned c (bHash b)); [done|]. cbn [orb set_evidence evidence].
  assert (List.find (reliedOnRelease (bHash b) now) (evidence c) = None) as Hnone.
  { destruct (List.find _ _) as [e|] eqn:Hf; [|done].
    apply find_some in Hf as [Hin Hr]. rewrite Forall_forall in Hfresh. apply list_elem_of_In in Hin.
    unfold reliedOnRelease in Hr. by rewrite (Hfresh _ Hin) in Hr. }
  cbn [List.find]. rewrite Hnone. unfold reliedOnRelease. rewrite soleProof_attempt. cbn [andb].
  unfold soleProof. destruct (HonourReleases opts && bool_decide (bReleasedAt b ≠ None)) eqn:Hh; [|done].
  apply andb_true_iff in Hh as [_ Hn%bool_decide_eq_true]. cbn [evBasis releasedEvidence].
  rewrite bool_decide_true by done. cbn. rewrite <-Hrel, Hrow. cbn. rewrite Ht, Hbt. rewrite !same_refl by done. done.
Qed.

Lemma does_delete h w :
  DeleteGone h (disk w) = inr (mkDisk (delete h (files (disk w))) (temps (disk w)) (quarantine (disk w))).
Proof.
  unfold DeleteGone, Delete. destruct (files (disk w) !! h) eqn:Hf; [done|].
  rewrite delete_id by done. by destruct (disk w).
Qed.

Lemma filter_id {A} (P : A → Prop) `{∀ x, Decision (P x)} l : Forall P l → filter P l = l.
Proof. induction 1 as [|x l Hx _ IH]; [done|]. by rewrite filter_cons, decide_True, IH. Qed.

(** The reclaim of a blob whose evidence is recorded; a refusal takes that evidence back. *)
Lemma Reclaim_recorded b now c :
  ripe c b now →
  Reclaim (bHash b) (bSize b) true now (set_evidence (cons (soleProof b now)) c) =
    if hasScanned c (bHash b) then (c, Some ErrWantedAgain) else (erased b now c, None).
Proof.
  intros Hr. unfold Reclaim. cbn [negb]. rewrite wantedAtReclaim_recorded by done.
  destruct Hr as [(r & t & Hrow & _ & _) (Ha & _)%References_zero _ Hfresh].
  destruct (hasScanned c (bHash b)).
  - f_equal. destruct c as [cb ca cp cpl ct cs cr ce crep cpe cl co]. unfold set_evidence.
    cbn [blobs assets pins placements thumbs scanned releases evidence replicas peers ledger outbox] in *. f_equal.
    rewrite filter_cons, decide_False by (by rewrite soleProof_attempt). by apply filter_id.
  - unfold hasDurabilityEvidence. cbn [set_evidence evidence existsb].
    assert (evHash (soleProof b now) = bHash b) as -> by (unfold soleProof; by destruct (_ && _)).
    rewrite bool_decide_true by done. cbn [orb negb].
    change (blobs (set_evidence (cons (soleProof b now)) c)) with (blobs c). rewrite Hrow.
    change (hasAsset (set_evidence (cons (soleProof b now)) c)) with (hasAsset c). by rewrite Ha.
Qed.

(** ... and of its bytes, guarded or not. *)
Lemma does_reclaimTracked b now w :
  ripe (cat w) b now →
  does (reclaimTracked env (bHash b) (bSize b) (bool_decide (evBasis (soleProof b now) = BasisReleased)) now)
    (recorded b now w) (swept b now w) (if hasScanned (cat w) (bHash b) then inl ErrWantedAgain else inr tt).
Proof.
  intros Hr. pose proof (Reclaim_recorded _ _ _ Hr) as HR.
  pose proof (ripe_free _ _ _ Hr) as (_ & Hp & Hpl & Hth)%References_zero.
  assert (onCatalog (Reclaim (bHash b) (bSize b) true now) (recorded b now w) =
    if hasScanned (cat w) (bHash b) then (w, inl ErrWantedAgain) else (mkWorld (erased b now (cat w)) (disk w), inr tt)) as Hon.
  { unfold onCatalog, recorded. cbn [cat disk]. rewrite HR. destruct w as [c d]. by destruct (hasScanned _ _). }
  unfold reclaimTracked, reclaim, swept. destruct (hasScanned (cat w) (bHash b)) eqn:Hs.
  { assert (does (catalogReclaim env (bHash b) (bSize b) true now) (recorded b now w) w (inl ErrWantedAgain)) as Hd
      by by apply (does_call env Hq).
    destruct (negb _); by apply does_bind_fail. }
  assert (does (catalogReclaim env (bHash b) (bSize b) true now) (recorded b now w)
    (mkWorld (erased b now (cat w)) (disk w)) (inr tt)) as Hd by by apply (does_call env Hq).
  destruct (negb _).
  - eapply does_bind; [exact Hd|]. eapply does_bind; [|apply does_ret]. apply (does_call env Hq). unfold onDisk. cbn [disk].
    by rewrite does_delete.
  - eapply does_bind; [exact Hd|]. apply (does_call env Hq). unfold GuardUnlink. cbn [cat disk].
    assert (Known (erased b now (cat w)) (bHash b) = false) as ->.
    { apply bool_decide_eq_false. cbn. rewrite lookup_delete_eq. by intros [? ?]. }
    assert (wanted (erased b now (cat w)) (bHash b) = false) as ->; [|cbn [orb]; by rewrite does_delete].
    unfold wanted. change (hasPin (erased b now (cat w))) with (hasPin (cat w)).
    change (hasPlacement (erased b now (cat w))) with (hasPlacement (cat w)).
    change (hasScanned (erased b now (cat w))) with (hasScanned (cat w)).
    rewrite Hp, Hpl, Hs. cbn [orb]. exact (hasThumb_source (cat w) (bHash b) (bHash b) Hth).
Qed.

(** ** The loop *)

(** A blob that was looked at is gone, unless a scanned file reaches it. *)
Definition gone (w1 : World) (D : gset string) (h : string) : bool :=
  bool_decide (h ∈ D) && negb (hasScanned (cat w1) h).

(** The world [w] after the blobs [D] of [w1] have been looked at. *)
Record after (w1 : World) (D : gset string) (w : World) : Prop := mkAfter {
  after_assets : assets (cat w) = assets (cat w1);
  after_pins : pins (cat w) = pins (cat w1);
  after_placements : placements (cat w) = placements (cat w1);
  after_scanned : scanned (cat w) = scanned (cat w1);
  after_peers : peers (cat w) = peers (cat w1);
  after_thumbs : ∀ h, hasThumb (cat w1) h = false → hasThumb (cat w) h = false;
  after_blobs : ∀ h, blobs (cat w) !! h = if gone w1 D h then None else blobs (cat w1) !! h;
  after_files : ∀ h, files (disk w) !! h = if gone w1 D h then None else files (disk w1) !! h;
  after_releases : ∀ h, (h ∉ D) → releases (cat w) !! h = releases (cat w1) !! h;
  after_evidence : ∀ e, e ∈ evidence (cat w) → e ∈ evidence (cat w1) ∨ evHash e ∈ D;
  after_temps : temps (disk w) = temps (disk w1) }.

Lemma gone_empty w1 h : gone w1 ∅ h = false.
Proof. done. Qed.

Lemma after_refl w1 : after w1 ∅ w1.
Proof. split; try done. by left. Qed.

Lemma gone_snoc w1 D h k : gone w1 (D ∪ {[k]}) h = gone w1 D h || (bool_decide (h = k) && negb (hasScanned (cat w1) h)).
Proof.
  unfold gone. destruct (hasScanned (cat w1) h); cbn [negb]; rewrite ?andb_true_r, ?andb_false_r; [done|].
  apply eq_true_iff_eq. rewrite orb_true_iff, !bool_decide_eq_true. set_solver.
Qed.

Lemma ripe_after w1 D w b now :
  after w1 D w → bHash b ∉ D → ripe (cat w1) b now → ripe (cat w) b now.
Proof.
  intros Ha HD [Hrow (Has & Hp & Hpl & Hth)%References_zero Hrel Hf]. split.
  - rewrite (after_blobs _ _ _ Ha). unfold gone. by rewrite bool_decide_false.
  - apply References_zero. unfold hasAsset, hasPin, hasPlacement.
    rewrite (after_assets _ _ _ Ha), (after_pins _ _ _ Ha), (after_placements _ _ _ Ha).
    split_and!; [done..|]. by apply (after_thumbs _ _ _ Ha).
  - unfold hasScanned. rewrite (after_scanned _ _ _ Ha), (after_releases _ _ _ Ha) by done. done.
  - apply Forall_forall. intros e He. rewrite Forall_forall in Hf.
    destruct (after_evidence _ _ _ Ha e He) as [?|Hin]; [by apply Hf|]. unfold attempt.
    rewrite bool_decide_false; [done|]. intros Heq. by rewrite Heq in Hin.
Qed.

Lemma after_swept w1 D w b now :
  after w1 D w → bHash b ∉ D → after w1 (D ∪ {[bHash b]}) (swept b now w).
Proof.
  intros Ha HD. unfold swept.
  assert (hasScanned (cat w) (bHash b) = hasScanned (cat w1) (bHash b)) as ->
    by (unfold hasScanned; by rewrite (after_scanned _ _ _ Ha)).
  assert (∀ X (m m' : gmap string X),
    (∀ h, m !! h = if gone w1 D h then None else m' !! h) →
    ∀ h, (if hasScanned (cat w1) (bHash b) then m else delete (bHash b) m) !! h =
         if gone w1 (D ∪ {[bHash b]}) h then None else m' !! h) as Hmap.
  { intros X m m' Hm h. rewrite gone_snoc. destruct (hasScanned (cat w1) (bHash b)) eqn:Hs.
    - rewrite Hm. case_bool_decide as Hh; [|by rewrite orb_false_r]. subst h. by rewrite Hs, orb_false_r.
    - rewrite lookup_delete. case_decide as Hh; [subst h; by rewrite bool_decide_true, Hs, orb_true_r|].
      by rewrite bool_decide_false, orb_false_r by done. }
  assert (∀ e, evHash e ∈ D → evHash e ∈ D ∪ {[bHash b]}) as Hin by set_solver.
  destruct (hasScanned (cat w1) (bHash b)); destruct Ha; split; cbn; try done; try (by apply Hmap); intros x Hx.
  - apply after_releases0. set_solver.
  - destruct (after_evidence0 x Hx); auto.
  - apply (hasThumb_source (cat w)), after_thumbs0, Hx.
  - rewrite lookup_delete_ne by set_solver. apply after_releases0. set_solver.
  - apply elem_of_cons in Hx as [->|Hx]; [right; unfold soleProof; destruct (_ && _); set_solver|].
    destruct (after_evidence0 x Hx); auto.
Qed.

Lemma sweep_quiet w1 grace now bs D w out :
  after w1 D w → NoDup (bHash <$> bs) → (∀ b, b ∈ bs → (bHash b ∉ D) ∧ ripe (cat w1) b now) →
  ∃ out' w', does (sweep env opts (mkGate true []) true grace now bs out) w w' (inr out') ∧
    after w1 (D ∪ list_to_set (bHash <$> bs)) w' ∧ Considered out' = Considered out.
Proof.
  revert D w out. induction bs as [|b bs IH]; intros D w out Ha Hnd Hbs.
  { exists out, w. split_and!; [by apply does_ret| |done]. cbn. by rewrite (right_id_L ∅ (∪)). }
  rewrite fmap_cons in *. apply NoDup_cons in Hnd as [Hb Hnd]. destruct (Hbs b) as [HD Hr]; [by constructor|].
  assert (ripe (cat w) b now) as Hrw by by eapply ripe_after.
  set (out1 := if hasScanned (cat w) (bHash b) then addSpared (spareBare b ReasonWantedAgain) out
               else addReclaimed (candidate b (bSince b) grace) out).
  destruct (IH (D ∪ {[bHash b]}) (swept b now w) out1) as (out' & w' & Hdo & Ha' & Hc).
  { by apply after_swept. }
  { done. }
  { intros b' Hb'. destruct (Hbs b') as [HD' Hr']; [by constructor|]. split; [|done].
    assert (bHash b' ≠ bHash b); [|set_solver]. intros Heq. destruct Hb. rewrite <-Heq. by apply list_elem_of_fmap_2. }
  exists out', w'. split_and!.
  - cbn [sweep]. eapply does_bind; [by apply does_ctx|]. eapply does_bind; [apply does_establish|].
    eapply does_bind; [by apply does_record|]. eapply does_bind; [by apply does_catch, does_reclaimTracked|].
    unfold out1 in Hdo. by destruct (hasScanned (cat w) (bHash b)).
  - by rewrite list_to_set_cons, (assoc_L (∪)).
  - rewrite Hc. unfold out1. by destruct (hasScanned _ _).
Qed.

(** ** Untracked files and partial writes *)

Lemma knownAll_quiet w ds : does (knownAll env ds) w w (inr ((λ d, Known (cat w) (dHash d)) <$> ds)).
Proof.
  induction ds as [|d ds IH]; cbn [knownAll]; [by apply does_ret|].
  eapply does_bind; [by apply does_read|]. eapply does_bind; [exact IH|]. apply does_ret.
Qed.

(** The same catalog but for its events. *)
Definition same_tables (c c' : Catalog) : Prop := ∃ evs, c' = emit evs c.

Lemma sweepUntracked_quiet now ds w out :
  ∃ out' w', does (sweepUntracked env true now ((λ d, (d, false)) <$> ds) out) w w' (inr out') ∧
    same_tables (cat w) (cat w') ∧ temps (disk w') = temps (disk w) ∧
    ∀ h, files (disk w') !! h = if bool_decide (h ∈ dHash <$> ds) then None else files (disk w) !! h.
Proof.
  revert w out. induction ds as [|d ds IH]; intros w out.
  { exists out, w. split_and!; [by apply does_ret| |done|done]. exists []. destruct (cat w). unfold emit. by rewrite app_nil_r. }
  rewrite !fmap_cons. cbn [sweepUntracked].
  set (w1 := mkWorld (emit [BlobReclaimed (dHash d) (dSize d) false now] (cat w))
               (mkDisk (delete (dHash d) (files (disk w))) (temps (disk w)) (quarantine (disk w)))).
  destruct (IH w1 (addUntracked d out)) as (out' & w' & Hdo & (evs & Hevs) & Ht & Hf).
  exists out', w'. split_and!; [| |done|].
  - eapply does_bind; [|exact Hdo]. unfold reclaim. eapply does_bind; [apply does_ret|].
    eapply does_bind; [apply (does_call env Hq); unfold onDisk; by rewrite does_delete|]. by apply (does_call env Hq).
  - exists (BlobReclaimed (dHash d) (dSize d) false now :: evs). rewrite Hevs. destruct (cat w). unfold emit. cbn.
    by rewrite <-app_assoc.
  - intros h. rewrite Hf. cbn [w1 disk files]. destruct (decide (h = dHash d)) as [->|Hne].
    + rewrite lookup_delete_eq. rewrite (bool_decide_true (dHash d ∈ dHash d :: _)) by by constructor.
      by case_bool_decide.
    + rewrite lookup_delete_ne by done. by rewrite (bool_decide_ext (h ∈ dHash d :: _) (h ∈ dHash <$> ds)) by set_solver.
Qed.

Lemma HasSuffix_app suffix s : HasSuffix suffix s = true → s = "" → suffix = "".
Proof. intros H ->. cbn in H. rewrite orb_false_r in H. by apply bool_decide_eq_true in H. Qed.

Lemma sweepTemp_quiet tc fs w out :
  (∀ f, f ∈ fs → HasSuffix ".part" (tmName f) = true ∧ has_byte slash (tmName f) = false) →
  ∃ out' w', does (sweepTemp env true tc fs out) w w' (inr out') ∧ cat w' = cat w ∧
    files (disk w') = files (disk w).
Proof.
  revert w out. induction fs as [|f fs IH]; intros w out Hfs; cbn [sweepTemp].
  { exists out, w. by split; [apply does_ret|]. }
  assert (∀ f', f' ∈ fs → HasSuffix ".part" (tmName f') = true ∧ has_byte slash (tmName f') = false) as Hfs'.
  { intros f' Hf'. apply Hfs. by constructor. }
  destruct (negb _); [by apply IH|].
  destruct (Hfs f) as [Hsuf Hsl]; [by constructor|].
  assert (∃ d', RemoveTemp (tmName f) (disk w) = inr d' ∧ files d' = files (disk w)) as (d' & Hd & Hfd).
  { unfold RemoveTemp. rewrite Hsl, Hsuf. rewrite (bool_decide_false (tmName f = "")).
    2:{ intros He. by apply HasSuffix_app in Hsuf. }
    cbn [orb negb]. eexists. split; [done|]. by destruct (temps _ !! _). }
  destruct (IH (mkWorld (cat w) d') (addTempRemoved f out) Hfs') as (out' & w' & Hdo & Hc & Hf).
  exists out', w'. split_and!; [|done|by rewrite Hf].
  eapply does_bind; [|exact Hdo]. apply (does_call env Hq). unfold onDisk. by rewrite Hd.
Qed.

Lemma elem_of_TempFiles d f : f ∈ TempFiles d → HasSuffix ".part" (tmName f) = true ∧ is_Some (temps d !! tmName f).
Proof.
  unfold TempFiles. rewrite elem_of_sort_by, list_elem_of_fmap.
  intros ([n [sz mt]] & -> & [Hs Hin%elem_of_map_to_list]%list_elem_of_filter). split; [done|]. by exists (sz, mt).
Qed.
End quietly.

(** ** The marks *)

Lemma MarkUnreferenced_row hs at_ c h :
  blobs (MarkUnreferenced hs at_ c) !! h =
    (λ r, if bool_decide (h ∈ hs) then mkRow (rSize r) (Some (default at_ (rSince r))) else r) <$> blobs c !! h.
Proof.
  unfold MarkUnreferenced. revert c. induction hs as [|k hs IH]; intros c; cbn [foldl].
  { rewrite (bool_decide_false (h ∈ [])) by set_solver. symmetry. apply option_fmap_id. }
  rewrite IH. unfold markOne at 1. cbn. destruct (decide (h = k)) as [->|Hne].
  - rewrite lookup_alter_eq, (bool_decide_true (k ∈ k :: hs)) by by constructor.
    destruct (blobs c !! k) as [[sz [t|]]|]; cbn; by destruct (bool_decide _).
  - rewrite lookup_alter_ne by done. by rewrite (bool_decide_ext (h ∈ k :: hs) (h ∈ hs)) by set_solver.
Qed.

Lemma ClearUnreferenced_row hs c h :
  blobs (ClearUnreferenced hs c) !! h = (λ r, if bool_decide (h ∈ hs) then mkRow (rSize r) None else r) <$> blobs c !! h.
Proof.
  unfold ClearUnreferenced. revert c. induction hs as [|k hs IH]; intros c; cbn [foldl].
  { rewrite (bool_decide_false (h ∈ [])) by set_solver. symmetry. apply option_fmap_id. }
  rewrite IH. unfold clearOne at 1, clearRelease. cbn.
  replace (blobs match releases c !! k with
             | Some _ => _ | None => restartWindow k c end) with (alter (λ r, mkRow (rSize r) None) k (blobs c))
    by by destruct (releases c !! k).
  destruct (decide (h = k)) as [->|Hne].
  - rewrite lookup_alter_eq, (bool_decide_true (k ∈ k :: hs)) by by constructor.
    destruct (blobs c !! k) as [[sz t]|]; cbn; by destruct (bool_decide _).
  - rewrite lookup_alter_ne by done. by rewrite (bool_decide_ext (h ∈ k :: hs) (h ∈ hs)) by set_solver.
Qed.

(** The tables the marks do not touch. *)
Record kept (c c' : Catalog) : Prop := mkKept {
  kept_assets : assets c' = assets c; kept_pins : pins c' = pins c;
  kept_placements : placements c' = placements c; kept_thumbs : thumbs c' = thumbs c;
  kept_scanned : scanned c' = scanned c; kept_evidence : evidence c' = evidence c;
  kept_peers : peers c' = peers c }.

Lemma kept_refl c : kept c c.
Proof. done. Qed.

Lemma kept_trans c1 c2 c3 : kept c1 c2 → kept c2 c3 → kept c1 c3.
Proof. intros [] []. split; congruence. Qed.

Lemma kept_foldl {X} (f : Catalog → X → Catalog) xs c : (∀ c x, kept c (f c x)) → kept c (foldl f c xs).
Proof. intros Hf. revert c. induction xs as [|x xs IH]; intros c; [done|]. by eapply kept_trans, IH. Qed.

Lemma kept_mark hs at_ c : kept c (MarkUnreferenced hs at_ c).
Proof. by apply kept_foldl. Qed.

Lemma kept_clear hs c : kept c (ClearUnreferenced hs c).
Proof. apply kept_foldl. intros c' h. unfold clearOne, clearRelease. by destruct (releases (restartWindow h c') !! h). Qed.

Lemma MarkUnreferenced_releases hs at_ c : releases (MarkUnreferenced hs at_ c) = releases c.
Proof. unfold MarkUnreferenced. revert c. induction hs as [|k hs IH]; intros c; [done|]. cbn [foldl]. by rewrite IH. Qed.

Lemma ClearUnreferenced_releases hs c h : (h ∉ hs) → releases (ClearUnreferenced hs c) !! h = releases c !! h.
Proof.
  unfold ClearUnreferenced. revert c. induction hs as [|k hs IH]; intros c Hh; [done|]. cbn [foldl].
  rewrite IH by set_solver. unfold clearOne, clearRelease. change (releases (restartWindow k c)) with (releases c).
  destruct (releases c !! k) eqn:Hk; [|done]. cbn. rewrite lookup_delete_ne by set_solver. done.
Qed.

Lemma kept_References c c' h : kept c c' → References c' h = References c h.
Proof. intros []. unfold References. by rewrite kept_assets0, kept_pins0, kept_placements0, kept_thumbs0. Qed.

(** ** The sweep *)

(** What an undisturbed sweep makes of a row, and whether it deletes it. *)
Definition marked (now : Z) (c : Catalog) (h : string) (r : BlobRow) : BlobRow :=
  mkRow (rSize r) (if (References c h =? 0)%nat then Some (default now (rSince r)) else None).
Definition collected (cutoff : Z) (c : Catalog) (h : string) : bool :=
  match blobs c !! h with
  | Some r => eligible cutoff (scanBlob c h r) && negb (hasScanned c h)
  | None => false
  end.

(** Whether it deletes a file that has no row. *)
Definition orphan (cutoff : Z) (w : World) (d : Descriptor) : bool :=
  negb (Known (cat w) (dHash d)) && negb (bool_decide (dHash d ∈ SelfPinnedHashes (cat w))) && (dMtime d <? cutoff)%Z.
Definition sweepable (cutoff : Z) (w : World) : bool :=
  let remaining := filter (λ d, collected cutoff (cat w) (dHash d) = false) (Walk (disk w)) in
  negb (vacuity (size (blobs (cat w))) (length (filter (λ d, orphan cutoff w d = true) (Walk (disk w)))) (length remaining)).
Definition dropped (cutoff : Z) (w : World) (h : string) : bool :=
  match files (disk w) !! h with
  | Some f => orphan cutoff w (describe h f) && sweepable cutoff w
  | None => false
  end.

Lemma hash_in_filter c (P : Blob → Prop) `{∀ b, Decision (P b)} h :
  h ∈ bHash <$> filter P (Blobs c) ↔ ∃ r, blobs c !! h = Some r ∧ P (scanBlob c h r).
Proof.
  rewrite list_elem_of_fmap. split.
  - intros (b & -> & [HP (k & r & Hr & ->)%elem_of_Blobs]%list_elem_of_filter). by exists r.
  - intros (r & Hr & HP). exists (scanBlob c h r). split; [done|]. apply list_elem_of_filter. split; [done|].
    apply elem_of_Blobs. eauto.
Qed.

Section collects.
Context (env : Env) (opts : Options) (Hq : quiet env).

(** The catalog once the marks are written. *)
Definition marks (now : Z) (c : Catalog) : Catalog :=
  MarkUnreferenced (bHash <$> filter (λ b, unmarked b = true) (Blobs c)) now
    (ClearUnreferenced (bHash <$> filter (λ b, cleared b = true) (Blobs c)) c).

Lemma kept_marks now c : kept c (marks now c).
Proof. eapply kept_trans; [apply kept_clear|apply kept_mark]. Qed.

Lemma marks_row now c h : blobs (marks now c) !! h = marked now c h <$> blobs c !! h.
Proof.
  unfold marks. rewrite MarkUnreferenced_row, ClearUnreferenced_row. destruct (blobs c !! h) as [r|] eqn:Hr; [|done].
  cbn. f_equal. unfold marked.
  assert (∀ (P : Blob → Prop) `{∀ b, Decision (P b)}, h ∈ bHash <$> filter P (Blobs c) ↔ P (scanBlob c h r)) as Hin.
  { intros P ?. rewrite hash_in_filter. split; [intros (r' & Hr' & ?); by simplify_eq|eauto]. }
  rewrite !(bool_decide_ext _ _ (Hin _ _)). unfold unmarked, cleared, scanBlob. cbn.
  destruct (References c h) as [|n]; cbn [Nat.eqb Nat.ltb Nat.leb andb].
  - rewrite (bool_decide_false (false = true)) by done. destruct r as [sz [t|]]; cbn; done.
  - rewrite (bool_decide_false (false = true)) by done. destruct r as [sz [t|]]; cbn; [done|].
    by destruct (bool_decide (_ = true)).
Qed.

Lemma marks_ripe now cutoff c b :
  b ∈ Blobs c → eligible cutoff b = true → Forall (λ e, evRecordedAt e ≠ now) (evidence c) →
  ripe (marks now c) b now.
Proof.
  intros (h & r & Hr & ->)%elem_of_Blobs [Hn%Nat.eqb_eq Ht]%andb_true_iff Hev. cbn in *.
  destruct (rSince r) as [t|] eqn:Hs; [|done]. pose proof (kept_marks now c) as Hk. split; cbn.
  - exists (marked now c h r), t. rewrite marks_row, Hr. split_and!; [done| |done]. unfold marked. cbn. by rewrite Hn, Hs.
  - by rewrite (kept_References _ _ _ Hk).
  - unfold hasScanned. rewrite (kept_scanned _ _ Hk). case_bool_decide; [done|].
    unfold marks. rewrite MarkUnreferenced_releases, ClearUnreferenced_releases; [done|].
    rewrite hash_in_filter. intros (r' & Hr' & Hc). unfold cleared, scanBlob in Hc. cbn in Hc. by rewrite Hn in Hc.
  - rewrite (kept_evidence _ _ Hk). eapply Forall_impl; [exact Hev|]. cbn. intros e He. unfold attempt.
    rewrite (proj2 (Z.eqb_neq _ _)) by done. apply andb_false_r.
Qed.

(** ** The whole sweep *)

Lemma does_listed_marks now c d :
  let w := mkWorld c d in
  let w1 := mkWorld (marks now c) d in
  let clears := bHash <$> filter (λ b, cleared b = true) (Blobs c) in
  let marks_ := bHash <$> filter (λ b, unmarked b = true) (Blobs c) in
  ∃ w', does (clearUnreferenced env clears) w w' (inr tt) ∧ does (markUnreferenced env marks_ now) w' w1 (inr tt).
Proof.
  intros w w1 clears marks_. exists (mkWorld (ClearUnreferenced clears c) d). unfold clearUnreferenced, markUnreferenced. split.
  - case_bool_decide as Hn; [rewrite Hn; by apply does_ret|]. by apply (does_call env Hq).
  - unfold w1, marks. fold clears marks_. case_bool_decide as Hn; [rewrite Hn; by apply does_ret|]. by apply (does_call env Hq).
Qed.

(** The world after the loop over the eligible blobs of [w]. *)
Section after_loop.
Context (now cutoff : Z) (w w2 : World).
Let c := cat w.
Let D : gset string := list_to_set (bHash <$> filter (λ b, eligible cutoff b = true) (Blobs c)).
Hypothesis Ha : after (mkWorld (marks now c) (disk w)) D w2.

Lemma gone_eq h : gone (mkWorld (marks now c) (disk w)) D h = collected cutoff c h.
Proof.
  unfold gone, collected. cbn [cat].
  replace (hasScanned (marks now c) h) with (hasScanned c h)
    by (unfold hasScanned; by rewrite (kept_scanned _ _ (kept_marks now c))).
  assert (h ∈ D ↔ ∃ r, blobs c !! h = Some r ∧ eligible cutoff (scanBlob c h r) = true) as HD.
  { unfold D. by rewrite elem_of_list_to_set, hash_in_filter. }
  destruct (blobs c !! h) as [r|] eqn:Hr.
  - f_equal. apply eq_true_iff_eq. rewrite bool_decide_eq_true, HD. split; [intros (r' & ? & ?); by simplify_eq|eauto].
  - rewrite bool_decide_false; [done|]. rewrite HD. by intros (? & ? & _).
Qed.

Lemma after_row h : blobs (cat w2) !! h = if collected cutoff c h then None else marked now c h <$> blobs c !! h.
Proof. rewrite (after_blobs _ _ _ Ha), gone_eq. cbn [cat]. by rewrite marks_row. Qed.

Lemma after_file h : files (disk w2) !! h = if collected cutoff c h then None else files (disk w) !! h.
Proof. rewrite (after_files _ _ _ Ha), gone_eq. done. Qed.

Lemma after_known h : blobs c !! h = None → Known (cat w2) h = false.
Proof. intros Hn. apply bool_decide_eq_false. rewrite after_row, Hn. case_match; by intros [? ?]. Qed.

Lemma walk_after : Walk (disk w2) ≡ₚ filter (λ d, collected cutoff c (dHash d) = false) (Walk (disk w)).
Proof.
  apply NoDup_Permutation; [apply NoDup_Walk|apply NoDup_filter, NoDup_Walk|].
  intros d. rewrite list_elem_of_filter, !elem_of_Walk. split.
  - intros (h & f & Hf & ->). rewrite after_file in Hf. cbn. destruct (collected _ _ _) eqn:Hc; [done|]. eauto.
  - intros [Hc (h & f & Hf & ->)]. cbn in Hc. exists h, f. by rewrite after_file, Hc.
Qed.

Lemma orphan_uncollected d : orphan cutoff w d = true → collected cutoff c (dHash d) = false.
Proof.
  unfold orphan, Known, collected. fold c. intros [[Hk _]%andb_true_iff _]%andb_true_iff.
  destruct (blobs c !! dHash d); [|done]. by rewrite bool_decide_true in Hk.
Qed.

Lemma strays_orphans :
  filter (stray cutoff (list_to_set (bHash <$> Blobs c)) (SelfPinnedHashes (cat w2))) (Walk (disk w2))
  ≡ₚ filter (λ d, orphan cutoff w d = true) (Walk (disk w)).
Proof.
  rewrite walk_after.
  assert (SelfPinnedHashes (cat w2) = SelfPinnedHashes c) as ->.
  { unfold SelfPinnedHashes, isSelf. rewrite (after_pins _ _ _ Ha), (after_placements _ _ _ Ha), (after_peers _ _ _ Ha).
    cbn [cat]. by rewrite (kept_pins _ _ (kept_marks now c)), (kept_placements _ _ (kept_marks now c)),
      (kept_peers _ _ (kept_marks now c)). }
  rewrite <-(list_filter_filter_l (λ d, orphan cutoff w d = true) (λ d, collected cutoff c (dHash d) = false)
    (Walk (disk w)) orphan_uncollected).
  match goal with |- ?l ≡ₚ ?k => assert (l = k) as ->; [|done] end.
  apply list_filter_iff. intros d. unfold stray, orphan, Known. fold c. rewrite elem_of_known.
  rewrite !andb_true_iff, !negb_true_iff, !bool_decide_eq_false, Z.ltb_lt. tauto.
Qed.
End after_loop.

(** The untracked part, from there. *)
Lemma untracked_quiet now cutoff w w2 out :
  let D : gset string := list_to_set (bHash <$> filter (λ b, eligible cutoff b = true) (Blobs (cat w))) in
  after (mkWorld (marks now (cat w)) (disk w)) D w2 → Considered out = size (blobs (cat w)) →
  ∃ out' w', does (collectUntracked env (mkGate true []) true (list_to_set (bHash <$> Blobs (cat w))) cutoff now out)
      w2 w' (inr out') ∧ same_tables (cat w2) (cat w') ∧ temps (disk w') = temps (disk w2) ∧
    ∀ h, files (disk w') !! h =
      if collected cutoff (cat w) h || dropped cutoff w h then None else files (disk w) !! h.
Proof.
  intros D Ha Hout. unfold collectUntracked.
  set (known := list_to_set (bHash <$> Blobs (cat w)) : gset string).
  destruct (visit_all cutoff known (SelfPinnedHashes (cat w2)) out [] (Walk (disk w2))) as (out1 & Hv & Hout1).
  rewrite app_nil_l in Hv. set (cs := filter _ _) in Hv.
  assert (cs ≡ₚ filter (λ d, orphan cutoff w d = true) (Walk (disk w))) as Hcs by by eapply strays_orphans.
  assert (vacuity (Considered out1) (length cs) (length (Walk (disk w2))) = negb (sweepable cutoff w)) as Hvac.
  { unfold sweepable. rewrite negb_involutive, Hout1, Hout, Hcs, (walk_after now cutoff w w2 Ha). done. }
  assert (∀ h, bool_decide (h ∈ dHash <$> cs) =
     match files (disk w) !! h with Some f => orphan cutoff w (describe h f) | None => false end) as Hin.
  { intros h. apply eq_true_iff_eq. rewrite bool_decide_eq_true, Hcs, list_elem_of_fmap. split.
    - intros (d & -> & [Ho (k & f & Hf & ->)%elem_of_Walk]%list_elem_of_filter). cbn. by rewrite Hf.
    - destruct (files (disk w) !! h) as [f|] eqn:Hf; [|done]. intros Ho. exists (describe h f). split; [done|].
      apply list_elem_of_filter. split; [done|]. apply elem_of_Walk. eauto. }
  assert (∀ h, dropped cutoff w h = bool_decide (h ∈ dHash <$> cs) && sweepable cutoff w) as Hdrop.
  { intros h. rewrite Hin. unfold dropped. by destruct (files (disk w) !! h). }
  assert ((∀ h, dropped cutoff w h = false) → ∀ h, files (disk w2) !! h =
    if collected cutoff (cat w) h || dropped cutoff w h then None else files (disk w) !! h) as Hnone.
  { intros Hd h. by rewrite Hd, orb_false_r, (after_file now cutoff w w2 Ha). }
  assert (same_tables (cat w2) (cat w2)) as Hst.
  { exists []. destruct (cat w2). unfold emit. by rewrite app_nil_r. }
  destruct (sweepUntracked_quiet env Hq now cs w2 out1) as (out' & w' & Hdo & Hsame & Ht & Hf).
  destruct (decide (cs = [])) as [Hnil|Hcs0]; [exists out1, w2|destruct (sweepable cutoff w) eqn:Hsw;
    [exists out', w'|exists (spareAll cs ReasonCatalogVacuous (addRefusals [ReasonCatalogVacuous] out1)), w2]].
  - split_and!; [|done|done|apply Hnone; intros h; by rewrite Hdrop, Hnil].
    eapply does_bind; [by apply does_read|]. eapply does_bind; [by apply does_read|]. cbn beta. rewrite Hv.
    rewrite bool_decide_true by done. by apply does_ret.
  - split_and!; [|done|done|].
    + eapply does_bind; [by apply does_read|]. eapply does_bind; [by apply does_read|]. cbn beta. rewrite Hv.
      rewrite bool_decide_false, Hvac by done. cbn [negb refusals].
      eapply does_bind; [by apply knownAll_quiet|].
      replace (zip cs ((λ d, Known (cat w2) (dHash d)) <$> cs)) with ((λ d, (d, false)) <$> cs); [done|].
      assert (∀ d, d ∈ cs → Known (cat w2) (dHash d) = false) as Hk.
      { intros d. rewrite Hcs, list_elem_of_filter. intros [Ho _]. apply (after_known now cutoff w w2 Ha).
        unfold orphan in Ho. apply andb_true_iff in Ho as [[Hk _]%andb_true_iff _]. apply negb_true_iff in Hk.
        apply bool_decide_eq_false in Hk. by apply eq_None_not_Some. }
      revert Hk. generalize cs. clear. intros cs Hk. induction cs as [|d cs IH]; [done|]. rewrite !fmap_cons. cbn [zip]. rewrite (Hk d) by by constructor.
      f_equal. apply IH. intros d' Hd'. apply Hk. by constructor.
    + intros h. rewrite Hf, Hdrop, (after_file now cutoff w w2 Ha), andb_true_r.
      destruct (bool_decide _); [by rewrite orb_true_r|by rewrite orb_false_r].
  - split_and!; [|done|done|apply Hnone; intros h; by rewrite Hdrop, andb_false_r].
    eapply does_bind; [by apply does_read|]. eapply does_bind; [by apply does_read|]. cbn beta. rewrite Hv.
    rewrite bool_decide_false, Hvac by done. by apply does_ret.
Qed.
End collects.

(** A name in a directory has no separator. *)
Definition named (d : Disk) : Prop := ∀ n, is_Some (temps d !! n) → has_byte slash n = false.

Lemma temp_quiet env opts tc w out :
  quiet env → named (disk w) →
  ∃ out' w', does (collectTemp env opts true tc out) w w' (inr out') ∧ cat w' = cat w ∧
    files (disk w') = files (disk w).
Proof.
  intros Hq Hn. unfold collectTemp. destruct (negb _); [exists out, w; split; [by apply does_ret|done]|].
  destruct (sweepTemp_quiet env Hq tc (sort_by (key_less tmName str_lt) (TempFiles (disk w))) w out)
    as (out' & w' & Hdo & Hc & Hf).
  { intros f [Hs Ht]%elem_of_sort_by%elem_of_TempFiles. auto. }
  exists out', w'. split_and!; [|done..]. eapply does_bind; [by apply does_read|]. exact Hdo.
Qed.

(** Ends, whatever the value. *)
Definition ends {A} (m : M A) (w w' : World) : Prop :=
  ∀ s, world s = w → ∃ s' a, m s = (s', inr a) ∧ world s' = w'.

Lemma ends_bind {A B} (m : M A) (k : A → M B) w w1 w2 a :
  does m w w1 (inr a) → ends (k a) w1 w2 → ends (m ≫= k) w w2.
Proof.
  intros Hm Hk s Hs. destruct (Hm s Hs) as (s1 & E1 & Hs1). destruct (Hk s1 Hs1) as (s2 & b & E2 & Hs2).
  exists s2, b. unfold mbind, M_bind. by rewrite E1.
Qed.

(** What follows the listing. *)
Lemma listed_quiet env opts grace tempGrace now w :
  quiet env → answering opts → Peers (cat w) = [] →
  Forall (λ e, evRecordedAt e ≠ now) (evidence (cat w)) → named (disk w) →
  let cutoff := (now - grace)%Z in
  ∃ w', ends (collectListed env opts true grace tempGrace now (Blobs (cat w))) w w' ∧
    (∀ h, blobs (cat w') !! h = if collected cutoff (cat w) h then None else marked now (cat w) h <$> blobs (cat w) !! h) ∧
    (∀ h, files (disk w') !! h = if collected cutoff (cat w) h || dropped cutoff w h then None else files (disk w) !! h) ∧
    assets (cat w') = assets (cat w) ∧ pins (cat w') = pins (cat w) ∧
    placements (cat w') = placements (cat w) ∧ scanned (cat w') = scanned (cat w).
Proof.
  intros Hq Hans Hp Hev Hn cutoff. set (c := cat w).
  set (w1 := mkWorld (marks now c) (disk w)). pose proof (kept_marks now c) as Hk.
  destruct (does_listed_marks env Hq now c (disk w)) as (wc & Hclear & Hmark). fold w1 in Hmark.
  replace (mkWorld c (disk w)) with w in Hclear by by destruct w.
  set (st := foldl (classify now grace cutoff) (mkSorted (start true (length (Blobs c)) grace now) [] [] []) (Blobs c)).
  destruct (classify_all now cutoff grace (mkSorted (start true (length (Blobs c)) grace now) [] [] []) (Blobs c))
    as (Hcon & Hm & Hcl & Hel). fold st in Hcon, Hm, Hcl, Hel. cbn in Hcon, Hm, Hcl, Hel.
  destruct (sweep_quiet env opts Hq w1 grace now (sEligible st) ∅ w1 (addRefusals [] (sOut st)))
    as (out2 & w2 & Hsweep & Hafter & Hcon2).
  { apply after_refl. }
  { rewrite Hel. apply NoDup_fmap_filter, NoDup_Blobs. }
  { rewrite Hel. intros b [He Hb]%list_elem_of_filter. split; [set_solver|]. by eapply marks_ripe. }
  rewrite (left_id_L ∅ (∪)), Hel in Hafter.
  destruct (untracked_quiet env Hq now cutoff w w2 out2) as (out3 & w3 & Hun & (evs & Hcat3) & Ht3 & Hf3).
  { done. }
  { rewrite Hcon2. cbn. by rewrite Hcon, length_Blobs. }
  destruct (temp_quiet env opts (now - tempGrace) w3 out3 Hq) as (out4 & w4 & Htemp & Hcat4 & Hf4).
  { intros n. rewrite Ht3, (after_temps _ _ _ Hafter). apply Hn. }
  exists w4. split_and!.
  - unfold collectListed. fold cutoff c st. rewrite Hm, Hcl.
    eapply ends_bind; [exact Hclear|]. eapply ends_bind; [exact Hmark|].
    eapply ends_bind; [apply does_gate; [done..|]; unfold Peers; cbn [cat w1]; by rewrite (kept_peers _ _ Hk)|].
    eapply ends_bind; [exact Hsweep|]. eapply ends_bind; [exact Hun|]. eapply ends_bind; [exact Htemp|].
    intros s Hs. eexists _, _. by split.
  - intros h. rewrite Hcat4, Hcat3. cbn. by eapply after_row.
  - intros h. by rewrite Hf4, Hf3.
  - rewrite Hcat4, Hcat3. cbn. by rewrite (after_assets _ _ _ Hafter), <-(kept_assets _ _ Hk).
  - rewrite Hcat4, Hcat3. cbn. by rewrite (after_pins _ _ _ Hafter), <-(kept_pins _ _ Hk).
  - rewrite Hcat4, Hcat3. cbn. by rewrite (after_placements _ _ _ Hafter), <-(kept_placements _ _ Hk).
  - rewrite Hcat4, Hcat3. cbn. by rewrite (after_scanned _ _ _ Hafter), <-(kept_scanned _ _ Hk).
Qed.

(** C4. An undisturbed sweep that applies, on a node with no other peer, ends, and removes
    exactly what it should: a row goes with its bytes when nothing references the blob,
    its mark is as old as the grace window and no scanned file reaches it; every other
    row is kept, marked from now if it is unreferenced and had no mark, and unmarked if
    something references it; a file without a row goes when no pin of this node names it,
    it is older than the window, and such files are few or at most half of the store;
    every other file, and what references blobs, is untouched. *)
Theorem gc_effect env opts o s :
  quiet env → answering opts → Apply o = true → (0 ≤ oGrace o)%Z → (0 ≤ oTempGrace o)%Z →
  let w := world s in
  let now := clock env (tick s) in
  let cutoff := (now - graceOf o)%Z in
  Peers (cat w) = [] → Forall (λ e, evRecordedAt e ≠ now) (evidence (cat w)) → named (disk w) →
  ∃ s' out, Collect env opts o s = (s', inr out) ∧
    (∀ h, blobs (cat (world s')) !! h =
       if collected cutoff (cat w) h then None else marked now (cat w) h <$> blobs (cat w) !! h) ∧
    (∀ h, files (disk (world s')) !! h =
       if collected cutoff (cat w) h || dropped cutoff w h then None else files (disk w) !! h) ∧
    assets (cat (world s')) = assets (cat w) ∧ pins (cat (world s')) = pins (cat w) ∧
    placements (cat (world s')) = placements (cat w) ∧ scanned (cat (world s')) = scanned (cat w).
Proof.
  intros Hq Hans Happ Hg Ht w now cutoff Hp Hev Hn.
  destruct (listed_quiet env opts (graceOf o) (tempGraceOf o) now w Hq Hans Hp Hev Hn) as (w' & Hends & Hrest).
  assert (ends (blobs ← call env ABlobs (reading (λ w, Blobs (cat w)));
                collectListed env opts true (graceOf o) (tempGraceOf o) now blobs) w w') as He.
  { eapply ends_bind; [by apply does_read|exact Hends]. }
  destruct (He s eq_refl) as (s' & out & Hrun & <-). exists s', out. split; [|exact Hrest].
  unfold Collect. rewrite Happ, !(proj2 (Z.ltb_ge _ _)); [exact Hrun|..].
  - unfold tempGraceOf. by case_match.
  - unfold graceOf. by case_match.
Qed.

(** ** What the comments do not tell *)

Definition ex_catalog (rows : list (string * BlobRow)) (scans : list string) : Catalog :=
  mkCatalog (list_to_map rows) [] ∅ ∅ ∅ scans ∅ [] ∅ ∅ [] [].
Definition ex_disk (names : list string) : Disk := mkDisk (list_to_map ((λ n, (n, mkFile [] 0)) <$> names)) ∅ ∅.
Definition ex_env (others : nat → World → World) : Env := mkEnv others (λ _, Fine) (λ _, false) (λ _, 1000%Z).
Definition ex_opts : Options := mkOptions None false DefaultFreshness true.
Definition ex_sweep (apply_ : bool) : CollectOptions := mkCollectOptions apply_ 100 100.
Definition ex_run (apply_ : bool) (w : World) : error + Collection :=
  (Collect (ex_env (λ _ w, w)) ex_opts (ex_sweep apply_) (mkSt w 0 [])).2.

Definition ex_names : list string := ["u1"; "u2"; "u3"; "u4"; "u5"; "u6"; "u7"; "u8"].
Definition ex_tracked : list string := ["t1"; "t2"; "t3"; "t4"; "t5"; "t6"; "t7"; "t8"].

(** What a run reports, by hash. *)
Definition reclaimedBy (r : error + Collection) : list string :=
  match r with inr o => cHash <$> (Reclaimed o ++ Untracked o) | inl _ => [] end.
Definition sparedBy (r : error + Collection) : list (string * Reason) :=
  match r with inr o => (λ s, (sHash s, sReason s)) <$> (Spared o ++ UntrackedSpared o) | inl _ => [] end.

(** A dry run does not predict the sweep it announces, although nothing else happens:
    a blob only a scanned file reaches counts as unreferenced, so the dry run reports it
    reclaimed while the sweep spares it, and will every time; and the sweep counts the
    files left once the tracked blobs are gone, so untracked files the dry run reports
    removed can be refused as more than half of the store. *)
Theorem gc_dry_run_overstates :
  (let w := mkWorld (ex_catalog [("s", mkRow 0 (Some 0%Z))] ["s"]) (ex_disk ["s"]) in
   reclaimedBy (ex_run false w) = ["s"] ∧
   reclaimedBy (ex_run true w) = [] ∧ sparedBy (ex_run true w) = [("s", ReasonWantedAgain)]) ∧
  (let w := mkWorld (ex_catalog ((λ n, (n, mkRow 0 (Some 0%Z))) <$> ex_tracked) []) (ex_disk (ex_tracked ++ ex_names)) in
   reclaimedBy (ex_run false w) = ex_tracked ++ ex_names ∧
   reclaimedBy (ex_run true w) = ex_tracked ∧
   sparedBy (ex_run true w) = (λ n, (n, ReasonCatalogVacuous)) <$> ex_names).
Proof. vm_compute. tauto. Qed.

(** Another process stores the same bytes again, and commits its row and an asset: the
    store keeps the file that is there. *)
Definition ingestAgain (h : string) (data : list byte) (now : Z) (w : World) : World :=
  mkWorld
    (set_assets (cons (mkAsset "asset" (Some h) None))
       (set_blobs (insert h (mkRow (Z.of_nat (length data)) None)) (cat w)))
    (mkDisk (insert h (default (mkFile data now) (files (disk w) !! h)) (files (disk w)))
       (temps (disk w)) (quarantine (disk w))).

(** The unlink after a reclaim on the sole-peer basis is not guarded: bytes stored and
    catalogued again between the row's delete and the unlink are lost, and no other copy
    exists, although the sweep ends without an error and reports the blob reclaimed. *)
Theorem gc_sole_peer_race :
  ∃ n s' out, let h := "b" in
    let w := mkWorld (ex_catalog [(h, mkRow 0 (Some 0%Z))] []) (ex_disk [h]) in
    Collect (ex_env (λ k w, if decide (k = n) then ingestAgain h [] 1000 w else w)) ex_opts (ex_sweep true)
      (mkSt w 0 []) = (s', inr out) ∧
    Peers (cat (world s')) = [] ∧ cHash <$> Reclaimed out = [h] ∧
    Known (cat (world s')) h = true ∧ hasAsset (cat (world s')) h = true ∧ files (disk (world s')) !! h = None.
Proof. eexists 4, _, _. cbv zeta. split; [vm_compute; reflexivity|]. vm_compute. tauto. Qed.

(** ** Witnesses *)

Definition ex_world : World :=
  mkWorld (ex_catalog [("b", mkRow 0 (Some 0%Z)); ("k", mkRow 0 None)] []) (ex_disk ["b"; "k"; "u"]).
Definition ex_st : St := mkSt ex_world 0 [].
Definition ex_still : Env := ex_env (λ _ w, w).

Lemma ex_quiet : quiet ex_still.
Proof. done. Qed.

(** The history of the sweep up to its first unlink, and that step. *)
Definition ex_history : Trace := trace (Collect ex_still ex_opts (ex_sweep true) ex_st).1.

Lemma ex_history_eq : ∃ w t1, ex_history = take 5 ex_history ++ (w, AUnlink "b") :: t1.
Proof. eexists _, _. vm_compute. reflexivity. Qed.

Lemma gc_safe_witness :
  ∃ w t1, ex_history = take 5 ex_history ++ (w, AUnlink "b") :: t1 ∧
    justified ex_opts 1000 900 (take 5 ex_history) "b" (AUnlink "b").
Proof.
  destruct ex_history_eq as (w & t1 & Heq). exists w, t1. split; [exact Heq|].
  exact (gc_safe ex_still ex_opts (ex_sweep true) ex_st (take 5 ex_history) w (AUnlink "b") t1 "b"
    eq_refl Heq (or_introl eq_refl)).
Defined.

Lemma gc_dry_run_witness :
  world (Collect ex_still ex_opts (ex_sweep false) ex_st).1 = ex_world.
Proof. exact (proj2 (gc_dry_run ex_still ex_opts (ex_sweep false) ex_st eq_refl) (λ _ _, eq_refl)). Defined.

Lemma ex_alone : Peers (cat ex_world) = [].
Proof. vm_compute. reflexivity. Qed.

Lemma gc_effect_witness :
  ∃ s' out, Collect ex_still ex_opts (ex_sweep true) ex_st = (s', inr out) ∧
    ∀ h, files (disk (world s')) !! h =
      if collected 900 (cat ex_world) h || dropped 900 ex_world h then None else files (disk ex_world) !! h.
Proof.
  assert (∀ n, is_Some (temps (disk ex_world) !! n) → has_byte slash n = false) as Hn.
  { intros n [x Hx]. cbn in Hx. by rewrite lookup_empty in Hx. }
  destruct (gc_effect ex_still ex_opts (ex_sweep true) ex_st ex_quiet I eq_refl ltac:(done) ltac:(done)
    ex_alone (List.Forall_nil _) Hn) as (s' & out & Hrun & _ & Hf & _).
  exists s', out. split; [exact Hrun|exact Hf].
Defined.
