(* ===== verification/Fsck.v ===== *)
(** * Fsck: the integrity check

    Models internal/storagefabric/integrity/check.go over BlobCatalog.v, as a program of
    StoreSteps.v: what a check finds, what it records of each blob, and what it moves to
    quarantine. *)

From S2P Require Import Prelude GoText GoPath BlobCatalog StoreSteps.
From Stdlib Require Import Strings.Byte.

Inductive FindingKind := KindMissing | KindSizeMismatch | KindCorrupt | KindUntracked | KindOrphanTemp.

#[export] Instance FindingKind_eq_dec : EqDecision FindingKind.
Proof. solve_decision. Defined.

Definition kindText (k : FindingKind) : string :=
  match k with
  | KindMissing => "missing" | KindSizeMismatch => "size_mismatch" | KindCorrupt => "corrupt"
  | KindUntracked => "untracked" | KindOrphanTemp => "orphan_temp"
  end.

Definition Damage (k : FindingKind) : bool :=
  match k with KindMissing | KindSizeMismatch | KindCorrupt => true | _ => false end.

Record Finding := mkFinding {
  fKind : FindingKind; fHash : string; fActual : string;
  fExpectedSize : Z; fActualSize : Z; fPath : string; fQuarantined : bool }.

Record Report := mkReport {
  rDeep : bool; BlobsInCatalog : nat; BlobsChecked : nat; BytesRead : Z; FilesInStore : nat;
  Findings : list Finding; rStartedAt : Z; rFinishedAt : Z }.

Definition DamageCount (r : Report) : nat := length (filter (λ f, Damage (fKind f) = true) (Findings r)).
Definition Reclaimable (r : Report) : Z := Z.of_nat (length (Findings r)) - Z.of_nat (DamageCount r).

(** By kind, then digest, then path. *)
Definition finding_less : Finding → Finding → bool :=
  lex_less (λ f, kindText (fKind f)) str_lt (lex_less fHash str_lt (key_less fPath str_lt)).

Definition found (b : Blob) (k : FindingKind) (actual : string) (expected size : Z) (path : string) (q : bool) : Finding :=
  mkFinding k (bHash b) actual expected size path q.

Section checking.
Context `{DigestOf} (env : Env).
(** This node's peer id, the wall clock of the store, and when a blob cannot be moved. *)
Context (self : string) (wall : nat → Z) (moveFails : nat → bool) (reaper : bool).
#[local] Abbreviation call := (StoreSteps.call env).
#[local] Abbreviation Now := (StoreSteps.Now env).
#[local] Abbreviation ctxErr := (StoreSteps.ctxErr env).

Definition orError (f : Catalog → error + Catalog) (c : Catalog) : Catalog * option error :=
  match f c with inl e => (c, Some e) | inr c => (c, None) end.

Definition markMissing (h : string) (at_ : Z) : M unit := call (ALost h) (onCatalog (orError (MarkMissing self h at_))).
Definition markVerified (h : string) (at_ : Z) : M unit :=
  call (AVerified h) (onCatalog (orError (MarkVerified self h at_))).
Definition markCorrupt (h actual : string) (size : Z) (path : string) (at_ : Z) : M unit :=
  call (ACorrupt h) (onCatalog (orError (MarkCorrupt self h actual size path at_))).

Definition storeVerify (h : string) : M Verdict := λ s,
  call (AVerify h) (λ w, let '(d, r) := Verify h (wall (tick s)) (moveFails (tick s)) (disk w) in
                         (mkWorld (cat w) d, r)) s.

(** The finding, if any, and the bytes read. *)
Definition verify (b : Blob) : M (option Finding * Z) :=
  now ← Now;
  r ← catch (storeVerify (bHash b));
  match r with
  | inr Clean => _ ← markVerified (bHash b) now; mret (None, bSize b)
  | inr (Corrupt actual size path) =>
      _ ← markCorrupt (bHash b) actual size path now;
      mret (Some (found b KindCorrupt actual 0 size path (negb (bool_decide (path = "")))), size)
  | inl ErrNotFound => _ ← markMissing (bHash b) now; mret (Some (found b KindMissing "" (bSize b) 0 "" false), 0%Z)
  | inl e => throw e
  end.

Definition withSizes (expected actual : Z) (f : Finding) : Finding :=
  mkFinding (fKind f) (fHash f) (fActual f) expected actual (fPath f) (fQuarantined f).

Definition checkOne (b : Blob) (deep : bool) : M (option Finding * Z) :=
  st ← catch (call (AStat (bHash b)) (λ w, (w, Stat (bHash b) (disk w))));
  match st with
  | inl ErrNotFound =>
      now ← Now;
      _ ← markMissing (bHash b) now;
      mret (Some (found b KindMissing "" (bSize b) 0 "" false), 0%Z)
  | inl e => throw e
  | inr desc =>
      if negb (dSize desc =? bSize b)%Z then
        '(f, read) ← verify b;
        match f with
        | None => mret (Some (found b KindSizeMismatch "" (bSize b) (dSize desc) "" false), read)
        | Some f => mret (Some (withSizes (bSize b) (dSize desc) f), read)
        end
      else if negb deep then mret (None, 0%Z)
      else verify b
  end.

(** The loop over the blobs of the catalog. *)
Fixpoint checkBlobs (deep : bool) (bs : list Blob) (checked : nat) (bytes : Z) (fs : list Finding) :
    M (nat * Z * list Finding) :=
  match bs with
  | [] => mret (checked, bytes, fs)
  | b :: bs =>
      _ ← ctxErr;
      '(f, read) ← checkOne b deep;
      checkBlobs deep bs (S checked) (wrap_i64 (bytes + read)) (match f with Some f => fs ++ [f] | None => fs end)
  end.

Definition untracked (known : gset string) (d : Descriptor) : option Finding :=
  if bool_decide (dHash d ∈ known) then None
  else Some (mkFinding KindUntracked (dHash d) "" 0 (dSize d) "" false).

Definition orphanTemp (t : TempFile) : Finding := mkFinding KindOrphanTemp "" "" 0 (tmSize t) (tmName t) false.

Definition Check_ (deep : bool) : M Report :=
  started ← Now;
  blobs ← call ABlobs (reading (λ w, Blobs (cat w)));
  let known : gset string := list_to_set (bHash <$> blobs) in
  '(checked, bytes, fs) ← checkBlobs deep blobs 0 0 [];
  walked ← call AWalk (reading (λ w, Walk (disk w)));
  let fs := fs ++ omap (untracked known) walked in
  temps ← (if reaper then call ATempFiles (reading (λ w, TempFiles (disk w))) else mret []);
  finished ← Now;
  mret (mkReport deep (length blobs) checked bytes (length walked)
          (sort_by finding_less (fs ++ (orphanTemp <$> temps))) started finished).

Definition noFinding : Finding := mkFinding KindUntracked "" "" 0 0 "" false.

(** [None] is the zero finding. *)
Definition VerifyBlob (h : string) : M (option Finding) :=
  b ← call (ABlob h) (λ w, (w, BlobOf (cat w) h));
  '(f, _) ← checkOne b true;
  mret f.
End checking.
