(* ===== verification/FsckSpec.v ===== *)
(** * FsckSpec: the theorems of the integrity check

    An undisturbed check finds exactly the damage there is, moves every corrupt blob to
    quarantine and loses no byte, and leaves the replica row of every blob saying what the
    store holds. *)

From S2P Require Import Prelude GoText GoPath BlobCatalog StoreSteps Fsck.
From Stdlib Require Import Strings.Byte.

Section fsck.
Context `{DigestOf} (env : Env) (Hq : quiet env).
Context (self : string) (wall : nat → Z) (moveFails : nat → bool) (reaper : bool).
Context (Hmove : ∀ n, moveFails n = false).

(** What a check says of a blob whose file is [f]. *)
Definition verdictOf (deep : bool) (b : Blob) (f : option File) : option FindingKind :=
  match f with
  | None => Some KindMissing
  | Some f =>
      if negb (fileSize f =? bSize b)%Z || deep then
        if bool_decide (digestOf (fData f) = bHash b)
        then if (fileSize f =? bSize b)%Z then None else Some KindSizeMismatch
        else Some KindCorrupt
      else None
  end.

(** What the replica row of this node says afterwards, when the blob was looked at. *)
Definition stateOf (v : option FindingKind) : string :=
  match v with Some KindMissing => "missing" | Some KindCorrupt => "corrupt" | _ => "present" end.

Definition verified (deep : bool) (b : Blob) (f : option File) : bool :=
  match f with None => true | Some f => negb (fileSize f =? bSize b)%Z || deep end.

#[local] Arguments verdictOf : simpl never.
#[local] Arguments verified : simpl never.

(** One blob looked at: its file goes to quarantine when it is corrupt, nothing else moves,
    and its replica row, and no other, says what was found. *)
Record looked (deep : bool) (b : Blob) (w w' : World) : Prop := mkLooked {
  looked_blobs : blobs (cat w') = blobs (cat w);
  looked_peers : peers (cat w') = peers (cat w);
  looked_scanned : scanned (cat w') = scanned (cat w);
  looked_temps : temps (disk w') = temps (disk w);
  looked_files : files (disk w') =
    if bool_decide (verdictOf deep b (files (disk w) !! bHash b) = Some KindCorrupt)
    then delete (bHash b) (files (disk w)) else files (disk w);
  looked_quarantine :
    if bool_decide (verdictOf deep b (files (disk w) !! bHash b) = Some KindCorrupt)
    then ∃ n f, files (disk w) !! bHash b = Some f ∧
         quarantine (disk w') = <[(bHash b, wall n) := fData f]> (quarantine (disk w))
    else quarantine (disk w') = quarantine (disk w);
  looked_undesired : ∀ h, IsBlobDesired (cat w) h = false → IsBlobDesired (cat w') h = false;
  looked_lost : verdictOf deep b (files (disk w) !! bHash b) = Some KindMissing → IsBlobDesired (cat w') (bHash b) = false;
  looked_other : ∀ h p, h ≠ bHash b → replicas (cat w') !! (h, p) = replicas (cat w) !! (h, p);
  looked_state : verified deep b (files (disk w) !! bHash b) = true →
    rrState <$> replicas (cat w') !! (bHash b, self) = Some (stateOf (verdictOf deep b (files (disk w) !! bHash b))) }.

Lemma upsert_ok h state bytes v c :
  is_Some (blobs c !! h) → is_Some (peers c !! self) →
  ∃ r, upsertReplica h self state bytes v c = inr (set_replicas (insert (h, self) r) c) ∧ rrState r = state.
Proof.
  intros [? Hb] [? Hp]. unfold upsertReplica. rewrite Hb, Hp, !bool_decide_false by done. cbn [orb]. eauto.
Qed.

(** The three ways of recording what was found. *)
Record noted (h state : string) (w w' : World) : Prop := mkNoted {
  noted_disk : disk w' = disk w;
  noted_blobs : blobs (cat w') = blobs (cat w);
  noted_peers : peers (cat w') = peers (cat w);
  noted_scanned : scanned (cat w') = scanned (cat w);
  noted_other : ∀ k p, k ≠ h → replicas (cat w') !! (k, p) = replicas (cat w) !! (k, p);
  noted_state : rrState <$> replicas (cat w') !! (h, self) = Some state;
  noted_undesired : ∀ k, IsBlobDesired (cat w) k = false → IsBlobDesired (cat w') k = false;
  noted_lost : state = "missing" → IsBlobDesired (cat w') h = false }.

Definition rowed (w : World) (h : string) : Prop := is_Some (blobs (cat w) !! h) ∧ is_Some (peers (cat w) !! self).

Lemma noted_insert h state r w c :
  rrState r = state →
  blobs c = blobs (cat w) → peers c = peers (cat w) → scanned c = scanned (cat w) →
  replicas c = <[(h, self) := r]> (replicas (cat w)) →
  (∀ k, IsBlobDesired (cat w) k = false → IsBlobDesired c k = false) →
  (state = "missing" → IsBlobDesired c h = false) → noted h state w (mkWorld c (disk w)).
Proof.
  intros Hr Hb Hp Hs Hreps Hd Hl. split; cbn; try done.
  - intros k p Hk. rewrite Hreps, lookup_insert_ne by congruence. done.
  - rewrite Hreps, lookup_insert_eq. cbn. by rewrite Hr.
Qed.

Lemma runs_missing w h at_ : rowed w h → runs (markMissing env self h at_) w (λ _ w', noted h "missing" w w').
Proof.
  intros [Hb Hp]. destruct (upsert_ok h "missing" 0 None (cat w) Hb Hp) as (r & Hu & Hr).
  destruct (MarkMissing self h at_ (cat w)) as [e|c] eqn:Hm; [unfold MarkMissing in Hm; by rewrite Hu in Hm|].
  eapply (runs_call env Hq); [unfold onCatalog, orError; by rewrite Hm|].
  pose proof (MarkMissing_desired _ _ _ _ _ Hm) as [Hl Hd]. unfold MarkMissing in Hm. rewrite Hu in Hm.
  injection Hm as <-. by eapply noted_insert.
Qed.

Lemma runs_verified w h at_ : rowed w h → runs (markVerified env self h at_) w (λ _ w', noted h "present" w w').
Proof.
  intros [Hb Hp]. unfold markVerified. destruct (replicaState (cat w) h self) as [prev size] eqn:Hst.
  set (size' := if (size =? 0)%Z then default 0%Z (rSize <$> blobs (cat w) !! h) else size).
  destruct (upsert_ok h "present" size' (Some at_) (cat w) Hb Hp) as (r & Hu & Hr).
  eapply (runs_call env Hq); [unfold onCatalog, orError, MarkVerified; rewrite Hst; fold size'; rewrite Hu; done|].
  destruct (bool_decide (prev = "present")); by eapply noted_insert.
Qed.

Lemma runs_corrupt w h actual size path at_ :
  rowed w h → runs (markCorrupt env self h actual size path at_) w (λ _ w', noted h "corrupt" w w').
Proof.
  intros [Hb Hp]. destruct (upsert_ok h "corrupt" 0 None (cat w) Hb Hp) as (r & Hu & Hr).
  eapply (runs_call env Hq); [unfold onCatalog, orError, MarkCorrupt; rewrite Hu; done|]. by eapply noted_insert.
Qed.

(** A recorded outcome that moved nothing. *)
Lemma looked_noted deep b w w' :
  noted (bHash b) (stateOf (verdictOf deep b (files (disk w) !! bHash b))) w w' →
  verdictOf deep b (files (disk w) !! bHash b) ≠ Some KindCorrupt → looked deep b w w'.
Proof.
  intros [Hd Hb Hp Hs Ho Hst Hu Hl] Hv. split; try done.
  - by rewrite Hd.
  - by rewrite bool_decide_false, Hd by done.
  - by rewrite bool_decide_false, Hd by done.
  - intros Hm. apply Hl. by rewrite Hm.
Qed.

Lemma runs_storeVerify w h (R : error + Verdict → World → Prop) :
  (∀ n d r, Verify h (wall n) false (disk w) = (d, r) → R r (mkWorld (cat w) d)) →
  runs (catch (storeVerify env wall moveFails h)) w R.
Proof.
  intros HR s Hs. destruct (Verify h (wall (tick s)) false (disk w)) as [d r] eqn:Hv.
  exists (mkSt (mkWorld (cat w) d) (S (tick s)) (trace s ++ [(w, AVerify h)])), r. split; [|by eapply HR].
  unfold catch, storeVerify, call. by rewrite (quiet_others _ Hq), (quiet_fault _ Hq), Hs, Hmove, Hv.
Qed.

(** A blob whose file is there is verified. *)
Lemma runs_verify deep b w f :
  rowed w (bHash b) → files (disk w) !! bHash b = Some f → verified deep b (Some f) = true →
  runs (verify env self wall moveFails b) w (λ r w', looked deep b w w' ∧
    (fKind <$> r.1) = (if bool_decide (digestOf (fData f) = bHash b) then None else Some KindCorrupt) ∧
    (∀ x, r.1 = Some x → fHash x = bHash b)).
Proof.
  intros Hr Hf Hver. unfold verify. apply (runs_bind _ _ _ (λ _ w', w' = w)); [by apply runs_now|]. intros now ? ->.
  assert (verdictOf deep b (Some f) = if bool_decide (digestOf (fData f) = bHash b)
    then (if (fileSize f =? bSize b)%Z then None else Some KindSizeMismatch) else Some KindCorrupt) as Hv.
  { unfold verdictOf. unfold verified in Hver. by rewrite Hver. }
  apply (runs_bind _ _ _ (λ r w', match r with
    | inr Clean => digestOf (fData f) = bHash b ∧ w' = w
    | inr (Corrupt _ _ _) => digestOf (fData f) ≠ bHash b ∧
        ∃ n, w' = mkWorld (cat w) (mkDisk (delete (bHash b) (files (disk w))) (temps (disk w))
                                     (<[(bHash b, wall n) := fData f]> (quarantine (disk w))))
    | inl _ => False
    end)).
  { apply runs_storeVerify. intros n d r. unfold Verify, Quarantine. rewrite Hf.
    case_bool_decide as Hd; intros [= <- <-]; [by destruct w|]. split; [done|]. by exists n. }
  intros [e|[|actual size path]] w1 Hr1; [done| |].
  - destruct Hr1 as [Hd ->]. rewrite bool_decide_true in Hv by done. rewrite bool_decide_true by done.
    eapply runs_bind; [by apply runs_verified|]. intros [] w2 Hn. apply runs_ret. split_and!; [|done|done].
    apply looked_noted; rewrite Hf, Hv; [|by case_match]. by case_match.
  - destruct Hr1 as [Hd (n & ->)]. rewrite bool_decide_false in Hv by done. rewrite (bool_decide_false (digestOf _ = _)) by done.
    eapply runs_bind; [by apply runs_corrupt|]. intros [] w2 [Hn1 Hn2 Hn3 Hn4 Hn5 Hn6 Hn7 Hn8]. cbn in *.
    apply runs_ret. split_and!; [|done|by intros x [= <-]].
    split; rewrite ?Hf, ?Hv, ?Hn1; cbn; try done. exists n, f. done.
Qed.

(** One blob: the finding and what is recorded are those of [verdictOf]. *)
Lemma runs_checkOne deep b w :
  rowed w (bHash b) →
  runs (checkOne env self wall moveFails b deep) w (λ r w', looked deep b w w' ∧
    (fKind <$> r.1) = verdictOf deep b (files (disk w) !! bHash b) ∧ (∀ x, r.1 = Some x → fHash x = bHash b)).
Proof.
  intros Hr. unfold checkOne.
  apply (runs_bind _ _ _ (λ r w', w' = w ∧ r = Stat (bHash b) (disk w))); [by eapply (runs_catch env Hq)|].
  intros ? ? [-> ->]. unfold Stat. destruct (files (disk w) !! bHash b) as [f|] eqn:Hf; cbn [dSize describe].
  - destruct (Z.eqb_spec (fileSize f) (bSize b)) as [Heq|Hne]; cbn [negb].
    + destruct deep; cbn [negb].
      * eapply runs_weaken; [apply (runs_verify true b w f); [done..|]; unfold verified; by rewrite orb_true_r|].
        intros r w' (Hl & Hk & Hh). split_and!; [done| |done]. rewrite Hk. unfold verdictOf.
        rewrite (proj2 (Z.eqb_eq _ _) Heq). done.
      * apply runs_ret. assert (verdictOf false b (Some f) = None) as Hv.
        { unfold verdictOf. by rewrite (proj2 (Z.eqb_eq _ _) Heq). }
        split_and!; [|by rewrite Hv|done]. split; rewrite ?Hf, ?Hv; try done. unfold verified.
        by rewrite (proj2 (Z.eqb_eq _ _) Heq).
    + eapply runs_bind; [apply (runs_verify deep b w f); [done..|]; unfold verified; by rewrite (proj2 (Z.eqb_neq _ _))|].
      intros [x n] w' (Hl & Hk & Hh). cbn in Hk, Hh. unfold verdictOf.
      rewrite (proj2 (Z.eqb_neq _ _)) by done. cbn [negb orb].
      destruct x as [x|]; apply runs_ret; (split_and!; [done| |]); cbn in *.
      * revert Hk; destruct (bool_decide (digestOf _ = _)); intros Hk; done.
      * intros y [= <-]. exact (Hh x eq_refl).
      * revert Hk; destruct (bool_decide (digestOf _ = _)); intros Hk; done.
      * by intros y [= <-].
  - eapply runs_bind; [by apply (runs_now env _ (λ _ w', w' = w))|]. intros now ? ->.
    eapply runs_bind; [by apply runs_missing|]. intros [] w' Hn. apply runs_ret.
    split_and!; [|done|by intros x [= <-]]. apply looked_noted; by rewrite Hf.
Qed.

(** ** The loop *)

Definition verdictAt (deep : bool) (w : World) (h : string) : option FindingKind :=
  match blobs (cat w) !! h with
  | Some r => verdictOf deep (scanBlob (cat w) h r) (files (disk w) !! h)
  | None => None
  end.
Definition verifiedAt (deep : bool) (w : World) (h : string) : bool :=
  match blobs (cat w) !! h with
  | Some r => verified deep (scanBlob (cat w) h r) (files (disk w) !! h)
  | None => false
  end.

Definition corruptAt (deep : bool) (w : World) (h : string) : bool := bool_decide (verdictAt deep w h = Some KindCorrupt).

(** The world [w] after the blobs [D] of [w1] have been checked. *)
Record checked (deep : bool) (w1 : World) (D : gset string) (w : World) : Prop := mkChecked {
  ch_blobs : blobs (cat w) = blobs (cat w1);
  ch_peers : peers (cat w) = peers (cat w1);
  ch_temps : temps (disk w) = temps (disk w1);
  ch_files : ∀ h, files (disk w) !! h = if bool_decide (h ∈ D) && corruptAt deep w1 h then None else files (disk w1) !! h;
  ch_kept : quarantine (disk w1) ⊆ quarantine (disk w);
  ch_other : ∀ h t, (h ∉ D) → quarantine (disk w) !! (h, t) = quarantine (disk w1) !! (h, t);
  ch_moved : ∀ h, h ∈ D → corruptAt deep w1 h = true →
    ∃ n f, files (disk w1) !! h = Some f ∧ quarantine (disk w) !! (h, wall n) = Some (fData f);
  ch_undesired : ∀ h, IsBlobDesired (cat w1) h = false → IsBlobDesired (cat w) h = false;
  ch_lost : ∀ h, h ∈ D → verdictAt deep w1 h = Some KindMissing → IsBlobDesired (cat w) h = false;
  ch_state : ∀ h, h ∈ D → verifiedAt deep w1 h = true →
    rrState <$> replicas (cat w) !! (h, self) = Some (stateOf (verdictAt deep w1 h)) }.

Lemma checked_refl deep w : checked deep w ∅ w.
Proof. split; try done; set_solver. Qed.

Lemma verdictAt_blob deep w b : b ∈ Blobs (cat w) →
  verdictAt deep w (bHash b) = verdictOf deep b (files (disk w) !! bHash b) ∧
  verifiedAt deep w (bHash b) = verified deep b (files (disk w) !! bHash b).
Proof. intros (h & r & Hr & ->)%elem_of_Blobs. unfold verdictAt, verifiedAt. cbn. by rewrite Hr. Qed.

Lemma checked_step deep w1 D w w' b :
  (∀ h n, quarantine (disk w1) !! (h, wall n) = None) →
  b ∈ Blobs (cat w1) → (bHash b ∉ D) → checked deep w1 D w → looked deep b w w' →
  checked deep w1 (D ∪ {[bHash b]}) w'.
Proof.
  intros Hfresh Hb HD [Cb Cp Ct Cf Ck Co Cm Cu Cl Cs] [Lb Lp _ Lt Lf Lq Lu Ll Lo Ls].
  destruct (verdictAt_blob deep w1 b Hb) as [Hv Hver].
  assert (files (disk w) !! bHash b = files (disk w1) !! bHash b) as Hsame by by rewrite Cf, bool_decide_false.
  rewrite Hsame, <-Hv in Lf, Lq. rewrite Hsame, <-Hv, <-Hver in Ls. rewrite Hsame, <-Hv in Ll. fold (corruptAt deep w1 (bHash b)) in Lf, Lq.
  assert (∀ h, bool_decide (h ∈ D ∪ {[bHash b]}) = bool_decide (h ∈ D) || bool_decide (h = bHash b)) as Hmem.
  { intros h. apply eq_true_iff_eq. rewrite orb_true_iff, !bool_decide_eq_true. set_solver. }
  split; [congruence..| | | | | | |].
  - intros h. rewrite Lf, Hmem. destruct (decide (h = bHash b)) as [->|Hne].
    + rewrite (bool_decide_true (bHash b = bHash b)), orb_true_r by done. cbn [andb].
      destruct (corruptAt deep w1 (bHash b)); [by rewrite lookup_delete_eq|done].
    + rewrite (bool_decide_false (h = bHash b)), orb_false_r by done. rewrite <-Cf.
      destruct (corruptAt deep w1 (bHash b)); [by rewrite lookup_delete_ne|done].
  - etrans; [exact Ck|]. destruct (corruptAt deep w1 (bHash b)); [|by rewrite Lq].
    destruct Lq as (n & f & _ & ->). apply insert_subseteq. by rewrite Co.
  - intros h t Hh. rewrite <-Co by set_solver. destruct (corruptAt deep w1 (bHash b)); [|by rewrite Lq].
    destruct Lq as (n & f & _ & ->). apply lookup_insert_ne. set_solver.
  - intros h [Hh|Hh%elem_of_singleton]%elem_of_union Hc.
    + destruct (Cm h Hh Hc) as (n & f & Hf & Hq'). exists n, f. split; [done|].
      destruct (corruptAt deep w1 (bHash b)); [|by rewrite Lq]. destruct Lq as (n' & f' & _ & ->).
      rewrite lookup_insert_ne; [done|]. set_solver.
    + subst h. rewrite Hc in Lq. destruct Lq as (n & f & Hf & ->). exists n, f.
      split; [done|]. apply lookup_insert_eq.
  - intros h Hh. by apply Lu, Cu.
  - intros h [Hh|Hh%elem_of_singleton]%elem_of_union Hc; [by apply Lu, Cl|subst h; by apply Ll].
  - intros h [Hh|Hh%elem_of_singleton]%elem_of_union Hc; [|subst h; by apply Ls].
    rewrite Lo by set_solver. by apply Cs.
Qed.

Definition told (deep : bool) (w : World) (b : Blob) : option (FindingKind * string) :=
  (λ k, (k, bHash b)) <$> verdictAt deep w (bHash b).

Definition label (f : Finding) : FindingKind * string := (fKind f, fHash f).

Lemma runs_checkBlobs deep w1 bs D w n bytes fs :
  (∀ h n, quarantine (disk w1) !! (h, wall n) = None) → is_Some (peers (cat w1) !! self) →
  checked deep w1 D w → NoDup (bHash <$> bs) → (∀ b, b ∈ bs → b ∈ Blobs (cat w1) ∧ (bHash b ∉ D)) →
  runs (checkBlobs env self wall moveFails deep bs n bytes fs) w (λ r w',
    checked deep w1 (D ∪ list_to_set (bHash <$> bs)) w' ∧ r.1.1 = n + length bs ∧
    label <$> r.2 = (label <$> fs) ++ omap (told deep w1) bs).
Proof.
  intros Hfresh Hself. revert D w n bytes fs. induction bs as [|b bs IH]; intros D w n bytes fs HC Hnd Hbs; cbn [checkBlobs].
  { apply runs_ret. cbn. rewrite (right_id_L ∅ (∪)), app_nil_r. split_and!; [done|lia|done]. }
  rewrite fmap_cons in *. apply NoDup_cons in Hnd as [Hb Hnd]. destruct (Hbs b) as [Hin HD]; [by constructor|].
  apply (runs_bind _ _ _ (λ _ w', w' = w)); [by apply (runs_ctx env Hq)|]. intros [] ? ->.
  assert (rowed w (bHash b)) as Hrow.
  { split; [|by rewrite (ch_peers _ _ _ _ HC)]. rewrite (ch_blobs _ _ _ _ HC).
    apply elem_of_Blobs in Hin as (h & r & Hr & ->). by exists r. }
  eapply runs_bind; [by apply runs_checkOne|]. intros [f read] w' (Hl & Hk & Hh). cbn [fst] in Hk, Hh.
  eapply runs_weaken; [apply (IH (D ∪ {[bHash b]}))|].
  - by eapply checked_step.
  - done.
  - intros b' Hb'. destruct (Hbs b') as [? ?]; [by constructor|]. split; [done|].
    assert (bHash b' ≠ bHash b); [|set_solver]. intros Heq. destruct Hb. rewrite <-Heq. by apply list_elem_of_fmap_2.
  - intros r w2 (Hc & Hn & Hf). rewrite list_to_set_cons, (assoc_L (∪)). split_and!; [done|cbn; lia|].
    rewrite Hf. cbn [omap list_omap]. unfold told at 2. rewrite (proj1 (verdictAt_blob deep w1 b Hin)).
    assert (files (disk w) !! bHash b = files (disk w1) !! bHash b) as <-
      by by rewrite (ch_files _ _ _ _ HC), bool_decide_false.
    rewrite <-Hk. destruct f as [f|]; cbn; [|done]. rewrite fmap_app, <-app_assoc. cbn. unfold label at 2.
    by rewrite (Hh f eq_refl).
Qed.

(** ** The check *)

(** What is found besides the blobs of the catalog. *)
Definition waste (w : World) : list (FindingKind * string) :=
  ((λ d, (KindUntracked, dHash d)) <$> filter (λ d, blobs (cat w) !! dHash d = None) (Walk (disk w)))
  ++ (if reaper then (λ _, (KindOrphanTemp, "")) <$> TempFiles (disk w) else []).

Lemma untracked_labels known (ds : list Descriptor) :
  label <$> omap (untracked known) ds = (λ d, (KindUntracked, dHash d)) <$> filter (λ d, dHash d ∉ known) ds.
Proof.
  induction ds as [|d ds IH]; [done|]. rewrite filter_cons. cbn [omap list_omap]. unfold untracked at 1.
  case_bool_decide as Hd; [by rewrite decide_False by tauto|]. rewrite decide_True by done. by rewrite !fmap_cons, IH.
Qed.

Lemma checked_untracked deep w1 D w : checked deep w1 D w →
  filter (λ d, blobs (cat w1) !! dHash d = None) (Walk (disk w))
  ≡ₚ filter (λ d, blobs (cat w1) !! dHash d = None) (Walk (disk w1)).
Proof.
  intros HC. apply NoDup_Permutation; [apply NoDup_filter, NoDup_Walk..|]. intros d.
  assert (blobs (cat w1) !! dHash d = None → files (disk w) !! dHash d = files (disk w1) !! dHash d) as Heq.
  { intros Hn. rewrite (ch_files _ _ _ _ HC). unfold corruptAt, verdictAt.
    by rewrite Hn, (bool_decide_false (None = Some KindCorrupt)), andb_false_r by done. }
  rewrite !list_elem_of_filter, !elem_of_Walk. split; intros [Hn (h & f & Hf & ->)]; specialize (Heq Hn); cbn in Heq;
    (split; [done|]); exists h, f; (split; [congruence|done]).
Qed.

Lemma runs_check deep w :
  (∀ h n, quarantine (disk w) !! (h, wall n) = None) → is_Some (peers (cat w) !! self) →
  runs (Check_ env self wall moveFails reaper deep) w (λ r w',
    (∃ D, checked deep w D w' ∧ ∀ h, is_Some (blobs (cat w) !! h) → h ∈ D) ∧
    BlobsInCatalog r = size (blobs (cat w)) ∧ BlobsChecked r = BlobsInCatalog r ∧
    label <$> Findings r ≡ₚ omap (told deep w) (Blobs (cat w)) ++ waste w).
Proof.
  intros Hfresh Hself. unfold Check_.
  apply (runs_bind _ _ _ (λ _ w', w' = w)); [by apply runs_now|]. intros started ? ->.
  apply (runs_bind _ _ _ (λ bs w', w' = w ∧ bs = Blobs (cat w))); [by apply (runs_read env Hq)|].
  intros ? ? [-> ->].
  eapply runs_bind.
  { apply (runs_checkBlobs deep w (Blobs (cat w)) ∅ w 0 0 []); [done..|apply checked_refl|apply NoDup_Blobs|].
    intros b Hb. split; [done|set_solver]. }
  intros [[n bytes] fs] w' (HC & Hn & Hfs). cbn in Hn, Hfs.
  apply (runs_bind _ _ _ (λ ds w2, w2 = w' ∧ ds = Walk (disk w'))); [by apply (runs_read env Hq)|].
  intros ? ? [-> ->].
  apply (runs_bind _ _ _ (λ ts w2, w2 = w' ∧ ts = if reaper then TempFiles (disk w') else [])).
  { destruct reaper; [by apply (runs_read env Hq)|by apply runs_ret]. }
  intros ? ? [-> ->]. apply (runs_bind _ _ _ (λ _ w2, w2 = w')); [by apply runs_now|]. intros fin ? ->.
  apply runs_ret. rewrite (left_id_L ∅ (∪)) in HC. split_and!.
  - eexists. split; [exact HC|]. intros h Hh. by apply elem_of_known.
  - apply length_Blobs.
  - done.
  - cbn [Findings]. rewrite sort_by_perm, !fmap_app, Hfs, <-app_assoc. apply Permutation_app_head.
    unfold waste. apply Permutation_app.
    + rewrite untracked_labels. apply fmap_Permutation. rewrite <-(checked_untracked _ _ _ _ HC).
      match goal with |- ?l ≡ₚ ?k => assert (l = k) as ->; [|done] end.
      apply list_filter_iff. intros d. by rewrite elem_of_known, <-eq_None_not_Some.
    + rewrite (TempFiles_temps _ _ (ch_temps _ _ _ _ HC)). by destruct reaper; [rewrite <-list_fmap_compose|].
Qed.
End fsck.

(** C13. An undisturbed check looks at every blob of the catalog and reports exactly what
    there is: the missing, the corrupt and the wrongly sized ones, and besides them the
    untracked files and the partial writes.  It loses no byte: a file is still there, or
    is in quarantine with the bytes it had, which happens exactly to the corrupt ones;
    after a deep check every tracked file hashes to its name, and the replica row of every
    blob verified or found missing says so. *)
Theorem fsck_spec `{DigestOf} env self wall moveFails reaper deep s :
  quiet env → (∀ n, moveFails n = false) →
  let w := world s in
  is_Some (peers (cat w) !! self) → (∀ h n, quarantine (disk w) !! (h, wall n) = None) →
  ∃ s' r, Check_ env self wall moveFails reaper deep s = (s', inr r) ∧
    let w' := world s' in
    BlobsChecked r = size (blobs (cat w)) ∧
    label <$> Findings r ≡ₚ omap (told deep w) (Blobs (cat w)) ++ waste reaper w ∧
    (∀ h, files (disk w') !! h = if corruptAt deep w h then None else files (disk w) !! h) ∧
    (∀ h f, files (disk w) !! h = Some f →
       files (disk w') !! h = Some f ∨ ∃ t, quarantine (disk w') !! (h, t) = Some (fData f)) ∧
    quarantine (disk w) ⊆ quarantine (disk w') ∧
    (deep = true → ∀ h f, is_Some (blobs (cat w) !! h) → files (disk w') !! h = Some f → digestOf (fData f) = h) ∧
    (∀ h, verifiedAt deep w h = true →
       rrState <$> replicas (cat w') !! (h, self) = Some (stateOf (verdictAt deep w h))).
Proof.
  intros Hq Hmove w Hself Hfresh.
  destruct (runs_check env Hq self wall moveFails reaper Hmove deep w Hfresh Hself s eq_refl)
    as (s' & r & Hrun & (D & HC & HD) & Hin & Hchk & Hf).
  exists s', r. split; [exact Hrun|]. cbn zeta.
  assert (∀ h, is_Some (blobs (cat w) !! h) ∨ corruptAt deep w h = false) as Hrow.
  { intros h. unfold corruptAt, verdictAt. destruct (blobs (cat w) !! h); [by left; eexists|by right]. }
  assert (∀ h, files (disk (world s')) !! h = if corruptAt deep w h then None else files (disk w) !! h) as Hfiles.
  { intros h. rewrite (ch_files _ _ _ _ _ _ HC). destruct (Hrow h) as [Hb| ->]; [|by rewrite andb_false_r].
    by rewrite bool_decide_true by auto. }
  split_and!; [congruence|done|done| |apply HC| |].
  - intros h f Hfile. rewrite Hfiles. destruct (corruptAt deep w h) eqn:Hc; [right|by left].
    destruct (Hrow h) as [Hb|?]; [|congruence].
    destruct (ch_moved _ _ _ _ _ _ HC h (HD h Hb) Hc) as (n & f' & Hf' & Hm). simplify_eq. eauto.
  - intros -> h f [row Hb] Hfile. rewrite Hfiles in Hfile. destruct (corruptAt true w h) eqn:Hc; [done|].
    unfold corruptAt, verdictAt, verdictOf in Hc. rewrite Hb, Hfile, orb_true_r in Hc. cbn in Hc.
    by destruct (decide (digestOf (fData f) = h)); [|rewrite (bool_decide_false (digestOf (fData f) = h)) in Hc].
  - intros h Hv. apply HC; [|done]. apply HD. unfold verifiedAt in Hv. by destruct (blobs (cat w) !! h).
Qed.

(** A blob an undisturbed check finds missing is off the list of blobs this node
    replicates, and stays off it when its bytes come back and verify: a node that lost a
    blob never asks a peer for it, although the repairer counts on exactly that. *)
Theorem fsck_missing_undesired `{DigestOf} env self wall moveFails reaper deep s :
  quiet env → (∀ n, moveFails n = false) →
  let w := world s in
  is_Some (peers (cat w) !! self) → (∀ h n, quarantine (disk w) !! (h, wall n) = None) →
  ∃ s' r, Check_ env self wall moveFails reaper deep s = (s', inr r) ∧
    ∀ h, is_Some (blobs (cat w) !! h) → files (disk w) !! h = None →
      (h ∉ canonicalBlobs (cat (world s'))) ∧
      ∀ t c, MarkVerified self h t (cat (world s')) = inr c → (h ∉ canonicalBlobs c).
Proof.
  intros Hq Hmove w Hself Hfresh.
  destruct (runs_check env Hq self wall moveFails reaper Hmove deep w Hfresh Hself s eq_refl)
    as (s' & r & Hrun & (D & HC & HD) & _).
  exists s', r. split; [exact Hrun|]. intros h Hb Hnone.
  assert (IsBlobDesired (cat (world s')) h = false) as Hd.
  { apply (ch_lost _ _ _ _ _ _ HC h (HD h Hb)). unfold verdictAt. destruct Hb as [row ->]. by rewrite Hnone. }
  split; [by rewrite <-IsBlobDesired_canonical, Hd|]. intros t c Hv. apply MarkVerified_desired in Hv.
  rewrite <-IsBlobDesired_canonical. unfold IsBlobDesired in *. by rewrite Hv, Hd.
Qed.

(** ** Witnesses *)

(** A digest that is the bytes themselves. *)
#[local] Instance ck_digest : DigestOf := String.string_of_list_byte.

Definition ck_bytes (s : string) : list byte := String.list_byte_of_string s.
Definition ck_world : World :=
  mkWorld
    (mkCatalog (list_to_map [("ab", mkRow 2 None); ("bad", mkRow 3 None); ("gone", mkRow 4 None)])
       [mkAsset "a1" (Some "gone") None] ∅ ∅ ∅ [] ∅ [] ∅ {["me" := mkPeerRow "me" "" "" "full" [] true]} [] [])
    (mkDisk (list_to_map [("ab", mkFile (ck_bytes "ab") 0); ("bad", mkFile (ck_bytes "bax") 0)]) ∅ ∅).
Definition ck_env : Env := mkEnv (λ _ w, w) (λ _, Fine) (λ _, false) (λ _, 5%Z).
Definition ck_st : St := mkSt ck_world 0 [].

Lemma ck_quiet : quiet ck_env.
Proof. done. Qed.

Lemma ck_self : is_Some (peers (cat ck_world) !! "me").
Proof. by eexists. Qed.

Lemma ck_fresh : ∀ (h : string) (n : nat), quarantine (disk ck_world) !! (h, Z.of_nat n) = None.
Proof. intros h n. apply lookup_empty. Qed.

Lemma fsck_spec_witness :
  ∃ s' r, Check_ ck_env "me" Z.of_nat (λ _, false) true true ck_st = (s', inr r) ∧
    label <$> Findings r ≡ₚ [(KindCorrupt, "bad"); (KindMissing, "gone")] ∧
    files (disk (world s')) !! "bad" = None ∧
    (∀ f, files (disk ck_world) !! "bad" = Some f → ∃ t, quarantine (disk (world s')) !! ("bad", t) = Some (fData f)).
Proof.
  destruct (fsck_spec ck_env "me" Z.of_nat (λ _, false) true true ck_st ck_quiet (λ _, eq_refl) ck_self ck_fresh)
    as (s' & r & Hrun & _ & Hf & Hfiles & Hkeep & _).
  exists s', r. split; [exact Hrun|].
  assert (omap (told true ck_world) (Blobs (cat ck_world)) ++ waste true ck_world
          = [(KindCorrupt, "bad"); (KindMissing, "gone")]) as Ht by (vm_compute; reflexivity).
  assert (corruptAt true ck_world "bad" = true) as Hc by (vm_compute; reflexivity).
  assert (files (disk (world s')) !! "bad" = None) as Hgone.
  { specialize (Hfiles "bad"). change (world ck_st) with ck_world in Hfiles. rewrite Hc in Hfiles. exact Hfiles. }
  split; [rewrite <-Ht; exact Hf|]. split; [exact Hgone|].
  intros f Hfile. destruct (Hkeep "bad" f Hfile) as [H|H]; [congruence|exact H].
Defined.

Lemma fsck_missing_undesired_witness :
  "gone" ∈ canonicalBlobs (cat ck_world) ∧
  ∃ s' r, Check_ ck_env "me" Z.of_nat (λ _, false) true true ck_st = (s', inr r) ∧
    ("gone" ∉ canonicalBlobs (cat (world s'))).
Proof.
  assert (IsBlobDesired (cat ck_world) "gone" = true) as Hd by (vm_compute; reflexivity).
  assert (is_Some (blobs (cat ck_world) !! "gone")) as Hrow by (exists (mkRow 4 None); vm_compute; reflexivity).
  assert (files (disk ck_world) !! "gone" = None) as Hnone by (vm_compute; reflexivity).
  destruct (fsck_missing_undesired ck_env "me" Z.of_nat (λ _, false) true true ck_st ck_quiet (λ _, eq_refl) ck_self
    ck_fresh) as (s' & r & Hrun & Hg).
  split; [by apply IsBlobDesired_canonical|]. exists s', r. split; [exact Hrun|]. exact (proj1 (Hg "gone" Hrow Hnone)).
Defined.
