(* ===== verification/Repair.v ===== *)
(** * Repair: replacing the damaged chunks of a blob

    Models internal/storagefabric/integrity/repair.go with the staging and the quarantine
    of internal/storagefabric/cas/staging.go and fs.go, as a program of StoreSteps.v over a
    manifest (Manifests.v).  The manifest store, the peers and what the opened file holds
    at each reading are an environment ([Sources]); the staged bytes are the value a
    reconstruction passes along. *)

From S2P Require Import Prelude GoText GoPath Chunking Manifests BlobCatalog StoreSteps.
From Stdlib Require Import Strings.Byte.

Inductive Outcome :=
  | OutcomeRepaired | OutcomeHealthy | OutcomeNoManifest | OutcomeNoLocalBytes
  | OutcomeUnreachable | OutcomeSourceCorrupt | OutcomeAssemblyMismatch | OutcomeFailed.

#[export] Instance Outcome_eq_dec : EqDecision Outcome.
Proof. solve_decision. Defined.

Definition Repaired (o : Outcome) : bool := bool_decide (o = OutcomeRepaired).

Record RepairResult := mkResult {
  rOutcome : Outcome; ChunksTotal : Z; ChunksDamaged : Z; ChunksFetched : Z;
  BytesFetched : Z; BytesRead : Z; BlobSize : Z; QuarantinePath : string }.

(** What a fetch of one chunk gives. *)
Inductive Fetched := NoSource | FetchFailed | Got (bs : list byte).

Record Sources := mkSources {
  loads : error + option Manifest;
  fetches : option (nat → Chunk → Fetched);
  holds : nat → nat → list byte → option (list byte);
  stageFails : nat → bool;
  instant : nat → Z }.

(** The local copy the intact chunks come from. *)
Record LocalBytes := mkLocal { lData : list byte; lQuarantined : bool; lPath : string }.
Definition lSize (l : LocalBytes) : Z := Z.of_nat (length (lData l)).

Record Assembly := mkAssembly {
  aFetched : Z; aBytesFetched : Z; aBytesRead : Z; aOutcome : option Outcome }.

(** Makes verified bytes addressable: the link keeps what is there already. *)
Definition Publish `{HashEnv, HashText} (h : Hash) (data : list byte) (at_ : Z) (d : Disk) : error + Disk :=
  if negb (bool_decide (hash data = h)) then inl ErrNotVerified
  else inr (mkDisk (insert (Hash_String h) (default (mkFile data at_) (files d !! Hash_String h)) (files d))
              (temps d) (quarantine d)).

(** The newest artefact of each blob, by digest. *)
Definition quarantinedOf (h : string) (d : Disk) : list (Z * list byte) :=
  (λ kv, (kv.1.2, kv.2)) <$> filter (λ kv, kv.1.1 = h) (map_to_list (quarantine d)).
Definition newer (best : option (Z * list byte)) (q : Z * list byte) : option (Z * list byte) :=
  match best with
  | None => Some q
  | Some b => if (b.1 <? q.1)%Z then Some q else Some b
  end.
Definition newestQuarantined (h : string) (d : Disk) : option (Z * list byte) :=
  foldl newer None (quarantinedOf h d).

(** Seeking before the start fails; bytes that run out are a short chunk. *)
Inductive ChunkRead := ReadFailed | Short (n : Z) | Whole (bs : list byte).

Definition readChunk (data : option (list byte)) (c : Chunk) : ChunkRead :=
  match data with
  | None => ReadFailed
  | Some data =>
      if (Offset c <? 0)%Z then ReadFailed
      else
        let bs := take (Z.to_nat (Length c)) (drop (Z.to_nat (Offset c)) data) in
        if (Z.of_nat (length bs) <? Length c)%Z then Short (Z.of_nat (length bs)) else Whole bs
  end.

Section repairing.
Context `{HashEnv, HashText} (env : Env) (self : string) (src : Sources).
#[local] Abbreviation call := (StoreSteps.call env).
#[local] Abbreviation Now := (StoreSteps.Now env).
#[local] Abbreviation ctxErr := (StoreSteps.ctxErr env).

(** The addressable blob first, then the newest artefact of it. *)
Definition localBytes (h : string) : M (option LocalBytes) :=
  has ← call (AStat h) (reading (λ w, bool_decide (is_Some (files (disk w) !! h))));
  if has : bool then
    f ← call (AOpen h) (reading (λ w, files (disk w) !! h));
    mret ((λ f, mkLocal (fData f) false "") <$> f)
  else
    q ← call AQuarantineList (reading (λ w, newestQuarantined h (disk w)));
    match q with
    | None => mret None
    | Some (at_, _) =>
        f ← call (AOpenQuarantined h at_) (reading (λ w, quarantine (disk w) !! (h, at_)));
        mret ((λ bs, mkLocal bs true (quarantineName h at_)) <$> f)
    end.

(** Which chunks are damaged, and the bytes read. *)
Fixpoint locateDamage (l : LocalBytes) (i : nat) (damaged : gset nat) (read : Z) (cs : list Chunk) : M (gset nat * Z) :=
  match cs with
  | [] => mret (damaged, read)
  | c :: cs =>
      _ ← ctxErr;
      match readChunk (holds src 0 i (lData l)) c with
      | ReadFailed => throw ErrIO
      | Short n => locateDamage l (S i) (damaged ∪ {[i]}) (wrap_i64 (read + n)) cs
      | Whole bs =>
          locateDamage l (S i) (if bool_decide (hash bs = Chunking.Digest c) then damaged else damaged ∪ {[i]})
            (wrap_i64 (read + Length c)) cs
      end
  end.

Definition addRead (n : Z) (a : Assembly) : Assembly :=
  mkAssembly (aFetched a) (aBytesFetched a) (wrap_i64 (aBytesRead a + n)) (aOutcome a).
Definition addFetched (n : Z) (a : Assembly) : Assembly :=
  mkAssembly (aFetched a + 1) (wrap_i64 (aBytesFetched a + n)) (aBytesRead a) (aOutcome a).
Definition stopped (o : Outcome) (a : Assembly) : Assembly :=
  mkAssembly (aFetched a) (aBytesFetched a) (aBytesRead a) (Some o).

Definition write (i : nat) (staged bs : list byte) : M (list byte) :=
  if stageFails src i then throw ErrIO else mret (staged ++ bs).

(** The whole replacement, chunk by chunk, and what is staged of it. *)
Fixpoint assemble (l : LocalBytes) (damaged : gset nat) (i : nat) (a : Assembly) (staged : list byte)
    (cs : list Chunk) : M (Assembly * list byte) :=
  match cs with
  | [] => mret (a, staged)
  | c :: cs =>
      _ ← ctxErr;
      if bool_decide (i ∈ damaged) then
        match fetches src with
        | None => throw ErrFetch
        | Some fetch =>
            match fetch i c with
            | NoSource => mret (stopped OutcomeUnreachable a, staged)
            | FetchFailed => throw ErrFetch
            | Got bs =>
                let a := addFetched (Z.of_nat (length bs)) a in
                if negb (Z.of_nat (length bs) =? Length c)%Z then mret (stopped OutcomeSourceCorrupt a, staged)
                else if negb (bool_decide (hash bs = Chunking.Digest c)) then
                  mret (stopped OutcomeSourceCorrupt a, staged)
                else
                  staged ← write i staged bs;
                  assemble l damaged (S i) a staged cs
            end
        end
      else
        match readChunk (holds src 1 i (lData l)) c with
        | ReadFailed => throw ErrIO
        | Short _ => throw ErrShortChunk
        | Whole bs =>
            staged ← write i staged bs;
            assemble l damaged (S i) (addRead (Length c) a) staged cs
        end
  end.

Definition ended (o : Outcome) (m : Manifest) (damaged : Z) (a : Assembly) (read : Z) (path : string) : RepairResult :=
  mkResult o (ChunkCount m) damaged (aFetched a) (aBytesFetched a) (wrap_i64 (read + aBytesRead a)) (CoveredSize m) path.

Definition noAssembly : Assembly := mkAssembly 0 0 0 None.

Definition quarantineBlob (h : string) : M string := λ s,
  call (AQuarantine h) (λ w, match Quarantine h (instant src (tick s)) (disk w) with
                             | inl e => (w, inl e)
                             | inr (d, path) => (mkWorld (cat w) d, inr path)
                             end) s.

Definition publish (h : Hash) (data : list byte) : M unit := λ s,
  call (APublish (Hash_String h) data) (onDisk (Publish h data (instant src (tick s)))) s.

Definition markRepaired (h : string) (at_ : Z) : M unit :=
  call (AVerified h) (onCatalog (λ c, match MarkVerified self h at_ c with inl e => (c, Some e) | inr c => (c, None) end)).

(** What follows the reconstruction: verify, quarantine, publish, record. *)
Definition replace (h : Hash) (m : Manifest) (l : LocalBytes) (damaged read : Z) (a : Assembly) (staged : list byte) :
    M RepairResult :=
  let key := Hash_String h in
  if negb (bool_decide (hash staged = h)) then mret (ended OutcomeAssemblyMismatch m damaged a read "")
  else
    path ← (if negb (lQuarantined l) then quarantineBlob key else mret (lPath l));
    _ ← publish h staged;
    now ← Now;
    _ ← markRepaired key now;
    mret (ended OutcomeRepaired m damaged a read path).

Definition Repair (h : Hash) : M RepairResult :=
  found ← liftE (loads src);
  match found with
  | None => mret (mkResult OutcomeNoManifest 0 0 0 0 0 0 "")
  | Some m =>
      match Manifest_Validate m with
      | Some _ => throw ErrManifest
      | None =>
          local ← localBytes (Hash_String h);
          match local with
          | None => mret (ended OutcomeNoLocalBytes m 0 noAssembly 0 "")
          | Some l =>
              '(damaged, read) ← locateDamage l 0 ∅ 0 (Chunks m);
              let n := Z.of_nat (size damaged) in
              if bool_decide (damaged = ∅) && (lSize l =? CoveredSize m)%Z then
                mret (ended OutcomeHealthy m n noAssembly read "")
              else if bool_decide (fetches src = None) && negb (bool_decide (damaged = ∅)) then
                mret (ended OutcomeUnreachable m n noAssembly read "")
              else
                '(a, staged) ← assemble l damaged 0 noAssembly [] (Chunks m);
                match aOutcome a with
                | Some o => mret (ended o m n a read "")
                | None => replace h m l n read a staged
                end
          end
      end
  end.
End repairing.
