(* ===== verification/RepairSpec.v ===== *)
(** * RepairSpec: the theorems of the chunk-scoped repair

    Under any interference a repair writes in one order, and publishes only bytes that hash
    to the blob's name; with an honest source it restores the blob; and what it does with a
    quarantined artefact that turns out to be intact. *)

From S2P Require Import Prelude GoText GoPath GoScan Chunking ChunkStream Manifests ManifestSpec Resume ResumeSpec.
From S2P Require Import BlobCatalog StoreSteps Repair.
From Stdlib Require Import Strings.Byte.

(** ** The order of the writes *)

Section order.
Context `{HashEnv, HashText} (env : Env) (self : string) (src : Sources) (h : Hash).
Let key := Hash_String h.

(** An artefact was opened. *)
Definition openedArtefact (t : Trace) : Prop := ∃ w at_, (w, AOpenQuarantined key at_) ∈ t.

(** What a repair may write after its reads [rs]: first the blob moves to quarantine, or is
    there already, then verified bytes are published, then the replica is marked. *)
Definition ordered (rs tail : Trace) : Prop :=
  ∃ qs ps vs, tail = qs ++ ps ++ vs ∧
    (qs = [] ∨ ∃ w, qs = [(w, AQuarantine key)]) ∧
    (ps = [] ∨ ∃ w data, ps = [(w, APublish key data)] ∧ hash data = h) ∧
    (vs = [] ∨ ∃ w, vs = [(w, AVerified key)]) ∧
    (ps = [] → vs = []) ∧ (ps ≠ [] → qs ≠ [] ∨ openedArtefact rs).

Definition reading_only (t : Trace) : Prop := Forall (λ wa, reads wa.2 = true) t.

Definition shaped (t0 t : Trace) : Prop := ∃ rs tail, t = t0 ++ rs ++ tail ∧ reading_only rs ∧ ordered rs tail.

Lemma dry_localBytes k : dry env (localBytes env k).
Proof.
  unfold localBytes. apply dry_bind; [by apply dry_read|]. intros [].
  - apply dry_bind; [by apply dry_read|]. intros f. apply dry_ret.
  - apply dry_bind; [by apply dry_read|]. intros [[at_ bs]|]; [|apply dry_ret].
    apply dry_bind; [by apply dry_read|]. intros f. apply dry_ret.
Qed.

Lemma dry_locateDamage l i damaged read cs : dry env (locateDamage env src l i damaged read cs).
Proof.
  revert i damaged read. induction cs as [|c cs IH]; intros i damaged read; cbn [locateDamage]; [apply dry_ret|].
  apply dry_bind; [apply dry_ctx|]. intros _. destruct (readChunk _ _); [apply dry_throw|apply IH|apply IH].
Qed.

Lemma dry_write i staged bs : dry env (write src i staged bs).
Proof. unfold write. destruct (stageFails src i); [apply dry_throw|apply dry_ret]. Qed.

Lemma dry_assemble l damaged i a staged cs : dry env (assemble env src l damaged i a staged cs).
Proof.
  revert i a staged. induction cs as [|c cs IH]; intros i a staged; cbn [assemble]; [apply dry_ret|].
  apply dry_bind; [apply dry_ctx|]. intros _. destruct (bool_decide (i ∈ damaged)).
  - destruct (fetches src) as [fetch|]; [|apply dry_throw]. destruct (fetch i c) as [| |bs]; [apply dry_ret|apply dry_throw|].
    destruct (negb _); [apply dry_ret|]. destruct (negb _); [apply dry_ret|].
    apply dry_bind; [apply dry_write|]. intros staged'. apply IH.
  - destruct (readChunk _ _); [apply dry_throw..|]. apply dry_bind; [apply dry_write|]. intros staged'. apply IH.
Qed.

(** A program that only reads keeps what is known of the trace. *)
Definition since (t0 : Trace) (K : Trace → Prop) (t : Trace) : Prop := ∃ rs, t = t0 ++ rs ∧ reading_only rs ∧ K rs.

Lemma since_dry {A} t0 (K : Trace → Prop) (m : M A) :
  (∀ rs l, K rs → K (rs ++ l)) → dry env m → hoare (since t0 K) m (λ _, since t0 K) (since t0 K).
Proof.
  intros HK Hm s (rs & Hs & Hr & Hk). destruct (Hm s) as [(l & Hl & Hlr) _].
  assert (since t0 K (trace (m s).1)) as Hs'.
  { exists (rs ++ l). rewrite Hl, Hs, app_assoc. split; [done|]. split; [by apply Forall_app|by apply HK]. }
  by destruct (m s) as [s' [e|a]].
Qed.

Definition anything : Trace → Prop := λ _, True.

Lemma since_snoc t0 (K K' : Trace → Prop) t w a :
  reads a = true → since t0 K t → (∀ rs, K rs → K' (rs ++ [(w, a)])) → since t0 K' (t ++ [(w, a)]).
Proof.
  intros Ha (rs & -> & Hr & Hk) HK. exists (rs ++ [(w, a)]). rewrite app_assoc. split; [done|].
  split; [|by apply HK]. apply Forall_app. split; [done|]. by constructor.
Qed.

Definition artefactIf (r : option LocalBytes) (rs : Trace) : Prop :=
  ∀ l, r = Some l → lQuarantined l = true → openedArtefact rs.

Lemma localBytes_hoare t0 :
  hoare (since t0 anything) (localBytes env key) (λ r, since t0 (artefactIf r)) (since t0 anything).
Proof.
  unfold localBytes. eapply (hoare_bind _ _ _ (λ _, since t0 anything)).
  { apply hoare_read; [done|..]; intros t w Ht; by eapply since_snoc. }
  intros []; (eapply (hoare_bind _ _ _ (λ _, since t0 anything));
    [apply hoare_read; [done|intros t w Ht; by eapply since_snoc..]|]).
  - intros f. apply hoare_ret. intros t (rs & -> & Hr & _). exists rs. split_and!; [done..|].
    intros l Hl Hq. by destruct f; simplify_eq/=.
  - intros [[at_ bs]|]; [|apply hoare_ret; intros t (rs & -> & Hr & _); by exists rs].
    eapply (hoare_bind _ _ _ (λ _, since t0 openedArtefact)).
    { apply hoare_read; [done|..]; intros t w Ht; [by eapply since_snoc|].
      eapply since_snoc; [done|exact Ht|]. intros rs _. exists w, at_. apply elem_of_app. right. by constructor. }
    intros f. apply hoare_ret. intros t (rs & -> & Hr & Ho). exists rs. split_and!; [done..|]. by intros l _ _.
Qed.

(** ** After the reconstruction *)

Definition quarantinedThen (t0 : Trace) (t : Trace) : Prop :=
  ∃ rs qs, t = t0 ++ rs ++ qs ∧ reading_only rs ∧ (qs = [] ∨ ∃ w, qs = [(w, AQuarantine key)]) ∧
    (qs ≠ [] ∨ openedArtefact rs).

Definition publishedThen (t0 : Trace) (t : Trace) : Prop :=
  ∃ rs qs w data, t = t0 ++ rs ++ qs ++ [(w, APublish key data)] ∧ reading_only rs ∧
    (qs = [] ∨ ∃ w, qs = [(w, AQuarantine key)]) ∧ (qs ≠ [] ∨ openedArtefact rs) ∧ hash data = h.

(** The writes of a repair that reported success. *)
Definition repairedThen (t0 : Trace) (t : Trace) : Prop :=
  ∃ rs qs w data w', t = t0 ++ rs ++ qs ++ [(w, APublish key data); (w', AVerified key)] ∧ reading_only rs ∧
    (qs = [] ∨ ∃ w, qs = [(w, AQuarantine key)]) ∧ (qs ≠ [] ∨ openedArtefact rs) ∧ hash data = h.

Lemma shaped_since t0 K t : since t0 K t → shaped t0 t.
Proof.
  intros (rs & -> & Hr & _). exists rs, []. rewrite app_nil_r. split_and!; [done..|].
  exists [], [], []. split_and!; naive_solver.
Qed.

Lemma shaped_quarantined t0 t : quarantinedThen t0 t → shaped t0 t.
Proof.
  intros (rs & qs & -> & Hr & Hq & _). exists rs, qs. split_and!; [done..|]. exists qs, [], [].
  rewrite !app_nil_r. split_and!; naive_solver.
Qed.

Lemma shaped_published t0 t : publishedThen t0 t → shaped t0 t.
Proof.
  intros (rs & qs & w & data & -> & Hr & Hq & Ho & Hh). exists rs, (qs ++ [(w, APublish key data)]).
  split_and!; [done..|]. exists qs, [(w, APublish key data)], []. rewrite app_nil_r. split_and!; naive_solver.
Qed.

Lemma shaped_repaired t0 t : repairedThen t0 t → shaped t0 t.
Proof.
  intros (rs & qs & w & data & w' & -> & Hr & Hq & Ho & Hh).
  exists rs, (qs ++ [(w, APublish key data); (w', AVerified key)]).
  split_and!; [done..|]. exists qs, [(w, APublish key data)], [(w', AVerified key)]. split_and!; naive_solver.
Qed.
Hint Resolve shaped_since shaped_quarantined shaped_published shaped_repaired : core.

(** An outcome and the trace it was reached by. *)
Definition outcome_ok (t0 : Trace) (r : RepairResult) (t : Trace) : Prop :=
  if Repaired (rOutcome r) then repairedThen t0 t else since t0 anything t.

Lemma replace_hoare t0 m l damaged read a staged :
  hoare (since t0 (artefactIf (Some l))) (replace env self src h m l damaged read a staged)
    (outcome_ok t0) (shaped t0).
Proof.
  unfold replace. case_bool_decide as Hh; cbn [negb].
  2:{ apply hoare_ret. intros t (rs & -> & Hr & _). by exists rs. }
  eapply (hoare_bind _ _ _ (λ _, quarantinedThen t0)).
  { destruct (lQuarantined l) eqn:Hl; cbn [negb].
    - apply hoare_ret. intros t (rs & -> & Hr & Ha). exists rs, []. rewrite app_nil_r.
      split_and!; [done|done|by left|right; by apply (Ha l)].
    - assert (∀ t w, since t0 (artefactIf (Some l)) t → quarantinedThen t0 (t ++ [(w, AQuarantine key)])) as Hq.
      { intros t w (rs & -> & Hr & _). exists rs, [(w, AQuarantine key)].
        rewrite app_assoc. split_and!; [done|done|by eauto|by left]. }
      intros s Hs. refine (hoare_call env _ _ _ (λ _, quarantinedThen t0) (shaped t0) _ _ _ s Hs); eauto. }
  intros path. eapply (hoare_bind _ _ _ (λ _, publishedThen t0)).
  { assert (∀ t w, quarantinedThen t0 t → publishedThen t0 (t ++ [(w, APublish key staged)])) as Hp.
    { intros t w (rs & qs & -> & Hr & Hq & Ho). exists rs, qs, w, staged. rewrite <-!app_assoc. by split_and!. }
    intros s Hs. refine (hoare_call env _ _ _ (λ _, publishedThen t0) (shaped t0) _ _ _ s Hs); eauto. }
  intros []. eapply (hoare_bind _ _ _ (λ _, publishedThen t0)); [by apply hoare_now|]. intros now.
  assert (∀ t w, publishedThen t0 t → repairedThen t0 (t ++ [(w, AVerified key)])) as Hv.
  { intros t w (rs & qs & w' & data & -> & Hr & Hq & Ho & Hd). exists rs, qs, w', data, w.
    rewrite <-!app_assoc. by split_and!. }
  eapply (hoare_bind _ _ _ (λ _, repairedThen t0)); [unfold markRepaired; apply hoare_call; eauto|].
  intros []. by apply hoare_ret.
Qed.

Lemma artefactIf_app r rs l : artefactIf r rs → artefactIf r (rs ++ l).
Proof.
  intros Ha x Hx Hq. destruct (Ha x Hx Hq) as (w & at_ & Hin). exists w, at_. apply elem_of_app. by left.
Qed.

Lemma since_weaken t0 (K K' : Trace → Prop) t : (∀ rs, K rs → K' rs) → since t0 K t → since t0 K' t.
Proof. intros HK (rs & -> & Hr & Hk). exists rs. eauto. Qed.

(** What a program's value is known to be, whatever disturbs it. *)
Definition gives {A} (m : M A) (P : A → Prop) : Prop := ∀ s s' a, m s = (s', inr a) → P a.

Lemma gives_bind {A B} (m : M A) (k : A → M B) P : (∀ a, gives (k a) P) → gives (m ≫= k) P.
Proof.
  intros Hk s s' b. unfold mbind, M_bind. destruct (m s) as [s1 [e|a]]; [done|]. by apply Hk.
Qed.
Lemma gives_ret {A} (a : A) (P : A → Prop) : P a → gives (mret a) P.
Proof. by intros Ha s s' b [= _ <-]. Qed.
Lemma gives_throw {A} e (P : A → Prop) : gives (throw e) P.
Proof. by intros s s' a. Qed.

Lemma hoare_gives {A} P (m : M A) (Q : A → Trace → Prop) E (R : A → Prop) :
  hoare P m Q E → gives m R → hoare P m (λ a t, Q a t ∧ R a) E.
Proof. intros Hm Hg s Hs. specialize (Hm s Hs). destruct (m s) as [s' [e|a]] eqn:Ea; [done|]. eauto. Qed.

(** A reconstruction that stops early stops at its sources. *)
Lemma assemble_gives l damaged i a staged cs :
  aOutcome a = None →
  gives (assemble env src l damaged i a staged cs)
    (λ r, aOutcome r.1 = None ∨ aOutcome r.1 = Some OutcomeUnreachable ∨ aOutcome r.1 = Some OutcomeSourceCorrupt).
Proof.
  revert i a staged. induction cs as [|c cs IH]; intros i a staged Ha; cbn [assemble]; [apply gives_ret; by left|].
  apply gives_bind. intros _. destruct (bool_decide (i ∈ damaged)).
  - destruct (fetches src) as [fetch|]; [|apply gives_throw].
    destruct (fetch i c) as [| |bs]; [apply gives_ret; auto|apply gives_throw|]. cbn zeta.
    destruct (negb _); [apply gives_ret; auto|]. destruct (negb _); [apply gives_ret; auto|].
    apply gives_bind. intros staged'. by apply IH.
  - destruct (readChunk _ _); [apply gives_throw..|]. apply gives_bind. intros staged'. by apply IH.
Qed.

Lemma Repair_hoare t0 :
  hoare (λ t, t = t0) (Repair env self src h) (outcome_ok t0) (shaped t0).
Proof.
  unfold Repair. assert (∀ t, t = t0 → since t0 anything t) as Hstart.
  { intros t ->. exists []. rewrite app_nil_r. by split_and!; [|constructor|]. }
  eapply (hoare_bind _ _ _ (λ _, since t0 anything)).
  { destruct (loads src); [apply hoare_throw; eauto|by apply hoare_ret]. }
  intros [m|]; [|by apply hoare_ret]. destruct (Manifest_Validate m); [apply hoare_throw; eauto|].
  eapply (hoare_bind _ _ _ (λ r, since t0 (artefactIf r))).
  { intros s Hs. pose proof (localBytes_hoare t0 s Hs) as Hl. fold key.
    destruct (localBytes env key s) as [s' [e|r]]; [by eapply shaped_since|done]. }
  intros [l|]; [|by apply hoare_ret; intros t; apply since_weaken].
  assert (∀ {A} (p : M A), dry env p → hoare (since t0 (artefactIf (Some l))) p
    (λ _, since t0 (artefactIf (Some l))) (shaped t0)) as Hdry.
  { intros A p Hp s Hs. pose proof (since_dry t0 _ p (artefactIf_app (Some l)) Hp s Hs).
    destruct (p s) as [s' [e|r]]; [by eapply shaped_since|done]. }
  eapply (hoare_bind _ _ _ (λ _, since t0 (artefactIf (Some l)))); [apply Hdry, dry_locateDamage|]. intros [damaged read].
  destruct (bool_decide (damaged = ∅) && _); [by apply hoare_ret; intros t; apply since_weaken|].
  destruct (bool_decide (fetches src = None) && _); [by apply hoare_ret; intros t; apply since_weaken|].
  eapply hoare_bind.
  { eapply hoare_gives; [apply Hdry, dry_assemble|by apply assemble_gives]. }
  intros [a staged]. destruct (aOutcome a) as [o|] eqn:Ho.
  2:{ intros s [Hs _]. exact (replace_hoare t0 m l _ _ a staged s Hs). }
  apply hoare_ret. intros t [Ht Hg]. unfold outcome_ok. cbn in *.
  assert (Repaired o = false) as -> by (rewrite Ho in Hg; by destruct Hg as [[=]|[[= ->]|[= ->]]]).
  by eapply since_weaken.
Qed.

(** C5. Whatever other processes do meanwhile and whichever call fails, a repair writes in
    one order after its reads: the blob moves to quarantine (unless its bytes came from
    there), then bytes that hash to the blob's name are published, then the replica is
    marked.  A repair that reports anything but success or an error has written nothing,
    and one that reports success has done all of it. *)
Theorem repair_order (s : St) :
  trace s = [] →
  let '(s', r) := Repair env self src h s in
  (∃ rs tail, trace s' = rs ++ tail ∧ reading_only rs ∧ ordered rs tail) ∧
  match r with
  | inl _ => True
  | inr res => if Repaired (rOutcome res) then repairedThen [] (trace s') else reading_only (trace s')
  end.
Proof.
  intros Hs. pose proof (Repair_hoare (trace s) s eq_refl) as Hr. rewrite Hs in Hr.
  destruct (Repair env self src h s) as [s' [e|res]]; [done|]. unfold outcome_ok in Hr.
  destruct (Repaired (rOutcome res)).
  - split; [by apply shaped_repaired in Hr|done].
  - destruct Hr as (rs & Hrs & Hro & _). cbn in Hrs. rewrite Hrs. split; [|done].
    destruct (shaped_since [] anything rs) as (rs' & tail & -> & ?); [|by exists rs', tail].
    by exists rs.
Qed.
End order.

(** ** An undisturbed repair *)

Section quietly.
Context `{HashEnv, HashText} (env : Env) (Hq : quiet env) (self : string) (src : Sources).

Definition intact (data : list byte) (c : Chunk) : bool :=
  match readChunk (Some data) c with Whole bs => bool_decide (hash bs = Chunking.Digest c) | _ => false end.

Lemma intact_whole data c :
  (0 ≤ Offset c)%Z → sound_chunk c → intact data c = true →
  let bs := take (Z.to_nat (Length c)) (drop (Z.to_nat (Offset c)) data) in
  readChunk (Some data) c = Whole bs ∧ part bs c.
Proof.
  intros Ho [Hl _]. unfold intact, readChunk. rewrite (proj2 (Z.ltb_ge _ _)) by done. cbn zeta.
  destruct (Z.ltb_spec (Z.of_nat (length (take (Z.to_nat (Length c)) (drop (Z.to_nat (Offset c)) data)))) (Length c));
    [done|].
  intros Hh%bool_decide_eq_true. split; [done|]. split; [|done]. rewrite length_take in *. lia.
Qed.

Lemma part_intact data c :
  (0 ≤ Offset c)%Z → part (take (Z.to_nat (Length c)) (drop (Z.to_nat (Offset c)) data)) c → intact data c = true.
Proof.
  intros Ho [Hl Hh]. unfold intact, readChunk. rewrite (proj2 (Z.ltb_ge (Offset c) _)) by done. cbn zeta.
  rewrite Hl, Z.ltb_irrefl. by apply bool_decide_eq_true.
Qed.

Lemma contiguous_offsets at_ cs c :
  (0 ≤ at_)%Z → contiguous at_ cs → Forall sound_chunk cs → c ∈ cs → (0 ≤ Offset c)%Z.
Proof.
  intros Hat Hct Hall. revert at_ Hat Hct. induction Hall as [|d cs [Hl _] _ IH]; [set_solver|].
  intros at_ Hat [Ho Hct] [->|Hc]%elem_of_cons; [lia|]. eapply (IH (at_ + Length d)%Z); [lia|done..].
Qed.

(** Bytes whose chunks are all intact are described by them. *)
Lemma intact_describes data at_ cs :
  (0 ≤ at_)%Z → contiguous at_ cs → Forall sound_chunk cs → Forall (λ c, intact data c = true) cs →
  describes cs (take (Z.to_nat (covered cs)) (drop (Z.to_nat at_) data)).
Proof.
  intros Hat Hct Hall Hi. revert at_ Hat Hct. induction Hall as [|c cs Hc Hall IH]; intros at_ Hat Hct.
  { cbn. rewrite take_0. apply describes_nil. }
  destruct Hct as [Ho Hct]. apply Forall_cons in Hi as [Hi Hi'].
  destruct (intact_whole data c ltac:(lia) Hc Hi) as [_ Hp]. rewrite Ho in Hp.
  specialize (IH Hi' (at_ + Length c)%Z ltac:(destruct Hc; lia) Hct).
  pose proof (covered_nonneg _ Hall). destruct Hc as [Hl _]. cbn [covered foldr]. fold (covered cs).
  replace (Z.to_nat (Length c + covered cs)) with (Z.to_nat (Length c) + Z.to_nat (covered cs))%nat by lia.
  rewrite <-(take_drop (Z.to_nat (Length c)) (take _ (drop (Z.to_nat at_) data))).
  apply describes_cons; [by rewrite take_take, Nat.min_l by lia|].
  rewrite skipn_firstn_comm, drop_drop.
  replace (Z.to_nat at_ + Z.to_nat (Length c))%nat with (Z.to_nat (at_ + Length c)) by lia.
  replace (Z.to_nat (Length c) + Z.to_nat (covered cs) - Z.to_nat (Length c))%nat with (Z.to_nat (covered cs)) by lia.
  done.
Qed.

(** The file of a pass stays what it is for the next. *)
Definition steady : Prop := ∀ p i bs, holds src p i bs = Some bs.

Lemma locateDamage_runs l i D read cs w :
  steady → Forall (λ c, (0 ≤ Offset c)%Z) cs →
  runs (locateDamage env src l i D read cs) w (λ r w', w' = w ∧
    ∀ j, j ∈ r.1 ↔ j ∈ D ∨ ∃ k c, j = (i + k)%nat ∧ cs !! k = Some c ∧ intact (lData l) c = false).
Proof.
  intros Hst. revert i D read. induction cs as [|c cs IH]; intros i D read Ho; cbn [locateDamage].
  { apply runs_ret. split; [done|]. intros j. naive_solver. }
  apply Forall_cons in Ho as [Hc Ho].
  eapply runs_bind; [by apply (runs_ctx env Hq _ (λ _ w', w' = w))|]. intros [] ? ->. rewrite Hst.
  assert (∀ D' read', (∀ j, j ∈ D' ↔ j ∈ D ∨ j = i ∧ intact (lData l) c = false) →
    runs (locateDamage env src l (S i) D' read' cs) w (λ r w', w' = w ∧
      ∀ j, j ∈ r.1 ↔ j ∈ D ∨ ∃ k c', j = (i + k)%nat ∧ (c :: cs) !! k = Some c' ∧ intact (lData l) c' = false)) as Hgo.
  { intros D' read' HD'. eapply runs_weaken; [by apply IH|]. intros r w' [-> Hr]. split; [done|]. intros j.
    rewrite Hr, HD'. split.
    - intros [[?|[-> ?]]|(k & c' & -> & ? & ?)]; [by left|right; by exists 0%nat, c; rewrite Nat.add_0_r|].
      right. exists (S k), c'. split; [lia|done].
    - intros [?|([|k] & c' & -> & ? & ?)]; [by left; left|..]; simplify_eq/=.
      + left. right. by rewrite Nat.add_0_r.
      + right. exists k, c'. split; [lia|done]. }
  destruct (readChunk (Some (lData l)) c) as [|n|bs] eqn:Hr.
  - exfalso. unfold readChunk in Hr. rewrite (proj2 (Z.ltb_ge _ _)) in Hr by done. cbn zeta in Hr.
    by destruct (_ <? _)%Z.
  - apply Hgo. intros j. unfold intact. rewrite Hr, elem_of_union, elem_of_singleton. tauto.
  - apply Hgo. intros j. unfold intact. rewrite Hr. clear.
    case_bool_decide; [|rewrite elem_of_union, elem_of_singleton; tauto].
    split; [by left|]. by intros [?|[_ ?]].
Qed.

(** The environment of a repair that can succeed: the file stays as it is between the two
    passes, staging works, and a peer serves the chunks of the blob. *)
Record helpful (content : list byte) (cs : list Chunk) : Prop := mkHelpful {
  hp_steady : steady;
  hp_stage i : stageFails src i = false;
  hp_fetch : ∃ fetch, fetches src = Some fetch ∧ ∀ i c, c ∈ cs →
    fetch i c = Got (take (Z.to_nat (Length c)) (drop (Z.to_nat (Offset c)) content)) }.

(** The reconstruction, of chunks that are intact or that a peer serves. *)
Lemma assemble_runs l D i a staged cs w fetch :
  steady → (∀ i, stageFails src i = false) → fetches src = Some fetch →
  aOutcome a = None → Forall sound_chunk cs → Forall (λ c, (0 ≤ Offset c)%Z) cs →
  (∀ k c, cs !! k = Some c → if decide ((i + k)%nat ∈ D) then ∃ bs, fetch (i + k)%nat c = Got bs ∧ part bs c
                             else intact (lData l) c = true) →
  runs (assemble env src l D i a staged cs) w (λ r w',
    w' = w ∧ aOutcome r.1 = None ∧ ∃ bs, r.2 = staged ++ bs ∧ describes cs bs).
Proof.
  intros Hst Hw Hf. revert i a staged. induction cs as [|c cs IH]; intros i a staged Ha Hall Ho Hk; cbn [assemble].
  { apply runs_ret. split_and!; [done..|]. exists []. rewrite app_nil_r. split; [done|apply describes_nil]. }
  apply Forall_cons in Hall as [Hc Hall]. apply Forall_cons in Ho as [Hco Ho].
  eapply runs_bind; [by apply (runs_ctx env Hq _ (λ _ w', w' = w))|]. intros [] ? ->. rewrite Hf, Hst.
  assert (∀ a' bs, aOutcome a' = None → part bs c →
    runs (write src i staged bs ≫= λ staged, assemble env src l D (S i) a' staged cs) w (λ r w',
      w' = w ∧ aOutcome r.1 = None ∧ ∃ bs, r.2 = staged ++ bs ∧ describes (c :: cs) bs)) as Hgo.
  { intros a' bs Ha' Hp. unfold write. rewrite Hw.
    eapply runs_bind; [by apply (runs_ret _ _ (λ r w', w' = w ∧ r = staged ++ bs))|]. intros ? ? [-> ->].
    eapply runs_weaken; [apply IH; [done..|]|].
    - intros k c' Hc'. specialize (Hk (S k) c' Hc'). by rewrite <-Nat.add_succ_comm in Hk.
    - intros r w' (-> & Hr & bs' & -> & Hd). split_and!; [done..|]. exists (bs ++ bs'). rewrite <-app_assoc.
      split; [done|]. by apply describes_cons. }
  specialize (Hk 0%nat c eq_refl). rewrite Nat.add_0_r in Hk. case_bool_decide as Hi.
  - rewrite decide_True in Hk by done. destruct Hk as (bs & -> & Hp). cbn zeta.
    destruct (Hp) as [Hl Hh]. rewrite Hl, Z.eqb_refl, (bool_decide_true (hash bs = _)) by done. cbn [negb].
    by apply Hgo.
  - rewrite decide_False in Hk by done. destruct (intact_whole _ _ Hco Hc Hk) as [-> Hp]. by apply Hgo.
Qed.

(** The bytes a repair starts from. *)
Definition localOf (key : string) (d : Disk) : option LocalBytes :=
  match files d !! key with
  | Some f => Some (mkLocal (fData f) false "")
  | None => (λ q, mkLocal q.2 true (quarantineName key q.1)) <$> newestQuarantined key d
  end.

Lemma newestQuarantined_in key d t bs : newestQuarantined key d = Some (t, bs) → quarantine d !! (key, t) = Some bs.
Proof.
  assert (∀ qs b, foldl newer b qs = Some (t, bs) → b = Some (t, bs) ∨ (t, bs) ∈ qs) as Hfold.
  { induction qs as [|q qs IH]; intros b Hb; [by left|]. destruct (IH _ Hb) as [Hn|Hin]; [|by right; right].
    destruct b as [b|]; cbn in Hn; [destruct (b.1 <? q.1)%Z|]; simplify_eq; [right; by left|by left|right; by left]. }
  intros Hn. destruct (Hfold _ _ Hn) as [?|Hin]; [done|].
  unfold quarantinedOf in Hin. apply list_elem_of_fmap in Hin as ([[h' t'] bs'] & ? & Hin).
  apply list_elem_of_filter in Hin as [Hh Hin]. apply elem_of_map_to_list in Hin. by simplify_eq/=.
Qed.

Lemma runs_see {A} act (f : World → A) w : runs (call env act (reading f)) w (λ r w', w' = w ∧ r = f w).
Proof. by apply (runs_read env Hq). Qed.

(** ... of a call that depends on the instant. *)
Lemma runs_at {A} act (f : nat → World → World * (error + A)) w (R : A → World → Prop) :
  (∀ n, ∃ w' a, f n w = (w', inr a) ∧ R a w') → runs (λ s, call env act (f (tick s)) s) w R.
Proof.
  intros Hf s Hs. destruct (Hf (tick s)) as (w' & a & E & HR). exact (runs_call env Hq act _ w w' a R E HR s Hs).
Qed.

Lemma localBytes_runs key w : runs (localBytes env key) w (λ r w', w' = w ∧ r = localOf key (disk w)).
Proof.
  unfold localBytes, localOf. eapply runs_bind; [apply runs_see|].
  intros ? ? [-> ->]. destruct (files (disk w) !! key) as [f|] eqn:Hf.
  - rewrite bool_decide_true by done.
    eapply runs_bind; [apply runs_see|]. intros ? ? [-> ->]. rewrite Hf.
    by apply runs_ret.
  - rewrite bool_decide_false by (by intros [? ?]).
    eapply runs_bind; [apply runs_see|]. intros ? ? [-> ->].
    destruct (newestQuarantined key (disk w)) as [[t bs]|] eqn:Hn; [|by apply runs_ret].
    eapply runs_bind; [apply runs_see|]. intros ? ? [-> ->].
    rewrite (newestQuarantined_in _ _ _ _ Hn). by apply runs_ret.
Qed.

(** Where a repair leaves the store: the blob holds what was staged, what it held before is
    in quarantine, and the rest of the store is as it was. *)
Definition replaced (key : string) (staged : list byte) (d d' : Disk) : Prop :=
  (fData <$> files d' !! key) = Some staged ∧ (∀ k, k ≠ key → files d' !! k = files d !! k) ∧
  temps d' = temps d ∧
  match files d !! key with
  | Some f => ∃ t, quarantine d' = <[(key, t) := fData f]> (quarantine d)
  | None => quarantine d' = quarantine d
  end.

Lemma MarkVerified_ok h at_ c :
  blobs c !! h ≠ None → peers c !! self ≠ None →
  ∃ c', MarkVerified self h at_ c = inr c' ∧ (replicaState c' h self).1 = "present".
Proof.
  intros Hb Hp. unfold MarkVerified. destruct (replicaState c h self) as [prev size]. unfold upsertReplica.
  rewrite !bool_decide_false by done. cbn [orb]. eexists. split; [done|].
  case_bool_decide; unfold replicaState; cbn; by rewrite lookup_insert_eq.
Qed.

Lemma replace_runs h m l damaged read a staged w :
  hash staged = h → localOf (Hash_String h) (disk w) = Some l →
  blobs (cat w) !! Hash_String h ≠ None → peers (cat w) !! self ≠ None →
  runs (replace env self src h m l damaged read a staged) w (λ res w',
    rOutcome res = OutcomeRepaired ∧ replaced (Hash_String h) staged (disk w) (disk w') ∧
    (replicaState (cat w') (Hash_String h) self).1 = "present").
Proof.
  intros Hh Hl Hb Hp. unfold replace. rewrite bool_decide_true by done. cbn [negb]. set (key := Hash_String h) in *.
  eapply (runs_bind _ _ _ (λ _ w', cat w' = cat w ∧ files (disk w') = delete key (files (disk w)) ∧
    temps (disk w') = temps (disk w) ∧
    match files (disk w) !! key with
    | Some f => ∃ t, quarantine (disk w') = <[(key, t) := fData f]> (quarantine (disk w))
    | None => quarantine (disk w') = quarantine (disk w)
    end)).
  { unfold localOf in Hl. destruct (files (disk w) !! key) as [f|] eqn:Hf.
    - injection Hl as <-. cbn [negb lQuarantined]. 
      apply (runs_at (AQuarantine key) (λ n w, match Quarantine key (instant src n) (disk w) with
        | inl e => (w, inl e) | inr (d, path) => (mkWorld (cat w) d, inr path) end)).
      intros n. unfold Quarantine. rewrite Hf.
      eexists _, _. split; [done|]. cbn. split_and!; [done..|]. by exists (instant src n).
    - destruct (newestQuarantined key (disk w)); [|done]. injection Hl as <-. cbn [negb lQuarantined]. apply runs_ret.
      split_and!; [done| |done..]. by rewrite delete_id. }
  intros path w1 (Hc1 & Hf1 & Ht1 & Hq1).
  eapply (runs_bind _ _ _ (λ _ w', cat w' = cat w ∧ replaced key staged (disk w) (disk w'))).
  { apply (runs_at (APublish key staged) (λ n, onDisk (Publish h staged (instant src n)))).
    intros n. unfold onDisk, Publish. fold key. rewrite bool_decide_true by done. cbn [negb]. rewrite Hf1, lookup_delete_eq. eexists _, _. split; [done|].
    cbn. split; [done|]. unfold replaced. cbn. split_and!; [by rewrite lookup_insert_eq| |done|done].
    intros k Hk. by rewrite lookup_insert_ne, lookup_delete_ne by done. }
  intros [] w2 [Hc2 Hr2]. eapply runs_bind; [by apply (runs_now _ _ (λ _ w', w' = w2))|]. intros now ? ->.
  destruct (MarkVerified_ok key now (cat w2)) as (c' & Hv & Hs'); [by rewrite Hc2..|].
  eapply (runs_bind _ _ _ (λ _ w', w' = mkWorld c' (disk w2))).
  { unfold markRepaired. eapply (runs_call env Hq); [|done]. unfold onCatalog. by rewrite Hv. }
  intros [] ? ->. by apply runs_ret.
Qed.

Definition collision : Prop := ∃ x y : list byte, x ≠ y ∧ hash x = hash y.

(** All the chunks are intact in bytes of the right length exactly when the bytes are the
    blob's. *)
Lemma intact_all content cs data :
  contiguous 0 cs → Forall sound_chunk cs → describes cs content →
  Forall (λ c, intact data c = true) cs → Z.of_nat (length data) = covered cs → data = content ∨ collision.
Proof.
  intros Hct Hall Hd Hi Hlen. pose proof (intact_describes data 0 cs ltac:(lia) Hct Hall Hi) as Hdata.
  rewrite firstn_all2 in Hdata by (rewrite length_drop; lia). by eapply describes_inj.
Qed.

Lemma content_intact content cs :
  contiguous 0 cs → Forall sound_chunk cs → describes cs content → Forall (λ c, intact content c = true) cs.
Proof.
  intros Hct Hall Hd. apply Forall_forall. intros c Hc.
  destruct (describes_slice _ _ _ _ Hct Hd Hc Hall) as [? Hp]. rewrite Z.sub_0_r in Hp. by apply part_intact.
Qed.

(** From damaged bytes: the blob is put together again and replaced. *)
Lemma rebuilt_runs h m content w l damaged read :
  contiguous 0 (Chunks m) → Forall sound_chunk (Chunks m) → Forall (λ c, (0 ≤ Offset c)%Z) (Chunks m) →
  describes (Chunks m) content → hash content = h → helpful content (Chunks m) →
  localOf (Hash_String h) (disk w) = Some l →
  blobs (cat w) !! Hash_String h ≠ None → peers (cat w) !! self ≠ None →
  (∀ j, j ∈ damaged ↔ ∃ c, Chunks m !! j = Some c ∧ intact (lData l) c = false) →
  runs ('(a, staged) ← assemble env src l damaged 0 noAssembly [] (Chunks m);
        match aOutcome a with
        | Some o => mret (ended o m (Z.of_nat (size damaged)) a read "")
        | None => replace env self src h m l (Z.of_nat (size damaged)) read a staged
        end) w (λ res w',
    rOutcome res = OutcomeRepaired ∧ replaced (Hash_String h) content (disk w) (disk w') ∧
    (replicaState (cat w') (Hash_String h) self).1 = "present" ∨ collision).
Proof.
  intros Hct Hall Ho Hd Hh [Hst Hw (fetch & Hf & Hpeer)] Hl Hb Hp Hdam. eapply runs_bind.
  { apply (assemble_runs l damaged 0 noAssembly [] (Chunks m) w fetch); [done..|]. intros k c Hc. cbn.
    destruct (decide (k ∈ damaged)) as [Hk|Hk].
    - apply list_elem_of_lookup_2 in Hc. eexists. split; [by apply Hpeer|].
      destruct (describes_slice _ _ _ _ Hct Hd Hc Hall) as [_ Hp']. by rewrite Z.sub_0_r in Hp'.
    - apply not_false_is_true. intros Hi. apply Hk, Hdam. eauto. }
  intros [a staged] ? (-> & Ha & bs & Hbs' & Hbs). cbn in Ha, Hbs' |- *. rewrite Ha, Hbs'.
  destruct (describes_inj _ _ _ Hbs Hd) as [->|Hcol].
  - eapply runs_weaken; [by apply replace_runs|]. auto.
  - destruct (decide (hash bs = h)) as [Heq|Hne].
    + eapply runs_weaken; [by apply replace_runs|]. by right.
    + unfold replace. rewrite bool_decide_false by done. apply runs_ret. by right.
Qed.

(** C6. With a manifest that describes the blob, a copy of it here or in quarantine, in any
    state, and a peer that serves its chunks, an undisturbed repair ends and the blob is
    right: bytes that are the blob's already are reported healthy and nothing is written,
    and otherwise the outcome is a repair after which the file holds the blob, what it held
    before is in quarantine, every other file is untouched and this node's replica is
    present; or the hash has a collision.  A quarantined copy that is the blob's bytes is
    "healthy" too: the world stays, so the store still has no file of that name. *)
Theorem repair_completes (h : Hash) (m : Manifest) (content : list byte) (w : World) (l : LocalBytes) :
  loads src = inr (Some m) → Manifest_Validate m = None → (covered (Chunks m) < 2 ^ 63)%Z →
  describes (Chunks m) content → hash content = h → helpful content (Chunks m) →
  localOf (Hash_String h) (disk w) = Some l →
  blobs (cat w) !! Hash_String h ≠ None → peers (cat w) !! self ≠ None →
  runs (Repair env self src h) w (λ res w',
    (if decide (lData l = content) then rOutcome res = OutcomeHealthy ∧ w' = w
     else rOutcome res = OutcomeRepaired ∧ replaced (Hash_String h) content (disk w) (disk w') ∧
       (replicaState (cat w') (Hash_String h) self).1 = "present") ∨ collision).
Proof.
  intros Hm Hv Hs Hd Hh Hhelp Hl Hb Hp.
  destruct (Manifest_Validate_shape m Hv Hs) as (Hct & Hall & Hcov).
  assert (Forall (λ c, (0 ≤ Offset c)%Z) (Chunks m)) as Ho
    by (apply Forall_forall; intros c Hc; eapply (contiguous_offsets 0); [lia|done..]).
  unfold Repair. rewrite Hm. eapply runs_bind; [by apply (runs_ret _ _ (λ r w', w' = w ∧ r = Some m))|].
  intros ? ? [-> ->]. rewrite Hv. eapply runs_bind; [apply localBytes_runs|]. intros ? ? [-> ->]. rewrite Hl.
  eapply runs_bind; [by apply locateDamage_runs; [apply Hhelp|]|]. intros [damaged read] ? [-> Hdam].
  assert (∀ j, j ∈ damaged ↔ ∃ c, Chunks m !! j = Some c ∧ intact (lData l) c = false) as Hdam'.
  { intros j. rewrite (Hdam j). split; [intros [?|(k & c & -> & ?)]; [set_solver|eauto]|].
    intros (c & ?). right. by exists j, c. }
  cbn zeta. destruct (bool_decide (damaged = ∅) && (lSize l =? CoveredSize m)%Z) eqn:Hhealthy.
  - apply runs_ret. apply andb_true_iff in Hhealthy as [He%bool_decide_eq_true Hsz%Z.eqb_eq].
    destruct (intact_all content (Chunks m) (lData l)) as [Heq|?]; [done..| |by rewrite <-Hcov| |by right].
    + apply Forall_forall. intros c Hc. apply not_false_is_true. intros Hi.
      apply list_elem_of_lookup in Hc as [j Hj]. assert (j ∈ damaged) as Hin by (apply Hdam'; eauto).
      rewrite He in Hin. by apply elem_of_empty in Hin.
    + left. by rewrite decide_True.
  - assert (lData l ≠ content) as Hne.
    { intros Heq. apply andb_false_iff in Hhealthy as [He%bool_decide_eq_false|Hsz%Z.eqb_neq].
      - apply He, set_eq. intros j. rewrite Hdam'. split; [|by intros ?%elem_of_empty]. intros (c & Hc & Hi).
        pose proof (content_intact content _ Hct Hall Hd) as Hci. rewrite Forall_forall in Hci.
        apply list_elem_of_lookup_2, Hci in Hc. congruence.
      - apply Hsz. unfold lSize. rewrite Heq, Hcov. by apply describes_length. }
    destruct (hp_fetch _ _ Hhelp) as (fetch & Hf & _).
    rewrite Hf, bool_decide_false by done. cbn [andb].
    eapply runs_weaken; [by apply rebuilt_runs|]. intros res w' [?|?]; [left; by rewrite decide_False|by right].
Qed.
End quietly.

(** ** Witnesses *)

Definition rp_key : string := @Hash_String ex_text ex_blob.

(** The blob of the example manifest, with its second chunk damaged and a byte too many. *)
Definition rp_damaged : list byte := take 9 ex_bytes ++ [x00; x01] ++ drop 11 ex_bytes ++ [x07].

Definition rp_world : World :=
  mkWorld
    (mkCatalog {[rp_key := mkRow 43 None]} [] ∅ ∅ ∅ [] ∅ [] ∅ {["me" := mkPeerRow "me" "" "healthy" "full" [] true]} [] [])
    (mkDisk {[rp_key := mkFile rp_damaged 0]} ∅ ∅).

Definition rp_env : StoreSteps.Env := StoreSteps.mkEnv (λ _ w, w) (λ _, Fine) (λ _, false) (λ _, 5%Z).
Definition rp_peer : Sources :=
  mkSources (inr (Some ex_manifest))
    (Some (λ _ c, Got (take (Z.to_nat (Length c)) (drop (Z.to_nat (Offset c)) ex_bytes))))
    (λ _ _ bs, Some bs) (λ _, false) Z.of_nat.
Definition rp_st : St := mkSt rp_world 0 [].

Lemma rp_quiet : quiet rp_env.
Proof. done. Qed.

Lemma repair_order_witness :
  ∃ s' res, @Repair ex_hash ex_text rp_env "me" rp_peer ex_blob rp_st = (s', inr res) ∧
    rOutcome res = OutcomeRepaired ∧ ChunksFetched res = 1%Z ∧ @repairedThen ex_hash ex_text ex_blob [] (trace s').
Proof.
  pose proof (@repair_order ex_hash ex_text rp_env "me" rp_peer ex_blob rp_st eq_refl) as Ho.
  assert ((λ r, match r with inr res => (rOutcome res, ChunksFetched res) | inl _ => (OutcomeFailed, 0%Z) end)
    (@Repair ex_hash ex_text rp_env "me" rp_peer ex_blob rp_st).2 = (OutcomeRepaired, 1%Z)) as Hc
    by (vm_compute; reflexivity).
  destruct (@Repair ex_hash ex_text rp_env "me" rp_peer ex_blob rp_st) as [s' [e|res]]; cbn [snd] in Hc; [discriminate Hc|].
  injection Hc as Hout Hn. exists s', res. split; [reflexivity|]. split; [exact Hout|]. split; [exact Hn|].
  destruct Ho as [_ Ho]. rewrite Hout in Ho. exact Ho.
Defined.

Lemma rp_helpful : helpful rp_peer ex_bytes (Chunks ex_manifest).
Proof. split; [done|done|]. eexists. by split. Qed.

Lemma repair_completes_witness :
  runs (@Repair ex_hash ex_text rp_env "me" rp_peer ex_blob) rp_world (λ res w',
    (rOutcome res = OutcomeRepaired ∧ replaced rp_key ex_bytes (disk rp_world) (disk w') ∧
      (replicaState (cat w') rp_key "me").1 = "present") ∨ @collision ex_hash).
Proof.
  refine (runs_weaken _ _ _ _ (@repair_completes ex_hash ex_text rp_env rp_quiet "me" rp_peer ex_blob ex_manifest
    ex_bytes rp_world (mkLocal rp_damaged false "") _ _ _ ex_describes _ rp_helpful _ _ _) _).
  - reflexivity.
  - vm_compute; reflexivity.
  - vm_compute; reflexivity.
  - reflexivity.
  - vm_compute; reflexivity.
  - vm_compute; discriminate.
  - vm_compute; discriminate.
  - intros res w' [Hr|Hcol]; [left|right; exact Hcol].
    destruct (decide _) as [Heq|_]; [vm_compute in Heq; discriminate|exact Hr].
Defined.
