(* ===== verification/Transfers.v ===== *)
(** * Transfers: what must move, and from whom

    Models internal/domain/transfer/session.go (the order sources are tried in) and
    internal/domain/replication (replication.go, transfer.go, job.go): which blobs a peer
    lacks, the jobs that close the gaps, and the peers a destination may pull from. *)

From S2P Require Import Prelude GoText.
From Stdlib Require Import Strings.Byte.

(** ** Transfer sessions (session.go) *)

Abbreviation Kind := string (only parsing).
Definition KindPeer : Kind := "peer".
Definition KindWebSeed : Kind := "web_seed".
Definition KindExternal : Kind := "external".

Definition HealthReachable : string := "reachable".
Definition HealthUnknown : string := "unknown".
Definition HealthUnreachable : string := "unreachable".

Abbreviation Urgency := string (only parsing).
Definition UrgencyInteractive : Urgency := "interactive".
Definition UrgencyBackground : Urgency := "background".

Record Source := mkSource { ID : string; SourceKind : Kind; SourceHealth : string }.

Record Session := mkSession { Target : string; Sources : list Source; SessionUrgency : Urgency }.

Inductive error := ErrNoSource | ErrSourceNotPinnable | ErrSourceUnreachable.

Definition healthRank (state : string) : Z :=
  if bool_decide (state = HealthReachable) then 0
  else if bool_decide (state = HealthUnreachable) then 2
  else 1.

Definition kindRank (k : Kind) : Z :=
  if bool_decide (k = KindPeer) then 0
  else if bool_decide (k = KindWebSeed) then 1
  else if bool_decide (k = KindExternal) then 2
  else 3.

Definition urgency (s : Session) : Urgency :=
  if bool_decide (SessionUrgency s = "") then UrgencyBackground else SessionUrgency s.

(** Whether the loop of [Plan] keeps a source. *)
Definition keeps (s : Session) (src : Source) : bool :=
  negb (bool_decide (ID src = "") || bool_decide (SourceKind src = ""))
  && negb (bool_decide (urgency s = UrgencyInteractive) && bool_decide (SourceHealth src = HealthUnreachable)).

Definition source_less : Source → Source → bool :=
  lex_less (λ s, healthRank (SourceHealth s)) Z.ltb
    (lex_less (λ s, kindRank (SourceKind s)) Z.ltb (key_less ID str_lt)).

Definition Plan (s : Session) : error + list Source :=
  let out := filter (λ src, keeps s src = true) (Sources s) in
  if bool_decide (out = []) then inl ErrNoSource else inr (sort_by source_less out).

(** ** Peer convergence (replication.go, job.go) *)

Definition ModeFull : string := "full".

Record Peer := mkPeer { PeerIDOf : string; Mode : string }.
Record Gap := mkGap { BlobHash : string; PeerID : string }.

#[export] Instance Gap_eq_dec : EqDecision Gap.
Proof. solve_decision. Defined.

Definition DedupeKey (g : Gap) : string := "replicate:" +:+ BlobHash g +:+ ":" +:+ PeerID g.

Definition ReconcilePeerDedupeKey : string := "reconcile:peer".
Definition ScopedReconcilePeerDedupeKey (peerID : string) : string :=
  if bool_decide (peerID = "") then ReconcilePeerDedupeKey else ReconcilePeerDedupeKey +:+ ":" +:+ peerID.

Definition DesiredBlobSet (p : Peer) (canonical : list string) : list string :=
  if negb (bool_decide (Mode p = ModeFull)) then [] else canonical.

(** An absent peer holds nothing. *)
Abbreviation Holdings := (gmap string (gset string)) (only parsing).
Definition holds (held : Holdings) (peer hash : string) : bool := bool_decide (hash ∈ default ∅ (held !! peer)).

Definition gap_less : Gap → Gap → bool := lex_less BlobHash str_lt (key_less PeerID str_lt).

(** The gaps of one peer, in the order of the canonical set. *)
Definition gapsOf (canonical : list string) (held : Holdings) (p : Peer) : list Gap :=
  (λ h, mkGap h (PeerIDOf p)) <$> filter (λ h, holds held (PeerIDOf p) h = false) (DesiredBlobSet p canonical).

Definition Diff (peers : list Peer) (canonical : list string) (held : Holdings) : list Gap :=
  sort_by gap_less (concat (gapsOf canonical held <$> peers)).

(** The slice taken and how many were left. *)
Definition Bound (gaps : list Gap) (limit : Z) : list Gap * Z :=
  if (limit <=? 0)%Z || (Z.of_nat (length gaps) <=? limit)%Z then (gaps, 0%Z)
  else (take (Z.to_nat limit) gaps, Z.of_nat (length gaps) - limit)%Z.

(** ** The source of a transfer (transfer.go) *)

Record PeerSource := mkPeerSource {
  SourcePeerID : string; Name : string; Endpoint : string; PublicKey : list byte; Health : string }.

Definition Usable (s : PeerSource) : option error :=
  if bool_decide (PublicKey s = []) then Some ErrSourceNotPinnable
  else if bool_decide (Endpoint s = "") then Some ErrSourceUnreachable
  else None.

Definition usable (c : PeerSource) : bool := bool_decide (Usable c = None).

(** A later candidate of one id replaces the earlier ones. *)
Definition byID (cs : list PeerSource) : gmap string PeerSource :=
  foldl (λ m c, <[SourcePeerID c := c]> m) ∅ cs.

Definition zeroSource : PeerSource := mkPeerSource "" "" "" [] "".

Definition asSource (c : PeerSource) : Source := mkSource (SourcePeerID c) KindPeer (Health c).

Definition RankSources (candidates : list PeerSource) : list PeerSource :=
  let us := filter (λ c, usable c = true) candidates in
  match Plan (mkSession "" (asSource <$> us) UrgencyBackground) with
  | inl _ => []
  | inr plan => (λ p, default zeroSource (byID us !! ID p)) <$> plan
  end.
