(* ===== verification/TransfersSpec.v ===== *)
(** * TransfersSpec: the theorems of Transfers.v

    The order of the sources does not depend on how they were listed; reconciliation emits
    exactly what is missing, never a gap that has closed, and ends. *)

From S2P Require Import Prelude GoText Transfers.
From Stdlib Require Import Strings.Byte.

#[export] Instance source_less_weak : StrictWeak source_less.
Proof. unfold source_less. apply _. Qed.

#[export] Instance gap_less_weak : StrictWeak gap_less.
Proof. unfold gap_less. apply _. Qed.

(** ** Sources *)

(** What the order looks at. *)
Definition rankOf (s : Source) : Z * Z * string := (healthRank (SourceHealth s), kindRank (SourceKind s), ID s).

Lemma source_less_tie x y : source_less x y = false → source_less y x = false → rankOf x = rankOf y.
Proof.
  intros H1 H2. destruct (lex_incomparable _ _ _ _ _ H1 H2) as (Hh & H3 & H4).
  destruct (lex_incomparable _ _ _ _ _ H3 H4) as (Hk & H5 & H6).
  unfold rankOf. by rewrite Hh, Hk, (key_incomparable _ _ _ _ H5 H6).
Qed.

Lemma NoDup_fmap_eq {A B} (f : A → B) l x y : NoDup (f <$> l) → x ∈ l → y ∈ l → f x = f y → x = y.
Proof.
  induction l as [|a l IH]; [set_solver|]. rewrite fmap_cons, NoDup_cons. intros [Ha Hl].
  intros [->|Hx]%elem_of_cons [->|Hy]%elem_of_cons Hf; [done| | |by apply IH].
  - exfalso. apply Ha. rewrite Hf. by apply list_elem_of_fmap_2.
  - exfalso. apply Ha. rewrite <-Hf. by apply list_elem_of_fmap_2.
Qed.

(** A session has a plan exactly when it has a usable source; the plan is every usable
    source, each tried once, so that an earlier one is never worse by health, then kind,
    then id; for an interactive session none of them was last seen unreachable, and for
    any other a known-dead source is still tried; and two sessions that list the same
    sources in different orders try them in the same order. *)
Theorem plan_order (s : Session) :
  let usable := filter (λ src, keeps s src = true) (Sources s) in
  match Plan s with
  | inl e => e = ErrNoSource ∧ usable = []
  | inr out =>
      out ≡ₚ usable ∧ StronglySorted (λ x y, source_less y x = false) out ∧
      (urgency s = UrgencyInteractive → ∀ x, x ∈ out → SourceHealth x ≠ HealthUnreachable) ∧
      (urgency s ≠ UrgencyInteractive → ∀ x, x ∈ Sources s → ID x ≠ "" → SourceKind x ≠ "" → x ∈ out) ∧
      ∀ l, NoDup (rankOf <$> Sources s) → l ≡ₚ Sources s →
        Plan (mkSession (Target s) l (SessionUrgency s)) = inr out
  end.
Proof.
  cbv zeta. unfold Plan. set (us := filter _ (Sources s)). case_bool_decide as He; [done|].
  assert (∀ x, x ∈ sort_by source_less us ↔ keeps s x = true ∧ x ∈ Sources s) as Hin.
  { intros x. rewrite elem_of_sort_by. unfold us. by rewrite list_elem_of_filter. }
  split_and!.
  - apply (sort_by_perm source_less).
  - apply (sort_by_sorted source_less).
  - intros Hu x [Hk _]%Hin Hh. unfold keeps in Hk.
    apply andb_true_iff in Hk as [_ Hk%negb_true_iff%andb_false_iff].
    rewrite !bool_decide_eq_false in Hk. by destruct Hk.
  - intros Hu x Hx Hi Hk. apply Hin. split; [|done]. unfold keeps.
    rewrite (bool_decide_false (ID x = "")), (bool_decide_false (SourceKind x = "")),
      (bool_decide_false (urgency s = _)) by done. done.
  - intros l Hnd Hl. cbn [Sources SessionUrgency].
    assert (filter (λ src, keeps s src = true) l ≡ₚ us) as Hp by (by apply filter_Permutation).
    change (λ src, keeps (mkSession (Target s) l (SessionUrgency s)) src = true) with (λ src, keeps s src = true).
    rewrite bool_decide_false by (intros Hn; apply He, Permutation_nil_r; rewrite <-Hp; by apply Permutation_nil_r).
    f_equal. transitivity (sort_by source_less (filter (λ src, keeps s src = true) l)); [done|].
    apply (sort_by_perm_eq source_less); [|by symmetry].
    intros x y Hx Hy H1 H2. apply (NoDup_fmap_eq rankOf (Sources s)); [done| | |by apply source_less_tie].
    + by apply list_elem_of_filter in Hx as [_ ?].
    + by apply list_elem_of_filter in Hy as [_ ?].
Qed.

Lemma byID_lookup cs c : NoDup (SourcePeerID <$> cs) → c ∈ cs → byID cs !! SourcePeerID c = Some c.
Proof.
  unfold byID. induction cs as [|x cs IH] using rev_ind; [set_solver|].
  rewrite fmap_app, foldl_app. intros (Hl & Hx & _)%NoDup_app Hc. cbn.
  apply elem_of_app in Hc as [Hc|Hc%list_elem_of_singleton]; [|subst c; by rewrite lookup_insert_eq].
  rewrite lookup_insert_ne; [by apply IH|]. intros He. apply (Hx (SourcePeerID c)); [by apply list_elem_of_fmap_2|].
  rewrite <-He. by constructor.
Qed.


(** A candidate the session can name. *)
Definition eligible (c : PeerSource) : bool := usable c && negb (bool_decide (SourcePeerID c = "")).

Definition peer_before : PeerSource → PeerSource → bool := key_less asSource source_less.

#[export] Instance peer_before_weak : StrictWeak peer_before.
Proof. unfold peer_before. apply _. Qed.

Lemma filter_fmap_keep {A B} (f : A → B) (p : B → bool) (l : list A) :
  filter (λ y, p y = true) (f <$> l) = f <$> filter (λ x, p (f x) = true) l.
Proof. induction l as [|x l IH]; [done|]. rewrite fmap_cons, !filter_cons. by destruct (p (f x)); cbn; rewrite IH. Qed.

Lemma filter_filter_and {A} (p q : A → bool) (l : list A) :
  filter (λ x, q x = true) (filter (λ x, p x = true) l) = filter (λ x, p x && q x = true) l.
Proof.
  induction l as [|x l IH]; [done|]. rewrite !filter_cons.
  destruct (p x); cbn [andb]; [|by rewrite !decide_False by done].
  rewrite decide_True, filter_cons, IH by done. done.
Qed.

Lemma StronglySorted_fmap {A B} (f : A → B) (R : B → B → Prop) l :
  StronglySorted (λ x y, R (f x) (f y)) l → StronglySorted R (f <$> l).
Proof.
  induction 1 as [|x l Hl IH Hx]; cbn; constructor; [done|]. by apply Forall_fmap.
Qed.

Lemma StronglySorted_impl_in {A} (R R' : A → A → Prop) l :
  NoDup l → (∀ x y, x ∈ l → y ∈ l → x ≠ y → R x y → R' x y) → StronglySorted R l → StronglySorted R' l.
Proof.
  intros Hnd HR Hl. induction Hl as [|x l Hl IH Hx]; [constructor|].
  apply NoDup_cons in Hnd as [Hn Hnd]. constructor.
  - apply IH; [done|]. intros a b Ha Hb. apply HR; by right.
  - rewrite Forall_forall in Hx |- *. intros y Hy. apply HR; [left|by right|congruence|by apply Hx].
Qed.

(** Two candidates that tie are one, as the ids are distinct. *)
Lemma peer_tie cs x y :
  NoDup (SourcePeerID <$> cs) → x ∈ cs → y ∈ cs →
  peer_before x y = false → peer_before y x = false → x = y.
Proof.
  intros Hnd Hx Hy H1 H2. apply (NoDup_fmap_eq SourcePeerID cs); [done..|].
  by injection (source_less_tie _ _ H1 H2).
Qed.

Lemma RankSources_eq cs :
  NoDup (SourcePeerID <$> cs) → RankSources cs = sort_by peer_before (filter (λ c, eligible c = true) cs).
Proof.
  intros Hnd. unfold RankSources. set (us := filter (λ c, usable c = true) cs).
  set (es := filter (λ c, eligible c = true) cs).
  assert (filter (λ src, keeps (mkSession "" (asSource <$> us) UrgencyBackground) src = true) (asSource <$> us)
          = asSource <$> es) as Hk.
  { rewrite filter_fmap_keep. f_equal. unfold us, es, eligible. rewrite <-filter_filter_and.
    apply list_filter_iff. intros c. unfold keeps. cbn.
    rewrite (bool_decide_false (KindPeer = "")), (bool_decide_false (urgency _ = _)) by done.
    by rewrite andb_false_l, andb_true_r, orb_false_r. }
  unfold Plan. cbn [Sources]. rewrite Hk. case_bool_decide as He.
  { apply fmap_nil_inv in He. by rewrite He. }
  assert (sort_by source_less (asSource <$> es) = asSource <$> sort_by peer_before es) as ->.
  { symmetry. apply (sort_by_unique source_less).
    - intros x y (a & -> & Ha)%list_elem_of_fmap (b & -> & Hb)%list_elem_of_fmap H1 H2. f_equal.
      apply list_elem_of_filter in Ha as [_ Ha], Hb as [_ Hb]. by eapply peer_tie.
    - by rewrite (sort_by_perm peer_before).
    - apply StronglySorted_fmap, (sort_by_sorted peer_before). }
  rewrite <-list_fmap_compose. rewrite <-(list_fmap_id (sort_by peer_before es)) at 2.
  apply list_fmap_ext. intros i c Hi%list_elem_of_lookup_2. cbn.
  rewrite (elem_of_sort_by peer_before) in Hi. apply list_elem_of_filter in Hi as [Hu Hc].
  unfold eligible in Hu. apply andb_true_iff in Hu as [Hu _].
  rewrite (byID_lookup us); [done| |by apply list_elem_of_filter].
  by apply NoDup_fmap_filter.
Qed.

(** The peers a destination pulls from are those with a key to pin and an address to dial,
    each once: the reachable before the unknown before the unreachable, by id within a
    class, however they were listed; a known-dead peer comes last and is not left out. *)
Theorem rank_sources (cs : list PeerSource) :
  NoDup (SourcePeerID <$> cs) →
  RankSources cs ≡ₚ filter (λ c, eligible c = true) cs ∧
  (∀ c, eligible c = true ↔ PublicKey c ≠ [] ∧ Endpoint c ≠ "" ∧ SourcePeerID c ≠ "") ∧
  StronglySorted (λ x y, healthRank (Health x) < healthRank (Health y) ∨
    healthRank (Health x) = healthRank (Health y) ∧ str_lt (SourcePeerID x) (SourcePeerID y) = true)%Z (RankSources cs) ∧
  ∀ l, l ≡ₚ cs → RankSources l = RankSources cs.
Proof.
  intros Hnd. rewrite RankSources_eq by done. split_and!.
  - apply (sort_by_perm peer_before).
  - intros c. unfold eligible, usable, Usable. repeat case_bool_decide; naive_solver.
  - apply (StronglySorted_impl_in (not_after peer_before)); [|intros x y Hx Hy Hne Hxy|apply (sort_by_sorted peer_before)].
    + apply (NoDup_sort_by peer_before), (NoDup_filter _). by eapply NoDup_fmap_1.
    + assert (peer_before x y = true) as Hlt.
      { destruct (peer_before x y) eqn:E; [done|]. exfalso. apply Hne.
        apply (elem_of_sort_by peer_before), list_elem_of_filter in Hx as [_ Hx], Hy as [_ Hy]. by eapply peer_tie. }
      revert Hlt. unfold peer_before, key_less, source_less, lex_less. cbn.
      repeat case_decide; rewrite ?Z.ltb_lt; auto.
  - intros l Hl. rewrite RankSources_eq by (by rewrite Hl). apply (sort_by_perm_eq peer_before).
    + intros x y Hx Hy. apply list_elem_of_filter in Hx as [_ Hx], Hy as [_ Hy]. by eapply peer_tie.
    + by rewrite Hl.
Qed.

Definition ex_source (id health : string) (key : list byte) : PeerSource :=
  mkPeerSource id id "10.0.0.1:8443" key health.

(** A dead peer, a live one, one without a key. *)
Definition ex_sources : list PeerSource :=
  [ex_source "p1" "unreachable" [Byte.x01]; ex_source "p2" "reachable" [Byte.x02]; ex_source "p3" "reachable" []].

Lemma rank_sources_witness :
  SourcePeerID <$> RankSources ex_sources = ["p2"; "p1"] ∧ RankSources (reverse ex_sources) = RankSources ex_sources.
Proof.
  split; [by vm_compute|]. apply (rank_sources ex_sources); [|apply reverse_Permutation].
  apply (bool_decide_unpack _). by vm_compute.
Defined.
