(* ===== verification/Converge.v ===== *)
(** * Converge: which blobs a peer is missing, by the catalog

    Models the planning half of internal/persistence/catalog/convergence.go with
    requiredPeers (reconcile.go) and AllPlacementPins (placementpins.go): queries over the
    tables of BlobCatalog.v, the diff of Transfers.v, and the placement pins unioned on
    top.  The node's configuration and its local store are a record ([Node]). *)

From S2P Require Import Prelude GoText GoPath BlobCatalog Transfers.
From Stdlib Require Import Strings.Byte.

(** ** The queries *)

Definition full_peers (c : Catalog) : list (string * PeerRow) :=
  filter (λ ir, prMode ir.2 = ModeFull) (map_to_list (peers c)).

(** The Full Peers by id, and whether the only one is this node. *)
Definition requiredPeers (c : Catalog) : list string * bool :=
  let rows := full_peers c in
  (sort_by str_lt (fst <$> rows),
   (length rows =? 1)%nat && (length (filter (λ ir, prSelf ir.2 = true) rows) =? 1)%nat).

Definition AllPlacementPins (c : Catalog) : list (string * string) :=
  sort_by (lex_less fst str_lt (key_less snd str_lt)) (elements (pins c)).

Definition taken_set (c : Catalog) : gset string := set_map snd (placements c).

Definition takenPlacementHashes (c : Catalog) : list string := sort_by str_lt (elements (taken_set c)).

Definition pinnedBlobsKnown (c : Catalog) : gset string :=
  filter (λ h, Known c h = true) (set_map fst (pins c) ∪ taken_set c).

Definition addHolding (held : Holdings) (peer hash : string) : Holdings :=
  <[peer := {[hash]} ∪ default ∅ (held !! peer)]> held.

Definition presentReplicas (c : Catalog) : Holdings :=
  foldl (λ held kr, if bool_decide (rrState kr.2 = "present") then addHolding held kr.1.2 kr.1.1 else held)
    ∅ (map_to_list (replicas c)).

(** ** The placement pins *)

(** What a node knows of itself: its id, its configured siblings, whether a text is a
    digest, and its content store, which may fail to answer. *)
Record Node := mkNode {
  nSelf : string; placementSiblings : list string; parses : string → bool;
  localStore : option (string → BlobCatalog.error + bool) }.

Definition lackedBy (held : Holdings) (full : gset string) (peers : list string) (blob : string) : bool :=
  existsb (λ p, bool_decide (p ∈ full) && negb (holds held p blob)) peers.

Definition heldElsewhere (held : Holdings) (self blob : string) : bool :=
  existsb (λ pb : string * gset string, negb (bool_decide (pb.1 = self)) && bool_decide (blob ∈ pb.2)) (map_to_list held).

(** The counts, the blobs already offered, the pairs already planned, and the gaps. *)
Record PinState := mkPins {
  pMissing : nat; pOffered : nat; pOfferedBlobs : list string;
  offeredSeen : gset string; already : gset string; pOut : list Gap }.

Definition nul : ascii := Ascii.zero.
Definition pairKey (h p : string) : string := h +:+ String nul p.

Definition countMissing (s : PinState) : PinState :=
  mkPins (S (pMissing s)) (pOffered s) (pOfferedBlobs s) (offeredSeen s) (already s) (pOut s).
Definition countOffered (s : PinState) : PinState :=
  mkPins (pMissing s) (S (pOffered s)) (pOfferedBlobs s) (offeredSeen s) (already s) (pOut s).
Definition offer (h : string) (s : PinState) : PinState :=
  if bool_decide (h ∈ offeredSeen s) then s
  else mkPins (pMissing s) (pOffered s) (pOfferedBlobs s ++ [h]) ({[h]} ∪ offeredSeen s) (already s) (pOut s).
Definition plan_gap (h p : string) (s : PinState) : PinState :=
  if bool_decide (pairKey h p ∈ already s) then s
  else mkPins (pMissing s) (pOffered s) (pOfferedBlobs s) (offeredSeen s)
         ({[pairKey h p]} ∪ already s) (pOut s ++ [mkGap h p]).

Section pinning.
Context (n : Node) (full : gset string) (held : Holdings) (taken known : gset string).

(** A blob with no row: whether the store holds it, when there is one to ask. *)
Definition confirms (h : string) : BlobCatalog.error + bool :=
  match localStore n with
  | None => inr true
  | Some has => if parses n h then has h else inr false
  end.

Definition pinStep (s : PinState) (pin : string * string) : BlobCatalog.error + PinState :=
  let '(h, p) := pin in
  let self := nSelf n in
  if negb (bool_decide (p = self)) then
    inr (if holds held self h then
           let s := countOffered s in
           if bool_decide (p ∈ full) && negb (holds held p h) then offer h s else s
         else s)
  else
    let s :=
      if holds held self h && negb (bool_decide (placementSiblings n = []))
         && negb (bool_decide (h ∈ taken)) && lackedBy held full (placementSiblings n) h
      then offer h s else s in
    if negb (bool_decide (p ∈ full)) then inr s
    else if holds held p h then inr s
    else if bool_decide (h ∈ taken) && negb (heldElsewhere held self h) then inr (countMissing s)
    else if bool_decide (h ∈ known) then inr (plan_gap h p s)
    else match confirms h with
         | inl e => inl e
         | inr false => inr (countMissing s)
         | inr true => inr (plan_gap h p s)
         end.

Fixpoint pinLoop (s : PinState) (pins : list (string * string)) : BlobCatalog.error + PinState :=
  match pins with
  | [] => inr s
  | p :: pins => match pinStep s p with inl e => inl e | inr s => pinLoop s pins end
  end.
End pinning.

Definition gapKey (g : Gap) : string := pairKey (BlobHash g) (PeerID g).

(** Every pin, a blob taken from a sibling being a pin to this node. *)
Definition allPins (n : Node) (c : Catalog) : list (string * string) :=
  AllPlacementPins c ++ ((λ h, (h, nSelf n)) <$> takenPlacementHashes c).

Definition noPins (have : list Gap) : PinState := mkPins 0 0 [] ∅ (list_to_set (gapKey <$> have)) [].

Definition pinGaps (n : Node) (c : Catalog) (required : list string) (held : Holdings) (have : list Gap) :
    BlobCatalog.error + PinState :=
  let pins := allPins n c in
  if bool_decide (pins = []) then inr (noPins have)
  else pinLoop n (list_to_set required) held (list_to_set (takenPlacementHashes c)) (pinnedBlobsKnown c)
         (noPins have) pins.

(** ** The plan of one cycle *)

Record PeerConvergence := mkPlan {
  Scope : string; PlanPeers : list string; Desired : nat; Gaps : list Gap;
  Missing : nat; Offered : nat; OfferedBlobs : list string }.

Definition inScope (scope : string) (required : list string) : list string :=
  if bool_decide (scope = "") then required else filter (λ id, id = scope) required.

Definition PlanPeerConvergence (n : Node) (c : Catalog) (scope : string) : BlobCatalog.error + PeerConvergence :=
  let required := inScope scope (requiredPeers c).1 in
  if bool_decide (required = []) then inr (mkPlan scope required 0 [] 0 0 [])
  else
    let canonical := canonicalBlobs c in
    let held := presentReplicas c in
    let gaps := Diff ((λ id, mkPeer id ModeFull) <$> required) canonical held in
    match pinGaps n c required held gaps with
    | inl e => inl e
    | inr s =>
        let gaps := if bool_decide (pOut s = []) then gaps else sort_by gap_less (gaps ++ pOut s) in
        inr (mkPlan scope required (length canonical) gaps (pMissing s) (pOffered s) (pOfferedBlobs s))
    end.

(** ** The record of one cycle *)

Record PeerReconcileSummary := mkSummary {
  sScope : string; sPeers : nat; sDesired : nat; UnderReplicated : nat;
  InFlight : nat; Enqueued : nat; Deferred : Z; sMissing : nat }.

Definition RecordPeerReconciled (n : Node) (s : PeerReconcileSummary) (c : Catalog) : Catalog :=
  let scope := if bool_decide (sScope s = "") then "fabric" else sScope s in
  emit [SyncReconciled (nSelf n) scope
          [Z.of_nat (sPeers s); Z.of_nat (sDesired s); Z.of_nat (UnderReplicated s); Z.of_nat (InFlight s);
           Z.of_nat (Enqueued s); Deferred s; Z.of_nat (sMissing s)]] c.
