(* ===== verification/ConvergeSpec.v ===== *)
(** * ConvergeSpec: the theorems of the convergence plan

    What one cycle plans is what this node wants somewhere and nobody holds there, in one
    order, each gap once; and the blobs it offers are those another peer is about to pull. *)

From S2P Require Import Prelude GoText GoPath BlobCatalog Transfers TransfersSpec Converge.
From Stdlib Require Import Strings.Byte.

(** ** The diff *)

#[export] Instance gap_less_total : StrictTotal gap_less.
Proof.
  split; [apply _|]. intros [h p] [h' p'] H1 H2.
  destruct (lex_incomparable _ _ _ _ _ H1 H2) as (Hh & H3 & H4). cbn in Hh. subst h'.
  pose proof (key_incomparable _ _ _ _ H3 H4) as Hp. by cbn in Hp; subst.
Qed.

Lemma elem_of_Diff ps canonical held g :
  g ∈ Diff ps canonical held ↔
  ∃ p, p ∈ ps ∧ Mode p = ModeFull ∧ PeerIDOf p = PeerID g ∧ BlobHash g ∈ canonical ∧
    holds held (PeerID g) (BlobHash g) = false.
Proof.
  unfold Diff. rewrite elem_of_sort_by, list_elem_of_In, in_concat. split.
  - intros (l & Hl%list_elem_of_In & Hg%list_elem_of_In). apply list_elem_of_fmap in Hl as (p & -> & Hp).
    unfold gapsOf, DesiredBlobSet in Hg. apply list_elem_of_fmap in Hg as (h & -> & Hh).
    apply list_elem_of_filter in Hh as [Hh Hin]. case_bool_decide as Hm; [|by apply elem_of_nil in Hin].
    exists p. by split_and!.
  - intros (p & Hp & Hm & Hid & Hc & Hh). exists (gapsOf canonical held p). split.
    + by apply list_elem_of_In, list_elem_of_fmap_2.
    + apply list_elem_of_In, list_elem_of_fmap. exists (BlobHash g). split; [by destruct g; cbn in *; subst|].
      apply list_elem_of_filter. rewrite Hid. split; [done|]. unfold DesiredBlobSet. by rewrite bool_decide_true.
Qed.

Lemma NoDup_Diff ps canonical held :
  NoDup (PeerIDOf <$> ps) → NoDup canonical → NoDup (Diff ps canonical held).
Proof.
  intros Hps Hc. unfold Diff. apply NoDup_sort_by.
  assert (∀ p g, g ∈ gapsOf canonical held p → PeerID g = PeerIDOf p) as Hid.
  { intros p g Hg. unfold gapsOf in Hg. by apply list_elem_of_fmap in Hg as (h & -> & _). }
  induction ps as [|p ps IH]; cbn; [constructor|]. cbn in Hps. apply NoDup_cons in Hps as [Hp Hps].
  apply NoDup_app. split_and!; [| |by apply IH].
  - unfold gapsOf. apply (NoDup_fmap_2_strong _); [intros x y _ _ H; by injection H|].
    apply NoDup_filter. unfold DesiredBlobSet. by case_bool_decide; [|constructor].
  - intros g Hg Hin%list_elem_of_In. apply in_concat in Hin as (l & Hl%list_elem_of_In & Hgl%list_elem_of_In).
    apply list_elem_of_fmap in Hl as (p' & -> & Hp'). apply Hp.
    rewrite <-(Hid p g Hg), (Hid p' g Hgl). by apply list_elem_of_fmap_2.
Qed.

(** ** The queries *)

Definition present (c : Catalog) (h p : string) : Prop :=
  ∃ r, replicas c !! (h, p) = Some r ∧ rrState r = "present".

Definition desired (c : Catalog) (h : string) : Prop := ∃ a, a ∈ assets c ∧ liveBlob a = Some h.

Definition fullPeer (c : Catalog) (p : string) : Prop := ∃ r, peers c !! p = Some r ∧ prMode r = ModeFull.

Lemma elem_of_canonicalBlobs c h : h ∈ canonicalBlobs c ↔ desired c h.
Proof.
  unfold canonicalBlobs. rewrite elem_of_sort_by, elem_of_elements, elem_of_list_to_set, list_elem_of_omap.
  done.
Qed.

Lemma NoDup_canonicalBlobs c : NoDup (canonicalBlobs c).
Proof. unfold canonicalBlobs. apply NoDup_sort_by, NoDup_elements. Qed.

Lemma elem_of_required c p : p ∈ (requiredPeers c).1 ↔ fullPeer c p.
Proof.
  cbn. rewrite elem_of_sort_by, list_elem_of_fmap. unfold full_peers, fullPeer. split.
  - intros ([i r] & -> & Hin). apply list_elem_of_filter in Hin as [Hm Hin%elem_of_map_to_list]. eauto.
  - intros (r & Hr & Hm). exists (p, r). split; [done|]. apply list_elem_of_filter. by rewrite elem_of_map_to_list.
Qed.

Lemma NoDup_required c : NoDup (requiredPeers c).1.
Proof.
  cbn. apply NoDup_sort_by. unfold full_peers. apply NoDup_fmap_filter, NoDup_fst_map_to_list.
Qed.

Lemma holds_addHolding held p h p' h' :
  holds (addHolding held p h) p' h' = bool_decide (p' = p ∧ h' = h) || holds held p' h'.
Proof.
  unfold holds, addHolding. apply eq_true_iff_eq. rewrite orb_true_iff, !bool_decide_eq_true.
  destruct (decide (p' = p)) as [->|Hne]; [rewrite lookup_insert_eq|rewrite lookup_insert_ne by done; tauto].
  cbn. rewrite elem_of_union, elem_of_singleton. tauto.
Qed.

Lemma holds_presentReplicas c p h : holds (presentReplicas c) p h = true ↔ present c h p.
Proof.
  unfold presentReplicas, present. set (f := λ held kr, _).
  assert (∀ l held, holds (foldl f held l) p h = true ↔
    holds held p h = true ∨ ∃ r, ((h, p), r) ∈ l ∧ rrState r = "present") as Hf.
  { intros l. induction l as [|[[h' p'] r] l IH]; intros held; cbn [foldl].
    - split; [by left|]. intros [?|(r & Hr & _)]; [done|]. by apply elem_of_nil in Hr.
    - rewrite IH. unfold f at 1. cbn [fst snd]. case_bool_decide as Hs.
      + rewrite holds_addHolding, orb_true_iff, bool_decide_eq_true. split.
        * intros [[[-> ->]|?]|(r' & Hr' & ?)]; [right; exists r; by split; [left|]|by left|].
          right. exists r'. by split; [right|].
        * intros [?|(r' & [Hr'|Hr']%elem_of_cons & ?)]; [by left; right|by simplify_eq; left; left|].
          right. eauto.
      + split; [intros [?|(r' & ? & ?)]; [by left|right; exists r'; by split; [right|]]|].
        intros [?|(r' & [Hr'|Hr']%elem_of_cons & ?)]; [by left|by simplify_eq|right; eauto]. }
  rewrite Hf. unfold holds at 1. rewrite lookup_empty. cbn. rewrite bool_decide_eq_true.
  setoid_rewrite elem_of_map_to_list. set_solver.
Qed.

Lemma not_holds c p h : holds (presentReplicas c) p h = false ↔ ¬ present c h p.
Proof. rewrite <-holds_presentReplicas. by destruct (holds _ _ _). Qed.

Lemma heldElsewhere_spec held self h :
  heldElsewhere held self h = true ↔ ∃ p, p ≠ self ∧ holds held p h = true.
Proof.
  unfold heldElsewhere, holds. rewrite existsb_exists. split.
  - intros ([p s] & Hin & H). apply list_elem_of_In, elem_of_map_to_list in Hin. cbn in H.
    apply andb_true_iff in H as [H1%negb_true_iff%bool_decide_eq_false H2%bool_decide_eq_true].
    exists p. split; [done|]. rewrite Hin. by apply bool_decide_eq_true.
  - intros (p & Hp & H). apply bool_decide_eq_true in H. destruct (held !! p) as [s|] eqn:Hs; [|set_solver].
    exists (p, s). rewrite <-list_elem_of_In, elem_of_map_to_list. split; [done|]. cbn.
    by rewrite bool_decide_false, bool_decide_true.
Qed.

Lemma lackedBy_spec held full ps h :
  lackedBy held full ps h = true ↔ ∃ p, p ∈ ps ∧ p ∈ full ∧ holds held p h = false.
Proof.
  unfold lackedBy. rewrite existsb_exists. setoid_rewrite andb_true_iff. setoid_rewrite negb_true_iff.
  setoid_rewrite bool_decide_eq_true. setoid_rewrite <-list_elem_of_In. done.
Qed.

(** ** The pins *)

Lemma pairKey_inj h p h' p' :
  has_byte nul p = false → has_byte nul p' = false → pairKey h p = pairKey h' p' → h = h' ∧ p = p'.
Proof. apply sep_inj. Qed.

Section pinning.
Context (n : Node) (full : gset string) (held : Holdings) (taken known : gset string).
#[local] Abbreviation self := (nSelf n).

(** The guards a pin to this node passes to become a gap. *)
Definition due (h : string) : bool :=
  bool_decide (self ∈ full) && negb (holds held self h)
  && negb (bool_decide (h ∈ taken) && negb (heldElsewhere held self h))
  && (bool_decide (h ∈ known) || match confirms n h with inr b => b | inl _ => false end).

(** ... and those it passes to be offered. *)
Definition offerable (h p : string) : bool :=
  holds held self h &&
  if bool_decide (p = self) then
    negb (bool_decide (placementSiblings n = [])) && negb (bool_decide (h ∈ taken))
    && lackedBy held full (placementSiblings n) h
  else bool_decide (p ∈ full) && negb (holds held p h).

Definition planned (h p : string) (s : PinState) : PinState :=
  if bool_decide (p = self) && due h then plan_gap h p s else s.
Definition offered (h p : string) (s : PinState) : PinState := if offerable h p then offer h s else s.

Lemma pinStep_eq s h p s' :
  pinStep n full held taken known s (h, p) = inr s' →
  pOut s' = pOut (planned h p s) ∧ already s' = already (planned h p s) ∧
  pOfferedBlobs s' = pOfferedBlobs (offered h p s) ∧ offeredSeen s' = offeredSeen (offered h p s).
Proof.
  unfold pinStep, planned, offered, offerable, due. destruct (decide (p = self)) as [->|Hp].
  - rewrite (bool_decide_true (self = self)) by done. cbn [negb andb]. rewrite !andb_assoc.
    set (o := _ && lackedBy _ _ _ _). set (s1 := if o then offer h s else s).
    assert (∀ s2, pOut s2 = pOut s → already s2 = already s →
      pOut (plan_gap h self s2) = pOut (plan_gap h self s) ∧ already (plan_gap h self s2) = already (plan_gap h self s))
      as Hplan.
    { intros s2 Ho Ha. unfold plan_gap. rewrite Ho, Ha. by case_bool_decide. }
    assert (pOut s1 = pOut s ∧ already s1 = already s) as [Ho Ha].
    { unfold s1, offer. destruct o; [|done]. by case_bool_decide. }
    assert (∀ s2, pOfferedBlobs (plan_gap h self s2) = pOfferedBlobs s2 ∧ offeredSeen (plan_gap h self s2) = offeredSeen s2)
      as Hoff by (intros s2; unfold plan_gap; by case_bool_decide).
    destruct (Hplan s1 Ho Ha) as [Hp1 Hp2], (Hoff s1) as [Hp3 Hp4].
    destruct (bool_decide (self ∈ full)); cbn [negb andb]; [|by intros [= <-]].
    destruct (holds held self h); cbn [negb andb]; [by intros [= <-]|].
    destruct (bool_decide (h ∈ taken) && negb (heldElsewhere held self h)); cbn [negb andb]; [by intros [= <-]|].
    destruct (bool_decide (h ∈ known)); cbn [orb]; [by intros [= <-]|].
    destruct (confirms n h) as [e|[]]; [done|by intros [= <-]|by intros [= <-]].
  - rewrite (bool_decide_false (p = self)) by done. cbn [negb andb]. intros [= <-].
    destruct (holds held self h); cbn [andb]; [|done].
    destruct (bool_decide (p ∈ full) && negb (holds held p h)); [|done].
    unfold offer. cbn. by case_bool_decide.
Qed.

Lemma pinStep_err s h p e :
  pinStep n full held taken known s (h, p) = inl e → confirms n h = inl e.
Proof.
  unfold pinStep. case_bool_decide; cbn [negb]; [|done].
  repeat (case_match; try done); congruence.
Qed.

(** What the loop has done with the pins behind it. *)
Record PinInv (have : list Gap) (before : list (string * string)) (s : PinState) : Prop := mkInv {
  inv_already : already s = list_to_set (gapKey <$> have ++ pOut s);
  inv_nodup : NoDup (pOut s);
  inv_out g : g ∈ pOut s ↔ PeerID g = self ∧ (BlobHash g, self) ∈ before ∧ due (BlobHash g) = true ∧ g ∉ have;
  inv_seen : offeredSeen s = list_to_set (pOfferedBlobs s);
  inv_offers : NoDup (pOfferedBlobs s);
  inv_offered h : h ∈ pOfferedBlobs s ↔ ∃ p, (h, p) ∈ before ∧ offerable h p = true }.

Context (have : list Gap) (Hplain : ∀ p, p ∈ full ∨ p ∈ PeerID <$> have → has_byte nul p = false).

Lemma already_spec before s h :
  PinInv have before s → due h = true → pairKey h self ∈ already s ↔ mkGap h self ∈ have ++ pOut s.
Proof.
  intros HI Hd. assert (self ∈ full) as Hs.
  { unfold due in Hd. rewrite !andb_true_iff in Hd. by destruct Hd as [[[?%bool_decide_eq_true _] _] _]. }
  rewrite (inv_already _ _ _ HI), elem_of_list_to_set, list_elem_of_fmap. split.
  - intros ([h' p'] & Hk & Hin). apply pairKey_inj in Hk as [Hh Hp]; cbn in *; [by subst|apply Hplain; by left|].
    apply elem_of_app in Hin as [Hin|Hin].
    + apply Hplain. right. by apply (list_elem_of_fmap_2 PeerID) in Hin.
    + apply (inv_out _ _ _ HI) in Hin as [Hp _]. cbn in Hp. rewrite Hp. apply Hplain. by left.
  - intros Hin. by exists (mkGap h self).
Qed.

Lemma planned_inv before s h p :
  PinInv have before s →
  let s' := planned h p s in
  already s' = list_to_set (gapKey <$> have ++ pOut s') ∧ NoDup (pOut s') ∧
  ∀ g, g ∈ pOut s' ↔ PeerID g = self ∧ (BlobHash g, self) ∈ before ++ [(h, p)] ∧ due (BlobHash g) = true ∧ g ∉ have.
Proof.
  intros HI. cbv zeta.
  assert (∀ g, (BlobHash g, self) ∈ before ++ [(h, p)] ↔ (BlobHash g, self) ∈ before ∨ BlobHash g = h ∧ p = self) as Hb.
  { intros g. rewrite elem_of_app, list_elem_of_singleton. naive_solver. }
  unfold planned. destruct (bool_decide (p = self) && due h) eqn:Hd.
  2:{ split_and!; [apply HI|apply HI|]. intros g. rewrite Hb, (inv_out _ _ _ HI).
      split; [tauto|]. intros (? & [?|[<- ->]] & Hg & ?); [done|]. by rewrite bool_decide_true, Hg in Hd. }
  apply andb_true_iff in Hd as [->%bool_decide_eq_true Hd]. unfold plan_gap.
  case_bool_decide as Ha; rewrite (already_spec _ _ _ HI Hd) in Ha; cbn [already pOut].
  - split_and!; [apply HI|apply HI|]. intros g. rewrite Hb, (inv_out _ _ _ HI). split; [tauto|].
    intros (Hp & [?|[<- _]] & Hg & Hn); [done|]. split_and!; [done| |done|done].
    destruct g as [h' p']. cbn in Hp. subst p'. cbn in *. apply elem_of_app in Ha as [?|Ha]; [done|].
    by apply (inv_out _ _ _ HI) in Ha as (_ & ? & _).
  - rewrite elem_of_app in Ha. apply Decidable.not_or in Ha as [Hn1 Hn2]. split_and!.
    + rewrite (inv_already _ _ _ HI), app_assoc, (fmap_app gapKey (have ++ pOut s)), list_to_set_app_L.
      rewrite (comm_L (∪) {[_]}). f_equal. cbn. by rewrite (right_id_L ∅ (∪)).
    + apply NoDup_app. split_and!; [apply HI| |apply NoDup_singleton].
      intros x Hx Hx'%list_elem_of_singleton. by subst.
    + intros g. rewrite elem_of_app, list_elem_of_singleton, Hb, (inv_out _ _ _ HI).
      split.
      * intros [?|Hg]; [tauto|]. subst g. by split_and!; [|right| |].
      * intros (Hp & [?|[Hh _]] & ? & ?); [by left|]. right. by destruct g; cbn in *; subst.
Qed.

Lemma offered_inv before s h p :
  PinInv have before s →
  let s' := offered h p s in
  offeredSeen s' = list_to_set (pOfferedBlobs s') ∧ NoDup (pOfferedBlobs s') ∧
  ∀ x, x ∈ pOfferedBlobs s' ↔ ∃ q, (x, q) ∈ before ++ [(h, p)] ∧ offerable x q = true.
Proof.
  intros HI. cbv zeta.
  assert (∀ x q, (x, q) ∈ before ++ [(h, p)] ↔ (x, q) ∈ before ∨ x = h ∧ q = p) as Hb.
  { intros x q. rewrite elem_of_app, list_elem_of_singleton. naive_solver. }
  setoid_rewrite Hb. unfold offered. destruct (offerable h p) eqn:Ho.
  2:{ split_and!; [apply HI|apply HI|]. intros x. rewrite (inv_offered _ _ _ HI). split; [naive_solver|].
      intros (q & [?|[-> ->]] & ?); [eauto|congruence]. }
  unfold offer. case_bool_decide as Hs; rewrite (inv_seen _ _ _ HI), elem_of_list_to_set in Hs;
    cbn [offeredSeen pOfferedBlobs].
  - split_and!; [apply HI|apply HI|]. intros x. rewrite (inv_offered _ _ _ HI). split; [naive_solver|].
    intros (q & [?|[-> ->]] & ?); [eauto|]. by apply (inv_offered _ _ _ HI).
  - split_and!.
    + rewrite (inv_seen _ _ _ HI), list_to_set_app_L.
      rewrite (comm_L (∪) {[_]}). f_equal. cbn. by rewrite (right_id_L ∅ (∪)).
    + apply NoDup_app. split_and!; [apply HI| |apply NoDup_singleton].
      intros x Hx Hx'%list_elem_of_singleton. by subst.
    + intros x. rewrite elem_of_app, list_elem_of_singleton, (inv_offered _ _ _ HI). naive_solver.
Qed.

Lemma pinLoop_inv before s pins s' :
  PinInv have before s → pinLoop n full held taken known s pins = inr s' → PinInv have (before ++ pins) s'.
Proof.
  revert before s. induction pins as [|[h p] pins IH]; intros before s HI; cbn [pinLoop].
  { rewrite app_nil_r. by intros [= <-]. }
  destruct (pinStep _ _ _ _ _ s (h, p)) as [e|s1] eqn:E; [done|]. intros Hl.
  replace (before ++ (h, p) :: pins) with ((before ++ [(h, p)]) ++ pins) by (by rewrite <-app_assoc).
  apply (IH _ s1); [|done]. destruct (pinStep_eq _ _ _ _ E) as (H1 & H2 & H3 & H4).
  destruct (planned_inv before s h p HI) as (A1 & A2 & A3), (offered_inv before s h p HI) as (B1 & B2 & B3).
  split; rewrite ?H1, ?H2, ?H3, ?H4; done.
Qed.

Lemma noPins_inv : PinInv have [] (noPins have).
Proof using Type.
  clear Hplain. split; cbn; [by rewrite app_nil_r|constructor| |done|constructor|]; intros; set_solver.
Qed.
End pinning.

Lemma pinLoop_err n full held taken known s pins e :
  pinLoop n full held taken known s pins = inl e → ∃ h, confirms n h = inl e.
Proof.
  revert s. induction pins as [|[h p] pins IH]; intros s; cbn [pinLoop]; [done|].
  destruct (pinStep n full held taken known s (h, p)) as [e'|s1] eqn:E; [|apply IH]. intros [= <-]. exists h.
  by eapply pinStep_err.
Qed.

(** ** The plan *)

(** Peer ids hold no separator: they are UUIDs. *)
Definition ids_plain (c : Catalog) : Prop := ∀ p, is_Some (peers c !! p) → has_byte nul p = false.

Definition here (n : Node) (c : Catalog) (h : string) : Prop := present c h (nSelf n).

(** This node wants the blob by a pin, or by a placement some other peer can serve. *)
Definition pinned_here (n : Node) (c : Catalog) (h : string) : Prop :=
  ((h, nSelf n) ∈ pins c ∨ h ∈ taken_set c) ∧
  (h ∈ taken_set c → ∃ p, p ≠ nSelf n ∧ present c h p) ∧
  (Known c h = true ∨ confirms n h = inr true).

(** A blob this node holds that a peer of the cycle is about to pull: one pinned to it, or
    one pinned here that a configured sibling lacks. *)
Definition pulled_from (n : Node) (c : Catalog) (required : list string) (h : string) : Prop :=
  here n c h ∧
  ((∃ p, p ≠ nSelf n ∧ (h, p) ∈ pins c ∧ p ∈ required ∧ ¬ present c h p) ∨
   ((h, nSelf n) ∈ pins c ∧ (h ∉ taken_set c) ∧
    ∃ p, p ∈ placementSiblings n ∧ p ∈ required ∧ ¬ present c h p)).

Lemma elem_of_taken c h : h ∈ takenPlacementHashes c ↔ h ∈ taken_set c.
Proof. unfold takenPlacementHashes. by rewrite elem_of_sort_by, elem_of_elements. Qed.

Lemma elem_of_allPins n c h p :
  (h, p) ∈ allPins n c ↔ (h, p) ∈ pins c ∨ p = nSelf n ∧ h ∈ taken_set c.
Proof.
  unfold allPins, AllPlacementPins. rewrite elem_of_app, elem_of_sort_by, elem_of_elements, list_elem_of_fmap.
  setoid_rewrite elem_of_taken. naive_solver.
Qed.

Lemma inScope_required scope required p :
  p ∈ inScope scope required ↔ p ∈ required ∧ (scope = "" ∨ p = scope).
Proof.
  unfold inScope. case_bool_decide; [tauto|]. rewrite list_elem_of_filter. tauto.
Qed.

Lemma NoDup_inScope scope required : NoDup required → NoDup (inScope scope required).
Proof. intros H. unfold inScope. case_bool_decide; [done|by apply NoDup_filter]. Qed.

Section planning.
Context (n : Node) (c : Catalog) (required : list string).
Let full : gset string := list_to_set required.
Let held := presentReplicas c.
Let taken : gset string := list_to_set (takenPlacementHashes c).
Let known := pinnedBlobsKnown c.

Lemma due_spec h :
  (h, nSelf n) ∈ allPins n c →
  due n full held taken known h = true ↔
  nSelf n ∈ required ∧ ¬ here n c h ∧ (h ∈ taken_set c → ∃ p, p ≠ nSelf n ∧ present c h p) ∧
  (Known c h = true ∨ confirms n h = inr true).
Proof.
  intros Hpin. unfold due, full, held, taken, known, here. rewrite !andb_true_iff, orb_true_iff, !negb_true_iff.
  rewrite !bool_decide_eq_true, elem_of_list_to_set, not_holds, andb_false_iff, bool_decide_eq_false,
    negb_false_iff, heldElsewhere_spec, elem_of_list_to_set, elem_of_taken.
  setoid_rewrite holds_presentReplicas. unfold pinnedBlobsKnown. rewrite elem_of_filter, elem_of_union.
  assert (h ∈ (set_map fst (pins c) : gset string) ∨ h ∈ taken_set c) as Hin.
  { apply elem_of_allPins in Hpin as [Hp|[_ Hp]]; [left; apply elem_of_map; by exists (h, nSelf n)|by right]. }
  assert (match confirms n h with inr b => b | inl _ => false end = true ↔ confirms n h = inr true) as ->.
  { destruct (confirms n h) as [|[]]; naive_solver. }
  destruct (decide (h ∈ taken_set c)); tauto.
Qed.

Lemma offerable_spec h :
  (∃ p, (h, p) ∈ allPins n c ∧ offerable n full held taken h p = true) ↔ pulled_from n c required h.
Proof.
  unfold offerable, pulled_from, here. setoid_rewrite elem_of_allPins. split.
  - intros (p & Hp & Ho). apply andb_true_iff in Ho as [Hh Ho]. unfold held in Hh. rewrite holds_presentReplicas in Hh.
    split; [done|]. case_bool_decide as Hs.
    + right. subst p. rewrite !andb_true_iff, !negb_true_iff, !bool_decide_eq_false in Ho.
      destruct Ho as [[_ Ht] Hl]. unfold taken in Ht. rewrite elem_of_list_to_set, elem_of_taken in Ht.
      apply lackedBy_spec in Hl as (p & Hp1 & Hp2 & Hp3). split_and!; [naive_solver|done|]. exists p.
      unfold full in Hp2. rewrite elem_of_list_to_set in Hp2. unfold held in Hp3. by rewrite not_holds in Hp3.
    + left. apply andb_true_iff in Ho as [Hf%bool_decide_eq_true Hl%negb_true_iff]. exists p.
      unfold full in Hf. rewrite elem_of_list_to_set in Hf. unfold held in Hl. rewrite not_holds in Hl.
      split_and!; [done|naive_solver|done|done].
  - intros (Hh & Ho). assert (holds held (nSelf n) h = true) as Hh' by (by apply holds_presentReplicas).
    destruct Ho as [(p & Hne & Hp & Hr & Hl)|(Hp & Ht & p & Hs & Hr & Hl)].
    + exists p. split; [by left|]. rewrite Hh', bool_decide_false by done. cbn [andb].
      apply andb_true_iff. split; [apply bool_decide_eq_true; unfold full; by apply elem_of_list_to_set|].
      apply negb_true_iff. by apply not_holds.
    + exists (nSelf n). split; [by left|]. rewrite Hh', bool_decide_true by done. cbn [andb].
      rewrite !andb_true_iff, !negb_true_iff, !bool_decide_eq_false. split_and!.
      * intros He. rewrite He in Hs. by apply elem_of_nil in Hs.
      * unfold taken. by rewrite elem_of_list_to_set, elem_of_taken.
      * apply lackedBy_spec. exists p. split_and!; [done|unfold full; by apply elem_of_list_to_set|by apply not_holds].
Qed.

Hypothesis Hplain : ∀ p, p ∈ required → has_byte nul p = false.
Let have := Diff ((λ id, mkPeer id ModeFull) <$> required) (canonicalBlobs c) held.

Lemma elem_of_have g :
  g ∈ have ↔ PeerID g ∈ required ∧ desired c (BlobHash g) ∧ ¬ present c (BlobHash g) (PeerID g).
Proof.
  unfold have. rewrite elem_of_Diff. unfold held. setoid_rewrite elem_of_canonicalBlobs. setoid_rewrite not_holds.
  split.
  - intros (p & (id & -> & Hid)%list_elem_of_fmap & _ & <- & Hd & Hh). done.
  - intros (Hr & Hd & Hh). exists (mkPeer (PeerID g) ModeFull). split_and!; [|done..].
    by apply (list_elem_of_fmap_2 (λ id, mkPeer id ModeFull)).
Qed.

Lemma pinGaps_spec s :
  pinGaps n c required held have = inr s →
  NoDup (pOut s) ∧ NoDup (pOfferedBlobs s) ∧
  (∀ g, g ∈ pOut s ↔ PeerID g = nSelf n ∧ nSelf n ∈ required ∧ ¬ here n c (BlobHash g) ∧
     pinned_here n c (BlobHash g) ∧ g ∉ have) ∧
  (∀ h, h ∈ pOfferedBlobs s ↔ pulled_from n c required h).
Proof.
  intros Hs. assert (PinInv n full held taken known have (allPins n c) s) as HI.
  { unfold pinGaps in Hs. case_bool_decide as Hnil.
    - injection Hs as <-. rewrite Hnil. apply noPins_inv.
    - apply (pinLoop_inv n full held taken known have) with (before := []) in Hs; [done| |apply noPins_inv].
      intros p [Hp|Hp]; apply Hplain.
      + unfold full in Hp. by apply elem_of_list_to_set in Hp.
      + apply list_elem_of_fmap in Hp as (g & -> & Hg). by apply elem_of_have in Hg as [? _]. }
  split_and!; [by eapply inv_nodup|by eapply inv_offers|..].
  - intros g. rewrite (inv_out _ _ _ _ _ _ _ _ HI). unfold pinned_here. split.
    + intros (Hp & Hin & Hd & Hn). apply (due_spec _ Hin) in Hd as (? & ? & ? & ?).
      apply elem_of_allPins in Hin. split_and!; [done..|naive_solver|done|done|done].
    + intros (Hp & Hr & Hh & (Hin & He & Hk) & Hn).
      assert ((BlobHash g, nSelf n) ∈ allPins n c) as Hpin by (apply elem_of_allPins; tauto).
      split_and!; [done|done|by apply (due_spec _ Hpin)|done].
  - intros h. by rewrite (inv_offered _ _ _ _ _ _ _ _ HI), offerable_spec.
Qed.
End planning.

(** What a plan may be. *)
Definition plan_correct (n : Node) (c : Catalog) (scope : string) (r : BlobCatalog.error + PeerConvergence) : Prop :=
  match r with
  | inl e => ∃ has h, localStore n = Some has ∧ has h = inl e
  | inr plan =>
      (∀ p, p ∈ PlanPeers plan ↔ fullPeer c p ∧ (scope = "" ∨ p = scope)) ∧
      StronglySorted (λ x y, gap_less x y = true) (Gaps plan) ∧
      (∀ g, g ∈ Gaps plan ↔ PeerID g ∈ PlanPeers plan ∧ ¬ present c (BlobHash g) (PeerID g) ∧
         (desired c (BlobHash g) ∨ PeerID g = nSelf n ∧ pinned_here n c (BlobHash g))) ∧
      NoDup (OfferedBlobs plan) ∧
      (∀ h, PlanPeers plan ≠ [] → h ∈ OfferedBlobs plan ↔ pulled_from n c (PlanPeers plan) h)
  end.

Lemma PlanPeerConvergence_correct n c scope :
  ids_plain c → plan_correct n c scope (PlanPeerConvergence n c scope).
Proof.
  intros Hids. unfold plan_correct, PlanPeerConvergence. set (required := inScope scope (requiredPeers c).1).
  assert (∀ p, p ∈ required ↔ fullPeer c p ∧ (scope = "" ∨ p = scope)) as Hreq.
  { intros p. unfold required. by rewrite inScope_required, elem_of_required. }
  case_bool_decide as Hnil.
  { cbn. split_and!; [done|constructor| |constructor|by intros h []]. intros g. rewrite Hnil.
    split; [by intros ?%elem_of_nil|by intros [?%elem_of_nil _]]. }
  set (have := Diff _ _ _).
  assert (∀ p, p ∈ required → has_byte nul p = false) as Hplain.
  { intros p Hp. apply Hids. apply Hreq in Hp as [(r & Hr & _) _]. by exists r. }
  destruct (pinGaps n c required (presentReplicas c) have) as [e|s] eqn:Hs.
  { unfold pinGaps in Hs. case_bool_decide; [done|]. apply pinLoop_err in Hs as (h & Hc).
    unfold confirms in Hc. destruct (localStore n) as [has|]; [|done].
    destruct (parses n h); [|done]. by exists has, h. }
  destruct (pinGaps_spec n c required Hplain s Hs) as (Hnd & Hno & Hout & Hoff). cbn.
  set (gaps := if bool_decide _ then _ else _).
  assert (gaps = sort_by gap_less (have ++ pOut s)) as ->.
  { unfold gaps. case_bool_decide as Ho; [|done]. rewrite Ho, app_nil_r.
    apply (sort_by_unique gap_less); [intros x y _ _; apply less_antisym|done|].
    unfold have, Diff. apply (sort_by_sorted gap_less). }
  assert (∀ g, g ∈ have ↔ PeerID g ∈ required ∧ desired c (BlobHash g) ∧ ¬ present c (BlobHash g) (PeerID g)) as Hhave.
  { intros g. apply elem_of_have. }
  split_and!; [done| | |done|by intros h _].
  - apply (sort_by_strict gap_less); [apply _|]. apply NoDup_app. split_and!; [| |done].
    + apply NoDup_Diff; [|apply NoDup_canonicalBlobs]. rewrite <-list_fmap_compose.
      rewrite (list_fmap_ext _ id required), list_fmap_id by done.
      apply NoDup_inScope, NoDup_required.
    + intros g Hg Hg'. by apply Hout in Hg' as (_ & _ & _ & _ & Hn).
  - intros g. rewrite elem_of_sort_by, elem_of_app, Hhave, Hout. unfold here. split.
    + intros [?|(-> & ? & ? & ? & ?)]; tauto.
    + intros (Hr & Hp & [?|[Hs' Hpin]]); [tauto|]. rewrite <-Hs'.
      destruct (decide (g ∈ have)) as [Hin|]; [left; by apply Hhave|right; tauto].
Qed.

(** C14. The plan of a cycle is every blob a Full Peer of its scope should hold and is not known
    to: the blobs the catalog still claims, for each of them, and for this node alone what is
    pinned here or taken from a sibling, if another peer has it when it was taken and if
    it has a row or is on this disk; each pair once, in one order. It offers, each once,
    the blobs held here that a peer of the cycle lacks and is about to pull. It fails
    only when the local store does. *)
Theorem converge_plan (n : Node) (c : Catalog) (scope : string) :
  ids_plain c → plan_correct n c scope (PlanPeerConvergence n c scope).
Proof. apply PlanPeerConvergence_correct. Qed.

(** Two Full Peers and a blob of an asset neither holds, a blob pinned here only the other
    holds, and one pinned to the other that is here. *)
Definition cv_catalog : Catalog :=
  mkCatalog {["a" := mkRow 1 None; "b" := mkRow 1 None; "c" := mkRow 1 None]}
    [mkAsset "x" (Some "a") None] {[("b", "me"); ("c", "it")]} ∅ ∅ [] ∅ []
    {[("b", "it") := mkReplicaRow "present" 1 None None; ("c", "me") := mkReplicaRow "present" 1 None None]}
    {["me" := mkPeerRow "me" "" "reachable" "full" [] true; "it" := mkPeerRow "it" "" "reachable" "full" [] false]} [] [].

Definition cv_node : Node := mkNode "me" ["it"] (λ _, true) (Some (λ _, inr false)).

Lemma cv_plain : ids_plain cv_catalog.
Proof.
  intros p [r Hr]. cbn in Hr. destruct (decide (p = "me")) as [->|]; [done|].
  destruct (decide (p = "it")) as [->|]; [done|]. rewrite lookup_insert_ne in Hr by done. apply lookup_singleton_Some in Hr as [<- _]. done.
Qed.

Lemma converge_plan_witness :
  PlanPeerConvergence cv_node cv_catalog "" =
    inr (mkPlan "" ["it"; "me"] 1 [mkGap "a" "it"; mkGap "a" "me"; mkGap "b" "me"] 0 1 ["c"]) ∧
  pulled_from cv_node cv_catalog ["it"; "me"] "c".
Proof.
  assert (PlanPeerConvergence cv_node cv_catalog "" =
    inr (mkPlan "" ["it"; "me"] 1 [mkGap "a" "it"; mkGap "a" "me"; mkGap "b" "me"] 0 1 ["c"])) as H by (by vm_compute).
  split; [exact H|]. pose proof (converge_plan cv_node cv_catalog "" cv_plain) as Hp. rewrite H in Hp.
  destruct Hp as (_ & _ & _ & _ & Hp). apply (Hp "c"); [done|]. by left.
Defined.
