(* ===== verification/ReconcilePeer.v ===== *)
(** * ReconcilePeer: one cycle of peer convergence

    Models the handler of internal/worker/reconcilepeer.go over the job queue of Jobs.v.
    What it needs of the catalog is an interface ([ReconcilePeerStore]), which the catalog
    implements with the plan of Converge.v; the clock, the ids of new jobs, a failing
    enqueue and the cancellation of the context are a schedule by instant ([Ctl]). *)

From S2P Require Import Prelude GoText GoPath BlobCatalog Transfers Converge.
From S2P Require JobTable Jobs.

(** ** Payloads *)

Definition quote : ascii := "034"%char.

(** [\u00xx] *)
Definition hex_digit (n : nat) : ascii := ascii_of_nat (if decide (n < 10)%nat then 48 + n else 87 + n).
Definition unicode_escape (c : ascii) : string :=
  "\u00" +:+ String (hex_digit (nat_of_ascii c / 16)) (String (hex_digit (nat_of_ascii c mod 16)) "").

(** A character as encoding/json writes it in a string, for ASCII. *)
Definition json_char (c : ascii) : string :=
  let n := nat_of_ascii c in
  if bool_decide (c = quote) then String "\" (String quote "")
  else if bool_decide (c = "\"%char) then "\\"
  else if bool_decide (n = 8%nat) then "\b" else if bool_decide (n = 12%nat) then "\f"
  else if bool_decide (n = 10%nat) then "\n" else if bool_decide (n = 13%nat) then "\r"
  else if bool_decide (n = 9%nat) then "\t"
  else if bool_decide (n < 32)%nat || bool_decide (c ∈ ["<"; ">"; "&"]%char) then unicode_escape c
  else String c "".

Fixpoint json_body (s : string) : string :=
  match s with EmptyString => "" | String c s => json_char c +:+ json_body s end.
Definition json_string (s : string) : string := String quote (json_body s +:+ String quote "").

(** An object of string fields. *)
Definition json_object (fields : list (string * string)) : string :=
  "{" +:+ Join ((λ kv, json_string kv.1 +:+ ":" +:+ json_string kv.2) <$> fields) "," +:+ "}".

Definition ReplicateBlobJobType : string := "replicate_blob".
Definition ChunkBlobJobType : string := "chunk_blob".
Definition ChunkBlobDedupeKey (h : string) : string := "chunk:" +:+ h.
Definition StateUndecided : string := "undecided".

Definition replicateOpts (g : Gap) : Jobs.EnqueueOptions :=
  Jobs.mkEnqueue ReplicateBlobJobType
    (Some (json_object [("blob_hash", BlobHash g); ("destination_peer_id", PeerID g)]))
    (DedupeKey g) None "" 0 0.

Definition chunkOpts (h : string) : Jobs.EnqueueOptions :=
  Jobs.mkEnqueue ChunkBlobJobType (Some (json_object [("blob_hash", h)])) (ChunkBlobDedupeKey h) None "" 0 0.

(** ** What the handler is given *)

(** The part of the catalog it uses, over the states of some store. *)
Class ReconcilePeerStore (C : Type) := mkStore {
  ChunkManifestStates : C → BlobCatalog.error + gmap string string;
  PlanConvergence : C → string → BlobCatalog.error + PeerConvergence;
  RecordReconciled : PeerReconcileSummary → C → BlobCatalog.error + C;
  SelfPeer : C → BlobCatalog.error + string }.

(** The catalog is such a store; the manifests it has are told by [chunks]. *)
Definition catalogStore (n : Node) (chunks : gmap string string) : ReconcilePeerStore Catalog := {|
  ChunkManifestStates _ := inr chunks;
  PlanConvergence c := PlanPeerConvergence n c;
  RecordReconciled s c := inr (RecordPeerReconciled n s c);
  SelfPeer _ := inr (nSelf n) |}.

(** An enqueue works, fails, or fails because the context is cancelled. *)
Inductive Fault := Works | Fails | Cancels.

Record Ctl := mkCtl { ids : nat → string; times : nat → Z; faults : nat → Fault; cancelled : nat → bool }.

Inductive HandlerError := ErrDecode | ErrStore (e : BlobCatalog.error).

(** ** The loops *)

Record Loop := mkLoop {
  lQueue : Jobs.Queue; lTick : nat; lEnqueued : nat; lAsked : gset string; lOffered : Z }.

Inductive Enq := Added | Warned | Broke.

Definition ask (h : string) (s : Loop) : Loop :=
  mkLoop (lQueue s) (lTick s) (lEnqueued s) ({[h]} ∪ lAsked s) (lOffered s).
Definition counted (s : Loop) : Loop := mkLoop (lQueue s) (lTick s) (S (lEnqueued s)) (lAsked s) (lOffered s).
Definition countedOffer (s : Loop) : Loop :=
  mkLoop (lQueue s) (lTick s) (lEnqueued s) (lAsked s) (lOffered s + 1).
Definition withQueue (q : Jobs.Queue) (s : Loop) : Loop :=
  mkLoop q (S (lTick s)) (lEnqueued s) (lAsked s) (lOffered s).

Section cycle.
Context (ctl : Ctl).

Definition enqueue (opts : Jobs.EnqueueOptions) (s : Loop) : Loop * Enq :=
  match faults ctl (lTick s) with
  | Cancels => (withQueue (lQueue s) s, Broke)
  | Fails => (withQueue (lQueue s) s, Warned)
  | Works =>
      let '(q, r) := Jobs.Enqueue (ids ctl (lTick s)) (times ctl (lTick s)) (lQueue s) opts in
      (withQueue q s, match r with inl _ => Warned | inr _ => Added end)
  end.

Definition undecided (states : gmap string string) (h : string) : bool :=
  bool_decide (states !! h = Some StateUndecided).

(** One gap: its transfer, and the chunking of what is about to leave this node; and whether
    the loop goes on. *)
Definition takeGap (self : string) (states : gmap string string) (g : Gap) (s : Loop) : Loop * bool :=
  match enqueue (replicateOpts g) s with
  | (s, Broke) => (s, false)
  | (s, Warned) => (s, true)
  | (s, Added) =>
      let s := counted s in
      let h := BlobHash g in
      if bool_decide (PeerID g = self) then (s, true)
      else if bool_decide (h ∈ lAsked s) then (s, true)
      else
        let s := ask h s in
        if negb (undecided states h) then (s, true)
        else match enqueue (chunkOpts h) s with
             | (s, Broke) => (s, false)
             | (s, _) => (s, true)
             end
  end.

Fixpoint takeGaps (self : string) (states : gmap string string) (gaps : list Gap) (s : Loop) : Loop :=
  match gaps with
  | [] => s
  | g :: gaps =>
      if cancelled ctl (lTick s) then s
      else match takeGap self states g s with
           | (s, true) => takeGaps self states gaps s
           | (s, false) => s
           end
  end.

(** The chunking of one blob this node offers. *)
Definition offerChunk (states : gmap string string) (live : gset string) (h : string) (s : Loop) : Loop * bool :=
  if bool_decide (h ∈ lAsked s) then (s, true)
  else
    let s := ask h s in
    if bool_decide (ChunkBlobDedupeKey h ∈ live) then (s, true)
    else if negb (undecided states h) then (s, true)
    else match enqueue (chunkOpts h) s with
         | (s, Broke) => (s, false)
         | (s, Warned) => (s, true)
         | (s, Added) => (countedOffer s, true)
         end.

Fixpoint offerChunks (limit : Z) (states : gmap string string) (live : gset string) (hs : list string) (s : Loop) : Loop :=
  match hs with
  | [] => s
  | h :: hs =>
      if ((0 <? limit)%Z && (limit <=? lOffered s)%Z) || cancelled ctl (lTick s) then s
      else match offerChunk states live h s with
           | (s, true) => offerChunks limit states live hs s
           | (s, false) => s
           end
  end.

(** ** The handler *)

Context {C : Type} `{ReconcilePeerStore C}.

(** The gaps no live job is closing. *)
Definition outstanding (q : Jobs.Queue) (gaps : list Gap) : list Gap :=
  filter (λ g, DedupeKey g ∉ Jobs.LiveDedupeKeys q ReplicateBlobJobType) gaps.

Record Outcome := mkOutcome { oStore : C; oQueue : Jobs.Queue; oSummary : option PeerReconcileSummary; oErr : option HandlerError }.

Definition reconcilePeerHandler (limit : Z) (payload : option string) (c : C) (q : Jobs.Queue) : Outcome :=
  match payload with
  | None => mkOutcome c q None (Some ErrDecode)
  | Some scope =>
      match PlanConvergence c scope with
      | inl e => mkOutcome c q None (Some (ErrStore e))
      | inr plan =>
          let out := outstanding q (Gaps plan) in
          let '(taken, deferred) := Bound out limit in
          let states :=
            if bool_decide (taken = []) && bool_decide (OfferedBlobs plan = []) then inr ∅
            else ChunkManifestStates c in
          match states with
          | inl e => mkOutcome c q None (Some (ErrStore e))
          | inr states =>
              match SelfPeer c with
              | inl e => mkOutcome c q None (Some (ErrStore e))
              | inr self =>
                  let s := takeGaps self states taken (mkLoop q 0 0 ∅ 0) in
                  let liveChunks :=
                    if bool_decide (OfferedBlobs plan = []) then ∅
                    else Jobs.LiveDedupeKeys (lQueue s) ChunkBlobJobType in
                  let s := offerChunks limit states liveChunks (OfferedBlobs plan) s in
                  let summary :=
                    mkSummary (Scope plan) (length (PlanPeers plan)) (Desired plan) (length (Gaps plan))
                      (length (Gaps plan) - length out) (lEnqueued s) deferred (Missing plan) in
                  if cancelled ctl (lTick s) then mkOutcome c (lQueue s) (Some summary) None
                  else match RecordReconciled summary c with
                       | inl e => mkOutcome c (lQueue s) (Some summary) (Some (ErrStore e))
                       | inr c => mkOutcome c (lQueue s) (Some summary) None
                       end
              end
          end
      end
  end.
End cycle.

Definition replicateBatch : Z := 250.

Definition ReconcilePeerHandler {C} `{ReconcilePeerStore C} (ctl : Ctl) := reconcilePeerHandler ctl replicateBatch.
