(* ===== verification/BlobTransfer.v ===== *)
(** * BlobTransfer: one transfer of a blob, as the catalog records it

    Models internal/persistence/catalog/transfer.go: the replica of the destination goes
    from pending to present, or to missing or corrupt, and the events that say so.  An
    operation is one transaction on the tables of BlobCatalog.v; the last one reads the
    store in its transaction, so it is a function of the world. *)

From S2P Require Import Prelude GoText GoPath Transfers BlobCatalog.
From Stdlib Require Import Strings.Byte.

(** The sources of a transfer in pieces and how many each gave, by peer id. *)
Record BlobTransfer := mkTransfer {
  tBlob : string; tSource : string; tDestination : string; tBytes : Z;
  tSources : gmap string Z; tReason : string }.

Definition TransferStarted := "started".
Definition TransferSucceeded := "succeeded".
Definition TransferFailed := "failed".

(** The contributions in the order of the peer ids. *)
Definition contributions (t : BlobTransfer) : list (string * Z) :=
  sort_by (key_less fst str_lt) (map_to_list (tSources t)).

Definition emitTransferChanged (transition : string) (t : BlobTransfer) : Catalog → Catalog :=
  emit [TransferChanged transition (tBlob t) (tSource t) (tDestination t) (tBytes t) (tReason t) (contributions t)].

Definition key (t : BlobTransfer) : string * string := (tBlob t, tDestination t).

Definition canReference (c : Catalog) (k : string * string) : bool :=
  negb (bool_decide (blobs c !! k.1 = None)) && negb (bool_decide (peers c !! k.2 = None)).

(** [INSERT ... ON CONFLICT DO UPDATE ... WHERE]: the row of the insert, the columns the
    update sets, and the rows it applies to; with the catalog, how many rows changed. *)
Definition upsertWhere (k : string * string) (fresh : ReplicaRow) (set_ : ReplicaRow → ReplicaRow)
    (where_ : ReplicaRow → bool) (c : Catalog) : error + Catalog * nat :=
  match replicas c !! k with
  | Some r => inr (if where_ r then (set_replicas (insert k (set_ r)) c, 1%nat) else (c, 0%nat))
  | None =>
      if canReference c k then inr (set_replicas (insert k fresh) c, 1%nat) else inl ErrForeignKey
  end.

Definition notPresent (r : ReplicaRow) : bool := negb (bool_decide (rrState r = "present")).

Definition withState (state : string) (r : ReplicaRow) : ReplicaRow :=
  mkReplicaRow state 0 (rrVerifiedAt r) (rrReportedAt r).

(** Moves the destination's row to a state that is not present, unless it is present. *)
Definition moveTo (state transition : string) (t : BlobTransfer) (c : Catalog) : error + Catalog :=
  match upsertWhere (key t) (mkReplicaRow state 0 None None) (withState state) notPresent c with
  | inl e => inl e
  | inr (c, _) => inr (emitTransferChanged transition t c)
  end.

Definition BeginBlobTransfer : BlobTransfer → Catalog → error + Catalog := moveTo "pending" TransferStarted.

Definition RecordBlobTransferFailed (t : BlobTransfer) (state : string) (c : Catalog) : error + Catalog :=
  if negb (bool_decide (state = "missing")) && negb (bool_decide (state = "corrupt")) then inl ErrTransferState
  else moveTo state TransferFailed t c.

(** The row of a blob there is none for, and whether it was written. *)
Definition adoptBlob (h : string) (size : Z) (c : Catalog) : Catalog * bool :=
  match blobs c !! h with
  | Some _ => (c, false)
  | None => (set_blobs (insert h (mkRow size None)) c, true)
  end.

(** What this node can say of the blob's row: adopted, or its size corrected. *)
Definition describeBlob (t : BlobTransfer) (c : Catalog) : Catalog :=
  let '(c, adopted) := adoptBlob (tBlob t) (tBytes t) c in
  if adopted then emit [BlobCreated (tBlob t) (tBytes t)] c
  else if (0 <? tBytes t)%Z then
    match blobs c !! tBlob t with
    | Some r =>
        if (rSize r =? tBytes t)%Z then c
        else emit [BlobSizeCorrected (tBlob t) (tBytes t)]
               (set_blobs (insert (tBlob t) (mkRow (tBytes t) (rSince r))) c)
    | None => c
    end
  else c.

Definition stale (t : BlobTransfer) (r : ReplicaRow) : bool :=
  notPresent r || negb (rrBytes r =? tBytes t)%Z.

Definition markPresent (t : BlobTransfer) (now : Z) (c : Catalog) : error + Catalog :=
  match upsertWhere (key t) (mkReplicaRow "present" (tBytes t) (Some now) None)
          (λ r, mkReplicaRow "present" (tBytes t) (Some now) (rrReportedAt r)) (stale t) c with
  | inl e => inl e
  | inr (c, 0%nat) => inr c
  | inr (c, _) => inr (emitTransferChanged TransferSucceeded t c)
  end.

(** The bytes are confirmed present in the transaction that records them. *)
Definition RecordBlobTransferred (t : BlobTransfer) (now : Z) (w : World) : World * (error + unit) :=
  match Stat (tBlob t) (disk w) with
  | inl _ => (w, inl ErrBytesGone)
  | inr _ =>
      match markPresent t now (describeBlob t (cat w)) with
      | inl e => (w, inl e)
      | inr c => (mkWorld c (disk w), inr tt)
      end
  end.

(** Whether the peer is a member, and whether the blob has a row. *)
Definition ReplicationTarget (h peer : string) (c : Catalog) : bool * bool :=
  (negb (bool_decide (peers c !! peer = None)), Known c h).

Definition BlobSize (h : string) (c : Catalog) : error + Z :=
  match blobs c !! h with Some r => inr (rSize r) | None => inl ErrBlobSizeUnknown end.

(** The peers but this one whose replica is present, by id. *)
Definition sourceOf (h self : string) (c : Catalog) (row : string * string * ReplicaRow) : option PeerSource :=
  let '(b, p, r) := row in
  if bool_decide (b = h) && bool_decide (rrState r = "present") && negb (bool_decide (p = self)) then
    (λ pr, mkPeerSource p (prName pr) (prEndpoint pr) (prKey pr) (prHealth pr)) <$> peers c !! p
  else None.

Definition BlobSources (h self : string) (c : Catalog) : list PeerSource :=
  RankSources (sort_by (key_less SourcePeerID str_lt) (omap (sourceOf h self c) (map_to_list (replicas c)))).
