(* ===== verification/BlobTransferSpec.v ===== *)
(** * BlobTransferSpec: the theorems of BlobTransfer.v

    A replica is recorded as present only in a transaction that saw its bytes in the
    store, and no record of a transfer takes a present replica away. *)

From S2P Require Import Prelude GoText GoPath Transfers BlobCatalog BlobTransfer ConvergeSpec.
From Stdlib Require Import Strings.Byte.

(** ** What a record changes *)

(** Every table but the blobs, the replicas and the outbox. *)
Definition same_demand (c c' : Catalog) : Prop :=
  assets c' = assets c ∧ pins c' = pins c ∧ placements c' = placements c ∧ peers c' = peers c.

#[export] Instance same_demand_preorder : PreOrder same_demand.
Proof. split; unfold same_demand; [by intros c|]. intros a b c (?&?&?&?) (?&?&?&?). split_and!; congruence. Qed.

Lemma upsertWhere_ok k fresh set_ where_ c c' m :
  upsertWhere k fresh set_ where_ c = inr (c', m) →
  same_demand c c' ∧ blobs c' = blobs c ∧ outbox c' = outbox c ∧
  match replicas c !! k with
  | Some r => if where_ r then m = 1%nat ∧ replicas c' = <[k := set_ r]> (replicas c) else m = 0%nat ∧ c' = c
  | None => m = 1%nat ∧ canReference c k = true ∧ replicas c' = <[k := fresh]> (replicas c)
  end.
Proof.
  unfold upsertWhere. destruct (replicas c !! k) as [r|].
  - destruct (where_ r); intros [= <- <-]; split_and!; done.
  - destruct (canReference c k); [|done]. intros [= <- <-]. split_and!; done.
Qed.

(** A move of the destination's row. *)
Lemma moveTo_ok state transition t c c' :
  state ≠ "present" → moveTo state transition t c = inr c' →
  same_demand c c' ∧ blobs c' = blobs c ∧
  (∀ k, k ≠ key t → replicas c' !! k = replicas c !! k) ∧
  (present c (tBlob t) (tDestination t) → replicas c' = replicas c) ∧
  (¬ present c (tBlob t) (tDestination t) → ∃ r, replicas c' !! key t = Some r ∧ rrState r = state ∧ rrBytes r = 0%Z) ∧
  ∃ ev, outbox c' = outbox c ++ [ev].
Proof.
  intros Hs. unfold moveTo. destruct (upsertWhere _ _ _ _ _) as [e|[c1 m]] eqn:E; [done|]. intros [= <-].
  destruct (upsertWhere_ok _ _ _ _ _ _ _ E) as (Hd & Hb & Ho & Hr).
  split_and!; [done|done| | | |].
  - intros k Hk. cbn. destruct (replicas c !! key t) as [r|]; [destruct (notPresent r)|].
    + destruct Hr as [_ ->]. by rewrite lookup_insert_ne.
    + by destruct Hr as [_ ->].
    + destruct Hr as (_ & _ & ->). by rewrite lookup_insert_ne.
  - intros (r & Hk & Hp). cbn. change (tBlob t, tDestination t) with (key t) in Hk. rewrite Hk in Hr.
    unfold notPresent in Hr. rewrite bool_decide_true in Hr by done. by destruct Hr as [_ ->].
  - intros Hn. cbn. destruct (replicas c !! key t) as [r|] eqn:Hk.
    + assert (notPresent r = true) as Hnp.
      { unfold notPresent. apply negb_true_iff, bool_decide_eq_false. intros Hp. apply Hn. by exists r. }
      rewrite Hnp in Hr. destruct Hr as [_ ->]. rewrite lookup_insert_eq. by eexists.
    + destruct Hr as (_ & _ & ->). rewrite lookup_insert_eq. by eexists.
  - cbn. rewrite Ho. by eexists.
Qed.

Lemma describeBlob_ok t c :
  same_demand c (describeBlob t c) ∧ replicas (describeBlob t c) = replicas c ∧
  (∀ h, h ≠ tBlob t → blobs (describeBlob t c) !! h = blobs c !! h) ∧
  is_Some (blobs (describeBlob t c) !! tBlob t) ∧
  ((0 < tBytes t)%Z ∨ blobs c !! tBlob t = None → rSize <$> blobs (describeBlob t c) !! tBlob t = Some (tBytes t)).
Proof.
  unfold describeBlob, adoptBlob. destruct (blobs c !! tBlob t) as [r|] eqn:Hb.
  2:{ split_and!; try done; cbn.
      - intros h Hh. by rewrite lookup_insert_ne.
      - rewrite lookup_insert_eq. by eexists.
      - by rewrite lookup_insert_eq. }
  destruct (Z.ltb_spec 0 (tBytes t)).
  2:{ split_and!; try done. intros [?|?]; [lia|done]. }
  rewrite Hb. destruct (Z.eqb_spec (rSize r) (tBytes t)) as [He|He].
  - split_and!; try done. rewrite Hb. cbn. by intros _; rewrite He.
  - split_and!; try done; cbn.
    + intros h Hh. by rewrite lookup_insert_ne.
    + rewrite lookup_insert_eq. by eexists.
    + by rewrite lookup_insert_eq.
Qed.

Lemma markPresent_ok t now c c' :
  markPresent t now c = inr c' →
  same_demand c c' ∧ blobs c' = blobs c ∧
  (∀ k, k ≠ key t → replicas c' !! k = replicas c !! k) ∧
  (∃ r, replicas c' !! key t = Some r ∧ rrState r = "present" ∧ rrBytes r = tBytes t) ∧
  (∀ r, replicas c !! key t = Some r → stale t r = false → c' = c).
Proof.
  unfold markPresent. destruct (upsertWhere _ _ _ _ _) as [e|[c1 m]] eqn:E; [done|].
  destruct (upsertWhere_ok _ _ _ _ _ _ _ E) as (Hd & Hb & Ho & Hr). intros Hc.
  assert (replicas c' = replicas c1 ∧ blobs c' = blobs c1 ∧ same_demand c1 c' ∧ (m = 0%nat → c' = c1)) as (Hr' & Hb' & Hd' & H0).
  { destruct m; injection Hc as <-; split_and!; done. }
  rewrite Hr', Hb', Hb. split_and!; [by etrans|done| | |].
  - intros k Hk. destruct (replicas c !! key t) as [r|]; [destruct (stale t r)|].
    + destruct Hr as [_ ->]. by rewrite lookup_insert_ne.
    + by destruct Hr as [_ ->].
    + destruct Hr as (_ & _ & ->). by rewrite lookup_insert_ne.
  - destruct (replicas c !! key t) as [r|] eqn:Hk.
    + destruct (stale t r) eqn:Hs; destruct Hr as [_ ->]; [rewrite lookup_insert_eq; by eexists|].
      exists r. unfold stale, notPresent in Hs. apply orb_false_iff in Hs as [Hs1%negb_false_iff Hs2%negb_false_iff].
      split_and!; [done|by apply bool_decide_eq_true in Hs1|lia].
    + destruct Hr as (_ & _ & ->). rewrite lookup_insert_eq. by eexists.
  - intros r Hk Hs. rewrite Hk, Hs in Hr. destruct Hr as [Hm ->]. by apply H0.
Qed.

Lemma RecordBlobTransferred_ok t now w w' :
  RecordBlobTransferred t now w = (w', inr tt) →
  is_Some (files (disk w) !! tBlob t) ∧ disk w' = disk w ∧ same_demand (cat w) (cat w') ∧
  (∀ k, k ≠ key t → replicas (cat w') !! k = replicas (cat w) !! k) ∧
  (∀ h, h ≠ tBlob t → blobs (cat w') !! h = blobs (cat w) !! h) ∧
  is_Some (blobs (cat w') !! tBlob t) ∧ present (cat w') (tBlob t) (tDestination t).
Proof.
  unfold RecordBlobTransferred, Stat. destruct (files (disk w) !! tBlob t) as [f|] eqn:Hf; [|done].
  destruct (markPresent _ _ _) as [e|c'] eqn:E; [done|]. intros [= <-]. cbn.
  destruct (markPresent_ok _ _ _ _ E) as (Hd & Hb & Hr & (r & Hk & Hp & _) & _).
  destruct (describeBlob_ok t (cat w)) as (Hd' & Hr' & Hb' & Hs & _).
  split_and!; [by exists f|done|by etrans| | | |].
  - intros k Hk'. rewrite Hr by done. by rewrite Hr'.
  - intros h Hh. rewrite Hb. by apply Hb'.
  - by rewrite Hb.
  - by exists r.
Qed.

Lemma RecordBlobTransferred_row t now w w' :
  RecordBlobTransferred t now w = (w', inr tt) →
  ∃ r, replicas (cat w') !! key t = Some r ∧ rrState r = "present" ∧ rrBytes r = tBytes t.
Proof.
  unfold RecordBlobTransferred. destruct (Stat _ _); [done|]. destruct (markPresent _ _ _) as [e|c'] eqn:E; [done|].
  intros [= <-]. by destruct (markPresent_ok _ _ _ _ E) as (_ & _ & _ & Hrow & _).
Qed.

Lemma RecordBlobTransferred_err t now w w' e : RecordBlobTransferred t now w = (w', inl e) → w' = w.
Proof.
  unfold RecordBlobTransferred. destruct (Stat _ _); [by intros [= <- _]|].
  by destruct (markPresent _ _ _); [intros [= <- _]|].
Qed.

(** ** The records *)

(** What a transaction of a transfer may do to the replicas. *)
Definition keeps_present (c c' : Catalog) : Prop := ∀ h p, present c h p → present c' h p.

Lemma moveTo_keeps state transition t c c' :
  state ≠ "present" → moveTo state transition t c = inr c' → keeps_present c c'.
Proof.
  intros Hs Hm h p (r & Hk & Hp). destruct (moveTo_ok _ _ _ _ _ Hs Hm) as (_ & _ & Hr & Hpres & _).
  destruct (decide ((h, p) = key t)) as [[= -> ->]|Hne]; [|exists r; by rewrite Hr].
  exists r. rewrite Hpres; [done|by exists r].
Qed.

(** Every table but the blobs, the replicas and the outbox is as it was. *)
Definition elsewhere (c c' : Catalog) : Prop :=
  c' = mkCatalog (blobs c') (assets c) (pins c) (placements c) (thumbs c) (scanned c) (releases c) (evidence c)
         (replicas c') (peers c) (ledger c) (outbox c').

(** What a beginning or a failure writes: the state over the destination's row unless that
    is present, with no bytes and the instants it had, and the event that tells it. *)
Definition moves_to (state transition : string) (t : BlobTransfer) (c c' : Catalog) : Prop :=
  elsewhere c c' ∧ blobs c' = blobs c ∧
  (∀ k, k ≠ key t → replicas c' !! k = replicas c !! k) ∧
  (present c (tBlob t) (tDestination t) → replicas c' = replicas c) ∧
  (¬ present c (tBlob t) (tDestination t) →
   replicas c' !! key t = Some (mkReplicaRow state 0 (replicas c !! key t ≫= rrVerifiedAt) (replicas c !! key t ≫= rrReportedAt))) ∧
  outbox c' = outbox c ++
    [TransferChanged transition (tBlob t) (tSource t) (tDestination t) (tBytes t) (tReason t) (contributions t)].

(** There is a row of the replica, or there can be one. *)
Definition recordable (t : BlobTransfer) (c : Catalog) : Prop :=
  is_Some (replicas c !! key t) ∨ is_Some (blobs c !! tBlob t) ∧ is_Some (peers c !! tDestination t).

Lemma present_row c t r : replicas c !! key t = Some r → present c (tBlob t) (tDestination t) ↔ notPresent r = false.
Proof.
  intros Hr. unfold notPresent. rewrite negb_false_iff, bool_decide_eq_true. split.
  - intros (r' & Hr' & ?). unfold key in Hr. congruence.
  - intros ?. by exists r.
Qed.

Lemma canReference_iff c k : canReference c k = true ↔ is_Some (blobs c !! k.1) ∧ is_Some (peers c !! k.2).
Proof. unfold canReference. rewrite andb_true_iff, !negb_true_iff, !bool_decide_eq_false. by rewrite !not_eq_None_Some. Qed.

Lemma moveTo_moves state transition t c :
  match moveTo state transition t c with
  | inr c' => recordable t c ∧ moves_to state transition t c c'
  | inl e => e = ErrForeignKey ∧ ¬ recordable t c
  end.
Proof.
  unfold moveTo, upsertWhere, recordable. destruct (replicas c !! key t) as [r|] eqn:Hr.
  - pose proof (present_row c t r Hr) as Hp. destruct (notPresent r); (split; [by left; eexists|]); unfold moves_to; cbn.
    + rewrite Hr. split_and!; try done.
      * intros k Hk. by rewrite lookup_insert_ne.
      * by intros ?%Hp.
      * intros _. apply lookup_insert_eq.
    + split_and!; try done. intros Hn. exfalso. by apply Hn, Hp.
  - destruct (canReference c (key t)) eqn:Hc.
    + apply canReference_iff in Hc. split; [by right|]. unfold moves_to. cbn. rewrite Hr. split_and!; try done.
      * intros k Hk. by rewrite lookup_insert_ne.
      * intros (r & Hr' & _). unfold key in Hr. congruence.
      * intros _. apply lookup_insert_eq.
    + split; [done|]. intros [[? ?]|Hok]; [done|]. apply not_true_iff_false in Hc. by apply Hc, canReference_iff.
Qed.

Lemma describeBlob_elsewhere t c :
  elsewhere c (describeBlob t c) ∧
  ∃ evs, outbox (describeBlob t c) = outbox c ++ evs ∧
    Forall (λ ev, ev = BlobCreated (tBlob t) (tBytes t) ∨ ev = BlobSizeCorrected (tBlob t) (tBytes t)) evs.
Proof.
  unfold describeBlob, adoptBlob, elsewhere. destruct c as [bs ? ? ? ? ? ? ? ? ? ? ob]. cbn.
  destruct (bs !! tBlob t) as [r|] eqn:Hb; cbn.
  2:{ split; [done|]. eexists. split; [done|]. repeat constructor. }
  assert (∃ evs, ob = ob ++ evs ∧ Forall (λ ev, ev = BlobCreated (tBlob t) (tBytes t) ∨ ev = BlobSizeCorrected (tBlob t) (tBytes t)) evs)
    as Hnone by (exists []; by rewrite app_nil_r).
  destruct (0 <? tBytes t)%Z; [|done]. cbn. rewrite Hb. destruct (_ =? _)%Z; [done|]. cbn. split; [done|].
  eexists. split; [done|]. constructor; [by right|done].
Qed.

(** The row of the blob beside the replica: adopted, or its length corrected, or as it was. *)
Lemma describeBlob_keeps t c old :
  blobs c !! tBlob t = Some old → (tBytes t ≤ 0)%Z → describeBlob t c = c.
Proof. intros Hb Ht. unfold describeBlob, adoptBlob. rewrite Hb. by rewrite (proj2 (Z.ltb_ge _ _) Ht). Qed.

Lemma markPresent_elsewhere t now c0 c c' : elsewhere c0 c → markPresent t now c = inr c' → elsewhere c0 c'.
Proof.
  unfold markPresent, upsertWhere, elsewhere. intros He.
  destruct (replicas c !! key t) as [r|].
  - destruct (stale t r); intros [= <-]; rewrite He; done.
  - destruct (canReference c (key t)); [|done]. intros [= <-]. by rewrite He.
Qed.

(** The record of what is recorded already. *)
Lemma record_again t now w f :
  files (disk w) !! tBlob t = Some f →
  (∃ r, replicas (cat w) !! key t = Some r ∧ rrState r = "present" ∧ rrBytes r = tBytes t) →
  is_Some (blobs (cat w) !! tBlob t) → ((0 < tBytes t)%Z → rSize <$> blobs (cat w) !! tBlob t = Some (tBytes t)) →
  RecordBlobTransferred t now w = (w, inr tt).
Proof.
  intros Hf (r & Hk & Hp & Hbytes) [b Hb] Hsz. unfold RecordBlobTransferred, Stat. rewrite Hf.
  assert (describeBlob t (cat w) = cat w) as ->.
  { unfold describeBlob, adoptBlob. rewrite Hb in *. destruct (Z.ltb_spec 0 (tBytes t)) as [H0|]; [|done].
    rewrite Hb. injection (Hsz H0) as ->. by rewrite Z.eqb_refl. }
  unfold markPresent, upsertWhere. rewrite Hk.
  assert (stale t r = false) as ->; [|by destruct w].
  unfold stale, notPresent. rewrite bool_decide_true by done. apply negb_false_iff. lia.
Qed.


(** ** Witnesses *)

(** Node "z" has the bytes of the blob "h" and a row that says pending; of "g" it has no
    row, and of "k" one that says present. *)
Definition bt_world : World :=
  mkWorld
    (mkCatalog {["h" := mkRow 0 None; "g" := mkRow 5 None; "k" := mkRow 5 None]} [] ∅ ∅ ∅ [] ∅ []
       {[("h", "z") := mkReplicaRow "pending" 0 None (Some 7%Z); ("k", "z") := mkReplicaRow "present" 5 None None]}
       {["z" := mkPeerRow "z" "https://z" "reachable" "full" [] true]} [] [])
    (mkDisk {["h" := mkFile [x01; x02] 0]} ∅ ∅).
Definition bt_transfer (h : string) : BlobTransfer := mkTransfer h "a" "z" 2 ∅ "".

(** The transfer of "h" recorded, and recorded as failed; the one of "g" begun. *)
Definition bt_recorded : World := Eval vm_compute in (RecordBlobTransferred (bt_transfer "h") 9 bt_world).1.
Definition bt_failed : Catalog := Eval vm_compute in
  match RecordBlobTransferFailed (bt_transfer "h") "corrupt" (cat bt_world) with inr c => c | inl _ => cat bt_world end.
Definition bt_begun : Catalog := Eval vm_compute in
  match BeginBlobTransfer (bt_transfer "g") (cat bt_world) with inr c => c | inl _ => cat bt_world end.

Lemma bt_recorded_eq : RecordBlobTransferred (bt_transfer "h") 9 bt_world = (bt_recorded, inr tt).
Proof. by vm_compute. Qed.
Lemma bt_failed_eq : RecordBlobTransferFailed (bt_transfer "h") "corrupt" (cat bt_world) = inr bt_failed.
Proof. by vm_compute. Qed.
Lemma bt_begun_eq : BeginBlobTransfer (bt_transfer "g") (cat bt_world) = inr bt_begun.
Proof. by vm_compute. Qed.
Lemma bt_absent h : h = "h" ∨ h = "g" → ¬ present (cat bt_world) (tBlob (bt_transfer h)) (tDestination (bt_transfer h)).
Proof. intros [-> | ->] (r & Hr & Hst); vm_compute in Hr; [|done]. injection Hr as <-. by vm_compute in Hst. Qed.

