(* ===== verification/ReconcileSpec.v ===== *)
(** * ReconcileSpec: the theorems of the convergence cycle

    A cycle only enqueues, whatever fails, and one transfer per gap; undisturbed it queues
    the first gaps that no live job is closing.  Cycles whose transfers land close every
    gap of this node; gaps that only another node can close may keep them from it. *)

From S2P Require Import Prelude GoText GoPath BlobCatalog Transfers TransfersSpec Converge ConvergeSpec.
From S2P Require Import ReconcilePeer.
From S2P Require JobTable Jobs JobSteps JobQueue.
From S2P Require BlobTransfer BlobTransferSpec.

(** ** Enqueueing *)

(** What the cycle enqueues. *)
Inductive ours : Jobs.EnqueueOptions → Prop :=
  | ours_replicate g : ours (replicateOpts g)
  | ours_chunk h : ours (chunkOpts h).

Lemma ours_type o : ours o → Jobs.OptType o ≠ "" ∧ Jobs.OptDedupeKey o ≠ "".
Proof. by intros []. Qed.

Lemma elem_of_live q typ k :
  k ∈ Jobs.LiveDedupeKeys q typ ↔
  ∃ i r, Jobs.jobs q !! i = Some r ∧ JobTable.job_type r = typ ∧ JobTable.live r = true ∧ JobTable.dedupe_key r = Some k.
Proof.
  unfold Jobs.LiveDedupeKeys. rewrite elem_of_list_to_set, list_elem_of_omap. split.
  - intros ([i r] & Hin%elem_of_map_to_list & H). cbn in H.
    destruct (bool_decide _ && _) eqn:E; [|done]. apply andb_true_iff in E as [Ht%bool_decide_eq_true Hl]. eauto 6.
  - intros (i & r & Hi & Ht & Hl & Hk). exists (i, r). rewrite elem_of_map_to_list. split; [done|]. cbn.
    by rewrite bool_decide_true, Hl.
Qed.

(** A live job that holds one of the cycle's keys is of the type the cycle gives it. *)
Definition keys_typed (q : Jobs.Queue) : Prop :=
  ∀ i r o, Jobs.jobs q !! i = Some r → JobTable.live r = true → ours o →
    JobTable.dedupe_key r = Some (Jobs.OptDedupeKey o) → JobTable.job_type r = Jobs.OptType o.

Lemma ours_key o o' : ours o → ours o' → Jobs.OptDedupeKey o = Jobs.OptDedupeKey o' → Jobs.OptType o = Jobs.OptType o'.
Proof. by intros [] []. Qed.

Lemma newRow_facts id opts now :
  ours opts → let r := Jobs.newRow (Jobs.newJob id opts now) in
  JobTable.live r = true ∧ JobTable.job_type r = Jobs.OptType opts ∧
  JobTable.dedupe_key r = Some (Jobs.OptDedupeKey opts).
Proof. by intros []. Qed.

(** An enqueue under a fresh id: the key is live after it, and nothing else changed. *)
Lemma enqueue_ours id now q opts :
  ours opts → JobSteps.table_ok (Jobs.jobs q) → keys_typed q → Jobs.jobs q !! id = None →
  ∃ q' j, Jobs.Enqueue id now q opts = (q', inr j) ∧ JobSteps.table_ok (Jobs.jobs q') ∧ keys_typed q' ∧
    (∀ i, i ≠ id → Jobs.jobs q' !! i = Jobs.jobs q !! i) ∧ Jobs.jobs q ⊆ Jobs.jobs q' ∧
    ∀ typ k, k ∈ Jobs.LiveDedupeKeys q' typ ↔
      k ∈ Jobs.LiveDedupeKeys q typ ∨ typ = Jobs.OptType opts ∧ k = Jobs.OptDedupeKey opts.
Proof.
  intros Ho Hok Ht Hid. destruct (ours_type _ Ho) as [Hty Hkey].
  destruct (JobSteps.sound_enqueue id now q opts Hok) as [Hok' _].
  destruct (JobSteps.Enqueue_eq id now q opts Hok Hid Hty) as [(i & r & _ & (Hi & Hl & Hk) & He)|(Hfree & ev & _ & _ & He)];
    rewrite He in Hok' |- *; eexists _, _; (split; [reflexivity|]); (split; [exact Hok'|]).
  - split_and!; [done..|]. intros typ k. split; [by left|]. intros [?|[-> ->]]; [done|].
    apply elem_of_live. exists i, r. split_and!; [done|by apply (Ht i r opts)|done|done].
  - destruct (newRow_facts id opts now Ho) as (Nl & Nt & Nk). cbn [Jobs.jobs] in *. split_and!.
    + intros i r o. cbn [Jobs.jobs]. destruct (decide (i = id)) as [->|Hne].
      * rewrite lookup_insert_eq. intros [= <-] _ Ho'. rewrite Nk, Nt. intros [= Heq]. by apply ours_key.
      * rewrite lookup_insert_ne by done. apply Ht.
    + intros i Hne. by rewrite lookup_insert_ne.
    + by apply insert_subseteq.
    + intros typ k. rewrite !elem_of_live. cbn [Jobs.jobs]. split.
      * intros (i & r & Hi & Hr). destruct (decide (i = id)) as [->|Hne].
        -- rewrite lookup_insert_eq in Hi. injection Hi as <-. right. destruct Hr as (Ht' & _ & Hk').
           rewrite Nk in Hk'. split; congruence.
        -- rewrite lookup_insert_ne in Hi by done. left. eauto.
      * intros [(i & r & Hi & Hr)|[-> ->]].
        -- exists i, r. split; [|done]. rewrite lookup_insert_ne; [done|congruence].
        -- exists id. eexists. rewrite lookup_insert_eq. split_and!; [done|done|done|done].
Qed.

(** ** Any cycle *)

Lemma run_app I q ls q' ls' q'' :
  JobSteps.run I q ls q' → JobSteps.run I q' ls' q'' → JobSteps.run I q (ls ++ ls') q''.
Proof. induction 1; intros H'; [done|]. cbn. econstructor; [done|auto]. Qed.

(** Enqueues and nothing else. *)
Definition enqueues (q q' : Jobs.Queue) : Prop :=
  ∃ ls, Forall (λ l, ∃ id, l = JobSteps.LEnqueue id) ls ∧ ∀ I, JobSteps.run I q ls q'.

#[export] Instance enqueues_preorder : PreOrder enqueues.
Proof.
  split.
  - intros q. exists []. split; [constructor|]. intros I. constructor.
  - intros a b c (l & Hl & Hr) (l' & Hl' & Hr'). exists (l ++ l'). split; [by apply Forall_app|].
    intros I. by eapply run_app.
Qed.

Section any.
Context (ctl : Ctl).

Lemma enqueue_enqueues opts s : enqueues (lQueue s) (lQueue (enqueue ctl opts s).1).
Proof.
  unfold enqueue. destruct (faults ctl (lTick s)); [|reflexivity..].
  destruct (Jobs.Enqueue _ _ _ _) as [q' r] eqn:E. cbn.
  exists [JobSteps.LEnqueue (ids ctl (lTick s))]. split; [by repeat econstructor|]. intros I.
  econstructor; [|constructor]. replace q' with (Jobs.Enqueue (ids ctl (lTick s)) (times ctl (lTick s)) (lQueue s) opts).1
    by (by rewrite E). constructor.
Qed.

Lemma enqueue_counts opts s :
  lEnqueued (enqueue ctl opts s).1 = lEnqueued s ∧ lOffered (enqueue ctl opts s).1 = lOffered s ∧
  lAsked (enqueue ctl opts s).1 = lAsked s ∧ lTick (enqueue ctl opts s).1 = S (lTick s).
Proof. unfold enqueue. destruct (faults _ _); [|done..]. by destruct (Jobs.Enqueue _ _ _ _). Qed.

Lemma takeGap_enqueues self states g s :
  enqueues (lQueue s) (lQueue (takeGap ctl self states g s).1) ∧
  (lEnqueued (takeGap ctl self states g s).1 ≤ S (lEnqueued s))%nat.
Proof.
  unfold takeGap. pose proof (enqueue_enqueues (replicateOpts g) s) as He.
  destruct (enqueue_counts (replicateOpts g) s) as (Hc & _).
  destruct (enqueue ctl (replicateOpts g) s) as [s1 []]; cbn [fst] in *; [|split; [done|lia]..].
  do 2 (case_bool_decide; [split; [done|cbn; lia]|]).
  destruct (negb _); [split; [done|cbn; lia]|].
  set (s2 := ask (BlobHash g) (counted s1)).
  pose proof (enqueue_enqueues (chunkOpts (BlobHash g)) s2) as He2.
  destruct (enqueue_counts (chunkOpts (BlobHash g)) s2) as (Hc2 & _).
  destruct (enqueue ctl (chunkOpts (BlobHash g)) s2) as [s3 []]; cbn [fst] in *;
    (split; [by etrans|cbn in *; lia]).
Qed.

Lemma takeGaps_enqueues self states gaps s :
  enqueues (lQueue s) (lQueue (takeGaps ctl self states gaps s)) ∧
  (lEnqueued (takeGaps ctl self states gaps s) ≤ lEnqueued s + length gaps)%nat.
Proof.
  revert s. induction gaps as [|g gaps IH]; intros s; cbn [takeGaps]; [split; [reflexivity|cbn; lia]|].
  destruct (cancelled ctl (lTick s)); [split; [reflexivity|cbn; lia]|].
  destruct (takeGap_enqueues self states g s) as [H1 H2].
  destruct (takeGap ctl self states g s) as [s1 []]; cbn [fst] in *; [|split; [done|cbn; lia]].
  destruct (IH s1) as [H3 H4]. split; [by etrans|cbn; lia].
Qed.

Lemma offerChunks_count limit states live hs s : lEnqueued (offerChunks ctl limit states live hs s) = lEnqueued s.
Proof.
  revert s. induction hs as [|h hs IH]; intros s; cbn [offerChunks]; [done|].
  destruct (_ || cancelled _ _); [done|].
  assert (lEnqueued (offerChunk ctl states live h s).1 = lEnqueued s) as He.
  { unfold offerChunk. do 2 (case_bool_decide; [done|]). destruct (negb _); [done|].
    destruct (enqueue_counts (chunkOpts h) (ask h s)) as (Hc & _).
    by destruct (enqueue ctl (chunkOpts h) (ask h s)) as [s3 []]. }
  destruct (offerChunk ctl states live h s) as [s1 []]; cbn [fst] in He; [by rewrite IH|done].
Qed.

Lemma offerChunk_enqueues states live h s : enqueues (lQueue s) (lQueue (offerChunk ctl states live h s).1).
Proof.
  unfold offerChunk. do 2 (case_bool_decide; [reflexivity|]). destruct (negb _); [reflexivity|].
  pose proof (enqueue_enqueues (chunkOpts h) (ask h s)) as He.
  by destruct (enqueue ctl (chunkOpts h) (ask h s)) as [s3 []].
Qed.

Lemma offerChunks_enqueues limit states live hs s :
  enqueues (lQueue s) (lQueue (offerChunks ctl limit states live hs s)).
Proof.
  revert s. induction hs as [|h hs IH]; intros s; cbn [offerChunks]; [reflexivity|].
  destruct (_ || cancelled _ _); [reflexivity|]. pose proof (offerChunk_enqueues states live h s) as He.
  destruct (offerChunk ctl states live h s) as [s1 []]; cbn [fst] in *; [|done]. by etrans; [|apply IH].
Qed.
End any.

Lemma enqueues_ok q q' : enqueues q q' → JobSteps.table_ok (Jobs.jobs q) → JobSteps.table_ok (Jobs.jobs q').
Proof. intros (ls & _ & Hr) Hok. by apply (JobQueue.run_ok (λ z, z) q ls q'). Qed.

Lemma outstanding_length q gaps : (length (outstanding q gaps) ≤ length gaps)%nat.
Proof. apply length_filter. Qed.

Lemma Bound_spec l limit :
  (Bound l limit).1 ++ drop (length (Bound l limit).1) l = l ∧
  (Z.of_nat (length (Bound l limit).1) + (Bound l limit).2 = Z.of_nat (length l))%Z ∧
  (0 ≤ (Bound l limit).2)%Z ∧
  ((0 < limit)%Z → (Z.of_nat (length (Bound l limit).1) = Z.min limit (Z.of_nat (length l)))%Z).
Proof.
  unfold Bound. destruct (_ || _) eqn:E; cbn [fst snd].
  - rewrite drop_all, app_nil_r. split_and!; [done|lia|lia|]. apply orb_true_iff in E. lia.
  - apply orb_false_iff in E as [E1%Z.leb_gt E2%Z.leb_gt]. rewrite length_take, Nat.min_l by lia.
    rewrite take_drop. split_and!; [done|lia|lia|]. lia.
Qed.

(** ** A cycle that nothing disturbs *)

(** Every enqueue works, under an id nothing has had. *)
Record steady (ctl : Ctl) (q : Jobs.Queue) : Prop := mkSteady {
  steady_faults k : faults ctl k = Works;
  steady_ctx k : cancelled ctl k = false;
  steady_ids i j : ids ctl i = ids ctl j → i = j;
  steady_fresh k : Jobs.jobs q !! ids ctl k = None }.

Record queue_ok (q : Jobs.Queue) : Prop := mkOk {
  ok_table : JobSteps.table_ok (Jobs.jobs q);
  ok_typed : keys_typed q }.

Definition live_replicas (q : Jobs.Queue) : gset string := Jobs.LiveDedupeKeys q ReplicateBlobJobType.
Definition live_chunks (q : Jobs.Queue) : gset string := Jobs.LiveDedupeKeys q ChunkBlobJobType.

Section steadily.
Context (ctl : Ctl) (q0 : Jobs.Queue) (Hst : steady ctl q0).

(** The queue of a loop, whose coming ids are fresh. *)
Record going (s : Loop) : Prop := mkGoing {
  going_ok : queue_ok (lQueue s);
  going_fresh k : (lTick s ≤ k)%nat → Jobs.jobs (lQueue s) !! ids ctl k = None }.

Lemma going_same s s' : lQueue s' = lQueue s → lTick s' = lTick s → going s → going s'.
Proof. intros Hq Ht [Ho Hf]. split; rewrite Hq; [done|]. intros k Hk. apply Hf. lia. Qed.

Lemma enqueue_steady opts s :
  ours opts → going s →
  ∃ s', enqueue ctl opts s = (s', Added) ∧ going s' ∧
    lEnqueued s' = lEnqueued s ∧ lOffered s' = lOffered s ∧ lAsked s' = lAsked s ∧
    Jobs.jobs (lQueue s) ⊆ Jobs.jobs (lQueue s') ∧
    ∀ typ k, k ∈ Jobs.LiveDedupeKeys (lQueue s') typ ↔
      k ∈ Jobs.LiveDedupeKeys (lQueue s) typ ∨ typ = Jobs.OptType opts ∧ k = Jobs.OptDedupeKey opts.
Proof.
  intros Ho [[Hok Ht] Hf]. unfold enqueue. rewrite (steady_faults _ _ Hst).
  destruct (enqueue_ours (ids ctl (lTick s)) (times ctl (lTick s)) (lQueue s) opts Ho Hok Ht (Hf _ (le_n _)))
    as (q' & j & -> & Hok' & Ht' & Hrest & Hsub & Hl).
  eexists. split; [reflexivity|]. split_and!; try done. split; [done|]. cbn. intros k Hk.
  rewrite Hrest; [apply Hf; lia|]. intros Heq%(steady_ids _ _ Hst). lia.
Qed.

(** The blobs a transfer of which leaves another node than this one to be chunked. *)
Definition to_chunk (self : string) (states : gmap string string) (gaps : list Gap) (k : string) : Prop :=
  ∃ g, g ∈ gaps ∧ PeerID g ≠ self ∧ undecided states (BlobHash g) = true ∧ k = ChunkBlobDedupeKey (BlobHash g).

(** A key the loop has asked for is live, if it had to be. *)
Definition asked_live (states : gmap string string) (s : Loop) : Prop :=
  ∀ h, h ∈ lAsked s → undecided states h = true → ChunkBlobDedupeKey h ∈ live_chunks (lQueue s).

(** What a piece of the loop did: [n] transfers more, with keys [R], and chunkings [C]. *)
Record did (states : gmap string string) (n : nat) (R C : string → Prop) (s s' : Loop) : Prop := mkDid {
  did_going : going s';
  did_asked : asked_live states s';
  did_count : lEnqueued s' = (lEnqueued s + n)%nat;
  did_offered : lOffered s' = lOffered s;
  did_jobs : Jobs.jobs (lQueue s) ⊆ Jobs.jobs (lQueue s');
  did_replicas k : k ∈ live_replicas (lQueue s') ↔ k ∈ live_replicas (lQueue s) ∨ R k;
  did_chunks k : k ∈ live_chunks (lQueue s') ↔ k ∈ live_chunks (lQueue s) ∨ C k }.

Lemma did_trans states n m (R R' C C' : string → Prop) s1 s2 s3 :
  did states n R C s1 s2 → did states m R' C' s2 s3 →
  did states (n + m) (λ k, R k ∨ R' k) (λ k, C k ∨ C' k) s1 s3.
Proof.
  intros [] []. split; [done|done|lia|congruence|by etrans| |]; intros k.
  - rewrite did_replicas1, did_replicas0. tauto.
  - rewrite did_chunks1, did_chunks0. tauto.
Qed.

Lemma did_weaken states n (R R' C C' : string → Prop) s s' :
  did states n R C s s' →
  (∀ k, k ∈ live_replicas (lQueue s) ∨ R k ↔ k ∈ live_replicas (lQueue s) ∨ R' k) →
  (∀ k, k ∈ live_chunks (lQueue s) ∨ C k ↔ k ∈ live_chunks (lQueue s) ∨ C' k) → did states n R' C' s s'.
Proof.
  intros [] HR HC. split; [done..| |]; intros k; [by rewrite did_replicas0|by rewrite did_chunks0].
Qed.

Definition none : string → Prop := λ _, False.

Lemma did_ask states n R C s s' h :
  undecided states h = false → did states n R C s s' → did states n R C s (ask h s').
Proof.
  intros Hu []. split; [by apply (going_same s')| |done..]. intros h' Hh. cbn in Hh |- *.
  apply elem_of_union in Hh as [->%elem_of_singleton|Hh]; [congruence|by apply did_asked0].
Qed.

Lemma chunk_steady states h s :
  going s → asked_live states s →
  ∃ s', enqueue ctl (chunkOpts h) (ask h s) = (s', Added) ∧
    did states 0 none (λ k, k = ChunkBlobDedupeKey h) s s'.
Proof.
  intros Hs Ha. destruct (enqueue_steady (chunkOpts h) (ask h s) (ours_chunk h)) as (s' & E & Hs' & Hn & Hof & Has & Hsub & Hl).
  { by apply (going_same s). }
  exists s'. split; [done|].
  assert (∀ k, k ∈ live_chunks (lQueue s') ↔ k ∈ live_chunks (lQueue s) ∨ k = ChunkBlobDedupeKey h) as Hlc.
  { intros k. unfold live_chunks. rewrite Hl. cbn. split; [intros [?|[_ ?]]; auto|intros [?|?]; auto]. }
  split; [done| |by rewrite Hn, Nat.add_0_r|done|done| |done].
  - intros h' Hh Hu. rewrite Has in Hh. cbn in Hh. apply Hlc.
    apply elem_of_union in Hh as [->%elem_of_singleton|Hh]; [by right|left; by apply Ha].
  - intros k. unfold live_replicas, none. rewrite Hl. cbn. split; [|by intros [?|[]]; left]. by intros [?|[? _]]; [left|].
Qed.

Lemma takeGap_steady self states g s :
  going s → asked_live states s →
  ∃ s', takeGap ctl self states g s = (s', true) ∧
    did states 1 (λ k, k = DedupeKey g) (to_chunk self states [g]) s s'.
Proof.
  intros Hs Ha. unfold takeGap.
  destruct (enqueue_steady (replicateOpts g) s (ours_replicate g) Hs) as (s1 & -> & Hs1 & Hn & Hof & Has & Hsub & Hl).
  assert (∀ k, k ∈ live_chunks (lQueue s1) ↔ k ∈ live_chunks (lQueue s)) as Hlc.
  { intros k. unfold live_chunks. rewrite Hl. split; [|by left]. by intros [?|[? _]]. }
  assert (∀ k, k ∈ live_replicas (lQueue s1) ↔ k ∈ live_replicas (lQueue s) ∨ k = DedupeKey g) as Hlr.
  { intros k. unfold live_replicas. rewrite Hl. split; [intros [?|[_ ?]]; auto|intros [?|?]; auto]. }
  assert (did states 1 (λ k, k = DedupeKey g) none s (counted s1)) as Hdid.
  { split; [by apply (going_same s1)| |cbn; lia|done|done|done|].
    - intros h Hh Hu. cbn. apply Hlc, Ha; [|done]. cbn in Hh. by rewrite Has in Hh.
    - intros k. rewrite Hlc. unfold none. tauto. }
  assert (∀ k, to_chunk self states [g] k ↔ PeerID g ≠ self ∧ undecided states (BlobHash g) = true ∧
    k = ChunkBlobDedupeKey (BlobHash g)) as Htc.
  { intros k. unfold to_chunk. setoid_rewrite list_elem_of_singleton. naive_solver. }
  case_bool_decide as Hp.
  { eexists. split; [done|]. apply (did_weaken _ _ _ _ _ _ _ _ Hdid); [done|]. intros k. rewrite Htc. unfold none. tauto. }
  case_bool_decide as Hh.
  { eexists. split; [done|]. apply (did_weaken _ _ _ _ _ _ _ _ Hdid); [done|]. intros k. rewrite Htc. unfold none.
    split; [tauto|]. intros [?|(_ & Hu & ->)]; [tauto|]. left. apply Hlc.
    apply (did_asked _ _ _ _ _ _ Hdid); [done|done]. }
  destruct (undecided states (BlobHash g)) eqn:Hu; cbn [negb].
  2:{ eexists. split; [done|]. apply did_ask; [done|]. apply (did_weaken _ _ _ _ _ _ _ _ Hdid); [done|].
      intros k. rewrite Htc. unfold none. split; [tauto|]. by intros [?|(_ & ? & _)]; [left|]. }
  destruct (chunk_steady states (BlobHash g) (counted s1)) as (s3 & -> & Hd3).
  { apply (did_going _ _ _ _ _ _ Hdid). }
  { apply (did_asked _ _ _ _ _ _ Hdid). }
  eexists. split; [done|]. apply (did_weaken _ _ _ _ _ _ _ _ (did_trans _ _ _ _ _ _ _ _ _ _ Hdid Hd3)).
  - intros k. unfold none. tauto.
  - intros k. rewrite Htc. unfold none. tauto.
Qed.

Lemma takeGaps_steady self states gaps s :
  going s → asked_live states s →
  did states (length gaps) (λ k, k ∈ DedupeKey <$> gaps) (to_chunk self states gaps) s (takeGaps ctl self states gaps s).
Proof.
  revert s. induction gaps as [|g gaps IH]; intros s Hs Ha; cbn [takeGaps].
  { split; [done..|cbn; lia|done|done| |]; intros k; (split; [by left|]).
    - by intros [?|?%elem_of_nil].
    - by intros [?|(g & ?%elem_of_nil & _)]. }
  rewrite (steady_ctx _ _ Hst). destruct (takeGap_steady self states g s Hs Ha) as (s1 & -> & Hd1).
  pose proof (IH s1 (did_going _ _ _ _ _ _ Hd1) (did_asked _ _ _ _ _ _ Hd1)) as Hd2.
  apply (did_weaken _ _ _ _ _ _ _ _ (did_trans _ _ _ _ _ _ _ _ _ _ Hd1 Hd2)).
  - intros k. cbn. rewrite elem_of_cons. tauto.
  - intros k. unfold to_chunk. setoid_rewrite elem_of_cons. setoid_rewrite elem_of_nil.
    split; [intros [?|[(x & [?|[]] & ?)|(x & ? & ?)]]; eauto 6|].
    intros [?|(x & [?|?] & ?)]; [auto|right; left; eauto 6|right; right; eauto 6].
Qed.

(** The chunkings of what is offered: undecided blobs of the offer, no transfer among them,
    at most [limit] of them, and if fewer all of them. *)
Record offers (limit : Z) (states : gmap string string) (hs : list string) (s s' : Loop) : Prop := mkOffers {
  off_going : going s';
  off_asked : asked_live states s';
  off_count : lEnqueued s' = lEnqueued s;
  off_bound : (0 < limit)%Z → (lOffered s ≤ limit)%Z → (lOffered s ≤ lOffered s' ≤ limit)%Z;
  off_jobs : Jobs.jobs (lQueue s) ⊆ Jobs.jobs (lQueue s');
  off_replicas k : k ∈ live_replicas (lQueue s') ↔ k ∈ live_replicas (lQueue s);
  off_chunks k : k ∈ live_chunks (lQueue s') → k ∈ live_chunks (lQueue s) ∨
    ∃ h, h ∈ hs ∧ undecided states h = true ∧ k = ChunkBlobDedupeKey h;
  off_all : (lOffered s' < limit ∨ limit ≤ 0)%Z → ∀ h, h ∈ hs → undecided states h = true →
    ChunkBlobDedupeKey h ∈ live_chunks (lQueue s') }.

Lemma jobs_live q q' typ k : Jobs.jobs q ⊆ Jobs.jobs q' → k ∈ Jobs.LiveDedupeKeys q typ → k ∈ Jobs.LiveDedupeKeys q' typ.
Proof.
  intros Hs. rewrite !elem_of_live. intros (i & r & Hi & ?). exists i, r. split; [|done]. by eapply lookup_weaken.
Qed.

Lemma offerChunk_steady states (live : gset string) h s :
  going s → asked_live states s → (∀ k, k ∈ live → k ∈ live_chunks (lQueue s)) →
  ∃ s', offerChunk ctl states live h s = (s', true) ∧ going s' ∧ asked_live states s' ∧
    lEnqueued s' = lEnqueued s ∧ (lOffered s ≤ lOffered s' ≤ lOffered s + 1)%Z ∧
    Jobs.jobs (lQueue s) ⊆ Jobs.jobs (lQueue s') ∧
    (∀ k, k ∈ live_replicas (lQueue s') ↔ k ∈ live_replicas (lQueue s)) ∧
    (∀ k, k ∈ live_chunks (lQueue s') → k ∈ live_chunks (lQueue s) ∨ undecided states h = true ∧ k = ChunkBlobDedupeKey h) ∧
    (undecided states h = true → ChunkBlobDedupeKey h ∈ live_chunks (lQueue s')).
Proof.
  intros Hs Ha Hlive. unfold offerChunk.
  case_bool_decide as Hh.
  { eexists. split; [done|]. split_and!; try done; try lia; [by left|by apply Ha]. }
  assert (going (ask h s)) as Hs' by (by apply (going_same s)).
  case_bool_decide as Hl.
  { eexists. split; [done|]. assert (asked_live states (ask h s)) as Ha'.
    { intros h' Hin Hu. cbn in *. apply elem_of_union in Hin as [->%elem_of_singleton|?]; [by apply Hlive|by apply Ha]. }
    split_and!; try done; try (cbn; lia); [by left|]. intros _. by apply Hlive. }
  destruct (undecided states h) eqn:Hu; cbn [negb].
  2:{ eexists. split; [done|]. assert (asked_live states (ask h s)) as Ha'.
      { intros h' Hin Hu'. cbn in *. apply elem_of_union in Hin as [->%elem_of_singleton|?]; [congruence|by apply Ha]. }
      split_and!; try done; try (cbn; lia). by left. }
  destruct (chunk_steady states h s Hs Ha) as (s3 & E & Hd). pose proof (enqueue_counts ctl (chunkOpts h) (ask h s)) as Hc.
  rewrite E in Hc |- *. destruct Hc as (_ & Ho & _ & _). destruct Hd. cbn in Ho. eexists. split; [done|].
  split_and!; [by apply (going_same s3)|done|cbn; lia|cbn; lia|cbn; lia|done| | |].
  - intros k. cbn. rewrite did_replicas0. unfold none. tauto.
  - intros k. cbn. rewrite did_chunks0. tauto.
  - intros _. cbn. apply did_chunks0. by right.
Qed.

Lemma offerChunks_steady limit states (live : gset string) hs s :
  going s → asked_live states s → (∀ k, k ∈ live → k ∈ live_chunks (lQueue s)) →
  offers limit states hs s (offerChunks ctl limit states live hs s).
Proof.
  revert s. induction hs as [|h hs IH]; intros s Hs Ha Hlive; cbn [offerChunks].
  { split; try done; try lia; [by left|]. by intros _ h ?%elem_of_nil. }
  destruct ((0 <? limit)%Z && (limit <=? lOffered s)%Z) eqn:Hb; cbn [orb].
  { apply andb_true_iff in Hb as [?%Z.ltb_lt ?%Z.leb_le]. split; try done; try lia; by left. }
  rewrite (steady_ctx _ _ Hst).
  destruct (offerChunk_steady states live h s Hs Ha Hlive) as (s1 & -> & Hs1 & Ha1 & Hn & Ho & Hj & Hr & Hc & Hk).
  destruct (IH s1) as [Hg Has Hcount Hbound Hjobs Hrep Hch Hall]; [done|done| |].
  { intros k Hin. apply (jobs_live _ _ _ _ Hj), Hlive, Hin. }
  split; [done|done|congruence| |by etrans| | |].
  - intros H0 Hle. apply andb_false_iff in Hb as [?%Z.ltb_ge|?%Z.leb_gt]; [lia|].
    assert (lOffered s1 ≤ limit)%Z as Hle1 by lia. pose proof (Hbound H0 Hle1). lia.
  - intros k. by rewrite Hrep.
  - intros k [Hin|(x & ? & ?)]%Hch; [|right; exists x; by split; [right|]].
    apply Hc in Hin as [?|[? ?]]; [by left|right]. exists h. by split; [left|].
  - intros Hlim x [->|Hx]%elem_of_cons Hu; [|by apply Hall]. apply (jobs_live _ _ _ _ Hjobs). by apply Hk.
Qed.
End steadily.

(** ** The handler *)

Section handler.
Context {C : Type} `{ReconcilePeerStore C} (ctl : Ctl) (limit : Z) (c : C) (q : Jobs.Queue).

(** The gaps a cycle takes. *)
Definition takenOf (plan : PeerConvergence) : list Gap := (Bound (outstanding q (Gaps plan)) limit).1.

Lemma takenOf_outstanding plan g : g ∈ takenOf plan → g ∈ Gaps plan ∧ DedupeKey g ∉ live_replicas q.
Proof.
  intros Hg. assert (g ∈ outstanding q (Gaps plan)) as Ho.
  { destruct (Bound_spec (outstanding q (Gaps plan)) limit) as [<- _]. apply elem_of_app. by left. }
  unfold outstanding in Ho. by apply list_elem_of_filter in Ho as [? ?].
Qed.

(** The cycle over a plan, the manifests' states and this node's id. *)
Definition cycle_of (plan : PeerConvergence) (states : gmap string string) (self : string) : Outcome :=
  let s1 := takeGaps ctl self states (takenOf plan) (mkLoop q 0 0 ∅ 0) in
  let live := if bool_decide (OfferedBlobs plan = []) then ∅ else live_chunks (lQueue s1) in
  let s2 := offerChunks ctl limit states live (OfferedBlobs plan) s1 in
  let sum := mkSummary (Scope plan) (length (PlanPeers plan)) (Desired plan) (length (Gaps plan))
    (length (Gaps plan) - length (outstanding q (Gaps plan))) (lEnqueued s2)
    (Bound (outstanding q (Gaps plan)) limit).2 (Missing plan) in
  if cancelled ctl (lTick s2) then mkOutcome c (lQueue s2) (Some sum) None
  else match RecordReconciled sum c with
       | inl e => mkOutcome c (lQueue s2) (Some sum) (Some (ErrStore e))
       | inr c' => mkOutcome c' (lQueue s2) (Some sum) None
       end.

(** Nothing is chunked: the states are not read. *)
Definition idle (plan : PeerConvergence) : Prop := takenOf plan = [] ∧ OfferedBlobs plan = [].

Lemma cycle_of_idle plan states states' self : idle plan → cycle_of plan states self = cycle_of plan states' self.
Proof. intros [Ht Ho]. unfold cycle_of. by rewrite Ht, Ho. Qed.

Lemma handler_cases payload :
  (∃ e, reconcilePeerHandler ctl limit payload c q = mkOutcome c q None (Some e)) ∨
  ∃ scope plan states self, payload = Some scope ∧ PlanConvergence c scope = inr plan ∧ SelfPeer c = inr self ∧
    (idle plan ∨ ChunkManifestStates c = inr states) ∧
    reconcilePeerHandler ctl limit payload c q = cycle_of plan states self.
Proof.
  unfold reconcilePeerHandler, cycle_of, idle, takenOf. destruct payload as [scope|]; [|by left; eexists].
  destruct (PlanConvergence c scope) as [e|plan] eqn:Hp; [by left; eexists|].
  destruct (Bound (outstanding q (Gaps plan)) limit) as [taken deferred] eqn:Hb. cbn [fst snd].
  destruct (bool_decide (taken = []) && bool_decide (OfferedBlobs plan = [])) eqn:E.
  - apply andb_true_iff in E as [E1%bool_decide_eq_true E2%bool_decide_eq_true].
    destruct (SelfPeer c) as [e|self] eqn:Hself; [by left; eexists|]. right.
    exists scope, plan, ∅, self. rewrite Hb. split_and!; [done..|by left|done].
  - destruct (ChunkManifestStates c) as [e|states] eqn:Hs; [by left; eexists|].
    destruct (SelfPeer c) as [e|self] eqn:Hself; [by left; eexists|]. right.
    exists scope, plan, states, self. rewrite Hb. split_and!; [done..|by right|done].
Qed.

Lemma handler_steps scope plan (states : gmap string string) self :
  PlanConvergence c scope = inr plan → ChunkManifestStates c = inr states → SelfPeer c = inr self →
  reconcilePeerHandler ctl limit (Some scope) c q = cycle_of plan states self.
Proof.
  intros Hp Hs Hself. destruct (handler_cases (Some scope)) as [(e & He)|(sc & plan' & states' & self' & [= <-] & Hp' & Hself' & Hst & ->)].
  - unfold reconcilePeerHandler in He. rewrite Hp in He. destruct (Bound _ _) as [taken deferred].
    rewrite Hs in He. assert (∀ x : gmap string string, (if bool_decide (taken = []) && bool_decide (OfferedBlobs plan = []) then inr ∅ else inr x)
      = inr (A := BlobCatalog.error) (if bool_decide (taken = []) && bool_decide (OfferedBlobs plan = []) then ∅ else x)) as Hif.
    { intros x. by destruct (_ && _). }
    rewrite Hif, Hself in He. destruct (cancelled _ _); [done|]. by destruct (RecordReconciled _ _).
  - assert (plan' = plan ∧ self' = self) as [-> ->] by (split; congruence).
    destruct Hst as [Hi|Hst]; [by apply cycle_of_idle|]. by replace states' with states by congruence.
Qed.

Lemma cycle_of_enqueues plan states self :
  let o := cycle_of plan states self in
  enqueues q (oQueue o) ∧
  ∃ sum, oSummary o = Some sum ∧ (oStore o = c ∨ RecordReconciled sum c = inr (oStore o)) ∧
    (Enqueued sum ≤ length (takenOf plan))%nat ∧ UnderReplicated sum = length (Gaps plan) ∧
    InFlight sum = (length (Gaps plan) - length (outstanding q (Gaps plan)))%nat ∧
    Deferred sum = (Bound (outstanding q (Gaps plan)) limit).2.
Proof.
  cbv zeta. unfold cycle_of. set (s1 := takeGaps _ _ _ _ _). set (s2 := offerChunks _ _ _ _ _ _).
  destruct (takeGaps_enqueues ctl self states (takenOf plan) (mkLoop q 0 0 ∅ 0)) as [H1 Hn]. fold s1 in H1, Hn. cbn in H1, Hn.
  assert (enqueues q (lQueue s2)) as H2 by (etrans; [exact H1|apply offerChunks_enqueues]).
  assert (lEnqueued s2 = lEnqueued s1) as Hn2 by apply offerChunks_count.
  set (sum := mkSummary _ _ _ _ _ _ _ _).
  destruct (cancelled ctl (lTick s2)); [|destruct (RecordReconciled sum c) eqn:E];
    (split; [done|]; exists sum; split_and!; [done|by auto|cbn; lia|done..]).
Qed.
End handler.

(** Whatever fails and whenever it is cancelled, a cycle only enqueues: no row is changed or
    lost, the table stays sound, no gap ever has two live jobs, and the catalog is written
    once, by the record, or not at all; it counts no more transfers than its bound and
    than there are gaps. *)
Theorem cycle_only_enqueues {C : Type} `{ReconcilePeerStore C} (ctl : Ctl) (limit : Z) (payload : option string)
    (c : C) (q : Jobs.Queue) :
  JobSteps.table_ok (Jobs.jobs q) →
  let o := reconcilePeerHandler ctl limit payload c q in
  enqueues q (oQueue o) ∧ JobSteps.table_ok (Jobs.jobs (oQueue o)) ∧
  (∀ i j r s g, JobSteps.holder (Jobs.jobs (oQueue o)) (DedupeKey g) i r →
     JobSteps.holder (Jobs.jobs (oQueue o)) (DedupeKey g) j s → i = j) ∧
  (oStore o = c ∨ ∃ sum, oSummary o = Some sum ∧ RecordReconciled sum c = inr (oStore o)) ∧
  (∀ sum, oSummary o = Some sum →
     (0 < limit → Z.of_nat (Enqueued sum) ≤ limit)%Z ∧
     (Z.of_nat (InFlight sum) + Z.of_nat (Enqueued sum) + Deferred sum ≤ Z.of_nat (UnderReplicated sum))%Z).
Proof.
  intros Hok. cbv zeta. set (o := reconcilePeerHandler _ _ _ _ _).
  assert (enqueues q (oQueue o) → JobSteps.table_ok (Jobs.jobs (oQueue o)) ∧ ∀ i j r s g,
     JobSteps.holder (Jobs.jobs (oQueue o)) (DedupeKey g) i r →
     JobSteps.holder (Jobs.jobs (oQueue o)) (DedupeKey g) j s → i = j) as Ht.
  { intros He. pose proof (enqueues_ok _ _ He Hok) as Hok'. split; [done|].
    intros i j r s g Hi Hj. destruct Hok' as [_ Hu]. by eapply JobQueue.holder_unique. }
  destruct (handler_cases ctl limit c q payload) as [(e & He)|(scope & plan & states & self & _ & _ & _ & _ & He)];
    fold o in He; rewrite He in Ht |- *.
  { destruct (Ht (reflexivity q)) as [? ?]. split_and!; [reflexivity|done|done|by left|done]. }
  destruct (cycle_of_enqueues ctl limit c q plan states self) as (Hq & sum & Hs & Hst & Hn & Hu & Hi & Hd).
  destruct (Ht Hq) as [? ?]. split_and!; [done|done|done|destruct Hst; eauto|].
  intros sum' Hs'. rewrite Hs in Hs'. injection Hs' as <-.
  destruct (Bound_spec (outstanding q (Gaps plan)) limit) as (_ & Hb & Hd0 & Hl).
  pose proof (outstanding_length q (Gaps plan)). unfold takenOf in Hn. split; [lia|lia].
Qed.

(** What a cycle nothing disturbs leaves. *)
Record queued (q q' : Jobs.Queue) (self : string) (states : gmap string string) (taken : list Gap)
    (offered : list string) : Prop := mkQueued {
  qd_ok : queue_ok q';
  qd_jobs : Jobs.jobs q ⊆ Jobs.jobs q';
  qd_replicas k : k ∈ live_replicas q' ↔ k ∈ live_replicas q ∨ k ∈ DedupeKey <$> taken;
  qd_chunked k : to_chunk self states taken k → k ∈ live_chunks q';
  qd_chunks k : k ∈ live_chunks q' → k ∈ live_chunks q ∨ to_chunk self states taken k ∨
    ∃ h, h ∈ offered ∧ undecided states h = true ∧ k = ChunkBlobDedupeKey h }.

Lemma cycle_of_steady {C : Type} `{ReconcilePeerStore C} ctl limit (c : C) q plan states self :
  steady ctl q → queue_ok q →
  let o := cycle_of ctl limit c q plan states self in
  queued q (oQueue o) self states (takenOf limit q plan) (OfferedBlobs plan) ∧
  ∃ sum, oSummary o = Some sum ∧ Enqueued sum = length (takenOf limit q plan) ∧
    match RecordReconciled sum c with
    | inl e => oErr o = Some (ErrStore e) ∧ oStore o = c
    | inr c' => oErr o = None ∧ oStore o = c'
    end.
Proof.
  intros Hst Hok. cbv zeta. unfold cycle_of. set (taken := takenOf limit q plan).
  set (s0 := mkLoop q 0 0 ∅ 0). set (s1 := takeGaps _ _ _ _ _). set (live := if bool_decide (OfferedBlobs plan = []) then ∅ else live_chunks (lQueue s1)).
  set (s2 := offerChunks _ _ _ _ _ _). set (sum := mkSummary _ _ _ _ _ _ _ _).
  assert (did ctl states (length taken) (λ k, k ∈ DedupeKey <$> taken) (to_chunk self states taken) s0 s1) as Hd.
  { apply (takeGaps_steady ctl q Hst); [|by intros h ?%elem_of_empty]. split; [done|]. intros k _. apply (steady_fresh _ _ Hst). }
  destruct Hd as [Hg Ha Hn _ Hj Hr Hc]. cbn in Hn, Hj, Hr, Hc.
  assert (offers ctl limit states (OfferedBlobs plan) s1 s2) as [Hg2 _ Hn2 _ Hj2 Hr2 Hc2 _].
  { apply (offerChunks_steady ctl q Hst); [done|done|]. intros k. unfold live. case_bool_decide; [by intros ?%elem_of_empty|done]. }
  assert (queued q (lQueue s2) self states taken (OfferedBlobs plan)) as Hq.
  { split; [apply Hg2|by etrans| | |].
    - intros k. by rewrite Hr2, Hr.
    - intros k Hk. apply (jobs_live _ _ _ _ Hj2). apply Hc. by right.
    - intros k [Hk|?]%Hc2; [|by right; right]. apply Hc in Hk as [?|?]; [by left|by right; left]. }
  rewrite (steady_ctx _ _ Hst). destruct (RecordReconciled sum c) as [e|c'] eqn:E; (split; [done|]);
    (exists sum; split_and!; [done|cbn; lia|by rewrite E]).
Qed.

(** Undisturbed, a cycle queues a transfer for each of the first gaps, in the order of the
    plan and up to its bound, that no live job is closing, and nothing for any other; with
    one chunking for each undecided blob among those that leave for another node, and for
    nothing else but what is offered; what is in flight, what it queued and what it deferred
    are all the gaps; and it records itself.  The next cycle takes none of these gaps. *)
Theorem cycle_queues {C : Type} `{ReconcilePeerStore C} (ctl : Ctl) (limit : Z) (scope self : string) (c : C)
    (q : Jobs.Queue) (plan : PeerConvergence) (states : gmap string string) :
  steady ctl q → queue_ok q →
  PlanConvergence c scope = inr plan → ChunkManifestStates c = inr states → SelfPeer c = inr self →
  let o := reconcilePeerHandler ctl limit (Some scope) c q in
  let taken := (Bound (outstanding q (Gaps plan)) limit).1 in
  queued q (oQueue o) self states taken (OfferedBlobs plan) ∧
  (∃ later, outstanding q (Gaps plan) = taken ++ later) ∧
  ((0 < limit)%Z → Z.of_nat (length taken) = Z.min limit (Z.of_nat (length (outstanding q (Gaps plan))))) ∧
  (∀ g, g ∈ taken → g ∉ outstanding (oQueue o) (Gaps plan)) ∧
  ∃ sum, oSummary o = Some sum ∧ Enqueued sum = length taken ∧
    (Z.of_nat (InFlight sum) + Z.of_nat (Enqueued sum) + Deferred sum = Z.of_nat (UnderReplicated sum))%Z ∧
    match RecordReconciled sum c with
    | inl e => oErr o = Some (ErrStore e) ∧ oStore o = c
    | inr c' => oErr o = None ∧ oStore o = c'
    end.
Proof.
  intros Hst Hok Hp Hs Hself. cbv zeta. rewrite (handler_steps ctl limit c q scope plan states self) by done.
  destruct (cycle_of_steady ctl limit c q plan states self Hst Hok) as (Hq & sum & Hsum & Hn & Hrec).
  destruct (cycle_of_enqueues ctl limit c q plan states self) as (_ & sum' & Hs' & _ & _ & Hu & Hi & Hd).
  assert (sum' = sum) as -> by congruence.
  destruct (Bound_spec (outstanding q (Gaps plan)) limit) as (Happ & Hb & _ & Hl).
  pose proof (outstanding_length q (Gaps plan)). unfold takenOf in *. split_and!; [done|by eexists|done| |].
  - intros g Hg Ho. unfold outstanding in Ho. apply list_elem_of_filter in Ho as [Hnot _]. apply Hnot.
    apply (qd_replicas _ _ _ _ _ _ Hq). right. by apply list_elem_of_fmap_2.
  - exists sum. split_and!; [done|done|lia|done].
Qed.

(** ** Examples *)

Definition rc_ctl : Ctl := mkCtl (λ k, "job-" +:+ pretty k) (λ k, Z.of_nat k + 1)%Z (λ _, Works) (λ _, false).
Definition rc_states : gmap string string := {["a" := StateUndecided; "c" := StateUndecided]}.
#[local] Instance rc_store : ReconcilePeerStore Catalog := catalogStore cv_node rc_states.

Definition rc_plan : PeerConvergence :=
  mkPlan "" ["it"; "me"] 1 [mkGap "a" "it"; mkGap "a" "me"; mkGap "b" "me"] 0 1 ["c"].

Lemma rc_steady : steady rc_ctl Jobs.NewQueue.
Proof. split; [done|done| |done]. intros i j H. cbn in H. by apply (inj pretty), (inj (String.append "job-")). Qed.

Lemma NewQueue_queue_ok : queue_ok Jobs.NewQueue.
Proof. split; [apply JobQueue.NewQueue_ok|]. intros i r o Hi. cbn in Hi. by rewrite lookup_empty in Hi. Qed.

Definition rc_outcome : Outcome := reconcilePeerHandler rc_ctl 2 (Some "") cv_catalog Jobs.NewQueue.

Lemma cycle_only_enqueues_witness :
  JobSteps.table_ok (Jobs.jobs (oQueue rc_outcome)) ∧ Enqueued <$> oSummary rc_outcome = Some 2%nat.
Proof.
  split; [|by vm_compute].
  by apply (cycle_only_enqueues rc_ctl 2 (Some "") cv_catalog Jobs.NewQueue JobQueue.NewQueue_ok).
Defined.

Lemma cycle_queues_witness :
  DedupeKey (mkGap "a" "it") ∈ live_replicas (oQueue rc_outcome) ∧
  (mkGap "a" "it" ∉ outstanding (oQueue rc_outcome) (Gaps rc_plan)) ∧
  ChunkBlobDedupeKey "a" ∈ live_chunks (oQueue rc_outcome).
Proof.
  assert (PlanConvergence cv_catalog "" = inr rc_plan) as Hp by (by vm_compute).
  destruct (cycle_queues rc_ctl 2 "" "me" cv_catalog Jobs.NewQueue rc_plan rc_states
    rc_steady NewQueue_queue_ok Hp eq_refl eq_refl) as ([_ _ Hr Hc _] & _ & _ & Ht & _).
  assert ((Bound (outstanding Jobs.NewQueue (Gaps rc_plan)) 2).1 = [mkGap "a" "it"; mkGap "a" "me"]) as Hb by (by vm_compute).
  rewrite Hb in *. split_and!.
  - apply Hr. right. by left.
  - apply Ht. by left.
  - apply Hc. exists (mkGap "a" "it"). split_and!; [by left|done|by vm_compute|done].
Defined.
