(* ===== verification/PeerRounds.v ===== *)
(** * PeerRounds: cycle after cycle

    The plan (Converge.v), the cycle (ReconcilePeer.v), the job queue and the record of a
    transfer (BlobTransfer.v) together: a round is a cycle, the transfers it left live, and
    their end.  Rounds whose transfers land close every gap of this node; a cycle over the
    whole fabric may offer this node's gaps never. *)

From S2P Require Import Prelude GoText GoPath BlobCatalog Transfers TransfersSpec Converge ConvergeSpec.
From S2P Require Import ReconcilePeer ReconcileSpec.
From S2P Require JobTable Jobs JobSteps JobQueue.
From S2P Require Import BlobTransfer BlobTransferSpec.
From Stdlib Require Import Strings.Byte.

(** ** The gaps of this node *)

Definition gapsAt (n : Node) (c : Catalog) (scope : string) : list Gap :=
  match PlanPeerConvergence n c scope with inr plan => Gaps plan | inl _ => [] end.

(** The store answers when it is asked for a blob. *)
Definition store_answers (n : Node) : Prop := ∀ has h e, localStore n = Some has → has h ≠ inl e.

Lemma plan_exists n c scope : ids_plain c → store_answers n → ∃ plan, PlanPeerConvergence n c scope = inr plan.
Proof.
  intros Hi Ha. pose proof (PlanPeerConvergence_correct n c scope Hi) as H. unfold plan_correct in H.
  destruct (PlanPeerConvergence n c scope) as [e|plan]; [|by eexists].
  destruct H as (has & h & Hs & He). by destruct (Ha has h e).
Qed.

Lemma gapsAt_sorted n c scope : ids_plain c → StronglySorted (λ x y, gap_less x y = true) (gapsAt n c scope).
Proof.
  intros Hi. pose proof (PlanPeerConvergence_correct n c scope Hi) as H. unfold plan_correct, gapsAt in *.
  destruct (PlanPeerConvergence n c scope) as [e|plan]; [constructor|]. by destruct H as (_ & Hs & _).
Qed.

Lemma StronglySorted_strict_NoDup {A} (R : A → A → Prop) l : (∀ x, ¬ R x x) → StronglySorted R l → NoDup l.
Proof.
  intros HR. induction 1 as [|x l Hl IH Hx]; constructor; [|done]. intros Hin.
  rewrite Forall_forall in Hx. by apply (HR x), Hx.
Qed.

Lemma gapsAt_NoDup n c scope : ids_plain c → NoDup (gapsAt n c scope).
Proof.
  intros Hi. eapply StronglySorted_strict_NoDup; [|by apply gapsAt_sorted].
  intros x. cbn. by rewrite (less_irrefl (less := gap_less)).
Qed.

Lemma elem_of_gapsAt n c g :
  ids_plain c → store_answers n → nSelf n ≠ "" →
  g ∈ gapsAt n c (nSelf n) ↔
  PeerID g = nSelf n ∧ fullPeer c (nSelf n) ∧ ¬ here n c (BlobHash g) ∧
  (desired c (BlobHash g) ∨ pinned_here n c (BlobHash g)).
Proof.
  intros Hi Ha Hn. unfold gapsAt. destruct (plan_exists n c (nSelf n) Hi Ha) as [plan Hp].
  pose proof (PlanPeerConvergence_correct n c (nSelf n) Hi) as H. unfold plan_correct in H. rewrite Hp in H |- *.
  destruct H as (Hpeers & _ & Hg & _). rewrite Hg, Hpeers. unfold here. split.
  - intros ((Hf & [?|He]) & Hpr & Hd); [done|]. rewrite He in *. split_and!; [done..|]. tauto.
  - intros (-> & Hf & Hh & Hd). split_and!; [done|by right|done|]. tauto.
Qed.

#[local] Instance present_dec c h p : Decision (present c h p).
Proof.
  unfold present. destruct (replicas c !! (h, p)) as [r|]; [|right; by intros (? & ? & _)].
  destruct (decide (rrState r = "present")) as [?|Hne]; [left; by exists r|right]. intros (? & [= <-] & ?). done.
Defined.
#[local] Instance here_dec n c h : Decision (here n c h) := present_dec c h (nSelf n).

(** ** A transfer that lands *)

Inductive lands (n : Node) : list Gap → Catalog → Catalog → Prop :=
  | lands_nil c : lands n [] c c
  | lands_cons g gs c d t now c1 c2 :
      tBlob t = BlobHash g → tDestination t = PeerID g →
      RecordBlobTransferred t now (mkWorld c d) = (mkWorld c1 d, inr tt) →
      lands n gs c1 c2 → lands n (g :: gs) c c2.

Lemma same_demand_plain c c' : same_demand c c' → ids_plain c → ids_plain c'.
Proof. intros (_ & _ & _ & Hp) Hi p. rewrite Hp. apply Hi. Qed.

Lemma land_one n c c1 d t now g :
  ids_plain c → store_answers n → nSelf n ≠ "" → tDestination t = nSelf n →
  RecordBlobTransferred t now (mkWorld c d) = (mkWorld c1 d, inr tt) →
  ids_plain c1 ∧ (g ∈ gapsAt n c1 (nSelf n) ↔ g ∈ gapsAt n c (nSelf n) ∧ g ≠ mkGap (tBlob t) (nSelf n)).
Proof.
  intros Hi Ha Hn Hd Hr. destruct (RecordBlobTransferred_ok _ _ _ _ Hr) as (_ & _ & Hs & Hrep & Hbl & _ & Hpres).
  cbn in *. assert (ids_plain c1) as Hi1 by (by eapply same_demand_plain). split; [done|].
  rewrite !elem_of_gapsAt by done. destruct Hs as (Has & Hpi & Hpl & Hpe). destruct g as [h p]. cbn.
  destruct (decide (h = tBlob t)) as [->|Hne].
  - split; [|intros [(-> & _) H]; done]. intros (-> & _ & Hh & _). destruct Hh. unfold here. by rewrite Hd in Hpres.
  - assert (∀ q, present c1 h q ↔ present c h q) as Hp.
    { intros q. unfold present. rewrite Hrep; [done|]. unfold key. congruence. }
    assert (Known c1 h = Known c h) as Hk by (unfold Known; by rewrite Hbl).
    assert (taken_set c1 = taken_set c) as Ht by (unfold taken_set; by rewrite Hpl).
    assert (fullPeer c1 (nSelf n) ↔ fullPeer c (nSelf n)) as Hf by (unfold fullPeer; by rewrite Hpe).
    assert (desired c1 h ↔ desired c h) as Hde by (unfold desired; by rewrite Has).
    assert (pinned_here n c1 h ↔ pinned_here n c h) as Hpin.
    { unfold pinned_here. rewrite Hpi, Ht, Hk. setoid_rewrite Hp. done. }
    unfold here. rewrite Hp, Hf, Hde, Hpin. split; [|tauto]. intros H. split; [done|]. congruence.
Qed.

Lemma lands_gaps n gs c c' :
  ids_plain c → store_answers n → nSelf n ≠ "" → Forall (λ g, PeerID g = nSelf n) gs → lands n gs c c' →
  ids_plain c' ∧ ∀ g, g ∈ gapsAt n c' (nSelf n) ↔ g ∈ gapsAt n c (nSelf n) ∧ g ∉ gs.
Proof.
  intros Hi Ha Hn Hgs Hl. revert Hi Hgs. induction Hl as [c|g gs c d t now c1 c2 Ht Hd Hr Hl IH]; intros Hi Hgs.
  { split; [done|]. set_solver. }
  apply Forall_cons in Hgs as [Hg Hgs].
  assert (tDestination t = nSelf n) as Hd' by congruence.
  destruct (land_one n c c1 d t now g Hi Ha Hn Hd' Hr) as [Hi1 _].
  destruct (IH Hi1 Hgs) as [Hi2 H2]. split; [done|]. intros x.
  destruct (land_one n c c1 d t now x Hi Ha Hn Hd' Hr) as [_ H1]. rewrite H2, H1, elem_of_cons.
  replace (mkGap (tBlob t) (nSelf n)) with g by (destruct g; cbn in *; congruence). tauto.
Qed.

(** ** Rounds *)

Section rounds.
Context (n : Node) (chunks : gmap string string) (limit : Z).
#[local] Instance store : ReconcilePeerStore Catalog := catalogStore n chunks.

Definition cycle (ctl : Ctl) (scope : string) (c : Catalog) (q : Jobs.Queue) : Outcome :=
  reconcilePeerHandler ctl limit (Some scope) c q.

(** The gaps a live job is closing. *)
Definition beingClosed (q : Jobs.Queue) (gaps : list Gap) : list Gap :=
  filter (λ g, DedupeKey g ∈ live_replicas q) gaps.

(** Every transfer has ended, by any operations of the queue. *)
Definition ended (q q' : Jobs.Queue) : Prop :=
  (∃ I ls, JobSteps.run I q ls q') ∧ keys_typed q' ∧ live_replicas q' = ∅.

(** A cycle for this node, after which what was being closed lands. *)
Inductive round : Catalog * Jobs.Queue → Catalog * Jobs.Queue → Prop :=
  | round_lands ctl c q c' q' :
      steady ctl q →
      lands n (beingClosed (oQueue (cycle ctl (nSelf n) c q)) (gapsAt n c (nSelf n)))
        (oStore (cycle ctl (nSelf n) c q)) c' →
      ended (oQueue (cycle ctl (nSelf n) c q)) q' → round (c, q) (c', q').

(** A cycle over the fabric, after which no transfer of it has landed. *)
Inductive idle_round : Catalog * Jobs.Queue → Catalog * Jobs.Queue → Prop :=
  | round_idle ctl c q q' :
      steady ctl q → ended (oQueue (cycle ctl "" c q)) q' →
      idle_round (c, q) (oStore (cycle ctl "" c q), q').

(** What a steady cycle of the catalog does. *)
Lemma cycle_facts ctl scope c q :
  ids_plain c → store_answers n → steady ctl q → queue_ok q →
  let o := cycle ctl scope c q in
  let taken := (Bound (outstanding q (gapsAt n c scope)) limit).1 in
  queue_ok (oQueue o) ∧
  (∀ k, k ∈ live_replicas (oQueue o) ↔ k ∈ live_replicas q ∨ k ∈ DedupeKey <$> taken) ∧
  ∃ sum, oStore o = RecordPeerReconciled n sum c.
Proof.
  intros Hi Ha Hst Hok. cbv zeta. destruct (plan_exists n c scope Hi Ha) as [plan Hp]. unfold cycle.
  rewrite (handler_steps ctl limit c q scope plan chunks (nSelf n)) by done.
  destruct (cycle_of_steady ctl limit c q plan chunks (nSelf n) Hst Hok) as (Hq & sum & _ & _ & Hrec).
  unfold takenOf in Hq. unfold gapsAt. rewrite Hp. split_and!; [apply Hq|apply Hq|].
  exists sum. cbn in Hrec. by destruct Hrec as [_ ->].
Qed.

(** The record of a cycle is an event, which no query reads. *)
Lemma gapsAt_recorded sum c scope : gapsAt n (RecordPeerReconciled n sum c) scope = gapsAt n c scope.
Proof. done. Qed.

Lemma ended_ok q q' : queue_ok q → ended q q' → queue_ok q'.
Proof. intros [Hok _] ((I & ls & Hr) & Ht & _). split; [by eapply JobQueue.run_ok|done]. Qed.

Lemma outstanding_all q gaps : live_replicas q = ∅ → outstanding q gaps = gaps.
Proof.
  intros He. unfold outstanding. change (Jobs.LiveDedupeKeys q ReplicateBlobJobType) with (live_replicas q).
  rewrite He. clear He. induction gaps as [|g gaps IH]; [done|].
  rewrite filter_cons, decide_True by apply not_elem_of_empty. by rewrite IH.
Qed.

Lemma filter_split {A} (P : A → Prop) `{∀ x, Decision (P x)} (l : list A) :
  (length (filter P l) + length (filter (λ x, ¬ P x) l) = length l)%nat.
Proof.
  induction l as [|x l IH]; [done|]. rewrite !filter_cons. do 2 case_decide; try tauto; cbn; lia.
Qed.

(** One round leaves at least [limit] gaps fewer, or none. *)
Lemma round_shrinks c q c' q' :
  (0 < limit)%Z → ids_plain c → store_answers n → nSelf n ≠ "" → queue_ok q → round (c, q) (c', q') →
  ids_plain c' ∧ queue_ok q' ∧
  (Z.of_nat (length (gapsAt n c' (nSelf n))) ≤ Z.max 0 (Z.of_nat (length (gapsAt n c (nSelf n))) - limit))%Z.
Proof.
  intros Hlim Hi Ha Hn Hok Hround. inversion Hround as [ctl ? ? ? ? Hst Hl He]; subst.
  destruct (cycle_facts ctl (nSelf n) c q Hi Ha Hst Hok) as (Hok1 & Hk & sum & Hsum). rewrite Hsum in Hl.
  set (q1 := oQueue (cycle ctl (nSelf n) c q)) in *. set (gaps := gapsAt n c (nSelf n)) in *.
  set (taken := (Bound (outstanding q gaps) limit).1) in *.
  assert (Forall (λ g, PeerID g = nSelf n) (beingClosed q1 gaps)) as Hself.
  { apply Forall_forall. intros g [_ Hg]%list_elem_of_filter. 
    unfold gaps in Hg. rewrite elem_of_gapsAt in Hg by done. by destruct Hg. }
  assert (ids_plain (RecordPeerReconciled n sum c)) as Hi1 by done.
  destruct (lands_gaps n _ _ _ Hi1 Ha Hn Hself Hl) as [Hi' Hg']. rewrite gapsAt_recorded in Hg'. fold gaps in Hg'.
  split_and!; [done|by eapply ended_ok|].
  assert (NoDup gaps) as Hnd by (by apply gapsAt_NoDup).
  assert (gapsAt n c' (nSelf n) ≡ₚ filter (λ g, ¬ (DedupeKey g ∈ live_replicas q1)) gaps) as Hperm.
  { apply NoDup_Permutation; [by apply gapsAt_NoDup|by apply NoDup_filter|]. intros g.
    rewrite Hg', list_elem_of_filter. unfold beingClosed. rewrite list_elem_of_filter. tauto. }
  rewrite (Permutation_length Hperm). pose proof (filter_split (λ g, DedupeKey g ∈ live_replicas q1) gaps) as Hsplit.
  (* what is taken is closed *)
  destruct (Bound_spec (outstanding q gaps) limit) as (Happ & Hb & Hd & Hl'). specialize (Hl' Hlim). fold taken in Happ, Hb, Hl'.
  assert (taken ⊆+ filter (λ g, DedupeKey g ∈ live_replicas q1) gaps) as Hsub.
  { apply NoDup_submseteq.
    - assert (NoDup (outstanding q gaps)) as Ho by (by apply NoDup_filter). rewrite <-Happ in Ho. by apply NoDup_app in Ho as [? _].
    - intros g Hg. apply list_elem_of_filter. split; [apply Hk; right; by apply list_elem_of_fmap_2|].
      assert (g ∈ outstanding q gaps) as Ho by (rewrite <-Happ; apply elem_of_app; by left).
      by apply list_elem_of_filter in Ho as [_ ?]. }
  apply submseteq_length in Hsub.
  destruct (decide (Z.of_nat (length (outstanding q gaps)) ≤ limit)%Z) as [Hle|Hgt]; [|lia].
  (* every gap was being closed *)
  assert (taken = outstanding q gaps) as Hall.
  { assert (length taken = length (outstanding q gaps)) as Hlen by lia.
    rewrite Hlen, drop_all, app_nil_r in Happ. done. }
  assert (filter (λ g, ¬ (DedupeKey g ∈ live_replicas q1)) gaps = []) as ->; [|cbn; lia].
  apply elem_of_nil_inv. intros g [Hng Hg]%list_elem_of_filter. apply Hng, Hk.
  destruct (decide (DedupeKey g ∈ live_replicas q)) as [?|Hnl]; [by left|right]. apply list_elem_of_fmap_2.
  rewrite Hall. apply list_elem_of_filter. by split.
Qed.

Lemma lands_demand gs c c' : lands n gs c c' → same_demand c c'.
Proof.
  induction 1 as [|g gs c d t now c1 c2 _ _ Hr _ IH]; [reflexivity|].
  destruct (RecordBlobTransferred_ok _ _ _ _ Hr) as (_ & _ & Hs & _). by etrans.
Qed.

Lemma round_demand c q c' q' :
  ids_plain c → store_answers n → queue_ok q → round (c, q) (c', q') → same_demand c c'.
Proof.
  intros Hi Ha Hok Hr. inversion Hr as [ctl ? ? ? ? Hst Hl He]; subst.
  destruct (cycle_facts ctl (nSelf n) c q Hi Ha Hst Hok) as (_ & _ & sum & Hsum). rewrite Hsum in Hl.
  by apply lands_demand in Hl.
Qed.

Lemma rounds_shrink k c q c' q' :
  (0 < limit)%Z → ids_plain c → store_answers n → nSelf n ≠ "" → queue_ok q → nsteps round k (c, q) (c', q') →
  ids_plain c' ∧ same_demand c c' ∧
  (Z.of_nat (length (gapsAt n c' (nSelf n))) ≤
    Z.max 0 (Z.of_nat (length (gapsAt n c (nSelf n))) - Z.of_nat k * limit))%Z.
Proof.
  intros Hlim. revert c q. induction k as [|k IH]; intros c q Hi Ha Hn Hok Hs.
  - inversion Hs; subst. split_and!; [done|reflexivity|lia].
  - inversion Hs as [|? ? [c1 q1] ? Hr Hs']; subst.
    destruct (round_shrinks c q c1 q1 Hlim Hi Ha Hn Hok Hr) as (Hi1 & Hok1 & Hl1).
    destruct (IH c1 q1 Hi1 Ha Hn Hok1 Hs') as (Hi' & Hd & Hl). split_and!; [done| |lia].
    etrans; [|exact Hd]. exact (round_demand c q c1 q1 Hi Ha Hok Hr).
Qed.

(** An idle cycle over the fabric starts from the same gaps each time, none in flight. *)
Lemma idle_rounds_same c q c' q' :
  ids_plain c → store_answers n → queue_ok q → live_replicas q = ∅ → rtc idle_round (c, q) (c', q') →
  ids_plain c' ∧ queue_ok q' ∧ live_replicas q' = ∅ ∧ gapsAt n c' "" = gapsAt n c "".
Proof.
  intros Hi Ha Hok He Hs. remember (c, q) as s eqn:Es. remember (c', q') as s' eqn:Es'.
  revert c q Es Hi Hok He. induction Hs as [s|s [c1 q1] s' Hr Hs IH]; intros c q -> Hi Hok He.
  { injection Es' as -> ->. done. }
  inversion Hr as [ctl ? ? ? Hst Hend]; subst.
  destruct (cycle_facts ctl "" c q Hi Ha Hst Hok) as (Hok1 & _ & sum & Hsum).
  destruct (IH eq_refl (oStore (cycle ctl "" c q)) q1 eq_refl) as (Hi' & Hok' & He' & Hg').
  - by rewrite Hsum.
  - by eapply ended_ok.
  - by destruct Hend as (_ & _ & ?).
  - split_and!; [done..|]. by rewrite Hg', Hsum, gapsAt_recorded.
Qed.
End rounds.

Lemma DedupeKey_peer g g' :
  has_byte ":" (PeerID g) = false → has_byte ":" (PeerID g') = false → DedupeKey g = DedupeKey g' → g = g'.
Proof.
  unfold DedupeKey. intros Hp Hp' Heq%(inj (String.append "replicate:")). destruct g as [h p], g' as [h' p']. cbn in *.
  by destruct (sep_inj ":" h p h' p' Hp Hp' Heq) as [-> ->].
Qed.

(** C15. Rounds whose transfers land close every gap of this node: as many rounds as its gaps
    fill batches are enough, whichever transfers were live at first, and what is desired or
    pinned here is then held here. *)
Theorem peer_converges (n : Node) (chunks : gmap string string) (limit : Z) (k : nat) (c c' : Catalog) (q q' : Jobs.Queue) :
  (0 < limit)%Z → ids_plain c → store_answers n → nSelf n ≠ "" → queue_ok q →
  nsteps (round n chunks limit) k (c, q) (c', q') →
  (Z.of_nat (length (gapsAt n c (nSelf n))) ≤ Z.of_nat k * limit)%Z →
  gapsAt n c' (nSelf n) = [] ∧ same_demand c c' ∧
  ∀ h, fullPeer c' (nSelf n) → desired c' h ∨ pinned_here n c' h → here n c' h.
Proof.
  intros Hlim Hi Ha Hn Hok Hs Hk.
  destruct (rounds_shrink n chunks limit k c q c' q' Hlim Hi Ha Hn Hok Hs) as (Hi' & Hd & Hl).
  assert (gapsAt n c' (nSelf n) = []) as Hnil by (apply nil_length_inv; lia).
  split_and!; [done..|]. intros h Hf Hw. destruct (decide (here n c' h)) as [?|Hnot]; [done|].
  assert (mkGap h (nSelf n) ∈ gapsAt n c' (nSelf n)) as Hin by (by apply elem_of_gapsAt).
  rewrite Hnil in Hin. by apply elem_of_nil in Hin.
Qed.

(** When the first [limit] gaps of the fabric are other nodes' to close, cycles over it
    whose transfers all end without landing offer them again and again, and no transfer of
    this node's own gaps is ever queued. *)
Theorem foreign_gaps_starve (n : Node) (chunks : gmap string string) (limit : Z) (ctl : Ctl) (c c' : Catalog)
    (q q' : Jobs.Queue) (g : Gap) :
  (0 < limit)%Z → ids_plain c → store_answers n → queue_ok q → live_replicas q = ∅ →
  Forall (λ g, PeerID g ≠ nSelf n ∧ has_byte ":" (PeerID g) = false) (take (Z.to_nat limit) (gapsAt n c "")) →
  rtc (idle_round n chunks limit) (c, q) (c', q') → steady ctl q' →
  g ∈ gapsAt n c "" → PeerID g = nSelf n → has_byte ":" (nSelf n) = false →
  g ∈ gapsAt n c' "" ∧ (DedupeKey g ∉ live_replicas (oQueue (cycle n chunks limit ctl "" c' q'))).
Proof.
  intros Hlim Hi Ha Hok He Hall Hs Hst Hg Hp Hc.
  destruct (idle_rounds_same n chunks limit c q c' q' Hi Ha Hok He Hs) as (Hi' & Hok' & He' & Hgs).
  split; [by rewrite Hgs|].
  destruct (cycle_facts n chunks limit ctl "" c' q' Hi' Ha Hst Hok') as (_ & Hk & _). rewrite Hk, He'.
  intros [Hin|(x & Hkey & Hx)%list_elem_of_fmap]; [by apply elem_of_empty in Hin|].
  rewrite outstanding_all, Hgs in Hx by done. rewrite Forall_forall in Hall.
  destruct (Bound_spec (gapsAt n c "") limit) as (Happ & _ & _ & Hl). specialize (Hl Hlim).
  destruct (Hall x) as [Hne Hpx].
  - rewrite <-Happ, take_app_ge by lia. apply elem_of_app. by left.
  - apply Hne. rewrite <-Hp. f_equal. symmetry. apply DedupeKey_peer; [by rewrite Hp|done|done].
Qed.


(** ** Examples *)

Lemma ended_run I q ls q' :
  JobSteps.run I q ls q' → map_Forall (λ _ r, JobTable.live r = false) (Jobs.jobs q') → ended q q'.
Proof.
  intros Hr Hl. split; [by eexists _, _|]. split.
  - intros i r o Hi Hlive _ _. by rewrite (Hl i r Hi) in Hlive.
  - apply set_eq. intros k. split; [|by intros ?%elem_of_empty]. unfold live_replicas. rewrite elem_of_live.
    intros (i & r & Hi & _ & Hlive & _). by rewrite (Hl i r Hi) in Hlive.
Qed.

(** A worker claims the next job and completes it. *)
Definition work (id : string) (q : Jobs.Queue) : Jobs.Queue :=
  (Jobs.Complete 20 (Jobs.Claim 10 q (Jobs.mkClaim "w" [] 0 [])).1 id "w").1.

Lemma work_run I id q ls q' :
  JobSteps.run I (work id q) ls q' → JobSteps.run I q (JobSteps.LClaim "w" :: JobSteps.LComplete id "w" :: ls) q'.
Proof.
  intros H. econstructor; [by apply (JobSteps.step_claim I q (map_to_list (Jobs.jobs q)) 10 (Jobs.mkClaim "w" [] 0 []))|].
  econstructor; [apply (JobSteps.step_complete I _ 20 id "w")|exact H].
Qed.

Definition pr_cycle (limit : Z) (scope : string) : Outcome :=
  cycle cv_node ∅ limit rc_ctl scope cv_catalog Jobs.NewQueue.

Definition pr_disk : Disk := mkDisk {["a" := mkFile [x01] 0; "b" := mkFile [x02] 0]} ∅ ∅.
Definition pr_landed (h : string) (c : Catalog) : Catalog :=
  cat (RecordBlobTransferred (mkTransfer h "it" "me" 1 ∅ "") 5 (mkWorld c pr_disk)).1.
Definition pr_after : Catalog := pr_landed "b" (pr_landed "a" (oStore (pr_cycle 2 "me"))).

Lemma pr_answers : store_answers cv_node.
Proof. by intros has h e [= <-]. Qed.

Lemma peer_converges_witness :
  gapsAt cv_node cv_catalog "me" = [mkGap "a" "me"; mkGap "b" "me"] ∧ gapsAt cv_node pr_after "me" = [].
Proof.
  assert (gapsAt cv_node cv_catalog "me" = [mkGap "a" "me"; mkGap "b" "me"]) as Hg by (by vm_compute).
  split; [exact Hg|].
  destruct (peer_converges cv_node ∅ 2 1 cv_catalog pr_after Jobs.NewQueue (work "job-1" (work "job-0" (oQueue (pr_cycle 2 "me")))))
    as [H _]; [lia|exact cv_plain|exact pr_answers|done|exact NewQueue_queue_ok| |change (nSelf cv_node) with "me"; rewrite Hg; cbn; lia|exact H].
  apply nsteps_once. apply (round_lands _ _ _ rc_ctl); [exact rc_steady| |].
  - assert (beingClosed (oQueue (pr_cycle 2 "me")) (gapsAt cv_node cv_catalog "me") = [mkGap "a" "me"; mkGap "b" "me"]) as Hb
      by (by vm_compute).
    change (lands cv_node (beingClosed (oQueue (pr_cycle 2 "me")) (gapsAt cv_node cv_catalog "me"))
      (oStore (pr_cycle 2 "me")) pr_after).
    rewrite Hb. unfold pr_after.
    eapply (lands_cons _ _ _ _ pr_disk (mkTransfer "a" "it" "me" 1 ∅ "") 5); [done|done|by vm_compute|].
    eapply (lands_cons _ _ _ _ pr_disk (mkTransfer "b" "it" "me" 1 ∅ "") 5); [done|done|by vm_compute|constructor].
  - eapply (ended_run JobQueue.ex_draw); [do 2 apply work_run; constructor|].
    apply (bool_decide_eq_true_1 _). by vm_compute.
Defined.

Definition pr_queue : Jobs.Queue := work "job-0" (oQueue (pr_cycle 1 "")).
Definition pr_ctl : Ctl := mkCtl (λ k, "next-" +:+ pretty k) (λ k, Z.of_nat k + 30)%Z (λ _, Works) (λ _, false).

Lemma foreign_gaps_starve_witness :
  gapsAt cv_node cv_catalog "" = [mkGap "a" "it"; mkGap "a" "me"; mkGap "b" "me"] ∧
  (DedupeKey (mkGap "a" "me") ∉ live_replicas (oQueue (cycle cv_node ∅ 1 pr_ctl "" (oStore (pr_cycle 1 "")) pr_queue))).
Proof.
  assert (gapsAt cv_node cv_catalog "" = [mkGap "a" "it"; mkGap "a" "me"; mkGap "b" "me"]) as Hg by (by vm_compute).
  split; [exact Hg|].
  apply (foreign_gaps_starve cv_node ∅ 1 pr_ctl cv_catalog (oStore (pr_cycle 1 "")) Jobs.NewQueue pr_queue (mkGap "a" "me")).
  - lia.
  - exact cv_plain.
  - exact pr_answers.
  - exact NewQueue_queue_ok.
  - by vm_compute.
  - rewrite Hg. change (Forall (λ g, PeerID g ≠ "me" ∧ has_byte ":" (PeerID g) = false) [mkGap "a" "it"]).
    apply Forall_singleton. by split.
  - apply rtc_once. apply (round_idle _ _ _ rc_ctl); [exact rc_steady|].
    eapply (ended_run JobQueue.ex_draw); [apply work_run; constructor|]. apply (bool_decide_eq_true_1 _). by vm_compute.
  - split; [reflexivity|reflexivity| |].
    + intros i j H. change ("next-" +:+ pretty i = "next-" +:+ pretty j) in H. by apply (inj pretty), (inj (String.append "next-")).
    + intros k. assert (map_Forall (λ i _, i = "job-0") (Jobs.jobs pr_queue)) as Hd
        by (apply (bool_decide_eq_true_1 _); by vm_compute).
      destruct (Jobs.jobs pr_queue !! ids pr_ctl k) as [r|] eqn:E; [|done]. apply Hd in E. discriminate E.
  - rewrite Hg. right. by left.
  - done.
  - done.
Defined.
