(* ===== verification/Swarm.v ===== *)
(** * Swarm: pulling a blob in pieces from many sources at once

    Models internal/peer/transfer/piecesession.go and pieces.go, with the piece requests of
    webseed.go and the sparse writes of internal/storagefabric/cas/partial.go.  The workers
    share a session under one lock: a region of the lock is one step ([advance]), what a
    worker waits for from outside (an answer, the roster, the playhead) is the input of
    the step that takes it, and the steps of the workers interleave in any order
    ([step]).  A worker parked on the condition variable runs only once it was woken. *)

From S2P Require Import Prelude GoText Pieces.
From S2P Require Transfers Resume.
From Stdlib Require Import Strings.Byte.

(** ** Sources and the session *)

(** A source, and what it speaks. *)
Record Candidate := mkCandidate { Source : Transfers.PeerSource; CandidateKind : Transfers.Kind }.

Definition Peer (src : Transfers.PeerSource) : Candidate := mkCandidate src Transfers.KindPeer.
Definition WebSeed (src : Transfers.PeerSource) : Candidate := mkCandidate src Transfers.KindWebSeed.

Record SourceClaim := mkClaim {
  scSource : Transfers.PeerSource; scKind : Transfers.Kind; claim : Availability; declined : gset Z }.

Definition declines (index : Z) (sc : SourceClaim) : SourceClaim :=
  mkClaim (scSource sc) (scKind sc) (claim sc) ({[index]} ∪ declined sc).
Definition setClaim (a : Availability) (sc : SourceClaim) : SourceClaim :=
  mkClaim (scSource sc) (scKind sc) a (declined sc).

(** A counter of 64 bits is a [nat]: a session ends long before it is full. *)
Record Session := mkSession {
  geometry : Geometry;
  have : Availability;
  partial : Resume.Partial;
  claims : gmap string SourceClaim;
  order : list string;
  next : nat;
  inflight : gset Z;
  fetching : Z;
  generation : nat;
  stopped : bool;
  live : Z;
  idle : Z;
  err : option Resume.error;
  fetched : Z;
  fromPeer : gmap string Z;
  failed : gmap string Z;
  silent : gset string;
  roster : option (gmap string bool);
  rosterAt : nat;
  playhead : Z;
  playheadRead : bool;
  playheadAt : nat;
  progress : string }.

Definition maxConcurrentSources : nat := 8.
Definition playbackWindow : Z := 8.

(** ** Writing a field *)

Definition set_pieces (h : Availability) (p : Resume.Partial) (s : Session) : Session :=
  mkSession (geometry s) h p (claims s) (order s) (next s) (inflight s) (fetching s) (generation s) (stopped s)
    (live s) (idle s) (err s) (fetched s) (fromPeer s) (failed s) (silent s) (roster s) (rosterAt s) (playhead s)
    (playheadRead s) (playheadAt s) (progress s).
Definition set_claims (f : gmap string SourceClaim → gmap string SourceClaim) (s : Session) : Session :=
  mkSession (geometry s) (have s) (partial s) (f (claims s)) (order s) (next s) (inflight s) (fetching s)
    (generation s) (stopped s) (live s) (idle s) (err s) (fetched s) (fromPeer s) (failed s) (silent s) (roster s)
    (rosterAt s) (playhead s) (playheadRead s) (playheadAt s) (progress s).
Definition set_next (n : nat) (s : Session) : Session :=
  mkSession (geometry s) (have s) (partial s) (claims s) (order s) n (inflight s) (fetching s) (generation s)
    (stopped s) (live s) (idle s) (err s) (fetched s) (fromPeer s) (failed s) (silent s) (roster s) (rosterAt s)
    (playhead s) (playheadRead s) (playheadAt s) (progress s).
Definition set_flight (i : gset Z) (f : Z) (s : Session) : Session :=
  mkSession (geometry s) (have s) (partial s) (claims s) (order s) (next s) i f (generation s) (stopped s) (live s)
    (idle s) (err s) (fetched s) (fromPeer s) (failed s) (silent s) (roster s) (rosterAt s) (playhead s)
    (playheadRead s) (playheadAt s) (progress s).
Definition nextGeneration (s : Session) : Session :=
  mkSession (geometry s) (have s) (partial s) (claims s) (order s) (next s) (inflight s) (fetching s)
    (S (generation s)) (stopped s) (live s) (idle s) (err s) (fetched s) (fromPeer s) (failed s) (silent s) (roster s)
    (rosterAt s) (playhead s) (playheadRead s) (playheadAt s) (progress s).
Definition set_stop (e : option Resume.error) (s : Session) : Session :=
  mkSession (geometry s) (have s) (partial s) (claims s) (order s) (next s) (inflight s) (fetching s) (generation s)
    true (live s) (idle s) e (fetched s) (fromPeer s) (failed s) (silent s) (roster s) (rosterAt s) (playhead s)
    (playheadRead s) (playheadAt s) (progress s).
Definition set_crowd (l i : Z) (s : Session) : Session :=
  mkSession (geometry s) (have s) (partial s) (claims s) (order s) (next s) (inflight s) (fetching s) (generation s)
    (stopped s) l i (err s) (fetched s) (fromPeer s) (failed s) (silent s) (roster s) (rosterAt s) (playhead s)
    (playheadRead s) (playheadAt s) (progress s).
Definition set_counts (n : Z) (fp fl : gmap string Z) (s : Session) : Session :=
  mkSession (geometry s) (have s) (partial s) (claims s) (order s) (next s) (inflight s) (fetching s) (generation s)
    (stopped s) (live s) (idle s) (err s) n fp fl (silent s) (roster s) (rosterAt s) (playhead s) (playheadRead s)
    (playheadAt s) (progress s).
Definition set_silent (f : gset string → gset string) (s : Session) : Session :=
  mkSession (geometry s) (have s) (partial s) (claims s) (order s) (next s) (inflight s) (fetching s) (generation s)
    (stopped s) (live s) (idle s) (err s) (fetched s) (fromPeer s) (failed s) (f (silent s)) (roster s) (rosterAt s)
    (playhead s) (playheadRead s) (playheadAt s) (progress s).
Definition set_roster (r : gmap string bool) (at_ : nat) (s : Session) : Session :=
  mkSession (geometry s) (have s) (partial s) (claims s) (order s) (next s) (inflight s) (fetching s) (generation s)
    (stopped s) (live s) (idle s) (err s) (fetched s) (fromPeer s) (failed s) (silent s) (Some r) at_ (playhead s)
    (playheadRead s) (playheadAt s) (progress s).
Definition set_playhead (p : Z) (at_ : nat) (s : Session) : Session :=
  mkSession (geometry s) (have s) (partial s) (claims s) (order s) (next s) (inflight s) (fetching s) (generation s)
    (stopped s) (live s) (idle s) (err s) (fetched s) (fromPeer s) (failed s) (silent s) (roster s) (rosterAt s) p
    true at_ (progress s).
Definition set_progress (t : string) (s : Session) : Session :=
  mkSession (geometry s) (have s) (partial s) (claims s) (order s) (next s) (inflight s) (fetching s) (generation s)
    (stopped s) (live s) (idle s) (err s) (fetched s) (fromPeer s) (failed s) (silent s) (roster s) (rosterAt s)
    (playhead s) (playheadRead s) (playheadAt s) t.

Definition newPieceSession (g : Geometry) (h : Availability) (p : Resume.Partial) (held : gmap string SourceClaim)
    (ids : list string) (quiet : gset string) (saved : string) : Session :=
  mkSession g h p held ids 0 ∅ 0 0 false 0 0 None 0 ∅ ∅ quiet None 0 (-1) false 0 saved.

(** ** The choice of a piece *)

Definition zeroClaim : SourceClaim := mkClaim Transfers.zeroSource "" zeroAvailability ∅.
Definition sourceOf (s : Session) (id : string) : SourceClaim := default zeroClaim (claims s !! id).

Definition rarityLocked (index : Z) (held : gmap string SourceClaim) : Z :=
  Z.of_nat (size (filter (λ kv, Has (claim kv.2) index = true) held)).

(** Whether a source can be asked for a piece: nobody fetches it, it claims it, and it did
    not decline it. *)
Definition offers (s : Session) (sc : SourceClaim) (index : Z) : bool :=
  negb (bool_decide (index ∈ inflight s)) && Has (claim sc) index && negb (bool_decide (index ∈ declined sc)).

Fixpoint rarest (s : Session) (sc : SourceClaim) (idxs : list Z) (best bestRarity : Z) : Z :=
  match idxs with
  | [] => best
  | index :: idxs =>
      if (Geometry_Count (geometry s) <=? index)%Z then best
      else if negb (offers s sc index) then rarest s sc idxs best bestRarity
      else
        let r := rarityLocked index (claims s) in
        if (best <? 0)%Z || (r <? bestRarity)%Z then rarest s sc idxs index r
        else rarest s sc idxs best bestRarity
  end.

Fixpoint firstIn (s : Session) (sc : SourceClaim) (idxs : list Z) : option Z :=
  match idxs with
  | [] => None
  | index :: idxs =>
      if Has (have s) index then firstIn s sc idxs
      else if negb (offers s sc index) then firstIn s sc idxs
      else Some index
  end.

Definition assignFromWindowLocked (s : Session) (sc : SourceClaim) : option Z :=
  if (playhead s <? 0)%Z then None
  else
    let end_ := Z.min (playhead s + playbackWindow) (Geometry_Count (geometry s)) in
    firstIn s sc (seqZ (playhead s) (end_ - playhead s)).

Definition choice (s : Session) (sc : SourceClaim) : option Z :=
  match assignFromWindowLocked s sc with
  | Some index => Some index
  | None =>
      let best := rarest s sc (Missing (have s)) (-1) 0 in
      if (best <? 0)%Z then None else Some best
  end.

Definition assignLocked (s : Session) (sc : SourceClaim) : option (Z * Session) :=
  match choice s sc with
  | Some index => Some (index, set_flight ({[index]} ∪ inflight s) (fetching s + 1) s)
  | None => None
  end.

(** ** What becomes of a piece *)

Definition bump (k : string) (m : gmap string Z) : gmap string Z := <[k := (default 0 (m !! k) + 1)%Z]> m.

Definition release (index : Z) (s : Session) : Session :=
  set_flight (inflight s ∖ {[index]}) (fetching s - 1) s.

(** The bytes are written before; the record [have] of them after. *)
Definition landed (index : Z) (peerID : string) (s : Session) : Session :=
  let s := release index s in
  nextGeneration (set_counts (fetched s + 1) (bump peerID (fromPeer s)) (failed s)
    (set_pieces (Add (have s) index) (partial s) s)).

Definition refused (index : Z) (id : string) (s : Session) : Session :=
  let s := release index s in
  nextGeneration (set_claims (alter (λ sc, declines index (setClaim (Remove (claim sc) index) sc)) id) s).

Definition revoke (id : string) (s : Session) : Session :=
  nextGeneration (set_claims (alter (setClaim (NewAvailability (Geometry_Count (geometry s)))) id) s).

Definition abort (e : Resume.error) (s : Session) : Session :=
  set_stop (match err s with None => Some e | Some e => Some e end) s.

(** ** The staging file, written in any order *)

(** A hole reads as zeroes. *)
Definition splice (data : list byte) (off : nat) (b : list byte) : list byte :=
  take off data ++ replicate (off - length data) x00 ++ b ++ drop (off + length b) data.

(** [wrote] is how much a failing write leaves. *)
Definition WriteAt (p : Resume.Partial) (b : list byte) (off : Z) (wrote : option nat) :
    Resume.Partial * option Resume.error :=
  if Resume.pClosed p then (p, Some Resume.ErrClosed)
  else if (off <? 0)%Z then (p, Some Resume.ErrIO)
  else
    let b := match wrote with None => b | Some n => take n b end in
    let data := if decide (b = []) then Resume.pData p else splice (Resume.pData p) (Z.to_nat off) b in
    (Resume.mkPartial (Resume.pBlob p) data false, match wrote with None => None | Some _ => Some Resume.ErrIO end).

(** ** What a source is asked *)

Definition maxPieceRead : Z := MaxPieceLength + 1.

Definition fetchPiece (resp : Resume.Response) : option (list byte) :=
  match resp with
  | Resume.Unreachable _ => None
  | Resume.Answered status body broken =>
      if negb (status =? 200)%Z then None
      else if broken && (Z.of_nat (length body) <? maxPieceRead)%Z then None
      else Some (take (Z.to_nat maxPieceRead) body)
  end.

Definition fetchPieceFromWebSeed (g : Geometry) (index : Z) (resp : Resume.Response) : option (list byte) :=
  match Range g index with
  | inl _ => None
  | inr (_, length_) =>
      match resp with
      | Resume.Unreachable _ => None
      | Resume.Answered status body _ =>
          if negb (status =? 206)%Z then None
          else if negb (Z.of_nat (length body) =? length_)%Z then None
          else Some body
      end
  end.

Definition fetchFrom (sc : SourceClaim) (g : Geometry) (index : Z) (resp : Resume.Response) : option (list byte) :=
  if bool_decide (scKind sc = Transfers.KindWebSeed) then fetchPieceFromWebSeed g index resp else fetchPiece resp.

(** An availability answer that reads as one of this geometry. *)
Definition readClaim (g : Geometry) (encoded : string) : option Availability :=
  match Decode encoded with
  | inr (theirs, a) => if bool_decide (Size theirs = Size g ∧ PieceLength theirs = PieceLength g) then Some a else None
  | inl _ => None
  end.

(** [None] is a source that could not say; the text may be empty. *)
Definition resurvey (id : string) (answer : option string) (s : Session) : Session * bool :=
  match answer with
  | None => (set_silent (λ q, {[id]} ∪ q) s, false)
  | Some encoded =>
      if bool_decide (encoded = "") then (s, false)
      else match readClaim (geometry s) encoded with
           | None => (s, false)
           | Some a => (set_claims (alter (setClaim a) id) s, true)
           end
  end.

(** ** Workers *)

(** Where a worker is: between sources, or driving one, with the generation it surveyed. *)
Inductive Pc :=
  | Picking
  | AtRoster (id : string) (surveyedAt : nat)
  | ReadRoster (id : string) (surveyedAt gen : nat) (seen : option (gmap string bool))
  | Revoking (id : string)
  | AtPlayhead (id : string) (surveyedAt : nat)
  | ReadPlayhead (id : string) (surveyedAt gen : nat)
  | Choosing (id : string) (surveyedAt : nat)
  | Asking (id : string) (at_ : nat)
  | Parked (id : string) (surveyedAt : nat) (awake : bool)
  | Fetching (id : string) (surveyedAt : nat) (index : Z)
  | Leaving
  | Done.

(** What a step takes from outside. *)
Inductive Input :=
  | Go
  | Members (read : option (gmap string bool))
  | Playhead (read : option Z)
  | Told (answer : option string)
  | Served (resp : Resume.Response) (wrote : option nat) (saves : bool).

(** Which optional parts the puller and its store have. *)
Record Config := mkConfig { hasMembers : bool; hasPlayhead : bool; hasProgress : bool }.

Record Effect := mkEffect { pc : Pc; shared : Session; broadcast : bool }.

Section worker.
Context (cfg : Config).

Definition saveProgress (saves : bool) (s : Session) : Session :=
  if hasProgress cfg && saves then set_progress (Encode (geometry s) (have s)) s else s.

Definition memberStep (id : string) (surveyedAt : nat) (seen : option (gmap string bool)) : Pc :=
  match seen with
  | None => AtPlayhead id surveyedAt
  | Some r => if default false (r !! id) then AtPlayhead id surveyedAt else Revoking id
  end.

(** Both regions of [stillMember]. *)
Definition stillMember (id : string) (surveyedAt : nat) (s : Session) : Pc :=
  if negb (hasMembers cfg) then AtPlayhead id surveyedAt
  else if bool_decide (rosterAt s = generation s) && negb (bool_decide (roster s = None))
       then memberStep id surveyedAt (roster s)
       else ReadRoster id surveyedAt (generation s) (roster s).

Definition tookRoster (id : string) (surveyedAt gen : nat) (seen read : option (gmap string bool)) (s : Session) :
    Effect :=
  match read with
  | None => mkEffect (memberStep id surveyedAt seen) s false
  | Some r => mkEffect (memberStep id surveyedAt (Some r)) (set_roster r gen s) false
  end.

(** Both regions of [refreshPlayhead]. *)
Definition refreshPlayhead (id : string) (surveyedAt : nat) (s : Session) : Pc :=
  if negb (hasPlayhead cfg) then Choosing id surveyedAt
  else if playheadRead s && bool_decide (playheadAt s = generation s) then Choosing id surveyedAt
  else ReadPlayhead id surveyedAt (generation s).

Definition tookPlayhead (gen : nat) (read : option Z) (s : Session) : Session :=
  let at_ := match read with
             | None => (-1)%Z
             | Some off => match IndexAt (geometry s) off with inl _ => (-1)%Z | inr index => index end
             end in
  set_playhead at_ gen s.

(** One turn of the inner loop. *)
Definition choose (id : string) (surveyedAt : nat) (s : Session) : Effect :=
  let sc := sourceOf s id in
  if stopped s || Complete (geometry s) (have s) then mkEffect Picking s false
  else match assignLocked s sc with
       | Some (index, s) => mkEffect (Fetching id surveyedAt index) s false
       | None =>
           if bool_decide (scKind sc = Transfers.KindPeer) && (surveyedAt <? generation s)%nat
           then mkEffect (Asking id (generation s)) s false
           else
             if (live s <=? idle s + 1)%Z && (fetching s =? 0)%Z then mkEffect Picking s true
             else mkEffect (Parked id surveyedAt false) (set_crowd (live s) (idle s + 1) s) false
       end.

(** The region after a fetch. *)
Definition deliver (id : string) (surveyedAt : nat) (index : Z) (resp : Resume.Response) (wrote : option nat)
    (saves : bool) (s : Session) : Effect :=
  let back := AtRoster id surveyedAt in
  match fetchFrom (sourceOf s id) (geometry s) index resp with
  | None =>
      let s := refused index id s in
      mkEffect back (set_counts (fetched s) (fromPeer s) (bump id (failed s)) s) true
  | Some body =>
      match Range (geometry s) index with
      | inl _ => mkEffect back (refused index id s) true
      | inr (off, length_) =>
          if negb (Z.of_nat (length body) =? length_)%Z then mkEffect back (refused index id s) true
          else
            let '(p, e) := WriteAt (partial s) body off wrote in
            let s := set_pieces (have s) p s in
            match e with
            | Some e => mkEffect Picking (abort e (release index s)) true
            | None => mkEffect back (saveProgress saves (landed index id s)) true
            end
      end
  end.

(** A worker between two sources. *)
Definition pick (s : Session) : Effect :=
  match order s !! next s with
  | None => mkEffect Leaving s false
  | Some id =>
      let s := set_next (S (next s)) s in
      match claims s !! id with
      | None => mkEffect Picking s false
      | Some _ => mkEffect (AtRoster id 0) s false
      end
  end.

Definition advance (w : Pc) (inp : Input) (s : Session) : option Effect :=
  match w, inp with
  | Picking, Go => Some (pick s)
  | AtRoster id at_, Go => Some (mkEffect (stillMember id at_ s) s false)
  | ReadRoster id at_ gen seen, Members read => Some (tookRoster id at_ gen seen read s)
  | Revoking id, Go => Some (mkEffect Picking (revoke id s) true)
  | AtPlayhead id at_, Go => Some (mkEffect (refreshPlayhead id at_ s) s false)
  | ReadPlayhead id at_ gen, Playhead read => Some (mkEffect (Choosing id at_) (tookPlayhead gen read s) false)
  | Choosing id at_, Go => Some (choose id at_ s)
  | Asking id at_, Told answer =>
      let '(s, woke) := resurvey id answer s in Some (mkEffect (Choosing id at_) s woke)
  | Parked id at_ true, Go => Some (choose id at_ (set_crowd (live s) (idle s - 1) s))
  | Fetching id at_ index, Served resp wrote saves => Some (deliver id at_ index resp wrote saves s)
  | Leaving, Go => Some (mkEffect Done (set_crowd (live s - 1) (idle s) s) true)
  | _, _ => None
  end.

(** ** The system *)

Record System := mkSystem { sess : Session; workers : list Pc; watched : bool }.

Definition wake (w : Pc) : Pc := match w with Parked id at_ _ => Parked id at_ true | _ => w end.
Definition wakeIf (b : bool) (ws : list Pc) : list Pc := if b then wake <$> ws else ws.

Definition workStep (i : nat) (inp : Input) (sys : System) : option System :=
  w ← workers sys !! i;
  e ← advance w inp (sess sys);
  Some (mkSystem (shared e) (<[i := pc e]> (wakeIf (broadcast e) (workers sys))) (watched sys)).

(** The context ends: [watch] stops the session, once. *)
Definition cancelStep (sys : System) : System :=
  mkSystem (set_stop (err (sess sys)) (sess sys)) (wakeIf true (workers sys)) false.

Inductive Move := Work (i : nat) (inp : Input) | Cancel.

Definition moveStep (m : Move) (sys : System) : option System :=
  match m with
  | Work i inp => workStep i inp sys
  | Cancel => if watched sys then Some (cancelStep sys) else None
  end.

(** A schedule with its inputs. *)
Fixpoint runMoves (ms : list Move) (sys : System) : option System :=
  match ms with
  | [] => Some sys
  | m :: ms => sys ← moveStep m sys; runMoves ms sys
  end.

Definition isDone (w : Pc) : bool := match w with Done => true | _ => false end.
Definition finished (sys : System) : bool := forallb isDone (workers sys).

(** The workers of a session that has not begun. *)
Definition driveSources (s : Session) : System :=
  let n := Nat.min (length (order s)) maxConcurrentSources in
  mkSystem (set_crowd (Z.of_nat n) (idle s) s) (replicate n Picking) true.
End worker.
