(* ===== verification/SwarmSteps.v ===== *)
(** * SwarmSteps: the steps of a piece session and what they keep

    The choice of a piece, every step of a worker as a relation, what each keeps, and the
    invariant of the session under any schedule and any answers. *)

From S2P Require Import Prelude GoText Pieces PieceSets Swarm.
From S2P Require Transfers Resume.
From Stdlib Require Import Strings.Byte.

(** ** The choice of a piece *)

Definition free (s : Session) (sc : SourceClaim) (x : Z) : Prop :=
  (0 ≤ x < Geometry_Count (geometry s))%Z ∧ Has (have s) x = false ∧ offers s sc x = true.

Definition inWindow (s : Session) (x : Z) : Prop :=
  (0 ≤ playhead s ≤ x)%Z ∧ (x < playhead s + playbackWindow)%Z.

Lemma firstIn_spec s sc idxs :
  StronglySorted Z.lt idxs →
  match firstIn s sc idxs with
  | Some x => x ∈ idxs ∧ Has (have s) x = false ∧ offers s sc x = true ∧
      ∀ y, y ∈ idxs → (y < x)%Z → Has (have s) y = true ∨ offers s sc y = false
  | None => ∀ y, y ∈ idxs → Has (have s) y = true ∨ offers s sc y = false
  end.
Proof.
  induction 1 as [|x idxs Hs IH Hx]; cbn [firstIn]; [by intros y ?%elem_of_nil|].
  rewrite Forall_forall in Hx.
  destruct (Has (have s) x) eqn:Hh; [|destruct (offers s sc x) eqn:Ho; cbn [negb]].
  2:{ split_and!; [by left|done..|]. intros y [->|Hy]%elem_of_cons ?; [lia|]. apply Hx in Hy. lia. }
  all: destruct (firstIn s sc idxs) as [z|];
    [destruct IH as (Hz & ? & ? & Hb); split_and!; [by right|done..|]|];
    intros y [->|?]%elem_of_cons; auto.
Qed.

Definition rarity (s : Session) (x : Z) : Z := rarityLocked x (claims s).

Lemma rarest_spec s sc idxs best bestR :
  StronglySorted Z.lt idxs → Forall (λ x, 0 ≤ x < Geometry_Count (geometry s))%Z idxs →
  ((0 ≤ best)%Z → bestR = rarity s best ∧ Forall (Z.lt best) idxs) →
  let b := rarest s sc idxs best bestR in
  (b = best ∧ ∀ y, y ∈ idxs → offers s sc y = true → (0 ≤ best ∧ bestR ≤ rarity s y)%Z) ∨
  (b ∈ idxs ∧ offers s sc b = true ∧ ((0 ≤ best)%Z → (rarity s b < bestR)%Z) ∧
   ∀ y, y ∈ idxs → offers s sc y = true → (rarity s b < rarity s y)%Z ∨ rarity s b = rarity s y ∧ (b ≤ y)%Z).
Proof.
  intros Hs. revert best bestR. induction Hs as [|x idxs Hs IH Hx]; intros best bestR Hin Hbest; cbv zeta.
  { left. split; [done|]. by intros y ?%elem_of_nil. }
  apply Forall_cons in Hin as [Hx0 Hin]. cbn [rarest]. rewrite (proj2 (Z.leb_gt _ _)) by lia.
  fold (rarity s x).
  destruct (offers s sc x) eqn:Ho; cbn [negb].
  - destruct ((best <? 0)%Z || (rarity s x <? bestR)%Z) eqn:Hb.
    + destruct (IH x (rarity s x)) as [[-> Hl]|(Hb' & Hob & Hlt & Hl)]; [done|by intros _|..]; right.
      * split_and!; [by left|done| |].
        -- intros H0. apply orb_true_iff in Hb as [?%Z.ltb_lt|?%Z.ltb_lt]; lia.
        -- intros y [->|Hy]%elem_of_cons Hoy; [right; lia|]. destruct (Hl y Hy Hoy).
           rewrite Forall_forall in Hx. apply Hx in Hy. lia.
      * specialize (Hlt ltac:(lia)). split_and!; [by right|done| |].
        -- intros H0. apply orb_true_iff in Hb as [?%Z.ltb_lt|?%Z.ltb_lt]; lia.
        -- intros y [->|Hy]%elem_of_cons Hoy; [lia|by apply Hl].
    + apply orb_false_iff in Hb as [H0%Z.ltb_ge Hr%Z.ltb_ge].
      destruct (Hbest H0) as [-> [_ Hall]%Forall_cons].
      destruct (IH best (rarity s best)) as [[-> Hl]|(Hb' & Hob & Hlt & Hl)]; [done|by intros _|..].
      * left. split; [done|]. intros y [->|Hy]%elem_of_cons Hoy; [lia|by apply Hl].
      * right. specialize (Hlt H0). split_and!; [by right|done|done|].
        intros y [->|Hy]%elem_of_cons Hoy; [lia|by apply Hl].
  - destruct (IH best bestR) as [[-> Hl]|(Hb' & Hob & Hlt & Hl)]; [done| |..].
    + intros H0. destruct (Hbest H0) as [-> [_ Hall]%Forall_cons]. done.
    + left. split; [done|]. intros y [->|Hy]%elem_of_cons Hoy; [congruence|by apply Hl].
    + right. split_and!; [by right|done|done|]. intros y [->|Hy]%elem_of_cons Hoy; [congruence|by apply Hl].
Qed.

Lemma sorted_seqZ_from k n : StronglySorted Z.lt (seqZ k n).
Proof.
  destruct (decide (0 ≤ n)%Z) as [Hn|Hn]; [|rewrite seqZ_nil by lia; constructor].
  revert k. pattern n. apply natlike_ind; [|intros m Hm IH k|done].
  { intros k. rewrite seqZ_nil by lia. constructor. }
  rewrite seqZ_cons by lia. replace (Z.pred (Z.succ m)) with m by lia. constructor; [apply IH|].
  apply Forall_seqZ. lia.
Qed.

Lemma elem_of_Missing a x : x ∈ Missing a ↔ (0 ≤ x < total a)%Z ∧ Has a x = false.
Proof. unfold Missing. rewrite list_elem_of_filter, elem_of_seqZ. naive_solver lia. Qed.

(** The piece a source is asked for next: the first of the playback window it can give,
    else one that as few sources as possible claim, the first of these; none when it can
    give none. *)
Lemma choice_spec s sc :
  total (have s) = Z.max 0 (Geometry_Count (geometry s)) →
  match choice s sc with
  | Some x => free s sc x ∧
      ((∃ y, inWindow s y ∧ free s sc y) → inWindow s x ∧ ∀ y, inWindow s y → free s sc y → (x ≤ y)%Z) ∧
      ((¬ ∃ y, inWindow s y ∧ free s sc y) →
        ∀ y, free s sc y → (rarity s x < rarity s y)%Z ∨ rarity s x = rarity s y ∧ (x ≤ y)%Z)
  | None => ∀ y, ¬ free s sc y
  end.
Proof.
  intros Ht. unfold choice, free. set (n := Geometry_Count (geometry s)) in *.
  set (win := seqZ (playhead s) (Z.min (playhead s + playbackWindow) n - playhead s)).
  assert (∀ y, (0 ≤ playhead s)%Z → y ∈ win ↔ inWindow s y ∧ (y < n)%Z) as Hwin.
  { intros y H0. unfold win, inWindow. rewrite elem_of_seqZ. lia. }
  assert (match assignFromWindowLocked s sc with
          | Some x => (0 ≤ playhead s)%Z ∧ x ∈ win ∧ Has (have s) x = false ∧ offers s sc x = true ∧
              ∀ y, y ∈ win → (y < x)%Z → Has (have s) y = true ∨ offers s sc y = false
          | None => ∀ y, inWindow s y → (y < n)%Z → Has (have s) y = true ∨ offers s sc y = false
          end) as Hw.
  { unfold assignFromWindowLocked. destruct (Z.ltb_spec (playhead s) 0) as [Hp|Hp].
    - intros y [? _]. lia.
    - pose proof (firstIn_spec s sc win (sorted_seqZ_from _ _)) as Hf. fold n. fold win.
      destruct (firstIn s sc win) as [x|]; [by destruct Hf as (?&?&?&?)|].
      intros y Hy Hn. apply Hf. by apply Hwin. }
  destruct (assignFromWindowLocked s sc) as [x|].
  - destruct Hw as (H0 & Hx & Hh & Ho & Hmin). apply Hwin in Hx as [Hx Hn]; [|done].
    assert (0 ≤ x < n)%Z by (unfold inWindow in Hx; lia).
    assert (∀ y, inWindow s y → (0 ≤ y < n)%Z ∧ Has (have s) y = false ∧ offers s sc y = true → (x ≤ y)%Z) as Hle.
    { intros y Hy (? & ? & ?). destruct (decide (y < x)%Z) as [Hlt|]; [|lia].
      destruct (Hmin y) as [?|?]; [apply Hwin; [done|split; [done|lia]]|done|congruence..]. }
    split_and!; [lia|lia|done|done|intros _; by split|]. intros Hno. exfalso. apply Hno. by exists x.
  - pose proof (rarest_spec s sc (Missing (have s)) (-1) 0) as Hr. cbv zeta in Hr.
    assert (∀ y, (0 ≤ y < n)%Z → Has (have s) y = false → y ∈ Missing (have s)) as HM.
    { intros y Hy Hh. apply elem_of_Missing. split; [lia|done]. }
    destruct Hr as [[-> Hl]|(Hb & Ho & _ & Hl)]; [apply StronglySorted_filter, sorted_seqZ|..].
    + apply Forall_forall. intros y [??]%elem_of_Missing. unfold n in Ht. lia.
    + lia.
    + cbn. intros y (Hy & Hh & Hof). destruct (Hl y); [by apply HM|done|lia].
    + apply elem_of_Missing in Hb as [Hb Hh]. rewrite (proj2 (Z.ltb_ge _ _)) by lia.
      split_and!; [lia|lia|done|done| |].
      * intros (y & Hy & ? & ? & ?). destruct (Hw y Hy) as [?|?]; [lia|congruence..].
      * intros _ y (Hy & Hhy & Hof). apply Hl; [by apply HM|done].
Qed.

(** ** What the workers do *)

(** The piece a worker fetches and from whom, and the source it drives. *)
Definition fetches (w : Pc) : option (string * Z) :=
  match w with Fetching id _ x => Some (id, x) | _ => None end.

Definition drives (w : Pc) : option string :=
  match w with
  | Picking | Leaving | Done => None
  | AtRoster id _ | ReadRoster id _ _ _ | Revoking id | AtPlayhead id _ | ReadPlayhead id _ _ | Choosing id _
  | Asking id _ | Parked id _ _ | Fetching id _ _ => Some id
  end.

Definition isFetching (w : Pc) : Z := match w with Fetching _ _ _ => 1 | _ => 0 end.
Definition isParked (w : Pc) : Z := match w with Parked _ _ _ => 1 | _ => 0 end.
Definition isLive (w : Pc) : Z := if isDone w then 0 else 1.
Definition isGone (w : Pc) : bool := match w with Leaving | Done => true | _ => false end.

Fixpoint tally {A} (f : A → Z) (ws : list A) : Z :=
  match ws with [] => 0 | w :: ws => f w + tally f ws end.

Lemma tally_insert (f : Pc → Z) ws i w w' : ws !! i = Some w → tally f (<[i := w']> ws) = (tally f ws - f w + f w')%Z.
Proof.
  revert i. induction ws as [|x ws IH]; intros [|i] Hi; try done; cbn in Hi; simplify_eq.
  - cbn. lia.
  - change (f x + tally f (<[i := w']> ws) = f x + tally f ws - f w + f w')%Z. rewrite IH by done. lia.
Qed.

Lemma tally_wakeIf f b ws : (∀ w, f (wake w) = f w) → tally f (wakeIf b ws) = tally f ws.
Proof. intros Hf. destruct b; [|done]. cbn. induction ws as [|w ws IH]; [done|]. cbn. by rewrite Hf, IH. Qed.

Lemma lookup_wakeIf b ws i : wakeIf b ws !! i = (if b then wake else id) <$> ws !! i.
Proof. destruct b; cbn; [apply list_lookup_fmap|]. by destruct (ws !! i). Qed.

Lemma tally_nonneg {A} (f : A → Z) ws : (∀ w, 0 ≤ f w)%Z → (0 ≤ tally f ws)%Z.
Proof. intros Hf. induction ws as [|w ws IH]; cbn; [done|]. specialize (Hf w). lia. Qed.

Lemma tally_zero {A} (f : A → Z) ws : (∀ w, 0 ≤ f w)%Z → tally f ws = 0%Z → Forall (λ w, f w = 0%Z) ws.
Proof.
  intros Hf. induction ws as [|w ws IH]; cbn; [constructor|]. intros H0.
  pose proof (Hf w). pose proof (tally_nonneg f ws Hf). constructor; [lia|]. apply IH. lia.
Qed.

Lemma tally_le {A} (f g : A → Z) ws : (∀ w, f w ≤ g w)%Z → (tally f ws ≤ tally g ws)%Z.
Proof. intros H. induction ws as [|w ws IH]; cbn; [done|]. specialize (H w). lia. Qed.

Lemma tally_eq {A} (f g : A → Z) ws : (∀ w, f w ≤ g w)%Z → tally f ws = tally g ws → Forall (λ w, f w = g w) ws.
Proof.
  intros H. induction ws as [|w ws IH]; cbn; [constructor|]. intros Heq.
  pose proof (H w). pose proof (tally_le f g ws H). constructor; [lia|]. apply IH. lia.
Qed.

(** ** One step *)

(** A worker about to choose: it begins the loop, or wakes. *)
Inductive atChoice (s : Session) : Pc → string → nat → Session → Prop :=
  | at_choosing id at_ : atChoice s (Choosing id at_) id at_ s
  | at_awake id at_ : atChoice s (Parked id at_ true) id at_ (set_crowd (live s) (idle s - 1) s).

(** The cases of [advance]. *)
Inductive goes (cfg : Config) (s : Session) : Pc → Input → Pc → Session → bool → Prop :=
  | goes_leave : order s !! next s = None → goes cfg s Picking Go Leaving s false
  | goes_skip id : order s !! next s = Some id → claims s !! id = None →
      goes cfg s Picking Go Picking (set_next (S (next s)) s) false
  | goes_pick id sc : order s !! next s = Some id → claims s !! id = Some sc →
      goes cfg s Picking Go (AtRoster id 0) (set_next (S (next s)) s) false
  | goes_member id at_ w' :
      (w' = AtPlayhead id at_ ∨ w' = ReadRoster id at_ (generation s) (roster s) ∨
       (w' = Revoking id ∧ ∃ r, roster s = Some r ∧ r !! id ≠ Some true)) →
      goes cfg s (AtRoster id at_) Go w' s false
  | goes_read id at_ gen seen read w' s' :
      (s' = s ∨ ∃ r, s' = set_roster r gen s ∧ read = Some r) →
      (w' = AtPlayhead id at_ ∨ w' = Revoking id ∧ ∃ r, r !! id ≠ Some true ∧ (read = Some r ∨ read = None ∧ seen = Some r)) →
      goes cfg s (ReadRoster id at_ gen seen) (Members read) w' s' false
  | goes_revoke id : goes cfg s (Revoking id) Go Picking (revoke id s) true
  | goes_head id at_ w' : (w' = Choosing id at_ ∨ ∃ gen, w' = ReadPlayhead id at_ gen) →
      goes cfg s (AtPlayhead id at_) Go w' s false
  | goes_playhead id at_ gen read : goes cfg s (ReadPlayhead id at_ gen) (Playhead read) (Choosing id at_) (tookPlayhead gen read s) false
  | goes_told id at_ answer s' b : resurvey id answer s = (s', b) →
      goes cfg s (Asking id at_) (Told answer) (Choosing id at_) s' b
  | goes_over w id at_ s0 : atChoice s w id at_ s0 → stopped s || Complete (geometry s) (have s) = true →
      goes cfg s w Go Picking s0 false
  | goes_assign w id at_ s0 x : atChoice s w id at_ s0 → stopped s = false → choice s (sourceOf s id) = Some x →
      Complete (geometry s) (have s) = false →
      goes cfg s w Go (Fetching id at_ x) (set_flight ({[x]} ∪ inflight s) (fetching s + 1) s0) false
  | goes_ask w id at_ s0 : atChoice s w id at_ s0 → (at_ < generation s)%nat →
      scKind (sourceOf s id) = Transfers.KindPeer →
      goes cfg s w Go (Asking id (generation s)) s0 false
  | goes_giveup w id at_ s0 : atChoice s w id at_ s0 → stopped s = false → choice s (sourceOf s id) = None →
      Complete (geometry s) (have s) = false →
      (live s ≤ idle s0 + 1)%Z → fetching s = 0%Z → goes cfg s w Go Picking s0 true
  | goes_park w id at_ s0 : atChoice s w id at_ s0 → (idle s0 + 1 < live s)%Z ∨ fetching s ≠ 0%Z →
      goes cfg s w Go (Parked id at_ false) (set_crowd (live s) (idle s0 + 1) s0) false
  | goes_refused id at_ x resp wrote saves s' :
      (s' = refused x id s ∧ (∃ e, Range (geometry s) x = inl e) ∨
       s' = refused x id s ∧ (∃ body off len, fetchFrom (sourceOf s id) (geometry s) x resp = Some body ∧
          Range (geometry s) x = inr (off, len) ∧ Z.of_nat (length body) ≠ len) ∨
       (∃ fl, s' = set_counts (fetched s) (fromPeer s) fl (refused x id s) ∧
          fetchFrom (sourceOf s id) (geometry s) x resp = None)) →
      goes cfg s (Fetching id at_ x) (Served resp wrote saves) (AtRoster id at_) s' true
  | goes_abort id at_ x resp wrote saves body off len p e :
      fetchFrom (sourceOf s id) (geometry s) x resp = Some body → Range (geometry s) x = inr (off, len) →
      Z.of_nat (length body) = len → WriteAt (partial s) body off wrote = (p, Some e) →
      goes cfg s (Fetching id at_ x) (Served resp wrote saves) Picking (abort e (release x (set_pieces (have s) p s))) true
  | goes_landed id at_ x resp wrote saves body off len p :
      fetchFrom (sourceOf s id) (geometry s) x resp = Some body → Range (geometry s) x = inr (off, len) →
      Z.of_nat (length body) = len → WriteAt (partial s) body off wrote = (p, None) →
      goes cfg s (Fetching id at_ x) (Served resp wrote saves) (AtRoster id at_)
        (saveProgress cfg saves (landed x id (set_pieces (have s) p s))) true
  | goes_done : goes cfg s Leaving Go Done (set_crowd (live s - 1) (idle s) s) true.

Lemma choice_awake s n x sc : choice (set_crowd n x s) sc = choice s sc.
Proof.
  assert (∀ idxs b r, rarest (set_crowd n x s) sc idxs b r = rarest s sc idxs b r) as Hr.
  { induction idxs as [|i idxs IH]; intros b r; [done|]. cbn [rarest]. by rewrite !IH. }
  assert (∀ idxs, firstIn (set_crowd n x s) sc idxs = firstIn s sc idxs) as Hf.
  { induction idxs as [|i idxs IH]; [done|]. cbn [firstIn]. by rewrite !IH. }
  unfold choice, assignFromWindowLocked. rewrite Hf, Hr. done.
Qed.

Lemma choose_goes cfg s w id at_ s0 :
  atChoice s w id at_ s0 →
  let e := choose id at_ s0 in goes cfg s w Go (pc e) (shared e) (broadcast e).
Proof.
  intros Hc. cbv zeta. unfold choose, assignLocked.
  assert (stopped s0 = stopped s ∧ geometry s0 = geometry s ∧ have s0 = have s ∧ sourceOf s0 id = sourceOf s id ∧
    generation s0 = generation s ∧ live s0 = live s ∧ fetching s0 = fetching s ∧ inflight s0 = inflight s)
    as (-> & -> & -> & -> & -> & -> & -> & ->) by (by inversion Hc).
  assert (choice s0 (sourceOf s id) = choice s (sourceOf s id)) as -> by (inversion Hc; subst; [done|apply choice_awake]).
  destruct (stopped s || Complete _ _) eqn:Ho; [by eapply goes_over|].
  apply orb_false_iff in Ho as [Hst Hco].
  destruct (choice s (sourceOf s id)) as [x|] eqn:Hx; [by eapply goes_assign|].
  destruct (bool_decide _ && _) eqn:Hk.
  { apply andb_true_iff in Hk as [?%bool_decide_eq_true ?%Nat.ltb_lt]. by eapply goes_ask. }
  destruct ((live s <=? idle s0 + 1)%Z && (fetching s =? 0)%Z) eqn:Hg.
  - apply andb_true_iff in Hg as [?%Z.leb_le ?%Z.eqb_eq]. by eapply goes_giveup.
  - eapply goes_park; [done|]. apply andb_false_iff in Hg as [?%Z.leb_gt|?%Z.eqb_neq]; [by left|by right].
Qed.

Lemma deliver_goes cfg s id at_ x resp wrote saves :
  let e := deliver cfg id at_ x resp wrote saves s in
  goes cfg s (Fetching id at_ x) (Served resp wrote saves) (pc e) (shared e) (broadcast e).
Proof.
  cbv zeta. unfold deliver. destruct (fetchFrom _ _ _ _) as [body|] eqn:Hf.
  2:{ apply goes_refused. right; right. eexists. by split. }
  destruct (Range _ _) as [e|[off len]] eqn:Hr; [apply goes_refused; left; eauto|].
  destruct (Z.eqb_spec (Z.of_nat (length body)) len) as [Hl|Hl]; cbn [negb];
    [|apply goes_refused; right; left; split; [done|]; by eexists _, _, _].
  destruct (WriteAt _ _ _ _) as [p [e|]] eqn:Hw; [by eapply goes_abort|by eapply goes_landed].
Qed.

Lemma advance_goes cfg s w inp e :
  advance cfg w inp s = Some e → goes cfg s w inp (pc e) (shared e) (broadcast e).
Proof.
  destruct w as [|id at_|id at_ gen seen|id|id at_|id at_ gen|id at_|id at_|id at_ []|id at_ x| |], inp; try done;
    cbn [advance]; intros Hs; try (injection Hs as <-); try (constructor; fail).
  - unfold pick. destruct (order s !! next s) as [id|] eqn:Ho; [|by apply goes_leave].
    cbn [claims set_next]. destruct (claims s !! id) as [sc|] eqn:Hc; [by apply (goes_pick _ _ id sc)|by apply (goes_skip _ _ id)].
  - unfold stillMember. destruct (negb _); [apply goes_member; by left|].
    destruct (bool_decide _ && _) eqn:E; [|apply goes_member; by right; left].
    apply goes_member. unfold memberStep. destruct (roster s) as [r|] eqn:Hr; [|by left].
    destruct (r !! id) as [[]|] eqn:Hi; cbn; [by left|right; right; split; [done|]; exists r; split; congruence..].
  - unfold tookRoster, memberStep. destruct read as [r|].
    + apply goes_read; [right; eauto|]. destruct (r !! id) as [[]|] eqn:Hi; cbn; [by left|right; split; [done|]; exists r; split; [congruence|by left]..].
    + apply goes_read; [by left|]. destruct seen as [r|]; [|by left].
      destruct (r !! id) as [[]|] eqn:Hi; cbn; [by left|right; split; [done|]; exists r; split; [congruence|by right]..].
  - unfold refreshPlayhead. apply goes_head. destruct (negb _); [by left|]. destruct (_ && _); [by left|right; by eexists].
  - by apply choose_goes; constructor.
  - destruct (resurvey _ _ _) as [s' b] eqn:Hr. injection Hs as <-. by apply goes_told.
  - by apply choose_goes; constructor.
  - apply deliver_goes.
Qed.

(** ** What a step keeps *)

Definition fits (s : Session) : Prop := wf (have s) ∧ total (have s) = Z.max 0 (Geometry_Count (geometry s)).

Record moved (s : Session) (w w' : Pc) (s' : Session) : Prop := mkMoved {
  mv_geometry : geometry s' = geometry s;
  mv_order : order s' = order s;
  mv_live : live s' = (live s - isLive w + isLive w')%Z;
  mv_idle : idle s' = (idle s - isParked w + isParked w')%Z;
  mv_fetching : fetching s' = (fetching s - isFetching w + isFetching w')%Z;
  mv_inflight y : y ∈ inflight s' ↔
    (y ∈ inflight s ∧ ∀ id, fetches w ≠ Some (id, y)) ∨ ∃ id, fetches w' = Some (id, y);
  mv_assign id x : fetches w' = Some (id, x) → fits s →
    drives w = Some id ∧ free s (sourceOf s id) x ∧ have s' = have s ∧ claims s' = claims s;
  mv_drives id : drives w' = Some id →
    drives w = Some id ∨ drives w = None ∧ order s !! next s = Some id ∧ next s' = S (next s) ∧ is_Some (claims s !! id);
  mv_next : (next s ≤ next s')%nat;
  mv_have : fits s → fits s' ∧ (held (have s') = held (have s) ∨
    ∃ id x, fetches w = Some (id, x) ∧ held (have s') = held (have s) ∪ ({[x]} ∩ indices (total (have s))));
  mv_claims id : is_Some (claims s !! id) ↔ is_Some (claims s' !! id);
  mv_declined id : declined (sourceOf s' id) = declined (sourceOf s id) ∨
    ∃ x, fetches w = Some (id, x) ∧ declined (sourceOf s' id) = {[x]} ∪ declined (sourceOf s id);
  mv_gone : isGone w' = true → isGone w = true ∨ order s !! next s = None }.

Lemma sourceOf_alter f id s id' :
  sourceOf (set_claims (alter f id) s) id' =
  if decide (id' = id) then from_option f zeroClaim (claims s !! id) else sourceOf s id'.
Proof.
  unfold sourceOf. cbn [claims set_claims]. destruct (decide (id' = id)) as [->|Hne].
  - rewrite lookup_alter_eq. by destruct (claims s !! id).
  - by rewrite lookup_alter_ne.
Qed.

Lemma declined_alter f id s id' :
  (∀ sc, declined (f sc) = declined sc) →
  declined (sourceOf (set_claims (alter f id) s) id') = declined (sourceOf s id').
Proof.
  intros Hf. rewrite sourceOf_alter. destruct (decide _) as [->|]; [|done].
  unfold sourceOf. destruct (claims s !! id); cbn; [by rewrite Hf|done].
Qed.

Lemma claims_alter (f : SourceClaim → SourceClaim) id (m : gmap string SourceClaim) id' :
  is_Some (m !! id') ↔ is_Some (alter f id m !! id').
Proof.
  destruct (decide (id' = id)) as [->|Hne]; [|by rewrite lookup_alter_ne].
  rewrite lookup_alter_eq. destruct (m !! id); cbn; split; intros [? ?]; eauto; done.
Qed.

(** A step that touches neither the pieces nor the claims. *)
Lemma moved_plain s w w' s' :
  geometry s' = geometry s → order s' = order s → have s' = have s → claims s' = claims s →
  inflight s' = inflight s → (next s ≤ next s')%nat →
  live s' = (live s - isLive w + isLive w')%Z → idle s' = (idle s - isParked w + isParked w')%Z →
  fetching s' = fetching s → fetches w = None → fetches w' = None →
  (∀ id, drives w' = Some id →
    drives w = Some id ∨ drives w = None ∧ order s !! next s = Some id ∧ next s' = S (next s) ∧ is_Some (claims s !! id)) →
  (isGone w' = true → isGone w = true ∨ order s !! next s = None) →
  moved s w w' s'.
Proof.
  intros Hg Ho Hh Hc Hi Hn Hl Hid Hf Hw Hw' Hd Hgo.
  assert (∀ v, fetches v = None → isFetching v = 0%Z) as Hz by (by intros []).
  split; try done.
  - rewrite Hf, !Hz by done. lia.
  - intros y. rewrite Hi, Hw, Hw'. naive_solver.
  - intros id x. by rewrite Hw'.
  - unfold fits. rewrite Hh, Hg. auto.
  - intros id. by rewrite Hc.
  - intros id. left. unfold sourceOf. by rewrite Hc.
Qed.

Lemma moved_claims s w w' s' f id :
  claims s' = alter f id (claims s) → (∀ sc, declined (f sc) = declined sc) →
  geometry s' = geometry s → order s' = order s → have s' = have s → inflight s' = inflight s → next s' = next s →
  live s' = live s → idle s' = idle s → fetching s' = fetching s →
  fetches w = None → fetches w' = None → isParked w = 0%Z → isParked w' = 0%Z → isLive w = 1%Z → isLive w' = 1%Z →
  (∀ id, drives w' = Some id → drives w = Some id) → isGone w' = false →
  moved s w w' s'.
Proof.
  intros Hc Hf Hg Ho Hh Hi Hn Hl Hid Hfe Hw Hw' Hp Hp' Hlw Hlw' Hd Hgo.
  assert (∀ v, fetches v = None → isFetching v = 0%Z) as Hz by (by intros []).
  split; try done; try lia.
  - rewrite !Hz by done. lia.
  - intros y. rewrite Hi, Hw, Hw'. naive_solver.
  - intros i x. by rewrite Hw'.
  - intros i Hi'. left. by apply Hd.
  - unfold fits. rewrite Hh, Hg. auto.
  - intros i. rewrite Hc. apply claims_alter.
  - intros i. left. rewrite <-(declined_alter f id s i Hf). unfold sourceOf. by rewrite Hc.
  - by rewrite Hgo.
Qed.

Lemma atChoice_facts s w id at_ s0 :
  atChoice s w id at_ s0 →
  fetches w = None ∧ drives w = Some id ∧ isLive w = 1%Z ∧ isGone w = false ∧
  s0 = set_crowd (live s) (idle s - isParked w) s.
Proof. intros []; split_and!; try done. destruct s. unfold set_crowd, isParked. cbn. by rewrite Z.sub_0_r. Qed.

Lemma resurvey_alter id answer s s' b :
  resurvey id answer s = (s', b) →
  (∃ f, s' = set_silent f s ∧ b = false) ∨ (s' = s ∧ b = false) ∨
  (∃ encoded a, answer = Some encoded ∧ readClaim (geometry s) encoded = Some a ∧ s' = set_claims (alter (setClaim a) id) s ∧ b = true).
Proof.
  unfold resurvey. destruct answer as [encoded|]; [|intros [= <- <-]; left; eauto].
  case_bool_decide; [intros [= <- <-]; by right; left|].
  destruct (readClaim _ _) as [a|] eqn:Ha; intros [= <- <-]; [right; right; eauto 8|by right; left].
Qed.

Lemma saveProgress_same cfg saves s :
  ∃ t, saveProgress cfg saves s = set_progress t s ∧ (t = progress s ∨ t = Encode (geometry s) (have s)).
Proof.
  unfold saveProgress. destruct (_ && _); [by eexists; split; [|right]|]. exists (progress s). split; [|by left]. by destruct s.
Qed.

(** What was in flight for a fetching worker, and is no more. *)
Lemma moved_release s id at_ x w' s' :
  w' = Picking ∨ (∃ k, w' = AtRoster id k) →
  geometry s' = geometry s → order s' = order s → next s' = next s → live s' = live s → idle s' = idle s →
  inflight s' = inflight s ∖ {[x]} → fetching s' = (fetching s - 1)%Z →
  (fits s → fits s' ∧ (held (have s') = held (have s) ∨
    held (have s') = held (have s) ∪ ({[x]} ∩ indices (total (have s))))) →
  (∀ id, is_Some (claims s !! id) ↔ is_Some (claims s' !! id)) →
  (∀ id', declined (sourceOf s' id') = declined (sourceOf s id') ∨
    id' = id ∧ declined (sourceOf s' id') = {[x]} ∪ declined (sourceOf s id')) →
  moved s (Fetching id at_ x) w' s'.
Proof.
  intros Hw' Hg Ho Hn Hl Hid Hi Hf Hh Hc Hd.
  assert (fetches w' = None ∧ isLive w' = 1%Z ∧ isParked w' = 0%Z ∧ isFetching w' = 0%Z ∧ isGone w' = false ∧
    ∀ i, drives w' = Some i → i = id) as (Hfe & Hli & Hpa & Hfe' & Hgo & Hdr).
  { destruct Hw' as [->|[k ->]]; split_and!; try done. by intros i [= ->]. }
  split; rewrite ?Hli, ?Hpa, ?Hfe', ?Hfe, ?Hgo; cbn [isLive isDone isParked isFetching fetches]; try done; try lia.
  - intros y. rewrite Hi, elem_of_difference, elem_of_singleton. naive_solver.
  - intros i Hi'. left. by rewrite (Hdr i Hi').
  - intros Hfit. destruct (Hh Hfit) as [? [?|?]]; (split; [done|]); [by left|right]. by exists id, x.
  - intros i. destruct (Hd i) as [?|[-> ?]]; [by left|right]. by exists x.
Qed.

Lemma refused_declined x id s id' :
  declined (sourceOf (refused x id s) id') = declined (sourceOf s id') ∨
  id' = id ∧ declined (sourceOf (refused x id s) id') = {[x]} ∪ declined (sourceOf s id').
Proof.
  change (sourceOf (refused x id s) id') with
    (sourceOf (set_claims (alter (λ sc, declines x (setClaim (Remove (claim sc) x) sc)) id) s) id').
  rewrite sourceOf_alter. destruct (decide (id' = id)) as [->|]; [|by left].
  unfold sourceOf. destruct (claims s !! id); [by right|by left].
Qed.

Lemma goes_moved cfg s w inp w' s' b : goes cfg s w inp w' s' b → moved s w w' s'.
Proof.
  destruct 1 as [Ho|id Ho Hc|id sc Ho Hc|id at_ w' Hw|id at_ gen seen read w' s' Hs Hw|id|id at_ w' Hw|id at_ gen read
    |id at_ answer s' b Hr|w id at_ s0 Ha Hover|w id at_ s0 x Ha Hst Hx Hco|w id at_ s0 Ha Hlt Hk|w id at_ s0 Ha Hst Hx Hco Hl Hf
    |w id at_ s0 Ha Hl|id at_ x resp wrote saves s' Hs|id at_ x resp wrote saves body off len p e _ _ _ Hw
    |id at_ x resp wrote saves body off len p _ _ _ Hw|].
  - apply moved_plain; try done; cbn; try lia; auto.
  - apply moved_plain; try done; cbn; lia.
  - apply moved_plain; try done; cbn; try lia. intros i [= <-]. right. by split_and!; eauto.
  - destruct Hw as [->|[->|[-> _]]]; apply moved_plain; try done; cbn; try lia; auto.
  - destruct Hs as [->|(r & -> & _)], Hw as [->|[-> _]]; apply moved_plain; try done; cbn; try lia; auto.
  - eapply (moved_claims _ _ _ _ (setClaim (NewAvailability (Geometry_Count (geometry s)))) id); try done.
  - destruct Hw as [->|[gen ->]]; apply moved_plain; try done; cbn; try lia; auto.
  - apply moved_plain; try done; cbn; try lia; auto.
  - apply resurvey_alter in Hr as [(f & -> & _)|[[-> _]|(t & a & _ & _ & -> & _)]].
    1,2: apply moved_plain; try done; cbn; try lia; auto.
    by eapply (moved_claims _ _ _ _ (setClaim a) id).
  - apply atChoice_facts in Ha as (Hf & Hd & Hli & Hg & ->). apply moved_plain; try done; cbn [live idle set_crowd]; cbn; lia.
  - destruct (atChoice_facts _ _ _ _ _ Ha) as (Hf & Hd & Hli & Hg & ->).
    assert (isFetching w = 0%Z) as Hz by (by inversion Ha).
    split; rewrite ?Hz, ?Hli; cbn; try done; try lia.
    + intros y. rewrite elem_of_union, elem_of_singleton, Hf. naive_solver.
    + intros i y [= <- <-]. intros [_ Ht]. split_and!; try done. pose proof (choice_spec s (sourceOf s id) Ht) as Hs. rewrite Hx in Hs. apply Hs.
    + intros i [= <-]. by left.
    + auto.
    + intros i. by left.
  - apply atChoice_facts in Ha as (Hf & Hd & Hli & Hg & ->). apply moved_plain; try done; cbn [live idle set_crowd]; cbn; try lia.
    intros i [= <-]. by left.
  - apply atChoice_facts in Ha as (Hfe & Hd & Hli & Hg & ->). apply moved_plain; try done; cbn [live idle set_crowd]; cbn; lia.
  - apply atChoice_facts in Ha as (Hfe & Hd & Hli & Hg & ->). apply moved_plain; try done; cbn [live idle set_crowd]; cbn; try lia.
    intros i [= <-]. by left.
  - assert (∃ c fp fl, s' = set_counts c fp fl (refused x id s)) as (c & fp & fl & ->).
    { destruct Hs as [[-> _]|[[-> _]|(fl & -> & _)]]; [exists (fetched s), (fromPeer s), (failed s); by destruct s..|by eexists _, _, _]. }
    apply moved_release; try done; [right; by eexists|by cbn; auto|intros i; apply claims_alter|].
    intros i. apply (refused_declined x id s i).
  - apply moved_release; try done; [by left|by cbn; auto|by left].
  - destruct (saveProgress_same cfg saves (landed x id (set_pieces (have s) p s))) as (t & -> & _).
    apply moved_release; try done; [right; by eexists| |by left].
    unfold fits. cbn. intros [Hwf Ht]. destruct (Add_spec (have s) x Hwf) as (? & ? & ?).
    split; [split; [done|congruence]|]. by right.
  - apply moved_plain; try done; cbn; try lia; auto.
Qed.

(** ** The invariant *)

Definition view {A} (f : Pc → option A) (ws : list Pc) (i : nat) : option A := ws !! i ≫= f.

Lemma view_step {A} (f : Pc → option A) b ws i w w' j :
  (∀ v, f (wake v) = f v) → ws !! i = Some w →
  view f (<[i := w']> (wakeIf b ws)) j = if decide (j = i) then f w' else view f ws j.
Proof.
  intros Hf Hi. unfold view. destruct (decide (j = i)) as [->|Hne].
  - rewrite list_lookup_insert_eq; [done|]. apply lookup_lt_Some in Hi. destruct b; [cbn; by rewrite length_fmap|done].
  - rewrite list_lookup_insert_ne, lookup_wakeIf by done. destruct (ws !! j) as [v|]; [|done]. cbn.
    destruct b; [apply Hf|done].
Qed.

Lemma fetches_wake v : fetches (wake v) = fetches v. Proof. by destruct v. Qed.
Lemma drives_wake v : drives (wake v) = drives v. Proof. by destruct v. Qed.
Lemma isGone_wake v : isGone (wake v) = isGone v. Proof. by destruct v. Qed.

Record ok (sys : System) : Prop := mkOk {
  ok_fits : fits (sess sys);
  ok_live : live (sess sys) = tally isLive (workers sys);
  ok_idle : idle (sess sys) = tally isParked (workers sys);
  ok_fetching : fetching (sess sys) = tally isFetching (workers sys);
  ok_inflight x : x ∈ inflight (sess sys) ↔ ∃ i id, view fetches (workers sys) i = Some (id, x);
  ok_one i j id id' x : view fetches (workers sys) i = Some (id, x) → view fetches (workers sys) j = Some (id', x) → i = j;
  ok_new i id x : view fetches (workers sys) i = Some (id, x) →
    (0 ≤ x < Geometry_Count (geometry (sess sys)))%Z ∧ (x ∉ held (have (sess sys))) ∧
    (x ∉ declined (sourceOf (sess sys) id));
  ok_order : NoDup (order (sess sys));
  ok_drives i id : view drives (workers sys) i = Some id →
    ∃ k, (k < next (sess sys))%nat ∧ order (sess sys) !! k = Some id ∧ is_Some (claims (sess sys) !! id);
  ok_own i j id : view drives (workers sys) i = Some id → view drives (workers sys) j = Some id → i = j;
  ok_gone i : view (λ w, if isGone w then Some tt else None) (workers sys) i = Some tt →
    (length (order (sess sys)) ≤ next (sess sys))%nat }.

(** What a step of a worker does to a system. *)
Lemma workStep_goes cfg i inp sys sys' :
  workStep cfg i inp sys = Some sys' →
  ∃ w w' b, workers sys !! i = Some w ∧ goes cfg (sess sys) w inp w' (sess sys') b ∧
    workers sys' = <[i := w']> (wakeIf b (workers sys)) ∧ watched sys' = watched sys.
Proof.
  unfold workStep. intros (w & Hw & (e & He & [= <-])%bind_Some)%bind_Some. apply advance_goes in He.
  exists w, (pc e), (broadcast e). done.
Qed.

Lemma fetches_drives v id x : fetches v = Some (id, x) → drives v = Some id.
Proof. destruct v; try done. by intros [= -> ->]. Qed.

Lemma view_fetches_drives ws i id x : view fetches ws i = Some (id, x) → view drives ws i = Some id.
Proof. unfold view. destruct (ws !! i); [|done]. apply fetches_drives. Qed.

Lemma elem_of_Has a x : (0 ≤ x < total a)%Z → Has a x = false ↔ x ∉ held a.
Proof. intros _. rewrite elem_of_held. by destruct (Has a x). Qed.

Lemma ok_workStep cfg i inp sys sys' : ok sys → workStep cfg i inp sys = Some sys' → ok sys'.
Proof.
  intros [Hfit Hlive Hidle Hfe Hin Hone Hnew Hord Hdr Hown Hgone] (w & w' & b & Hi & Hg & Hws & _)%workStep_goes.
  destruct (goes_moved _ _ _ _ _ _ _ Hg) as [Mg Mo Ml Mi Mf Min Ma Md Mn Mh Mc Mde Mgo]. clear Hg.
  set (s := sess sys) in *. set (s' := sess sys') in *. set (ws := workers sys) in *.
  destruct (Mh Hfit) as [Hfit' Hheld].
  assert (∀ j, view fetches (workers sys') j = if decide (j = i) then fetches w' else view fetches ws j) as Vf
    by (intros j; rewrite Hws; apply (view_step _ b ws i w); [apply fetches_wake|done]).
  assert (∀ j, view drives (workers sys') j = if decide (j = i) then drives w' else view drives ws j) as Vd
    by (intros j; rewrite Hws; apply (view_step _ b ws i w); [apply drives_wake|done]).
  assert (∀ f, (∀ v, f (wake v) = f v) → tally f (workers sys') = (tally f ws - f w + f w')%Z) as Ht.
  { intros f Hf. rewrite Hws. destruct b; [|exact (tally_insert f ws i w w' Hi)].
    rewrite (tally_insert f _ i (wake w) w') by (by cbn; rewrite list_lookup_fmap, Hi).
    by rewrite (tally_wakeIf f true), Hf. }
  assert (∀ id x, fetches w = Some (id, x) → view fetches ws i = Some (id, x)) as Hwi by (intros; unfold view; by rewrite Hi).
  assert (∀ id, drives w = Some id → view drives ws i = Some id) as Hwd by (intros; unfold view; by rewrite Hi).
  assert (∀ id x, fetches w' = Some (id, x) → view drives ws i = Some id ∧ free s (sourceOf s id) x ∧ have s' = have s ∧ claims s' = claims s) as Ha.
  { intros id x Hx. destruct (Ma id x Hx Hfit) as (? & ? & ? & ?). split_and!; auto. }
  split; fold s'; rewrite ?Mg, ?Mo.
  - done.
  - rewrite Ml, Hlive. symmetry. apply Ht. by intros [].
  - rewrite Mi, Hidle. symmetry. apply Ht. by intros [].
  - rewrite Mf, Hfe. symmetry. apply Ht. by intros [].
  - intros x. rewrite Min, Hin. setoid_rewrite Vf. split.
    + intros [[(j & id & Hj) Hno]|[id Hx]].
      * exists j, id. destruct (decide (j = i)) as [->|]; [|done].
        exfalso. apply (Hno id). revert Hj. unfold view. by rewrite Hi.
      * exists i, id. by rewrite decide_True.
    + intros (j & id & Hj). destruct (decide (j = i)) as [->|Hne]; [right; eauto|left].
      split; [by exists j, id|]. intros id' Hw. apply Hne. by eapply Hone; [|apply Hwi].
  - intros j k id id' x. rewrite !Vf.
    destruct (decide (j = i)) as [->|], (decide (k = i)) as [->|]; [done|..|by apply Hone].
    all: intros H1 H2; exfalso.
    + destruct (Ha _ _ H1) as (_ & (_ & _ & Ho) & _). unfold offers in Ho. rewrite !andb_true_iff in Ho.
      destruct Ho as [[Ho%negb_true_iff%bool_decide_eq_false _] _]. apply Ho. apply Hin. by exists k, id'.
    + destruct (Ha _ _ H2) as (_ & (_ & _ & Ho) & _). unfold offers in Ho. rewrite !andb_true_iff in Ho.
      destruct Ho as [[Ho%negb_true_iff%bool_decide_eq_false _] _]. apply Ho. apply Hin. by exists j, id.
  - intros j id x. rewrite Vf. destruct (decide (j = i)) as [->|Hne].
    + intros Hx. destruct (Ha id x Hx) as (_ & (Hr & Hh & Ho) & -> & Hc). unfold offers in Ho. rewrite !andb_true_iff in Ho.
      destruct Ho as [_ Ho%negb_true_iff%bool_decide_eq_false]. split_and!; [lia|lia| |].
      * apply elem_of_Has; [|done]. destruct Hfit as [_ ->]. fold s in Hr. lia.
      * unfold sourceOf in *. by rewrite Hc.
    + intros Hj. destruct (Hnew j id x Hj) as (Hr & Hh & Hd). split_and!; [lia|lia| |].
      * destruct Hheld as [->|(id' & y & Hy & ->)]; [done|]. rewrite elem_of_union, elem_of_intersection, elem_of_singleton.
        intros [?|[<- _]]; [done|]. apply Hne. eapply Hone; [done|]. by apply Hwi.
      * destruct (Mde id) as [->|(y & Hy & ->)]; [done|]. rewrite elem_of_union, elem_of_singleton.
        intros [<-|?]; [|done]. apply Hne. by eapply Hone; [|apply Hwi].
  - done.
  - intros j id. rewrite Vd. destruct (decide (j = i)) as [->|Hne].
    + intros [Hw|(Hw & Ho & Hn & Hs)]%Md.
      * destruct (Hdr i id (Hwd _ Hw)) as (k & Hk & ? & ?). exists k. split_and!; [lia|done|by apply Mc].
      * exists (next s). split_and!; [lia|done|by apply Mc].
    + intros (k & Hk & ? & ?)%Hdr. exists k. split_and!; [lia|done|by apply Mc].
  - assert (∀ j id, j ≠ i → drives w' = Some id → view drives ws j = Some id → False) as Hx.
    { intros j id Hne [Hw|(_ & Ho & _ & _)]%Md Hj.
      - apply Hne. by eapply Hown; [|apply Hwd].
      - destruct (Hdr j id Hj) as (k & Hk & Hok & _). assert (k = next s) by (by eapply NoDup_lookup). lia. }
    intros j k id. rewrite !Vd. destruct (decide (j = i)) as [->|], (decide (k = i)) as [->|]; [done|..|by apply Hown].
    all: intros H1 H2; exfalso; by eapply Hx.
  - intros j. rewrite Hws.
    rewrite (view_step (λ v, if isGone v then Some tt else None)  b ws i w) by (done || (intros v; by rewrite isGone_wake)).
    destruct (decide (j = i)) as [->|Hne]; [|intros Hj; apply Hgone in Hj; lia].
    destruct (isGone w') eqn:Hgw; [|done]. intros _. destruct (Mgo eq_refl) as [Hw|Hw].
    + specialize (Hgone i). unfold view in Hgone. rewrite Hi in Hgone. cbn in Hgone. rewrite Hw in Hgone. specialize (Hgone eq_refl). lia.
    + apply lookup_ge_None in Hw. lia.
Qed.
