(* ===== verification/SwarmSpec.v ===== *)
(** * SwarmSpec: the theorems of a piece session

    Under any schedule and any answers: the counters and the set of pieces in flight are
    what the workers do, no piece is fetched twice at once nor asked twice of one source,
    a worker is never left asleep, and the session ends; with a source that holds the blob
    and serves it, it ends with every piece. *)

From S2P Require Import Prelude GoText Pieces PieceSets Swarm SwarmSteps.
From S2P Require Transfers Resume.
From Stdlib Require Import Strings.Byte.

(** ** Every session ends *)

(** What may still change: pieces to land or be declined, sources to take, workers to leave. *)
Definition missingPieces (s : Session) : Z :=
  Z.of_nat (size (indices (Geometry_Count (geometry s)) ∖ held (have s))).
Definition undeclined (s : Session) (id : string) : Z :=
  Z.of_nat (size (indices (Geometry_Count (geometry s)) ∖ declined (sourceOf s id))).
Definition openPieces (s : Session) : Z := (missingPieces s + tally (undeclined s) (order s))%Z.
Definition weight (w : Pc) : Z :=
  match w with Done => 0 | Leaving => 1 | Picking => 2 | _ => 3 end.
Definition budget (sys : System) : Z :=
  openPieces (sess sys) + 2 * Z.of_nat (length (order (sess sys)) - next (sess sys)) + tally weight (workers sys)
  + (if watched sys then 1 else 0).

(** The questions a worker may still put at this generation. *)
Definition surveys (gen : nat) (w : Pc) : Z :=
  match w with
  | AtRoster _ a | ReadRoster _ a _ _ | AtPlayhead _ a | ReadPlayhead _ a _ | Choosing _ a | Parked _ a _
  | Fetching _ a _ => 2 * Z.of_nat (gen - a)
  | Asking _ a => 2 * Z.of_nat (gen - a) + 1
  | _ => 0
  end.
Definition unasked (sys : System) : Z := tally (surveys (generation (sess sys))) (workers sys).

(** How far a worker is from its next fetch or rest. *)
Definition rank (w : Pc) : Z :=
  match w with
  | AtRoster _ _ => 6 | ReadRoster _ _ _ _ => 5 | AtPlayhead _ _ => 4 | ReadPlayhead _ _ _ => 3
  | Choosing _ _ | Parked _ _ true => 2 | Fetching _ _ _ => 1 | _ => 0
  end.
Definition distance (sys : System) : Z := tally rank (workers sys).

Definition lessWork (sys' sys : System) : Prop :=
  (budget sys' < budget sys)%Z ∨
  budget sys' = budget sys ∧
    ((unasked sys' < unasked sys)%Z ∨ unasked sys' = unasked sys ∧ (distance sys' < distance sys)%Z).

Lemma tally_ext {A} (f g : A → Z) l : (∀ x, x ∈ l → f x = g x) → tally f l = tally g l.
Proof.
  induction l as [|x l IH]; intros Hf; [done|]. cbn. rewrite Hf, IH; [done| |by left]. intros y Hy. apply Hf. by right.
Qed.

Lemma tally_change (f f' : string → Z) l id :
  NoDup l → id ∈ l → (∀ x, x ≠ id → f' x = f x) → tally f' l = (tally f l + (f' id - f id))%Z.
Proof.
  intros Hnd Hin Hf. induction Hnd as [|x l Hx Hnd IH]; [by apply elem_of_nil in Hin|]. cbn.
  apply elem_of_cons in Hin as [<-|Hin].
  - rewrite (tally_ext f' f l); [lia|]. intros y Hy. apply Hf. by intros ->.
  - rewrite IH, Hf by (done || by intros ->). lia.
Qed.

Lemma openPieces_nonneg s : (0 ≤ openPieces s)%Z.
Proof.
  unfold openPieces, missingPieces. pose proof (tally_nonneg (undeclined s) (order s)) as H.
  assert (0 ≤ tally (undeclined s) (order s))%Z; [|lia]. apply H. intros x. unfold undeclined. lia.
Qed.

(** Removing one of what is left. *)
Lemma size_remove (A B : gset Z) x : x ∈ A → (x ∉ B) → (size (A ∖ ({[x]} ∪ B)) < size (A ∖ B))%nat.
Proof. intros Ha Hb. apply subset_size. set_solver. Qed.

Definition sameWork (s s' : Session) : Prop :=
  geometry s' = geometry s ∧ order s' = order s ∧ held (have s') = held (have s) ∧
  ∀ id, declined (sourceOf s' id) = declined (sourceOf s id).

Lemma openPieces_same s s' : sameWork s s' → openPieces s' = openPieces s.
Proof.
  intros (Hg & Ho & Hh & Hd). unfold openPieces, missingPieces. rewrite Hg, Ho, Hh. f_equal.
  apply tally_ext. intros id _. unfold undeclined. by rewrite Hg, Hd.
Qed.

Lemma openPieces_refused s id x :
  (0 ≤ x < Geometry_Count (geometry s))%Z → (x ∉ declined (sourceOf s id)) →
  NoDup (order s) → id ∈ order s → is_Some (claims s !! id) →
  (openPieces (refused x id s) < openPieces s)%Z.
Proof.
  intros Hr Hd Hnd Hin [sc Hsc]. unfold openPieces.
  change (missingPieces (refused x id s)) with (missingPieces s). change (order (refused x id s)) with (order s).
  rewrite (tally_change (undeclined s) _ _ id Hnd Hin).
  2:{ intros y Hne. unfold undeclined. change (geometry (refused x id s)) with (geometry s).
      destruct (refused_declined x id s y) as [->|[? _]]; done. }
  assert (declined (sourceOf (refused x id s) id) = {[x]} ∪ declined (sourceOf s id)) as He.
  { unfold sourceOf. cbn. by rewrite lookup_alter_eq, Hsc. }
  unfold undeclined. rewrite He. change (geometry (refused x id s)) with (geometry s).
  pose proof (size_remove (indices (Geometry_Count (geometry s))) (declined (sourceOf s id)) x) as Hs.
  specialize (Hs ltac:(by apply elem_of_indices) Hd). lia.
Qed.

Lemma openPieces_landed s id x p t :
  fits s → (0 ≤ x < Geometry_Count (geometry s))%Z → (x ∉ held (have s)) →
  (openPieces (set_progress t (landed x id (set_pieces (have s) p s))) < openPieces s)%Z.
Proof.
  intros [Hwf Ht] Hr Hh. set (s' := set_progress _ _). unfold openPieces.
  change (tally (undeclined s') (order s')) with (tally (undeclined s) (order s)).
  unfold missingPieces. change (geometry s') with (geometry s). change (have s') with (Add (have s) x).
  destruct (Add_spec (have s) x Hwf) as (_ & -> & _).
  replace (held (have s) ∪ {[x]} ∩ indices (total (have s))) with ({[x]} ∪ held (have s)).
  2:{ apply set_eq. intros y. rewrite !elem_of_union, elem_of_intersection, elem_of_singleton, elem_of_indices. naive_solver lia. }
  pose proof (size_remove (indices (Geometry_Count (geometry s))) (held (have s)) x) as Hs.
  specialize (Hs ltac:(by apply elem_of_indices) Hh). lia.
Qed.

(** What a step takes off the work, by its case. *)
Lemma goes_work cfg s w inp w' s' b :
  goes cfg s w inp w' s' b →
  (∀ id x, fetches w = Some (id, x) → (0 ≤ x < Geometry_Count (geometry s))%Z ∧ (x ∉ held (have s)) ∧
    (x ∉ declined (sourceOf s id)) ∧ id ∈ order s ∧ is_Some (claims s !! id)) →
  NoDup (order s) → fits s →
  (openPieces s' + 2 * Z.of_nat (length (order s') - next s') + weight w' <
    openPieces s + 2 * Z.of_nat (length (order s) - next s) + weight w)%Z ∨
  (openPieces s' = openPieces s ∧ order s' = order s ∧ next s' = next s ∧ weight w' = weight w ∧
    generation s' = generation s ∧
    ((surveys (generation s) w' < surveys (generation s) w)%Z ∨
     surveys (generation s) w' = surveys (generation s) w ∧ b = false ∧ (rank w' < rank w)%Z)).
Proof.
  intros Hg Hnew Hnd Hfit.
  assert (openPieces s' = openPieces s → order s' = order s → next s' = next s → weight w' < weight w →
    openPieces s' + 2 * Z.of_nat (length (order s') - next s') + weight w' <
      openPieces s + 2 * Z.of_nat (length (order s) - next s) + weight w)%Z as Hless by (intros -> -> ->; lia).
  destruct Hg as [Ho|id Ho Hc|id sc Ho Hc|id at_ w' Hw|id at_ gen seen read w' s' Hs Hw|id|id at_ w' Hw|id at_ gen read
    |id at_ answer s' b Hr|w id at_ s0 Ha Hover|w id at_ s0 x Ha Hst Hx Hco|w id at_ s0 Ha Hlt Hk|w id at_ s0 Ha Hst Hx Hco Hl Hf
    |w id at_ s0 Ha Hl|id at_ x resp wrote saves s' Hs|id at_ x resp wrote saves body off len p e _ _ _ Hw
    |id at_ x resp wrote saves body off len p _ _ _ Hw|].
  - left. by apply Hless.
  - left. apply lookup_lt_Some in Ho. change (openPieces (set_next (S (next s)) s)) with (openPieces s). cbn. lia.
  - left. apply lookup_lt_Some in Ho. change (openPieces (set_next (S (next s)) s)) with (openPieces s). cbn. lia.
  - right. destruct Hw as [->|[->|[-> _]]]; split_and!; try done; cbn; lia.
  - right. destruct Hs as [->|(r & -> & _)], Hw as [->|[-> _]]; split_and!; try done; cbn; lia.
  - left. apply Hless; try done. apply openPieces_same. split_and!; try done. intros i. by apply (declined_alter (setClaim _)).
  - right. destruct Hw as [->|[gen ->]]; split_and!; try done; cbn; lia.
  - right. split_and!; try done. cbn; lia.
  - right. apply resurvey_alter in Hr as [(f & -> & _)|[[-> _]|(t & a & _ & _ & -> & _)]]; split_and!; try done; try (cbn; lia).
    apply openPieces_same. split_and!; try done. intros i. by apply (declined_alter (setClaim _)).
  - left. inversion Ha; subst; by apply Hless.
  - right. inversion Ha; subst; split_and!; try done; cbn; lia.
  - right. inversion Ha; subst; split_and!; try done; cbn; lia.
  - left. inversion Ha; subst; by apply Hless.
  - right. inversion Ha; subst; split_and!; try done; cbn; lia.
  - left. destruct (Hnew id x eq_refl) as (Hr & _ & Hd & Hin & Hsc).
    assert (openPieces s' = openPieces (refused x id s) ∧ order s' = order s ∧ next s' = next s) as (-> & -> & ->)
      by (by destruct Hs as [[-> _]|[[-> _]|(fl & -> & _)]]).
    pose proof (openPieces_refused s id x Hr Hd Hnd Hin Hsc). cbn. lia.
  - left. by apply Hless.
  - left. destruct (Hnew id x eq_refl) as (Hr & Hh & _).
    destruct (saveProgress_same cfg saves (landed x id (set_pieces (have s) p s))) as (t & -> & _).
    pose proof (openPieces_landed s id x p t Hfit Hr Hh). cbn. lia.
  - left. by apply Hless.
Qed.

Lemma lex_acc {A} (R : A → A → Prop) (m1 m2 m3 : A → Z) :
  (∀ a, 0 ≤ m1 a)%Z → (∀ a, 0 ≤ m2 a)%Z → (∀ a, 0 ≤ m3 a)%Z →
  (∀ a a', R a a' → (m1 a' < m1 a)%Z ∨ m1 a' = m1 a ∧ ((m2 a' < m2 a)%Z ∨ m2 a' = m2 a ∧ (m3 a' < m3 a)%Z)) →
  ∀ a, Acc (flip R) a.
Proof.
  intros H1 H2 H3 HR.
  assert (∀ n1 n2 n3 a, Z.to_nat (m1 a) = n1 → Z.to_nat (m2 a) = n2 → Z.to_nat (m3 a) = n3 → Acc (flip R) a) as H.
  { induction n1 as [n1 IH1] using lt_wf_ind. induction n2 as [n2 IH2] using lt_wf_ind.
    induction n3 as [n3 IH3] using lt_wf_ind. intros a E1 E2 E3. constructor. intros a' Ha.
    pose proof (H1 a). pose proof (H1 a'). pose proof (H2 a). pose proof (H2 a'). pose proof (H3 a). pose proof (H3 a').
    destruct (HR a a' Ha) as [Hlt|[He [Hlt|[He' Hlt]]]].
    - eapply (IH1 (Z.to_nat (m1 a'))); [lia|done..].
    - eapply (IH2 (Z.to_nat (m2 a'))); [lia|lia|done..].
    - eapply (IH3 (Z.to_nat (m3 a'))); [lia|lia|lia|done]. }
  intros a. by eapply H.
Qed.

Definition step (cfg : Config) (sys sys' : System) : Prop := ∃ m, moveStep cfg m sys = Some sys'.

Lemma ok_cancel sys : ok sys → ok (cancelStep sys).
Proof.
  intros H. destruct H as [Hfit Hlive Hidle Hfe Hin Hone Hnew Hord Hdr Hown Hgone]. unfold cancelStep.
  assert (∀ A (f : Pc → option A) j, (∀ v, f (wake v) = f v) → view f (wakeIf true (workers sys)) j = view f (workers sys) j) as Hv.
  { intros A f j Hf. unfold view. rewrite lookup_wakeIf. destruct (workers sys !! j) as [v|]; [|done]. cbn. apply Hf. }
  pose proof (λ j, Hv _ fetches j fetches_wake) as Vf. pose proof (λ j, Hv _ drives j drives_wake) as Vd.
  split; cbn [sess workers]; try done.
  - rewrite tally_wakeIf by (by intros []). done.
  - rewrite tally_wakeIf by (by intros []). done.
  - rewrite tally_wakeIf by (by intros []). done.
  - intros x. setoid_rewrite Vf. apply Hin.
  - intros i j id id' x. rewrite !Vf. apply Hone.
  - intros i id x. rewrite Vf. apply Hnew.
  - intros i id. rewrite Vd. apply Hdr.
  - intros i j id. rewrite !Vd. apply Hown.
  - intros i. rewrite Hv by (intros v; by rewrite isGone_wake). apply Hgone.
Qed.

Lemma ok_step cfg sys sys' : ok sys → step cfg sys sys' → ok sys'.
Proof.
  intros Hok [[i inp|] Hm]; cbn in Hm; [by eapply ok_workStep|].
  destruct (watched sys); [|done]. injection Hm as <-. by apply ok_cancel.
Qed.

Lemma surveys_wake gen v : surveys gen (wake v) = surveys gen v. Proof. by destruct v. Qed.
Lemma weight_wake v : weight (wake v) = weight v. Proof. by destruct v. Qed.

Lemma tally_step f b ws i w w' :
  (∀ v, f (wake v) = f v) ∨ b = false → ws !! i = Some w →
  tally f (<[i := w']> (wakeIf b ws)) = (tally f ws - f w + f w')%Z.
Proof.
  intros Hf Hi. destruct b; [|by apply (tally_insert f ws i w w')]. destruct Hf as [Hf|]; [|done].
  rewrite (tally_insert f _ i (wake w) w') by (by cbn; rewrite list_lookup_fmap, Hi).
  by rewrite (tally_wakeIf f true), Hf.
Qed.

Lemma step_lessWork cfg sys sys' : ok sys → step cfg sys sys' → lessWork sys' sys.
Proof.
  intros Hok [[i inp|] Hm]; cbn in Hm.
  2:{ left. unfold budget. destruct (watched sys) eqn:Hw; [|done]. injection Hm as <-. cbn [sess workers watched cancelStep].
      rewrite tally_wakeIf by apply weight_wake. change (openPieces (set_stop (err (sess sys)) (sess sys))) with (openPieces (sess sys)).
      cbn. lia. }
  apply workStep_goes in Hm as (w & w' & b & Hi & Hg & Hws & Hwa).
  pose proof (ok_fits _ Hok) as Hfit. pose proof (ok_order _ Hok) as Hnd.
  unfold lessWork, budget, unasked, distance. rewrite Hws, Hwa.
  rewrite !(tally_step weight b (workers sys) i w w') by (done || left; apply weight_wake).
  rewrite !(tally_step (surveys (generation (sess sys'))) b (workers sys) i w w') by (done || left; apply surveys_wake).
  destruct (goes_work _ _ _ _ _ _ _ Hg) as [Hlt|(He & Ho & Hn & Hwe & Hge & Hrest)]; [|done|done|left; lia|].
  - intros id x Hx. assert (view fetches (workers sys) i = Some (id, x)) as Hv by (unfold view; by rewrite Hi).
    destruct (ok_new _ Hok i id x Hv) as (? & ? & ?).
    destruct (ok_drives _ Hok i id (view_fetches_drives _ _ _ _ Hv)) as (k & _ & Hk & ?).
    split_and!; try done; try lia. by apply list_elem_of_lookup_2 in Hk.
  - right. rewrite He, Ho, Hn, Hwe, Hge. split; [lia|]. destruct Hrest as [?|(Heq & -> & Hr)]; [left; lia|right].
    split; [lia|]. rewrite (tally_step rank false (workers sys) i w w') by (done || by right). lia.
Qed.

Lemma unasked_nonneg sys : (0 ≤ unasked sys)%Z.
Proof. apply tally_nonneg. intros []; cbn; lia. Qed.
Lemma distance_nonneg sys : (0 ≤ distance sys)%Z.
Proof. apply tally_nonneg. intros [| | | | | | | |? ? []| | |]; cbn; lia. Qed.
Lemma budget_nonneg sys : (0 ≤ budget sys)%Z.
Proof.
  unfold budget. pose proof (openPieces_nonneg (sess sys)). pose proof (tally_nonneg weight (workers sys)) as Hw.
  assert (∀ w, 0 ≤ weight w)%Z as H0 by (intros []; cbn; lia). specialize (Hw H0). destruct (watched sys); lia.
Qed.

(** No schedule goes on for ever. *)
Lemma ok_Acc cfg sys : ok sys → Acc (flip (λ a b, ok a ∧ step cfg a b)) sys.
Proof.
  intros _. apply (lex_acc _ budget unasked distance); [apply budget_nonneg|apply unasked_nonneg|apply distance_nonneg|].
  intros a a' [Hok Hs]. by apply step_lessWork in Hs.
Qed.

(** ** No worker is left asleep *)

Definition asleep (w : Pc) : bool := match w with Parked _ _ false => true | _ => false end.

(** An input the worker takes. *)
Definition inputFor (w : Pc) : Input :=
  match w with
  | ReadRoster _ _ _ _ => Members None
  | ReadPlayhead _ _ _ => Playhead None
  | Asking _ _ => Told None
  | Fetching _ _ _ => Served (Resume.Unreachable false) None true
  | _ => Go
  end.

Lemma advance_total cfg w s : isDone w = false → asleep w = false → is_Some (advance cfg w (inputFor w) s).
Proof.
  destruct w as [| | | | | | | |id at_ []| | |]; try done; cbn; intros _ _; by eexists.
Qed.

Definition awakeIf (sys : System) : Prop :=
  finished sys = false → ∃ i w, workers sys !! i = Some w ∧ isDone w = false ∧ asleep w = false.

Lemma not_finished sys : finished sys = false → ∃ i w, workers sys !! i = Some w ∧ isDone w = false.
Proof.
  unfold finished. induction (workers sys) as [|w ws IH]; [done|]. cbn. destruct (isDone w) eqn:Hd.
  - cbn. intros (i & v & Hi & Hv)%IH. by exists (S i), v.
  - intros _. by exists 0%nat, w.
Qed.

Lemma tally_lt_exists {A} (f g : A → Z) l : (tally f l < tally g l)%Z → ∃ i x, l !! i = Some x ∧ (f x < g x)%Z.
Proof.
  induction l as [|x l IH]; cbn; [lia|]. intros Hlt. destruct (decide (f x < g x)%Z) as [?|?].
  - by exists 0%nat, x.
  - destruct IH as (i & y & Hi & ?); [lia|]. by exists (S i), y.
Qed.

Lemma tally_none {A} (l : list A) : tally (λ _, 0%Z) l = 0%Z.
Proof. induction l as [|x l IH]; [done|]. cbn [tally]. by rewrite IH. Qed.

Lemma awake_step cfg sys sys' : ok sys → step cfg sys sys' → awakeIf sys'.
Proof.
  intros Hok Hst. pose proof (ok_step _ _ _ Hok Hst) as Hok'. destruct Hst as [[i inp|] Hm]; cbn in Hm; intros Hfin.
  2:{ destruct (watched sys); [|done]. injection Hm as <-. apply not_finished in Hfin as (j & v & Hj & Hv).
      exists j, v. split_and!; [done..|]. unfold cancelStep in Hj. cbn [workers] in Hj. rewrite lookup_wakeIf in Hj.
      apply fmap_Some in Hj as (u & _ & ->). by destruct u. }
  apply workStep_goes in Hm as (w & w' & b & Hi & Hg & Hws & _).
  assert (workers sys' !! i = Some w') as Hi'.
  { rewrite Hws. apply list_lookup_insert_eq. apply lookup_lt_Some in Hi. destruct b; [cbn; by rewrite length_fmap|done]. }
  assert (fetching (sess sys') ≠ 0%Z ∨ (idle (sess sys') < live (sess sys'))%Z →
    ∃ j v, workers sys' !! j = Some v ∧ isDone v = false ∧ asleep v = false) as Hbusy.
  { rewrite (ok_fetching _ Hok'), (ok_idle _ Hok'), (ok_live _ Hok'). intros [Hf|Hl].
    - assert (tally (λ _ : Pc, 0%Z) (workers sys') < tally isFetching (workers sys'))%Z as Hlt.
      { rewrite tally_none. assert (0 ≤ tally isFetching (workers sys'))%Z by (apply tally_nonneg; by intros []). lia. }
      apply tally_lt_exists in Hlt as (j & v & Hj & Hv). exists j, v. by destruct v.
    - apply tally_lt_exists in Hl as (j & v & Hj & Hv). exists j, v. by destruct v. }
  destruct (asleep w') eqn:Ha.
  - apply Hbusy. destruct Hg as [| | |id at_ w' Hw|id at_ gen seen read w' s' Hs Hw| |id at_ w' Hw| | | | | | |w id at_ s0 Hc Hl|id at_ x resp wrote saves s' Hs| | |]; try done.
    + destruct Hw as [->|[->|[-> _]]]; done.
    + destruct Hw as [->|[-> _]]; done.
    + destruct Hw as [->|[gen ->]]; done.
    + destruct (atChoice_facts _ _ _ _ _ Hc) as (_ & _ & _ & _ & ->). cbn in *. destruct Hl as [?|?]; [by right|by left].
  - destruct (isDone w') eqn:Hd; [|by exists i, w']. 
    assert (b = true) as -> by (by destruct Hg as [| | |? ? ? [->|[->|[-> _]]]|? ? ? ? ? ? ? ? [->|[-> _]]| |? ? ? [->|[? ->]]| | | | | | | | | | |]).
    apply not_finished in Hfin as (j & v & Hj & Hv). exists j, v. split_and!; [done..|].
    assert (j ≠ i) as Hne by (intros ->; congruence).
    rewrite Hws, list_lookup_insert_ne, lookup_wakeIf in Hj by done. apply fmap_Some in Hj as (u & _ & ->). by destruct u.
Qed.

(** ** A session from its beginning *)

Record starts (s : Session) : Prop := mkStarts {
  st_fits : fits s;
  st_flight : inflight s = ∅;
  st_fetching : fetching s = 0%Z;
  st_idle : idle s = 0%Z;
  st_order : NoDup (order s);
  st_next : next s = 0%nat }.

Lemma view_replicate {A} (f : Pc → option A) n i : f Picking = None → view f (replicate n Picking) i = None.
Proof.
  intros Hf. unfold view. destruct (replicate n Picking !! i) eqn:E; [|done]. apply lookup_replicate in E as [-> _]. done.
Qed.

Lemma tally_replicate {A} (f : A → Z) n x : tally f (replicate n x) = (Z.of_nat n * f x)%Z.
Proof. induction n as [|n IH]; [done|]. cbn [replicate tally]. rewrite IH. lia. Qed.

Lemma starts_ok s : starts s → ok (driveSources s).
Proof.
  intros [Hfit Hfl Hfe Hid Hor Hn]. unfold driveSources. set (n := Nat.min _ _).
  split; cbn [sess workers]; try done.
  - rewrite tally_replicate. cbn. lia.
  - rewrite tally_replicate. cbn. lia.
  - rewrite tally_replicate. cbn. lia.
  - intros x. cbn. rewrite Hfl. split; [by intros ?%elem_of_empty|]. intros (i & id & H). by rewrite view_replicate in H.
  - intros i j id id' x H. by rewrite view_replicate in H.
  - intros i id x H. by rewrite view_replicate in H.
  - intros i id H. by rewrite view_replicate in H.
  - intros i j id H. by rewrite view_replicate in H.
  - intros i H. by rewrite view_replicate in H.
Qed.

Lemma run_step cfg ms sys sys' : runMoves cfg ms sys = Some sys' → rtc (step cfg) sys sys'.
Proof.
  revert sys. induction ms as [|m ms IH]; intros sys; cbn; [intros [= ->]; reflexivity|].
  intros (sys1 & Hm & Hr)%bind_Some. eapply rtc_l; [by exists m|by apply IH].
Qed.

Lemma rtc_ok cfg sys sys' : ok sys → rtc (step cfg) sys sys' → ok sys'.
Proof. intros Hok Hr. induction Hr; [done|]. by eapply IHHr, ok_step. Qed.

Lemma ok_run cfg ms sys sys' : ok sys → runMoves cfg ms sys = Some sys' → ok sys'.
Proof. intros Hok Hr%run_step. by eapply rtc_ok. Qed.

Lemma awake_run cfg ms s sys : starts s → runMoves cfg ms (driveSources s) = Some sys → awakeIf sys.
Proof.
  intros Hs Hr%run_step. apply rtc_inv_r in Hr as [<-|(sys1 & Hr & Hst)].
  - intros Hf. apply not_finished in Hf as (i & w & Hi & Hw). exists i, w. split_and!; [done..|].
    unfold driveSources in Hi. cbn [workers] in Hi. apply lookup_replicate in Hi as [-> _]. done.
  - eapply awake_step; [|done]. by eapply rtc_ok, Hr; apply starts_ok.
Qed.

(** ** Requests *)

(** The requests a run makes: the source and the piece, in order. *)
Definition newRequest (m : Move) (sys' : System) : list (string * Z) :=
  match m with
  | Work i _ => match view fetches (workers sys') i with Some p => [p] | None => [] end
  | Cancel => []
  end.

Fixpoint requests (cfg : Config) (ms : list Move) (sys : System) : list (string * Z) :=
  match ms with
  | [] => []
  | m :: ms =>
      match moveStep cfg m sys with
      | Some sys' => newRequest m sys' ++ requests cfg ms sys'
      | None => []
      end
  end.

(** A source and a piece that are not asked for again. *)
Definition settled (sys : System) (id : string) (x : Z) : Prop :=
  stopped (sess sys) = true ∨ x ∈ held (have (sess sys)) ∨ x ∈ declined (sourceOf (sess sys) id) ∨
  ∃ i, view fetches (workers sys) i = Some (id, x).

Lemma goes_stopped cfg s w inp w' s' b : goes cfg s w inp w' s' b → stopped s = true → stopped s' = true.
Proof.
  destruct 1 as [| | | |? ? ? ? ? ? ? [->|(r & -> & _)]| | | |? ? ? ? ? Hr|? ? ? ? Ha|? ? ? ? ? Ha|? ? ? ? Ha|? ? ? ? Ha|? ? ? ? Ha
    |? ? ? ? ? ? ? [[-> _]|[[-> _]|(fl & -> & _)]]| |id ? x ? ? saves ? ? ? p|]; try done.
  - apply resurvey_alter in Hr as [(f & -> & _)|[[-> _]|(? & ? & _ & _ & -> & _)]]; done.
  - by inversion Ha.
  - by inversion Ha.
  - by inversion Ha.
  - by inversion Ha.
  - by inversion Ha.
  - by destruct (saveProgress_same cfg saves (landed x id (set_pieces (have s) p s))) as (t & -> & _).
Qed.

(** What becomes of a piece a worker was fetching. *)
Lemma goes_settles cfg s w inp w' s' b id x :
  goes cfg s w inp w' s' b → fetches w = Some (id, x) → fits s → (0 ≤ x < Geometry_Count (geometry s))%Z →
  is_Some (claims s !! id) →
  stopped s' = true ∨ x ∈ held (have s') ∨ x ∈ declined (sourceOf s' id).
Proof.
  intros Hg Hw [Hwf Ht] Hx [sc Hsc].
  assert (x ∈ declined (sourceOf (refused x id s) id)) as Href.
  { unfold sourceOf. cbn. rewrite lookup_alter_eq, Hsc. cbn. set_solver. }
  destruct Hg as [| | | | | | | | |? ? ? ? Ha|? ? ? ? ? Ha|? ? ? ? Ha|? ? ? ? Ha|? ? ? ? Ha
    |id' at_ y resp wrote saves s' Hs|id' at_ y resp wrote saves body off len p e Hf Hr Hl Hwr
    |id' at_ y resp wrote saves body off len p Hf Hr Hl Hwr|]; try done; try (by inversion Ha; subst).
  all: injection Hw as -> ->.
  - right; right. by destruct Hs as [[-> _]|[[-> _]|(fl & -> & _)]].
  - by left.
  - destruct (saveProgress_same cfg saves (landed x id (set_pieces (have s) p s))) as (t & -> & _).
    right; left. cbn. destruct (Add_spec (have s) x Hwf) as (_ & -> & _).
    apply elem_of_union. right. rewrite elem_of_intersection, elem_of_singleton, elem_of_indices. split; [done|lia].
Qed.

Lemma settled_step cfg m sys sys' id x :
  ok sys → moveStep cfg m sys = Some sys' → settled sys id x → settled sys' id x.
Proof.
  intros Hok Hm. destruct m as [i inp|]; cbn in Hm.
  2:{ destruct (watched sys); [|done]. injection Hm as <-. intros _. by left. }
  apply workStep_goes in Hm as (w & w' & b & Hi & Hg & Hws & _).
  destruct (goes_moved _ _ _ _ _ _ _ Hg) as [_ _ _ _ _ _ _ _ _ Mh _ Mde _].
  destruct (Mh (ok_fits _ Hok)) as [_ Hheld].
  intros [Hs|[Hh|[Hd|[j Hj]]]].
  - left. by eapply goes_stopped.
  - right; left. destruct Hheld as [->|(? & ? & _ & ->)]; [done|]. apply elem_of_union. by left.
  - right; right; left. destruct (Mde id) as [->|(y & _ & ->)]; [done|]. apply elem_of_union. by right.
  - destruct (decide (j = i)) as [->|Hne].
    + destruct (ok_new _ Hok i id x Hj) as (Hx & _ & _).
      destruct (ok_drives _ Hok i id (view_fetches_drives _ _ _ _ Hj)) as (k & _ & _ & Hsc).
      unfold view in Hj. rewrite Hi in Hj. cbn in Hj.
      destruct (goes_settles _ _ _ _ _ _ _ id x Hg Hj (ok_fits _ Hok) Hx Hsc) as [?|[?|?]]; [by left|by right; left|by right; right; left].
    + right; right; right. exists j. rewrite Hws. rewrite (view_step _ b (workers sys) i w) by (done || apply fetches_wake).
      by rewrite decide_False.
Qed.

Lemma goes_new cfg s w inp w' s' b id x :
  goes cfg s w inp w' s' b → fetches w' = Some (id, x) → stopped s = false.
Proof.
  destruct 1 as [| | |? ? ? [->|[->|[-> _]]]|? ? ? ? ? ? ? ? [->|[-> _]]| |? ? ? [->|[? ->]]| | | | | | | | | | |]; try done.
Qed.

Lemma newRequest_fresh cfg m sys sys' id x :
  ok sys → moveStep cfg m sys = Some sys' → (id, x) ∈ newRequest m sys' → ¬ settled sys id x ∧ settled sys' id x.
Proof.
  intros Hok Hm Hin. destruct m as [i inp|]; cbn in *; [|by apply elem_of_nil in Hin].
  destruct (view fetches (workers sys') i) as [[id' x']|] eqn:Hv; [|by apply elem_of_nil in Hin].
  apply list_elem_of_singleton in Hin as [= <- <-]. split; [|by right; right; right; exists i].
  apply workStep_goes in Hm as (w & w' & b & Hi & Hg & Hws & _).
  rewrite Hws, (view_step _ b (workers sys) i w), decide_True in Hv by (done || apply fetches_wake).
  destruct (mv_assign _ _ _ _ (goes_moved _ _ _ _ _ _ _ Hg) id x Hv (ok_fits _ Hok)) as (_ & (Hr & Hh & Ho) & _ & _).
  pose proof (goes_new _ _ _ _ _ _ _ _ _ Hg Hv) as Hst.
  unfold offers in Ho. rewrite !andb_true_iff in Ho.
  destruct Ho as [[Hni%negb_true_iff%bool_decide_eq_false _] Hnd%negb_true_iff%bool_decide_eq_false].
  intros [?|[Hin|[?|[j Hj]]]]; [congruence| |done|].
  - apply elem_of_held in Hin. congruence.
  - apply Hni, (ok_inflight _ Hok). by exists j, id.
Qed.

Lemma requests_fresh cfg ms sys :
  ok sys → NoDup (requests cfg ms sys) ∧ ∀ id x, (id, x) ∈ requests cfg ms sys → ¬ settled sys id x.
Proof.
  revert sys. induction ms as [|m ms IH]; intros sys Hok; cbn; [split; [constructor|by intros ? ? ?%elem_of_nil]|].
  destruct (moveStep cfg m sys) as [sys'|] eqn:Hm; [|split; [constructor|by intros ? ? ?%elem_of_nil]].
  destruct (IH sys') as [Hnd Hns]; [by eapply ok_step; [|exists m]|]. split.
  - apply NoDup_app. split_and!; [|intros [id x] Hin Hin'|done].
    + destruct m as [i inp|]; cbn; [|constructor]. destruct (view _ _ _); [apply NoDup_singleton|constructor].
    + destruct (newRequest_fresh _ _ _ _ _ _ Hok Hm Hin) as [_ ?]. by eapply Hns.
  - intros id x [Hin|Hin]%elem_of_app; [by eapply newRequest_fresh|].
    intros Hs. eapply Hns; [done|]. by eapply settled_step.
Qed.

(** ** A source that holds the blob *)

Definition full (g : Geometry) (a : Availability) : Prop :=
  ∀ x, (0 ≤ x < Geometry_Count g)%Z → Has a x = true.

(** The run is not cancelled, this node can write its staging file, and the source stays a
    member, says it holds every piece when it says anything readable, and serves each piece
    at its length. *)
Definition honestMove (h : string) (sys : System) (m : Move) : Prop :=
  match m with
  | Cancel => False
  | Work i inp =>
      match workers sys !! i, inp with
      | Some (ReadRoster _ _ _ _), Members (Some r) => r !! h = Some true
      | Some (Asking id _), Told (Some t) => id = h → ∀ a, readClaim (geometry (sess sys)) t = Some a → full (geometry (sess sys)) a
      | Some (Fetching id _ x), Served resp wrote _ =>
          wrote = None ∧ (id = h → ∃ body off, fetchFrom (sourceOf (sess sys) h) (geometry (sess sys)) x resp = Some body ∧
            Range (geometry (sess sys)) x = inr (off, Z.of_nat (length body)))
      | _, _ => True
      end
  end.

Fixpoint honestRun (cfg : Config) (h : string) (ms : list Move) (sys : System) : Prop :=
  match ms with
  | [] => True
  | m :: ms =>
      honestMove h sys m ∧
      match moveStep cfg m sys with Some sys' => honestRun cfg h ms sys' | None => True end
  end.

Definition rosterHas (h : string) (r : option (gmap string bool)) : Prop := ∀ m, r = Some m → m !! h = Some true.
Definition seenBy (w : Pc) : option (gmap string bool) := match w with ReadRoster _ _ _ r => r | _ => None end.
Definition isRevoking (h : string) (w : Pc) : bool := match w with Revoking id => bool_decide (id = h) | _ => false end.

Record serving (h : string) (sys : System) : Prop := mkServing {
  sv_stopped : stopped (sess sys) = false;
  sv_err : err (sess sys) = None;
  sv_closed : Resume.pClosed (partial (sess sys)) = false;
  sv_claim : ∃ sc, claims (sess sys) !! h = Some sc ∧ full (geometry (sess sys)) (claim sc) ∧ declined sc = ∅;
  sv_roster : rosterHas h (roster (sess sys));
  sv_workers i w : workers sys !! i = Some w → rosterHas h (seenBy w) ∧ isRevoking h w = false;
  sv_place : Complete (geometry (sess sys)) (have (sess sys)) = true ∨
    h ∈ drop (next (sess sys)) (order (sess sys)) ∨ ∃ i, view drives (workers sys) i = Some h }.

Lemma Complete_iff g a :
  wf a → total a = Z.max 0 (Geometry_Count g) → (0 < Geometry_Count g)%Z →
  Complete g a = true ↔ ∀ x, (0 ≤ x < Geometry_Count g)%Z → x ∈ held a.
Proof.
  intros Hwf Ht Hn. unfold Complete. rewrite (wf_count _ Hwf), andb_true_iff, Z.eqb_eq, Z.ltb_lt.
  assert (held a ⊆ indices (Geometry_Count g)) as Hsub.
  { pose proof (held_indices a) as H. rewrite Ht, Z.max_r in H by lia. done. }
  pose proof (size_indices (Geometry_Count g)) as Hsz. specialize (Hsz ltac:(lia)). split.
  - intros [Hc _] x Hx. assert (held a = indices (Geometry_Count g)) as ->; [|by apply elem_of_indices].
    apply set_subseteq_size_eq; [done|lia].
  - intros Hall. split; [|done]. rewrite <-Hsz. do 2 f_equal. apply (anti_symm (⊆)); [done|].
    intros x Hx%elem_of_indices. by apply Hall.
Qed.

(** With nothing in flight, a source that claims everything and declined nothing has
    nothing to give only when no piece is missing. *)
Lemma serving_choice h sys :
  ok sys → serving h sys → (0 < Geometry_Count (geometry (sess sys)))%Z → fetching (sess sys) = 0%Z →
  choice (sess sys) (sourceOf (sess sys) h) = None → Complete (geometry (sess sys)) (have (sess sys)) = true.
Proof.
  intros Hok [_ _ _ (sc & Hsc & Hfull & Hdec) _ _ _] Hn Hf Hc. destruct (ok_fits _ Hok) as [Hwf Ht].
  apply Complete_iff; [done..|]. intros x Hx.
  pose proof (choice_spec (sess sys) (sourceOf (sess sys) h) Ht) as Hs. rewrite Hc in Hs. specialize (Hs x).
  apply elem_of_held. destruct (Has (have (sess sys)) x) eqn:Hh; [done|]. exfalso. apply Hs. split_and!; [lia|lia|done|].
  unfold offers, sourceOf. rewrite Hsc. cbn. rewrite (Hfull x Hx), Hdec.
  rewrite bool_decide_false, bool_decide_false; [done|apply not_elem_of_empty|].
  intros (i & id & Hi)%(ok_inflight _ Hok). rewrite (ok_fetching _ Hok) in Hf.
  apply tally_zero in Hf; [|by intros []]. unfold view in Hi. destruct (workers sys !! i) as [w|] eqn:Hw; [|done].
  eapply Forall_lookup_1 in Hf; [|done]. by destruct w.
Qed.

(** Every move of an honest run, seen from the source. *)
Lemma serving_session cfg h s w inp w' s' b :
  goes cfg s w inp w' s' b →
  match w, inp with
  | ReadRoster _ _ _ _, Members (Some r) => r !! h = Some true
  | Asking id _, Told (Some t) => id = h → ∀ a, readClaim (geometry s) t = Some a → full (geometry s) a
  | Fetching id _ x, Served resp wrote _ =>
      wrote = None ∧ (id = h → ∃ body off, fetchFrom (sourceOf s h) (geometry s) x resp = Some body ∧
        Range (geometry s) x = inr (off, Z.of_nat (length body)))
  | _, _ => True
  end →
  (∀ id x, fetches w = Some (id, x) → ∃ off len, Range (geometry s) x = inr (off, len) ∧ (0 ≤ off)%Z) →
  stopped s = false → err s = None → Resume.pClosed (partial s) = false →
  (∃ sc, claims s !! h = Some sc ∧ full (geometry s) (claim sc) ∧ declined sc = ∅) →
  rosterHas h (roster s) → rosterHas h (seenBy w) → isRevoking h w = false →
  stopped s' = false ∧ err s' = None ∧ Resume.pClosed (partial s') = false ∧
  (∃ sc, claims s' !! h = Some sc ∧ full (geometry s') (claim sc) ∧ declined sc = ∅) ∧
  rosterHas h (roster s') ∧ rosterHas h (seenBy w') ∧ isRevoking h w' = false.
Proof.
  intros Hg Hm Hrange Hst Her Hcl Hsc Hro Hse Hre.
  assert (∀ id f, (id = h → ∀ sc, full (geometry s) (claim sc) → declined sc = ∅ → full (geometry s) (claim (f sc)) ∧ declined (f sc) = ∅) →
    ∃ sc, alter f id (claims s) !! h = Some sc ∧ full (geometry s) (claim sc) ∧ declined sc = ∅) as Halter.
  { intros id f Hf. destruct Hsc as (sc & Hsc & Hfull & Hd). destruct (decide (id = h)) as [->|Hne].
    - rewrite lookup_alter_eq, Hsc. eexists. split; [done|]. by apply Hf.
    - rewrite lookup_alter_ne by done. by exists sc. }
  destruct Hg as [Ho|id Ho Hc|id sc Ho Hc|id at_ w' Hw|id at_ gen seen read w' s' Hs Hw|id|id at_ w' Hw|id at_ gen read
    |id at_ answer s' b Hr|w id at_ s0 Ha Hover|w id at_ s0 x Ha _ Hx Hco|w id at_ s0 Ha Hlt Hk|w id at_ s0 Ha _ Hx Hco Hl Hf
    |w id at_ s0 Ha Hl|id at_ x resp wrote saves s' Hs|id at_ x resp wrote saves body off len p e Hf Hr Hl Hw
    |id at_ x resp wrote saves body off len p Hf Hr Hl Hw|]; try done.
  - destruct Hw as [->|[->|[-> (r & Hr & Hi)]]]; split_and!; try done. cbn. apply bool_decide_eq_false. intros ->. apply Hi. by apply Hro.
  - assert (rosterHas h read) as Hrd by (destruct read as [r|]; [by intros ? [= <-]|done]).
    assert (isRevoking h w' = false ∧ seenBy w' = None) as [Hnr Hsn].
    { destruct Hw as [->|[-> (r & Hi & Hr)]]; [done|]. split; [|done]. cbn. apply bool_decide_eq_false. intros ->. apply Hi.
      destruct Hr as [->|[_ ->]]; [by apply Hrd|by apply Hse]. }
    rewrite Hsn. destruct Hs as [->|(r & -> & ->)]; split_and!; try done.
  - split_and!; try done. apply Halter. intros ->. cbn in Hre. by rewrite bool_decide_true in Hre.
  - destruct Hw as [->|[gen ->]]; by split_and!.
  - apply resurvey_alter in Hr as [(f & -> & _)|[[-> _]|(t & a & -> & Ha & -> & _)]]; split_and!; try done.
    apply Halter. intros -> sc _ Hd. split; [by apply Hm|done].
  - apply atChoice_facts in Ha as (_ & _ & _ & _ & ->). by split_and!.
  - apply atChoice_facts in Ha as (_ & _ & _ & _ & ->). by split_and!.
  - apply atChoice_facts in Ha as (_ & _ & _ & _ & ->). by split_and!.
  - apply atChoice_facts in Ha as (_ & _ & _ & _ & ->). by split_and!.
  - apply atChoice_facts in Ha as (_ & _ & _ & _ & ->). by split_and!.
  - destruct Hm as [-> Hserve]. 
    assert (id ≠ h) as Hne.
    { intros ->. destruct (Hserve eq_refl) as (body & off & Hf & Hr).
      destruct Hs as [[_ [e He]]|[[_ (body' & off' & len' & Hf' & Hr' & Hl')]|(fl & _ & Hf')]]; [congruence| |congruence].
      assert (body' = body) as -> by congruence. congruence. }
    destruct Hs as [[-> _]|[[-> _]|(fl & -> & _)]]; (split_and!; try done; apply Halter; by intros ->).
  - destruct Hm as [-> _]. destruct (Hrange id x eq_refl) as (off' & len' & Hr' & Hoff). rewrite Hr in Hr'. injection Hr' as <- <-.
    unfold WriteAt in Hw. rewrite Hcl, (proj2 (Z.ltb_ge _ _)) in Hw by lia. done.
  - destruct (saveProgress_same cfg saves (landed x id (set_pieces (have s) p s))) as (t & -> & _). split_and!; try done.
    cbn. unfold WriteAt in Hw. rewrite Hcl in Hw. destruct (off <? 0)%Z; [done|]. by injection Hw as <- _.
Qed.

Lemma goes_place cfg s w inp w' s' b h :
  goes cfg s w inp w' s' b → stopped s = false → isRevoking h w = false →
  Complete (geometry s) (have s) = false → is_Some (claims s !! h) →
  (∀ id x, fetches w = Some (id, x) → stopped s' = false) →
  (* a worker that gives the source up *)
  (choice s (sourceOf s h) = None → fetching s = 0%Z → False) →
  (drives w = Some h → drives w' = Some h) ∧
  (h ∈ drop (next s) (order s) → h ∈ drop (next s') (order s') ∨ drives w' = Some h).
Proof.
  intros Hg Hst Hre Hco Hh Hfe Hnone.
  pose proof (goes_moved _ _ _ _ _ _ _ Hg) as Hmv. pose proof (mv_order _ _ _ _ Hmv) as Hord.
  assert (∀ id, order s !! next s = Some id → h ∈ drop (next s) (order s) → h = id ∨ h ∈ drop (S (next s)) (order s)) as Hdrop.
  { intros id Ho. rewrite (drop_S _ _ _ Ho). by intros [?|?]%elem_of_cons; [left|right]. }
  destruct Hg as [Ho|id Ho Hc|id sc Ho Hc|id at_ w' Hw|id at_ gen seen read w' s' Hs Hw|id|id at_ w' Hw|id at_ gen read
    |id at_ answer s' b Hr|w id at_ s0 Ha Hover|w id at_ s0 x Ha _ Hx _|w id at_ s0 Ha Hlt Hk|w id at_ s0 Ha _ Hx _ Hl Hf
    |w id at_ s0 Ha Hl|id at_ x resp wrote saves s' Hs|id at_ x resp wrote saves body off len p e Hf Hr Hl Hw
    |id at_ x resp wrote saves body off len p Hf Hr Hl Hw|]; try (by split; auto).
  - split; [done|]. intros [->|Hin]%(Hdrop id Ho); [by destruct Hh as [? ?]; simplify_eq|by left].
  - split; [done|]. intros [->|Hin]%(Hdrop id Ho); [by right|by left].
  - split; [|by left]. by destruct Hw as [->|[->|[-> _]]].
  - split; [by destruct Hw as [->|[-> _]]|]. rewrite Hord. destruct Hs as [->|(r & -> & _)]; by left.
  - split; [|by left]. intros [= ->]. cbn in Hre. by rewrite bool_decide_true in Hre.
  - split; [|by left]. by destruct Hw as [->|[gen ->]].
  - split; [done|]. left. by apply resurvey_alter in Hr as [(f & -> & _)|[[-> _]|(t & a & _ & _ & -> & _)]].
  - by rewrite Hst, Hco in Hover.
  - destruct (atChoice_facts _ _ _ _ _ Ha) as (_ & -> & _ & _ & ->). split; [done|by left].
  - destruct (atChoice_facts _ _ _ _ _ Ha) as (_ & -> & _ & _ & ->). split; [done|by left].
  - assert (id ≠ h) as Hne by (intros ->; by apply Hnone).
    destruct (atChoice_facts _ _ _ _ _ Ha) as (_ & -> & _ & _ & ->). split; [by intros [= ->]|by left].
  - destruct (atChoice_facts _ _ _ _ _ Ha) as (_ & -> & _ & _ & ->). split; [done|by left].
  - split; [done|]. left. by destruct Hs as [[-> _]|[[-> _]|(fl & -> & _)]].
  - by specialize (Hfe id x eq_refl).
  - split; [done|]. left. by destruct (saveProgress_same cfg saves (landed x id (set_pieces (have s) p s))) as (t & -> & _).
Qed.

Lemma serving_step cfg h m sys sys' size_ :
  sized size_ (geometry (sess sys)) → ok sys → serving h sys → honestMove h sys m → moveStep cfg m sys = Some sys' → serving h sys'.
Proof.
  intros Hsz Hok Hsv Hm Hst. pose proof (ok_step _ _ _ Hok (ex_intro _ m Hst)) as Hok'.
  destruct (sized_facts _ _ Hsz) as (_ & _ & Hp & Hn & _).
  destruct m as [i inp|]; [|done]. cbn in Hm, Hst. pose proof (ok_fits _ Hok) as Hfit.
  apply workStep_goes in Hst as (w & w' & b & Hi & Hg & Hws & _). rewrite Hi in Hm.
  pose proof Hsv as [Vst Ver Vcl Vsc Vro Vw Vpl]. destruct (Vw i w Hi) as [Hse Hre].
  assert (∀ id x, fetches w = Some (id, x) → ∃ off len, Range (geometry (sess sys)) x = inr (off, len) ∧ (0 ≤ off)%Z) as Hrange.
  { intros id x Hx. destruct (ok_new _ Hok i id x) as (Hr & _); [unfold view; by rewrite Hi|].
    destruct (Range_sized _ _ x Hsz Hr) as (len & -> & _). eexists _, _. split; [done|]. nia. }
  destruct (serving_session cfg h _ _ _ _ _ _ Hg Hm Hrange Vst Ver Vcl Vsc Vro Hse Hre) as (Vst' & Ver' & Vcl' & Vsc' & Vro' & Hse' & Hre').
  pose proof (goes_moved _ _ _ _ _ _ _ Hg) as Hmv.
  split; try done.
  - intros j v Hj. rewrite Hws in Hj. destruct (decide (j = i)) as [->|Hne].
    + rewrite list_lookup_insert_eq in Hj by (apply lookup_lt_Some in Hi; destruct b; [cbn; by rewrite length_fmap|done]).
      by injection Hj as <-.
    + rewrite list_lookup_insert_ne, lookup_wakeIf in Hj by done. apply fmap_Some in Hj as (u & Hu & ->).
      destruct (Vw j u Hu) as [? ?]. destruct b; [|done]. by destruct u.
  - destruct (Complete (geometry (sess sys)) (have (sess sys))) eqn:Hco.
    + left. destruct Hfit as [Hwf Ht]. destruct (mv_have _ _ _ _ Hmv (conj Hwf Ht)) as [[Hwf' Ht'] Hh].
      pose proof (mv_geometry _ _ _ _ Hmv) as Hgeo. rewrite Hgeo in *.
      apply Complete_iff; [done..|]. intros x Hx. rewrite Complete_iff in Hco by done.
      destruct Hh as [->|(? & ? & _ & ->)]; [by apply Hco|]. apply elem_of_union. left. by apply Hco.
    + assert (choice (sess sys) (sourceOf (sess sys) h) = None → fetching (sess sys) = 0%Z → False) as Hnone.
      { intros Hc Hf. rewrite (serving_choice h sys Hok Hsv Hn Hf Hc) in Hco. done. }
      assert (is_Some (claims (sess sys) !! h)) as Hh by (destruct Vsc as (sc & ? & _); by exists sc).
      destruct (goes_place cfg _ _ _ _ _ _ h Hg Vst Hre Hco Hh (λ _ _ _, Vst') Hnone) as [Hd Hdr].
      right. destruct Vpl as [?|[Hin|[j Hj]]]; [congruence| |].
      * destruct (Hdr Hin) as [?|Hw']; [by left|right]. exists i.
        by rewrite Hws, (view_step _ b (workers sys) i w), decide_True by (done || apply drives_wake).
      * right. destruct (decide (j = i)) as [->|Hne].
        -- exists i. rewrite Hws, (view_step _ b (workers sys) i w), decide_True by (done || apply drives_wake).
           apply Hd. revert Hj. unfold view. by rewrite Hi.
        -- exists j. by rewrite Hws, (view_step _ b (workers sys) i w), decide_False by (done || apply drives_wake).
Qed.

Lemma geometry_step cfg m sys sys' : moveStep cfg m sys = Some sys' → geometry (sess sys') = geometry (sess sys).
Proof.
  destruct m as [i inp|]; cbn; [|by destruct (watched sys); intros [= <-]].
  intros (w & w' & b & Hi & Hg & _)%workStep_goes. by destruct (goes_moved _ _ _ _ _ _ _ Hg).
Qed.

Lemma geometry_run cfg ms sys sys' : runMoves cfg ms sys = Some sys' → geometry (sess sys') = geometry (sess sys).
Proof.
  revert sys. induction ms as [|m ms IH]; intros sys; cbn; [by intros [= ->]|].
  intros (sys1 & Hm & Hr)%bind_Some. rewrite (IH _ Hr). by eapply geometry_step.
Qed.

Lemma serving_run cfg h ms sys sys' size_ :
  sized size_ (geometry (sess sys)) → ok sys → serving h sys → honestRun cfg h ms sys → runMoves cfg ms sys = Some sys' →
  ok sys' ∧ serving h sys'.
Proof.
  revert sys. induction ms as [|m ms IH]; intros sys Hsz Hok Hsv Hm Hr; cbn in *; [by injection Hr as <-|].
  apply bind_Some in Hr as (sys1 & Hm1 & Hr). rewrite Hm1 in Hm. destruct Hm as [Hm Hms].
  apply (IH sys1); [by rewrite (geometry_step _ _ _ _ Hm1)|by eapply ok_step; [|exists m]|by eapply serving_step|done|done].
Qed.

Lemma serving_finished h sys :
  ok sys → serving h sys → finished sys = true → workers sys ≠ [] →
  Complete (geometry (sess sys)) (have (sess sys)) = true.
Proof.
  intros Hok Hsv Hf Hne.
  assert (∀ i w, workers sys !! i = Some w → w = Done) as Hdone.
  { intros i w Hi. unfold finished in Hf. rewrite forallb_forall in Hf.
    specialize (Hf w). rewrite <-list_elem_of_In in Hf. apply list_elem_of_lookup_2 in Hi. specialize (Hf Hi). by destruct w. }
  destruct (sv_place _ _ Hsv) as [?|[Hin|[i Hi]]]; [done|exfalso..].
  - destruct (workers sys) as [|w ws] eqn:Hw; [done|].
    assert (length (order (sess sys)) ≤ next (sess sys))%nat as Hle.
    { apply (ok_gone _ Hok 0%nat). unfold view. rewrite Hw. cbn. by rewrite (Hdone 0%nat w eq_refl). }
    rewrite drop_ge in Hin by done. by apply elem_of_nil in Hin.
  - unfold view in Hi. destruct (workers sys !! i) as [w|] eqn:Hw; [|done]. by rewrite (Hdone i w Hw) in Hi.
Qed.

Lemma length_step cfg m sys sys' : moveStep cfg m sys = Some sys' → length (workers sys') = length (workers sys).
Proof.
  destruct m as [i inp|]; cbn; [|destruct (watched sys); intros [= <-]; by cbn; rewrite length_fmap].
  intros (w & w' & b & Hi & Hg & -> & _)%workStep_goes. rewrite length_insert. by destruct b; cbn; rewrite ?length_fmap.
Qed.

Lemma length_run cfg ms sys sys' : runMoves cfg ms sys = Some sys' → length (workers sys') = length (workers sys).
Proof.
  revert sys. induction ms as [|m ms IH]; intros sys; cbn; [by intros [= ->]|].
  intros (sys1 & Hm & Hr)%bind_Some. rewrite (IH _ Hr). by eapply length_step.
Qed.

Lemma order_step cfg m sys sys' : moveStep cfg m sys = Some sys' → order (sess sys') = order (sess sys).
Proof.
  destruct m as [i inp|]; cbn; [|by destruct (watched sys); intros [= <-]].
  intros (w & w' & b & Hi & Hg & _)%workStep_goes. by destruct (goes_moved _ _ _ _ _ _ _ Hg).
Qed.

Lemma requests_in cfg ms sys id x :
  ok sys → (id, x) ∈ requests cfg ms sys → id ∈ order (sess sys) ∧ (0 ≤ x < Geometry_Count (geometry (sess sys)))%Z.
Proof.
  revert sys. induction ms as [|m ms IH]; intros sys Hok; cbn; [by intros ?%elem_of_nil|].
  destruct (moveStep cfg m sys) as [sys'|] eqn:Hm; [|by intros ?%elem_of_nil].
  assert (ok sys') as Hok' by (by eapply ok_step; [|exists m]).
  intros [Hin|Hin]%elem_of_app; rewrite <-(order_step _ _ _ _ Hm), <-(geometry_step _ _ _ _ Hm); [|by apply IH].
  destruct m as [i inp|]; cbn in Hin; [|by apply elem_of_nil in Hin].
  destruct (view fetches (workers sys') i) as [p|] eqn:Hv; [|by apply elem_of_nil in Hin].
  apply list_elem_of_singleton in Hin. subst p.
  destruct (ok_drives _ Hok' i id (view_fetches_drives _ _ _ _ Hv)) as (k & _ & Hk & _).
  split; [by apply list_elem_of_lookup_2 in Hk|]. by eapply ok_new.
Qed.

Lemma Acc_ok cfg sys : ok sys → Acc (flip (λ a b, ok a ∧ step cfg a b)) sys → Acc (flip (step cfg)) sys.
Proof.
  intros Hok Ha. induction Ha as [a _ IH]. constructor. intros a' Hs. cbn in Hs. apply IH; [done|]. by eapply ok_step.
Qed.

(** A source is asked for a piece nobody fetches, that it claims and did not decline: the
    first such piece of the playback window, and when there is none the one fewest sources
    claim, the first of these; it is asked for nothing only when there is no such piece. *)
Theorem assign_rarest (s : Session) (sc : SourceClaim) :
  fits s →
  match assignLocked s sc with
  | Some (x, s') =>
      s' = set_flight ({[x]} ∪ inflight s) (fetching s + 1) s ∧ free s sc x ∧
      ((∃ y, inWindow s y ∧ free s sc y) → inWindow s x ∧ ∀ y, inWindow s y → free s sc y → (x ≤ y)%Z) ∧
      ((¬ ∃ y, inWindow s y ∧ free s sc y) →
        ∀ y, free s sc y → (rarity s x < rarity s y)%Z ∨ rarity s x = rarity s y ∧ (x ≤ y)%Z)
  | None => ∀ y, ¬ free s sc y
  end.
Proof.
  intros [_ Ht]. pose proof (choice_spec s sc Ht) as H. unfold assignLocked. by destruct (choice s sc).
Qed.

(** C10. Whatever the schedule and whatever the sources answer: at most [maxConcurrentSources]
    workers run, each source is driven by one of them, the pieces in flight are those the
    workers fetch, each by one worker, none of them held or declined by its source, and the
    counts of the session are what the workers do. *)
Theorem swarm_invariant (cfg : Config) (s : Session) (ms : list Move) (sys : System) :
  starts s → runMoves cfg ms (driveSources s) = Some sys →
  (length (workers sys) ≤ maxConcurrentSources)%nat ∧
  (∀ i j id, view drives (workers sys) i = Some id → view drives (workers sys) j = Some id → i = j) ∧
  (∀ x, x ∈ inflight (sess sys) ↔ ∃ i id, view fetches (workers sys) i = Some (id, x)) ∧
  (∀ i j id id' x, view fetches (workers sys) i = Some (id, x) → view fetches (workers sys) j = Some (id', x) → i = j) ∧
  (∀ i id x, view fetches (workers sys) i = Some (id, x) →
     (0 ≤ x < Geometry_Count (geometry (sess sys)))%Z ∧ (x ∉ held (have (sess sys))) ∧
     (x ∉ declined (sourceOf (sess sys) id))) ∧
  fetching (sess sys) = tally isFetching (workers sys) ∧ idle (sess sys) = tally isParked (workers sys) ∧
  live (sess sys) = tally isLive (workers sys).
Proof.
  intros Hs Hr. pose proof (ok_run _ _ _ _ (starts_ok _ Hs) Hr) as [].
  split_and!; try done. rewrite (length_run _ _ _ _ Hr). unfold driveSources. cbn. rewrite length_replicate. lia.
Qed.

(** C9. Every schedule is finite, and until every worker is done one of them can go on: no
    worker waits to be woken by nobody. *)
Theorem swarm_ends (cfg : Config) (s : Session) (ms : list Move) (sys : System) :
  starts s → runMoves cfg ms (driveSources s) = Some sys →
  Acc (flip (step cfg)) sys ∧
  (finished sys = false → ∃ i inp, is_Some (workStep cfg i inp sys)).
Proof.
  intros Hs Hr. pose proof (ok_run _ _ _ _ (starts_ok _ Hs) Hr) as Hok. split; [by apply Acc_ok, ok_Acc|].
  intros (i & w & Hi & Hd & Ha)%(awake_run _ _ _ _ Hs Hr). exists i, (inputFor w).
  destruct (advance_total cfg w (sess sys) Hd Ha) as [e He]. unfold workStep. rewrite Hi. cbn. rewrite He. by eexists.
Qed.

(** No source is asked twice for one piece, and none for a piece that was there at first:
    a session makes no more requests than it has sources and missing pieces. *)
Theorem swarm_asks_once (cfg : Config) (s : Session) (ms : list Move) :
  starts s →
  NoDup (requests cfg ms (driveSources s)) ∧
  ∀ id x, (id, x) ∈ requests cfg ms (driveSources s) →
    id ∈ order s ∧ (0 ≤ x < Geometry_Count (geometry s))%Z ∧ (x ∉ held (have s)).
Proof.
  intros Hs. pose proof (starts_ok _ Hs) as Hok. destruct (requests_fresh cfg ms _ Hok) as [Hnd Hns].
  split; [done|]. intros id x Hin. destruct (requests_in _ _ _ _ _ Hok Hin) as [Ho Hx].
  change (geometry (sess (driveSources s))) with (geometry s) in Hx. split_and!; [done|lia|lia|].
  intros Hh. apply (Hns id x Hin). by right; left.
Qed.

Lemma starts_serving h s sc :
  starts s → stopped s = false → err s = None → Resume.pClosed (partial s) = false → roster s = None →
  h ∈ order s → claims s !! h = Some sc → full (geometry s) (claim sc) → declined sc = ∅ → serving h (driveSources s).
Proof.
  intros Hs Hst Her Hcl Hro Hin Hsc Hfull Hdec. split; try done.
  - by exists sc.
  - intros r. cbn. by rewrite Hro.
  - intros i w. unfold driveSources. cbn. intros [-> _]%lookup_replicate. by split.
  - right; left. cbn. by rewrite (st_next _ Hs), drop_0.
Qed.

(** A session with a source has a worker. *)
Lemma driven_workers cfg ms s h sys :
  h ∈ order s → runMoves cfg ms (driveSources s) = Some sys → workers sys ≠ [].
Proof.
  intros Hin Hr Hnil. pose proof (length_run _ _ _ _ Hr) as Hl. rewrite Hnil in Hl. unfold driveSources in Hl. cbn in Hl.
  rewrite length_replicate in Hl. unfold maxConcurrentSources in Hl.
  destruct (order s); [by apply elem_of_nil in Hin|]. cbn in Hl. lia.
Qed.

(** With a source that claims the whole blob, stays a member and serves each piece at its
    length, a session that is not cancelled and can write its staging file ends with every
    piece, whatever the other sources do. *)
Theorem swarm_completes (cfg : Config) (s : Session) (size_ : Z) (h : string) (sc : SourceClaim) (ms : list Move)
    (sys : System) :
  starts s → sized size_ (geometry s) → stopped s = false → err s = None → Resume.pClosed (partial s) = false →
  roster s = None → h ∈ order s → claims s !! h = Some sc → full (geometry s) (claim sc) → declined sc = ∅ →
  honestRun cfg h ms (driveSources s) → runMoves cfg ms (driveSources s) = Some sys → finished sys = true →
  Complete (geometry s) (have (sess sys)) = true ∧ err (sess sys) = None ∧ stopped (sess sys) = false.
Proof.
  intros Hs Hsz Hst Her Hcl Hro Hin Hsc Hfull Hdec Hm Hr Hf.
  pose proof (starts_serving h s sc Hs Hst Her Hcl Hro Hin Hsc Hfull Hdec) as Hsv.
  destruct (serving_run cfg h ms (driveSources s) sys size_) as [Hok Hsv']; [done|by apply starts_ok|done..|].
  assert (geometry (sess sys) = geometry s) as Hg.
  { change (geometry s) with (geometry (sess (driveSources s))). by eapply geometry_run. }
  split_and!; [|apply Hsv'|apply Hsv']. rewrite <-Hg. apply (serving_finished h); [done..|].
  by apply (driven_workers cfg ms s h).
Qed.

(** ** Examples *)

Definition sw_geometry : Geometry := mkGeometry 3 262144.
Definition sw_source (id : string) : Transfers.PeerSource := Transfers.mkPeerSource id "" "https://peer" [x01] "reachable".
Definition sw_empty : Availability := NewAvailability 1.
Definition sw_all : Availability := Add sw_empty 0.
Definition sw_bytes : list byte := [x01; x02; x03].

Definition sw_seed : SourceClaim := mkClaim (sw_source "b") Transfers.KindWebSeed sw_all ∅.

(** A peer that has nothing yet, and a web seed. *)
Definition sw_session : Session :=
  newPieceSession sw_geometry sw_empty (Resume.mkPartial (x2a :: sw_bytes) [] false)
    {["a" := mkClaim (sw_source "a") Transfers.KindPeer sw_empty ∅;
      "b" := sw_seed]} ["a"; "b"] ∅ "".

Definition sw_cfg : Config := mkConfig true true true.

(** The peer's worker parks; the web seed's fetches, lands the piece and wakes it. *)
Definition sw_begin : list Move :=
  [Work 0 Go; Work 0 Go; Work 0 (Members (Some {["a" := true; "b" := true]})); Work 0 Go; Work 0 (Playhead (Some 0%Z)); Work 0 Go;
   Work 1 Go; Work 1 Go; Work 1 Go; Work 1 Go].
Definition sw_end : list Move :=
  [Work 1 (Served (Resume.Answered 206 sw_bytes false) None true); Work 0 Go; Work 0 Go; Work 0 Go;
   Work 1 Go; Work 1 (Members None); Work 1 Go; Work 1 (Playhead None); Work 1 Go; Work 1 Go; Work 1 Go].

Definition sw_at (ms : list Move) : System := default (driveSources sw_session) (runMoves sw_cfg ms (driveSources sw_session)).

Lemma sw_starts : starts sw_session.
Proof.
  destruct (NewAvailability_spec 1) as (Hwf & _ & Ht). split; try done.
  apply (bool_decide_eq_true_1 _). by vm_compute.
Qed.

Lemma sw_sized : sized 3 sw_geometry.
Proof. split; [by vm_compute|]. cbn. lia. Qed.

Lemma assign_rarest_witness :
  assignLocked sw_session sw_seed = Some (0%Z, set_flight {[0%Z]} 1 sw_session) ∧ free sw_session sw_seed 0.
Proof.
  assert (assignLocked sw_session sw_seed = Some (0%Z, set_flight {[0%Z]} 1 sw_session)) as Ha by (by vm_compute).
  split; [exact Ha|]. pose proof (assign_rarest sw_session sw_seed (st_fits _ sw_starts)) as H. rewrite Ha in H. apply H.
Defined.

Lemma swarm_invariant_witness :
  inflight (sess (sw_at sw_begin)) = {[0%Z]} ∧ (0%Z ∉ held (have (sess (sw_at sw_begin)))) ∧
  idle (sess (sw_at sw_begin)) = tally isParked (workers (sw_at sw_begin)).
Proof.
  assert (runMoves sw_cfg sw_begin (driveSources sw_session) = Some (sw_at sw_begin)) as Hr by (by vm_compute).
  destruct (swarm_invariant sw_cfg sw_session sw_begin (sw_at sw_begin) sw_starts Hr) as (_ & _ & _ & _ & Hn & _ & Hi & _).
  split_and!; [by vm_compute| |exact Hi]. apply (Hn 1%nat "b" 0%Z). by vm_compute.
Defined.

Lemma swarm_ends_witness :
  finished (sw_at sw_begin) = false ∧ ∃ i inp, is_Some (workStep sw_cfg i inp (sw_at sw_begin)).
Proof.
  assert (runMoves sw_cfg sw_begin (driveSources sw_session) = Some (sw_at sw_begin)) as Hr by (by vm_compute).
  assert (finished (sw_at sw_begin) = false) as Hf by (by vm_compute).
  split; [exact Hf|]. exact (proj2 (swarm_ends sw_cfg sw_session sw_begin (sw_at sw_begin) sw_starts Hr) Hf).
Defined.

Lemma swarm_asks_once_witness :
  requests sw_cfg (sw_begin ++ sw_end) (driveSources sw_session) = [("b", 0%Z)] ∧ "b" ∈ order sw_session.
Proof.
  assert (requests sw_cfg (sw_begin ++ sw_end) (driveSources sw_session) = [("b", 0%Z)]) as Hq by (by vm_compute).
  split; [exact Hq|]. destruct (swarm_asks_once sw_cfg sw_session (sw_begin ++ sw_end) sw_starts) as [_ H].
  apply (H "b" 0%Z). rewrite Hq. by left.
Defined.

Lemma sw_full : full sw_geometry sw_all.
Proof. intros x Hx. assert (x = 0%Z) as -> by (change (Geometry_Count sw_geometry) with 1%Z in Hx; lia). by vm_compute. Qed.

Lemma sw_honest : honestRun sw_cfg "b" (sw_begin ++ sw_end) (driveSources sw_session).
Proof.
  vm_compute. split_and!; try done; try (intros; done). intros _. exists sw_bytes, 0%Z. by split.
Qed.

Lemma swarm_completes_witness : Complete sw_geometry (have (sess (sw_at (sw_begin ++ sw_end)))) = true.
Proof.
  assert (runMoves sw_cfg (sw_begin ++ sw_end) (driveSources sw_session) = Some (sw_at (sw_begin ++ sw_end))) as Hr by (by vm_compute).
  assert ("b" ∈ order sw_session) as Ho by (right; left).
  assert (claims sw_session !! "b" = Some sw_seed) as Hc by (by vm_compute).
  assert (finished (sw_at (sw_begin ++ sw_end)) = true) as Hf by (by vm_compute).
  exact (proj1 (swarm_completes sw_cfg sw_session 3 "b" sw_seed (sw_begin ++ sw_end) (sw_at (sw_begin ++ sw_end))
    sw_starts sw_sized eq_refl eq_refl eq_refl eq_refl Ho Hc sw_full eq_refl sw_honest Hr Hf)).
Defined.
