(* ===== verification/PiecePull.v ===== *)
(** * PiecePull: a blob from many sources, to its publication

    Models [PullPieces] of internal/peer/transfer/pieces.go with what it does before and
    after the session of Swarm.v: the resumed record of progress, the survey of the sources,
    the publication of Resume.v and the outcome.  What the outside answers and the schedule
    of the session are a record ([Env]); a schedule that leaves a worker running is a pull
    that has not returned. *)

From S2P Require Import Prelude GoText Chunking Pieces Swarm.
From S2P Require Transfers Resume.
From Stdlib Require Import Strings.Byte.

Inductive PullError :=
  | ErrDivide (e : Pieces.error) | ErrStage (e : Resume.error) | ErrNoPieceSource
  | ErrSession (e : Resume.error) | ErrContext | ErrPublish (e : Resume.error).

Record PieceOutcome := mkOutcome {
  Bytes : Z; oPieceLength : Z; oFetched : Z; oResumed : Z;
  oFromPeer : gmap string Z; Unreachable : list string; Deduplicated : bool }.

(** What this node has of one blob: the staging file, the published bytes and the record of
    the pieces that landed. *)
Record PieceNode := mkNode { blobNode : Resume.Node; record : string }.

(** [storeHas] is an error of the store's lookup when [None]; [says] answers the survey by
    the position of the source. *)
Record Env := mkEnv {
  cfg : Config;
  storeFails : bool;
  busy : bool;
  loads : bool;
  says : nat → option string;
  moves : list Move;
  savesLast : bool;
  done : bool;
  publishDone : bool }.

Section pull.
Context `{HashEnv} (env : Env).

(** ** Before the session *)

Definition resume (g : Geometry) (node : PieceNode) : Availability :=
  let empty := NewAvailability (Geometry_Count g) in
  if negb (hasProgress (cfg env)) then empty
  else if negb (loads env) || bool_decide (record node = "") then empty
  else default empty (readClaim g (record node)).

Definition claimsAll (g : Geometry) : Availability :=
  foldl Add (NewAvailability (Geometry_Count g)) (seqZ 0 (Geometry_Count g)).

(** The claims of the sources that can be driven, and the sources that could not say. *)
Definition surveyOne (g : Geometry) (i : nat) (c : Candidate) (st : gmap string SourceClaim * gset string) :
    gmap string SourceClaim * gset string :=
  let '(out, quiet) := st in
  let src := Source c in
  let id := Transfers.SourcePeerID src in
  if negb (Transfers.usable src) then (out, {[id]} ∪ quiet)
  else if bool_decide (CandidateKind c = Transfers.KindWebSeed) then
    (<[id := mkClaim src (CandidateKind c) (claimsAll g) ∅]> out, quiet)
  else if negb (bool_decide (CandidateKind c = Transfers.KindPeer)) then (out, quiet)
  else match says env i with
       | None => (out, {[id]} ∪ quiet)
       | Some encoded =>
           if bool_decide (encoded = "") then (out, quiet)
           else match readClaim g encoded with
                | None => (out, quiet)
                | Some a => (<[id := mkClaim src (CandidateKind c) a ∅]> out, quiet)
                end
       end.

Fixpoint survey (g : Geometry) (i : nat) (cs : list Candidate) (st : gmap string SourceClaim * gset string) :
    gmap string SourceClaim * gset string :=
  match cs with
  | [] => st
  | c :: cs => survey g (S i) cs (surveyOne g i c st)
  end.

Definition sortedKeys (m : gset string) : list string := sort_by str_lt (elements m).

(** ** After the session *)

Definition unusable (s : Session) : list string :=
  sortedKeys (silent s ∪
    dom (filter (λ kv, 0 < kv.2 ∧ default 0 (fromPeer s !! kv.1) = 0)%Z (failed s))).

Definition discardProgress (t : string) : string := if hasProgress (cfg env) then "" else t.

Definition starting (g : Geometry) : PieceOutcome := mkOutcome 0 (PieceLength g) 0 0 ∅ [] false.

(** Verification of the whole, and publication. *)
Definition publish (blob : list byte) (s : Session) (out : PieceOutcome) (node : PieceNode) :
    PieceNode * PieceOutcome * option PullError :=
  let '(n, r) := Resume.Publish (partial s) blob (publishDone env) (blobNode node) in
  match r with
  | inl e =>
      (mkNode (Resume.mkNode [] (Resume.stored n)) (discardProgress (progress s)), out, Some (ErrPublish e))
  | inr (size, _) =>
      (mkNode n (discardProgress (progress s)),
       mkOutcome size (oPieceLength out) (oFetched out) (oResumed out) (oFromPeer out) (Unreachable out)
         (Deduplicated out), None)
  end.

(** The end of the pull, once every worker returned. *)
Definition conclude (blob : list byte) (out : PieceOutcome) (sys : System) (node : PieceNode) :
    PieceNode * PieceOutcome * option PullError :=
  let s := saveProgress (cfg env) (savesLast env) (sess sys) in
  let out := mkOutcome (Bytes out) (oPieceLength out) (fetched s) (oResumed out) (fromPeer s) (unusable s)
               (Deduplicated out) in
  let kept := mkNode (Resume.mkNode (Resume.pData (partial s)) (Resume.stored (blobNode node))) (progress s) in
  match err s with
  | Some e => (kept, out, Some (ErrSession e))
  | None =>
      if done env || negb (watched sys) then (kept, out, Some ErrContext)
      else if negb (Complete (geometry s) (have s)) then (kept, out, Some ErrNoPieceSource)
      else publish blob s out node
  end.

(** The session a pull opens. *)
Definition opening (g : Geometry) (p : Resume.Partial) (sources : list Candidate) (node : PieceNode) : Session :=
  let '(held, quiet) := survey g 0 sources (∅, ∅) in
  newPieceSession g (resume g node) p held (sortedKeys (dom held)) quiet (record node).

(** What the pull leaves, its outcome and its error; [None] while a worker runs. *)
Definition PullPieces (blob : list byte) (size : Z) (sources : list Candidate) (node : PieceNode) :
    option (PieceNode * PieceOutcome * option PullError) :=
  match For size with
  | inl e => Some (node, mkOutcome 0 0 0 0 ∅ [] false, Some (ErrDivide e))
  | inr g =>
      if negb (storeFails env) && bool_decide (is_Some (Resume.stored (blobNode node))) then
        Some (node, mkOutcome size (PieceLength g) 0 0 ∅ [] true, None)
      else match Resume.OpenPartial (busy env) blob (blobNode node) with
      | inl e => Some (node, starting g, Some (ErrStage e))
      | inr p =>
          let s := opening g p sources node in
          let out := mkOutcome 0 (PieceLength g) 0 (count (have s)) ∅ [] false in
          if bool_decide (claims s = ∅) && negb (Complete g (have s)) then
            Some (node, mkOutcome 0 (PieceLength g) 0 (count (have s)) ∅ (sortedKeys (silent s)) false, Some ErrNoPieceSource)
          else
            sys ← runMoves (cfg env) (moves env) (driveSources s);
            if finished sys then Some (conclude blob out sys node) else None
      end
  end.
End pull.
