(* ===== verification/PiecePullSpec.v ===== *)
(** * PiecePullSpec: what a pull in pieces leaves

    The bytes of the pieces: what a session stages, what its record of progress says, and
    what a pull publishes, under any schedule and any sources. *)

From S2P Require Import Prelude GoText Chunking Pieces PieceSets Swarm SwarmSteps SwarmSpec PiecePull.
From S2P Require Transfers Resume.
From Stdlib Require Import Strings.Byte.

(** ** Ranges of bytes *)

Definition range (off len : nat) (data : list byte) : list byte := take len (drop off data).

Lemma lookup_range off len data i : range off len data !! i = if decide (i < len)%nat then data !! (off + i)%nat else None.
Proof.
  unfold range. case_decide; [by rewrite lookup_take_lt, lookup_drop|by rewrite lookup_take_ge by lia].
Qed.

Lemma lookup_splice data off b i :
  splice data off b !! i =
  if decide (i < off)%nat then (if decide (i < length data)%nat then data !! i else Some x00)
  else if decide (i < off + length b)%nat then b !! (i - off)%nat
  else data !! i.
Proof.
  unfold splice.
  destruct (decide (i < off)%nat) as [Hi|Hi].
  - destruct (decide (i < length data)%nat) as [Hd|Hd].
    + rewrite lookup_app_l by (rewrite length_take; lia). by rewrite lookup_take_lt.
    + rewrite lookup_app_r by (rewrite length_take; lia). rewrite length_take.
      rewrite lookup_app_l by (rewrite length_replicate; lia). apply lookup_replicate. split; [done|lia].
  - rewrite lookup_app_r by (rewrite length_take; lia). rewrite length_take.
    rewrite lookup_app_r by (rewrite length_replicate; lia). rewrite length_replicate.
    replace (i - off `min` length data - (off - length data))%nat with (i - off)%nat by lia.
    destruct (decide (i < off + length b)%nat) as [Hb|Hb].
    + by rewrite lookup_app_l by lia.
    + rewrite lookup_app_r by lia. rewrite lookup_drop. f_equal. lia.
Qed.

Lemma range_splice_same data off b : range off (length b) (splice data off b) = b.
Proof.
  apply list_eq. intros i. rewrite lookup_range. case_decide as Hi.
  - rewrite lookup_splice, decide_False, decide_True by lia. f_equal. lia.
  - symmetry. apply lookup_ge_None. lia.
Qed.

(** Bytes that are there and lie apart from what is written stay. *)
Lemma range_splice_apart data off b o len :
  (o + len ≤ length data)%nat → (o + len ≤ off ∨ off + length b ≤ o)%nat →
  range o len (splice data off b) = range o len data.
Proof.
  intros Hd Hap. apply list_eq. intros i. rewrite !lookup_range. case_decide as Hi; [|done].
  rewrite lookup_splice. destruct (decide (o + i < off)%nat).
  - by rewrite decide_True by lia.
  - by rewrite decide_False by lia.
Qed.

Lemma length_splice data off b :
  b ≠ [] → length (splice data off b) = Nat.max (length data) (off + length b).
Proof.
  intros Hb. unfold splice. rewrite !length_app, length_take, length_replicate, length_drop.
  assert (0 < length b)%nat by (destruct b; [done|cbn; lia]). lia.
Qed.

(** ** Pieces of the staging file *)

(** The bytes of a piece, and whether they are all there. *)
Definition pieceOf (g : Geometry) (x : Z) (data : list byte) : list byte :=
  match Range g x with inr (off, len) => range (Z.to_nat off) (Z.to_nat len) data | inl _ => [] end.
Definition staged (g : Geometry) (x : Z) (data : list byte) : Prop :=
  match Range g x with inr (off, len) => (off + len ≤ Z.of_nat (length data))%Z | inl _ => False end.

Section pieces.
Context (size : Z) (g : Geometry) (Hsz : sized size g).

Lemma write_piece p x body wrote off p' e :
  (0 ≤ x < Geometry_Count g)%Z → Range g x = inr (off, Z.of_nat (length body)) →
  WriteAt p body off wrote = (p', e) →
  Resume.pBlob p' = Resume.pBlob p ∧
  (∀ y, y ≠ x → (0 ≤ y < Geometry_Count g)%Z → staged g y (Resume.pData p) →
     staged g y (Resume.pData p') ∧ pieceOf g y (Resume.pData p') = pieceOf g y (Resume.pData p)) ∧
  (Z.of_nat (length (Resume.pData p)) ≤ size → Z.of_nat (length (Resume.pData p')) ≤ size)%Z ∧
  (e = None → staged g x (Resume.pData p') ∧ pieceOf g x (Resume.pData p') = body).
Proof.
  intros Hx Hr Hw. destruct (sized_facts _ _ Hsz) as (Hpos & Hs & HL & Hn & Hb).
  destruct (Range_sized _ _ x Hsz Hx) as (lx & Hrx & Hlx & Hx0). rewrite Hr in Hrx. injection Hrx as -> Hbody.
  assert (∀ y, y ≠ x → (0 ≤ y < Geometry_Count g)%Z → ∃ ly, Range g y = inr (y * PieceLength g, ly)%Z ∧ (0 < ly)%Z ∧
    (y * PieceLength g + ly ≤ x * PieceLength g ∨ x * PieceLength g + Z.of_nat (length body) ≤ y * PieceLength g)%Z) as Hy.
  { intros y Hne Hy. destruct (Range_sized _ _ y Hsz Hy) as (ly & Hry & Hly & Hy0). exists ly. split; [done|].
    destruct (Z.ltb_spec (size - y * PieceLength g) (PieceLength g)), (Z.ltb_spec (size - x * PieceLength g) (PieceLength g));
      split; [lia|nia|lia|nia|lia|nia|lia|nia]. }
  unfold WriteAt in Hw. destruct (Resume.pClosed p); [injection Hw as <- <-; by split_and!|].
  rewrite (proj2 (Z.ltb_ge _ _)) in Hw by nia.
  set (b := match wrote with None => body | Some n => take n body end) in Hw. injection Hw as <- <-. cbn [Resume.pData].
  assert (length b ≤ length body)%nat as Hlb by (unfold b; destruct wrote; rewrite ?length_take; lia).
  set (data := Resume.pData p). set (o := Z.to_nat (x * PieceLength g)).
  destruct (decide (b = [])) as [Hb0|Hb0].
  { split_and!; [done|done|lia|]. destruct wrote; [done|]. intros _. unfold b in Hb0. subst body. cbn in Hbody.
    destruct (Z.ltb_spec (size - x * PieceLength g) (PieceLength g)); lia. }
  rewrite length_splice by done. split_and!; [done| | |].
  - intros y Hne Hyr. destruct (Hy y Hne Hyr) as (ly & Hry & Hly & Hap). unfold staged, pieceOf. rewrite Hry.
    intros Hst. rewrite length_splice by done. split; [lia|]. apply range_splice_apart; fold data in Hst; unfold o; lia.
  - unfold o. destruct (Z.ltb_spec (size - x * PieceLength g) (PieceLength g)); lia.
  - destruct wrote; [done|]. intros _. unfold staged, pieceOf. rewrite Hr. unfold b in *. rewrite length_splice by done.
    split; [unfold o; lia|]. rewrite Nat2Z.id. apply range_splice_same.
Qed.

(** A file whose pieces are all those of a content is the content. *)
Lemma pieces_content data c :
  Z.of_nat (length c) = size → (Z.of_nat (length data) ≤ size)%Z →
  (∀ x, (0 ≤ x < Geometry_Count g)%Z → staged g x data ∧ pieceOf g x data = pieceOf g x c) → data = c.
Proof.
  intros Hc Hd Hall. destruct (sized_facts _ _ Hsz) as (Hpos & Hs & HL & Hn & Hb).
  assert (length data = length c) as Hlen.
  { destruct (Hall (Geometry_Count g - 1)%Z ltac:(lia)) as [Hst _]. unfold staged in Hst.
    destruct (Range_sized _ _ (Geometry_Count g - 1) Hsz ltac:(lia)) as (len & Hr & Hlen & ?). rewrite Hr in Hst.
    destruct (Z.ltb_spec (size - (Geometry_Count g - 1) * PieceLength g) (PieceLength g)); nia. }
  apply list_eq. intros i. destruct (decide (i < length c)%nat) as [Hi|Hi].
  2:{ rewrite !(proj2 (lookup_ge_None _ _)) by lia. done. }
  set (x := (Z.of_nat i / PieceLength g)%Z). pose proof (Z.div_mod (Z.of_nat i) (PieceLength g)) as Hdm.
  pose proof (Z.mod_pos_bound (Z.of_nat i) (PieceLength g)) as Hm. fold x in Hdm.
  assert (0 ≤ x < Geometry_Count g)%Z as Hx by (split; [apply Z.div_pos; lia|nia]).
  destruct (Hall x Hx) as [_ Heq]. unfold pieceOf in Heq. destruct (Range_sized _ _ x Hsz Hx) as (len & Hr & Hln & ?).
  rewrite Hr in Heq. apply (f_equal (λ l, l !! (i - Z.to_nat (x * PieceLength g))%nat)) in Heq. rewrite !lookup_range in Heq.
  rewrite !decide_True in Heq by (destruct (Z.ltb_spec (size - x * PieceLength g) (PieceLength g)); nia).
  replace (Z.to_nat (x * PieceLength g) + (i - Z.to_nat (x * PieceLength g)))%nat with i in Heq by nia. done.
Qed.
End pieces.

(** ** What a session stages *)

(** The pieces a run lands: the source, the piece and the bytes it gave. *)
Definition newDelivery (cfg : Config) (m : Move) (sys sys' : System) : list (string * Z * list byte) :=
  match m with
  | Work i (Served resp _ _) =>
      match workers sys !! i with
      | Some (Fetching id _ x) =>
          match fetchFrom (sourceOf (sess sys) id) (geometry (sess sys)) x resp with
          | Some body => if bool_decide (x ∈ held (have (sess sys'))) then [(id, x, body)] else []
          | None => []
          end
      | _ => []
      end
  | _ => []
  end.

Fixpoint deliveries (cfg : Config) (ms : list Move) (sys : System) : list (string * Z * list byte) :=
  match ms with
  | [] => []
  | m :: ms =>
      match moveStep cfg m sys with
      | Some sys' => newDelivery cfg m sys sys' ++ deliveries cfg ms sys'
      | None => []
      end
  end.

Definition dataOf (s : Session) : list byte := Resume.pData (partial s).

(** The record says no more than what landed. *)
Definition truthful (t0 : string) (s : Session) : Prop :=
  progress s = t0 ∨
  ∃ a, progress s = Encode (geometry s) a ∧ wf a ∧ total a = total (have s) ∧ held a ⊆ held (have s).

Record kept (size : Z) (evs : list (string * Z * list byte)) (t0 : string) (s s' : Session) : Prop := mkKept {
  kp_have : held (have s) ⊆ held (have s');
  kp_piece x : x ∈ held (have s) → staged (geometry s) x (dataOf s) →
    staged (geometry s) x (dataOf s') ∧ pieceOf (geometry s) x (dataOf s') = pieceOf (geometry s) x (dataOf s);
  kp_landed x : x ∈ held (have s') → x ∈ held (have s) ∨
    ∃ id body, (id, x, body) ∈ evs ∧ staged (geometry s) x (dataOf s') ∧ pieceOf (geometry s) x (dataOf s') = body;
  kp_length : (Z.of_nat (length (dataOf s)) ≤ size → Z.of_nat (length (dataOf s')) ≤ size)%Z;
  kp_progress : truthful t0 s → truthful t0 s';
  kp_blob : Resume.pBlob (partial s') = Resume.pBlob (partial s) }.

(** A step that writes nothing. *)
Lemma kept_same size evs t0 s s' :
  geometry s' = geometry s → have s' = have s → partial s' = partial s → progress s' = progress s → kept size evs t0 s s'.
Proof.
  intros Hg Hh Hp Ht. split; unfold dataOf, truthful; rewrite ?Hg, ?Hh, ?Hp, ?Ht; auto.
Qed.

Lemma kept_kept size evs evs' t0 s1 s2 s3 :
  geometry s2 = geometry s1 → kept size evs t0 s1 s2 → kept size evs' t0 s2 s3 → kept size (evs ++ evs') t0 s1 s3.
Proof.
  intros Hg [Ha Hp Hl Hn Ht Hb] [Ha' Hp' Hl' Hn' Ht' Hb']. rewrite Hg in *. split.
  - by etrans.
  - intros x Hx Hs. destruct (Hp x Hx Hs) as [Hs2 He2]. destruct (Hp' x (Ha x Hx) Hs2) as [Hs3 He3]. split; [done|congruence].
  - intros x [Hx|(id & body & Hin & Hrest)]%Hl'.
    + apply Hl in Hx as Hx'. destruct Hx' as [?|(id & body & Hin & Hs & He)]; [by left|right].
      exists id, body. destruct (Hp' x Hx Hs) as [Hs' He']. split_and!; [apply elem_of_app; by left|done|congruence].
    + right. exists id, body. split; [apply elem_of_app; by right|done].
  - auto.
  - auto.
  - congruence.
Qed.

Lemma truthful_saved cfg saves t0 s s1 :
  truthful t0 s → fits s1 → geometry s1 = geometry s → held (have s) ⊆ held (have s1) →
  total (have s1) = total (have s) → progress s1 = progress s → truthful t0 (saveProgress cfg saves s1).
Proof.
  intros Hs [Hwf Ht] Hg Hh Htot Hp. unfold truthful, saveProgress. destruct (_ && _); cbn.
  - right. exists (have s1). by split_and!.
  - rewrite Hp, Hg. destruct Hs as [?|(a & Ha & Hwa & Hta & Hin)]; [by left|right]. exists a.
    split_and!; [done|done|congruence|by etrans].
Qed.

(** The step that lands a piece, and the one whose write fails. *)
Lemma kept_write size t0 cfg s id x body off p e wrote :
  sized size (geometry s) → fits s → (0 ≤ x < Geometry_Count (geometry s))%Z → (x ∉ held (have s)) →
  Range (geometry s) x = inr (off, Z.of_nat (length body)) → WriteAt (partial s) body off wrote = (p, e) →
  match e with
  | Some e => kept size [] t0 s (abort e (release x (set_pieces (have s) p s)))
  | None => ∀ saves, kept size [(id, x, body)] t0 s (saveProgress cfg saves (landed x id (set_pieces (have s) p s)))
  end.
Proof.
  intros Hsz [Hwf Ht] Hx Hnx Hr Hw. destruct (write_piece size (geometry s) Hsz _ _ _ _ _ _ _ Hx Hr Hw) as (Hle & Hother & Hlen & Hself).
  assert (∀ y, y ∈ held (have s) → y ≠ x ∧ (0 ≤ y < Geometry_Count (geometry s))%Z) as Hin.
  { intros y Hy. split; [by intros ->|]. apply held_indices, elem_of_indices in Hy. lia. }
  destruct e as [e|].
  - split; try done.
    + intros y Hy Hs. destruct (Hin y Hy). by apply Hother.
    + intros y Hy. by left.
  - intros saves. destruct (Hself eq_refl) as [Hst Hpc]. destruct (Add_spec (have s) x Hwf) as (Hwf' & Hh & Htot).
    set (s1 := landed x id (set_pieces (have s) p s)).
    destruct (saveProgress_same cfg saves s1) as (t & Heq & _).
    assert (held (have s1) = held (have s) ∪ ({[x]} ∩ indices (total (have s)))) as Hh1 by exact Hh.
    assert (truthful t0 s → truthful t0 (saveProgress cfg saves s1)) as Htr.
    { intros Hs. apply (truthful_saved cfg saves t0 s s1); try done; [|by rewrite Hh1; apply union_subseteq_l].
      split; [done|]. change (total (Add (have s) x) = Z.max 0 (Geometry_Count (geometry s))). congruence. }
    split; [| | | |exact Htr|]; rewrite Heq.
    + change (have (set_progress t s1)) with (have s1). rewrite Hh1. apply union_subseteq_l.
    + intros y Hy Hs. destruct (Hin y Hy). by apply Hother.
    + intros y. change (have (set_progress t s1)) with (have s1). rewrite Hh1.
      intros [?|[->%elem_of_singleton _]%elem_of_intersection]%elem_of_union; [by left|right].
      exists id, body. split_and!; [by left|done|done].
    + done.
    + exact Hle.
Qed.

Lemma kept_step cfg size m t0 sys sys' :
  sized size (geometry (sess sys)) → ok sys → moveStep cfg m sys = Some sys' →
  kept size (newDelivery cfg m sys sys') t0 (sess sys) (sess sys').
Proof.
  intros Hsz Hok Hm. destruct m as [i inp|]; cbn in Hm.
  2:{ destruct (watched sys); [|done]. injection Hm as <-. by apply kept_same. }
  apply workStep_goes in Hm as (w & w' & b & Hi & Hg & Hws & _).
  unfold newDelivery. rewrite Hi. clear Hws.
  pose proof (ok_fits _ Hok) as Hfit. pose proof (ok_new _ Hok i) as Hnew. unfold view in Hnew. rewrite Hi in Hnew. cbn in Hnew.
  remember (sess sys') as s1 eqn:Es1. clear Es1 sys'. set (s := sess sys) in *. 
  destruct Hg as [Ho|id Ho Hc|id sc Ho Hc|id at_ w' Hw|id at_ gen seen read w' s' Hs Hw|id|id at_ w' Hw|id at_ gen read
    |id at_ answer s' b Hr|w id at_ s0 Ha Hover|w id at_ s0 x Ha _ Hx Hco|w id at_ s0 Ha Hlt Hk|w id at_ s0 Ha _ Hx Hco Hl Hf
    |w id at_ s0 Ha Hl|id at_ x resp wrote saves s' Hs|id at_ x resp wrote saves body off len p e Hf Hr Hl Hw
    |id at_ x resp wrote saves body off len p Hf Hr Hl Hw|]; try (by apply kept_same);
    try (apply atChoice_facts in Ha as (_ & _ & _ & _ & ->); by apply kept_same).
  - destruct Hs as [->|(r & -> & _)]; by apply kept_same.
  - apply resurvey_alter in Hr as [(f & -> & _)|[[-> _]|(t & a & _ & _ & -> & _)]]; by apply kept_same.
  - destruct Hs as [[-> _]|[[-> _]|(fl & -> & _)]]; by apply kept_same.
  - destruct (Hnew id x eq_refl) as (Hx & Hnx & _). subst len.
    pose proof (kept_write size t0 cfg s id x body off p (Some e) wrote Hsz Hfit Hx Hnx Hr Hw) as Hk. cbn in Hk.
    destruct Hk. split; try done. intros y Hy. left. done.
  - destruct (Hnew id x eq_refl) as (Hx & Hnx & _). subst len. rewrite Hf.
    pose proof (kept_write size t0 cfg s id x body off p None wrote Hsz Hfit Hx Hnx Hr Hw saves) as Hk. rewrite bool_decide_true; [done|].
        clear Hk. destruct (saveProgress_same cfg saves (landed x id (set_pieces (have s) p s))) as (t & -> & _). cbn.
    destruct Hfit as [Hwf Ht]. destruct (Add_spec (have s) x Hwf) as (_ & -> & _).
    apply elem_of_union. right. rewrite elem_of_intersection, elem_of_singleton, elem_of_indices. split; [done|]. lia.
Qed.

Lemma kept_run cfg size ms t0 sys sys' :
  sized size (geometry (sess sys)) → ok sys → runMoves cfg ms sys = Some sys' →
  kept size (deliveries cfg ms sys) t0 (sess sys) (sess sys').
Proof.
  revert sys. induction ms as [|m ms IH]; intros sys Hsz Hok; cbn; [intros [= ->]; by apply kept_same|].
  intros (sys1 & Hm & Hr)%bind_Some. rewrite Hm. pose proof (geometry_step _ _ _ _ Hm) as Hg.
  eapply kept_kept; [exact Hg|by apply kept_step|]. apply IH; [by rewrite Hg|by eapply ok_step; [|exists m]|done].
Qed.

(** ** The session a pull opens *)

Lemma readClaim_ok g t a : readClaim g t = Some a → wf a ∧ total a = Z.max 0 (Geometry_Count g).
Proof.
  unfold readClaim. destruct (Decode t) as [|[g' b]] eqn:Hd; [done|]. case_bool_decide as Hg; [|done]. intros [= ->].
  destruct (Decode_ok _ _ _ Hd) as (_ & Hwf & Ht & _). destruct g, g', Hg; cbn in *; subst. done.
Qed.

Lemma resume_ok env g node : wf (resume env g node) ∧ total (resume env g node) = Z.max 0 (Geometry_Count g).
Proof.
  destruct (NewAvailability_spec (Geometry_Count g)) as (Hwf & _ & Ht).
  unfold resume. destruct (negb _); [done|]. destruct (_ || _); [done|].
  destruct (readClaim g (record node)) as [a|] eqn:Ha; [|done]. by eapply readClaim_ok.
Qed.

Lemma surveyOne_declined env g i c st :
  map_Forall (λ _ sc, declined sc = ∅) st.1 → map_Forall (λ _ sc, declined sc = ∅) (surveyOne env g i c st).1.
Proof.
  destruct st as [out quiet]. cbn [fst]. intros H. unfold surveyOne.
  destruct (negb _); [done|]. case_bool_decide; [by apply map_Forall_insert_2|]. destruct (negb _); [done|].
  destruct (says env i) as [t|]; [|done]. case_bool_decide; [done|]. destruct (readClaim g t); [|done].
  by apply map_Forall_insert_2.
Qed.

Lemma survey_declined env g i cs st :
  map_Forall (λ _ sc, declined sc = ∅) st.1 → map_Forall (λ _ sc, declined sc = ∅) (survey env g i cs st).1.
Proof. revert i st. induction cs as [|c cs IH]; intros i st H; [done|]. apply IH. by apply surveyOne_declined. Qed.

Lemma elem_of_sortedKeys m k : k ∈ sortedKeys m ↔ k ∈ m.
Proof. unfold sortedKeys. by rewrite elem_of_sort_by, elem_of_elements. Qed.

(** A session a pull opens starts well, is not stopped, and declined nothing. *)
Lemma opening_starts env g p sources node :
  let s := opening env g p sources node in
  starts s ∧ geometry s = g ∧ have s = resume env g node ∧ partial s = p ∧ progress s = record node ∧
  stopped s = false ∧ err s = None ∧ roster s = None ∧
  (∀ id sc, claims s !! id = Some sc → declined sc = ∅ ∧ id ∈ order s).
Proof.
  cbv zeta. unfold opening. pose proof (survey_declined env g 0 sources (∅, ∅) (map_Forall_empty _)) as Hd.
  destruct (survey _ _ _ _ _) as [held quiet] eqn:Hs. cbn in Hd. split_and!; try done.
  - split; try done; [apply resume_ok|]. apply NoDup_sort_by, NoDup_elements.
  - intros id sc Hsc. cbn in *. split; [by apply (Hd id)|]. apply elem_of_sortedKeys, elem_of_dom. by exists sc.
Qed.

(** ** Theorems *)

(** At every moment of a pull, whatever the schedule and the sources: a piece that was
    recorded and staged before stays as it was, the bytes of every other piece the session
    counts are those a source gave for it, in their place, and the record of progress on
    the disk is the one found or claims only such pieces. *)
Theorem progress_truthful (env : Env) (size : Z) (g : Geometry) (p : Resume.Partial) (sources : list Candidate)
    (node : PieceNode) (ms : list Move) (sys : System) :
  sized size g → let s := opening env g p sources node in
  runMoves (cfg env) ms (driveSources s) = Some sys →
  (∀ x, x ∈ held (have s) → staged g x (Resume.pData p) →
     x ∈ held (have (sess sys)) ∧ staged g x (dataOf (sess sys)) ∧ pieceOf g x (dataOf (sess sys)) = pieceOf g x (Resume.pData p)) ∧
  (∀ x, x ∈ held (have (sess sys)) → x ∉ held (have s) →
     ∃ id body, (id, x, body) ∈ deliveries (cfg env) ms (driveSources s) ∧
       staged g x (dataOf (sess sys)) ∧ pieceOf g x (dataOf (sess sys)) = body) ∧
  (progress (sess sys) = record node ∨
   ∀ a, readClaim g (progress (sess sys)) = Some a → held a ⊆ held (have (sess sys))).
Proof.
  intros Hsz s Hr. destruct (opening_starts env g p sources node) as (Hs & Hg & _ & Hp & Ht & _). fold s in Hs, Hg, Hp, Ht.
  pose proof (starts_ok _ Hs) as Hok. change (geometry (sess (driveSources s))) with (geometry s) in *.
  destruct (kept_run (cfg env) size ms (record node) (driveSources s) sys) as [Kh Kp Kl Kn Kt _]; [cbn; by rewrite Hg|done|done|].
  pose proof (ok_fits _ (ok_run _ _ _ _ Hok Hr)) as [Hwf' Htot'].
  assert (geometry (sess sys) = g) as Hg'.
  { rewrite <-Hg. change (geometry s) with (geometry (sess (driveSources s))). by eapply geometry_run. }
  change (sess (driveSources s)) with (set_crowd (Z.of_nat (Nat.min (length (order s)) maxConcurrentSources)) (idle s) s) in *.
  unfold dataOf in *. cbn [have geometry partial set_crowd] in *. rewrite Hg, Hp in *. split_and!.
  - intros x Hx Hst. destruct (Kp x Hx Hst). split_and!; auto.
  - intros x Hx Hnx. destruct (Kl x Hx) as [?|?]; done.
  - destruct (Kt (or_introl Ht)) as [?|(a & Ha & Hwa & Hta & Hsub)]; [by left|right]. intros b. rewrite Ha, Hg'.
    unfold readClaim. destruct Hsz as [Hfor Hfit]. destruct (sized_facts size g (conj Hfor Hfit)) as (Hpos & Hsize & HL & Hn & _).
    rewrite Hg' in Htot'. rewrite Z.max_r in Htot' by lia.
    rewrite (availability_roundtrip size g a Hfor) by (done || lia).
    case_bool_decide; [|done]. by intros [= <-].
Qed.

(** What a pull publishes, and when it may say it succeeded. *)
Lemma PullPieces_safe `{HashEnv} (env : Env) (blob : list byte) (size : Z) (sources : list Candidate)
    (node node' : PieceNode) (out : PieceOutcome) (e : option PullError) :
  PullPieces env blob size sources node = Some (node', out, e) →
  (Resume.stored (blobNode node') = Resume.stored (blobNode node) ∨
   ∃ bs, Resume.stored (blobNode node) = None ∧ Resume.stored (blobNode node') = Some bs ∧ hash bs = blob ∧
     e = None ∧ Bytes out = Z.of_nat (length bs)) ∧
  (e = None → is_Some (Resume.stored (blobNode node'))) ∧
  (∀ pe, e = Some (ErrPublish pe) → Resume.staging (blobNode node') = []).
Proof.
  unfold PullPieces. destruct (For size) as [e0|g]; [intros [= <- <- <-]; split_and!; [by left|done|done]|].
  destruct (negb _ && _) eqn:Hh.
  { intros [= <- <- <-]. apply andb_true_iff in Hh as [_ Hh%bool_decide_eq_true]. split_and!; [by left|done|done]. }
  destruct (Resume.OpenPartial _ _ _) as [e0|p]; [intros [= <- <- <-]; split_and!; [by left|done|done]|].
  destruct (_ && negb _); [intros [= <- <- <-]; split_and!; [by left|done|done]|].
  intros (sys & Hr & Hc)%bind_Some. destruct (finished sys); [|done]. injection Hc as Hc. revert Hc.
  unfold conclude. set (s := saveProgress _ _ _).
  destruct (err s); [intros [= <- <- <-]; split_and!; [by left|done|done]|].
  destruct (_ || _); [intros [= <- <- <-]; split_and!; [by left|done|done]|].
  destruct (Complete (geometry s) (have s)); cbn [negb]; [|intros [= <- <- <-]; split_and!; [by left|done|done]].
  unfold publish, Resume.Publish.
  destruct (Resume.pClosed _); [intros [= <- <- <-]; split_and!; [by left|done|done]|].
  destruct (negb (bool_decide (blob = _))); [intros [= <- <- <-]; split_and!; [by left|done|done]|].
  destruct (publishDone env); [intros [= <- <- <-]; split_and!; [by left|done|done]|].
  destruct (decide (hash (Resume.pData (partial s)) = blob)) as [Hhash|Hhash];
    [rewrite bool_decide_true by done|rewrite bool_decide_false by done; intros [= <- <- <-]; split_and!; [by left|done|done]].
  unfold Resume.publishFile. destruct (Resume.stored (blobNode node)) as [bs|] eqn:Hst; intros [= <- <- <-]; cbn.
  - split_and!; [by left|by eexists|done].
  - split_and!; [right|by eexists|done]. eexists. by split_and!.
Qed.

(** C12. Only verified bytes are published: the blob there was stays, or bytes of the digest that
    was asked for take the place of nothing, and then the pull reports their length. *)
Theorem pull_pieces_safe `{HashEnv} (env : Env) (blob : list byte) (size : Z) (sources : list Candidate)
    (node node' : PieceNode) (out : PieceOutcome) (e : option PullError) :
  PullPieces env blob size sources node = Some (node', out, e) →
  (Resume.stored (blobNode node') = Resume.stored (blobNode node) ∨
   ∃ bs, Resume.stored (blobNode node) = None ∧ Resume.stored (blobNode node') = Some bs ∧ hash bs = blob ∧
     e = None ∧ Bytes out = Z.of_nat (length bs)) ∧
  (e = None → is_Some (Resume.stored (blobNode node'))) ∧
  (∀ pe, e = Some (ErrPublish pe) → Resume.staging (blobNode node') = []).
Proof. apply PullPieces_safe. Qed.

Lemma honest_watched cfg h ms sys sys' :
  honestRun cfg h ms sys → runMoves cfg ms sys = Some sys' → watched sys' = watched sys.
Proof.
  revert sys. induction ms as [|m ms IH]; intros sys; cbn; [by intros _ [= ->]|].
  intros [Hm Hms] (sys1 & H1 & Hr)%bind_Some. rewrite H1 in Hms. rewrite (IH _ Hms Hr).
  destruct m as [i inp|]; [|done]. by apply workStep_goes in H1 as (w & w' & b & _ & _ & _ & ->).
Qed.

Lemma open_partial `{HashEnv} busy blob n p :
  Resume.OpenPartial busy blob n = inr p → p = Resume.mkPartial blob (Resume.staging n) false.
Proof. unfold Resume.OpenPartial. destruct (Manifests.IsZero blob); [done|]. destruct busy; [done|]. by intros [= <-]. Qed.

Lemma saveProgress_pieces cfg saves s :
  partial (saveProgress cfg saves s) = partial s ∧ have (saveProgress cfg saves s) = have s ∧
  geometry (saveProgress cfg saves s) = geometry s ∧ err (saveProgress cfg saves s) = err s.
Proof. unfold saveProgress. by destruct (_ && _). Qed.

(** What an undisturbed session with an honest source leaves, when every source gives the
    bytes of the blob. *)
Lemma session_assembles env g size sources node p c h sc sys :
  let s := opening env g p sources node in
  sized size g → Z.of_nat (length c) = size → p = Resume.mkPartial (Resume.pBlob p) (Resume.staging (blobNode node)) false →
  (Z.of_nat (length (Resume.pData p)) ≤ size)%Z →
  (∀ x, x ∈ held (resume env g node) → staged g x (Resume.pData p) ∧ pieceOf g x (Resume.pData p) = pieceOf g x c) →
  claims s !! h = Some sc → full g (claim sc) → honestRun (cfg env) h (moves env) (driveSources s) →
  (∀ id x body, (id, x, body) ∈ deliveries (cfg env) (moves env) (driveSources s) → body = pieceOf g x c) →
  runMoves (cfg env) (moves env) (driveSources s) = Some sys → finished sys = true →
  Complete g (have (sess sys)) = true ∧ err (sess sys) = None ∧ watched sys = true ∧ geometry (sess sys) = g ∧
  partial (sess sys) = Resume.mkPartial (Resume.pBlob p) c false.
Proof.
  intros s Hsz Hc Hp Hlen Hres Hsc Hfull Hon Hdel Hr Hf.
  destruct (opening_starts env g p sources node) as (Hs & Hg & Hh & Hpa & Ht & Hst & Her & Hro & Hcl). fold s in Hs, Hg, Hh, Hpa, Ht, Hst, Her, Hro, Hcl.
  destruct (Hcl h sc Hsc) as [Hdec Hord]. pose proof (starts_ok _ Hs) as Hok.
  assert (serving h (driveSources s)) as Hsv.
  { apply (starts_serving h s sc); try done; [by rewrite Hpa, Hp|by rewrite Hg]. }
  destruct (serving_run (cfg env) h (moves env) (driveSources s) sys size) as [Hok' Hsv']; [cbn; by rewrite Hg|done..|].
  assert (geometry (sess sys) = g) as Hg' by (rewrite (geometry_run _ _ _ _ Hr); exact Hg).
  assert (Complete g (have (sess sys)) = true) as Hcomp.
  { rewrite <-Hg'. apply (serving_finished h); [done..|]. by apply (driven_workers (cfg env) (moves env) s h). }
  split_and!; [done|apply Hsv'|by rewrite (honest_watched _ _ _ _ _ Hon Hr)|done|].
  destruct (kept_run (cfg env) size (moves env) (record node) (driveSources s) sys) as [Kh Kp Kl Kn _ Kb]; [cbn; by rewrite Hg|done|done|].
  change (sess (driveSources s)) with (set_crowd (Z.of_nat (Nat.min (length (order s)) maxConcurrentSources)) (idle s) s) in *.
  unfold dataOf in *. cbn [have geometry partial set_crowd] in *. rewrite Hg, Hpa, ?Hh in *.
  pose proof (sv_closed _ _ Hsv') as Hclosed. destruct (partial (sess sys)) as [b data cl]. cbn in *. subst cl. rewrite Kb. f_equal.
  apply (pieces_content size g Hsz); [done|by apply Kn|]. intros x Hx.
  assert (x ∈ held (have (sess sys))) as Hin.
  { destruct (ok_fits _ Hok') as [Hwf Htot]. rewrite Hg' in Htot. destruct (sized_facts _ _ Hsz) as (_ & _ & _ & Hn & _).
    rewrite (Complete_iff g _ Hwf Htot Hn) in Hcomp. by apply Hcomp. }
  destruct (Kl x Hin) as [Hx0|(id & body & Hev & Hstg & He)].
  - destruct (Hres x Hx0) as [Hs0 He0]. destruct (Kp x Hx0 Hs0) as [? ?]. split; [done|congruence].
  - split; [done|]. rewrite He. by eapply Hdel.
Qed.

(** The pull of a blob this node has not, as its parts. *)
Lemma PullPieces_session `{HashEnv} env blob size sources node g p sys :
  For size = inr g → Resume.stored (blobNode node) = None → Resume.OpenPartial (busy env) blob (blobNode node) = inr p →
  let s := opening env g p sources node in
  claims s ≠ ∅ → runMoves (cfg env) (moves env) (driveSources s) = Some sys → finished sys = true →
  PullPieces env blob size sources node =
    Some (conclude env blob (mkOutcome 0 (PieceLength g) 0 (count (have s)) ∅ [] false) sys node).
Proof.
  intros Hg Hst Hp s Hc Hr Hf. unfold PullPieces. rewrite Hg, Hst, Hp.
  rewrite (bool_decide_false (is_Some None)) by (by intros [? ?]). rewrite andb_false_r. fold s.
  rewrite (bool_decide_false (claims s = ∅)) by done. cbn [andb]. rewrite Hr. cbn. by rewrite Hf.
Qed.

(** An undisturbed pull of a content this node has not: what it resumes is right, a source
    holds all of it and serves, no source gives other bytes, and the workers end. *)
Record assembling `{HashEnv} (env : Env) (size : Z) (g : Geometry) (sources : list Candidate) (node : PieceNode)
    (p : Resume.Partial) (c : list byte) (h : string) (sc : SourceClaim) (sys : System) : Prop := mkAssembling {
  as_sized : sized size g;
  as_content : Z.of_nat (length c) = size;
  as_absent : Resume.stored (blobNode node) = None;
  as_open : Resume.OpenPartial (busy env) (hash c) (blobNode node) = inr p;
  as_short : (Z.of_nat (length (Resume.staging (blobNode node))) ≤ size)%Z;
  as_resumed x : x ∈ held (resume env g node) →
    staged g x (Resume.staging (blobNode node)) ∧ pieceOf g x (Resume.staging (blobNode node)) = pieceOf g x c;
  as_source : claims (opening env g p sources node) !! h = Some sc;
  as_full : full g (claim sc);
  as_honest : honestRun (cfg env) h (moves env) (driveSources (opening env g p sources node));
  as_genuine id x body :
    (id, x, body) ∈ deliveries (cfg env) (moves env) (driveSources (opening env g p sources node)) → body = pieceOf g x c;
  as_run : runMoves (cfg env) (moves env) (driveSources (opening env g p sources node)) = Some sys;
  as_finished : finished sys = true;
  as_going : done env = false }.

(** C11. A pull of a blob this node does not have, of a size that divides into pieces within
    64 bits, publishes exactly its bytes, however the
    workers interleave, once they have all returned, when: one source claims every piece, is
    in every roster that is read, claims no less when it is asked again, and answers each
    request for a piece with a body of the piece's length; every body the session accepted, from any
    source, is that piece of the blob; every write to the staging file succeeds; the staging
    file can be opened, is no longer than the blob and holds rightly each piece its record
    resumes; and neither the pull nor the publication is cancelled.  Other sources may claim
    falsely, stay silent, leave the roster or fail any request, and reads of the roster and
    saves of the record may fail. *)
Theorem pull_pieces_completes `{HashEnv} (env : Env) (size : Z) (g : Geometry) (sources : list Candidate)
    (node : PieceNode) (p : Resume.Partial) (c : list byte) (h : string) (sc : SourceClaim) (sys : System) :
  assembling env size g sources node p c h sc sys → publishDone env = false →
  ∃ node' out, PullPieces env (hash c) size sources node = Some (node', out, None) ∧
    blobNode node' = Resume.mkNode [] (Some c) ∧ Bytes out = size.
Proof.
  intros [Hsz Hc Hst Hop Hlen Hres Hsc Hfull Hon Hdel Hr Hf Hdone] Hpd. set (s := opening env g p sources node) in *.
  rewrite (PullPieces_session env (hash c) size sources node g p sys (proj1 Hsz) Hst Hop); [|by intros He; fold s in He; rewrite He in Hsc|done..].
  apply open_partial in Hop. subst p.
  destruct (session_assembles env g size sources node (Resume.mkPartial (hash c) (Resume.staging (blobNode node)) false) c h sc sys)
    as (Hco & Her & Hwa & Hg & Hp); [done..|].
  unfold conclude. destruct (saveProgress_pieces (cfg env) (savesLast env) (sess sys)) as (Ep & Eh & Eg & Ee).
  rewrite Ee, Her, Eg, Hg, Eh, Hco, Hdone, Hwa. cbn [negb orb]. unfold publish. rewrite Ep, Hp. unfold Resume.Publish. cbn.
  rewrite !bool_decide_true by done. cbn. rewrite Hpd. unfold Resume.publishFile. rewrite Hst.
  eexists _, _. by split_and!.
Qed.

(** A context that ends while the assembled file is hashed is taken for bad bytes: the
    staging file and the record of its pieces are dropped, although every piece had landed
    and is right. *)
Theorem pull_interrupted_drops `{HashEnv} (env : Env) (size : Z) (g : Geometry) (sources : list Candidate)
    (node : PieceNode) (p : Resume.Partial) (c : list byte) (h : string) (sc : SourceClaim) (sys : System) :
  assembling env size g sources node p c h sc sys → publishDone env = true → hasProgress (cfg env) = true →
  dataOf (sess sys) = c ∧
  ∃ out, PullPieces env (hash c) size sources node =
    Some (mkNode (Resume.mkNode [] None) "", out, Some (ErrPublish Resume.ErrContext)).
Proof.
  intros [Hsz Hc Hst Hop Hlen Hres Hsc Hfull Hon Hdel Hr Hf Hdone] Hpd Hpr. set (s := opening env g p sources node) in *.
  rewrite (PullPieces_session env (hash c) size sources node g p sys (proj1 Hsz) Hst Hop); [|by intros He; fold s in He; rewrite He in Hsc|done..].
  apply open_partial in Hop. subst p.
  destruct (session_assembles env g size sources node (Resume.mkPartial (hash c) (Resume.staging (blobNode node)) false) c h sc sys)
    as (Hco & Her & Hwa & Hg & Hp); [done..|]. split; [unfold dataOf; by rewrite Hp|].
  unfold conclude. destruct (saveProgress_pieces (cfg env) (savesLast env) (sess sys)) as (Ep & Eh & Eg & Ee).
  rewrite Ee, Her, Eg, Hg, Eh, Hco, Hdone, Hwa. cbn [negb orb]. unfold publish. rewrite Ep, Hp. unfold Resume.Publish. cbn.
  rewrite !bool_decide_true by done. cbn. rewrite Hpd. unfold discardProgress. rewrite Hpr, Hst. by eexists.
Qed.

(** ** Examples *)

Definition pp_hash : HashEnv := λ bs, x2a :: bs.
Definition pp_sources : list Candidate := [Peer (sw_source "a"); WebSeed (sw_source "b")].

(** The schedule of Swarm.v; the peer says it has nothing yet. *)
Definition pp_env (interrupted : bool) : Env := {|
  cfg := sw_cfg; storeFails := false; busy := false; loads := true;
  says _ := Some (Encode sw_geometry sw_empty);
  moves := sw_begin ++ sw_end; savesLast := true; done := false; publishDone := interrupted |}.

Definition pp_node : PieceNode := mkNode (Resume.mkNode [] None) "".
Definition pp_partial : Resume.Partial := Resume.mkPartial (@hash pp_hash sw_bytes) [] false.
Definition pp_session (interrupted : bool) : Session := opening (pp_env interrupted) sw_geometry pp_partial pp_sources pp_node.
Definition pp_system (interrupted : bool) : System :=
  default (driveSources (pp_session interrupted)) (runMoves sw_cfg (sw_begin ++ sw_end) (driveSources (pp_session interrupted))).

Lemma pp_session_eq interrupted : pp_session interrupted = sw_session.
Proof. by vm_compute. Qed.

Lemma pp_assembling interrupted :
  @assembling pp_hash (pp_env interrupted) 3 sw_geometry pp_sources pp_node pp_partial sw_bytes "b" sw_seed (pp_system interrupted).
Proof.
  split.
  - exact sw_sized.
  - done.
  - done.
  - done.
  - cbn. lia.
  - intros x. assert (held (resume (pp_env interrupted) sw_geometry pp_node) = ∅) as -> by (by vm_compute).
    by intros ?%elem_of_empty.
  - by vm_compute.
  - exact sw_full.
  - change (honestRun sw_cfg "b" (sw_begin ++ sw_end) (driveSources (pp_session interrupted))). rewrite pp_session_eq. exact sw_honest.
  - assert (deliveries sw_cfg (sw_begin ++ sw_end) (driveSources (pp_session interrupted)) = [("b", 0%Z, sw_bytes)]) as Hd
      by (by vm_compute).
    intros id x body Hin. change (moves (pp_env interrupted)) with (sw_begin ++ sw_end) in Hin.
    change (cfg (pp_env interrupted)) with sw_cfg in Hin. fold (pp_session interrupted) in Hin. rewrite Hd in Hin.
    apply list_elem_of_singleton in Hin as [= -> -> ->]. by vm_compute.
  - by vm_compute.
  - by vm_compute.
  - done.
Qed.

Lemma progress_truthful_witness :
  dataOf (sess (pp_system false)) = sw_bytes ∧
  ∃ id body, (id, 0%Z, body) ∈ deliveries sw_cfg (sw_begin ++ sw_end) (driveSources (pp_session false)) ∧
    pieceOf sw_geometry 0 (dataOf (sess (pp_system false))) = body.
Proof.
  assert (runMoves sw_cfg (sw_begin ++ sw_end) (driveSources (pp_session false)) = Some (pp_system false)) as Hr by (by vm_compute).
  destruct (progress_truthful (pp_env false) 3 sw_geometry pp_partial pp_sources pp_node (sw_begin ++ sw_end) (pp_system false)
    sw_sized Hr) as (_ & Hl & _).
  assert (0%Z ∈ held (have (sess (pp_system false)))) as Hin by (apply elem_of_held; by vm_compute).
  assert (0%Z ∉ held (have (pp_session false))) as Hnot by (rewrite elem_of_held; by vm_compute).
  split; [by vm_compute|]. destruct (Hl 0%Z Hin Hnot) as (id & body & Hd & _ & He). exists id, body. split; [exact Hd|exact He].
Defined.

Lemma pull_pieces_completes_witness :
  ∃ node' out, @PullPieces pp_hash (pp_env false) (@hash pp_hash sw_bytes) 3 pp_sources pp_node = Some (node', out, None) ∧
    blobNode node' = Resume.mkNode [] (Some sw_bytes) ∧ Bytes out = 3%Z.
Proof.
  exact (@pull_pieces_completes pp_hash (pp_env false) 3 sw_geometry pp_sources pp_node pp_partial sw_bytes "b" sw_seed
    (pp_system false) (pp_assembling false) eq_refl).
Defined.

Lemma pull_interrupted_drops_witness :
  ∃ out, @PullPieces pp_hash (pp_env true) (@hash pp_hash sw_bytes) 3 pp_sources pp_node =
    Some (mkNode (Resume.mkNode [] None) "", out, Some (ErrPublish Resume.ErrContext)).
Proof.
  exact (proj2 (@pull_interrupted_drops pp_hash (pp_env true) 3 sw_geometry pp_sources pp_node pp_partial sw_bytes "b" sw_seed
    (pp_system true) (pp_assembling true) eq_refl eq_refl)).
Defined.

Lemma pull_pieces_safe_witness :
  ∃ node' out, @PullPieces pp_hash (pp_env false) (@hash pp_hash sw_bytes) 3 pp_sources pp_node = Some (node', out, None) ∧
    is_Some (Resume.stored (blobNode node')).
Proof.
  assert (∃ node' out, @PullPieces pp_hash (pp_env false) (@hash pp_hash sw_bytes) 3 pp_sources pp_node = Some (node', out, None))
    as (node' & out & Hp) by (by eexists _, _; vm_compute).
  exists node', out. split; [exact Hp|]. 
  destruct (@pull_pieces_safe pp_hash (pp_env false) (@hash pp_hash sw_bytes) 3 pp_sources pp_node node' out None Hp) as (_ & H & _).
  by apply H.
Defined.
