(* ===== verification/Pull.v ===== *)
(** * Pull: a blob from one source

    Models the reads a destination makes of a source in internal/peer/transfer: the chunk
    manifest (manifest.go, with its wire form in internal/api/peerapi/manifests.go), the
    whole blob (transfer.go, received by [PutExpecting] of internal/storagefabric/cas/fs.go)
    and which contract a source speaks (webseed.go); and [pullFrom] of
    internal/worker/replicateblob.go, which reads the one or the other.  What a source
    answers, and what the file system refuses, are a record ([Attempt]). *)

From S2P Require Import Prelude GoText GoPath Chunking Manifests BlobCatalog.
From S2P Require Transfers Resume Swarm.
From Stdlib Require Import Strings.Byte.

Abbreviation Source := Transfers.PeerSource (only parsing).

(** ** The wire form of a manifest *)

Record ManifestResponse := mkResponse {
  rBlobHash : string; rDigest : string; rAlgorithm : string; rParams : Config;
  rCoveredSize : Z; rChunkCount : Z; rGeneratedAt : Z; rChunks : list (Z * Z * string);
  rServedBy : string }.

(** [hashing.Parse], and what the code relies on: it reads back the text of a hash. *)
Class HashParse := Hash_Parse : string → option Hash.
Class ParseLaws `{HashText, HashParse} : Prop :=
  Parse_String h : h ≠ zeroHash → Hash_Parse (Hash_String h) = Some h.

Definition NewManifestResponse `{HashText} (m : Manifest) (servedBy : string) : ManifestResponse :=
  mkResponse (Hash_String (BlobHash m)) (Hash_String (Manifests.Digest m)) (Algorithm m) (Params m) (CoveredSize m)
    (ChunkCount m) (GeneratedAt m)
    ((λ c, (Offset c, Length c, Hash_String (Chunking.Digest c))) <$> Chunks m) servedBy.

Fixpoint readChunks `{HashParse} (cs : list (Z * Z * string)) : option (list Chunk) :=
  match cs with
  | [] => Some []
  | (off, len, text) :: cs =>
      d ← Hash_Parse text;
      rest ← readChunks cs;
      Some (mkChunk off len d :: rest)
  end.

(** [ManifestResponse.Manifest]: the manifest a response describes, not verified. *)
Definition ManifestOf `{HashParse} (r : ManifestResponse) : option Manifest :=
  blob ← Hash_Parse (rBlobHash r);
  digest ← Hash_Parse (rDigest r);
  if negb (rChunkCount r =? Z.of_nat (length (rChunks r)))%Z then None
  else
    chunks ← readChunks (rChunks r);
    Some (mkManifest blob (rAlgorithm r) (rParams r) (rCoveredSize r) digest (rGeneratedAt r) chunks).

(** ** The errors of a pull *)

Inductive error :=
  | FromChunks (e : Resume.error)
  | ErrUnusable | ErrRedirected | ErrTransport | ErrSourceLacksBlob | ErrSourceRefused
  | ErrSourceHasNoManifest | ErrManifestCorrupt | ErrNoDigest | ErrReceive
  | Corruption (actual : Hash) (size : Z) | ErrPublish.

(** [errors.As] finds a corruption. *)
Definition is_corruption (e : error) : bool :=
  match e with Corruption _ _ | FromChunks (Resume.Corruption _ _) => true | _ => false end.

(** ** Reading the manifest *)

(** What a source answers: a status, whether the document of a refusal is of the type that
    says there is no manifest, and what the body decodes to, if anything. *)
Inductive ManifestAnswer :=
  | MUnreachable (redirected : bool)
  | MAnswered (status : Z) (noManifest : bool) (body : option ManifestResponse).

(** Publishing links the staged file and syncs the directory; either may fail. *)
Inductive Linking := Links | LinkFails | SyncFails.

(** What the outside does at one attempt on a source.  [dials] is whether its endpoint is
    an origin this node can dial and a client for it can be built; the file system may
    refuse to stage or to publish, the context may end while bytes arrive, and the staging
    file of a chunked pull holds what earlier attempts left. *)
Record Attempt := mkAttempt {
  dials : bool;
  tellsManifest : ManifestAnswer;
  tellsWhole : Resume.Response;
  chunked : Resume.Env;
  partialBytes : list byte;
  stagingFails : bool;
  interrupted : bool;
  moveFails : bool;
  linking : Linking }.

Definition originFor (a : Attempt) (src : Source) : bool := Transfers.usable src && dials a.

Definition refusal (status : Z) (noManifest : bool) : error :=
  if (status =? 404)%Z then if noManifest then ErrSourceHasNoManifest else ErrSourceLacksBlob
  else ErrSourceRefused.

Definition FetchManifest `{HashEnv, HashText, HashParse} (a : Attempt) (src : Source) (blob : Hash) : error + Manifest :=
  if negb (originFor a src) then inl ErrUnusable
  else match tellsManifest a with
  | MUnreachable true => inl ErrRedirected
  | MUnreachable false => inl ErrTransport
  | MAnswered status noManifest body =>
      if negb (status =? 200)%Z then inl (refusal status noManifest)
      else match body ≫= ManifestOf with
           | None => inl ErrManifestCorrupt
           | Some m =>
               if negb (bool_decide (BlobHash m = blob)) then inl ErrManifestCorrupt
               else match Manifest_Validate m with
                    | Some _ => inl ErrManifestCorrupt
                    | None => inr m
                    end
           end
  end.

(** ** Receiving the whole blob *)

(** [publish]: [os.Link] keeps the bytes that are there already; whether it found some. *)
Definition publish (h : string) (data : list byte) (at_ : Z) (d : Disk) : Disk * bool :=
  match files d !! h with
  | Some _ => (d, true)
  | None => (mkDisk (<[h := mkFile data at_]> (files d)) (temps d) (quarantine d), false)
  end.

(** The bytes a body gives are staged, hashed against the expectation, and published or
    moved to quarantine; the staging file is gone in every case. *)
Definition PutExpecting `{HashEnv, HashText} (a : Attempt) (at_ : Z) (body : list byte) (broken : bool)
    (expected : Hash) (d : Disk) : Disk * (error + Z * bool) :=
  let h := Hash_String expected in
  if IsZero expected then (d, inl ErrNoDigest)
  else if stagingFails a || broken || interrupted a then (d, inl ErrReceive)
  else
    let got := hash body in
    let size := Z.of_nat (length body) in
    if negb (bool_decide (got = expected)) then
      ((if moveFails a then d else mkDisk (files d) (temps d) (<[(h, at_) := body]> (quarantine d))),
       inl (Corruption got size))
    else match linking a with
         | LinkFails => (d, inl ErrPublish)
         | Links => let '(d, deduped) := publish h body at_ d in (d, inr (size, deduped))
         | SyncFails =>
             let '(d, deduped) := publish h body at_ d in
             if deduped then (d, inr (size, true)) else (d, inl ErrPublish)
         end.

Inductive Mode := ModeWhole | ModeChunked.

(** What a completed pull is known by. *)
Record Outcome := mkOutcome { oSource : string; oMode : Mode; oBytes : Z; oDeduplicated : bool }.

Definition Pull `{HashEnv, HashText} (a : Attempt) (at_ : Z) (src : Source) (expected : Hash) (d : Disk) :
    Disk * (error + Outcome) :=
  if negb (originFor a src) then (d, inl ErrUnusable)
  else match tellsWhole a with
  | Resume.Unreachable true => (d, inl ErrRedirected)
  | Resume.Unreachable false => (d, inl ErrTransport)
  | Resume.Answered status body broken =>
      if (status =? 404)%Z then (d, inl ErrSourceLacksBlob)
      else if negb (status =? 200)%Z then (d, inl ErrSourceRefused)
      else match PutExpecting a at_ body broken expected d with
           | (d, inl e) => (d, inl e)
           | (d, inr (size, deduped)) => (d, inr (mkOutcome (Transfers.SourcePeerID src) ModeWhole size deduped))
           end
  end.

(** ** The two paths *)

(** What the store has of a blob, as the chunked pull sees it and as it leaves it (what a
    failed publication sets aside of the staging file is not followed here). *)
Definition nodeOf (h : string) (partialBytes : list byte) (d : Disk) : Resume.Node :=
  Resume.mkNode partialBytes (fData <$> files d !! h).
Definition landed (h : string) (at_ : Z) (n : Resume.Node) (d : Disk) : Disk :=
  match Resume.stored n with Some bs => (publish h bs at_ d).1 | None => d end.

Definition chunkEnv (a : Attempt) (src : Source) : Resume.Env :=
  let e := chunked a in
  Resume.mkEnv (originFor a src) (Resume.busy e) (Resume.scanDone e) (Resume.pullDone e) (Resume.publishDone e)
    (Resume.index e) (Resume.openBlob e) (Resume.checks e) (Resume.ask e).

(** [reportDonor]: the store verifies the donor, and quarantines it when it is damaged. *)
Definition reportDonor `{HashEnv, HashText} (a : Attempt) (at_ : Z) (d : Disk) (report : nat * Hash) : Disk :=
  let '(i, donor) := report in
  (@Verify (λ bs, Hash_String (hash bs)) (Hash_String donor) at_ (negb (Resume.checks (chunked a) i donor)) d).1.

(** The donors are reported before anything is published. *)
Definition PullChunked `{HashEnv, HashText} (a : Attempt) (at_ : Z) (src : Source) (expected : Hash) (m : Manifest)
    (d : Disk) : Disk * (error + Outcome) :=
  let h := Hash_String expected in
  let '(n, ds, r) := Resume.PullChunked (chunkEnv a src) expected m (nodeOf h (partialBytes a) d) in
  let d := landed h at_ n (foldl (reportDonor a at_) d ds) in
  match r with
  | inl e => (d, inl (FromChunks e))
  | inr out =>
      (d, inr (mkOutcome (Transfers.SourcePeerID src) ModeChunked (Resume.Bytes out) (Resume.Deduplicated out)))
  end.

(** Chunked where the source has a manifest that checks out; where it says it lacks the
    blob the source is given up; whole otherwise. *)
Definition pullFrom `{HashEnv, HashText, HashParse} (a : Attempt) (at_ : Z) (src : Source) (hash : Hash) (d : Disk) :
    Disk * (error + Outcome) :=
  match FetchManifest a src hash with
  | inr m => PullChunked a at_ src hash m d
  | inl ErrSourceLacksBlob => (d, inl ErrSourceLacksBlob)
  | inl _ => Pull a at_ src hash d
  end.

(** ** Which contract a source speaks *)

Definition SpeaksPieceExchange : string := "piece-exchange".

(** A source that cannot be asked keeps the piece contract. *)
Definition KindOf (speaks : option (list string)) (src : Source) : Swarm.Candidate :=
  match speaks with
  | None => Swarm.Peer src
  | Some said => if bool_decide (SpeaksPieceExchange ∈ said) then Swarm.Peer src else Swarm.WebSeed src
  end.
