(* ===== verification/PullSpec.v ===== *)
(** * PullSpec: the theorems of Pull.v

    What a pull from one source can do to the store, whatever the source answers and
    whatever fails; when it delivers; and that the wire form of a manifest loses nothing. *)

From S2P Require Import Prelude GoText GoPath Chunking Manifests BlobCatalog Pull.
From S2P Require Transfers Resume ChunkStream ManifestSpec ResumeSpec.
From Stdlib Require Import Strings.Byte.

(** ** What a pull does to the store *)

(** The bytes of a file are not of the name it has. *)
Definition damaged `{HashEnv, HashText} (k : string) (f : File) : Prop := Hash_String (hash (fData f)) ≠ k.

(** A file stays unless it is damaged, and then it is in quarantine under its name (the
    place of the blob itself there another artefact of it may have taken since); only bytes of the digest
    arrive, under its name; and quarantine holds what it held but for artefacts of the
    digest and damaged files of the store. *)
Record lands `{HashEnv, HashText} (hash_ : Hash) (d d' : Disk) : Prop := mkLands {
  lands_keep k f : files d !! k = Some f →
    files d' !! k = Some f ∨
    damaged k f ∧ ∃ at_ bs, quarantine d' !! (k, at_) = Some bs ∧
      (k ≠ Hash_String hash_ → bs = fData f ∧ files d' !! k = None);
  lands_new k f : files d' !! k = Some f →
    files d !! k = Some f ∨ k = Hash_String hash_ ∧ hash (fData f) = hash_;
  lands_temps : temps d' = temps d;
  lands_artefacts k : is_Some (quarantine d !! k) → is_Some (quarantine d' !! k);
  lands_quarantine k : k.1 ≠ Hash_String hash_ →
    quarantine d' !! k = quarantine d !! k ∨
    ∃ f, files d !! k.1 = Some f ∧ damaged k.1 f ∧ files d' !! k.1 = None ∧ quarantine d' !! k = Some (fData f) }.

Section landing.
Context `{HashEnv, HashText, HashParse}.

Lemma lands_refl h d : lands h d d.
Proof. split; auto. Qed.

Lemma lands_trans h d1 d2 d3 : lands h d1 d2 → lands h d2 d3 → lands h d1 d3.
Proof.
  intros [K1 N1 T1 A1 Q1] [K2 N2 T2 A2 Q2]. split; [| |by rewrite T2|by auto|].
  - intros k f Hk. destruct (K1 k f Hk) as [Hk2|(Hd & at_ & bs & Hat & Hq)].
    + destruct (K2 k f Hk2) as [?|?]; auto.
    + right. split; [done|]. exists at_. destruct (A2 (k, at_)) as [bs' Hbs']; [by eexists|]. exists bs'. split; [done|].
      intros Hne. destruct (Hq Hne) as [-> Hno]. split.
      * destruct (Q2 (k, at_) Hne) as [Heq|(g & Hg & _)]; cbn in *; congruence.
      * destruct (files d3 !! k) as [g|] eqn:Hg; [|done]. destruct (N2 k g Hg) as [?|[? _]]; congruence.
  - intros k f Hk. destruct (N2 k f Hk) as [Hk'|?]; [by apply N1|by right].
  - intros k Hk. destruct (Q2 k Hk) as [Heq|(f & Hf & Hd & Hno & Hq)].
    + rewrite Heq. destruct (Q1 k Hk) as [?|(f & Hf & Hd & Hno & Hq)]; [by left|right]. exists f. split_and!; [done|done| |done].
      destruct (files d3 !! k.1) as [g|] eqn:Hg; [|done]. destruct (N2 k.1 g Hg) as [?|[? _]]; congruence.
    + right. exists f. destruct (N1 _ _ Hf) as [?|[? _]]; done.
Qed.

Lemma lands_publish h data at_ d : hash data = h → lands h d (publish (Hash_String h) data at_ d).1.
Proof.
  intros Hd. unfold publish. destruct (files d !! Hash_String h) as [f0|] eqn:Hf; [apply lands_refl|].
  split; cbn; [| |done|done|by left]; intros k f Hk.
  - left. rewrite lookup_insert_ne; [done|]. intros <-. by rewrite Hf in Hk.
  - destruct (decide (k = Hash_String h)) as [->|Hne].
    + rewrite lookup_insert_eq in Hk. injection Hk as <-. by right.
    + rewrite lookup_insert_ne in Hk by done. by left.
Qed.

(** The check of a donor moves a damaged file of the store aside, or does nothing. *)
Lemma lands_reportDonor h a at_ d r : lands h d (reportDonor a at_ d r).
Proof.
  destruct r as [i donor]. unfold reportDonor, Verify. destruct (files d !! Hash_String donor) as [f|] eqn:Hf; [|apply lands_refl].
  cbv zeta. case_bool_decide as Hb; [apply lands_refl|]. destruct (negb _); [apply lands_refl|].
  unfold Quarantine. rewrite Hf. cbn. split; cbn.
  - intros k g Hk. destruct (decide (k = Hash_String donor)) as [->|Hne].
    + right. rewrite Hf in Hk. injection Hk as <-. split; [done|]. exists at_, (fData f).
      split; [apply lookup_insert_eq|]. intros _. split; [done|apply lookup_delete_eq].
    + left. by rewrite lookup_delete_ne.
  - intros k g Hk. left. by apply lookup_delete_Some in Hk as [_ Hk].
  - done.
  - intros k Hk. destruct (decide ((Hash_String donor, at_) = k)) as [<-|Hne]; [rewrite lookup_insert_eq; by eexists|].
    by rewrite lookup_insert_ne.
  - intros [k t] _. destruct (decide ((Hash_String donor, at_) = (k, t))) as [[= <- <-]|Hne].
    + right. exists f. cbn. rewrite lookup_insert_eq, lookup_delete_eq. by split_and!.
    + left. by rewrite lookup_insert_ne.
Qed.

Lemma lands_reported h a at_ ds d : lands h d (foldl (reportDonor a at_) d ds).
Proof.
  revert d. induction ds as [|r ds IH]; intros d; cbn [foldl]; [apply lands_refl|].
  eapply lands_trans; [apply lands_reportDonor|apply IH].
Qed.

(** On the disk, as the pull of chunks sees it. *)
Lemma reported_there a at_ src h (pb : list byte) ds d :
  fData <$> files (foldl (reportDonor a at_) d ds) !! Hash_String h =
  ResumeSpec.retained (chunkEnv a src) h ds (fData <$> files d !! Hash_String h).
Proof.
  change (fData <$> files d !! _) with (Resume.stored (nodeOf (Hash_String h) pb d)).
  destruct (ResumeSpec.reported_retained (chunkEnv a src) h ds (nodeOf (Hash_String h) pb d)) as [<- _].
  revert d. induction ds as [|[i donor] ds IH]; intros d; cbn [foldl]; [done|]. rewrite IH.
  assert (nodeOf (Hash_String h) pb (reportDonor a at_ d (i, donor)) =
    Resume.reportDonor (chunkEnv a src) h (nodeOf (Hash_String h) pb d) (i, donor)) as ->; [|done].
  unfold nodeOf, Resume.reportDonor, reportDonor, Verify. cbn [Resume.stored Resume.staging chunkEnv Resume.checks].
  destruct (decide (Hash_String donor = Hash_String h)) as [He|Hne].
  - rewrite He, (bool_decide_true (Hash_String h = _)) by done.
    destruct (files d !! Hash_String h) as [f|] eqn:Hf; cbn; [|by rewrite Hf].
    change (digestOf (fData f)) with (Hash_String (hash (fData f))).
    destruct (bool_decide (Hash_String (hash (fData f)) = Hash_String h)), (Resume.checks (chunked a) i donor);
      cbn; rewrite ?Hf; try done.
    unfold Quarantine. rewrite Hf. cbn. by rewrite lookup_delete_eq.
  - rewrite (bool_decide_false (Hash_String donor = _)) by done. rewrite andb_false_r. cbn [andb].
    assert (∀ x y : Resume.Node, x = y → x = match fData <$> files d !! Hash_String h with Some _ | None => y end) as Hmatch
      by (intros ? ? ->; by destruct (files d !! _)).
    apply Hmatch. f_equal. destruct (files d !! Hash_String donor) as [f|] eqn:Hf; [|done]. cbv zeta. case_bool_decide; [done|].
    destruct (negb _); [done|]. unfold Quarantine. rewrite Hf. cbn. by rewrite lookup_delete_ne.
Qed.

Lemma publish_there h data at_ d : is_Some (files (publish h data at_ d).1 !! h).
Proof.
  unfold publish. destruct (files d !! h) eqn:Hf; cbn; [by rewrite Hf|]. rewrite lookup_insert_eq. by eexists.
Qed.

Lemma lands_landed h at_ pb n d :
  Resume.stored n = Resume.stored (nodeOf (Hash_String h) pb d) ∨
  ResumeSpec.stored_as h (nodeOf (Hash_String h) pb d) n →
  lands h d (landed (Hash_String h) at_ n d).
Proof.
  intros Hn. unfold landed. destruct (Resume.stored n) as [bs|] eqn:Hst; [|apply lands_refl].
  assert (files d !! Hash_String h = None → hash bs = h) as Hb.
  { intros Hnone. destruct Hn as [Hs|[[Hs _]|(_ & bs' & Hs & <-)]].
    - cbn in Hs. by rewrite Hnone in Hs.
    - rewrite Hst in Hs. cbn in Hs. by rewrite Hnone in Hs.
    - rewrite Hst in Hs. by injection Hs as ->. }
  destruct (files d !! Hash_String h) as [f|] eqn:Hf; [|by apply lands_publish, Hb].
  unfold publish. rewrite Hf. apply lands_refl.
Qed.

Lemma landed_there h at_ n d : is_Some (Resume.stored n) → is_Some (files (landed h at_ n d) !! h).
Proof. intros [bs Hbs]. unfold landed. rewrite Hbs. apply publish_there. Qed.

Lemma PutExpecting_lands a at_ body broken h d :
  let r := PutExpecting a at_ body broken h d in
  lands h d r.1 ∧ (∀ x, r.2 = inr x → is_Some (files r.1 !! Hash_String h)).
Proof.
  unfold PutExpecting. destruct (IsZero h); [split; [apply lands_refl|done]|].
  destruct (_ || _); [split; [apply lands_refl|done]|]. cbv zeta.
  destruct (decide (hash body = h)) as [Hh|Hh]; [rewrite bool_decide_true by done|rewrite bool_decide_false by done]; cbn [negb].
  - pose proof (lands_publish h body at_ d Hh) as Hl. pose proof (publish_there (Hash_String h) body at_ d) as Ht.
    destruct (linking a); [| split; [apply lands_refl|done] |]; destruct (publish _ _ _ _) as [d' dd]; cbn in *.
    + by split.
    + by destruct dd.
  - split; [|done]. destruct (moveFails a); [apply lands_refl|]. split; cbn; auto.
    { intros k Hk. destruct (decide ((Hash_String h, at_) = k)) as [<-|Hne]; [rewrite lookup_insert_eq; by eexists|].
      by rewrite lookup_insert_ne. }
    intros k Hk. left. by rewrite lookup_insert_ne by (intros <-; by apply Hk).
Qed.

Lemma Pull_lands a at_ src h d :
  let r := Pull a at_ src h d in lands h d r.1 ∧ (∀ x, r.2 = inr x → is_Some (files r.1 !! Hash_String h)).
Proof.
  unfold Pull. destruct (negb _); [split; [apply lands_refl|done]|].
  destruct (tellsWhole a) as [[]|status body broken]; [split; [apply lands_refl|done]..|].
  destruct (_ =? 404)%Z; [split; [apply lands_refl|done]|]. destruct (negb _); [split; [apply lands_refl|done]|].
  destruct (PutExpecting_lands a at_ body broken h d) as [Hl Ht].
  destruct (PutExpecting _ _ _ _ _ _) as [d' [e|[size dd]]]; cbn in *; (split; [done|]); [done|]. intros _ _. by eapply Ht.
Qed.

Lemma PullChunked_lands a at_ src h m d :
  let r := PullChunked a at_ src h m d in lands h d r.1 ∧ (∀ x, r.2 = inr x → is_Some (files r.1 !! Hash_String h)).
Proof.
  unfold PullChunked. set (pb := partialBytes a).
  pose proof (ResumeSpec.PullChunked_stored (chunkEnv a src) h m (nodeOf (Hash_String h) pb d)) as Hs.
  destruct (Resume.PullChunked _ _ _ _) as [[n ds] r]. set (d1 := foldl (reportDonor a at_) d ds). cbn [nodeOf Resume.stored] in Hs.
  rewrite <-(reported_there a at_ src h pb ds d) in Hs. fold d1 in Hs.
  assert (lands h d (landed (Hash_String h) at_ n d1)) as Hl.
  { eapply lands_trans; [apply lands_reported|]. apply (lands_landed h at_ pb n d1).
    destruct r; [by left|right]. exact Hs. }
  destruct r as [e|o]; cbn; (split; [done|]); [done|].
  intros _ _. apply landed_there. destruct Hs as [[-> Hne]|(_ & bs & -> & _)]; [by apply not_eq_None_Some|by eexists].
Qed.

(** Whatever a source answers: the bytes are there after a delivery, and only theirs arrive. *)
Lemma pullFrom_lands a at_ src h d :
  let r := pullFrom a at_ src h d in lands h d r.1 ∧ (∀ x, r.2 = inr x → is_Some (files r.1 !! Hash_String h)).
Proof.
  unfold pullFrom. destruct (FetchManifest a src h) as [e|m]; [|apply PullChunked_lands].
  destruct e; try apply Pull_lands. split; [apply lands_refl|done].
Qed.
End landing.

(** ** The wire form *)

Lemma readChunks_sent `{ParseLaws} (cs : list Chunk) :
  Forall (λ c, Chunking.Digest c ≠ zeroHash) cs →
  readChunks ((λ c, (Offset c, Length c, Hash_String (Chunking.Digest c))) <$> cs) = Some cs.
Proof.
  induction 1 as [|[off len d] cs Hd _ IH]; [done|]. cbn in *. by rewrite Parse_String, IH.
Qed.

Lemma checkChunks_digests at_ cs want :
  checkChunks at_ cs = Some want → Forall (λ c, Chunking.Digest c ≠ zeroHash) cs.
Proof.
  revert at_. induction cs as [|c cs IH]; intros at_; [constructor|]. cbn.
  destruct (negb _); [done|]. destruct (_ <=? _)%Z; [done|]. destruct (IsZero _) eqn:Hz; [done|]. intros Hc.
  constructor; [|by eapply IH]. unfold IsZero in Hz. by apply bool_decide_eq_false in Hz.
Qed.

(** What is sent of a manifest is read back as it was. *)
Lemma ManifestOf_sent `{HashEnv, ParseLaws} (m : Manifest) servedBy :
  HashLaws → Manifest_Validate m = None → ManifestOf (NewManifestResponse m servedBy) = Some m.
Proof.
  intros HL Hv. unfold Manifest_Validate in Hv. destruct (validateShape m) eqn:Hs; [done|].
  case_bool_decide as Hd; [|done]. unfold validateShape in Hs.
  destruct (IsZero (BlobHash m)) eqn:Hz; [done|]. apply bool_decide_eq_false in Hz.
  repeat (case_match; [done|]). destruct (checkChunks 0 (Chunks m)) eqn:Hc; [|done].
  unfold ManifestOf, NewManifestResponse. cbn. rewrite (Parse_String (BlobHash m)) by done. cbn.
  rewrite (Parse_String (Manifests.Digest m)) by (rewrite <-Hd; apply hash_nonzero). cbn.
  unfold ChunkCount. rewrite length_fmap, Z.eqb_refl. cbn. rewrite (readChunks_sent _ (checkChunks_digests _ _ _ Hc)). cbn.
  by destruct m.
Qed.

(** C39. A destination reads back exactly the manifest a source sends, and whatever a source
    answers, a manifest it accepts is of the blob it asked for and checks out against its
    own digest; a source that answers nothing of the kind is refused, by the error that
    says whether it is still worth a whole pull. *)
Theorem fetch_manifest `{HashEnv, ParseLaws, !HashLaws} (a : Attempt) (src : Source) (blob : Hash) (m : Manifest)
    (servedBy : string) (x : bool) :
  (Manifest_Validate m = None → originFor a src = true →
   tellsManifest a = MAnswered 200 x (Some (NewManifestResponse m servedBy)) →
   FetchManifest a src blob = if bool_decide (BlobHash m = blob) then inr m else inl ErrManifestCorrupt) ∧
  (∀ m', FetchManifest a src blob = inr m' → Manifest_Validate m' = None ∧ BlobHash m' = blob) ∧
  (∀ status y body, originFor a src = true → tellsManifest a = MAnswered status y body → status ≠ 200%Z →
   FetchManifest a src blob =
     inl (if (status =? 404)%Z then if y then ErrSourceHasNoManifest else ErrSourceLacksBlob else ErrSourceRefused)).
Proof.
  unfold FetchManifest. split_and!.
  - intros Hv Ho Ht. rewrite Ho, Ht. cbn [negb Z.eqb Pos.eqb]. cbn [mbind option_bind].
    rewrite (ManifestOf_sent m servedBy) by done. case_bool_decide; cbn; [by rewrite Hv|done].
  - intros m'. destruct (negb _); [done|]. destruct (tellsManifest a) as [[]|status y body]; [done..|].
    destruct (negb _); [done|]. destruct (body ≫= ManifestOf) as [m0|]; [|done].
    case_bool_decide as Hb; cbn; [|done]. destruct (Manifest_Validate m0) eqn:Hv; [done|]. intros [= <-]. done.
  - intros status y body Ho Ht Hs. rewrite Ho, Ht. cbn. rewrite (proj2 (Z.eqb_neq _ _)) by done. cbn.
    unfold refusal. by destruct (_ =? 404)%Z, y.
Qed.

(** ** A source that serves the blob *)

(** Nothing of this node's refuses the bytes. *)
Record willing (a : Attempt) : Prop := {
  w_stage : stagingFails a = false; w_ctx : interrupted a = false; w_link : linking a = Links }.

(** The source has no manifest that checks out and answers with the bytes, or has one that
    describes them and answers every read of a chunk with its bytes. *)
Inductive serves `{HashEnv, HashText, HashParse} (a : Attempt) (src : Source) (content : list byte) : Prop :=
  | serves_whole e : willing a → originFor a src = true →
      FetchManifest a src (hash content) = inl e → e ≠ ErrSourceLacksBlob →
      tellsWhole a = Resume.Answered 200 content false → serves a src content
  | serves_chunks m : (ChunkStream.covered (Chunks m) < 2 ^ 63)%Z →
      FetchManifest a src (hash content) = inr m → Chunks m ≠ [] →
      ResumeSpec.describes (Chunks m) content → ResumeSpec.honest (chunkEnv a src) content (Chunks m) →
      serves a src content.

(** The chunks of the source's manifest are those of other bytes too, which takes a collision
    of the hash. *)
Definition ambiguous `{HashEnv, HashText, HashParse} (a : Attempt) (src : Source) (content : list byte) : Prop :=
  ∃ m other, FetchManifest a src (hash content) = inr m ∧ other ≠ content ∧
    ResumeSpec.describes (Chunks m) content ∧ ResumeSpec.describes (Chunks m) other ∧
    ∃ x y, x ≠ y ∧ hash x = hash y.

Lemma pullFrom_delivers `{HashEnv, HashText, HashParse} a at_ src content d :
  IsZero (hash content) = false → serves a src content →
  (∃ o, (pullFrom a at_ src (hash content) d).2 = inr o) ∨ ambiguous a src content.
Proof.
  intros Hz [e [Hs Hi Hl] Ho Hm He Hw|m Hc Hm Hne Hd Hh].
  - left. unfold pullFrom. rewrite Hm. assert (∃ o, (Pull a at_ src (hash content) d).2 = inr o) as [o Hp].
    { unfold Pull. rewrite Ho, Hw. cbn [negb Z.eqb Pos.eqb]. unfold PutExpecting.
      rewrite Hz, Hs, Hi, Hl, bool_decide_true by done. cbn. destruct (publish _ _ _ _). by eexists. }
    destruct e; eauto. done.
  - unfold pullFrom. rewrite Hm. unfold PullChunked.
    assert (Manifest_Validate m = None ∧ BlobHash m = hash content) as [Hv Hb].
    { revert Hm. unfold FetchManifest. destruct (negb _); [done|]. destruct (tellsManifest a) as [[]|? ? body]; [done..|].
      destruct (negb _); [done|]. destruct (body ≫= ManifestOf); [|done]. case_bool_decide; cbn; [|done].
      destruct (Manifest_Validate _) eqn:Hv; [done|]. by intros [= <-]. }
    destruct (ResumeSpec.PullChunked_completes (chunkEnv a src) (hash content) m
      (nodeOf (Hash_String (hash content)) (partialBytes a) d) content) as [(ds & o & Hp)|(other & Hne' & Hd')]; try done.
    + left. rewrite Hp. by eexists.
    + right. exists m, other. split_and!; try done. by destruct (ResumeSpec.describes_inj _ _ _ Hd' Hd).
Qed.

(** ** Witnesses *)

Definition pl_parse : HashParse := λ s, if bool_decide (s = "") then None else Some (String.list_byte_of_string s).

Lemma pl_parse_laws : @ParseLaws ManifestSpec.ex_text pl_parse.
Proof.
  intros h Hh. unfold Hash_Parse, pl_parse, Hash_String, ManifestSpec.ex_text.
  rewrite bool_decide_false; [by rewrite String.list_byte_of_string_of_list_byte|].
  by destruct h.
Qed.

Definition pl_source : Source := Transfers.mkPeerSource "p" "p" "https://p" [x07] "reachable".
Definition pl_attempt : Attempt :=
  mkAttempt true (MAnswered 200 false (Some (@NewManifestResponse ManifestSpec.ex_text ManifestSpec.ex_manifest "p")))
    (Resume.Unreachable false)
    (Resume.mkEnv true false (λ _, false) (λ _, false) false None (λ _ _, Resume.NotFound) (λ _ _, true) (λ _ _, Resume.Unreachable false))
    [] false false false Links.

Lemma fetch_manifest_witness :
  @FetchManifest ChunkStream.ex_hash ManifestSpec.ex_text pl_parse pl_attempt pl_source ManifestSpec.ex_blob
    = inr ManifestSpec.ex_manifest ∧
  @FetchManifest ChunkStream.ex_hash ManifestSpec.ex_text pl_parse pl_attempt pl_source [x01] = inl ErrManifestCorrupt.
Proof.
  assert (@Manifest_Validate ChunkStream.ex_hash ManifestSpec.ex_text ManifestSpec.ex_manifest = None) as Hv by (by vm_compute).
  split.
  - rewrite (proj1 (@fetch_manifest ChunkStream.ex_hash ManifestSpec.ex_text pl_parse pl_parse_laws ManifestSpec.ex_laws
      pl_attempt pl_source ManifestSpec.ex_blob ManifestSpec.ex_manifest "p" false) Hv eq_refl eq_refl).
    by vm_compute.
  - rewrite (proj1 (@fetch_manifest ChunkStream.ex_hash ManifestSpec.ex_text pl_parse pl_parse_laws ManifestSpec.ex_laws
      pl_attempt pl_source [x01] ManifestSpec.ex_manifest "p" false) Hv eq_refl eq_refl).
    by vm_compute.
Defined.
