(* ===== verification/Replicate.v ===== *)
(** * Replicate: one replicate_blob job, on the node the bytes must end up on

    Models internal/worker/replicateblob.go as a program of StoreSteps.v over the catalog
    of BlobTransfer.v: the checks before anything moves, the sources tried one after the
    other (Pull.v), the assembly from partial holders when nobody has the blob whole
    (PiecePull.v), and what is recorded.  What the sources answer is a record ([Outside]);
    the pulls fail by what they give, everything else may fail as any transaction may. *)

From S2P Require Import Prelude GoText GoPath Chunking Manifests Transfers BlobCatalog BlobTransfer StoreSteps Pull.
From S2P Require Pieces Resume Swarm PiecePull.
From Stdlib Require Import Strings.Byte.

Definition maxConcurrentTransfers : Z := 2.

Record ReplicateBlobPayload := mkPayload { pBlobHash : string; DestinationPeerID : string }.

(** What the outside does: at the attempt on each source, when the members are asked what
    they speak, and in a session of pieces. *)
Record Outside := mkOutside {
  attempts : nat → Attempt;
  speaks : Source → option (list string);
  session : PiecePull.Env;
  pieceNode : list byte * string;
  pullerFails : bool;
  at_instant : nat → Z }.

(** Why an assembly from pieces fails: the session, or a read of the catalog before it. *)
Inductive PieceError := OfSession (e : PiecePull.PullError) | OfCatalog (e : BlobCatalog.error).

Inductive Failure :=
  | ErrPayload | ErrHash | ErrUnknownPeer | ErrNotDestination | ErrUnknownTarget
  | ErrPuller | ErrNoSource
  | ErrPieces (e : PieceError) | ErrSource (e : Pull.error) | ErrNoSourceDelivered (es : list Pull.error)
  | Joined (e : Failure) (recording : BlobCatalog.error).

(** Whether the error says never to retry the job. *)
Fixpoint permanent (e : Failure) : bool :=
  match e with
  | ErrPayload | ErrUnknownPeer | ErrUnknownTarget => true
  | Joined e _ => permanent e
  | _ => false
  end.

(** How the handler returns; it has not, while a session of pieces runs.  An error of a
    transaction that is returned as it is, is the program's. *)
Inductive Verdict := Done | Refused (e : Failure) | Running.

Section replicating.
Context `{HashEnv, HashText, HashParse} (env : Env) (self : string) (out : Outside).
#[local] Abbreviation call := (StoreSteps.call env).
#[local] Abbreviation ctxErr := (StoreSteps.ctxErr env).

(** ** The records *)

Definition transaction (f : Catalog → BlobCatalog.error + Catalog) : Catalog → Catalog * option BlobCatalog.error :=
  λ c, match f c with inl e => (c, Some e) | inr c => (c, None) end.

Definition begin (t : BlobTransfer) : M unit :=
  call (ABegin (tBlob t) (tSource t)) (onCatalog (transaction (BeginBlobTransfer t))).

Definition transferred (t : BlobTransfer) : M unit := λ s,
  call (ATransferred (tBlob t) (tSource t) (tBytes t)) (RecordBlobTransferred t (clock env (tick s))) s.

Definition failed (t : BlobTransfer) (state : string) : M unit :=
  call (AFailed (tBlob t) (tSource t) state) (onCatalog (transaction (RecordBlobTransferFailed t state))).

(** The failure is recorded, and an error of the record is joined to it. *)
Definition failedWith (t : BlobTransfer) (state : string) (e : Failure) : M Verdict :=
  rec ← catch (failed t state);
  mret (Refused (match rec with inl r => Joined e r | inr _ => e end)).

Definition record (h source : string) (bytes : Z) (sources : gmap string Z) (reason : string) : BlobTransfer :=
  mkTransfer h source self bytes sources reason.

(** ** One source *)

Definition pulled {A} (r : Pull.error + A) : Pulled :=
  match r with inr _ => Delivered | inl e => if is_corruption e then Corrupted else Undelivered end.

Definition onDiskOf {A} (f : Disk → Disk * A) (w : World) : World * A :=
  let '(d, a) := f (disk w) in (mkWorld (cat w) d, a).

Definition pull (i : nat) (src : Source) (hash : Hash) : M (Pull.error + Outcome) := λ s,
  perform env (onDiskOf (pullFrom (attempts out i) (at_instant out (tick s)) src hash))
    (λ r, APull (SourcePeerID src) (Hash_String hash) (pulled r)) s.

(** The loop over the sources; [errs] are the errors of those that did not deliver. *)
Fixpoint trySources (hash : Hash) (i : nat) (last : string) (errs : list Pull.error) (srcs : list Source) : M Verdict :=
  let h := Hash_String hash in
  match srcs with
  | [] => failedWith (record h last 0 ∅ "no_source_delivered") "missing" (ErrNoSourceDelivered errs)
  | src :: srcs =>
      _ ← ctxErr;
      got ← pull i src hash;
      match got with
      | inr o =>
          _ ← transferred (record h (SourcePeerID src) (oBytes o) ∅ "");
          mret Done
      | inl e =>
          if is_corruption e then
            failedWith (record h (SourcePeerID src) 0 ∅ "verification_failed") "corrupt" (Replicate.ErrSource e)
          else trySources hash (S i) (SourcePeerID src) (errs ++ [e]) srcs
      end
  end.

(** ** From partial holders *)

Definition asSource (p : Peer) : Source :=
  mkPeerSource (BlobCatalog.PeerID p) (pName p) (pEndpoint p) (pKey p) (pHealth p).

Definition candidates (members : list Peer) : list Swarm.Candidate :=
  (λ p, KindOf (speaks out (asSource p)) (asSource p)) <$> filter (λ p, BlobCatalog.PeerID p ≠ self) members.

(** What a session gives, as the switch of the handler reads it. *)
Inductive PieceResult :=
  | Assembled (o : PiecePull.PieceOutcome) | NoPieceSource | PieceFailed (e : PieceError) | Unfinished.

Definition pieceNodeOf (h : string) (d : Disk) : PiecePull.PieceNode :=
  PiecePull.mkNode (nodeOf h (pieceNode out).1 d) (pieceNode out).2.

Definition runSession (at_ : Z) (hash : Hash) (size : Z) (cs : list Swarm.Candidate) (d : Disk) : Disk * PieceResult :=
  let h := Hash_String hash in
  match PiecePull.PullPieces (session out) hash size cs (pieceNodeOf h d) with
  | None => (d, Unfinished)
  | Some (n, o, e) =>
      (landed h at_ (PiecePull.blobNode n) d,
       match e with
       | None => Assembled o
       | Some PiecePull.ErrNoPieceSource => NoPieceSource
       | Some e => PieceFailed (OfSession e)
       end)
  end.

Definition pieceTold (r : PieceResult) : Pulled :=
  match r with Assembled _ => Delivered | PieceFailed _ => Corrupted | _ => Undelivered end.

Definition pullPieces (hash : Hash) : M PieceResult :=
  let h := Hash_String hash in
  found ← catch (call (ASize h) (λ w, (w, BlobSize h (cat w))));
  match found with
  | inl ErrBlobSizeUnknown => mret NoPieceSource
  | inl e => mret (PieceFailed (OfCatalog e))
  | inr size =>
      listed ← catch (call APeers (reading (λ w, Peers (cat w))));
      match listed with
      | inl e => mret (PieceFailed (OfCatalog e))
      | inr members =>
          let cs := candidates members in
          if bool_decide (cs = []) then mret NoPieceSource
          else λ s, perform env (onDiskOf (runSession (at_instant out (tick s)) hash size cs))
                      (λ r, APullPieces h (pieceTold r)) s
      end
  end.

Definition fromPieces (hash : Hash) : M Verdict :=
  let h := Hash_String hash in
  got ← pullPieces hash;
  match got with
  | Assembled o =>
      let t := record h "" (PiecePull.Bytes o) (PiecePull.oFromPeer o) "" in
      _ ← begin t;
      _ ← transferred t;
      mret Done
  | NoPieceSource => mret (Refused ErrNoSource)
  | PieceFailed e =>
      let t := record h "" 0 ∅ "piece_transfer_failed" in
      _ ← begin t;
      failedWith t "corrupt" (ErrPieces e)
  | Unfinished => mret Running
  end.

(** ** The handler *)

Definition fromSources (hash : Hash) (src : Source) (srcs : list Source) : M Verdict :=
  _ ← begin (record (Hash_String hash) (SourcePeerID src) 0 ∅ "");
  trySources hash 0 (SourcePeerID src) [] (src :: srcs).

(** What is already here is only recorded. *)
Definition adopt (hash : Hash) : M Verdict :=
  let h := Hash_String hash in
  desc ← call (AStat h) (λ w, (w, Stat h (disk w)));
  _ ← transferred (record h "" (dSize desc) ∅ "");
  mret Done.

Definition acquire (hash : Hash) : M Verdict :=
  let h := Hash_String hash in
  sources ← call (ASources h) (reading (λ w, BlobSources h self (cat w)));
  if pullerFails out then mret (Refused ErrPuller)
  else match sources with
       | [] => fromPieces hash
       | src :: srcs => fromSources hash src srcs
       end.

(** [payload] is what the job's document decodes to. *)
Definition ReplicateBlobHandler (payload : option ReplicateBlobPayload) : M Verdict :=
  match payload with
  | None => mret (Refused ErrPayload)
  | Some p =>
      match Hash_Parse (pBlobHash p) with
      | None => mret (Refused ErrHash)
      | Some hash =>
          let h := Hash_String hash in
          known ← call (ATarget h (DestinationPeerID p)) (reading (λ w, ReplicationTarget h (DestinationPeerID p) (cat w)));
          if negb known.1 then mret (Refused ErrUnknownPeer)
          else
            me ← call ASelf (reading (λ _, self));
            if negb (bool_decide (DestinationPeerID p = me)) then mret (Refused ErrNotDestination)
            else
              held ← call (AStat h) (reading (λ w, bool_decide (is_Some (files (disk w) !! h))));
              if negb known.2 && negb held then mret (Refused ErrUnknownTarget)
              else if (held : bool) then adopt hash
              else acquire hash
      end
  end.
End replicating.
