(* ===== verification/ReplicateSpec.v ===== *)
(** * ReplicateSpec: the theorems of Replicate.v

    What the handler of one replicate_blob job may do while anything else runs, what it
    does when nothing does, and that a source which serves the blob is enough. *)

From S2P Require Import Prelude GoText GoPath Chunking Manifests Transfers BlobCatalog BlobTransfer StoreSteps Pull Replicate.
From S2P Require Import ConvergeSpec BlobTransferSpec PullSpec.
From S2P Require Pieces Resume Swarm SwarmSpec PiecePull PiecePullSpec ResumeSpec.
From Stdlib Require Import Strings.Byte.

(** ** The steps of the handler *)

#[export] Instance present_dec c k p : Decision (present c k p).
Proof.
  unfold present. destruct (replicas c !! (k, p)) as [r|]; [|by right; intros (? & ? & ?)].
  destruct (decide (rrState r = "present")); [left; eauto|right]. by intros (? & [= <-] & ?).
Defined.

(** One step: bytes of the digest may arrive and damaged files may go to quarantine
    ([lands]), only this node's row of the blob may change, it is never taken from present,
    and it becomes present only beside the bytes. *)
Record owns `{HashEnv, HashText} (hash_ : Hash) (self : string) (w w' : World) : Prop := mkOwns {
  owns_disk : lands hash_ (disk w) (disk w');
  owns_rows k : k ≠ (Hash_String hash_, self) → replicas (cat w') !! k = replicas (cat w) !! k;
  owns_keeps : keeps_present (cat w) (cat w');
  owns_backed : present (cat w') (Hash_String hash_) self →
    present (cat w) (Hash_String hash_) self ∨ is_Some (files (disk w') !! Hash_String hash_);
  owns_blobs k : k ≠ Hash_String hash_ → blobs (cat w') !! k = blobs (cat w) !! k;
  owns_demand : same_demand (cat w) (cat w') }.

Section guarantee.
Context `{HashEnv, HashText, HashParse} (env : Env) (self : string) (out : Outside) (h : Hash).
#[local] Abbreviation within := (within env (owns h self)).

Lemma owns_refl w : owns h self w w.
Proof. split; [apply lands_refl|done|by intros ??|by left|done|reflexivity]. Qed.

Lemma owns_step_disk w d : lands h (disk w) d → owns h self w (mkWorld (cat w) d).
Proof. intros Hl. split; [done|done|by intros ??|by left|done|reflexivity]. Qed.

Lemma owns_move state transition src bytes srcs why w c :
  state ≠ "present" → moveTo state transition (record self (Hash_String h) src bytes srcs why) (cat w) = inr c →
  owns h self w (mkWorld c (disk w)).
Proof.
  intros Hs Hm. destruct (moveTo_ok _ _ _ _ _ Hs Hm) as (Hd & Hb & Hr & Hp & Hn & _).
  split; cbn; [apply lands_refl|done|by eapply moveTo_keeps| |by intros; rewrite Hb|done].
  intros (r & Hk & Hst). left. destruct (decide (present (cat w) (Hash_String h) self)) as [|Hno]; [done|].
  destruct (Hn Hno) as (r' & Hk' & Hs' & _). unfold key in Hk'. cbn in Hk'. rewrite Hk in Hk'. injection Hk' as <-. congruence.
Qed.

Lemma owns_transaction state transition src bytes srcs why w :
  state ≠ "present" →
  owns h self w (onCatalog (transaction (moveTo state transition (record self (Hash_String h) src bytes srcs why))) w).1.
Proof.
  intros Hs. unfold onCatalog, transaction. destruct (moveTo _ _ _ _) as [e|c] eqn:Hm; cbn.
  - destruct w. apply owns_refl.
  - by eapply owns_move.
Qed.

Lemma within_begin src bytes srcs why : within (begin env (record self (Hash_String h) src bytes srcs why)).
Proof. apply within_call. intros w. by apply owns_transaction. Qed.

Lemma within_failed src bytes srcs why state : within (failed env (record self (Hash_String h) src bytes srcs why) state).
Proof.
  apply within_call. intros w. unfold RecordBlobTransferFailed.
  destruct (negb (bool_decide (state = "missing")) && _) eqn:E.
  - unfold onCatalog, transaction. destruct w. apply owns_refl.
  - apply owns_transaction. intros ->. by cbn in E.
Qed.

Lemma within_failedWith src bytes srcs why state e :
  within (failedWith env (record self (Hash_String h) src bytes srcs why) state e).
Proof.
  apply within_bind; [apply within_catch, within_failed|]. intros r. apply within_ret.
Qed.

Lemma within_transferred src bytes srcs why : within (transferred env (record self (Hash_String h) src bytes srcs why)).
Proof.
  intros s. unfold transferred. revert s.
  assert (∀ now, StoreSteps.within env (owns h self) (call env (ATransferred (Hash_String h) src bytes)
            (RecordBlobTransferred (record self (Hash_String h) src bytes srcs why) now))) as Hw; [|intros s; apply Hw].
  intros now. apply within_call. intros w. destruct (RecordBlobTransferred _ _ _) as [w' [e|[]]] eqn:E; cbn.
  - apply RecordBlobTransferred_err in E as ->. apply owns_refl.
  - destruct (RecordBlobTransferred_ok _ _ _ _ E) as (Hf & Hd & Hdem & Hr & Hb & _ & Hp).
    split; [by rewrite Hd; apply lands_refl|done| |by right; rewrite Hd|done|done].
    intros k p (r & Hk & Hst). destruct (decide ((k, p) = (Hash_String h, self))) as [[= -> ->]|Hne]; [done|].
    exists r. by rewrite Hr.
Qed.

Lemma within_pull i src : within (pull env out i src h).
Proof.
  intros s. unfold pull. revert s.
  assert (∀ n, StoreSteps.within env (owns h self) (perform env (onDiskOf (pullFrom (attempts out i) (at_instant out n) src h))
      (λ r, APull (SourcePeerID src) (Hash_String h) (pulled r)))) as Hw; [|intros s; apply Hw].
  intros n. apply within_perform. intros w. unfold onDiskOf.
  destruct (pullFrom_lands (attempts out i) (at_instant out n) src h (disk w)) as [Hl _].
  destruct (pullFrom _ _ _ _ _) as [d r]. by apply owns_step_disk.
Qed.

Lemma runSession_lands at_ size cs d :
  let r := runSession out at_ h size cs d in
  lands h d r.1 ∧ (∀ o, r.2 = Assembled o → is_Some (files r.1 !! Hash_String h)).
Proof.
  unfold runSession. destruct (PiecePull.PullPieces _ _ _ _ _) as [[[n o] e]|] eqn:E; [|split; [apply lands_refl|done]].
  destruct (PiecePullSpec.PullPieces_safe _ _ _ _ _ _ _ _ E) as (Hst & Hok & _).
  assert (lands h d (landed (Hash_String h) at_ (PiecePull.blobNode n) d)) as Hl.
  { apply (lands_landed h at_ (pieceNode out).1). destruct Hst as [Hst|(bs & Hn & Hs & Hh & _)]; [by left|right; right].
    split; [done|]. by exists bs. }
  cbn. split; [done|]. destruct e as [[]|]; try done. intros _ _. by apply landed_there, Hok.
Qed.

Lemma within_pullPieces : within (pullPieces env self out h).
Proof.
  unfold pullPieces. apply within_bind; [apply within_catch, within_call; intros w; apply owns_refl|].
  intros [[]|size]; try apply within_ret.
  apply within_bind; [apply within_catch, within_read; apply owns_refl|].
  intros [e|members]; [apply within_ret|]. cbv zeta. case_bool_decide; [apply within_ret|].
  intros s. revert s.
  assert (∀ n, StoreSteps.within env (owns h self) (perform env
     (onDiskOf (runSession out (at_instant out n) h size (candidates self out members)))
      (λ r, APullPieces (Hash_String h) (pieceTold r)))) as Hw; [|intros s; apply Hw].
  intros n. apply within_perform. intros w. unfold onDiskOf.
  destruct (runSession_lands (at_instant out n) size (candidates self out members) (disk w)) as [Hl _].
  destruct (runSession _ _ _ _ _ _) as [d r]. by apply owns_step_disk.
Qed.

Lemma within_trySources i last errs srcs : within (trySources env self out h i last errs srcs).
Proof.
  revert i last errs. induction srcs as [|src srcs IH]; intros i last errs; cbn; [apply within_failedWith|].
  apply within_bind; [apply within_ctx|]. intros _. apply within_bind; [apply within_pull|].
  intros [e|o].
  - destruct (is_corruption e); [apply within_failedWith|apply IH].
  - apply within_bind; [apply within_transferred|]. intros _. apply within_ret.
Qed.

Lemma within_fromPieces : within (fromPieces env self out h).
Proof.
  apply within_bind; [apply within_pullPieces|]. intros [o| |e|]; [| | |]; try apply within_ret.
  - apply within_bind; [apply within_begin|]. intros _. apply within_bind; [apply within_transferred|]. intros _. apply within_ret.
  - apply within_bind; [apply within_begin|]. intros _. apply within_failedWith.
Qed.

Lemma within_handler p :
  Hash_Parse (pBlobHash p) = Some h → within (ReplicateBlobHandler env self out (Some p)).
Proof.
  intros Hp. unfold ReplicateBlobHandler. rewrite Hp.
  apply within_bind; [apply within_read, owns_refl|]. intros known. destruct (negb known.1); [apply within_ret|].
  apply within_bind; [apply within_read, owns_refl|]. intros me. destruct (negb _); [apply within_ret|].
  apply within_bind; [apply within_read, owns_refl|]. intros held. destruct (_ && _); [apply within_ret|].
  destruct held.
  - apply within_bind; [apply within_call; intros w; apply owns_refl|]. intros desc.
    apply within_bind; [apply within_transferred|]. intros _. apply within_ret.
  - apply within_bind; [apply within_read, owns_refl|]. intros srcs.
    destruct (pullerFails out); [apply within_ret|]. destruct srcs; [apply within_fromPieces|].
    apply within_bind; [apply within_begin|]. intros _. apply within_trySources.
Qed.
End guarantee.

(** What a node must be able to say: every file is of the digest it is named by, and what
    is recorded as held here is here. *)
Definition sound `{HashEnv, HashText} (self : string) (w : World) : Prop :=
  (∀ k f, files (disk w) !! k = Some f → k = Hash_String (hash (fData f))) ∧
  (∀ k, present (cat w) k self → is_Some (files (disk w) !! k)).

Lemma owns_sound `{HashEnv, HashText} h self w w' : sound self w → owns h self w w' → sound self w'.
Proof.
  intros [Hf Hp] [[Hk Hn _ _ _] Hr Hkeep Hb _ _].
  assert (∀ k f, files (disk w) !! k = Some f → files (disk w') !! k = Some f) as Hstay.
  { intros k f Hkf. destruct (Hk k f Hkf) as [?|[Hd _]]; [done|]. exfalso. apply Hd. symmetry. by apply Hf. }
  split.
  - intros k f Hkf. destruct (Hn k f Hkf) as [Hold|[-> <-]]; [by apply Hf|done].
  - intros k Hpres. destruct (decide (k = Hash_String h)) as [->|Hne].
    + destruct (Hb Hpres) as [Hold|?]; [|done]. destruct (Hp _ Hold) as [f Hf']. exists f. by apply Hstay.
    + destruct Hpres as (r & Hrow & Hst). rewrite Hr in Hrow by (by intros [= ->]).
      destruct (Hp k) as [f Hf']; [by exists r|]. exists f. by apply Hstay.
Qed.

(** C7. However other processes interleave with the job and whatever fails in it, each of its
    own steps brings to the store only bytes of the blob's digest and takes from it only
    files whose bytes are not of their name, which go to quarantine under it (and only such
    files and artefacts of the blob do); it touches no
    row but this node's of this blob, never takes a present replica away, and makes one
    present only beside the bytes.  So a node whose files are what they are named and whose
    present replicas are held stays such a node, if the others keep it so. *)
Theorem replicate_guarantee `{HashEnv, HashText, HashParse} (env : Env) (self : string) (out : Outside) (h : Hash)
    (p : ReplicateBlobPayload) (s : St) :
  Hash_Parse (pBlobHash p) = Some h →
  let w' := world (ReplicateBlobHandler env self out (Some p) s).1 in
  rtc (turn env (owns h self)) (world s) w' ∧
  ((∀ n w, sound self w → sound self (others env n w)) → sound self (world s) → sound self w').
Proof.
  intros Hp w'. pose proof (within_handler env self out h p Hp) as Hw. split; [apply Hw|].
  intros Ho Hs. apply (within_keeps env (owns h self) _ (sound self) s Hw Ho); [|done].
  intros w1 w2. apply owns_sound.
Qed.

(** ** When nothing disturbs the job *)

Section quietly.
Context `{HashEnv, HashText, HashParse} (env : Env) (self : string) (out : Outside) (h : Hash).
Context (Hq : quiet env).
#[local] Abbreviation key := (Hash_String h).

(** This node's row of the blob. *)
Definition rowIs (c : Catalog) (state : string) (bytes : Z) : Prop :=
  ∃ r, replicas c !! (key, self) = Some r ∧ rrState r = state ∧ rrBytes r = bytes.

(** The node knows the blob and itself. *)
Definition referable (c : Catalog) : Prop := is_Some (blobs c !! key) ∧ is_Some (peers c !! self).

Lemma canReference_ok c : referable c → canReference c (key, self) = true.
Proof. intros [[b Hb] [p Hp]]. unfold canReference. cbn. by rewrite Hb, Hp. Qed.

Lemma referable_same c c' : same_demand c c' → blobs c' = blobs c → referable c → referable c'.
Proof. intros (_ & _ & _ & Hp) Hb [? ?]. split; [by rewrite Hb|by rewrite Hp]. Qed.

Lemma moveTo_total state transition src bytes srcs why c :
  referable c → ∃ c', moveTo state transition (record self key src bytes srcs why) c = inr c'.
Proof.
  intros Hr. unfold moveTo, upsertWhere. change (BlobTransfer.key _) with (key, self).
  destruct (replicas c !! (key, self)) as [r|]; [destruct (notPresent r); by eexists|]. rewrite (canReference_ok c Hr). by eexists.
Qed.

(** A record that is not of bytes: the row moves unless it is present, all else is kept. *)
Definition moved (state : string) (w w' : World) : Prop :=
  disk w' = disk w ∧ same_demand (cat w) (cat w') ∧ blobs (cat w') = blobs (cat w) ∧
  (∀ k, k ≠ (key, self) → replicas (cat w') !! k = replicas (cat w) !! k) ∧
  (¬ present (cat w) key self → rowIs (cat w') state 0).

Lemma moveTo_moved state transition src bytes srcs why w c :
  state ≠ "present" → moveTo state transition (record self key src bytes srcs why) (cat w) = inr c →
  moved state w (mkWorld c (disk w)).
Proof.
  intros Hs Hm. destruct (moveTo_ok _ _ _ _ _ Hs Hm) as (Hd & Hb & Hr & _ & Hn & _). split_and!; done.
Qed.

Lemma runs_begin src bytes srcs why w :
  referable (cat w) → runs (begin env (record self key src bytes srcs why)) w (λ _ w', moved "pending" w w').
Proof.
  intros Hr. destruct (moveTo_total "pending" TransferStarted src bytes srcs why (cat w) Hr) as [c Hc].
  apply (runs_call env Hq _ _ w (mkWorld c (disk w)) tt).
  - unfold onCatalog, transaction, BeginBlobTransfer. by rewrite Hc.
  - by eapply moveTo_moved.
Qed.

Lemma runs_failedWith src bytes srcs why state e w :
  referable (cat w) → state ∈ ["missing"; "corrupt"] →
  runs (failedWith env (record self key src bytes srcs why) state e) w (λ v w', v = Refused e ∧ moved state w w').
Proof.
  intros Hr Hst. destruct (moveTo_total state TransferFailed src bytes srcs why (cat w) Hr) as [c Hc].
  assert (state ≠ "present") as Hne by (intros ->; set_solver).
  unfold failedWith. eapply runs_bind; [apply (runs_catch env Hq _ _ w (mkWorld c (disk w)) (inr tt)
    (λ r w', r = inr tt ∧ moved state w w'))|].
  - unfold onCatalog, transaction, RecordBlobTransferFailed.
    assert (negb (bool_decide (state = "missing")) && negb (bool_decide (state = "corrupt")) = false) as ->; [|by rewrite Hc].
    apply elem_of_cons in Hst as [->|Hst]; [done|]. apply list_elem_of_singleton in Hst as ->. done.
  - split; [done|]. by eapply moveTo_moved.
  - intros r w' [-> Hm]. by apply runs_ret.
Qed.

(** The bytes are recorded: the row is present with their length, all else is kept. *)
Definition filed (bytes : Z) (w w' : World) : Prop :=
  disk w' = disk w ∧ same_demand (cat w) (cat w') ∧ rowIs (cat w') "present" bytes ∧
  is_Some (blobs (cat w') !! key) ∧ (∀ k, k ≠ key → blobs (cat w') !! k = blobs (cat w) !! k) ∧
  (∀ k, k ≠ (key, self) → replicas (cat w') !! k = replicas (cat w) !! k).

(** The transition is announced unless the row said so already. *)
Definition told (src : string) (bytes : Z) (srcs : gmap string Z) (w w' : World) : Prop :=
  ¬ present (cat w) key self →
  last (outbox (cat w')) =
    Some (TransferChanged TransferSucceeded key src self bytes "" (contributions (record self key src bytes srcs ""))).

Lemma record_total src bytes srcs now w :
  is_Some (files (disk w) !! key) → is_Some (peers (cat w) !! self) →
  ∃ w', RecordBlobTransferred (record self key src bytes srcs "") now w = (w', inr tt) ∧
    filed bytes w w' ∧ told src bytes srcs w w'.
Proof.
  intros [f Hf] Hp. set (t := record self key src bytes srcs "").
  destruct (RecordBlobTransferred t now w) as [w' r] eqn:E.
  assert (∃ w1, RecordBlobTransferred t now w = (w1, inr tt) ∧ told src bytes srcs w w1) as (w1 & E1 & Htold).
  { unfold RecordBlobTransferred, Stat. change (tBlob t) with key. rewrite Hf.
    destruct (describeBlob_ok t (cat w)) as (Hd & Hr & _ & Hs & _).
    unfold markPresent, upsertWhere. change (BlobTransfer.key t) with (key, self). rewrite Hr. unfold told, present.
    destruct (replicas (cat w) !! (key, self)) as [row|].
    - unfold stale, notPresent. destruct (decide (rrState row = "present")) as [Hst|Hst].
      + rewrite (bool_decide_true _ Hst). destruct (rrBytes row =? _)%Z; cbn; (eexists; split; [done|]; intros Hn; exfalso; apply Hn; eauto).
      + rewrite (bool_decide_false _ Hst). cbn. eexists. split; [done|]. intros _. cbn. by rewrite last_snoc.
    - rewrite canReference_ok; [|split; [done|]; destruct Hd as (_ & _ & _ & ->); done].
      eexists. split; [done|]. intros _. cbn. by rewrite last_snoc. }
  rewrite E1 in E. injection E as -> <-. exists w'. split; [done|]. split; [|done].
  destruct (RecordBlobTransferred_ok _ _ _ _ E1) as (_ & Hd & Hdem & Hr & Hb & Hs & _).
  split_and!; try done. apply (RecordBlobTransferred_row _ _ _ _ E1).
Qed.

(** ** Trying the sources *)

(** What some attempt on a source gives. *)
Definition gives (i : nat) (src : Source) (r : Pull.error + Outcome) : Prop :=
  ∃ at_ d, (pullFrom (attempts out i) at_ src h d).2 = r.

(** None of the sources delivered, nor sent bytes that do not verify. *)
Definition undelivered (i : nat) (srcs : list Source) (es : list Pull.error) : Prop :=
  length es = length srcs ∧
  ∀ k src e, srcs !! k = Some src → es !! k = Some e → gives (i + k) src (inl e) ∧ is_corruption e = false.

(** The tables and files but the blob's, and everything the node is asked to keep. *)
Definition apart (w w' : World) : Prop :=
  lands h (disk w) (disk w') ∧ same_demand (cat w) (cat w') ∧
  (∀ k, k ≠ (key, self) → replicas (cat w') !! k = replicas (cat w) !! k) ∧
  (∀ k, k ≠ key → blobs (cat w') !! k = blobs (cat w) !! k).

(** How the loop may end: at the first source that delivers, at the first whose bytes do
    not verify, or with none left. *)
Inductive settled (i : nat) (errs : list Pull.error) (srcs : list Source) (w w' : World) : Verdict → Prop :=
  | settled_done pre src post es o :
      srcs = pre ++ src :: post → undelivered i pre es → gives (i + length pre) src (inr o) →
      is_Some (files (disk w') !! key) → rowIs (cat w') "present" (oBytes o) →
      (¬ present (cat w) key self →
       last (outbox (cat w')) = Some (TransferChanged TransferSucceeded key (SourcePeerID src) self (oBytes o) "" [])) →
      settled i errs srcs w w' Done
  | settled_corrupt pre src post es e :
      srcs = pre ++ src :: post → undelivered i pre es → gives (i + length pre) src (inl e) →
      is_corruption e = true → (¬ present (cat w) key self → rowIs (cat w') "corrupt" 0) →
      settled i errs srcs w w' (Refused (Replicate.ErrSource e))
  | settled_exhausted es :
      undelivered i srcs es → (¬ present (cat w) key self → rowIs (cat w') "missing" 0) →
      settled i errs srcs w w' (Refused (ErrNoSourceDelivered (errs ++ es))).

Lemma undelivered_cons i src srcs e es :
  gives i src (inl e) → is_corruption e = false → undelivered (S i) srcs es → undelivered i (src :: srcs) (e :: es).
Proof.
  intros Hg He [Hl Hu]. split; [cbn; by rewrite Hl|]. intros [|k] s e' Hs Hes.
  - injection Hs as <-. injection Hes as <-. by rewrite Nat.add_0_r.
  - rewrite <-Nat.add_succ_comm. by apply Hu.
Qed.

Lemma settled_next i errs src e srcs w w1 w' v :
  gives i src (inl e) → is_corruption e = false → cat w1 = cat w →
  settled (S i) (errs ++ [e]) srcs w1 w' v → settled i errs (src :: srcs) w w' v.
Proof.
  intros Hg He Hc [pre s post es o Hs Hu Hgo Hf Hr Ht|pre s post es c Hs Hu Hgo Hcor Hr|es Hu Hr]; rewrite Hc in *.
  - eapply (settled_done _ _ _ _ _ (src :: pre) s post (e :: es) o); try done.
    + by rewrite Hs.
    + by apply undelivered_cons.
    + cbn. by rewrite <-Nat.add_succ_comm.
  - eapply (settled_corrupt _ _ _ _ _ (src :: pre) s post (e :: es) c); try done.
    + by rewrite Hs.
    + by apply undelivered_cons.
    + cbn. by rewrite <-Nat.add_succ_comm.
  - rewrite <-app_assoc. eapply (settled_exhausted _ _ _ _ _ (e :: es)); [|done]. by apply undelivered_cons.
Qed.

Lemma apart_moved state w1 w' w : moved state w1 w' → lands h (disk w) (disk w1) → cat w1 = cat w → apart w w'.
Proof.
  intros (Hd & Hdem & Hb & Hr & _) Hl Hc. rewrite Hc in *. split_and!; [by rewrite Hd|done|done|]. intros k _. by rewrite Hb.
Qed.

Lemma runs_pull i src w (R : Pull.error + Outcome → World → Prop) :
  (∀ d r, lands h (disk w) d → gives i src r → (∀ o, r = inr o → is_Some (files d !! key)) → R r (mkWorld (cat w) d)) →
  runs (pull env out i src h) w R.
Proof.
  intros HR s Hs. unfold pull. set (at_ := at_instant out (tick s)).
  destruct (pullFrom_lands (attempts out i) at_ src h (disk w)) as [Hl Ht].
  destruct (pullFrom (attempts out i) at_ src h (disk w)) as [d r] eqn:E. cbn in *.
  refine (runs_perform env Hq _ _ w (mkWorld (cat w) d) r R _ _ s Hs).
  - unfold onDiskOf. by rewrite E.
  - apply HR; [done| |by intros o ->; eapply Ht]. exists at_, (disk w). by rewrite E.
Qed.

Lemma runs_transferred src bytes srcs w (R : World → Prop) :
  is_Some (files (disk w) !! key) → is_Some (peers (cat w) !! self) →
  (∀ w', filed bytes w w' → told src bytes srcs w w' → R w') →
  runs (transferred env (record self key src bytes srcs "")) w (λ _, R).
Proof.
  intros Hf Hp HR s Hs. unfold transferred.
  destruct (record_total src bytes srcs (clock env (tick s)) w Hf Hp) as (w' & E & Hfil & Ht).
  refine (runs_call env Hq _ _ w w' tt (λ _, R) _ _ s Hs); [done|]. by apply HR.
Qed.

Lemma contributions_none src bytes : contributions (record self key src bytes ∅ "") = [].
Proof. done. Qed.

Lemma runs_trySources srcs : ∀ i last errs w, referable (cat w) →
  runs (trySources env self out h i last errs srcs) w (λ v w', settled i errs srcs w w' v ∧ apart w w').
Proof.
  induction srcs as [|src srcs IH]; intros i last errs w Hr; cbn [trySources].
  - eapply runs_weaken; [apply (runs_failedWith last 0 ∅ "no_source_delivered" "missing" (ErrNoSourceDelivered errs) w Hr); set_solver|].
    intros v w' [-> Hm]. split; [|by eapply apart_moved; [exact Hm|apply lands_refl|]].
    rewrite <-(app_nil_r errs) at 2. apply (settled_exhausted _ _ _ _ _ []); [|apply Hm]. by split.
  - eapply runs_bind; [by apply (runs_ctx env Hq w (λ _ w', w' = w))|]. intros _ ? ->.
    eapply runs_bind; [apply (runs_pull i src w (λ r w', ∃ d, w' = mkWorld (cat w) d ∧ lands h (disk w) d ∧ gives i src r ∧
      (∀ o, r = inr o → is_Some (files d !! key)))); eauto 10|].
    intros r w1 (d & -> & Hl & Hg & Hf). destruct r as [e|o].
    + destruct (is_corruption e) eqn:Hc.
      * eapply runs_weaken; [apply (runs_failedWith (SourcePeerID src) 0 ∅ "verification_failed" "corrupt" (Replicate.ErrSource e)
          (mkWorld (cat w) d) Hr); set_solver|].
        intros v w' [-> Hm]. split; [|by eapply apart_moved].
        apply (settled_corrupt _ _ _ _ _ [] src srcs [] e); [done|by split|by rewrite Nat.add_0_r|done|apply Hm].
      * eapply runs_weaken; [by apply IH|]. intros v w' [Hs (Hl' & Hd & Hrows & Hb)]. split.
        -- apply (settled_next i errs src e srcs w (mkWorld (cat w) d)); [exact Hg|exact Hc|reflexivity|exact Hs].
        -- split_and!; [by eapply lands_trans|done..].
    + eapply runs_bind; [apply (runs_transferred (SourcePeerID src) (oBytes o) ∅ (mkWorld (cat w) d)
        (λ w', filed (oBytes o) (mkWorld (cat w) d) w' ∧ told (SourcePeerID src) (oBytes o) ∅ (mkWorld (cat w) d) w'));
        [by eapply Hf|apply Hr|by intros]|].
      intros _ w' [(Hd & Hdem & Hrow & _ & Hb & Hrows) Ht]. apply runs_ret. split.
      * apply (settled_done _ _ _ _ _ [] src srcs [] o); [done|by split|by rewrite Nat.add_0_r| |done|exact Ht].
        rewrite Hd. by eapply Hf.
      * split_and!; [by rewrite Hd|done..].
Qed.

(** ** The handler *)

(** What the checks see, in their order. *)
Definition member (p : ReplicateBlobPayload) (w : World) : Prop := is_Some (peers (cat w) !! DestinationPeerID p).
Definition here (w : World) : Prop := is_Some (files (disk w) !! key).

Section at_world.
Context (p : ReplicateBlobPayload) (Hp : Hash_Parse (pBlobHash p) = Some h).
#[local] Abbreviation handler := (ReplicateBlobHandler env self out (Some p)).

Lemma handler_stranger w : ¬ member p w → runs handler w (λ v w', v = Refused ErrUnknownPeer ∧ w' = w).
Proof.
  intros Hm. apply eq_None_not_Some in Hm. unfold ReplicateBlobHandler. rewrite Hp.
  eapply runs_bind; [by apply (runs_read env Hq _ _ w (λ a w', a = ReplicationTarget key (DestinationPeerID p) (cat w) ∧ w' = w))|].
  intros a w' [-> ->]. unfold ReplicationTarget. rewrite Hm. by apply runs_ret.
Qed.

(** Past the first checks. *)
Lemma handler_known w R :
  member p w →
  (if decide (DestinationPeerID p = self) then
     runs (if negb (Known (cat w) key) && negb (bool_decide (here w)) then mret (Refused ErrUnknownTarget)
           else if bool_decide (here w) then adopt env self h else acquire env self out h) w R
   else R (Refused ErrNotDestination) w) →
  runs handler w R.
Proof.
  intros [row Hm] HR. unfold ReplicateBlobHandler. rewrite Hp.
  eapply runs_bind; [by apply (runs_read env Hq _ _ w (λ a w', a = ReplicationTarget key (DestinationPeerID p) (cat w) ∧ w' = w))|].
  intros a w' [-> ->]. unfold ReplicationTarget. rewrite Hm. cbn [fst snd].
  rewrite (bool_decide_false (Some row = None)) by done. cbn [negb].
  eapply runs_bind; [by apply (runs_read env Hq _ _ w (λ a w', a = self ∧ w' = w))|]. intros a w' [-> ->].
  destruct (decide (DestinationPeerID p = self)) as [He|Hne].
  - rewrite bool_decide_true by done. cbn [negb].
    eapply runs_bind; [by apply (runs_read env Hq _ _ w (λ a w', a = bool_decide (here w) ∧ w' = w))|]. intros a w' [-> ->].
    done.
  - rewrite bool_decide_false by done. cbn [negb]. by apply runs_ret.
Qed.

Lemma handler_adopts w f :
  member p w → DestinationPeerID p = self → files (disk w) !! key = Some f →
  runs handler w (λ v w', v = Done ∧ filed (fileSize f) w w' ∧ told "" (fileSize f) ∅ w w').
Proof.
  intros Hm He Hf. apply handler_known; [done|]. rewrite decide_True by done.
  assert (bool_decide (here w) = true) as -> by (apply bool_decide_eq_true; by exists f).
  rewrite andb_false_r. unfold adopt.
  eapply runs_bind; [apply (runs_call env Hq _ _ w w (describe key f) (λ a w', a = describe key f ∧ w' = w)); [|done]|].
  { unfold Stat. by rewrite Hf. }
  intros a w' [-> ->]. cbn [dSize describe].
  eapply runs_bind; [apply (runs_transferred "" (fileSize f) ∅ w (λ w', filed (fileSize f) w w' ∧ told "" (fileSize f) ∅ w w'));
    [by exists f|by rewrite <-He|by intros]|].
  intros _ w' [Hfil Ht]. by apply runs_ret.
Qed.

Lemma handler_acquires w R :
  member p w → DestinationPeerID p = self → ¬ here w → Known (cat w) key = true →
  runs (acquire env self out h) w R → runs handler w R.
Proof.
  intros Hm He Hh Hk HR. apply handler_known; [done|]. rewrite decide_True by done.
  rewrite Hk, bool_decide_false by done. exact HR.
Qed.

Lemma settled_before errs srcs w w1 w' v :
  (¬ present (cat w) key self → ¬ present (cat w1) key self) →
  settled 0 errs srcs w1 w' v → settled 0 errs srcs w w' v.
Proof.
  intros Hp1 Hs. destruct Hs; [eapply settled_done|eapply settled_corrupt|eapply settled_exhausted]; eauto.
Qed.

Lemma moved_pending w w1 : moved "pending" w w1 → ¬ present (cat w) key self → ¬ present (cat w1) key self.
Proof.
  intros (_ & _ & _ & _ & Hrow) Hn (r & Hk & Hs). destruct (Hrow Hn) as (r' & Hk' & Hs' & _).
  rewrite Hk in Hk'. injection Hk' as <-. by rewrite Hs in Hs'.
Qed.

Lemma runs_fromSources src srcs w :
  referable (cat w) →
  runs (fromSources env self out h src srcs) w (λ v w', settled 0 [] (src :: srcs) w w' v ∧ apart w w').
Proof.
  intros Hr. eapply runs_bind; [by apply (runs_begin (SourcePeerID src) 0 ∅ "" w)|].
  intros [] w1 Hm. pose proof Hm as (Hd & Hdem & Hb & Hrows & _).
  eapply runs_weaken; [apply runs_trySources; by eapply referable_same|].
  intros v w' [Hs (Hl & Hdem' & Hrows' & Hb')]. split; [by eapply settled_before; [apply moved_pending|]|].
  split_and!; [by rewrite <-Hd|by etrans| |].
  - intros k Hk. by rewrite Hrows', Hrows.
  - intros k Hk. by rewrite Hb', Hb.
Qed.

Lemma runs_acquire w src srcs :
  referable (cat w) → pullerFails out = false → BlobSources key self (cat w) = src :: srcs →
  runs (acquire env self out h) w (λ v w', settled 0 [] (src :: srcs) w w' v ∧ apart w w').
Proof.
  intros Hr Hpf Hs. unfold acquire.
  eapply runs_bind; [by apply (runs_read env Hq _ _ w (λ a w', a = BlobSources key self (cat w) ∧ w' = w))|].
  intros a w' [-> ->]. rewrite Hpf, Hs. by apply runs_fromSources.
Qed.
End at_world.

(** Where a source serves the blob, the loop can only end with a delivery. *)
Lemma settled_delivers content errs srcs i src w w' v :
  h = hash content → IsZero h = false → srcs !! i = Some src → serves (attempts out i) src content →
  (∀ j s e, (j < i)%nat → srcs !! j = Some s → gives j s (inl e) → is_corruption e = false) →
  settled 0 errs srcs w w' v →
  (v = Done ∧ is_Some (files (disk w') !! key) ∧ ∃ bytes, rowIs (cat w') "present" bytes) ∨
  ambiguous (attempts out i) src content.
Proof.
  intros Hh Hz Hi Hsv Hclean.
  assert (∀ e, gives i src (inl e) → ambiguous (attempts out i) src content) as Hno.
  { intros e (at_ & d & Hg). pose proof (pullFrom_delivers (attempts out i) at_ src content d) as Hd.
    rewrite <-Hh in Hd. destruct (Hd Hz Hsv) as [[o Ho]|?]; [|done]. by rewrite Ho in Hg. }
  assert (∀ es l, undelivered 0 l es → l `prefix_of` srcs → (length l ≤ i)%nat ∨ ambiguous (attempts out i) src content) as Hbound.
  { intros es l [Hlen Hu] Hpre. destruct (decide (length l ≤ i)%nat) as [|Hgt]; [by left|right].
    assert (l !! i = Some src) as Hli.
    { destruct Hpre as [k ->]. by rewrite lookup_app_l in Hi by lia. }
    destruct (lookup_lt_is_Some_2 es i) as [e Hes]; [lia|]. destruct (Hu i src e Hli Hes) as [Hg _]. by eapply Hno. }
  intros [pre s post es o Hs Hu Hg Hf Hr _|pre s post es e Hs Hu Hg Hc _|es Hu _].
  - left. split_and!; [done|done|by eexists].
  - right. destruct (Hbound es pre Hu) as [Hle|?]; [by exists (s :: post)| |done].
    assert (srcs !! length pre = Some s) as Hp by (rewrite Hs; apply list_lookup_middle; lia).
    destruct (decide (length pre = i)) as [Heq|Hne].
    + rewrite Heq, Hi in Hp. injection Hp as ->. rewrite Heq in Hg. by eapply Hno.
    + assert (is_corruption e = false) as Hcf by (apply (Hclean (length pre) s); [lia|done|done]). congruence.
  - right. destruct (Hbound es srcs Hu) as [Hle|?]; [done| |done].
    apply lookup_lt_Some in Hi. lia.
Qed.

(** The session of pieces, once the size and the members are known. *)
Lemma runs_candidates w r (R : PieceResult → World → Prop) :
  blobs (cat w) !! key = Some r →
  runs (if bool_decide (candidates self out (Peers (cat w)) = []) then mret NoPieceSource
        else λ s, perform env (onDiskOf (runSession out (at_instant out (tick s)) h (rSize r) (candidates self out (Peers (cat w)))))
                    (λ r, APullPieces key (pieceTold r)) s) w R →
  runs (pullPieces env self out h) w R.
Proof.
  intros Hb HR. unfold pullPieces.
  eapply runs_bind; [apply (runs_catch env Hq _ _ w w (inr (rSize r)) (λ a w', a = inr (rSize r) ∧ w' = w))|].
  - unfold BlobSize. by rewrite Hb.
  - done.
  - intros a w' [-> ->].
    eapply runs_bind; [by apply (runs_catch env Hq _ _ w w (inr (Peers (cat w))) (λ a w', a = inr (Peers (cat w)) ∧ w' = w))|].
    intros a w' [-> ->]. exact HR.
Qed.

Lemma runs_session w size cs (R : PieceResult → World → Prop) :
  (∀ at_, let '(d, r) := runSession out at_ h size cs (disk w) in R r (mkWorld (cat w) d)) →
  runs (λ s, perform env (onDiskOf (runSession out (at_instant out (tick s)) h size cs)) (λ r, APullPieces key (pieceTold r)) s) w R.
Proof.
  intros HR s Hs. specialize (HR (at_instant out (tick s))).
  destruct (runSession out (at_instant out (tick s)) h size cs (disk w)) as [d r] eqn:E.
  refine (runs_perform env Hq _ _ w (mkWorld (cat w) d) r R _ HR s Hs). unfold onDiskOf. by rewrite E.
Qed.

Lemma runs_nobody w r :
  blobs (cat w) !! key = Some r → pullerFails out = false → BlobSources key self (cat w) = [] →
  Forall (λ q, BlobCatalog.PeerID q = self) (Peers (cat w)) →
  runs (acquire env self out h) w (λ v w', v = Refused Replicate.ErrNoSource ∧ w' = w).
Proof.
  intros Hb Hpf Hs Hself. unfold acquire.
  eapply runs_bind; [by apply (runs_read env Hq _ _ w (λ a w', a = BlobSources key self (cat w) ∧ w' = w))|].
  intros a w' [-> ->]. rewrite Hpf, Hs.
  assert (candidates self out (Peers (cat w)) = []) as Hc.
  { unfold candidates. clear -Hself. induction Hself as [|q qs Hq0 _ IH]; [done|].
    rewrite filter_cons_False; [done|]. intros Hne. by apply Hne. }
  eapply runs_bind; [apply (runs_candidates w r (λ g w', g = NoPieceSource ∧ w' = w) Hb)|].
  - rewrite bool_decide_true by done. by apply runs_ret.
  - intros g w' [-> ->]. by apply runs_ret.
Qed.

(** How an assembly from pieces ends, by what the session gave. *)
Definition pieced (w : World) (v : Verdict) (w' : World) : Prop :=
  match PiecePull.PullPieces (session out) h (default 0%Z (rSize <$> blobs (cat w) !! key))
          (candidates self out (Peers (cat w))) (pieceNodeOf out key (disk w)) with
  | None => v = Running ∧ w' = w
  | Some (_, o, None) =>
      v = Done ∧ is_Some (files (disk w') !! key) ∧ rowIs (cat w') "present" (PiecePull.Bytes o) ∧
      (¬ present (cat w) key self →
       last (outbox (cat w')) = Some (TransferChanged TransferSucceeded key "" self (PiecePull.Bytes o) ""
         (contributions (record self key "" (PiecePull.Bytes o) (PiecePull.oFromPeer o) ""))))
  | Some (_, _, Some PiecePull.ErrNoPieceSource) => v = Refused Replicate.ErrNoSource ∧ cat w' = cat w
  | Some (_, _, Some e) =>
      v = Refused (ErrPieces (OfSession e)) ∧ (¬ present (cat w) key self → rowIs (cat w') "corrupt" 0)
  end.

Lemma apart_disk w w1 w' d :
  lands h (disk w) d → same_demand (cat w) (cat w1) → blobs (cat w1) = blobs (cat w) →
  (∀ k, k ≠ (key, self) → replicas (cat w1) !! k = replicas (cat w) !! k) → disk w' = d →
  same_demand (cat w1) (cat w') → (∀ k, k ≠ (key, self) → replicas (cat w') !! k = replicas (cat w1) !! k) →
  (∀ k, k ≠ key → blobs (cat w') !! k = blobs (cat w1) !! k) → apart w w'.
Proof.
  intros Hl Hd Hb Hr He Hd' Hr' Hb'. split_and!; [by rewrite He|by etrans| |].
  - intros k Hk. by rewrite Hr', Hr.
  - intros k Hk. by rewrite Hb', Hb.
Qed.

Lemma runs_assembled w d o :
  referable (cat w) → lands h (disk w) d → is_Some (files d !! key) →
  runs (_ ← begin env (record self key "" (PiecePull.Bytes o) (PiecePull.oFromPeer o) "");
        _ ← transferred env (record self key "" (PiecePull.Bytes o) (PiecePull.oFromPeer o) "");
        mret Done) (mkWorld (cat w) d)
    (λ v w', apart w w' ∧ v = Done ∧ is_Some (files (disk w') !! key) ∧ rowIs (cat w') "present" (PiecePull.Bytes o) ∧
      (¬ present (cat w) key self →
       last (outbox (cat w')) = Some (TransferChanged TransferSucceeded key "" self (PiecePull.Bytes o) ""
         (contributions (record self key "" (PiecePull.Bytes o) (PiecePull.oFromPeer o) ""))))).
Proof.
  intros Hr Hl Hf. eapply runs_bind; [by apply (runs_begin "" (PiecePull.Bytes o) (PiecePull.oFromPeer o) "" (mkWorld (cat w) d))|].
  intros [] w1 Hm. pose proof Hm as (Hd & Hdem & Hb & Hrows & _). cbn in Hd, Hdem, Hb, Hrows.
  eapply runs_bind; [apply (runs_transferred "" (PiecePull.Bytes o) (PiecePull.oFromPeer o) w1
    (λ w', filed (PiecePull.Bytes o) w1 w' ∧ told "" (PiecePull.Bytes o) (PiecePull.oFromPeer o) w1 w')); [by rewrite Hd| |by intros]|].
  { destruct Hdem as (_ & _ & _ & ->). apply Hr. }
  intros [] w' [(Hd' & Hdem' & Hrow & _ & Hb' & Hrows') Ht]. apply runs_ret. split_and!; try done.
  - by apply (apart_disk w w1 w' d); rewrite ?Hd', ?Hd.
  - by rewrite Hd', Hd.
  - intros Hn. apply Ht. by apply (moved_pending _ _ Hm).
Qed.

Lemma runs_pieceFailed w d e :
  referable (cat w) → lands h (disk w) d →
  runs (_ ← begin env (record self key "" 0 ∅ "piece_transfer_failed");
        failedWith env (record self key "" 0 ∅ "piece_transfer_failed") "corrupt" (ErrPieces e)) (mkWorld (cat w) d)
    (λ v w', apart w w' ∧ v = Refused (ErrPieces e) ∧ (¬ present (cat w) key self → rowIs (cat w') "corrupt" 0)).
Proof.
  intros Hr Hl. eapply runs_bind; [by apply (runs_begin "" 0 ∅ "piece_transfer_failed" (mkWorld (cat w) d))|].
  intros [] w1 Hm. pose proof Hm as (Hd & Hdem & Hb & Hrows & _). cbn in Hd, Hdem, Hb, Hrows.
  eapply runs_weaken; [apply (runs_failedWith "" 0 ∅ "piece_transfer_failed" "corrupt" (ErrPieces e) w1); [by eapply referable_same|set_solver]|].
  intros v w' [-> (Hd' & Hdem' & Hb' & Hrows' & Hrow)]. split_and!; try done.
  - apply (apart_disk w w1 w' d); [done..|by rewrite Hd', Hd|done|done|]. intros k _. by rewrite Hb'.
  - intros Hn. by apply Hrow, (moved_pending _ _ Hm).
Qed.

Lemma runs_pieces w r :
  blobs (cat w) !! key = Some r → is_Some (peers (cat w) !! self) → pullerFails out = false →
  BlobSources key self (cat w) = [] → candidates self out (Peers (cat w)) ≠ [] →
  runs (acquire env self out h) w (λ v w', apart w w' ∧ pieced w v w').
Proof.
  intros Hb Hp Hpf Hs Hne. unfold acquire.
  eapply runs_bind; [by apply (runs_read env Hq _ _ w (λ a w', a = BlobSources key self (cat w) ∧ w' = w))|].
  intros a w' [-> ->]. rewrite Hpf, Hs. set (size := rSize r). set (cs := candidates self out (Peers (cat w))).
  assert (referable (cat w)) as Hr by (by split; [eexists|]).
  eapply runs_bind; [apply (runs_candidates w r (λ g w', ∃ at_ d, runSession out at_ h size cs (disk w) = (d, g) ∧ w' = mkWorld (cat w) d) Hb)|].
  { rewrite bool_decide_false by done. apply runs_session. intros at_.
    destruct (runSession _ _ _ _ _ _) as [d g] eqn:E. by exists at_, d. }
  intros g w' (at_ & d & E & ->). destruct (runSession_lands out h at_ size cs (disk w)) as [Hl Ht].
  unfold pieced. rewrite Hb. cbn [fmap option_fmap option_map default]. fold size cs. revert E Hl Ht.
  unfold runSession. destruct (PiecePull.PullPieces _ _ _ _ _) as [[[n o] e]|] eqn:EP; cbn [fst snd].
  2:{ intros [= <- <-] _ _. apply runs_ret. destruct w. split_and!; try done. split_and!; [apply lands_refl|reflexivity|done|done]. }
  destruct e as [e|]; intros [= <- <-]; intros Hl Ht.
  2:{ by apply (runs_assembled w); [done|done|eapply Ht]. }
  destruct e; try (by apply (runs_pieceFailed w)).
  apply runs_ret. split_and!; done.
Qed.
End quietly.

(** What is checked before anything moves, in order, when nothing disturbs the job: a blob
    hash that does not parse and a peer that is no member refuse it, as does another
    node's job, and a blob this node neither knows nor holds, and nothing is written.  Of
    these only an unknown peer or blob says never to retry.  Bytes already here are recorded
    with their length, and announced unless the row said so; with nobody to ask, there is
    no source and nothing is written. *)
Theorem replicate_checks `{HashEnv, HashText, HashParse} (env : Env) (self : string) (out : Outside)
    (p : ReplicateBlobPayload) (h : Hash) (w : World) (r : BlobRow) (f : File) :
  quiet env →
  let handler := ReplicateBlobHandler env self out (Some p) in
  let key := Hash_String h in
  let refused e v w' := v = Refused e ∧ w' = w in
  (Hash_Parse (pBlobHash p) = None → runs handler w (refused ErrHash)) ∧
  (Hash_Parse (pBlobHash p) = Some h →
   (peers (cat w) !! DestinationPeerID p = None → runs handler w (refused ErrUnknownPeer)) ∧
   (member p w → DestinationPeerID p ≠ self → runs handler w (refused ErrNotDestination)) ∧
   (member p w → DestinationPeerID p = self →
    (files (disk w) !! key = None → blobs (cat w) !! key = None → runs handler w (refused ErrUnknownTarget)) ∧
    (files (disk w) !! key = Some f →
     runs handler w (λ v w', v = Done ∧ filed self h (fileSize f) w w' ∧ told self h "" (fileSize f) ∅ w w')) ∧
    (files (disk w) !! key = None → blobs (cat w) !! key = Some r → pullerFails out = false →
     BlobSources key self (cat w) = [] → Forall (λ q, BlobCatalog.PeerID q = self) (Peers (cat w)) →
     runs handler w (refused Replicate.ErrNoSource)))) ∧
  (permanent ErrUnknownPeer = true ∧ permanent ErrUnknownTarget = true ∧ permanent ErrHash = false ∧
   permanent ErrNotDestination = false ∧ permanent Replicate.ErrNoSource = false).
Proof.
  intros Hq handler key refused. split_and!; [|intros Hp; split_and!|done..].
  - intros Hp. unfold handler, ReplicateBlobHandler. rewrite Hp. by apply runs_ret.
  - intros Hn. apply (handler_stranger env self out h Hq p Hp). unfold member. rewrite Hn. by intros [? ?].
  - intros Hm Hne. apply (handler_known env self out h Hq p Hp); [done|]. by rewrite decide_False by done.
  - intros Hm He. split_and!.
    + intros Hf Hb. apply (handler_known env self out h Hq p Hp); [done|]. rewrite decide_True by done.
      unfold Known, here. fold key. rewrite Hf, Hb. by apply runs_ret.
    + apply (handler_adopts env self out h Hq p Hp); done.
    + intros Hf Hb Hpf Hs Hself.
      apply (handler_acquires env self out h Hq p Hp); [done|done| |by unfold Known; fold key; rewrite Hb|].
      * unfold here. fold key. rewrite Hf. by intros [? ?].
      * by eapply (runs_nobody env self out h Hq).
Qed.

(** The sources are tried in the order they rank, one after the other, when nothing
    disturbs the job: at the first that delivers the blob is here and recorded as present
    with the bytes it gave, and that source is told as the one; at the first whose bytes do
    not verify the job fails and the row says corrupt; when none is left it fails with the
    error of each, and the row says missing.  Nothing else changes. *)
Theorem replicate_sources `{HashEnv, HashText, HashParse} (env : Env) (self : string) (out : Outside)
    (p : ReplicateBlobPayload) (h : Hash) (w : World) (src : Source) (srcs : list Source) :
  quiet env → Hash_Parse (pBlobHash p) = Some h →
  member p w → DestinationPeerID p = self → ¬ here h w → is_Some (blobs (cat w) !! Hash_String h) →
  pullerFails out = false → BlobSources (Hash_String h) self (cat w) = src :: srcs →
  runs (ReplicateBlobHandler env self out (Some p)) w (λ v w',
    settled self out h 0 [] (src :: srcs) w w' v ∧ apart self h w w').
Proof.
  intros Hq Hp Hm He Hh [b Hb] Hpf Hs.
  apply (handler_acquires env self out h Hq p Hp); [done|done|done|by unfold Known; rewrite Hb|].
  apply runs_acquire; [done| |done|done]. split; [by eexists|by rewrite <-He].
Qed.

(** C8. One source that serves the blob is enough: if none tried before it sends bytes that do
    not verify, however else they fail, the job succeeds, with bytes of the digest in the
    store and the replica recorded as present, unless the hash has a collision: the chunks
    of that source's manifest are those of other bytes too. *)
Theorem replicate_completes `{HashEnv, HashText, HashParse} (env : Env) (self : string) (out : Outside)
    (p : ReplicateBlobPayload) (content : list byte) (w : World) (i : nat) (src : Source) :
  let h := hash content in
  let srcs := BlobSources (Hash_String h) self (cat w) in
  quiet env → Hash_Parse (pBlobHash p) = Some h → IsZero h = false →
  member p w → DestinationPeerID p = self → ¬ here h w → is_Some (blobs (cat w) !! Hash_String h) →
  pullerFails out = false →
  srcs !! i = Some src → serves (attempts out i) src content →
  (∀ j s e, (j < i)%nat → srcs !! j = Some s → gives out h j s (inl e) → is_corruption e = false) →
  runs (ReplicateBlobHandler env self out (Some p)) w (λ v w',
    (v = Done ∧ (∃ f, files (disk w') !! Hash_String h = Some f ∧ hash (fData f) = h) ∧
     present (cat w') (Hash_String h) self) ∨
    ambiguous (attempts out i) src content).
Proof.
  intros h srcs Hq Hp Hz Hm He Hh [b Hb] Hpf Hi Hserves Hclean.
  destruct srcs as [|src0 rest] eqn:Hs; [done|].
  apply (handler_acquires env self out h Hq p Hp); [done|done|done|by unfold Known; rewrite Hb|].
  eapply runs_weaken; [apply (runs_acquire env self out h Hq w src0 rest); [|done|done]; split; [by eexists|by rewrite <-He]|].
  intros v w' [Hset (Hl & _)]. destruct (@settled_delivers H H0 H1 self out h content [] (src0 :: rest) i src w w' v eq_refl Hz Hi Hserves Hclean Hset)
    as [(-> & Hf & Hrow)|?]; [left|by right].
  split_and!; [done| |destruct Hrow as (bytes & r & ? & ? & _); by exists r].
  destruct Hf as [f Hf]. exists f. split; [done|].
  destruct (lands_new _ _ _ Hl _ _ Hf) as [Hold|[_ ?]]; [|done]. exfalso. apply Hh. by exists f.
Qed.

(** When no member has the blob whole, this node asks every other member for what part it
    has: a session that assembles the blob is recorded as a replica with what each gave;
    one that finds no source is no failure and nothing is recorded; any other error of the
    session leaves the row corrupt. *)
Theorem replicate_pieces `{HashEnv, HashText, HashParse} (env : Env) (self : string) (out : Outside)
    (p : ReplicateBlobPayload) (h : Hash) (w : World) (r : BlobRow) :
  quiet env → Hash_Parse (pBlobHash p) = Some h →
  member p w → DestinationPeerID p = self → ¬ here h w → blobs (cat w) !! Hash_String h = Some r →
  pullerFails out = false → BlobSources (Hash_String h) self (cat w) = [] →
  candidates self out (Peers (cat w)) ≠ [] →
  runs (ReplicateBlobHandler env self out (Some p)) w (λ v w', apart self h w w' ∧ pieced self out h w v w').
Proof.
  intros Hq Hp Hm He Hh Hb Hpf Hs Hne.
  apply (handler_acquires env self out h Hq p Hp); [done|done|done|by unfold Known; rewrite Hb|].
  apply (runs_pieces env self out h Hq w r); try done. by rewrite <-He.
Qed.

(** A session that never asked for a byte is recorded as a corrupt replica: the division of
    the size this node has for the blob, or the staging file another transfer has open,
    refuses it, and the row that said nothing says corrupt, with the disk as it was. *)
Theorem unstarted_is_corrupt `{HashEnv, HashText, HashParse} (env : Env) (self : string) (out : Outside)
    (p : ReplicateBlobPayload) (h : Hash) (w : World) (r : BlobRow) :
  quiet env → Hash_Parse (pBlobHash p) = Some h →
  member p w → DestinationPeerID p = self → ¬ here h w → blobs (cat w) !! Hash_String h = Some r →
  pullerFails out = false → BlobSources (Hash_String h) self (cat w) = [] →
  candidates self out (Peers (cat w)) ≠ [] → ¬ present (cat w) (Hash_String h) self →
  (∃ e, Pieces.For (rSize r) = inl e) ∨ PiecePull.busy (session out) = true ∧ IsZero h = false →
  runs (ReplicateBlobHandler env self out (Some p)) w (λ _ w', rowIs self h (cat w') "corrupt" 0).
Proof.
  intros Hq Hp Hm He Hh Hb Hpf Hs Hne Hn Hwhy.
  apply (handler_acquires env self out h Hq p Hp); [done|done|done|by unfold Known; rewrite Hb|].
  eapply runs_weaken; [apply (runs_pieces env self out h Hq w r); try done; by rewrite <-He|].
  intros v w' [_ Hpc]. unfold pieced in Hpc. rewrite Hb in Hpc.
  change (default 0%Z (rSize <$> Some r)) with (rSize r) in Hpc.
  assert (∃ n o e, PiecePull.PullPieces (session out) h (rSize r) (candidates self out (Peers (cat w)))
     (pieceNodeOf out (Hash_String h) (disk w)) = Some (n, o, Some e) ∧ e ≠ PiecePull.ErrNoPieceSource) as (n & o & e & HP & Hne').
  { unfold PiecePull.PullPieces. destruct (Pieces.For (rSize r)) as [e|g] eqn:Hg; [by eexists _, _, _|].
    destruct Hwhy as [[e ?]|[Hbusy Hz]]; [done|].
    assert (negb (PiecePull.storeFails (session out)) && bool_decide (is_Some (Resume.stored (PiecePull.blobNode
      (pieceNodeOf out (Hash_String h) (disk w))))) = false) as ->.
    { rewrite andb_false_iff. right. apply bool_decide_eq_false. cbn. rewrite fmap_is_Some. exact Hh. }
    unfold Resume.OpenPartial. rewrite Hz, Hbusy. by eexists _, _, _. }
  rewrite HP in Hpc. destruct e; try done; by apply Hpc.
Qed.

(** ** Witnesses *)

(** Node "z" lacks the blob; "a" cannot be reached and "b" serves it whole, having no
    manifest of it and no pieces. *)
Definition rl_hash : HashEnv := PiecePullSpec.pp_hash.
Definition rl_text : HashText := String.string_of_list_byte.
Definition rl_parse : HashParse := λ s, if bool_decide (s = "") then None else Some (String.list_byte_of_string s).
Definition rl_bytes : list byte := SwarmSpec.sw_bytes.
Definition rl_blob : Hash := x2a :: rl_bytes.
Definition rl_key : string := String.string_of_list_byte rl_blob.

Definition rl_peer (name : string) (self : bool) : PeerRow :=
  mkPeerRow name ("https://" +:+ name) "reachable" "full" [x07] self.
Definition rl_catalog (holders : list string) (size : Z) : Catalog :=
  mkCatalog {[rl_key := mkRow size None]} [] ∅ ∅ ∅ [] ∅ []
    (list_to_map ((λ o, ((rl_key, o), mkReplicaRow "present" 3 None None)) <$> holders))
    {["a" := rl_peer "a" false; "b" := rl_peer "b" false; "z" := rl_peer "z" true]} [] [].
Definition rl_world (holders : list string) (size : Z) : World := mkWorld (rl_catalog holders size) (mkDisk ∅ ∅ ∅).

Definition rl_chunks : Resume.Env :=
  Resume.mkEnv true false (λ _, false) (λ _, false) false None (λ _ _, Resume.NotFound) (λ _ _, true) (λ _ _, Resume.Unreachable false).
Definition rl_attempt (i : nat) : Attempt :=
  mkAttempt true (if (i =? 0)%nat then MUnreachable false else MAnswered 404 true None)
    (if (i =? 0)%nat then Resume.Unreachable false else Resume.Answered 200 rl_bytes false)
    rl_chunks [] false false false Links.
Definition rl_speaks (src : Source) : option (list string) :=
  Some (if bool_decide (SourcePeerID src = "a") then [SpeaksPieceExchange] else []).
Definition rl_out : Outside :=
  mkOutside rl_attempt rl_speaks (PiecePullSpec.pp_env false) ([], "") false Z.of_nat.
Definition rl_payload : ReplicateBlobPayload := mkPayload rl_key "z".
Definition rl_env : Env := mkEnv (λ _ w, w) (λ _, Fine) (λ _, false) (λ _, 5%Z).
#[local] Abbreviation rl_run := (@ReplicateBlobHandler rl_hash rl_text rl_parse rl_env "z" rl_out (Some rl_payload)).

Lemma rl_quiet : quiet rl_env.
Proof. done. Qed.
Lemma rl_parses : @Hash_Parse rl_parse (pBlobHash rl_payload) = Some rl_blob.
Proof. by vm_compute. Qed.
Lemma rl_member holders size : member rl_payload (rl_world holders size).
Proof. by eexists. Qed.
Lemma rl_not_here holders size : ¬ @here rl_text rl_blob (rl_world holders size).
Proof. intros [f Hf]. by vm_compute in Hf. Qed.
Lemma rl_known holders size : blobs (cat (rl_world holders size)) !! @Hash_String rl_text rl_blob = Some (mkRow size None).
Proof. by vm_compute. Qed.

Definition rl_source (id : string) : Source := mkPeerSource id id ("https://" +:+ id) [x07] "reachable".

Lemma rl_sources : BlobSources (@Hash_String rl_text rl_blob) "z" (cat (rl_world ["a"; "b"] 3)) = [rl_source "a"; rl_source "b"].
Proof. by vm_compute. Qed.

Lemma replicate_guarantee_witness :
  ∃ s' r, rl_run (mkSt (rl_world ["a"; "b"] 3) 0 []) = (s', r) ∧ @sound rl_hash rl_text "z" (world s') ∧
    rtc (turn rl_env (@owns rl_hash rl_text rl_blob "z")) (rl_world ["a"; "b"] 3) (world s').
Proof.
  destruct (rl_run (mkSt (rl_world ["a"; "b"] 3) 0 [])) as [s' r] eqn:E. exists s', r. split; [reflexivity|].
  destruct (@replicate_guarantee rl_hash rl_text rl_parse rl_env "z" rl_out rl_blob rl_payload
    (mkSt (rl_world ["a"; "b"] 3) 0 []) rl_parses) as [Hr Hs].
  rewrite E in Hr, Hs. split; [|exact Hr]. apply Hs; [intros n w Hw; exact Hw|].
  split; [intros k f Hk; discriminate Hk|]. intros k (row & Hk & _). exfalso. revert Hk. cbn.
  rewrite !lookup_insert_ne by (intros [=]). by rewrite lookup_empty.
Defined.

Lemma replicate_checks_witness :
  ∃ s', @ReplicateBlobHandler rl_hash rl_text rl_parse rl_env "z" rl_out (Some (mkPayload rl_key "x")) (mkSt (rl_world [] 3) 0 [])
        = (s', inr (Refused ErrUnknownPeer)) ∧ world s' = rl_world [] 3.
Proof.
  destruct (@replicate_checks rl_hash rl_text rl_parse rl_env "z" rl_out (mkPayload rl_key "x") rl_blob (rl_world [] 3)
    (mkRow 3 None) (mkFile [] 0) rl_quiet) as (_ & H & _).
  assert (peers (cat (rl_world [] 3)) !! "x" = None) as Hn by (by vm_compute).
  destruct (proj1 (H rl_parses) Hn (mkSt (rl_world [] 3) 0 []) eq_refl) as (s' & v & E & -> & Hw).
  exists s'. split; [exact E|exact Hw].
Defined.

Lemma rl_serves : @serves rl_hash rl_text rl_parse (attempts rl_out 1) (rl_source "b") rl_bytes.
Proof. by apply (@serves_whole rl_hash rl_text rl_parse _ _ _ ErrSourceHasNoManifest). Qed.

(** The first source gives no bytes. *)
Lemma rl_clean j s e :
  (j < 1)%nat → [rl_source "a"; rl_source "b"] !! j = Some s →
  @gives rl_hash rl_text rl_parse rl_out rl_blob j s (inl e) → is_corruption e = false.
Proof.
  intros Hj Hs (at_ & d & Hg). destruct j as [|j]; [|lia]. injection Hs as <-. vm_compute in Hg. by injection Hg as <-.
Qed.

Lemma replicate_sources_witness :
  ∃ s' v, rl_run (mkSt (rl_world ["a"; "b"] 3) 0 []) = (s', inr v) ∧
    @settled rl_hash rl_text rl_parse "z" rl_out rl_blob 0 [] [rl_source "a"; rl_source "b"] (rl_world ["a"; "b"] 3) (world s') v.
Proof.
  destruct (@replicate_sources rl_hash rl_text rl_parse rl_env "z" rl_out rl_payload rl_blob (rl_world ["a"; "b"] 3)
    (rl_source "a") [rl_source "b"] rl_quiet rl_parses (rl_member _ _) eq_refl (rl_not_here _ _)
    (ex_intro _ _ (rl_known _ _)) eq_refl rl_sources (mkSt (rl_world ["a"; "b"] 3) 0 []) eq_refl) as (s' & v & E & Hset & _).
  exists s', v. split; [exact E|exact Hset].
Defined.

Lemma replicate_completes_witness :
  ∃ s', rl_run (mkSt (rl_world ["a"; "b"] 3) 0 []) = (s', inr Done) ∧ present (cat (world s')) rl_key "z".
Proof.
  assert (BlobSources (@Hash_String rl_text (@hash rl_hash rl_bytes)) "z" (cat (rl_world ["a"; "b"] 3)) = [rl_source "a"; rl_source "b"])
    as Hs by exact rl_sources.
  pose proof (@replicate_completes rl_hash rl_text rl_parse rl_env "z" rl_out rl_payload rl_bytes (rl_world ["a"; "b"] 3) 1
    (rl_source "b")) as Hc.
  cbv zeta in Hc. rewrite Hs in Hc.
  destruct (Hc rl_quiet rl_parses eq_refl (rl_member _ _) eq_refl (rl_not_here _ _) (ex_intro _ _ (rl_known _ _)) eq_refl eq_refl
    rl_serves rl_clean (mkSt (rl_world ["a"; "b"] 3) 0 []) eq_refl) as (s' & v & E & Hor).
  exists s'. destruct Hor as [(-> & _ & Hp)|(m & other & Hm & _)]; [split; [exact E|exact Hp]|].
  vm_compute in Hm. discriminate Hm.
Defined.

Lemma rl_asks : candidates "z" rl_out (Peers (cat (rl_world [] 3))) = [Swarm.Peer (rl_source "a"); Swarm.WebSeed (rl_source "b")].
Proof. by vm_compute. Qed.
Lemma rl_nobody size : BlobSources (@Hash_String rl_text rl_blob) "z" (cat (rl_world [] size)) = [].
Proof. by vm_compute. Qed.

(** The session of the example assembles the blob from what its two sources have. *)
Lemma rl_session :
  match @PiecePull.PullPieces rl_hash (session rl_out) rl_blob 3 [Swarm.Peer (rl_source "a"); Swarm.WebSeed (rl_source "b")]
          (pieceNodeOf rl_out rl_key (disk (rl_world [] 3))) with
  | Some (_, o, None) => PiecePull.Bytes o = 3%Z
  | _ => False
  end.
Proof. by vm_compute. Qed.

Lemma replicate_pieces_witness :
  ∃ s', rl_run (mkSt (rl_world [] 3) 0 []) = (s', inr Done) ∧ @rowIs rl_text "z" rl_blob (cat (world s')) "present" 3.
Proof.
  assert (candidates "z" rl_out (Peers (cat (rl_world [] 3))) ≠ []) as Hne by (by rewrite rl_asks).
  destruct (@replicate_pieces rl_hash rl_text rl_parse rl_env "z" rl_out rl_payload rl_blob (rl_world [] 3) (mkRow 3 None)
    rl_quiet rl_parses (rl_member _ _) eq_refl (rl_not_here _ _) (rl_known _ _) eq_refl (rl_nobody _) Hne
    (mkSt (rl_world [] 3) 0 []) eq_refl) as (s' & v & E & _ & Hp).
  unfold pieced in Hp. rewrite rl_known, rl_asks in Hp. pose proof rl_session as Hs. revert Hp Hs.
  change (default 0%Z (rSize <$> Some (mkRow 3 None))) with 3%Z.
  change (@Hash_String rl_text rl_blob) with rl_key.
  destruct (@PiecePull.PullPieces _ _ _ _ _ _) as [[[n o] [e|]]|]; [intros _ []| |intros _ []].
  intros (-> & _ & Hrow & _) Hb. exists s'. rewrite Hb in Hrow. split; [exact E|exact Hrow].
Defined.

Lemma unstarted_is_corrupt_witness :
  ∃ s' v, rl_run (mkSt (rl_world [] 0) 0 []) = (s', inr v) ∧ @rowIs rl_text "z" rl_blob (cat (world s')) "corrupt" 0.
Proof.
  assert (candidates "z" rl_out (Peers (cat (rl_world [] 0))) ≠ []) as Hne by (by vm_compute).
  assert (¬ present (cat (rl_world [] 0)) rl_key "z") as Hn by (intros (r & Hr & _); by vm_compute in Hr).
  assert (∃ e, Pieces.For 0 = inl e) as Hf by (eexists; vm_compute; reflexivity).
  destruct (@unstarted_is_corrupt rl_hash rl_text rl_parse rl_env "z" rl_out rl_payload rl_blob (rl_world [] 0) (mkRow 0 None)
    rl_quiet rl_parses (rl_member _ _) eq_refl (rl_not_here _ _) (rl_known _ _) eq_refl (rl_nobody _) Hne Hn (or_introl Hf)
    (mkSt (rl_world [] 0) 0 []) eq_refl) as (s' & v & E & Hrow).
  exists s', v. split; [exact E|exact Hrow].
Defined.
