(* ===== verification/GoEncoding.v ===== *)
(** * GoEncoding: the text encodings of Go's standard library

    Models what the code calls of [strings] (Split, LastIndex, Contains, CutPrefix on
    bytes), [strconv] (ParseInt and Atoi in base 10) and encoding/base64 (RawURLEncoding:
    no padding, not strict, line breaks skipped), with the round trips the callers need. *)

From S2P Require Import Prelude GoText GoPath GoScan.

(** ** Strings *)

(** [strings.Split] with a separator of one byte. *)
Fixpoint SplitByte (sep : ascii) (s : string) : list string :=
  match s with
  | EmptyString => [""]
  | String c t =>
      if bool_decide (c = sep) then "" :: SplitByte sep t
      else match SplitByte sep t with
           | e :: es => String c e :: es
           | [] => [String c ""]
           end
  end.

(** [s[:i]] and [s[i+1:]] for [i] the [strings.LastIndex] of one byte. *)
Fixpoint CutLast (sep : ascii) (s : string) : option (string * string) :=
  match s with
  | EmptyString => None
  | String c t =>
      match CutLast sep t with
      | Some (a, b) => Some (String c a, b)
      | None => if bool_decide (c = sep) then Some ("", t) else None
      end
  end.

Fixpoint CutPrefix (s pre : string) : option string :=
  match pre, s with
  | EmptyString, _ => Some s
  | String p pre', String c t => if bool_decide (p = c) then CutPrefix t pre' else None
  | String _ _, EmptyString => None
  end.

Definition HasPrefix (s pre : string) : bool := bool_decide (is_Some (CutPrefix s pre)).

Fixpoint Contains (s sub : string) : bool :=
  HasPrefix s sub || match s with EmptyString => false | String _ t => Contains t sub end.

(** [strings.TrimRight] of one byte. *)
Fixpoint TrimRightByte (b : ascii) (s : string) : string :=
  match s with
  | EmptyString => ""
  | String c t =>
      match TrimRightByte b t with
      | EmptyString => if bool_decide (c = b) then "" else String c ""
      | r => String c r
      end
  end.

(** [strings.SplitN] with a separator of one byte and a positive count. *)
Fixpoint SplitN (n : nat) (sep : ascii) (s : string) : list string :=
  match n with
  | O => []
  | S O => [s]
  | S n => match Cut sep s with Some (a, b) => a :: SplitN n sep b | None => [s] end
  end.

(** [strings.ToUpper] and [strings.EqualFold], on ASCII. *)
Definition upper_ascii (c : ascii) : ascii :=
  let n := nat_of_ascii c in
  if (decide (97 ≤ n ∧ n ≤ 122))%nat then ascii_of_nat (n - 32) else c.

Fixpoint ToUpper (s : string) : string :=
  match s with
  | EmptyString => EmptyString
  | String c s => String (upper_ascii c) (ToUpper s)
  end.

Definition EqualFold (s t : string) : bool := bool_decide (ToLower s = ToLower t).

(** ** Numbers *)

Fixpoint allDigits (s : string) : bool :=
  match s with
  | EmptyString => true
  | String c t => bool_decide (is_Some (digitVal 10 c)) && allDigits t
  end.

Definition readNat (s : string) : option N :=
  if bool_decide (s = "") then None else if allDigits s then Some (readDigits 10 0 s) else None.

(** [strconv.ParseInt(s, 10, 64)], and [strconv.Atoi] where an [int] has 64 bits. *)
Definition ParseInt (s : string) : option Z :=
  match s with
  | String "-" t => n ← readNat t; if (n <=? 2 ^ 63)%N then Some (- Z.of_N n)%Z else None
  | String "+" t => n ← readNat t; if (n <? 2 ^ 63)%N then Some (Z.of_N n) else None
  | _ => n ← readNat s; if (n <? 2 ^ 63)%N then Some (Z.of_N n) else None
  end.

(** ** base64.RawURLEncoding *)

Definition b64char (n : N) : ascii :=
  if (n <? 26)%N then ascii_of_N (65 + n)
  else if (n <? 52)%N then ascii_of_N (71 + n)
  else if (n <? 62)%N then ascii_of_N (n - 4)
  else if (n =? 62)%N then "-" else "_".

Definition b64val (c : ascii) : option N :=
  let n := N_of_ascii c in
  if (65 <=? n)%N && (n <=? 90)%N then Some (n - 65)%N
  else if (97 <=? n)%N && (n <=? 122)%N then Some (n - 71)%N
  else if (48 <=? n)%N && (n <=? 57)%N then Some (n + 4)%N
  else if bool_decide (c = "-"%char) then Some 62%N
  else if bool_decide (c = "_"%char) then Some 63%N
  else None.

Fixpoint EncodeToString (s : string) : string :=
  match s with
  | String a (String b (String c t)) =>
      let a := N_of_ascii a in let b := N_of_ascii b in let c := N_of_ascii c in
      String (b64char (a / 4)) (String (b64char (a mod 4 * 16 + b / 16))
        (String (b64char (b mod 16 * 4 + c / 64)) (String (b64char (c mod 64)) (EncodeToString t))))
  | String a (String b EmptyString) =>
      let a := N_of_ascii a in let b := N_of_ascii b in
      String (b64char (a / 4)) (String (b64char (a mod 4 * 16 + b / 16))
        (String (b64char (b mod 16 * 4)) ""))
  | String a EmptyString =>
      let a := N_of_ascii a in String (b64char (a / 4)) (String (b64char (a mod 4 * 16)) "")
  | EmptyString => ""
  end.

(** The sextets of the input; a line break is skipped, anything else that is not of the
    alphabet refuses the whole. *)
Fixpoint sextets (s : string) : option (list N) :=
  match s with
  | EmptyString => Some []
  | String c t =>
      if bool_decide (c = "010"%char ∨ c = "013"%char) then sextets t
      else n ← b64val c; (n ::.) <$> sextets t
  end.

(** Four sextets are three bytes; two or three at the end are one or two, whose spare bits
    are ignored, and one alone is an error. *)
Fixpoint unpack (l : list N) : option string :=
  match l with
  | a :: b :: c :: d :: t =>
      String (ascii_of_N (a * 4 + b / 16)) ∘ String (ascii_of_N (b mod 16 * 16 + c / 4)) ∘
        String (ascii_of_N (c mod 4 * 64 + d)) <$> unpack t
  | [a; b; c] => Some (String (ascii_of_N (a * 4 + b / 16)) (String (ascii_of_N (b mod 16 * 16 + c / 4)) ""))
  | [a; b] => Some (String (ascii_of_N (a * 4 + b / 16)) "")
  | [_] => None
  | [] => Some ""
  end.

Definition DecodeString (s : string) : option string := sextets s ≫= unpack.

(** ** Facts on strings *)

Lemma app_nil_l (s : string) : "" +:+ s = s.
Proof. reflexivity. Qed.

Lemma app_cons_l c (s t : string) : String c s +:+ t = String c (s +:+ t).
Proof. reflexivity. Qed.

Lemma SplitByte_nonempty sep s : SplitByte sep s ≠ [].
Proof. destruct s as [|c s]; cbn; [done|]. case_bool_decide; [done|]. by destruct (SplitByte sep s). Qed.

Lemma SplitByte_one sep s : has_byte sep s = false → SplitByte sep s = [s].
Proof.
  induction s as [|c s IH]; cbn; [done|]. intros [Hc Hs]%orb_false_iff.
  rewrite bool_decide_eq_false in Hc. rewrite bool_decide_eq_false_2; [|congruence]. by rewrite IH.
Qed.

Lemma SplitByte_app sep s t :
  has_byte sep s = false → SplitByte sep (s +:+ String sep t) = s :: SplitByte sep t.
Proof.
  induction s as [|c s IH]; rewrite ?app_nil_l, ?app_cons_l; cbn.
  - by rewrite bool_decide_eq_true_2.
  - intros [Hc Hs]%orb_false_iff. rewrite bool_decide_eq_false in Hc.
    rewrite bool_decide_eq_false_2; [|congruence]. by rewrite IH.
Qed.

(** [Split] undoes [Join] of elements without the separator. *)
Lemma SplitByte_Join sep (l : list string) :
  l ≠ [] → Forall (λ e, has_byte sep e = false) l →
  SplitByte sep (Join l (String sep "")) = l.
Proof.
  intros Hne HF. induction HF as [|e l He HF IH]; [done|].
  destruct l as [|e' l']; [by apply SplitByte_one|].
  change (Join (e :: e' :: l') (String sep "")) with (e +:+ String sep (Join (e' :: l') (String sep ""))).
  rewrite SplitByte_app by done. by rewrite IH.
Qed.

Lemma CutLast_none sep s : CutLast sep s = None ↔ has_byte sep s = false.
Proof.
  induction s as [|c s IH]; cbn; [done|].
  destruct (CutLast sep s) as [[a b]|].
  - split; [done|]. intros [_ Hs]%orb_false_iff. by apply IH in Hs.
  - rewrite (proj1 IH eq_refl), orb_false_r. by case_bool_decide.
Qed.

Lemma CutLast_app sep s t : has_byte sep t = false → CutLast sep (s +:+ String sep t) = Some (s, t).
Proof.
  intros Ht. apply CutLast_none in Ht. induction s as [|c s IH]; rewrite ?app_nil_l, ?app_cons_l; cbn.
  - rewrite Ht. by rewrite bool_decide_eq_true_2.
  - by rewrite IH.
Qed.

Lemma CutLast_spec sep s a b : CutLast sep s = Some (a, b) → s = a +:+ String sep b ∧ has_byte sep b = false.
Proof.
  revert a. induction s as [|c s IH]; cbn; [done|]. intros a.
  destruct (CutLast sep s) as [[a' b']|] eqn:E.
  - intros [= <- <-]. destruct (IH _ eq_refl) as [-> ?]. done.
  - case_bool_decide; [|done]. intros [= <- <-]. subst. split; [done|]. by apply CutLast_none.
Qed.

Lemma CutPrefix_app pre t : CutPrefix (pre +:+ t) pre = Some t.
Proof. induction pre as [|c p IH]; rewrite ?app_nil_l, ?app_cons_l; cbn; [by destruct t|]. by rewrite bool_decide_eq_true_2. Qed.

Lemma CutPrefix_spec s pre t : CutPrefix s pre = Some t ↔ s = pre +:+ t.
Proof.
  split; [|intros ->; apply CutPrefix_app].
  revert s. induction pre as [|c p IH]; intros s.
  - destruct s; cbn; intros H; by injection H.
  - destruct s as [|c' s]; cbn; [done|]. case_bool_decide; [|done]. subst. intros ->%IH. done.
Qed.

Lemma HasPrefix_spec s pre : HasPrefix s pre = true ↔ ∃ t, s = pre +:+ t.
Proof.
  unfold HasPrefix. rewrite bool_decide_eq_true. split.
  - intros [t Ht]. exists t. by apply CutPrefix_spec.
  - intros [t Ht]. exists t. by apply CutPrefix_spec.
Qed.

Lemma string_app_assoc (a b c : string) : (a +:+ b) +:+ c = a +:+ b +:+ c.
Proof. induction a as [|x a IH]; rewrite ?app_nil_l, ?app_cons_l; [done|]. by rewrite IH. Qed.

Lemma string_app_nil (s : string) : s +:+ "" = s.
Proof. induction s as [|c s IH]; rewrite ?app_nil_l, ?app_cons_l; [done|]. by f_equal. Qed.

Lemma Contains_spec s sub : Contains s sub = true ↔ ∃ a b, s = a +:+ sub +:+ b.
Proof.
  induction s as [|c s IH]; cbn; rewrite orb_true_iff, HasPrefix_spec.
  - split.
    + intros [[t Ht]|[=]]. exists "", t. done.
    + intros (a & b & H). left. exists b. by destruct a.
  - rewrite IH. split.
    + intros [[t Ht]|(a & b & ->)]; [by exists "", t|by exists (String c a), b].
    + intros ([|c' a] & b & H); [left; by exists b|]. right. exists a, b. rewrite app_cons_l in H. by injection H as -> ->.
Qed.

Lemma length_app_s s t : String.length (s +:+ t) = (String.length s + String.length t)%nat.
Proof. induction s as [|c s IH]; rewrite ?app_nil_l, ?app_cons_l; cbn; [done|]. by rewrite IH. Qed.

(** ** Facts on numbers *)

Lemma allDigits_pretty x s : allDigits (pretty_N_go x s) = allDigits s.
Proof.
  revert s. induction (N.lt_wf_0 x) as [x _ IH]; intros s.
  destruct (decide (0 < x)%N) as [Hx|Hx].
  - rewrite pretty_N_go_step by done. rewrite IH by (apply N.div_lt; lia). cbn [allDigits].
    rewrite pretty_char_digit by (apply N.mod_lt; done). by rewrite bool_decide_eq_true_2.
  - assert (x = 0)%N as -> by lia. by rewrite pretty_N_go_0.
Qed.

Lemma readNat_pretty (n : N) : readNat (pretty n) = Some n.
Proof.
  unfold readNat, pretty, pretty_N. case_decide as Hn; [by subst|].
  destruct (pretty_go_head n "") as (c & t & E & _); [lia|].
  rewrite bool_decide_eq_false_2 by (by rewrite E). rewrite allDigits_pretty. cbn [allDigits].
  by rewrite readDigits_pretty.
Qed.

Lemma FormatInt_nat (n : N) : FormatInt (Z.of_N n) = pretty n.
Proof. by destruct n. Qed.

Lemma FormatInt_neg (p : positive) : FormatInt (Z.neg p) = String "-" (pretty (N.pos p)).
Proof. reflexivity. Qed.

Lemma ParseInt_plain (n : N) : (n < 2 ^ 63)%N → ParseInt (pretty n) = Some (Z.of_N n).
Proof.
  intros Hn. trans (n' ← readNat (pretty n); if (n' <? 2 ^ 63)%N then Some (Z.of_N n') else None).
  - unfold pretty, pretty_N. case_decide; [done|].
    destruct (pretty_go_head n "") as (c & t & -> & Hv & _); [lia|].
    by destruct c as [[][][][][][][][]].
  - rewrite readNat_pretty. cbn [mbind option_bind]. by rewrite (proj2 (N.ltb_lt _ _)).
Qed.

Lemma ParseInt_FormatInt z : (- 2 ^ 63 ≤ z < 2 ^ 63)%Z → ParseInt (FormatInt z) = Some z.
Proof.
  intros Hz. destruct (decide (0 ≤ z)%Z) as [H0|H0].
  - rewrite <- (Z2N.id z) by done. rewrite FormatInt_nat. apply ParseInt_plain. lia.
  - destruct z as [|p|p]; [lia..|]. rewrite FormatInt_neg. cbn [ParseInt].
    rewrite readNat_pretty. cbn [mbind option_bind]. by rewrite (proj2 (N.leb_le _ _)) by lia.
Qed.

Lemma length_pretty_go k x s : (x < 10 ^ N.of_nat k)%N → (String.length (pretty_N_go x s) ≤ k + String.length s)%nat.
Proof.
  revert x s. induction k as [|k IH]; intros x s Hx.
  - cbn in Hx. assert (x = 0)%N as -> by lia. by rewrite pretty_N_go_0.
  - destruct (decide (0 < x)%N) as [H|H].
    + rewrite pretty_N_go_step by done. rewrite Nat2N.inj_succ, N.pow_succ_r' in Hx.
      etrans; [apply IH; apply N.Div0.div_lt_upper_bound; lia|]. cbn. lia.
    + assert (x = 0)%N as -> by lia. rewrite pretty_N_go_0. lia.
Qed.

Lemma length_FormatInt z : (- 2 ^ 63 ≤ z < 2 ^ 63)%Z → (String.length (FormatInt z) ≤ 20)%nat.
Proof.
  intros Hz. assert (∀ n : N, (n ≤ 2 ^ 63)%N → (String.length (pretty n) ≤ 19)%nat) as Hn.
  { intros n Hn. unfold pretty, pretty_N. case_decide; [cbn; lia|].
    etrans; [apply (length_pretty_go 19); lia|]. cbn. lia. }
  destruct (decide (0 ≤ z)%Z).
  - rewrite <- (Z2N.id z), FormatInt_nat by done. etrans; [apply Hn; lia|lia].
  - destruct z as [|p|p]; [lia..|]. rewrite FormatInt_neg. cbn [String.length].
    pose proof (Hn (N.pos p) ltac:(lia)). lia.
Qed.

(** ** Facts on base64 *)

Lemma all_below (P : N → bool) k :
  forallb P (N.of_nat <$> seq 0 k) = true → ∀ n, (n < N.of_nat k)%N → P n = true.
Proof.
  intros H n Hn. rewrite forallb_forall in H. apply H. rewrite <- (N2Nat.id n).
  apply in_map, in_seq. lia.
Qed.

Lemma b64char_ok n : (n < 64)%N →
  b64val (b64char n) = Some n ∧ b64char n ≠ "010"%char ∧ b64char n ≠ "013"%char.
Proof.
  pose (P n := bool_decide (b64val (b64char n) = Some n ∧ b64char n ≠ "010"%char ∧ b64char n ≠ "013"%char)).
  intros Hn. enough (P n = true) as H by (by apply bool_decide_eq_true in H).
  apply (all_below P 64); [|done]. by vm_compute.
Qed.

Lemma sextets_char n t : (n < 64)%N → sextets (String (b64char n) t) = (n ::.) <$> sextets t.
Proof.
  intros Hn. destruct (b64char_ok n Hn) as (Hv & H1 & H2). cbn.
  rewrite bool_decide_eq_false_2 by naive_solver. by rewrite Hv.
Qed.

Lemma N_of_ascii_lt c : (N_of_ascii c < 256)%N.
Proof. apply N_ascii_bounded. Qed.

(** Arithmetic on the bytes at hand. *)
#[local] Ltac bytes :=
  repeat match goal with
    | |- context [N_of_ascii ?c] =>
        lazymatch goal with
        | H : (N_of_ascii c < 256)%N |- _ => fail
        | _ => pose proof (N_of_ascii_lt c)
        end
    end; zify; Z.to_euclidean_division_equations; lia.

#[local] Ltac six := rewrite sextets_char by bytes.

Lemma ascii_back c n : n = N_of_ascii c → ascii_of_N n = c.
Proof. intros ->. apply ascii_N_embedding. Qed.

Lemma DecodeString_Encode s : DecodeString (EncodeToString s) = Some s.
Proof.
  unfold DecodeString. revert s. fix IH 1. intros [|a [|b [|c t]]]; [done| | |];
    cbn [EncodeToString]; repeat six; cbn [sextets fmap option_fmap option_map mbind option_bind unpack].
  - do 2 f_equal. apply ascii_back. bytes.
  - do 2 f_equal; [|f_equal]; apply ascii_back; bytes.
  - specialize (IH t). destruct (sextets (EncodeToString t)) as [l|]; [|done].
    cbn [fmap option_fmap option_map mbind option_bind unpack] in *. rewrite IH.
    cbn. repeat f_equal; apply ascii_back; bytes.
Qed.

Lemma EncodeToString_inj s t : EncodeToString s = EncodeToString t → s = t.
Proof. intros H. apply (f_equal DecodeString) in H. rewrite !DecodeString_Encode in H. by injection H. Qed.

(** The output has only bytes of the alphabet. *)
Lemma has_byte_Encode b s : b64val b = None → has_byte b (EncodeToString s) = false.
Proof.
  intros Hb.
  assert (∀ n, (n < 64)%N → bool_decide (b64char n = b) = false) as Hc.
  { intros n Hn. apply bool_decide_eq_false. intros <-. destruct (b64char_ok n Hn) as [E _]. congruence. }
  revert s. fix IH 1. intros [|x [|y [|z t]]]; [done| | |]; cbn [EncodeToString has_byte];
    rewrite ?Hc, ?IH; first [done|bytes].
Qed.

Lemma length_Encode s : String.length (EncodeToString s) = ((4 * String.length s + 2) / 3)%nat.
Proof.
  revert s. fix IH 1. intros [|x [|y [|z t]]]; [done..|].
  cbn [EncodeToString String.length]. rewrite (IH t).
  replace (4 * S (S (S (String.length t))) + 2)%nat with (4 * String.length t + 2 + 4 * 3)%nat by lia.
  rewrite Nat.div_add by done. lia.
Qed.

Lemma ParseInt_range s z : ParseInt s = Some z → (- 2 ^ 63 ≤ z < 2 ^ 63)%Z.
Proof.
  assert (∀ t, (n ← readNat t; if (n <? 2 ^ 63)%N then Some (Z.of_N n) else None) = Some z → (- 2 ^ 63 ≤ z < 2 ^ 63)%Z) as H1.
  { intros t. destruct (readNat t) as [n|]; cbn; [|done]. destruct (N.ltb_spec n (2 ^ 63)); [|done]. intros [= <-]. lia. }
  assert (∀ t, (n ← readNat t; if (n <=? 2 ^ 63)%N then Some (- Z.of_N n)%Z else None) = Some z → (- 2 ^ 63 ≤ z < 2 ^ 63)%Z) as H2.
  { intros t. destruct (readNat t) as [n|]; cbn; [|done]. destruct (N.leb_spec n (2 ^ 63)); [|done]. intros [= <-]. lia. }
  unfold ParseInt. repeat case_match; first [apply H1|apply H2].
Qed.

(** ** Searching around a separator *)

Lemma HasPrefix_sep b s t sub : has_byte b sub = false → HasPrefix (s +:+ String b t) sub = HasPrefix s sub.
Proof.
  revert s. induction sub as [|c sub IH]; intros s Hb.
  - unfold HasPrefix. by destruct s.
  - cbn in Hb. apply orb_false_iff in Hb as [Hc Hb]. rewrite bool_decide_eq_false in Hc.
    destruct s as [|d s].
    + rewrite app_nil_l. unfold HasPrefix. cbn [CutPrefix]. by rewrite (bool_decide_eq_false_2 (c = b)) by done.
    + rewrite app_cons_l. unfold HasPrefix. cbn [CutPrefix].
      destruct (bool_decide (c = d)); [by apply IH|done].
Qed.

Lemma Contains_sep b s t sub : has_byte b sub = false → sub ≠ "" →
  Contains (s +:+ String b t) sub = Contains s sub || Contains t sub.
Proof.
  intros Hb Hne. induction s as [|c s IH].
  - rewrite app_nil_l. cbn [Contains]. pose proof (HasPrefix_sep b "" t sub Hb) as E. rewrite app_nil_l in E.
    rewrite E. replace (HasPrefix "" sub) with false; [done|]. by destruct sub.
  - rewrite app_cons_l. cbn [Contains]. rewrite IH, <- app_cons_l, HasPrefix_sep by done. by rewrite orb_assoc.
Qed.

Lemma Contains_apart s sub : (String.length s ≤ String.length sub)%nat → s ≠ sub → Contains s sub = false.
Proof.
  intros Hl Hne. destruct (Contains s sub) eqn:E; [|done]. exfalso.
  apply Contains_spec in E as (a & b & ->). apply Hne.
  rewrite !length_app_s in Hl. destruct a; [|cbn in Hl; lia]. destruct b; [|cbn in Hl; lia].
  by rewrite app_nil_l, string_app_nil.
Qed.

(** The encodings of two texts, the first no longer than the second, differ when they do. *)
Lemma Contains_Encode s t : (String.length s ≤ String.length t)%nat → s ≠ t →
  Contains (EncodeToString s) (EncodeToString t) = false.
Proof.
  intros Hl Hne. apply Contains_apart; [|by intros E%EncodeToString_inj].
  rewrite !length_Encode. apply Nat.Div0.div_le_mono. lia.
Qed.
