(* ===== verification/GoTime.v ===== *)
(** * GoTime: instants, and the text a database compares them by

    Models src/internal/persistence/sqlite/timestamp.go and the layout the other packages
    store ([timeFormat], [time.RFC3339Nano]).  An instant is the integer of its nanoseconds
    since 1970 in UTC; its date is that of the proleptic Gregorian calendar, as in Go's
    [time].  Years before 0 or after 9999 print with a sign or more digits, as Go's do; the
    theorems are about the four-digit years. *)

From S2P Require Import Prelude GoText GoPath GoScan GoEncoding.
#[local] Open Scope Z_scope.

(** ** The calendar *)

(** The days from 0000-03-01 to 1970-01-01. *)
Definition epochDays : Z := 719468.

(** A 400-year cycle from March, split into centuries, four-year groups and years; a leap
    day is the last of its year. *)
Record Cycle := mkCycle { cEra : Z; cCentury : Z; cQuad : Z; cYear : Z; cDay : Z }.

Definition cycleOf (days : Z) : Cycle :=
  let d := days + epochDays in
  let doe := d mod 146097 in
  let c := Z.min (doe / 36524) 3 in
  let doc := doe - 36524 * c in
  let q := doc / 1461 in
  let doq := doc - 1461 * q in
  let y := Z.min (doq / 365) 3 in
  mkCycle (d / 146097) c q y (doq - 365 * y).

(** The year that begins in March, and the months since March of its first year. *)
Definition marchYear (k : Cycle) : Z := 400 * cEra k + 100 * cCentury k + 4 * cQuad k + cYear k.
Definition marchMonth (doy : Z) : Z := (5 * doy + 2) / 153.
Definition monthStart (mp : Z) : Z := (153 * mp + 2) / 5.

(** The months since year 0, and the day of the month from 1. *)
Definition monthIndex (days : Z) : Z :=
  let k := cycleOf days in 12 * marchYear k + marchMonth (cDay k) + 2.
Definition dayOfMonth (days : Z) : Z :=
  let k := cycleOf days in cDay k - monthStart (marchMonth (cDay k)) + 1.

Definition yearOf (days : Z) : Z := monthIndex days / 12.
Definition monthOf (days : Z) : Z := monthIndex days mod 12 + 1.

(** ** Instants *)

Definition nanosPerSecond : Z := 1000000000.
Definition Unix (t : Z) : Z := t / nanosPerSecond.
Definition nanoOf (t : Z) : Z := t mod nanosPerSecond.
Definition daysOf (t : Z) : Z := Unix t / 86400.
Definition secondOfDay (t : Z) : Z := Unix t mod 86400.

(** ** Layouts *)

(** The last [k] decimal digits of a natural number. *)
Fixpoint digits (k : nat) (n : N) : string :=
  match k with
  | O => ""
  | S k => digits k (n / 10) +:+ String (ascii_of_N (48 + n mod 10)) ""
  end.

(** [appendInt]: at least [k] digits, padded with zeros. *)
Definition pad (k : nat) (z : Z) : string :=
  let n := Z.to_N (Z.abs z) in
  (if z <? 0 then "-" else "") +:+
    (if (n <? 10 ^ N.of_nat k)%N then digits k n else FormatInt (Z.of_N n)).

(** "2006-01-02T15:04:05". *)
Definition dateTime (t : Z) : string :=
  let d := daysOf t in let s := secondOfDay t in
  pad 4 (yearOf d) +:+ "-" +:+ pad 2 (monthOf d) +:+ "-" +:+ pad 2 (dayOfMonth d) +:+ "T" +:+
  pad 2 (s / 3600) +:+ ":" +:+ pad 2 (s / 60 mod 60) +:+ ":" +:+ pad 2 (s mod 60).

(** The nine digits of the fraction, and what ".999999999" leaves of them. *)
Definition nineDigits (t : Z) : string := digits 9 (Z.to_N (nanoOf t)).
Definition trimmedFraction (t : Z) : string := TrimRightByte "0" (nineDigits t).

(** [sqlite.FormatTimestamp], the fixed-width layout. *)
Definition FormatTimestamp (t : Z) : string := dateTime t +:+ "." +:+ nineDigits t +:+ "Z".

(** [t.Format(time.RFC3339Nano)] of an instant in UTC. *)
Definition fraction (t : Z) : string :=
  match trimmedFraction t with EmptyString => "" | f => "." +:+ f end.
Definition RFC3339Nano (t : Z) : string := dateTime t +:+ fraction t +:+ "Z".

Example RFC3339Nano_ex :
  RFC3339Nano 1709164800150000000 = "2024-02-29T00:00:00.15Z" ∧ RFC3339Nano 0 = "1970-01-01T00:00:00Z" ∧
  FormatTimestamp (-1) = "1969-12-31T23:59:59.999999999Z".
Proof. by vm_compute. Qed.

(** The instants whose year has four digits. *)
Definition firstInstant : Z := -62167219200 * nanosPerSecond.
Definition lastInstant : Z := 253402300800 * nanosPerSecond - 1.
Definition four_digit (t : Z) : Prop := firstInstant ≤ t ≤ lastInstant.

(** ** The calendar is monotone *)

Definition in_cycle (days : Z) (k : Cycle) : Prop :=
  days + epochDays = 146097 * cEra k + 36524 * cCentury k + 1461 * cQuad k + 365 * cYear k + cDay k ∧
  0 ≤ cCentury k ≤ 3 ∧ 0 ≤ cQuad k ≤ 24 ∧ 0 ≤ cYear k ≤ 3 ∧ 0 ≤ cDay k ≤ 365 ∧
  365 * cYear k + cDay k ≤ 1460 ∧
  1461 * cQuad k + 365 * cYear k + cDay k ≤ 36524 ∧
  (cCentury k < 3 → 1461 * cQuad k + 365 * cYear k + cDay k < 36524) ∧
  (cYear k < 3 → cDay k < 365).

Lemma cycleOf_spec days : in_cycle days (cycleOf days).
Proof.
  unfold in_cycle, cycleOf. set (d := days + epochDays). cbn.
  assert (0 ≤ d mod 146097 < 146097) by (apply Z.mod_pos_bound; lia).
  pose proof (Z.div_mod d 146097 ltac:(lia)) as Hd. set (doe := d mod 146097) in *.
  assert (0 ≤ doe - 36524 * Z.min (doe / 36524) 3 ≤ 36524 ∧
          (Z.min (doe / 36524) 3 < 3 → doe - 36524 * Z.min (doe / 36524) 3 < 36524) ∧
          0 ≤ Z.min (doe / 36524) 3) as (Hc1 & Hc2 & Hc3)
    by (Z.to_euclidean_division_equations; lia).
  set (c := Z.min (doe / 36524) 3) in *. set (doc := doe - 36524 * c) in *.
  pose proof (Z.div_mod doc 1461 ltac:(lia)) as Hq.
  pose proof (Z.mod_pos_bound doc 1461 ltac:(lia)) as Hq2.
  set (q := doc / 1461) in *. replace (doc - 1461 * q) with (doc mod 1461) by lia.
  set (doq := doc mod 1461) in *.
  assert (0 ≤ Z.min (doq / 365) 3 ∧ 0 ≤ doq - 365 * Z.min (doq / 365) 3 ≤ 365 ∧
          (Z.min (doq / 365) 3 < 3 → doq - 365 * Z.min (doq / 365) 3 < 365)) as (Hy1 & Hy2 & Hy3)
    by (Z.to_euclidean_division_equations; lia).
  set (y := Z.min (doq / 365) 3) in *. assert (c ≤ 3 ∧ y ≤ 3) by lia. lia.
Qed.

(** A later day is in a later year, or later in the same. *)
Lemma marchYear_mono a b : a < b →
  marchYear (cycleOf a) < marchYear (cycleOf b) ∨
  marchYear (cycleOf a) = marchYear (cycleOf b) ∧ cDay (cycleOf a) < cDay (cycleOf b).
Proof.
  intros Hab. pose proof (cycleOf_spec a) as Ha. pose proof (cycleOf_spec b) as Hb.
  destruct (cycleOf a) as [e c q y d], (cycleOf b) as [e' c' q' y' d'].
  unfold in_cycle, marchYear in *. cbn in *.
  assert (e < e' ∨ e = e') as [He| <-] by lia; [lia|].
  assert (c < c' ∨ c = c') as [Hc| <-] by lia; [lia|].
  assert (q < q' ∨ q = q') as [Hq| <-] by lia; [lia|].
  assert (y < y' ∨ y = y') as [Hy| <-] by lia; lia.
Qed.

Lemma marchMonth_range doy : 0 ≤ doy ≤ 365 →
  0 ≤ marchMonth doy ≤ 11 ∧ 0 ≤ doy - monthStart (marchMonth doy) ≤ 30.
Proof. unfold marchMonth, monthStart. intros. Z.to_euclidean_division_equations; lia. Qed.

Lemma marchMonth_mono x y : x < y →
  marchMonth x < marchMonth y ∨
  marchMonth x = marchMonth y ∧ x - monthStart (marchMonth x) < y - monthStart (marchMonth y).
Proof.
  intros H. assert (marchMonth x ≤ marchMonth y) by (apply Z.div_le_mono; lia).
  destruct (decide (marchMonth x = marchMonth y)) as [E|E]; [right|left; lia].
  split; [done|]. rewrite E. lia.
Qed.

Lemma day_order a b : a < b →
  monthIndex a < monthIndex b ∨ monthIndex a = monthIndex b ∧ dayOfMonth a < dayOfMonth b.
Proof.
  intros Hab. pose proof (marchYear_mono a b Hab) as H. unfold monthIndex, dayOfMonth. cbv zeta.
  pose proof (cycleOf_spec a) as (_ & _ & _ & _ & Ha & _). pose proof (cycleOf_spec b) as (_ & _ & _ & _ & Hb & _).
  pose proof (marchMonth_range _ Ha). pose proof (marchMonth_range _ Hb).
  destruct H as [H|[Hy Hd]]; [left; lia|].
  destruct (marchMonth_mono _ _ Hd); [left; lia|right; lia].
Qed.

Lemma monthIndex_mono a b : a ≤ b → monthIndex a ≤ monthIndex b.
Proof. intros H. destruct (decide (a = b)) as [->|]; [lia|]. destruct (day_order a b); lia. Qed.

Lemma dayOfMonth_range d : 1 ≤ dayOfMonth d ≤ 31.
Proof.
  unfold dayOfMonth. pose proof (cycleOf_spec d) as (_ & _ & _ & _ & H & _).
  pose proof (marchMonth_range _ H). lia.
Qed.

Lemma monthOf_range d : 1 ≤ monthOf d ≤ 12.
Proof. unfold monthOf. pose proof (Z.mod_pos_bound (monthIndex d) 12 ltac:(lia)). lia. Qed.

Lemma yearOf_range t : four_digit t → 0 ≤ yearOf (daysOf t) ≤ 9999.
Proof.
  unfold four_digit, yearOf. intros H.
  assert (-719528 ≤ daysOf t ≤ 2932896) as [H1 H2].
  { unfold daysOf, Unix, firstInstant, lastInstant, nanosPerSecond in *.
    Z.to_euclidean_division_equations; lia. }
  apply monthIndex_mono in H1, H2.
  change (monthIndex (-719528)) with 0 in H1. change (monthIndex 2932896) with 119999 in H2.
  Z.to_euclidean_division_equations; lia.
Qed.

(** ** Comparing texts *)

(** [String.compare] of texts that begin alike. *)
Lemma compare_cons c d s t :
  String.compare (String c s) (String d t) =
    match Ascii.compare c d with Eq => String.compare s t | r => r end.
Proof. reflexivity. Qed.

Lemma ascii_compare_refl c : Ascii.compare c c = Eq.
Proof. unfold Ascii.compare. apply N.compare_refl. Qed.

Lemma compare_app p s t : String.compare (p +:+ s) (p +:+ t) = String.compare s t.
Proof.
  induction p as [|c p IH]; rewrite ?app_cons_l; [done|].
  by rewrite compare_cons, ascii_compare_refl.
Qed.

Lemma str_lt_compare s t : str_lt s t = match String.compare s t with Lt => true | _ => false end.
Proof.
  unfold str_lt, String.leb. rewrite (String.compare_antisym s t). by destruct (String.compare t s).
Qed.

Lemma digit_compare (x y : N) : (x < 10)%N → (y < 10)%N →
  Ascii.compare (ascii_of_N (48 + x)) (ascii_of_N (48 + y)) = (x ?= y)%N.
Proof.
  intros Hx Hy. unfold Ascii.compare. rewrite !N_ascii_embedding by lia.
  destruct (N.compare_spec x y), (N.compare_spec (48 + x) (48 + y)); first [done|lia].
Qed.

(** Texts of digits of one width compare as their numbers. *)
Lemma digits_compare k (n m : N) s t : (n < 10 ^ N.of_nat k)%N → (m < 10 ^ N.of_nat k)%N →
  String.compare (digits k n +:+ s) (digits k m +:+ t) =
    match (n ?= m)%N with Eq => String.compare s t | r => r end.
Proof.
  revert n m s t. induction k as [|k IH]; intros n m s t Hn Hm.
  - assert (n = 0 ∧ m = 0)%N as [-> ->] by (cbn in *; lia). done.
  - cbn [digits]. rewrite !string_app_assoc. rewrite Nat2N.inj_succ, N.pow_succ_r' in Hn, Hm.
    rewrite IH by (apply N.Div0.div_lt_upper_bound; lia).
    rewrite !app_cons_l, !app_nil_l, compare_cons.
    pose proof (N.mod_lt n 10 ltac:(lia)). pose proof (N.mod_lt m 10 ltac:(lia)). clear IH.
    rewrite digit_compare by done.
    pose proof (N.div_mod n 10 ltac:(lia)). pose proof (N.div_mod m 10 ltac:(lia)).
    generalize dependent (n / 10)%N. generalize dependent (m / 10)%N.
    generalize dependent (n mod 10)%N. generalize dependent (m mod 10)%N. intros rm Hrm rn Hrn qm Hqm qn Hqn.
    destruct (N.compare_spec qn qm), (N.compare_spec rn rm), (N.compare_spec n m); try done; exfalso; lia.
Qed.

Lemma pad_compare k (x y : Z) s t :
  (0 ≤ x < 10 ^ Z.of_nat k)%Z → (0 ≤ y < 10 ^ Z.of_nat k)%Z →
  String.compare (pad k x +:+ s) (pad k y +:+ t) =
    match x ?= y with Eq => String.compare s t | r => r end.
Proof.
  assert (∀ z, (0 ≤ z < 10 ^ Z.of_nat k)%Z →
    pad k z = digits k (Z.to_N z) ∧ (Z.to_N z < 10 ^ N.of_nat k)%N) as Hpad.
  { intros z Hz. assert (Z.to_N z < 10 ^ N.of_nat k)%N by lia. split; [|done]. unfold pad.
    rewrite Z.abs_eq by lia. by rewrite (proj2 (Z.ltb_ge _ _)), (proj2 (N.ltb_lt _ _)), app_nil_l by lia. }
  intros Hx Hy. destruct (Hpad x Hx) as [-> ?], (Hpad y Hy) as [-> ?].
  rewrite digits_compare by done. by rewrite Z2N.inj_compare by lia.
Qed.

(** Where one comparison decides unless it is a tie. *)
Definition then_compare (c r : comparison) : comparison := match c with Eq => r | _ => c end.

Definition secondCompare (a b : Z) : comparison :=
  let d := daysOf a in let e := daysOf b in let s := secondOfDay a in let u := secondOfDay b in
  then_compare (yearOf d ?= yearOf e) (then_compare (monthOf d ?= monthOf e)
    (then_compare (dayOfMonth d ?= dayOfMonth e) (then_compare (s / 3600 ?= u / 3600)
      (then_compare (s / 60 mod 60 ?= u / 60 mod 60) (s mod 60 ?= u mod 60))))).

Lemma secondOfDay_range t : 0 ≤ secondOfDay t < 86400.
Proof. by apply Z.mod_pos_bound. Qed.

Lemma dateTime_compare a b s t : four_digit a → four_digit b →
  String.compare (dateTime a +:+ s) (dateTime b +:+ t) =
    then_compare (secondCompare a b) (String.compare s t).
Proof.
  intros Ha%yearOf_range Hb%yearOf_range. unfold dateTime, secondCompare. rewrite !string_app_assoc.
  pose proof (monthOf_range (daysOf a)). pose proof (monthOf_range (daysOf b)).
  pose proof (dayOfMonth_range (daysOf a)). pose proof (dayOfMonth_range (daysOf b)).
  pose proof (secondOfDay_range a) as Hs. pose proof (secondOfDay_range b) as Hu.
  assert (∀ x, 0 ≤ x < 86400 → 0 ≤ x / 3600 < 10 ^ Z.of_nat 2 ∧ 0 ≤ x / 60 mod 60 < 10 ^ Z.of_nat 2 ∧
    0 ≤ x mod 60 < 10 ^ Z.of_nat 2) as Hx.
  { clear. cbn. intros. Z.to_euclidean_division_equations; lia. }
  destruct (Hx _ Hs) as (? & ? & ?), (Hx _ Hu) as (? & ? & ?).
  rewrite !pad_compare by (cbn in *; lia). repeat (rewrite compare_app, ?pad_compare by (cbn in *; lia)).
  unfold then_compare. repeat case_match; done.
Qed.

(** The civil fields decide as the seconds they are computed from. *)
Lemma dayCompare d e :
  then_compare (yearOf d ?= yearOf e) (then_compare (monthOf d ?= monthOf e) (dayOfMonth d ?= dayOfMonth e))
    = (d ?= e).
Proof.
  assert (∀ x y, x < y → then_compare (yearOf x ?= yearOf y)
    (then_compare (monthOf x ?= monthOf y) (dayOfMonth x ?= dayOfMonth y)) = Lt ∧
    then_compare (yearOf y ?= yearOf x)
    (then_compare (monthOf y ?= monthOf x) (dayOfMonth y ?= dayOfMonth x)) = Gt) as Hlt.
  { intros x y Hxy. apply day_order in Hxy. unfold yearOf, monthOf.
    pose proof (Z.div_mod (monthIndex x) 12 ltac:(lia)). pose proof (Z.div_mod (monthIndex y) 12 ltac:(lia)).
    pose proof (Z.mod_pos_bound (monthIndex x) 12 ltac:(lia)).
    pose proof (Z.mod_pos_bound (monthIndex y) 12 ltac:(lia)).
    generalize dependent (monthIndex x / 12). generalize dependent (monthIndex x mod 12).
    generalize dependent (monthIndex y / 12). generalize dependent (monthIndex y mod 12).
    intros ry Hry qy Hy rx Hrx qx Hx.
    split; unfold then_compare.
    - destruct (Z.compare_spec qx qy), (Z.compare_spec (rx + 1) (ry + 1)),
        (Z.compare_spec (dayOfMonth x) (dayOfMonth y)); try done; exfalso; lia.
    - destruct (Z.compare_spec qy qx), (Z.compare_spec (ry + 1) (rx + 1)),
        (Z.compare_spec (dayOfMonth y) (dayOfMonth x)); try done; exfalso; lia. }
  destruct (Z.compare_spec d e) as [->|H|H]; [by rewrite !Z.compare_refl|by apply Hlt|by apply Hlt].
Qed.

Lemma clockCompare s u : 0 ≤ s < 86400 → 0 ≤ u < 86400 →
  then_compare (s / 3600 ?= u / 3600) (then_compare (s / 60 mod 60 ?= u / 60 mod 60) (s mod 60 ?= u mod 60))
    = (s ?= u).
Proof.
  intros Hs Hu.
  assert (∀ x, 0 ≤ x → x = 3600 * (x / 3600) + 60 * (x / 60 mod 60) + x mod 60 ∧
    0 ≤ x / 60 mod 60 < 60 ∧ 0 ≤ x mod 60 < 60) as Hx by (intros; Z.to_euclidean_division_equations; lia).
  destruct (Hx s) as (Es & ? & ?), (Hx u) as (Eu & ? & ?); try lia. clear Hx.
  generalize dependent (s / 3600). generalize dependent (s / 60 mod 60). generalize dependent (s mod 60).
  generalize dependent (u / 3600). generalize dependent (u / 60 mod 60). generalize dependent (u mod 60).
  intros a Ha b Hb c Ec d Hd e He f Ef. unfold then_compare.
  destruct (Z.compare_spec f c), (Z.compare_spec e b), (Z.compare_spec d a), (Z.compare_spec s u);
    try done; exfalso; lia.
Qed.

Lemma secondCompare_Unix a b : secondCompare a b = (Unix a ?= Unix b).
Proof.
  trans (then_compare (daysOf a ?= daysOf b) (secondOfDay a ?= secondOfDay b)).
  - unfold secondCompare. rewrite <- (dayCompare (daysOf a)), <- (clockCompare (secondOfDay a)) by apply secondOfDay_range.
    unfold then_compare. by repeat case_match.
  - unfold daysOf, secondOfDay.
    pose proof (Z.div_mod (Unix a) 86400 ltac:(lia)). pose proof (Z.div_mod (Unix b) 86400 ltac:(lia)).
    pose proof (Z.mod_pos_bound (Unix a) 86400 ltac:(lia)). pose proof (Z.mod_pos_bound (Unix b) 86400 ltac:(lia)).
    unfold then_compare.
    destruct (Z.compare_spec (Unix a / 86400) (Unix b / 86400)),
      (Z.compare_spec (Unix a mod 86400) (Unix b mod 86400)), (Z.compare_spec (Unix a) (Unix b));
      try done; exfalso; lia.
Qed.

(** ** Fractions *)

Fixpoint repeatByte (n : nat) (c : ascii) : string :=
  match n with O => "" | S n => String c (repeatByte n c) end.

Lemma TrimRightByte_spec b s : ∃ n, s = TrimRightByte b s +:+ repeatByte n b.
Proof.
  induction s as [|c s [n IH]]; [by exists O|]. cbn [TrimRightByte].
  destruct (TrimRightByte b s) as [|c' r] eqn:E.
  - rewrite app_nil_l in IH. case_bool_decide as Hc; [exists (S n)|exists n]; by rewrite IH, ?Hc at 1.
  - exists n. by rewrite IH at 1.
Qed.

Lemma nano_range t : 0 ≤ nanoOf t < 10 ^ 9.
Proof. by apply Z.mod_pos_bound. Qed.

Lemma nineDigits_compare a b s t :
  String.compare (nineDigits a +:+ s) (nineDigits b +:+ t) =
    then_compare (nanoOf a ?= nanoOf b) (String.compare s t).
Proof.
  pose proof (nano_range a). pose proof (nano_range b). unfold nineDigits.
  rewrite digits_compare by lia. rewrite Z2N.inj_compare by lia. by destruct (nanoOf a ?= nanoOf b).
Qed.

Lemma instant_compare a b : (a ?= b) = then_compare (Unix a ?= Unix b) (nanoOf a ?= nanoOf b).
Proof.
  unfold Unix, nanoOf, nanosPerSecond.
  pose proof (Z.div_mod a 1000000000 ltac:(lia)). pose proof (Z.div_mod b 1000000000 ltac:(lia)).
  pose proof (Z.mod_pos_bound a 1000000000 ltac:(lia)). pose proof (Z.mod_pos_bound b 1000000000 ltac:(lia)).
  unfold then_compare.
  destruct (Z.compare_spec (a / 1000000000) (b / 1000000000)),
    (Z.compare_spec (a mod 1000000000) (b mod 1000000000)), (Z.compare_spec a b); try done; exfalso; lia.
Qed.

(** The fixed-width layout sorts as time does: of two instants with four-digit years,
    SQLite's byte comparison of their stored texts puts the earlier first, so an
    [ORDER BY] or a [<=] over the column is one over the instants. *)
Theorem timestamps_sort a b : four_digit a → four_digit b →
  str_lt (FormatTimestamp a) (FormatTimestamp b) = (a <? b).
Proof.
  intros Ha Hb. rewrite str_lt_compare. unfold FormatTimestamp.
  rewrite dateTime_compare, compare_app, nineDigits_compare, secondCompare_Unix by done.
  unfold Z.ltb. rewrite (instant_compare a b). unfold then_compare. by repeat case_match.
Qed.

(** Texts that part ways before either ends compare without what follows. *)
Lemma compare_diverge u v s t : HasPrefix v u = false → HasPrefix u v = false →
  String.compare (u +:+ s) (v +:+ t) = String.compare u v.
Proof.
  revert v. induction u as [|c u IH]; intros v Hu Hv; [by destruct v|].
  destruct v as [|d v]; [done|]. rewrite !app_cons_l, !compare_cons.
  unfold Ascii.compare.
  destruct (N.compare_spec (N_of_ascii c) (N_of_ascii d)) as [E|E|E]; try done.
  apply (f_equal ascii_of_N) in E. rewrite !ascii_N_embedding in E. subst d.
  unfold HasPrefix in Hu, Hv. cbn [CutPrefix] in Hu, Hv. rewrite !(bool_decide_eq_true_2 (c = c)) in Hu, Hv by done. by apply IH.
Qed.

Definition is_digit (c : ascii) : bool := bool_decide (is_Some (digitVal 10 c)).

Lemma digit_code c : is_digit c = true → (48 ≤ N_of_ascii c ≤ 57)%N.
Proof. by destruct c as [[][][][][][][][]]. Qed.

Lemma allDigits_app s t : allDigits (s +:+ t) = allDigits s && allDigits t.
Proof.
  induction s as [|c s IH]; rewrite ?app_nil_l, ?app_cons_l; [done|]. cbn [allDigits].
  by rewrite IH, andb_assoc.
Qed.

Lemma digits_allDigits k n : allDigits (digits k n) = true.
Proof.
  revert n. induction k as [|k IH]; intros n; [done|]. cbn [digits].
  rewrite allDigits_app, IH. cbn [allDigits].
  pose proof (N.mod_lt n 10 ltac:(lia)) as H.
  pose (P m := bool_decide (is_Some (digitVal 10 (ascii_of_N (48 + m))))).
  enough (P (n mod 10)%N = true) as E by (unfold P in E; by rewrite E).
  by apply (all_below P 10).
Qed.

(** Zeros are the least digits of their width. *)
Lemma zeros_least n r s : allDigits r = true → String.length r = n →
  String.compare (repeatByte n "0" +:+ s) (r +:+ s) ≠ Gt.
Proof.
  revert n. induction r as [|c r IH]; intros n Hd <-; cbn [String.length repeatByte].
  - rewrite <- (string_app_nil s), !app_nil_l, compare_app. done.
  - cbn in Hd. apply andb_prop in Hd as [Hc Hd]. rewrite !app_cons_l, compare_cons.
    apply digit_code in Hc. unfold Ascii.compare. change (N_of_ascii "0") with 48%N.
    destruct (N.compare_spec 48 (N_of_ascii c)); [by apply IH|done|lia].
Qed.

Lemma length_repeatByte n c : String.length (repeatByte n c) = n.
Proof. induction n; cbn; auto. Qed.

Lemma length_digits k n : String.length (digits k n) = k.
Proof. revert n. induction k as [|k IH]; intros n; [done|]. cbn [digits]. rewrite length_app_s, IH. cbn. lia. Qed.

Section same_second.
Context (a b : Z) (Hnano : nanoOf a < nanoOf b).

Lemma trimmed_ends : ∃ i j, nineDigits a = trimmedFraction a +:+ repeatByte i "0" ∧
  nineDigits b = trimmedFraction b +:+ repeatByte j "0".
Proof.
  destruct (TrimRightByte_spec "0" (nineDigits a)) as [i Hi].
  destruct (TrimRightByte_spec "0" (nineDigits b)) as [j Hj]. by exists i, j.
Qed.

Lemma nine_lt : String.compare (nineDigits a) (nineDigits b) = Lt.
Proof.
  rewrite <- (string_app_nil (nineDigits a)), <- (string_app_nil (nineDigits b)), nineDigits_compare.
  unfold then_compare. by destruct (Z.compare_spec (nanoOf a) (nanoOf b)); try lia.
Qed.

(** The later fraction does not begin the earlier one. *)
Lemma later_no_prefix : HasPrefix (trimmedFraction a) (trimmedFraction b) = false.
Proof.
  destruct trimmed_ends as (i & j & Ha & Hb).
  destruct (HasPrefix _ _) eqn:E; [|done]. apply HasPrefix_spec in E as [r Hr].
  pose proof nine_lt as Hlt. rewrite Ha, Hb, Hr, string_app_assoc, compare_app in Hlt.
  assert (String.length (nineDigits a) = String.length (nineDigits b)) as Hlen
    by (unfold nineDigits; by rewrite !length_digits).
  rewrite Ha, Hb, Hr, !length_app_s, !length_repeatByte in Hlen.
  pose proof (digits_allDigits 9 (Z.to_N (nanoOf a))) as Hd. fold (nineDigits a) in Hd.
  rewrite Ha, Hr, !allDigits_app in Hd. apply andb_prop in Hd as [Hd Hd2]. apply andb_prop in Hd as [_ Hd1].
  pose proof (zeros_least j (r +:+ repeatByte i "0") "") as Hz. rewrite !string_app_nil in Hz.
  rewrite allDigits_app, Hd1, Hd2, length_app_s, length_repeatByte in Hz.
  specialize (Hz eq_refl ltac:(lia)). rewrite String.compare_antisym, Hlt in Hz. done.
Qed.

Lemma fraction_compare :
  String.compare (fraction b +:+ "Z") (fraction a +:+ "Z") =
    if HasPrefix (trimmedFraction b) (trimmedFraction a) then Lt else Gt.
Proof.
  pose proof later_no_prefix as Hno. destruct trimmed_ends as (i & j & Ha & Hb).
  pose proof nine_lt as Hlt. unfold fraction.
  destruct (HasPrefix (trimmedFraction b) (trimmedFraction a)) eqn:E.
  - apply HasPrefix_spec in E as [r Hr].
    destruct r as [|c r].
    { exfalso. rewrite string_app_nil in Hr. rewrite Hr in Hno.
      enough (HasPrefix (trimmedFraction a) (trimmedFraction a) = true) by congruence.
      apply HasPrefix_spec. exists "". by rewrite string_app_nil. }
    assert (is_digit c = true) as Hc%digit_code.
    { pose proof (digits_allDigits 9 (Z.to_N (nanoOf b))) as Hd. fold (nineDigits b) in Hd.
      rewrite Hb, Hr, !allDigits_app in Hd. apply andb_prop in Hd as [Hd _]. apply andb_prop in Hd as [_ Hd].
      cbn in Hd. by apply andb_prop in Hd as [? _]. }
    rewrite Hr. destruct (trimmedFraction a) as [|x s]; [done|]. rewrite app_cons_l.
    rewrite (string_app_assoc "."), (string_app_assoc "."), compare_app, <- app_cons_l.
    rewrite string_app_assoc, compare_app, app_cons_l. rewrite compare_cons.
    unfold Ascii.compare. change (N_of_ascii "Z") with 90%N.
    destruct (N.compare_spec (N_of_ascii c) 90); [lia|done|lia].
  - destruct (trimmedFraction a) as [|x s] eqn:Ea; [by destruct (trimmedFraction b)|].
    destruct (trimmedFraction b) as [|y u] eqn:Eb; [done|].
    rewrite (string_app_assoc "."), (string_app_assoc "."), compare_app.
    rewrite compare_diverge by done. rewrite Ha, Hb in Hlt.
    rewrite String.compare_antisym in Hlt. rewrite compare_diverge in Hlt by done.
    by destruct (String.compare (String y u) (String x s)).
Qed.

End same_second.

(** [time.RFC3339Nano], which most tables store, sorts as time does between different
    seconds.  Within one second it drops the trailing zeros of the fraction, and the later
    instant sorts first exactly when the earlier one's digits begin the later one's (".1Z"
    after ".15Z", "Z" after ".5Z"). *)
Theorem nano_misorders a b : four_digit a → four_digit b → a < b →
  str_lt (RFC3339Nano b) (RFC3339Nano a) =
    (Unix a =? Unix b) && HasPrefix (trimmedFraction b) (trimmedFraction a).
Proof.
  intros Ha Hb Hab. rewrite str_lt_compare. unfold RFC3339Nano.
  rewrite dateTime_compare, secondCompare_Unix by done.
  pose proof (instant_compare a b) as Hi. rewrite (proj2 (Z.compare_lt_iff a b) Hab) in Hi.
  unfold then_compare in *. rewrite (Z.compare_antisym (Unix a) (Unix b)).
  destruct (Z.eqb_spec (Unix a) (Unix b)) as [Eq|Ne], (Z.compare_spec (Unix a) (Unix b)) as [E|E|E];
    cbn [CompOpp andb]; try done; try lia.
  rewrite fraction_compare by (by apply Z.compare_lt_iff). by destruct (HasPrefix _ _).
Qed.
