(* ===== verification/Paging.v ===== *)
(** * Paging: keyset pagination

    Models src/internal/api/resources/paging.go: the parsed query of a collection, its
    cursor, and the page.  A collection is what its SELECT matches, ordered by a key whose
    last part is the row's id; a page asks for the rows after a key and one more than it
    shows.  JSON is the pair [Marshal]/[Unmarshal] of the cursor's payload.  The theorems
    are about a client that follows the cursors while the table changes under it. *)

From S2P Require Import Prelude GoText GoPath GoScan GoEncoding.

(** ** Cursors *)

Definition cursorVersion : Z := 1.

Record cursorPayload := mkPayload { V : Z; C : string; Keys : list string }.

(** encoding/json of the payload, for which only what decodes is used. *)
Class CursorJSON := {
  Marshal : cursorPayload → string;
  Unmarshal : string → option cursorPayload;
}.

Class CursorJSONLaws `{CursorJSON} : Prop := {
  Unmarshal_Marshal p : Unmarshal (Marshal p) = Some p;
}.

Section cursors.
Context `{CursorJSON}.

Definition encodeCursor (collection : string) (key : list string) : string :=
  EncodeToString (Marshal (mkPayload cursorVersion collection key)).

(** [None] is [errBadCursor]. *)
Definition decodeCursor (collection raw : string) (arity : nat) : option (list string) :=
  buf ← DecodeString raw; p ← Unmarshal buf;
  if bool_decide (V p ≠ cursorVersion) || bool_decide (C p ≠ collection) || negb (length (Keys p) =? arity)%nat
  then None else Some (Keys p).

(** ** The query *)

Definition defaultLimit : Z := 50.
Definition maxLimit : Z := 200.

Record query := mkQuery { limit : Z; cursor : option (list string) }.

(** [parseQueryWithMax] on the values of "limit" and "cursor", "" where absent; [None] is
    the error. *)
Definition parseQueryWithMax (rawLimit rawCursor collection : string) (arity : nat) (pageMax : Z) : option query :=
  lim ← (if bool_decide (rawLimit = "") then Some defaultLimit
         else n ← ParseInt rawLimit; if (n <=? 0)%Z then None else Some (if (pageMax <? n)%Z then pageMax else n));
  if bool_decide (rawCursor = "") then Some (mkQuery lim None)
  else k ← decodeCursor collection rawCursor arity; Some (mkQuery lim (Some k)).

Definition parseQuery (rawLimit rawCursor collection : string) (arity : nat) : option query :=
  parseQueryWithMax rawLimit rawCursor collection arity maxLimit.

(** [oneOf]: [None] is the error, "" an absent filter. *)
Definition oneOf (v : string) (allowed : list string) : option string :=
  if bool_decide (v = "") then Some "" else if bool_decide (v ∈ allowed) then Some v else None.

(** [parseIntFilter]: [None] is the error. *)
Definition parseIntFilter (v : string) : option (option Z) :=
  if bool_decide (v = "") then Some None else Some <$> ParseInt v.

End cursors.

(** ** Pages *)

(** [(a, b) < (c, d)] of SQL row values, on text. *)
Definition row_lt (x y : string * string) : bool :=
  str_lt x.1 y.1 || bool_decide (x.1 = y.1) && str_lt x.2 y.2.

Section pages.
Context {A K : Type} (key : A → K) (lt : K → K → bool).

(** The keyset condition of a query. *)
Definition after (c : option K) (x : A) : bool :=
  match c with None => true | Some k => lt k (key x) end.

(** WHERE key > cursor ORDER BY key LIMIT limit + 1. *)
Definition selectPage (limit : nat) (c : option K) (rows : list A) : list A :=
  take (S limit) (sort_by (key_less key lt) (filter (λ x, after c x) rows)).

Definition newPage (rows : list A) (limit : nat) : list A * option K :=
  if (limit <? length rows)%nat
  then (take limit rows, key <$> last (take limit rows))
  else (rows, None).

(** A client that follows the cursor, the table being [snap i] at the [i]-th request. *)
Fixpoint walk (fuel limit : nat) (snap : nat → list A) (i : nat) (c : option K) : option (list A) :=
  match fuel with
  | O => None
  | S fuel =>
      let '(items, next) := newPage (selectPage limit c (snap i)) limit in
      match next with
      | None => Some items
      | Some k => (items ++.) <$> walk fuel limit snap (S i) (Some k)
      end
  end.
End pages.

(** ** Facts *)

Lemma row_lt_spec x y :
  row_lt x y = true ↔ str_lt x.1 y.1 = true ∨ x.1 = y.1 ∧ str_lt x.2 y.2 = true.
Proof. unfold row_lt. by rewrite orb_true_iff, andb_true_iff, bool_decide_eq_true. Qed.

#[export] Instance row_lt_total : StrictTotal row_lt.
Proof.
  apply strict_total_intro.
  - intros x. apply not_true_is_false. rewrite row_lt_spec, !(less_irrefl (less := str_lt)). naive_solver.
  - intros x y z. rewrite !row_lt_spec. intros [H1|[E1 H1]] [H2|[E2 H2]]; rewrite ?E1, <- ?E2; auto;
      [left|right; split; [done|]]; by eapply (less_trans (less := str_lt)).
  - intros [a b] [c d] H1%not_true_iff_false H2%not_true_iff_false. rewrite row_lt_spec in H1, H2. cbn in *.
    assert (a = c) as ->.
    { apply (less_antisym (less := str_lt)); apply not_true_iff_false; tauto. }
    f_equal. apply (less_antisym (less := str_lt)); apply not_true_iff_false; tauto.
Qed.

Lemma flip_total {K} (lt : K → K → bool) : StrictTotal lt → StrictTotal (λ x y, lt y x).
Proof.
  intros Ht. apply strict_total_intro.
  - intros x. apply less_irrefl.
  - intros x y z H1 H2. by eapply (less_trans (less := lt)).
  - intros x y H1 H2. by apply (less_antisym (less := lt)).
Qed.

Section page_facts.
Context {A K : Type} (key : A → K) (lt : K → K → bool) `{!StrictTotal lt}.

Definition sorted_rows (c : option K) (rows : list A) : list A :=
  sort_by (key_less key lt) (filter (λ x, after key lt c x) rows).

Lemma elem_of_sorted c rows x : x ∈ sorted_rows c rows ↔ after key lt c x ∧ x ∈ rows.
Proof. unfold sorted_rows. by rewrite elem_of_sort_by, list_elem_of_filter. Qed.

Lemma sorted_all rows : sorted_rows None rows = sort_by (key_less key lt) rows.
Proof.
  unfold sorted_rows. f_equal. induction rows as [|x rows IH]; [done|].
  rewrite filter_cons, decide_True by done. by rewrite IH.
Qed.

Definition increasing (l : list A) : Prop := StronglySorted (λ x y, lt (key x) (key y) = true) l.

Lemma sorted_increasing c rows : NoDup (key <$> rows) → increasing (sorted_rows c rows).
Proof.
  intros Hnd. unfold increasing, sorted_rows.
  assert (NoDup (key <$> sort_by (key_less key lt) (filter (λ x, after key lt c x) rows))) as Hnd'.
  { rewrite (sort_by_perm _ _). apply NoDup_fmap_filter, Hnd. }
  pose proof (sort_by_sorted (key_less key lt) (filter (λ x, after key lt c x) rows)) as Hs.
  induction Hs as [|x l Hl IH Hx]; [constructor|]. cbn in Hnd'. apply NoDup_cons in Hnd' as [Hn Hnd'].
  constructor; [by apply IH|]. rewrite Forall_forall in Hx |- *. intros y Hy.
  specialize (Hx y Hy). unfold not_after, key_less in Hx.
  destruct (lt (key x) (key y)) eqn:E; [done|]. exfalso. apply Hn.
  rewrite (less_antisym (less := lt) _ _ E Hx). apply list_elem_of_fmap. by exists y.
Qed.

Lemma selectPage_sorted limit c rows : selectPage key lt limit c rows = take (S limit) (sorted_rows c rows).
Proof. done. Qed.

(** A page is a first part of what is after the cursor: all of it when there is no next
    cursor, and otherwise up to the key the next page begins after. *)
Lemma page_split limit c rows items next : (0 < limit)%nat → NoDup (key <$> rows) →
  newPage key (selectPage key lt limit c rows) limit = (items, next) →
  match next with
  | None => items = sorted_rows c rows
  | Some k => ∃ rest y, sorted_rows c rows = items ++ rest ∧ length items = limit ∧
      y ∈ items ∧ k = key y ∧ rest ≠ [] ∧
      Forall (λ x, lt k (key x) = true) rest ∧ Forall (λ x, x = y ∨ lt (key x) k = true) items
  end.
Proof.
  intros Hlim Hnd. rewrite selectPage_sorted. set (l := sorted_rows c rows).
  pose proof (sorted_increasing c rows Hnd) as Hinc. fold l in Hinc.
  unfold newPage. rewrite length_take.
  destruct (Nat.ltb_spec limit (S limit `min` length l)) as [Hlt|Hge].
  - rewrite take_take, Nat.min_l by lia. intros [= <- <-].
    destruct (last (take limit l)) as [y|] eqn:Ey; cbn.
    2:{ apply last_None in Ey. apply (f_equal length) in Ey. rewrite length_take in Ey. cbn in Ey. lia. }
    exists (drop limit l), y. rewrite take_drop. apply last_Some in Ey as [l' Ey].
    assert (increasing (l' ++ y :: drop limit l)) as Hs.
    { rewrite <- (take_drop limit l), Ey, <- app_assoc in Hinc. exact Hinc. }
    apply StronglySorted_app in Hs as (Hcross & _ & Hy). apply StronglySorted_inv in Hy as [_ Hy].
    split_and!; try done.
    + rewrite length_take. lia.
    + rewrite Ey. apply elem_of_app. right. by left.
    + intros E. apply (f_equal length) in E. rewrite length_drop in E. cbn in E. lia.
    + rewrite Ey, Forall_app. split; [|by repeat constructor]. rewrite Forall_forall. intros x Hx. right.
      apply Hcross; [done|by left].
  - intros [= <- <-]. apply take_ge. lia.
Qed.

Lemma walk_spec fuel limit snap i c out : (0 < limit)%nat → (∀ j, NoDup (key <$> snap j)) →
  walk key lt fuel limit snap i c = Some out →
  increasing out ∧ Forall (λ x, after key lt c x) out ∧
  (∀ x, x ∈ out → ∃ j, x ∈ snap j) ∧
  (∀ x, (∀ j, x ∈ snap j) → after key lt c x → x ∈ out).
Proof.
  intros Hlim Hnd. revert i c out. induction fuel as [|fuel IH]; intros i c out; cbn; [done|].
  destruct (newPage key (selectPage key lt limit c (snap i)) limit) as [items next] eqn:E.
  apply page_split in E; [|done|done]. pose proof (sorted_increasing c (snap i) (Hnd i)) as Hinc.
  pose proof (elem_of_sorted c (snap i)) as Hel.
  destruct next as [k|].
  - destruct E as (rest & y & Hsplit & _ & Hy & -> & _ & Hrest & Hitems).
    destruct (walk key lt fuel limit snap (S i) (Some (key y))) as [out'|] eqn:Ew; [|done]. cbn. intros [= <-].
    destruct (IH _ _ _ Ew) as (Hinc' & Haft' & Hin' & Hall').
    rewrite Hsplit in Hinc, Hel. apply StronglySorted_app in Hinc as (_ & Hii & _).
    assert (∀ x, x ∈ out' → lt (key y) (key x) = true) as Hgt.
    { rewrite Forall_forall in Haft'. intros x Hx. specialize (Haft' x Hx). cbn in Haft'. by destruct (lt _ _). }
    rewrite Forall_forall in Hitems. split_and!.
    + apply StronglySorted_app. split_and!; [|done|done]. intros x z Hx Hz.
      destruct (Hitems x Hx) as [->|Hlt]; [by apply Hgt|]. eapply less_trans; [exact Hlt|by apply Hgt].
    + rewrite Forall_app. split; [rewrite Forall_forall; intros x Hx; apply Hel; by apply elem_of_app; left|].
      rewrite Forall_forall. intros x Hx. destruct c as [k|]; [|done]. cbn. apply Is_true_true.
      assert (after key lt (Some k) y) as Hk by (apply Hel, elem_of_app; by left).
      cbn in Hk. apply Is_true_true in Hk. eapply less_trans; [exact Hk|by apply Hgt].
    + intros x [Hx|Hx]%elem_of_app; [exists i; apply Hel, elem_of_app; by left|by apply Hin'].
    + intros x Hx Haf. apply elem_of_app.
      assert (x ∈ items ++ rest) as [H|H]%elem_of_app by (by apply Hel); [by left|right].
      apply Hall'; [done|]. cbn. rewrite Forall_forall in Hrest. apply Is_true_true. by apply Hrest.
  - intros [= <-]. subst items. split_and!; [done| | |].
    + rewrite Forall_forall. intros x Hx. by apply Hel.
    + intros x Hx. exists i. by apply Hel.
    + intros x Hx Haf. by apply Hel.
Qed.

(** What is after the last key of a page is what the page left. *)
Lemma sorted_rest c rows items rest y : NoDup (key <$> rows) → sorted_rows c rows = items ++ rest →
  y ∈ items → Forall (λ x, lt (key y) (key x) = true) rest →
  Forall (λ x, x = y ∨ lt (key x) (key y) = true) items →
  sorted_rows (Some (key y)) rows = rest.
Proof.
  intros Hnd Hsplit Hy Hrest Hitems. pose proof (sorted_increasing c rows Hnd) as Hinc.
  pose proof (elem_of_sorted c rows) as Hel. rewrite Hsplit in Hinc, Hel.
  apply (StronglySorted_app) in Hinc as (_ & _ & Hr).
  assert (∀ l, increasing l → StronglySorted (not_after (key_less key lt)) l ∧ NoDup l) as Hst.
  { induction 1 as [|x l Hl [IH1 IH2] Hx]; [split; constructor|]. rewrite Forall_forall in Hx. split.
    - constructor; [done|]. rewrite Forall_forall. intros z Hz. unfold not_after, key_less.
      eapply less_asym; [apply _|by apply Hx].
    - constructor; [|done]. intros Hin%Hx. by rewrite less_irrefl in Hin. }
  destruct (Hst rest Hr) as [Hr1 Hr2].
  destruct (Hst _ (sorted_increasing (Some (key y)) rows Hnd)) as [Hs1 Hs2].
  symmetry. apply sort_by_unique.
  - apply _.
  - intros x z Hx Hz H1 H2. apply list_elem_of_filter in Hx as [_ Hx], Hz as [_ Hz].
    unfold key_less in H1, H2. eapply (fmap_NoDup_inj key); [exact Hnd|done|done|].
    by apply (less_antisym (less := lt)).
  - trans (sorted_rows (Some (key y)) rows); [|apply sort_by_perm; apply _].
    apply NoDup_same_elements; [done|done|]. intros x. rewrite elem_of_sorted. cbn.
    rewrite Forall_forall in Hrest, Hitems. split.
    + intros Hx. split; [apply Is_true_true; by apply Hrest|]. apply Hel, elem_of_app. by right.
    + intros [Hlt%Is_true_true Hx].
      assert (after key lt c x) as Haf.
      { destruct c as [k|]; [|done]. cbn. apply Is_true_true. eapply less_trans; [|exact Hlt].
        assert (after key lt (Some k) y) as Hk by (apply Hel, elem_of_app; by left). by apply Is_true_true in Hk. }
      assert (x ∈ items ++ rest) as [H|H]%elem_of_app by (by apply Hel); [|done].
      destruct (Hitems x H) as [->|Hgt]; [by rewrite less_irrefl in Hlt|].
      rewrite (less_asym lt _ _ Hlt) in Hgt. done.
  - done.
Qed.

(** On a table that does not change the client sees everything, in one more request than
    there are rows at most. *)
Lemma walk_static fuel limit rows i c : (0 < limit)%nat → NoDup (key <$> rows) →
  (length (sorted_rows c rows) < fuel)%nat →
  walk key lt fuel limit (λ _, rows) i c = Some (sorted_rows c rows).
Proof.
  intros Hlim Hnd. revert i c. induction fuel as [|fuel IH]; intros i c Hf; [lia|]. cbn [walk].
  destruct (newPage key (selectPage key lt limit c rows) limit) as [items next] eqn:E.
  apply page_split in E; [|done|done]. destruct next as [k|]; [|by rewrite E].
  destruct E as (rest & y & Hsplit & Hlen & Hy & -> & _ & Hrest & Hitems).
  pose proof (sorted_rest c rows items rest y Hnd Hsplit Hy Hrest Hitems) as Hr.
  rewrite IH; [by rewrite Hr, Hsplit|]. rewrite Hr. rewrite Hsplit, length_app in Hf. lia.
Qed.
End page_facts.
