(* ===== verification/Playback.v ===== *)
(** * Playback: consumption sessions

    Models src/internal/domain/playback/session.go (the machine of one session), the table
    of migration 00010_consumption.sql with its constraints, and the handlers of
    src/internal/api/resources/consumption.go: create, transition, read, list, each with
    the transaction that writes the row and its event together.  JSON bodies are the
    decoded requests; an answer is its status and body. *)

From S2P Require Import Prelude GoText GoPath GoScan GoEncoding GoTime Paging.

(** ** The machine (session.go) *)

Abbreviation Verb := string (only parsing).
Definition VerbWatch : Verb := "watch".
Definition VerbListen : Verb := "listen".
Definition VerbRead : Verb := "read".
Definition Verbs : list Verb := [VerbWatch; VerbListen; VerbRead].
Definition ParseVerb (s : string) : option Verb := head (filter (λ v, v = s) Verbs).

Abbreviation State := string (only parsing).
Definition StateCreated : State := "created".
Definition StatePlaying : State := "playing".
Definition StatePaused : State := "paused".
Definition StateStopped : State := "stopped".
Definition StateCompleted : State := "completed".
Definition States : list State := [StateCreated; StatePlaying; StatePaused; StateStopped; StateCompleted].

Definition Terminal (s : State) : bool := bool_decide (s = StateStopped) || bool_decide (s = StateCompleted).

Abbreviation Transition := string (only parsing).
Definition TransitionStart : Transition := "start".
Definition TransitionPause : Transition := "pause".
Definition TransitionResume : Transition := "resume".
Definition TransitionProgress : Transition := "progress".
Definition TransitionStop : Transition := "stop".
Definition TransitionComplete : Transition := "complete".
Definition Transitions : list Transition :=
  [TransitionStart; TransitionPause; TransitionResume; TransitionProgress; TransitionStop; TransitionComplete].

Inductive error := ErrIllegalTransition | ErrInvalidProgress | ErrNoRows | ErrForeignKey | ErrDatabase.

#[export] Instance error_eq_dec : EqDecision error.
Proof. solve_decision. Defined.

Definition table : gmap State (gmap Transition State) := {[
  StateCreated := {[ TransitionStart := StatePlaying; TransitionStop := StateStopped ]};
  StatePlaying := {[
    TransitionPause := StatePaused; TransitionProgress := StatePlaying;
    TransitionStop := StateStopped; TransitionComplete := StateCompleted ]};
  StatePaused := {[
    TransitionResume := StatePlaying; TransitionProgress := StatePaused;
    TransitionStop := StateStopped; TransitionComplete := StateCompleted ]};
  StateStopped := ∅;
  StateCompleted := ∅ ]}.

Definition Next (from : State) (t : Transition) : error + State :=
  match table !! from with
  | None => inl ErrIllegalTransition
  | Some allowed => match allowed !! t with None => inl ErrIllegalTransition | Some to => inr to end
  end.

(** ** Progress *)

Abbreviation Unit_ := string (only parsing).
Definition UnitSeconds : Unit_ := "seconds".
Definition UnitPage : Unit_ := "page".
Definition UnitCFI : Unit_ := "cfi".
Definition Units : list Unit_ := [UnitSeconds; UnitPage; UnitCFI].
Definition ParseUnit (s : string) : option Unit_ := head (filter (λ u, u = s) Units).

Definition maxLocator : nat := 512.

Record Progress := mkProgress { Locator : string; Unit_of : string }.

#[export] Instance Progress_eq_dec : EqDecision Progress.
Proof. solve_decision. Defined.

Definition zeroProgress : Progress := mkProgress "" "".
Definition Zero (p : Progress) : bool := bool_decide (Locator p = "").

(** The loop of [decimalish] at index [i]: [first] is [i = 0], [dots] whether one was seen.
    A byte above 127 belongs to a rune that is neither a digit nor a dot. *)
Fixpoint decimalFrom (first dots : bool) (s : string) : bool :=
  match s with
  | EmptyString => true
  | String c t =>
      if bool_decide (is_Some (digitVal 10 c)) then decimalFrom false dots t
      else if bool_decide (c = "."%char) && negb first && negb dots then decimalFrom false true t
      else false
  end.

Fixpoint lastByte (s : string) : option ascii :=
  match s with EmptyString => None | String c "" => Some c | String _ t => lastByte t end.

Definition decimalish (s : string) : bool :=
  decimalFrom true false s && bool_decide (lastByte s ≠ Some "."%char).

Definition Validate (p : Progress) : option error :=
  if bool_decide (Locator p = "") then Some ErrInvalidProgress
  else if (maxLocator <? String.length (Locator p))%nat then Some ErrInvalidProgress
  else if has_byte "000" (Locator p) || has_byte "010" (Locator p) || has_byte "013" (Locator p)
  then Some ErrInvalidProgress
  else if bool_decide (Unit_of p = UnitSeconds) || bool_decide (Unit_of p = UnitPage) then
    if decimalish (Locator p) then None else Some ErrInvalidProgress
  else if bool_decide (Unit_of p = UnitCFI) then
    if HasPrefix (Locator p) "epubcfi(" then None else Some ErrInvalidProgress
  else Some ErrInvalidProgress.

(** ** Sessions *)

Record Session := mkSession {
  ID : string;
  AssetID : string;
  DeviceID : string;
  VerbOf : string;
  StateOf : string;
  ProgressOf : Progress;
  CreatedAt : Z;
  UpdatedAt : Z;
  StartedAt : option Z;
  EndedAt : option Z;
}.

#[export] Instance Session_eq_dec : EqDecision Session.
Proof. solve_decision. Defined.

Definition Apply (s : Session) (t : Transition) (at_ : Z) (progress : option Progress) : error + Session :=
  match Next (StateOf s) t with
  | inl e => inl e
  | inr next =>
      match progress ≫= Validate with
      | Some e => inl e
      | None =>
          inr {| ID := ID s; AssetID := AssetID s; DeviceID := DeviceID s; VerbOf := VerbOf s;
                 StateOf := next;
                 ProgressOf := default (ProgressOf s) progress;
                 CreatedAt := CreatedAt s; UpdatedAt := at_;
                 StartedAt := if bool_decide (t = TransitionStart) && bool_decide (StartedAt s = None)
                              then Some at_ else StartedAt s;
                 EndedAt := if Terminal next then Some at_ else EndedAt s |}
      end
  end.

Definition EventType (t : Transition) : string :=
  if decide (t = TransitionStart) then "playback.session.started"
  else if decide (t = TransitionPause) then "playback.session.paused"
  else if decide (t = TransitionResume) then "playback.session.resumed"
  else if decide (t = TransitionProgress) then "playback.session.progressed"
  else if decide (t = TransitionStop) then "playback.session.stopped"
  else if decide (t = TransitionComplete) then "playback.session.completed"
  else "playback.session.unknown".

(** ** The table (00010_consumption.sql) *)

(** What the rows refer to: an asset has a blob or none and, through its edition, a work or
    none; a device has its key and platform. *)
Record Asset := mkAsset { BlobHash : option string; WorkOf : option string }.
Record Device := mkDevice { DeviceKey : string; Platform : string }.

(** An event of a session: its type, the session, and of its payload the state and the
    transition ("" where it has none). *)
Record Event := mkEvent { EvType : string; Subject : string; EvState : string; EvTransition : string }.

#[export] Instance Event_eq_dec : EqDecision Event.
Proof. solve_decision. Defined.

Record DB := mkDB {
  sessions : gmap string Session;
  assets : gmap string Asset;
  devices : gmap string Device;
  events : list Event;
}.

Definition check_row (s : Session) : bool :=
  bool_decide (VerbOf s ∈ Verbs) && bool_decide (StateOf s ∈ States) &&
  bool_decide (Unit_of (ProgressOf s) ∈ "" :: Units) &&
  (bool_decide (Locator (ProgressOf s) = "") || bool_decide (Unit_of (ProgressOf s) ≠ "")) &&
  (bool_decide (StateOf s ∈ [StateStopped; StateCompleted]) && bool_decide (is_Some (EndedAt s)) ||
   bool_decide (StateOf s ∈ [StateCreated; StatePlaying; StatePaused]) && bool_decide (EndedAt s = None)).

(** INSERT: the primary key, the CHECKs, then the foreign keys. *)
Definition insertSession (s : Session) (db : DB) : error + DB :=
  if bool_decide (is_Some (sessions db !! ID s)) || negb (check_row s) then inl ErrDatabase
  else if bool_decide (assets db !! AssetID s = None) || bool_decide (devices db !! DeviceID s = None)
  then inl ErrForeignKey
  else inr (mkDB (<[ID s := s]> (sessions db)) (assets db) (devices db) (events db)).

(** UPDATE of the six columns, WHERE id = ?. *)
Definition updateSession (s : Session) (db : DB) : error + DB :=
  match sessions db !! ID s with
  | None => inr db
  | Some old =>
      let row := mkSession (ID old) (AssetID old) (DeviceID old) (VerbOf old) (StateOf s) (ProgressOf s)
                   (CreatedAt old) (UpdatedAt s) (StartedAt s) (EndedAt s) in
      if check_row row then inr (mkDB (<[ID s := row]> (sessions db)) (assets db) (devices db) (events db))
      else inl ErrDatabase
  end.

Definition EmitTx (e : Event) (db : DB) : DB :=
  mkDB (sessions db) (assets db) (devices db) (events db ++ [e]).

(** ** The handlers (consumption.go) *)

Definition required (v : string) : bool := negb (bool_decide (TrimSpace v = "")).

Inductive Answer := BadRequest | NotFound | Conflict | Internal | Created (s : Session) | OK (s : Session).

Record createSessionRequest := mkCreate { cAsset : string; cDevice : string; cVerb : string }.

Definition eventSessionCreated : string := "playback.session.created".

(** The session both ways of opening one insert. *)
Definition newSession (id asset device verb : string) (now : Z) : Session :=
  mkSession id asset device verb StateCreated zeroProgress now now None None.

(** The transaction that opens a session; a failure rolls everything back. *)
Definition openSession (s : Session) (db : DB) : error + DB :=
  match insertSession s db with
  | inl e => inl e
  | inr db => inr (EmitTx (mkEvent eventSessionCreated (ID s) "" "") db)
  end.

Definition createSession (body : createSessionRequest) (newID : string) (now : Z) (db : DB) : Answer * DB :=
  if negb (required (cAsset body)) || negb (required (cDevice body)) then (BadRequest, db)
  else match ParseVerb (cVerb body) with
  | None => (BadRequest, db)
  | Some verb =>
      let session := newSession newID (cAsset body) (cDevice body) verb now in
      match openSession session db with
      | inl ErrForeignKey => (BadRequest, db)
      | inl _ => (Internal, db)
      | inr db => (Created session, db)
      end
  end.

Definition applySessionTransition (id : string) (t : Transition) (progress : option Progress) (now : Z)
    (db : DB) : error + Session * DB :=
  match sessions db !! id with
  | None => inl ErrNoRows
  | Some current =>
      match Apply current t now progress with
      | inl e => inl e
      | inr next =>
          match updateSession next db with
          | inl e => inl e
          | inr db => inr (next, EmitTx (mkEvent (EventType t) (ID next) (StateOf next) t) db)
          end
      end
  end.

Definition parseTransition (s : string) : option Transition :=
  if bool_decide (s = "") then None else head (filter (λ t, t = s) Transitions).

Definition applyTransition (id transition : string) (progress : option Progress) (now : Z) (db : DB) : Answer * DB :=
  match parseTransition transition with
  | None => (BadRequest, db)
  | Some t =>
      match applySessionTransition id t progress now db with
      | inl ErrIllegalTransition => (Conflict, db)
      | inl ErrInvalidProgress => (BadRequest, db)
      | inl ErrNoRows => (NotFound, db)
      | inl _ => (Internal, db)
      | inr (s, db) => (OK s, db)
      end
  end.

Definition getSession (id : string) (db : DB) : Answer :=
  match sessions db !! id with None => NotFound | Some s => OK s end.

(** ** Listing *)

Record listQuery := mkList {
  lState : string;        (** "" , "resumable" or a state *)
  lAsset : string;
  lDevice : string;
  lCursor : option (string * string);
  lLimit : nat;
}.

Definition stateFilters : list string := "resumable" :: States.

Definition resumable (s : State) : bool := bool_decide (s ∈ [StateCreated; StatePlaying; StatePaused]).

(** The columns a page is ordered by, as SQLite holds them. *)
Definition sortKey (s : Session) : string * string := (RFC3339Nano (UpdatedAt s), ID s).

(** Newest first: [(a, b) < (c, d)] of SQL row values, on text. *)
Definition older (x y : string * string) : bool := row_lt y x.

Definition matches (q : listQuery) (s : Session) : bool :=
  (if bool_decide (lState q = "resumable") then resumable (StateOf s)
   else bool_decide (lState q = "") || bool_decide (StateOf s = lState q)) &&
  (bool_decide (lAsset q = "") || bool_decide (AssetID s = lAsset q)) &&
  (bool_decide (lDevice q = "") || bool_decide (DeviceID s = lDevice q)).

(** ORDER BY updated_at DESC, id DESC. *)
Definition newest_less : Session → Session → bool := key_less sortKey older.

(** WHERE matches AND (updated_at, id) < cursor ORDER BY ... LIMIT limit + 1. *)
Definition selectSessions (q : listQuery) (db : DB) : list Session :=
  selectPage sortKey older (lLimit q) (lCursor q) (filter (λ s, matches q s) (snd <$> map_to_list (sessions db))).

(** The handler past the parsing of its query; [None] is the 400 of an unknown state. *)
Definition listSessions (q : listQuery) (db : DB) : option (list Session * option (string * string)) :=
  if bool_decide (lState q = "") || bool_decide (lState q ∈ stateFilters)
  then Some (newPage sortKey (selectSessions q db) (lLimit q))
  else None.

(** ** The continue rail *)

Definition continueDefaultLimit : Z := 20.
Definition continueMaxLimit : Z := 50.

(** The limit of the query, [None] for a 400; an absent parameter is [None] inside. *)
Definition continueLimit (n : option Z) : option Z :=
  match n with
  | None => Some continueDefaultLimit
  | Some n => if (n <=? 0)%Z then None else Some (Z.min n continueMaxLimit)
  end.

Definition workOfSession (db : DB) (s : Session) : option string :=
  assets db !! AssetID s ≫= WorkOf.

Definition continuable (device : string) (s : Session) : bool :=
  bool_decide (StateOf s ∈ [StatePlaying; StatePaused; StateStopped]) &&
  bool_decide (Locator (ProgressOf s) ≠ "") &&
  (bool_decide (device = "") || bool_decide (DeviceID s = device)).

(** ROW_NUMBER() OVER (PARTITION BY work ORDER BY updated_at DESC, id DESC) = 1, on rows in
    that order. *)
Fixpoint firstPerWork (db : DB) (seen : list string) (l : list Session) : list Session :=
  match l with
  | [] => []
  | s :: l =>
      match workOfSession db s with
      | None => firstPerWork db seen l
      | Some w => if decide (w ∈ seen) then firstPerWork db seen l else s :: firstPerWork db (w :: seen) l
      end
  end.

Definition ContinueRail (device : string) (limit : Z) (db : DB) : list Session :=
  take (Z.to_nat limit)
    (firstPerWork db [] (sort_by newest_less
      (filter (λ s, continuable device s) (snd <$> map_to_list (sessions db))))).
