(* ===== verification/RendererProgress.v ===== *)
(** * RendererProgress: the beat that asks renderers where they are

    Models src/internal/api/resources/renderer_progress.go and what it reads of a renderer
    (src/internal/renderer/control.go: the transport states, [Position], [parseDuration]).
    What a device answers is an input; each session of a beat is the row as the beat's one
    query found it, and the row may have changed since.  [Progressing] puts the beat and
    the handlers of Playback.v together as one system whose transactions interleave. *)

From S2P Require Import Prelude GoText GoPath GoScan GoEncoding Schedule.
From S2P Require Import Playback.
#[local] Open Scope Z_scope.

(** ** What a renderer says (control.go) *)

Abbreviation TransportState := string (only parsing).
Definition TransportPlaying : TransportState := "PLAYING".
Definition TransportPausedPlayback : TransportState := "PAUSED_PLAYBACK".
Definition TransportStopped : TransportState := "STOPPED".
Definition TransportTransitioning : TransportState := "TRANSITIONING".
Definition TransportNoMediaPresent : TransportState := "NO_MEDIA_PRESENT".

Record Position := mkPosition { Elapsed : Z; Duration : Z; URI : string }.

(** [s[:dot]] at the first dot. *)
Definition beforeDot (s : string) : string :=
  match Cut "." s with Some (a, _) => a | None => s end.

(** One field of H:MM:SS times its unit, on a 64-bit [time.Duration]. *)
Definition addField (total : option Z) (pu : string * Z) : option Z :=
  t ← total; n ← ParseInt (TrimSpace pu.1);
  if n <? 0 then None else Some (wrap_i64 (t + wrap_i64 (n * pu.2))).

Definition parseDuration (s : string) : Z :=
  let s := TrimSpace s in
  if bool_decide (s = "") || bool_decide (s = "NOT_IMPLEMENTED") then 0
  else
    let parts := SplitByte ":" (beforeDot s) in
    let parts := if (length parts =? 2)%nat then "0" :: parts else parts in
    if (length parts =? 3)%nat
    then default 0 (foldl addField (Some 0) (zip parts [Hour; Minute; Second]))
    else 0.

(** [formatDuration]: H:MM:SS. *)
Definition formatDuration (d : Z) : string :=
  let total := Z.quot (if d <? 0 then 0 else d) Second in
  FormatInt (Z.quot total 3600) +:+ ":" +:+ Format02 (Z.quot (Z.rem total 3600) 60) +:+ ":" +:+
    Format02 (Z.rem total 60).

(** The answer to GetPositionInfo, from the three texts of the response. *)
Definition readPosition (relTime duration uri : string) : Position :=
  mkPosition (parseDuration relTime) (parseDuration duration) (TrimSpace uri).

(** ** The beat *)

Definition rendererPlatform : string := "dlna-renderer".

Definition completionRemainder : Z := 30 * Second.

Record liveSession := mkLive {
  SessionID : string;
  LiveState : State;
  LiveDevice : string;
  LiveAsset : string;
  LiveBlob : string;
}.

#[export] Instance liveSession_eq_dec : EqDecision liveSession.
Proof. solve_decision. Defined.

Definition liveOf (db : DB) (s : Session) : option liveSession :=
  d ← devices db !! DeviceID s;
  if bool_decide (Platform d = rendererPlatform) && resumable (StateOf s)
  then Some (mkLive (ID s) (StateOf s) (DeviceKey d) (AssetID s)
               (default "" (assets db !! AssetID s ≫= BlobHash)))
  else None.

Definition liveRendererSessions (db : DB) : list liveSession :=
  omap (liveOf db) (snd <$> map_to_list (sessions db)).

(** What asking one renderer comes to: it is not in the cache, it has no AVTransport or did
    not answer GetTransportInfo, or it said its state and perhaps its position. *)
Inductive RendererAnswer :=
  | NotCached
  | Unanswered
  | Answered (state : TransportState) (pos : option Position).

Definition encodedBlobFragment (blobHash : string) : string := EncodeToString blobHash.

Definition playingOurs (uri blobHash : string) : bool :=
  bool_decide (blobHash = "") || Contains uri (encodedBlobFragment blobHash).

(** [int64(pos.Elapsed.Seconds())]; a duration that [parseDuration] reads is whole seconds. *)
Definition progressFrom (pos : option Position) : option Progress :=
  p ← pos;
  if Elapsed p <=? 0 then None
  else Some (mkProgress (FormatInt (Z.quot (Elapsed p) Second)) UnitSeconds).

Definition nearEnd (p : Position) : bool :=
  (0 <? Duration p) && (wrap_i64 (Duration p - Elapsed p) <=? completionRemainder).

(** What one poll decides to do, if anything. *)
Definition recordPlaying (s : liveSession) (pos : option Position) : option (Transition * option Progress) :=
  let progress := progressFrom pos in
  if decide (LiveState s = StateCreated) then Some (TransitionStart, progress)
  else if decide (LiveState s = StatePaused) then Some (TransitionResume, progress)
  else match progress, pos with
       | None, _ | _, None => None
       | Some _, Some p => if nearEnd p then Some (TransitionComplete, None) else Some (TransitionProgress, progress)
       end.

Definition foreign (s : liveSession) (pos : option Position) : bool :=
  match pos with
  | None => false
  | Some p => bool_decide (LiveBlob s ≠ "") && bool_decide (URI p ≠ "") && negb (playingOurs (URI p) (LiveBlob s))
  end.

Definition pollOne (s : liveSession) (a : RendererAnswer) : option (Transition * option Progress) :=
  match a with
  | NotCached | Unanswered => None
  | Answered state pos =>
      if foreign s pos then Some (TransitionStop, None)
      else if decide (state = TransportPlaying) then recordPlaying s pos
      else if decide (state = TransportPausedPlayback) then
        if decide (LiveState s = StatePaused) then None else Some (TransitionPause, progressFrom pos)
      else if bool_decide (state = TransportStopped) || bool_decide (state = TransportNoMediaPresent) then
        if (match pos with Some p => nearEnd p | None => false end)
        then Some (TransitionComplete, None)
        else Some (TransitionStop, progressFrom pos)
      else None
  end.

(** [transition]: an illegal one, or a session that is gone, is no error. *)
Definition transition (s : liveSession) (t : Transition) (progress : option Progress) (now : Z) (db : DB)
    : option error * DB :=
  match applySessionTransition (SessionID s) t progress now db with
  | inr (_, db) => (None, db)
  | inl ErrIllegalTransition | inl ErrNoRows => (None, db)
  | inl e => (Some e, db)
  end.

Definition poll (s : liveSession) (a : RendererAnswer) (now : Z) (db : DB) : option error * DB :=
  match pollOne s a with None => (None, db) | Some (t, progress) => transition s t progress now db end.

(** ** One system *)

Record System := mkSystem { db : DB; polling : list liveSession }.

(** The transactions that touch sessions, and the two reads of a beat.  A renderer may
    answer anything, clocks may read anything; other parts of the node add and change
    assets and devices, and removing an asset removes its sessions. *)
Inductive Step :=
  | SCreate (body : createSessionRequest) (newID : string) (now : Z)
  | SOpen (newID asset device verb : string) (now : Z)
  | STransition (id transition : string) (progress : option Progress) (now : Z)
  | SBeat
  | SPoll (a : RendererAnswer) (now : Z)
  | SAsset (id : string) (a : Asset)
  | SDropAsset (id : string)
  | SDevice (id : string) (d : Device).

Definition dropAsset (id : string) (db : DB) : DB :=
  mkDB (filter (λ kv, AssetID kv.2 ≠ id) (sessions db)) (delete id (assets db)) (devices db) (events db).

Definition step (st : Step) (y : System) : System :=
  let d := db y in
  match st with
  | SCreate body newID now => mkSystem (createSession body newID now d).2 (polling y)
  | SOpen newID asset device verb now =>
      mkSystem (match openSession (newSession newID asset device verb now) d with inr d' => d' | inl _ => d end)
        (polling y)
  | STransition id t p now => mkSystem (applyTransition id t p now d).2 (polling y)
  | SBeat => mkSystem d (liveRendererSessions d)
  | SPoll a now =>
      match polling y with
      | [] => y
      | s :: rest => mkSystem (poll s a now d).2 rest
      end
  | SAsset id a => mkSystem (mkDB (sessions d) (<[id := a]> (assets d)) (devices d) (events d)) (polling y)
  | SDropAsset id => mkSystem (dropAsset id d) (polling y)
  | SDevice id dev => mkSystem (mkDB (sessions d) (assets d) (<[id := dev]> (devices d)) (events d)) (polling y)
  end.

Definition emptyDB : DB := mkDB ∅ ∅ ∅ [].
Definition start : System := mkSystem emptyDB [].

Definition run (steps : list Step) : System := foldl (λ y st, step st y) start steps.
