(* ===== verification/PlaybackSpec.v ===== *)
(** * PlaybackSpec: what consumption sessions promise

    The grammar of a position, the states a session can reach, what every handler answers,
    the agreement of the event log with the rows under any interleaving of clients and
    polls, and what a poll may and may not write. *)

From S2P Require Import Prelude GoText GoPath GoScan GoEncoding GoTime Schedule.
From S2P Require Import Playback RendererProgress.
#[local] Open Scope Z_scope.

(** ** The grammar of a position *)

Definition decimal (s : string) : Prop :=
  ∃ a, a ≠ "" ∧ allDigits a = true ∧
    (s = a ∨ ∃ b, b ≠ "" ∧ allDigits b = true ∧ s = a +:+ String "." b).

Lemma dot_no_digit : digitVal 10 "." = None.
Proof. done. Qed.

Lemma decimalFrom_digits first dots a t : allDigits a = true →
  decimalFrom first dots (a +:+ t) = decimalFrom (first && bool_decide (a = "")) dots t.
Proof.
  revert first. induction a as [|c a IH]; intros first Ha.
  - rewrite app_nil_l. by rewrite bool_decide_eq_true_2, andb_true_r.
  - cbn [allDigits] in Ha. apply andb_prop in Ha as [Hc Ha]. rewrite app_cons_l. cbn [decimalFrom].
    rewrite Hc, IH by done. by rewrite (bool_decide_eq_false_2 (String c a = "")), andb_false_r.
Qed.

(** After the dot only digits are left. *)
Lemma decimalFrom_dotted first s : decimalFrom first true s = true ↔ allDigits s = true.
Proof.
  revert first. induction s as [|c s IH]; intros first; [done|]. cbn [decimalFrom allDigits].
  case_bool_decide; [apply IH|]. by rewrite andb_false_r.
Qed.

Lemma decimalFrom_spec first s :
  decimalFrom first false s = true ↔
  allDigits s = true ∨ ∃ a b, s = a +:+ String "." b ∧ allDigits a = true ∧ allDigits b = true ∧
    (first = true → a ≠ "").
Proof.
  split.
  - revert first. induction s as [|c s IH]; intros first; [by left|]. cbn [decimalFrom allDigits].
    case_bool_decide as Hc.
    + intros [H|(a & b & -> & Ha & Hb & _)]%IH; [by left|]. right. exists (String c a), b.
      cbn [allDigits]. by rewrite bool_decide_eq_true_2.
    + destruct (bool_decide (c = "."%char)) eqn:Hdot; [|done]. apply bool_decide_eq_true in Hdot as ->.
      cbn [andb negb]. destruct first; [done|]. intros H%decimalFrom_dotted. right. by exists "", s.
  - intros [H|(a & b & -> & Ha & Hb & Hne)].
    + rewrite <- (string_app_nil s), decimalFrom_digits by done. done.
    + rewrite decimalFrom_digits by done. cbn [decimalFrom]. rewrite dot_no_digit.
      rewrite bool_decide_eq_false_2 by (by intros [? ?]). rewrite bool_decide_eq_true_2 by done.
      replace (first && bool_decide (a = "")) with false; [by apply decimalFrom_dotted|].
      destruct first; [|done]. cbn. by rewrite bool_decide_eq_false_2 by auto.
Qed.

Lemma lastByte_app s c t : lastByte (s +:+ String c t) = lastByte (String c t).
Proof.
  induction s as [|d s IH]; [done|]. rewrite app_cons_l.
  destruct (s +:+ String c t) eqn:E; [by destruct s|]. exact IH.
Qed.

Lemma lastByte_digits s : allDigits s = true → lastByte s ≠ Some "."%char.
Proof.
  induction s as [|c s IH]; [done|]. cbn [allDigits]. intros [Hc Hs]%andb_prop.
  destruct s as [|d s]; [|by apply IH]. cbn. intros [= ->]. by apply bool_decide_eq_true in Hc as [? ?].
Qed.

Lemma decimalish_spec s : s ≠ "" → decimalish s = true ↔ decimal s.
Proof.
  intros Hs. unfold decimalish, decimal. rewrite andb_true_iff, bool_decide_eq_true, decimalFrom_spec.
  split.
  - intros [[H|(a & b & -> & Ha & Hb & Hne)] Hl]; [by exists s; auto|].
    exists a. split_and!; [by apply Hne|done|]. right. exists b. split_and!; try done.
    intros ->. by rewrite lastByte_app in Hl.
  - intros (a & Hne & Ha & [->|(b & Hb & Hbd & ->)]).
    + split; [by left|by apply lastByte_digits].
    + split; [right; by exists a, b|]. rewrite lastByte_app. destruct b as [|c b]; [done|].
      change (lastByte (String "." (String c b))) with (lastByte (String c b)). by apply lastByte_digits.
Qed.

Definition printable (s : string) : Prop :=
  has_byte "000" s = false ∧ has_byte "010" s = false ∧ has_byte "013" s = false.

(** A position is accepted exactly when it is one: 1 to 512 bytes without NUL or line
    breaks; digits with at most one dot, which has digits on both sides, for seconds and
    pages; anything that begins "epubcfi(" for a CFI; no other unit. *)
Theorem progress_valid p :
  Validate p = None ↔
  (1 ≤ String.length (Locator p) ≤ 512)%nat ∧ printable (Locator p) ∧
  ((Unit_of p = UnitSeconds ∨ Unit_of p = UnitPage) ∧ decimal (Locator p) ∨
   Unit_of p = UnitCFI ∧ ∃ t, Locator p = "epubcfi(" +:+ t).
Proof.
  unfold Validate, printable. destruct p as [l u]. cbn [Locator Unit_of].
  case_bool_decide as Hl; [subst; split; [done|cbn; lia]|].
  assert (1 ≤ String.length l)%nat as H1 by (destruct l; cbn; [done|lia]).
  destruct (maxLocator <? String.length l)%nat eqn:Hlen.
  { apply Nat.ltb_lt in Hlen. unfold maxLocator in Hlen. split; [done|lia]. }
  apply Nat.ltb_ge in Hlen. unfold maxLocator in Hlen.
  destruct (has_byte "000" l), (has_byte "010" l), (has_byte "013" l); cbn [orb];
    try (by split; [|intros (_ & (? & ? & ?) & _)]).
  case_bool_decide as Hs; [|case_bool_decide as Hp; [|case_bool_decide as Hc]]; cbn [orb]; subst.
  1,2: rewrite <- (decimalish_spec l) by done; destruct (decimalish l); naive_solver.
  - rewrite <- HasPrefix_spec. destruct (HasPrefix l "epubcfi("); naive_solver.
  - naive_solver.
Qed.

(** ** The states of a session *)

(** The transitions of a life, each at an instant and with a position or none. *)
Fixpoint ApplyAll (s : Session) (ops : list (Transition * Z * option Progress)) : error + Session :=
  match ops with
  | [] => inr s
  | (t, now, p) :: ops => match Apply s t now p with inl e => inl e | inr s => ApplyAll s ops end
  end.

(** What a row says of its own past. *)
Definition coherent (s : Session) : Prop :=
  (ProgressOf s = zeroProgress ∨ Validate (ProgressOf s) = None) ∧
  (StateOf s = StateCreated ∧ StartedAt s = None ∧ EndedAt s = None ∧
     UpdatedAt s = CreatedAt s ∧ ProgressOf s = zeroProgress ∨
   (StateOf s = StatePlaying ∨ StateOf s = StatePaused) ∧ is_Some (StartedAt s) ∧ EndedAt s = None ∨
   StateOf s = StateStopped ∧ EndedAt s = Some (UpdatedAt s) ∨
   StateOf s = StateCompleted ∧ is_Some (StartedAt s) ∧ EndedAt s = Some (UpdatedAt s)).

Definition same_session (b s : Session) : Prop :=
  ID s = ID b ∧ AssetID s = AssetID b ∧ DeviceID s = DeviceID b ∧ VerbOf s = VerbOf b ∧
  CreatedAt s = CreatedAt b.

Lemma same_session_refl s : same_session s s.
Proof. done. Qed.

(** The table, pair by pair. *)
Lemma Next_inv from t to : Next from t = inr to →
  from = StateCreated ∧ (t = TransitionStart ∧ to = StatePlaying ∨ t = TransitionStop ∧ to = StateStopped) ∨
  (from = StatePlaying ∧ t = TransitionPause ∧ to = StatePaused) ∨
  (from = StatePaused ∧ t = TransitionResume ∧ to = StatePlaying) ∨
  (from = StatePlaying ∨ from = StatePaused) ∧
    (t = TransitionProgress ∧ to = from ∨ t = TransitionStop ∧ to = StateStopped ∨
     t = TransitionComplete ∧ to = StateCompleted).
Proof.
  unfold Next. destruct (table !! from) as [al|] eqn:E; [|done].
  destruct (al !! t) as [to'|] eqn:E'; [|done]. intros [= ->]. unfold table in E.
  repeat (apply lookup_insert_Some in E as [[<- <-]|[_ E]];
    [repeat (apply lookup_insert_Some in E' as [[<- <-]|[_ E']]; [naive_solver|]);
     try (apply lookup_singleton_Some in E' as [<- <-]; naive_solver); try done|]).
  apply lookup_singleton_Some in E as [<- <-]. done.
Qed.

Lemma Apply_inv s t now p s' : Apply s t now p = inr s' →
  Next (StateOf s) t = inr (StateOf s') ∧ same_session s s' ∧ UpdatedAt s' = now ∧
  ProgressOf s' = default (ProgressOf s) p ∧ (p ≫= Validate) = None ∧
  StartedAt s' = (if bool_decide (t = TransitionStart) && bool_decide (StartedAt s = None)
                  then Some now else StartedAt s) ∧
  EndedAt s' = (if Terminal (StateOf s') then Some now else EndedAt s).
Proof.
  unfold Apply. destruct (Next (StateOf s) t) as [e|to]; [done|].
  destruct (p ≫= Validate) as [e|] eqn:Ep; [done|]. intros [= <-]. by cbn.
Qed.

Lemma Apply_coherent s t now p s' : coherent s → Apply s t now p = inr s' → coherent s'.
Proof.
  intros [Hp Hs] H. apply Apply_inv in H as (HN & _ & HU & HP & HV & HS & HE).
  split.
  { rewrite HP. destruct p as [p|]; [by right|done]. }
  unfold is_Some in *. rewrite HS, HE, HU, HP.
  apply Next_inv in HN as [[Hf [[Ht Hto]|[Ht Hto]]]|[(Hf & Ht & Hto)|[(Hf & Ht & Hto)|[Hf [[Ht Hto]|[[Ht Hto]|[Ht Hto]]]]]]];
    rewrite ?Hto in *; subst t; cbn [Terminal];
    destruct Hs as [(H1 & H2 & H3 & H4 & H5)|[(H1 & H2 & H3)|[(H1 & H2)|(H1 & H2 & H3)]]];
    try (destruct Hf as [Hf|Hf]); try (destruct H1 as [H1|H1]); rewrite ?H1 in *; try discriminate;
    rewrite ?H2; cbn; naive_solver.
Qed.

Lemma ApplyAll_inv b ops s : coherent b → ApplyAll b ops = inr s → coherent s ∧ same_session b s.
Proof.
  revert b. induction ops as [|[[t now] p] ops IH]; intros b Hb; cbn.
  - by intros [= ->].
  - destruct (Apply b t now p) as [e|b'] eqn:E; [done|]. intros H.
    destruct (IH b' (Apply_coherent _ _ _ _ _ Hb E) H) as [Hc Hsame].
    apply Apply_inv in E as (_ & Hs & _). unfold same_session in *. intuition congruence.
Qed.

Lemma newSession_coherent id asset device verb now : coherent (newSession id asset device verb now).
Proof. split; [by left|]. by left. Qed.

Lemma Apply_ok s t now p to : Next (StateOf s) t = inr to → (p ≫= Validate) = None →
  Apply s t now p = inr (mkSession (ID s) (AssetID s) (DeviceID s) (VerbOf s) to (default (ProgressOf s) p)
    (CreatedAt s) now
    (if bool_decide (t = TransitionStart) && bool_decide (StartedAt s = None) then Some now else StartedAt s)
    (if Terminal to then Some now else EndedAt s)).
Proof. intros HN HV. unfold Apply. by rewrite HN, HV. Qed.

(** The position a session ended with, as the one transition that recorded it. *)
Lemma progress_arg p : p = zeroProgress ∨ Validate p = None →
  ∃ o, (o ≫= Validate) = None ∧ default zeroProgress o = p.
Proof. intros [->|H]; [by exists None|by exists (Some p)]. Qed.

(** The states a session can reach, from its creation by any transitions at any
    instants with any positions, are exactly the coherent ones: not started means no start,
    no end and no position; playing or paused means started and not ended; stopped may never
    have started; completed has; an end is the last update; a position is valid or none. *)
Theorem session_reachable s :
  (∃ ops, ApplyAll (newSession (ID s) (AssetID s) (DeviceID s) (VerbOf s) (CreatedAt s)) ops = inr s) ↔
  coherent s.
Proof.
  split.
  { intros [ops H]. by apply ApplyAll_inv in H as [H _]; [|apply newSession_coherent]. }
  destruct s as [id a d v st p c u sa e].
  intros [Hp H]. cbn [ID AssetID DeviceID VerbOf CreatedAt StateOf ProgressOf UpdatedAt StartedAt EndedAt] in *.
  destruct (progress_arg p Hp) as (o & Ho & Hd).
  assert (∀ t1 to1 n1 t2 n2 to2 o1, Next StateCreated t1 = inr to1 → Next to1 t2 = inr to2 →
    (o1 ≫= Validate) = None →
    ApplyAll (newSession id a d v c) [(t1, n1, o1); (t2, n2, None)] =
    inr (mkSession id a d v to2 (default zeroProgress o1) c n2
      (let s1 := if bool_decide (t1 = TransitionStart) then Some n1 else None in
       if bool_decide (t2 = TransitionStart) && bool_decide (s1 = None) then Some n2 else s1)
      (if Terminal to2 then Some n2 else if Terminal to1 then Some n1 else None))) as Htwo.
  { intros t1 to1 n1 t2 n2 to2 o1 HN1 HN2 HV. cbn [ApplyAll].
    rewrite (Apply_ok _ _ _ _ to1) by done. rewrite (Apply_ok _ _ _ _ to2) by done.
    cbn. by rewrite andb_true_r. }
  destruct H as [(-> & -> & -> & -> & ->)|[([->| ->] & [st0 ->] & ->)|[(-> & ->)|(-> & [st0 ->] & ->)]]].
  - by exists [].
  - exists [(TransitionStart, st0, o); (TransitionProgress, u, None)].
    rewrite (Htwo _ StatePlaying _ _ _ StatePlaying) by done. by rewrite Hd.
  - exists [(TransitionStart, st0, o); (TransitionPause, u, None)].
    rewrite (Htwo _ StatePlaying _ _ _ StatePaused) by done. by rewrite Hd.
  - destruct sa as [st0|].
    + exists [(TransitionStart, st0, o); (TransitionStop, u, None)].
      rewrite (Htwo _ StatePlaying _ _ _ StateStopped) by done. by rewrite Hd.
    + exists [(TransitionStop, u, o)]. cbn [ApplyAll].
      rewrite (Apply_ok _ _ _ _ StateStopped) by done. cbn. by rewrite Hd.
  - exists [(TransitionStart, st0, o); (TransitionComplete, u, None)].
    rewrite (Htwo _ StatePlaying _ _ _ StateCompleted) by done. by rewrite Hd.
Qed.

(** ** The rows of the table *)

Definition good_row (id : string) (s : Session) : Prop :=
  ID s = id ∧ VerbOf s ∈ Verbs ∧ coherent s.

Definition history (id : string) (log : list Event) : list Event :=
  filter (λ e, Subject e = id) log.

(** The events of a life: what happened to a session that is in state [st] now. *)
Definition life_of (id : string) (ops : list (Transition * State)) : list Event :=
  mkEvent eventSessionCreated id "" "" :: ((λ ts, mkEvent (EventType ts.1) id ts.2 ts.1) <$> ops).

Inductive path : State → list (Transition * State) → State → Prop :=
  | path_nil s : path s [] s
  | path_cons s t s' ops s'' : Next s t = inr s' → path s' ops s'' → path s ((t, s') :: ops) s''.

Lemma path_snoc s ops s' t s'' : path s ops s' → Next s' t = inr s'' → path s (ops ++ [(t, s'')]) s''.
Proof. induction 1; intros HN; cbn; econstructor; eauto using path. Qed.

(** A row and the log agree: the last of the session's events are its creation and one
    event for each transition on a path of the table to the state the row is in. *)
Definition agrees (log : list Event) (s : Session) : Prop :=
  ∃ earlier ops, history (ID s) log = earlier ++ life_of (ID s) ops ∧ path StateCreated ops (StateOf s).

Definition sound (d : DB) : Prop :=
  map_Forall (λ id s, good_row id s ∧ agrees (events d) s) (sessions d).

Lemma coherent_check s : coherent s → VerbOf s ∈ Verbs → check_row s = true.
Proof.
  intros [Hp Hs] Hv. unfold check_row. rewrite (bool_decide_eq_true_2 _ Hv).
  assert (StateOf s ∈ States ∧
    (bool_decide (StateOf s ∈ [StateStopped; StateCompleted]) && bool_decide (is_Some (EndedAt s)) ||
     bool_decide (StateOf s ∈ [StateCreated; StatePlaying; StatePaused]) && bool_decide (EndedAt s = None)) = true)
    as [H1 H2].
  { destruct Hs as [(-> & _ & -> & _)|[([->| ->] & _ & ->)|[(-> & ->)|(-> & _ & ->)]]];
      (split; [by apply (bool_decide_unpack _)|done]). }
  rewrite H2, (bool_decide_eq_true_2 _ H1), andb_true_r. cbn [andb].
  assert (Unit_of (ProgressOf s) ∈ Units ∨ ProgressOf s = zeroProgress) as Hu.
  { destruct Hp as [->|Hv']; [by right|left]. apply progress_valid in Hv' as (_ & _ & Hu).
    destruct Hu as [[[->| ->] _]|[-> _]]; by apply (bool_decide_unpack _). }
  destruct Hu as [Hu| ->]; [|done].
  rewrite bool_decide_eq_true_2 by (by right). cbn [andb].
  rewrite (bool_decide_eq_true_2 (Unit_of _ ≠ "")); [by rewrite orb_true_r|].
  intros E. rewrite E in Hu. by apply (bool_decide_pack _) in Hu.
Qed.

Lemma history_snoc id log e :
  history id (log ++ [e]) = history id log ++ (if decide (Subject e = id) then [e] else []).
Proof. unfold history. rewrite filter_app. by rewrite filter_cons. Qed.

Lemma agrees_other log e s : Subject e ≠ ID s → agrees log s → agrees (log ++ [e]) s.
Proof.
  intros Hne (pre & ops & H & Hp). exists pre, ops. split; [|done].
  rewrite history_snoc, decide_False, app_nil_r by done. done.
Qed.

Lemma agrees_created log s : StateOf s = StateCreated → agrees (log ++ [mkEvent eventSessionCreated (ID s) "" ""]) s.
Proof.
  intros Hs. exists (history (ID s) log), []. rewrite Hs. split; [|constructor].
  by rewrite history_snoc, decide_True by done.
Qed.

Lemma agrees_step log s t s' : ID s' = ID s → Next (StateOf s) t = inr (StateOf s') → agrees log s →
  agrees (log ++ [mkEvent (EventType t) (ID s) (StateOf s') t]) s'.
Proof.
  intros Hid HN (pre & ops & H & Hp). exists pre, (ops ++ [(t, StateOf s')]).
  rewrite Hid. split; [|by eapply path_snoc].
  rewrite history_snoc, decide_True, H by done. unfold life_of. by rewrite fmap_app, <- app_assoc.
Qed.

(** Another row changes and an event of its own is added: the others still agree. *)
Lemma sound_put d s e : sound d → good_row (ID s) s → Subject e = ID s →
  agrees (events d ++ [e]) s →
  sound (mkDB (<[ID s := s]> (sessions d)) (assets d) (devices d) (events d ++ [e])).
Proof.
  intros Hd Hg He Ha id s' Hs'. cbn in *. apply lookup_insert_Some in Hs' as [[<- <-]|[Hne Hs']]; [done|].
  destruct (Hd _ _ Hs') as [Hg' Ha']. split; [done|]. apply agrees_other; [|done].
  destruct Hg' as [-> _]. congruence.
Qed.

Definition inserted (s : Session) (d : DB) : DB :=
  mkDB (<[ID s := s]> (sessions d)) (assets d) (devices d)
    (events d ++ [mkEvent eventSessionCreated (ID s) "" ""]).

Lemma openSession_exact id a dv v now d : v ∈ Verbs →
  openSession (newSession id a dv v now) d =
    if bool_decide (is_Some (sessions d !! id)) then inl ErrDatabase
    else if bool_decide (assets d !! a = None) || bool_decide (devices d !! dv = None) then inl ErrForeignKey
    else inr (inserted (newSession id a dv v now) d).
Proof.
  intros Hv. unfold openSession, insertSession. cbn [ID newSession AssetID DeviceID].
  rewrite coherent_check by (try apply newSession_coherent; done).
  destruct (bool_decide (is_Some (sessions d !! id))); [done|]. cbn [negb orb].
  by destruct (_ || _).
Qed.

Lemma openSession_sound id a dv v now d : v ∈ Verbs → sound d →
  sound (match openSession (newSession id a dv v now) d with inr d' => d' | inl _ => d end).
Proof.
  intros Hv Hd. rewrite openSession_exact by done. repeat case_match; try done; simplify_eq.
  apply (sound_put d (newSession id a dv v now)); [done| |done|by apply agrees_created].
  split_and!; [done..|]. apply newSession_coherent.
Qed.

Definition moved (s : Session) (t : Transition) (d : DB) : DB :=
  mkDB (<[ID s := s]> (sessions d)) (assets d) (devices d)
    (events d ++ [mkEvent (EventType t) (ID s) (StateOf s) t]).

(** What the transaction of a transition does on a sound table: no CHECK ever refuses it. *)
Lemma transition_exact id t p now d : sound d →
  applySessionTransition id t p now d =
    match sessions d !! id with
    | None => inl ErrNoRows
    | Some s => match Apply s t now p with inl e => inl e | inr s' => inr (s', moved s' t d) end
    end.
Proof.
  intros Hd. unfold applySessionTransition. destruct (sessions d !! id) as [s|] eqn:E; [|done].
  destruct (Hd _ _ E) as [(Hid & Hv & Hc) _]. subst id.
  destruct (Apply s t now p) as [e|s'] eqn:EA; [done|].
  pose proof (Apply_coherent _ _ _ _ _ Hc EA) as Hc'.
  apply Apply_inv in EA as (_ & (H1 & H2 & H3 & H4 & H5) & _).
  unfold updateSession. rewrite H1, E.
  rewrite <- H1 at 2. rewrite <- H2, <- H3, <- H4, <- H5. rewrite H1.
  assert (mkSession (ID s) (AssetID s') (DeviceID s') (VerbOf s') (StateOf s') (ProgressOf s')
    (CreatedAt s') (UpdatedAt s') (StartedAt s') (EndedAt s') = s') as -> by (rewrite <- H1; by destruct s').
  rewrite coherent_check by (done || by rewrite H4). unfold moved. by rewrite H1.
Qed.

Lemma transition_sound id t p now d s' d' : sound d →
  applySessionTransition id t p now d = inr (s', d') → sound d'.
Proof.
  intros Hd. rewrite transition_exact by done. destruct (sessions d !! id) as [s|] eqn:E; [|done].
  destruct (Hd _ _ E) as [(Hid & Hv & Hc) Ha].
  destruct (Apply s t now p) as [e|s''] eqn:EA; [done|]. intros [= <- <-].
  pose proof (Apply_coherent _ _ _ _ _ Hc EA) as Hc'.
  apply Apply_inv in EA as (HN & (H1 & H2 & H3 & H4 & H5) & _).
  apply sound_put; [done| |done|].
  - split_and!; [done|by rewrite H4|done].
  - rewrite H1. by apply agrees_step.
Qed.

Lemma sound_same d d' : sound d → sessions d' ⊆ sessions d → events d' = events d → sound d'.
Proof. intros Hd Hs He id s H. rewrite He. apply Hd. by eapply lookup_weaken. Qed.

Lemma ParseVerb_in s v : ParseVerb s = Some v → v ∈ Verbs.
Proof.
  unfold ParseVerb. destruct (filter _ _) as [|x l] eqn:E; [done|]. intros [= ->].
  assert (v ∈ filter (λ v, v = s) Verbs) as H by (rewrite E; by left).
  by apply list_elem_of_filter in H as [_ ?].
Qed.

(** The one place a verb that is not validated could come from is the node itself. *)
Definition step_ok (st : Step) : Prop :=
  match st with SOpen _ _ _ verb _ => verb ∈ Verbs | _ => True end.

Lemma poll_db s a now d : sound d →
  (poll s a now d).2 = d ∨
  ∃ t p s', pollOne s a = Some (t, p) ∧ applySessionTransition (SessionID s) t p now d = inr (s', (poll s a now d).2).
Proof.
  intros Hd. unfold poll. destruct (pollOne s a) as [[t p]|]; [|by left].
  unfold transition. destruct (applySessionTransition _ _ _ _ _) as [e|[s' d']] eqn:E.
  - left. by destruct e.
  - right. by exists t, p, s'.
Qed.

Lemma session_step_sound st y : step_ok st → sound (db y) → sound (db (step st y)).
Proof.
  intros Hok Hd. destruct st as [body id now|id a dv v now|id t p now| |a now|id a|id|id dv]; cbn [step db].
  - unfold createSession. case_match; [done|]. destruct (ParseVerb _) as [v|] eqn:Ev; [|done].
    pose proof (openSession_sound id (cAsset body) (cDevice body) v now _ (ParseVerb_in _ _ Ev) Hd) as HS.
    destruct (openSession _ _) as [[]|]; exact HS.
  - by apply openSession_sound.
  - unfold applyTransition. destruct (parseTransition t) as [t'|]; [|done].
    destruct (applySessionTransition _ _ _ _ _) as [e|[s' d']] eqn:E; [by destruct e|].
    by eapply transition_sound.
  - done.
  - destruct (polling y) as [|s rest]; [done|]. cbn [db].
    destruct (poll_db s a now (db y) Hd) as [-> |(t & p & s' & _ & H)]; [done|]. by eapply transition_sound.
  - by apply (sound_same (db y)).
  - apply (sound_same (db y)); [done| |done]. apply map_filter_subseteq.
  - by apply (sound_same (db y)).
Qed.

Lemma system_run_snoc steps st : run (steps ++ [st]) = step st (run steps).
Proof. unfold run. by rewrite foldl_app. Qed.

Lemma run_sound steps : Forall step_ok steps → sound (db (run steps)).
Proof.
  induction steps as [|st steps IH] using rev_ind; [done|].
  rewrite Forall_app, Forall_singleton. intros [H1 H2]. rewrite system_run_snoc. by apply session_step_sound; auto.
Qed.

(** C19. Under any interleaving of clients opening and moving sessions, of polls (each acting
    on what the beat's query found earlier), and of assets and devices coming and going,
    every row stays coherent, and the log says how it got there: the last of its events are
    its creation and one event for each transition, on a path of the table that ends in the
    state the row is in. *)
Theorem sessions_sound steps id s : Forall step_ok steps →
  sessions (db (run steps)) !! id = Some s →
  ID s = id ∧ coherent s ∧ agrees (events (db (run steps))) s.
Proof.
  intros Hok H. destruct (run_sound _ Hok _ _ H) as [(H1 & _ & H2) H3]. done.
Qed.

Definition beat_steps : list Step :=
  [SAsset "a1" (mkAsset (Some "blake3:00") None); SDevice "d1" (mkDevice "uuid:tv" rendererPlatform);
   SOpen "s1" "a1" "d1" "watch" 100; STransition "s1" "start" None 101; SBeat].
Definition beat_live : liveSession := mkLive "s1" StatePlaying "uuid:tv" "a1" "blake3:00".
Definition demo_steps : list Step :=
  beat_steps ++ [SPoll (Answered TransportPlaying (Some (mkPosition (65 * Second) 0 ""))) 102].

Lemma sessions_sound_witness :
  ∃ s, sessions (db (run demo_steps)) !! "s1" = Some s ∧ ID s = "s1" ∧ coherent s ∧
       agrees (events (db (run demo_steps))) s.
Proof.
  eexists. split; [by vm_compute|]. apply (sessions_sound demo_steps).
  - by repeat constructor.
  - by vm_compute.
Defined.

(** ** What a client is answered *)

Lemma parseTransition_spec t : parseTransition t = if bool_decide (t ∈ Transitions) then Some t else None.
Proof.
  unfold parseTransition. case_bool_decide as H; [subst; by vm_compute|]. case_bool_decide as Ht.
  - unfold Transitions in Ht. repeat (apply elem_of_cons in Ht as [->|Ht]; [by vm_compute|]).
    by apply elem_of_nil in Ht.
  - destruct (filter _ _) as [|x l] eqn:E; [done|]. exfalso. apply Ht.
    assert (x ∈ filter (λ t', t' = t) Transitions) as [-> ?]%list_elem_of_filter by (rewrite E; by left). done.
Qed.

Lemma Apply_error s t now p e : Apply s t now p = inl e →
  e = ErrIllegalTransition ∧ Next (StateOf s) t = inl e ∨
  e = ErrInvalidProgress ∧ (∃ to, Next (StateOf s) t = inr to) ∧ ∃ q, p = Some q ∧ Validate q ≠ None.
Proof.
  unfold Apply. destruct (Next (StateOf s) t) as [e'|to] eqn:E.
  - intros [= <-]. left. split; [|done]. unfold Next in E. by repeat case_match; simplify_eq.
  - destruct (p ≫= Validate) as [e'|] eqn:Ev; [|done]. intros [= <-]. right.
    destruct p as [q|]; [|done]. cbn in Ev. split; [|split; [by eexists|exists q; by rewrite Ev]].
    unfold Validate in Ev. by repeat case_match; simplify_eq.
Qed.

(** C20. What a client is answered when it moves a session, on every branch: 400 for a word
    that is no transition, 404 for no such session, 409 for a move its state does not allow,
    400 for a position that is none, and otherwise 200 with the moved session, that row and
    one event written.  A refusal writes nothing, and the constraints of the table never
    turn an answer into a 500. *)
Theorem transition_answers steps id t p now : Forall step_ok steps →
  let d := db (run steps) in
  match applyTransition id t p now d with
  | (OK s', d') => ∃ s, sessions d !! id = Some s ∧ t ∈ Transitions ∧ Apply s t now p = inr s' ∧ d' = moved s' t d
  | (BadRequest, d') => d' = d ∧
      (t ∉ Transitions ∨ ∃ s to q, sessions d !! id = Some s ∧ Next (StateOf s) t = inr to ∧
                                   p = Some q ∧ Validate q ≠ None)
  | (NotFound, d') => d' = d ∧ t ∈ Transitions ∧ sessions d !! id = None
  | (Conflict, d') => d' = d ∧ t ∈ Transitions ∧
      ∃ s, sessions d !! id = Some s ∧ Next (StateOf s) t = inl ErrIllegalTransition
  | _ => False
  end.
Proof.
  intros Hok d. pose proof (run_sound _ Hok) as Hd. fold d in Hd.
  unfold applyTransition. rewrite parseTransition_spec. case_bool_decide as Ht; [|by auto].
  rewrite transition_exact by done. destruct (sessions d !! id) as [s|] eqn:E; [|done].
  destruct (Apply s t now p) as [e|s'] eqn:EA; [|by exists s].
  apply Apply_error in EA as [[-> H]|(-> & [to HN] & q & -> & Hq)].
  - split_and!; [done..|by exists s].
  - split; [done|]. right. by exists s, to, q.
Qed.

Lemma transition_answers_witness :
  match applyTransition "s1" "resume" None 103 (db (run demo_steps)) with
  | (Conflict, d') => d' = db (run demo_steps) ∧ "resume" ∈ Transitions ∧
      ∃ s, sessions (db (run demo_steps)) !! "s1" = Some s ∧ Next (StateOf s) "resume" = inl ErrIllegalTransition
  | _ => False
  end.
Proof.
  assert (Forall step_ok demo_steps) as Hok by (by repeat constructor).
  pose proof (transition_answers demo_steps "s1" "resume" None 103 Hok) as H.
  assert ((applyTransition "s1" "resume" None 103 (db (run demo_steps))).1 = Conflict) as E by (by vm_compute).
  cbv zeta in H. destruct (applyTransition "s1" "resume" None 103 (db (run demo_steps))) as [a d'].
  cbn in E. subst a. exact H.
Defined.

(** ** What a poll writes *)

(** A position as a device's response reads. *)
Definition answer_ok (a : RendererAnswer) : Prop :=
  match a with
  | Answered _ (Some p) => ∃ rel dur uri, p = readPosition rel dur uri
  | _ => True
  end.

Lemma addField_range l t : - 2 ^ 63 ≤ default 0 t < 2 ^ 63 → - 2 ^ 63 ≤ default 0 (foldl addField t l) < 2 ^ 63.
Proof.
  revert t. induction l as [|x l IH]; intros t Ht; cbn; [done|]. apply IH. unfold addField.
  destruct t as [t|]; cbn; [|lia]. destruct (ParseInt _) as [n|]; cbn; [|lia].
  destruct (n <? 0); cbn; [lia|]. apply wrap_i64_range.
Qed.

Lemma parseDuration_range s : - 2 ^ 63 ≤ parseDuration s < 2 ^ 63.
Proof.
  unfold parseDuration. destruct (_ || _); [lia|]. cbv zeta. destruct (_ =? 3)%nat; [|lia].
  by apply addField_range.
Qed.

Lemma seconds_valid z : 0 ≤ z < 2 ^ 63 → Validate (mkProgress (FormatInt z) UnitSeconds) = None.
Proof.
  intros Hz. rewrite <- (Z2N.id z), FormatInt_nat by lia. set (n := Z.to_N z).
  assert (n < 2 ^ 63)%N as Hn by lia.
  pose proof (readNat_pretty n) as Hr. unfold readNat in Hr. case_bool_decide as Hne; [done|].
  destruct (allDigits (pretty n)) eqn:Ed; [|done]. clear Hr.
  apply progress_valid. cbn [Locator Unit_of]. split_and!.
  - destruct (pretty n) eqn:E; [done|]. cbn. lia.
  - unfold pretty, pretty_N. case_decide; [cbn; lia|].
    etrans; [apply (length_pretty_go 19); lia|]. cbn. lia.
  - assert (∀ b, digitVal 10 b = None → b ≠ "-"%char → has_byte b (pretty n) = false) as Hb.
    { intros b H1 H2. rewrite <- FormatInt_nat. by apply has_byte_FormatInt. }
    split_and!; by apply Hb.
  - left. split; [by left|]. exists (pretty n). by auto.
Qed.

Lemma progressFrom_spec pos q : progressFrom pos = Some q →
  ∃ p, pos = Some p ∧ 0 < Elapsed p ∧ q = mkProgress (FormatInt (Z.quot (Elapsed p) Second)) UnitSeconds.
Proof.
  unfold progressFrom. destruct pos as [p|]; cbn; [|done].
  destruct (Z.leb_spec (Elapsed p) 0); [done|]. intros [= <-]. by exists p.
Qed.

Lemma progressFrom_valid pos st : answer_ok (Answered st pos) → (progressFrom pos ≫= Validate) = None.
Proof.
  intros Ha. destruct (progressFrom pos) as [q|] eqn:E; [|done].
  apply progressFrom_spec in E as (p & -> & He & ->). cbn in *. destruct Ha as (rel & dur & uri & ->).
  apply seconds_valid. cbn in *. pose proof (parseDuration_range rel) as Hr.
  unfold Second, Nanosecond. rewrite Z.quot_div_nonneg by lia.
  split; [apply Z.div_pos; lia|]. apply Z.div_lt_upper_bound; lia.
Qed.

(** Every decision carries the position it was given, or none. *)
Lemma pollOne_inv s a t q : pollOne s a = Some (t, q) →
  ∃ st pos, a = Answered st pos ∧
    (q = None ∨ foreign s pos = false ∧ q = progressFrom pos) ∧
    (foreign s pos = true → t = TransitionStop ∧ q = None).
Proof.
  destruct a as [| |st pos]; [done..|]. cbn [pollOne]. intros H. exists st, pos. split; [done|].
  destruct (foreign s pos); [by simplify_eq; auto|].
  split; [|done]. unfold recordPlaying in H.
  repeat case_match; simplify_eq; auto.
Qed.

Lemma pollOne_valid s a t q : answer_ok a → pollOne s a = Some (t, q) → (q ≫= Validate) = None.
Proof.
  intros Ha H. apply pollOne_inv in H as (st & pos & -> & [->|[_ ->]] & _); [done|].
  by eapply progressFrom_valid.
Qed.

(** A move the row's state allows is made. *)
Lemma transition_moves s t q now d row to : sound d →
  sessions d !! SessionID s = Some row → Next (StateOf row) t = inr to → (q ≫= Validate) = None →
  ∃ row', transition s t q now d = (None, moved row' t d) ∧ same_session row row' ∧ StateOf row' = to ∧
    ProgressOf row' = default (ProgressOf row) q ∧ sessions (moved row' t d) !! SessionID s = Some row'.
Proof.
  intros Hd Hrow HN HV. destruct (Hd _ _ Hrow) as [(Hid & _ & _) _]. unfold transition. rewrite transition_exact, Hrow by done.
  destruct (Apply row t now q) as [e|row'] eqn:EA; [by rewrite (Apply_ok _ _ _ _ to) in EA|].
  apply Apply_inv in EA as (HN' & Hs & _ & HP & _). exists row'. cbn. split_and!; [done|done|congruence|done|].
  destruct Hs as [-> _]. rewrite Hid. by rewrite lookup_insert_eq.
Qed.

(** A session that has not ended can be stopped, and completed once it has begun. *)
Lemma coherent_stops row : coherent row → Terminal (StateOf row) = false →
  Next (StateOf row) TransitionStop = inr StateStopped ∧
  (StateOf row ≠ StateCreated → Next (StateOf row) TransitionComplete = inr StateCompleted).
Proof.
  intros [_ Hc] Ht. destruct Hc as [(-> & _)|[([->| ->] & _)|[(E & _)|(E & _)]]]; try done; rewrite E in Ht; done.
Qed.



(** A beat follows a renderer that plays what it was given: when the row is still as the
    beat found it and the renderer says PLAYING with a position, a session that was created
    starts, a paused one resumes and a playing one goes on, at that position in whole
    seconds; a playing one within 30 seconds of a known end completes instead, and keeps its
    last position. *)
Theorem poll_follows steps s rest p now row rel dur uri : Forall step_ok steps →
  polling (run steps) = s :: rest → p = readPosition rel dur uri →
  sessions (db (run steps)) !! SessionID s = Some row → StateOf row = LiveState s →
  Terminal (StateOf row) = false →
  foreign s (Some p) = false → 0 < Elapsed p →
  ∃ row', sessions (db (step (SPoll (Answered TransportPlaying (Some p)) now) (run steps))) !! SessionID s = Some row' ∧
    same_session row row' ∧
    if bool_decide (StateOf row = StatePlaying) && nearEnd p
    then StateOf row' = StateCompleted ∧ ProgressOf row' = ProgressOf row
    else StateOf row' = StatePlaying ∧
         ProgressOf row' = mkProgress (FormatInt (Z.quot (Elapsed p) Second)) UnitSeconds.
Proof.
  intros Hok Hpoll Hp Hrow Hst Hterm Hfor He. pose proof (run_sound _ Hok) as Hd.
  cbn [step]. rewrite Hpoll. cbn [db]. unfold poll. cbn [pollOne]. rewrite Hfor, decide_True by done.
  assert (answer_ok (Answered TransportPlaying (Some p))) as Ha by (by exists rel, dur, uri).
  pose proof (progressFrom_valid _ _ Ha) as HV.
  assert (progressFrom (Some p) = Some (mkProgress (FormatInt (Z.quot (Elapsed p) Second)) UnitSeconds)) as HP.
  { unfold progressFrom. cbn. by destruct (Z.leb_spec (Elapsed p) 0); [lia|]. }
  destruct (Hd _ _ Hrow) as [(Hid & _ & _) _].
  assert (∀ t q to, Next (StateOf row) t = inr to → (q ≫= Validate) = None →
    ∃ row', sessions (transition s t q now (db (run steps))).2 !! SessionID s = Some row' ∧ same_session row row' ∧
      StateOf row' = to ∧ ProgressOf row' = default (ProgressOf row) q) as Hgo.
  { intros t q to HN HVq. unfold transition. rewrite transition_exact, Hrow by done.
    destruct (Apply row t now q) as [e|row'] eqn:EA; [by rewrite (Apply_ok _ _ _ _ to) in EA|].
    apply Apply_inv in EA as (HN' & Hs & _ & HP' & _). exists row'. cbn.
    split; [|split_and!; [done|congruence|done]]. destruct Hs as [-> _]. rewrite Hid. by rewrite lookup_insert_eq. }
  unfold recordPlaying. rewrite <- Hst, HP.
  assert (StateOf row = StateCreated ∨ StateOf row = StatePlaying ∨ StateOf row = StatePaused) as [E|[E|E]].
  { destruct (Hd _ _ Hrow) as [(_ & _ & _ & Hc) _].
    destruct Hc as [(-> & _)|[([->| ->] & _)|[(E & _)|(E & _)]]]; auto; rewrite E in Hterm; done. }
  - rewrite decide_True, E by done. cbn [bool_decide decide_rel andb].
    destruct (Hgo TransitionStart (progressFrom (Some p)) StatePlaying) as (row' & H); [by rewrite E|done|].
    rewrite HP in H. exists row'. naive_solver.
  - rewrite E. rewrite decide_False, decide_False by done. rewrite (bool_decide_eq_true_2 (StatePlaying = _)) by done.
    cbn [andb]. destruct (nearEnd p).
    + destruct (Hgo TransitionComplete None StateCompleted) as (row' & H); [by rewrite E|done|].
      exists row'. naive_solver.
    + destruct (Hgo TransitionProgress (progressFrom (Some p)) StatePlaying) as (row' & H); [by rewrite E|done|].
      rewrite HP in H. exists row'. naive_solver.
  - rewrite E. rewrite decide_False, decide_True by done.
    destruct (Hgo TransitionResume (progressFrom (Some p)) StatePlaying) as (row' & H); [by rewrite E|done|].
    rewrite HP in H. exists row'. naive_solver.
Qed.

Lemma poll_follows_witness :
  ∃ row', sessions (db (step (SPoll (Answered TransportPlaying (Some (readPosition "0:10:00" "1:30:00" ""))) 103)
                          (run beat_steps))) !! SessionID beat_live = Some row' ∧
    ProgressOf row' = mkProgress "600" UnitSeconds.
Proof.
  assert (∃ row, sessions (db (run beat_steps)) !! SessionID beat_live = Some row ∧
    StateOf row = LiveState beat_live) as (row & Hrow & Hst) by (eexists; split; by vm_compute).
  destruct (poll_follows beat_steps beat_live [] (readPosition "0:10:00" "1:30:00" "") 103 row
    "0:10:00" "1:30:00" "") as (row' & H1 & H2 & H3).
  - by repeat constructor.
  - by vm_compute.
  - done.
  - done.
  - done.
  - by rewrite Hst.
  - by vm_compute.
  - by vm_compute.
  - exists row'. split; [done|]. rewrite Hst in H3.
    assert (bool_decide (LiveState beat_live = StatePlaying) && nearEnd (readPosition "0:10:00" "1:30:00" "") = false)
      as E by (by vm_compute).
    rewrite E in H3. rewrite (proj2 H3). by vm_compute.
Defined.

(** A beat that comes between the opening of a session and the push to the renderer finds it
    created and the renderer still stopped, or with no media, and ends it for good: no
    transition is legal any more, though the playback is about to start. *)
Lemma fresh_session_ended steps s rest now row st : Forall step_ok steps →
  polling (run steps) = s :: rest → st = TransportStopped ∨ st = TransportNoMediaPresent →
  sessions (db (run steps)) !! SessionID s = Some row → StateOf row = StateCreated →
  let d' := db (step (SPoll (Answered st None) now) (run steps)) in
  (∃ row', sessions d' !! SessionID s = Some row' ∧ StateOf row' = StateStopped ∧ StartedAt row' = None) ∧
  ∀ t q now', applySessionTransition (SessionID s) t q now' d' = inl ErrIllegalTransition.
Proof.
  intros Hok Hpoll Hst Hrow Hc. pose proof (run_sound _ Hok) as Hd.
  assert (∃ row', db (step (SPoll (Answered st None) now) (run steps)) = moved row' TransitionStop (db (run steps)) ∧
    ID row' = SessionID s ∧ StateOf row' = StateStopped ∧ StartedAt row' = None) as (row' & -> & Hid & Hs & Hst').
  { cbn [step]. rewrite Hpoll. cbn [db]. unfold poll.
    replace (pollOne s (Answered st None)) with (Some (TransitionStop, @None Progress)) by (by destruct Hst as [->| ->]).
    unfold transition. rewrite transition_exact, Hrow by done.
    rewrite (Apply_ok row TransitionStop now None StateStopped) by (by rewrite ?Hc).
    destruct (Hd _ _ Hrow) as [(Hid & _ & _ & Hcoh) _].
    eexists. split; [done|]. cbn. split_and!; try done.
    rewrite Hc in Hcoh. naive_solver. }
  cbn zeta. split.
  - exists row'. cbn. rewrite Hid. by rewrite lookup_insert_eq.
  - intros t q now'. unfold applySessionTransition. cbn. rewrite Hid, lookup_insert_eq.
    unfold Apply. rewrite Hs. unfold Next. by replace (table !! StateStopped) with (Some (∅ : gmap string string)) by (by vm_compute).
Qed.
