(* ===== verification/PlaybackLists.v ===== *)
(** * PlaybackLists: paging sessions, and the continue rail

    What a client that follows the cursors of listSessions sees while sessions move under
    it, which session stands for a work on the continue rail, and the order both are in:
    that of the stored texts, which within one second is not that of time. *)

From S2P Require Import Prelude GoText GoPath GoScan GoEncoding GoTime Paging Schedule.
From S2P Require Import Playback RendererProgress PlaybackSpec.

(** ** Following the cursor *)

(** A client that asks [q] again with each cursor, the table being [dbs i] at its [i]-th
    request; [None] is a refusal or a client that gave up. *)
Fixpoint follow (fuel : nat) (q : listQuery) (dbs : nat → DB) (i : nat) (c : option (string * string))
    : option (list Session) :=
  match fuel with
  | O => None
  | S fuel =>
      match listSessions (mkList (lState q) (lAsset q) (lDevice q) c (lLimit q)) (dbs i) with
      | None => None
      | Some (items, None) => Some items
      | Some (items, Some k) => (items ++.) <$> follow fuel q dbs (S i) (Some k)
      end
  end.

Definition rows (d : DB) : list Session := snd <$> map_to_list (sessions d).

Definition reachable (d : DB) : Prop := ∃ steps, Forall step_ok steps ∧ d = db (run steps).

#[export] Instance older_total : StrictTotal older.
Proof. apply (flip_total row_lt), _. Qed.

Lemma newest_sorted l : sorted_rows sortKey older None l = sort_by newest_less l.
Proof. unfold newest_less. apply sorted_all. Qed.

Lemma newest_strict l : NoDup (sortKey <$> l) →
  StronglySorted (λ x y, newest_less x y = true) (sort_by newest_less l).
Proof. intros Hnd. rewrite <- newest_sorted. exact (sorted_increasing sortKey older None l Hnd). Qed.

Lemma elem_of_newest l s : s ∈ sort_by newest_less l ↔ s ∈ l.
Proof. apply (elem_of_sort_by newest_less). Qed.

Lemma elem_of_rows d s : reachable d → s ∈ rows d ↔ sessions d !! ID s = Some s.
Proof.
  intros (steps & Hok & ->). unfold rows. rewrite list_elem_of_fmap. split.
  - intros ([id s'] & -> & H%elem_of_map_to_list). cbn.
    by destruct (run_sound _ Hok _ _ H) as [(-> & _) _].
  - intros H. exists (ID s, s). split; [done|]. by apply elem_of_map_to_list.
Qed.

Lemma rows_keys d : reachable d → NoDup (sortKey <$> rows d).
Proof.
  intros Hd. apply (NoDup_fmap_1 snd). rewrite <- list_fmap_compose.
  replace (snd ∘ sortKey <$> rows d) with ((map_to_list (sessions d)).*1).
  - apply NoDup_fst_map_to_list.
  - unfold rows. rewrite <- list_fmap_compose. apply list_fmap_ext. intros i [id s] H. cbn.
    destruct Hd as (steps & Hok & ->).
    apply list_elem_of_lookup_2, elem_of_map_to_list in H.
    by destruct (run_sound _ Hok _ _ H) as [(-> & _) _].
Qed.

Lemma follow_walk fuel q dbs i c :
  bool_decide (lState q = "") || bool_decide (lState q ∈ stateFilters) = true →
  follow fuel q dbs i c =
    walk sortKey older fuel (lLimit q) (λ j, filter (λ s, matches q s) (rows (dbs j))) i c.
Proof.
  intros Hst. revert i c. induction fuel as [|fuel IH]; intros i c; [done|]. cbn [follow walk].
  unfold listSessions. cbn [lState]. rewrite Hst. unfold selectSessions. cbn [lLimit lCursor].
  change (λ s, matches (mkList (lState q) (lAsset q) (lDevice q) c (lLimit q)) s) with (λ s, matches q s).
  fold (rows (dbs i)).
  destruct (newPage sortKey _ _) as [items [k|]]; [|done]. by rewrite IH.
Qed.

(** C22. A client that follows the cursor of a session listing to its end, while sessions are
    opened, moved and removed between its requests, gets a list strictly descending by
    (updated_at, id), where updated_at is compared as the text that is stored (within one
    second not always the order of the instants: [listed_out_of_order]), of rows the table
    held at one of them, with every matching session that did not change meanwhile in it
    once.  On a table that does not change it gets exactly the
    matching sessions, within one request more than there are. *)
Theorem sessions_paged fuel q dbs out : (0 < lLimit q)%nat →
  lState q = "" ∨ lState q ∈ stateFilters → (∀ j, reachable (dbs j)) →
  follow fuel q dbs 0 None = Some out →
  (StronglySorted (λ x y, newest_less x y = true) out ∧
   (∀ s, s ∈ out → matches q s = true ∧ ∃ j, sessions (dbs j) !! ID s = Some s) ∧
   (∀ s, matches q s = true → (∀ j, sessions (dbs j) !! ID s = Some s) → s ∈ out)) ∧
  follow (S (length (filter (λ s, matches q s) (rows (dbs 0))))) q (λ _, dbs 0) 0 None =
    Some (sort_by newest_less (filter (λ s, matches q s) (rows (dbs 0)))).
Proof.
  intros Hlim Hst Hdbs H.
  assert (bool_decide (lState q = "") || bool_decide (lState q ∈ stateFilters) = true) as Hb.
  { by rewrite orb_true_iff, !bool_decide_eq_true. }
  assert (∀ j, NoDup (sortKey <$> filter (λ s, matches q s) (rows (dbs j)))) as Hnd.
  { intros j. apply NoDup_fmap_filter, rows_keys, Hdbs. }
  rewrite follow_walk in H |- * by done. split.
  - apply walk_spec in H as (Hinc & _ & Hin & Hall); [|apply _|done|done]. split_and!; [exact Hinc| |].
    + intros s [j Hs]%Hin. apply list_elem_of_filter in Hs as [Hm%Is_true_true Hs].
      split; [done|]. exists j. by apply elem_of_rows.
    + intros s Hm Hs. apply Hall; [|done]. intros j. apply list_elem_of_filter. split; [by apply Is_true_true|].
      by apply elem_of_rows; [|apply Hs].
  - rewrite (walk_static sortKey older).
    + by rewrite newest_sorted.
    + done.
    + apply Hnd.
    + rewrite newest_sorted. unfold newest_less. rewrite (length_sort_by _ _). lia.
Qed.

Definition list_steps : list Step :=
  [SAsset "a1" (mkAsset None (Some "w1")); SDevice "d1" (mkDevice "k" "web");
   SOpen "s1" "a1" "d1" "watch" 100; SOpen "s2" "a1" "d1" "watch" 2000000000;
   STransition "s1" "start" (Some (mkProgress "12.5" "seconds")) 3000000000].

Lemma sessions_paged_witness :
  follow 9 (mkList "resumable" "" "" None 1) (λ _, db (run list_steps)) 0 None =
    Some (sort_by newest_less (filter (λ s, matches (mkList "resumable" "" "" None 1) s) (rows (db (run list_steps))))) ∧
  StronglySorted (λ x y, newest_less x y = true)
    (sort_by newest_less (filter (λ s, matches (mkList "resumable" "" "" None 1) s) (rows (db (run list_steps))))).
Proof.
  assert (follow 9 (mkList "resumable" "" "" None 1) (λ _, db (run list_steps)) 0 None =
    Some (sort_by newest_less (filter (λ s, matches (mkList "resumable" "" "" None 1) s) (rows (db (run list_steps))))))
    as H by (by vm_compute).
  split; [exact H|].
  refine (proj1 (proj1 (sessions_paged 9 (mkList "resumable" "" "" None 1) (λ _, db (run list_steps)) _ _ _ _ H))).
  - cbn. lia.
  - right. by left.
  - intros _. exists list_steps. split; [by repeat constructor|done].
Defined.

(** ** The continue rail *)

Definition candidates (device : string) (d : DB) : list Session := filter (λ s, continuable device s) (rows d).

Lemma firstPerWork_spec d (R : relation Session) seen l : StronglySorted R l →
  let out := firstPerWork d seen l in
  StronglySorted R out ∧
  NoDup (workOfSession d <$> out) ∧
  (∀ s, s ∈ out ↔ s ∈ l ∧ ∃ w, workOfSession d s = Some w ∧ (w ∉ seen) ∧
     ∃ l1 l2, l = l1 ++ s :: l2 ∧ Forall (λ s', workOfSession d s' ≠ Some w) l1).
Proof.
  intros Hs. revert seen. induction Hs as [|x l Hl IH Hx]; intros seen; cbn.
  { split_and!; [constructor|constructor|]. intros s. split; [by intros ?%elem_of_nil|by intros [?%elem_of_nil _]]. }
  rewrite Forall_forall in Hx.
  assert (∀ seen' s, s ∈ firstPerWork d seen' l → R x s) as HR.
  { intros seen' s Hin. apply Hx. destruct (IH seen') as (_ & _ & Hin'). by apply Hin' in Hin as [? _]. }
  assert (∀ s w, workOfSession d s = Some w → workOfSession d x ≠ Some w →
    (∃ l1 l2, x :: l = l1 ++ s :: l2 ∧ Forall (λ s', workOfSession d s' ≠ Some w) l1) ↔
    (∃ l1 l2, l = l1 ++ s :: l2 ∧ Forall (λ s', workOfSession d s' ≠ Some w) l1)) as Hcons.
  { intros s w Hw Hne. split.
    - intros ([|y l1] & l2 & [= -> ->] & HF); [congruence|]. apply Forall_cons in HF as [_ HF]. by exists l1, l2.
    - intros (l1 & l2 & -> & HF). exists (x :: l1), l2. split; [done|]. by constructor. }
  destruct (workOfSession d x) as [w|] eqn:Ew.
  - case_decide as Hseen.
    + destruct (IH seen) as (H1 & H2 & H3). split_and!; [done..|]. intros s. rewrite H3. split.
      * intros (Hs & w' & Hw' & Hn & Hsp). split; [by right|]. exists w'. split_and!; [done..|].
        apply (Hcons s w'); [done|congruence|done].
      * intros (Hs & w' & Hw' & Hn & Hsp). assert (w' ≠ w) as Hne by congruence.
        apply (Hcons s w') in Hsp; [|done|congruence]. split; [|by exists w'].
        destruct Hsp as (l1 & l2 & -> & _). apply elem_of_app. right. by left.
    + destruct (IH (w :: seen)) as (H1 & H2 & H3). split_and!.
      * constructor; [done|]. rewrite Forall_forall. apply HR.
      * cbn. constructor; [|done]. rewrite Ew. intros (s & Hs & Hin)%list_elem_of_fmap.
        apply H3 in Hin as (_ & w' & Hw' & Hn & _). rewrite Hw' in Hs. apply Hn. simplify_eq. by left.
      * intros s. rewrite elem_of_cons, H3. split.
        -- intros [->|(Hs & w' & Hw' & Hn & Hsp)].
           ++ split; [by left|]. exists w. split_and!; [done..|]. by exists [], l.
           ++ split; [by right|]. apply not_elem_of_cons in Hn as [Hne Hn]. exists w'. split_and!; [done..|].
              apply (Hcons s w'); [done|congruence|done].
        -- intros (Hs & w' & Hw' & Hn & Hsp). destruct (decide (w' = w)) as [->|Hne].
           ++ left. destruct Hsp as ([|y l1] & l2 & [= -> ->] & HF); [done|]. by apply Forall_cons in HF as [? _].
           ++ right. apply (Hcons s w') in Hsp; [|done|congruence].
              split; [destruct Hsp as (l1 & l2 & -> & _); apply elem_of_app; right; by left|].
              exists w'. split_and!; [done| |done]. apply not_elem_of_cons. done.
  - destruct (IH seen) as (H1 & H2 & H3). split_and!; [done..|]. intros s. rewrite H3. split.
    + intros (Hs & w' & Hw' & Hn & Hsp). split; [by right|]. exists w'. split_and!; [done..|].
      apply (Hcons s w'); [done|congruence|done].
    + intros (Hs & w' & Hw' & Hn & Hsp). apply (Hcons s w') in Hsp; [|done|congruence].
      split; [|by exists w']. destruct Hsp as (l1 & l2 & -> & _). apply elem_of_app. right. by left.
Qed.

Lemma ContinueRail_eq device limit d :
  ContinueRail device limit d = take (Z.to_nat limit) (firstPerWork d [] (sort_by newest_less (candidates device d))).
Proof. reflexivity. Qed.

Lemma newest_asym x y : newest_less x y = true → newest_less y x = true → False.
Proof. unfold newest_less, key_less. intros H. by rewrite (less_asym older _ _ H). Qed.

(** The continue rail holds, for each work, one session: the newest of those that hold a
    position and are not finished (or never began), on the device asked for if one is; newest
    first, and cut at the limit. *)
Theorem rail_newest d device limit : reachable d →
  ∃ full, ContinueRail device limit d = take (Z.to_nat limit) full ∧
    StronglySorted (λ x y, newest_less x y = true) full ∧
    NoDup (workOfSession d <$> full) ∧
    ∀ s, s ∈ full ↔
      sessions d !! ID s = Some s ∧ continuable device s = true ∧ is_Some (workOfSession d s) ∧
      ∀ s', sessions d !! ID s' = Some s' → continuable device s' = true →
        workOfSession d s' = workOfSession d s → s' = s ∨ newest_less s s' = true.
Proof.
  intros Hd. rewrite ContinueRail_eq.
  assert (StronglySorted (λ x y, newest_less x y = true) (sort_by newest_less (candidates device d))) as Hl.
  { apply newest_strict, NoDup_fmap_filter. by apply rows_keys. }
  assert (∀ s, s ∈ sort_by newest_less (candidates device d) ↔
    sessions d !! ID s = Some s ∧ continuable device s = true) as Hel.
  { intros s. rewrite elem_of_newest. unfold candidates.
    rewrite list_elem_of_filter, elem_of_rows, Is_true_true by done. tauto. }
  generalize dependent (sort_by newest_less (candidates device d)). intros l Hl Hel.
  exists (firstPerWork d [] l). split; [done|].
  destruct (firstPerWork_spec d _ [] l Hl) as (H1 & H2 & H3). split_and!; [done..|].
  intros s. rewrite H3, Hel. split.
  - intros ([Hs Hc] & w & Hw & _ & l1 & l2 & Hsp & HF). split_and!; [done|done|by eexists|].
    intros s' Hs' Hc' Hw'. assert (s' ∈ l) as Hin by (by apply Hel). rewrite Hsp in Hl, Hin.
    apply elem_of_app in Hin as [Hin|Hin].
    { rewrite Forall_forall in HF. exfalso. apply (HF s' Hin). congruence. }
    apply elem_of_cons in Hin as [->|Hin]; [by left|right].
    apply StronglySorted_app in Hl as (_ & _ & Hl). apply StronglySorted_inv in Hl as [_ Hl].
    rewrite Forall_forall in Hl. by apply Hl.
  - intros (Hs & Hc & [w Hw] & Hnew). split; [done|]. exists w. split_and!; [done|by intros ?%elem_of_nil|].
    assert (s ∈ l) as (l1 & l2 & Hsp)%list_elem_of_split by (by apply Hel). exists l1, l2. split; [done|].
    rewrite Forall_forall. intros s' Hin Hw'.
    assert (s' ∈ l) as [Hs' Hc']%Hel by (rewrite Hsp; apply elem_of_app; by left).
    rewrite Hsp in Hl. apply StronglySorted_app in Hl as (Hcross & _ & _).
    assert (newest_less s' s = true) as Hlt by (apply Hcross; [done|by left]).
    destruct (Hnew s' Hs' Hc') as [->|Hlt']; [congruence| |]; eapply newest_asym; done.
Qed.

(** ** Newest first is by text *)

(** Two touches of one second, 50 milliseconds apart: the listing and the rail show the
    earlier one as the newer. *)
Definition same_second_steps : list Step :=
  [SAsset "a1" (mkAsset None (Some "w1")); SDevice "d1" (mkDevice "k" "web");
   SOpen "s1" "a1" "d1" "watch" 0; SOpen "s2" "a1" "d1" "watch" 0;
   STransition "s1" "start" (Some (mkProgress "10" "seconds")) 100000000;
   STransition "s2" "start" (Some (mkProgress "20" "seconds")) 150000000].

Lemma listed_out_of_order :
  Forall step_ok same_second_steps ∧
  ContinueRail "" 20 (db (run same_second_steps)) ≫= (λ s, [(ID s, UpdatedAt s)]) = [("s1", 100000000%Z)] ∧
  ∃ s, sessions (db (run same_second_steps)) !! "s2" = Some s ∧ UpdatedAt s = 150000000%Z.
Proof. split; [by repeat constructor|]. split; [by vm_compute|]. eexists. split; by vm_compute. Qed.
