(* ===== verification/Capability.v ===== *)
(** * Capability: URLs that are their own authority

    Models src/internal/api/render (capability.go, handler.go, secret.go) and the minting of
    its URLs in src/internal/api/resources (renderURLAt and renderFilename of playback.go;
    captionURL, videoURLWithCaption, renderTokenFromURL of renderers.go).  A secret, a digest
    and a payload are byte strings; HMAC-SHA256 is the parameter [sign].  An instant is the
    integer of its nanoseconds. *)

From S2P Require Import Prelude GoText GoPath GoScan GoEncoding GoTime Schedule.
#[local] Open Scope Z_scope.

(** ** Capabilities (capability.go) *)

Definition capabilityVersion : string := "v1".
Definition SecretLen : nat := 32.

Inductive error := ErrNoSecret | ErrNoBlob | ErrNoExpiry | ErrMalformed | ErrSignature | ErrExpired.

#[export] Instance error_eq_dec : EqDecision error.
Proof. solve_decision. Defined.

Record Capability := mkCapability {
  BlobHash : string;
  ExpiresAt : Z;
  MIME : string;
  CaptionBlob : string;
  CaptionMIME_of : string;
}.

#[export] Instance Capability_eq_dec : EqDecision Capability.
Proof. solve_decision. Defined.

(** The zero [time.Time], the first instant of year 1. *)
Definition zeroTime : Z := -62135596800 * nanosPerSecond.

(** HMAC-SHA256 of a payload under a secret. *)
Class HMAC := sign : string → string → string.

Definition encode (s : string) : string := EncodeToString s.
Definition decode (s : string) : option string := DecodeString s.

Definition fields (c : Capability) : list string :=
  [capabilityVersion; encode (BlobHash c); FormatInt (Unix (ExpiresAt c)); encode (MIME c)] ++
  (if bool_decide (CaptionBlob c = "") then [] else [encode (CaptionBlob c); encode (CaptionMIME_of c)]).

Definition payload (c : Capability) : string := Join (fields c) ".".

(** [time.Unix(unix, 0)]. *)
Definition atUnix (unix : Z) : Z := unix * nanosPerSecond.

Section tokens.
Context `{HMAC}.

Definition Sign (c : Capability) (secret : string) : error + string :=
  if bool_decide (secret = "") then inl ErrNoSecret
  else if bool_decide (BlobHash c = "") then inl ErrNoBlob
  else if bool_decide (ExpiresAt c = zeroTime) then inl ErrNoExpiry
  else inr (payload c +:+ "." +:+ encode (sign secret (payload c))).

(** The fields of a payload whose signature was checked. *)
Definition readFields (fs : list string) : error + Capability :=
  match fs with
  | v :: blob :: unix :: mime :: rest =>
      if bool_decide (v ≠ capabilityVersion) then inl ErrMalformed
      else match decode blob, ParseInt unix, decode mime with
      | Some blob, Some unix, Some mime =>
          match rest with
          | [] => inr (mkCapability blob (atUnix unix) mime "" "")
          | [capBlob; capMIME] =>
              match decode capBlob, decode capMIME with
              | Some capBlob, Some capMIME => inr (mkCapability blob (atUnix unix) mime capBlob capMIME)
              | _, _ => inl ErrMalformed
              end
          | _ => inl ErrMalformed
          end
      | _, _, _ => inl ErrMalformed
      end
  | _ => inl ErrMalformed
  end.

Definition Verify (secret token : string) (now : Z) : error + Capability :=
  if bool_decide (secret = "") then inl ErrNoSecret
  else match CutLast "." token with
  | None => inl ErrMalformed
  | Some (payload, signature) =>
      match decode signature with
      | None => inl ErrMalformed
      | Some got =>
          if bool_decide (sign secret payload ≠ got) then inl ErrSignature
          else match readFields (SplitByte "." payload) with
          | inl e => inl e
          | inr c => if now <? ExpiresAt c then inr c else inl ErrExpired
          end
      end
  end.

(** ** The types this route names *)

Definition servable (l : list (string * string)) : gmap string string := list_to_map l.

Definition servableMIME : gmap string string := servable
  [("video/mp4", "video/mp4"); ("video/x-m4v", "video/x-m4v"); ("video/quicktime", "video/quicktime");
   ("video/x-matroska", "video/x-matroska"); ("video/x-mkv", "video/x-mkv"); ("video/webm", "video/webm");
   ("video/avi", "video/avi"); ("video/x-msvideo", "video/x-msvideo"); ("video/mpeg", "video/mpeg");
   ("video/mp2t", "video/mp2t"); ("video/vnd.dlna.mpeg-tts", "video/vnd.dlna.mpeg-tts");
   ("video/x-ms-wmv", "video/x-ms-wmv"); ("video/x-flv", "video/x-flv"); ("video/3gpp", "video/3gpp");
   ("video/ogg", "video/ogg");
   ("audio/mpeg", "audio/mpeg"); ("audio/mp4", "audio/mp4"); ("audio/x-m4a", "audio/x-m4a");
   ("audio/aac", "audio/aac"); ("audio/flac", "audio/flac"); ("audio/x-flac", "audio/x-flac");
   ("audio/ogg", "audio/ogg"); ("audio/opus", "audio/opus"); ("audio/wav", "audio/wav");
   ("audio/x-wav", "audio/x-wav"); ("audio/aiff", "audio/aiff"); ("audio/x-aiff", "audio/x-aiff");
   ("audio/x-ms-wma", "audio/x-ms-wma"); ("audio/x-ac3", "audio/x-ac3");
   ("audio/vnd.dolby.dd-raw", "audio/vnd.dolby.dd-raw"); ("audio/vnd.dlna.adts", "audio/vnd.dlna.adts");
   ("audio/x-monkeys-audio", "audio/x-monkeys-audio"); ("audio/3gpp", "audio/3gpp")].

Definition CanonicalMIME (mime : string) : option string := servableMIME !! ToLower (TrimSpace mime).
Definition PlayableMIME (mime : string) : bool := bool_decide (is_Some (CanonicalMIME mime)).

Definition servableCaptionMIME : gmap string string := servable
  [("application/x-subrip", "application/x-subrip"); ("text/srt", "application/x-subrip");
   ("application/x-srt", "application/x-subrip"); ("text/vtt", "text/vtt"); ("text/x-ssa", "text/x-ssa");
   ("text/x-ass", "text/x-ssa"); ("text/plain", "text/plain")].

Definition CanonicalCaptionMIME (mime : string) : option string := servableCaptionMIME !! ToLower (TrimSpace mime).
Definition CaptionMIME (mime : string) : bool := bool_decide (is_Some (CanonicalCaptionMIME mime)).

Definition CaptionFilename (mime : string) : string :=
  let canonical := default "" (CanonicalCaptionMIME mime) in
  if Contains canonical "vtt" then "captions.vtt"
  else if Contains canonical "ssa" then "captions.ssa" else "captions.srt".

(** ** Serving (handler.go) *)

Definition RenderPrefix : string := "/render".
Definition Path (capability : string) : string := RenderPrefix +:+ "/" +:+ capability.
Definition OctetStream : string := "application/octet-stream".

(** What a request is answered: a 404 that says nothing, or the bytes of a blob under a
    type, with the header that offers a caption. *)
Inductive Response := NotFound | Content (hash mime : string) (captionInfo : option string).

Record Handler := mkHandler { hSecret : string; hBaseURL : string }.

(** [New]: the origin loses its trailing slashes; no secret is refused. *)
Definition New (secret renderBaseURL : string) : option Handler :=
  if bool_decide (secret = "") then None else Some (mkHandler secret (TrimRightByte "/" renderBaseURL)).

Definition captionInfo (h : Handler) (granted : Capability) : option string :=
  if bool_decide (CaptionBlob granted = "") || bool_decide (hBaseURL h = "") then None
  else
    cmime ← CanonicalCaptionMIME (CaptionMIME_of granted);
    match Sign (mkCapability (CaptionBlob granted) (ExpiresAt granted) cmime "" "") (hSecret h) with
    | inl _ => None
    | inr token => Some (hBaseURL h +:+ Path token +:+ "/" +:+ CaptionFilename cmime)
    end.

Definition servedMIME (mime : string) : string :=
  match CanonicalMIME mime with
  | Some m => m
  | None => match CanonicalCaptionMIME mime with Some m => m | None => OctetStream end
  end.

Definition serve (h : Handler) (capability : string) (now : Z) : Response :=
  match Verify (hSecret h) capability now with
  | inl _ => NotFound
  | inr granted => Content (BlobHash granted) (servedMIME (MIME granted)) (captionInfo h granted)
  end.

(** ** The secret (secret.go) *)

(** The file is absent, unreadable or holds bytes; [fresh] is what the generator gives.  The
    second part is what is installed. *)
Inductive SecretFile_ := Absent | Unreadable | Holds (secret : string).

Definition EnsureSecret (dataDir : string) (file : SecretFile_) (fresh : option string)
    : option string * option string :=
  if bool_decide (dataDir = "") then (None, None)
  else match file with
  | Holds s => (if (String.length s =? SecretLen)%nat then Some s else None, None)
  | Unreadable => (None, None)
  | Absent => (fresh, fresh)
  end.

(** ** Minting (resources) *)

Definition renderCapabilityTTL : Z := 6 * Hour.

(** What a mint reads of the node: its secret, the origin a renderer fetches from, and the
    peer it is. *)
Record Minter := mkMinter { renderSecret : string; renderBaseURL : string; selfPeerID : string }.

Definition renderFilename (mime : string) : string :=
  if HasPrefix mime "video/" then "stream.mp4"
  else if HasPrefix mime "audio/" then "stream.mp3" else "stream".

Inductive Unavailable :=
  | NotConfigured | NoBytes | OtherPeer | MimeUnread | NotPlayable | NoMime | NotSigned.

(** [renderURLAt] on an origin; [source] is the peer of the route, if one was found, and
    [mime] the asset's row: unreadable, without a type, or with one. *)
Definition renderURLAt (m : Minter) (base : string) (source : option string) (blobHash : string)
    (mime : option (option string)) (now : Z) : Unavailable + string :=
  if bool_decide (renderSecret m = "") || bool_decide (base = "") then inl NotConfigured
  else if bool_decide (blobHash = "") then inl NoBytes
  else if match source with
          | Some p => bool_decide (selfPeerID m ≠ "") && bool_decide (p ≠ selfPeerID m)
          | None => false
          end then inl OtherPeer
  else match mime with
  | None => inl MimeUnread
  | Some mime =>
      let mime := default "" mime in
      if bool_decide (mime ≠ "") && negb (PlayableMIME mime) then inl NotPlayable
      else if bool_decide (mime = "") then inl NoMime
      else match Sign (mkCapability blobHash (now + renderCapabilityTTL) mime "" "") (renderSecret m) with
      | inl _ => inl NotSigned
      | inr token => inr (base +:+ Path token +:+ "/" +:+ renderFilename mime)
      end
  end.

Definition renderURL (m : Minter) (source : option string) (blobHash : string) (mime : option (option string))
    (now : Z) : Unavailable + string := renderURLAt m (renderBaseURL m) source blobHash mime now.

(** The resource's own name for a caption, on the type as the asset has it. *)
Definition captionFilename (mime : string) : string :=
  if Contains mime "vtt" then "captions.vtt"
  else if Contains mime "ssa" || Contains mime "ass" then "captions.ssa" else "captions.srt".

Definition captionURL (m : Minter) (blobHash mime : string) (now : Z) : string :=
  if bool_decide (renderSecret m = "") || bool_decide (renderBaseURL m = "") || bool_decide (blobHash = "") ||
     negb (CaptionMIME mime) then ""
  else match Sign (mkCapability blobHash (now + renderCapabilityTTL) mime "" "") (renderSecret m) with
  | inl _ => ""
  | inr token => renderBaseURL m +:+ Path token +:+ "/" +:+ captionFilename mime
  end.

Definition renderTokenFromURL (base url : string) : string * string :=
  match CutPrefix url (base +:+ Path "") with
  | None => ("", "")
  | Some rest => match Cut "/" rest with Some (token, name) => (token, name) | None => (rest, "") end
  end.

Definition videoURLWithCaption (m : Minter) (videoURL capBlob capMIME : string) (now : Z) : string :=
  if bool_decide (renderSecret m = "") || bool_decide (renderBaseURL m = "") || bool_decide (capBlob = "") then ""
  else
    let '(token, name) := renderTokenFromURL (renderBaseURL m) videoURL in
    if bool_decide (token = "") then ""
    else match Verify (renderSecret m) token now with
    | inl _ => ""
    | inr vcap =>
        match Sign (mkCapability (BlobHash vcap) (ExpiresAt vcap) (MIME vcap) capBlob capMIME) (renderSecret m) with
        | inl _ => ""
        | inr signed =>
            let u := renderBaseURL m +:+ Path signed in
            if bool_decide (name = "") then u else u +:+ "/" +:+ name
        end
    end.

(** What startForRendererCtx gives the renderer: the video's URL, with the caption inside it
    where there is one and it could be put there, and the caption's own URL and type. *)
Definition castURLs (m : Minter) (videoURL : string) (caption : string * string) (now now' : Z)
    : string * (string * string) :=
  let '(blob, mime) := caption in
  if bool_decide (videoURL = "") || bool_decide (blob = "") then (videoURL, ("", ""))
  else
    let u := captionURL m blob mime now in
    if bool_decide (u = "") then (videoURL, ("", ""))
    else let v := videoURLWithCaption m videoURL blob mime now' in
         (if bool_decide (v = "") then videoURL else v, (u, mime)).
End tokens.
