(* ===== verification/CapabilitySpec.v ===== *)
(** * CapabilitySpec: what a capability URL promises

    A token carries exactly what was signed, to the second; what is served under one is a
    blob and a type of a closed list; the URLs this node mints serve the blob they were
    minted for until they expire; and the guard of the progress beat tells them apart. *)

From S2P Require Import Prelude GoText GoPath GoScan GoEncoding GoTime Schedule RendererProgress Capability.
#[local] Open Scope Z_scope.

(** ** Payloads *)

Definition in_range (c : Capability) : Prop := - 2 ^ 63 ≤ Unix (ExpiresAt c) < 2 ^ 63.

(** What a token keeps of a capability: its expiry to the second, and a caption's type only
    beside its blob. *)
Definition kept (c : Capability) : Capability :=
  mkCapability (BlobHash c) (atUnix (Unix (ExpiresAt c))) (MIME c) (CaptionBlob c)
    (if bool_decide (CaptionBlob c = "") then "" else CaptionMIME_of c).

Lemma fields_bytes b c : b64val b = None → b ≠ "-"%char → digitVal 10 b = None → has_byte b "v1" = false →
  Forall (λ f, has_byte b f = false) (fields c).
Proof.
  intros H1 H2 H3 H4. unfold fields. apply Forall_app. split.
  - repeat constructor; [done| | |]; first [by apply has_byte_Encode|by apply has_byte_FormatInt].
  - case_bool_decide; repeat constructor; by apply has_byte_Encode.
Qed.

Lemma has_byte_Join_dot b l : b ≠ "."%char → Forall (λ f, has_byte b f = false) l → has_byte b (Join l ".") = false.
Proof.
  intros Hb HF. induction HF as [|f l Hf HF IH]; [done|]. destruct l as [|g l]; [done|].
  change (Join (f :: g :: l) ".") with (f +:+ "." +:+ Join (g :: l) ".").
  rewrite !has_byte_app, Hf, IH. cbn. by rewrite bool_decide_eq_false_2 by done.
Qed.

Lemma split_payload c : SplitByte "." (payload c) = fields c.
Proof. apply SplitByte_Join; [done|]. by apply fields_bytes. Qed.

Lemma readFields_fields c : in_range c → readFields (fields c) = inr (kept c).
Proof.
  intros Hr. unfold fields, kept, readFields, encode, decode.
  case_bool_decide as Hc; cbn [app]; rewrite bool_decide_eq_false_2 by auto;
    rewrite !DecodeString_Encode, ParseInt_FormatInt by done; rewrite ?Hc; done.
Qed.

Lemma payload_kept c c' : in_range c → in_range c' → payload c = payload c' → kept c = kept c'.
Proof.
  intros Hc Hc' E. enough (@inr error _ (kept c) = inr (kept c')) by congruence.
  by rewrite <- !readFields_fields, <- !split_payload, E.
Qed.

Lemma length_encode_pos s : s ≠ "" → encode s ≠ "".
Proof. intros Hs H. apply Hs. apply (EncodeToString_inj s ""). exact H. Qed.

Section tokens.
Context `{HMAC}.

Lemma Sign_inv c secret tok : Sign c secret = inr tok →
  secret ≠ "" ∧ BlobHash c ≠ "" ∧ ExpiresAt c ≠ zeroTime ∧ tok = payload c +:+ String "." (encode (sign secret (payload c))).
Proof. unfold Sign. repeat case_bool_decide; try done. by intros [= <-]. Qed.

Lemma Sign_ok c secret : secret ≠ "" → BlobHash c ≠ "" → ExpiresAt c ≠ zeroTime →
  Sign c secret = inr (payload c +:+ String "." (encode (sign secret (payload c)))).
Proof. intros. unfold Sign. by rewrite !bool_decide_eq_false_2 by done. Qed.

Lemma Verify_signed secret c now : secret ≠ "" → in_range c →
  Verify secret (payload c +:+ String "." (encode (sign secret (payload c)))) now =
    if now <? atUnix (Unix (ExpiresAt c)) then inr (kept c) else inl ErrExpired.
Proof.
  intros Hs Hr. unfold Verify. rewrite bool_decide_eq_false_2 by done.
  rewrite CutLast_app by (by apply has_byte_Encode). unfold decode, encode.
  rewrite DecodeString_Encode, bool_decide_eq_false_2 by auto.
  by rewrite split_payload, readFields_fields.
Qed.

(** A token this node signed verifies, before the second its expiry falls in, as exactly
    the capability that was signed (blob, type and caption; the expiry to the second), and
    from that second on it is refused as expired. *)
Theorem capability_roundtrip c secret tok now : Sign c secret = inr tok → in_range c →
  Verify secret tok now = if now <? atUnix (Unix (ExpiresAt c)) then inr (kept c) else inl ErrExpired.
Proof. intros (Hs & _ & _ & ->)%Sign_inv Hr. by apply Verify_signed. Qed.

(** A token is worth what its payload says and nothing else: if it is accepted, its last
    part is the signature of the rest under this node's secret, it has not expired, and if
    the rest is what this node signed for a capability, that is what it grants.  So no other
    blob, type, caption or longer life can be had without a signature this node never made. *)
Theorem capability_binds secret tok now c : Verify secret tok now = inr c →
  ∃ p sg, tok = p +:+ String "." sg ∧ decode sg = Some (sign secret p) ∧ now < ExpiresAt c ∧
    ∀ c0, payload c0 = p → in_range c0 → c = kept c0.
Proof.
  unfold Verify. case_bool_decide; [done|]. destruct (CutLast "." tok) as [[p sg]|] eqn:Ec; [|done].
  destruct (decode sg) as [got|] eqn:Ed; [|done]. case_bool_decide as Hs; [done|].
  destruct (readFields (SplitByte "." p)) as [e|c'] eqn:Er; [done|].
  destruct (Z.ltb_spec now (ExpiresAt c')); [|done]. intros [= <-].
  apply CutLast_spec in Ec as [-> _]. exists p, sg. split_and!; [done| |done|].
  - by rewrite Ed, Hs.
  - intros c0 <- Hr. rewrite split_payload, readFields_fields in Er by done. by injection Er.
Qed.

(** An accepted token's expiry is a second of 64 bits. *)
Lemma readFields_unix fs c : readFields fs = inr c → ∃ u, ExpiresAt c = atUnix u ∧ - 2 ^ 63 ≤ u < 2 ^ 63.
Proof.
  unfold readFields. destruct fs as [|v [|blob [|unix [|mime rest]]]]; try done.
  case_bool_decide; [done|]. destruct (decode blob) as [b|]; [|done].
  destruct (ParseInt unix) as [u|] eqn:Eu; [|done]. destruct (decode mime) as [m|]; [|done].
  apply ParseInt_range in Eu. destruct rest as [|cb [|cm [|]]]; try done.
  - intros [= <-]. by exists u.
  - destruct (decode cb), (decode cm); try done. intros [= <-]. by exists u.
Qed.

Lemma Verify_unix secret tok now c : Verify secret tok now = inr c →
  ∃ u, ExpiresAt c = atUnix u ∧ - 2 ^ 63 ≤ u < 2 ^ 63.
Proof.
  unfold Verify. case_bool_decide; [done|]. destruct (CutLast "." tok) as [[p sg]|]; [|done].
  destruct (decode sg); [|done]. case_bool_decide; [done|].
  destruct (readFields (SplitByte "." p)) as [|c'] eqn:Er; [done|].
  destruct (now <? ExpiresAt c'); [|done]. intros [= <-]. by eapply readFields_unix.
Qed.

(** ** What is served *)

Definition named_types : list string :=
  OctetStream :: (snd <$> map_to_list servableMIME) ++ (snd <$> map_to_list servableCaptionMIME).

Lemma servedMIME_named mime : servedMIME mime ∈ named_types.
Proof.
  unfold servedMIME, named_types. destruct (CanonicalMIME mime) as [m|] eqn:E.
  - right. apply elem_of_app. left. apply list_elem_of_fmap. eexists (_, m). split; [done|]. by apply elem_of_map_to_list.
  - destruct (CanonicalCaptionMIME mime) as [m|] eqn:E'; [|by left].
    right. apply elem_of_app. right. apply list_elem_of_fmap. eexists (_, m). split; [done|]. by apply elem_of_map_to_list.
Qed.

Lemma caption_type_fixed mime m : CanonicalCaptionMIME mime = Some m → servedMIME m = m ∧ m ≠ "".
Proof.
  unfold CanonicalCaptionMIME. intros E%elem_of_map_to_list.
  assert (Forall (λ kv, servedMIME kv.2 = kv.2 ∧ kv.2 ≠ "") (map_to_list servableCaptionMIME)) as HF
    by (apply (bool_decide_unpack _); by vm_compute).
  rewrite Forall_forall in HF. by apply (HF _ E).
Qed.

(** A token has no slash, so a URL splits where it was put together. *)
Lemma token_no_slash p sg : has_byte "/" p = false → decode (encode sg) = Some sg →
  has_byte "/" (p +:+ String "." (encode sg)) = false.
Proof. intros Hp _. rewrite has_byte_app, Hp. cbn. by apply has_byte_Encode. Qed.

Lemma payload_no_slash c : has_byte "/" (payload c) = false.
Proof. apply has_byte_Join_dot; [done|]. by apply fields_bytes. Qed.

Definition tokenOf (secret : string) (c : Capability) : string :=
  payload c +:+ String "." (encode (sign secret (payload c))).

Lemma tokenOf_url base secret c name :
  renderTokenFromURL base (base +:+ Path (tokenOf secret c) +:+ "/" +:+ name) = (tokenOf secret c, name).
Proof.
  unfold renderTokenFromURL, Path.
  replace (base +:+ (RenderPrefix +:+ "/" +:+ tokenOf secret c) +:+ "/" +:+ name)
    with ((base +:+ RenderPrefix +:+ "/" +:+ "") +:+ tokenOf secret c +:+ String "/" name)
    by (by rewrite !string_app_assoc).
  rewrite CutPrefix_app, Cut_app; [done|]. unfold tokenOf. rewrite has_byte_app, payload_no_slash. cbn.
  by apply has_byte_Encode.
Qed.

Lemma tokenOf_nonempty secret c : tokenOf secret c ≠ "".
Proof. unfold tokenOf. by destruct (payload c). Qed.

Lemma serve_token h c t : hSecret h ≠ "" → in_range c →
  serve h (tokenOf (hSecret h) c) t =
    if t <? atUnix (Unix (ExpiresAt c))
    then Content (BlobHash c) (servedMIME (MIME c)) (captionInfo h (kept c)) else NotFound.
Proof.
  intros Hs Hr. unfold serve, tokenOf. rewrite (Verify_signed _ _ _ Hs Hr).
  by destruct (t <? atUnix (Unix (ExpiresAt c))).
Qed.

(** Whatever token is presented, what is served is the granted blob under one of the
    types of this file, or as an octet stream, never a type the token or the catalog chose;
    and the caption header, when there is one, is an address at which this node serves the
    granted caption, as a caption, until the same instant. *)
Theorem served_safe h tok now hash mime info : serve h tok now = Content hash mime info →
  ∃ c, Verify (hSecret h) tok now = inr c ∧ hash = BlobHash c ∧ mime ∈ named_types ∧
    match info with
    | None => True
    | Some url => ∃ t name m, renderTokenFromURL (hBaseURL h) url = (t, name) ∧
        CanonicalCaptionMIME (CaptionMIME_of c) = Some m ∧
        ∀ now', serve h t now' = if now' <? ExpiresAt c then Content (CaptionBlob c) m None else NotFound
    end.
Proof.
  unfold serve at 1. destruct (Verify (hSecret h) tok now) as [e|c] eqn:E; [done|].
  pose proof (servedMIME_named (MIME c)) as Hm0. generalize dependent (servedMIME (MIME c)). intros m0 Hm0.
  pose (i := captionInfo h c). fold i. intros [= <- <- <-]. exists c. split_and!; [done..|]. unfold i. clear i m0 Hm0.
  unfold captionInfo. destruct (_ || _) eqn:Eb; [done|].
  apply orb_false_iff in Eb as [Hb%bool_decide_eq_false _].
  destruct (CanonicalCaptionMIME (CaptionMIME_of c)) as [m|] eqn:Em; [|done]. cbn.
  pose proof (caption_type_fixed _ _ Em) as [Hm Hne].
  set (cc := mkCapability (CaptionBlob c) (ExpiresAt c) m "" "").
  destruct (Sign cc (hSecret h)) as [e|t] eqn:Es; [done|]. apply Sign_inv in Es as (Hs & _ & _ & ->).
  exists (tokenOf (hSecret h) cc), (CaptionFilename m), m. split_and!; [by apply tokenOf_url|done|].
  destruct (Verify_unix _ _ _ _ E) as (u & Hu & Hur).
  assert (Unix (ExpiresAt cc) = u) as HU.
  { unfold cc. cbn. rewrite Hu. unfold Unix, atUnix. by rewrite Z.div_mul. }
  assert (in_range cc) as Hin by (unfold in_range; by rewrite HU).
  intros now'. rewrite (serve_token h cc now' Hs Hin), HU, <- Hu. cbn [cc BlobHash MIME]. by rewrite Hm.
Qed.
End tokens.

(** ** The URLs this node mints *)

Section urls.
Context `{HMAC} (m : Minter).

Definition minted (blob mime : string) (now : Z) : Capability :=
  mkCapability blob (now + renderCapabilityTTL) mime "" "".

Definition urlOf (c : Capability) (name : string) : string :=
  renderBaseURL m +:+ Path (tokenOf (renderSecret m) c) +:+ "/" +:+ name.

Lemma renderURL_inv source blob mime now url : renderURL m source blob mime now = inr url →
  ∃ mt, mime = Some (Some mt) ∧ is_Some (CanonicalMIME mt) ∧ renderSecret m ≠ "" ∧ renderBaseURL m ≠ "" ∧ blob ≠ "" ∧
    ExpiresAt (minted blob mt now) ≠ zeroTime ∧
    url = urlOf (minted blob mt now) (renderFilename mt) ∧
    (∀ p, source = Some p → selfPeerID m = "" ∨ p = selfPeerID m).
Proof.
  unfold renderURL, renderURLAt. destruct (_ || _) eqn:E1; [done|].
  apply orb_false_iff in E1 as [Hs%bool_decide_eq_false Hb%bool_decide_eq_false].
  case_bool_decide as Hblob; [done|].
  destruct (match source with Some _ => _ | None => _ end) eqn:Esrc; [done|].
  destruct mime as [mt|]; [|done]. cbv zeta. set (t := default "" mt).
  destruct (_ && _) eqn:E2; [done|].
  destruct (bool_decide (t = "")) eqn:Ht; [done|]. apply bool_decide_eq_false in Ht.
  destruct (Sign _ _) as [|tok] eqn:Es; [done|]. intros [= <-].
  destruct mt as [mt|]; [|done]. cbn in t. subst t. exists mt.
  rewrite (bool_decide_eq_true_2 (mt ≠ "")) in E2 by done. cbn in E2. apply negb_false_iff in E2.
  apply Sign_inv in Es as (_ & _ & Hz & ->).
  split_and!; try assumption; try reflexivity.
  - by apply bool_decide_eq_true in E2.
  - intros p ->. apply andb_false_iff in Esrc as [Esrc|Esrc]; apply bool_decide_eq_false in Esrc;
      [left|right]; by apply dec_stable.
Qed.

Lemma renderFilename_nonempty mime : renderFilename mime ≠ "".
Proof. unfold renderFilename. by destruct (HasPrefix mime "video/"), (HasPrefix mime "audio/"). Qed.

(** What the caption does to the URL: the same capability to the second, with the caption in
    it, or nothing. *)
Lemma reminted blob mt now cb cm now2 : in_range (minted blob mt now) →
  renderSecret m ≠ "" → renderBaseURL m ≠ "" → cb ≠ "" →
  let v := videoURLWithCaption m (urlOf (minted blob mt now) (renderFilename mt)) cb cm now2 in
  v = "" ∨ v = urlOf (mkCapability blob (atUnix (Unix (now + renderCapabilityTTL))) mt cb cm) (renderFilename mt).
Proof.
  intros Hr Hs Hb Hcb v. remember v as w eqn:Ew. subst v. unfold videoURLWithCaption in Ew.
  rewrite !bool_decide_eq_false_2 in Ew by done. cbn [orb] in Ew. unfold urlOf in Ew. rewrite tokenOf_url in Ew.
  rewrite bool_decide_eq_false_2 in Ew by apply tokenOf_nonempty. unfold tokenOf in Ew.
  rewrite (Verify_signed _ _ _ Hs Hr) in Ew.
  destruct (now2 <? _); [|by left]. cbn [BlobHash ExpiresAt MIME kept minted] in Ew.
  destruct (Sign _ _) as [|signed] eqn:Es; [by left|]. apply Sign_inv in Es as (_ & _ & _ & ->).
  rewrite bool_decide_eq_false_2 in Ew by apply renderFilename_nonempty.
  right. subst w. unfold urlOf, tokenOf. by rewrite string_app_assoc.
Qed.

Lemma castURLs_inv blob mt now caption now1 now2 : in_range (minted blob mt now) →
  renderSecret m ≠ "" → renderBaseURL m ≠ "" →
  let url := urlOf (minted blob mt now) (renderFilename mt) in
  (castURLs m url caption now1 now2).1 = url ∨
  (castURLs m url caption now1 now2).1 =
    urlOf (mkCapability blob (atUnix (Unix (now + renderCapabilityTTL))) mt caption.1 caption.2) (renderFilename mt).
Proof.
  intros Hr Hs Hb url. unfold castURLs. destruct caption as [cb cm]. cbn [fst snd].
  destruct (bool_decide (url = "")); [by left|]. destruct (bool_decide (cb = "")) eqn:Ecb; [by left|].
  apply bool_decide_eq_false in Ecb. cbn [orb]. destruct (bool_decide (captionURL m cb cm now1 = "")); [by left|].
  destruct (reminted blob mt now cb cm now2 Hr Hs Hb Ecb) as [E|E]; cbn [fst]; fold url in E; rewrite E; [by left|].
  destruct (bool_decide _); [by left|by right].
Qed.

(** The guard of the progress beat finds a blob in the token it is granted by. *)
Lemma playing_urlOf c name : playingOurs (urlOf c name) (BlobHash c) = true.
Proof.
  unfold playingOurs. apply orb_true_iff. right. apply Contains_spec. unfold urlOf, Path, tokenOf, payload, fields.
  exists (renderBaseURL m +:+ RenderPrefix +:+ "/" +:+ capabilityVersion +:+ "."). cbn [app Join].
  eexists. rewrite !string_app_assoc. unfold encodedBlobFragment, encode. reflexivity.
Qed.

(** Another of this node's URLs is told apart: one granting another blob of the same length,
    whose other parts are shorter than a digest or other digests. *)
Lemma Contains_Join l sub : has_byte "." sub = false → sub ≠ "" → l ≠ [] →
  Contains (Join l ".") sub = existsb (λ e, Contains e sub) l.
Proof.
  intros Hs Hne Hl. induction l as [|e l IH]; [done|]. destruct l as [|e' l]; [by cbn; rewrite orb_false_r|].
  change (Join (e :: e' :: l) ".") with (e +:+ String "." (Join (e' :: l) ".")).
  rewrite Contains_sep, IH by done. done.
Qed.

Definition apart (blob x : string) : Prop := (String.length x ≤ String.length blob)%nat ∧ x ≠ blob.

Lemma other_not_ours c name blob :
  (32 < String.length blob)%nat → in_range c →
  Forall (apart blob) [BlobHash c; MIME c; CaptionBlob c; CaptionMIME_of c; sign (renderSecret m) (payload c)] →
  Contains (renderBaseURL m) (encode blob) = false → (String.length name ≤ 32)%nat →
  playingOurs (urlOf c name) blob = false.
Proof.
  intros Hlen Hr Hap Hbase Hname. unfold playingOurs, encodedBlobFragment. fold (encode blob).
  assert (blob ≠ "") as Hb0 by (intros ->; cbn in Hlen; lia).
  rewrite bool_decide_eq_false_2 by done. cbn [orb].
  assert (encode blob ≠ "") as Hne by (by apply length_encode_pos).
  assert (43 < String.length (encode blob))%nat as Hel.
  { unfold encode. rewrite length_Encode. assert (((4 * 33 + 2) / 3)%nat ≤ (4 * String.length blob + 2) / 3)%nat
      by (apply Nat.Div0.div_le_mono; lia). change ((4 * 33 + 2) / 3)%nat with 44%nat in *. lia. }
  assert (∀ x, String.length x ≤ 43 → Contains x (encode blob) = false)%nat as Hshort.
  { intros x Hx. apply Contains_apart; [lia|]. intros ->. lia. }
  assert (∀ x, apart blob x → Contains (encode x) (encode blob) = false) as Henc.
  { intros x [Hx1 Hx2]. by apply Contains_Encode. }
  unfold urlOf, Path, tokenOf.
  replace (renderBaseURL m +:+ (RenderPrefix +:+ "/" +:+ payload c +:+
      String "." (encode (sign (renderSecret m) (payload c)))) +:+ "/" +:+ name)
    with (renderBaseURL m +:+ String "/" ("render" +:+ String "/" (payload c +:+
      String "." (encode (sign (renderSecret m) (payload c)) +:+ String "/" name))))
    by (rewrite !string_app_assoc; cbn; by rewrite !string_app_assoc).
  rewrite !Contains_sep by (done || by apply has_byte_Encode).
  rewrite !Forall_cons in Hap. destruct Hap as (H1 & H2 & H3 & H4 & H5 & _).
  rewrite Hbase, (Hshort "render"), (Hshort name), (Henc _ H5) by (cbn; lia). cbn [orb]. rewrite !orb_false_r.
  unfold payload. rewrite Contains_Join by (done || by apply has_byte_Encode).
  unfold fields. rewrite existsb_app. cbn [existsb].
  rewrite (Hshort capabilityVersion), (Henc _ H1), (Henc _ H2) by (cbn; lia).
  rewrite Hshort by (etrans; [by apply length_FormatInt|lia]). cbn [orb].
  case_bool_decide; [done|]. cbn [existsb]. by rewrite (Henc _ H3), (Henc _ H4).
Qed.

(** C29. The URL a renderer is handed, with a caption put into it or not, is fetched at this
    node as the blob it was minted for, under the canonical type of the asset, until the
    second its six hours end in, and as nothing after; only a type of this file gets one, and
    only where this node is the route's source (or does not know its own name).  The beat that
    follows the renderer recognises it as this session's content. *)
Theorem cast_url_serves source blob mime now url caption now1 now2 :
  renderURL m source blob mime now = inr url → - 2 ^ 63 ≤ Unix (now + renderCapabilityTTL) < 2 ^ 63 →
  let url' := (castURLs m url caption now1 now2).1 in
  (∀ p, source = Some p → selfPeerID m = "" ∨ p = selfPeerID m) ∧
  playingOurs url' blob = true ∧
  ∃ mt canonical tok name, mime = Some (Some mt) ∧ CanonicalMIME mt = Some canonical ∧
    renderTokenFromURL (renderBaseURL m) url' = (tok, name) ∧
    ∀ h t, hSecret h = renderSecret m →
      if t <? atUnix (Unix (now + renderCapabilityTTL))
      then ∃ info, serve h tok t = Content blob canonical info
      else serve h tok t = NotFound.
Proof.
  intros (mt & -> & [canonical Hcan] & Hs & Hb & Hblob & _ & -> & Hsrc)%renderURL_inv Hr url'.
  assert (in_range (minted blob mt now)) as Hin by done.
  assert (servedMIME mt = canonical) as Hserved by (unfold servedMIME; by rewrite Hcan).
  assert (∃ c, url' = urlOf c (renderFilename mt) ∧ BlobHash c = blob ∧ MIME c = mt ∧
    atUnix (Unix (ExpiresAt c)) = atUnix (Unix (now + renderCapabilityTTL)) ∧ in_range c)
    as (c & Hurl & Hc1 & Hc2 & Hc3 & Hc4).
  { destruct (castURLs_inv blob mt now caption now1 now2 Hin Hs Hb) as [E|E].
    - exists (minted blob mt now). split_and!; first [assumption|reflexivity].
    - eexists. split; [exact E|]. cbn [BlobHash MIME ExpiresAt]. unfold in_range. cbn [ExpiresAt].
      assert (Unix (atUnix (Unix (now + renderCapabilityTTL))) = Unix (now + renderCapabilityTTL)) as HU.
      { unfold Unix at 1, atUnix. by rewrite Z.div_mul. }
      rewrite HU. split_and!; first [reflexivity|apply Hr]. }
  split; [done|]. rewrite Hurl. split; [rewrite <- Hc1; apply playing_urlOf|].
  exists mt, canonical, (tokenOf (renderSecret m) c), (renderFilename mt). split_and!; [done..|apply tokenOf_url|].
  intros h t Hh. rewrite <- Hh in *. rewrite (serve_token h c t Hs Hc4). rewrite Hc3, Hc2, Hc1, Hserved.
  destruct (t <? _); [by eexists|done].
Qed.
End urls.

(** ** Instances *)

Section witnesses.
#[local] Instance demoHMAC : HMAC := λ secret p, secret +:+ p.

Definition demoCap : Capability := mkCapability "blake3:aa" 1700000000500000000 "video/mp4" "blake3:cc" "text/vtt".
Definition demoToken : string := match Sign demoCap "k" with inr t => t | inl _ => "" end.
Definition demoMinter : Minter := mkMinter "k" "http://node:8080" "peer1".

Lemma capability_roundtrip_witness :
  Sign demoCap "k" = inr demoToken ∧ Verify "k" demoToken 1700000000100000000 = inl ErrExpired.
Proof.
  assert (Sign demoCap "k" = inr demoToken) as Hs by (by vm_compute). split; [exact Hs|].
  assert (in_range demoCap) as Hr by (vm_compute; split; congruence).
  pose proof (capability_roundtrip demoCap "k" demoToken 1700000000100000000 Hs Hr) as H.
  rewrite H. by vm_compute.
Defined.

Lemma capability_binds_witness :
  ∃ p sg, demoToken = p +:+ String "." sg ∧ decode sg = Some (sign "k" p) ∧ 5 < ExpiresAt (kept demoCap) ∧
    ∀ c0, payload c0 = p → in_range c0 → kept demoCap = kept c0.
Proof.
  assert (Verify "k" demoToken 5 = inr (kept demoCap)) as H by (by vm_compute).
  exact (capability_binds "k" demoToken 5 (kept demoCap) H).
Defined.

Definition demoHandler : Handler := mkHandler "k" "http://node:8080".
Definition demoInfo : option string := captionInfo demoHandler (kept demoCap).

Lemma served_safe_witness :
  serve demoHandler demoToken 5 = Content "blake3:aa" "video/mp4" demoInfo ∧ is_Some demoInfo ∧
  ∃ c, Verify "k" demoToken 5 = inr c ∧ "video/mp4" ∈ named_types.
Proof.
  assert (serve demoHandler demoToken 5 = Content "blake3:aa" "video/mp4" demoInfo) as H by (by vm_compute).
  split; [exact H|]. split; [by apply (bool_decide_unpack _); vm_compute|].
  destruct (served_safe demoHandler demoToken 5 "blake3:aa" "video/mp4" demoInfo H) as (c & Hc & _ & Hm & _).
  exists c. split; [exact Hc|exact Hm].
Defined.

Definition demoURL : string :=
  match renderURL demoMinter (Some "peer1") "blake3:aa" (Some (Some " Video/MP4")) 1000 with inr u => u | inl _ => "" end.

Lemma cast_url_serves_witness :
  renderURL demoMinter (Some "peer1") "blake3:aa" (Some (Some " Video/MP4")) 1000 = inr demoURL ∧
  playingOurs (castURLs demoMinter demoURL ("blake3:cc", "text/vtt") 1001 1002).1 "blake3:aa" = true.
Proof.
  assert (renderURL demoMinter (Some "peer1") "blake3:aa" (Some (Some " Video/MP4")) 1000 = inr demoURL) as H
    by (by vm_compute).
  assert (- 2 ^ 63 ≤ Unix (1000 + renderCapabilityTTL) < 2 ^ 63) as Hr by (vm_compute; split; congruence).
  split; [exact H|].
  pose proof (cast_url_serves demoMinter (Some "peer1") "blake3:aa" (Some (Some " Video/MP4")) 1000 demoURL
    ("blake3:cc", "text/vtt") 1001 1002 H Hr) as HT.
  destruct HT as (_ & Hp & _). exact Hp.
Defined.
End witnesses.
