(* ===== verification/Planner.v ===== *)
(** * Planner: what a device can play

    Models src/internal/domain/playback/planner.go (the plan of a playback against a
    device), leg.go (what a client that declares itself is told to fetch) and
    protocolinfo.go (a device's declaration read from what a UPnP renderer answers).
    A width, height or bitrate is a [Z]; the runtime of the source, which decides nothing,
    is left out. *)

From S2P Require Import Prelude GoText GoPath GoScan GoEncoding.

(** ** The vocabulary (planner.go) *)

Definition DecisionDirect : string := "direct".
Definition DecisionRemux : string := "remux".
Definition DecisionTranscode : string := "transcode".
Definition DecisionUnplayable : string := "unplayable".

Definition ReasonNoReplica : string := "no_replica".
Definition ReasonContainerUnsupported : string := "container_unsupported".
Definition ReasonVideoCodecUnsupported : string := "video_codec_unsupported".
Definition ReasonAudioCodecUnsupported : string := "audio_codec_unsupported".
Definition ReasonResolutionTooHigh : string := "resolution_too_high".
Definition ReasonBitrateTooHigh : string := "bitrate_too_high".
Definition ReasonHDRUnsupported : string := "hdr_unsupported".
Definition ReasonNoProbe : string := "no_probe".
Definition ReasonRemoteReplicaOnly : string := "remote_replica_only".
Definition ReasonDeviceDeclaresNothing : string := "device_declares_nothing".
Definition ReasonForcedDirect : string := "forced_direct".

Record Reason := mkReason { Code : string; Detail : string }.

#[export] Instance Reason_eq_dec : EqDecision Reason.
Proof. solve_decision. Defined.

Record MediaProfile := mkMedia {
  Known : bool;
  Container : string;
  VideoCodec : string;
  Width : Z;
  Height : Z;
  HDR : bool;
  AudioCodec : string;
  AudioTrack : Z;
  AudioLanguage : string;
  Channels : Z;
  BitrateBPS : Z;
}.

(** The profile of bytes nothing has looked at. *)
Definition zeroMedia : MediaProfile := mkMedia false "" "" 0 0 false "" 0 "" 0 0.

Record DeviceProfile := mkProfile {
  Containers : list string;
  VideoCodecs : list string;
  AudioCodecs : list string;
  MaxWidth : Z;
  MaxHeight : Z;
  MaxBitrateBPS : Z;
  SupportsHDR : bool;
}.

Definition nonempty {A} (l : list A) : bool := match l with [] => false | _ => true end.

Definition Declares (d : DeviceProfile) : bool :=
  nonempty (Containers d) || nonempty (VideoCodecs d) || nonempty (AudioCodecs d).

Record Replica := mkReplica { ReplicaPeer : string; Local_ : bool }.

Record Plan := mkPlan { DecisionOf : string; Reasons : list Reason; PeerID : string; Remote : bool }.

#[export] Instance Plan_eq_dec : EqDecision Plan.
Proof. solve_decision. Defined.

Definition Direct (p : Plan) : bool := bool_decide (DecisionOf p = DecisionDirect).

Definition ForceDirect (p : Plan) : Plan :=
  if bool_decide (DecisionOf p = DecisionDirect) || bool_decide (DecisionOf p = DecisionUnplayable) then p
  else mkPlan DecisionDirect
         (mkReason ReasonForcedDirect
            "sent DIRECT at the caller's request despite the above; the device may not decode these bytes" :: Reasons p)
         (PeerID p) (Remote p).

(** [Plan.Reason]: the first reason with the code. *)
Definition Reason_ (p : Plan) (code : string) : option Reason := head (filter (λ r, Code r = code) (Reasons p)).

(** ** Choose *)

Definition contains (haystack : list string) (needle : string) : bool :=
  existsb (λ h, bool_decide (ToLower (TrimSpace h) = ToLower (TrimSpace needle))) haystack.

Definition containerAliases : gmap string (list string) := list_to_map [
  ("matroska", ["mkv"]);
  ("webm", ["webm"]);
  ("mov", ["mov"; "qt"]);
  ("mp4", ["mp4"; "m4v"; "m4a"]);
  ("mpegts", ["ts"; "m2ts"; "mts"]);
  ("mpeg", ["mpg"; "mpeg"]);
  ("asf", ["wmv"; "asf"]);
  ("ogg", ["ogg"; "ogv"; "oga"]);
  ("mp3", ["mp3"]);
  ("flac", ["flac"]);
  ("wav", ["wav"]);
  ("aiff", ["aiff"; "aif"]) ].

(** One name of the demuxer's list. *)
Definition supportsName (declared : list string) (name : string) : bool :=
  let name := TrimSpace (ToLower name) in
  if bool_decide (name = "") then false
  else contains declared name || existsb (contains declared) (default [] (containerAliases !! name)).

Definition supportsContainer (declared : list string) (container : string) : bool :=
  nonempty declared && existsb (supportsName declared) (SplitByte "," container).

Definition containerReason (container : string) : Reason :=
  mkReason ReasonContainerUnsupported ("the device does not declare the " +:+ container +:+ " container").

(** One [if] of incompatibleStreams. *)
Definition reasonIf (b : bool) (code detail : string) : list Reason := if b then [mkReason code detail] else [].

Definition incompatibleStreams (m : MediaProfile) (d : DeviceProfile) : list Reason :=
  reasonIf (bool_decide (VideoCodec m ≠ "") && nonempty (VideoCodecs d) && negb (contains (VideoCodecs d) (VideoCodec m)))
    ReasonVideoCodecUnsupported ("the device does not declare " +:+ VideoCodec m +:+ " video") ++
  reasonIf (bool_decide (AudioCodec m ≠ "") && nonempty (AudioCodecs d) && negb (contains (AudioCodecs d) (AudioCodec m)))
    ReasonAudioCodecUnsupported ("the device does not declare " +:+ AudioCodec m +:+ " audio") ++
  reasonIf ((0 <? MaxWidth d)%Z && (0 <? MaxHeight d)%Z && ((MaxWidth d <? Width m)%Z || (MaxHeight d <? Height m)%Z))
    ReasonResolutionTooHigh
    (FormatInt (Width m) +:+ "x" +:+ FormatInt (Height m) +:+ " is past the device's " +:+
     FormatInt (MaxWidth d) +:+ "x" +:+ FormatInt (MaxHeight d)) ++
  reasonIf ((0 <? MaxBitrateBPS d)%Z && (MaxBitrateBPS d <? BitrateBPS m)%Z)
    ReasonBitrateTooHigh
    (FormatInt (BitrateBPS m) +:+ " bit/s is past the device's " +:+ FormatInt (MaxBitrateBPS d)) ++
  reasonIf (HDR m && negb (SupportsHDR d)) ReasonHDRUnsupported "the device does not declare HDR".

(** The loop of chooseReplica: [remote] is the first remote one met. *)
Fixpoint chooseFrom (remote : option Replica) (replicas : list Replica) : option Replica :=
  match replicas with
  | [] => remote
  | r :: rs =>
      if Local_ r then Some r
      else chooseFrom (match remote with Some _ => remote | None => Some r end) rs
  end.

Definition chooseReplica (replicas : list Replica) : option Replica := chooseFrom None replicas.

Definition Choose (m : MediaProfile) (d : DeviceProfile) (replicas : list Replica) : Plan :=
  match chooseReplica replicas with
  | None => mkPlan DecisionUnplayable [mkReason ReasonNoReplica "no peer holds these bytes"] "" false
  | Some source =>
      let remote := negb (Local_ source) in
      let start := reasonIf remote ReasonRemoteReplicaOnly
                     "the only replica is at another site; §31 prefers a local one" in
      let plan decision reasons := mkPlan decision (start ++ reasons) (ReplicaPeer source) remote in
      if negb (Known m) then
        plan DecisionDirect [mkReason ReasonNoProbe
          ("nothing has probed these bytes, so this plan assumes the device can play them; " +:+
           "a probe would confirm it")]
      else if negb (Declares d) then
        plan DecisionDirect [mkReason ReasonDeviceDeclaresNothing
          "the device declares no codecs or containers, so nothing can be checked against it"]
      else
        let streamReasons := incompatibleStreams m d in
        let containerOK := supportsContainer (Containers d) (Container m) in
        if nonempty streamReasons then
          plan DecisionTranscode
            (streamReasons ++ if containerOK then [] else [containerReason (Container m)])
        else if negb containerOK then plan DecisionRemux [containerReason (Container m)]
        else plan DecisionDirect []
  end.

(** ** The leg of a client (leg.go) *)

Record ClientProfile := mkClient {
  cContainers : list string;
  cVideoCodecs : list string;
  cAudioCodecs : list string;
  cMaxHeight : Z;
}.

Definition ClientDeclares (c : ClientProfile) : bool :=
  nonempty (cContainers c) || nonempty (cVideoCodecs c) || nonempty (cAudioCodecs c).

Definition asDevice (c : ClientProfile) : DeviceProfile :=
  mkProfile (cContainers c) (cVideoCodecs c) (cAudioCodecs c) 0 (cMaxHeight c) 0 false.

Inductive LegMode := LegDirect | LegStream.

#[export] Instance LegMode_eq_dec : EqDecision LegMode.
Proof. solve_decision. Defined.

Record Leg := mkLeg {
  Mode : LegMode;
  LegReason : string;
  LegReasons : list Reason;
  CopyVideo : bool;
  CopyAudio : bool;
  TargetHeight : Z;
}.

#[export] Instance Leg_eq_dec : EqDecision Leg.
Proof. solve_decision. Defined.

Definition fmp4Video : list string := ["h264"; "hevc"; "av1"; "vp9"; "mpeg4"].
Definition fmp4Audio : list string := ["aac"; "mp3"; "ac3"; "eac3"; "opus"; "flac"; "alac"].

Definition firstName (container : string) : string :=
  TrimSpace (match Cut "," container with Some (name, _) => name | None => container end).

(** What the loop of Negotiate carries: the leg so far and the sentences about it. *)
Definition negotiation : Type := Leg * list string.

Definition startLeg : negotiation := (mkLeg LegDirect "" [] true true 0, []).

Definition legContainer (m : MediaProfile) (c : ClientProfile) (n : negotiation) : negotiation :=
  let '(leg, sentences) := n in
  if bool_decide (Container m ≠ "") && negb (supportsContainer (cContainers c) (Container m)) then
    (mkLeg LegStream (LegReason leg) (LegReasons leg ++ [containerReason (Container m)])
       (CopyVideo leg) (CopyAudio leg) (TargetHeight leg),
     sentences ++ ["container " +:+ firstName (Container m) +:+ " not playable by client"])
  else n.

(** Re-encoding the video, with a reason and a sentence. *)
Definition dropVideo (r : Reason) (sentence : string) (n : negotiation) : negotiation :=
  let '(leg, sentences) := n in
  (mkLeg LegStream (LegReason leg) (LegReasons leg ++ [r]) false (CopyAudio leg) (TargetHeight leg),
   sentences ++ [sentence]).

Definition dropAudio (r : Reason) (sentence : string) (n : negotiation) : negotiation :=
  let '(leg, sentences) := n in
  (mkLeg LegStream (LegReason leg) (LegReasons leg ++ [r]) (CopyVideo leg) false (TargetHeight leg),
   sentences ++ [sentence]).

Definition capHeight (h : Z) (n : negotiation) : negotiation :=
  let '(leg, sentences) := n in
  (mkLeg (Mode leg) (LegReason leg) (LegReasons leg) (CopyVideo leg) (CopyAudio leg) h, sentences).

Definition legVideo (m : MediaProfile) (c : ClientProfile) (n : negotiation) : negotiation :=
  if bool_decide (VideoCodec m = "") then n
  else
    let v := VideoCodec m in
    let n :=
      if negb (contains (cVideoCodecs c) v) then
        dropVideo (mkReason ReasonVideoCodecUnsupported ("the client does not declare " +:+ v +:+ " video"))
          ("video " +:+ v +:+ " not decodable by client (transcoding video)") n
      else if negb (contains fmp4Video v) then
        dropVideo (mkReason ReasonVideoCodecUnsupported
                     (v +:+ " video cannot be carried in fragmented MP4 without re-encoding"))
          ("video " +:+ v +:+ " cannot ride fragmented MP4 (transcoding video)") n
      else n in
    if (0 <? cMaxHeight c)%Z && (cMaxHeight c <? Height m)%Z then
      dropVideo (mkReason ReasonResolutionTooHigh
                   (FormatInt (Width m) +:+ "x" +:+ FormatInt (Height m) +:+
                    " is past the client's max height " +:+ FormatInt (cMaxHeight c)))
        ("video " +:+ FormatInt (Height m) +:+ "p exceeds client max_height " +:+
         FormatInt (cMaxHeight c) +:+ " (transcoding video)")
        (capHeight (cMaxHeight c) n)
    else n.

Definition legAudio (m : MediaProfile) (c : ClientProfile) (n : negotiation) : negotiation :=
  if bool_decide (AudioCodec m = "") then n
  else
    let a := AudioCodec m in
    if negb (contains (cAudioCodecs c) a) then
      dropAudio (mkReason ReasonAudioCodecUnsupported ("the client does not declare " +:+ a +:+ " audio"))
        ("audio " +:+ a +:+ " not decodable by client") n
    else if negb (contains fmp4Audio a) then
      dropAudio (mkReason ReasonAudioCodecUnsupported
                   (a +:+ " audio cannot be carried in fragmented MP4 without re-encoding"))
        ("audio " +:+ a +:+ " cannot ride fragmented MP4 (transcoding audio)") n
    else n.

Definition Negotiate (m : MediaProfile) (c : ClientProfile) : Leg :=
  if negb (Known m) then
    mkLeg LegDirect "" [mkReason ReasonNoProbe
      ("nothing has probed these bytes, so the client is handed them as they are; " +:+
       "a probe would confirm it can decode them")] false false 0
  else if negb (ClientDeclares c) then
    mkLeg LegDirect "" [mkReason ReasonDeviceDeclaresNothing
      "the client declares no codecs or containers, so nothing can be checked against it"] false false 0
  else
    let '(leg, sentences) := legAudio m c (legVideo m c (legContainer m c startLeg)) in
    match Mode leg with
    | LegDirect => mkLeg LegDirect "" [] false false 0
    | LegStream => mkLeg LegStream (Join sentences "; ") (LegReasons leg) (CopyVideo leg) (CopyAudio leg) (TargetHeight leg)
    end.

(** ** The declaration of a renderer (protocolinfo.go) *)

Definition appendMissing (dst values : list string) : list string :=
  foldl (λ dst v, if bool_decide (v = "") || contains dst v then dst else dst ++ [v]) dst values.

Record mimeEntry := mkMime { mContainers : list string; mVideo : list string; mAudio : list string }.

Definition mimeVocabulary : gmap string mimeEntry := list_to_map [
  ("video/mp4", mkMime ["mp4"] [] []);
  ("video/x-m4v", mkMime ["m4v"] [] []);
  ("video/quicktime", mkMime ["mov"] [] []);
  ("video/x-mkv", mkMime ["mkv"] [] []);
  ("video/x-matroska", mkMime ["mkv"] [] []);
  ("video/webm", mkMime ["webm"] [] []);
  ("video/avi", mkMime ["avi"] [] []);
  ("video/x-avi", mkMime ["avi"] [] []);
  ("video/x-msvideo", mkMime ["avi"] [] []);
  ("video/x-ms-asf", mkMime ["asf"] [] []);
  ("video/x-ms-wmv", mkMime ["wmv"] ["vc1"] []);
  ("video/x-flv", mkMime ["flv"] [] []);
  ("video/3gpp", mkMime ["3gp"] [] []);
  ("video/mpeg", mkMime ["mpeg"; "ts"] ["mpeg2video"] []);
  ("video/mpeg2", mkMime ["mpeg"] ["mpeg2video"] []);
  ("video/vnd.dlna.mpeg-tts", mkMime ["ts"] [] []);
  ("video/x-divx", mkMime ["avi"] ["mpeg4"] []);
  ("video/hevc", mkMime [] ["hevc"] []);
  ("audio/mpeg", mkMime ["mp3"] [] ["mp3"]);
  ("audio/x-mpeg", mkMime ["mp3"] [] ["mp3"]);
  ("audio/mpeg3", mkMime ["mp3"] [] ["mp3"]);
  ("audio/x-mpeg3", mkMime ["mp3"] [] ["mp3"]);
  ("audio/mp4", mkMime ["m4a"; "mp4"] [] ["aac"]);
  ("audio/x-m4a", mkMime ["m4a"] [] ["aac"]);
  ("audio/aac", mkMime [] [] ["aac"]);
  ("audio/x-aac", mkMime [] [] ["aac"]);
  ("audio/vnd.dlna.adts", mkMime [] [] ["aac"]);
  ("audio/flac", mkMime ["flac"] [] ["flac"]);
  ("audio/x-flac", mkMime ["flac"] [] ["flac"]);
  ("audio/ogg", mkMime ["ogg"] [] ["vorbis"]);
  ("audio/x-vorbis+ogg", mkMime ["ogg"] [] ["vorbis"]);
  ("audio/opus", mkMime ["ogg"] [] ["opus"]);
  ("audio/wav", mkMime ["wav"] [] ["pcm_s16le"]);
  ("audio/x-wav", mkMime ["wav"] [] ["pcm_s16le"]);
  ("audio/vnd.wave", mkMime ["wav"] [] ["pcm_s16le"]);
  ("audio/aiff", mkMime ["aiff"] [] ["pcm_s16be"]);
  ("audio/x-aiff", mkMime ["aiff"] [] ["pcm_s16be"]);
  ("audio/x-ms-wma", mkMime ["asf"] [] ["wmav2"]);
  ("audio/x-ac3", mkMime [] [] ["ac3"]);
  ("audio/vnd.dolby.dd-raw", mkMime [] [] ["ac3"]);
  ("audio/x-monkeys-audio", mkMime ["ape"] [] ["ape"]);
  ("audio/3gpp", mkMime ["3gp"] [] []) ].

Definition profileAudioSegments : gmap string string := list_to_map [
  ("AAC", "aac");
  ("HEAAC", "aac");
  ("BSAC", "aac");
  ("AC3", "ac3");
  ("XAC3", "ac3");
  ("EAC3", "eac3");
  ("MP3", "mp3");
  ("MP3X", "mp3");
  ("MPEG1_L3", "mp3");
  ("LPCM", "pcm_s16le");
  ("WMA", "wmav2");
  ("AMR", "amr_nb");
  ("AMR_WB", "amr_wb");
  ("FLAC", "flac");
  ("VORBIS", "vorbis");
  ("OPUS", "opus");
  ("ATRAC3", "atrac3") ].

(** The value of the first DLNA.ORG_PN of the fourth field. *)
Fixpoint profileName (parts : list string) : string :=
  match parts with
  | [] => ""
  | part :: parts =>
      match CutPrefix (TrimSpace part) "DLNA.ORG_PN=" with
      | Some name => ToUpper (TrimSpace name)
      | None => profileName parts
      end
  end.

Definition profileVideo (pn : string) : list string :=
  if HasPrefix pn "AVC_" then ["h264"]
  else if HasPrefix pn "HEVC" || HasPrefix pn "HEV1" then ["hevc"]
  else if HasPrefix pn "MPEG4_P2" then ["mpeg4"]
  else if HasPrefix pn "MPEG1" then ["mpeg1video"]
  else if HasPrefix pn "MPEG_" then ["mpeg2video"]
  else if HasPrefix pn "WMV" || HasPrefix pn "VC1" then ["vc1"]
  else if HasPrefix pn "VP8" then ["vp8"]
  else if HasPrefix pn "VP9" then ["vp9"]
  else [].

(** Whether a name has a segment, as the loop looks for it. *)
Definition hasSegment (pn segment : string) : bool :=
  bool_decide (pn = segment) || Contains pn ("_" +:+ segment) || HasPrefix pn (segment +:+ "_").

(** [order] is the order in which the range visits profileAudioSegments. *)
Definition profileAudio (order : list (string * string)) (pn : string) : list string :=
  foldl (λ audio sc, if hasSegment pn sc.1 then appendMissing audio [sc.2] else audio) [] order.

Definition codecsFromProfileName (order : list (string * string)) (additional : string) : list string * list string :=
  let pn := profileName (SplitByte ";" additional) in
  if bool_decide (pn = "") then ([], []) else (profileVideo pn, profileAudio order pn).

(** One entry of the Sink, into the three lists. *)
Definition sinkEntry (order : list (string * string)) (entry : string) (d : DeviceProfile) : DeviceProfile :=
  let entry := TrimSpace entry in
  if bool_decide (entry = "") then d
  else match SplitN 4 ":" entry with
  | protocol :: _ :: mime :: rest =>
      if negb (EqualFold protocol "http-get") then d
      else
        let d := match mimeVocabulary !! ToLower (TrimSpace mime) with
                 | None => d
                 | Some m => mkProfile (appendMissing (Containers d) (mContainers m))
                               (appendMissing (VideoCodecs d) (mVideo m)) (appendMissing (AudioCodecs d) (mAudio m))
                               0 0 0 false
                 end in
        match rest with
        | [additional] =>
            let '(v, a) := codecsFromProfileName order additional in
            mkProfile (Containers d) (appendMissing (VideoCodecs d) v) (appendMissing (AudioCodecs d) a) 0 0 0 false
        | _ => d
        end
  | _ => d
  end.

Definition noProfile : DeviceProfile := mkProfile [] [] [] 0 0 0 false.

(** [orders i] is the order of the range at the [i]-th entry. *)
Fixpoint sinkEntries (orders : nat → list (string * string)) (i : nat) (entries : list string) (d : DeviceProfile)
    : DeviceProfile :=
  match entries with
  | [] => d
  | e :: es => sinkEntries orders (S i) es (sinkEntry (orders i) e d)
  end.

Definition ProfileFromProtocolInfo (orders : nat → list (string * string)) (sink : string) : DeviceProfile :=
  sinkEntries orders 0 (SplitByte "," sink) noProfile.
