(* ===== verification/PlannerSpec.v ===== *)
(** * PlannerSpec: what a plan promises

    A plan follows from its reasons, and its reasons are exactly the facts that hold; the leg
    of a client says what is copied and why; the profile read from a renderer is what its
    entries say, in whatever order Go visits a map.  Where the two vocabularies part ways is
    stated too. *)

From S2P Require Import Prelude GoText GoPath GoScan GoEncoding Planner.
#[local] Open Scope Z_scope.

(** ** Names *)

Definition norm (s : string) : string := ToLower (TrimSpace s).

Definition lists (l : list string) (x : string) : Prop := ∃ h, h ∈ l ∧ norm h = norm x.

Lemma contains_spec l x : contains l x = true ↔ lists l x.
Proof.
  unfold contains, lists, norm. rewrite existsb_exists. setoid_rewrite bool_decide_eq_true.
  setoid_rewrite <- list_elem_of_In. done.
Qed.

Lemma contains_false l x : contains l x = false ↔ ¬ lists l x.
Proof. rewrite <- contains_spec. by destruct (contains l x). Qed.

Lemma nonempty_spec {A} (l : list A) : nonempty l = true ↔ l ≠ [].
Proof. by destruct l. Qed.

Lemma nonempty_false {A} (l : list A) : nonempty l = false ↔ l = [].
Proof. by destruct l. Qed.

(** A container plays when one of the demuxer's names for it, or an alias of one, is declared. *)
Definition carries (declared : list string) (container : string) : Prop :=
  ∃ name, name ∈ SplitByte "," container ∧ TrimSpace (ToLower name) ≠ "" ∧
    (lists declared (TrimSpace (ToLower name)) ∨
     ∃ alias, alias ∈ default [] (containerAliases !! TrimSpace (ToLower name)) ∧ lists declared alias).

Lemma supportsName_spec declared name :
  supportsName declared name = true ↔
  TrimSpace (ToLower name) ≠ "" ∧
    (lists declared (TrimSpace (ToLower name)) ∨
     ∃ alias, alias ∈ default [] (containerAliases !! TrimSpace (ToLower name)) ∧ lists declared alias).
Proof.
  unfold supportsName. case_bool_decide as H; [by split; [|intros []]|].
  rewrite orb_true_iff, contains_spec, existsb_exists. setoid_rewrite <- list_elem_of_In.
  setoid_rewrite contains_spec. tauto.
Qed.

Lemma supportsContainer_spec declared container :
  supportsContainer declared container = true ↔ carries declared container.
Proof.
  unfold supportsContainer, carries. rewrite andb_true_iff, nonempty_spec, existsb_exists.
  setoid_rewrite <- list_elem_of_In. setoid_rewrite supportsName_spec. split; [naive_solver|].
  intros (name & Hin & Hne & H). split; [|by eauto]. intros ->. unfold lists in H.
  destruct H as [(h & []%not_elem_of_nil & _)|(a & _ & h & []%not_elem_of_nil & _)].
Qed.

Lemma supportsContainer_false declared container :
  supportsContainer declared container = false ↔ ¬ carries declared container.
Proof. rewrite <- supportsContainer_spec. by destruct (supportsContainer _ _). Qed.

(** ** The replica a plan serves from *)

Lemma chooseFrom_spec remote rs :
  chooseFrom remote rs =
    match filter (λ r, Local_ r = true) rs with
    | r :: _ => Some r
    | [] => match remote with Some r => Some r | None => head rs end
    end.
Proof.
  revert remote. induction rs as [|r rs IH]; intros remote; [by destruct remote|].
  cbn [chooseFrom]. rewrite filter_cons. destruct (Local_ r); [done|]. rewrite IH. cbn.
  destruct (filter _ rs); [|done]. by destruct remote.
Qed.

Lemma chooseReplica_none rs : chooseReplica rs = None ↔ rs = [].
Proof.
  unfold chooseReplica. rewrite chooseFrom_spec. destruct rs as [|r rs]; [done|].
  split; [|done]. by destruct (filter _ (r :: rs)).
Qed.

(** The peer is one that holds the bytes, at this site if any of them is. *)
Lemma chooseReplica_some rs r : chooseReplica rs = Some r →
  r ∈ rs ∧ (Local_ r = false → Forall (λ r', Local_ r' = false) rs).
Proof.
  unfold chooseReplica. rewrite chooseFrom_spec. destruct (filter _ rs) as [|x l] eqn:E.
  - intros H. split; [by apply head_Some_elem_of|]. intros _. apply Forall_forall. intros r' Hr'.
    destruct (Local_ r') eqn:El; [|done].
    assert (r' ∈ filter (λ r, Local_ r = true) rs) as H' by (by apply list_elem_of_filter).
    rewrite E in H'. by apply not_elem_of_nil in H'.
  - intros [= ->]. assert (r ∈ filter (λ r, Local_ r = true) rs) as [Hl Hin]%list_elem_of_filter
      by (rewrite E; by left). by rewrite Hl.
Qed.

(** ** What a reason says *)

(** The media are known, the device says what it plays, and there is a copy. *)
Definition compared (m : MediaProfile) (d : DeviceProfile) (rs : list Replica) : Prop :=
  rs ≠ [] ∧ Known m = true ∧ Declares d = true.

Inductive why (m : MediaProfile) (d : DeviceProfile) (rs : list Replica) : string → Prop :=
  | why_no_replica : rs = [] → why m d rs ReasonNoReplica
  | why_remote : rs ≠ [] → Forall (λ r, Local_ r = false) rs → why m d rs ReasonRemoteReplicaOnly
  | why_no_probe : rs ≠ [] → Known m = false → why m d rs ReasonNoProbe
  | why_silent : rs ≠ [] → Known m = true → Declares d = false → why m d rs ReasonDeviceDeclaresNothing
  | why_container : compared m d rs → ¬ carries (Containers d) (Container m) → why m d rs ReasonContainerUnsupported
  | why_video : compared m d rs → VideoCodec m ≠ "" → VideoCodecs d ≠ [] → ¬ lists (VideoCodecs d) (VideoCodec m) →
      why m d rs ReasonVideoCodecUnsupported
  | why_audio : compared m d rs → AudioCodec m ≠ "" → AudioCodecs d ≠ [] → ¬ lists (AudioCodecs d) (AudioCodec m) →
      why m d rs ReasonAudioCodecUnsupported
  | why_resolution : compared m d rs → 0 < MaxWidth d → 0 < MaxHeight d →
      MaxWidth d < Width m ∨ MaxHeight d < Height m → why m d rs ReasonResolutionTooHigh
  | why_bitrate : compared m d rs → 0 < MaxBitrateBPS d < BitrateBPS m → why m d rs ReasonBitrateTooHigh
  | why_hdr : compared m d rs → HDR m = true → SupportsHDR d = false → why m d rs ReasonHDRUnsupported.

(** The codes only re-encoding a stream can answer. *)
Definition streamCodes : list string :=
  [ReasonVideoCodecUnsupported; ReasonAudioCodecUnsupported; ReasonResolutionTooHigh; ReasonBitrateTooHigh;
   ReasonHDRUnsupported].

Lemma elem_of_reasonIf code b c detail : code ∈ Code <$> reasonIf b c detail ↔ b = true ∧ code = c.
Proof. unfold reasonIf. destruct b; cbn; [rewrite list_elem_of_singleton|rewrite elem_of_nil]; naive_solver. Qed.

Definition codeIn (code : string) (rs : list Reason) : Prop := code ∈ Code <$> rs.

Lemma codeIn_app code l k : codeIn code (l ++ k) ↔ codeIn code l ∨ codeIn code k.
Proof. unfold codeIn. by rewrite fmap_app, elem_of_app. Qed.

Lemma codeIn_one code r : codeIn code [r] ↔ code = Code r.
Proof. unfold codeIn. cbn. by rewrite list_elem_of_singleton. Qed.

Lemma codeIn_nil code : codeIn code [] ↔ False.
Proof. unfold codeIn. cbn. by rewrite elem_of_nil. Qed.

Lemma codeIn_reasonIf code b c detail : codeIn code (reasonIf b c detail) ↔ b = true ∧ code = c.
Proof. apply elem_of_reasonIf. Qed.

Lemma incompatible_spec m d rs code : compared m d rs →
  codeIn code (incompatibleStreams m d) ↔ why m d rs code ∧ code ∈ streamCodes.
Proof.
  intros Hc. unfold incompatibleStreams. rewrite !codeIn_app, !codeIn_reasonIf.
  rewrite !andb_true_iff, !orb_true_iff, !negb_true_iff, !contains_false, !nonempty_spec, !Z.ltb_lt, !bool_decide_eq_true.
  split.
  - intros [[? ->]|[[? ->]|[[? ->]|[[? ->]|[? ->]]]]]; (split; [|by apply (bool_decide_unpack _)]);
      [apply why_video|apply why_audio|apply why_resolution|apply why_bitrate|apply why_hdr]; naive_solver.
  - intros [H Hin]. destruct H; try (by apply (bool_decide_pack _) in Hin); naive_solver lia.
Qed.

(** A code tells which reason it is. *)
Lemma why_code m d rs code : compared m d rs → why m d rs code →
  code = ReasonRemoteReplicaOnly ∨ code = ReasonContainerUnsupported ∨ code ∈ streamCodes.
Proof.
  intros (H1 & H2 & H3) H. destruct H; try congruence; try (by left); try (by right; left);
    right; right; by apply (bool_decide_unpack _).
Qed.

Lemma nonempty_codes l : nonempty l = true ↔ ∃ code, codeIn code l.
Proof.
  unfold codeIn. destruct l as [|r l]; cbn.
  - split; [done|]. by intros [c []%not_elem_of_nil].
  - split; [|done]. intros _. exists (Code r). by left.
Qed.

Definition streamProblem (m : MediaProfile) (d : DeviceProfile) (rs : list Replica) : Prop :=
  ∃ code, code ∈ streamCodes ∧ why m d rs code.

Definition containerProblem (m : MediaProfile) (d : DeviceProfile) (rs : list Replica) : Prop :=
  why m d rs ReasonContainerUnsupported.

(** Neither depends on where the copies are. *)
Lemma containerProblem_any m d rs rs' : containerProblem m d rs → rs' ≠ [] → containerProblem m d rs'.
Proof.
  unfold containerProblem. intros H Hne. inversion H as [| | | |Hc Hn| | | | |]. destruct Hc as (_ & ? & ?).
  by apply why_container; [split_and!|].
Qed.

Lemma streamProblem_any m d rs rs' : streamProblem m d rs → rs' ≠ [] → streamProblem m d rs'.
Proof.
  intros (code & Hin & H) Hne. exists code. split; [done|].
  assert (compared m d rs → compared m d rs') as Hc by (unfold compared; tauto).
  destruct H; try (by apply (bool_decide_pack _) in Hin); eauto using why.
Qed.

(** What a plan that has a replica decides. *)
Definition decides (m : MediaProfile) (d : DeviceProfile) (rs : list Replica) (decision : string) : Prop :=
  decision = DecisionTranscode ∧ streamProblem m d rs ∨
  decision = DecisionRemux ∧ containerProblem m d rs ∧ ¬ streamProblem m d rs ∨
  decision = DecisionDirect ∧ ¬ containerProblem m d rs ∧ ¬ streamProblem m d rs.

Lemma not_compared_fine m d rs : ¬ compared m d rs → ¬ containerProblem m d rs ∧ ¬ streamProblem m d rs.
Proof.
  intros Hn. split; [by inversion 1|]. intros (code & Hin & H).
  destruct H; try (by apply (bool_decide_pack _) in Hin); done.
Qed.

Lemma incompatible_problem m d rs : compared m d rs →
  nonempty (incompatibleStreams m d) = true ↔ streamProblem m d rs.
Proof.
  intros Hc. rewrite nonempty_codes. unfold streamProblem. setoid_rewrite (incompatible_spec m d rs _ Hc). naive_solver.
Qed.

Lemma container_problem m d rs : compared m d rs →
  supportsContainer (Containers d) (Container m) = false ↔ containerProblem m d rs.
Proof.
  intros Hc. rewrite supportsContainer_false. unfold containerProblem.
  split; [by apply why_container|by inversion 1].
Qed.

(** The three ways a plan that has a replica can go. *)
Lemma Choose_eq m d rs r : chooseReplica rs = Some r →
  ∃ decision reasons,
    Choose m d rs =
      mkPlan decision
        (reasonIf (negb (Local_ r)) ReasonRemoteReplicaOnly
           "the only replica is at another site; §31 prefers a local one" ++ reasons)
        (ReplicaPeer r) (negb (Local_ r)) ∧
    decides m d rs decision ∧
    ∀ code, codeIn code reasons ↔ why m d rs code ∧ code ≠ ReasonRemoteReplicaOnly.
Proof.
  intros Hr. assert (rs ≠ []) as Hrs by (intros E; apply chooseReplica_none in E; congruence).
  unfold Choose. rewrite Hr. destruct (Known m) eqn:Hk; cbn [negb].
  2:{ eexists _, _. split; [done|]. destruct (not_compared_fine m d rs) as [H1 H2]; [by intros (? & ? & ?); congruence|].
      split; [by right; right|]. intros code. rewrite codeIn_one. cbn.
      split; [intros ->; split; [by apply why_no_probe|done]|].
      intros [[] Hne]; unfold compared in *; destruct_and?; congruence. }
  destruct (Declares d) eqn:Hd; cbn [negb].
  2:{ eexists _, _. split; [done|]. destruct (not_compared_fine m d rs) as [H1 H2]; [by intros (? & ? & ?); congruence|].
      split; [by right; right|]. intros code. rewrite codeIn_one. cbn.
      split; [intros ->; split; [by apply why_silent|done]|].
      intros [[] Hne]; unfold compared in *; destruct_and?; congruence. }
  assert (compared m d rs) as Hc by done.
  pose proof (incompatible_problem m d rs Hc) as HS. pose proof (container_problem m d rs Hc) as HC.
  destruct (nonempty (incompatibleStreams m d)) eqn:Es.
  - eexists _, _. split; [done|]. split; [left; naive_solver|]. intros code.
    rewrite codeIn_app, (incompatible_spec m d rs) by done.
    destruct (supportsContainer _ _) eqn:Ec; cbn [negb]; rewrite ?codeIn_nil, ?codeIn_one; cbn [Code containerReason].
    + split.
      * intros [[H Hin]|[]]. split; [done|]. intros ->. by apply (bool_decide_pack _) in Hin.
      * intros [H Hne]. left. split; [done|]. destruct (why_code _ _ _ _ Hc H) as [?|[->|?]]; [done| |done].
        apply HC in H. congruence.
    + split.
      * intros [[H Hin]| ->]; [split; [done|]; intros ->; by apply (bool_decide_pack _) in Hin|].
        split; [by apply HC|done].
      * intros [H Hne]. destruct (why_code _ _ _ _ Hc H) as [?|[->|?]]; [done|by right|by left].
  - assert (¬ streamProblem m d rs) as Hns by naive_solver.
    assert (∀ code, why m d rs code → code ∉ streamCodes) as Hno by (intros code H Hin; apply Hns; by exists code).
    destruct (supportsContainer _ _) eqn:Ec; cbn [negb].
    + exists DecisionDirect, []. split; [done|]. split; [right; right; split; [done|]; by rewrite <- HC|]. intros code.
      rewrite codeIn_nil. split; [done|]. intros [H Hne]. destruct (why_code _ _ _ _ Hc H) as [?|[->|?]]; [done| |naive_solver].
      apply HC in H. congruence.
    + eexists _, _. split; [done|]. split; [right; left; split; [done|]; by rewrite <- HC|]. intros code. rewrite codeIn_one. cbn.
      split; [intros ->; split; [by apply HC|done]|].
      intros [H Hne]. destruct (why_code _ _ _ _ Hc H) as [?|[->|?]]; [done|done|naive_solver].
Qed.

(** The reasons of a plan are exactly the facts that hold. *)
Lemma choose_reasons m d rs code : codeIn code (Reasons (Choose m d rs)) ↔ why m d rs code.
Proof.
  destruct (chooseReplica rs) as [r|] eqn:Er.
  - assert (rs ≠ []) as Hrs by (intros E; apply chooseReplica_none in E; congruence).
    destruct (chooseReplica_some _ _ Er) as [Hin Hl].
    destruct (Choose_eq m d rs r Er) as (dec & reasons & Hp & Hd & Hr). rewrite Hp. cbn [Reasons].
    rewrite codeIn_app, codeIn_reasonIf, Hr, negb_true_iff. split.
    + intros [[El ->]|[H _]]; [|done]. apply why_remote; auto.
    + intros H. destruct (decide (code = ReasonRemoteReplicaOnly)) as [->|Hne]; [left|by right].
      split; [|done]. inversion H as [| Hn Hf| | | | | | | | ]. rewrite Forall_forall in Hf. auto.
  - assert (rs = []) as -> by (by apply chooseReplica_none).
    change (Reasons (Choose m d [])) with [mkReason ReasonNoReplica "no peer holds these bytes"].
    rewrite codeIn_one. cbn. split; [intros ->; by apply why_no_replica|].
    intros []; unfold compared in *; destruct_and?; congruence.
Qed.

(** What is decided and from which peer. *)
Lemma choose_parts m d rs :
  let p := Choose m d rs in
  if decide (rs = []) then DecisionOf p = DecisionUnplayable ∧ PeerID p = ""
  else decides m d rs (DecisionOf p) ∧
       ∃ r, r ∈ rs ∧ PeerID p = ReplicaPeer r ∧ Remote p = negb (Local_ r) ∧
            (Local_ r = false → Forall (λ r', Local_ r' = false) rs).
Proof.
  intros p. destruct (chooseReplica rs) as [r|] eqn:Er.
  - assert (rs ≠ []) as Hrs by (intros E; apply chooseReplica_none in E; congruence).
    destruct (chooseReplica_some _ _ Er) as [Hin Hl].
    destruct (Choose_eq m d rs r Er) as (dec & reasons & Hp & Hd & Hr). subst p. rewrite Hp.
    rewrite decide_False by done. cbn [Reasons DecisionOf PeerID Remote]. split; [done|by eauto].
  - assert (rs = []) as -> by (by apply chooseReplica_none). done.
Qed.

(** C27. A plan carries its reasons: they are exactly the facts that hold of the media, the
    device and the copies, and the decision follows from them.  Nothing to play from is
    unplayable; otherwise the plan serves from a peer that holds the bytes, at this site if
    any peer here does, and it re-encodes exactly when a stream is not fit for the device,
    repackages exactly when only the container is not, and hands over the bytes otherwise;
    also, then, when nothing is known of the media or of the device. *)
Theorem choose_explains m d rs :
  let p := Choose m d rs in
  (∀ code, codeIn code (Reasons p) ↔ why m d rs code) ∧
  if decide (rs = []) then DecisionOf p = DecisionUnplayable ∧ PeerID p = ""
  else decides m d rs (DecisionOf p) ∧
       ∃ r, r ∈ rs ∧ PeerID p = ReplicaPeer r ∧ Remote p = negb (Local_ r) ∧
            (Local_ r = false → Forall (λ r', Local_ r' = false) rs).
Proof. split; [intros code; apply choose_reasons|apply choose_parts]. Qed.

(** Sending the bytes anyway keeps every reason and says that it was asked for; a plan with
    nothing to send is left alone. *)
Lemma ForceDirect_spec p :
  let q := ForceDirect p in
  PeerID q = PeerID p ∧ Remote q = Remote p ∧
  (DecisionOf p = DecisionDirect ∨ DecisionOf p = DecisionUnplayable → q = p) ∧
  (DecisionOf p ≠ DecisionDirect → DecisionOf p ≠ DecisionUnplayable →
     Direct q = true ∧ ∃ r, Reasons q = r :: Reasons p ∧ Code r = ReasonForcedDirect).
Proof.
  unfold ForceDirect. case_bool_decide; [by auto|]. case_bool_decide; [by auto|]. cbn. split_and!; try done.
  - by intros [?|?].
  - intros _ _. split; [done|]. by eexists.
Qed.

(** ** The leg of a client *)

Definition videoListed (m : MediaProfile) (c : ClientProfile) : Prop := lists (cVideoCodecs c) (VideoCodec m).
Definition tooTall (m : MediaProfile) (c : ClientProfile) : Prop := 0 < cMaxHeight c < Height m.

(** What stands in the way of a copy of each stream, and of the container as it is. *)
Definition videoCopies (m : MediaProfile) (c : ClientProfile) : Prop :=
  VideoCodec m = "" ∨ videoListed m c ∧ lists fmp4Video (VideoCodec m) ∧ ¬ tooTall m c.
Definition audioCopies (m : MediaProfile) (c : ClientProfile) : Prop :=
  AudioCodec m = "" ∨ lists (cAudioCodecs c) (AudioCodec m) ∧ lists fmp4Audio (AudioCodec m).
Definition containerPlays (m : MediaProfile) (c : ClientProfile) : Prop :=
  Container m = "" ∨ carries (cContainers c) (Container m).

#[export] Instance lists_dec l x : Decision (lists l x).
Proof. destruct (contains l x) eqn:E; [left; by apply contains_spec|right; by apply contains_false]. Defined.

#[export] Instance carries_dec l x : Decision (carries l x).
Proof.
  destruct (supportsContainer l x) eqn:E; [left; by apply supportsContainer_spec|right; by apply supportsContainer_false].
Defined.

#[export] Instance tooTall_dec m c : Decision (tooTall m c).
Proof. unfold tooTall. apply _. Defined.
#[export] Instance videoCopies_dec m c : Decision (videoCopies m c).
Proof. unfold videoCopies, videoListed. apply _. Defined.
#[export] Instance audioCopies_dec m c : Decision (audioCopies m c).
Proof. unfold audioCopies. apply _. Defined.
#[export] Instance containerPlays_dec m c : Decision (containerPlays m c).
Proof. unfold containerPlays. apply _. Defined.

Lemma lists_decide l x : contains l x = bool_decide (lists l x).
Proof. apply Bool.eq_iff_eq_true. by rewrite contains_spec, bool_decide_eq_true. Qed.

Lemma tooTall_decide m c : (0 <? cMaxHeight c) && (cMaxHeight c <? Height m) = bool_decide (tooTall m c).
Proof. apply Bool.eq_iff_eq_true. unfold tooTall. rewrite andb_true_iff, !Z.ltb_lt, bool_decide_eq_true. done. Qed.

(** Each part of the negotiation, by what it asks of the media and what it writes. *)
Definition fine (n : negotiation) (vid aud : Prop) (h : Z) : Prop :=
  (CopyVideo n.1 = true ↔ vid) ∧ (CopyAudio n.1 = true ↔ aud) ∧ TargetHeight n.1 = h.

Lemma legContainer_spec m c :
  let n := legContainer m c startLeg in
  (Mode n.1 = LegDirect ↔ containerPlays m c) ∧ fine n True True 0 ∧
  (∀ code, codeIn code (LegReasons n.1) ↔ code = ReasonContainerUnsupported ∧ ¬ containerPlays m c).
Proof.
  unfold legContainer, startLeg, containerPlays, fine. cbn zeta.
  destruct (bool_decide (Container m ≠ "")) eqn:E1; [apply bool_decide_eq_true in E1|apply bool_decide_eq_false in E1];
    cbn [andb].
  - destruct (supportsContainer _ _) eqn:E2; cbn [negb fst Mode CopyVideo CopyAudio TargetHeight LegReasons].
    + apply supportsContainer_spec in E2. setoid_rewrite codeIn_nil. naive_solver.
    + apply supportsContainer_false in E2. setoid_rewrite codeIn_app. setoid_rewrite codeIn_one.
      setoid_rewrite codeIn_nil. cbn. naive_solver.
  - cbn. setoid_rewrite codeIn_nil. destruct (decide (Container m = "")); naive_solver.
Qed.

Lemma legVideo_spec m c n :
  let n' := legVideo m c n in
  (Mode n'.1 = LegDirect ↔ Mode n.1 = LegDirect ∧ videoCopies m c) ∧
  (CopyVideo n'.1 = true ↔ CopyVideo n.1 = true ∧ videoCopies m c) ∧
  CopyAudio n'.1 = CopyAudio n.1 ∧
  TargetHeight n'.1 = (if decide (VideoCodec m ≠ "" ∧ tooTall m c) then cMaxHeight c else TargetHeight n.1) ∧
  (∀ code, codeIn code (LegReasons n'.1) ↔ codeIn code (LegReasons n.1) ∨
     VideoCodec m ≠ "" ∧ (code = ReasonVideoCodecUnsupported ∧ ¬ (videoListed m c ∧ lists fmp4Video (VideoCodec m)) ∨
                          code = ReasonResolutionTooHigh ∧ tooTall m c)).
Proof.
  destruct n as [leg sent]. unfold legVideo, videoCopies, videoListed. cbn zeta.
  destruct (bool_decide (VideoCodec m = "")) eqn:Ev.
  { apply bool_decide_eq_true in Ev. rewrite decide_False by naive_solver. naive_solver. }
  apply bool_decide_eq_false in Ev. rewrite tooTall_decide, !lists_decide.
  destruct (decide (tooTall m c)) as [Ht|Ht];
    [rewrite (decide_True (P := VideoCodec m ≠ "" ∧ tooTall m c)), (bool_decide_eq_true_2 (tooTall m c)) by done
    |rewrite (decide_False (P := VideoCodec m ≠ "" ∧ tooTall m c)), (bool_decide_eq_false_2 (tooTall m c)) by naive_solver];
  (destruct (decide (lists (cVideoCodecs c) (VideoCodec m))) as [Hl|Hl];
    [rewrite (bool_decide_eq_true_2 (lists (cVideoCodecs c) _)) by done
    |rewrite (bool_decide_eq_false_2 (lists (cVideoCodecs c) _)) by done]; cbn [negb];
  [destruct (decide (lists fmp4Video (VideoCodec m))) as [Hf|Hf];
    [rewrite (bool_decide_eq_true_2 (lists fmp4Video _)) by done
    |rewrite (bool_decide_eq_false_2 (lists fmp4Video _)) by done]; cbn [negb]|]);
  cbn [dropVideo capHeight fst Mode CopyVideo CopyAudio TargetHeight LegReasons];
  repeat setoid_rewrite codeIn_app; repeat setoid_rewrite codeIn_one; cbn [Code]; naive_solver.
Qed.

Lemma legAudio_spec m c n :
  let n' := legAudio m c n in
  (Mode n'.1 = LegDirect ↔ Mode n.1 = LegDirect ∧ audioCopies m c) ∧
  (CopyAudio n'.1 = true ↔ CopyAudio n.1 = true ∧ audioCopies m c) ∧
  CopyVideo n'.1 = CopyVideo n.1 ∧ TargetHeight n'.1 = TargetHeight n.1 ∧
  (∀ code, codeIn code (LegReasons n'.1) ↔ codeIn code (LegReasons n.1) ∨
     code = ReasonAudioCodecUnsupported ∧ ¬ audioCopies m c).
Proof.
  destruct n as [leg sent]. unfold legAudio, audioCopies. cbn zeta.
  destruct (bool_decide (AudioCodec m = "")) eqn:Ev.
  { apply bool_decide_eq_true in Ev. naive_solver. }
  apply bool_decide_eq_false in Ev. rewrite !lists_decide.
  destruct (decide (lists (cAudioCodecs c) (AudioCodec m))) as [Hl|Hl];
    [rewrite (bool_decide_eq_true_2 (lists (cAudioCodecs c) _)) by done
    |rewrite (bool_decide_eq_false_2 (lists (cAudioCodecs c) _)) by done]; cbn [negb];
  [destruct (decide (lists fmp4Audio (AudioCodec m))) as [Hf|Hf];
    [rewrite (bool_decide_eq_true_2 (lists fmp4Audio _)) by done
    |rewrite (bool_decide_eq_false_2 (lists fmp4Audio _)) by done]; cbn [negb]|];
  cbn [dropAudio fst Mode CopyVideo CopyAudio TargetHeight LegReasons];
  repeat setoid_rewrite codeIn_app; repeat setoid_rewrite codeIn_one; cbn [Code]; naive_solver.
Qed.

(** The bytes of a known file go as they are exactly when the client plays its container and
    each of its streams, and fragmented MP4 could carry each as it is; otherwise a stream copies exactly the
    streams that the client decodes and the stream's container carries, is scaled down
    exactly when the picture is too tall, and gives exactly the reasons that hold.  A file
    nothing has probed, or a client that declares nothing, gets the bytes and the reason. *)
Theorem leg_plays m c :
  let leg := Negotiate m c in
  if negb (Known m) then Mode leg = LegDirect ∧ Code <$> LegReasons leg = [ReasonNoProbe]
  else if negb (ClientDeclares c) then Mode leg = LegDirect ∧ Code <$> LegReasons leg = [ReasonDeviceDeclaresNothing]
  else if decide (containerPlays m c ∧ videoCopies m c ∧ audioCopies m c)
  then leg = mkLeg LegDirect "" [] false false 0
  else Mode leg = LegStream ∧
       (CopyVideo leg = true ↔ videoCopies m c) ∧ (CopyAudio leg = true ↔ audioCopies m c) ∧
       TargetHeight leg = (if decide (VideoCodec m ≠ "" ∧ tooTall m c) then cMaxHeight c else 0) ∧
       (∀ code, codeIn code (LegReasons leg) ↔
          code = ReasonContainerUnsupported ∧ ¬ containerPlays m c ∨
          code = ReasonVideoCodecUnsupported ∧ VideoCodec m ≠ "" ∧
            ¬ (videoListed m c ∧ lists fmp4Video (VideoCodec m)) ∨
          code = ReasonResolutionTooHigh ∧ VideoCodec m ≠ "" ∧ tooTall m c ∨
          code = ReasonAudioCodecUnsupported ∧ ¬ audioCopies m c).
Proof.
  intros leg. subst leg. unfold Negotiate. destruct (negb (Known m)); [done|].
  destruct (negb (ClientDeclares c)); [done|].
  destruct (legContainer_spec m c) as (C1 & (C2 & C3 & C4) & C5).
  destruct (legVideo_spec m c (legContainer m c startLeg)) as (V1 & V2 & V3 & V4 & V5).
  destruct (legAudio_spec m c (legVideo m c (legContainer m c startLeg))) as (A1 & A2 & A3 & A4 & A5).
  destruct (legAudio m c _) as [leg sent]. cbn [fst] in *.
  assert (Mode leg = LegDirect ↔ containerPlays m c ∧ videoCopies m c ∧ audioCopies m c) as Hall
    by (rewrite A1, V1, C1; tauto).
  destruct (Mode leg) eqn:Em.
  - by rewrite decide_True by (by apply Hall).
  - rewrite decide_False by (by rewrite <- Hall).
    cbn [Mode CopyVideo CopyAudio TargetHeight LegReasons].
    rewrite A3, A4, V2, A2, V3, V4, C2, C3, C4. split_and!; [done|tauto|tauto|done|].
    intros code. rewrite A5, V5, C5. tauto.
Qed.

Lemma if_nil {A} (b : bool) (x : A) : (if b then [x] else []) = [] ↔ b = false.
Proof. by destruct b. Qed.

(** A codec the plan lets pass: none, or one listed, or any where no codec of its kind is. *)
Definition passes (l : list string) (x : string) : Prop := x = "" ∨ l = [] ∨ lists l x.

Lemma codec_ok (l : list string) x : ((¬ x ≠ "" ∨ l = []) ∨ lists l x) ↔ passes l x.
Proof. unfold passes. destruct (decide (x = "")); naive_solver. Qed.

Lemma lists_nil x : ¬ lists [] x.
Proof. intros (h & Hh & _). by apply elem_of_nil in Hh. Qed.

Lemma carries_empty l : ¬ carries l "".
Proof. intros (name & Hin & Hne & _). apply list_elem_of_singleton in Hin as ->. by apply Hne. Qed.

(** A codec that passes is copied unless something stands in the way, and one that is copied
    passes. *)
Lemma video_part m c :
  (passes (cVideoCodecs c) (VideoCodec m) →
   ¬ videoCopies m c ↔ VideoCodec m ≠ "" ∧ (tooTall m c ∨ ¬ lists fmp4Video (VideoCodec m) ∨ cVideoCodecs c = [])) ∧
  (videoCopies m c → passes (cVideoCodecs c) (VideoCodec m)).
Proof.
  unfold passes, videoCopies, videoListed. split; [|tauto]. intros Hp.
  assert (cVideoCodecs c = [] → ¬ lists (cVideoCodecs c) (VideoCodec m)) as Hn by (intros ->; apply lists_nil).
  destruct (decide (VideoCodec m = "")), (decide (tooTall m c)), (decide (lists fmp4Video (VideoCodec m))); tauto.
Qed.

Lemma audio_part m c :
  (passes (cAudioCodecs c) (AudioCodec m) →
   ¬ audioCopies m c ↔ AudioCodec m ≠ "" ∧ (¬ lists fmp4Audio (AudioCodec m) ∨ cAudioCodecs c = [])) ∧
  (audioCopies m c → passes (cAudioCodecs c) (AudioCodec m)).
Proof.
  unfold passes, audioCopies. split; [|tauto]. intros Hp.
  assert (cAudioCodecs c = [] → ¬ lists (cAudioCodecs c) (AudioCodec m)) as Hn by (intros ->; apply lists_nil).
  destruct (decide (AudioCodec m = "")), (decide (lists fmp4Audio (AudioCodec m))); tauto.
Qed.

(** ** Two vocabularies *)

(** C28. Asked about one client that declares something, for a probed file with a copy, the
    two answers part ways exactly here: a stream although the plan is direct, for a picture
    too tall (the plan needs a width too), for a codec the client decodes and fragmented MP4
    does not carry, and for a codec where the client lists none of its kind, which the plan
    takes for no limit and the leg for no decoder; and the bytes although the plan is not
    direct, for HDR, which the leg does not look at, and for a container that has no name,
    which the plan takes for unsupported. *)
Theorem leg_and_plan m c rs : rs ≠ [] → Known m = true → ClientDeclares c = true →
  let plan := DecisionOf (Choose m (asDevice c) rs) in
  let mode := Mode (Negotiate m c) in
  let declared := carries (cContainers c) (Container m) ∧ passes (cVideoCodecs c) (VideoCodec m) ∧
                  passes (cAudioCodecs c) (AudioCodec m) in
  (plan = DecisionDirect ↔ declared ∧ HDR m = false) ∧
  (plan = DecisionDirect ∧ mode = LegStream ↔ declared ∧ HDR m = false ∧
     (VideoCodec m ≠ "" ∧ (tooTall m c ∨ ¬ lists fmp4Video (VideoCodec m) ∨ cVideoCodecs c = []) ∨
      AudioCodec m ≠ "" ∧ (¬ lists fmp4Audio (AudioCodec m) ∨ cAudioCodecs c = []))) ∧
  (plan ≠ DecisionDirect ∧ mode = LegDirect ↔
     (HDR m = true ∨ Container m = "") ∧ containerPlays m c ∧ videoCopies m c ∧ audioCopies m c).
Proof.
  intros Hrs Hk Hd plan mode declared.
  assert (compared m (asDevice c) rs) as Hc by done.
  assert (plan = DecisionDirect ↔ declared ∧ HDR m = false) as Hplan.
  { subst plan. pose proof (choose_parts m (asDevice c) rs) as H. cbn zeta in H. rewrite decide_False in H by done.
    destruct H as [H _]. unfold decides in H.
    assert (DecisionOf (Choose m (asDevice c) rs) = DecisionDirect ↔
      ¬ containerProblem m (asDevice c) rs ∧ ¬ streamProblem m (asDevice c) rs) as ->.
    { split; [intros E; rewrite E in H; naive_solver|naive_solver]. }
    rewrite <- incompatible_problem, <- container_problem by done. rewrite not_true_iff_false.
    unfold declared. rewrite supportsContainer_false. unfold incompatibleStreams, reasonIf, asDevice.
    cbn [VideoCodecs AudioCodecs Containers MaxWidth MaxHeight MaxBitrateBPS SupportsHDR]. rewrite !lists_decide.
    rewrite nonempty_false, !app_nil, !if_nil, !andb_false_iff, !negb_false_iff.
    rewrite !nonempty_false, !bool_decide_eq_true, !bool_decide_eq_false, !codec_ok.
    change (0 <? 0) with false. assert (∀ P : Prop, Decision P → ¬ ¬ P ↔ P) as Hnn by (intros P ?; split; [apply dec_stable|tauto]).
    rewrite (Hnn _ (carries_dec _ _)). clear. intuition congruence. }
  split; [done|].
  pose proof (leg_plays m c) as H. cbn zeta in H. fold mode in H. rewrite Hk, Hd in H. cbn [negb] in H.
  assert (mode = LegDirect ↔ containerPlays m c ∧ videoCopies m c ∧ audioCopies m c) as Hm.
  { destruct (decide _) as [HD|HD]; [unfold mode; rewrite H; naive_solver|]. destruct H as [H _]. rewrite H. naive_solver. }
  assert (mode = LegStream ↔ ¬ (containerPlays m c ∧ videoCopies m c ∧ audioCopies m c)) as Hs.
  { rewrite <- Hm. unfold mode. by destruct (Mode _). }
  rewrite Hs, Hm, Hplan. clear H Hm Hs Hplan Hrs Hk Hd Hc plan mode.
  assert (HDR m = false ↔ ¬ HDR m = true) as -> by (rewrite not_true_iff_false; done).
  pose proof (video_part m c) as [Hv Hvp]. pose proof (audio_part m c) as [Ha Hap].
  assert (Container m = "" → ¬ carries (cContainers c) (Container m)) as Hce by (intros ->; apply carries_empty).
  unfold containerPlays. revert Hv Hvp Ha Hap. subst declared.
  generalize (passes (cVideoCodecs c) (VideoCodec m)), (passes (cAudioCodecs c) (AudioCodec m)). intros PV PA.
  generalize (VideoCodec m ≠ "" ∧ (tooTall m c ∨ ¬ lists fmp4Video (VideoCodec m) ∨ cVideoCodecs c = [])).
  generalize (AudioCodec m ≠ "" ∧ (¬ lists fmp4Audio (AudioCodec m) ∨ cAudioCodecs c = [])). intros WA WV Hv Hvp Ha Hap.
  destruct (decide (videoCopies m c)), (decide (audioCopies m c)), (decide (HDR m = true)); tauto.
Qed.

(** ** The profile of a renderer *)

(** A name as the tables write it: nothing to trim or fold. *)
Definition clean (x : string) : Prop := x ≠ "" ∧ norm x = x.

#[export] Instance clean_dec x : Decision (clean x).
Proof. unfold clean. apply _. Defined.

Lemma lists_clean l x : Forall clean l → clean x → lists l x ↔ x ∈ l.
Proof.
  intros Hl [_ Hx]. rewrite Forall_forall in Hl. unfold lists. split; [|by eauto].
  intros (h & Hin & E). destruct (Hl _ Hin) as [_ Hh]. congruence.
Qed.

(** Both tables hold clean names, each a set that others of its kind may be added to. *)
Definition known (l : list string) : Prop := NoDup l ∧ Forall clean l.

Lemma appendMissing_spec dst values : known dst → Forall clean values →
  known (appendMissing dst values) ∧ ∀ x, x ∈ appendMissing dst values ↔ x ∈ dst ∨ x ∈ values.
Proof.
  unfold appendMissing. revert dst. induction values as [|v values IH]; intros dst [Hn Hc] Hv.
  { split; [done|]. intros x. rewrite elem_of_nil. tauto. }
  inversion Hv as [|?? Hv1 Hv2]; subst. cbn [foldl]. rewrite (bool_decide_eq_false_2 (v = "")) by apply Hv1. cbn [orb].
  assert (contains dst v = true ↔ v ∈ dst) as Hin by (rewrite contains_spec; by apply lists_clean).
  destruct (contains dst v).
  - destruct (IH dst) as [H1 H2]; [done|done|]. split; [done|]. intros x. rewrite H2, elem_of_cons. naive_solver.
  - destruct (IH (dst ++ [v])) as [H1 H2]; [|done|].
    + split; [|by apply Forall_app_2; [|apply Forall_singleton]]. apply NoDup_app. split_and!; [done| |apply NoDup_singleton].
      intros x Hx ->%list_elem_of_singleton. naive_solver.
    + split; [done|]. intros x. rewrite H2, elem_of_app, list_elem_of_singleton, elem_of_cons. tauto.
Qed.

Definition entryClean (m : mimeEntry) : Prop :=
  Forall clean (mContainers m) ∧ Forall clean (mVideo m) ∧ Forall clean (mAudio m).

#[export] Instance entryClean_dec m : Decision (entryClean m).
Proof. unfold entryClean. apply _. Defined.

Lemma vocabulary_clean k m : mimeVocabulary !! k = Some m → entryClean m.
Proof.
  assert (map_Forall (λ _ m, entryClean m) mimeVocabulary) as H by (by apply (bool_decide_unpack _); vm_compute).
  apply H.
Qed.

Lemma segments_clean k c : profileAudioSegments !! k = Some c → clean c.
Proof.
  assert (map_Forall (λ _ c, clean c) profileAudioSegments) as H by (by apply (bool_decide_unpack _); vm_compute).
  apply H.
Qed.

Lemma profileVideo_clean pn : Forall clean (profileVideo pn).
Proof.
  unfold profileVideo. repeat case_match; by apply (bool_decide_unpack _).
Qed.

(** What one entry says: its content format, and the rest of its fields. *)
Definition sinkFields (entry : string) : option (string * list string) :=
  match SplitN 4 ":" (TrimSpace entry) with
  | protocol :: _ :: mime :: rest => if EqualFold protocol "http-get" then Some (ToLower (TrimSpace mime), rest) else None
  | _ => None
  end.

Definition pnOf (rest : list string) : string :=
  match rest with [additional] => profileName (SplitByte ";" additional) | _ => "" end.

Definition saysBy (f : mimeEntry → list string) (more : string → string → Prop) (entry x : string) : Prop :=
  ∃ mime rest, sinkFields entry = Some (mime, rest) ∧
    ((∃ m, mimeVocabulary !! mime = Some m ∧ x ∈ f m) ∨ pnOf rest ≠ "" ∧ more (pnOf rest) x).

Definition saysContainer : string → string → Prop := saysBy mContainers (λ _ _, False).
Definition saysVideo : string → string → Prop := saysBy mVideo (λ pn x, x ∈ profileVideo pn).
Definition saysAudio : string → string → Prop :=
  saysBy mAudio (λ pn x, ∃ segment, profileAudioSegments !! segment = Some x ∧ hasSegment pn segment = true).

Definition goodProfile (d : DeviceProfile) : Prop :=
  known (Containers d) ∧ known (VideoCodecs d) ∧ known (AudioCodecs d) ∧
  MaxWidth d = 0 ∧ MaxHeight d = 0 ∧ MaxBitrateBPS d = 0 ∧ SupportsHDR d = false.

Lemma profileAudio_spec order pn : order ≡ₚ map_to_list profileAudioSegments →
  known (profileAudio order pn) ∧
  ∀ x, x ∈ profileAudio order pn ↔ ∃ segment, profileAudioSegments !! segment = Some x ∧ hasSegment pn segment = true.
Proof.
  intros Ho.
  assert (∀ l dst, (∀ s c, (s, c) ∈ l → clean c) → known dst →
    known (foldl (λ audio sc, if hasSegment pn sc.1 then appendMissing audio [sc.2] else audio) dst l) ∧
    ∀ x, x ∈ foldl (λ audio sc, if hasSegment pn sc.1 then appendMissing audio [sc.2] else audio) dst l ↔
      x ∈ dst ∨ ∃ s, (s, x) ∈ l ∧ hasSegment pn s = true) as Hfold.
  { induction l as [|[s c] l IH]; intros dst Hl Hd; cbn [foldl].
    { split; [done|]. intros x. setoid_rewrite elem_of_nil. naive_solver. }
    cbn [fst snd]. assert (∀ s' c', (s', c') ∈ l → clean c') as Hl' by (intros s' c' ?; apply (Hl s'); by right).
    assert (clean c) as Hcc by (apply (Hl s); by left).
    destruct (hasSegment pn s) eqn:Es.
    - destruct (appendMissing_spec dst [c] Hd) as [Hk Hm]; [by apply Forall_singleton|].
      destruct (IH (appendMissing dst [c]) Hl' Hk) as [H1 H2]. split; [done|].
      intros x. rewrite H2, Hm, list_elem_of_singleton. setoid_rewrite elem_of_cons. clear - Es. split.
      + intros [[?| ->]|(s' & ? & ?)]; [by left|right; exists s; auto|right; exists s'; auto].
      + intros [?|(s' & [[= -> ->]|?] & ?)]; [by left; left|by left; right|right; by exists s'].
    - destruct (IH dst Hl' Hd) as [H1 H2]. split; [done|].
      intros x. rewrite H2. setoid_rewrite elem_of_cons. clear - Es. split.
      + intros [?|(s' & ? & ?)]; [by left|right; exists s'; auto].
      + intros [?|(s' & [[= -> ->]|?] & ?)]; [by left|congruence|right; by exists s']. }
  assert (∀ s c, (s, c) ∈ order ↔ profileAudioSegments !! s = Some c) as Hin.
  { intros s c. rewrite Ho. apply elem_of_map_to_list. }
  destruct (Hfold order []) as [H1 H2].
  { intros s c H%Hin. by apply segments_clean in H. }
  { split; [constructor|constructor]. }
  split; [done|]. intros x. unfold profileAudio. rewrite H2, elem_of_nil. setoid_rewrite Hin. tauto.
Qed.

Lemma sinkFields_empty entry : TrimSpace entry = "" → sinkFields entry = None.
Proof. unfold sinkFields. by intros ->. Qed.

Lemma sinkEntry_eq order entry d :
  sinkEntry order entry d =
  match sinkFields entry with
  | None => d
  | Some (mime, rest) =>
      let d := match mimeVocabulary !! mime with
               | None => d
               | Some m => mkProfile (appendMissing (Containers d) (mContainers m))
                             (appendMissing (VideoCodecs d) (mVideo m)) (appendMissing (AudioCodecs d) (mAudio m))
                             0 0 0 false
               end in
      match rest with
      | [additional] =>
          let '(v, a) := codecsFromProfileName order additional in
          mkProfile (Containers d) (appendMissing (VideoCodecs d) v) (appendMissing (AudioCodecs d) a) 0 0 0 false
      | _ => d
      end
  end.
Proof.
  unfold sinkEntry. cbv zeta. case_bool_decide as E; [by rewrite sinkFields_empty|].
  unfold sinkFields. destruct (SplitN _ _ _) as [|protocol [|net [|mime rest]]]; try done.
  by destruct (EqualFold protocol "http-get").
Qed.

Lemma sinkEntry_spec order entry d : order ≡ₚ map_to_list profileAudioSegments → goodProfile d →
  let d' := sinkEntry order entry d in
  goodProfile d' ∧
  (∀ x, x ∈ Containers d' ↔ x ∈ Containers d ∨ saysContainer entry x) ∧
  (∀ x, x ∈ VideoCodecs d' ↔ x ∈ VideoCodecs d ∨ saysVideo entry x) ∧
  (∀ x, x ∈ AudioCodecs d' ↔ x ∈ AudioCodecs d ∨ saysAudio entry x).
Proof.
  intros Ho Hd. cbv zeta. rewrite sinkEntry_eq. unfold saysContainer, saysVideo, saysAudio, saysBy.
  destruct (sinkFields entry) as [[mime rest]|] eqn:E; [|naive_solver]. cbv zeta.
  set (d1 := match mimeVocabulary !! mime with None => d | Some m => _ end).
  assert (goodProfile d1 ∧
    (∀ x, x ∈ Containers d1 ↔ x ∈ Containers d ∨ ∃ m, mimeVocabulary !! mime = Some m ∧ x ∈ mContainers m) ∧
    (∀ x, x ∈ VideoCodecs d1 ↔ x ∈ VideoCodecs d ∨ ∃ m, mimeVocabulary !! mime = Some m ∧ x ∈ mVideo m) ∧
    (∀ x, x ∈ AudioCodecs d1 ↔ x ∈ AudioCodecs d ∨ ∃ m, mimeVocabulary !! mime = Some m ∧ x ∈ mAudio m))
    as (Hd1 & HC & HV & HA).
  { subst d1. destruct Hd as (K1 & K2 & K3 & K4). destruct (mimeVocabulary !! mime) as [m|] eqn:Em; [|clear -K1 K2 K3 K4; unfold goodProfile; naive_solver].
    destruct (vocabulary_clean _ _ Em) as (V1 & V2 & V3).
    destruct (appendMissing_spec _ _ K1 V1) as [A1 B1]. destruct (appendMissing_spec _ _ K2 V2) as [A2 B2].
    destruct (appendMissing_spec _ _ K3 V3) as [A3 B3]. clear Em. unfold goodProfile. cbn.
    split_and!; try done; intros x; rewrite ?B1, ?B2, ?B3; naive_solver. }
  clearbody d1. assert (∀ (P : string → list string → Prop),
    (∃ mime0 rest0, Some (mime, rest) = Some (mime0, rest0) ∧ P mime0 rest0) ↔ P mime rest) as Hs by naive_solver.
  setoid_rewrite (Hs (λ mime rest, _ ∨ _)). clear Hs E.
  assert (∀ P : Prop, (P ∨ pnOf rest ≠ "" ∧ False) ↔ P) as Hf by tauto.
  setoid_rewrite Hf.
  destruct (bool_decide (pnOf rest = "")) eqn:Epn.
  - assert (match rest with
      | [additional] => let '(v, a) := codecsFromProfileName order additional in
          mkProfile (Containers d1) (appendMissing (VideoCodecs d1) v) (appendMissing (AudioCodecs d1) a) 0 0 0 false
      | _ => d1 end = d1) as ->.
    { destruct rest as [|a [|]]; [done| |done]. unfold codecsFromProfileName. cbn [pnOf] in Epn. rewrite Epn.
      destruct Hd1 as (_ & _ & _ & H1 & H2 & H3 & H4). destruct d1. cbn in *. by subst. }
    apply bool_decide_eq_true in Epn. split; [done|]. split_and!; intros x; [apply HC| |]; rewrite ?HV, ?HA; tauto.
  - assert (∃ a, rest = [a] ∧ codecsFromProfileName order a = (profileVideo (pnOf rest), profileAudio order (pnOf rest)))
      as (a & -> & ->).
    { destruct rest as [|a [|]]; [done| |done]. exists a. split; [done|]. unfold codecsFromProfileName. cbn [pnOf] in *.
      by rewrite Epn. }
    apply bool_decide_eq_false in Epn. destruct Hd1 as (K1 & K2 & K3 & K4).
    destruct (profileAudio_spec order (pnOf [a]) Ho) as [[Pn Pc] Pm].
    destruct (appendMissing_spec _ _ K2 (profileVideo_clean (pnOf [a]))) as [A2 B2].
    destruct (appendMissing_spec _ _ K3 Pc) as [A3 B3]. unfold goodProfile. cbn [Containers VideoCodecs AudioCodecs MaxWidth MaxHeight MaxBitrateBPS SupportsHDR].
    split; [done|]. split_and!; intros x; [apply HC|rewrite B2, HV; tauto|rewrite B3, HA, Pm; tauto].
Qed.

(** The orders a range over the table may take, entry by entry. *)
Definition visits (orders : nat → list (string * string)) : Prop :=
  ∀ i, orders i ≡ₚ map_to_list profileAudioSegments.

(** The profile of a renderer is what its http-get entries say, each name once: the
    containers of their content formats, and the codecs of these and of their profile names;
    whatever the order Go visits its table in, and with no limit on size or rate, which the
    entries do not state. *)
Theorem profile_declares orders sink : visits orders →
  let d := ProfileFromProtocolInfo orders sink in
  goodProfile d ∧
  (∀ x, x ∈ Containers d ↔ ∃ entry, entry ∈ SplitByte "," sink ∧ saysContainer entry x) ∧
  (∀ x, x ∈ VideoCodecs d ↔ ∃ entry, entry ∈ SplitByte "," sink ∧ saysVideo entry x) ∧
  (∀ x, x ∈ AudioCodecs d ↔ ∃ entry, entry ∈ SplitByte "," sink ∧ saysAudio entry x).
Proof.
  intros Ho d.
  assert (∀ entries i d0, goodProfile d0 → let d := sinkEntries orders i entries d0 in
    goodProfile d ∧
    (∀ x, x ∈ Containers d ↔ x ∈ Containers d0 ∨ ∃ entry, entry ∈ entries ∧ saysContainer entry x) ∧
    (∀ x, x ∈ VideoCodecs d ↔ x ∈ VideoCodecs d0 ∨ ∃ entry, entry ∈ entries ∧ saysVideo entry x) ∧
    (∀ x, x ∈ AudioCodecs d ↔ x ∈ AudioCodecs d0 ∨ ∃ entry, entry ∈ entries ∧ saysAudio entry x)) as Hall.
  { induction entries as [|e es IH]; intros i d0 Hd0; cbn [sinkEntries].
    { split; [done|]. setoid_rewrite elem_of_nil. split_and!; intros x; split; [tauto| |tauto| |tauto|]; by intros [?|(?&[]&_)]. }
    destruct (sinkEntry_spec (orders i) e d0 (Ho i) Hd0) as (H0 & H1 & H2 & H3).
    destruct (IH (S i) _ H0) as (G0 & G1 & G2 & G3). split; [done|].
    assert (∀ (P : string → string → Prop) x, (∃ entry, entry ∈ e :: es ∧ P entry x) ↔
      P e x ∨ ∃ entry, entry ∈ es ∧ P entry x) as Hcons.
    { clear. intros P x. setoid_rewrite elem_of_cons. split; [intros (en & [->|H] & HP); eauto|].
      intros [H|(en & H & HP)]; eauto. }
    split_and!; intros x; rewrite Hcons, ?G1, ?G2, ?G3, ?H1, ?H2, ?H3; tauto. }
  destruct (Hall (SplitByte "," sink) 0%nat noProfile) as (H0 & H1 & H2 & H3).
  { split_and!; try done; by split; constructor. }
  subst d. unfold ProfileFromProtocolInfo. setoid_rewrite H1. setoid_rewrite H2. setoid_rewrite H3. cbn.
  split; [done|]. setoid_rewrite elem_of_nil. split_and!; intros x; tauto.
Qed.

(** Two profiles a plan cannot tell apart: the same names in any order. *)
#[export] Instance profile_equiv : Equiv DeviceProfile := λ d e,
  Containers d ≡ₚ Containers e ∧ VideoCodecs d ≡ₚ VideoCodecs e ∧ AudioCodecs d ≡ₚ AudioCodecs e ∧
  MaxWidth d = MaxWidth e ∧ MaxHeight d = MaxHeight e ∧ MaxBitrateBPS d = MaxBitrateBPS e ∧
  SupportsHDR d = SupportsHDR e.

#[export] Instance nonempty_proper {A} : Proper (Permutation ==> eq) (@nonempty A).
Proof.
  intros l k H. destruct l, k; try done; [by apply Permutation_nil in H|symmetry in H; by apply Permutation_nil in H].
Qed.

#[export] Instance contains_proper : Proper (Permutation ==> eq ==> eq) contains.
Proof.
  intros l k H x ? <-. apply Bool.eq_iff_eq_true. rewrite !contains_spec. unfold lists. by setoid_rewrite H.
Qed.

#[export] Instance supportsName_proper : Proper (Permutation ==> eq ==> eq) supportsName.
Proof.
  intros l k H x ? <-. unfold supportsName. case_match; [done|]. f_equal; [by apply contains_proper|].
  induction (default [] _) as [|a r IH]; [done|]. cbn. f_equal; [by apply contains_proper|done].
Qed.

#[export] Instance supportsContainer_proper : Proper (Permutation ==> eq ==> eq) supportsContainer.
Proof.
  intros l k H x ? <-. unfold supportsContainer. f_equal; [by apply nonempty_proper|].
  induction (SplitByte "," x) as [|a r IH]; [done|]. cbn. f_equal; [by apply supportsName_proper|done].
Qed.

#[export] Instance Choose_proper : Proper (eq ==> (≡) ==> eq ==> eq) Choose.
Proof.
  intros m ? <- d e (HC & HV & HA & HW & HH & HB & HS) rs ? <-.
  assert (Declares d = Declares e) as ED.
  { unfold Declares. f_equal; [f_equal|]; by apply nonempty_proper. }
  assert (incompatibleStreams m d = incompatibleStreams m e) as EI.
  { unfold incompatibleStreams. by rewrite HW, HH, HB, HS, (nonempty_proper _ _ HV), (nonempty_proper _ _ HA),
      (contains_proper _ _ HV _ _ eq_refl), (contains_proper _ _ HA _ _ eq_refl). }
  unfold Choose. by rewrite ED, EI, (supportsContainer_proper _ _ HC _ _ eq_refl).
Qed.

(** So the plan for a renderer does not depend on that order, reasons and their texts
    included. *)
Theorem renderer_plan_stable o1 o2 sink m rs : visits o1 → visits o2 →
  Choose m (ProfileFromProtocolInfo o1 sink) rs = Choose m (ProfileFromProtocolInfo o2 sink) rs.
Proof.
  intros H1 H2. apply Choose_proper; [done| |done].
  destruct (profile_declares o1 sink H1) as ((C1 & V1 & A1 & W1 & X1 & B1 & S1) & HC1 & HV1 & HA1).
  destruct (profile_declares o2 sink H2) as ((C2 & V2 & A2 & W2 & X2 & B2 & S2) & HC2 & HV2 & HA2).
  split_and!; try congruence; (apply NoDup_Permutation; [apply C1 || apply V1 || apply A1|apply C2 || apply V2 || apply A2|]);
    intros x; [by rewrite HC1, HC2|by rewrite HV1, HV2|by rewrite HA1, HA2].
Qed.

(** An MP3 profile name, MPEG1_L3, is read as MPEG-1 video too: a speaker that lists it is
    planned for as a device that plays one video codec. *)
Definition anyOrder : nat → list (string * string) := λ _, map_to_list profileAudioSegments.

Lemma mp3_reads_as_video :
  let d := ProfileFromProtocolInfo anyOrder "http-get:*:audio/mpeg:DLNA.ORG_PN=MPEG1_L3" in
  VideoCodecs d = ["mpeg1video"] ∧ AudioCodecs d = ["mp3"] ∧
  ∀ m r, Known m = true → VideoCodec m = "h264" →
    codeIn ReasonVideoCodecUnsupported (Reasons (Choose m d [r])).
Proof.
  intros d. assert (d = mkProfile ["mp3"] ["mpeg1video"] ["mp3"] 0 0 0 false) as -> by (by vm_compute).
  split_and!; [done..|]. intros m r Hk Hv. apply choose_reasons. apply why_video; [done| |done|].
  - by rewrite Hv.
  - rewrite Hv. by apply contains_false.
Qed.

(** A file whose container and codec the client declares is re-encoded all the same when
    fragmented MP4 could not carry the codec. *)
Lemma playable_is_reencoded :
  let m := mkMedia true "matroska,webm" "vp8" 1280 720 false "vorbis" 0 "" 2 0 in
  let c := mkClient ["webm"] ["vp8"] ["vorbis"] 0 in
  DecisionOf (Choose m (asDevice c) [mkReplica "p" true]) = DecisionDirect ∧
  Mode (Negotiate m c) = LegStream ∧ CopyVideo (Negotiate m c) = false ∧ CopyAudio (Negotiate m c) = false.
Proof. by vm_compute. Qed.

(** A plan that re-encodes for HDR comes with a leg that hands over the bytes and no reason. *)
Lemma hdr_is_handed_over :
  let m := mkMedia true "mov,mp4" "hevc" 3840 2160 true "aac" 0 "" 2 0 in
  let c := mkClient ["mp4"] ["hevc"] ["aac"] 0 in
  DecisionOf (Choose m (asDevice c) [mkReplica "p" true]) = DecisionTranscode ∧
  Negotiate m c = mkLeg LegDirect "" [] false false 0.
Proof. by vm_compute. Qed.

(** ** Instances *)

Lemma leg_and_plan_witness :
  let m := mkMedia true "mov,mp4" "h264" 3840 2160 false "aac" 0 "" 2 0 in
  let c := mkClient ["mp4"] ["h264"] [] 1080 in
  DecisionOf (Choose m (asDevice c) [mkReplica "p" true]) = DecisionDirect ∧ Mode (Negotiate m c) = LegStream.
Proof.
  intros m c. assert ([mkReplica "p" true] ≠ []) as Hrs by done.
  assert (Known m = true) as Hk by done. assert (ClientDeclares c = true) as Hd by done.
  destruct (leg_and_plan m c [mkReplica "p" true] Hrs Hk Hd) as (_ & H & _). apply H.
  split_and!.
  - by apply supportsContainer_spec; vm_compute.
  - right; right. by apply contains_spec; vm_compute.
  - by right; left.
  - done.
  - left. split; [done|]. left. unfold tooTall. cbn. lia.
Defined.

Lemma profile_declares_witness :
  visits anyOrder ∧
  "hevc" ∈ VideoCodecs (ProfileFromProtocolInfo anyOrder "http-get:*:video/mp4:DLNA.ORG_PN=AVC_MP4_MP_HD_AAC_MULT5,http-get:*:video/hevc:*").
Proof.
  assert (visits anyOrder) as H by (by intros i). split; [exact H|].
  destruct (profile_declares anyOrder "http-get:*:video/mp4:DLNA.ORG_PN=AVC_MP4_MP_HD_AAC_MULT5,http-get:*:video/hevc:*" H)
    as (_ & _ & HV & _).
  apply HV. exists "http-get:*:video/hevc:*". split; [by apply (bool_decide_unpack _); vm_compute|].
  exists "video/hevc", ["*"]. split; [by vm_compute|]. left. exists (mkMime [] ["hevc"] []). split; [by vm_compute|by left].
Defined.
