(* ===== verification/Routing.v ===== *)
(** * Routing: which peer a read is served from

    Models src/internal/domain/routing/routing.go (the ordered choice with its reasons) and
    src/internal/api/resources/routing.go (the candidates the catalog holds, and the URL the
    choice becomes).  A query reads the tables at one instant. *)

From S2P Require Import Planner.
From S2P Require Import Prelude GoText GoPath GoScan GoEncoding.

Record Candidate := mkCandidate {
  PeerID : string;
  Name : string;
  Site : string;
  Endpoint : string;
  IsSelf : bool;
  SameSite : bool;
  Reachable : bool;
  HealthState : string;
  ReplicaState : string;
}.

#[export] Instance Candidate_eq_dec : EqDecision Candidate.
Proof. solve_decision. Defined.

Definition statePresent : string := "present".

Definition RejectNoReplica : string := "no_replica".
Definition RejectReplicaNotUsable : string := "replica_not_usable".
Definition RejectPeerUnhealthy : string := "peer_unhealthy".
Definition RejectNoEndpoint : string := "peer_has_no_endpoint".
Definition RejectSiteLocalPreferred : string := "site_local_preferred".
Definition RejectAnotherSourceChosen : string := "another_source_chosen".
Definition SelectedSiteLocal : string := "site_local".
Definition SelectedCrossSiteFallback : string := "cross_site_fallback".

Record Reason := mkReason { Code : string; Detail : string }.

#[export] Instance Reason_eq_dec : EqDecision Reason.
Proof. solve_decision. Defined.

Record Rejection := mkRejection { rPeerID : string; rName : string; rSite : string; rReasons : list Reason }.

#[export] Instance Rejection_eq_dec : EqDecision Rejection.
Proof. solve_decision. Defined.

(** [dSource] is the source with the reason it won; [None] is a refusal. *)
Record Decision_ := mkDecision { dSource : option (Candidate * Reason); dRejected : list Rejection }.

Definition zeroDecision : Decision_ := mkDecision None [].

Fixpoint joinDetails (reasons : list Reason) : string :=
  match reasons with
  | [] => ""
  | [r] => Detail r
  | r :: rs => Detail r +:+ ", and " +:+ joinDetails rs
  end.

Definition Refusal (d : Decision_) : string :=
  match dSource d with
  | Some _ => ""
  | None =>
      match dRejected d with
      | [] => "no peer holds these bytes, and no peer was even considered — this deployment has no peers"
      | rs => foldl (λ out r, out +:+ "; " +:+ rName r +:+ " (" +:+ rSite r +:+ "): " +:+ joinDetails (rReasons r))
                "no healthy peer holds these bytes" rs
      end
  end.

(** ** Eligibility *)

Definition healthWord (state : string) : string :=
  if bool_decide (state = "unknown") then "unknown — nothing has ever heard from it"
  else if bool_decide (state = "unreachable")
  then "unreachable — it has answered nothing for longer than the health window"
  else if bool_decide (state = "") then "of unrecorded health"
  else state.

(** The rules in order: the code, and the detail of a candidate that breaks it. *)
Definition eligibility : list (string * (Candidate → option string)) := [
  (RejectNoReplica, λ c,
     if bool_decide (ReplicaState c = "") then Some "the peer holds no replica of these bytes" else None);
  (RejectReplicaNotUsable, λ c,
     if bool_decide (ReplicaState c ≠ "") && bool_decide (ReplicaState c ≠ statePresent)
     then Some ("the peer's replica is " +:+ ReplicaState c +:+ ", which cannot be read from") else None);
  (RejectPeerUnhealthy, λ c,
     if negb (Reachable c) then Some ("the peer is " +:+ healthWord (HealthState c) +:+ " (M4-10)") else None);
  (RejectNoEndpoint, λ c,
     if negb (IsSelf c) && bool_decide (Endpoint c = "")
     then Some "the peer has no endpoint the client could be sent to" else None) ].

Definition reasonsAgainst (c : Candidate) : list Reason :=
  omap (λ rule, mkReason rule.1 <$> rule.2 c) eligibility.

(** ** Preference *)

Definition boolKey (b : bool) : nat := if b then 1 else 0.

Definition rank (c : Candidate) : list nat := [boolKey (negb (SameSite c)); boolKey (negb (IsSelf c))].

(** The first key that differs decides. *)
Fixpoint rankLess (ka kb : list nat) : option bool :=
  match ka, kb with
  | a :: ka, b :: kb => if bool_decide (a ≠ b) then Some (a <? b)%nat else rankLess ka kb
  | _, _ => None
  end.

Definition routeLess (a b : Candidate) : bool :=
  match rankLess (rank a) (rank b) with Some r => r | None => str_lt (PeerID a) (PeerID b) end.

Definition selectionReason (c : Candidate) : Reason :=
  if SameSite c
  then mkReason SelectedSiteLocal ("the peer is at the client's site (" +:+ Site c +:+ "), which §31 prefers")
  else mkReason SelectedCrossSiteFallback
         ("no peer at the client's site can serve these bytes, so the read falls back to " +:+ Name c +:+ " at " +:+
          Site c +:+ "; §31 says cross-site streaming should be the exception").

Definition runnerUpReason (loser winner : Candidate) : Reason :=
  if negb (SameSite loser) && SameSite winner
  then mkReason RejectSiteLocalPreferred
         (Name winner +:+ " is at the client's site and this peer is at " +:+ Site loser +:+ "; §31 prefers the local one")
  else mkReason RejectAnotherSourceChosen (Name winner +:+ " was preferred by the ordered selection (§32)").

(** ** Select *)

(** The first loop: the eligible candidates in order, and what was held against the others. *)
Definition sieve (candidates : list Candidate) : list Candidate * gmap string (list Reason) :=
  foldl (λ acc c,
           match reasonsAgainst c with
           | [] => (acc.1 ++ [c], acc.2)
           | reasons => (acc.1, <[PeerID c := reasons]> acc.2)
           end) ([], ∅) candidates.

Definition rejections (candidates : list Candidate) (rejectedFor : gmap string (list Reason)) : list Rejection :=
  omap (λ c, mkRejection (PeerID c) (Name c) (Site c) <$> rejectedFor !! PeerID c) candidates.

Definition Select (candidates : list Candidate) : Decision_ :=
  let '(eligible, rejectedFor) := sieve candidates in
  match sort_by routeLess eligible with
  | [] => mkDecision None (rejections candidates rejectedFor)
  | winner :: losers =>
      let rejectedFor := foldl (λ m loser, <[PeerID loser := [runnerUpReason loser winner]]> m) rejectedFor losers in
      mkDecision (Some (winner, selectionReason winner)) (rejections candidates rejectedFor)
  end.

(** ** The candidates of a blob (api/resources/routing.go) *)

(** The columns the query reads of the tables peers and replicas. *)
Record PeerRow := mkPeerRow {
  pName : string; pSite : string; pEndpoint : option string; pSelf : bool; pHealth : string }.

Record Fabric := mkFabric {
  peers : gmap string PeerRow;
  replicas : gmap (string * string) string;   (** by blob and peer: the state *)
}.

Definition StateReachable : string := "reachable".

(** [health.Sources] *)
Definition Sources (ps : list (string * string)) : list (string * string) :=
  filter (λ p, p.2 = StateReachable) ps.

(** ORDER BY is_self DESC, name ASC, id ASC *)
Definition peerLess (a b : string * PeerRow) : bool :=
  lex_less (λ x, boolKey (negb (pSelf x.2))) Nat.ltb
    (lex_less (λ x, pName x.2) str_lt (key_less fst str_lt)) a b.

Definition peerRows (f : Fabric) : list (string * PeerRow) := sort_by peerLess (map_to_list (peers f)).

(** (SELECT site FROM peers WHERE is_self = 1): of the one such row, if there is one. *)
Definition selfSite (f : Fabric) : option string :=
  head ((λ x, pSite x.2) <$> filter (λ x, pSelf x.2 = true) (peerRows f)).

(** One row of the query, before the health verdict is asked. *)
Definition scanCandidate (f : Fabric) (blobHash : string) (row : string * PeerRow) : Candidate :=
  let '(id, p) := row in
  {| PeerID := id; Name := pName p; Site := pSite p; Endpoint := default "" (pEndpoint p); IsSelf := pSelf p;
     SameSite := match selfSite f with Some s => bool_decide (pSite p = s) | None => false end;
     Reachable := false;
     HealthState := if pSelf p then StateReachable else pHealth p;
     ReplicaState := default "" (replicas f !! (blobHash, id)) |}.

Definition withReachable (b : bool) (c : Candidate) : Candidate :=
  mkCandidate (PeerID c) (Name c) (Site c) (Endpoint c) (IsSelf c) (SameSite c) b (HealthState c) (ReplicaState c).

Definition candidatesFor (f : Fabric) (blobHash : string) : list Candidate :=
  let scanned := scanCandidate f blobHash <$> peerRows f in
  let reachable := fst <$> Sources ((λ c, (PeerID c, HealthState c)) <$> scanned) in
  (λ c, withReachable (bool_decide (PeerID c ∈ reachable)) c) <$> scanned.

Definition routeBlob (f : Fabric) (blobHash : string) : Decision_ :=
  if bool_decide (blobHash = "") then zeroDecision else Select (candidatesFor f blobHash).

Definition replicasOf (d : Decision_) : list Planner.Replica :=
  match dSource d with
  | None => []
  | Some (c, _) => [Planner.mkReplica (PeerID c) (SameSite c)]
  end.

(** [probe.BlobURL] *)
Definition BlobURL (base hash : string) : string := base +:+ "/api/v1/blobs/" +:+ hash +:+ "/content".

(** [strings.TrimSuffix] of one byte. *)
Definition TrimSuffixByte (b : ascii) (s : string) : string :=
  match CutLast b s with Some (a, "") => a | _ => s end.

Definition contentURLFor (d : Decision_) (blobHash : string) : string :=
  match dSource d with
  | None => ""
  | Some (c, _) =>
      if bool_decide (blobHash = "") then ""
      else if IsSelf c then BlobURL "" blobHash
      else BlobURL (TrimSuffixByte "/" (Endpoint c)) blobHash
  end.
