(* ===== verification/RoutingSpec.v ===== *)
(** * RoutingSpec: what a route promises

    The source is the best peer that can serve, every other peer is named with exactly what
    held against it, and nothing depends on the order the peers come in; against the tables,
    a source holds the bytes and the URL it becomes is its own. *)

From S2P Require Import Planner.
From S2P Require Import Prelude GoText GoPath GoScan GoEncoding Routing.

(** ** Who can serve *)

Definition usable (c : Candidate) : Prop :=
  ReplicaState c = statePresent ∧ Reachable c = true ∧ (IsSelf c = true ∨ Endpoint c ≠ "").

#[export] Instance usable_dec c : Decision (usable c).
Proof. unfold usable. apply _. Defined.

(** What can be held against a peer, by its code. *)
Inductive fault (c : Candidate) : string → Prop :=
  | fault_no_replica : ReplicaState c = "" → fault c RejectNoReplica
  | fault_not_usable : ReplicaState c ≠ "" → ReplicaState c ≠ statePresent → fault c RejectReplicaNotUsable
  | fault_unhealthy : Reachable c = false → fault c RejectPeerUnhealthy
  | fault_no_endpoint : IsSelf c = false → Endpoint c = "" → fault c RejectNoEndpoint.

Lemma reasonsAgainst_codes c code : code ∈ Code <$> reasonsAgainst c ↔ fault c code.
Proof.
  unfold reasonsAgainst, eligibility. cbn [omap list_omap fst snd].
  destruct (decide (ReplicaState c = "")) as [E1|E1];
    [rewrite (bool_decide_eq_true_2 (ReplicaState c = "")), (bool_decide_eq_false_2 (ReplicaState c ≠ "")) by auto
    |rewrite (bool_decide_eq_false_2 (ReplicaState c = "")), (bool_decide_eq_true_2 (ReplicaState c ≠ "")) by auto];
  (destruct (decide (ReplicaState c = statePresent)) as [E2|E2];
    [rewrite (bool_decide_eq_false_2 (ReplicaState c ≠ statePresent)) by auto
    |rewrite (bool_decide_eq_true_2 (ReplicaState c ≠ statePresent)) by auto]); cbn [andb];
  destruct (Reachable c) eqn:E3, (IsSelf c) eqn:E4; cbn [negb andb];
  (destruct (decide (Endpoint c = "")) as [E5|E5];
    [rewrite ?(bool_decide_eq_true_2 (Endpoint c = "")) by auto|rewrite ?(bool_decide_eq_false_2 (Endpoint c = "")) by auto]);
  cbn; rewrite ?elem_of_cons, ?elem_of_nil; (split; [|destruct 1; try congruence; tauto]);
  intros H; repeat (destruct H as [->|H]; [constructor; congruence|]); done.
Qed.

Lemma reasonsAgainst_nil c : reasonsAgainst c = [] ↔ usable c.
Proof.
  assert (reasonsAgainst c = [] ↔ ∀ code, ¬ fault c code) as ->.
  { setoid_rewrite <- reasonsAgainst_codes. split.
    - intros ->. by intros code []%not_elem_of_nil.
    - intros H. destruct (reasonsAgainst c) as [|r rs]; [done|]. destruct (H (Code r)). by left. }
  split.
  - intros H. split_and!.
    + destruct (decide (ReplicaState c = statePresent)); [done|]. exfalso.
      destruct (decide (ReplicaState c = "")); eapply H; [by apply fault_no_replica|by apply fault_not_usable].
    + apply not_false_is_true. intros E. eapply H. by apply fault_unhealthy.
    + destruct (IsSelf c) eqn:E; [by left|right]. intros E'. eapply H. by apply fault_no_endpoint.
  - intros (H1 & H2 & H3) code []; try congruence; [rewrite H1 in *; done|]. destruct H3; congruence.
Qed.

(** ** Preference *)

(** At the client's site before another, this node before its site's others, then by id. *)
Definition prefers (a b : Candidate) : Prop :=
  SameSite a = true ∧ SameSite b = false ∨
  SameSite a = SameSite b ∧
    (IsSelf a = true ∧ IsSelf b = false ∨ IsSelf a = IsSelf b ∧ str_lt (PeerID a) (PeerID b) = true).

Definition routeOrder : Candidate → Candidate → bool :=
  lex_less (λ c, boolKey (negb (SameSite c))) Nat.ltb
    (lex_less (λ c, boolKey (negb (IsSelf c))) Nat.ltb (key_less PeerID str_lt)).

Lemma routeLess_eq a b : routeLess a b = routeOrder a b.
Proof.
  unfold routeLess, routeOrder, lex_less, key_less, rank. cbn [rankLess].
  destruct (SameSite a), (SameSite b); cbn; try done; destruct (IsSelf a), (IsSelf b); done.
Qed.

#[export] Instance routeLess_weak : StrictWeak routeLess.
Proof.
  assert (StrictWeak routeOrder) as [H1 H2 H3] by (unfold routeOrder; apply _).
  split; intros *; rewrite !routeLess_eq; [apply H1|apply H2|apply H3].
Qed.

Lemma routeLess_prefers a b : routeLess a b = true ↔ prefers a b.
Proof.
  rewrite routeLess_eq. unfold routeOrder, lex_less, key_less, prefers.
  destruct (SameSite a), (SameSite b), (IsSelf a), (IsSelf b); destruct (str_lt _ _); cbn; naive_solver.
Qed.

Lemma routeLess_tie a b : routeLess a b = false → routeLess b a = false → PeerID a = PeerID b.
Proof.
  rewrite !routeLess_eq. unfold routeOrder. intros H1 H2.
  destruct (lex_incomparable _ _ _ _ _ H1 H2) as (_ & H3 & H4).
  destruct (lex_incomparable _ _ _ _ _ H3 H4) as (_ & H5 & H6). by apply (key_incomparable str_lt PeerID).
Qed.

(** ** The first loop *)

Definition sieveStep (acc : list Candidate * gmap string (list Reason)) (c : Candidate) :=
  match reasonsAgainst c with
  | [] => (acc.1 ++ [c], acc.2)
  | reasons => (acc.1, <[PeerID c := reasons]> acc.2)
  end.

Lemma sieve_fold cs acc : NoDup (PeerID <$> cs) →
  let r := foldl sieveStep acc cs in
  r.1 = acc.1 ++ filter usable cs ∧
  (∀ c, c ∈ cs → r.2 !! PeerID c = if decide (usable c) then acc.2 !! PeerID c else Some (reasonsAgainst c)) ∧
  (∀ id, id ∉ PeerID <$> cs → r.2 !! id = acc.2 !! id).
Proof.
  revert acc. induction cs as [|c cs IH]; intros acc Hnd; cbn [foldl].
  { split_and!; [by rewrite app_nil_r|by intros c ?%not_elem_of_nil|done]. }
  cbn in Hnd. apply NoDup_cons in Hnd as [Hc Hnd]. destruct (IH (sieveStep acc c) Hnd) as (H1 & H2 & H3).
  rewrite filter_cons. pose proof (reasonsAgainst_nil c) as Hu. unfold sieveStep in *.
  destruct (reasonsAgainst c) as [|r rs] eqn:E.
  - rewrite decide_True by (by apply Hu). cbn [fst snd] in *. split_and!.
    + by rewrite H1, <- app_assoc.
    + intros c' [->|Hin]%elem_of_cons; [|by apply H2]. rewrite decide_True by (by apply Hu). by apply H3.
    + intros id Hid. apply H3. set_solver.
  - rewrite decide_False by (by rewrite <- Hu). cbn [fst snd] in *. split_and!; [done| |].
    + intros c' [->|Hin]%elem_of_cons.
      * rewrite decide_False by (by rewrite <- Hu). rewrite H3, lookup_insert_eq by done. by rewrite E.
      * rewrite H2 by done. rewrite lookup_insert_ne; [done|]. intros Eq. apply Hc. rewrite Eq. by apply list_elem_of_fmap_2.
    + intros id Hid. cbn in Hid. apply not_elem_of_cons in Hid as [Hne Hid]. rewrite H3, lookup_insert_ne by done. done.
Qed.

Lemma losers_fold (winner : Candidate) losers (m : gmap string (list Reason)) id :
  foldl (λ m loser, <[PeerID loser := [runnerUpReason loser winner]]> m) m losers !! id =
  match last (filter (λ l, PeerID l = id) losers) with
  | Some l => Some [runnerUpReason l winner]
  | None => m !! id
  end.
Proof.
  revert m. induction losers as [|l ls IH] using rev_ind; intros m; [done|].
  rewrite foldl_app, filter_app, last_app. cbn [foldl]. rewrite filter_cons.
  destruct (decide (PeerID l = id)) as [<-|Hne].
  - rewrite lookup_insert_eq. done.
  - rewrite lookup_insert_ne by done. rewrite IH. done.
Qed.

(** ** Select *)

Lemma filter_none (P : Candidate → Prop) `{∀ c, Decision (P c)} l : (∀ c, c ∈ l → ¬ P c) → filter P l = [].
Proof.
  intros Hn. destruct (filter P l) as [|c k] eqn:E; [done|].
  assert (c ∈ filter P l) as [HP Hc]%list_elem_of_filter by (rewrite E; by left). by destruct (Hn c).
Qed.

Lemma filter_id_unique (cs : list Candidate) c : NoDup (PeerID <$> cs) → c ∈ cs →
  filter (λ l, PeerID l = PeerID c) cs = [c].
Proof.
  induction cs as [|d cs IH]; intros Hnd Hin; [by apply not_elem_of_nil in Hin|].
  cbn in Hnd. apply NoDup_cons in Hnd as [Hd Hnd]. rewrite filter_cons. apply elem_of_cons in Hin as [->|Hin].
  - rewrite decide_True by done. f_equal. apply filter_none. intros l Hl E.
    apply Hd. rewrite <- E. by apply list_elem_of_fmap_2.
  - rewrite decide_False; [by apply IH|]. intros E. apply Hd. rewrite E. by apply list_elem_of_fmap_2.
Qed.

Lemma id_inj (cs : list Candidate) c d : NoDup (PeerID <$> cs) → c ∈ cs → d ∈ cs → PeerID c = PeerID d → c = d.
Proof.
  intros Hnd Hc Hd E. pose proof (filter_id_unique cs c Hnd Hc) as H1.
  pose proof (filter_id_unique cs d Hnd Hd) as H2. rewrite E in H1. congruence.
Qed.

Definition rejectionOf (reasons : list Reason) (c : Candidate) : Rejection := mkRejection (PeerID c) (Name c) (Site c) reasons.

(** The winner and the losers, when the ids are distinct. *)
Lemma Select_eq cs : NoDup (PeerID <$> cs) →
  match sort_by routeLess (filter usable cs) with
  | [] => filter usable cs = [] ∧ Select cs = mkDecision None ((λ c, rejectionOf (reasonsAgainst c) c) <$> cs)
  | w :: _ =>
      Select cs =
        mkDecision (Some (w, selectionReason w))
          ((λ c, rejectionOf (if decide (usable c) then [runnerUpReason c w] else reasonsAgainst c) c)
             <$> filter (λ c, c ≠ w) cs)
  end.
Proof.
  intros Hnd. destruct (sieve_fold cs ([], ∅) Hnd) as (H1 & H2 & H3). fold (sieve cs) in *.
  unfold Select. change (foldl _ _ cs) with (sieve cs) in *.
  destruct (sieve cs) as [eligible m] eqn:Es. cbn [fst snd] in *. cbn [app] in H1. subst eligible.
  pose proof (sort_by_perm routeLess (filter usable cs)) as Hperm.
  destruct (sort_by routeLess (filter usable cs)) as [|w losers] eqn:Esort.
  - split; [by apply Permutation_nil|]. f_equal. unfold rejections.
    assert (∀ c, c ∈ cs → m !! PeerID c = Some (reasonsAgainst c)) as Hm.
    { intros c Hc. rewrite H2 by done. rewrite decide_False; [done|]. intros Hu.
      assert (c ∈ filter usable cs) as Hin by (by apply list_elem_of_filter).
      apply Permutation_nil in Hperm. rewrite Hperm in Hin. by apply not_elem_of_nil in Hin. }
    clear -Hm. induction cs as [|c cs IH]; [done|]. cbn. rewrite Hm by left. cbn. f_equal. apply IH. intros; apply Hm. by right.
  - f_equal. unfold rejections.
    assert (NoDup (PeerID <$> w :: losers)) as Hndw.
    { rewrite Hperm. clear -Hnd. induction cs as [|c cs IH]; [done|]. cbn in Hnd. apply NoDup_cons in Hnd as [Hc Hnd].
      rewrite filter_cons. destruct (decide (usable c)); [|by apply IH]. cbn. apply NoDup_cons. split; [|by apply IH].
      intros (d & E & [_ Hd]%list_elem_of_filter)%list_elem_of_fmap. apply Hc. rewrite E. by apply list_elem_of_fmap_2. }
    assert (∀ c, c ∈ w :: losers ↔ usable c ∧ c ∈ cs) as Hmem.
    { intros c. rewrite Hperm. apply list_elem_of_filter. }
    assert (w ∈ cs) as Hw by (by apply Hmem; left).
    set (m' := foldl _ m losers).
    assert (∀ c, c ∈ cs → m' !! PeerID c =
      if decide (c = w) then None else Some (if decide (usable c) then [runnerUpReason c w] else reasonsAgainst c)) as Hm.
    { intros c Hc. unfold m'. rewrite losers_fold. cbn in Hndw. apply NoDup_cons in Hndw as [Hwn Hndl].
      destruct (decide (c ∈ losers)) as [Hl|Hl].
      - rewrite (filter_id_unique losers c) by done. cbn.
        rewrite decide_False by (intros ->; apply Hwn; by apply list_elem_of_fmap_2).
        rewrite decide_True; [done|]. by apply Hmem; right.
      - assert (filter (λ l, PeerID l = PeerID c) losers = []) as ->.
        { apply filter_none. intros l Hin E. apply Hl.
          assert (c = l) as ->; [|done]. apply (id_inj cs); [done..| |done]. by apply Hmem; right. }
        cbn. rewrite H2 by done. destruct (decide (c = w)) as [->|Hne].
        + rewrite decide_True by (by apply Hmem; left). apply lookup_empty.
        + rewrite !decide_False; [done| |]; intros Hu;
            (assert (c ∈ w :: losers) as [?|?]%elem_of_cons by (by apply Hmem); done). }
    clearbody m'. clear -Hm. induction cs as [|c cs IH]; [done|]. rewrite filter_cons. cbn [omap list_omap]. rewrite Hm by left.
    destruct (decide (c = w)) as [->|Hne].
    + rewrite (decide_False (P := w ≠ w)) by tauto. cbn. apply IH. intros; apply Hm. by right.
    + rewrite (decide_True (P := c ≠ w)) by done. cbn. f_equal. apply IH. intros; apply Hm. by right.
Qed.

(** The source is the best of the peers that can serve, and why; every other candidate is
    named, in the order given, with all that holds against it, or with what beat it; and there
    is no source only when no candidate can serve. *)
Theorem select_spec cs : NoDup (PeerID <$> cs) →
  match Select cs with
  | mkDecision (Some (w, why)) rejected =>
      w ∈ cs ∧ usable w ∧ why = selectionReason w ∧
      (∀ c, c ∈ cs → usable c → c = w ∨ prefers w c) ∧
      rejected = (λ c, rejectionOf (if decide (usable c) then [runnerUpReason c w] else reasonsAgainst c) c)
                   <$> filter (λ c, c ≠ w) cs
  | mkDecision None rejected =>
      Forall (λ c, ¬ usable c) cs ∧ rejected = (λ c, rejectionOf (reasonsAgainst c) c) <$> cs
  end.
Proof.
  intros Hnd. pose proof (Select_eq cs Hnd) as H. pose proof (sort_by_sorted routeLess (filter usable cs)) as Hs.
  pose proof (sort_by_perm routeLess (filter usable cs)) as Hp.
  destruct (sort_by routeLess (filter usable cs)) as [|w losers].
  - destruct H as [He ->]. split; [|done]. apply Forall_forall. intros c Hc Hu.
    assert (c ∈ filter usable cs) as Hin by (by apply list_elem_of_filter). rewrite He in Hin.
    by apply not_elem_of_nil in Hin.
  - rewrite H. assert (∀ c, c ∈ w :: losers ↔ usable c ∧ c ∈ cs) as Hmem.
    { intros c. rewrite Hp. apply list_elem_of_filter. }
    assert (usable w ∧ w ∈ cs) as [Hu Hw] by (apply Hmem; by left).
    split_and!; try done. intros c Hc Huc. destruct (decide (c = w)) as [->|Hne]; [by left|right].
    assert (c ∈ w :: losers) as [?|Hl]%elem_of_cons by (by apply Hmem); [done|].
    inversion Hs as [|?? _ Hall]; subst. rewrite Forall_forall in Hall. specialize (Hall c Hl). unfold not_after in Hall.
    apply routeLess_prefers. apply not_false_is_true. intros E. apply Hne. apply (id_inj cs); try done.
    by apply routeLess_tie.
Qed.

(** Two identical deployments route identically: the order the candidates come in does not
    matter. *)
Theorem select_stable cs cs' : NoDup (PeerID <$> cs) → cs ≡ₚ cs' → dSource (Select cs') = dSource (Select cs).
Proof.
  intros Hnd Hp. assert (NoDup (PeerID <$> cs')) as Hnd' by (by rewrite <- Hp).
  assert (sort_by routeLess (filter usable cs') = sort_by routeLess (filter usable cs)) as E.
  { apply sort_by_perm_eq; [apply _| |by rewrite Hp]. intros x y [_ Hx]%list_elem_of_filter [_ Hy]%list_elem_of_filter H1 H2.
    apply (id_inj cs); try done. by apply routeLess_tie. }
  pose proof (Select_eq cs Hnd) as H. pose proof (Select_eq cs' Hnd') as H'. rewrite E in H'.
  destruct (sort_by routeLess (filter usable cs)); [destruct H as [_ ->], H' as [_ ->]; done|by rewrite H, H'].
Qed.

(** ** Against the tables *)

(** peers_only_one_self, the unique index of migration 00002. *)
Definition one_self (f : Fabric) : Prop :=
  ∀ i j p q, peers f !! i = Some p → peers f !! j = Some q → pSelf p = true → pSelf q = true → i = j.

(** A peer that can be read from, as the tables have it. *)
Definition serves (f : Fabric) (h id : string) (p : PeerRow) : Prop :=
  replicas f !! (h, id) = Some statePresent ∧
  (pSelf p = true ∨ pHealth p = StateReachable ∧ default "" (pEndpoint p) ≠ "").

Definition here (f : Fabric) (p : PeerRow) : bool :=
  match selfSite f with Some s => bool_decide (pSite p = s) | None => false end.

Definition candidateOf (f : Fabric) (h id : string) (p : PeerRow) : Candidate :=
  mkCandidate id (pName p) (pSite p) (default "" (pEndpoint p)) (pSelf p) (here f p)
    (pSelf p || bool_decide (pHealth p = StateReachable)) (if pSelf p then StateReachable else pHealth p)
    (default "" (replicas f !! (h, id))).

Lemma peerRows_perm f : peerRows f ≡ₚ map_to_list (peers f).
Proof. apply sort_by_perm. Qed.

Lemma elem_of_peerRows f id p : (id, p) ∈ peerRows f ↔ peers f !! id = Some p.
Proof. by rewrite peerRows_perm, elem_of_map_to_list. Qed.

Lemma peerRows_ids f : NoDup (peerRows f).*1.
Proof. rewrite peerRows_perm. apply NoDup_fst_map_to_list. Qed.

Lemma peerRows_inj f id p q : (id, p) ∈ peerRows f → (id, q) ∈ peerRows f → p = q.
Proof. rewrite !elem_of_peerRows. congruence. Qed.

Lemma candidatesFor_eq f h : candidatesFor f h = (λ x, candidateOf f h x.1 x.2) <$> peerRows f.
Proof.
  unfold candidatesFor. rewrite <- list_fmap_compose. apply list_fmap_ext. intros i [id p] Hi.
  apply list_elem_of_lookup_2 in Hi. unfold compose, withReachable, scanCandidate, candidateOf, here. cbn. f_equal.
  apply Bool.eq_iff_eq_true. rewrite bool_decide_eq_true. unfold Sources.
  rewrite <- list_fmap_compose. unfold compose.
  assert (id ∈ fst <$> filter (λ p0 : string * string, p0.2 = StateReachable)
      ((λ x, (PeerID (scanCandidate f h x), HealthState (scanCandidate f h x))) <$> peerRows f) ↔
    (if pSelf p then StateReachable else pHealth p) = StateReachable) as ->.
  { rewrite list_elem_of_fmap. split.
    - intros ([id' s] & -> & [Hs Hin]%list_elem_of_filter). apply list_elem_of_fmap in Hin as ([id'' q] & [= -> ->] & Hq).
      cbn in Hs. by rewrite (peerRows_inj f id'' p q).
    - intros Hs. exists (id, if pSelf p then StateReachable else pHealth p). split; [done|].
      apply list_elem_of_filter. split; [done|]. apply list_elem_of_fmap. by exists (id, p). }
  destruct (pSelf p); cbn [orb]; [done|]. symmetry. apply bool_decide_eq_true.
Qed.

Lemma candidatesFor_ids f h : PeerID <$> candidatesFor f h = (peerRows f).*1.
Proof. rewrite candidatesFor_eq, <- list_fmap_compose. by apply list_fmap_ext. Qed.

Lemma candidatesFor_NoDup f h : NoDup (PeerID <$> candidatesFor f h).
Proof. rewrite candidatesFor_ids. apply peerRows_ids. Qed.

Lemma elem_of_candidatesFor f h c :
  c ∈ candidatesFor f h ↔ ∃ p, peers f !! PeerID c = Some p ∧ c = candidateOf f h (PeerID c) p.
Proof.
  rewrite candidatesFor_eq, list_elem_of_fmap. split.
  - intros ([id p] & -> & H%elem_of_peerRows). by exists p.
  - intros (p & H%elem_of_peerRows & E). exists (PeerID c, p). done.
Qed.

Lemma usable_serves f h id p : usable (candidateOf f h id p) ↔ serves f h id p.
Proof.
  unfold usable, serves, candidateOf. cbn. rewrite orb_true_iff, bool_decide_eq_true.
  destruct (replicas f !! (h, id)) as [s|]; cbn; unfold statePresent in *; naive_solver.
Qed.

(** At the client's site: that of the one peer this node is. *)
Definition local (f : Fabric) (p : PeerRow) : Prop :=
  ∃ i s, peers f !! i = Some s ∧ pSelf s = true ∧ pSite p = pSite s.

Lemma here_local f p : one_self f → here f p = true ↔ local f p.
Proof.
  intros Hone. unfold here, selfSite, local. destruct (filter _ (peerRows f)) as [|[i s] l] eqn:E; cbn.
  - split; [done|]. intros (i & s & Hi%elem_of_peerRows & Hs & _).
    assert ((i, s) ∈ filter (λ x : string * PeerRow, pSelf x.2 = true) (peerRows f)) as Hin
      by (by apply list_elem_of_filter). rewrite E in Hin. by apply not_elem_of_nil in Hin.
  - assert ((i, s) ∈ filter (λ x : string * PeerRow, pSelf x.2 = true) (peerRows f)) as [Hs Hin]%list_elem_of_filter
      by (rewrite E; by left). cbn in Hs. apply elem_of_peerRows in Hin. rewrite bool_decide_eq_true. split; [by eauto|].
    intros (j & q & Hj & Hq & ->). rewrite (Hone _ _ _ _ Hin Hj Hs Hq) in Hin. congruence.
Qed.

(** Whether the source is this node is what its row says. *)
Lemma source_self f h c why p : dSource (routeBlob f h) = Some (c, why) → peers f !! PeerID c = Some p →
  pSelf p = IsSelf c.
Proof.
  unfold routeBlob. case_bool_decide; [done|]. intros Hs Hp.
  pose proof (select_spec (candidatesFor f h) (candidatesFor_NoDup f h)) as Hsel.
  destruct (Select (candidatesFor f h)) as [[[w why']|] rejected]; [|done]. cbn in Hs. injection Hs as -> ->.
  destruct Hsel as (Hw & _). apply elem_of_candidatesFor in Hw as (q & Hq & E). rewrite E. cbn. congruence.
Qed.

(** The parts of [route_serves]. *)
Lemma route_serving f h : h ≠ "" → one_self f →
  let d := routeBlob f h in
  (∀ id p, peers f !! id = Some p → (∀ w why, dSource d = Some (w, why) → PeerID w ≠ id) →
     ∃ r, r ∈ dRejected d ∧ rPeerID r = id ∧ rName r = pName p ∧ rReasons r ≠ []) ∧
  match dSource d with
  | None => ∀ id p, peers f !! id = Some p → ¬ serves f h id p
  | Some (w, _) =>
      ∃ p, peers f !! PeerID w = Some p ∧ serves f h (PeerID w) p ∧
        contentURLFor d h = BlobURL (if pSelf p then "" else TrimSuffixByte "/" (default "" (pEndpoint p))) h ∧
        (¬ local f p → ∀ id q, peers f !! id = Some q → local f q → ¬ serves f h id q)
  end.
Proof.
  intros Hh Hone d. subst d. unfold routeBlob. rewrite bool_decide_eq_false_2 by done.
  pose proof (select_spec (candidatesFor f h) (candidatesFor_NoDup f h)) as H.
  assert (∀ id p, peers f !! id = Some p → candidateOf f h id p ∈ candidatesFor f h) as Hall.
  { intros id p Hp. apply elem_of_candidatesFor. by exists p. }
  destruct (Select (candidatesFor f h)) as [[[w why]|] rejected]; cbn [dSource dRejected].
  - destruct H as (Hw & Hu & _ & Hbest & ->). split.
    + intros id p Hp Hne. assert (PeerID w ≠ id) as Hwid by (by eapply Hne).
      eexists. split; [apply list_elem_of_fmap; exists (candidateOf f h id p); split; [done|]|].
      { apply list_elem_of_filter. split; [|by apply Hall]. intros E. apply Hwid. by rewrite <- E. }
      cbn [rejectionOf rPeerID rName rReasons]. split_and!; [done..|]. destruct (decide _) as [|Hnu]; [done|]. by rewrite reasonsAgainst_nil.
    + apply elem_of_candidatesFor in Hw as (p & Hp & E). exists p. split; [done|].
      split; [apply usable_serves; by rewrite <- E|]. split.
      { unfold contentURLFor. cbn [dSource]. rewrite bool_decide_eq_false_2 by done. rewrite E. cbn. by destruct (pSelf p). }
      intros Hhere id q Hq Hqh Hs. apply usable_serves in Hs.
      rewrite <- here_local in Hhere, Hqh by done. apply not_true_is_false in Hhere.
      destruct (Hbest _ (Hall id q Hq) Hs) as [Ew|Hpref].
      * rewrite <- Ew in E. injection E. intros. congruence.
      * rewrite E in Hpref. unfold prefers in Hpref. cbn in Hpref. rewrite Hhere, Hqh in Hpref. naive_solver.
  - destruct H as (Hn & ->). rewrite Forall_forall in Hn. split.
    + intros id p Hp _. eexists. split; [apply list_elem_of_fmap; exists (candidateOf f h id p); split; [done|by apply Hall]|].
      cbn [rejectionOf rPeerID rName rReasons]. split_and!; [done..|]. rewrite reasonsAgainst_nil. by apply Hn, Hall.
    + intros id p Hp Hs%usable_serves. by apply (Hn _ (Hall id p Hp)).
Qed.

(** C26. A blob is read from a peer that the catalog says holds it, bytes present, that answers
    and can be addressed (this node answers the request itself), and the URL is that peer's,
    never this node's for another; a peer elsewhere serves only when none at this node's site
    can.  A blob is refused only when no peer can serve it.  Either way every other peer of
    the fabric is named, with at least one reason. *)
Theorem route_serves f h : h ≠ "" → one_self f →
  let d := routeBlob f h in
  (∀ id p, peers f !! id = Some p → (∀ w why, dSource d = Some (w, why) → PeerID w ≠ id) →
     ∃ r, r ∈ dRejected d ∧ rPeerID r = id ∧ rName r = pName p ∧ rReasons r ≠ []) ∧
  match dSource d with
  | None => ∀ id p, peers f !! id = Some p → ¬ serves f h id p
  | Some (w, _) =>
      ∃ p, peers f !! PeerID w = Some p ∧ serves f h (PeerID w) p ∧
        contentURLFor d h = BlobURL (if pSelf p then "" else TrimSuffixByte "/" (default "" (pEndpoint p))) h ∧
        (¬ local f p → ∀ id q, peers f !! id = Some q → local f q → ¬ serves f h id q)
  end.
Proof. apply route_serving. Qed.

(** ** Instances *)

Definition twoSites : Fabric :=
  mkFabric
    {[ "p1" := mkPeerRow "attic" "home" None true "unknown";
       "p2" := mkPeerRow "cabin" "lake" (Some "https://cabin/") false "reachable" ]}
    {[ ("blake3:00", "p2") := "present"; ("blake3:00", "p1") := "corrupt" ]}.

Lemma twoSites_one : one_self twoSites.
Proof.
  intros i j p q Hi Hj Hp Hq. unfold twoSites in *. cbn [peers] in *.
  apply lookup_insert_Some in Hi as [[<- <-]|[_ Hi]]; [|apply lookup_singleton_Some in Hi as [<- <-]; done].
  apply lookup_insert_Some in Hj as [[<- <-]|[_ Hj]]; [done|apply lookup_singleton_Some in Hj as [<- <-]; done].
Qed.

Lemma route_serves_witness :
  one_self twoSites ∧
  (∃ w why, dSource (routeBlob twoSites "blake3:00") = Some (w, why) ∧ PeerID w = "p2") ∧
  ∃ r, r ∈ dRejected (routeBlob twoSites "blake3:00") ∧ rPeerID r = "p1" ∧ rName r = "attic" ∧ rReasons r ≠ [].
Proof.
  assert ("blake3:00" ≠ "") as Hh by discriminate. split; [exact twoSites_one|].
  destruct (route_serves twoSites "blake3:00" Hh twoSites_one) as [Hall _].
  destruct (dSource (routeBlob twoSites "blake3:00")) as [[w why]|] eqn:E; [|exfalso; by vm_compute in E].
  assert (PeerID w = "p2") as Hw by (vm_compute in E; injection E as <- _; reflexivity).
  split; [exists w, why; split; [reflexivity|exact Hw]|].
  apply (Hall "p1" (mkPeerRow "attic" "home" None true "unknown")); [reflexivity|].
  intros w' why' E'. injection E' as <- _. rewrite Hw. discriminate.
Defined.
