(* ===== verification/StartPlayback.v ===== *)
(** * StartPlayback: planning and beginning a playback

    Models src/internal/media/probe/probe.go and audio.go (which streams stand for a file),
    src/internal/api/resources/plan.go (what a device declared, what the probe found, the
    rendered plan) and playback.go (plan, refuse, or open a session).  The parsing of language
    tags is a parameter; a JSON column is what it decodes to.  A handler reads, and then
    writes in one transaction: what others do in between is the function [others]; the reads
    and writes that fail are a record of faults. *)

From S2P Require Import Planner Routing.
From S2P Require Import Prelude GoText GoPath GoScan GoEncoding GoTime Schedule Playback Capability.

(** ** The streams of a file (probe.go, audio.go) *)

Record Stream := mkStream {
  sType : string;
  sCodec : string;
  sProfile : string;
  sWidth : Z;
  sHeight : Z;
  sChannels : Z;
  sLanguage : string;
  sTitle : string;
  sCommentary : bool;
  sAttached : bool;
}.

#[export] Instance Stream_eq_dec : EqDecision Stream.
Proof. solve_decision. Defined.

Record Result := mkResult { rContainer : string; rStreams : list Stream; rBitrate : Z }.

Definition VideoStream (r : Result) : option Stream :=
  head (filter (λ s, sType s = "video" ∧ sAttached s = false) (rStreams r)).

(** The base language of a tag, where it parses. *)
Class LanguageTags := BaseOf : string → option string.

(** The audio streams with their ordinals. *)
Definition audioStreams (r : Result) : list (nat * Stream) :=
  imap pair (filter (λ s, sType s = "audio") (rStreams r)).

(** The first, or the first that is not a commentary where the first is. *)
Definition fallbackAudio (l : list (nat * Stream)) : option (nat * Stream) :=
  foldl (λ fallback os,
           match fallback with
           | None => Some os
           | Some (_, f) => if sCommentary f && negb (sCommentary os.2) then Some os else fallback
           end) None l.

Definition speaks `{LanguageTags} (base : string) (s : Stream) : bool :=
  bool_decide (BaseOf (sLanguage s) = Some base) && negb (sCommentary s).

Fixpoint preferredAudio `{LanguageTags} (preferred : list string) (l : list (nat * Stream)) : option (nat * Stream) :=
  match preferred with
  | [] => None
  | wanted :: preferred =>
      match BaseOf wanted with
      | None => preferredAudio preferred l
      | Some base =>
          if bool_decide (base = "und") then preferredAudio preferred l
          else match filter (λ os, speaks base os.2 = true) l with
               | os :: _ => Some os
               | [] => preferredAudio preferred l
               end
      end
  end.

Definition AudioForLanguages `{LanguageTags} (preferred : list string) (r : Result) : option (nat * Stream) :=
  let l := audioStreams r in
  match preferredAudio preferred l with Some os => Some os | None => fallbackAudio l end.

(** profileFromProbe (playbackstream.go) *)
Definition profileFromProbe `{LanguageTags} (r : Result) (audioLanguages : list string) : Planner.MediaProfile :=
  let v := VideoStream r in
  let a := AudioForLanguages audioLanguages r in
  Planner.mkMedia true (rContainer r)
    (default "" (sCodec <$> v)) (default 0%Z (sWidth <$> v)) (default 0%Z (sHeight <$> v))
    (match v with Some v => Contains (ToLower (sProfile v)) "hdr" | None => false end)
    (default "" ((λ a, sCodec a.2) <$> a)) (default 0%Z ((λ a, Z.of_nat a.1) <$> a))
    (default "" ((λ a, sLanguage a.2) <$> a)) (default 0%Z ((λ a, sChannels a.2) <$> a))
    (rBitrate r).

(** ** The tables a plan reads *)

(** A row of blob_probes; [pStreams] is [None] where its JSON does not decode. *)
Record ProbeRow := mkProbe { pContainer : string; pBitrate : option Z; pStreams : option (list Stream) }.

(** An API token as its name and expiry: minted for reading, and short-lived. *)
Record Token := mkToken { tName : string; tExpires : Z }.

Record Node := mkNode {
  db : DB;
  declared : gmap string (option Planner.DeviceProfile);   (** the columns of devices, decoded *)
  probes : gmap string ProbeRow;
  mimes : gmap string (option string);                     (** the column assets.mime *)
  fabric : Routing.Fabric;
  tokens : list Token;
}.

(** Which of a handler's reads and writes fail. *)
Record Faults := mkFaults { fDevice : bool; fAsset : bool; fRoute : bool; fToken : bool; fOpen : bool; fMime : bool }.

Definition noFaults : Faults := mkFaults false false false false false false.

(** [sql.ErrNoRows], or another error. *)
Inductive ReadError := NoRows | ReadFailed.

Definition deviceProfile (f : Faults) (n : Node) (id : string) : ReadError + Planner.DeviceProfile :=
  if fDevice f then inl ReadFailed
  else match declared n !! id with
  | None => inl NoRows
  | Some None => inl ReadFailed
  | Some (Some p) => inr p
  end.

(** What the probe found of the bytes of an asset, and their digest ("" for a linked asset). *)
Definition mediaProfile `{LanguageTags} (f : Faults) (n : Node) (assetID : string) (audioLanguages : list string)
    : ReadError + Planner.MediaProfile * string :=
  if fAsset f then inl ReadFailed
  else match assets (db n) !! assetID with
  | None => inl NoRows
  | Some a =>
      match Playback.BlobHash a with
      | None => inr (Planner.zeroMedia, "")
      | Some h =>
          match probes n !! h with
          | None => inr (Planner.zeroMedia, h)
          | Some p =>
              match pStreams p with
              | None => inl ReadFailed
              | Some streams =>
                  inr (profileFromProbe (mkResult (pContainer p) streams (default 0%Z (pBitrate p))) audioLanguages, h)
              end
          end
      end
  end.

Definition routeBlob (f : Faults) (n : Node) (blobHash : string) : ReadError + Routing.Decision_ :=
  if bool_decide (blobHash = "") then inr Routing.zeroDecision
  else if fRoute f then inl ReadFailed
  else inr (Routing.routeBlob (fabric n) blobHash).

(** ** The rendered plan (plan.go) *)

Record RoutingResponse := mkRouting {
  rrPeer : string; rrReason : option Routing.Reason; rrRejected : list Routing.Rejection }.

Record PlanResponse := mkPlanResponse {
  prAsset : string;
  prDevice : string;
  prDecision : string;
  prReasons : list Planner.Reason;
  prPeer : string;
  prRemote : bool;
  prContentURL : string;
  prRouting : RoutingResponse;
}.

Definition renderRouting (d : Routing.Decision_) : RoutingResponse :=
  match Routing.dSource d with
  | None => mkRouting "" None (Routing.dRejected d)
  | Some (c, why) => mkRouting (Routing.PeerID c) (Some why) (Routing.dRejected d)
  end.

Definition renderPlan (assetID deviceID : string) (plan : Planner.Plan) (route : Routing.Decision_) (blobHash : string)
    : PlanResponse :=
  mkPlanResponse assetID deviceID (Planner.DecisionOf plan) (Planner.Reasons plan) (Planner.PeerID plan)
    (Planner.Remote plan) (if Planner.Direct plan then Routing.contentURLFor route blobHash else "")
    (renderRouting route).

(** A problem document: its kind, with the detail of a conflict. *)
Inductive Problem := ProblemBadRequest | ProblemNotFound (what : string) | ProblemConflict (detail : string) | ProblemInternal.

Definition problemFor (what : string) (e : ReadError) : Problem :=
  match e with NoRows => ProblemNotFound what | ReadFailed => ProblemInternal end.

(** The three reads every plan begins with: the device, the media, the route. *)
Definition planned : Type := Planner.DeviceProfile * Planner.MediaProfile * string * Routing.Decision_.

Definition readPlan `{LanguageTags} (f : Faults) (n : Node) (assetID deviceID : string) : Problem + planned :=
  match deviceProfile f n deviceID with
  | inl e => inl (problemFor "device" e)
  | inr device =>
      match mediaProfile f n assetID [] with
      | inl e => inl (problemFor "asset" e)
      | inr (media, blobHash) =>
          match routeBlob f n blobHash with
          | inl e => inl (problemFor "replica" e)
          | inr route => inr (device, media, blobHash, route)
          end
      end
  end.

Definition planPlayback `{LanguageTags} (f : Faults) (n : Node) (assetID deviceID : string) : Problem + PlanResponse :=
  if negb (required assetID) then inl ProblemBadRequest
  else if negb (required deviceID) then inl ProblemBadRequest
  else match readPlan f n assetID deviceID with
  | inl p => inl p
  | inr (device, media, blobHash, route) =>
      inr (renderPlan assetID deviceID (Planner.Choose media device (Routing.replicasOf route)) route blobHash)
  end.

(** ** Beginning a playback (playback.go) *)

Definition playbackTokenTTL : Z := 2 * Hour.

Record playbackStart := mkStart {
  SessionID : string;
  StartPlan : PlanResponse;
  ContentURL : string;
  TokenSecret : string;
  ExpiresAt_ : Z;
  RenderURL : Unavailable + string;
  StartDecision : string;
}.

Definition playbackRefusal (plan : Planner.Plan) (route : Routing.Decision_) : Problem :=
  if bool_decide (Planner.DecisionOf plan = Planner.DecisionUnplayable) then
    ProblemConflict (Routing.Refusal route +:+ "; POST /api/v1/playback/plan for the full rationale")
  else
    let detail := "this asset needs " +:+ Planner.DecisionOf plan +:+ " on this device, which Milestone 2 cannot serve" in
    let detail := match Planner.Reasons plan with r :: _ => detail +:+ ": " +:+ Planner.Detail r | [] => detail end in
    ProblemConflict (detail +:+ "; POST /api/v1/playback/plan for the full rationale").

Definition resolveVerb (requested : string) (media : Planner.MediaProfile) : option string :=
  if bool_decide (requested ≠ "") then ParseVerb requested
  else if Planner.Known media && bool_decide (Planner.VideoCodec media = "") then Some VerbListen
  else Some VerbWatch.

Definition set_db (d : DB) (n : Node) : Node := mkNode d (declared n) (probes n) (mimes n) (fabric n) (tokens n).
Definition add_token (t : Token) (n : Node) : Node :=
  mkNode (db n) (declared n) (probes n) (mimes n) (fabric n) (tokens n ++ [t]).

(** The source of a route, as the mint reads it. *)
Definition sourceOf (route : Routing.Decision_) : option string :=
  match Routing.dSource route with Some (c, _) => Some (Routing.PeerID c) | None => None end.

(** What a request brings, with the new session's id, the new token's secret and the clock. *)
Record Begin := mkBegin {
  bAsset : string; bDevice : string; bVerb : string; bForce : bool;
  bGate : option (Routing.Decision_ → option Problem);
  bNewID : string; bSecret : string; bNow : Z }.

Definition beginPlayback `{LanguageTags, HMAC} (m : Minter) (f : Faults) (others : DB → DB) (b : Begin) (n : Node)
    : (Problem + playbackStart) * Node :=
  match readPlan f n (bAsset b) (bDevice b) with
  | inl p => (inl p, n)
  | inr (device, media, blobHash, route) =>
      let plan := Planner.Choose media device (Routing.replicasOf route) in
      let plan := if bForce b then Planner.ForceDirect plan else plan in
      let rendered := renderPlan (bAsset b) (bDevice b) plan route blobHash in
      if negb (Planner.Direct plan) then (inl (playbackRefusal plan route), n)
      else match resolveVerb (bVerb b) media with
      | None => (inl ProblemBadRequest, n)
      | Some verb =>
          match bGate b ≫= (λ gate, gate route) with
          | Some p => (inl p, n)
          | None =>
              let session := newSession (bNewID b) (bAsset b) (bDevice b) verb (bNow b) in
              let expires := (bNow b + playbackTokenTTL)%Z in
              if fToken f then (inl ProblemInternal, n)
              else
                let n := add_token (mkToken ("playback " +:+ bNewID b) expires) n in
                let n := set_db (others (db n)) n in
                if fOpen f then (inl ProblemInternal, n)
                else match openSession session (db n) with
                | inl ErrForeignKey => (inl ProblemBadRequest, n)
                | inl _ => (inl ProblemInternal, n)
                | inr d =>
                    let mime := if fMime f then None else mimes n !! bAsset b in
                    (inr (mkStart (bNewID b) rendered (Routing.contentURLFor route blobHash) (bSecret b) expires
                            (renderURL m (sourceOf route) blobHash mime (bNow b)) (Planner.DecisionOf plan)),
                     set_db d n)
                end
          end
      end
  end.

(** POST /playback: no gate, and nothing is forced. *)
Definition startPlayback `{LanguageTags, HMAC} (m : Minter) (f : Faults) (others : DB → DB)
    (asset device verb newID secret : string) (now : Z) (n : Node) : (Problem + playbackStart) * Node :=
  if negb (required asset) || negb (required device) then (inl ProblemBadRequest, n)
  else beginPlayback m f others (mkBegin asset device verb false None newID secret now) n.
