(* ===== verification/StartPlaybackSpec.v ===== *)
(** * StartPlaybackSpec: what beginning a playback promises

    Which audio stands for a file; that a session is opened only for bytes that can be played
    as they are, from a peer that holds them; and that a refusal opens nothing and says why. *)

From S2P Require Import Planner PlannerSpec Routing RoutingSpec.
From S2P Require Import Prelude GoText GoPath GoScan GoEncoding GoTime Schedule.
From S2P Require Import Playback RendererProgress PlaybackSpec Capability StartPlayback.

(** ** The audio of a file *)

Section audio.
Context `{LanguageTags}.

(** A fallback is the first dialogue, or the first stream where all are commentaries. *)
Lemma fallbackAudio_spec l :
  fallbackAudio l =
    match filter (λ os, sCommentary os.2 = false) l with
    | os :: _ => Some os
    | [] => head l
    end.
Proof.
  unfold fallbackAudio.
  assert (∀ fb, foldl (λ fallback os, match fallback with
      | None => Some os
      | Some (_, f) => if sCommentary f && negb (sCommentary os.2) then Some os else fallback
      end) fb l =
    match fb with
    | Some os => if sCommentary os.2 then match filter (λ os, sCommentary os.2 = false) l with os' :: _ => Some os' | [] => Some os end
                 else Some os
    | None => match filter (λ os, sCommentary os.2 = false) l with os :: _ => Some os | [] => head l end
    end) as Hall; [|by rewrite Hall].
  induction l as [|[o s] l IH]; intros fb; cbn [foldl].
  { destruct fb as [[o s]|]; [|done]. by destruct (sCommentary _). }
  rewrite IH, filter_cons. cbn [snd]. destruct fb as [[o' s']|]; cbn [snd].
  - destruct (sCommentary s') eqn:E', (sCommentary s) eqn:E; cbn [andb negb snd]; rewrite ?E, ?E'; try done;
      by destruct (filter _ l).
  - destruct (sCommentary s) eqn:E; cbn [head]; [|done]. by destruct (filter _ l).
Qed.

Lemma preferredAudio_spec preferred l o s : preferredAudio preferred l = Some (o, s) →
  (o, s) ∈ l ∧ sCommentary s = false ∧
  ∃ wanted base before after, preferred = before ++ wanted :: after ∧
    BaseOf wanted = Some base ∧ base ≠ "und" ∧ BaseOf (sLanguage s) = Some base ∧
    (∀ w b o' s', w ∈ before → BaseOf w = Some b → b ≠ "und" → (o', s') ∈ l → speaks b s' = false).
Proof.
  induction preferred as [|w ws IH]; [done|]. cbn [preferredAudio]. intros Hp.
  assert (preferredAudio ws l = Some (o, s) → (∀ b o' s', BaseOf w = Some b → b ≠ "und" → (o', s') ∈ l → speaks b s' = false) →
    (o, s) ∈ l ∧ sCommentary s = false ∧
    ∃ wanted base before after, w :: ws = before ++ wanted :: after ∧
      BaseOf wanted = Some base ∧ base ≠ "und" ∧ BaseOf (sLanguage s) = Some base ∧
      (∀ w b o' s', w ∈ before → BaseOf w = Some b → b ≠ "und" → (o', s') ∈ l → speaks b s' = false)) as Hskip.
  { intros Hp' Hw. destruct (IH Hp') as (H1 & H2 & wanted & base & before & after & -> & H4 & H5 & H6 & H7).
    split_and!; [done..|]. exists wanted, base, (w :: before), after. split_and!; try done.
    intros w' b o' s' [->|Hin]%elem_of_cons; eauto. }
  destruct (BaseOf w) as [base|] eqn:Eb; [|apply Hskip; [done|]; intros ??? [=]].
  case_bool_decide as Eu; [apply Hskip; [done|]; intros ??? [= ->]; done|].
  destruct (filter (λ os, speaks base os.2 = true) l) as [|os k] eqn:Ef.
  - apply Hskip; [done|]. intros b o' s' [= <-] _ Hin. apply not_true_is_false. intros E.
    assert ((o', s') ∈ filter (λ os, speaks base os.2 = true) l) as Hf by (by apply list_elem_of_filter).
    rewrite Ef in Hf. by apply not_elem_of_nil in Hf.
  - injection Hp as ->.
    assert ((o, s) ∈ filter (λ os, speaks base os.2 = true) l) as [Hs Hin]%list_elem_of_filter by (rewrite Ef; by left).
    unfold speaks in Hs. apply andb_prop in Hs as [Hb%bool_decide_eq_true Hc%negb_true_iff]. cbn in Hb, Hc.
    split_and!; try done. exists w, base, [], ws. split_and!; try done. by intros ???? []%not_elem_of_nil.
Qed.
End audio.

(** ** Plans over one route *)

Lemma route_replicas d : Routing.replicasOf d =
  match Routing.dSource d with Some (c, _) => [Planner.mkReplica (Routing.PeerID c) (Routing.SameSite c)] | None => [] end.
Proof. done. Qed.

(** A plan that is direct, forced or not, has a source. *)
Lemma direct_source m d route (force : bool) :
  let plan := Planner.Choose m d (Routing.replicasOf route) in
  Planner.Direct (if force then Planner.ForceDirect plan else plan) = true →
  ∃ c why, Routing.dSource route = Some (c, why) ∧
    Planner.PeerID (if force then Planner.ForceDirect plan else plan) = Routing.PeerID c ∧
    Planner.DecisionOf (if force then Planner.ForceDirect plan else plan) = Planner.DecisionDirect ∧
    (force = false → PlannerSpec.decides m d (Routing.replicasOf route) Planner.DecisionDirect).
Proof.
  intros plan Hd. pose proof (PlannerSpec.choose_parts m d (Routing.replicasOf route)) as H. fold plan in H.
  destruct (PlannerSpec.ForceDirect_spec plan) as (HP & _ & Hkeep & _). rewrite route_replicas in *.
  assert (Planner.DecisionOf (if force then Planner.ForceDirect plan else plan) = Planner.DecisionDirect) as Hdec
    by (by apply bool_decide_eq_true in Hd).
  destruct (Routing.dSource route) as [[c why]|].
  - exists c, why. rewrite decide_False in H by done. destruct H as (Hd' & r & [->|[]%not_elem_of_nil]%elem_of_cons & HPeer & _).
    split_and!; [done| |done|].
    + destruct force; [by rewrite HP|done].
    + intros ->. by rewrite <- Hdec at 1.
  - rewrite decide_True in H by done. destruct H as [Hu _]. exfalso.
    destruct force; [rewrite Hkeep in Hdec by auto|]; rewrite Hu in Hdec; done.
Qed.

(** ** Beginning *)

Section begin.
Context `{LanguageTags, HMAC} (m : Minter).

Lemma resolveVerb_in requested media v : resolveVerb requested media = Some v → v ∈ Verbs.
Proof.
  unfold resolveVerb, ParseVerb. case_bool_decide.
  - intros Hh%head_Some_elem_of. by apply list_elem_of_filter in Hh as [-> ?].
  - case_match; intros [= <-]; by apply (bool_decide_unpack _).
Qed.

(** The token minted for a session. *)
Definition minted (b : Begin) : Token := mkToken ("playback " +:+ bNewID b) (bNow b + playbackTokenTTL).

(** The one way a playback begins. *)
Lemma begin_inv f others b n s n' : beginPlayback m f others b n = (inr s, n') →
  ∃ device media blob route c why verb,
    readPlan f n (bAsset b) (bDevice b) = inr (device, media, blob, route) ∧
    Routing.dSource route = Some (c, why) ∧ resolveVerb (bVerb b) media = Some verb ∧
    (bForce b = false → PlannerSpec.decides media device (Routing.replicasOf route) Planner.DecisionDirect) ∧
    (bGate b ≫= λ gate, gate route) = None ∧
    prPeer (StartPlan s) = Routing.PeerID c ∧ StartDecision s = Planner.DecisionDirect ∧
    ContentURL s = Routing.contentURLFor route blob ∧ SessionID s = bNewID b ∧ ExpiresAt_ s = (bNow b + playbackTokenTTL)%Z ∧
    let session := newSession (bNewID b) (bAsset b) (bDevice b) verb (bNow b) in
    openSession session (others (db n)) = inr (inserted session (others (db n))) ∧
    n' = set_db (inserted session (others (db n))) (add_token (minted b) n).
Proof.
  unfold beginPlayback. destruct (readPlan f n (bAsset b) (bDevice b)) as [|[[[device media] blob] route]] eqn:Er; [done|].
  set (plan := Planner.Choose media device (Routing.replicasOf route)).
  set (plan' := if bForce b then Planner.ForceDirect plan else plan). cbv zeta.
  destruct (Planner.Direct plan') eqn:Ed; cbn [negb]; [|done].
  destruct (resolveVerb (bVerb b) media) as [verb|] eqn:Ev; [|done].
  destruct (bGate b ≫= _) eqn:Eg; [done|]. destruct (fToken f); [done|]. destruct (fOpen f); [done|].
  cbn [db set_db add_token]. pose proof (resolveVerb_in _ _ _ Ev) as Hv.
  pose proof (openSession_exact (bNewID b) (bAsset b) (bDevice b) verb (bNow b) (others (db n)) Hv) as Hopen.
  destruct (openSession _ _) as [e|d] eqn:Eo; [by destruct e|]. intros [= <- <-].
  assert (d = inserted (newSession (bNewID b) (bAsset b) (bDevice b) verb (bNow b)) (others (db n))) as ->
    by (repeat case_match; congruence). clear Hopen.
  destruct (direct_source media device route (bForce b)) as (c & why & Hsrc & HP & HD & Hforce); [done|].
  exists device, media, blob, route, c, why, verb. cbn. split_and!; try done.
Qed.

(** What is read of an asset's bytes. *)
Lemma mediaProfile_blob f n a langs media blob : mediaProfile f n a langs = inr (media, blob) →
  ∃ row, assets (db n) !! a = Some row ∧ default "" (Playback.BlobHash row) = blob ∧
         (Planner.Known media = true → is_Some (probes n !! blob)).
Proof.
  unfold mediaProfile. destruct (fAsset f); [done|]. destruct (assets (db n) !! a) as [row|]; [|done].
  destruct (Playback.BlobHash row) as [h|] eqn:Eh.
  - destruct (probes n !! h) as [p|] eqn:Ep.
    + destruct (pStreams p); [|done]. intros [= <- <-]. exists row. rewrite Eh. by eauto.
    + intros [= <- <-]. exists row. by rewrite Eh.
  - intros [= <- <-]. exists row. by rewrite Eh.
Qed.

Lemma readPlan_inv f n a d device media blob route : readPlan f n a d = inr (device, media, blob, route) →
  declared n !! d = Some (Some device) ∧ mediaProfile f n a [] = inr (media, blob) ∧
  route = Routing.routeBlob (fabric n) blob.
Proof.
  unfold readPlan. destruct (deviceProfile f n d) as [|dev] eqn:Ed; [done|].
  destruct (mediaProfile f n a []) as [|[med bl]] eqn:Em; [done|].
  destruct (routeBlob f n bl) as [|r] eqn:Er; [done|]. intros [= -> -> -> ->]. split_and!; [|done|].
  - unfold deviceProfile in Ed. destruct (fDevice f); [done|]. by destruct (declared n !! d) as [[]|]; simplify_eq.
  - unfold routeBlob in Er. case_bool_decide as Eb.
    + unfold Routing.routeBlob. rewrite bool_decide_eq_true_2 by done. congruence.
    + destruct (fRoute f); congruence.
Qed.

(** C23. A playback that begins can be played: the asset has bytes, the peer the plan names holds
    them and can be read from, and the URL is that peer's; unless the caller forced it,
    nothing the device declares speaks against the bytes as they are.  Exactly one session
    is opened, created now with the verb asked for or that the media suggest, and one token
    that expires with the answer; the log of the sessions stays sound. *)
Theorem begin_serves f others b n s n' :
  beginPlayback m f others b n = (inr s, n') → RoutingSpec.one_self (fabric n) → sound (others (db n)) →
  ∃ asset blob device media peer verb,
    assets (db n) !! bAsset b = Some asset ∧ Playback.BlobHash asset = Some blob ∧
    Routing.peers (fabric n) !! prPeer (StartPlan s) = Some peer ∧
    RoutingSpec.serves (fabric n) blob (prPeer (StartPlan s)) peer ∧
    ContentURL s = Routing.BlobURL (if Routing.pSelf peer then ""
                                    else Routing.TrimSuffixByte "/" (default "" (Routing.pEndpoint peer))) blob ∧
    declared n !! bDevice b = Some (Some device) ∧ mediaProfile f n (bAsset b) [] = inr (media, blob) ∧
    (bForce b = false →
       ∀ copies, ¬ PlannerSpec.containerProblem media device copies ∧ ¬ PlannerSpec.streamProblem media device copies) ∧
    resolveVerb (bVerb b) media = Some verb ∧
    sessions (db n') = <[bNewID b := newSession (bNewID b) (bAsset b) (bDevice b) verb (bNow b)]> (sessions (others (db n))) ∧
    sessions (others (db n)) !! bNewID b = None ∧
    tokens n' = tokens n ++ [mkToken ("playback " +:+ bNewID b) (ExpiresAt_ s)] ∧
    sound (db n').
Proof.
  intros Hb Hone Hsound.
  destruct (begin_inv _ _ _ _ _ _ Hb) as (device & media & blob & route & c & why & verb & Hr & Hsrc & Hv & Hplan & _ &
    HP & HD & HU & Hid & Hex & Hopen & ->).
  destruct (readPlan_inv _ _ _ _ _ _ _ _ Hr) as (Hdev & Hmed & ->).
  destruct (mediaProfile_blob _ _ _ _ _ _ Hmed) as (row & Hrow & Hblob & _).
  assert (blob ≠ "") as Hne.
  { intros ->. unfold Routing.routeBlob in Hsrc. by rewrite bool_decide_eq_true_2 in Hsrc. }
  assert (Playback.BlobHash row = Some blob) as Hb0 by (destruct (Playback.BlobHash row); cbn in Hblob; congruence).
  destruct (RoutingSpec.route_serving (fabric n) blob Hne Hone) as [_ Hserve]. rewrite Hsrc in Hserve.
  destruct Hserve as (peer & Hpeer & Hs & Hurl & _). rewrite HP, HU.
  exists row, blob, device, media, peer, verb. split_and!; try done.
  - intros Hf copies. specialize (Hplan Hf). destruct Hplan as [[? _]|[[? _]|(_ & Hc1 & Hs1)]]; [done|done|].
    assert (Routing.replicasOf (Routing.routeBlob (fabric n) blob) ≠ []) as Hne' by (unfold Routing.replicasOf; by rewrite Hsrc).
    split; [intros Hp; by apply Hc1, (PlannerSpec.containerProblem_any _ _ _ _ Hp)
           |intros Hp; by apply Hs1, (PlannerSpec.streamProblem_any _ _ _ _ Hp)].
  - rewrite openSession_exact in Hopen by (by eapply resolveVerb_in). case_bool_decide as Hnone; [done|].
    by apply eq_None_not_Some.
  - by rewrite Hex.
  - pose proof (openSession_sound (bNewID b) (bAsset b) (bDevice b) verb (bNow b) (others (db n))
      (resolveVerb_in _ _ _ Hv) Hsound) as Hso. by rewrite Hopen in Hso.
Qed.

(** ** Refusing *)

Definition lineOf (r : Routing.Rejection) : string :=
  Routing.rName r +:+ " (" +:+ Routing.rSite r +:+ "): " +:+ Routing.joinDetails (Routing.rReasons r).

Lemma refusal_fold rs r acc : r ∈ rs →
  ∃ a z, foldl (λ out r, out +:+ "; " +:+ Routing.rName r +:+ " (" +:+ Routing.rSite r +:+ "): " +:+
                 Routing.joinDetails (Routing.rReasons r)) acc rs = a +:+ lineOf r +:+ z.
Proof.
  assert (∀ rs acc, ∃ z, foldl (λ out r, out +:+ "; " +:+ Routing.rName r +:+ " (" +:+ Routing.rSite r +:+ "): " +:+
                 Routing.joinDetails (Routing.rReasons r)) acc rs = acc +:+ z) as Hpre.
  { clear. induction rs as [|r rs IH]; intros acc; cbn [foldl]; [exists ""; by rewrite string_app_nil|].
    destruct (IH (acc +:+ "; " +:+ Routing.rName r +:+ " (" +:+ Routing.rSite r +:+ "): " +:+
                 Routing.joinDetails (Routing.rReasons r))) as [z ->]. eexists. by rewrite string_app_assoc. }
  revert acc. induction rs as [|r' rs IH]; intros acc Hr; [by apply not_elem_of_nil in Hr|].
  apply elem_of_cons in Hr as [->|Hr]; cbn [foldl]; [|by apply IH].
  destruct (Hpre rs (acc +:+ "; " +:+ Routing.rName r' +:+ " (" +:+ Routing.rSite r' +:+ "): " +:+
                 Routing.joinDetails (Routing.rReasons r'))) as [z ->].
  exists (acc +:+ "; "), z. unfold lineOf. by rewrite !string_app_assoc.
Qed.

(** A refusal says a line for every peer that was turned down. *)
Lemma refusal_lines d r : Routing.dSource d = None → r ∈ Routing.dRejected d →
  ∃ a z, Routing.Refusal d = a +:+ lineOf r +:+ z.
Proof.
  intros Hd Hr. unfold Routing.Refusal. rewrite Hd. destruct (Routing.dRejected d) as [|r' rs] eqn:E; [by apply not_elem_of_nil in Hr|].
  by apply refusal_fold.
Qed.

(** C24. A refusal opens nothing: the node is as it was, or, when it was the opening that failed,
    as others left it, and one token was minted.  When no peer can serve the bytes, the answer
    is a conflict, forced or not, with a line for every peer of the fabric and what held
    against it; when the bytes do not play as they are, a conflict that names the decision and
    the first reason; and neither mints a token. *)
Theorem begin_refuses f others b n p n' : beginPlayback m f others b n = (inl p, n') → RoutingSpec.one_self (fabric n) →
  (n' = n ∨ n' = set_db (others (db n)) (add_token (minted b) n) ∧ (p = ProblemInternal ∨ p = ProblemBadRequest)) ∧
  ∀ device media blob route, readPlan f n (bAsset b) (bDevice b) = inr (device, media, blob, route) →
    let plan := Planner.Choose media device (Routing.replicasOf route) in
    match Routing.dSource route with
    | None => ∃ detail, p = ProblemConflict detail ∧ n' = n ∧
        (blob ≠ "" → ∀ id row, Routing.peers (fabric n) !! id = Some row →
           ¬ RoutingSpec.serves (fabric n) blob id row ∧
           ∃ r a z, Routing.rName r = Routing.pName row ∧ Routing.rReasons r ≠ [] ∧ detail = a +:+ lineOf r +:+ z)
    | Some _ => bForce b = false → Planner.Direct plan = false →
        ∃ r rs a z, Planner.Reasons plan = r :: rs ∧ n' = n ∧
          p = ProblemConflict (a +:+ Planner.DecisionOf plan +:+ z) ∧ ∃ z1 z2, z = z1 +:+ Planner.Detail r +:+ z2
    end.
Proof.
  intros Hb Hone. split.
  - unfold beginPlayback in Hb. destruct (readPlan f n (bAsset b) (bDevice b)) as [|[[[device media] blob] route]]; [left; congruence|].
    cbv zeta in Hb. destruct (negb _); [left; congruence|]. destruct (resolveVerb _ _) as [verb|]; [|left; congruence].
    destruct (bGate b ≫= _); [left; congruence|]. destruct (fToken f); [left; congruence|]. right.
    destruct (fOpen f); [injection Hb as <- <-; by auto|]. cbn [db set_db add_token] in Hb.
    destruct (openSession _ _) as [e|d]; [|done]. destruct e; injection Hb as <- <-; by auto.
  - intros device media blob route Hr plan. destruct (readPlan_inv _ _ _ _ _ _ _ _ Hr) as (_ & _ & Hroute).
    unfold beginPlayback in Hb. rewrite Hr in Hb. cbv zeta in Hb. fold plan in Hb.
    destruct (Routing.dSource route) as [[c why]|] eqn:Hsrc.
    + intros Hf Hd. rewrite Hf, Hd in Hb. cbn [negb] in Hb. injection Hb as <- <-.
      pose proof (PlannerSpec.choose_parts media device (Routing.replicasOf route)) as Hp. cbn zeta in Hp.
      pose proof (PlannerSpec.choose_reasons media device (Routing.replicasOf route)) as Hcodes. fold plan in Hp, Hcodes.
      rewrite decide_False in Hp by (unfold Routing.replicasOf; by rewrite Hsrc). destruct Hp as [Hdec _].
      unfold Planner.Direct in Hd. apply bool_decide_eq_false in Hd.
      assert (∃ code, PlannerSpec.codeIn code (Planner.Reasons plan)) as [code Hcode].
      { setoid_rewrite Hcodes. destruct Hdec as [[_ (code & _ & Hw)]|[(_ & Hw & _)|[? _]]]; [by exists code|by eexists|done]. }
      assert (Planner.DecisionOf plan ≠ Planner.DecisionUnplayable) as Hnu.
      { destruct Hdec as [[E _]|[[E _]|[E _]]]; rewrite E; done. }
      unfold playbackRefusal. rewrite bool_decide_eq_false_2 by done. cbv zeta.
      destruct (Planner.Reasons plan) as [|r rs]; [by apply not_elem_of_nil in Hcode|].
      exists r, rs, "this asset needs ",
        (" on this device, which Milestone 2 cannot serve" +:+ ": " +:+ Planner.Detail r +:+
         "; POST /api/v1/playback/plan for the full rationale"). split_and!; [done..| |].
      * f_equal. by rewrite !string_app_assoc.
      * exists (" on this device, which Milestone 2 cannot serve" +:+ ": "), "; POST /api/v1/playback/plan for the full rationale".
        by rewrite !string_app_assoc.
    + assert (plan = Planner.mkPlan Planner.DecisionUnplayable
        [Planner.mkReason Planner.ReasonNoReplica "no peer holds these bytes"] "" false) as Hplan.
      { subst plan. unfold Routing.replicasOf. by rewrite Hsrc. }
      rewrite Hplan in Hb. replace (if bForce b then _ else _) with plan in Hb by (rewrite Hplan; by destruct (bForce b)).
      rewrite Hplan in Hb. cbn in Hb. unfold playbackRefusal in Hb. cbn in Hb. injection Hb as <- <-.
      eexists. split; [done|]. split; [done|]. intros Hne id row Hrow.
      destruct (RoutingSpec.route_serving (fabric n) blob Hne Hone) as [Hall Hno]. rewrite <- Hroute, Hsrc in Hno.
      rewrite <- Hroute in Hall. split; [by eapply Hno|].
      destruct (Hall id row Hrow) as (r & Hin & _ & Hname & Hreasons); [intros w why'; by rewrite Hsrc|].
      destruct (refusal_lines route r Hsrc Hin) as (a & z & E). exists r, a. eexists. split_and!; [done..|].
      rewrite E. by rewrite !string_app_assoc.
Qed.
End begin.

(** When the bytes are at another site and need re-encoding, the refusal's one reason is the
    distance, which has nothing to do with it. *)
Lemma distance_is_blamed media device peer :
  Planner.DecisionOf (Planner.Choose media device [Planner.mkReplica peer false]) ≠ Planner.DecisionDirect →
  ∃ rest, Planner.Reasons (Planner.Choose media device [Planner.mkReplica peer false]) =
    Planner.mkReason Planner.ReasonRemoteReplicaOnly "the only replica is at another site; §31 prefers a local one" :: rest.
Proof.
  intros _. destruct (PlannerSpec.Choose_eq media device [Planner.mkReplica peer false] (Planner.mkReplica peer false) eq_refl)
    as (dec & reasons & -> & _). by exists reasons.
Qed.

(** ** Instances *)

Section witnesses.
#[local] Instance demoTags : LanguageTags := λ s, if bool_decide (s = "") then None else Some s.
#[local] Instance demoHMAC : HMAC := λ secret p, secret +:+ p.

Definition demoFabric : Routing.Fabric :=
  Routing.mkFabric
    {[ "p1" := Routing.mkPeerRow "attic" "home" None true "unknown";
       "p2" := Routing.mkPeerRow "cabin" "lake" (Some "https://cabin/") false "reachable" ]}
    {[ ("blake3:00", "p2") := "present"; ("blake3:00", "p1") := "corrupt" ]}.

Definition demoSteps : list Step :=
  [SAsset "a1" (Playback.mkAsset (Some "blake3:00") None); SDevice "d1" (mkDevice "k" "web")].

Definition demoNode (video : string) (f : Routing.Fabric) : Node :=
  mkNode (RendererProgress.db (run demoSteps)) {[ "d1" := Some (Planner.mkProfile ["mp4"] ["h264"] ["aac"] 0 0 0 false) ]}
    {[ "blake3:00" := mkProbe "mov,mp4" None (Some [mkStream "video" video "High" 1280 720 0 "" "" false false;
                                                    mkStream "audio" "aac" "" 0 0 2 "eng" "" false false]) ]}
    {[ "a1" := Some "video/mp4" ]} f [].

Definition demoBegin : Begin := mkBegin "a1" "d1" "" false None "s1" "secret" 1000.
Definition demoMint : Minter := mkMinter "k" "http://node:8080" "p1".

Lemma demoFabric_one : RoutingSpec.one_self demoFabric.
Proof.
  intros i j p q Hi Hj Hp Hq. unfold demoFabric in *. cbn [Routing.peers] in *.
  apply lookup_insert_Some in Hi as [[<- <-]|[_ Hi]]; [|apply lookup_singleton_Some in Hi as [<- <-]; done].
  apply lookup_insert_Some in Hj as [[<- <-]|[_ Hj]]; [done|apply lookup_singleton_Some in Hj as [<- <-]; done].
Qed.

Lemma begin_serves_witness :
  ∃ s n', beginPlayback demoMint noFaults (λ d, d) demoBegin (demoNode "h264" demoFabric) = (inr s, n') ∧
    ContentURL s = "https://cabin/api/v1/blobs/blake3:00/content" ∧ sound (db n').
Proof.
  destruct (beginPlayback demoMint noFaults (λ d, d) demoBegin (demoNode "h264" demoFabric)) as [[p|s] n'] eqn:E;
    [exfalso; by vm_compute in E|].
  exists s, n'. split; [reflexivity|].
  assert (sound (db (demoNode "h264" demoFabric))) as Hs by (apply run_sound; by repeat constructor).
  destruct (begin_serves demoMint noFaults (λ d, d) demoBegin (demoNode "h264" demoFabric) s n' E demoFabric_one Hs)
    as (asset & blob & device & media & peer & verb & _ & _ & _ & _ & _ & _ & _ & _ & _ & _ & _ & _ & Hsound).
  split; [|exact Hsound]. vm_compute in E. injection E as <- _. reflexivity.
Defined.

Lemma begin_refuses_witness :
  ∃ p, beginPlayback demoMint noFaults (λ d, d) demoBegin (demoNode "vc1" demoFabric) = (inl p, demoNode "vc1" demoFabric) ∧
    ∃ a z, p = ProblemConflict (a +:+ Planner.DecisionTranscode +:+ z).
Proof.
  destruct (beginPlayback demoMint noFaults (λ d, d) demoBegin (demoNode "vc1" demoFabric)) as [[p|s] n'] eqn:E;
    [|exfalso; by vm_compute in E].
  destruct (begin_refuses demoMint noFaults (λ d, d) demoBegin (demoNode "vc1" demoFabric) p n' E demoFabric_one)
    as [_ H].
  destruct (readPlan noFaults (demoNode "vc1" demoFabric) (bAsset demoBegin) (bDevice demoBegin)) as [|[[[dev med] blob] route]] eqn:Er;
    [exfalso; by vm_compute in Er|].
  specialize (H dev med blob route eq_refl).
  vm_compute in Er. injection Er as <- <- <- <-. cbn zeta in H. cbn [Routing.dSource] in H.
  destruct (H eq_refl) as (r & rs & a & z & _ & Hn & Hp & _); [by vm_compute|].
  exists p. split; [by rewrite Hn|]. exists a, z. exact Hp.
Defined.
End witnesses.
