(* ===== verification/StreamPlan.v ===== *)
(** * StreamPlan: the plan of a client that is no registered device

    Models src/internal/api/resources/streamtoken.go (the signed address of a stream) and
    playbackstream.go (the plan with its leg, probing on demand, and the stream route up to
    the repackager it starts).  The HMAC and the language tags are the parameters of
    Capability.v and StartPlayback.v; what a probe of local bytes finds is a function of the
    blob, and what the repackager does an input.  The runtime of a source, which only the
    client shows, is left out. *)

From S2P Require Import Planner Routing.
From S2P Require Import Prelude GoText GoPath GoScan GoEncoding GoTime Schedule Playback Capability StartPlayback.

(** ** Stream tokens (streamtoken.go) *)

Definition streamTokenVersion : string := "s2".
Definition streamTokenTTL : Z := Hour.

Inductive TokenError :=
  | errStreamTokenMalformed | errStreamTokenSignature | errStreamTokenExpired | errStreamTokenSubject
  | errNoKey | errIncomplete.

#[export] Instance TokenError_eq_dec : EqDecision TokenError.
Proof. solve_decision. Defined.

Record streamToken := mkStreamToken {
  stBlob : string;
  stSubject : string;
  stCopyVideo : bool;
  stCopyAudio : bool;
  stMaxHeight : Z;
  stAudioTrack : Z;
  stExpires : Z;
}.

#[export] Instance streamToken_eq_dec : EqDecision streamToken.
Proof. solve_decision. Defined.

(** Who asks: anonymous, or a principal with a token. *)
Record Identity := mkIdentity { Anonymous : bool; PrincipalID : string; TokenID : string; TokenName : string }.

Definition streamSubject (id : Identity) : string :=
  if Anonymous id then "anonymous"
  else if bool_decide (TokenID id ≠ "") then PrincipalID id +:+ "/token:" +:+ TokenID id
  else PrincipalID id +:+ "/" +:+ TokenName id.

Section tokens.
Context `{HMAC}.

Definition streamKey (secret : string) : string := sign secret "heyarr playback stream token s1".

Definition flagsOf (t : streamToken) : Z :=
  Z.lor (if stCopyVideo t then 1 else 0) (if stCopyAudio t then 2 else 0).

Definition tokenFields (t : streamToken) : list string :=
  [streamTokenVersion; encode (stBlob t); encode (stSubject t); FormatInt (flagsOf t); FormatInt (stMaxHeight t);
   FormatInt (Unix (stExpires t)); FormatInt (stAudioTrack t)].

Definition tokenPayload (t : streamToken) : string := Join (tokenFields t) ".".

Definition signToken (t : streamToken) (key : string) : TokenError + string :=
  if bool_decide (key = "") then inl errNoKey
  else if (stAudioTrack t <? 0)%Z then inl errStreamTokenMalformed
  else if bool_decide (stBlob t = "") || bool_decide (stSubject t = "") || bool_decide (stExpires t = zeroTime)
  then inl errIncomplete
  else inr (tokenPayload t +:+ "." +:+ encode (sign key (tokenPayload t))).

(** The six fields both versions have, with the track of the second. *)
Definition readToken (blob subj flags height unix : string) (track : option Z) : TokenError + streamToken :=
  match decode blob, decode subj, ParseInt flags, ParseInt height, ParseInt unix, track with
  | Some blob, Some subj, Some flags, Some height, Some unix, Some track =>
      if (flags <? 0)%Z || (3 <? flags)%Z then inl errStreamTokenMalformed
      else if (height <? 0)%Z then inl errStreamTokenMalformed
      else if (track <? 0)%Z then inl errStreamTokenMalformed
      else inr (mkStreamToken blob subj (negb (Z.land flags 1 =? 0)%Z) (negb (Z.land flags 2 =? 0)%Z) height track
                  (atUnix unix))
  | _, _, _, _, _, _ => inl errStreamTokenMalformed
  end.

Definition readTokenFields (fs : list string) : TokenError + streamToken :=
  match fs with
  | [v; blob; subj; flags; height; unix] =>
      if bool_decide (v = "s1") then readToken blob subj flags height unix (Some 0%Z) else inl errStreamTokenMalformed
  | [v; blob; subj; flags; height; unix; track] =>
      if bool_decide (v = streamTokenVersion) then readToken blob subj flags height unix (ParseInt track)
      else inl errStreamTokenMalformed
  | _ => inl errStreamTokenMalformed
  end.

Definition verifyStreamToken (key token subject : string) (now : Z) : TokenError + streamToken :=
  if bool_decide (key = "") then inl errNoKey
  else match CutLast "." token with
  | None => inl errStreamTokenMalformed
  | Some (payload, signature) =>
      match decode signature with
      | None => inl errStreamTokenMalformed
      | Some got =>
          if bool_decide (sign key payload ≠ got) then inl errStreamTokenSignature
          else match readTokenFields (SplitByte "." payload) with
          | inl e => inl e
          | inr t =>
              if negb (now <? stExpires t)%Z then inl errStreamTokenExpired
              else if bool_decide (stSubject t ≠ subject) then inl errStreamTokenSubject
              else inr t
          end
      end
  end.
End tokens.

(** ** The plan of a client (playbackstream.go) *)

Record ClientCaps := mkCaps {
  ccContainers : list string; ccVideo : list string; ccAudio : list string; ccMaxHeight : Z;
  ccLanguages : option (list string);    (** absent, or an override *)
  ccTrack : option Z;
}.

Definition profileOf (c : ClientCaps) : Planner.ClientProfile :=
  Planner.mkClient (ccContainers c) (ccVideo c) (ccAudio c) (ccMaxHeight c).

Record AudioTrackInfo := mkTrack {
  Ordinal : nat; TrackLanguage : string; TrackTitle : string; TrackCodec : string; TrackChannels : Z; Commentary : bool }.

Definition audioTrackInfos (streams : list Stream) : list AudioTrackInfo :=
  imap (λ i s, mkTrack i (sLanguage s) (sTitle s) (sCodec s) (sChannels s) (sCommentary s))
    (filter (λ s, sType s = "audio") streams).

Definition selectAudioTrack (media : Planner.MediaProfile) (streams : list Stream) (ordinal : Z)
    : option Planner.MediaProfile :=
  track ← head (filter (λ t, Z.of_nat (Ordinal t) = ordinal) (audioTrackInfos streams));
  Some (Planner.mkMedia (Planner.Known media) (Planner.Container media) (Planner.VideoCodec media)
          (Planner.Width media) (Planner.Height media) (Planner.HDR media) (TrackCodec track)
          (Z.of_nat (Ordinal track)) (TrackLanguage track) (TrackChannels track) (Planner.BitrateBPS media)).

Record SourceInfo := mkSource {
  siContainer : string; siVideo : string; siAudio : string; siTrack : Z; siLanguage : string;
  siTracks : list AudioTrackInfo; siWidth : Z; siHeight : Z }.

Definition ModeDirect : string := "direct".
Definition ModeStream : string := "stream".
Definition ModeUnplayable : string := "unplayable".
Definition streamMIME : string := "video/mp4".
Definition streamPath : string := "/api/v1/playback/stream/".

(** What the node brings to a stream: its key, whether it has the repackager, what it can
    find by probing a blob it holds (nothing without ffprobe, or for bytes it does not
    hold), whether that is cached, the languages it prefers and where a blob's file is. *)
Record Streaming := mkStreaming {
  skey : string;
  hasStreamer : bool;
  probeNow : string → option Result;
  cacheFails : bool;
  nodeLanguages : list string;
  sourcePath : string → option string;
}.

Record ClientPlan := mkClientPlan {
  cpPlan : PlanResponse; cpMode : string; cpURL : string; cpMIME : string; cpReason : string;
  cpSource : option SourceInfo }.

Definition assetMIME (f : Faults) (n : Node) (assetID : string) : string :=
  if fMime f then "" else default "" (mjoin (mimes n !! assetID)).

(** RecordProbe: the row of the probe, by digest. *)
Definition recordProbe (h : string) (r : Result) (n : Node) : Node :=
  mkNode (db n) (declared n)
    (<[h := mkProbe (rContainer r) (if (rBitrate r =? 0)%Z then None else Some (rBitrate r)) (Some (rStreams r))]> (probes n))
    (mimes n) (fabric n) (tokens n).

Section plans.
Context `{LanguageTags, HMAC}.

(** What is known of the media: the stored probe, or one made now. *)
Definition knownMedia (s : Streaming) (n : Node) (blobHash : string) (languages : list string)
    (media : Planner.MediaProfile) : Planner.MediaProfile * list Stream * Node :=
  if Planner.Known media then
    (media, default [] (probes n !! blobHash ≫= pStreams), n)
  else if bool_decide (blobHash ≠ "") then
    match probeNow s blobHash with
    | Some r => (profileFromProbe r languages, rStreams r, if cacheFails s then n else recordProbe blobHash r n)
    | None => (media, [], n)
    end
  else (media, [], n).

Definition sourceInfo (media : Planner.MediaProfile) (streams : list Stream) : option SourceInfo :=
  if Planner.Known media then
    Some (mkSource (Planner.Container media) (Planner.VideoCodec media) (Planner.AudioCodec media)
            (Planner.AudioTrack media) (Planner.AudioLanguage media) (audioTrackInfos streams)
            (Planner.Width media) (Planner.Height media))
  else None.

(** The leg of the answer. *)
Definition legAnswer (f : Faults) (s : Streaming) (n : Node) (assetID blobHash : string) (id : Identity) (now : Z)
    (media : Planner.MediaProfile) (client : Planner.ClientProfile) (route : Routing.Decision_)
    : Problem + string * string * string * string :=
  let leg := Planner.Negotiate media client in
  let direct reason := inr (ModeDirect, Routing.contentURLFor route blobHash, assetMIME f n assetID, reason) in
  match Planner.Mode leg with
  | Planner.LegDirect => direct (Planner.LegReason leg)
  | Planner.LegStream =>
      if negb (hasStreamer s) then
        direct (Planner.LegReason leg +:+ "; this node has no ffmpeg, so the bytes are handed over as they are")
      else if negb (match Routing.dSource route with Some (c, _) => Routing.IsSelf c | None => false end) then
        direct (Planner.LegReason leg +:+
          "; the replica is on another peer, and a stream is produced only by the peer holding the bytes")
      else
        match signToken (mkStreamToken blobHash (streamSubject id) (Planner.CopyVideo leg) (Planner.CopyAudio leg)
                           (Planner.TargetHeight leg) (Planner.AudioTrack media) (now + streamTokenTTL)%Z) (skey s) with
        | inl _ => inl ProblemInternal
        | inr token => inr (ModeStream, streamPath +:+ token, streamMIME, Planner.LegReason leg)
        end
  end.

(** planForClient, from the media that were read or probed. *)
Definition planMedia (f : Faults) (s : Streaming) (n : Node) (assetID deviceID blobHash : string) (caps : ClientCaps)
    (id : Identity) (now : Z) (media : Planner.MediaProfile) (streams : list Stream) : Problem + ClientPlan :=
  match (match ccTrack caps with None => Some media | Some o => selectAudioTrack media streams o end) with
  | None => inl ProblemBadRequest
  | Some media =>
      let client := profileOf caps in
      match (if bool_decide (deviceID = "") then inr (Planner.asDevice client) else deviceProfile f n deviceID) with
      | inl e => inl (problemFor "device" e)
      | inr device =>
          match routeBlob f n blobHash with
          | inl e => inl (problemFor "replica" e)
          | inr route =>
              let plan := Planner.Choose media device (Routing.replicasOf route) in
              let out := renderPlan assetID deviceID plan route blobHash in
              let source := sourceInfo media streams in
              if bool_decide (Planner.DecisionOf plan = Planner.DecisionUnplayable) then
                inr (mkClientPlan out ModeUnplayable "" "" (Routing.Refusal route) source)
              else match legAnswer f s n assetID blobHash id now media client route with
              | inl p => inl p
              | inr (mode, url, mime, reason) => inr (mkClientPlan out mode url mime reason source)
              end
          end
      end
  end.

Definition planForClient (f : Faults) (s : Streaming) (n : Node) (assetID deviceID : string) (caps : ClientCaps)
    (id : Identity) (now : Z) : (Problem + ClientPlan) * Node :=
  let languages := default (nodeLanguages s) (ccLanguages caps) in
  if existsb (λ tag, bool_decide (BaseOf tag = None)) languages then (inl ProblemBadRequest, n)
  else match mediaProfile f n assetID languages with
  | inl e => (inl (problemFor "asset" e), n)
  | inr (media, blobHash) =>
      let '(media, streams, n) := knownMedia s n blobHash languages media in
      (planMedia f s n assetID deviceID blobHash caps id now media streams, n)
  end.

(** planPlayback with a client in the body. *)
Definition planWithClient (f : Faults) (s : Streaming) (n : Node) (assetID deviceID : string) (caps : ClientCaps)
    (id : Identity) (now : Z) : (Problem + ClientPlan) * Node :=
  if negb (required assetID) then (inl ProblemBadRequest, n)
  else planForClient f s n assetID deviceID caps id now.

(** ** The stream route *)

Record StreamSpec := mkSpec {
  spSource : string; spCopyVideo : bool; spCopyAudio : bool; spMaxHeight : Z; spStart : string; spAudioTrack : Z }.

(** How the repackager ends: done (or the client left), every slot taken, or an error before
    or after the first byte. *)
Inductive Streamed := StreamedOK | StreamedBusy | StreamedEarly | StreamedFailed.

Inductive StreamAnswer :=
  | StreamNotFound | StreamBadStart | StreamBytes (spec : StreamSpec) (whole : bool) | StreamBusy | StreamInternal.

(** [readStart] is how ?start= reads: [None] when it is not a number of seconds. *)
Definition streamPlayback (s : Streaming) (token : string) (id : Identity) (start : string)
    (readStart : string → option string) (run : StreamSpec → Streamed) (now : Z) : StreamAnswer :=
  match verifyStreamToken (skey s) token (streamSubject id) now with
  | inl _ => StreamNotFound
  | inr tok =>
      match (if bool_decide (start = "") then Some "0" else readStart start) with
      | None => StreamBadStart
      | Some from =>
          if negb (hasStreamer s) then StreamNotFound
          else match sourcePath s (stBlob tok) with
          | None => StreamNotFound
          | Some path =>
              let spec := mkSpec path (stCopyVideo tok) (stCopyAudio tok) (stMaxHeight tok) from (stAudioTrack tok) in
              match run spec with
              | StreamedOK => StreamBytes spec true
              | StreamedBusy => StreamBusy
              | StreamedEarly => StreamBytes spec false
              | StreamedFailed => StreamInternal
              end
          end
      end
  end.
End plans.
