(* ===== verification/StreamPlanSpec.v ===== *)
(** * StreamPlanSpec: what a client's plan promises

    A stream token carries the repackage that was decided, for one blob and one caller, until
    it expires; and what a client is told to fetch is there: the bytes at a peer that holds
    them, or a stream this node makes of bytes it holds itself. *)

From S2P Require Import Planner PlannerSpec Routing RoutingSpec.
From S2P Require Import Prelude GoText GoPath GoScan GoEncoding GoTime Schedule.
From S2P Require Import Playback Capability CapabilitySpec StartPlayback StartPlaybackSpec StreamPlan.
#[local] Open Scope Z_scope.

(** ** Tokens *)

(** The numbers of a token are a second of 64 bits, and a height and a track of one. *)
Definition token_ok (t : streamToken) : Prop :=
  - 2 ^ 63 ≤ Unix (stExpires t) < 2 ^ 63 ∧ 0 ≤ stMaxHeight t < 2 ^ 63 ∧ 0 ≤ stAudioTrack t < 2 ^ 63.

(** What a token keeps: the expiry to the second. *)
Definition keptToken (t : streamToken) : streamToken :=
  mkStreamToken (stBlob t) (stSubject t) (stCopyVideo t) (stCopyAudio t) (stMaxHeight t) (stAudioTrack t)
    (atUnix (Unix (stExpires t))).

Section tokens.
Context `{HMAC}.

Lemma split_token t : SplitByte "." (tokenPayload t) = tokenFields t.
Proof.
  apply SplitByte_Join; [done|]. unfold tokenFields. repeat constructor; first [done|by apply has_byte_Encode|by apply has_byte_FormatInt].
Qed.

Lemma read_token t : token_ok t → readTokenFields (tokenFields t) = inr (keptToken t).
Proof.
  intros (Hu & Hh & Ht). unfold tokenFields, readTokenFields. rewrite bool_decide_eq_true_2 by done.
  assert (0 ≤ flagsOf t ≤ 3) as Hf by (unfold flagsOf; destruct (stCopyVideo t), (stCopyAudio t); split; by vm_compute).
  unfold readToken, decode, encode. rewrite !DecodeString_Encode.
  rewrite (ParseInt_FormatInt (flagsOf t)), (ParseInt_FormatInt (stMaxHeight t)), (ParseInt_FormatInt (Unix (stExpires t))),
    (ParseInt_FormatInt (stAudioTrack t)) by lia.
  destruct (Z.ltb_spec (flagsOf t) 0), (Z.ltb_spec 3 (flagsOf t)), (Z.ltb_spec (stMaxHeight t) 0),
    (Z.ltb_spec (stAudioTrack t) 0); try lia; cbn [orb].
  unfold keptToken, flagsOf. by destruct (stCopyVideo t), (stCopyAudio t).
Qed.

Lemma signToken_inv t key tok : signToken t key = inr tok →
  key ≠ "" ∧ 0 ≤ stAudioTrack t ∧ tok = tokenPayload t +:+ String "." (encode (sign key (tokenPayload t))).
Proof.
  unfold signToken. case_bool_decide; [done|]. destruct (Z.ltb_spec (stAudioTrack t) 0); [done|].
  destruct (_ || _); [done|]. by intros [= <-].
Qed.

Lemma verify_signed key t subject now : key ≠ "" → token_ok t →
  verifyStreamToken key (tokenPayload t +:+ String "." (encode (sign key (tokenPayload t)))) subject now =
    if now <? atUnix (Unix (stExpires t))
    then if decide (stSubject t = subject) then inr (keptToken t) else inl errStreamTokenSubject
    else inl errStreamTokenExpired.
Proof.
  intros Hk Ht. unfold verifyStreamToken. rewrite bool_decide_eq_false_2 by done.
  rewrite CutLast_app by (by apply has_byte_Encode). unfold decode, encode.
  rewrite DecodeString_Encode, bool_decide_eq_false_2 by auto. rewrite split_token, read_token by done. cbn [stExpires stSubject keptToken].
  destruct (now <? _); [|done]. cbn [negb]. destruct (decide (stSubject t = subject)).
  - by rewrite bool_decide_eq_false_2 by auto.
  - by rewrite bool_decide_eq_true_2.
Qed.

(** A stream token is worth what was signed and nothing else: it is accepted only from the
    caller it was minted for, before it expires, with the signature of its payload under
    this node's key; and where the payload is that of a token this node signed, it grants
    exactly that token, its copies, height and track included. *)
Theorem stream_token_binds key tok subject now t : verifyStreamToken key tok subject now = inr t →
  ∃ p sg, tok = p +:+ String "." sg ∧ decode sg = Some (sign key p) ∧ now < stExpires t ∧ stSubject t = subject ∧
    ∀ t0, tokenPayload t0 = p → token_ok t0 → t = keptToken t0.
Proof.
  unfold verifyStreamToken. case_bool_decide; [done|]. destruct (CutLast "." tok) as [[p sg]|] eqn:Ec; [|done].
  destruct (decode sg) as [got|] eqn:Ed; [|done]. case_bool_decide as Hs; [done|].
  destruct (readTokenFields (SplitByte "." p)) as [e|t'] eqn:Er; [done|].
  destruct (Z.ltb_spec now (stExpires t')); cbn [negb]; [|done]. case_bool_decide as Hsub; [done|]. intros [= <-].
  apply CutLast_spec in Ec as [-> _]. exists p, sg. split_and!; try done.
  - by rewrite Ed, Hs.
  - intros t0 <- Ht. rewrite split_token, read_token in Er by done. by injection Er.
Qed.
End tokens.

(** ** Plans *)

Section plans.
Context `{LanguageTags, HMAC}.

(** What a peer of the fabric serves, at its URL. *)
Definition fetched (fab : Routing.Fabric) (peer blob url : string) : Prop :=
  ∃ row, Routing.peers fab !! peer = Some row ∧ RoutingSpec.serves fab blob peer row ∧
    url = Routing.BlobURL (if Routing.pSelf row then "" else Routing.TrimSuffixByte "/" (default "" (Routing.pEndpoint row))) blob.

Lemma routed n f blob route : RoutingSpec.one_self (fabric n) → routeBlob f n blob = inr route →
  match Routing.dSource route with
  | Some (c, _) => fetched (fabric n) (Routing.PeerID c) blob (Routing.contentURLFor route blob) ∧
      (∀ row, Routing.peers (fabric n) !! Routing.PeerID c = Some row → Routing.pSelf row = Routing.IsSelf c) ∧ blob ≠ ""
  | None => blob = "" ∨ ∀ id row, Routing.peers (fabric n) !! id = Some row → ¬ RoutingSpec.serves (fabric n) blob id row
  end.
Proof.
  intros Hone Hr. unfold routeBlob in Hr. case_bool_decide as Hb.
  { injection Hr as <-. by left. }
  destruct (fRoute f); [done|]. injection Hr as <-.
  destruct (RoutingSpec.route_serving (fabric n) blob Hb Hone) as [_ Hs].
  destruct (Routing.dSource _) as [[c why]|] eqn:Es; [|by right].
  destruct Hs as (row & Hrow & Hserve & Hurl & _). split_and!; [by exists row| |done].
  intros row' Hrow'. assert (row' = row) as -> by congruence. by apply (RoutingSpec.source_self (fabric n) blob c why).
Qed.


(** The one way a client's plan is made. *)
Lemma planForClient_inv f s n asset device caps id now cp n' :
  planForClient f s n asset device caps id now = (inr cp, n') →
  ∃ media0 blob streams media route deviceP,
    let languages := default (nodeLanguages s) (ccLanguages caps) in
    Forall (λ tag, BaseOf tag ≠ None) languages ∧
    mediaProfile f n asset languages = inr (media0, blob) ∧
    (n' = n ∨ ∃ r, Planner.Known media0 = false ∧ probeNow s blob = Some r ∧ n' = recordProbe blob r n) ∧
    routeBlob f n' blob = inr route ∧
    cpSource cp = sourceInfo media streams ∧
    let plan := Planner.Choose media deviceP (Routing.replicasOf route) in
    cpPlan cp = renderPlan asset device plan route blob ∧
    if bool_decide (Planner.DecisionOf plan = Planner.DecisionUnplayable)
    then cpMode cp = ModeUnplayable ∧ cpURL cp = "" ∧ cpReason cp = Routing.Refusal route
    else legAnswer f s n' asset blob id now media (profileOf caps) route =
           inr (cpMode cp, cpURL cp, cpMIME cp, cpReason cp).
Proof.
  unfold planForClient. set (languages := default (nodeLanguages s) (ccLanguages caps)).
  destruct (existsb _ languages) eqn:El; [done|].
  destruct (mediaProfile f n asset languages) as [|[media0 blob]] eqn:Em; [done|].
  destruct (knownMedia s n blob languages media0) as [[media1 streams] n1] eqn:Ek.
  unfold planMedia. destruct (match ccTrack caps with None => _ | Some o => _ end) as [media|]; [|done].
  destruct (if bool_decide (device = "") then _ else _) as [|deviceP]; [done|].
  destruct (routeBlob f n1 blob) as [|route] eqn:Er; [done|]. cbv zeta. intros Hcp.
  assert (n' = n1) as -> by congruence.
  assert (Forall (λ tag, BaseOf tag ≠ None) languages) as HF.
  { apply Forall_forall. intros tag Htag E. apply not_true_iff_false in El. apply El. apply existsb_exists.
    exists tag. split; [by apply list_elem_of_In|]. by apply bool_decide_eq_true_2. }
  exists media0, blob, streams, media, route, deviceP. split_and!; try done.
  - unfold knownMedia in Ek. destruct (Planner.Known media0) eqn:Eknown; [left; congruence|].
    destruct (bool_decide (blob ≠ "")); [|left; congruence]. destruct (probeNow s blob) as [r|] eqn:Ep; [|left; congruence].
    destruct (cacheFails s); [left; congruence|right]. exists r. split_and!; congruence.
  - destruct (bool_decide _); [by injection Hcp as <-|]. destruct (legAnswer _ _ _ _ _ _ _ _ _ _) as [|[[[? ?] ?] ?]]; [done|].
    by injection Hcp as <-.
  - destruct (bool_decide _); [by injection Hcp as <-|]. destruct (legAnswer _ _ _ _ _ _ _ _ _ _) as [|[[[? ?] ?] ?]]; [done|].
    by injection Hcp as <-.
  - destruct (bool_decide _); [by injection Hcp as <-|]. destruct (legAnswer _ _ _ _ _ _ _ _ _ _) as [|[[[? ?] ?] ?]]; [done|].
    by injection Hcp as <-.
Qed.

(** What the stream route answers to a token this node signed. *)
Lemma stream_of_token s t id start readStart run now : skey s ≠ "" → token_ok t → hasStreamer s = true →
  streamPlayback s (tokenPayload t +:+ String "." (encode (sign (skey s) (tokenPayload t)))) id start readStart run now =
    if now <? atUnix (Unix (stExpires t))
    then if decide (stSubject t = streamSubject id)
         then match (if bool_decide (start = "") then Some "0" else readStart start) with
              | None => StreamBadStart
              | Some from =>
                  match sourcePath s (stBlob t) with
                  | None => StreamNotFound
                  | Some path =>
                      let spec := mkSpec path (stCopyVideo t) (stCopyAudio t) (stMaxHeight t) from (stAudioTrack t) in
                      match run spec with
                      | StreamedOK => StreamBytes spec true | StreamedBusy => StreamBusy
                      | StreamedEarly => StreamBytes spec false | StreamedFailed => StreamInternal
                      end
                  end
              end
         else StreamNotFound
    else StreamNotFound.
Proof.
  intros Hk Ht Hs. unfold streamPlayback. rewrite verify_signed by done. destruct (now <? _); [|done].
  destruct (decide (stSubject t = streamSubject id)); [|done]. by rewrite Hs.
Qed.

(** C25. What a client is told to fetch is there.  Sent to the bytes, it gets the URL of a peer
    that holds them and can be read from.  Sent to a stream, this node is the source of the
    route and holds the bytes, and the address it gets makes this node repackage exactly that
    blob for that caller until the second its hour ends in: each stream copied exactly when
    the client decodes it and the container carries it, scaled to the client's height exactly
    when the picture is too tall, the audio the plan named; no one else, and nothing later.
    Told that nothing can be played, no peer could have served the bytes. *)
Theorem client_plan_serves f s n asset device caps id now cp n' :
  planForClient f s n asset device caps id now = (inr cp, n') → RoutingSpec.one_self (fabric n') →
  - 2 ^ 63 ≤ Unix (now + streamTokenTTL) < 2 ^ 63 → ccMaxHeight caps < 2 ^ 63 →
  ∃ row media streams, assets (db n) !! asset = Some row ∧ cpSource cp = sourceInfo media streams ∧
    let blob := default "" (Playback.BlobHash row) in
    if decide (cpMode cp = ModeUnplayable)
    then blob = "" ∨ ∀ peer p, Routing.peers (fabric n') !! peer = Some p → ¬ RoutingSpec.serves (fabric n') blob peer p
    else if decide (cpMode cp = ModeDirect) then fetched (fabric n') (prPeer (cpPlan cp)) blob (cpURL cp)
    else cpMode cp = ModeStream ∧
      fetched (fabric n') (prPeer (cpPlan cp)) blob (Routing.BlobURL "" blob) ∧
      ∃ token copyVideo copyAudio height, cpURL cp = streamPath +:+ token ∧
        (copyVideo = true ↔ PlannerSpec.videoCopies media (profileOf caps)) ∧
        (copyAudio = true ↔ PlannerSpec.audioCopies media (profileOf caps)) ∧
        height = (if decide (Planner.VideoCodec media ≠ "" ∧ PlannerSpec.tooTall media (profileOf caps))
                  then ccMaxHeight caps else 0) ∧
        (Planner.AudioTrack media < 2 ^ 63 →
         ∀ id' t path, sourcePath s blob = Some path →
           streamPlayback s token id' "" Some (λ _, StreamedOK) t =
             if decide (t < atUnix (Unix (now + streamTokenTTL)) ∧ streamSubject id' = streamSubject id)
             then StreamBytes (mkSpec path copyVideo copyAudio height "0" (Planner.AudioTrack media)) true
             else StreamNotFound).
Proof.
  intros Hcp Hone Hnow Hh. destruct (planForClient_inv _ _ _ _ _ _ _ _ _ _ Hcp)
    as (media0 & blob & streams & media & route & deviceP & _ & Hmed & Hn & Hroute & Hsrc & Hplan & Hans).
  destruct (mediaProfile_blob f n asset _ _ _ Hmed) as (row & Hrow & Hblob & _).
  exists row, media, streams. split; [done|]. split; [done|]. cbv zeta. rewrite Hblob.
  pose proof (routed n' f blob route Hone Hroute) as Hr.
  destruct (bool_decide _) eqn:Eu.
  { destruct Hans as (-> & _ & _). rewrite decide_True by done. apply bool_decide_eq_true in Eu.
    destruct (Routing.dSource route) as [[c why]|] eqn:Es; [|done]. exfalso.
    pose proof (PlannerSpec.choose_parts media deviceP (Routing.replicasOf route)) as Hp. cbn zeta in Hp.
    unfold Routing.replicasOf in Hp, Eu. rewrite Es in Hp, Eu. rewrite decide_False in Hp by done.
    destruct Hp as [[[E _]|[[E _]|[E _]]] _]; rewrite E in Eu; done. }
  apply bool_decide_eq_false in Eu.
  destruct (Routing.dSource route) as [[c why]|] eqn:Es.
  2:{ exfalso. apply Eu. unfold Routing.replicasOf. by rewrite Es. }
  destruct Hr as (Hf & Hself & Hne).
  assert (prPeer (cpPlan cp) = Routing.PeerID c) as HP.
  { rewrite Hplan. cbn. pose proof (PlannerSpec.choose_parts media deviceP (Routing.replicasOf route)) as Hp. cbn zeta in Hp.
    unfold Routing.replicasOf in Hp |- *. rewrite Es in Hp |- *. rewrite decide_False in Hp by done.
    destruct Hp as (_ & r & [->|[]%not_elem_of_nil]%elem_of_cons & HPr & _). exact HPr. }
  rewrite HP. unfold legAnswer in Hans. rewrite Es in Hans.
  pose proof (PlannerSpec.leg_plays media (profileOf caps)) as Hleg. cbn zeta in Hleg.
  destruct (Planner.Mode (Planner.Negotiate media (profileOf caps))) eqn:Em.
  { injection Hans as E1 E2 _ _. rewrite <- E1, <- E2. by rewrite decide_False, decide_True. }
  destruct (hasStreamer s) eqn:Est; cbn [negb] in Hans.
  2:{ injection Hans as E1 E2 _ _. rewrite <- E1, <- E2. by rewrite decide_False, decide_True. }
  destruct (Routing.IsSelf c) eqn:Eself; cbn [negb] in Hans.
  2:{ injection Hans as E1 E2 _ _. rewrite <- E1, <- E2. by rewrite decide_False, decide_True. }
  destruct (signToken _ _) as [|token] eqn:Esign; [done|]. injection Hans as E1 E2 _ _. rewrite <- E1, <- E2.
  rewrite !decide_False by done. split; [done|]. split.
  { destruct Hf as (p & Hp & Hs & Hurl). exists p. split_and!; [done..|]. by rewrite (Hself p Hp). }
  destruct (negb (Planner.Known media)); [by destruct Hleg; congruence|].
  destruct (negb (Planner.ClientDeclares (profileOf caps))); [by destruct Hleg; congruence|].
  destruct (decide (PlannerSpec.containerPlays _ _ ∧ _)) as [|Hnot]; [by rewrite Hleg in Em|].
  destruct Hleg as (_ & HV & HA & HT & _).
  apply signToken_inv in Esign as (Hkey & Htrack & ->). cbn [stAudioTrack] in Htrack.
  eexists _, _, _, _. split; [done|]. split; [exact HV|]. split; [exact HA|]. split; [exact HT|].
  intros Htr id' t path Hpath.
  rewrite stream_of_token; [|done| |done].
  - cbn [stBlob stSubject stExpires stCopyVideo stCopyAudio stMaxHeight stAudioTrack]. rewrite Hpath. cbv zeta.
    destruct (Z.ltb_spec t (atUnix (Unix (now + streamTokenTTL)))) as [Hlt|Hge].
    + destruct (decide (streamSubject id = streamSubject id')) as [E|E].
      * rewrite decide_True by auto. done.
      * rewrite decide_False by naive_solver. done.
    + rewrite decide_False by lia. done.
  - split_and!; cbn [stExpires stMaxHeight stAudioTrack]; try lia; rewrite HT;
      destruct (decide _) as [[_ [? ?]]|]; cbn [profileOf Planner.cMaxHeight] in *; lia.
Qed.
End plans.

(** ** Instances *)

Section witnesses.
#[local] Instance plainTags : LanguageTags := λ s, if bool_decide (s = "") then None else Some s.
#[local] Instance plainHMAC : HMAC := λ secret p, secret +:+ p.

Definition homeFabric : Routing.Fabric :=
  Routing.mkFabric {[ "p1" := Routing.mkPeerRow "attic" "home" None true "unknown" ]}
    {[ ("blake3:00", "p1") := "present" ]}.

Definition demoStreaming : Streaming := mkStreaming "key" true (λ _, None) false ["eng"] (λ h, Some ("/blobs/" +:+ h)).
Definition phone : ClientCaps := mkCaps ["mp4"] ["h264"] ["ac3"] 480 None None.
Definition someone : Identity := mkIdentity false "ada" "t1" "".

Lemma homeFabric_one : RoutingSpec.one_self homeFabric.
Proof.
  intros i j p q Hi Hj _ _. unfold homeFabric in *. cbn [Routing.peers] in *. apply lookup_singleton_Some in Hi as [<- _]. by apply lookup_singleton_Some in Hj as [<- _].
Qed.

Lemma client_plan_serves_witness :
  ∃ cp n', planForClient noFaults demoStreaming (demoNode "h264" homeFabric) "a1" "" phone someone 1000 = (inr cp, n') ∧
    cpMode cp = ModeStream ∧ fetched (fabric n') (prPeer (cpPlan cp)) "blake3:00" (Routing.BlobURL "" "blake3:00").
Proof.
  destruct (planForClient noFaults demoStreaming (demoNode "h264" homeFabric) "a1" "" phone someone 1000) as [[p|cp] n'] eqn:E;
    [exfalso; by vm_compute in E|].
  exists cp, n'. split; [reflexivity|].
  assert (fabric n' = homeFabric ∧ cpMode cp = ModeStream) as [Hf Hm] by (vm_compute in E; injection E as <- <-; by vm_compute).
  split; [exact Hm|].
  assert (RoutingSpec.one_self (fabric n')) as Hone by (rewrite Hf; exact homeFabric_one).
  assert (- 2 ^ 63 ≤ Unix (1000 + streamTokenTTL) < 2 ^ 63) as Hr by (vm_compute; split; congruence).
  assert (ccMaxHeight phone < 2 ^ 63) as Hh by (by vm_compute).
  destruct (client_plan_serves noFaults demoStreaming (demoNode "h264" homeFabric) "a1" "" phone someone 1000 cp n' E Hone Hr Hh)
    as (row & media & streams & Hrow & _ & H).
  assert (row = Playback.mkAsset (Some "blake3:00") None) as -> by (vm_compute in Hrow; congruence).
  assert (cpMode cp ≠ ModeUnplayable) as H1 by (rewrite Hm; discriminate).
  assert (cpMode cp ≠ ModeDirect) as H2 by (rewrite Hm; discriminate). clear E Hm.
  cbv zeta in H. destruct (decide (cpMode cp = ModeUnplayable)) as [E1|_]; [contradiction|].
  destruct (decide (cpMode cp = ModeDirect)) as [E2|_]; [contradiction|]. destruct H as (_ & H & _). exact H.
Defined.

Definition demoToken : streamToken := mkStreamToken "blake3:00" "ada/token:t1" true false 0 1 1700000000000000000.

Lemma stream_token_binds_witness :
  ∃ tok, signToken demoToken "k" = inr tok ∧ verifyStreamToken "k" tok "ada/token:t1" 5 = inr (keptToken demoToken) ∧
    5 < stExpires (keptToken demoToken).
Proof.
  destruct (signToken demoToken "k") as [e|tok] eqn:Es; [exfalso; by vm_compute in Es|].
  exists tok. split; [reflexivity|].
  assert (verifyStreamToken "k" tok "ada/token:t1" 5 = inr (keptToken demoToken)) as H
    by (vm_compute in Es; injection Es as <-; by vm_compute).
  split; [exact H|].
  destruct (stream_token_binds "k" tok "ada/token:t1" 5 (keptToken demoToken) H) as (p & sg & _ & _ & Hlt & _). exact Hlt.
Defined.
End witnesses.
