(* ===== verification/Album.v ===== *)
(** * Album: photo albums

    Models internal/personalstate/crdt/album.go and album_snapshot.go: an album
    accumulates the writes it has seen (adds keyed by their own total-order key,
    removes, moves, registers, a create and a delete key) and everything a client
    renders is read off that set.  Whether a text is a canonical blob id
    (void-which-binds-go/hashing, [Parse]) is outside the repository: the field of
    [AlbumEnv].  The text [Encode] writes for tests is not modelled. *)

From S2P Require Import Prelude Replica PosKey GoText GoPath GoEncoding.

Class AlbumEnv := ParseId : string → bool.

(** ** Data *)

Definition KindAlbum : string := "album".
Definition AlbumPosStep : N := 2 ^ 16.

Definition isZero (k : posKey) : bool := bool_decide (k = zeroKey).

(** A tombstone at [k] hides the write [w]. *)
Definition covers (k w : posKey) : bool := negb (isZero k) && greater k w.

Record PhotoManifest := mkPhoto {
  Manifest : string; Thumbnail : string; Sidecar : string; PlaintextHash : string;
  Width : N; Height : N; TakenAt : Z }.

#[export] Instance PhotoManifest_eq_dec : EqDecision PhotoManifest.
Proof. solve_decision. Defined.

(** The tie-break form of a photo. *)
Definition canonical (p : PhotoManifest) : string :=
  (Manifest p +:+ "|" +:+ PlaintextHash p +:+ "|" +:+ Thumbnail p +:+ "|" +:+ Sidecar p +:+ "|" +:+
   FormatInt (Z.of_N (Width p)) +:+ "|" +:+ FormatInt (Z.of_N (Height p)) +:+ "|" +:+
   FormatInt (TakenAt p))%string.

Definition OpCreate : N := 0.
Definition OpSetTitle : N := 1.
Definition OpSetCaption : N := 2.
Definition OpSetCover : N := 3.
Definition OpAddItem : N := 4.
Definition OpRemoveItem : N := 5.
Definition OpMoveItem : N := 6.
Definition OpDelete : N := 7.

Record AlbumChange := mkChange {
  Kind : string; Op : N; AlbumID : string; Item : option PhotoManifest; Pos : N;
  Title : string; Caption : string; Cover : string; At : N; Writer : string; Base : posKey }.

#[export] Instance AlbumChange_eq_dec : EqDecision AlbumChange.
Proof. solve_decision. Defined.

(** What [ErrInvalidAlbumChange] wraps. *)
Inductive albumError :=
  | NoWriter | NoAlbumID | NoManifest | NoPlaintextHash
  | ItemNotCanonical (what id : string)
  | CoverNotCanonical (id : string)
  | AddWithoutItem | RemoveNamesNothing | MoveNamesNothing
  | NotCarried (op : N) (name : string)
  | UnknownOp (op : N).

(** ** Validation *)

Section validation.
Context `{AlbumEnv}.

(** The first present id that does not parse, in the order the code lists them. *)
Definition badId (p : PhotoManifest) : option (string * string) :=
  find (λ e, negb (bool_decide (e.2 = "")) && negb (ParseId e.2))
    [("manifest", Manifest p); ("plaintext_hash", PlaintextHash p);
     ("thumbnail", Thumbnail p); ("sidecar", Sidecar p)].

Definition ValidatePhoto (p : PhotoManifest) : option albumError :=
  if decide (Manifest p = "") then Some NoManifest
  else if decide (PlaintextHash p = "") then Some NoPlaintextHash
  else match badId p with Some (what, id) => Some (ItemNotCanonical what id) | None => None end.

Definition fieldItem : N := 1.
Definition fieldPos : N := 2.
Definition fieldTitle : N := 4.
Definition fieldCaption : N := 8.
Definition fieldCover : N := 16.
Definition fieldBase : N := 32.

(** The payload fields a change carries, in the order they are examined. *)
Definition present (c : AlbumChange) : list (N * string) :=
  (if decide (Item c ≠ None) then [(fieldItem, "item")] else []) ++
  (if decide (Pos c ≠ 0%N) then [(fieldPos, "pos")] else []) ++
  (if decide (Title c ≠ "") then [(fieldTitle, "title")] else []) ++
  (if decide (Caption c ≠ "") then [(fieldCaption, "caption")] else []) ++
  (if decide (Cover c ≠ "") then [(fieldCover, "cover")] else []) ++
  (if negb (isZero (Base c)) then [(fieldBase, "base")] else []).

Definition only (c : AlbumChange) (allowed : N) : option albumError :=
  match find (λ f, (N.land allowed f.1 =? 0)%N) (present c) with
  | Some (_, name) => Some (NotCarried (Op c) name)
  | None => None
  end.

Definition Foreign (c : AlbumChange) : bool :=
  if decide (Kind c ≠ "") then bool_decide (Kind c ≠ KindAlbum) else bool_decide (AlbumID c = "").

Definition Validate (c : AlbumChange) : option albumError :=
  if decide (Writer c = "") then Some NoWriter
  else if decide (AlbumID c = "") then Some NoAlbumID
  else if decide (Op c = OpCreate) then only c fieldTitle
  else if decide (Op c = OpSetTitle) then only c fieldTitle
  else if decide (Op c = OpSetCaption) then only c fieldCaption
  else if decide (Op c = OpSetCover) then
    if negb (bool_decide (Cover c = "")) && negb (ParseId (Cover c)) then Some (CoverNotCanonical (Cover c))
    else only c fieldCover
  else if decide (Op c = OpAddItem) then
    match Item c with
    | None => Some AddWithoutItem
    | Some p =>
        match ValidatePhoto p with
        | Some err => Some err
        | None => only c (N.lor fieldItem fieldPos)
        end
    end
  else if decide (Op c = OpRemoveItem) then
    if isZero (Base c) then Some RemoveNamesNothing else only c fieldBase
  else if decide (Op c = OpMoveItem) then
    if isZero (Base c) then Some MoveNamesNothing else only c (N.lor fieldBase fieldPos)
  else if decide (Op c = OpDelete) then only c 0
  else Some (UnknownOp (Op c)).
End validation.

(** ** The state *)

Record albumReg := mkReg { set : bool; value : string; key : posKey }.
Definition unsetReg : albumReg := mkReg false "" zeroKey.

#[export] Instance albumReg_eq_dec : EqDecision albumReg.
Proof. solve_decision. Defined.

Definition joinReg (r o : albumReg) : albumReg :=
  if negb (set o) then r
  else if negb (set r) then o
  else if greater (key r) (key o) then r
  else if greater (key o) (key r) then o
  else if negb (str_lt (value r) (value o)) then r
  else o.

Record albumItem := mkItem { photo : PhotoManifest; pos : N }.

#[export] Instance albumItem_eq_dec : EqDecision albumItem.
Proof. solve_decision. Defined.

Definition joinItem (a b : albumItem) : albumItem :=
  if decide (canonical (photo a) ≠ canonical (photo b)) then
    if str_lt (canonical (photo a)) (canonical (photo b)) then a else b
  else if (pos a <=? pos b)%N then a else b.

Record albumMove := mkMove { mpos : N; mkey : posKey }.

#[export] Instance albumMove_eq_dec : EqDecision albumMove.
Proof. solve_decision. Defined.

Definition joinMove (m o : albumMove) : albumMove :=
  if greater (mkey m) (mkey o) then m
  else if greater (mkey o) (mkey m) then o
  else if (mpos o <=? mpos m)%N then m
  else o.

Record albumRecord := mkRecord {
  createKey : posKey; delKey : posKey;
  title : albumReg; caption : albumReg; cover : albumReg;
  items : gmap posKey albumItem; removed : gset posKey; moves : gmap posKey albumMove }.

Definition newAlbumRecord : albumRecord :=
  mkRecord zeroKey zeroKey unsetReg unsetReg unsetReg ∅ ∅ ∅.

Record Albums := mkAlbums { albums : gmap string albumRecord; counter : N }.
Definition NewAlbums : Albums := mkAlbums ∅ 0.

Definition peekAt (a : Albums) : N := sat_succ (counter a).
Definition record (a : Albums) (id : string) : albumRecord := default newAlbumRecord (albums a !! id).

(** ** Folding in a change *)

Definition keyOf (c : AlbumChange) : posKey := mkKey (At c) (Writer c).

(** [if key.greater(cur) { cur = key }] *)
Definition raiseKey (cur k : posKey) : posKey := if greater k cur then k else cur.

(** The write of one change to the record of its album. *)
Definition applyRecord (rec : albumRecord) (c : AlbumChange) : albumRecord :=
  let key := keyOf c in
  let '(mkRecord ck dk ti ca co its rm mvs) := rec in
  if decide (Op c = OpCreate) then
    mkRecord (raiseKey ck key) dk
      (if decide (Title c ≠ "") then joinReg ti (mkReg true (Title c) key) else ti) ca co its rm mvs
  else if decide (Op c = OpSetTitle) then
    mkRecord ck dk (joinReg ti (mkReg true (Title c) key)) ca co its rm mvs
  else if decide (Op c = OpSetCaption) then
    mkRecord ck dk ti (joinReg ca (mkReg true (Caption c) key)) co its rm mvs
  else if decide (Op c = OpSetCover) then
    mkRecord ck dk ti ca (joinReg co (mkReg true (Cover c) key)) its rm mvs
  else if decide (Op c = OpAddItem) then
    match Item c with
    | Some p => mkRecord ck dk ti ca co (put_join joinItem key (mkItem p (Pos c)) its) rm mvs
    | None => rec (* the dereference of a nil item: [Validate] has refused the change *)
    end
  else if decide (Op c = OpRemoveItem) then
    mkRecord ck dk ti ca co its ({[Base c]} ∪ rm) mvs
  else if decide (Op c = OpMoveItem) then
    mkRecord ck dk ti ca co its rm (put_join joinMove (Base c) (mkMove (Pos c) key) mvs)
  else if decide (Op c = OpDelete) then
    mkRecord ck (raiseKey dk key) ti ca co its rm mvs
  else rec.

Definition applyAlbum (a : Albums) (c : AlbumChange) : Albums :=
  mkAlbums (<[AlbumID c := applyRecord (record a (AlbumID c)) c]> (albums a))
    (raise_to (counter a) (At c)).

Section operations.
Context `{AlbumEnv}.

(** One turn of the loop of [ApplyReport]. *)
Definition acceptOne (acc : Albums * list AlbumChange) (c : AlbumChange) : Albums * list AlbumChange :=
  let (a, rejected) := acc in
  if Foreign c then (a, rejected)
  else match Validate c with
       | Some _ => (a, rejected ++ [c])
       | None => (applyAlbum a c, rejected)
       end.

Definition ApplyReport (a : Albums) (changes : list AlbumChange) : Albums * list AlbumChange :=
  foldl acceptOne (a, []) changes.

Definition Apply (a : Albums) (changes : list AlbumChange) : Albums := (ApplyReport a changes).1.

(** ** Merging *)

Definition joinRecord (into from : albumRecord) : albumRecord :=
  mkRecord (raiseKey (createKey into) (createKey from)) (raiseKey (delKey into) (delKey from))
    (joinReg (title into) (title from)) (joinReg (caption into) (caption from))
    (joinReg (cover into) (cover from))
    (merge_into joinItem (items from) (items into))
    (add_all (removed from) (removed into))
    (merge_into joinMove (moves from) (moves into)).

Definition mergeAlbum (out s : Albums) : Albums :=
  mkAlbums
    (map_fold (λ id rec m, <[id := joinRecord (default newAlbumRecord (m !! id)) rec]> m)
       (albums out) (albums s))
    (raise_to (counter out) (counter s)).

(** A nil argument is skipped. *)
Definition MergeAlbums (sets : list (option Albums)) : Albums :=
  foldl (λ out s, match s with Some s => mergeAlbum out s | None => out end) NewAlbums sets.

(** ** Reads *)

Definition live (r : albumRecord) : bool :=
  negb (isZero (createKey r)) && greater (createKey r) (delKey r).

Record liveItem := mkLive { lkey : posKey; lpos : N; lphoto : PhotoManifest }.

#[export] Instance liveItem_eq_dec : EqDecision liveItem.
Proof. solve_decision. Defined.

(** The item an add stands for now, or none. *)
Definition readItem (r : albumRecord) (k : posKey) (it : albumItem) : option liveItem :=
  if decide (k ∈ removed r) then None
  else if covers (delKey r) k then None
  else Some (mkLive k
    (match moves r !! k with
     | Some mv => if greater (mkey mv) k then mpos mv else pos it
     | None => pos it
     end) (photo it)).

Definition item_less : liveItem → liveItem → bool :=
  lex_less lpos N.ltb (key_less lkey (flip_less greater)).

Definition liveItems (r : albumRecord) : list liveItem :=
  sort_by item_less (omap (λ e, readItem r e.1 e.2) (map_to_list (items r))).

Definition valueOf (r : albumRecord) (reg : albumReg) : string :=
  if negb (set reg) || covers (delKey r) (key reg) then "" else value reg.

Record ResolvedItem := mkResolvedItem { RKey : posKey; RPos : N; RPhoto : PhotoManifest }.
Record ResolvedAlbum := mkResolved {
  RAlbumID : string; RTitle : string; RCaption : string; RCover : string;
  RItems : list ResolvedItem }.

(** One turn of the loop that collapses photos with the same plaintext. *)
Definition keepPhoto (acc : list ResolvedItem * gset string * gset string) (it : liveItem) :
    list ResolvedItem * gset string * gset string :=
  let '(out, seen, manifests) := acc in
  if decide (PlaintextHash (lphoto it) ∈ seen) then acc
  else (out ++ [mkResolvedItem (lkey it) (lpos it) (lphoto it)],
        {[PlaintextHash (lphoto it)]} ∪ seen, {[Manifest (lphoto it)]} ∪ manifests).

Definition resolve (r : albumRecord) (id : string) : ResolvedAlbum :=
  let '(shown, _, manifests) := foldl keepPhoto ([], ∅, ∅) (liveItems r) in
  let co := valueOf r (cover r) in
  mkResolved id (valueOf r (title r)) (valueOf r (caption r))
    (if negb (bool_decide (co = "")) && bool_decide (co ∈ manifests) then co
     else match shown with it :: _ => Manifest (RPhoto it) | [] => "" end)
    shown.

Definition Resolved (a : Albums) : list ResolvedAlbum :=
  sort_by (key_less RAlbumID str_lt)
    (omap (λ e, if live e.2 then Some (resolve e.2 e.1) else None) (map_to_list (albums a))).

Definition Album (a : Albums) (albumID : string) : option ResolvedAlbum :=
  match albums a !! albumID with
  | Some rec => if live rec then Some (resolve rec albumID) else None
  | None => None
  end.

(** ** Local operations *)

(** A change of the given op with no payload; [newTag] is the tag [newPosTag] mints. *)
Definition mint (newTag : string) (a : Albums) (op : N) (albumID : string) : AlbumChange :=
  mkChange KindAlbum op albumID None 0 "" "" "" (peekAt a) newTag zeroKey.

Definition local_ (a : Albums) (c : AlbumChange) : albumError + (Albums * AlbumChange) :=
  match Validate c with
  | Some err => inl err
  | None => inr (applyAlbum a c, c)
  end.

Definition Create (newTag : string) (a : Albums) (albumID title : string) :=
  let c := mint newTag a OpCreate albumID in
  local_ a (mkChange (Kind c) (Op c) (AlbumID c) (Item c) (Pos c) title (Caption c) (Cover c) (At c) (Writer c) (Base c)).

Definition SetTitle (newTag : string) (a : Albums) (albumID title : string) :=
  let c := mint newTag a OpSetTitle albumID in
  local_ a (mkChange (Kind c) (Op c) (AlbumID c) (Item c) (Pos c) title (Caption c) (Cover c) (At c) (Writer c) (Base c)).

Definition SetCaption (newTag : string) (a : Albums) (albumID caption : string) :=
  let c := mint newTag a OpSetCaption albumID in
  local_ a (mkChange (Kind c) (Op c) (AlbumID c) (Item c) (Pos c) (Title c) caption (Cover c) (At c) (Writer c) (Base c)).

Definition SetCover (newTag : string) (a : Albums) (albumID manifest : string) :=
  let c := mint newTag a OpSetCover albumID in
  local_ a (mkChange (Kind c) (Op c) (AlbumID c) (Item c) (Pos c) (Title c) (Caption c) manifest (At c) (Writer c) (Base c)).

Definition AddItemAt (newTag : string) (a : Albums) (albumID : string) (photo : PhotoManifest) (pos : N) :=
  let c := mint newTag a OpAddItem albumID in
  local_ a (mkChange (Kind c) (Op c) (AlbumID c) (Some photo) pos (Title c) (Caption c) (Cover c) (At c) (Writer c) (Base c)).

(** The greatest position of the live items, zero when there is none. *)
Definition lastPos (its : list liveItem) : N :=
  foldl (λ last it, if (last <? lpos it)%N then lpos it else last) 0%N its.

(** One step past it, in 64 bits, saturated. *)
Definition appendPos (last : N) : N :=
  let pos := wrap_u64 (last + AlbumPosStep) in
  if (pos <? last)%N then MaxUint64 else pos.

Definition AddItem (newTag : string) (a : Albums) (albumID : string) (photo : PhotoManifest) :=
  AddItemAt newTag a albumID photo (appendPos (lastPos (liveItems (record a albumID)))).

Definition RemoveItem (newTag : string) (a : Albums) (albumID : string) (item : posKey) :=
  let c := mint newTag a OpRemoveItem albumID in
  local_ a (mkChange (Kind c) (Op c) (AlbumID c) (Item c) (Pos c) (Title c) (Caption c) (Cover c) (At c) (Writer c) item).

Definition MoveItem (newTag : string) (a : Albums) (albumID : string) (item : posKey) (pos : N) :=
  let c := mint newTag a OpMoveItem albumID in
  local_ a (mkChange (Kind c) (Op c) (AlbumID c) (Item c) pos (Title c) (Caption c) (Cover c) (At c) (Writer c) item).

Definition Delete (newTag : string) (a : Albums) (albumID : string) :=
  local_ a (mint newTag a OpDelete albumID).
End operations.

(** ** Snapshots: the wire structures between the state and its JSON text *)

Record albumRegSnapshot := mkRegSnap { gs_Value : string; gs_At : N; gs_Writer : string }.
Record albumItemSnapshot := mkItemSnap { is_At : N; is_Writer : string; is_Pos : N; is_Item : PhotoManifest }.
Record albumMoveSnapshot := mkMoveSnap {
  ms_ItemAt : N; ms_ItemBy : string; ms_Pos : N; ms_At : N; ms_Writer : string }.
Record albumRecordSnapshot := mkRecordSnap {
  as_AlbumID : string; as_CreatedAt : N; as_CreatedBy : string; as_DelAt : N; as_DelBy : string;
  as_Title : option albumRegSnapshot; as_Caption : option albumRegSnapshot;
  as_Cover : option albumRegSnapshot;
  as_Items : list albumItemSnapshot; as_Removed : list posKey; as_Moves : list albumMoveSnapshot }.
Record albumsSnapshot := mkSnap { sn_Albums : list albumRecordSnapshot; sn_Counter : N }.

Definition regSnapshot (r : albumReg) : option albumRegSnapshot :=
  if negb (set r) then None else Some (mkRegSnap (value r) (KeyAt (key r)) (KeyWriter (key r))).

Definition regFromSnapshot (s : option albumRegSnapshot) : albumReg :=
  match s with
  | None => unsetReg
  | Some s => mkReg true (gs_Value s) (mkKey (gs_At s) (gs_Writer s))
  end.

Definition lessKey (a b : posKey) : bool := greater b a.

Definition snapItem (e : posKey * albumItem) : albumItemSnapshot :=
  mkItemSnap (KeyAt e.1) (KeyWriter e.1) (pos e.2) (photo e.2).
Definition snapMove (e : posKey * albumMove) : albumMoveSnapshot :=
  mkMoveSnap (KeyAt e.1) (KeyWriter e.1) (mpos e.2) (KeyAt (mkey e.2)) (KeyWriter (mkey e.2)).
Definition itemKeyOf (s : albumItemSnapshot) : posKey := mkKey (is_At s) (is_Writer s).
Definition moveItemOf (s : albumMoveSnapshot) : posKey := mkKey (ms_ItemAt s) (ms_ItemBy s).

Definition snapAlbum (e : string * albumRecord) : albumRecordSnapshot :=
  let rec := e.2 in
  mkRecordSnap e.1 (KeyAt (createKey rec)) (KeyWriter (createKey rec))
    (KeyAt (delKey rec)) (KeyWriter (delKey rec))
    (regSnapshot (title rec)) (regSnapshot (caption rec)) (regSnapshot (cover rec))
    (sort_by (λ a b, lessKey (itemKeyOf a) (itemKeyOf b)) (snapItem <$> map_to_list (items rec)))
    (sort_by lessKey (elements (removed rec)))
    (sort_by (λ a b, lessKey (moveItemOf a) (moveItemOf b)) (snapMove <$> map_to_list (moves rec))).

Definition Snapshot (a : Albums) : albumsSnapshot :=
  mkSnap (sort_by (key_less as_AlbumID str_lt) (snapAlbum <$> map_to_list (albums a))) (counter a).

Definition readAlbum (rs : albumRecordSnapshot) : albumRecord :=
  mkRecord (mkKey (as_CreatedAt rs) (as_CreatedBy rs)) (mkKey (as_DelAt rs) (as_DelBy rs))
    (regFromSnapshot (as_Title rs)) (regFromSnapshot (as_Caption rs)) (regFromSnapshot (as_Cover rs))
    (insert_each itemKeyOf (λ s, mkItem (is_Item s) (is_Pos s)) (as_Items rs) ∅)
    (foldl (λ rm k, {[k]} ∪ rm) ∅ (as_Removed rs))
    (insert_each moveItemOf (λ s, mkMove (ms_Pos s) (mkKey (ms_At s) (ms_Writer s))) (as_Moves rs) ∅).

Definition AlbumsFromSnapshot (snap : albumsSnapshot) : Albums :=
  mkAlbums (insert_each as_AlbumID readAlbum (sn_Albums snap) ∅) (sn_Counter snap).

(** ** The joins are minima of total orders *)

(** What the code relies on from [hashing.Parse]: a canonical id is "blake3:" and hex
    digits, so it holds no separator of [canonical]. *)
Class AlbumEnvLaws `{AlbumEnv} : Prop :=
  ParseId_bar s : ParseId s = true → has_byte "|" s = false.

Definition canonical_parts (p : PhotoManifest) : list string :=
  [Manifest p; PlaintextHash p; Thumbnail p; Sidecar p;
   FormatInt (Z.of_N (Width p)); FormatInt (Z.of_N (Height p)); FormatInt (TakenAt p)].

Lemma canonical_join p : canonical p = Join (canonical_parts p) "|".
Proof. reflexivity. Qed.

Lemma allDigits_bar s : allDigits s = true → has_byte "|" s = false.
Proof.
  induction s as [|c s IH]; [done|]. cbn. intros [Hc Hs]%andb_true_iff.
  rewrite IH by done. rewrite orb_false_r. apply bool_decide_eq_false. intros ->.
  apply bool_decide_eq_true in Hc as [? Hc]. by vm_compute in Hc.
Qed.

Lemma pretty_bar (n : N) : has_byte "|" (pretty n) = false.
Proof.
  apply allDigits_bar. unfold pretty, pretty_N. case_decide; [done|]. by rewrite allDigits_pretty.
Qed.

Lemma FormatInt_bar z : has_byte "|" (FormatInt z) = false.
Proof.
  destruct (decide (0 ≤ z)%Z).
  - rewrite <-(Z2N.id z), FormatInt_nat by done. apply pretty_bar.
  - destruct z as [|p|p]; [lia..|]. rewrite FormatInt_neg. cbn. by rewrite pretty_bar.
Qed.

(** A photo whose texts hold no separator: its tie-break form says which photo it is. *)
Definition plain (p : PhotoManifest) : Prop :=
  Forall (λ s, has_byte "|" s = false) [Manifest p; PlaintextHash p; Thumbnail p; Sidecar p].

Lemma canonical_inj p q : plain p → plain q → canonical p = canonical q → p = q.
Proof.
  intros Hp Hq. rewrite !canonical_join. intros Heq.
  assert (∀ r, plain r → SplitByte "|" (Join (canonical_parts r) "|") = canonical_parts r) as Hs.
  { intros r Hr. apply SplitByte_Join; [done|]. unfold canonical_parts, plain in *.
    rewrite !Forall_cons in Hr. destruct Hr as (?&?&?&?&_).
    repeat apply Forall_cons_2; try apply FormatInt_bar; done. }
  apply (f_equal (SplitByte "|")) in Heq. rewrite !Hs in Heq by done.
  unfold canonical_parts in Heq. injection Heq as E1 E2 E3 E4 E5 E6 E7.
  unfold FormatInt in *. apply (inj pretty) in E5, E6, E7. apply N2Z.inj in E5, E6.
  destruct p, q; simpl in *; congruence.
Qed.

Lemma ValidatePhoto_plain `{AlbumEnvLaws} p : ValidatePhoto p = None → plain p.
Proof.
  unfold ValidatePhoto. repeat case_decide; [done..|].
  destruct (badId p) as [[]|] eqn:E; [done|]. intros _.
  unfold badId in E. unfold plain.
  assert (∀ e, e ∈ [("manifest", Manifest p); ("plaintext_hash", PlaintextHash p);
     ("thumbnail", Thumbnail p); ("sidecar", Sidecar p)] → has_byte "|" e.2 = false) as Hall.
  { intros e He%list_elem_of_In. pose proof (find_none _ _ E e He) as Hn. simpl in Hn.
    destruct (decide (e.2 = "")) as [->|Hne]; [done|]. rewrite bool_decide_false in Hn by done.
    apply ParseId_bar. by destruct (ParseId e.2). }
  repeat apply Forall_cons_2; [| | | |done].
  - apply (Hall ("manifest", _)). set_solver.
  - apply (Hall ("plaintext_hash", _)). set_solver.
  - apply (Hall ("thumbnail", _)). set_solver.
  - apply (Hall ("sidecar", _)). set_solver.
Qed.

#[export] Instance raiseKey_lattice : Lattice raiseKey.
Proof. apply (lattice_min greater). intros a b. by rewrite (min_by_comm greater). Qed.

Definition item_order : albumItem → albumItem → bool :=
  lex_less (λ i, canonical (photo i)) str_lt (key_less pos N.ltb).

Lemma joinItem_min a b : joinItem a b = min_by item_order a b.
Proof.
  unfold joinItem, min_by, item_order, lex_less, key_less.
  destruct (decide (canonical (photo a) = canonical (photo b))) as [Heq|Hne].
  - rewrite decide_False by tauto. rewrite decide_True by done.
    destruct (N.leb_spec (pos a) (pos b)), (N.ltb_spec (pos b) (pos a)); try done; lia.
  - rewrite decide_True by done. rewrite decide_False by congruence.
    destruct (str_lt (canonical (photo a)) (canonical (photo b))) eqn:E.
    + by rewrite (less_asym _ _ _ E).
    + destruct (str_lt (canonical (photo b)) (canonical (photo a))) eqn:E'; [done|].
      by pose proof (less_antisym (less := str_lt) _ _ E E').
Qed.

Lemma joinItem_idem a : joinItem a a = a.
Proof. rewrite joinItem_min. apply min_by_idem. Qed.

Lemma joinItem_assoc a b c : joinItem a (joinItem b c) = joinItem (joinItem a b) c.
Proof. rewrite !joinItem_min. apply (min_by_assoc item_order). Qed.

Lemma joinItem_comm a b : plain (photo a) → plain (photo b) → joinItem a b = joinItem b a.
Proof.
  intros Ha Hb. rewrite !joinItem_min. unfold min_by.
  destruct (item_order b a) eqn:H1, (item_order a b) eqn:H2; try done.
  - by rewrite (less_asym _ _ _ H1) in H2.
  - destruct (lex_incomparable _ _ _ _ _ H1 H2) as (Hc & H3 & H4).
    pose proof (key_incomparable N.ltb pos _ _ H3 H4) as Hp. apply canonical_inj in Hc; [|done..].
    destruct a, b; simpl in *; congruence.
Qed.

Lemma joinItem_choose a b : joinItem a b = a ∨ joinItem a b = b.
Proof. rewrite joinItem_min. unfold min_by. case_match; auto. Qed.

Definition move_order : albumMove → albumMove → bool :=
  lex_less mkey greater (key_less mpos (flip_less N.ltb)).

#[export] Instance move_order_total : StrictTotal move_order.
Proof.
  split; [apply _|]. intros [p k] [q l] H1 H2.
  destruct (lex_incomparable _ _ _ _ _ H1 H2) as (Hk & H3 & H4).
  pose proof (key_incomparable _ _ _ _ H3 H4). simpl in *. congruence.
Qed.

Lemma joinMove_min a b : joinMove a b = min_by move_order a b.
Proof.
  unfold joinMove, min_by, move_order, lex_less, key_less, flip_less.
  destruct (decide (mkey b = mkey a)) as [Heq|Hne].
  - rewrite Heq, less_irrefl.
    destruct (N.leb_spec (mpos b) (mpos a)), (N.ltb_spec (mpos a) (mpos b)); try done; lia.
  - destruct (greater (mkey a) (mkey b)) eqn:E; [by rewrite (less_asym _ _ _ E)|].
    destruct (greater (mkey b) (mkey a)) eqn:E'; [done|].
    by pose proof (less_antisym (less := greater) _ _ E E').
Qed.

#[export] Instance joinMove_lattice : Lattice joinMove.
Proof. apply (lattice_min move_order). intros a b. rewrite (min_by_comm move_order). apply joinMove_min. Qed.

(** A register that was never written holds nothing. *)
Definition wfReg (r : albumReg) : Prop := set r = false → r = unsetReg.

Definition set_first (a b : bool) : bool := a && negb b.
#[export] Instance set_first_total : StrictTotal set_first.
Proof. apply strict_total_intro; [intros []|intros [] [] []|intros [] []]; done. Qed.

Definition reg_order : albumReg → albumReg → bool :=
  lex_less set set_first (lex_less key greater (key_less value (flip_less str_lt))).

#[export] Instance reg_order_total : StrictTotal reg_order.
Proof.
  split; [apply _|]. intros [s v k] [s' v' k'] H1 H2.
  destruct (lex_incomparable _ _ _ _ _ H1 H2) as (Hs & H3 & H4).
  destruct (lex_incomparable _ _ _ _ _ H3 H4) as (Hk & H5 & H6).
  pose proof (key_incomparable _ _ _ _ H5 H6). simpl in *. congruence.
Qed.

Lemma joinReg_min r o : wfReg r → wfReg o → joinReg r o = min_by reg_order r o.
Proof.
  intros Hr Ho. unfold joinReg, min_by, reg_order, lex_less, key_less, flip_less, set_first.
  destruct (set o) eqn:Eo, (set r) eqn:Er; simpl; try done.
  - destruct (decide (key o = key r)) as [Heq|Hne].
    + rewrite Heq, less_irrefl. by destruct (str_lt (value r) (value o)).
    + destruct (greater (key r) (key o)) eqn:E; [by rewrite (less_asym _ _ _ E)|].
      destruct (greater (key o) (key r)) eqn:E'; [done|].
      by pose proof (less_antisym (less := greater) _ _ E E').
  - rewrite (Hr Er), (Ho Eo). done.
Qed.

Lemma joinReg_wf r o : wfReg r → wfReg o → wfReg (joinReg r o).
Proof. intros Hr Ho. rewrite joinReg_min by done. unfold min_by. by case_match. Qed.

Lemma joinReg_comm r o : wfReg r → wfReg o → joinReg r o = joinReg o r.
Proof. intros. rewrite !joinReg_min by done. apply (min_by_comm reg_order). Qed.

Lemma joinReg_idem r : joinReg r r = r.
Proof. unfold joinReg. by repeat case_match. Qed.

Lemma joinReg_assoc a b c :
  wfReg a → wfReg b → wfReg c → joinReg a (joinReg b c) = joinReg (joinReg a b) c.
Proof.
  intros. rewrite !joinReg_min by auto using joinReg_wf.
  apply (min_by_assoc reg_order).
Qed.

Lemma joinReg_unset r : joinReg unsetReg r = if set r then r else unsetReg.
Proof. unfold joinReg. simpl. by destruct (set r). Qed.

(** ** Albums are a replica *)

Lemma greater_zero k : greater zeroKey k = false.
Proof.
  unfold greater, zeroKey. simpl. case_decide; [apply N.ltb_ge; lia|].
  unfold str_lt. by destruct (KeyWriter k).
Qed.

Lemma raiseKey_zero_r k : raiseKey k zeroKey = k.
Proof. unfold raiseKey. by rewrite greater_zero. Qed.

Lemma raiseKey_zero_l k : raiseKey zeroKey k = k.
Proof. rewrite (lat_comm (join := raiseKey)). apply raiseKey_zero_r. Qed.

Lemma joinRecord_eq a b :
  joinRecord a b =
    mkRecord (raiseKey (createKey a) (createKey b)) (raiseKey (delKey a) (delKey b))
      (joinReg (title a) (title b)) (joinReg (caption a) (caption b)) (joinReg (cover a) (cover b))
      (join_maps joinItem (items a) (items b)) (removed a ∪ removed b)
      (join_maps joinMove (moves a) (moves b)).
Proof. unfold joinRecord. rewrite !merge_into_eq, add_all_eq. by rewrite (comm_L (∪)). Qed.

(** A record whose unwritten registers are empty and whose photos are [plain]. *)
Definition ok_record (r : albumRecord) : Prop :=
  (wfReg (title r) ∧ wfReg (caption r) ∧ wfReg (cover r)) ∧
  ∀ k it, items r !! k = Some it → plain (photo it).

Definition ok_albums (a : Albums) : Prop := ∀ id rec, albums a !! id = Some rec → ok_record rec.

Lemma ok_newRecord : ok_record newAlbumRecord.
Proof. split; [done|]. intros k it. cbn. by rewrite lookup_empty. Qed.

Lemma ok_record_at a id : ok_albums a → ok_record (record a id).
Proof.
  intros Ha. unfold record. destruct (albums a !! id) as [r|] eqn:E; simpl; [by apply (Ha id)|].
  apply ok_newRecord.
Qed.

Lemma joinRecord_ok a b : ok_record a → ok_record b → ok_record (joinRecord a b).
Proof.
  intros [(?&?&?) Ha] [(?&?&?) Hb]. rewrite joinRecord_eq. split; simpl; [auto using joinReg_wf|].
  intros k it. rewrite lookup_join_maps. specialize (Ha k). specialize (Hb k).
  destruct (items a !! k) as [x|], (items b !! k) as [y|]; intros [= <-]; auto.
  destruct (joinItem_choose x y) as [->| ->]; auto.
Qed.

Lemma joinReg_unset_r r : joinReg r unsetReg = r.
Proof. done. Qed.

Lemma joinReg_unset_l r : wfReg r → joinReg unsetReg r = r.
Proof. intros Hr. rewrite joinReg_unset. destruct (set r) eqn:E; [done|]. symmetry. by apply Hr. Qed.

Lemma joinRecord_new_l r : ok_record r → joinRecord newAlbumRecord r = r.
Proof.
  intros [(?&?&?) _]. rewrite joinRecord_eq. simpl.
  rewrite !raiseKey_zero_l, !joinReg_unset_l, !join_maps_empty_l, (left_id_L ∅ (∪)) by done.
  by destruct r.
Qed.

Lemma joinRecord_comm a b : ok_record a → ok_record b → joinRecord a b = joinRecord b a.
Proof.
  intros [(?&?&?) Ha] [(?&?&?) Hb]. rewrite !joinRecord_eq. f_equal.
  1,2: apply (lat_comm (join := raiseKey)).
  1,2,3: by apply joinReg_comm.
  - apply map_eq. intros k. rewrite !lookup_join_maps. specialize (Ha k). specialize (Hb k).
    destruct (items a !! k), (items b !! k); try done. f_equal. apply joinItem_comm; auto.
  - apply (comm_L (∪)).
  - apply (lat_comm (join := join_maps joinMove)).
Qed.

Lemma joinRecord_assoc a b c :
  ok_record a → ok_record b → ok_record c →
  joinRecord a (joinRecord b c) = joinRecord (joinRecord a b) c.
Proof.
  intros [(?&?&?) _] [(?&?&?) _] [(?&?&?) _]. rewrite !joinRecord_eq. simpl. f_equal.
  1,2: apply (lat_assoc (join := raiseKey)).
  1,2,3: by apply joinReg_assoc.
  - apply join_maps_assoc, joinItem_assoc.
  - apply (assoc_L (∪)).
  - apply (lat_assoc (join := join_maps joinMove)).
Qed.

Lemma joinRecord_idem r : joinRecord r r = r.
Proof.
  rewrite joinRecord_eq, !joinReg_idem, !(lat_idem (join := raiseKey)), (idemp_L (∪)),
    (lat_idem (join := join_maps joinMove)), (join_maps_idem joinItem) by apply joinItem_idem.
  by destruct r.
Qed.

Lemma mergeAlbum_eq a b :
  ok_albums b →
  mergeAlbum a b = mkAlbums (join_maps joinRecord (albums a) (albums b))
    (N.max (counter a) (counter b)).
Proof.
  intros Hb. unfold mergeAlbum. rewrite raise_to_max. f_equal. unfold ok_albums in Hb.
  revert Hb. generalize (albums b). intros m. induction m as [|id r m Hid Hf IH] using map_first_key_ind.
  - intros _. by rewrite map_fold_empty, join_maps_empty_r.
  - intros Hok. rewrite map_fold_insert_first_key by done. rewrite IH.
    2:{ intros i r' Hi. apply (Hok i). rewrite lookup_insert_ne by congruence. done. }
    assert (ok_record r) as Hr by (apply (Hok id); by rewrite lookup_insert_eq).
    apply map_eq. intros i. rewrite !lookup_join_maps, Hid.
    destruct (decide (i = id)) as [->|Hne].
    + rewrite !lookup_insert_eq. destruct (albums a !! id); simpl; [done|].
      by rewrite joinRecord_new_l.
    + by rewrite !lookup_insert_ne, lookup_join_maps by done.
Qed.

Lemma mergeAlbum_ok a b : ok_albums a → ok_albums b → ok_albums (mergeAlbum a b).
Proof.
  intros Ha Hb. rewrite mergeAlbum_eq by done. intros id r. simpl. rewrite lookup_join_maps.
  specialize (Ha id). specialize (Hb id).
  destruct (albums a !! id), (albums b !! id); intros [= <-]; auto using joinRecord_ok.
Qed.

Lemma applyRecord_ok rec c :
  ok_record rec → (∀ p, Item c = Some p → plain p) → ok_record (applyRecord rec c).
Proof.
  intros Hrec Hp. unfold applyRecord. destruct rec as [ck dk ti ca co its rm mvs].
  destruct Hrec as [(?&?&?) Hi]. simpl in *.
  repeat case_decide; (split; [simpl; auto using joinReg_wf|]); try done.
  all: try (simpl; split_and!; try done; apply joinReg_wf; done).
  - destruct (Item c) eqn:E; done.
  - destruct (Item c) as [p|] eqn:E; [|done]. simpl. intros k it.
    rewrite put_join_eq, lookup_join_maps. destruct (decide (k = keyOf c)) as [->|Hne].
    + rewrite lookup_singleton_eq. specialize (Hi (keyOf c)).
      destruct (its !! keyOf c) as [x|]; intros [= <-]; [|by apply Hp].
      destruct (joinItem_choose x (mkItem p (Pos c))) as [->| ->]; [by apply Hi|by apply Hp].
    + rewrite lookup_singleton_ne by done. specialize (Hi k). destruct (its !! k); [apply Hi|done].
Qed.

Lemma applyRecord_join rec c :
  applyRecord rec c = joinRecord rec (applyRecord newAlbumRecord c).
Proof.
  rewrite joinRecord_eq. unfold applyRecord. destruct rec as [ck dk ti ca co its rm mvs].
  unfold newAlbumRecord. destruct (Item c) as [p|]; repeat case_decide; simpl.
  all: rewrite ?raiseKey_zero_r, ?raiseKey_zero_l, ?join_maps_empty_r, ?joinReg_unset_r.
  all: rewrite ?(right_id_L ∅ (∪)); try done.
  all: rewrite ?put_join_eq, ?join_maps_empty_l; try done.
  all: by rewrite (comm_L (∪) {[Base c]}).
Qed.

Section convergence.
Context `{AlbumEnvLaws}.

(** A change that enters the set: neither foreign nor malformed. *)
Definition accepted (c : AlbumChange) : bool :=
  negb (Foreign c) && bool_decide (Validate c = None).

Definition applyAccepted (a : Albums) (c : AlbumChange) : Albums :=
  if accepted c then applyAlbum a c else a.

(** What [ApplyReport] reports: the malformed changes that are not another kind's. *)
Definition malformed (c : AlbumChange) : bool :=
  negb (Foreign c) && negb (bool_decide (Validate c = None)).

Lemma album_report_eq a rej cs :
  foldl acceptOne (a, rej) cs =
    (foldl applyAccepted a cs, rej ++ filter (λ c, malformed c = true) cs).
Proof.
  revert a rej. induction cs as [|c cs IH]; intros a rej; [by rewrite app_nil_r|].
  cbn [foldl]. rewrite filter_cons. unfold acceptOne at 2, applyAccepted at 2, malformed, accepted.
  destruct (Foreign c); simpl; [apply IH|].
  destruct (Validate c) as [e|] eqn:E; simpl.
  - by rewrite IH, <-app_assoc.
  - apply IH.
Qed.

Lemma albums_foldl a cs : Apply a cs = foldl applyAccepted a cs.
Proof. unfold Apply, ApplyReport. by rewrite album_report_eq. Qed.

(** What each op may carry, as a proposition. *)
Definition carries (c : AlbumChange) (allowed : N) : Prop :=
  (Item c ≠ None → N.land allowed fieldItem ≠ 0%N) ∧
  (Pos c ≠ 0%N → N.land allowed fieldPos ≠ 0%N) ∧
  (Title c ≠ "" → N.land allowed fieldTitle ≠ 0%N) ∧
  (Caption c ≠ "" → N.land allowed fieldCaption ≠ 0%N) ∧
  (Cover c ≠ "" → N.land allowed fieldCover ≠ 0%N) ∧
  (Base c ≠ zeroKey → N.land allowed fieldBase ≠ 0%N).

Lemma find_None_Forall {A} (f : A → bool) l : find f l = None ↔ Forall (λ x, f x = false) l.
Proof.
  induction l as [|x l IH]; simpl; [by split|]. rewrite Forall_cons.
  destruct (f x); [|tauto]. split; [done|]. by intros [? _].
Qed.

Lemma only_spec c allowed : only c allowed = None ↔ carries c allowed.
Proof.
  transitivity (Forall (λ f, (N.land allowed f.1 =? 0)%N = false) (present c)).
  { rewrite <-find_None_Forall. unfold only. by destruct (find _ _) as [[]|]. }
  unfold present, carries. rewrite !Forall_app. unfold isZero.
  assert (∀ (P : Prop) `{Decision P} f name,
    Forall (λ f : N * string, (N.land allowed f.1 =? 0)%N = false) (if decide P then [(f, name)] else []) ↔
    (P → N.land allowed f ≠ 0%N)) as Hone.
  { intros P ? f name. rewrite <-N.eqb_neq. case_decide.
    - rewrite Forall_singleton. simpl. tauto.
    - rewrite Forall_nil. tauto. }
  rewrite !Hone. do 5 apply and_iff_compat_l. rewrite <-Hone.
  case_bool_decide; simpl; [by rewrite decide_False by tauto|by rewrite decide_True].
Qed.

Lemma accepted_plain c p : accepted c = true → Item c = Some p → plain p.
Proof.
  intros [_ Hv%bool_decide_eq_true]%andb_true_iff Hp. revert Hv.
  assert (∀ allowed, N.land allowed fieldItem = 0%N → only c allowed ≠ None) as Honly.
  { intros allowed H1 H2%only_spec. destruct H2 as [H2 _]. apply H2; [by rewrite Hp|done]. }
  unfold Validate. rewrite Hp. repeat case_decide; try done.
  all: repeat case_match; try done.
  all: try (intros ?; exfalso; by eapply Honly; [|eassumption]).
  intros _. by apply ValidatePhoto_plain.
Qed.

#[export] Instance album_replica : Replica Albums AlbumChange := {
  fresh := NewAlbums;
  applyOne := applyAccepted;
  merge := mergeAlbum;
  delta := applyAccepted NewAlbums;
}.

Lemma ok_New : ok_albums NewAlbums.
Proof. intros id r. cbn. by rewrite lookup_empty. Qed.

Lemma applyAccepted_ok a c : ok_albums a → ok_albums (applyAccepted a c).
Proof.
  intros Ha. unfold applyAccepted. destruct (accepted c) eqn:E; [|done].
  intros id r. unfold applyAlbum. cbn [albums].
  destruct (decide (id = AlbumID c)) as [->|Hne].
  - rewrite lookup_insert_eq. intros [= <-]. apply applyRecord_ok; [by apply ok_record_at|].
    intros p. by apply accepted_plain.
  - rewrite lookup_insert_ne by done. apply Ha.
Qed.

Lemma albums_ok a cs : ok_albums a → ok_albums (Apply a cs).
Proof.
  rewrite albums_foldl. revert a. induction cs as [|c cs IH]; intros a Ha; [done|].
  by apply IH, applyAccepted_ok.
Qed.

Lemma album_accept_merge a c : applyAccepted a c = mergeAlbum a (applyAccepted NewAlbums c).
Proof.
  rewrite mergeAlbum_eq by apply applyAccepted_ok, ok_New. unfold applyAccepted.
  destruct (accepted c); destruct a as [m n].
  - unfold applyAlbum, record. simpl. rewrite !raise_to_max. f_equal; [|lia].
    rewrite lookup_empty. simpl. apply map_eq. intros id. rewrite lookup_join_maps, insert_empty.
    destruct (decide (id = AlbumID c)) as [->|Hne].
    + rewrite lookup_insert_eq, lookup_singleton_eq.
      destruct (m !! AlbumID c) as [r|]; [exact (f_equal Some (applyRecord_join r c))|done].
    + rewrite lookup_insert_ne, lookup_singleton_ne by done. by destruct (m !! id).
  - simpl. rewrite join_maps_empty_r. f_equal. lia.
Qed.

#[export] Instance album_laws : ReplicaLaws Albums AlbumChange ok_albums (λ _, True).
Proof.
  split; unfold merge, fresh, delta; simpl.
  - apply ok_New.
  - intros c _. apply applyAccepted_ok, ok_New.
  - apply mergeAlbum_ok.
  - intros s t u Hs Ht Hu. rewrite !mergeAlbum_eq by auto using mergeAlbum_ok. simpl.
    f_equal; [|lia]. apply map_eq. intros id. rewrite !lookup_join_maps.
    specialize (Hs id). specialize (Ht id). specialize (Hu id).
    destruct (albums s !! id), (albums t !! id), (albums u !! id); try done.
    f_equal. apply joinRecord_assoc; auto.
  - intros s t Hs Ht. rewrite !mergeAlbum_eq by done. f_equal; [|lia].
    apply map_eq. intros id. rewrite !lookup_join_maps. specialize (Hs id). specialize (Ht id).
    destruct (albums s !! id), (albums t !! id); try done. f_equal. apply joinRecord_comm; auto.
  - intros s Hs. rewrite mergeAlbum_eq by done. destruct s as [m n]. simpl. f_equal; [|lia].
    apply join_maps_idem, joinRecord_idem.
  - intros s Hs. rewrite mergeAlbum_eq by done. destruct s as [m n]. simpl. f_equal; [|lia].
    apply join_maps_empty_l.
  - intros s c _ _. apply album_accept_merge.
Qed.

Lemma apply_set a cs ds :
  ok_albums a → (∀ c, c ∈ cs ↔ c ∈ ds) → Apply a cs = Apply a ds.
Proof.
  intros Ha Hset. rewrite !albums_foldl.
  refine (applyAll_set ok_albums (λ _, True) a cs ds Ha _ _ Hset); by apply true_all.
Qed.

Lemma merge_replays (css : list (list AlbumChange)) :
  MergeAlbums (Some ∘ Apply NewAlbums <$> css) = Apply NewAlbums (concat css).
Proof.
  rewrite albums_foldl.
  transitivity (mergeOpt (C := AlbumChange) (Some ∘ Apply NewAlbums <$> css)); [done|].
  rewrite mergeOpt_all.
  transitivity (mergeAll (applyAll (C := AlbumChange) NewAlbums <$> css)).
  - f_equal. induction css as [|l css IH]; [done|]. cbn. rewrite albums_foldl. by f_equal.
  - refine (mergeAll_replay ok_albums (λ _, True) css _).
    apply Forall_true. intros l. apply true_all.
Qed.
End convergence.
