(* ===== verification/AlbumSpec.v ===== *)
(** * AlbumSpec: the theorems of photo albums

    What a change may carry, convergence, what a resolved album shows, what the local
    operations do, and snapshots. *)

From S2P Require Import Prelude Replica PosKey GoText GoPath GoEncoding Album.

(** ** Live items *)

#[export] Instance item_less_weak : StrictWeak item_less.
Proof. unfold item_less. apply _. Qed.

Lemma elem_of_liveItems r it :
  it ∈ liveItems r ↔ ∃ x, items r !! lkey it = Some x ∧ readItem r (lkey it) x = Some it.
Proof.
  unfold liveItems. rewrite elem_of_sort_by, list_elem_of_omap. split.
  - intros ([k x] & Hin%elem_of_map_to_list & Hr). simpl in *.
    assert (lkey it = k) as ->; [|by exists x]. revert Hr. unfold readItem.
    repeat case_decide; try done. case_match; [done|]. by intros [= <-].
  - intros (x & Hx & Hr). exists (lkey it, x). by rewrite elem_of_map_to_list.
Qed.

Lemma readItem_key r k x it : readItem r k x = Some it → lkey it = k ∧ lphoto it = photo x.
Proof. unfold readItem. case_decide; [done|]. case_match; [done|]. by intros [= <-]. Qed.

Lemma readItem_pos r k x it : readItem r k x = Some it →
  lpos it = match moves r !! k with
            | Some mv => if greater (mkey mv) k then mpos mv else pos x
            | None => pos x
            end.
Proof. unfold readItem. case_decide; [done|]. destruct (covers _ _); [done|]. by intros [= <-]. Qed.

Lemma NoDup_liveKeys r : NoDup (lkey <$> liveItems r).
Proof.
  unfold liveItems. rewrite (sort_by_perm item_less).
  apply (NoDup_fmap_omap _ _ fst); [|apply NoDup_fst_map_to_list].
  intros [k x] it Hr. by apply readItem_key in Hr as [-> _].
Qed.

Lemma NoDup_liveItems r : NoDup (liveItems r).
Proof. apply (NoDup_fmap_1 lkey), NoDup_liveKeys. Qed.

Lemma liveItems_sorted r : StronglySorted (not_after item_less) (liveItems r).
Proof. apply (sort_by_sorted item_less). Qed.

Lemma item_less_key x y : item_less x y = false → item_less y x = false → lkey x = lkey y.
Proof.
  intros H1 H2. destruct (lex_incomparable _ _ _ _ _ H1 H2) as (_ & H3 & H4).
  by apply (key_incomparable _ _ _ _ H3 H4).
Qed.

(** A list is the live items of a record when it holds them once each, in order. *)
Lemma liveItems_unique r l :
  NoDup l → StronglySorted (not_after item_less) l →
  (∀ it, it ∈ l ↔ ∃ x, items r !! lkey it = Some x ∧ readItem r (lkey it) x = Some it) →
  liveItems r = l.
Proof.
  intros Hnd Hs Hl. apply (StronglySorted_unique_strong (not_after item_less)).
  - intros x y Hx Hy H1 H2. apply (fmap_NoDup_inj lkey (liveItems r)); [apply NoDup_liveKeys|done|..].
    + by apply elem_of_liveItems, Hl.
    + by apply item_less_key.
  - apply liveItems_sorted.
  - done.
  - apply NoDup_Permutation; [apply NoDup_liveItems|done|].
    intros it. by rewrite elem_of_liveItems, Hl.
Qed.

Lemma liveItems_separated r x y :
  x ∈ liveItems r → y ∈ liveItems r → item_less x y = false → item_less y x = false → x = y.
Proof.
  intros Hx Hy H1 H2. apply (fmap_NoDup_inj lkey (liveItems r)); [apply NoDup_liveKeys|done..|].
  by apply item_less_key.
Qed.

(** ** The photos shown *)

Definition hash (it : liveItem) : string := PlaintextHash (lphoto it).
Definition shownOf (it : liveItem) : ResolvedItem := mkResolvedItem (lkey it) (lpos it) (lphoto it).

(** The first of the photos with each plaintext, in order. *)
Fixpoint firsts (seen : gset string) (l : list liveItem) : list liveItem :=
  match l with
  | [] => []
  | it :: l => if decide (hash it ∈ seen) then firsts seen l else it :: firsts ({[hash it]} ∪ seen) l
  end.

Lemma keepPhoto_firsts l out seen manifests :
  foldl keepPhoto (out, seen, manifests) l =
    (out ++ (shownOf <$> firsts seen l), list_to_set (hash <$> firsts seen l) ∪ seen,
     list_to_set (Manifest ∘ lphoto <$> firsts seen l) ∪ manifests).
Proof.
  revert out seen manifests. induction l as [|it l IH]; intros out seen manifests; simpl.
  - rewrite app_nil_r. f_equal; [f_equal|]; set_solver.
  - fold (hash it). case_decide; [by rewrite IH|].
    rewrite IH. simpl. rewrite <-app_assoc. f_equal; [f_equal|]; set_solver.
Qed.

Lemma resolve_eq r id :
  resolve r id =
    mkResolved id (valueOf r (title r)) (valueOf r (caption r))
      (if decide (valueOf r (cover r) ≠ "" ∧
          valueOf r (cover r) ∈ Manifest ∘ lphoto <$> firsts ∅ (liveItems r)) then valueOf r (cover r)
       else default "" (Manifest ∘ lphoto <$> head (firsts ∅ (liveItems r))))
      (shownOf <$> firsts ∅ (liveItems r)).
Proof.
  unfold resolve. rewrite keepPhoto_firsts. simpl. f_equal.
  set (l := firsts ∅ (liveItems r)). set (co := valueOf r (cover r)).
  destruct (decide (co = "")) as [->|Hne].
  - rewrite (bool_decide_eq_true_2 (_ = "")) by done. cbn [negb andb].
    rewrite decide_False by tauto. by destruct l.
  - rewrite (bool_decide_eq_false_2 (co = "")) by done. cbn [negb andb].
    destruct (decide (co ∈ Manifest ∘ lphoto <$> l)) as [Hin|Hout].
    + rewrite bool_decide_eq_true_2 by set_solver. by rewrite decide_True.
    + rewrite bool_decide_eq_false_2 by set_solver. rewrite decide_False by tauto. by destruct l.
Qed.

Lemma firsts_sublist seen l : firsts seen l `sublist_of` l.
Proof.
  revert seen. induction l as [|it l IH]; intros seen; simpl; [done|].
  case_decide; [by apply sublist_cons|by apply sublist_skip].
Qed.

Lemma firsts_sorted (R : liveItem → liveItem → Prop) seen l :
  StronglySorted R l → StronglySorted R (firsts seen l).
Proof.
  intros Hs. revert seen. induction Hs as [|x l Hs IH Hall]; intros seen; simpl; [constructor|].
  case_decide; [apply IH|]. constructor; [apply IH|]. rewrite Forall_forall in Hall |- *.
  intros y Hy. apply Hall. by apply (elem_of_sublist _ _ _ Hy), firsts_sublist.
Qed.

Lemma firsts_hashes seen l :
  NoDup (hash <$> firsts seen l) ∧ Forall (λ it, hash it ∉ seen) (firsts seen l).
Proof.
  revert seen. induction l as [|it l IH]; intros seen; simpl; [by split; constructor|].
  case_decide; [done|]. destruct (IH ({[hash it]} ∪ seen)) as [H1 H2].
  rewrite Forall_forall in H2. split.
  - rewrite fmap_cons. apply NoDup_cons. split; [|done].
    intros (x & Hx & Hin)%list_elem_of_fmap. specialize (H2 x Hin). set_solver.
  - apply Forall_cons. split; [done|]. apply Forall_forall. intros x Hx.
    specialize (H2 x Hx). set_solver.
Qed.

(** An item is shown when no item with its plaintext sorts before it. *)
Lemma elem_of_firsts seen l it :
  NoDup l → StronglySorted (not_after item_less) l →
  (∀ x y, x ∈ l → y ∈ l → item_less x y = false → item_less y x = false → x = y) →
  it ∈ firsts seen l ↔
    it ∈ l ∧ (hash it ∉ seen) ∧ (∀ x, x ∈ l → hash x = hash it → x = it ∨ item_less it x = true).
Proof.
  revert seen. induction l as [|y l IH]; intros seen Hnd Hs Hanti; simpl; [set_solver|].
  apply NoDup_cons in Hnd as [Hy Hnd]. inversion Hs as [|? ? Hs' Hall]; subst.
  rewrite Forall_forall in Hall.
  assert (∀ x z, x ∈ l → z ∈ l → item_less x z = false → item_less z x = false → x = z) as Hanti'
    by (intros; apply Hanti; set_solver).
  assert (∀ x, x ∈ l → item_less y x = true) as Hlt.
  { intros x Hx. destruct (item_less y x) eqn:E; [done|]. exfalso. apply Hy.
    rewrite (Hanti y x); [done|set_solver..|by apply Hall]. }
  case_decide as Hseen.
  - rewrite IH by done. split.
    + intros (Hin & Hh & Hf). split_and!; [set_solver|done|].
      intros x [->|Hx]%elem_of_cons Heq; [congruence|by apply Hf].
    + intros (Hin & Hh & Hf). apply elem_of_cons in Hin as [->|Hin]; [done|].
      split_and!; [done..|]. intros x Hx. apply Hf. set_solver.
  - rewrite elem_of_cons, IH by done. split.
    + intros [->|(Hin & Hh & Hf)].
      * split_and!; [set_solver|done|]. intros x [->|Hx]%elem_of_cons _; auto.
      * split_and!; [set_solver..|]. intros x [->|Hx]%elem_of_cons Heq; [set_solver|by apply Hf].
    + intros (Hin & Hh & Hf). destruct (decide (it = y)) as [->|Hne]; [by left|right].
      apply elem_of_cons in Hin as [->|Hin]; [done|]. split_and!; [done| |].
      * intros [Heq%elem_of_singleton|?]%elem_of_union; [|done].
        destruct (Hf y) as [->|Hl]; [set_solver|done..|].
        pose proof (Hall it Hin) as Hn. unfold not_after in Hn. congruence.
      * intros x Hx. apply Hf. set_solver.
Qed.

Lemma shown_sorted r :
  StronglySorted (λ x y, (RPos x < RPos y)%N ∨ (RPos x = RPos y ∧ greater (RKey y) (RKey x) = true))
    (shownOf <$> firsts ∅ (liveItems r)).
Proof.
  assert (NoDup (firsts ∅ (liveItems r))) as Hnd
    by (apply (NoDup_fmap_1 hash), firsts_hashes).
  pose proof (firsts_sorted _ ∅ _ (liveItems_sorted r)) as Hs.
  pose proof (λ x Hx, elem_of_sublist _ _ x Hx (firsts_sublist ∅ (liveItems r))) as Hin.
  revert Hnd Hs Hin.
  generalize (firsts ∅ (liveItems r)) as l. intros l Hnd Hs Hin.
  induction Hs as [|x l Hs IH Hall]; simpl; constructor.
  - apply NoDup_cons in Hnd as [_ Hnd]. apply IH; [done|]. intros; apply Hin; set_solver.
  - apply NoDup_cons in Hnd as [Hx _]. apply Forall_fmap. rewrite Forall_forall in Hall |- *.
    intros y Hy. simpl. specialize (Hall y Hy). unfold not_after in Hall.
    assert (item_less x y = true) as Hlt.
    { destruct (item_less x y) eqn:E; [done|]. exfalso. apply Hx.
      rewrite (liveItems_separated r x y); [done|apply Hin; set_solver..|done|done]. }
    revert Hlt. unfold item_less, lex_less, key_less, flip_less.
    case_decide as Hp; [by right|]. rewrite N.ltb_lt. by left.
Qed.

(** ** The clock is ahead of every write *)

Definition clocked_record (n : N) (r : albumRecord) : Prop :=
  ((KeyAt (createKey r) ≤ n)%N ∧ (KeyAt (delKey r) ≤ n)%N) ∧
  ((KeyAt (key (title r)) ≤ n)%N ∧ (KeyAt (key (caption r)) ≤ n)%N ∧ (KeyAt (key (cover r)) ≤ n)%N) ∧
  (∀ k it, items r !! k = Some it → (KeyAt k ≤ n)%N ∧ is_u64 (pos it)) ∧
  (∀ k mv, moves r !! k = Some mv → (KeyAt (mkey mv) ≤ n)%N ∧ is_u64 (mpos mv)).

Definition clocked (a : Albums) : Prop :=
  is_u64 (counter a) ∧ ∀ id r, albums a !! id = Some r → clocked_record (counter a) r.

(** The integers of a change are 64-bit. *)
Definition typed (c : AlbumChange) : Prop := is_u64 (At c) ∧ is_u64 (Pos c).

Lemma clocked_new n : clocked_record n newAlbumRecord.
Proof. unfold clocked_record. simpl. split_and!; try lia; intros k x; by rewrite lookup_empty. Qed.

Lemma albums_clocked_New : clocked NewAlbums.
Proof. split; [done|]. intros id r. cbn. by rewrite lookup_empty. Qed.

Lemma clocked_record_at a id : clocked a → clocked_record (counter a) (record a id).
Proof.
  intros [_ Ha]. unfold record. destruct (albums a !! id) as [r|] eqn:E; simpl; [by apply (Ha id)|].
  apply clocked_new.
Qed.

Lemma album_clocked_mono n m r : (n ≤ m)%N → clocked_record n r → clocked_record m r.
Proof.
  intros Hle ((?&?)&(?&?&?)&Hi&Hm). split_and!; try lia.
  - intros k it Hk. destruct (Hi k it Hk). split; [lia|done].
  - intros k mv Hk. destruct (Hm k mv Hk). split; [lia|done].
Qed.

Lemma raiseKey_at n k k' : (KeyAt k ≤ n)%N → (KeyAt k' ≤ n)%N → (KeyAt (raiseKey k k') ≤ n)%N.
Proof. intros. unfold raiseKey. by case_match. Qed.

Lemma joinReg_at n r o :
  (KeyAt (key r) ≤ n)%N → (KeyAt (key o) ≤ n)%N → (KeyAt (key (joinReg r o)) ≤ n)%N.
Proof. intros. unfold joinReg. by repeat case_match. Qed.

Lemma put_join_all `{Countable K} {V} (join : V → V → V) (P : K → V → Prop) k v m :
  (∀ a b, join a b = a ∨ join a b = b) → (∀ i x, m !! i = Some x → P i x) → P k v →
  ∀ i x, put_join join k v m !! i = Some x → P i x.
Proof.
  intros Hj Hm Hv i x. unfold put_join. destruct (decide (i = k)) as [->|Hne].
  - rewrite lookup_insert_eq. specialize (Hm k). destruct (m !! k) as [y|]; intros [= <-]; [|done].
    destruct (Hj y v) as [->| ->]; auto.
  - rewrite lookup_insert_ne by done. apply Hm.
Qed.

Lemma joinMove_choose a b : joinMove a b = a ∨ joinMove a b = b.
Proof. unfold joinMove. repeat case_match; auto. Qed.

Lemma apply_album_clocked n r c :
  clocked_record n r → (At c ≤ n)%N → is_u64 (Pos c) → clocked_record n (applyRecord r c).
Proof.
  intros ((?&?)&(?&?&?)&Hi&Hm) Hat Hp. unfold applyRecord.
  destruct r as [ck dk ti ca co its rm mvs]. simpl in *.
  assert (KeyAt (keyOf c) ≤ n)%N as Hk by done.
  assert (∀ v, KeyAt (key (mkReg true v (keyOf c))) ≤ n)%N as Hr by done.
  destruct (Item c) as [p|]; repeat case_decide; unfold clocked_record; simpl; split_and!;
    auto using raiseKey_at, joinReg_at.
  - apply (put_join_all joinItem); [apply joinItem_choose|done|done].
  - apply (put_join_all joinMove); [apply joinMove_choose|done|done].
  - apply (put_join_all joinMove); [apply joinMove_choose|done|done].
Qed.

Lemma applyAlbum_clocked a c : clocked a → typed c → clocked (applyAlbum a c).
Proof.
  intros Ha [Hat Hp]. pose proof (clocked_record_at a (AlbumID c) Ha) as Hr. destruct Ha as [Hu Ha].
  unfold clocked, applyAlbum. cbn [counter albums]. rewrite raise_to_max.
  split; [unfold is_u64 in *; lia|]. intros id r. destruct (decide (id = AlbumID c)) as [->|Hne].
  - rewrite lookup_insert_eq. intros [= <-]. apply apply_album_clocked; [|lia|done].
    by apply (album_clocked_mono (counter a)); [lia|].
  - rewrite lookup_insert_ne by done. intros Hid.
    apply (album_clocked_mono (counter a)); [lia|]. by apply (Ha id).
Qed.

Lemma albums_clocked `{AlbumEnv} a cs : clocked a → Forall typed cs → clocked (Apply a cs).
Proof.
  unfold Apply, ApplyReport. rewrite album_report_eq. simpl. intros Ha Hcs. revert a Ha.
  induction Hcs as [|c cs Hc Hcs IH]; intros a Ha; [done|]. apply IH.
  unfold applyAccepted. case_match; [by apply applyAlbum_clocked|done].
Qed.

Lemma clocked_lpos n r it : clocked_record n r → it ∈ liveItems r → is_u64 (lpos it) ∧ (KeyAt (lkey it) ≤ n)%N.
Proof.
  intros (_&_&Hi&Hm) (x & Hx & Hr)%elem_of_liveItems. destruct (Hi _ _ Hx) as [Hk Hp].
  split; [|done]. revert Hr. unfold readItem. case_decide; [done|]. case_match; [done|].
  intros [= <-]. simpl in *. destruct (moves r !! lkey it) as [mv|] eqn:E; [|done].
  case_match; [by apply (Hm _ _ E)|done].
Qed.

(** The key of the next local write is above every key the clock has seen. *)
Lemma next_above a k tag :
  is_u64 (counter a) → counter a ≠ MaxUint64 → (KeyAt k ≤ counter a)%N →
  greater (mkKey (peekAt a) tag) k = true.
Proof.
  intros Hu Hmax Hk. pose proof (sat_succ_spec (counter a) Hu) as (_ & _ & Hlt).
  specialize (Hlt Hmax). unfold greater, peekAt. simpl. rewrite decide_True by lia.
  apply N.ltb_lt. lia.
Qed.

Lemma covers_above k k' : greater k' k = true → covers k k' = false.
Proof. intros Hg. unfold covers. by rewrite (less_asym greater _ _ Hg), andb_false_r. Qed.

Lemma covers_new k k' : greater k k' = true → covers k k' = true.
Proof.
  intros Hg. unfold covers, isZero. rewrite Hg, andb_true_r, bool_decide_eq_false_2; [done|].
  intros ->. by rewrite greater_zero in Hg.
Qed.

(** ** Local operations *)

Section local.
Context `{AlbumEnv}.

(** A change as the local operations mint it. *)
Definition minted (tag : string) (a : Albums) (c : AlbumChange) : Prop :=
  Kind c = KindAlbum ∧ At c = peekAt a ∧ Writer c = tag ∧ is_u64 (Pos c).

Lemma local_spec tag a a' c c' :
  clocked a → minted tag a c → local_ a c = inr (a', c') →
  c' = c ∧ Validate c = None ∧ Apply a [c] = a' ∧ clocked a' ∧ counter a' = peekAt a ∧
  record a' (AlbumID c) = applyRecord (record a (AlbumID c)) c ∧
  albums a' !! AlbumID c = Some (record a' (AlbumID c)) ∧
  ∀ id, id ≠ AlbumID c → Album a' id = Album a id.
Proof.
  intros Ha (Hk & Hat & Hw & Hp). unfold local_. destruct (Validate c) eqn:Hv; [done|].
  intros [= <- <-]. pose proof (sat_succ_spec (counter a) (proj1 Ha)) as (Hu & Hle & _).
  unfold peekAt in Hat. split_and!; try done.
  - unfold Apply, ApplyReport. simpl. unfold Foreign. rewrite Hk. simpl. by rewrite Hv.
  - apply applyAlbum_clocked; [done|]. split; [by rewrite Hat|done].
  - unfold applyAlbum. cbn [counter]. rewrite raise_to_max. unfold peekAt. lia.
  - unfold record at 1, applyAlbum. cbn [albums]. by rewrite lookup_insert_eq.
  - unfold record, applyAlbum. cbn [albums]. by rewrite lookup_insert_eq.
  - intros id Hne. unfold Album, applyAlbum. cbn [albums]. by rewrite lookup_insert_ne.
Qed.

Lemma Album_eq a id :
  Album a id = if decide (live (record a id) = true) then Some (resolve (record a id) id) else None.
Proof.
  unfold Album, record. destruct (albums a !! id) as [r|]; simpl; [|done].
  by destruct (live r).
Qed.

Lemma appendPos_spec last : is_u64 last →
  is_u64 (appendPos last) ∧ (last ≤ appendPos last)%N ∧
  (last + AlbumPosStep ≤ MaxUint64 → appendPos last = last + AlbumPosStep)%N ∧
  (MaxUint64 < last + AlbumPosStep → appendPos last = MaxUint64)%N.
Proof.
  unfold is_u64, appendPos, wrap_u64, AlbumPosStep, MaxUint64. intros Hl.
  destruct (N.le_gt_cases (last + 2 ^ 16) (2 ^ 64 - 1)).
  - rewrite N.mod_small by lia. destruct (N.ltb_spec (last + 2 ^ 16) last); lia.
  - rewrite <-(N.mod_unique (last + 2 ^ 16) (2 ^ 64) 1 (last + 2 ^ 16 - 2 ^ 64)) by lia.
    destruct (N.ltb_spec (last + 2 ^ 16 - 2 ^ 64) last); lia.
Qed.

Lemma lastPos_spec l : Forall (λ it, (lpos it ≤ lastPos l)%N) l ∧
  (lastPos l = 0%N ∨ ∃ it, it ∈ l ∧ lastPos l = lpos it).
Proof.
  unfold lastPos. induction l as [|it l IH] using rev_ind; [by split; [constructor|left]|].
  rewrite foldl_snoc'. set (m := foldl _ _ _) in *. destruct IH as [IH1 IH2]. rewrite Forall_forall in IH1.
  destruct (N.ltb_spec m (lpos it)).
  - split; [|right; exists it; set_solver]. apply Forall_forall.
    intros x [Hx%IH1| ->%list_elem_of_singleton]%elem_of_app; lia.
  - split.
    + apply Forall_forall. intros x [Hx%IH1| ->%list_elem_of_singleton]%elem_of_app; lia.
    + destruct IH2 as [?|(x & ? & ?)]; [by left|right; exists x; set_solver].
Qed.

Lemma lastPos_u64 n r : clocked_record n r → is_u64 (lastPos (liveItems r)).
Proof.
  intros Hr. destruct (lastPos_spec (liveItems r)) as [_ [->|(it & Hin & ->)]]; [done|].
  by apply (clocked_lpos n r).
Qed.

Lemma firsts_snoc seen l x :
  firsts seen (l ++ [x]) =
    firsts seen l ++ (if decide (hash x ∈ seen ∨ hash x ∈ hash <$> firsts seen l) then [] else [x]).
Proof.
  revert seen. induction l as [|y l IH]; intros seen; simpl.
  - destruct (decide (hash x ∈ seen)); [by rewrite decide_True by auto|].
    by rewrite decide_False by set_solver.
  - case_decide as Hy; [apply IH|]. rewrite IH. simpl. do 2 f_equal.
    apply decide_ext. set_solver.
Qed.

(** Adding a photo under a key no remove or move names, above every key. *)
Lemma liveItems_add n r k p q :
  clocked_record n r → (∀ k', (KeyAt k' ≤ n)%N → greater k k' = true) →
  k ∉ removed r → moves r !! k = None → (lastPos (liveItems r) ≤ q)%N →
  let r' := mkRecord (createKey r) (delKey r) (title r) (caption r) (cover r)
    (put_join joinItem k (mkItem p q) (items r)) (removed r) (moves r) in
  liveItems r' = liveItems r ++ [mkLive k q p].
Proof.
  intros Hr Hk Hrm Hmv Hq r'. pose proof Hr as ((_&Hd)&_&Hi&_).
  assert (items r !! k = None) as Hnew.
  { destruct (items r !! k) eqn:E; [|done]. destruct (Hi _ _ E) as [Hle%Hk _].
    by rewrite less_irrefl in Hle. }
  assert (put_join joinItem k (mkItem p q) (items r) = <[k := mkItem p q]> (items r)) as Hput
    by (unfold put_join; by rewrite Hnew).
  apply liveItems_unique.
  - apply NoDup_app. split_and!; [apply NoDup_liveItems| |apply NoDup_singleton].
    intros it Hin ->%list_elem_of_singleton. destruct (clocked_lpos n r _ Hr Hin) as [_ Hle%Hk].
    by rewrite less_irrefl in Hle.
  - apply StronglySorted_snoc; [apply liveItems_sorted|]. apply Forall_forall. intros it Hin.
    destruct (clocked_lpos n r _ Hr Hin) as [_ Hle%Hk].
    destruct (lastPos_spec (liveItems r)) as [Hall _]. rewrite Forall_forall in Hall.
    specialize (Hall it Hin). unfold not_after, item_less, lex_less, key_less, flip_less. simpl.
    case_decide; [by apply (less_asym greater)|]. apply N.ltb_ge. lia.
  - intros it. rewrite elem_of_app, list_elem_of_singleton, elem_of_liveItems. unfold r'.
    cbn [items]. rewrite Hput. unfold readItem. cbn [removed delKey moves].
    destruct (decide (lkey it = k)) as [->|Hne].
    + rewrite lookup_insert_eq, Hnew. split.
      * intros [(x & ? & _)| ->]; [done|]. eexists. split; [done|].
        rewrite decide_False by done. rewrite (covers_above (delKey r) k) by auto. by rewrite Hmv.
      * intros (x & [= <-] & Hx). right. revert Hx. rewrite decide_False by done.
        case_match; [done|]. rewrite Hmv. simpl. by intros [= <-].
    + rewrite lookup_insert_ne by congruence. split; [intros [?| ->]; done|by left].
Qed.

(** Removing an item. *)
Lemma liveItems_remove r k :
  let r' := mkRecord (createKey r) (delKey r) (title r) (caption r) (cover r)
    (items r) ({[k]} ∪ removed r) (moves r) in
  liveItems r' = filter (λ it, lkey it ≠ k) (liveItems r).
Proof.
  intros r'. apply liveItems_unique.
  - apply NoDup_filter, NoDup_liveItems.
  - apply StronglySorted_filter, liveItems_sorted.
  - intros it. rewrite list_elem_of_filter, elem_of_liveItems. unfold r', readItem.
    cbn [items removed delKey moves]. split.
    + intros (Hne & x & Hx & Hr). exists x. split; [done|]. revert Hr.
      case_decide; [done|]. rewrite decide_False by set_solver. done.
    + intros (x & Hx & Hr). revert Hr. case_decide as Hin; [done|].
      split; [set_solver|]. exists x. split; [done|]. by rewrite decide_False by set_solver.
Qed.

Definition relocate (k : posKey) (p : N) (it : liveItem) : liveItem :=
  if decide (lkey it = k) then mkLive (lkey it) p (lphoto it) else it.

(** Moving an item, under a key above every key. *)
Lemma liveItems_move n r k p w :
  clocked_record n r → (∀ k', (KeyAt k' ≤ n)%N → greater w k' = true) →
  let r' := mkRecord (createKey r) (delKey r) (title r) (caption r) (cover r)
    (items r) (removed r) (put_join joinMove k (mkMove p w) (moves r)) in
  liveItems r' = sort_by item_less (relocate k p <$> liveItems r).
Proof.
  intros Hr Hw r'. pose proof Hr as (_&_&Hi&Hm).
  assert (put_join joinMove k (mkMove p w) (moves r) = <[k := mkMove p w]> (moves r)) as Hput.
  { unfold put_join. destruct (moves r !! k) as [mv|] eqn:E; [|done]. f_equal.
    destruct (Hm _ _ E) as [Hle%Hw _]. unfold joinMove. simpl.
    by rewrite (less_asym greater _ _ Hle), Hle. }
  assert (∀ it, lkey (relocate k p it) = lkey it) as Hkey by (intros; unfold relocate; by case_decide).
  assert (∀ k' x, items r !! k' = Some x → readItem r' k' x = relocate k p <$> readItem r k' x) as Hread.
  { intros k' x Hx. unfold r', readItem. cbn [items removed delKey moves]. rewrite Hput.
    case_decide; [done|]. case_match; [done|]. simpl. f_equal. unfold relocate. simpl.
    case_decide as Hk; [subst k'|by rewrite lookup_insert_ne].
    rewrite lookup_insert_eq. simpl. destruct (Hi _ _ Hx) as [Hle%Hw _]. by rewrite Hle. }
  apply liveItems_unique.
  - apply (NoDup_sort_by item_less), (NoDup_fmap_1 lkey).
    assert (lkey <$> (relocate k p <$> liveItems r) = lkey <$> liveItems r) as ->; [|apply NoDup_liveKeys].
    rewrite <-list_fmap_compose. apply list_fmap_ext. intros i it _. apply Hkey.
  - apply (sort_by_sorted item_less).
  - intros it. rewrite elem_of_sort_by, list_elem_of_fmap. split.
    + intros (y & -> & (x & Hx & Hy)%elem_of_liveItems). rewrite Hkey. exists x. split; [done|].
      change (items r') with (items r) in *. by rewrite Hread, Hy.
    + intros (x & Hx & Hy). change (items r') with (items r) in Hx. rewrite Hread in Hy by done.
      apply fmap_Some in Hy as (y & Hy & ->). rewrite Hkey in *. exists y. split; [done|].
      apply elem_of_liveItems. by exists x.
Qed.

(** Every write of the clocked record is covered by a tombstone above the clock. *)
Section deleted.
Context (n : N) (r r' : albumRecord) (Hr : clocked_record n r)
  (Hd : ∀ k, (KeyAt k ≤ n)%N → greater (delKey r') k = true).

Lemma deleted_items : items r' = items r → liveItems r' = [].
Proof.
  intros Hits. destruct Hr as (_&_&Hi&_).
  destruct (liveItems r') as [|it l] eqn:E; [done|]. assert (it ∈ liveItems r') as Hin by (rewrite E; left).
  apply elem_of_liveItems in Hin as (x & Hx & Hit). rewrite Hits in Hx. destruct (Hi _ _ Hx) as [Hle _].
  revert Hit. unfold readItem. case_decide; [done|]. by rewrite (covers_new (delKey r')) by auto.
Qed.

Lemma deleted_value reg : (KeyAt (key reg) ≤ n)%N → valueOf r' reg = "".
Proof. intros Hle. unfold valueOf. by rewrite (covers_new (delKey r')), orb_true_r by auto. Qed.
End deleted.

(** The four writes of the item and lifecycle operations. *)
Lemma apply_create r c : Op c = OpCreate →
  applyRecord r c = mkRecord (raiseKey (createKey r) (keyOf c)) (delKey r)
    (if decide (Title c ≠ "") then joinReg (title r) (mkReg true (Title c) (keyOf c)) else title r)
    (caption r) (cover r) (items r) (removed r) (moves r).
Proof. intros Hop. unfold applyRecord. destruct r. by rewrite Hop. Qed.

Lemma apply_remove r c : Op c = OpRemoveItem →
  applyRecord r c = mkRecord (createKey r) (delKey r) (title r) (caption r) (cover r) (items r)
    ({[Base c]} ∪ removed r) (moves r).
Proof. intros Hop. unfold applyRecord. destruct r. by rewrite Hop. Qed.

Lemma apply_move r c : Op c = OpMoveItem →
  applyRecord r c = mkRecord (createKey r) (delKey r) (title r) (caption r) (cover r) (items r)
    (removed r) (put_join joinMove (Base c) (mkMove (Pos c) (keyOf c)) (moves r)).
Proof. intros Hop. unfold applyRecord. destruct r. by rewrite Hop. Qed.

Lemma apply_delete r c : Op c = OpDelete →
  applyRecord r c = mkRecord (createKey r) (raiseKey (delKey r) (keyOf c)) (title r) (caption r)
    (cover r) (items r) (removed r) (moves r).
Proof. intros Hop. unfold applyRecord. destruct r. by rewrite Hop. Qed.

Lemma apply_add r c p : Op c = OpAddItem → Item c = Some p →
  applyRecord r c = mkRecord (createKey r) (delKey r) (title r) (caption r) (cover r)
    (put_join joinItem (keyOf c) (mkItem p (Pos c)) (items r)) (removed r) (moves r).
Proof. intros Hop Hp. unfold applyRecord. destruct r. by rewrite Hop, Hp. Qed.

(** An album created anew above the tombstone of everything it held. *)
Lemma recreated n r c id :
  (∀ k, (KeyAt k ≤ n)%N → greater (delKey r) k = true) → clocked_record n (mkRecord (createKey r) zeroKey
    (title r) (caption r) (cover r) (items r) (removed r) (moves r)) →
  Op c = OpCreate → greater (keyOf c) (delKey r) = true →
  live (applyRecord r c) = true ∧
  resolve (applyRecord r c) id = mkResolved id (Title c) "" "" [].
Proof.
  intros Hd Hr Hop Hg. pose proof Hr as ((Hck&_)&(Ht&Hca&Hco)&_). simpl in *.
  assert (∀ k, (KeyAt k ≤ n)%N → greater (keyOf c) k = true) as Hk.
  { intros k Hle. apply (less_trans (less := greater) _ (delKey r)); auto. }
  rewrite apply_create by done. split.
  - unfold live. cbn [createKey delKey]. unfold raiseKey. rewrite (Hk _ Hck), Hg, andb_true_r.
    unfold isZero. rewrite bool_decide_eq_false_2; [done|]. intros Hz.
    rewrite Hz, greater_zero in Hg. done.
  - rewrite resolve_eq. set (r' := mkRecord _ _ _ _ _ _ _ _).
    assert (∀ k, (KeyAt k ≤ n)%N → greater (delKey r') k = true) as Hd' by done.
    rewrite (deleted_items n _ r' Hr Hd' eq_refl). cbn [firsts fmap list_fmap head default fmap option_fmap option_map].
    rewrite (deleted_value n r' Hd' (caption r')), (deleted_value n r' Hd' (cover r')) by done.
    f_equal. unfold r' at 2. cbn [title]. case_decide as Htitle.
    + unfold valueOf. assert (joinReg (title r) (mkReg true (Title c) (keyOf c)) = mkReg true (Title c) (keyOf c)) as ->.
      { unfold joinReg. simpl. destruct (set (title r)); [|done]. simpl.
        by rewrite (less_asym greater _ _ (Hk _ Ht)), (Hk _ Ht). }
      simpl. by rewrite covers_above.
    + rewrite (deleted_value n r' Hd') by done. destruct (decide (Title c = "")); [done|tauto].
Qed.
End local.

(** ** Maps of least values *)

(** A map holds at each key the least of the values that were written there. *)
Definition represents `{Countable K} {V} (less : V → V → bool) (m : gmap K V) (W : K → V → Prop) : Prop :=
  ∀ k, match m !! k with
       | Some v => W k v ∧ ∀ w, W k w → less w v = false
       | None => ∀ w, ¬ W k w
       end.

Lemma represents_ext `{Countable K} {V} (less : V → V → bool) (m : gmap K V) (W W' : K → V → Prop) :
  (∀ k v, W k v ↔ W' k v) → represents less m W → represents less m W'.
Proof.
  intros HW Hm k. specialize (Hm k). destruct (m !! k).
  - destruct Hm as [Hv Hl]. split; [by apply HW|]. intros w Hw. apply Hl. by apply HW.
  - intros w Hw. apply (Hm w). by apply HW.
Qed.

Lemma represents_put `{Countable K} {V} (less : V → V → bool) `{!StrictWeak less} join (m : gmap K V) W k0 v0 :
  (∀ a b, join a b = min_by less a b) → represents less m W →
  represents less (put_join join k0 v0 m) (λ k v, W k v ∨ (k = k0 ∧ v = v0)).
Proof.
  intros Hj Hm k. unfold put_join. specialize (Hm k). destruct (decide (k = k0)) as [->|Hne].
  - rewrite lookup_insert_eq. destruct (m !! k0) as [old|].
    + destruct Hm as [Hold Hl]. rewrite Hj. unfold min_by. destruct (less v0 old) eqn:E.
      * split; [by right|]. intros w [Hw|[_ ->]]; [|apply less_irrefl].
        destruct (less w v0) eqn:E'; [|done]. specialize (Hl w Hw). by rewrite (less_trans w v0 old) in Hl.
      * split; [by left|]. intros w [Hw|[_ ->]]; auto.
    + split; [by right|]. intros w [Hw|[_ ->]]; [by destruct (Hm w)|apply less_irrefl].
  - rewrite lookup_insert_ne by done. destruct (m !! k) as [v|].
    + destruct Hm as [Hv Hl]. split; [by left|]. intros w [Hw|[? _]]; [by apply Hl|done].
    + intros w [Hw|[? _]]; [by apply (Hm w)|done].
Qed.

(** ** What the writes say *)

Section history.
Context `{AlbumEnv}.
Implicit Types (cs : list AlbumChange) (id : string) (k : posKey).

(** The accepted writes of an album with a given op. *)
Definition wrote (cs : list AlbumChange) (id : string) (op : N) (c : AlbumChange) : Prop :=
  c ∈ cs ∧ accepted c = true ∧ AlbumID c = id ∧ Op c = op.

Lemma wrote_snoc cs c id op d :
  wrote (cs ++ [c]) id op d ↔ wrote cs id op d ∨ (d = c ∧ wrote [c] id op c).
Proof.
  unfold wrote. rewrite elem_of_app, !list_elem_of_singleton. split.
  - intros ([?| ->] & ?); [by left|by right].
  - intros [?|(-> & ?)]; tauto.
Qed.

Lemma exists_wrote_snoc cs c id op (P : AlbumChange → Prop) :
  (∃ d, wrote (cs ++ [c]) id op d ∧ P d) ↔ (∃ d, wrote cs id op d ∧ P d) ∨ (wrote [c] id op c ∧ P c).
Proof.
  setoid_rewrite wrote_snoc. split.
  - intros (d & [?|[-> ?]] & ?); eauto.
  - intros [(d & ? & ?)|[? ?]]; eauto.
Qed.

Lemma record_nil id : record (Apply NewAlbums []) id = newAlbumRecord.
Proof. unfold record. cbn. by rewrite lookup_empty. Qed.

Lemma record_snoc cs c id :
  record (Apply NewAlbums (cs ++ [c])) id =
    if decide (accepted c = true ∧ AlbumID c = id)
    then applyRecord (record (Apply NewAlbums cs) id) c else record (Apply NewAlbums cs) id.
Proof.
  unfold Apply, ApplyReport. rewrite !album_report_eq. simpl. rewrite foldl_snoc'.
  set (a := foldl _ _ _). unfold applyAccepted. destruct (accepted c) eqn:Ha.
  - case_decide as Hid; unfold applyAlbum, record at 1; cbn [albums].
    + destruct Hid as [_ <-]. by rewrite lookup_insert_eq.
    + rewrite lookup_insert_ne; [done|]. intros <-. by apply Hid.
  - by rewrite decide_False by (intros [? _]; done).
Qed.

Lemma applyRecord_fields r c :
  let r' := applyRecord r c in
  createKey r' = (if decide (Op c = OpCreate) then raiseKey (createKey r) (keyOf c) else createKey r) ∧
  delKey r' = (if decide (Op c = OpDelete) then raiseKey (delKey r) (keyOf c) else delKey r) ∧
  removed r' = (if decide (Op c = OpRemoveItem) then {[Base c]} ∪ removed r else removed r) ∧
  items r' = match Item c with
    | Some p => if decide (Op c = OpAddItem) then put_join joinItem (keyOf c) (mkItem p (Pos c)) (items r)
                else items r
    | None => items r
    end ∧
  moves r' = (if decide (Op c = OpMoveItem) then put_join joinMove (Base c) (mkMove (Pos c) (keyOf c)) (moves r) else moves r).
Proof.
  unfold applyRecord. destruct r as [ck dk ti ca co its rm mvs].
  unfold OpCreate, OpSetTitle, OpSetCaption, OpSetCover, OpAddItem, OpRemoveItem, OpMoveItem, OpDelete.
  destruct (Item c); repeat case_decide; simpl; try done; lia.
Qed.

Lemma raiseKey_greater a b k : greater (raiseKey a b) k = true ↔ greater a k = true ∨ greater b k = true.
Proof.
  unfold raiseKey. destruct (greater b a) eqn:E; (split; [tauto|]).
  - intros [Hk|Hk]; [by apply (less_trans (less := greater) b a k)|done].
  - intros [Hk|Hk]; [done|]. destruct (greater a k) eqn:Ek; [done|].
    pose proof (less_ntrans (less := greater) b a k E Ek). congruence.
Qed.

Lemma accepted_item c : accepted c = true → Op c = OpAddItem → is_Some (Item c).
Proof.
  intros [_ Hv%bool_decide_eq_true]%andb_true_iff Hop. revert Hv. unfold Validate. rewrite Hop.
  repeat case_decide; try done. by destruct (Item c).
Qed.

Lemma accepted_writer c : accepted c = true → keyOf c ≠ zeroKey.
Proof.
  intros [_ Hv%bool_decide_eq_true]%andb_true_iff [= _ Hw]. revert Hv. unfold Validate.
  by rewrite decide_True.
Qed.

(** A key is stored when a write minted it. *)
Lemma items_history cs id k :
  is_Some (items (record (Apply NewAlbums cs) id) !! k) ↔ ∃ c, wrote cs id OpAddItem c ∧ keyOf c = k.
Proof.
  induction cs as [|c cs IH] using rev_ind.
  - split; [|by intros (c & (Hc & _) & _); apply elem_of_nil in Hc].
    rewrite record_nil. cbn. rewrite lookup_empty. by intros [].
  - rewrite exists_wrote_snoc, <-IH, record_snoc. unfold wrote. rewrite list_elem_of_singleton.
    case_decide as Hc; [|tauto]. destruct Hc as [Ha Hid].
    destruct (applyRecord_fields (record (Apply NewAlbums cs) id) c) as (_&_&_&->&_).
    destruct (decide (Op c = OpAddItem)) as [Hop|Hop].
    + destruct (accepted_item c Ha Hop) as [p Hp]. rewrite Hp. unfold put_join.
      destruct (decide (k = keyOf c)) as [->|Hne].
      * rewrite lookup_insert_eq. split; [|by intros _; eexists]. intros _. right. done.
      * rewrite lookup_insert_ne by done. split; [by left|]. intros [?|(_ & ?)]; [done|congruence].
    + destruct (Item c); tauto.
Qed.

Lemma removed_history cs id k :
  k ∈ removed (record (Apply NewAlbums cs) id) ↔ ∃ c, wrote cs id OpRemoveItem c ∧ Base c = k.
Proof.
  induction cs as [|c cs IH] using rev_ind.
  - split; [|by intros (c & (Hc & _) & _); apply elem_of_nil in Hc].
    rewrite record_nil. cbn. set_solver.
  - rewrite exists_wrote_snoc, <-IH, record_snoc. unfold wrote. rewrite list_elem_of_singleton.
    case_decide as Hc; [|tauto]. destruct Hc as [Ha Hid].
    destruct (applyRecord_fields (record (Apply NewAlbums cs) id) c) as (_&_&->&_).
    case_decide; set_solver.
Qed.

Lemma tombstone_history cs id k :
  greater (delKey (record (Apply NewAlbums cs) id)) k = true ↔
  ∃ c, wrote cs id OpDelete c ∧ greater (keyOf c) k = true.
Proof.
  induction cs as [|c cs IH] using rev_ind.
  - split; [|by intros (c & (Hc & _) & _); apply elem_of_nil in Hc].
    rewrite record_nil. cbn. by rewrite greater_zero.
  - rewrite exists_wrote_snoc, <-IH, record_snoc. unfold wrote. rewrite list_elem_of_singleton.
    case_decide as Hc; [|tauto]. destruct Hc as [Ha Hid].
    destruct (applyRecord_fields (record (Apply NewAlbums cs) id) c) as (_&->&_&_).
    case_decide; [rewrite raiseKey_greater|]; tauto.
Qed.

Lemma create_history cs id k :
  greater (createKey (record (Apply NewAlbums cs) id)) k = true ↔
  ∃ c, wrote cs id OpCreate c ∧ greater (keyOf c) k = true.
Proof.
  induction cs as [|c cs IH] using rev_ind.
  - split; [|by intros (c & (Hc & _) & _); apply elem_of_nil in Hc].
    rewrite record_nil. cbn. by rewrite greater_zero.
  - rewrite exists_wrote_snoc, <-IH, record_snoc. unfold wrote. rewrite list_elem_of_singleton.
    case_decide as Hc; [|tauto]. destruct Hc as [Ha Hid].
    destruct (applyRecord_fields (record (Apply NewAlbums cs) id) c) as (->&_).
    case_decide; [rewrite raiseKey_greater|]; tauto.
Qed.

Lemma covers_greater k k' : covers k k' = greater k k'.
Proof.
  unfold covers, isZero. case_bool_decide as Hk; [|done]. subst. by rewrite greater_zero.
Qed.

(** The photo and position an add writes, and the position a move does. *)
Definition added cs id k (it : albumItem) : Prop :=
  ∃ c p, wrote cs id OpAddItem c ∧ keyOf c = k ∧ Item c = Some p ∧ it = mkItem p (Pos c).
Definition movedTo cs id k (mv : albumMove) : Prop :=
  ∃ c, wrote cs id OpMoveItem c ∧ Base c = k ∧ mv = mkMove (Pos c) (keyOf c).

Lemma wrote_one c id op : wrote [c] id op c ↔ accepted c = true ∧ AlbumID c = id ∧ Op c = op.
Proof. unfold wrote. rewrite list_elem_of_singleton. tauto. Qed.

Lemma items_represent cs id : represents item_order (items (record (Apply NewAlbums cs) id)) (added cs id).
Proof.
  induction cs as [|c cs IH] using rev_ind.
  { intros k. rewrite record_nil. cbn. rewrite lookup_empty. intros it (c & p & (Hc & _) & _). by apply elem_of_nil in Hc. }
  assert (∀ k it, added (cs ++ [c]) id k it ↔ added cs id k it ∨
    (accepted c = true ∧ AlbumID c = id ∧ Op c = OpAddItem) ∧ k = keyOf c ∧ ∃ p, Item c = Some p ∧ it = mkItem p (Pos c)) as Hsnoc.
  { intros k it. unfold added. rewrite <-wrote_one. setoid_rewrite wrote_snoc. split.
    - intros (d & p & [Hd|[-> Hd]] & Hk & Hp & Hit); [left; by exists d, p|right]. split; [exact Hd|]. split; [by symmetry|by exists p].
    - intros [(d & p & Hd & Hr)|(Hd & -> & p & Hp & ->)]; [exists d, p; tauto|]. exists c, p. tauto. }
  eapply represents_ext; [intros; symmetry; apply Hsnoc|]. rewrite record_snoc. case_decide as Hc.
  2:{ eapply represents_ext; [|exact IH]. intros k v. tauto. }
  destruct (applyRecord_fields (record (Apply NewAlbums cs) id) c) as (_&_&_&->&_).
  destruct (decide (Op c = OpAddItem)) as [Hop|Hop].
  - destruct (accepted_item c (proj1 Hc) Hop) as [p Hp]. rewrite Hp.
    eapply represents_ext; [|apply (represents_put item_order joinItem _ _ (keyOf c) (mkItem p (Pos c)) joinItem_min IH)].
    intros k v. split; [intros [?|[-> ->]]; [by left|right; split; [by destruct Hc|]; split; [done|by exists p]]|].
    intros [?|(_ & -> & q & [= <-] & ->)]; [by left|by right].
  - assert (match Item c with Some _ => items (record (Apply NewAlbums cs) id) | None => items (record (Apply NewAlbums cs) id) end
      = items (record (Apply NewAlbums cs) id)) as -> by (by destruct (Item c)).
    eapply represents_ext; [|exact IH]. intros k v. tauto.
Qed.

Lemma moves_represent cs id : represents move_order (moves (record (Apply NewAlbums cs) id)) (movedTo cs id).
Proof.
  induction cs as [|c cs IH] using rev_ind.
  { intros k. rewrite record_nil. cbn. rewrite lookup_empty. intros mv (c & (Hc & _) & _). by apply elem_of_nil in Hc. }
  assert (∀ k mv, movedTo (cs ++ [c]) id k mv ↔ movedTo cs id k mv ∨
    (accepted c = true ∧ AlbumID c = id ∧ Op c = OpMoveItem) ∧ k = Base c ∧ mv = mkMove (Pos c) (keyOf c)) as Hsnoc.
  { intros k mv. unfold movedTo. rewrite <-wrote_one. setoid_rewrite wrote_snoc. split.
    - intros (d & [Hd|[-> Hd]] & Hk & Hmv); [left; by exists d|right]. split; [exact Hd|]. split; [by symmetry|done].
    - intros [(d & Hd & Hr)|(Hd & -> & ->)]; [exists d; tauto|]. exists c. tauto. }
  eapply represents_ext; [intros; symmetry; apply Hsnoc|]. rewrite record_snoc. case_decide as Hc.
  2:{ eapply represents_ext; [|exact IH]. intros k v. tauto. }
  destruct (applyRecord_fields (record (Apply NewAlbums cs) id) c) as (_&_&_&_&->).
  destruct (decide (Op c = OpMoveItem)) as [Hop|Hop].
  - eapply represents_ext; [|apply (represents_put move_order joinMove _ _ (Base c) (mkMove (Pos c) (keyOf c)) joinMove_min IH)].
    intros k v. split; [intros [?|[-> ->]]; [by left|right; tauto]|]. intros [?|(_ & -> & ->)]; [by left|by right].
  - eapply represents_ext; [|exact IH]. intros k v. tauto.
Qed.

(** What the writes say of the item under a key: the photo and place of the add, the least
    by text and place where adds collide on the key; and the place of the move of it with
    the greatest key, when that is above the key of the add. *)
Definition stands cs id (it : liveItem) : Prop :=
  ∃ x, added cs id (lkey it) x ∧ (∀ y, added cs id (lkey it) y → item_order y x = false) ∧
    lphoto it = photo x ∧
    ((∀ mv, movedTo cs id (lkey it) mv → greater (mkey mv) (lkey it) = false) ∧ lpos it = pos x ∨
     ∃ mv, movedTo cs id (lkey it) mv ∧ (∀ mv', movedTo cs id (lkey it) mv' → move_order mv' mv = false) ∧
       greater (mkey mv) (lkey it) = true ∧ lpos it = mpos mv).

Lemma move_order_key mv mv' k :
  move_order mv' mv = false → greater (mkey mv') k = true → greater (mkey mv) k = true.
Proof.
  unfold move_order, lex_less, key_less, flip_less. intros Ho Hk. case_decide as Hd; [congruence|].
  destruct (greater (mkey mv) k) eqn:E; [done|]. pose proof (less_ntrans (less := greater) _ _ _ Ho E). congruence.
Qed.

Lemma live_stands cs id it : it ∈ liveItems (record (Apply NewAlbums cs) id) → stands cs id it.
Proof.
  intros (x & Hx & Hr)%elem_of_liveItems. exists x.
  pose proof (items_represent cs id (lkey it)) as Hi. rewrite Hx in Hi. destruct Hi as [Ha Hl].
  pose proof (readItem_key _ _ _ _ Hr) as [_ Hp]. split_and!; [done..|].
  pose proof (moves_represent cs id (lkey it)) as Hm. rewrite (readItem_pos _ _ _ _ Hr).
  destruct (moves _ !! lkey it) as [mv|].
  - destruct Hm as [Hmv Hleast]. destruct (greater (mkey mv) (lkey it)) eqn:E.
    + right. by exists mv.
    + left. split; [|done]. intros mv' Hmv'. destruct (greater (mkey mv') (lkey it)) eqn:E'; [|done].
      by rewrite (move_order_key mv mv' _ (Hleast _ Hmv') E') in E.
  - left. split; [|done]. intros mv' Hmv'. by destruct (Hm mv').
Qed.

(** The items of an album are the adds that no remove names and no later delete covers. *)
Lemma present_history cs id k :
  k ∈ lkey <$> liveItems (record (Apply NewAlbums cs) id) ↔
  (∃ c, wrote cs id OpAddItem c ∧ keyOf c = k) ∧
  (¬ ∃ c, wrote cs id OpRemoveItem c ∧ Base c = k) ∧
  ¬ ∃ c, wrote cs id OpDelete c ∧ greater (keyOf c) k = true.
Proof.
  rewrite <-items_history, <-removed_history, <-tombstone_history.
  set (r := record _ _). rewrite list_elem_of_fmap. setoid_rewrite elem_of_liveItems.
  unfold readItem. split.
  - intros (it & -> & x & Hx & Hr). revert Hr. rewrite covers_greater. case_decide; [done|].
    destruct (greater _ _); [done|]. intros _. split_and!; [by eexists|done|done].
  - intros ([x Hx] & Hrm & Hd). set (it := readItem r k x).
    assert (is_Some it) as [i Hi].
    { unfold it, readItem. rewrite decide_False, covers_greater by done.
      destruct (greater _ _); [by destruct Hd|by eexists]. }
    exists i. pose proof (readItem_key _ _ _ _ Hi) as [Hk _]. split; [done|].
    rewrite Hk. exists x. split; [done|]. exact Hi.
Qed.

Lemma delKey_history cs id :
  delKey (record (Apply NewAlbums cs) id) = zeroKey ∨
  ∃ c, wrote cs id OpDelete c ∧ keyOf c = delKey (record (Apply NewAlbums cs) id).
Proof.
  induction cs as [|c cs IH] using rev_ind; [left; by rewrite record_nil|].
  rewrite exists_wrote_snoc, record_snoc. unfold wrote at 2. rewrite list_elem_of_singleton.
  case_decide as Hc; [|tauto]. destruct Hc as [Ha Hid].
  destruct (applyRecord_fields (record (Apply NewAlbums cs) id) c) as (_&->&_&_).
  case_decide; [|tauto]. unfold raiseKey. case_match; tauto.
Qed.

(** An album is there when some create of it beats every delete. *)
Lemma live_history cs id :
  live (record (Apply NewAlbums cs) id) = true ↔
  ∃ c, wrote cs id OpCreate c ∧ ∀ d, wrote cs id OpDelete d → greater (keyOf c) (keyOf d) = true.
Proof.
  set (r := record _ _). assert (live r = greater (createKey r) (delKey r)) as ->.
  { unfold live, isZero. case_bool_decide as Hz; [|done]. rewrite Hz. by rewrite greater_zero. }
  assert (∀ d, wrote cs id OpDelete d → greater (keyOf d) (delKey r) = false) as Hmax.
  { intros d Hd. destruct (greater (keyOf d) (delKey r)) eqn:E; [|done].
    assert (greater (delKey r) (delKey r) = true) as Hg by (apply tombstone_history; eauto).
    by rewrite less_irrefl in Hg. }
  unfold r at 1. rewrite create_history. split; intros (c & Hc & Hd); exists c; (split; [done|]).
  - intros d Hdel. destruct (greater (keyOf c) (keyOf d)) eqn:E; [done|].
    pose proof (less_ntrans (less := greater) _ _ _ E (Hmax d Hdel)). congruence.
  - destruct (greater (keyOf c) (delKey r)) eqn:E; [done|].
    destruct (greater (delKey r) (keyOf c)) eqn:E'.
    + apply tombstone_history in E' as (d & Hdel & Hg). specialize (Hd d Hdel).
      by rewrite (less_asym greater _ _ Hg) in Hd.
    + pose proof (less_antisym (less := greater) _ _ E E') as Heq.
      destruct (delKey_history cs id) as [Hz|(d & Hdel & Hk)];
        [change (delKey r = zeroKey) in Hz|change (keyOf d = delKey r) in Hk].
      * destruct Hc as (_ & Ha & _). apply accepted_writer in Ha. congruence.
      * specialize (Hd d Hdel). rewrite Hk, <-Heq, less_irrefl in Hd. done.
Qed.
End history.

(** ** The theorems *)

Section theorems.
Context `{AlbumEnv}.

(** A change is accepted exactly when it has a writer and an album, its op is known, and
    it carries what its op reads and nothing else. *)
Theorem album_validate (c : AlbumChange) :
  Validate c = None ↔
  Writer c ≠ "" ∧ AlbumID c ≠ "" ∧
  ((Op c = OpCreate ∨ Op c = OpSetTitle) ∧ carries c fieldTitle ∨
   Op c = OpSetCaption ∧ carries c fieldCaption ∨
   Op c = OpSetCover ∧ (Cover c = "" ∨ ParseId (Cover c) = true) ∧ carries c fieldCover ∨
   Op c = OpAddItem ∧ (∃ p, Item c = Some p ∧ ValidatePhoto p = None) ∧
     carries c (N.lor fieldItem fieldPos) ∨
   Op c = OpRemoveItem ∧ Base c ≠ zeroKey ∧ carries c fieldBase ∨
   Op c = OpMoveItem ∧ Base c ≠ zeroKey ∧ carries c (N.lor fieldBase fieldPos) ∨
   Op c = OpDelete ∧ carries c 0).
Proof.
  unfold Validate, isZero. rewrite <-!only_spec.
  destruct (decide (Writer c = "")) as [|Hw]; [by split; [|intros (? & _)]|].
  destruct (decide (AlbumID c = "")) as [|Hi]; [by split; [|intros (_ & ? & _)]|].
  set (e1 := only c fieldTitle). set (e2 := only c fieldCaption). set (e3 := only c fieldCover).
  set (e4 := only c (N.lor _ _)). set (e5 := only c fieldBase). set (e6 := only c (N.lor _ _)).
  set (e7 := only c 0). clearbody e1 e2 e3 e4 e5 e6 e7.
  unfold OpCreate, OpSetTitle, OpSetCaption, OpSetCover, OpAddItem, OpRemoveItem, OpMoveItem, OpDelete.
  generalize (Op c). intros op. split.
  - repeat match goal with |- context [decide (op = ?k)] => destruct (decide (op = k)) as [->|?] end;
      intros He; try done; (split; [done|split; [done|]]).
    + left. auto.
    + left. auto.
    + right. left. auto.
    + do 2 right. left. destruct (bool_decide_reflect (Cover c = "")), (ParseId (Cover c)) eqn:E;
        simpl in He; done || auto.
    + do 3 right. left. destruct (Item c) as [p|] eqn:Ep; [|done].
      destruct (ValidatePhoto p) eqn:E; [done|]. split_and!; [done|by exists p|done].
    + do 4 right. left. by case_bool_decide.
    + do 5 right. left. by case_bool_decide.
    + do 6 right. auto.
  - intros (_ & _ & D).
    destruct D as [[[->| ->] ?]|[[-> ?]|[(-> & Hc & ?)|[(-> & (p & Hp & Hv) & ?)|[(-> & Hb & ?)|[(-> & Hb & ?)|[-> ?]]]]]]];
      simpl; try done.
    + destruct (bool_decide_reflect (Cover c = "")); [done|]. by destruct Hc as [?| ->].
    + by rewrite Hp, Hv.
    + by rewrite bool_decide_eq_false_2.
    + by rewrite bool_decide_eq_false_2.
Qed.

(** C38. What a replica shows of an album is a function of the writes of its history: the album
    is there when a create of it beats every delete; its items are those of the adds that no
    remove names and no later delete covers, one for each key; an item has the photo and the
    position of its add (the least, where adds collide on a key), but the position of the
    greatest move of it when that is later than the add; the photos shown are, ordered by
    position and then by key, the first item of each plaintext, each once. *)
Theorem album_contents (cs : list AlbumChange) (id : string) :
  let r := record (Apply NewAlbums cs) id in
  (is_Some (Album (Apply NewAlbums cs) id) ↔
    ∃ c, wrote cs id OpCreate c ∧ ∀ d, wrote cs id OpDelete d → greater (keyOf c) (keyOf d) = true) ∧
  (∀ k, k ∈ lkey <$> liveItems r ↔
    (∃ c, wrote cs id OpAddItem c ∧ keyOf c = k) ∧
    (¬ ∃ c, wrote cs id OpRemoveItem c ∧ Base c = k) ∧
    ¬ ∃ c, wrote cs id OpDelete c ∧ greater (keyOf c) k = true) ∧
  NoDup (lkey <$> liveItems r) ∧
  (∀ it, it ∈ liveItems r → stands cs id it) ∧
  ∀ ra, Album (Apply NewAlbums cs) id = Some ra →
    (∀ x, x ∈ RItems ra ↔ ∃ it, x = shownOf it ∧ it ∈ liveItems r ∧
      ∀ y, y ∈ liveItems r → hash y = hash it → y = it ∨ item_less it y = true) ∧
    NoDup (PlaintextHash ∘ RPhoto <$> RItems ra) ∧
    StronglySorted (λ x y, (RPos x < RPos y)%N ∨ (RPos x = RPos y ∧ greater (RKey y) (RKey x) = true))
      (RItems ra).
Proof.
  intros r. split_and!.
  - rewrite Album_eq, <-live_history. fold r. case_decide.
    + split; [done|by eexists].
    + split; [by intros []|done].
  - intros k. apply present_history.
  - apply NoDup_liveKeys.
  - intros it. apply live_stands.
  - intros ra. rewrite Album_eq. fold r. case_decide; [|done]. intros [= <-]. rewrite resolve_eq.
    cbn [RItems]. split_and!.
    + intros x. rewrite list_elem_of_fmap. split; intros (it & Hx & Hin); exists it; (split; [done|]).
      * apply elem_of_firsts in Hin as (? & _ & ?); [done|apply NoDup_liveItems|apply liveItems_sorted|].
        apply liveItems_separated.
      * apply elem_of_firsts; [apply NoDup_liveItems|apply liveItems_sorted| |set_solver].
        apply liveItems_separated.
    + rewrite <-list_fmap_compose. apply (firsts_hashes ∅ (liveItems r)).
    + apply shown_sorted.
Qed.

(** Adding a photo appends it: on a device whose clock has room, with a fresh tag, the
    items of the album are the items before and then the photo; what is shown grows by the
    photo unless its plaintext is already shown; nothing else moves, and the change that is
    shipped, applied to the same state, gives the same state. *)
Theorem album_append (tag : string) (a a' : Albums) (id : string) (p : PhotoManifest) (c : AlbumChange) :
  clocked a → counter a ≠ MaxUint64 →
  mkKey (peekAt a) tag ∉ removed (record a id) → moves (record a id) !! mkKey (peekAt a) tag = None →
  AddItem tag a id p = inr (a', c) →
  keyOf c = mkKey (peekAt a) tag ∧ Apply a [c] = a' ∧ clocked a' ∧
  liveItems (record a' id) = liveItems (record a id) ++ [mkLive (keyOf c) (Pos c) p] ∧
  (∀ ra, Album a id = Some ra → ∃ ra', Album a' id = Some ra' ∧
     RItems ra' = RItems ra ++
       (if decide (PlaintextHash p ∈ PlaintextHash ∘ RPhoto <$> RItems ra) then []
        else [mkResolvedItem (keyOf c) (Pos c) p]) ∧
     RTitle ra' = RTitle ra ∧ RCaption ra' = RCaption ra) ∧
  ∀ id', id' ≠ id → Album a' id' = Album a id'.
Proof.
  intros Ha Hmax Hrm Hmv. unfold AddItem, AddItemAt.
  set (r := record a id) in *. set (q := appendPos _).
  match goal with |- local_ a ?x = _ → _ => set (c0 := x) end. intros Hlocal.
  pose proof (clocked_record_at a id Ha) as Hr. fold r in Hr.
  destruct (appendPos_spec _ (lastPos_u64 _ _ Hr)) as (Hq & Hle & _).
  assert (minted tag a c0) as Hmint by done.
  destruct (local_spec tag a a' c0 c Ha Hmint Hlocal) as (-> & Hv & Hship & Hc' & _ & Hrec & _ & Hother).
  change (AlbumID c0) with id in *. fold r in Hrec.
  assert (liveItems (record a' id) = liveItems r ++ [mkLive (keyOf c0) q p]) as Hitems.
  { rewrite Hrec, (apply_add r c0 p) by done. apply (liveItems_add (counter a) _ (keyOf c0) p q Hr); try done.
    intros k' Hk'. apply next_above; [apply Ha|done|done]. }
  split_and!; try done. intros ra Hra. rewrite Album_eq in Hra |- *. fold r in Hra.
  assert (live (record a' id) = live r) as -> by (rewrite Hrec; by destruct r).
  destruct (decide (live r = true)); [|done]. injection Hra as <-. eexists. split; [done|].
  rewrite !resolve_eq. cbn [RItems RTitle RCaption]. rewrite Hitems, firsts_snoc, fmap_app.
  split_and!; [|rewrite Hrec; by destruct r..]. f_equal. rewrite <-list_fmap_compose.
  change (PlaintextHash ∘ RPhoto ∘ shownOf) with hash.
  destruct (decide (hash (mkLive (keyOf c0) q p) ∈ hash <$> firsts ∅ (liveItems r))) as [Hin|Hout].
  - rewrite decide_True by (by right). by rewrite decide_True.
  - rewrite decide_False by set_solver. by rewrite decide_False.
Qed.

(** Removing an item takes that item out and leaves the others where they are; moving one
    puts it at its new position and keeps every other item; deleting an album takes it
    away; and the album created again after a delete starts empty, whatever it held. *)
Theorem album_edits (tag : string) (a a' : Albums) (id : string) (c : AlbumChange) :
  clocked a → counter a ≠ MaxUint64 →
  (∀ k, RemoveItem tag a id k = inr (a', c) →
     Apply a [c] = a' ∧ liveItems (record a' id) = filter (λ it, lkey it ≠ k) (liveItems (record a id))) ∧
  (∀ k p, is_u64 p → MoveItem tag a id k p = inr (a', c) →
     Apply a [c] = a' ∧
     liveItems (record a' id) = sort_by item_less (relocate k p <$> liveItems (record a id))) ∧
  (Delete tag a id = inr (a', c) →
     Apply a [c] = a' ∧ Album a' id = None ∧
     ∀ tag' title a'' c', counter a' ≠ MaxUint64 → Create tag' a' id title = inr (a'', c') →
       Album a'' id = Some (mkResolved id title "" "" [])).
Proof.
  intros Ha Hmax. pose proof (clocked_record_at a id Ha) as Hr.
  assert (∀ k, (KeyAt k ≤ counter a)%N → greater (mkKey (peekAt a) tag) k = true) as Hnext
    by (intros; apply next_above; [apply Ha|done..]).
  split_and!.
  - intros k Hlocal. unfold RemoveItem in Hlocal.
    match type of Hlocal with local_ a ?x = _ => set (c0 := x) in * end.
    assert (minted tag a c0) as Hmint by done.
    destruct (local_spec tag a a' c0 c Ha Hmint Hlocal) as (-> & _ & Hship & _ & _ & Hrec & _).
    change (AlbumID c0) with id in *. split; [done|].
    rewrite Hrec, apply_remove by done. apply (liveItems_remove _ k).
  - intros k p Hp Hlocal. unfold MoveItem in Hlocal.
    match type of Hlocal with local_ a ?x = _ => set (c0 := x) in * end.
    assert (minted tag a c0) as Hmint by done.
    destruct (local_spec tag a a' c0 c Ha Hmint Hlocal) as (-> & _ & Hship & _ & _ & Hrec & _).
    change (AlbumID c0) with id in *. split; [done|].
    rewrite Hrec, apply_move by done. apply (liveItems_move (counter a) _ k p (keyOf c0) Hr Hnext).
  - intros Hlocal. unfold Delete in Hlocal.
    match type of Hlocal with local_ a ?x = _ => set (c0 := x) in * end.
    assert (minted tag a c0) as Hmint by done.
    destruct (local_spec tag a a' c0 c Ha Hmint Hlocal) as (-> & _ & Hship & Ha' & Hcnt & Hrec & _).
    change (AlbumID c0) with id in *.
    pose proof Hr as ((Hck&Hdk)&Hregs&Hits&Hmvs).
    rewrite apply_delete in Hrec by done. unfold raiseKey in Hrec.
    change (keyOf c0) with (mkKey (peekAt a) tag) in Hrec. rewrite (Hnext _ Hdk) in Hrec.
    split_and!; [done| |].
    + rewrite Album_eq, decide_False; [done|]. unfold live. rewrite Hrec. cbn [createKey delKey].
      by rewrite (less_asym greater _ _ (Hnext _ Hck)), andb_false_r.
    + intros tag' t a'' c' Hmax' Hcreate. unfold Create in Hcreate.
      match type of Hcreate with local_ a' ?x = _ => set (c1 := x) in * end.
      assert (minted tag' a' c1) as Hmint' by done.
      destruct (local_spec tag' a' a'' c1 c' Ha' Hmint' Hcreate) as (-> & Hv & _ & _ & _ & Hrec' & _).
      change (AlbumID c1) with id in *.
      destruct (recreated (counter a) (record a' id) c1 id) as [Hlive Hres]; try done.
      * intros k Hk. rewrite Hrec. by apply Hnext.
      * rewrite Hrec. split; [split; [done|]|done]. simpl. lia.
      * rewrite Hrec. cbn [delKey]. apply next_above; [apply Ha'|done|]. rewrite Hcnt. simpl. lia.
      * rewrite Album_eq, Hrec', Hres. by rewrite decide_True.
Qed.

(** The cover of an album is the cover that was set when a photo that is SHOWN carries it,
    else the first photo shown, else nothing. *)
Theorem album_cover (a : Albums) (id : string) (ra : ResolvedAlbum) :
  Album a id = Some ra →
  let co := valueOf (record a id) (cover (record a id)) in
  RCover ra =
    if decide (co ≠ "" ∧ co ∈ Manifest ∘ RPhoto <$> RItems ra) then co
    else default "" (Manifest ∘ RPhoto <$> head (RItems ra)).
Proof.
  rewrite Album_eq. case_decide; [|done]. intros [= <-]. rewrite resolve_eq. cbn [RCover RItems].
  rewrite <-list_fmap_compose. change (Manifest ∘ RPhoto ∘ shownOf) with (Manifest ∘ lphoto).
  set (l := firsts _ _). f_equal. by destruct l.
Qed.

End theorems.

Section lawful.
Context `{AlbumEnvLaws}.

(** C1. Albums converge: two devices that saw the same set of changes, in any orders, with any
    duplicates and with any foreign, malformed or key-colliding changes among them, hold the
    same albums; merging albums is replaying their changes; and what a device reports as
    rejected is its malformed changes, in order. *)
Theorem album_converges (cs ds : list AlbumChange) (css : list (list AlbumChange)) :
  (∀ c, c ∈ cs ↔ c ∈ ds) →
  Apply NewAlbums cs = Apply NewAlbums ds ∧
  MergeAlbums (Some ∘ Apply NewAlbums <$> css) = Apply NewAlbums (concat css) ∧
  (ApplyReport NewAlbums cs).2 = filter (λ c, malformed c = true) cs.
Proof.
  intros Hset. split_and!.
  - apply apply_set; [apply ok_New|done].
  - apply merge_replays.
  - unfold ApplyReport. by rewrite album_report_eq.
Qed.

Lemma regFromSnapshot_reg r : wfReg r → regFromSnapshot (regSnapshot r) = r.
Proof.
  intros Hr. unfold regSnapshot. destruct (set r) eqn:E; simpl; [|by rewrite Hr].
  destruct r as [s v [at_ w]]. simpl in *. by subst.
Qed.

Lemma readAlbum_snap id r : ok_record r → readAlbum (snapAlbum (id, r)) = r.
Proof.
  intros [(Ht & Hc & Hco) _]. unfold readAlbum, snapAlbum. simpl.
  rewrite !regFromSnapshot_reg by done.
  rewrite (insert_each_map itemKeyOf _ snapItem _ (items r)); [..|apply (sort_by_perm _)].
  2: by intros [[] ?]. 2: by intros [? []].
  rewrite (insert_each_map moveItemOf _ snapMove _ (moves r)); [..|apply (sort_by_perm _)].
  2: by intros [[] ?]. 2: by intros [? [? []]].
  assert (foldl (λ rm k, {[k]} ∪ rm) ∅ (sort_by lessKey (elements (removed r))) = removed r) as ->.
  { rewrite <-(list_to_set_elements_L (removed r)) at 2. apply set_eq. intros k.
    rewrite elem_of_list_to_set, <-(elem_of_sort_by lessKey).
    generalize (sort_by lessKey (elements (removed r))) as l. intros l.
    induction l as [|x l IH] using rev_ind; [set_solver|]. rewrite foldl_snoc'. set_solver. }
  by destruct r as [[] [] ? ? ? ? ? ?].
Qed.

(** Albums read back from their snapshot are the albums, whatever changes made them, so a
    device that starts from a snapshot and applies the changes after it holds what a full
    replay gives. *)
Theorem album_snapshot_roundtrip (cs ds : list AlbumChange) :
  let a := Apply NewAlbums cs in
  AlbumsFromSnapshot (Snapshot a) = a ∧
  Apply (AlbumsFromSnapshot (Snapshot a)) ds = Apply NewAlbums (cs ++ ds).
Proof.
  cbv zeta. pose proof (albums_ok _ cs ok_New) as Hok.
  assert (AlbumsFromSnapshot (Snapshot (Apply NewAlbums cs)) = Apply NewAlbums cs) as Heq.
  { destruct (Apply NewAlbums cs) as [m n]. unfold AlbumsFromSnapshot, Snapshot. simpl. f_equal.
    apply (insert_each_map_in _ _ snapAlbum).
    - intros id r Hid. split; [done|]. apply readAlbum_snap. by apply (Hok id).
    - apply (sort_by_perm _). }
  split; [done|]. rewrite Heq, !albums_foldl. by rewrite foldl_app.
Qed.
End lawful.

(** ** Witnesses

    An environment that checks an id by its prefix and its hex digits. *)

Definition is_hex (c : ascii) : bool :=
  let n := N_of_ascii c in ((48 <=? n) && (n <=? 57) || (97 <=? n) && (n <=? 102))%N.

Definition ex_env : AlbumEnv := λ s,
  match CutPrefix s "blake3:" with
  | Some h => (String.length h =? 64)%nat && forallb is_hex (String.list_ascii_of_string h)
  | None => false
  end.

Lemma hex_bar s : forallb is_hex (String.list_ascii_of_string s) = true → has_byte "|" s = false.
Proof.
  induction s as [|c s IH]; [done|]. cbn. intros [Hc Hs]%andb_true_iff.
  rewrite IH, orb_false_r by done. apply bool_decide_eq_false. intros ->. done.
Qed.

Lemma ex_album_laws : @AlbumEnvLaws ex_env.
Proof.
  intros s. unfold ParseId, ex_env. destruct (CutPrefix s "blake3:") as [h|] eqn:E; [|done].
  apply CutPrefix_spec in E as ->. intros [_ Hh]%andb_true_iff. rewrite has_byte_app, (hex_bar h) by done.
  done.
Qed.

Definition ex_id (h : string) : string :=
  ("blake3:000000000000000000000000000000000000000000000000000000000000000" +:+ h)%string.
Definition ex_photo (m h : string) : PhotoManifest := mkPhoto (ex_id m) "" "" (ex_id h) 4 3 0.

Definition ex_create : AlbumChange :=
  mkChange KindAlbum OpCreate "a1" None 0 "Summer" "" "" 1 "w1" zeroKey.
Definition ex_add (m h : string) (pos at_ : N) (w : string) : AlbumChange :=
  mkChange KindAlbum OpAddItem "a1" (Some (ex_photo m h)) pos "" "" "" at_ w zeroKey.
Definition ex_set_cover (m : string) (at_ : N) : AlbumChange :=
  mkChange KindAlbum OpSetCover "a1" None 0 "" "" (ex_id m) at_ "w8" zeroKey.

(** The second add and the third collide on one key. *)
Definition ex_history : list AlbumChange :=
  [ex_create; ex_add "1" "a" 65536 2 "w2"; ex_add "2" "b" 131072 3 "w3"; ex_add "3" "c" 65536 3 "w3"].

Lemma album_converges_witness :
  @Apply ex_env NewAlbums ex_history = @Apply ex_env NewAlbums (rev ex_history ++ [ex_create]).
Proof.
  apply (@album_converges ex_env ex_album_laws ex_history (rev ex_history ++ [ex_create]) []).
  intros c. simpl. set_solver.
Defined.

Definition ex_albums : Albums := @Apply ex_env NewAlbums ex_history.

Lemma ex_albums_clocked : clocked ex_albums.
Proof.
  apply (@albums_clocked ex_env); [apply albums_clocked_New|].
  apply Forall_forall. intros c Hc. cases_in Hc; by vm_compute.
Qed.

Lemma album_append_witness :
  match @AddItem ex_env "w9" ex_albums "a1" (ex_photo "7" "e") with
  | inr (a', c) => liveItems (record a' "a1") =
      liveItems (record ex_albums "a1") ++ [mkLive (keyOf c) (Pos c) (ex_photo "7" "e")]
  | inl _ => False
  end.
Proof.
  destruct (@AddItem ex_env "w9" ex_albums "a1" (ex_photo "7" "e")) as [e|[a' c]] eqn:E;
    [vm_compute in E; discriminate E|].
  destruct (@album_append ex_env "w9" ex_albums a' "a1" (ex_photo "7" "e") c ex_albums_clocked)
    as (_ & _ & _ & Hl & _); [vm_compute; discriminate|decide_vm|vm_compute; reflexivity|exact E|].
  exact Hl.
Defined.

(** The key of the first photo of the history. *)
Definition ex_key : posKey := mkKey 2 "w2".

Lemma album_edits_witness :
  match @RemoveItem ex_env "w9" ex_albums "a1" ex_key with
  | inr (a', _) => ex_key ∉ lkey <$> liveItems (record a' "a1")
  | inl _ => False
  end.
Proof.
  destruct (@RemoveItem ex_env "w9" ex_albums "a1" ex_key) as [e|[a' c]] eqn:E;
    [vm_compute in E; discriminate E|].
  destruct (@album_edits ex_env "w9" ex_albums a' "a1" c ex_albums_clocked) as (Hrm & _);
    [vm_compute; discriminate|].
  destruct (Hrm ex_key E) as [_ ->]. intros (it & Hk & [Hne _]%list_elem_of_filter)%list_elem_of_fmap.
  by rewrite <-Hk in Hne.
Defined.

(** The photo that was moved shows its move's position. *)
Definition ex_moved : list AlbumChange :=
  ex_history ++ [mkChange KindAlbum OpMoveItem "a1" None 7 "" "" "" 9 "w4" ex_key].

Lemma album_contents_witness :
  (∃ ra, Album (@Apply ex_env NewAlbums ex_moved) "a1" = Some ra ∧ NoDup (PlaintextHash ∘ RPhoto <$> RItems ra)) ∧
  mkLive ex_key 7 (ex_photo "1" "a") ∈ liveItems (record (@Apply ex_env NewAlbums ex_moved) "a1") ∧
  @stands ex_env ex_moved "a1" (mkLive ex_key 7 (ex_photo "1" "a")).
Proof.
  destruct (@album_contents ex_env ex_moved "a1") as (_ & _ & _ & Hst & Hshown).
  split.
  - destruct (Album (@Apply ex_env NewAlbums ex_moved) "a1") as [ra|] eqn:E; [|vm_compute in E; discriminate E].
    exists ra. split; [done|]. by destruct (Hshown ra eq_refl) as (_ & ? & _).
  - assert (mkLive ex_key 7 (ex_photo "1" "a") ∈ liveItems (record (@Apply ex_env NewAlbums ex_moved) "a1")) as Hin by decide_vm.
    split; [exact Hin|]. apply Hst, Hin.
Defined.

(** A live photo carries the cover that was set, but it is hidden behind an earlier one
    with the same plaintext: the album shows the first photo as its cover. *)
Theorem album_cover_hidden :
  let a := @Apply ex_env NewAlbums
    [ex_create; ex_add "1" "a" 65536 2 "w2"; ex_add "2" "b" 131072 3 "w3";
     ex_add "3" "b" 196608 4 "w4"; ex_set_cover "3" 5] in
  let r := record a "a1" in
  ex_id "3" ∈ Manifest ∘ lphoto <$> liveItems r ∧ valueOf r (cover r) = ex_id "3" ∧
  RCover <$> Album a "a1" = Some (ex_id "1").
Proof. split_and!; [decide_vm|by vm_compute|by vm_compute]. Qed.
